(* ===== verification/_CoqProject ===== *)
-Q . S2P
Prelude.v
RustStr.v
StrSearch.v
F64.v
TokenEstimation.v
Conversation.v
Sampling.v
Concrete.v
ToolPairing.v
ToolPairingFacts.v
HistoryRepair.v
Truncation.v
Usage.v
RequestBuilder.v
State.v
Actor.v
Demo.v
ActorLemmas.v
Capture.v
Mirror.v
Safety.v
RequestFacts.v
RequestBodies.v
Session.v
Breaker.v
BreakerFacts.v
BreakerRace.v
FileSystem.v
SeekSequence.v
PatchParser.v
PatchGrammar.v
PatchApply.v
ApplyPatchTool.v
ReadFile.v
Permission.v
PermissionRules.v
BashSyntax.v
PermissionDemo.v
PermissionPolicy.v
PolicyFacts.v
ShellAccess.v
AutoMode.v
BashGate.v
PermissionManager.v
PermissionFacts.v
HunkTypes.v
LocSink.v
HunkDiff.v
HunkDiffFacts.v
HunkWorld.v
HunkTracker.v
HunkIndex.v
HunkTrackerFacts.v
HunkFacts.v
HunkActs.v
HunkDemo.v
HunkSummary.v
HunkTheorems.v
HashlineScheme.v
HashlineSchemeFacts.v
HashlineEdit.v
HashlineApplyFacts.v
HashlineBatch.v
HashlineTool.v
HashlineTheorems.v
CompactionText.v
CompactionTextFacts.v
Compaction.v
CompactionFacts.v
CompactionTheorems.v
SamplingError.v
SamplerStream.v
SamplerTransform.v
SamplerTask.v
SamplerFacts.v
SamplerTheorems.v
ImageCheck.v
Wire.v
WireTheorems.v
ChatHistory.v
