(* ===== verification/Prelude.v ===== *)
(** * Grodex: a verification library

    Grodex is a coding agent in a Rust monorepo.  This library models parts of
    its core logic as executable functions and proves what makes them correct:
    the chat-state actor that owns a session's conversation, the permission
    system between the model and the machine, the circuit breaker in front of
    remote services, the patch, read and hashline tools through which a model
    edits and reads files, the hunk tracker through which a user accepts or rejects
    these edits, the compaction engine that replaces old turns by a summary, the
    sampler that sends requests to a model, reads its streams and retries, the
    requests of the three backends, and the history of a session on disk.
    Names follow the sources; every file says which source files it translates.  All paths are under [src/crates].

    ** The parts and how they interact

    - _Conversation items_ ([codegen/xai-grok-sampling-types]) are the data the
      other parts share: files Conversation (the items, their constructors and
      texts), Sampling (usage, configuration, requests, [strip_images]),
      TokenEstimation ([codegen/xai-token-estimation]), ToolPairing (dangling
      call repair, duplicate removal, [repair_history]) and Truncation
      ([conversation_truncate_for_prompt]).
    - _The chat-state actor_ ([codegen/xai-chat-state]) processes one
      [ChatStateCommand] at a time.  State holds [ChatState], the commands,
      replies, events and persistence records; Actor holds every handler of
      [mutations.rs] and [queries.rs], [build_conversation_request] and the
      dispatch [handle_command]; RequestBuilder holds pruning, image eviction
      and the memory reminder of [request_builder.rs], the user-query
      extraction of [compaction_utils.rs] and the system-head comparison of
      [conversation_util.rs]; Usage the billing ledgers of [usage.rs].  A handler is a function from the actor to
      [option] of the next one: [None] is a panic.  What the actor sends to its
      persistence thread and to the session is appended to two logs.
    - _The permission system_ ([codegen/xai-grok-workspace/src/permission])
      decides whether a tool call runs.  Permission holds what is asked
      ([AccessKind]), the answers ([Decision]), rules and the domain allowlist;
      PermissionRules the rule-string language; BashSyntax plain commands and
      wrappers over a syntax tree; PermissionPolicy the compiled policy and its
      gate on every segment of a script; ShellAccess the files a script reads
      and writes; AutoMode the deterministic classifier; BashGate the safe and
      dangerous commands, floors and grants; PermissionManager the actor: one
      [PermissionCommand] at a time, the decision pipeline of a request, the
      prompt's answers, and the mode flags it shares with its handles, whose calls
      are cut at their stores and sends ([HandleOp]).  The
      tool calls of the session pass through it before any tool runs.
    - _The circuit breaker_ ([common/xai-circuit-breaker]): Breaker (the sliding
      window, configuration, retry policy, the state machine, the
      registry) and BreakerRace (the same handlers cut at their atomic
      operations).  One call is one step of Breaker, reading the clock through
      an argument.
    - _The codex tools_ ([codegen/xai-grok-tools], [implementations/codex]):
      SeekSequence (the fuzzy matcher), PatchParser, PatchApply and
      ApplyPatchTool are [apply_patch]; ReadFile is [read_file].  FileSystem is
      the interface they share: the trait [AsyncFileSystem] as a class of
      operations, its laws as a second class, an instance in memory.
    - _The hashline tools_ ([implementations/grok_build_hashline], [util/hash.rs])
      name the lines of a file by number and hashes of their content, so that an
      edit of a line that has changed is refused.  HashlineScheme holds line
      hashes, anchors, the trait of a scheme as the class [AnchorScheme] with its
      three instances, and the search for lines that moved ([scheme.rs],
      [anchor.rs], [config.rs]); HashlineEdit the operations, their resolution,
      overlaps, application and errors ([edit/types.rs], [edit/range_policy.rs],
      [edit/apply.rs]) and the rows the read tool prints ([read_file.rs]);
      HashlineTool the run of the edit tool ([edit/mod.rs]) and the anchors put
      into search output ([grep.rs]), and first the paths a model writes
      ([types/resources.rs]).  They use the file system of the codex tools.
    - _The hunk tracker_ ([codegen/xai-hunk-tracker]) compares the files an
      agent or a user changed with a baseline.  HunkTypes holds hunks, file
      states, events and commands; HunkDiff the hunks of a line diff and
      [patch_lines]; HunkWorld the actor's state, the monad of its handlers, the
      reading of files and of git; HunkTracker every handler ([hunks.rs],
      [mutations.rs], [actions.rs], [git.rs], [queries.rs]), batches of queued
      commands and the turns of the actor's loop; LocSink ([loc/mod.rs]) the
      records of lines of code made from its events; HunkSummary has the move of a
      snapshot to another directory.  It works on the disk the codex tools
      write, and its turns are those of the chat-state actor's prompts.
    - _Compaction_ ([common/xai-grok-compaction]) replaces the older part of a
      conversation by a summary a model writes.  CompactionText holds what works
      on texts: failure classes ([failure.rs]), prompts, the cleaning of a
      summary ([summary.rs]), blocks of user queries ([history/filter.rs]),
      validation and reminders; Compaction the seams as classes
      ([CompactionItem] and its extensions, [ItemTokenCounter],
      [CompactionHost]) and on them selection ([select.rs]), the filters, the
      retry loop ([sample.rs]), the pass between the steps of a loop
      ([intra_compaction]), the chunked pass between turns
      ([inter_compaction]) and the pass that replaces a session
      ([code_compaction]).  CompactionTheorems instantiates the seams with
      [ConversationItem], so that a split is related to the pairing of tool
      calls that the chat-state actor keeps.
    - _The sampler_ ([codegen/xai-grok-sampler], and [error.rs],
      [doom_loop.rs], [messages.rs] of [xai-grok-sampling-types]) turns the
      requests the chat-state actor builds into responses.  SamplingError holds
      the errors, the doom-loop signals and their collector, the error
      information of events and [retry.rs]: the classifier and the backoff;
      SamplerStream the payloads of the three backends, responses and their
      conversation items, events, latency statistics and the decoding of a
      server's frames; SamplerTransform the transforms of
      [stream/chat_completions.rs], [stream/messages.rs] and
      [stream/responses.rs], each a generator of events with two idle timers;
      SamplerTask the attempts and the retry loop of [actor/request_task.rs]
      and the actor of [actor/mod.rs], which registers, cancels and forgets
      tasks.
    - _Requests on the wire_ ([conversation.rs], [types.rs], [messages.rs] of
      [xai-grok-sampling-types], [client.rs] of the sampler): Wire translates a
      [ConversationRequest] to the request of Chat Completions, Responses or
      Messages, the messages of the first and third back to items, and what the
      client adds (defaults, headers, tools that only exist as JSON).  Its
      input is what the chat-state actor builds, and a response's items, which
      SamplerStream makes, are its input in the next turn.
    - _The history on disk_ ([codegen/xai-grok-shell/src/session/storage]):
      ChatHistory holds the file the actor's persistence writes to: appending
      with its repair of a torn tail, loading with what it skips, brings up to
      date and strips, and the cuts and rewritings of a fork's copy ([jsonl/mod.rs],
      [mod.rs]; [upgrade_legacy_reasoning] and [transform_conversation_cwd] of
      [conversation.rs]).  ImageCheck holds the structural walks of an image the
      loader applies ([image_validate.rs], [image_normalize.rs]).

    ** Foundations

    This file has results and the [let?] notation, machine integers and list
    lemmas.  RustStr models [str]: a string is the list of its scalar values,
    with byte lengths, UTF-8 encoding, lossy decoding, trimming, splitting and
    [lines] defined on it; and the reading and printing of numbers; StrSearch adds searching and replacing
    and how splitting and joining relate.  F64 computes IEEE binary64 over the [SpecFloat]
    functions of the Standard Library.  Concrete, Demo, PermissionDemo and
    HunkDemo instantiate the parameters below for examples and witnesses.

    Integers: a [u64] or [usize] is a [Z] in [0, 2^64).  A plain [+] wraps
    ([wrapping_add]) because the release profile has no overflow checks;
    saturating operations saturate.  Counts of items in memory are [nat].

    ** Parameters

    Code outside the repository is a parameter: [RsApi] (payload types of
    [async_openai] and [serde_json] with the fields the sources read),
    [SerdeJson] (the serialised sizes the request builder measures), [AsyncFs]
    (the file system and tokio's [create_dir_all]), the parser of [f64] text in
    the breaker's configuration; for permissions [PermApi] ([glob], [url],
    [serde_json], Unicode lower-casing), [TreeSitter] (the bash grammar, with
    [Node] for what is read of a syntax node) and [PathFs] (links on disk); for
    the hunk tracker [TrackerEnv] (tokio's files, gix, the changes and deadline
    of [similar], fresh identifiers and times, the order of hash maps) with the
    laws [LawfulTrackerEnv] and [LawfulDiff], and [RecordWriter]; for the
    hashline tool [HashlineEnv] (the tilde of [shellexpand], canonical paths and
    Unicode file names on disk, the hint for a path that does not exist); for
    compaction the items and the host, whose contract is [LawfulHost]; for the
    sampler [SamplerApi] (errors of [reqwest] and [serde_json], status codes,
    JSON) with [LawfulSamplerApi], [StreamApi] (reasoning items of
    [async_openai]) with [LawfulStreamApi], and [DecodeApi] (serde's readers of
    frames); for requests [WireApi] (JSON text, Unicode classes, copies of a
    reasoning item) with [LawfulWireApi]; for the history [HistoryApi] (serde's
    rows and values, [base64]) with [LawfulHistoryApi]; for images [ImageApi]
    (the [image] crate, CRC-32) with [LawfulImageApi].  What a server, the network, the clock and a cancellation do in one
    attempt is an [AttemptEnv], an argument of the task for each attempt, so its
    theorems hold for all of them: the response may never come, and the stream
    that does come is a finite list of items, after which it ends or falls
    silent.  An operation
    of [TrackerEnv] may change the world in any way, as other processes do.  No
    axiom is used.

    ** Theorems

    - _Tool pairing_ (HistoryRepair, over ToolPairingFacts): what
      [repair_history] and its passes establish, when they change nothing, that
      the index-based passes equal streaming references, and when repairing is
      idempotent.  RequestFacts carries this to every request the actor builds,
      through skeletons (ActorLemmas), an equivalence that pruning and eviction respect.
    - _Rewind_ (Truncation, Session): where a rewind cuts, that the cut is
      monotone, and what the actor does with it.
    - _Turn capture_ (Capture): the captured messages are exactly the pushed
      ones, through every way of replacing the conversation.
    - _Persistence_ (Mirror): replaying the log gives the conversation.
    - _The preview_ (Safety): when the byte slice of [text_summary], the one
      panic of the actor that is a value here, is never met.
    - _Request bodies_ (RequestFacts, RequestBodies): pruning by age, eviction of
      the oldest images, one memory block.
    - _Accounting_ (Usage, Session): ledgers, totals at compaction, snapshots,
      the auto-compact gate.
    - _Permissions_ (PermissionFacts, over PolicyFacts and PermissionRules):
      deny rules win in every mode; what each unprompted approval of a script
      rests on; the modes, their pin and the shared flags over every
      interleaving of the stores, the sends and the actor; grants come from
      prompts and the disk mirrors them; the precedence of rules; the exactness
      of the segment gate, against grammars of the wrappers and of [bash -c]; and
      the round trip of the rule language.
    - _Circuit breaker_ (BreakerFacts, BreakerRace): the invariant over
      breakers reached by calls that do not overlap, transitions, admission,
      recovery, retry delays; a thread alone refines the sequential handlers,
      and two concrete schedules show what two threads can do beyond that.
    - _Patches_ (SeekSequence, PatchGrammar, PatchApply,
      ApplyPatchTool): strictest-first matching, totality of the parser, the
      round trip with the part of the documented grammar it takes, the edits a
      patch makes, what the tool does to a file system without links when it
      succeeds and when a call fails.
    - _Reading_ (ReadFile): slices and indentation blocks.
    - _Hashlines_ (HashlineTheorems, over HashlineSchemeFacts,
      HashlineApplyFacts and HashlineBatch): the theorems of
      the edit are proved for every scheme that meets the class [LawfulScheme],
      which the three schemes and the boxed one do: a batch is applied exactly
      when its operations resolve and do not overlap, and then gives the lines of
      [reference_edit]; anchors printed by the read tool and by search lead back
      to their lines, an accepted anchor names a line with its hashes, a suggested
      one works; the tool writes what it reports and never panics.
      The file ends with the runs where code and comments part.
    - _Hunks_ (HunkTheorems, HunkSummary, over HunkDiffFacts,
      HunkIndex, HunkTrackerFacts, HunkFacts and HunkActs): every reachable tracker is well formed and answers a turn's
      query with exactly its pending hunks, but for those lost by a write or
      removal that failed, which [reachable] keeps account of; accepting makes,
      and rejecting undoes on disk, exactly the chosen changes of LF texts, up to
      a line feed at the end, and the theorems say when that is kept; a file all
      of whose hunks were acted on is settled; only rejecting touches the disk;
      batches and summaries are what the commands and hunks say.
    - _Lines of code_ (LocSink): the records of a hunk sum to what its events
      say.  _Moving_ (HunkSummary): there and back is the identity.
    - _Compaction_ (CompactionTheorems, over CompactionTextFacts and
      CompactionFacts): what a pass has done to the turns when it succeeds and
      when it fails; the split is the least safe one and parts no call from its
      results; the retry loop call by call; the chunks are greedy and the text of
      the pass between turns is spelled out; the user's
      queries survive compaction after compaction; a cleaned summary holds no
      tag a later parser looks for.
    - _The sampler_ (SamplerTheorems, over SamplerFacts): a request ends within
      its budgets with one terminal event and the completion that agrees with
      it, unless a response never comes, for which nothing sets a time; what a
      completed response has passed; the stream of every backend
      keeps its protocol, and a Chat Completions response is what its events
      have shown; the error rebuilt from an event keeps its class; the backoff's
      bounds; the actor's table is exact.  The file ends with the runs where code
      and comments part.
    - _Requests_ (WireTheorems): in a Messages request tool uses and results
      stay paired, message by message; the chat messages are the items' with
      the reasoning before them; the requests of a growing conversation extend
      each other; a chat message survives the way back; what a response is
      sent back as; which tools a request names; and what each conversion
      loses.
    - _History_ (ChatHistory): torn appends lose one record; upgraded rows
      repeat no backend call; a fork keeps the complete turns; the cut of the
      updates.  _Images_ (ImageCheck): grammars of what is taken for a whole PNG,
      JPEG or WebP, and that a cut image is refused.

    Theorems that record a divergence (a lost edit, a counter that wraps, a
    repair that is not idempotent) are next to the part they concern.

    ** Fuel

    Loops that are not structural take fuel: [scan_repairs] and
    [has_dangling_loop] the length of the conversation (the index advances),
    [dedup_loop] twice the length and one (a round advances or removes),
    [strip_tag] the length of the text, [update_chunks] and [parse_hunks] the
    number of lines and one (a round consumes a line), [expand_loop] the number
    of lines and one (a round takes a line or ends), [env_scan_from] and
    [skip_options] the number of words (the index advances), [routine_loop] the
    number of words and one (a launcher is longer than what it launches),
    [strip_escapes] the length of the path (a round removes two characters),
    [strip_analysis] and [collapse_blank_lines] the length of the text (a round
    shortens it), [split_prior_loop] that length and one (a round consumes a
    tag); [sample_loop] and [legacy_loop] count the attempts of the source's
    range down; [task_loop] one for each attempt, and [request_finishes] proves
    that [attempts_bound] of them (the retries, the resamples and one) are enough;
    [jpeg_loop], [scan_entropy] and [png_loop] take the length of the image and
    one, [fork_scan] the length of the history and one (the index advances).
    Bounds of the sources are kept: 8 levels of nested scripts and of wrappers,
    40 links.  The passes over
    conversations are proved equal to fuel-free references, and the parser and
    reader to return for every input.

    ** Not modelled

    Tracing and metrics; the channels and tasks around the actor (a session is
    the sequence of commands it receives); serialisation formats; tool metadata
    and the lookup of shared resources.  Of the permission
    system: loading and merging settings files, the options and transport of a
    prompt, telemetry identifiers, the display of scripts.  Of the hunk tracker:
    its handle and channels, [generate_unified_patch] (the formatter of
    [similar]) and the JSONL writer; a path is its list of components, so its
    spelling is not kept.  Of the hashline tools: serde's reading of a request,
    the runs of the read and search tools (which call other tools), and the
    measuring harness ([mutate.rs], [benchmark.rs]).  Of compaction: elapsed
    times, and the shell's input ladder around a pass.  Of the sampler: the
    sending of HTTP requests, authentication headers and the errors of their
    status, attribution and the shared connection pools
    ([client.rs], [attribution.rs], [shared_http.rs]), the spans and warnings, the
    computing time between two items of a stream.  Of requests: the patching of
    their JSON ([patch_reasoning_text_types]), the non-streaming forms but for
    [conversation_responses].  Of the storage: summaries, checkpoints, rewind
    points and search, and the decoding of updates.  Of images: the classes of a
    validation error and the re-encoding.  Of the other subsystems, the
    prompt queue and interjections (texts a user puts in line), the scheduler, and the session shell with
    its agent loop, which orchestrate the parts above over asynchronous I/O.  The terminal
    interface, the desktop and web applications, telemetry, authentication and
    vendored code are out of scope. *)
From stdpp Require Export base tactics list numbers option gmap strings pretty sorting relations.
From Stdlib Require Export ZArith Lia.

(** ** Results *)

(** Rust's [Result<A, E>]. *)
Inductive result (A E : Type) : Type :=
| Ok (a : A)
| Err (e : E).
Arguments Ok {A E} _.
Arguments Err {A E} _.

(** The [?] operator: [let? x := e in k] returns the error of [e] early. *)
Declare Scope grodex_scope.
Delimit Scope grodex_scope with grodex.
Notation "'let?' x ':=' e 'in' k" :=
  (match e with Ok x => k | Err err => Err err end)
  (at level 10, x pattern, e at level 200, k at level 200) : grodex_scope.
Open Scope grodex_scope.

(** ** Machine integers

    A [u64] or [usize] is an integer in [0, 2^64); the release profile of the
    workspace does not set [overflow-checks], so a plain [+] wraps. *)
Definition U64_MAX : Z := 18446744073709551615.
Definition U32_MAX : Z := 4294967295.
Definition I64_MAX : Z := 9223372036854775807.
Definition I64_MIN : Z := -9223372036854775808.

Definition is_u64 (z : Z) : Prop := (0 ≤ z ≤ U64_MAX)%Z.
Definition wrap64 (z : Z) : Z := (z mod (U64_MAX + 1))%Z.
Definition wrapping_add (a b : Z) : Z := wrap64 (a + b).
Definition saturating_add (a b : Z) : Z := Z.min (a + b) U64_MAX.
Definition saturating_sub (a b : Z) : Z := Z.max 0 (a - b).
Definition saturating_mul (a b : Z) : Z := Z.min (a * b) U64_MAX.
Definition i64_saturating_add (a b : Z) : Z := Z.max I64_MIN (Z.min (a + b) I64_MAX).

Create HintDb grodex.

Lemma wrap64_u64 z : is_u64 (wrap64 z).
Proof.
  unfold is_u64, wrap64.
  pose proof (Z.mod_pos_bound z (U64_MAX + 1) ltac:(unfold U64_MAX; lia)). lia.
Qed.

Lemma wrap64_small z : is_u64 z → wrap64 z = z.
Proof. unfold is_u64, wrap64. intros. apply Z.mod_small. lia. Qed.

Lemma saturating_add_u64 a b : is_u64 a → is_u64 b → is_u64 (saturating_add a b).
Proof. unfold is_u64, saturating_add, U64_MAX. lia. Qed.

Lemma saturating_sub_u64 a b : is_u64 a → is_u64 b → is_u64 (saturating_sub a b).
Proof. unfold is_u64, saturating_sub, U64_MAX. lia. Qed.

Lemma saturating_mul_u64 a b : is_u64 a → is_u64 b → is_u64 (saturating_mul a b).
Proof. unfold is_u64, saturating_mul, U64_MAX. nia. Qed.

Lemma saturating_add_comm a b : saturating_add a b = saturating_add b a.
Proof. unfold saturating_add. f_equal. lia. Qed.

(** Saturating addition is associative on non-negative operands. *)
Lemma saturating_add_assoc a b c :
  (0 ≤ a)%Z → (0 ≤ b)%Z → (0 ≤ c)%Z →
  saturating_add a (saturating_add b c) = saturating_add (saturating_add a b) c.
Proof. unfold saturating_add, U64_MAX. lia. Qed.

#[export] Hint Resolve wrap64_u64 saturating_add_u64 saturating_sub_u64
  saturating_mul_u64 : grodex.

(** ** Lists *)

Lemma list_filter_all {A} (P : A → Prop) `{!∀ x, Decision (P x)} (l : list A) :
  (∀ x, x ∈ l → P x) → base.filter P l = l.
Proof.
  induction l as [|x l IH]; intros Hall; [done|].
  rewrite filter_cons_True by (apply Hall; left).
  f_equal. apply IH. intros y Hy. apply Hall. by right.
Qed.

Lemma foldl_reverse_foldr {A B} (f : B → A → B) (b : B) (l : list A) :
  foldl f b (reverse l) = foldr (flip f) b l.
Proof. induction l as [|x l IH]; [done|]. rewrite reverse_cons, foldl_app. simpl. by rewrite IH. Qed.

Lemma sublist_equal_length {A} (l1 l2 : list A) :
  l1 `sublist_of` l2 → (length l2 ≤ length l1)%nat → l1 = l2.
Proof.
  induction 1 as [|x l1 l2 Hs IH|x l1 l2 Hs IH]; simpl; intros Hl; [done| |].
  - rewrite IH by lia. done.
  - apply sublist_length in Hs. lia.
Qed.

(** ** Sorting

    Rust's [sort_by] and [sort_by_key] are stable: an element goes before the
    first one that is not smaller.  [min_by_key] gives the first minimum,
    [max_by_key] the last maximum. *)
Fixpoint insert_by {A} (leb : A → A → bool) (x : A) (l : list A) : list A :=
  match l with
  | [] => [x]
  | y :: l' => if leb x y then x :: l else y :: insert_by leb x l'
  end.
Definition sort_by {A} (leb : A → A → bool) (l : list A) : list A := foldr (insert_by leb) [] l.
Definition sort_by_key {A} (key : A → Z) (l : list A) : list A :=
  sort_by (λ a b, key a <=? key b)%Z l.
Definition min_by_key {A} (key : A → Z) (l : list A) : option A :=
  foldl (λ best x, match best with
                   | None => Some x
                   | Some b => if (key x <? key b)%Z then Some x else Some b
                   end) None l.
Definition max_by_key {A} (key : A → Z) (l : list A) : option A :=
  foldl (λ best x, match best with
                   | None => Some x
                   | Some b => if (key b <=? key x)%Z then Some x else Some b
                   end) None l.

Lemma insert_by_perm {A} (leb : A → A → bool) x l : insert_by leb x l ≡ₚ x :: l.
Proof.
  induction l as [|y l IH]; [done|]. cbn [insert_by]. destruct (leb x y); [done|].
  rewrite IH. constructor.
Qed.
Lemma sort_by_perm {A} (leb : A → A → bool) l : sort_by leb l ≡ₚ l.
Proof.
  induction l as [|x l IH]; [done|]. unfold sort_by. cbn [foldr]. rewrite insert_by_perm.
  by constructor.
Qed.
Lemma sort_by_key_perm {A} (key : A → Z) l : sort_by_key key l ≡ₚ l.
Proof. apply sort_by_perm. Qed.

(** [R] is the order that [leb] decides. *)
Lemma insert_by_sorted {A} (leb : A → A → bool) (R : A → A → Prop) `{!Transitive R} x l :
  (∀ a b, if leb a b then R a b else R b a) →
  StronglySorted R l → StronglySorted R (insert_by leb x l).
Proof.
  intros Hleb. induction 1 as [|y l Hs IH Hy]; cbn [insert_by]; [by repeat constructor|].
  pose proof (Hleb x y) as Hxy. destruct (leb x y).
  - constructor; [by constructor|]. constructor; [done|]. eapply Forall_impl; [exact Hy|].
    intros z Hz. by transitivity y.
  - constructor; [done|]. rewrite insert_by_perm. by constructor.
Qed.
Lemma sort_by_sorted {A} (leb : A → A → bool) (R : A → A → Prop) `{!Transitive R} l :
  (∀ a b, if leb a b then R a b else R b a) → StronglySorted R (sort_by leb l).
Proof.
  intros Hleb. induction l as [|x l IH]; [constructor|]. by apply insert_by_sorted.
Qed.
Lemma sort_by_key_sorted {A} (key : A → Z) l :
  StronglySorted (λ a b, (key a ≤ key b)%Z) (sort_by_key key l).
Proof.
  apply sort_by_sorted; [intros a b c; lia|]. intros a b. destruct (Z.leb_spec (key a) (key b)); lia.
Qed.
Lemma sorted_strict {A} (key : A → Z) l :
  StronglySorted (λ a b, (key a ≤ key b)%Z) l → NoDup (map key l) →
  StronglySorted (λ a b, (key a < key b)%Z) l.
Proof.
  induction 1 as [|x l Hs IH Hx]; [constructor|]. cbn [map]. intros [Hn Hnd]%NoDup_cons.
  constructor; [by apply IH|]. rewrite Forall_forall in *. intros y Hy.
  specialize (Hx y Hy). cbn in Hx. assert (key x ≠ key y); [|lia].
  intros E. apply Hn. apply list_elem_of_fmap. by exists y.
Qed.
