(* ===== verification/RustStr.v ===== *)
(** * Rust strings

    A Rust [str] is a sequence of Unicode scalar values stored as UTF-8.  The
    model keeps the scalar values; byte lengths and the lossy decoder of the
    standard library are derived from them.  Only the parts of [str], [String]
    and [char] that the modelled sources call are here.

    Then the reading and printing of numbers. *)
From S2P Require Import Prelude.

Abbreviation char := Z (only parsing).
Abbreviation str := (list Z) (only parsing).
Abbreviation bytes := (list Z) (only parsing).

(** ** Encoding *)

(** [char::len_utf8] *)
Definition char_len (c : char) : Z :=
  if (c <? 128)%Z then 1 else if (c <? 2048)%Z then 2
  else if (c <? 65536)%Z then 3 else 4.

(** [str::len], in bytes *)
Fixpoint str_len (s : str) : Z :=
  match s with
  | [] => 0
  | c :: s' => char_len c + str_len s'
  end.

Definition in_range (lo hi b : Z) : bool := ((lo <=? b) && (b <=? hi))%Z.
Definition is_cont (b : Z) : bool := in_range 128 191 b.

Definition REPLACEMENT : char := 65533.

(** The second byte a three-byte (or four-byte) sequence may have. *)
Definition second_of_3 (b0 b1 : Z) : bool :=
  if (b0 =? 224)%Z then in_range 160 191 b1
  else if (b0 =? 237)%Z then in_range 128 159 b1
  else is_cont b1.
Definition second_of_4 (b0 b1 : Z) : bool :=
  if (b0 =? 240)%Z then in_range 144 191 b1
  else if (b0 =? 244)%Z then in_range 128 143 b1
  else is_cont b1.

(** [String::from_utf8_lossy]: a maximal valid prefix of a sequence that then
    breaks off becomes one U+FFFD. *)
Fixpoint from_utf8_lossy (bs : bytes) : str :=
  match bs with
  | [] => []
  | b0 :: r0 =>
      if (b0 <? 128)%Z then b0 :: from_utf8_lossy r0
      else if in_range 194 223 b0 then
        match r0 with
        | b1 :: r1 =>
            if is_cont b1
            then ((b0 - 192) * 64 + (b1 - 128))%Z :: from_utf8_lossy r1
            else REPLACEMENT :: from_utf8_lossy r0
        | [] => [REPLACEMENT]
        end
      else if in_range 224 239 b0 then
        match r0 with
        | b1 :: r1 =>
            if second_of_3 b0 b1 then
              match r1 with
              | b2 :: r2 =>
                  if is_cont b2
                  then ((b0 - 224) * 4096 + (b1 - 128) * 64 + (b2 - 128))%Z
                         :: from_utf8_lossy r2
                  else REPLACEMENT :: from_utf8_lossy r1
              | [] => [REPLACEMENT]
              end
            else REPLACEMENT :: from_utf8_lossy r0
        | [] => [REPLACEMENT]
        end
      else if in_range 240 244 b0 then
        match r0 with
        | b1 :: r1 =>
            if second_of_4 b0 b1 then
              match r1 with
              | b2 :: r2 =>
                  if is_cont b2 then
                    match r2 with
                    | b3 :: r3 =>
                        if is_cont b3
                        then ((b0 - 240) * 262144 + (b1 - 128) * 4096
                              + (b2 - 128) * 64 + (b3 - 128))%Z
                               :: from_utf8_lossy r3
                        else REPLACEMENT :: from_utf8_lossy r2
                    | [] => [REPLACEMENT]
                    end
                  else REPLACEMENT :: from_utf8_lossy r1
              | [] => [REPLACEMENT]
              end
            else REPLACEMENT :: from_utf8_lossy r0
        | [] => [REPLACEMENT]
        end
      else REPLACEMENT :: from_utf8_lossy r0
  end.

(** [str::as_bytes] *)
Definition encode_char (c : char) : bytes :=
  (if c <? 128 then [c]
   else if c <? 2048 then [192 + c / 64; 128 + c mod 64]
   else if c <? 65536 then [224 + c / 4096; 128 + (c / 64) mod 64; 128 + c mod 64]
   else [240 + c / 262144; 128 + (c / 4096) mod 64; 128 + (c / 64) mod 64;
         128 + c mod 64])%Z.
Fixpoint as_bytes (s : str) : bytes :=
  match s with
  | [] => []
  | c :: s' => encode_char c ++ as_bytes s'
  end.

(** A string literal of a source file. *)
Definition lit (s : string) : str :=
  from_utf8_lossy (map (λ a, Z.of_nat (Ascii.nat_of_ascii a)) (String.list_ascii_of_string s)).

(** [{}] of an unsigned integer. *)
Definition fmt_Z (z : Z) : str := lit (pretty z).

(** ** Characters *)

(** [char::is_whitespace]: the Unicode property [White_Space]. *)
Definition is_whitespace (c : char) : bool :=
  in_range 9 13 c || (c =? 32)%Z || (c =? 133)%Z || (c =? 160)%Z || (c =? 5760)%Z
  || in_range 8192 8202 c || (c =? 8232)%Z || (c =? 8233)%Z || (c =? 8239)%Z
  || (c =? 8287)%Z || (c =? 12288)%Z.

Definition NL : char := 10.
Definition CR : char := 13.

(** ** Trimming *)

Fixpoint drop_while {A} (p : A → bool) (l : list A) : list A :=
  match l with
  | [] => []
  | x :: l' => if p x then drop_while p l' else l
  end.
Definition trim_start_matches (p : char → bool) (s : str) : str := drop_while p s.
Definition trim_end_matches (p : char → bool) (s : str) : str :=
  rev (drop_while p (rev s)).
Definition trim_start (s : str) : str := trim_start_matches is_whitespace s.
Definition trim_end (s : str) : str := trim_end_matches is_whitespace s.
Definition trim (s : str) : str := trim_end (trim_start s).

(** ** Searching and splitting *)

Fixpoint strip_prefix (p s : str) : option str :=
  match p, s with
  | [], _ => Some s
  | a :: p', b :: s' => if (a =? b)%Z then strip_prefix p' s' else None
  | _ :: _, [] => None
  end.
Definition starts_with (s p : str) : bool :=
  match strip_prefix p s with Some _ => true | None => false end.
Definition ends_with (s p : str) : bool := starts_with (rev s) (rev p).

(** [str::find] of a pattern, as the number of chars before the match. *)
Fixpoint find (s p : str) : option nat :=
  if starts_with s p then Some 0%nat
  else match s with
       | [] => None
       | _ :: s' => S <$> find s' p
       end.

(** [str::split(c)] *)
Fixpoint split (c : char) (s : str) : list str :=
  match s with
  | [] => [[]]
  | x :: s' =>
      if (x =? c)%Z then [] :: split c s'
      else match split c s' with
           | h :: t => (x :: h) :: t
           | [] => [[x]]
           end
  end.

Definition strip_suffix_char (c : char) (s : str) : str :=
  match rev s with
  | x :: r => if (x =? c)%Z then rev r else s
  | [] => []
  end.

(** [str::lines]: a final empty piece is no line, and a line that ended in
    [\n] loses one [\r] before it. *)
Fixpoint lines_of (pieces : list str) : list str :=
  match pieces with
  | [] => []
  | [last] => match last with [] => [] | _ => [last] end
  | l :: rest => strip_suffix_char CR l :: lines_of rest
  end.
Definition lines (s : str) : list str := lines_of (split NL s).

(** [[String]::join] *)
Fixpoint join (sep : str) (l : list str) : str :=
  match l with
  | [] => []
  | [x] => x
  | x :: l' => x ++ sep ++ join sep l'
  end.

(** [s.is_empty()] of any collection. *)
Definition is_empty {A} (l : list A) : bool :=
  match l with [] => true | _ => false end.

Definition str_eqb (a b : str) : bool := bool_decide (a = b).

(** ** Lemmas *)

Lemma drop_while_suffix {A} (p : A → bool) (l : list A) : ∃ pre, l = pre ++ drop_while p l.
Proof.
  induction l as [|x l [pre IH]]; [by exists []|]. cbn [drop_while].
  destruct (p x); [|by exists []]. exists (x :: pre). cbn [app]. by rewrite <- IH.
Qed.

(** [str::parse] of an unsigned integer of largest value [hi]. *)
Definition digit_of (c : char) : option Z :=
  if in_range 48 57 c then Some (c - 48)%Z else None.
Fixpoint parse_digits (hi acc : Z) (s : str) : option Z :=
  match s with
  | [] => Some acc
  | c :: s' =>
      d ← digit_of c;
      let acc' := (acc * 10 + d)%Z in
      if (acc' <=? hi)%Z then parse_digits hi acc' s' else None
  end.
Definition parse_unsigned (hi : Z) (s : str) : option Z :=
  match s with
  | [] => None
  | 43%Z :: [] => None
  | 43%Z :: s' => parse_digits hi 0 s'
  | _ => parse_digits hi 0 s
  end.
Definition parse_bool (s : str) : option bool :=
  if str_eqb s (lit "true") then Some true
  else if str_eqb s (lit "false") then Some false else None.

(** ** Reading back what was printed *)

Lemma from_utf8_lossy_ascii bs : Forall (λ b, b < 128)%Z bs → from_utf8_lossy bs = bs.
Proof.
  induction 1 as [|b bs Hb _ IH]; [done|]. cbn [from_utf8_lossy].
  apply Z.ltb_lt in Hb as ->. by rewrite IH.
Qed.

(** The text of a Rocq string, when it is ASCII. *)
Definition ascii_codes (s : string) : list Z :=
  map (λ a, Z.of_nat (Ascii.nat_of_ascii a)) (String.list_ascii_of_string s).

Lemma pretty_char_code x :
  (x < 10)%N → Z.of_nat (Ascii.nat_of_ascii (pretty_N_char x)) = (48 + Z.of_N x)%Z.
Proof.
  intros H. assert (x = 0 ∨ x = 1 ∨ x = 2 ∨ x = 3 ∨ x = 4 ∨ x = 5 ∨ x = 6 ∨ x = 7 ∨ x = 8
    ∨ x = 9)%N as Hx by lia.
  repeat destruct Hx as [->|Hx]; try reflexivity. by subst.
Qed.

Definition is_digit_code (b : Z) : Prop := (48 ≤ b ≤ 57)%Z.

Lemma pretty_go_codes x : ∀ s,
  Forall is_digit_code (ascii_codes s) → Forall is_digit_code (ascii_codes (pretty_N_go x s)).
Proof.
  induction (N.lt_wf_0 x) as [x _ IH]. intros s Hs.
  assert (x = 0 ∨ 0 < x)%N as [->|Hx] by lia; [by rewrite pretty_N_go_0|].
  rewrite pretty_N_go_step by done. apply IH; [by apply N.div_lt|].
  pose proof (N.mod_lt x 10 ltac:(done)) as Hm.
  unfold ascii_codes. cbn [String.list_ascii_of_string map]. constructor; [|done].
  rewrite pretty_char_code by done. clear - Hm. revert Hm. generalize (x `mod` 10)%N.
  unfold is_digit_code. lia.
Qed.

(** Parsing the digits of [x] after those already read. *)
Lemma parse_pretty_go hi x : ∀ s,
  (Z.of_N x ≤ hi)%Z →
  parse_digits hi 0 (ascii_codes (pretty_N_go x s)) = parse_digits hi (Z.of_N x) (ascii_codes s).
Proof.
  induction (N.lt_wf_0 x) as [x _ IH]. intros s Hs.
  assert (x = 0 ∨ 0 < x)%N as [->|Hx] by lia; [by rewrite pretty_N_go_0|].
  rewrite pretty_N_go_step by done.
  pose proof (N.mod_lt x 10 ltac:(done)) as Hm. pose proof (N.div_mod x 10 ltac:(done)) as Hd.
  pose proof (N.div_lt x 10 Hx eq_refl) as Hlt. revert Hm Hd Hlt.
  generalize (x `mod` 10)%N, (x `div` 10)%N. intros m q Hm Hd Hlt.
  rewrite IH by lia.
  unfold ascii_codes at 1. cbn [String.list_ascii_of_string map parse_digits].
  rewrite pretty_char_code by done. unfold digit_of, in_range.
  replace ((48 <=? 48 + Z.of_N m) && (48 + Z.of_N m <=? 57))%Z with true by lia.
  cbn [mbind option_bind].
  replace (Z.of_N q * 10 + (48 + Z.of_N m - 48))%Z with (Z.of_N x) by lia.
  by replace (Z.of_N x <=? hi)%Z with true by lia.
Qed.

Lemma fmt_Z_codes z :
  (0 ≤ z)%Z →
  fmt_Z z = ascii_codes (pretty (Z.to_N z)) ∧ Forall is_digit_code (fmt_Z z) ∧ fmt_Z z ≠ [].
Proof.
  intros Hz.
  assert (Hp : pretty z = pretty (Z.to_N z)) by (by destruct z).
  assert (Hc : Forall is_digit_code (ascii_codes (pretty (Z.to_N z)))).
  { unfold pretty, pretty_N. case_decide.
    - apply Forall_singleton. vm_compute. split; discriminate.
    - apply pretty_go_codes. constructor. }
  assert (E : fmt_Z z = ascii_codes (pretty (Z.to_N z))).
  { unfold fmt_Z, lit. rewrite Hp. apply from_utf8_lossy_ascii.
    eapply Forall_impl; [exact Hc|]. unfold is_digit_code. lia. }
  rewrite E. split_and!; [done..|]. intros H0.
  pose proof (parse_pretty_go (z + 1) (Z.to_N z) "" ltac:(lia)) as Hg.
  unfold pretty, pretty_N in H0. case_decide; [discriminate|].
  rewrite H0 in Hg. cbn in Hg. injection Hg. lia.
Qed.

Lemma parse_unsigned_digits hi c s :
  c ≠ 43%Z → parse_unsigned hi (c :: s) = parse_digits hi 0 (c :: s).
Proof.
  intros Hn. unfold parse_unsigned. destruct c as [|p|p]; try reflexivity.
  do 6 (destruct p as [p|p|]; try reflexivity). congruence.
Qed.

(** [{}] then [parse] is the identity on the values that fit. *)
Lemma parse_unsigned_fmt hi z : (0 ≤ z ≤ hi)%Z → parse_unsigned hi (fmt_Z z) = Some z.
Proof.
  intros Hz. destruct (fmt_Z_codes z ltac:(lia)) as (E & Hc & Hne).
  assert (Hp : parse_digits hi 0 (fmt_Z z) = Some z).
  { rewrite E. unfold pretty, pretty_N. case_decide as Hd.
    - assert (z = 0)%Z as -> by lia. change (ascii_codes "0") with [48%Z].
      transitivity (if (0 <=? hi)%Z then Some 0%Z else None); [reflexivity|].
      by replace (0 <=? hi)%Z with true by lia.
    - rewrite parse_pretty_go by lia. cbn. f_equal. lia. }
  destruct (fmt_Z z) as [|c s] eqn:Ef; [done|].
  apply Forall_cons_1 in Hc as [Hc _]. unfold is_digit_code in Hc.
  rewrite parse_unsigned_digits by lia. exact Hp.
Qed.
