(* ===== verification/StrSearch.v ===== *)
(** * Searching, splitting and replacing

    The further [str] operations that the sources use, on top of RustStr:
    [replace], [contains], [strip_suffix], splitting at the first occurrence,
    ASCII case folding, and sets of literals; and how [split], [lines] and [join]
    relate. *)
From S2P Require Import Prelude RustStr.

Lemma split_no_sep s : NL ∉ s → split NL s = [s].
Proof.
  induction s as [|x s IH]; intros Hs; [done|]. cbn [split].
  apply not_elem_of_cons in Hs as [Hx Hs]. rewrite (proj2 (Z.eqb_neq x NL)) by done.
  by rewrite IH.
Qed.

Lemma split_app s s' : NL ∉ s → split NL (s ++ NL :: s') = s :: split NL s'.
Proof.
  induction s as [|x s IH]; intros Hs; cbn [app split]; [by rewrite Z.eqb_refl|].
  apply not_elem_of_cons in Hs as [Hx Hs]. rewrite (proj2 (Z.eqb_neq x NL)) by done.
  by rewrite IH.
Qed.

Lemma split_join ls : ls ≠ [] → Forall (λ l, NL ∉ l) ls → split NL (join [NL] ls) = ls.
Proof.
  intros Hne H. induction H as [|l ls Hl H IH]; [done|].
  destruct ls as [|l' ls]; [by apply split_no_sep|].
  change (join [NL] (l :: l' :: ls)) with (l ++ NL :: join [NL] (l' :: ls)).
  rewrite split_app by done. by rewrite IH.
Qed.

Lemma strip_suffix_id l : last l ≠ Some CR → strip_suffix_char CR l = l.
Proof.
  unfold strip_suffix_char. destruct l as [|x l _] using rev_ind; [done|].
  rewrite last_snoc, rev_app_distr. cbn [rev app]. intros H.
  by rewrite (proj2 (Z.eqb_neq x CR)) by congruence.
Qed.

Lemma join_snoc sep ls l : ls ≠ [] → join sep (ls ++ [l]) = join sep ls ++ sep ++ l.
Proof.
  induction ls as [|x ls IH]; [done|]. intros _. destruct ls as [|y ls]; [done|].
  change (join sep ((x :: y :: ls) ++ [l])) with (x ++ sep ++ join sep ((y :: ls) ++ [l])).
  rewrite IH by done. change (join sep (x :: y :: ls)) with (x ++ sep ++ join sep (y :: ls)).
  by rewrite !app_assoc.
Qed.

(** No piece of a split holds the separator. *)
Lemma split_no_sep_elem c s : Forall (λ l, c ∉ l) (split c s).
Proof.
  induction s as [|x s IH]; cbn [split]; [repeat constructor; apply not_elem_of_nil|].
  destruct (Z.eqb_spec x c) as [->|Hx].
  - constructor; [apply not_elem_of_nil|done].
  - destruct (split c s) as [|h t]; inversion_clear IH.
    + constructor; [|done]. apply not_elem_of_cons. split; [congruence|apply not_elem_of_nil].
    + constructor; [|done]. apply not_elem_of_cons. split; [congruence|done].
Qed.

Lemma split_not_nil c s : split c s ≠ [].
Proof. destruct s as [|x s]; cbn [split]; [done|]. destruct (x =? c)%Z; [done|]. by destruct (split c s). Qed.

Lemma strip_suffix_incl c x l : x ∈ strip_suffix_char c l → x ∈ l.
Proof.
  unfold strip_suffix_char. destruct l as [|y l _] using rev_ind; [done|].
  rewrite rev_app_distr. cbn [rev app]. destruct (y =? c)%Z; rewrite ?rev_involutive; [|done].
  intros Hx. apply elem_of_app. by left.
Qed.

(** All pieces but the last lose a carriage return; the last is dropped when
    it is empty. *)
Lemma lines_of_snoc ls l :
  lines_of (ls ++ [l]) = map (strip_suffix_char CR) ls ++ (if is_empty l then [] else [l]).
Proof.
  induction ls as [|x ls IH]; cbn [app map lines_of]; [by destruct l|].
  destruct (ls ++ [l]) as [|y r] eqn:E; [by destruct ls|]. by rewrite IH.
Qed.

Lemma split_snoc c s : ∃ ls l, split c s = ls ++ [l].
Proof.
  pose proof (split_not_nil c s) as Hn. revert Hn.
  destruct (split c s) as [|l ls _] using rev_ind; [done|eauto].
Qed.

Lemma lines_no_sep s : Forall (λ l, NL ∉ l) (lines s).
Proof.
  destruct (split_snoc NL s) as (ls & l & E). pose proof (split_no_sep_elem NL s) as H.
  rewrite E in H. apply Forall_app in H as [H Hl]. unfold lines. rewrite E, lines_of_snoc.
  apply Forall_app. split.
  - apply Forall_map. eapply Forall_impl; [exact H|]. intros x Hx Hin. apply Hx.
    by eapply strip_suffix_incl.
  - by destruct l.
Qed.

Lemma join_split c s : join [c] (split c s) = s.
Proof.
  induction s as [|x s IH]; [done|]. cbn [split]. pose proof (split_not_nil c s) as Hn.
  destruct (Z.eqb_spec x c) as [->|Hx]; destruct (split c s) as [|h t]; [done| |done|].
  - rewrite <- IH. done.
  - rewrite <- IH. by destruct t.
Qed.

Lemma last_split c s : last (split c s) = Some [] → s = [] ∨ last s = Some c.
Proof.
  induction s as [|x s IH]; [by left|]. intros H. right. cbn [split] in H.
  destruct (Z.eqb_spec x c) as [->|Hx].
  - pose proof (split_not_nil c s) as Hn. destruct (split c s) as [|h t] eqn:E; [done|].
    rewrite last_cons_cons in H. destruct (IH H) as [->|Hl]; [done|].
    destruct s as [|y s]; [done|]. by rewrite last_cons_cons.
  - pose proof (split_not_nil c s) as Hn. destruct (split c s) as [|h t] eqn:E; [done|].
    destruct t as [|h' t]; [done|]. rewrite last_cons_cons in H.
    assert (Hl : last (h :: h' :: t) = Some []) by done.
    destruct (IH Hl) as [->|Hs]; [cbn in E; congruence|].
    destruct s as [|y s]; [done|]. by rewrite last_cons_cons.
Qed.

Lemma last_split_inv c s : last s = Some c → last (split c s) = Some [].
Proof.
  induction s as [|x s IH]; [done|]. intros H. cbn [split].
  destruct s as [|y s].
  - cbn in H. injection H as ->. by rewrite Z.eqb_refl.
  - rewrite last_cons_cons in H. specialize (IH H).
    pose proof (split_not_nil c (y :: s)) as Hn.
    destruct (split c (y :: s)) as [|h t] eqn:E; [done|].
    destruct (x =? c)%Z; [by rewrite last_cons_cons|].
    destruct t as [|h' t]; [|done]. cbn in IH. injection IH as ->. exfalso.
    pose proof (join_split c (y :: s)) as Hj. rewrite E in Hj. done.
Qed.

(** [str::contains] *)
Definition contains (s p : str) : bool :=
  match find s p with Some _ => true | None => false end.

(** [str::strip_suffix] *)
Definition strip_suffix (p s : str) : option str :=
  @rev Z <$> strip_prefix (rev p) (rev s).

(** [str::replace] of a non-empty pattern: left to right, without overlap.
    [skip] counts the chars of a match still to be dropped. *)
Fixpoint replace_from (p r s : str) (skip : nat) : str :=
  match s with
  | [] => []
  | c :: s' =>
      match skip with
      | S k => replace_from p r s' k
      | O => if starts_with s p then r ++ replace_from p r s' (length p - 1)
             else c :: replace_from p r s' 0
      end
  end.
Definition replace (p r s : str) : str := replace_from p r s 0.

(** [str::split_once(c)] *)
Fixpoint split_once (c : char) (s : str) : option (str * str) :=
  match s with
  | [] => None
  | x :: s' =>
      if (x =? c)%Z then Some ([], s')
      else match split_once c s' with
           | Some (a, b) => Some (x :: a, b)
           | None => None
           end
  end.

(** [str::split_once("cc")] for a repeated character [c]. *)
Fixpoint split_once2 (c : char) (s : str) : option (str * str) :=
  match s with
  | [] => None
  | x :: s' =>
      match s' with
      | y :: s'' =>
          if (x =? c)%Z && (y =? c)%Z then Some ([], s'')
          else match split_once2 c s' with
               | Some (a, b) => Some (x :: a, b)
               | None => None
               end
      | [] => None
      end
  end.

(** [char::to_ascii_lowercase], [str::to_ascii_lowercase] *)
Definition char_lower (c : char) : char := if in_range 65 90 c then (c + 32)%Z else c.
Definition to_ascii_lowercase (s : str) : str := map char_lower s.
Definition eq_ignore_ascii_case (a b : str) : bool :=
  str_eqb (to_ascii_lowercase a) (to_ascii_lowercase b).

Definition is_ascii_alphabetic (c : char) : bool := in_range 65 90 c || in_range 97 122 c.
Definition is_ascii_digit (c : char) : bool := in_range 48 57 c.
Definition is_ascii_alphanumeric (c : char) : bool := is_ascii_alphabetic c || is_ascii_digit c.

Definition BACKSLASH : char := 92.
Definition SLASH : char := 47.
Definition SPACE : char := 32.
Definition QUOTE : char := 34.
Definition DASH : char := 45.
Definition EQUALS : char := 61.
Definition UNDERSCORE : char := 95.

(** [matches!(s, "a" | "b" | ..)] and [LIST.contains(&s)]. *)
Definition one_of (l : list string) (s : str) : bool := existsb (λ x, str_eqb s (lit x)) l.

(** [s.rsplit(['/', '\\']).next()]: what follows the last path separator. *)
Fixpoint base_name_go (s acc : str) : str :=
  match s with
  | [] => rev acc
  | c :: s' => if (c =? SLASH)%Z || (c =? BACKSLASH)%Z then base_name_go s' []
               else base_name_go s' (c :: acc)
  end.
Definition base_name (s : str) : str := base_name_go s [].

(** [words.join(" ")] *)
Definition join_words (ws : list str) : str := join [SPACE] ws.

(** [s.rfind(p)], as the number of chars before the match. *)
Definition rfind (s p : str) : option nat :=
  n ← find (rev s) (rev p); Some (length s - (n + length p))%nat.

(** A literal between double quotes. *)
Definition quoted (s : str) : str := [QUOTE] ++ s ++ [QUOTE].

(** ** Lemmas *)

Lemma find_str_none s p c : p = c :: tail p → c ∉ s → find s p = None.
Proof.
  intros Hp. induction s as [|x s IH]; rewrite Hp in *; intros Hn; [done|].
  apply not_elem_of_cons in Hn as [Hx Hn]. cbn [find]. unfold starts_with. cbn [strip_prefix].
  replace (c =? x)%Z with false by lia. by rewrite IH.
Qed.

Lemma strip_prefix_Some p s r : strip_prefix p s = Some r ↔ s = p ++ r.
Proof.
  revert s. induction p as [|a p IH]; intros s; cbn [strip_prefix app].
  - split; congruence.
  - destruct s as [|b s]; [split; discriminate|].
    destruct (Z.eqb_spec a b) as [->|Hne].
    + rewrite IH. split; congruence.
    + split; [discriminate|]. congruence.
Qed.

Lemma starts_with_spec s p : starts_with s p = true ↔ ∃ r, s = p ++ r.
Proof.
  unfold starts_with. destruct (strip_prefix p s) as [r|] eqn:Hs.
  - apply strip_prefix_Some in Hs. naive_solver.
  - split; [discriminate|]. intros [r ->].
    assert (strip_prefix p (p ++ r) = Some r) by (by apply strip_prefix_Some). congruence.
Qed.

Lemma str_eqb_eq a b : str_eqb a b = true ↔ a = b.
Proof. unfold str_eqb. apply bool_decide_eq_true. Qed.

Lemma one_of_In l s : one_of l s = true ↔ s ∈ map lit l.
Proof.
  unfold one_of. rewrite existsb_exists. setoid_rewrite str_eqb_eq.
  rewrite list_elem_of_In, in_map_iff. naive_solver.
Qed.

Lemma strip_suffix_Some p s r : strip_suffix p s = Some r ↔ s = r ++ p.
Proof.
  unfold strip_suffix. rewrite fmap_Some. setoid_rewrite strip_prefix_Some. split.
  - intros (x & Hx & ->). apply (f_equal (@rev _)) in Hx.
    by rewrite rev_involutive, rev_app_distr, rev_involutive in Hx.
  - intros ->. exists (rev r). by rewrite rev_app_distr, rev_involutive.
Qed.

(** ** Trimmed strings *)

Lemma drop_while_length {A} (p : A → bool) l : (length (drop_while p l) ≤ length l)%nat.
Proof.
  destruct (drop_while_suffix p l) as [pre H]. apply (f_equal length) in H.
  rewrite length_app in H. lia.
Qed.

Lemma drop_while_id {A} (p : A → bool) l :
  drop_while p l = l ↔ ∀ x, head l = Some x → p x = false.
Proof.
  destruct l as [|x l]; cbn [drop_while head]; [naive_solver|]. split.
  - intros H y [= <-]. destruct (p x) eqn:Hp; [|done].
    pose proof (drop_while_length p l) as Hl. rewrite H in Hl. cbn [length] in Hl. lia.
  - intros H. by rewrite (H x).
Qed.

Lemma head_rev {A} (l : list A) : head (rev l) = last l.
Proof.
  induction l as [|x l IH] using rev_ind; [done|].
  by rewrite rev_app_distr, last_snoc.
Qed.

Definition trimmed (s : str) : Prop :=
  (∀ c, head s = Some c → is_whitespace c = false) ∧
  (∀ c, last s = Some c → is_whitespace c = false).

Lemma trim_end_id s : trim_end s = s ↔ ∀ c, last s = Some c → is_whitespace c = false.
Proof.
  unfold trim_end, trim_end_matches. setoid_rewrite <- head_rev.
  rewrite <- drop_while_id. split; intros H.
  - apply (f_equal (@rev Z)) in H. by rewrite rev_involutive in H.
  - by rewrite H, rev_involutive.
Qed.

Lemma trim_end_length s : (length (trim_end s) ≤ length s)%nat.
Proof.
  unfold trim_end, trim_end_matches. rewrite length_rev.
  pose proof (drop_while_length is_whitespace (rev s)) as H. by rewrite length_rev in H.
Qed.

Lemma trim_trimmed s : trim s = s ↔ trimmed s.
Proof.
  unfold trim, trimmed. rewrite <- (drop_while_id is_whitespace s). split.
  - intros H. assert (trim_start s = s) as Hs.
    { unfold trim_start, trim_start_matches in *.
      apply (sublist_equal_length (A := Z)).
      - destruct (drop_while_suffix is_whitespace s) as [pre Hpre].
        rewrite Hpre at 2. by apply sublist_inserts_l.
      - rewrite <- H at 1. etrans; [apply trim_end_length|]. done. }
    rewrite Hs in H. split; [exact Hs|by apply trim_end_id].
  - intros [Hs He]. fold (trim_start s) in Hs. unfold trim_start, trim_start_matches in *.
    rewrite Hs. by apply trim_end_id.
Qed.

(** ** Text between blanks *)

Definition blank (s : str) : Prop := Forall (λ c, is_whitespace c = true) s.

Lemma drop_blank {A} (p : A → bool) (l r : list A) :
  Forall (λ x, p x = true) l → drop_while p (l ++ r) = drop_while p r.
Proof. induction 1 as [|x l Hx _ IH]; cbn [app drop_while]; [done|]. by rewrite Hx. Qed.

Lemma drop_kept {A} (p : A → bool) (l r : list A) :
  drop_while p l ≠ [] → drop_while p (l ++ r) = drop_while p l ++ r.
Proof.
  induction l as [|x l IH]; cbn [app drop_while]; [done|]. by destruct (p x).
Qed.

Lemma drop_while_nil {A} (p : A → bool) (l : list A) :
  drop_while p l = [] ↔ Forall (λ x, p x = true) l.
Proof.
  induction l as [|x l IH]; cbn [drop_while]; [split; [constructor|done]|].
  rewrite Forall_cons. destruct (p x); rewrite ?IH; naive_solver.
Qed.

Lemma trim_end_app a w : blank w → trim_end (a ++ w) = trim_end a.
Proof.
  intros Hw. unfold trim_end, trim_end_matches. rewrite rev_app_distr.
  rewrite drop_blank; [done|]. by rewrite <- Permutation_rev.
Qed.

Lemma trim_end_keep a b : trim_end b ≠ [] → trim_end (a ++ b) = a ++ trim_end b.
Proof.
  intros Hb. unfold trim_end, trim_end_matches in *. rewrite rev_app_distr.
  rewrite drop_kept; [by rewrite rev_app_distr, rev_involutive|].
  intros E. apply Hb. by rewrite E.
Qed.

Lemma trim_end_nil s : trim_end s = [] ↔ blank s.
Proof.
  unfold trim_end, trim_end_matches. split.
  - intros E. apply (f_equal (@rev _)) in E. rewrite rev_involutive in E.
    apply drop_while_nil in E. by rewrite <- Permutation_rev in E.
  - intros Hs. rewrite (proj2 (drop_while_nil _ (rev s))); [done|]. by rewrite <- Permutation_rev.
Qed.

Lemma blank_dec s : blank s ∨ trim_start s ≠ [].
Proof.
  destruct (trim_start s) eqn:E; [|by right]. left. by apply drop_while_nil.
Qed.

Lemma trim_start_blank w s : blank w → trim_start (w ++ s) = trim_start s.
Proof. apply drop_blank. Qed.

Lemma trim_outer w l w' : blank w → blank w' → trim (w ++ l ++ w') = trim l.
Proof.
  intros Hw Hw'. unfold trim. rewrite trim_start_blank by done.
  destruct (blank_dec l) as [Hl|Hl].
  - rewrite trim_start_blank by done. rewrite <- (app_nil_r l) at 1.
    rewrite (trim_start_blank l []) by done.
    assert (E : trim_start w' = []) by (by apply drop_while_nil). by rewrite E.
  - unfold trim_start at 1. unfold trim_start_matches. rewrite drop_kept by done.
    by apply trim_end_app.
Qed.

Lemma drop_while_idem {A} (f : A → bool) (l : list A) : drop_while f (drop_while f l) = drop_while f l.
Proof.
  induction l as [|x l IH]; [done|]. simpl. destruct (f x) eqn:E; [done|]. simpl. by rewrite E.
Qed.

Lemma drop_while_pre {A} (p : A → bool) (l : list A) :
  ∃ pre, Forall (λ x, p x = true) pre ∧ l = pre ++ drop_while p l.
Proof.
  induction l as [|x l (pre & Hp & IH)]; [by exists []|]. cbn [drop_while].
  destruct (p x) eqn:E; [|by exists []]. exists (x :: pre). cbn [app]. rewrite <- IH. split; [by constructor|done].
Qed.

Lemma trim_parts s : ∃ w w', blank w ∧ blank w' ∧ s = w ++ trim s ++ w'.
Proof.
  destruct (drop_while_pre is_whitespace s) as (w & Hw & E).
  destruct (drop_while_pre is_whitespace (rev (trim_start s))) as (v & Hv & Ev).
  exists w, (rev v). split; [done|]. split; [unfold blank; by rewrite <- Permutation_rev|].
  apply (f_equal (@rev Z)) in Ev. rewrite rev_involutive, rev_app_distr in Ev.
  unfold trim, trim_end, trim_end_matches. by rewrite <- Ev.
Qed.

Lemma trim_idem s : trim (trim s) = trim s.
Proof.
  destruct (trim_parts s) as (w & w' & Hw & Hw' & E). rewrite E at 2. by rewrite trim_outer.
Qed.

Lemma trim_nil s : trim s = [] ↔ blank s.
Proof.
  split.
  - intros E. destruct (trim_parts s) as (w & w' & Hw & Hw' & Es). rewrite E in Es. rewrite Es.
    by apply Forall_app.
  - intros Hs. rewrite <- (app_nil_r s). change (trim (s ++ [] ++ []) = []).
    rewrite (trim_outer s [] []); [done|done|constructor].
Qed.
