(* ===== verification/F64.v ===== *)
(** * IEEE binary64

    The [f64] operations the modelled sources use, over the executable
    specification of IEEE-754 in the Standard Library ([SpecFloat], precision
    53, [emax] 1024, round to nearest even). *)
From S2P Require Import Prelude.
From Stdlib Require Import SpecFloat.

Definition f64 : Type := spec_float.

(** [z as f64] for an unsigned [z]. *)
Definition f64_of_Z (z : Z) : f64 := binary_normalize 53 1024 z 0 false.

Definition f64_div (a b : f64) : f64 := SFdiv 53 1024 a b.
Definition f64_mul (a b : f64) : f64 := SFmul 53 1024 a b.
Definition f64_leb (a b : f64) : bool := SFleb a b.
Definition f64_ltb (a b : f64) : bool := SFltb a b.

(** [f64::min]: the other operand when one is NaN. *)
Definition f64_min (a b : f64) : f64 :=
  match a, b with
  | S754_nan, _ => b
  | _, S754_nan => a
  | _, _ => if SFltb b a then b else a
  end.

Definition f64_zero : f64 := S754_zero false.
Definition f64_100 : f64 := f64_of_Z 100.

(** [f.round()] as an integer: half away from zero. *)
Definition round_half_away (s : bool) (m : positive) (e : Z) : Z :=
  let n :=
    if (0 <=? e)%Z then (Z.pos m * 2 ^ e)%Z
    else let d := (2 ^ (- e))%Z in ((2 * Z.pos m + d) / (2 * d))%Z in
  if s then (- n)%Z else n.

(** [f.round() as uN] with [hi] the type's largest value: a saturating cast,
    NaN to 0. *)
Definition f64_round_as (hi : Z) (f : f64) : Z :=
  match f with
  | S754_zero _ | S754_nan => 0
  | S754_infinity s => if s then 0 else hi
  | S754_finite s m e => Z.max 0 (Z.min hi (round_half_away s m e))
  end%Z.

(** [f as uN], which truncates, and [f.ceil() as uN]. *)
Definition f64_trunc_as (hi : Z) (f : f64) : Z :=
  match f with
  | S754_zero _ | S754_nan => 0
  | S754_infinity s => if s then 0 else hi
  | S754_finite s m e =>
      let n := if (0 <=? e)%Z then (Z.pos m * 2 ^ e)%Z else (Z.pos m / 2 ^ (- e))%Z in
      if s then 0 else Z.min hi n
  end%Z.
Definition f64_ceil_as (hi : Z) (f : f64) : Z :=
  match f with
  | S754_zero _ | S754_nan => 0
  | S754_infinity s => if s then 0 else hi
  | S754_finite s m e =>
      let n := if (0 <=? e)%Z then (Z.pos m * 2 ^ e)%Z else (- (- Z.pos m / 2 ^ (- e)))%Z in
      if s then 0 else Z.min hi n
  end%Z.

Lemma f64_round_as_range hi f : (0 ≤ hi)%Z → (0 ≤ f64_round_as hi f ≤ hi)%Z.
Proof. destruct f as [[]|[]| |s m e]; simpl; lia. Qed.

#[export] Hint Resolve f64_round_as_range : grodex.
