(* ===== verification/TokenEstimation.v ===== *)
(** * Token estimation

    [xai-token-estimation/src/lib.rs]: the bytes/4 heuristic and the
    percentage arithmetic behind the auto-compact gates. *)
From S2P Require Import Prelude RustStr F64.

Definition BYTES_PER_TOKEN : Z := 4.
Definition IMAGE_TOKEN_ESTIMATE : Z := 765.

Definition estimate_tokens (s : str) : Z := (str_len s / BYTES_PER_TOKEN)%Z.

Definition estimate_chars (tokens : Z) : Z := saturating_mul tokens BYTES_PER_TOKEN.

Definition estimate_image_tokens (image_count : Z) : Z :=
  saturating_mul image_count IMAGE_TOKEN_ESTIMATE.

Definition usage_percentage (used total : Z) : f64 :=
  if (total =? 0)%Z then f64_zero
  else f64_min (f64_mul (f64_div (f64_of_Z used) (f64_of_Z total)) f64_100) f64_100.

Definition usage_percentage_u8 (used total : Z) : Z :=
  f64_round_as 255 (usage_percentage used total).

Definition usage_percentage_truncated_u8 (used total : Z) : Z :=
  if (total =? 0)%Z then 0%Z
  else Z.min (saturating_mul used 100 / total) 100.

Definition free_tokens (total used : Z) : Z := saturating_sub total used.

Definition exceeds_threshold (used context_window threshold_percent : Z) : bool :=
  if (context_window =? 0)%Z then false
  else (saturating_mul context_window threshold_percent <=? saturating_mul used 100)%Z.

Definition exceeds_threshold_with_headroom
    (used context_window threshold_percent headroom : Z) : bool :=
  if (context_window =? 0)%Z then false
  else (saturating_sub (saturating_mul context_window threshold_percent)
                       (saturating_mul headroom 100) <=? saturating_mul used 100)%Z.

(** The byte estimate and its inverse are one another's adjoint, short of
    saturation. *)
Lemma estimate_chars_spec s n :
  (0 ≤ n)%Z → (n * BYTES_PER_TOKEN ≤ U64_MAX)%Z →
  (n ≤ estimate_tokens s ↔ estimate_chars n ≤ str_len s)%Z.
Proof.
  unfold estimate_tokens, estimate_chars, saturating_mul, BYTES_PER_TOKEN.
  intros. split; intros.
  - pose proof (Z.mul_div_le (str_len s) 4). lia.
  - apply Z.div_le_lower_bound; lia.
Qed.

(** The gate fires exactly when the truncated percentage it reports has reached
    the threshold, for every threshold up to 100% of a window that can be
    scaled without saturating. *)
Lemma exceeds_threshold_percentage used cw thr :
  is_u64 used → (0 < cw)%Z → (cw * 100 ≤ U64_MAX)%Z → (0 ≤ thr ≤ 100)%Z →
  exceeds_threshold used cw thr = (thr <=? usage_percentage_truncated_u8 used cw)%Z.
Proof.
  unfold exceeds_threshold, usage_percentage_truncated_u8, saturating_mul, is_u64.
  intros Hu Hcw Hsat Hthr.
  destruct (Z.eqb_spec cw 0); [lia|].
  rewrite (Z.min_l (cw * thr) U64_MAX) by nia.
  set (x := Z.min (used * 100) U64_MAX).
  apply eq_true_iff_eq. rewrite !Z.leb_le. split; intros H.
  - apply Z.min_glb; [|lia]. apply Z.div_le_lower_bound; lia.
  - assert (thr ≤ x / cw)%Z by lia.
    pose proof (Z.mul_div_le x cw ltac:(lia)). nia.
Qed.

(** Without headroom the two gates agree. *)
Lemma exceeds_threshold_no_headroom used cw thr :
  (0 ≤ cw)%Z → (0 ≤ thr)%Z →
  exceeds_threshold_with_headroom used cw thr 0 = exceeds_threshold used cw thr.
Proof.
  intros. unfold exceeds_threshold_with_headroom, exceeds_threshold.
  destruct (cw =? 0)%Z; [done|]. f_equal.
  unfold saturating_sub, saturating_mul, U64_MAX. nia.
Qed.

Lemma usage_percentage_truncated_range used total :
  (0 ≤ used)%Z → (0 ≤ total)%Z →
  (0 ≤ usage_percentage_truncated_u8 used total ≤ 100)%Z.
Proof.
  unfold usage_percentage_truncated_u8, saturating_mul. intros.
  destruct (Z.eqb_spec total 0); [lia|].
  pose proof (Z.div_pos (Z.min (used * 100) U64_MAX) total).
  unfold U64_MAX in *. lia.
Qed.

Lemma estimate_tokens_nonneg s : (0 ≤ estimate_tokens s)%Z.
Proof.
  unfold estimate_tokens, BYTES_PER_TOKEN. apply Z.div_pos; [|lia].
  induction s as [|c s IH]; simpl; [lia|].
  unfold char_len. repeat case_match; lia.
Qed.

#[export] Hint Resolve estimate_tokens_nonneg : grodex.
