(* ===== verification/Conversation.v ===== *)
(** * Conversation items

    [xai-grok-sampling-types/src/conversation.rs] (the item types and their
    constructors), [types.rs] (reasoning effort) and the per-item token
    estimate of [xai-chat-state/src/actor/state.rs].

    The payloads of the Responses API (crate [async_openai], module [rs]) and
    of [serde_json] are not part of the repository: the class [RsApi] holds
    their types with the fields the sources read. *)
From S2P Require Import Prelude RustStr TokenEstimation.

(** What [text_summary] reads of an [rs::WebSearchToolCallAction]. *)
Inductive WebSearchAction : Type :=
| ActionSearch (query : str)
| ActionOpenPage (url : option str)
| ActionFind (pattern url : str).

Class RsApi : Type := {
  ReasoningItem : Type;
  ri_summary : ReasoningItem → list str;
  ri_content : ReasoningItem → option (list str);
  ri_encrypted_content : ReasoningItem → option str;
  WebSearchToolCall : Type;
  ws_action : WebSearchToolCall → WebSearchAction;
  CustomToolCall : Type;
  ct_name : CustomToolCall → str;
  ct_input : CustomToolCall → str;
  CodeInterpreterToolCall : Type;
  ci_code : CodeInterpreterToolCall → option str;
  JsonValue : Type;
  json_to_string : JsonValue → str;
  TraceContext : Type;
}.

Inductive ReasoningEffort : Type :=
| EffortNone | EffortMinimal | EffortLow | EffortMedium | EffortHigh | EffortXhigh.

Record SystemItem := { sys_content : str }.

Inductive SyntheticReason : Type :=
| CompactionMeta | SystemReminder | ProjectInstructions | AutoContinue
| AutoRecovery | Interjection | TaskCompleted | SubagentCompleted
| NotificationDrain | GoalSummary | GoalClassifierNudge | SchedulerFired
| UnknownReason.

Definition starts_prompt_turn (r : SyntheticReason) : bool :=
  match r with
  | TaskCompleted | SubagentCompleted | NotificationDrain | GoalClassifierNudge
  | SchedulerFired => true
  | CompactionMeta | SystemReminder | ProjectInstructions | AutoContinue
  | AutoRecovery | Interjection | GoalSummary | UnknownReason => false
  end.

Inductive PriorTurnInterrupt : Type :=
| MidTurnAbort | PermissionRejected | PermissionCancelled | UnknownInterrupt.

Inductive ContentPart : Type :=
| Text (text : str)
| Image (url : str).

Record UserItem := {
  u_content : list ContentPart;
  u_synthetic_reason : option SyntheticReason;
  u_prior_turn_interrupt : option PriorTurnInterrupt;
  u_prompt_index : option Z;
}.

Record ToolCall := { tc_id : str; tc_name : str; tc_arguments : str }.

Record AssistantItem := {
  a_content : str;
  a_tool_calls : list ToolCall;
  a_model_id : option str;
  a_model_fingerprint : option str;
  a_reasoning_effort : option ReasoningEffort;
}.

Record ToolResultItem := {
  tr_tool_call_id : str;
  tr_content : str;
  tr_images : list ContentPart;
}.

(** [tool_result.content = c] *)
Definition set_tr_content (t : ToolResultItem) (c : str) : ToolResultItem :=
  {| tr_tool_call_id := tr_tool_call_id t; tr_content := c;
     tr_images := tr_images t |}.

Section Items.
Context {RS : RsApi}.

Inductive BackendToolKind : Type :=
| WebSearch (ws : WebSearchToolCall)
| XSearch (ct : CustomToolCall)
| CodeInterpreter (ci : CodeInterpreterToolCall).

Record BackendToolCallItem := { bt_kind : BackendToolKind }.

Inductive ConversationItem : Type :=
| System (s : SystemItem)
| User (u : UserItem)
| Assistant (a : AssistantItem)
| ToolResult (t : ToolResultItem)
| BackendToolCall (b : BackendToolCallItem)
| Reasoning (r : ReasoningItem).

Record ToolSpec := {
  ts_name : str;
  ts_description : option str;
  ts_parameters : JsonValue;
}.

Inductive HostedTool : Type :=
| HostedWebSearch (allowed_domains : option (list str))
| HostedXSearch.

Inductive ConversationToolChoice : Type :=
| ChoiceAuto | ChoiceNone | ChoiceRequired | ChoiceFunction (name : str).

(** ** Constructors of the source *)

Definition item_system (content : str) : ConversationItem :=
  System {| sys_content := content |}.

Definition item_user (content : str) : ConversationItem :=
  User {| u_content := [Text content]; u_synthetic_reason := None;
          u_prior_turn_interrupt := None; u_prompt_index := None |}.

Definition item_assistant_tool_calls (tool_calls : list ToolCall) : ConversationItem :=
  Assistant {| a_content := []; a_tool_calls := tool_calls; a_model_id := None;
               a_model_fingerprint := None; a_reasoning_effort := None |}.

Definition item_tool_result (tool_call_id content : str) : ConversationItem :=
  ToolResult {| tr_tool_call_id := tool_call_id; tr_content := content;
                tr_images := [] |}.

(** ** Predicates of the item's variant *)

Definition is_user (i : ConversationItem) : bool :=
  match i with User _ => true | _ => false end.
Definition is_tool_result (i : ConversationItem) : bool :=
  match i with ToolResult _ => true | _ => false end.
Definition is_system (i : ConversationItem) : bool :=
  match i with System _ => true | _ => false end.

(** ** Text views *)

(** [&s[..n]]: [None] when [n] is not a char boundary, where the source
    panics. *)
Fixpoint byte_prefix (n : Z) (s : str) : option str :=
  if (n =? 0)%Z then Some []
  else match s with
       | [] => None
       | c :: s' =>
           if (n <? char_len c)%Z then None
           else cons c <$> byte_prefix (n - char_len c) s'
       end.

(** [BackendToolCallItem::text_summary]; [None] is the panic of
    [&c[..100]]. *)
Definition text_summary (b : BackendToolCallItem) : option str :=
  match bt_kind b with
  | WebSearch ws =>
      let action_desc :=
        match ws_action ws with
        | ActionSearch q => lit "search: " ++ q
        | ActionOpenPage url => lit "open: " ++ default (lit "?") url
        | ActionFind pattern url =>
            lit "find " ++ [34%Z] ++ pattern ++ [34%Z] ++ lit " in " ++ url
        end in
      Some (lit "[backend web_search] " ++ action_desc)
  | XSearch ct =>
      Some (lit "[backend x_search] " ++ ct_name ct ++ lit "(" ++ ct_input ct ++ lit ")")
  | CodeInterpreter ci =>
      code_preview ←
        match ci_code ci with
        | Some c =>
            if (100 <? str_len c)%Z
            then (λ p, p ++ lit "...") <$> byte_prefix 100 c
            else Some c
        | None => Some []
        end;
      Some (lit "[backend code_interpreter] " ++ code_preview)
  end.

(** [reasoning_item_text] *)
Definition reasoning_item_text (r : ReasoningItem) : str :=
  join [NL] (ri_summary r ++ match ri_content r with Some cs => cs | None => [] end).

(** [ConversationItem::text_content] *)
Definition text_content (i : ConversationItem) : option str :=
  match i with
  | System s => Some (sys_content s)
  | User u =>
      Some (join [NL]
        (omap (λ p, match p with Text t => Some t | Image _ => None end) (u_content u)))
  | Assistant a => Some (a_content a)
  | ToolResult t => Some (tr_content t)
  | BackendToolCall b => text_summary b
  | Reasoning r => Some (reasoning_item_text r)
  end.

(** ** Token estimates of [actor/state.rs] *)

Definition estimate_system_message_tokens (i : ConversationItem) : Z :=
  match i with System s => estimate_tokens (sys_content s) | _ => 0 end.

(** The [for p in &u.content] loop: text bytes and image count. *)
Fixpoint user_part_sizes (ps : list ContentPart) (bytes images : Z) : Z * Z :=
  match ps with
  | [] => (bytes, images)
  | Text t :: ps' => user_part_sizes ps' (bytes + str_len t) images
  | Image _ :: ps' => user_part_sizes ps' bytes (images + 1)
  end.

(** [estimate_item_tokens]; [None] is the panic of [text_summary]. *)
Definition estimate_item_tokens (i : ConversationItem) : option Z :=
  match i with
  | System s => Some (estimate_tokens (sys_content s))
  | User u =>
      let '(bytes, images) := user_part_sizes (u_content u) 0 0 in
      Some (wrapping_add (bytes / BYTES_PER_TOKEN) (estimate_image_tokens images))
  | Assistant a =>
      let bytes :=
        (str_len (a_content a)
         + foldr Z.add 0 (map (λ tc, str_len (tc_arguments tc)) (a_tool_calls a)))%Z in
      Some (bytes / BYTES_PER_TOKEN)%Z
  | ToolResult tr => Some (estimate_tokens (tr_content tr))
  | BackendToolCall b => estimate_tokens <$> text_summary b
  | Reasoning r =>
      let text_bytes := str_len (reasoning_item_text r) in
      let enc_bytes :=
        match ri_encrypted_content r with Some e => str_len e | None => 0%Z end in
      Some ((text_bytes + enc_bytes) / BYTES_PER_TOKEN)%Z
  end.

(** [items.iter().map(estimate_item_tokens).sum()], a wrapping [u64] sum. *)
Definition estimate_conversation_tokens (items : list ConversationItem) : option Z :=
  foldl (λ acc i, a ← acc; t ← estimate_item_tokens i; Some (wrapping_add a t))
        (Some 0%Z) items.

Definition estimate_messages_tokens (items : list ConversationItem) : option Z :=
  estimate_conversation_tokens (base.filter (λ i, is_system i = false) items).

(** [EstimatedItemTokenCounter::count_item_tokens]: saturates at [u32::MAX]. *)
Definition count_item_tokens (i : ConversationItem) : option Z :=
  (λ t, if (t <=? U32_MAX)%Z then t else U32_MAX) <$> estimate_item_tokens i.

End Items.
