(* ===== verification/Sampling.v ===== *)
(** * Sampling types

    [xai-grok-sampling-types]: token usage, sampling configuration and the
    request handed to the sampler ([types.rs], [conversation.rs]), the tool
    definitions of [xai-grok-tools-api] and their token estimates
    ([actor/state.rs]). *)
From S2P Require Import Prelude RustStr F64 TokenEstimation Conversation.

(** The bits of an [f32]; the sources only copy them. *)
Record F32 := { f32_bits : Z }.

Record TokenUsage := {
  prompt_tokens : Z;
  completion_tokens : Z;
  usage_total_tokens : Z;
  reasoning_tokens : Z;
  cached_prompt_tokens : Z;
}.

Definition reported_cost_ticks (raw : option Z) : option Z :=
  match raw with
  | Some t => if (0 <? t)%Z then Some t else None
  | None => None
  end.

Inductive ApiBackend : Type :=
| ChatCompletions
| Responses
| Messages.

Record SamplingConfig := {
  base_url : str;
  model : str;
  max_completion_tokens : option Z;
  temperature : option F32;
  top_p : option F32;
  api_backend : ApiBackend;
  extra_headers : list (str * str);
  context_window : Z;
  reasoning_effort : option ReasoningEffort;
  stream_tool_calls : option bool;
}.

Section Sampling.
Context {RS : RsApi}.

Record FunctionTool := {
  ft_name : str;
  ft_description : option str;
  ft_parameters : JsonValue;
}.
Inductive ToolType : Type := Function.
Record ToolDefinition := { td_kind : ToolType; td_function : FunctionTool }.

Definition estimate_tool_definition_tokens (td : ToolDefinition) : Z :=
  let name_len := str_len (ft_name (td_function td)) in
  let desc_len :=
    match ft_description (td_function td) with Some d => str_len d | None => 0%Z end in
  let params_len := str_len (json_to_string (ft_parameters (td_function td))) in
  ((name_len + desc_len + params_len) / BYTES_PER_TOKEN)%Z.

Definition estimate_tool_definitions_tokens (tds : list ToolDefinition) : Z :=
  foldl (λ acc td, wrapping_add acc (estimate_tool_definition_tokens td)) 0%Z tds.

Record ConversationRequest := {
  items : list ConversationItem;
  tools : list ToolSpec;
  hosted_tools : list HostedTool;
  tool_choice : option ConversationToolChoice;
  request_model : option str;
  request_temperature : option F32;
  max_output_tokens : option Z;
  request_top_p : option F32;
  x_grok_conv_id : option str;
  x_grok_req_id : option str;
  x_grok_session_id : option str;
  x_grok_turn_idx : option str;
  x_grok_agent_id : option str;
  x_grok_deployment_id : option str;
  x_grok_user_id : option str;
  trace : option TraceContext;
  request_reasoning_effort : option ReasoningEffort;
  json_schema : option JsonValue;
}.

(** [user.content] after [strip_images] and the number of replaced parts. *)
Fixpoint strip_image_parts (parts : list ContentPart) : list ContentPart * nat :=
  match parts with
  | [] => ([], 0%nat)
  | Image _ :: parts' =>
      let '(ps, n) := strip_image_parts parts' in
      (Text (lit "[image removed — conversation too large]") :: ps, S n)
  | p :: parts' => let '(ps, n) := strip_image_parts parts' in (p :: ps, n)
  end.

Definition strip_images_item (i : ConversationItem) : ConversationItem * nat :=
  match i with
  | User u =>
      let '(ps, n) := strip_image_parts (u_content u) in
      (User {| u_content := ps; u_synthetic_reason := u_synthetic_reason u;
               u_prior_turn_interrupt := u_prior_turn_interrupt u;
               u_prompt_index := u_prompt_index u |}, n)
  | ToolResult t =>
      (ToolResult {| tr_tool_call_id := tr_tool_call_id t; tr_content := tr_content t;
                     tr_images := [] |}, length (tr_images t))
  | _ => (i, 0%nat)
  end.

(** [ConversationRequest::strip_images]: the items and the number of images
    removed. *)
Definition strip_images (its : list ConversationItem) : list ConversationItem * nat :=
  (map (λ i, (strip_images_item i).1) its,
   sum_list (map (λ i, (strip_images_item i).2) its)).

End Sampling.
