(* ===== verification/Concrete.v ===== *)
(** * A concrete instance

    The Responses API payloads as plain tuples with the fields the sources
    read, and a few items; the examples of the development evaluate on them. *)
From S2P Require Import Prelude RustStr TokenEstimation Conversation.

#[global] Instance concrete_api : RsApi := {
  ReasoningItem := list str * option (list str) * option str;
  ri_summary r := r.1.1;
  ri_content r := r.1.2;
  ri_encrypted_content r := r.2;
  WebSearchToolCall := WebSearchAction;
  ws_action w := w;
  CustomToolCall := str * str;
  ct_name c := c.1;
  ct_input c := c.2;
  CodeInterpreterToolCall := option str;
  ci_code c := c;
  JsonValue := str;
  json_to_string s := s;
  TraceContext := str;
}.

Definition demo_call (id : string) : ToolCall :=
  {| tc_id := lit id; tc_name := lit "bash"; tc_arguments := lit "{}" |}.
Definition demo_calls (ids : list string) : ConversationItem :=
  item_assistant_tool_calls (map demo_call ids).
Definition demo_result (id out : string) : ConversationItem :=
  item_tool_result (lit id) (lit out).
Definition demo_assistant (text : string) : ConversationItem :=
  Assistant {| a_content := lit text; a_tool_calls := []; a_model_id := None;
               a_model_fingerprint := None; a_reasoning_effort := None |}.

(** A history with a duplicate, a displaced result and an unanswered call. *)
Definition demo_broken : list ConversationItem :=
  [item_system (lit "sys"); item_user (lit "q");
   demo_calls ["a"; "b"]; demo_result "a" "1"; demo_result "a" "2";
   item_user (lit "stop"); demo_result "b" "late"].
