(* ===== verification/ToolPairing.v ===== *)
(** * Tool-call pairing

    The passes that keep every assistant tool call next to its result:
    [repair_dangling_tool_calls], [has_dangling_tool_calls] and
    [dedup_duplicate_tool_results] of [conversation.rs], and
    [strip_displaced_tool_results] and [repair_history] of
    [xai-chat-state/src/compaction_utils.rs].

    The passes are translated with their indices, scans and splices.  Each has
    a streaming reference ([repair_ref], [dedup_ref], [dangling_ref]) it is
    proved equal to, and the invariants are stated on the conversation itself
    ([calls_answered], [results_unique], [results_owned]). *)
From S2P Require Import Prelude RustStr TokenEstimation Conversation.

Section Pairing.
Context {RS : RsApi}.
Implicit Types (conv rest run : list ConversationItem) (i j idx : nat).

Inductive DanglingToolCallReason : Type :=
| UserCancelled
| HarnessHalted (class : str).

Definition synthetic_dangling_result_text (name : str) (reason : DanglingToolCallReason) : str :=
  match reason with
  | UserCancelled =>
      lit "Tool execution was cancelled by the user (tool `" ++ name
      ++ lit "` was not executed)."
  | HarnessHalted class =>
      lit "Tool execution was halted by the harness (" ++ class
      ++ lit "); the tool `" ++ name ++ lit "` was not executed."
  end.

(** The inner [while j < conversation.len()] loop: the results that follow, as
    the position after them and the set of their ids. *)
Fixpoint collect_answered (rest : list ConversationItem) (j : nat) (answered : gset str)
  : nat * gset str :=
  match rest with
  | ToolResult tr :: rest' =>
      collect_answered rest' (S j) ({[tr_tool_call_id tr]} ∪ answered)
  | _ => (j, answered)
  end.

(** The synthetic results of the calls not in [answered], in call order. *)
Definition synthetic_results (reason : DanglingToolCallReason) (answered : gset str)
    (tool_calls : list (str * str)) : list ConversationItem :=
  map (λ '(id, name), item_tool_result id (synthetic_dangling_result_text name reason))
      (base.filter (λ c : str * str, c.1 ∉ answered) tool_calls).

(** Phase 1: the [(insert_position, synthetic_items)] of every repair site. *)
Fixpoint scan_repairs (fuel : nat) conv (reason : DanglingToolCallReason) i
  : list (nat * list ConversationItem) :=
  match fuel with
  | O => []
  | S fuel' =>
      match conv !! i with
      | None => []
      | Some (Assistant a) =>
          if is_empty (a_tool_calls a) then scan_repairs fuel' conv reason (S i)
          else
            let tool_calls := map (λ tc, (tc_id tc, tc_name tc)) (a_tool_calls a) in
            let '(j, answered) := collect_answered (drop (S i) conv) (S i) ∅ in
            let synthetic := synthetic_results reason answered tool_calls in
            (if is_empty synthetic then [] else [(j, synthetic)])
              ++ scan_repairs fuel' conv reason j
      | Some _ => scan_repairs fuel' conv reason (S i)
      end
  end.

(** [conversation.splice(at..at, items)] *)
Definition splice (at_ : nat) (items conv : list ConversationItem) : list ConversationItem :=
  take at_ conv ++ items ++ drop at_ conv.

(** The repaired conversation and the number of inserted results.  Repairs are
    applied last first. *)
Definition repair_dangling_tool_calls conv (reason : DanglingToolCallReason)
  : list ConversationItem * nat :=
  let repairs := scan_repairs (length conv) conv reason 0 in
  let total := sum_list (map (λ r : nat * list ConversationItem, length r.2) repairs) in
  (foldl (λ c r, splice r.1 r.2 c) conv (reverse repairs), total).

Fixpoint has_dangling_loop (fuel : nat) conv i : bool :=
  match fuel with
  | O => false
  | S fuel' =>
      match conv !! i with
      | None => false
      | Some (Assistant a) =>
          if is_empty (a_tool_calls a) then has_dangling_loop fuel' conv (S i)
          else
            let '(j, answered) := collect_answered (drop (S i) conv) (S i) ∅ in
            if existsb (λ tc, bool_decide (tc_id tc ∉ answered)) (a_tool_calls a)
            then true
            else has_dangling_loop fuel' conv j
      | Some _ => has_dangling_loop fuel' conv (S i)
      end
  end.

Definition has_dangling_tool_calls conv : bool :=
  has_dangling_loop (length conv) conv 0.

(** The [while end < conversation.len()] loop of the dedup pass. *)
Fixpoint result_run_end (rest : list ConversationItem) (end_ : nat) : nat :=
  match rest with
  | ToolResult _ :: rest' => result_run_end rest' (S end_)
  | _ => end_
  end.

(** The scan of one window: [seen] maps an id to the index it was last seen at;
    a second sighting marks the previous index for removal. *)
Fixpoint dup_scan (seen : gmap str nat) idx (window : list ConversationItem) : list nat :=
  match window with
  | [] => []
  | ToolResult tr :: w =>
      let id := tr_tool_call_id tr in
      match seen !! id with
      | Some prev => [prev]
      | None => []
      end ++ dup_scan (<[id := idx]> seen) (S idx) w
  | _ :: w => dup_scan seen (S idx) w
  end.

(** [sort_unstable], [reverse], then [conversation.remove] one by one. *)
Definition remove_all conv (to_remove : list nat) : list ConversationItem :=
  foldl (λ c idx, delete idx c) conv (reverse (merge_sort le to_remove)).

(** The loop re-scans the same [i] after a removal. *)
Fixpoint dedup_loop (fuel : nat) conv i (total_removed : nat)
  : list ConversationItem * nat :=
  match fuel with
  | O => (conv, total_removed)
  | S fuel' =>
      match conv !! i with
      | None => (conv, total_removed)
      | Some (Assistant a) =>
          if is_empty (a_tool_calls a) then dedup_loop fuel' conv (S i) total_removed
          else
            let start := S i in
            let end_ := result_run_end (drop start conv) start in
            let to_remove := dup_scan ∅ start (drop start (take end_ conv)) in
            if is_empty to_remove then dedup_loop fuel' conv end_ total_removed
            else dedup_loop fuel' (remove_all conv to_remove) i
                   (total_removed + length to_remove)
      | Some _ => dedup_loop fuel' conv (S i) total_removed
      end
  end.

(** Every iteration advances [i] or shortens the conversation, so twice the
    length is enough fuel. *)
Definition dedup_duplicate_tool_results conv : list ConversationItem * nat :=
  dedup_loop (S (2 * length conv)) conv 0 0.

(** [items.retain(..)] with the [run_ids] the closure carries: the kept items
    and the stripped ids. *)
Fixpoint strip_loop (run_ids : gset str) conv : list ConversationItem * list str :=
  match conv with
  | [] => ([], [])
  | Assistant a :: rest =>
      let '(kept, stripped) :=
        strip_loop (list_to_set (map tc_id (a_tool_calls a))) rest in
      (Assistant a :: kept, stripped)
  | ToolResult tr :: rest =>
      let '(kept, stripped) := strip_loop run_ids rest in
      if bool_decide (tr_tool_call_id tr ∈ run_ids)
      then (ToolResult tr :: kept, stripped)
      else (kept, tr_tool_call_id tr :: stripped)
  | item :: rest =>
      let '(kept, stripped) := strip_loop ∅ rest in (item :: kept, stripped)
  end.

Definition strip_displaced_tool_results conv : list ConversationItem * list str :=
  strip_loop ∅ conv.

Record HistoryRepairReport := {
  duplicates_removed : nat;
  stripped_tool_result_ids : list str;
  synthetic_results_inserted : nat;
}.

Definition report_changed (r : HistoryRepairReport) : bool :=
  (0 <? duplicates_removed r)%nat || negb (is_empty (stripped_tool_result_ids r))
  || (0 <? synthetic_results_inserted r)%nat.

Definition repair_history conv : list ConversationItem * HistoryRepairReport :=
  let '(c1, removed) := dedup_duplicate_tool_results conv in
  let '(c2, stripped) := strip_displaced_tool_results c1 in
  let '(c3, inserted) :=
    repair_dangling_tool_calls c2 (HarnessHalted (lit "history_repair")) in
  (c3, {| duplicates_removed := removed; stripped_tool_result_ids := stripped;
          synthetic_results_inserted := inserted |}).

(** ** Specification *)

(** The ids of the run of results a conversation starts with. *)
Fixpoint run_ids rest : list str :=
  match rest with
  | ToolResult tr :: rest' => tr_tool_call_id tr :: run_ids rest'
  | _ => []
  end.

Definition call_ids (a : AssistantItem) : list str := map tc_id (a_tool_calls a).

(** Every tool call is answered in the run right after its assistant item. *)
Definition calls_answered conv : Prop :=
  ∀ pre a rest, conv = pre ++ Assistant a :: rest →
  ∀ id, id ∈ call_ids a → id ∈ run_ids rest.

(** No id is answered twice in the run after an assistant item with calls. *)
Definition results_unique conv : Prop :=
  ∀ pre a rest, conv = pre ++ Assistant a :: rest →
  a_tool_calls a ≠ [] → NoDup (run_ids rest).

(** Every result stands in the run of an assistant item that made its call. *)
Definition results_owned conv : Prop :=
  ∀ pre tr rest, conv = pre ++ ToolResult tr :: rest →
  ∃ pre' a mid, pre = pre' ++ Assistant a :: mid ∧
    Forall (λ m, is_tool_result m = true) mid ∧ tr_tool_call_id tr ∈ call_ids a.

(** The calls of one assistant item have distinct ids. *)
Definition calls_distinct conv : Prop :=
  ∀ pre a rest, conv = pre ++ Assistant a :: rest → NoDup (call_ids a).

(** ** Streaming references *)

(** [pending]: the calls of the current assistant item not answered so far. *)
Fixpoint repair_ref (reason : DanglingToolCallReason) (pending : list (str * str)) conv
  : list ConversationItem :=
  let flush := map (λ '(id, name),
      item_tool_result id (synthetic_dangling_result_text name reason)) pending in
  match conv with
  | [] => flush
  | ToolResult tr :: rest =>
      ToolResult tr ::
        repair_ref reason
          (base.filter (λ c : str * str, c.1 ≠ tr_tool_call_id tr) pending) rest
  | Assistant a :: rest =>
      flush ++ Assistant a ::
        repair_ref reason (map (λ tc, (tc_id tc, tc_name tc)) (a_tool_calls a)) rest
  | item :: rest => flush ++ item :: repair_ref reason [] rest
  end.

(** [active]: inside the run of an assistant item with calls. *)
Fixpoint dedup_ref (active : bool) conv : list ConversationItem :=
  match conv with
  | [] => []
  | ToolResult tr :: rest =>
      if active && bool_decide (tr_tool_call_id tr ∈ run_ids rest)
      then dedup_ref active rest
      else ToolResult tr :: dedup_ref active rest
  | Assistant a :: rest => Assistant a :: dedup_ref (negb (is_empty (a_tool_calls a))) rest
  | item :: rest => item :: dedup_ref false rest
  end.

Fixpoint dangling_ref (pending : list str) conv : bool :=
  match conv with
  | [] => negb (is_empty pending)
  | ToolResult tr :: rest =>
      dangling_ref (base.filter (λ id, id ≠ tr_tool_call_id tr) pending) rest
  | Assistant a :: rest => negb (is_empty pending) || dangling_ref (call_ids a) rest
  | _ :: rest => negb (is_empty pending) || dangling_ref [] rest
  end.

End Pairing.

Arguments repair_dangling_tool_calls : simpl never.
Arguments dedup_duplicate_tool_results : simpl never.
