(* ===== verification/ToolPairingFacts.v ===== *)
(** * Tool-call pairing: proofs

    The passes of the file ToolPairing, loop by loop, against the streaming
    references: runs of results, positions of duplicates, splices from the
    end. *)
From S2P Require Import Prelude RustStr TokenEstimation Conversation ToolPairing.

Section Facts.
Context {RS : RsApi}.
Implicit Types (conv rest run pre : list ConversationItem) (i j idx : nat)
  (reason : DanglingToolCallReason).

Definition starts_no_result rest : Prop :=
  match rest with ToolResult _ :: _ => False | _ => True end.

(** ** Runs of results *)

(** Every list splits into its leading run of results and the rest. *)
Fixpoint run_of rest : list ConversationItem :=
  match rest with
  | ToolResult tr :: rest' => ToolResult tr :: run_of rest'
  | _ => []
  end.
Fixpoint after_run rest : list ConversationItem :=
  match rest with
  | ToolResult tr :: rest' => after_run rest'
  | _ => rest
  end.

Lemma run_split rest : rest = run_of rest ++ after_run rest.
Proof. induction rest as [|[] ? IH]; simpl; congruence. Qed.

Lemma after_run_starts rest : starts_no_result (after_run rest).
Proof. induction rest as [|[] ? IH]; simpl; auto. Qed.

Lemma run_of_results rest : Forall (λ m, is_tool_result m = true) (run_of rest).
Proof. induction rest as [|[] ? IH]; simpl; auto. Qed.

Lemma run_ids_run_of rest : run_ids rest = run_ids (run_of rest).
Proof. induction rest as [|[] ? IH]; simpl; congruence. Qed.

Lemma run_ids_app run rest :
  Forall (λ m, is_tool_result m = true) run →
  run_ids (run ++ rest) = run_ids run ++ run_ids rest.
Proof. induction 1 as [|[] ? ?? IH]; simpl in *; congruence. Qed.

Lemma run_ids_stop rest : starts_no_result rest → run_ids rest = [].
Proof. destruct rest as [|[] ?]; simpl; done. Qed.

Lemma result_run_end_spec rest k : result_run_end rest k = (k + length (run_of rest))%nat.
Proof.
  revert k. induction rest as [|[] ? IH]; intros k; simpl; rewrite ?IH; lia.
Qed.

Lemma collect_answered_spec rest j s :
  collect_answered rest j s
  = ((j + length (run_of rest))%nat, list_to_set (run_ids rest) ∪ s).
Proof.
  revert j s. induction rest as [|[] ? IH]; intros j s0; simpl;
    rewrite ?IH; f_equal; try lia; rewrite ?(left_id_L ∅ (∪)); try done.
  by rewrite (assoc_L (∪)), (comm_L (∪) (list_to_set _)).
Qed.

(** The position after the run, seen from the conversation. *)
Lemma drop_after_run conv i item :
  conv !! i = Some item →
  let rest := drop (S i) conv in
  drop (S i + length (run_of rest)) conv = after_run rest ∧
  take (S i + length (run_of rest)) conv = take i conv ++ item :: run_of rest ∧
  (S i + length (run_of rest) ≤ length conv)%nat.
Proof.
  intros Hi rest.
  assert (E : conv = take i conv ++ item :: run_of rest ++ after_run rest).
  { unfold rest. rewrite <- run_split, take_drop_middle by done. done. }
  assert (Hl : (i ≤ length conv)%nat) by (apply lookup_lt_Some in Hi; lia).
  pose proof (length_take_le conv i Hl) as Hli.
  set (n := length (run_of rest)).
  assert (E2 : conv = (take i conv ++ item :: run_of rest) ++ after_run rest)
    by (rewrite <- app_assoc; exact E).
  assert (Hn : length (take i conv ++ item :: run_of rest) = (S i + n)%nat)
    by (rewrite length_app; simpl; unfold n; lia).
  split; [|split].
  - rewrite E2 at 1. rewrite drop_app_length' by lia. done.
  - rewrite E2 at 1. rewrite take_app_length' by lia. done.
  - rewrite E2, length_app. lia.
Qed.

(** ** Dangling calls *)

Lemma flush_synthetic reason rest (calls : list (str * str)) :
  map (λ '(id, name), item_tool_result id (synthetic_dangling_result_text name reason))
      (base.filter (λ c : str * str, c.1 ∉ run_ids rest) calls)
  = synthetic_results reason (list_to_set (run_ids rest) ∪ ∅) calls.
Proof.
  unfold synthetic_results. f_equal.
  apply list_filter_iff. intros [id name]. simpl.
  by rewrite (right_id_L ∅ (∪)), elem_of_list_to_set.
Qed.

Lemma filter_run (calls : list (str * str)) tr rest :
  base.filter (λ c : str * str, c.1 ∉ run_ids rest)
    (base.filter (λ c : str * str, c.1 ≠ tr_tool_call_id tr) calls)
  = base.filter (λ c : str * str, c.1 ∉ run_ids (ToolResult tr :: rest)) calls.
Proof.
  rewrite list_filter_filter. apply list_filter_iff. intros [id name]. simpl.
  rewrite not_elem_of_cons. tauto.
Qed.

(** The reference over a run: the run, what it leaves unanswered, the rest. *)
Lemma repair_ref_run reason (calls : list (str * str)) rest :
  repair_ref reason calls rest
  = run_of rest
    ++ synthetic_results reason (list_to_set (run_ids rest) ∪ ∅) calls
    ++ repair_ref reason [] (after_run rest).
Proof.
  rewrite <- flush_synthetic. revert calls.
  assert (Hnil : ∀ calls : list (str * str),
    base.filter (λ c : str * str, c.1 ∉ (@nil str)) calls = calls).
  { intros calls. apply list_filter_all. intros c _. apply not_elem_of_nil. }
  induction rest as [|[] ? IH]; intros calls; simpl; rewrite ?Hnil, ?app_nil_r; try done.
  rewrite IH, filter_run. done.
Qed.

Lemma repair_ref_skip reason item rest :
  is_tool_result item = true ∨ (∃ a, item = Assistant a ∧ a_tool_calls a = [])
  ∨ (is_tool_result item = false ∧ (∀ a, item ≠ Assistant a)) →
  repair_ref reason [] (item :: rest) = item :: repair_ref reason [] rest.
Proof.
  destruct item; simpl; try done.
  intros [?|[(a' & [= <-] & ->)|[_ H]]]; try done. by destruct (H a).
Qed.

(** Phase 2 applied to phase 1 from position [i] rewrites exactly the suffix. *)
Lemma scan_repairs_spec fuel conv reason i :
  (length conv ≤ i + fuel)%nat → (i ≤ length conv)%nat →
  foldr (λ r c, splice r.1 r.2 c) conv (scan_repairs fuel conv reason i)
  = take i conv ++ repair_ref reason [] (drop i conv).
Proof.
  revert i. induction fuel as [|fuel IH]; intros i Hf Hi.
  - assert (i = length conv) as -> by lia.
    simpl. rewrite drop_all, take_ge by lia. simpl. by rewrite app_nil_r.
  - simpl. destruct (conv !! i) as [item|] eqn:Ei.
    2:{ apply lookup_ge_None in Ei.
        assert (i = length conv) as -> by lia.
        simpl. rewrite drop_all, take_ge by lia. simpl. by rewrite app_nil_r. }
    pose proof (lookup_lt_Some _ _ _ Ei).
    assert (Estep : repair_ref reason [] (drop i conv) = item :: repair_ref reason [] (drop (S i) conv) →
       foldr (λ r c, splice r.1 r.2 c) conv (scan_repairs fuel conv reason (S i))
       = take i conv ++ repair_ref reason [] (drop i conv)).
    { intros ->. rewrite IH by lia. rewrite (take_S_r _ _ item) by done.
      by rewrite <- app_assoc. }
    assert (Ed : drop i conv = item :: drop (S i) conv) by (by apply drop_S).
    destruct item as [| |a| | |]; try (apply Estep; rewrite Ed; done).
    destruct (is_empty (a_tool_calls a)) eqn:Ea.
    + apply Estep. rewrite Ed. apply repair_ref_skip. right. left.
      exists a. split; [done|]. by destruct (a_tool_calls a).
    + rewrite collect_answered_spec.
      destruct (drop_after_run conv i (Assistant a) Ei) as (D1 & D2 & D3).
      set (rest := drop (S i) conv) in *.
      set (j := (S i + length (run_of rest))%nat) in *.
      rewrite Ed. simpl. rewrite repair_ref_run.
      set (syn := synthetic_results reason _ _).
      rewrite foldr_app, IH by lia. rewrite D1, D2.
      assert (Hl : length (take i conv ++ Assistant a :: run_of rest) = j).
      { rewrite <- D2. apply length_take_le. lia. }
      destruct syn as [|x syn']; simpl.
      * by rewrite <- app_assoc.
      * unfold splice. rewrite take_app_length', drop_app_length' by done.
        rewrite <- app_assoc. simpl. done.
Qed.

Theorem repair_dangling_is_ref conv reason :
  (repair_dangling_tool_calls conv reason).1 = repair_ref reason [] conv.
Proof.
  unfold repair_dangling_tool_calls; simpl. rewrite foldl_reverse_foldr.
  apply (scan_repairs_spec (length conv) conv reason 0); lia.
Qed.

(** ** Duplicate results *)

(** The positions, from [idx], of the results of a run that a later result of
    the same run overrides. *)
Fixpoint dup_positions idx run : list nat :=
  match run with
  | ToolResult tr :: r =>
      (if bool_decide (tr_tool_call_id tr ∈ run_ids r) then [idx] else [])
        ++ dup_positions (S idx) r
  | _ => []
  end.

Abbreviation all_results run := (Forall (λ m, is_tool_result m = true) run).

Lemma dup_positions_bound idx run p : p ∈ dup_positions idx run → (idx ≤ p)%nat.
Proof.
  revert idx. induction run as [|[] r IH]; intros idx; simpl; try (by intros ?%elem_of_nil).
  intros [Hp|Hp]%elem_of_app.
  - case_bool_decide; [apply list_elem_of_singleton in Hp; lia | by apply elem_of_nil in Hp].
  - apply IH in Hp. lia.
Qed.

Lemma dup_positions_sorted idx run : StronglySorted le (dup_positions idx run).
Proof.
  revert idx. induction run as [|[] r IH]; intros idx; simpl; try constructor.
  case_bool_decide; simpl; [|apply IH].
  constructor; [apply IH|]. apply Forall_forall. intros p Hp%dup_positions_bound. lia.
Qed.

(** The earlier sightings of the ids of [l]. *)
Definition sightings (seen : gmap str nat) (l : list str) : list nat :=
  concat (map (λ id, match seen !! id with Some p => [p] | None => [] end) l).

Lemma sightings_insert_notin seen id idx l :
  id ∉ l → sightings (<[id:=idx]> seen) l = sightings seen l.
Proof.
  intros Hni. unfold sightings. f_equal. apply map_ext_in. intros y Hy.
  rewrite lookup_insert_ne; [done|]. intros ->. apply Hni. by apply list_elem_of_In.
Qed.

Lemma sightings_perm seen l l' : l ≡ₚ l' → sightings seen l ≡ₚ sightings seen l'.
Proof. intros Hl. unfold sightings. by rewrite Hl. Qed.

(** Phase by phase, the scan collects the overridden positions of the window
    and the earlier sightings it overrides. *)
Lemma dup_scan_perm seen idx run :
  all_results run →
  dup_scan seen idx run
  ≡ₚ dup_positions idx run ++ sightings seen (remove_dups (run_ids run)).
Proof.
  intros Hrun. revert seen idx.
  induction Hrun as [|[] r Hx Hr IH]; intros seen idx; simpl in *; try done.
  set (id := tr_tool_call_id t). rewrite IH.
  case_bool_decide as Hin; destruct (decide_rel (∈) id (run_ids r)); try done; simpl.
  - assert (Hin' : id ∈ remove_dups (run_ids r)) by (by apply elem_of_remove_dups).
    pose proof (NoDup_remove_dups (run_ids r)) as Hnd.
    apply elem_of_Permutation in Hin' as [l Hl].
    rewrite Hl in Hnd. apply NoDup_cons in Hnd as [Hni _].
    rewrite !(sightings_perm _ _ _ Hl). unfold sightings at 1 2. simpl.
    fold (sightings (<[id:=idx]> seen) l) (sightings seen l).
    rewrite lookup_insert_eq, sightings_insert_notin by done.
    destruct (seen !! id) as [prev|]; simpl; solve_Permutation.
  - rewrite sightings_insert_notin by (by rewrite elem_of_remove_dups).
    unfold sightings at 2. simpl. fold (sightings seen (remove_dups (run_ids r))).
    destruct (seen !! id) as [prev|]; simpl; solve_Permutation.
Qed.

Lemma dup_scan_sorted idx run :
  all_results run → merge_sort le (dup_scan ∅ idx run) = dup_positions idx run.
Proof.
  intros Hrun. apply (StronglySorted_unique le).
  - apply (StronglySorted_merge_sort le).
  - apply dup_positions_sorted.
  - rewrite merge_sort_Permutation, dup_scan_perm by done.
    assert (E : ∀ l, sightings ∅ l = []).
    { unfold sightings. induction l; simpl; [done|]. by rewrite lookup_empty. }
    by rewrite E, app_nil_r.
Qed.

Lemma dedup_ref_results run : all_results run → all_results (dedup_ref true run).
Proof.
  induction 1 as [|[] r Hx Hr IH]; simpl in *; try done. case_bool_decide; auto.
Qed.

Lemma delete_dup_positions pre run post :
  all_results run →
  foldr (λ idx c, delete idx c) (pre ++ run ++ post) (dup_positions (length pre) run)
  = pre ++ dedup_ref true run ++ post.
Proof.
  intros Hrun. revert pre. induction Hrun as [|[] r Hx Hr IH]; intros pre; simpl in *; try done.
  specialize (IH (pre ++ [ToolResult t])).
  rewrite length_app, Nat.add_comm, <- !app_assoc in IH. simpl in IH.
  case_bool_decide; simpl; rewrite IH; [|done].
  rewrite delete_middle. done.
Qed.

Lemma remove_all_spec pre run post :
  all_results run →
  remove_all (pre ++ run ++ post) (dup_scan ∅ (length pre) run)
  = pre ++ dedup_ref true run ++ post.
Proof.
  intros Hrun. unfold remove_all. rewrite foldl_reverse_foldr.
  rewrite dup_scan_sorted by done. by apply delete_dup_positions.
Qed.

Lemma length_dup_positions idx run :
  all_results run →
  (length (dup_positions idx run) + length (dedup_ref true run) = length run)%nat.
Proof.
  intros Hrun. revert idx. induction Hrun as [|[] r Hx Hr IH]; intros idx; simpl in *; try done.
  case_bool_decide; simpl; specialize (IH (S idx)); lia.
Qed.

Lemma length_dup_scan idx run :
  all_results run → length (dup_scan ∅ idx run) = length (dup_positions idx run).
Proof.
  intros Hrun. rewrite <- (dup_scan_sorted idx run Hrun).
  apply Permutation_length. by rewrite merge_sort_Permutation.
Qed.

Lemma elem_of_run_ids_dedup run id :
  all_results run → id ∈ run_ids (dedup_ref true run) ↔ id ∈ run_ids run.
Proof.
  induction 1 as [|[] r Hx Hr IH]; simpl in *; try done.
  case_bool_decide; simpl; rewrite !elem_of_cons, IH; [|done].
  split; [by right|]. by intros [->|?].
Qed.

Lemma dedup_run_nodup run : all_results run → NoDup (run_ids (dedup_ref true run)).
Proof.
  induction 1 as [|[] r Hx Hr IH]; simpl in *; try done; [constructor|].
  case_bool_decide; simpl; [done|]. constructor; [|done].
  by rewrite elem_of_run_ids_dedup.
Qed.

Lemma dedup_run_id run : NoDup (run_ids run) → all_results run → dedup_ref true run = run.
Proof.
  intros Hnd Hr. induction Hr as [|[] r Hx Hr IH]; simpl in *; try done.
  apply NoDup_cons in Hnd as [Hni Hnd]. rewrite bool_decide_false by done. by rewrite IH.
Qed.

Lemma dup_scan_nil idx run :
  all_results run → dup_scan ∅ idx run = [] → dedup_ref true run = run.
Proof.
  intros Hrun E. apply (f_equal length) in E. rewrite length_dup_scan in E by done.
  revert idx E. induction Hrun as [|[] r Hx Hr IH]; intros idx E; simpl in *; try done.
  case_bool_decide; simpl in *; [lia|]. by rewrite (IH (S idx)).
Qed.

Lemma dedup_ref_sublist active conv : dedup_ref active conv `sublist_of` conv.
Proof.
  revert active. induction conv as [|[] r IH]; intros active; simpl; try by constructor.
  destruct (_ && _); by constructor.
Qed.

(** The reference over a run. *)
Lemma dedup_ref_stop active rest :
  starts_no_result rest → dedup_ref active rest = dedup_ref false rest.
Proof. destruct rest as [|[] ?]; simpl; done. Qed.

Lemma run_ids_full run rest :
  all_results run → starts_no_result rest → run_ids (run ++ rest) = run_ids run.
Proof. intros. by rewrite run_ids_app, (run_ids_stop rest), app_nil_r. Qed.

Lemma dedup_ref_run run rest :
  all_results run → starts_no_result rest →
  dedup_ref true (run ++ rest) = dedup_ref true run ++ dedup_ref false rest.
Proof.
  intros Hr Hs. induction Hr as [|[] r Hx Hr IH]; simpl in *; try done.
  - by apply dedup_ref_stop.
  - rewrite run_ids_full by done. case_bool_decide; rewrite IH; done.
Qed.

Lemma dedup_ref_skip item conv i :
  conv !! i = Some item →
  (is_tool_result item = true ∨ (∃ a, item = Assistant a ∧ a_tool_calls a = [])
   ∨ (is_tool_result item = false ∧ ∀ a, item ≠ Assistant a)) →
  take i conv ++ dedup_ref false (drop i conv)
  = take (S i) conv ++ dedup_ref false (drop (S i) conv).
Proof.
  intros Hi Hk. rewrite (drop_S _ _ _ Hi), (take_S_r _ _ _ Hi), <- app_assoc. f_equal. simpl.
  destruct item; try done. destruct Hk as [Hf|[(a' & [= <-] & ->)|[_ Hf]]]; try done.
  by destruct (Hf a).
Qed.

Lemma dedup_loop_spec fuel conv i n :
  (i ≤ length conv)%nat → (length conv - i + length conv < fuel)%nat →
  let out := take i conv ++ dedup_ref false (drop i conv) in
  dedup_loop fuel conv i n = (out, n + (length conv - length out))%nat.
Proof.
  revert conv i n. induction fuel as [|fuel IH]; intros conv i n Hi Hf out; [lia|].
  unfold out; clear out. simpl.
  destruct (conv !! i) as [item|] eqn:Ei.
  2:{ apply lookup_ge_None in Ei. rewrite drop_ge, take_ge by lia.
      simpl. rewrite app_nil_r. f_equal. lia. }
  pose proof (lookup_lt_Some _ _ _ Ei).
  assert (Hstep : take i conv ++ dedup_ref false (drop i conv)
                  = take (S i) conv ++ dedup_ref false (drop (S i) conv) →
    dedup_loop fuel conv (S i) n
    = (take i conv ++ dedup_ref false (drop i conv),
       n + (length conv - length (take i conv ++ dedup_ref false (drop i conv))))%nat).
  { intros ->. by rewrite IH by lia. }
  destruct item as [| |a| | |] eqn:Eitem;
    try (apply Hstep; apply (dedup_ref_skip _ _ _ Ei); naive_solver).
  destruct (is_empty (a_tool_calls a)) eqn:Ea.
  { apply Hstep, (dedup_ref_skip _ _ _ Ei). destruct (a_tool_calls a) eqn:E2; naive_solver. }
  clear Hstep. rewrite result_run_end_spec.
  destruct (drop_after_run conv i _ Ei) as (D1 & D2 & D3).
  set (rest := drop (S i) conv) in *. set (run := run_of rest) in *.
  assert (Hrun : all_results run) by apply run_of_results.
  assert (Hstop : starts_no_result (after_run rest)) by apply after_run_starts.
  remember (S i + length run)%nat as e eqn:He.
  assert (Hwin : drop (S i) (take e conv) = run).
  { rewrite D2. rewrite (cons_middle (Assistant a)), app_assoc, drop_app_length'; [done|].
    rewrite length_app, length_take_le by lia. simpl. lia. }
  rewrite Hwin. rewrite (drop_S _ _ _ Ei). fold rest. simpl. rewrite Ea. simpl.
  assert (Erest : rest = run ++ after_run rest) by apply run_split.
  rewrite Erest at 1 2. rewrite dedup_ref_run by done.
  destruct (is_empty (dup_scan ∅ (S i) run)) eqn:Escan.
  - assert (Hid : dedup_ref true run = run).
    { apply (dup_scan_nil (S i)); [done|]. by destruct (dup_scan _ _ _). }
    rewrite IH by lia. rewrite D1, D2, Hid, <- app_assoc. done.
  - set (pre := take i conv ++ [Assistant a]).
    assert (Hpre : length pre = S i).
    { unfold pre. rewrite length_app, length_take_le by lia. simpl. lia. }
    assert (Econv : conv = pre ++ run ++ after_run rest).
    { unfold pre. rewrite <- app_assoc, <- Erest. simpl. unfold rest.
      by rewrite take_drop_middle. }
    assert (Erem : remove_all conv (dup_scan ∅ (S i) run)
                   = pre ++ dedup_ref true run ++ after_run rest).
    { rewrite Econv at 1. rewrite <- Hpre. by apply remove_all_spec. }
    rewrite Erem. clear Hwin.
    pose proof (length_dup_positions (S i) run Hrun) as Hlen.
    rewrite <- length_dup_scan in Hlen by done.
    assert (Hpos : (0 < length (dup_scan ∅ (S i) run))%nat)
      by (destruct (dup_scan _ _ _); simpl; [done|lia]).
    assert (Hconv : length conv = (S i + length run + length (after_run rest))%nat)
      by (rewrite Econv, !length_app; lia).
    rewrite IH; rewrite ?length_app, ?Hpre; try lia.
    assert (Ht : take i (pre ++ dedup_ref true run ++ after_run rest) = take i conv).
    { unfold pre. rewrite <- !app_assoc. rewrite take_app_length'; [done|].
      rewrite length_take_le; lia. }
    assert (Hd : drop i (pre ++ dedup_ref true run ++ after_run rest)
                 = Assistant a :: dedup_ref true run ++ after_run rest).
    { unfold pre. rewrite <- !app_assoc. rewrite drop_app_length'; [done|].
      rewrite length_take_le; lia. }
    rewrite Ht, Hd. simpl. rewrite Ea. simpl.
    rewrite dedup_ref_run by (try done; by apply dedup_ref_results).
    rewrite (dedup_run_id (dedup_ref true run))
      by (first [by apply dedup_run_nodup | by apply dedup_ref_results]).
    pose proof (sublist_length _ _ (dedup_ref_sublist false (after_run rest))).
    f_equal. rewrite Hconv, !length_app. simpl.
    rewrite length_take_le, ?length_app by lia. lia.
Qed.

Theorem dedup_is_ref conv :
  dedup_duplicate_tool_results conv
  = (dedup_ref false conv, length conv - length (dedup_ref false conv))%nat.
Proof.
  unfold dedup_duplicate_tool_results. rewrite dedup_loop_spec by lia. done.
Qed.

(** ** The number of inserted results *)

Lemma length_splice k items conv : length (splice k items conv) = (length conv + length items)%nat.
Proof.
  unfold splice. rewrite !length_app, length_take, length_drop. lia.
Qed.

Lemma repair_dangling_count conv reason :
  (length (repair_dangling_tool_calls conv reason).1
   = length conv + (repair_dangling_tool_calls conv reason).2)%nat.
Proof.
  unfold repair_dangling_tool_calls; simpl. rewrite foldl_reverse_foldr.
  generalize (scan_repairs (length conv) conv reason 0). intros l.
  induction l as [|r l IH]; simpl; [lia|]. rewrite length_splice, IH. lia.
Qed.

(** ** The dangling-call check *)

Lemma dangling_ref_run (pending : list str) rest :
  dangling_ref pending rest
  = negb (is_empty (base.filter (λ id, id ∉ run_ids rest) pending))
    || dangling_ref [] (after_run rest).
Proof.
  assert (Hnil : ∀ l : list str, base.filter (λ x, x ∉ @nil str) l = l).
  { intros l. apply list_filter_all. intros. apply not_elem_of_nil. }
  revert pending. induction rest as [|[] r IH]; intros pending; simpl; rewrite ?Hnil; try done.
  - by rewrite orb_false_r.
  - rewrite IH, list_filter_filter. do 3 f_equal.
    apply list_filter_iff. intros id. rewrite not_elem_of_cons. tauto.
Qed.

Lemma existsb_filter (s : gset str) (tcs : list ToolCall) :
  existsb (λ tc, bool_decide (tc_id tc ∉ s)) tcs
  = negb (is_empty (base.filter (λ id, id ∉ s) (map tc_id tcs))).
Proof.
  induction tcs as [|tc tcs IH]; [done|]. simpl. rewrite filter_cons, IH.
  case_bool_decide; by case_decide.
Qed.

Lemma has_dangling_loop_spec fuel conv i :
  (length conv ≤ i + fuel)%nat →
  has_dangling_loop fuel conv i = dangling_ref [] (drop i conv).
Proof.
  revert i. induction fuel as [|fuel IH]; intros i Hf; simpl.
  { by rewrite drop_ge by lia. }
  destruct (conv !! i) as [item|] eqn:Ei.
  2:{ apply lookup_ge_None in Ei. by rewrite drop_ge by lia. }
  rewrite (drop_S _ _ _ Ei).
  destruct item as [| |a| | |]; try (rewrite IH by lia; done).
  destruct (is_empty (a_tool_calls a)) eqn:Ea; simpl.
  { rewrite IH by lia. unfold call_ids. by destruct (a_tool_calls a). }
  rewrite collect_answered_spec, existsb_filter, dangling_ref_run.
  destruct (drop_after_run conv i _ Ei) as (D1 & _ & _).
  assert (Ef : base.filter (λ id, id ∉ (list_to_set (run_ids (drop (S i) conv)) ∪ ∅ : gset str))
                 (map tc_id (a_tool_calls a))
               = base.filter (λ id, id ∉ run_ids (drop (S i) conv)) (call_ids a)).
  { apply list_filter_iff. intros id. by rewrite (right_id_L ∅ (∪)), elem_of_list_to_set. }
  rewrite Ef. destruct (negb _); simpl; [done|]. rewrite <- D1. apply IH. simpl. lia.
Qed.

Theorem has_dangling_is_ref conv : has_dangling_tool_calls conv = dangling_ref [] conv.
Proof. unfold has_dangling_tool_calls. by rewrite has_dangling_loop_spec. Qed.

End Facts.
