(* ===== verification/HistoryRepair.v ===== *)
(** * History repair: the theorems

    What [repair_dangling_tool_calls], [has_dangling_tool_calls],
    [dedup_duplicate_tool_results], [strip_displaced_tool_results] and their
    composition [repair_history] establish and preserve, stated on the
    conversation through [calls_answered], [results_unique] and
    [results_owned]. *)
From S2P Require Import Prelude RustStr TokenEstimation Conversation Concrete ToolPairing.
From S2P Require Import ToolPairingFacts.

Section Repair.
Context {RS : RsApi}.
Implicit Types (conv rest : list ConversationItem) (reason : DanglingToolCallReason).

(** ** Properties of every assistant item *)

Definition at_assistants (P : AssistantItem → list ConversationItem → Prop) conv : Prop :=
  ∀ pre a rest, conv = pre ++ Assistant a :: rest → P a rest.

Lemma at_assistants_nil P : at_assistants P [].
Proof. intros [|] ?? ?; done. Qed.

Lemma at_assistants_cons P item conv :
  at_assistants P (item :: conv)
  ↔ (∀ a, item = Assistant a → P a conv) ∧ at_assistants P conv.
Proof.
  split.
  - intros Hall. split.
    + intros a ->. by apply (Hall []).
    + intros pre a rest ->. by apply (Hall (item :: pre) a rest).
  - intros [Hx Hall] [|y pre] a rest; simpl; intros [= -> E]; subst; eauto.
Qed.

Lemma at_assistants_skip P item conv :
  (∀ a, item ≠ Assistant a) → at_assistants P (item :: conv) ↔ at_assistants P conv.
Proof. intros Hn. rewrite at_assistants_cons. naive_solver. Qed.

Lemma at_assistants_step P a conv :
  at_assistants P (Assistant a :: conv) ↔ P a conv ∧ at_assistants P conv.
Proof. rewrite at_assistants_cons. naive_solver. Qed.

Lemma at_assistants_app_results P items conv :
  Forall (λ m, is_tool_result m = true) items →
  at_assistants P (items ++ conv) ↔ at_assistants P conv.
Proof.
  induction 1 as [|x l Hx Hl IH]; [done|]. simpl.
  rewrite at_assistants_skip; [done|]. by intros a ->.
Qed.

Lemma calls_distinct_elem conv :
  calls_distinct conv ↔ ∀ a, Assistant a ∈ conv → NoDup (call_ids a).
Proof.
  split.
  - intros Hd a (pre & rest & ->)%list_elem_of_split. by apply (Hd pre a rest).
  - intros Hd pre a rest ->. apply Hd. apply elem_of_app. right. left.
Qed.

(** Streaming form of [results_owned]: [ids] are the calls of the current
    assistant item. *)
Fixpoint owned (ids : gset str) conv : Prop :=
  match conv with
  | [] => True
  | ToolResult tr :: rest => tr_tool_call_id tr ∈ ids ∧ owned ids rest
  | Assistant a :: rest => owned (list_to_set (call_ids a)) rest
  | _ :: rest => owned ∅ rest
  end.

Definition owned_in conv (ids : gset str) : Prop :=
  ∀ pre tr rest, conv = pre ++ ToolResult tr :: rest →
  (Forall (λ m, is_tool_result m = true) pre ∧ tr_tool_call_id tr ∈ ids) ∨
  ∃ pre' a mid, pre = pre' ++ Assistant a :: mid ∧
    Forall (λ m, is_tool_result m = true) mid ∧ tr_tool_call_id tr ∈ call_ids a.

Lemma owned_in_skip item conv ids :
  is_tool_result item = false → (∀ a, item ≠ Assistant a) →
  owned_in (item :: conv) ids ↔ owned_in conv ∅.
Proof.
  intros Hr Ha. split.
  - intros Ho pre tr rest ->. destruct (Ho (item :: pre) tr rest eq_refl) as [[Hf _]|Hex].
    + apply Forall_cons in Hf as [Hf _]. congruence.
    + destruct Hex as ([|y pre'] & a & mid & E & Hm & Hi); simplify_eq/=; [by destruct (Ha a)|].
      right. by exists pre', a, mid.
  - intros Ho [|y pre] tr rest E; simplify_eq/=.
    destruct (Ho pre tr rest eq_refl) as [[_ Hf]|(pre' & a & mid & -> & Hm & Hi)]; [set_solver|].
    right. exists (y :: pre'), a, mid. done.
Qed.

Lemma owned_in_assistant a conv ids :
  owned_in (Assistant a :: conv) ids ↔ owned_in conv (list_to_set (call_ids a)).
Proof.
  split.
  - intros Ho pre tr rest ->. destruct (Ho (Assistant a :: pre) tr rest eq_refl) as [[Hf _]|Hex].
    + by apply Forall_cons in Hf as [Hf _].
    + destruct Hex as ([|y pre'] & a' & mid & E & Hm & Hi); simplify_eq/=.
      * left. by rewrite elem_of_list_to_set.
      * right. by exists pre', a', mid.
  - intros Ho [|y pre] tr rest E; simplify_eq/=.
    destruct (Ho pre tr rest eq_refl) as [[Hf Hi]|(pre' & a' & mid & -> & Hm & Hi)].
    + right. exists [], a, pre. by rewrite elem_of_list_to_set in Hi.
    + right. exists (Assistant a :: pre'), a', mid. done.
Qed.

Lemma owned_in_result tr conv ids :
  owned_in (ToolResult tr :: conv) ids ↔ tr_tool_call_id tr ∈ ids ∧ owned_in conv ids.
Proof.
  split.
  - intros Ho. split.
    + destruct (Ho [] tr conv eq_refl) as [[_ Hi]|([|] & ? & ? & ? & _)]; done.
    + intros pre tr' rest ->.
      destruct (Ho (ToolResult tr :: pre) tr' rest eq_refl) as [[Hf Hi]|Hex].
      * left. by apply Forall_cons in Hf as [_ Hf].
      * destruct Hex as ([|y pre'] & a' & mid & E & Hm & Hi); simplify_eq/=.
        right. by exists pre', a', mid.
  - intros [Hi Ho] [|y pre] tr' rest E; simplify_eq/=; [by left|].
    destruct (Ho pre tr' rest eq_refl) as [[Hf Hi']|(pre' & a' & mid & -> & Hm & Hi')].
    + left. split; [by constructor|done].
    + right. exists (ToolResult tr :: pre'), a', mid. done.
Qed.

Lemma owned_spec ids conv : owned ids conv ↔ owned_in conv ids.
Proof.
  revert ids. induction conv as [|[] r IH]; intros ids; simpl;
    rewrite ?owned_in_assistant, ?owned_in_result, ?IH;
    try (by rewrite owned_in_skip); try done.
  split; [|done]. by intros _ [|] ? ? ?.
Qed.

Lemma results_owned_iff conv : results_owned conv ↔ owned ∅ conv.
Proof.
  rewrite owned_spec. split; intros Ho pre tr rest E.
  - right. by apply Ho with (rest := rest).
  - destruct (Ho pre tr rest E) as [[_ Hf]|Hex]; [set_solver|done].
Qed.

(** ** Dangling calls *)

Abbreviation flush reason pending :=
  (map (λ '(id, name), item_tool_result id (synthetic_dangling_result_text name reason))
       pending).

Lemma flush_results reason (pending : list (str * str)) :
  Forall (λ m, is_tool_result m = true) (flush reason pending).
Proof. induction pending as [|[] ? IH]; simpl; auto. Qed.

Lemma run_ids_flush reason (pending : list (str * str)) rest :
  run_ids (flush reason pending ++ rest) = pending.*1 ++ run_ids rest.
Proof. induction pending as [|[] ? IH]; simpl; [done|]. by rewrite IH. Qed.

Lemma fst_filter (pending : list (str * str)) id :
  (base.filter (λ c : str * str, c.1 ≠ id) pending).*1
  = base.filter (λ x, x ≠ id) pending.*1.
Proof.
  induction pending as [|[x n] p IH]; [done|]. rewrite fmap_cons, !filter_cons, <- IH. simpl.
  by case_decide.
Qed.

(** The run after a repair: the old results, then those of the open calls. *)
Lemma run_ids_repair_ref reason (pending : list (str * str)) conv :
  run_ids (repair_ref reason pending conv)
  = run_ids conv ++ base.filter (λ x, x ∉ run_ids conv) pending.*1.
Proof.
  assert (Hnil : ∀ l : list str, base.filter (λ x, x ∉ @nil str) l = l).
  { intros l. apply list_filter_all. intros. apply not_elem_of_nil. }
  revert pending. induction conv as [|[] r IH]; intros pending; simpl;
    try (by rewrite run_ids_flush, Hnil; simpl; rewrite app_nil_r).
  { by rewrite <- (app_nil_r (flush _ _)), run_ids_flush, Hnil; simpl; rewrite app_nil_r. }
  rewrite IH, fst_filter, list_filter_filter. do 2 f_equal.
  apply list_filter_iff. intros x. rewrite not_elem_of_cons. tauto.
Qed.

Lemma repair_ref_answered reason pending conv : calls_answered (repair_ref reason pending conv).
Proof.
  unfold calls_answered. fold (at_assistants (λ a rest, ∀ id, id ∈ call_ids a → id ∈ run_ids rest)
    (repair_ref reason pending conv)).
  revert pending. induction conv as [|[] r IH]; intros pending; simpl.
  all: rewrite ?at_assistants_app_results by apply flush_results.
  all: try (rewrite at_assistants_skip by done; apply IH).
  - rewrite <- (app_nil_r (flush _ _)), at_assistants_app_results by apply flush_results.
    apply at_assistants_nil.
  - apply at_assistants_step. split; [|apply IH].
    intros id Hid. rewrite run_ids_repair_ref. apply elem_of_app.
    destruct (decide (id ∈ run_ids r)); [by left|right].
    apply list_elem_of_filter. split; [done|].
    rewrite <- list_fmap_compose. exact Hid.
Qed.

Lemma repair_ref_sublist reason pending conv : conv `sublist_of` repair_ref reason pending conv.
Proof.
  revert pending. induction conv as [|[] r IH]; intros pending; simpl;
    [apply sublist_nil_l|..]; try (apply sublist_inserts_l); by constructor.
Qed.

Lemma owned_flush reason ids (pending : list (str * str)) rest :
  (∀ c, c ∈ pending → c.1 ∈ ids) → owned ids rest → owned ids (flush reason pending ++ rest).
Proof.
  intros Hp Hr. induction pending as [|[id n] p IH]; simpl; [done|].
  split; [apply (Hp (id, n)); left | apply IH; intros; apply Hp; by right].
Qed.

Lemma call_pairs_ids a (c : str * str) :
  c ∈ map (λ tc, (tc_id tc, tc_name tc)) (a_tool_calls a) →
  c.1 ∈ (list_to_set (call_ids a) : gset str).
Proof.
  intros (tc & -> & Htc)%list_elem_of_fmap. apply elem_of_list_to_set, list_elem_of_fmap. eauto.
Qed.

Lemma repair_ref_owned reason ids pending conv :
  (∀ c, c ∈ pending → c.1 ∈ ids) → owned ids conv → owned ids (repair_ref reason pending conv).
Proof.
  assert (Hnil : ∀ ids (c : str * str), c ∈ [] → c.1 ∈ (ids : gset str))
    by (by intros ? ? ?%elem_of_nil).
  revert ids pending. induction conv as [|[] r IH]; intros ids pending Hp Ho; simpl in *.
  - rewrite <- (app_nil_r (flush _ _)). by apply owned_flush.
  - apply owned_flush; simpl; auto.
  - apply owned_flush; simpl; auto.
  - apply owned_flush; simpl; [done|]. apply IH; [|done]. intros c. apply call_pairs_ids.
  - destruct Ho as [Hi Ho]. split; [done|]. apply IH; [|done].
    intros c Hc. apply Hp. by apply list_elem_of_filter in Hc as [_ ?].
  - apply owned_flush; simpl; auto.
  - apply owned_flush; simpl; auto.
Qed.

Lemma repair_ref_unique reason pending conv :
  calls_distinct conv → results_unique conv →
  results_unique (repair_ref reason pending conv).
Proof.
  unfold results_unique.
  fold (at_assistants (λ a rest, a_tool_calls a ≠ [] → NoDup (run_ids rest)) conv).
  fold (at_assistants (λ a rest, a_tool_calls a ≠ [] → NoDup (run_ids rest))
          (repair_ref reason pending conv)).
  intros Hd. rewrite calls_distinct_elem in Hd. revert pending.
  induction conv as [|x r IH]; intros pending Hu; simpl.
  { rewrite <- (app_nil_r (flush _ _)), at_assistants_app_results by apply flush_results.
    apply at_assistants_nil. }
  assert (Hd' : ∀ a, Assistant a ∈ r → NoDup (call_ids a)) by (intros; apply Hd; by right).
  apply at_assistants_cons in Hu as [Hx Hu].
  destruct x; rewrite ?at_assistants_app_results by apply flush_results;
    try (rewrite at_assistants_skip by done; auto).
  apply at_assistants_step. split; [|auto]. intros Hne.
  rewrite run_ids_repair_ref. apply NoDup_app. split; [by apply (Hx a)|]. split.
  - intros id Hid [Hn _]%list_elem_of_filter. done.
  - apply NoDup_filter. rewrite <- list_fmap_compose. apply (Hd a). left.
Qed.

Lemma repair_ref_fix reason pending conv :
  calls_answered conv → (∀ c, c ∈ pending → c.1 ∈ run_ids conv) →
  repair_ref reason pending conv = conv.
Proof.
  intros Hc. change (at_assistants (λ a rest, ∀ id, id ∈ call_ids a → id ∈ run_ids rest) conv) in Hc.
  revert pending. induction conv as [|x r IH]; intros pending Hp; simpl in *.
  { destruct pending as [|c p]; [done|]. destruct (not_elem_of_nil c.1). apply Hp. left. }
  apply at_assistants_cons in Hc as [Hx Hc]. specialize (IH Hc).
  assert (Hnil : is_tool_result x = false → pending = []).
  { destruct pending as [|c p]; [done|]. intros Hr.
    destruct (not_elem_of_nil c.1). destruct x; try done; apply Hp; left. }
  destruct x; simpl in *; try rewrite Hnil by done; simpl; f_equal; try apply IH;
    try by intros ? ?%elem_of_nil.
  - intros c Hin. apply (Hx a); [done|]. apply call_pairs_ids in Hin.
    by apply elem_of_list_to_set in Hin.
  - intros c [Hne Hin]%list_elem_of_filter. apply Hp in Hin.
    by apply elem_of_cons in Hin as [?|?].
Qed.


(** ** Duplicates *)

Lemma elem_of_run_ids_dedup_ref active conv id :
  id ∈ run_ids (dedup_ref active conv) ↔ id ∈ run_ids conv.
Proof.
  revert active. induction conv as [|[] r IH]; intros active; simpl; try done.
  destruct (active && _) eqn:E; simpl; rewrite elem_of_cons, ?elem_of_cons, IH; [|done].
  apply andb_true_iff in E as [_ E%bool_decide_eq_true]. split; [by right|by intros [->|?]].
Qed.

Lemma dedup_ref_unique active conv :
  (active = true → NoDup (run_ids (dedup_ref active conv))) ∧
  results_unique (dedup_ref active conv).
Proof.
  unfold results_unique. fold (at_assistants (λ a rest, a_tool_calls a ≠ [] → NoDup (run_ids rest))
    (dedup_ref active conv)).
  revert active. induction conv as [|[] r IH]; intros active; simpl.
  all: try (rewrite at_assistants_skip by done; split; [by constructor|apply IH]).
  - split; [by constructor|apply at_assistants_nil].
  - rewrite at_assistants_step. split; [by constructor|]. split; [|apply IH].
    intros Hne. apply IH. by destruct (a_tool_calls a).
  - destruct (active && bool_decide (tr_tool_call_id t ∈ run_ids r)) eqn:E; [apply IH|].
    rewrite at_assistants_skip by done. split; [|apply IH]. intros ->. simpl.
    constructor; [|by apply IH]. rewrite elem_of_run_ids_dedup_ref.
    by apply bool_decide_eq_false in E.
Qed.

Lemma dedup_ref_fix active conv :
  (active = true → NoDup (run_ids conv)) → results_unique conv → dedup_ref active conv = conv.
Proof.
  unfold results_unique. fold (at_assistants (λ a rest, a_tool_calls a ≠ [] → NoDup (run_ids rest))
    conv).
  revert active. induction conv as [|[] r IH]; intros active Hnd Hu; simpl in *; try done;
    apply at_assistants_cons in Hu as [Hx Hu].
  all: try (rewrite IH; [done|by intros|done]).
  - rewrite IH; [done| |done]. intros Hne. apply (Hx a); [done|]. by destruct (a_tool_calls a).
  - destruct active; simpl.
    + specialize (Hnd eq_refl). apply NoDup_cons in Hnd as [Hni Hnd].
      rewrite bool_decide_false by done. by rewrite IH.
    + by rewrite IH.
Qed.

(** ** Displaced results *)

Lemma strip_loop_cons ids item conv :
  strip_loop ids (item :: conv) =
  match item with
  | Assistant a =>
      let r := strip_loop (list_to_set (call_ids a)) conv in (Assistant a :: r.1, r.2)
  | ToolResult tr =>
      let r := strip_loop ids conv in
      if bool_decide (tr_tool_call_id tr ∈ ids)
      then (ToolResult tr :: r.1, r.2) else (r.1, tr_tool_call_id tr :: r.2)
  | _ => let r := strip_loop ∅ conv in (item :: r.1, r.2)
  end.
Proof.
  destruct item; simpl; try by destruct (strip_loop ∅ conv).
  - unfold call_ids. by destruct (strip_loop _ conv).
  - by destruct (strip_loop ids conv).
Qed.

Lemma strip_loop_owned ids conv : owned ids (strip_loop ids conv).1.
Proof.
  revert ids. induction conv as [|[] r IH]; intros ids; [done|rewrite strip_loop_cons; simpl..]; auto.
  case_bool_decide; simpl; auto.
Qed.

Lemma strip_loop_fix ids conv : owned ids conv → strip_loop ids conv = (conv, []).
Proof.
  revert ids. induction conv as [|[] r IH]; intros ids Ho; [done|rewrite strip_loop_cons; simpl in *..];
    try (by rewrite IH).
  destruct Ho as [Hi Ho]. rewrite bool_decide_true by done. by rewrite IH.
Qed.

Lemma strip_loop_sublist ids conv : (strip_loop ids conv).1 `sublist_of` conv.
Proof.
  revert ids. induction conv as [|[] r IH]; intros ids; [done|rewrite strip_loop_cons; simpl..];
    try by constructor.
  case_bool_decide; simpl; by constructor.
Qed.

Lemma run_ids_strip ids conv :
  run_ids (strip_loop ids conv).1 = base.filter (λ id, id ∈ ids) (run_ids conv).
Proof.
  revert ids. induction conv as [|[] r IH]; intros ids; [done|rewrite strip_loop_cons; simpl..]; try done.
  rewrite filter_cons. case_bool_decide; case_decide; try done; simpl; by rewrite IH.
Qed.

Lemma strip_loop_unique ids conv : results_unique conv → results_unique (strip_loop ids conv).1.
Proof.
  unfold results_unique.
  fold (at_assistants (λ a rest, a_tool_calls a ≠ [] → NoDup (run_ids rest)) conv).
  fold (at_assistants (λ a rest, a_tool_calls a ≠ [] → NoDup (run_ids rest)) (strip_loop ids conv).1).
  revert ids. induction conv as [|x r IH]; intros ids Hu; [done|].
  apply at_assistants_cons in Hu as [Hx Hu]. rewrite strip_loop_cons.
  destruct x; simpl; try (rewrite at_assistants_skip by done; by apply IH).
  - rewrite at_assistants_step. split; [|by apply IH]. intros Hne.
    rewrite run_ids_strip. apply NoDup_filter. by apply (Hx a).
  - case_bool_decide; simpl; [|by apply IH]. rewrite at_assistants_skip by done. by apply IH.
Qed.

Lemma length_strip_loop ids conv :
  (length (strip_loop ids conv).1 + length (strip_loop ids conv).2 = length conv)%nat.
Proof.
  revert ids. induction conv as [|[] r IH]; intros ids; [done|rewrite strip_loop_cons; simpl..];
    try (by rewrite IH).
  case_bool_decide; simpl; specialize (IH ids); lia.
Qed.

(** ** The check *)

Lemma dangling_ref_false (pending : list str) conv :
  dangling_ref pending conv = false
  ↔ calls_answered conv ∧ ∀ id, id ∈ pending → id ∈ run_ids conv.
Proof.
  unfold calls_answered.
  fold (at_assistants (λ a rest, ∀ id, id ∈ call_ids a → id ∈ run_ids rest) conv).
  assert (Hemp : ∀ l : list str, negb (is_empty l) = false ↔ ∀ id, id ∈ l → id ∈ @nil str).
  { intros [|x l]; simpl; [done|]. split; [done|]. intros Hx.
    destruct (not_elem_of_nil x). apply Hx. left. }
  revert pending. induction conv as [|[] r IH]; intros pending; simpl.
  { rewrite Hemp. split; [|tauto]. intros Hp. split; [apply at_assistants_nil|done]. }
  all: rewrite ?orb_false_iff, ?Hemp, ?IH, ?at_assistants_step;
    try (rewrite at_assistants_skip by done); try tauto.
  all: try (split; [tauto|]; intros [? ?]; split; [done|]; split; [done|];
            by intros id ?%elem_of_nil).
  setoid_rewrite list_elem_of_filter. setoid_rewrite elem_of_cons.
  split; intros [? Hp]; (split; [done|]); intros id.
  - intros Hid. destruct (decide (id = tr_tool_call_id t)); [by left|right; by apply Hp].
  - intros [Hne Hid]. by destruct (Hp id Hid).
Qed.

Lemma has_dangling_false conv : has_dangling_tool_calls conv = false ↔ calls_answered conv.
Proof.
  rewrite has_dangling_is_ref, dangling_ref_false. split; [tauto|].
  intros ?. split; [done|]. by intros id ?%elem_of_nil.
Qed.

(** ** [repair_history] through the references *)

Definition repaired conv : list ConversationItem :=
  repair_ref (HarnessHalted (lit "history_repair")) []
    (strip_loop ∅ (dedup_ref false conv)).1.

Lemma repair_history_ref conv : (repair_history conv).1 = repaired conv.
Proof.
  unfold repair_history, repaired, strip_displaced_tool_results.
  rewrite dedup_is_ref.
  destruct (strip_loop ∅ (dedup_ref false conv)) as [c2 stripped] eqn:E2.
  rewrite <- repair_dangling_is_ref. cbn [fst].
  by destruct (repair_dangling_tool_calls c2 _).
Qed.

Lemma repair_history_counts conv :
  let r := (repair_history conv).2 in
  (length (repaired conv) + duplicates_removed r + length (stripped_tool_result_ids r)
   = length conv + synthetic_results_inserted r)%nat.
Proof.
  unfold repair_history, strip_displaced_tool_results, repaired. rewrite dedup_is_ref.
  pose proof (length_strip_loop ∅ (dedup_ref false conv)) as Hs.
  pose proof (sublist_length _ _ (dedup_ref_sublist false conv)) as Hd.
  destruct (strip_loop ∅ (dedup_ref false conv)) as [c2 stripped] eqn:E2; cbn [fst snd] in *.
  rewrite <- repair_dangling_is_ref.
  pose proof (repair_dangling_count c2 (HarnessHalted (lit "history_repair"))) as Hr.
  destruct (repair_dangling_tool_calls c2 _) as [c3 inserted]; simpl in *. lia.
Qed.

Lemma calls_distinct_sublist conv conv' :
  conv' `sublist_of` conv → calls_distinct conv → calls_distinct conv'.
Proof.
  intros Hs. rewrite !calls_distinct_elem. intros Hd a Ha. apply Hd.
  eapply elem_of_submseteq; [exact Ha|]. by apply sublist_submseteq.
Qed.

Lemma repaired_invariants conv :
  calls_answered (repaired conv) ∧ results_owned (repaired conv) ∧
  (calls_distinct conv → results_unique (repaired conv)).
Proof.
  unfold repaired. split; [apply repair_ref_answered|]. split.
  - apply results_owned_iff, repair_ref_owned; [by intros ? ?%elem_of_nil|].
    apply strip_loop_owned.
  - intros Hd. apply repair_ref_unique.
    + eapply calls_distinct_sublist; [|exact Hd].
      etrans; [apply strip_loop_sublist | apply dedup_ref_sublist].
    + apply strip_loop_unique, dedup_ref_unique.
Qed.

Lemma repair_history_fix conv :
  calls_answered conv → results_owned conv → results_unique conv →
  repair_history conv = (conv, {| duplicates_removed := 0; stripped_tool_result_ids := [];
                                  synthetic_results_inserted := 0 |}).
Proof.
  intros Ha Ho Hu. pose proof (repair_history_ref conv) as E1.
  unfold repair_history, strip_displaced_tool_results in *. rewrite dedup_is_ref in *.
  rewrite results_owned_iff in Ho.
  rewrite (dedup_ref_fix false conv), (strip_loop_fix ∅ conv) in * by done.
  pose proof (repair_dangling_count conv (HarnessHalted (lit "history_repair"))) as Hc.
  pose proof (repair_dangling_is_ref conv (HarnessHalted (lit "history_repair"))) as Hr.
  rewrite repair_ref_fix in Hr by (try done; by intros ? ?%elem_of_nil).
  destruct (repair_dangling_tool_calls conv _) as [c3 inserted]; simpl in *. subst c3.
  rewrite Hr in Hc |- *. rewrite Nat.sub_diag. by replace inserted with 0%nat by lia.
Qed.

Lemma filter_results_nil items (l : list ConversationItem) :
  Forall (λ m, is_tool_result m = true) items →
  base.filter (λ i, is_tool_result i = false) (items ++ l)
  = base.filter (λ i, is_tool_result i = false) l.
Proof.
  induction 1 as [|x items Hx Hi IH]; [done|]. simpl. rewrite filter_cons_False; [done|].
  congruence.
Qed.

Lemma repair_ref_others reason pending conv :
  base.filter (λ i, is_tool_result i = false) (repair_ref reason pending conv)
  = base.filter (λ i, is_tool_result i = false) conv.
Proof.
  revert pending. induction conv as [|[] r IH]; intros pending; simpl.
  { rewrite <- (app_nil_r (flush _ _)). by rewrite filter_results_nil by apply flush_results. }
  all: rewrite ?filter_results_nil by apply flush_results.
  all: rewrite !filter_cons; simpl; by rewrite IH.
Qed.

Lemma dedup_ref_others active conv :
  base.filter (λ i, is_tool_result i = false) (dedup_ref active conv)
  = base.filter (λ i, is_tool_result i = false) conv.
Proof.
  revert active. induction conv as [|[] r IH]; intros active; simpl; [done|..];
    try (rewrite !filter_cons; simpl; by rewrite IH).
  rewrite (filter_cons _ _ r). simpl.
  destruct (_ && _); rewrite ?filter_cons; simpl; by rewrite IH.
Qed.

Lemma strip_loop_others ids conv :
  base.filter (λ i, is_tool_result i = false) (strip_loop ids conv).1
  = base.filter (λ i, is_tool_result i = false) conv.
Proof.
  revert ids. induction conv as [|[] r IH]; intros ids; [done|rewrite strip_loop_cons; simpl..];
    try (rewrite !filter_cons; simpl; by rewrite IH).
  rewrite (filter_cons _ _ r). simpl.
  case_bool_decide; simpl; rewrite ?filter_cons; simpl; by rewrite IH.
Qed.

Lemma repaired_others conv :
  base.filter (λ i, is_tool_result i = false) (repaired conv)
  = base.filter (λ i, is_tool_result i = false) conv.
Proof.
  unfold repaired. by rewrite repair_ref_others, strip_loop_others, dedup_ref_others.
Qed.

Lemma report_unchanged conv :
  report_changed (repair_history conv).2 = false →
  calls_answered conv ∧ results_owned conv ∧ results_unique conv.
Proof.
  unfold repair_history, strip_displaced_tool_results, report_changed. rewrite dedup_is_ref.
  pose proof (dedup_ref_sublist false conv) as Hs.
  pose proof (dedup_ref_unique false conv) as [_ Hu].
  pose proof (strip_loop_owned ∅ (dedup_ref false conv)) as Ho.
  pose proof (length_strip_loop ∅ (dedup_ref false conv)) as Hl.
  pose proof (strip_loop_sublist ∅ (dedup_ref false conv)) as Hs2.
  destruct (strip_loop ∅ (dedup_ref false conv)) as [c2 stripped] eqn:E2; cbn [fst snd] in *.
  pose proof (repair_dangling_count c2 (HarnessHalted (lit "history_repair"))) as Hc.
  pose proof (repair_dangling_is_ref c2 (HarnessHalted (lit "history_repair"))) as Hr.
  destruct (repair_dangling_tool_calls c2 _) as [c3 inserted]; cbn [fst snd] in *.
  intros [[E1%Nat.ltb_ge E3%negb_false_iff]%orb_false_iff E4%Nat.ltb_ge]%orb_false_iff.
  simpl in *. destruct stripped; [|done]. simpl in *.
  assert (Ed : dedup_ref false conv = conv).
  { apply sublist_equal_length; [done|]. lia. }
  rewrite Ed in *.
  assert (Es : c2 = conv) by (apply sublist_equal_length; [done|lia]). subst c2.
  rewrite results_owned_iff. split; [|done].
  assert (Er : c3 = conv).
  { symmetry. apply sublist_equal_length; [rewrite Hr; apply repair_ref_sublist | lia]. }
  rewrite <- Er, Hr. apply repair_ref_answered.
Qed.

(** ** Properties *)

(** C4: whatever the history, [repair_history] returns one where every tool
    call has a result in the run after its assistant item, where every result
    stands in the run of an assistant item that made its call, where (when no
    assistant item repeats a call id) no call is answered twice, and where all
    other items are the original ones in their order. *)
Theorem repair_history_establishes conv :
  let out := (repair_history conv).1 in
  calls_answered out ∧ results_owned out ∧
  (calls_distinct conv → results_unique out) ∧
  base.filter (λ i, is_tool_result i = false) out
  = base.filter (λ i, is_tool_result i = false) conv.
Proof.
  intros out. unfold out. rewrite repair_history_ref.
  destruct (repaired_invariants conv) as (Ha & Ho & Hu). repeat split; auto.
  apply repaired_others.
Qed.

(** [repair_history] reports no change exactly on the histories that are
    already well paired, and returns those as they are. *)
Theorem repair_history_unchanged_iff conv :
  (report_changed (repair_history conv).2 = false
   ↔ calls_answered conv ∧ results_owned conv ∧ results_unique conv) ∧
  (report_changed (repair_history conv).2 = false → (repair_history conv).1 = conv).
Proof.
  assert (Hfix : calls_answered conv ∧ results_owned conv ∧ results_unique conv →
            report_changed (repair_history conv).2 = false ∧ (repair_history conv).1 = conv).
  { intros (Ha & Ho & Hu). by rewrite (repair_history_fix conv Ha Ho Hu). }
  pose proof (report_unchanged conv). tauto.
Qed.

(** repairing a repaired history changes nothing and reports nothing,
    provided no assistant item repeats a call id. *)
Theorem repair_history_idempotent conv (Hd : calls_distinct conv) :
  let out := (repair_history conv).1 in
  repair_history out = (out, {| duplicates_removed := 0; stripped_tool_result_ids := [];
                                synthetic_results_inserted := 0 |}).
Proof.
  intros out. unfold out. rewrite repair_history_ref.
  destruct (repaired_invariants conv) as (Ha & Ho & Hu). by apply repair_history_fix; auto.
Qed.

(** after [repair_dangling_tool_calls] the check [has_dangling_tool_calls]
    is false, and the check is exact: it is false iff every call is answered,
    which is when the pass inserts nothing.  The pass only inserts: the
    original items survive in order and the returned count is the growth. *)
Theorem repair_dangling_exact conv reason :
  let '(out, n) := repair_dangling_tool_calls conv reason in
  has_dangling_tool_calls out = false ∧
  (has_dangling_tool_calls conv = false ↔ calls_answered conv) ∧
  (n = 0%nat ↔ has_dangling_tool_calls conv = false) ∧
  conv `sublist_of` out ∧ length out = (length conv + n)%nat.
Proof.
  pose proof (repair_dangling_count conv reason) as Hc.
  pose proof (repair_dangling_is_ref conv reason) as Hr.
  destruct (repair_dangling_tool_calls conv reason) as [out n]. cbn [fst snd] in *.
  pose proof (repair_ref_answered reason [] conv) as Ha. rewrite <- Hr in Ha.
  pose proof (repair_ref_sublist reason [] conv) as Hs. rewrite <- Hr in Hs.
  rewrite !has_dangling_false. repeat split; try done.
  - intros ->. by rewrite (sublist_equal_length _ _ Hs) by lia.
  - intros Hans. rewrite repair_ref_fix in Hr; [subst; lia|done|]. by intros ? ?%elem_of_nil.
Qed.

(** the in-place duplicate pass (index scan, sort, removals last first,
    re-scan) returns the streaming reference, which drops a result exactly
    when a later result of the same run has its id, so the last answer wins;
    the returned count is the number of dropped items. *)
Theorem dedup_keeps_last conv :
  let '(out, n) := dedup_duplicate_tool_results conv in
  out = dedup_ref false conv ∧ results_unique out ∧ out `sublist_of` conv ∧
  length conv = (length out + n)%nat ∧
  (∀ id, id ∈ run_ids out ↔ id ∈ run_ids conv).
Proof.
  rewrite dedup_is_ref. pose proof (dedup_ref_sublist false conv) as Hs.
  pose proof (sublist_length _ _ Hs).
  repeat split; try done; try lia; try apply dedup_ref_unique; apply elem_of_run_ids_dedup_ref.
Qed.

End Repair.

(** ** Examples *)

Lemma demo_broken_distinct : calls_distinct demo_broken.
Proof.
  apply calls_distinct_elem. intros a Ha.
  unfold demo_broken in Ha. repeat (apply elem_of_cons in Ha as [Ha|Ha]; [try discriminate Ha|]).
  - injection Ha as ->. apply (bool_decide_unpack _). by vm_compute.
  - by apply elem_of_nil in Ha.
Qed.

Lemma repair_history_idempotent_witness :
  calls_distinct demo_broken ∧
  (let out := (repair_history demo_broken).1 in
   repair_history out = (out, {| duplicates_removed := 0; stripped_tool_result_ids := [];
                                 synthetic_results_inserted := 0 |})).
Proof.
  split; [exact demo_broken_distinct|].
  exact (repair_history_idempotent demo_broken demo_broken_distinct).
Defined.

(** The pass on [demo_broken]: the first answer to [a] and the late answer to
    [b] go, and [b] gets a synthetic result next to its call. *)
Example demo_broken_repaired :
  repair_history demo_broken
  = ([item_system (lit "sys"); item_user (lit "q");
      demo_calls ["a"; "b"]; demo_result "a" "2";
      item_tool_result (lit "b")
        (lit "Tool execution was halted by the harness (history_repair); the tool `bash` was not executed.");
      item_user (lit "stop")],
     {| duplicates_removed := 1; stripped_tool_result_ids := [lit "b"];
        synthetic_results_inserted := 1 |}).
Proof. vm_compute. reflexivity. Qed.

(** Without [calls_distinct] the pass is not idempotent: two calls with one id
    get two synthetic results, and the next pass removes one of them. *)
Theorem repair_history_not_idempotent :
  let conv := [demo_calls ["a"; "a"]] in
  let out := (repair_history conv).1 in
  length out = 3%nat ∧ length (repair_history out).1 = 2%nat ∧
  report_changed (repair_history out).2 = true.
Proof. vm_compute. done. Qed.
