(* ===== verification/Truncation.v ===== *)
(** * Rewind truncation

    [conversation_truncate_for_prompt] of [conversation.rs] and its three
    modes: the index at which a conversation is cut so that only the turns
    before [target_prompt_index] remain. *)
From S2P Require Import Prelude RustStr TokenEstimation Conversation Concrete.

Section Truncation.
Context {RS : RsApi}.
Implicit Types (conv rest : list ConversationItem) (u : UserItem) (i : nat).

(** The prompt indices are [usize]s; a turn counter cannot reach [2^64], so
    they are kept as natural numbers below. *)
Definition prompt_index_of u : option nat := Z.to_nat <$> u_prompt_index u.

Fixpoint first_marker conv : option nat :=
  match conv with
  | [] => None
  | User u :: rest =>
      match prompt_index_of u with Some idx => Some idx | None => first_marker rest end
  | _ :: rest => first_marker rest
  end.

(** The loops below run over [conv.iter().enumerate()]; [i] is the index of the
    head and [i + length rest] the length of the whole conversation. *)
Fixpoint truncate_markers_only rest i (target : nat) : nat :=
  match rest with
  | [] => i
  | User u :: rest' =>
      match prompt_index_of u with
      | Some idx => if (target <=? idx)%nat then i else truncate_markers_only rest' (S i) target
      | None => truncate_markers_only rest' (S i) target
      end
  | _ :: rest' => truncate_markers_only rest' (S i) target
  end.

(** [effective_index] of an unmarked user item, and whether it is the preamble. *)
Definition legacy_effective (seen_unmarked_preamble : bool) (next_unmarked_index : nat) u
  : option nat * bool :=
  match u_synthetic_reason u with
  | None =>
      if seen_unmarked_preamble then (Some next_unmarked_index, true) else (None, true)
  | Some reason =>
      if starts_prompt_turn reason
      then (Some next_unmarked_index, seen_unmarked_preamble)
      else (None, seen_unmarked_preamble)
  end.

Fixpoint truncate_legacy rest i (target next_unmarked_index : nat)
    (seen_unmarked_preamble : bool) : nat :=
  match rest with
  | [] => i
  | User u :: rest' =>
      let '(effective_index, seen) := legacy_effective seen_unmarked_preamble next_unmarked_index u in
      match effective_index with
      | Some idx =>
          if (target <=? idx)%nat then i
          else truncate_legacy rest' (S i) target (idx + 1) seen
      | None => truncate_legacy rest' (S i) target next_unmarked_index seen
      end
  | _ :: rest' =>
      truncate_legacy rest' (S i) target next_unmarked_index seen_unmarked_preamble
  end.

Fixpoint count_legacy_turns_until_marker conv (turns : nat) (seen_unmarked_preamble : bool)
  : nat :=
  match conv with
  | [] => turns
  | User u :: rest =>
      match u_prompt_index u with
      | Some _ => turns
      | None =>
          match u_synthetic_reason u with
          | None =>
              if seen_unmarked_preamble
              then count_legacy_turns_until_marker rest (turns + 1) seen_unmarked_preamble
              else count_legacy_turns_until_marker rest turns true
          | Some reason =>
              count_legacy_turns_until_marker rest
                (if starts_prompt_turn reason then turns + 1 else turns)%nat
                seen_unmarked_preamble
          end
      end
  | _ :: rest => count_legacy_turns_until_marker rest turns seen_unmarked_preamble
  end.

Fixpoint truncate_progressive rest i (target next_unmarked_index : nat)
    (seen_unmarked_preamble seen_marker : bool) : nat :=
  match rest with
  | [] => i
  | User u :: rest' =>
      match prompt_index_of u with
      | Some idx =>
          if (target <=? idx)%nat then i
          else truncate_progressive rest' (S i) target next_unmarked_index
                 seen_unmarked_preamble true
      | None =>
          if seen_marker
          then truncate_progressive rest' (S i) target next_unmarked_index
                 seen_unmarked_preamble seen_marker
          else
            let '(effective_index, seen) :=
              legacy_effective seen_unmarked_preamble next_unmarked_index u in
            match effective_index with
            | Some idx =>
                if (target <=? idx)%nat then i
                else truncate_progressive rest' (S i) target (idx + 1) seen seen_marker
            | None =>
                truncate_progressive rest' (S i) target next_unmarked_index seen seen_marker
            end
      end
  | _ :: rest' =>
      truncate_progressive rest' (S i) target next_unmarked_index
        seen_unmarked_preamble seen_marker
  end.

Definition conversation_truncate_for_prompt conv (target : nat) : nat :=
  match first_marker conv with
  | None => truncate_legacy conv 0 target 0 false
  | Some first_marker_idx =>
      let unmarked_prefix_turns := count_legacy_turns_until_marker conv 0 false in
      if (unmarked_prefix_turns =? first_marker_idx)%nat
      then truncate_progressive conv 0 target 0 false false
      else truncate_markers_only conv 0 target
  end.

(** ** Specification

    Each mode numbers some user items; the cut is the first item numbered at
    least [target].  The numbering does not depend on the target. *)

Definition cut_at_turn (turns : list (nat * nat)) (len target : nat) : nat :=
  match base.filter (λ t : nat * nat, target ≤ t.2)%nat turns with
  | (i, _) :: _ => i
  | [] => len
  end.

Fixpoint marked_turns rest i : list (nat * nat) :=
  match rest with
  | [] => []
  | User u :: rest' =>
      match prompt_index_of u with
      | Some idx => (i, idx) :: marked_turns rest' (S i)
      | None => marked_turns rest' (S i)
      end
  | _ :: rest' => marked_turns rest' (S i)
  end.

(** Unmarked items are numbered until the first marker; markers number
    themselves.  [use_markers] is false in legacy mode, which looks at no
    marker. *)
Fixpoint numbered_turns (use_markers : bool) rest i (next : nat) (seen marker : bool)
  : list (nat * nat) :=
  match rest with
  | [] => []
  | User u :: rest' =>
      match (if use_markers then prompt_index_of u else None) with
      | Some idx => (i, idx) :: numbered_turns use_markers rest' (S i) next seen true
      | None =>
          if marker then numbered_turns use_markers rest' (S i) next seen marker
          else
            match legacy_effective seen next u with
            | (Some idx, seen') =>
                (i, idx) :: numbered_turns use_markers rest' (S i) (idx + 1) seen' marker
            | (None, seen') => numbered_turns use_markers rest' (S i) next seen' marker
            end
      end
  | _ :: rest' => numbered_turns use_markers rest' (S i) next seen marker
  end.

(** The turns a rewind can go back to. *)
Definition turn_starts conv : list (nat * nat) :=
  match first_marker conv with
  | None => numbered_turns false conv 0 0 false false
  | Some m =>
      if (count_legacy_turns_until_marker conv 0 false =? m)%nat
      then numbered_turns true conv 0 0 false false
      else marked_turns conv 0
  end.

Lemma cut_at_turn_cons i idx turns len target :
  cut_at_turn ((i, idx) :: turns) len target
  = if (target <=? idx)%nat then i else cut_at_turn turns len target.
Proof.
  unfold cut_at_turn. rewrite filter_cons. simpl.
  case_decide as Hd; destruct (Nat.leb_spec target idx); try done; lia.
Qed.

Lemma truncate_markers_only_spec rest i target :
  truncate_markers_only rest i target
  = cut_at_turn (marked_turns rest i) (i + length rest) target.
Proof.
  revert i. induction rest as [|[|u| | | |] rest IH]; intros i; simpl;
    rewrite ?Nat.add_succ_r; try apply IH; [unfold cut_at_turn; simpl; lia|].
  destruct (prompt_index_of u); [|apply IH]. rewrite cut_at_turn_cons.
  case_match; [done|apply IH].
Qed.

Lemma truncate_legacy_spec rest i target next seen :
  truncate_legacy rest i target next seen
  = cut_at_turn (numbered_turns false rest i next seen false) (i + length rest) target.
Proof.
  revert i next seen. induction rest as [|[|u| | | |] rest IH]; intros i next seen; simpl;
    rewrite ?Nat.add_succ_r; try apply IH; [unfold cut_at_turn; simpl; lia|].
  destruct (legacy_effective seen next u) as [[idx|] seen']; [|apply IH].
  rewrite cut_at_turn_cons. case_match; [done|apply IH].
Qed.

Lemma truncate_progressive_spec rest i target next seen marker :
  truncate_progressive rest i target next seen marker
  = cut_at_turn (numbered_turns true rest i next seen marker) (i + length rest) target.
Proof.
  revert i next seen marker.
  induction rest as [|[|u| | | |] rest IH]; intros i next seen marker; simpl;
    rewrite ?Nat.add_succ_r; try apply IH; [unfold cut_at_turn; simpl; lia|].
  destruct (prompt_index_of u).
  { rewrite cut_at_turn_cons. case_match; [done|apply IH]. }
  destruct marker; [apply IH|].
  destruct (legacy_effective seen next u) as [[idx|] seen']; [|apply IH].
  rewrite cut_at_turn_cons. case_match; [done|apply IH].
Qed.

Lemma truncate_is_cut conv target :
  conversation_truncate_for_prompt conv target
  = cut_at_turn (turn_starts conv) (length conv) target.
Proof.
  unfold conversation_truncate_for_prompt, turn_starts.
  destruct (first_marker conv) as [m|]; [case_match|].
  - apply (truncate_progressive_spec conv 0).
  - apply (truncate_markers_only_spec conv 0).
  - apply (truncate_legacy_spec conv 0).
Qed.

(** Every numbered position holds a user item. *)
Definition at_user conv i : Prop := ∃ u, conv !! i = Some (User u).

Lemma marked_turns_users conv rest i :
  rest = drop i conv → Forall (λ t, at_user conv t.1) (marked_turns rest i).
Proof.
  revert i. induction rest as [|item rest IH]; intros i Hd; simpl; [done|].
  assert (Hi : conv !! i = Some item) by (rewrite <- (Nat.add_0_r i), <- lookup_drop, <- Hd; done).
  assert (Hr : rest = drop (S i) conv) by (rewrite (drop_S _ _ _ Hi) in Hd; congruence).
  specialize (IH (S i) Hr). destruct item; try done.
  destruct (prompt_index_of u); [|done]. constructor; [|done]. by exists u.
Qed.

Lemma numbered_turns_users use_markers conv rest i next seen marker :
  rest = drop i conv →
  Forall (λ t, at_user conv t.1) (numbered_turns use_markers rest i next seen marker).
Proof.
  revert i next seen marker. induction rest as [|item rest IH]; intros i next seen marker Hd; simpl; [done|].
  assert (Hi : conv !! i = Some item) by (rewrite <- (Nat.add_0_r i), <- lookup_drop, <- Hd; done).
  assert (Hr : rest = drop (S i) conv) by (rewrite (drop_S _ _ _ Hi) in Hd; congruence).
  destruct item; eauto.
  assert (Hu : at_user conv i) by (by exists u).
  repeat case_match; eauto.
Qed.

Lemma turn_starts_users conv : Forall (λ t, at_user conv t.1) (turn_starts conv).
Proof.
  unfold turn_starts. repeat case_match;
    (apply numbered_turns_users || apply marked_turns_users); done.
Qed.

Lemma cut_at_turn_cases turns len target :
  (∃ i idx, (i, idx) ∈ turns ∧ (target ≤ idx)%nat ∧ cut_at_turn turns len target = i) ∨
  (Forall (λ t : nat * nat, t.2 < target)%nat turns ∧ cut_at_turn turns len target = len).
Proof.
  induction turns as [|[i idx] turns IH]; [by right|].
  rewrite cut_at_turn_cons. destruct (Nat.leb_spec target idx) as [Hle|Hlt].
  - left. exists i, idx. split; [left|done].
  - destruct IH as [(i' & idx' & Hin & Hle & E)|[Hall E]].
    + left. exists i', idx'. split; [by right|done].
    + right. split; [by constructor|done].
Qed.

Lemma marked_turns_sorted rest i :
  StronglySorted (λ t t' : nat * nat, t.1 < t'.1)%nat (marked_turns rest i)
  ∧ Forall (λ t, i ≤ t.1 < i + length rest)%nat (marked_turns rest i).
Proof.
  revert i. induction rest as [|item rest IH]; intros i; simpl; [split; constructor|].
  destruct (IH (S i)) as [Hs Hf].
  assert (Hw : Forall (λ t : nat * nat, i ≤ t.1 < i + S (length rest))%nat (marked_turns rest (S i)))
    by (eapply Forall_impl; [exact Hf|]; simpl; intros; lia).
  destruct item; try done. destruct (prompt_index_of u); [|done].
  split; constructor; try done; try (simpl; lia).
  eapply Forall_impl; [exact Hf|]; simpl; intros; lia.
Qed.

Lemma numbered_turns_sorted use_markers rest i next seen marker :
  StronglySorted (λ t t' : nat * nat, t.1 < t'.1)%nat
    (numbered_turns use_markers rest i next seen marker)
  ∧ Forall (λ t, i ≤ t.1 < i + length rest)%nat
      (numbered_turns use_markers rest i next seen marker).
Proof.
  revert i next seen marker. induction rest as [|item rest IH]; intros i next seen marker;
    [split; constructor|].
  assert (Hw : ∀ l : list (nat * nat), Forall (λ t, S i ≤ t.1 < S i + length rest)%nat l →
    Forall (λ t, i ≤ t.1 < i + length (item :: rest))%nat l).
  { intros l Hf. eapply Forall_impl; [exact Hf|]. simpl. intros; lia. }
  assert (Hc : ∀ idx l, StronglySorted (λ t t' : nat * nat, t.1 < t'.1)%nat l ∧
      Forall (λ t, S i ≤ t.1 < S i + length rest)%nat l →
    StronglySorted (λ t t' : nat * nat, t.1 < t'.1)%nat ((i, idx) :: l) ∧
    Forall (λ t, i ≤ t.1 < i + length (item :: rest))%nat ((i, idx) :: l)).
  { intros idx l [Hs Hf]. split; constructor; auto; simpl; [|lia].
    eapply Forall_impl; [exact Hf|]; simpl; intros; lia. }
  assert (Hk : ∀ l, StronglySorted (λ t t' : nat * nat, t.1 < t'.1)%nat l ∧
      Forall (λ t, S i ≤ t.1 < S i + length rest)%nat l →
    StronglySorted (λ t t' : nat * nat, t.1 < t'.1)%nat l ∧
    Forall (λ t, i ≤ t.1 < i + length (item :: rest))%nat l) by (intros l [? ?]; auto).
  destruct item; cbn [numbered_turns]; try (apply Hk, IH).
  repeat case_match; first [apply Hc, IH | apply Hk, IH].
Qed.

Lemma turn_starts_sorted conv :
  StronglySorted (λ t t' : nat * nat, t.1 < t'.1)%nat (turn_starts conv)
  ∧ Forall (λ t, 0 ≤ t.1 < 0 + length conv)%nat (turn_starts conv).
Proof.
  unfold turn_starts. repeat case_match;
    (apply numbered_turns_sorted || apply marked_turns_sorted).
Qed.

Lemma cut_at_turn_le turns len target :
  Forall (λ t, 0 ≤ t.1 < 0 + len)%nat turns → (cut_at_turn turns len target ≤ len)%nat.
Proof.
  intros Hf. destruct (cut_at_turn_cases turns len target) as [(i & idx & Hin & _ & ->)|[_ ->]];
    [|done].
  rewrite Forall_forall in Hf. specialize (Hf _ Hin). simpl in Hf. lia.
Qed.

(** A later target never cuts earlier. *)
Lemma cut_at_turn_mono turns len t t' :
  StronglySorted (λ t t' : nat * nat, t.1 < t'.1)%nat turns →
  Forall (λ t, 0 ≤ t.1 < 0 + len)%nat turns → (t ≤ t')%nat →
  (cut_at_turn turns len t ≤ cut_at_turn turns len t')%nat.
Proof.
  intros Hs Hf Ht. induction Hs as [|[i idx] turns Hs IH Hlt]; [done|].
  apply Forall_cons in Hf as [Hi Hf]. rewrite !cut_at_turn_cons.
  destruct (Nat.leb_spec t idx); destruct (Nat.leb_spec t' idx); try lia; [|by apply IH].
  destruct (cut_at_turn_cases turns len t') as [(i' & idx' & Hin & _ & ->)|[_ ->]].
  - rewrite Forall_forall in Hlt. specialize (Hlt _ Hin). simpl in *. lia.
  - simpl in Hi. lia.
Qed.

Lemma cut_at_turn_before turns len target i idx :
  StronglySorted (λ t t' : nat * nat, t.1 < t'.1)%nat turns →
  (i, idx) ∈ turns → (i < cut_at_turn turns len target)%nat → (idx < target)%nat.
Proof.
  induction 1 as [|[i0 idx0] turns Hs IH Hlt]; [by intros ?%elem_of_nil|].
  rewrite elem_of_cons, cut_at_turn_cons. destruct (Nat.leb_spec target idx0) as [Hle|Hgt].
  - intros [[= -> ->]|Hin] Hi; [lia|]. rewrite Forall_forall in Hlt.
    specialize (Hlt _ Hin). simpl in *. lia.
  - intros [[= -> ->]|Hin] Hi; [done|by apply IH].
Qed.

(** ** Properties *)

(** Whatever mode the markers select, the cut index of a rewind is the
    position of the first numbered turn whose prompt index is at least the
    target (always a user item), or the length of the conversation when there
    is none; every turn kept before it has a smaller prompt index. *)
Theorem truncate_cuts_at_first_turn conv target :
  let cut := conversation_truncate_for_prompt conv target in
  (cut ≤ length conv)%nat ∧
  ((∃ idx, (cut, idx) ∈ turn_starts conv ∧ (target ≤ idx)%nat ∧ at_user conv cut)
   ∨ (cut = length conv ∧ Forall (λ t : nat * nat, t.2 < target)%nat (turn_starts conv))) ∧
  (∀ i idx, (i, idx) ∈ turn_starts conv → (i < cut)%nat → (idx < target)%nat).
Proof.
  intros cut. unfold cut. rewrite truncate_is_cut.
  destruct (turn_starts_sorted conv) as [Hs Hf]. split; [by apply cut_at_turn_le|]. split.
  - destruct (cut_at_turn_cases (turn_starts conv) (length conv) target)
      as [(i & idx & Hin & Hle & ->)|[Hall ->]]; [left|by right].
    exists idx. repeat split; [done..|].
    pose proof (turn_starts_users conv) as Hu. rewrite Forall_forall in Hu. apply (Hu _ Hin).
  - intros i idx Hin Hi. by eapply cut_at_turn_before.
Qed.

(** rewinding further back never keeps more: the cut is monotone in the
    target prompt index, so what a rewind to [t] keeps is a prefix of what a
    rewind to [t' >= t] keeps. *)
Theorem truncate_monotone conv t t' (Ht : (t ≤ t')%nat) :
  (conversation_truncate_for_prompt conv t ≤ conversation_truncate_for_prompt conv t')%nat ∧
  take (conversation_truncate_for_prompt conv t) conv
    `prefix_of` take (conversation_truncate_for_prompt conv t') conv.
Proof.
  rewrite !truncate_is_cut. destruct (turn_starts_sorted conv) as [Hs Hf].
  pose proof (cut_at_turn_mono _ _ t t' Hs Hf Ht) as Hle. split; [done|].
  exists (drop (cut_at_turn (turn_starts conv) (length conv) t)
            (take (cut_at_turn (turn_starts conv) (length conv) t') conv)).
  rewrite <- (take_drop (cut_at_turn (turn_starts conv) (length conv) t)
    (take (cut_at_turn (turn_starts conv) (length conv) t') conv)) at 1.
  by rewrite take_take, Nat.min_l by done.
Qed.

End Truncation.

(** ** Examples *)

Definition demo_marked (n : Z) (text : string) : ConversationItem :=
  User {| u_content := [Text (lit text)]; u_synthetic_reason := None;
          u_prior_turn_interrupt := None; u_prompt_index := Some n |}.

(** A legacy prefix (preamble and turn 0) followed by marked turns. *)
Definition demo_session : list ConversationItem :=
  [item_system (lit "sys"); item_user (lit "preamble"); item_user (lit "turn 0");
   demo_assistant "ok"; demo_marked 1 "turn 1"; demo_assistant "ok";
   demo_marked 2 "turn 2"].

Example demo_session_cuts :
  map (conversation_truncate_for_prompt demo_session) (seq 0 4) = [2; 4; 6; 7]%nat.
Proof. vm_compute. reflexivity. Qed.

Lemma truncate_monotone_witness :
  (1 ≤ 2)%nat ∧
  (conversation_truncate_for_prompt demo_session 1
   ≤ conversation_truncate_for_prompt demo_session 2)%nat ∧
  take (conversation_truncate_for_prompt demo_session 1) demo_session
    `prefix_of` take (conversation_truncate_for_prompt demo_session 2) demo_session.
Proof.
  split; [lia|]. apply (truncate_monotone demo_session 1 2). lia.
Defined.
