(* ===== verification/Usage.v ===== *)
(** * Usage ledgers

    [xai-chat-state/src/usage.rs]: the billing totals of a prompt and of a
    session, per model and overall.  An [IndexMap] is an association list in
    insertion order with distinct keys; [entry(..).or_default()] updates in
    place or appends. *)
From S2P Require Import Prelude RustStr F64 TokenEstimation Conversation Sampling.

Record UsageTotals := {
  input_tokens : Z;
  output_tokens : Z;
  cached_read_tokens : Z;
  ut_reasoning_tokens : Z;
  model_calls : Z;
  api_duration_ms : Z;
  cost_usd_ticks : option Z;
  cost_missing_calls : Z;
}.

Definition totals_default : UsageTotals :=
  {| input_tokens := 0; output_tokens := 0; cached_read_tokens := 0;
     ut_reasoning_tokens := 0; model_calls := 0; api_duration_ms := 0;
     cost_usd_ticks := None; cost_missing_calls := 0 |}%Z.

Definition from_call (usage : TokenUsage) (duration_ms : option Z) (cost : option Z)
  : UsageTotals :=
  let cost := reported_cost_ticks cost in
  {| input_tokens := prompt_tokens usage;
     output_tokens := completion_tokens usage;
     cached_read_tokens := cached_prompt_tokens usage;
     ut_reasoning_tokens := reasoning_tokens usage;
     model_calls := 1;
     api_duration_ms := default 0%Z duration_ms;
     cost_usd_ticks := cost;
     cost_missing_calls := match cost with None => 1 | Some _ => 0 end |}%Z.

Definition totals_total_tokens (t : UsageTotals) : Z :=
  saturating_add (input_tokens t) (output_tokens t).

Definition cost_is_partial (t : UsageTotals) : bool :=
  match cost_usd_ticks t with Some _ => (0 <? cost_missing_calls t)%Z | None => false end.

Definition merge_cost_ticks (a b : option Z) : option Z :=
  match a, b with
  | None, None => None
  | a, b => Some (i64_saturating_add (default 0%Z a) (default 0%Z b))
  end.

Definition fold_totals (self other : UsageTotals) : UsageTotals :=
  {| input_tokens := saturating_add (input_tokens self) (input_tokens other);
     output_tokens := saturating_add (output_tokens self) (output_tokens other);
     cached_read_tokens :=
       saturating_add (cached_read_tokens self) (cached_read_tokens other);
     ut_reasoning_tokens :=
       saturating_add (ut_reasoning_tokens self) (ut_reasoning_tokens other);
     model_calls := saturating_add (model_calls self) (model_calls other);
     api_duration_ms := saturating_add (api_duration_ms self) (api_duration_ms other);
     cost_usd_ticks := merge_cost_ticks (cost_usd_ticks self) (cost_usd_ticks other);
     cost_missing_calls :=
       saturating_add (cost_missing_calls self) (cost_missing_calls other) |}.

Record UsageLedger := {
  totals : UsageTotals;
  by_model : list (str * UsageTotals);
  main_loop_model_calls : Z;
  incomplete : bool;
}.

Definition ledger_default : UsageLedger :=
  {| totals := totals_default; by_model := []; main_loop_model_calls := 0;
     incomplete := false |}.

(** [by_model.entry(id).or_default().fold_totals(t)] *)
Fixpoint fold_model (id : str) (t : UsageTotals) (m : list (str * UsageTotals))
  : list (str * UsageTotals) :=
  match m with
  | [] => [(id, fold_totals totals_default t)]
  | (k, v) :: m' =>
      if str_eqb k id then (k, fold_totals v t) :: m' else (k, v) :: fold_model id t m'
  end.

Definition fold_entry (l : UsageLedger) (id : str) (t : UsageTotals) : UsageLedger :=
  {| totals := fold_totals (totals l) t;
     by_model := fold_model id t (by_model l);
     main_loop_model_calls := main_loop_model_calls l;
     incomplete := incomplete l |}.

Definition record_main_loop_call (l : UsageLedger) (id : str) (usage : TokenUsage)
    (duration_ms cost : option Z) : UsageLedger :=
  let call := from_call usage duration_ms cost in
  fold_entry
    {| totals := totals l; by_model := by_model l;
       main_loop_model_calls := saturating_add (main_loop_model_calls l) 1;
       incomplete := incomplete l |} id call.

Definition mark_incomplete (l : UsageLedger) : UsageLedger :=
  {| totals := totals l; by_model := by_model l;
     main_loop_model_calls := main_loop_model_calls l; incomplete := true |}.

Definition record_subagent (l : UsageLedger) (entries : list (str * UsageTotals))
    (inc : bool) : UsageLedger :=
  let l' := foldl (λ l '(id, t), fold_entry l id t) l entries in
  if inc then mark_incomplete l' else l'.

(** ** The ledger invariant *)

(** A counter is a [u64]; a reported cost is a positive [i64]. *)
Definition cost_ok (c : option Z) : Prop :=
  match c with Some t => (0 < t ≤ I64_MAX)%Z | None => True end.
Definition totals_ok (t : UsageTotals) : Prop :=
  is_u64 (input_tokens t) ∧ is_u64 (output_tokens t) ∧ is_u64 (cached_read_tokens t) ∧
  is_u64 (ut_reasoning_tokens t) ∧ is_u64 (model_calls t) ∧ is_u64 (api_duration_ms t) ∧
  is_u64 (cost_missing_calls t) ∧ cost_ok (cost_usd_ticks t).

Definition fold_all (l : list UsageTotals) : UsageTotals := foldl fold_totals totals_default l.

(** The session total is the fold of the per-model entries, whose keys are
    distinct. *)
Record ledger_ok (l : UsageLedger) : Prop := {
  lo_totals : totals l = fold_all (by_model l).*2;
  lo_keys : NoDup (by_model l).*1;
  lo_entries : Forall totals_ok (by_model l).*2;
}.

Lemma merge_cost_ok a b : cost_ok a → cost_ok b → cost_ok (merge_cost_ticks a b).
Proof.
  destruct a, b; cbn; unfold i64_saturating_add, I64_MIN, I64_MAX; cbn [default from_option id]; lia.
Qed.

Lemma merge_cost_assoc a b c :
  cost_ok a → cost_ok b → cost_ok c →
  merge_cost_ticks a (merge_cost_ticks b c) = merge_cost_ticks (merge_cost_ticks a b) c.
Proof.
  destruct a, b, c; cbn; try done; unfold i64_saturating_add, I64_MIN, I64_MAX;
    cbn [default from_option id]; intros; f_equal; lia.
Qed.

Lemma merge_cost_comm a b : merge_cost_ticks a b = merge_cost_ticks b a.
Proof. destruct a as [a|], b as [b|]; cbn; unfold i64_saturating_add;
    [rewrite (Z.add_comm a b) | rewrite Z.add_comm | rewrite Z.add_comm |]; done. Qed.

Lemma fold_totals_ok a b : totals_ok a → totals_ok b → totals_ok (fold_totals a b).
Proof.
  intros (?&?&?&?&?&?&?&?) (?&?&?&?&?&?&?&?).
  repeat split; simpl; try (apply saturating_add_u64; done); try apply saturating_add_u64; try done.
  by apply merge_cost_ok.
Qed.

Lemma totals_default_ok : totals_ok totals_default.
Proof. repeat split; simpl; unfold U64_MAX; lia. Qed.

Lemma fold_totals_comm a b : fold_totals a b = fold_totals b a.
Proof.
  unfold fold_totals. f_equal; try apply saturating_add_comm. apply merge_cost_comm.
Qed.

Lemma fold_totals_assoc a b c :
  totals_ok a → totals_ok b → totals_ok c →
  fold_totals a (fold_totals b c) = fold_totals (fold_totals a b) c.
Proof.
  unfold totals_ok, is_u64. intros (?&?&?&?&?&?&?&?) (?&?&?&?&?&?&?&?) (?&?&?&?&?&?&?&?).
  unfold fold_totals; simpl. f_equal; try (apply saturating_add_assoc; lia).
  by apply merge_cost_assoc.
Qed.

Lemma fold_totals_default a : totals_ok a → fold_totals totals_default a = a.
Proof.
  unfold totals_ok, is_u64. destruct a as [i o cr r mc d c m]. simpl.
  intros (?&?&?&?&?&?&?&Hc). unfold fold_totals, saturating_add; simpl. f_equal; try lia.
  destruct c; simpl in *; [|done]. unfold i64_saturating_add, I64_MIN, I64_MAX in *. f_equal. lia.
Qed.

Lemma foldl_totals a l :
  totals_ok a → Forall totals_ok l →
  foldl fold_totals a l = fold_totals a (fold_all l) ∧ totals_ok (fold_all l).
Proof.
  intros Ha Hl. revert a Ha. unfold fold_all.
  induction Hl as [|x l Hx Hl IH]; intros a Ha; simpl.
  - split; [|apply totals_default_ok].
    by rewrite fold_totals_comm, fold_totals_default.
  - destruct (IH (fold_totals a x) (fold_totals_ok _ _ Ha Hx)) as [-> Hok].
    destruct (IH (fold_totals totals_default x)
      (fold_totals_ok _ _ totals_default_ok Hx)) as [-> _].
    rewrite fold_totals_default by done.
    split; [by rewrite fold_totals_assoc | by apply fold_totals_ok].
Qed.

Lemma fold_all_cons x l :
  totals_ok x → Forall totals_ok l → fold_all (x :: l) = fold_totals x (fold_all l).
Proof.
  intros Hx Hl. unfold fold_all at 1. simpl. rewrite fold_totals_default by done.
  by apply foldl_totals.
Qed.

Lemma fold_model_keys id t m k :
  k ∈ (fold_model id t m).*1 ↔ k = id ∨ k ∈ m.*1.
Proof.
  induction m as [|[k' v] m IH]; simpl; [by rewrite list_elem_of_singleton, elem_of_nil; tauto|].
  unfold str_eqb. case_bool_decide; simpl; rewrite !elem_of_cons; [|rewrite IH; tauto].
  subst. tauto.
Qed.

Lemma fold_model_ok id t m :
  totals_ok t → NoDup m.*1 → Forall totals_ok m.*2 →
  fold_all (fold_model id t m).*2 = fold_totals (fold_all m.*2) t ∧
  NoDup (fold_model id t m).*1 ∧ Forall totals_ok (fold_model id t m).*2.
Proof.
  intros Ht. induction m as [|[k v] m IH]; intros Hnd Hf; simpl in *.
  - split; [unfold fold_all; simpl; by rewrite !(fold_totals_default t)|].
    split; [apply NoDup_singleton|].
    constructor; [|done]. apply fold_totals_ok; [apply totals_default_ok|done].
  - apply NoDup_cons in Hnd as [Hk Hnd]. apply Forall_cons in Hf as [Hv Hf].
    destruct (foldl_totals v _ Hv Hf) as [_ Hall].
    unfold str_eqb. case_bool_decide as Hid; csimpl.
    + repeat split; [|by constructor|constructor; [by apply fold_totals_ok|done]].
      rewrite !fold_all_cons by (try done; by apply fold_totals_ok).
      rewrite <- !fold_totals_assoc by done. f_equal. apply fold_totals_comm.
    + destruct (IH Hnd Hf) as (E & Hnd' & Hf'). repeat split.
      * rewrite !fold_all_cons by done. rewrite E. by rewrite fold_totals_assoc.
      * constructor; [|done]. rewrite fold_model_keys. by intros [?|?].
      * by constructor.
Qed.

Lemma fold_entry_ok l id t : totals_ok t → ledger_ok l → ledger_ok (fold_entry l id t).
Proof.
  intros Ht [E Hk Hf]. destruct (fold_model_ok id t _ Ht Hk Hf) as (E' & Hk' & Hf').
  constructor; simpl; [by rewrite E, E'|done|done].
Qed.

Lemma from_call_ok usage d c :
  is_u64 (prompt_tokens usage) → is_u64 (completion_tokens usage) →
  is_u64 (cached_prompt_tokens usage) → is_u64 (reasoning_tokens usage) →
  is_u64 (default 0%Z d) → (default 0 c ≤ I64_MAX)%Z →
  totals_ok (from_call usage d c).
Proof.
  intros. unfold from_call, reported_cost_ticks. repeat split; simpl; try done;
    try (unfold is_u64 in *; lia); try (unfold U64_MAX; lia);
    destruct c as [t|]; simpl in *; try destruct (Z.ltb_spec 0 t); simpl; unfold U64_MAX; lia.
Qed.

Lemma ledger_default_ok : ledger_ok ledger_default.
Proof. constructor; simpl; [done|apply NoDup_nil_2|done]. Qed.

Lemma mark_incomplete_ok l : ledger_ok l → ledger_ok (mark_incomplete l).
Proof. intros [? ? ?]. by constructor. Qed.

Lemma record_subagent_ok l entries inc :
  Forall totals_ok entries.*2 → ledger_ok l → ledger_ok (record_subagent l entries inc).
Proof.
  intros Hf Hl. unfold record_subagent.
  assert (Hfold : ledger_ok (foldl (λ l '(id, t), fold_entry l id t) l entries)).
  { revert l Hl. induction entries as [|[id t] es IH]; intros l Hl; simpl in *; [done|].
    apply Forall_cons in Hf as [Ht Hf]. apply IH; [done|]. by apply fold_entry_ok. }
  destruct inc; [by apply mark_incomplete_ok|done].
Qed.

Lemma record_main_loop_call_ok l id usage d c :
  totals_ok (from_call usage d c) → ledger_ok l →
  ledger_ok (record_main_loop_call l id usage d c).
Proof. intros Ht [? ? ?]. by apply fold_entry_ok. Qed.

(** ** Histories of a ledger *)

Inductive LedgerOp : Type :=
| OpMainLoopCall (id : str) (usage : TokenUsage) (duration_ms cost : option Z)
| OpSubagent (entries : list (str * UsageTotals)) (inc : bool)
| OpMarkIncomplete.

Definition apply_op (l : UsageLedger) (op : LedgerOp) : UsageLedger :=
  match op with
  | OpMainLoopCall id usage d c => record_main_loop_call l id usage d c
  | OpSubagent entries inc => record_subagent l entries inc
  | OpMarkIncomplete => mark_incomplete l
  end.

(** The values the types of the source allow: [u32] token counts, [u64]
    durations, [i64] costs, and subagent totals that came from a ledger. *)
Definition op_ok (op : LedgerOp) : Prop :=
  match op with
  | OpMainLoopCall _ usage d c =>
      (0 ≤ prompt_tokens usage ≤ U32_MAX)%Z ∧ (0 ≤ completion_tokens usage ≤ U32_MAX)%Z ∧
      (0 ≤ cached_prompt_tokens usage ≤ U32_MAX)%Z ∧ (0 ≤ reasoning_tokens usage ≤ U32_MAX)%Z ∧
      is_u64 (default 0%Z d) ∧ (default 0 c ≤ I64_MAX)%Z
  | OpSubagent entries _ => Forall totals_ok entries.*2
  | OpMarkIncomplete => True
  end.

Definition op_calls (op : LedgerOp) : Z :=
  match op with OpMainLoopCall _ _ _ _ => 1 | _ => 0 end.
Definition op_incomplete (op : LedgerOp) : bool :=
  match op with
  | OpMainLoopCall _ _ _ _ => false
  | OpSubagent _ inc => inc
  | OpMarkIncomplete => true
  end.

Lemma apply_op_ok l op : op_ok op → ledger_ok l → ledger_ok (apply_op l op).
Proof.
  destruct op; simpl.
  - intros (?&?&?&?&?&?). apply record_main_loop_call_ok, from_call_ok; try done;
      unfold is_u64, U32_MAX, U64_MAX in *; lia.
  - apply record_subagent_ok.
  - intros _. apply mark_incomplete_ok.
Qed.

Lemma fold_entries_flags l (entries : list (str * UsageTotals)) :
  let l' := foldl (λ l '(id, t), fold_entry l id t) l entries in
  main_loop_model_calls l' = main_loop_model_calls l ∧ incomplete l' = incomplete l.
Proof.
  revert l. induction entries as [|[id t] es IH]; intros l; simpl; [done|].
  destruct (IH (fold_entry l id t)) as [-> ->]. done.
Qed.

Lemma apply_op_flags l op :
  main_loop_model_calls (apply_op l op)
  = match op with
    | OpMainLoopCall _ _ _ _ => saturating_add (main_loop_model_calls l) 1
    | _ => main_loop_model_calls l
    end ∧
  incomplete (apply_op l op) = incomplete l || op_incomplete op.
Proof.
  destruct op as [? ? ? ?|entries inc|]; simpl; [by rewrite orb_false_r| |by rewrite orb_true_r].
  unfold record_subagent. destruct (fold_entries_flags l entries) as [E1 E2]. simpl in *.
  destruct inc; simpl; rewrite E1, ?E2, ?orb_true_r, ?orb_false_r; done.
Qed.

Lemma ledger_history_flags l ops :
  is_u64 (main_loop_model_calls l) →
  let l' := foldl apply_op l ops in
  main_loop_model_calls l'
    = Z.min (main_loop_model_calls l + foldr Z.add 0%Z (map op_calls ops))%Z U64_MAX ∧
  incomplete l' = incomplete l || existsb op_incomplete ops.
Proof.
  revert l. induction ops as [|op ops IH]; intros l Hl; simpl.
  - unfold is_u64 in Hl. rewrite orb_false_r. split; [lia|done].
  - destruct (apply_op_flags l op) as [E1 E2].
    assert (Hc : is_u64 (main_loop_model_calls (apply_op l op))).
    { rewrite E1. destruct op; try done. apply saturating_add_u64; [done|].
      unfold is_u64, U64_MAX. lia. }
    assert (Hsum : (0 ≤ foldr Z.add 0%Z (map op_calls ops))%Z).
    { clear. induction ops as [|[] ops IH]; simpl; lia. }
    destruct (IH _ Hc) as [-> ->]. rewrite E2, orb_assoc. split; [|done].
    rewrite E1. unfold is_u64, saturating_add in *. destruct op; simpl; lia.
Qed.

(** ** Property *)

(** After any history of main-loop calls, subagent folds and incomplete
    marks, the ledger's overall totals are the fold of its per-model entries
    (one per model id, every counter a [u64], every cost positive), no
    saturating addition depends on the order of the calls, [numTurns] counts
    exactly the main-loop calls (saturating), and the incomplete flag is set
    iff some operation set it. *)
Theorem ledger_history_consistent ops (Hops : Forall op_ok ops) :
  let l := foldl apply_op ledger_default ops in
  ledger_ok l ∧
  main_loop_model_calls l = Z.min (foldr Z.add 0%Z (map op_calls ops)) U64_MAX ∧
  incomplete l = existsb op_incomplete ops ∧
  (∀ a b, totals_ok a → totals_ok b →
    fold_totals (fold_totals (totals l) a) b = fold_totals (fold_totals (totals l) b) a).
Proof.
  intros l. assert (Hl : ledger_ok l).
  { unfold l. clear l. generalize ledger_default ledger_default_ok.
    induction Hops as [|op ops Hop Hops IH]; intros l Hl; simpl; [done|].
    by apply IH, apply_op_ok. }
  destruct (ledger_history_flags ledger_default ops) as [E1 E2];
    [unfold is_u64, U64_MAX; simpl; lia|].
  split; [done|]. split; [exact E1|]. split; [exact E2|]. intros a b Ha Hb.
  destruct Hl as [E _ Hf].
  destruct (foldl_totals totals_default _ totals_default_ok Hf) as [_ Hok].
  rewrite E. rewrite <- !fold_totals_assoc by done. f_equal. apply fold_totals_comm.
Qed.

Lemma ledger_history_consistent_witness :
  let u := {| prompt_tokens := 100; completion_tokens := 20; usage_total_tokens := 120;
              reasoning_tokens := 0; cached_prompt_tokens := 40 |}%Z in
  let ops := [OpMainLoopCall (lit "grok") u (Some 5%Z) (Some 7%Z);
              OpMainLoopCall (lit "grok") u None None;
              OpSubagent [(lit "mini", from_call u None (Some 2%Z))] true] in
  let l := foldl apply_op ledger_default ops in
  Forall op_ok ops ∧ input_tokens (totals l) = 300%Z ∧ ledger_ok l ∧
  main_loop_model_calls l = 2%Z ∧ incomplete l = true.
Proof.
  intros u ops l.
  assert (Hops : Forall op_ok ops).
  { repeat constructor; simpl; unfold U32_MAX, U64_MAX, I64_MAX; lia. }
  destruct (ledger_history_consistent ops Hops) as (Hl & Hc & Hi & _).
  split; [exact Hops|]. split; [vm_compute; reflexivity|]. split; [exact Hl|].
  split; [vm_compute; reflexivity|exact Hi].
Defined.
