(* ===== verification/RequestBuilder.v ===== *)
(** * Request building and user queries

    [xai-chat-state/src/actor/request_builder.rs]: tool-result pruning of the
    request copy, inline-image eviction, and the memory reminder; the pruning
    configuration is in [types.rs].  Before it, [extract_user_query] and
    [extract_last_user_query] of [compaction_utils.rs], and the system-head
    helpers of [conversation_util.rs].

    Serialised sizes come from [serde_json] over derived code: they are the
    parameters [json_conversation_bytes] and [json_part_bytes].  The length of
    a collection in memory is an unbounded integer here; Rust caps every
    allocation below [2^63] bytes. *)
From S2P Require Import Prelude RustStr TokenEstimation Conversation Sampling.

Definition SYSTEM_TAGS : list str :=
  map lit ["user_info"; "project_layout"; "git_status"; "fork-context";
           "system-reminder"; "agent-memory"; "system_reminder";
           "background_context"; "command-name"; "command-message";
           "command-args"]%string.

(** The [while let] loop for one tag.  Every iteration removes the opening and
    closing tag, so the length of the text bounds the iterations. *)
Fixpoint strip_tag (fuel : nat) (open_ close_ result : str) : str :=
  match fuel with
  | O => result
  | S fuel' =>
      match find result open_ with
      | Some start =>
          match find (drop start result) close_ with
          | Some rel_end =>
              let end_pos := (start + rel_end + length close_)%nat in
              strip_tag fuel' open_ close_ (take start result ++ drop end_pos result)
          | None => result
          end
      | None => result
      end
  end.

Definition strip_system_tags (text : str) : str :=
  trim (foldl (λ result tag,
          strip_tag (S (length result)) (lit "<" ++ tag ++ lit ">")
                    (lit "</" ++ tag ++ lit ">") result)
        text SYSTEM_TAGS).

Definition extract_user_query (text : str) : str :=
  let open_ := lit "<user_query>" in
  let close_ := lit "</user_query>" in
  match find text open_ with
  | Some start =>
      let content_start := (start + length open_)%nat in
      match find (drop content_start text) close_ with
      | Some end_ => strip_system_tags (trim (take end_ (drop content_start text)))
      | None => strip_system_tags text
      end
  | None => strip_system_tags text
  end.

Section Query.
Context {RS : RsApi}.
Implicit Types (conv : list ConversationItem).

Definition extract_last_user_query conv : option (option str) :=
  match base.filter (λ i, is_user i = true) (rev conv) with
  | [] => Some None
  | item :: _ =>
      text ← text_content item;
      let q := extract_user_query text in
      Some (if is_empty q then None else Some q)
  end.

Definition canonical_system_prompt_eq (a b : str) : bool :=
  let nl_or_cr := λ c, (c =? NL)%Z || (c =? CR)%Z in
  str_eqb (trim_end_matches nl_or_cr a) (trim_end_matches nl_or_cr b).

Definition replace_or_insert_system_head conv (prompt : str) : list ConversationItem * bool :=
  match conv with
  | System sys :: rest =>
      if canonical_system_prompt_eq (sys_content sys) prompt then (conv, false)
      else (System {| sys_content := prompt |} :: rest, true)
  | _ => (item_system prompt :: conv, true)
  end.

End Query.

Class SerdeJson {RS : RsApi} : Type := {
  json_conversation_bytes : list ConversationItem → Z;
  json_part_bytes : ContentPart → Z;
}.

Record PruningConfig := {
  enabled : bool;
  keep_last_n_turns : Z;
  soft_trim_threshold : Z;
  soft_trim_head : Z;
  soft_trim_tail : Z;
  hard_clear_age_turns : Z;
}.

Definition pruning_default : PruningConfig :=
  {| enabled := true; keep_last_n_turns := 3; soft_trim_threshold := 4000;
     soft_trim_head := 1500; soft_trim_tail := 1500; hard_clear_age_turns := 10 |}.

Definition MEMORY_CONTEXT_OPEN_TAG : str := lit "<memory-context>".
Definition HARD_CLEAR_PLACEHOLDER : str := lit "[Tool result omitted — too old]".
Definition SOFT_TRIM_SEPARATOR : str := [NL; NL] ++ lit "[…trimmed…]" ++ [NL; NL].
Definition IMAGE_COMPACT_PLACEHOLDER : str :=
  lit "[An earlier image was removed to keep the request within its size limit and is no longer visible. Do not describe or reason about its contents from memory; ask the user to re-share it if you need to see it again.]".
Definition MAX_REQUEST_BYTES : Z := 50 * 1024 * 1024.
Definition IMAGE_COMPACT_TRIGGER_BYTES : Z := MAX_REQUEST_BYTES - 3 * 1024 * 1024.
Definition IMAGE_COMPACT_RECLAIM_TARGET_BYTES : Z := MAX_REQUEST_BYTES / 2.


Section Builder.
Context {RS : RsApi}.
Implicit Types (conv : list ConversationItem).

(** ** Strings *)

(** [s.chars().skip(start).take(count).collect()] *)
Definition safe_char_slice (s : str) (start count : Z) : str :=
  take (Z.to_nat count) (drop (Z.to_nat start) s).

Definition safe_char_slice_tail (s : str) (count : Z) : str :=
  let total := Z.of_nat (length s) in
  if (total <=? count)%Z then s else drop (Z.to_nat (total - count)) s.

(** ** Pruning of the request copy *)

Definition should_prune (total_tokens window : Z) : bool := (window / 2 <? total_tokens)%Z.

Definition prune_tool_result (turn_from_end : Z) (t : ToolResultItem) (config : PruningConfig)
  : ToolResultItem :=
  if (turn_from_end <? keep_last_n_turns config)%Z then t
  else if (hard_clear_age_turns config <=? turn_from_end)%Z then
    if str_eqb (tr_content t) HARD_CLEAR_PLACEHOLDER then t
    else set_tr_content t HARD_CLEAR_PLACEHOLDER
  else
    let content_len := Z.of_nat (length (tr_content t)) in
    if (soft_trim_threshold config <? content_len)%Z then
      let head := safe_char_slice (tr_content t) 0 (soft_trim_head config) in
      let tail := safe_char_slice_tail (tr_content t) (soft_trim_tail config) in
      set_tr_content t (head ++ SOFT_TRIM_SEPARATOR ++ tail)
    else t.

(** The [for i in (0..len).rev()] loop; the list is the conversation from its
    end. *)
Fixpoint prune_loop (turn_from_end : Z) (seen_first_user : bool) (rev_items : list ConversationItem)
    (config : PruningConfig) : list ConversationItem :=
  match rev_items with
  | [] => []
  | User u :: rest =>
      User u :: prune_loop (if seen_first_user then turn_from_end + 1 else turn_from_end)
                  true rest config
  | ToolResult t :: rest =>
      ToolResult (prune_tool_result turn_from_end t config)
        :: prune_loop turn_from_end seen_first_user rest config
  | item :: rest => item :: prune_loop turn_from_end seen_first_user rest config
  end.

Definition prune_conversation conv (config : PruningConfig) : list ConversationItem :=
  if enabled config then rev (prune_loop 0 false (rev conv) config) else conv.

(** ** Inline images *)

(** The length of the literal frame around an empty image URL. *)
Definition IMAGE_PART_FRAME_BYTES : Z := 25.
Definition image_part_bytes (url : str) : Z := (IMAGE_PART_FRAME_BYTES + str_len url)%Z.

Definition is_image (p : ContentPart) : bool :=
  match p with Image _ => true | Text _ => false end.
Definition user_parts (i : ConversationItem) : list ContentPart :=
  match i with User u => u_content u | _ => [] end.

Definition inline_image_count conv : nat :=
  length (base.filter (λ p, is_image p = true) (concat (map user_parts conv))).

Definition set_u_content (u : UserItem) (ps : list ContentPart) : UserItem :=
  {| u_content := ps; u_synthetic_reason := u_synthetic_reason u;
     u_prior_turn_interrupt := u_prior_turn_interrupt u;
     u_prompt_index := u_prompt_index u |}.

(** The copy with blanked URLs, and the sum of the URL lengths. *)
Definition blank_part (p : ContentPart) : ContentPart :=
  match p with Image _ => Image [] | Text t => Text t end.
Definition blank_item (i : ConversationItem) : ConversationItem :=
  match i with User u => User (set_u_content u (map blank_part (u_content u))) | _ => i end.
Definition part_url_bytes (p : ContentPart) : Z :=
  match p with Image url => str_len url | Text _ => 0 end.
Definition image_url_bytes conv : Z :=
  foldl (λ acc i, foldl (λ acc p, (acc + part_url_bytes p)%Z) acc (user_parts i)) 0%Z conv.

Definition conversation_body_bytes {SJ : SerdeJson} conv : Z :=
  (json_conversation_bytes (map blank_item conv) + image_url_bytes conv)%Z.

Record ImageEvictionOutcome := { evicted : nat; body_bytes_after : Z }.

(** [(item_idx, part_idx, image part bytes)] of every inline image, oldest
    first. *)
Fixpoint part_images (i j : nat) (ps : list ContentPart) : list (nat * nat * Z) :=
  match ps with
  | [] => []
  | Image url :: ps' => (i, j, image_part_bytes url) :: part_images i (S j) ps'
  | Text _ :: ps' => part_images i (S j) ps'
  end.
Fixpoint inline_images (i : nat) conv : list (nat * nat * Z) :=
  match conv with
  | [] => []
  | item :: rest => part_images i 0 (user_parts item) ++ inline_images (S i) rest
  end.

(** The [for &(i, j, image_bytes) in &images] loop. *)
Fixpoint evict_loop (images : list (nat * nat * Z)) conv (running target_bytes placeholder_bytes : Z)
    (n : nat) : list ConversationItem * ImageEvictionOutcome :=
  match images with
  | [] => (conv, {| evicted := n; body_bytes_after := running |})
  | (i, j, image_bytes) :: images' =>
      if (running <=? target_bytes)%Z
      then (conv, {| evicted := n; body_bytes_after := running |})
      else
        match conv !! i with
        | Some (User u) =>
            if (j <? length (u_content u))%nat then
              evict_loop images'
                (<[i := User (set_u_content u
                           (<[j := Text IMAGE_COMPACT_PLACEHOLDER]> (u_content u)))]> conv)
                (saturating_sub running (saturating_sub image_bytes placeholder_bytes))
                target_bytes placeholder_bytes (S n)
            else evict_loop images' conv running target_bytes placeholder_bytes n
        | _ => evict_loop images' conv running target_bytes placeholder_bytes n
        end
  end.

Definition compact_images_to_byte_budget {SJ : SerdeJson} conv (current_bytes target_bytes : Z)
  : list ConversationItem * ImageEvictionOutcome :=
  if (current_bytes <=? target_bytes)%Z
  then (conv, {| evicted := 0; body_bytes_after := current_bytes |})
  else evict_loop (inline_images 0 conv) conv current_bytes target_bytes
         (json_part_bytes (Text IMAGE_COMPACT_PLACEHOLDER)) 0.

(** ** Memory reminder *)

Definition trim_newlines_end (s : str) : str := trim_end_matches (λ c, (c =? NL)%Z) s.

(** [upsert_memory_reminder_text]: the new prompt and whether it changed. *)
Definition upsert_memory_reminder_text (system_prompt reminder : str) : str * bool :=
  let existing_start :=
    (λ idx, length (trim_newlines_end (take idx system_prompt)))
      <$> find system_prompt MEMORY_CONTEXT_OPEN_TAG in
  let updated :=
    match existing_start with
    | Some prefix_len =>
        let prefix := trim_newlines_end (take prefix_len system_prompt) in
        if is_empty prefix then reminder else prefix ++ [NL; NL] ++ reminder
    | None =>
        if str_eqb (trim_end system_prompt) reminder then system_prompt
        else if is_empty system_prompt then reminder
        else trim_newlines_end system_prompt ++ [NL; NL] ++ reminder
    end in
  if str_eqb system_prompt updated then (system_prompt, false) else (updated, true).

Definition inject_memory_reminder conv (reminder : str) : list ConversationItem * bool :=
  let reminder := trim reminder in
  if is_empty reminder then (conv, false)
  else
    match conv with
    | System sys :: rest =>
        let '(content, changed) := upsert_memory_reminder_text (sys_content sys) reminder in
        (System {| sys_content := content |} :: rest, changed)
    | _ => (item_system reminder :: conv, true)
    end.

End Builder.
