(* ===== verification/State.v ===== *)
(** * The state of the chat actor

    [xai-chat-state/src/types.rs], [events.rs], [persistence.rs],
    [commands.rs] and [actor/state.rs]: the data the actor owns, the messages
    it receives and sends, and the state it starts from.  A [set_f] function is
    the assignment [self.state.f = v]. *)
From S2P Require Import Prelude RustStr TokenEstimation Conversation Sampling ToolPairing Usage.
From S2P Require Import RequestBuilder.

Inductive AuthType : Type := SessionToken | ApiKey.

Record Credentials := {
  api_key : option str;
  auth_type : AuthType;
  alpha_test_key : option str;
  client_version : option str;
}.

Definition credentials_default : Credentials :=
  {| api_key := None; auth_type := SessionToken; alpha_test_key := None;
     client_version := None |}.

Record NotificationMeta := {
  nm_stream_start_ms : option Z;
  nm_turn_start_ms : option Z;
}.

Record ConversationCounts := {
  cc_total : nat;
  cc_user : nat;
  cc_assistant : nat;
  cc_tool_result : nat;
}.

Record AutoCompactTrigger := {
  act_total_tokens : Z;
  act_context_window : Z;
  utilization_percent : Z;
}.

Record ModelMetadata := {
  resolved_model_id : option str;
  mm_model_fingerprint : option str;
}.

Inductive ChatStateEvent : Type :=
| PromptIndexChanged (new_index : Z)
| TokensUpdated (total : Z)
| ConversationReset (new_len : nat)
| ImageBudget (body_bytes trigger_bytes reclaim_target_bytes : Z) (inline : nat)
    (needs_image_compaction : bool) (n_evicted : nat) (bytes_after : Z).

Section State.
Context {RS : RsApi}.

Record TurnCaptureState := {
  turn_start_offset : nat;
  pre_replacement_messages : list ConversationItem;
  compaction_occurred : bool;
}.

Record TurnCapture := {
  tc_messages : list ConversationItem;
  tc_compaction_occurred : bool;
}.

(** A call of the [ChatPersistence] trait, in the form the mock records it. *)
Inductive PersistenceRecord : Type :=
| Message (item : ConversationItem)
| ReplaceHistory (its : list ConversationItem)
| FlushRecord.

Record ChatState := {
  conversation : list ConversationItem;
  sampling_config : SamplingConfig;
  prompt_index : Z;
  prompt_texts : list str;
  total_tokens : Z;
  stream_start_ms : option Z;
  turn_start_ms : option Z;
  agent_edited_paths : gset str;
  last_compaction_prompt_index : option Z;
  credentials : Credentials;
  estimated_tokens_since_model : Z;
  estimate_at_last_response : Z;
  last_turn_usage : option TokenUsage;
  prompt_usage : option UsageLedger;
  session_usage : UsageLedger;
  turn_capture : option TurnCaptureState;
  harness_trace_buffer : list ConversationItem;
  harness_trace_turns : list (list ConversationItem);
}.

Definition set_conversation (v : list ConversationItem) (s : ChatState) : ChatState :=
  {| conversation := v; sampling_config := sampling_config s;
     prompt_index := prompt_index s; prompt_texts := prompt_texts s;
     total_tokens := total_tokens s; stream_start_ms := stream_start_ms s;
     turn_start_ms := turn_start_ms s; agent_edited_paths := agent_edited_paths s;
     last_compaction_prompt_index := last_compaction_prompt_index s;
     credentials := credentials s;
     estimated_tokens_since_model := estimated_tokens_since_model s;
     estimate_at_last_response := estimate_at_last_response s;
     last_turn_usage := last_turn_usage s; prompt_usage := prompt_usage s;
     session_usage := session_usage s; turn_capture := turn_capture s;
     harness_trace_buffer := harness_trace_buffer s;
     harness_trace_turns := harness_trace_turns s |}.
Definition set_sampling_config (v : SamplingConfig) (s : ChatState) : ChatState :=
  {| conversation := conversation s; sampling_config := v;
     prompt_index := prompt_index s; prompt_texts := prompt_texts s;
     total_tokens := total_tokens s; stream_start_ms := stream_start_ms s;
     turn_start_ms := turn_start_ms s; agent_edited_paths := agent_edited_paths s;
     last_compaction_prompt_index := last_compaction_prompt_index s;
     credentials := credentials s;
     estimated_tokens_since_model := estimated_tokens_since_model s;
     estimate_at_last_response := estimate_at_last_response s;
     last_turn_usage := last_turn_usage s; prompt_usage := prompt_usage s;
     session_usage := session_usage s; turn_capture := turn_capture s;
     harness_trace_buffer := harness_trace_buffer s;
     harness_trace_turns := harness_trace_turns s |}.
Definition set_prompt_index (v : Z) (s : ChatState) : ChatState :=
  {| conversation := conversation s; sampling_config := sampling_config s;
     prompt_index := v; prompt_texts := prompt_texts s;
     total_tokens := total_tokens s; stream_start_ms := stream_start_ms s;
     turn_start_ms := turn_start_ms s; agent_edited_paths := agent_edited_paths s;
     last_compaction_prompt_index := last_compaction_prompt_index s;
     credentials := credentials s;
     estimated_tokens_since_model := estimated_tokens_since_model s;
     estimate_at_last_response := estimate_at_last_response s;
     last_turn_usage := last_turn_usage s; prompt_usage := prompt_usage s;
     session_usage := session_usage s; turn_capture := turn_capture s;
     harness_trace_buffer := harness_trace_buffer s;
     harness_trace_turns := harness_trace_turns s |}.
Definition set_prompt_texts (v : list str) (s : ChatState) : ChatState :=
  {| conversation := conversation s; sampling_config := sampling_config s;
     prompt_index := prompt_index s; prompt_texts := v;
     total_tokens := total_tokens s; stream_start_ms := stream_start_ms s;
     turn_start_ms := turn_start_ms s; agent_edited_paths := agent_edited_paths s;
     last_compaction_prompt_index := last_compaction_prompt_index s;
     credentials := credentials s;
     estimated_tokens_since_model := estimated_tokens_since_model s;
     estimate_at_last_response := estimate_at_last_response s;
     last_turn_usage := last_turn_usage s; prompt_usage := prompt_usage s;
     session_usage := session_usage s; turn_capture := turn_capture s;
     harness_trace_buffer := harness_trace_buffer s;
     harness_trace_turns := harness_trace_turns s |}.
Definition set_total_tokens (v : Z) (s : ChatState) : ChatState :=
  {| conversation := conversation s; sampling_config := sampling_config s;
     prompt_index := prompt_index s; prompt_texts := prompt_texts s;
     total_tokens := v; stream_start_ms := stream_start_ms s;
     turn_start_ms := turn_start_ms s; agent_edited_paths := agent_edited_paths s;
     last_compaction_prompt_index := last_compaction_prompt_index s;
     credentials := credentials s;
     estimated_tokens_since_model := estimated_tokens_since_model s;
     estimate_at_last_response := estimate_at_last_response s;
     last_turn_usage := last_turn_usage s; prompt_usage := prompt_usage s;
     session_usage := session_usage s; turn_capture := turn_capture s;
     harness_trace_buffer := harness_trace_buffer s;
     harness_trace_turns := harness_trace_turns s |}.
Definition set_stream_start_ms (v : option Z) (s : ChatState) : ChatState :=
  {| conversation := conversation s; sampling_config := sampling_config s;
     prompt_index := prompt_index s; prompt_texts := prompt_texts s;
     total_tokens := total_tokens s; stream_start_ms := v;
     turn_start_ms := turn_start_ms s; agent_edited_paths := agent_edited_paths s;
     last_compaction_prompt_index := last_compaction_prompt_index s;
     credentials := credentials s;
     estimated_tokens_since_model := estimated_tokens_since_model s;
     estimate_at_last_response := estimate_at_last_response s;
     last_turn_usage := last_turn_usage s; prompt_usage := prompt_usage s;
     session_usage := session_usage s; turn_capture := turn_capture s;
     harness_trace_buffer := harness_trace_buffer s;
     harness_trace_turns := harness_trace_turns s |}.
Definition set_turn_start_ms (v : option Z) (s : ChatState) : ChatState :=
  {| conversation := conversation s; sampling_config := sampling_config s;
     prompt_index := prompt_index s; prompt_texts := prompt_texts s;
     total_tokens := total_tokens s; stream_start_ms := stream_start_ms s;
     turn_start_ms := v; agent_edited_paths := agent_edited_paths s;
     last_compaction_prompt_index := last_compaction_prompt_index s;
     credentials := credentials s;
     estimated_tokens_since_model := estimated_tokens_since_model s;
     estimate_at_last_response := estimate_at_last_response s;
     last_turn_usage := last_turn_usage s; prompt_usage := prompt_usage s;
     session_usage := session_usage s; turn_capture := turn_capture s;
     harness_trace_buffer := harness_trace_buffer s;
     harness_trace_turns := harness_trace_turns s |}.
Definition set_agent_edited_paths (v : gset str) (s : ChatState) : ChatState :=
  {| conversation := conversation s; sampling_config := sampling_config s;
     prompt_index := prompt_index s; prompt_texts := prompt_texts s;
     total_tokens := total_tokens s; stream_start_ms := stream_start_ms s;
     turn_start_ms := turn_start_ms s; agent_edited_paths := v;
     last_compaction_prompt_index := last_compaction_prompt_index s;
     credentials := credentials s;
     estimated_tokens_since_model := estimated_tokens_since_model s;
     estimate_at_last_response := estimate_at_last_response s;
     last_turn_usage := last_turn_usage s; prompt_usage := prompt_usage s;
     session_usage := session_usage s; turn_capture := turn_capture s;
     harness_trace_buffer := harness_trace_buffer s;
     harness_trace_turns := harness_trace_turns s |}.
Definition set_last_compaction_prompt_index (v : option Z) (s : ChatState) : ChatState :=
  {| conversation := conversation s; sampling_config := sampling_config s;
     prompt_index := prompt_index s; prompt_texts := prompt_texts s;
     total_tokens := total_tokens s; stream_start_ms := stream_start_ms s;
     turn_start_ms := turn_start_ms s; agent_edited_paths := agent_edited_paths s;
     last_compaction_prompt_index := v; credentials := credentials s;
     estimated_tokens_since_model := estimated_tokens_since_model s;
     estimate_at_last_response := estimate_at_last_response s;
     last_turn_usage := last_turn_usage s; prompt_usage := prompt_usage s;
     session_usage := session_usage s; turn_capture := turn_capture s;
     harness_trace_buffer := harness_trace_buffer s;
     harness_trace_turns := harness_trace_turns s |}.
Definition set_credentials (v : Credentials) (s : ChatState) : ChatState :=
  {| conversation := conversation s; sampling_config := sampling_config s;
     prompt_index := prompt_index s; prompt_texts := prompt_texts s;
     total_tokens := total_tokens s; stream_start_ms := stream_start_ms s;
     turn_start_ms := turn_start_ms s; agent_edited_paths := agent_edited_paths s;
     last_compaction_prompt_index := last_compaction_prompt_index s; credentials := v;
     estimated_tokens_since_model := estimated_tokens_since_model s;
     estimate_at_last_response := estimate_at_last_response s;
     last_turn_usage := last_turn_usage s; prompt_usage := prompt_usage s;
     session_usage := session_usage s; turn_capture := turn_capture s;
     harness_trace_buffer := harness_trace_buffer s;
     harness_trace_turns := harness_trace_turns s |}.
Definition set_estimated_tokens_since_model (v : Z) (s : ChatState) : ChatState :=
  {| conversation := conversation s; sampling_config := sampling_config s;
     prompt_index := prompt_index s; prompt_texts := prompt_texts s;
     total_tokens := total_tokens s; stream_start_ms := stream_start_ms s;
     turn_start_ms := turn_start_ms s; agent_edited_paths := agent_edited_paths s;
     last_compaction_prompt_index := last_compaction_prompt_index s;
     credentials := credentials s; estimated_tokens_since_model := v;
     estimate_at_last_response := estimate_at_last_response s;
     last_turn_usage := last_turn_usage s; prompt_usage := prompt_usage s;
     session_usage := session_usage s; turn_capture := turn_capture s;
     harness_trace_buffer := harness_trace_buffer s;
     harness_trace_turns := harness_trace_turns s |}.
Definition set_estimate_at_last_response (v : Z) (s : ChatState) : ChatState :=
  {| conversation := conversation s; sampling_config := sampling_config s;
     prompt_index := prompt_index s; prompt_texts := prompt_texts s;
     total_tokens := total_tokens s; stream_start_ms := stream_start_ms s;
     turn_start_ms := turn_start_ms s; agent_edited_paths := agent_edited_paths s;
     last_compaction_prompt_index := last_compaction_prompt_index s;
     credentials := credentials s;
     estimated_tokens_since_model := estimated_tokens_since_model s;
     estimate_at_last_response := v; last_turn_usage := last_turn_usage s;
     prompt_usage := prompt_usage s; session_usage := session_usage s;
     turn_capture := turn_capture s; harness_trace_buffer := harness_trace_buffer s;
     harness_trace_turns := harness_trace_turns s |}.
Definition set_last_turn_usage (v : option TokenUsage) (s : ChatState) : ChatState :=
  {| conversation := conversation s; sampling_config := sampling_config s;
     prompt_index := prompt_index s; prompt_texts := prompt_texts s;
     total_tokens := total_tokens s; stream_start_ms := stream_start_ms s;
     turn_start_ms := turn_start_ms s; agent_edited_paths := agent_edited_paths s;
     last_compaction_prompt_index := last_compaction_prompt_index s;
     credentials := credentials s;
     estimated_tokens_since_model := estimated_tokens_since_model s;
     estimate_at_last_response := estimate_at_last_response s; last_turn_usage := v;
     prompt_usage := prompt_usage s; session_usage := session_usage s;
     turn_capture := turn_capture s; harness_trace_buffer := harness_trace_buffer s;
     harness_trace_turns := harness_trace_turns s |}.
Definition set_prompt_usage (v : option UsageLedger) (s : ChatState) : ChatState :=
  {| conversation := conversation s; sampling_config := sampling_config s;
     prompt_index := prompt_index s; prompt_texts := prompt_texts s;
     total_tokens := total_tokens s; stream_start_ms := stream_start_ms s;
     turn_start_ms := turn_start_ms s; agent_edited_paths := agent_edited_paths s;
     last_compaction_prompt_index := last_compaction_prompt_index s;
     credentials := credentials s;
     estimated_tokens_since_model := estimated_tokens_since_model s;
     estimate_at_last_response := estimate_at_last_response s;
     last_turn_usage := last_turn_usage s; prompt_usage := v;
     session_usage := session_usage s; turn_capture := turn_capture s;
     harness_trace_buffer := harness_trace_buffer s;
     harness_trace_turns := harness_trace_turns s |}.
Definition set_session_usage (v : UsageLedger) (s : ChatState) : ChatState :=
  {| conversation := conversation s; sampling_config := sampling_config s;
     prompt_index := prompt_index s; prompt_texts := prompt_texts s;
     total_tokens := total_tokens s; stream_start_ms := stream_start_ms s;
     turn_start_ms := turn_start_ms s; agent_edited_paths := agent_edited_paths s;
     last_compaction_prompt_index := last_compaction_prompt_index s;
     credentials := credentials s;
     estimated_tokens_since_model := estimated_tokens_since_model s;
     estimate_at_last_response := estimate_at_last_response s;
     last_turn_usage := last_turn_usage s; prompt_usage := prompt_usage s;
     session_usage := v; turn_capture := turn_capture s;
     harness_trace_buffer := harness_trace_buffer s;
     harness_trace_turns := harness_trace_turns s |}.
Definition set_turn_capture (v : option TurnCaptureState) (s : ChatState) : ChatState :=
  {| conversation := conversation s; sampling_config := sampling_config s;
     prompt_index := prompt_index s; prompt_texts := prompt_texts s;
     total_tokens := total_tokens s; stream_start_ms := stream_start_ms s;
     turn_start_ms := turn_start_ms s; agent_edited_paths := agent_edited_paths s;
     last_compaction_prompt_index := last_compaction_prompt_index s;
     credentials := credentials s;
     estimated_tokens_since_model := estimated_tokens_since_model s;
     estimate_at_last_response := estimate_at_last_response s;
     last_turn_usage := last_turn_usage s; prompt_usage := prompt_usage s;
     session_usage := session_usage s; turn_capture := v;
     harness_trace_buffer := harness_trace_buffer s;
     harness_trace_turns := harness_trace_turns s |}.
Definition set_harness_trace_buffer (v : list ConversationItem) (s : ChatState) : ChatState :=
  {| conversation := conversation s; sampling_config := sampling_config s;
     prompt_index := prompt_index s; prompt_texts := prompt_texts s;
     total_tokens := total_tokens s; stream_start_ms := stream_start_ms s;
     turn_start_ms := turn_start_ms s; agent_edited_paths := agent_edited_paths s;
     last_compaction_prompt_index := last_compaction_prompt_index s;
     credentials := credentials s;
     estimated_tokens_since_model := estimated_tokens_since_model s;
     estimate_at_last_response := estimate_at_last_response s;
     last_turn_usage := last_turn_usage s; prompt_usage := prompt_usage s;
     session_usage := session_usage s; turn_capture := turn_capture s;
     harness_trace_buffer := v; harness_trace_turns := harness_trace_turns s |}.
Definition set_harness_trace_turns (v : list (list ConversationItem)) (s : ChatState) : ChatState :=
  {| conversation := conversation s; sampling_config := sampling_config s;
     prompt_index := prompt_index s; prompt_texts := prompt_texts s;
     total_tokens := total_tokens s; stream_start_ms := stream_start_ms s;
     turn_start_ms := turn_start_ms s; agent_edited_paths := agent_edited_paths s;
     last_compaction_prompt_index := last_compaction_prompt_index s;
     credentials := credentials s;
     estimated_tokens_since_model := estimated_tokens_since_model s;
     estimate_at_last_response := estimate_at_last_response s;
     last_turn_usage := last_turn_usage s; prompt_usage := prompt_usage s;
     session_usage := session_usage s; turn_capture := turn_capture s;
     harness_trace_buffer := harness_trace_buffer s; harness_trace_turns := v |}.

(** [ChatState::new] *)
Definition ChatState_new (conv : list ConversationItem) (config : SamplingConfig)
  : option ChatState :=
  let '(conv1, _) := dedup_duplicate_tool_results conv in
  let '(conv2, _) := repair_dangling_tool_calls conv1 UserCancelled in
  initial_tokens ← estimate_conversation_tokens conv2;
  Some {| conversation := conv2; sampling_config := config; prompt_index := 0;
          prompt_texts := []; total_tokens := initial_tokens;
          stream_start_ms := None; turn_start_ms := None; agent_edited_paths := ∅;
          last_compaction_prompt_index := None; credentials := credentials_default;
          estimated_tokens_since_model := 0;
          estimate_at_last_response := initial_tokens; last_turn_usage := None;
          prompt_usage := None; session_usage := ledger_default;
          turn_capture := None; harness_trace_buffer := [];
          harness_trace_turns := [] |}.

Definition seal_harness_trace_turn (s : ChatState) : ChatState :=
  if is_empty (harness_trace_buffer s) then s
  else set_harness_trace_turns (harness_trace_turns s ++ [harness_trace_buffer s])
         (set_harness_trace_buffer [] s).

Record ChatStateSnapshot := {
  snap_conversation : list ConversationItem;
  snap_sampling_config : SamplingConfig;
  snap_prompt_index : Z;
  snap_total_tokens : Z;
  snap_estimate_at_last_response : Z;
  snap_agent_edited_paths : gset str;
  snap_prompt_texts : list str;
  snap_stream_start_ms : option Z;
  snap_turn_start_ms : option Z;
  snap_last_compaction_prompt_index : option Z;
  snap_credentials : Credentials;
}.

(** The commands.  [RepairHistory]'s [turn_active] is the value the shared flag
    has when the command is processed. *)
Inductive ChatStateCommand : Type :=
| PushUserMessage (item : ConversationItem)
| PushUserMessageAndAck (item : ConversationItem)
| PushUserMessageWithRepairReason (item : ConversationItem) (reason : DanglingToolCallReason)
| PushAssistantResponse (item : ConversationItem)
| PushToolResult (item : ConversationItem)
| RecordTokenUsage (total : Z)
| RecordLastTurnUsage (usage : TokenUsage)
| RecordModelCallUsage (model_id : option str) (usage : TokenUsage)
    (duration_ms cost : option Z)
| RecordSubagentUsage (entries : list (str * UsageTotals)) (attribute_to_prompt inc : bool)
| MarkUsageIncomplete (prompt session : bool)
| IncrementPromptIndex
| UpdateSamplingConfig (config : SamplingConfig)
| RecordAgentEditedPath (path : str)
| RecordStreamStart (timestamp_ms : Z)
| RecordTurnStart (timestamp_ms : Z)
| ReplaceConversation (its : list ConversationItem) (is_compaction : bool)
| RepairHistory (dry_run : bool) (turn_active : option bool)
| ReplaceSystemHead (prompt : str)
| CachePromptText (text : str)
| RecordCompactionAt (index : Z)
| Flush
| UpdateCredentials (creds : Credentials)
| RestoreSnapshot (snap : ChatStateSnapshot)
| BeginTurnCapture
| AppendHarnessTraceItems (its : list ConversationItem)
| FlushHarnessTraceTurn
| RepairDanglingAfterHarnessHalt (class : str)
| BuildConversationRequest (tool_definitions : list ToolSpec) (memory_reminder : option str)
    (persist_memory_reminder : bool) (tr : option TraceContext) (conv_id req_id : str)
| GetConversation
| GetPromptIndex
| GetLastCompactionPromptIndex
| GetTotalTokens
| GetLastTurnUsage
| GetPromptUsage
| GetSessionUsage
| GetEstimatedTotalTokens
| GetEstimatedMessagesTokens
| GetSamplingConfig
| GetAgentEditedPaths
| GetNotificationMeta
| Snapshot
| TruncateToPromptIndex (target_prompt_index : Z)
| CheckAutoCompactNeeded (threshold_percent : Z)
| GetCredentials
| GetLastModelMetadata
| TakeTurnMessages
| TakeHarnessTraceTurns
| GetConversationLen
| HasDanglingToolCalls
| GetLastAssistantText
| GetFirstUserText
| GetConversationItemAt (index : nat)
| GetLastUserQueryText
| GetConversationCounts
| GetSystemMessage.

(** What a command sends on its reply channel. *)
Inductive Reply : Type :=
| NoReply
| Ack
| RRepair (r : result HistoryRepairReport unit)
| RBool (b : bool)
| RRequest (r : ConversationRequest)
| RItems (l : list ConversationItem)
| RIndex (z : Z)
| ROptIndex (z : option Z)
| RTokens (z : Z)
| RLastUsage (u : option TokenUsage)
| RPromptUsage (u : option UsageLedger)
| RSessionUsage (u : UsageLedger)
| RConfig (c : SamplingConfig)
| RPaths (p : gset str)
| RMeta (m : NotificationMeta)
| RSnapshot (s : ChatStateSnapshot)
| RTrigger (t : option AutoCompactTrigger)
| RCredentials (c : Credentials)
| RModel (m : ModelMetadata)
| RCapture (c : option TurnCapture)
| RTraces (l : list (list ConversationItem))
| RLen (n : nat)
| RText (t : option str)
| RItem (i : option ConversationItem)
| RCounts (c : ConversationCounts).

Record ChatStateActor := {
  state : ChatState;
  pruning_config : PruningConfig;
  persistence : list PersistenceRecord;
  event_log : list ChatStateEvent;
}.

Definition set_state (s : ChatState) (a : ChatStateActor) : ChatStateActor :=
  {| state := s; pruning_config := pruning_config a; persistence := persistence a;
     event_log := event_log a |}.
Definition persist (r : PersistenceRecord) (a : ChatStateActor) : ChatStateActor :=
  {| state := state a; pruning_config := pruning_config a;
     persistence := persistence a ++ [r]; event_log := event_log a |}.

(** A send on a closed channel is only logged, so every event is recorded. *)
Definition send_event (e : ChatStateEvent) (a : ChatStateActor) : ChatStateActor :=
  {| state := state a; pruning_config := pruning_config a; persistence := persistence a;
     event_log := event_log a ++ [e] |}.

Definition spawn_with_pruning (conv : list ConversationItem) (config : SamplingConfig)
    (pruning : PruningConfig) : option ChatStateActor :=
  s ← ChatState_new conv config;
  Some {| state := s; pruning_config := pruning; persistence := []; event_log := [] |}.

End State.
