(* ===== verification/Actor.v ===== *)
(** * The chat actor

    [xai-chat-state/src/actor/mutations.rs], [queries.rs],
    [request_builder.rs] and the dispatch of [mod.rs].  A handler maps the
    actor to the actor after it; [None] is a panic, which ends the process.

    Release builds skip [debug_assert!] and wrap plain additions; counters of
    items are natural numbers. *)
From S2P Require Import Prelude RustStr F64 TokenEstimation Conversation Sampling ToolPairing.
From S2P Require Import Usage RequestBuilder State.

Section Actor.
Context {RS : RsApi} {SJ : SerdeJson}.
Implicit Types (a : ChatStateActor) (s : ChatState).

Definition modify (f : ChatState → ChatState) a : ChatStateActor := set_state (f (state a)) a.

(** ** Turn capture *)

(** [turn_tail]: [conversation.get(offset..)], or the empty slice. *)
Definition turn_tail (conv : list ConversationItem) (offset : nat) : list ConversationItem :=
  if (offset <=? length conv)%nat then drop offset conv else [].

Definition snapshot_turn_slice s : ChatState :=
  match turn_capture s with
  | Some cap =>
      set_turn_capture
        (Some {| turn_start_offset := turn_start_offset cap;
                 pre_replacement_messages :=
                   pre_replacement_messages cap
                   ++ turn_tail (conversation s) (turn_start_offset cap);
                 compaction_occurred := compaction_occurred cap |}) s
  | None => s
  end.

Definition rebase_turn_capture_offset s : ChatState :=
  match turn_capture s with
  | Some cap =>
      set_turn_capture
        (Some {| turn_start_offset := length (conversation s);
                 pre_replacement_messages := pre_replacement_messages cap;
                 compaction_occurred := compaction_occurred cap |}) s
  | None => s
  end.

(** ** Integrity *)

Definition ensure_conversation_integrity_with_reason (reason : DanglingToolCallReason) a
  : ChatStateActor :=
  let a := modify snapshot_turn_slice a in
  let '(conv1, deduped) := dedup_duplicate_tool_results (conversation (state a)) in
  let '(conv2, repaired) := repair_dangling_tool_calls conv1 reason in
  let a := modify (set_conversation conv2) a in
  let a :=
    if (0 <? repaired)%nat || (0 <? deduped)%nat
    then persist (ReplaceHistory (conversation (state a))) a else a in
  modify rebase_turn_capture_offset a.

Definition ensure_conversation_integrity a : ChatStateActor :=
  ensure_conversation_integrity_with_reason UserCancelled a.

Definition repair_dangling_after_harness_halt (class : str) a : ChatStateActor :=
  ensure_conversation_integrity_with_reason (HarnessHalted class) a.

(** ** Replacement *)

(** The reseeded total of [replace_conversation]. *)
Definition reseed_tokens (is_compaction : bool)
    (pre_replace_total estimate_at_last base_estimate : Z) : Z :=
  let estimated :=
    if is_compaction && (0 <? pre_replace_total)%Z && (0 <? estimate_at_last)%Z then
      let ratio := f64_div (f64_of_Z pre_replace_total) (f64_of_Z estimate_at_last) in
      f64_round_as U64_MAX (f64_mul (f64_of_Z base_estimate) ratio)
    else base_estimate in
  if is_compaction && (0 <? pre_replace_total)%Z
  then Z.min estimated pre_replace_total else estimated.

Definition mark_compaction s : ChatState :=
  match turn_capture s with
  | Some cap =>
      set_turn_capture
        (Some {| turn_start_offset := turn_start_offset cap;
                 pre_replacement_messages := pre_replacement_messages cap;
                 compaction_occurred := true |}) s
  | None => s
  end.

Definition replace_conversation (its : list ConversationItem) (is_compaction : bool) a
  : option ChatStateActor :=
  let a := modify snapshot_turn_slice a in
  let a := if is_compaction then modify mark_compaction a else a in
  let pre_replace_total := total_tokens (state a) in
  let a := persist (ReplaceHistory its) a in
  base_estimate ← estimate_conversation_tokens its;
  let estimated_tokens :=
    reseed_tokens is_compaction pre_replace_total
      (estimate_at_last_response (state a)) base_estimate in
  let a := modify (set_conversation its) a in
  let a := modify (set_estimated_tokens_since_model 0%Z) a in
  let a := modify (set_total_tokens estimated_tokens) a in
  e ← estimate_conversation_tokens (conversation (state a));
  let a := modify (set_estimate_at_last_response e) a in
  let a := modify rebase_turn_capture_offset a in
  let a := send_event (ConversationReset (length (conversation (state a)))) a in
  Some (send_event (TokensUpdated estimated_tokens) a).

(** The actor's [repair_history]: [mem::take] empties the conversation before
    the pass runs. *)
Definition actor_repair_history (dry_run : bool) a
  : option (ChatStateActor * HistoryRepairReport) :=
  if dry_run then Some (a, (repair_history (conversation (state a))).2)
  else
    let its := conversation (state a) in
    let a := modify (set_conversation []) a in
    let '(its, report) := repair_history its in
    if report_changed report
    then a ← replace_conversation its false a; Some (a, report)
    else Some (modify (set_conversation its) a, report).

Definition replace_system_head (prompt : str) a : option (ChatStateActor * bool) :=
  let matches :=
    match conversation (state a) with
    | System sys :: _ => canonical_system_prompt_eq (sys_content sys) prompt
    | _ => false
    end in
  if matches then Some (a, false)
  else
    let '(conv, changed) := replace_or_insert_system_head (conversation (state a)) prompt in
    a ← replace_conversation conv false a;
    Some (a, changed).

(** ** Pushing *)

Definition add_estimate (t : Z) s : ChatState :=
  set_estimated_tokens_since_model (wrapping_add (estimated_tokens_since_model s) t) s.

Definition is_assistant (i : ConversationItem) : bool :=
  match i with Assistant _ => true | _ => false end.

Definition push_item (item : ConversationItem) a : ChatStateActor :=
  let a := persist (Message item) a in
  modify (λ s, set_conversation (conversation s ++ [item]) s) a.

Definition push_message (item : ConversationItem) a : option ChatStateActor :=
  a ← (if is_assistant item then Some a
       else t ← estimate_item_tokens item; Some (modify (add_estimate t) a));
  Some (push_item item a).

(** [conversation_content_bytes]; [None] is the panic of [text_summary]. *)
Definition item_content_bytes (i : ConversationItem) : option Z :=
  match i with
  | System sys => Some (str_len (sys_content sys))
  | User u =>
      Some (foldr Z.add 0%Z
        (map (λ p, match p with Text t => str_len t | Image url => str_len url end)
             (u_content u)))
  | Assistant asst => Some (str_len (a_content asst))
  | ToolResult tr => Some (str_len (tr_content tr))
  | BackendToolCall b => str_len <$> text_summary b
  | Reasoning r =>
      Some (str_len (reasoning_item_text r)
            + match ri_encrypted_content r with Some e => str_len e | None => 0 end)%Z
  end.
Definition conversation_content_bytes (conv : list ConversationItem) : option Z :=
  foldl (λ acc i, b ← acc; t ← item_content_bytes i; Some (b + t)%Z) (Some 0%Z) conv.

(** The backward loop of [prune_retained_conversation], over the conversation
    from its end: the items and the number cleared. *)
Fixpoint hard_clear_loop (threshold turn_from_end : Z) (seen_first_user : bool)
    (rev_items : list ConversationItem) : list ConversationItem * nat :=
  match rev_items with
  | [] => ([], 0%nat)
  | User u :: rest =>
      let '(l, n) :=
        hard_clear_loop threshold
          (if seen_first_user then turn_from_end + 1 else turn_from_end)%Z true rest in
      (User u :: l, n)
  | ToolResult t :: rest =>
      let '(l, n) := hard_clear_loop threshold turn_from_end seen_first_user rest in
      if (turn_from_end <? threshold)%Z then (ToolResult t :: l, n)
      else if str_eqb (tr_content t) HARD_CLEAR_PLACEHOLDER then (ToolResult t :: l, n)
      else (ToolResult (set_tr_content t HARD_CLEAR_PLACEHOLDER) :: l, S n)
  | item :: rest =>
      let '(l, n) := hard_clear_loop threshold turn_from_end seen_first_user rest in
      (item :: l, n)
  end.

Definition count_users (conv : list ConversationItem) : Z :=
  Z.of_nat (length (base.filter (λ i, is_user i = true) conv)).

Definition prune_retained_conversation a : option ChatStateActor :=
  let cfg := pruning_config a in
  let s := state a in
  if negb (enabled cfg) then Some a
  else if (prompt_index s <? hard_clear_age_turns cfg)%Z then Some a
  else
    let synthetic_count := saturating_sub (count_users (conversation s)) (prompt_index s) in
    let effective_threshold := saturating_add (hard_clear_age_turns cfg) synthetic_count in
    _ ← conversation_content_bytes (conversation s);
    let '(rev_items, cleared) :=
      hard_clear_loop effective_threshold 0 false (rev (conversation s)) in
    let a := modify (set_conversation (rev rev_items)) a in
    if (0 <? cleared)%nat then
      _ ← conversation_content_bytes (conversation (state a));
      Some (persist (ReplaceHistory (conversation (state a))) a)
    else Some a.

Definition push_user_message_with_repair_reason (item : ConversationItem)
    (reason : DanglingToolCallReason) a : option ChatStateActor :=
  let a := ensure_conversation_integrity_with_reason reason a in
  t ← estimate_item_tokens item;
  let a := modify (add_estimate t) a in
  prune_retained_conversation (push_item item a).

Definition push_user_message (item : ConversationItem) a : option ChatStateActor :=
  push_user_message_with_repair_reason item UserCancelled a.

(** ** Usage *)

Definition record_token_usage (total : Z) a : option ChatStateActor :=
  let a := modify (set_estimated_tokens_since_model 0%Z) a in
  e ← estimate_conversation_tokens (conversation (state a));
  let a := modify (set_estimate_at_last_response e) a in
  let a := modify (set_total_tokens total) a in
  Some (send_event (TokensUpdated total) a).

Definition record_last_turn_usage (usage : TokenUsage) a : ChatStateActor :=
  modify (set_last_turn_usage (Some usage)) a.

Definition record_model_call_usage (model_id : option str) (usage : TokenUsage)
    (duration_ms cost : option Z) a : ChatStateActor :=
  let model_key :=
    match model_id with
    | Some id => if is_empty id then model (sampling_config (state a)) else id
    | None => model (sampling_config (state a))
    end in
  let a :=
    modify (λ s, set_prompt_usage
      (Some (record_main_loop_call (default ledger_default (prompt_usage s)) model_key
               usage duration_ms cost)) s) a in
  modify (λ s, set_session_usage
    (record_main_loop_call (session_usage s) model_key usage duration_ms cost) s) a.

Definition record_subagent_usage (entries : list (str * UsageTotals))
    (attribute_to_prompt inc : bool) a : ChatStateActor :=
  if is_empty entries && negb inc then a
  else
    let a :=
      if attribute_to_prompt then
        modify (λ s, set_prompt_usage
          (Some (record_subagent (default ledger_default (prompt_usage s)) entries inc)) s) a
      else a in
    modify (λ s, set_session_usage (record_subagent (session_usage s) entries inc) s) a.

Definition mark_usage_incomplete (prompt session : bool) a : ChatStateActor :=
  let a :=
    if prompt then
      modify (λ s, set_prompt_usage
        (Some (mark_incomplete (default ledger_default (prompt_usage s)))) s) a
    else a in
  if session then modify (λ s, set_session_usage (mark_incomplete (session_usage s)) s) a
  else a.

Definition increment_prompt_index a : ChatStateActor :=
  let a := modify (set_prompt_usage None) a in
  let a := modify (λ s, set_prompt_index (wrapping_add (prompt_index s) 1) s) a in
  send_event (PromptIndexChanged (prompt_index (state a))) a.

(** ** Snapshots and rewind *)

Definition snapshot s : ChatStateSnapshot :=
  {| snap_conversation := conversation s; snap_sampling_config := sampling_config s;
     snap_prompt_index := prompt_index s; snap_total_tokens := total_tokens s;
     snap_estimate_at_last_response := estimate_at_last_response s;
     snap_agent_edited_paths := agent_edited_paths s; snap_prompt_texts := prompt_texts s;
     snap_stream_start_ms := stream_start_ms s; snap_turn_start_ms := turn_start_ms s;
     snap_last_compaction_prompt_index := last_compaction_prompt_index s;
     snap_credentials := credentials s |}.

Definition restore_snapshot (snap : ChatStateSnapshot) a : option ChatStateActor :=
  let a := modify snapshot_turn_slice a in
  let a := modify (set_conversation (snap_conversation snap)) a in
  let a := modify rebase_turn_capture_offset a in
  let a := modify (set_sampling_config (snap_sampling_config snap)) a in
  let a := modify (set_prompt_index (snap_prompt_index snap)) a in
  let a := modify (set_total_tokens (snap_total_tokens snap)) a in
  let a := modify (set_estimated_tokens_since_model 0%Z) a in
  e ← (if (0 <? snap_estimate_at_last_response snap)%Z
       then Some (snap_estimate_at_last_response snap)
       else estimate_conversation_tokens (conversation (state a)));
  let a := modify (set_estimate_at_last_response e) a in
  let a := modify (set_agent_edited_paths (snap_agent_edited_paths snap)) a in
  let a := modify (set_prompt_texts (snap_prompt_texts snap)) a in
  let a := modify (set_stream_start_ms (snap_stream_start_ms snap)) a in
  let a := modify (set_turn_start_ms (snap_turn_start_ms snap)) a in
  let a := modify (set_last_compaction_prompt_index
                     (snap_last_compaction_prompt_index snap)) a in
  let a := modify (set_credentials (snap_credentials snap)) a in
  Some (modify (set_prompt_usage None) a).

(** The search for the [target]-th user item. *)
Fixpoint find_user_turn (conv : list ConversationItem) (i : nat) (user_count target : Z) : nat :=
  match conv with
  | [] => i
  | User _ :: rest =>
      if (user_count =? target)%Z then i
      else find_user_turn rest (S i) (user_count + 1) target
  | _ :: rest => find_user_turn rest (S i) user_count target
  end.

Definition truncate_to_prompt_index (target : Z) a : option ChatStateActor :=
  let s := state a in
  if (prompt_index s <=? target)%Z then Some a
  else
    let truncate_at := find_user_turn (conversation s) 0 0 target in
    let a := modify (set_conversation (take truncate_at (conversation s))) a in
    let a := modify (set_prompt_texts (take (Z.to_nat target) (prompt_texts s))) a in
    let a := modify (set_prompt_index target) a in
    e ← estimate_conversation_tokens (conversation (state a));
    let a := modify (set_total_tokens e) a in
    let a := modify (set_estimated_tokens_since_model 0%Z) a in
    let a := modify (set_estimate_at_last_response e) a in
    let a := persist (ReplaceHistory (conversation (state a))) a in
    Some (send_event (ConversationReset (length (conversation (state a)))) a).

(** ** Queries *)

Definition get_notification_meta s : NotificationMeta :=
  {| nm_stream_start_ms := stream_start_ms s; nm_turn_start_ms := turn_start_ms s |}.

Definition check_auto_compact_needed (threshold_percent : Z) s : option AutoCompactTrigger :=
  let cw := context_window (sampling_config s) in
  if exceeds_threshold (total_tokens s) cw threshold_percent then
    Some {| act_total_tokens := total_tokens s; act_context_window := cw;
            utilization_percent := usage_percentage_truncated_u8 (total_tokens s) cw |}
  else None.

(** [iter().rev().find_map(f)] and [iter().find_map(f)] *)
Definition find_map {A B} (f : A → option B) (l : list A) : option B := head (omap f l).

Definition get_last_model_metadata s : ModelMetadata :=
  default {| resolved_model_id := None; mm_model_fingerprint := None |}
    (find_map (λ i, match i with
                    | Assistant asst =>
                        Some {| resolved_model_id := a_model_id asst;
                                mm_model_fingerprint := a_model_fingerprint asst |}
                    | _ => None
                    end) (rev (conversation s))).

Definition get_last_assistant_text s : option str :=
  find_map (λ i, match i with
                 | Assistant asst =>
                     if is_empty (trim (a_content asst)) then None else Some (a_content asst)
                 | _ => None
                 end) (rev (conversation s)).

Definition get_first_user_text s : option str :=
  find_map (λ i, match i with
                 | User u => match u_content u with Text t :: _ => Some t | _ => None end
                 | _ => None
                 end) (conversation s).

Definition get_conversation_counts s : ConversationCounts :=
  foldl (λ c i,
    match i with
    | User _ => {| cc_total := cc_total c; cc_user := S (cc_user c);
                   cc_assistant := cc_assistant c; cc_tool_result := cc_tool_result c |}
    | Assistant _ => {| cc_total := cc_total c; cc_user := cc_user c;
                        cc_assistant := S (cc_assistant c);
                        cc_tool_result := cc_tool_result c |}
    | ToolResult _ => {| cc_total := cc_total c; cc_user := cc_user c;
                         cc_assistant := cc_assistant c;
                         cc_tool_result := S (cc_tool_result c) |}
    | System _ | BackendToolCall _ | Reasoning _ => c
    end)
    {| cc_total := length (conversation s); cc_user := 0; cc_assistant := 0;
       cc_tool_result := 0 |} (conversation s).

Definition get_system_message s : option ConversationItem :=
  find_map (λ i, if is_system i then Some i else None) (conversation s).

(** ** Building a request *)

(** The in-place injection of a reminder that is to be persisted. *)
Definition persist_reminder (memory_reminder : option str) (persist_memory_reminder : bool) a
  : ChatStateActor * option str :=
  match memory_reminder with
  | Some reminder =>
      if persist_memory_reminder then
        let a := modify snapshot_turn_slice a in
        let '(conv, injected) := inject_memory_reminder (conversation (state a)) reminder in
        let a := modify (set_conversation conv) a in
        let a := if injected then persist (ReplaceHistory (conversation (state a))) a else a in
        (modify rebase_turn_capture_offset a, if injected then None else Some reminder)
      else (a, Some reminder)
  | None => (a, None)
  end.

(** The working copy and the eviction that ran on it. *)
Definition request_items (conv : list ConversationItem) (needs_prune : bool)
    (body_bytes : Z) (memory_reminder : option str) (config : PruningConfig)
  : list ConversationItem * option ImageEvictionOutcome :=
  let needs_image_compaction := (IMAGE_COMPACT_TRIGGER_BYTES <=? body_bytes)%Z in
  let '(its, eviction) :=
    if needs_image_compaction then
      let '(its, o) :=
        compact_images_to_byte_budget conv body_bytes IMAGE_COMPACT_RECLAIM_TARGET_BYTES in
      (its, Some o)
    else (conv, None) in
  let its := if needs_prune then prune_conversation its config else its in
  let its :=
    match memory_reminder with
    | Some reminder => (inject_memory_reminder its reminder).1
    | None => its
    end in
  (its, eviction).

Definition build_conversation_request (tool_definitions : list ToolSpec)
    (memory_reminder : option str) (persist_memory_reminder : bool)
    (tr : option TraceContext) (conv_id req_id : str) a
  : ChatStateActor * ConversationRequest :=
  let config := sampling_config (state a) in
  let needs_prune := should_prune (total_tokens (state a)) (context_window config) in
  let '(a, memory_reminder) := persist_reminder memory_reminder persist_memory_reminder a in
  let conv := conversation (state a) in
  let body_bytes := conversation_body_bytes conv in
  let inline := inline_image_count conv in
  let needs_image_compaction := (IMAGE_COMPACT_TRIGGER_BYTES <=? body_bytes)%Z in
  let '(its, eviction) :=
    request_items conv needs_prune body_bytes memory_reminder (pruning_config a) in
  let a :=
    if (0 <? inline)%nat then
      send_event
        (ImageBudget body_bytes IMAGE_COMPACT_TRIGGER_BYTES IMAGE_COMPACT_RECLAIM_TARGET_BYTES
           inline needs_image_compaction
           (match eviction with Some o => evicted o | None => 0%nat end)
           (match eviction with Some o => body_bytes_after o | None => body_bytes end)) a
    else a in
  (a, {| items := its; tools := tool_definitions; hosted_tools := []; tool_choice := None;
         request_model := Some (model config); request_temperature := temperature config;
         max_output_tokens := max_completion_tokens config; request_top_p := top_p config;
         x_grok_conv_id := Some conv_id; x_grok_req_id := Some req_id;
         x_grok_session_id := None; x_grok_turn_idx := None; x_grok_agent_id := None;
         x_grok_deployment_id := None; x_grok_user_id := None; trace := tr;
         request_reasoning_effort := reasoning_effort config; json_schema := None |}).

(** ** Dispatch *)

Definition reply_with {A} (f : A → Reply) (r : option (ChatStateActor * A))
  : option (ChatStateActor * Reply) :=
  '(a, x) ← r; Some (a, f x).
Definition no_reply (r : option ChatStateActor) : option (ChatStateActor * Reply) :=
  a ← r; Some (a, NoReply).

Definition take_turn_messages a : ChatStateActor * option TurnCapture :=
  let s := state a in
  (modify (set_turn_capture None) a,
   (λ cap, {| tc_messages := pre_replacement_messages cap
                ++ turn_tail (conversation s) (turn_start_offset cap);
              tc_compaction_occurred := compaction_occurred cap |})
     <$> turn_capture s).

Definition handle_command (cmd : ChatStateCommand) a : option (ChatStateActor * Reply) :=
  let s := state a in
  match cmd with
  | PushUserMessage item => no_reply (push_user_message item a)
  | PushUserMessageAndAck item => a ← push_user_message item a; Some (a, Ack)
  | PushUserMessageWithRepairReason item reason =>
      no_reply (push_user_message_with_repair_reason item reason a)
  | PushAssistantResponse item => no_reply (push_message item a)
  | PushToolResult item => no_reply (push_message item a)
  | RecordTokenUsage total => no_reply (record_token_usage total a)
  | RecordLastTurnUsage usage => Some (record_last_turn_usage usage a, NoReply)
  | RecordModelCallUsage id usage d c =>
      Some (record_model_call_usage id usage d c a, NoReply)
  | RecordSubagentUsage entries attr inc =>
      Some (record_subagent_usage entries attr inc a, Ack)
  | MarkUsageIncomplete prompt session =>
      Some (mark_usage_incomplete prompt session a, Ack)
  | IncrementPromptIndex => Some (increment_prompt_index a, NoReply)
  | UpdateSamplingConfig config => Some (modify (set_sampling_config config) a, NoReply)
  | RecordAgentEditedPath path =>
      Some (modify (set_agent_edited_paths ({[path]} ∪ agent_edited_paths s)) a, NoReply)
  | RecordStreamStart t => Some (modify (set_stream_start_ms (Some t)) a, NoReply)
  | RecordTurnStart t => Some (modify (set_turn_start_ms (Some t)) a, NoReply)
  | ReplaceConversation its is_compaction =>
      no_reply (replace_conversation its is_compaction a)
  | RepairHistory dry_run turn_active =>
      if default false turn_active then Some (a, RRepair (Err tt))
      else reply_with (λ r, RRepair (Ok r)) (actor_repair_history dry_run a)
  | ReplaceSystemHead prompt => reply_with RBool (replace_system_head prompt a)
  | CachePromptText text =>
      Some (modify (set_prompt_texts (prompt_texts s ++ [text])) a, NoReply)
  | RecordCompactionAt index =>
      Some (modify (set_last_compaction_prompt_index (Some index)) a, NoReply)
  | Flush => Some (persist FlushRecord a, NoReply)
  | UpdateCredentials creds => Some (modify (set_credentials creds) a, NoReply)
  | RestoreSnapshot snap => no_reply (restore_snapshot snap a)
  | BeginTurnCapture =>
      Some (modify (set_turn_capture
              (Some {| turn_start_offset := length (conversation s);
                       pre_replacement_messages := [];
                       compaction_occurred := false |})) a, NoReply)
  | AppendHarnessTraceItems its =>
      Some (modify (set_harness_trace_buffer (harness_trace_buffer s ++ its)) a, NoReply)
  | FlushHarnessTraceTurn => Some (modify seal_harness_trace_turn a, NoReply)
  | RepairDanglingAfterHarnessHalt class =>
      Some (repair_dangling_after_harness_halt class a, NoReply)
  | BuildConversationRequest td mr pmr tr conv_id req_id =>
      let a := ensure_conversation_integrity a in
      let '(a, request) := build_conversation_request td mr pmr tr conv_id req_id a in
      Some (a, RRequest request)
  | GetConversation => Some (a, RItems (conversation s))
  | GetPromptIndex => Some (a, RIndex (prompt_index s))
  | GetLastCompactionPromptIndex => Some (a, ROptIndex (last_compaction_prompt_index s))
  | GetTotalTokens => Some (a, RTokens (total_tokens s))
  | GetLastTurnUsage => Some (a, RLastUsage (last_turn_usage s))
  | GetPromptUsage => Some (a, RPromptUsage (prompt_usage s))
  | GetSessionUsage => Some (a, RSessionUsage (session_usage s))
  | GetEstimatedTotalTokens =>
      Some (a, RTokens (wrapping_add (total_tokens s) (estimated_tokens_since_model s)))
  | GetEstimatedMessagesTokens =>
      t ← estimate_messages_tokens (conversation s); Some (a, RTokens t)
  | GetSamplingConfig => Some (a, RConfig (sampling_config s))
  | GetAgentEditedPaths => Some (a, RPaths (agent_edited_paths s))
  | GetNotificationMeta => Some (a, RMeta (get_notification_meta s))
  | Snapshot => Some (a, RSnapshot (snapshot s))
  | TruncateToPromptIndex target =>
      a ← truncate_to_prompt_index target a;
      Some (modify (set_prompt_usage None) (modify (set_turn_capture None) a), Ack)
  | CheckAutoCompactNeeded threshold =>
      Some (a, RTrigger (check_auto_compact_needed threshold s))
  | GetCredentials => Some (a, RCredentials (credentials s))
  | GetLastModelMetadata => Some (a, RModel (get_last_model_metadata s))
  | TakeTurnMessages =>
      let '(a, c) := take_turn_messages a in Some (a, RCapture c)
  | TakeHarnessTraceTurns =>
      let a := modify seal_harness_trace_turn a in
      Some (modify (set_harness_trace_turns []) a, RTraces (harness_trace_turns (state a)))
  | GetConversationLen => Some (a, RLen (length (conversation s)))
  | HasDanglingToolCalls => Some (a, RBool (has_dangling_tool_calls (conversation s)))
  | GetLastAssistantText => Some (a, RText (get_last_assistant_text s))
  | GetFirstUserText => Some (a, RText (get_first_user_text s))
  | GetConversationItemAt index => Some (a, RItem (conversation s !! index))
  | GetLastUserQueryText =>
      q ← extract_last_user_query (conversation s); Some (a, RText q)
  | GetConversationCounts => Some (a, RCounts (get_conversation_counts s))
  | GetSystemMessage => Some (a, RItem (get_system_message s))
  end.

(** The actor loop on a sequence of commands. *)
Fixpoint run (cmds : list ChatStateCommand) a : option ChatStateActor :=
  match cmds with
  | [] => Some a
  | cmd :: cmds' => '(a', _) ← handle_command cmd a; run cmds' a'
  end.

End Actor.
