(* ===== verification/Demo.v ===== *)
(** * A concrete actor

    Sizes and an actor for the examples and witnesses of the actor's
    theorems. *)
From S2P Require Import Prelude RustStr TokenEstimation Conversation Sampling Concrete.
From S2P Require Import ToolPairing Usage RequestBuilder State Actor.

(** Sizes that count text bytes and two framing bytes per part. *)
#[global] Instance concrete_serde : SerdeJson := {
  json_part_bytes p := match p with Text t => str_len t + 25 | Image u => str_len u + 25 end%Z;
  json_conversation_bytes c :=
    foldr Z.add 2%Z (map (λ i, default 0%Z (item_content_bytes i)) c);
}.

Definition demo_config : SamplingConfig :=
  {| base_url := lit "https://api"; model := lit "grok"; max_completion_tokens := None;
     temperature := None; top_p := None; api_backend := Responses; extra_headers := [];
     context_window := 1000%Z; reasoning_effort := None; stream_tool_calls := None |}.

(** An actor in the middle of a session, with the given conversation. *)
Definition demo_actor (conv : list ConversationItem) : ChatStateActor :=
  {| state :=
       {| conversation := conv; sampling_config := demo_config; prompt_index := 1;
          prompt_texts := [lit "q"]; total_tokens := 900; stream_start_ms := None;
          turn_start_ms := None; agent_edited_paths := ∅;
          last_compaction_prompt_index := None; credentials := credentials_default;
          estimated_tokens_since_model := 0; estimate_at_last_response := 450;
          last_turn_usage := None; prompt_usage := None; session_usage := ledger_default;
          turn_capture := None; harness_trace_buffer := []; harness_trace_turns := [] |};
     pruning_config := pruning_default; persistence := []; event_log := [] |}.

Definition demo_build : ChatStateCommand :=
  BuildConversationRequest [] (Some (lit "<memory-context>m</memory-context>")) true None
    (lit "conv") (lit "req").

(** An image-first user message is passed over, not answered with [None]. *)
Theorem first_user_text_scans_on :
  let image_first := User {| u_content := [Image (lit "data:image/png;base64,AA");
      Text (lit "look")]; u_synthetic_reason := None; u_prior_turn_interrupt := None;
      u_prompt_index := None |} in
  get_first_user_text (state (demo_actor [image_first; item_user (lit "second")]))
  = Some (lit "second").
Proof. by vm_compute. Qed.

(** The images of a tool result are estimated at nothing, a user's at 765
    tokens each. *)
Theorem tool_result_images_uncounted :
  let image := Image (lit "data:image/png;base64,AA") in
  estimate_item_tokens (ToolResult {| tr_tool_call_id := lit "c"; tr_content := [];
    tr_images := [image] |}) = Some 0%Z ∧
  estimate_item_tokens (User {| u_content := [image]; u_synthetic_reason := None;
    u_prior_turn_interrupt := None; u_prompt_index := None |}) = Some 765%Z.
Proof. by vm_compute. Qed.
