(* ===== verification/ActorLemmas.v ===== *)
(** * The chat actor: lemmas

    Tool pairing looks at call ids and result ids only.  A pass that keeps the
    skeleton of every item keeps [calls_answered] and [results_unique]; pruning,
    image eviction and the memory reminder are such passes.  Then what each
    handler does to the conversation, to the turn capture and to the persistence
    log, in a form the theorems of the later files share. *)
From S2P Require Import Prelude RustStr F64 TokenEstimation Conversation Sampling ToolPairing.
From S2P Require Import ToolPairingFacts HistoryRepair Usage RequestBuilder State Actor.

Inductive Skel : Type :=
| SkCalls (ids : list str)
| SkResult (id : str)
| SkOther (system : bool).

Section Skeleton.
Context {RS : RsApi}.
Implicit Types (conv : list ConversationItem).

Definition skeleton (i : ConversationItem) : Skel :=
  match i with
  | Assistant a => SkCalls (call_ids a)
  | ToolResult t => SkResult (tr_tool_call_id t)
  | i => SkOther (is_system i)
  end.

Definition same_skeleton conv conv' : Prop := map skeleton conv = map skeleton conv'.

#[global] Instance same_skeleton_equiv : Equivalence same_skeleton.
Proof. unfold same_skeleton. split; [done|by intros ??|]. intros ???. congruence. Qed.

Lemma same_skeleton_cons_inv x conv conv' :
  same_skeleton (x :: conv) conv' →
  ∃ y rest, conv' = y :: rest ∧ skeleton x = skeleton y ∧ same_skeleton conv rest.
Proof.
  unfold same_skeleton. destruct conv' as [|y rest]; simpl; [done|].
  intros [= E1 E2]. by exists y, rest.
Qed.

Lemma skeleton_run_ids conv conv' : same_skeleton conv conv' → run_ids conv = run_ids conv'.
Proof.
  revert conv'. induction conv as [|x conv IH]; intros conv' Hs.
  { destruct conv'; done. }
  apply same_skeleton_cons_inv in Hs as (y & rest & -> & E & Hs).
  destruct x, y; simplify_eq/=; try done. rewrite E. f_equal. by apply IH.
Qed.

(** Any property of assistant items that reads only call ids and the run of
    results transfers. *)
Lemma skeleton_at_assistants (Q : list str → list str → Prop) conv conv' :
  same_skeleton conv conv' →
  at_assistants (λ a rest, Q (call_ids a) (run_ids rest)) conv →
  at_assistants (λ a rest, Q (call_ids a) (run_ids rest)) conv'.
Proof.
  revert conv'. induction conv as [|x conv IH]; intros conv' Hs Hc.
  { destruct conv'; done. }
  apply same_skeleton_cons_inv in Hs as (y & rest & -> & E & Hs).
  apply at_assistants_cons in Hc as [Hx Hc]. apply at_assistants_cons. split; [|by apply IH].
  intros a ->. destruct x; simplify_eq/=. rewrite <- E.
  rewrite <- (skeleton_run_ids _ _ Hs). by apply (Hx a0).
Qed.

Lemma skeleton_calls_answered conv conv' :
  same_skeleton conv conv' → calls_answered conv → calls_answered conv'.
Proof.
  apply (skeleton_at_assistants (λ calls run, ∀ id, id ∈ calls → id ∈ run)).
Qed.

Lemma results_unique_at conv :
  results_unique conv
  ↔ at_assistants (λ a rest, call_ids a ≠ [] → NoDup (run_ids rest)) conv.
Proof.
  unfold results_unique, at_assistants, call_ids.
  split; intros Hu pre a rest E Hne; apply (Hu pre a rest E); destruct (a_tool_calls a); done.
Qed.

Lemma skeleton_results_unique conv conv' :
  same_skeleton conv conv' → results_unique conv → results_unique conv'.
Proof.
  rewrite !results_unique_at. apply (skeleton_at_assistants (λ calls run, calls ≠ [] → NoDup run)).
Qed.

#[global] Instance calls_answered_proper : Proper (same_skeleton ==> iff) calls_answered.
Proof. intros c c' Hs. split; apply skeleton_calls_answered; [done|by symmetry]. Qed.
#[global] Instance results_unique_proper : Proper (same_skeleton ==> iff) results_unique.
Proof. intros c c' Hs. split; apply skeleton_results_unique; [done|by symmetry]. Qed.

Lemma calls_answered_cons_other item conv :
  (∀ a, item ≠ Assistant a) → calls_answered (item :: conv) ↔ calls_answered conv.
Proof. apply (at_assistants_skip (λ a rest, ∀ id, id ∈ call_ids a → id ∈ run_ids rest)). Qed.

Lemma results_unique_cons_other item conv :
  (∀ a, item ≠ Assistant a) → results_unique (item :: conv) ↔ results_unique conv.
Proof. apply (at_assistants_skip (λ a rest, a_tool_calls a ≠ [] → NoDup (run_ids rest))). Qed.

(** ** Passes that keep skeletons *)

Lemma prune_loop_skeleton age seen its config :
  same_skeleton (prune_loop age seen its config) its.
Proof.
  unfold same_skeleton. revert age seen.
  induction its as [|[] its IH]; intros age seen; simpl; try done; rewrite IH; try done.
  f_equal. unfold prune_tool_result. repeat case_match; done.
Qed.

Lemma same_skeleton_rev conv conv' :
  same_skeleton conv conv' → same_skeleton (rev conv) (rev conv').
Proof. unfold same_skeleton. rewrite !map_rev. congruence. Qed.

Lemma prune_conversation_skeleton conv config :
  same_skeleton (prune_conversation conv config) conv.
Proof.
  unfold prune_conversation. destruct (enabled config); [|done].
  rewrite <- (rev_involutive conv) at 2. apply same_skeleton_rev, prune_loop_skeleton.
Qed.

Lemma insert_skeleton conv i x y :
  conv !! i = Some x → skeleton x = skeleton y → same_skeleton (<[i := y]> conv) conv.
Proof.
  intros Hi E. unfold same_skeleton. change (skeleton <$> <[i := y]> conv = skeleton <$> conv).
  rewrite list_fmap_insert. apply list_insert_id. rewrite list_lookup_fmap, Hi. simpl. by rewrite E.
Qed.

Lemma evict_loop_skeleton images conv running target ph n :
  same_skeleton (evict_loop images conv running target ph n).1 conv.
Proof.
  revert conv running n. induction images as [|[[i j] b] images IH]; intros conv running n; simpl; [done|].
  repeat case_match; try done; try apply IH.
  etrans; [apply IH|]. eapply insert_skeleton; [done|done].
Qed.

Lemma compact_images_skeleton {SJ : SerdeJson} conv current target :
  same_skeleton (compact_images_to_byte_budget conv current target).1 conv.
Proof.
  unfold compact_images_to_byte_budget. case_match; [done|]. apply evict_loop_skeleton.
Qed.

Lemma inject_pairing (P : list ConversationItem → Prop) conv reminder :
  (∀ c c', same_skeleton c c' → P c → P c') →
  (∀ sys c, P c → P (System sys :: c)) →
  P conv → P (inject_memory_reminder conv reminder).1.
Proof.
  intros Hskel Hcons Hp. unfold inject_memory_reminder. case_match; [done|].
  destruct conv as [|[] rest]; simpl; try (by apply Hcons).
  destruct (upsert_memory_reminder_text _ _) as [content changed]. simpl.
  by apply (Hskel (System s :: rest)).
Qed.

End Skeleton.

#[local] Opaque repair_dangling_tool_calls dedup_duplicate_tool_results.

(** Decompose a successful handler into its successful steps. *)
Ltac inv_ok :=
  repeat match goal with
  | H : Some _ = Some _ |- _ => injection H as H; try subst
  | H : None = Some _ |- _ => discriminate H
  | H : mbind _ _ = Some _ |- _ => apply bind_Some in H as (? & ? & H)
  | H : ?x ≫= _ = Some _ |- _ => apply bind_Some in H as (? & ? & H)
  | H : (_, _) = (_, _) |- _ => injection H as ? ?; try subst
  end.

Section Lemmas.
Context {RS : RsApi} {SJ : SerdeJson}.
Implicit Types (a : ChatStateActor) (s : ChatState) (conv : list ConversationItem).

Definition conv_of a : list ConversationItem := conversation (state a).

(** ** The integrity pass *)

(** The conversation after the pass. *)
Definition integral (reason : DanglingToolCallReason) conv : list ConversationItem :=
  repair_ref reason [] (dedup_ref false conv).

Lemma snapshot_turn_slice_conv s : conversation (snapshot_turn_slice s) = conversation s.
Proof. unfold snapshot_turn_slice. by destruct (turn_capture s). Qed.
Lemma rebase_conv s : conversation (rebase_turn_capture_offset s) = conversation s.
Proof. unfold rebase_turn_capture_offset. by destruct (turn_capture s). Qed.
Lemma mark_compaction_conv s : conversation (mark_compaction s) = conversation s.
Proof. unfold mark_compaction. by destruct (turn_capture s). Qed.

Lemma ensure_conv reason a :
  conv_of (ensure_conversation_integrity_with_reason reason a) = integral reason (conv_of a).
Proof.
  unfold ensure_conversation_integrity_with_reason, integral, conv_of. simpl.
  rewrite snapshot_turn_slice_conv, dedup_is_ref.
  rewrite <- repair_dangling_is_ref.
  destruct (repair_dangling_tool_calls (dedup_ref false (conversation (state a))) reason) as [c2 n].
  case_match; simpl; by rewrite rebase_conv.
Qed.

Lemma integral_answered reason conv : calls_answered (integral reason conv).
Proof. apply repair_ref_answered. Qed.

Lemma integral_unique reason conv :
  calls_distinct conv → results_unique (integral reason conv).
Proof.
  intros Hd. apply repair_ref_unique; [|apply dedup_ref_unique].
  eapply calls_distinct_sublist; [apply dedup_ref_sublist|done].
Qed.

(** The pass reports no work only when it changed nothing. *)
Lemma integral_unchanged reason conv :
  let '(c1, n1) := dedup_duplicate_tool_results conv in
  let '(c2, n2) := repair_dangling_tool_calls c1 reason in
  c2 = integral reason conv ∧
  ((0 <? n2)%nat || (0 <? n1)%nat = false → c2 = conv).
Proof.
  rewrite dedup_is_ref. unfold integral.
  pose proof (repair_dangling_count (dedup_ref false conv) reason) as Hc.
  pose proof (repair_dangling_is_ref (dedup_ref false conv) reason) as Hr.
  destruct (repair_dangling_tool_calls (dedup_ref false conv) reason) as [c2 n2].
  cbn [fst snd] in *. split; [done|].
  intros [E2%Nat.ltb_ge E1%Nat.ltb_ge]%orb_false_iff.
  pose proof (dedup_ref_sublist false conv) as Hs. pose proof (sublist_length _ _ Hs).
  assert (Ed : dedup_ref false conv = conv) by (apply sublist_equal_length; [done|lia]).
  rewrite Ed in *. symmetry. apply sublist_equal_length; [rewrite Hr; apply repair_ref_sublist|lia].
Qed.

(** ** Conversations after the other handlers *)

Lemma replace_conversation_conv its b a a' :
  replace_conversation its b a = Some a' → conv_of a' = its.
Proof.
  unfold replace_conversation. intros Hr. inv_ok. unfold conv_of. simpl.
  by rewrite rebase_conv.
Qed.

Lemma persist_reminder_conv mr p a :
  conv_of (persist_reminder mr p a).1 = conv_of a ∨
  ∃ r, conv_of (persist_reminder mr p a).1 = (inject_memory_reminder (conv_of a) r).1.
Proof.
  unfold persist_reminder. destruct mr as [r|]; [|by left]. destruct p; [|by left].
  right. exists r. unfold conv_of. simpl. rewrite snapshot_turn_slice_conv.
  destruct (inject_memory_reminder _ r) as [c b]. simpl.
  by destruct b; simpl; rewrite rebase_conv.
Qed.

Lemma build_request_conv td mr p tr cid rid a :
  conv_of (build_conversation_request td mr p tr cid rid a).1
  = conv_of (persist_reminder mr p a).1.
Proof.
  unfold build_conversation_request. destruct (persist_reminder mr p a) as [a1 mr1]. simpl.
  destruct (request_items _ _ _ _ _) as [its ev]. simpl. by case_match.
Qed.

Lemma build_request_items td mr p tr cid rid a :
  ∃ np bb mr', items (build_conversation_request td mr p tr cid rid a).2
  = (request_items (conv_of (persist_reminder mr p a).1) np bb mr'
       (pruning_config (persist_reminder mr p a).1)).1.
Proof.
  unfold build_conversation_request. destruct (persist_reminder mr p a) as [a1 mr1]. simpl.
  destruct (request_items _ _ _ _ _) as [its ev] eqn:E. simpl. unfold conv_of.
  eexists _, _, _. rewrite E. done.
Qed.

(** Whatever mutations the request copy goes through, a property of skeletons
    that tolerates a leading system item survives. *)
Lemma request_items_pairing (P : list ConversationItem → Prop) conv np bb mr cfg :
  (∀ c c', same_skeleton c c' → P c → P c') →
  (∀ sys c, P c → P (System sys :: c)) →
  P conv → P (request_items conv np bb mr cfg).1.
Proof.
  intros Hskel Hcons Hp. unfold request_items.
  destruct (if (_ <=? bb)%Z then _ else _) as [its ev] eqn:E. simpl.
  assert (Hi : P its).
  { destruct (_ <=? bb)%Z; [|by injection E as <- <-].
    pose proof (compact_images_skeleton conv bb IMAGE_COMPACT_RECLAIM_TARGET_BYTES) as Hs.
    destruct (compact_images_to_byte_budget _ _ _) as [i o]. injection E as <- <-.
    by apply (Hskel conv); [symmetry|]. }
  assert (Hn : P (if np then prune_conversation its cfg else its)).
  { destruct np; [|done]. apply (Hskel its); [symmetry; apply prune_conversation_skeleton|done]. }
  destruct mr as [r|]; [|done]. by apply inject_pairing.
Qed.

Lemma request_pairing (P : list ConversationItem → Prop) td mr p tr cid rid a :
  (∀ c c', same_skeleton c c' → P c → P c') →
  (∀ sys c, P c → P (System sys :: c)) →
  P (conv_of a) →
  P (items (build_conversation_request td mr p tr cid rid a).2) ∧
  P (conv_of (build_conversation_request td mr p tr cid rid a).1).
Proof.
  intros Hskel Hcons Hp. rewrite build_request_conv.
  assert (Hc : P (conv_of (persist_reminder mr p a).1)).
  { destruct (persist_reminder_conv mr p a) as [->|[r ->]]; [done|]. by apply inject_pairing. }
  split; [|done]. destruct (build_request_items td mr p tr cid rid a) as (np & bb & mr' & ->).
  by apply request_items_pairing.
Qed.

End Lemmas.
