(* ===== verification/Capture.v ===== *)
(** * Turn capture

    The offset-based capture of a turn's messages ([TurnCaptureState]): what
    [TakeTurnMessages] returns is exactly what was pushed since
    [BeginTurnCapture], across compactions, restores, repairs and prunes. *)
From S2P Require Import Prelude RustStr F64 TokenEstimation Conversation Sampling Concrete.
From S2P Require Import ToolPairing ToolPairingFacts HistoryRepair Usage RequestBuilder.
From S2P Require Import State Actor Demo ActorLemmas.

#[local] Opaque repair_dangling_tool_calls dedup_duplicate_tool_results.

Section Capture.
Context {RS : RsApi} {SJ : SerdeJson}.
Implicit Types (a : ChatStateActor) (s : ChatState) (conv : list ConversationItem)
  (cmd : ChatStateCommand).

(** What [TakeTurnMessages] would return now. *)
Definition captured s : option (list ConversationItem) :=
  (λ cap, pre_replacement_messages cap ++ turn_tail (conversation s) (turn_start_offset cap))
    <$> turn_capture s.

Definition capture_ok s : Prop :=
  ∀ cap, turn_capture s = Some cap → (turn_start_offset cap ≤ length (conversation s))%nat.

(** The item a command pushes. *)
Definition pushed cmd : list ConversationItem :=
  match cmd with
  | PushUserMessage item | PushUserMessageAndAck item
  | PushUserMessageWithRepairReason item _ | PushAssistantResponse item
  | PushToolResult item => [item]
  | _ => []
  end.

(** The commands between a [BeginTurnCapture] and its [TakeTurnMessages]: no
    new capture, no rewind and no out-of-band history repair; a user push
    carries a user item. *)
Definition capture_kept cmd : bool :=
  match cmd with
  | BeginTurnCapture | TakeTurnMessages | TruncateToPromptIndex _ | RepairHistory false _ => false
  | PushUserMessage item | PushUserMessageAndAck item
  | PushUserMessageWithRepairReason item _ => is_user item
  | _ => true
  end.

Lemma turn_tail_app conv l : turn_tail (conv ++ l) (length conv) = l.
Proof.
  unfold turn_tail. rewrite length_app.
  destruct (Nat.leb_spec (length conv) (length conv + length l)); [|lia]. by rewrite drop_app_length.
Qed.

Lemma turn_tail_all conv : turn_tail conv (length conv) = [].
Proof. rewrite <- (app_nil_r conv) at 1. apply turn_tail_app. Qed.

(** ** Steps *)

(** [s'] continues the capture of [s] with [l] more messages. *)
Definition continues s s' (l : list ConversationItem) : Prop :=
  captured s' = (λ c, c ++ l) <$> captured s ∧ (capture_ok s → capture_ok s').

Lemma continues_same s s' :
  turn_capture s' = turn_capture s → conversation s' = conversation s → continues s s' [].
Proof.
  intros Et Ec. unfold continues, captured, capture_ok. rewrite Et, Ec.
  split; [|done]. destruct (turn_capture s); simpl; [by rewrite app_nil_r|done].
Qed.

Lemma continues_trans s1 s2 s3 l l' :
  continues s1 s2 l → continues s2 s3 l' → continues s1 s3 (l ++ l').
Proof.
  intros [E1 O1] [E2 O2]. split; [|auto]. rewrite E2, E1.
  destruct (captured s1); simpl; [by rewrite app_assoc|done].
Qed.

(** Snapshot, replace the conversation, rebase: nothing is lost, and the next
    message starts at the end. *)
Definition swapped conv s : ChatState :=
  rebase_turn_capture_offset (set_conversation conv (snapshot_turn_slice s)).

Definition at_end s : Prop :=
  ∀ cap, turn_capture s = Some cap → turn_start_offset cap = length (conversation s).

Lemma swapped_continues conv s : continues s (swapped conv s) [] ∧ at_end (swapped conv s).
Proof.
  unfold continues, captured, capture_ok, at_end, swapped, rebase_turn_capture_offset,
    snapshot_turn_slice.
  destruct (turn_capture s) as [cap|] eqn:E; simpl; rewrite ?E; simpl.
  - rewrite turn_tail_all. repeat split; [intros _ ? [= <-]; simpl; done | by intros ? [= <-]].
  - rewrite E. repeat split; intros; simplify_eq.
Qed.

(** A state that agrees with a swap on the two fields. *)
Lemma swapped_view conv s s' :
  turn_capture s' = turn_capture (swapped conv s) →
  conversation s' = conversation (swapped conv s) →
  continues s s' [] ∧ at_end s'.
Proof.
  intros Et Ec. destruct (swapped_continues conv s) as [Hc He]. split.
  - rewrite <- (app_nil_l []). eapply continues_trans; [exact Hc|]. by apply continues_same.
  - intros cap Hcap. rewrite Ec. apply He. by rewrite <- Et.
Qed.

Lemma append_continues s s' item :
  turn_capture s' = turn_capture s → conversation s' = conversation s ++ [item] →
  capture_ok s → continues s s' [item].
Proof.
  intros Et Ec Hok. unfold continues, captured, capture_ok. rewrite Et, Ec. split.
  - destruct (turn_capture s) as [cap|] eqn:E; simpl; [|done].
    specialize (Hok cap E). unfold turn_tail. rewrite length_app. simpl.
    destruct (Nat.leb_spec (turn_start_offset cap) (length (conversation s))); [|lia].
    destruct (Nat.leb_spec (turn_start_offset cap) (length (conversation s) + 1)); [|lia].
    by rewrite drop_app_le, app_assoc by done.
  - intros _ cap Hcap. rewrite length_app. specialize (Hok cap Hcap). lia.
Qed.

(** ** Handlers *)

Lemma ensure_view reason a :
  let a' := ensure_conversation_integrity_with_reason reason a in
  turn_capture (state a') = turn_capture (swapped (integral reason (conv_of a)) (state a)) ∧
  conversation (state a') = conversation (swapped (integral reason (conv_of a)) (state a)).
Proof.
  intros a'. unfold a'. fold (conv_of (ensure_conversation_integrity_with_reason reason a)).
  unfold swapped. rewrite rebase_conv. simpl. rewrite ensure_conv. split; [|done].
  pose proof (integral_unchanged reason (conv_of a)) as Hu.
  unfold ensure_conversation_integrity_with_reason, conv_of in *. simpl.
  rewrite snapshot_turn_slice_conv.
  destruct (dedup_duplicate_tool_results (conversation (state a))) as [c1 n1].
  destruct (repair_dangling_tool_calls c1 reason) as [c2 n2]. destruct Hu as [-> _].
  by case_match.
Qed.

Lemma replace_view its b a a' :
  replace_conversation its b a = Some a' → continues (state a) (state a') [] ∧ at_end (state a').
Proof.
  unfold replace_conversation. intros Hr. inv_ok.
  set (s0 := state a). destruct (turn_capture s0) as [cap|] eqn:Ecap.
  - unfold continues, captured, capture_ok, at_end.
    destruct b; unfold modify; simpl; fold s0; unfold snapshot_turn_slice, mark_compaction,
      rebase_turn_capture_offset; rewrite ?Ecap; simpl; rewrite ?Ecap; simpl;
      rewrite turn_tail_all, !app_nil_r; repeat split; intros; by simplify_eq/=.
  - unfold continues, captured, capture_ok, at_end.
    destruct b; unfold modify; simpl; fold s0; unfold snapshot_turn_slice, mark_compaction,
      rebase_turn_capture_offset; rewrite ?Ecap; simpl; rewrite ?Ecap; simpl;
      rewrite ?Ecap; repeat split; intros; by simplify_eq/=.
Qed.

Lemma restore_continues snap a a' :
  restore_snapshot snap a = Some a' → continues (state a) (state a') [].
Proof.
  unfold restore_snapshot. intros Hr. inv_ok.
  apply (swapped_view (snap_conversation snap)); reflexivity.
Qed.

Lemma system_head_continues prompt a a' b :
  replace_system_head prompt a = Some (a', b) → continues (state a) (state a') [].
Proof.
  unfold replace_system_head. intros Hr. destruct (match conversation _ with [] => _ | _ => _ end).
  - inv_ok. by apply continues_same.
  - destruct (replace_or_insert_system_head _ _) as [c ch]. inv_ok. by eapply replace_view.
Qed.

Lemma persist_reminder_continues mr p a :
  continues (state a) (state (persist_reminder mr p a).1) [].
Proof.
  unfold persist_reminder. destruct mr as [r|]; [|by apply continues_same].
  destruct p; [|by apply continues_same]. simpl. rewrite snapshot_turn_slice_conv.
  destruct (inject_memory_reminder _ r) as [c b]. simpl.
  apply (swapped_view c); by destruct b.
Qed.

Lemma build_continues td mr p tr cid rid a :
  continues (state a) (state (build_conversation_request td mr p tr cid rid a).1) [].
Proof.
  pose proof (persist_reminder_continues mr p a) as Hp.
  unfold build_conversation_request. destruct (persist_reminder mr p a) as [a1 mr1]. simpl in *.
  destruct (request_items _ _ _ _ _) as [its ev]. simpl.
  destruct (0 <? inline_image_count (conversation (state a1)))%nat; exact Hp.
Qed.

Lemma push_item_continues item a :
  capture_ok (state a) → continues (state a) (state (push_item item a)) [item].
Proof. intros Hok. by apply append_continues. Qed.

Lemma push_message_continues item a a' :
  push_message item a = Some a' → capture_ok (state a) →
  continues (state a) (state a') [item].
Proof.
  unfold push_message. intros Hp Hok. inv_ok. rename x into a1.
  assert (Hs : turn_capture (state a1) = turn_capture (state a) ∧
               conversation (state a1) = conversation (state a)).
  { destruct (is_assistant item); inv_ok; done. }
  destruct Hs as [Et Ec]. apply append_continues; simpl; [done|by rewrite Ec|done].
Qed.

(** The retained-history prune changes no user item and no length. *)
Lemma hard_clear_length th age seen its :
  length (hard_clear_loop th age seen its).1 = length its.
Proof.
  revert age seen. induction its as [|[] its IH]; intros age seen; simpl; try done;
    match goal with |- context [hard_clear_loop th ?g ?b its] => specialize (IH g b) end;
    destruct (hard_clear_loop _ _ _ its); repeat case_match; simpl in *; by rewrite IH.
Qed.

Lemma hard_clear_last_user th conv u :
  ∃ conv', length conv' = length conv ∧
    rev (hard_clear_loop th 0 false (rev (conv ++ [User u]))).1 = conv' ++ [User u].
Proof.
  rewrite rev_app_distr. simpl.
  pose proof (hard_clear_length th 0 true (rev conv)) as Hl.
  destruct (hard_clear_loop th 0 true (rev conv)) as [l n]. simpl in *.
  exists (rev l). by rewrite !length_rev in *.
Qed.

Lemma prune_retained_view a a' :
  prune_retained_conversation a = Some a' →
  turn_capture (state a') = turn_capture (state a) ∧
  (conversation (state a') = conversation (state a) ∨
   ∃ th, conversation (state a')
         = rev (hard_clear_loop th 0 false (rev (conversation (state a)))).1).
Proof.
  unfold prune_retained_conversation. intros Hp.
  destruct (negb _); [inv_ok; by split; [|left]|].
  destruct (prompt_index _ <? _)%Z; [inv_ok; by split; [|left]|].
  apply bind_Some in Hp as (? & _ & Hp).
  destruct (hard_clear_loop _ _ _ _) as [l n] eqn:El.
  split; [|right; eexists; rewrite El]; destruct (0 <? n)%nat; by inv_ok.
Qed.

Lemma push_user_continues item reason a a' :
  push_user_message_with_repair_reason item reason a = Some a' →
  is_user item = true → continues (state a) (state a') [item].
Proof.
  unfold push_user_message_with_repair_reason. intros Hp Hu.
  destruct item as [|u| | | |]; try done. apply bind_Some in Hp as (t & _ & Hp).
  set (a1 := ensure_conversation_integrity_with_reason reason a) in *.
  destruct (ensure_view reason a) as [Et Ec]. fold a1 in Et, Ec.
  destruct (swapped_view _ _ _ Et Ec) as [Hc Hend].
  apply prune_retained_view in Hp as [Et2 Hv]. simpl in Et2, Hv.
  split.
  - rewrite <- (app_nil_l [User u]).
    destruct Hc as [Ecap _]. unfold captured in *. rewrite Et2.
    destruct (turn_capture (state a1)) as [cap|] eqn:E1.
    + specialize (Hend cap E1). simpl in *. destruct (turn_capture (state a)); [|done].
      injection Ecap as Ecap. simpl. f_equal. rewrite Hend in Ecap |- *.
      rewrite turn_tail_all, !app_nil_r in Ecap. rewrite <- Ecap. f_equal.
      destruct Hv as [->|[th ->]]; [apply turn_tail_app|].
      destruct (hard_clear_last_user th (conversation (state a1)) u) as (c' & Hl & ->).
      rewrite <- Hl. apply turn_tail_app.
    + simpl in *. by destruct (turn_capture (state a)).
  - intros _ cap Hcap. rewrite Et2 in Hcap. rewrite (Hend _ Hcap).
    destruct Hv as [->|[th ->]]; rewrite ?length_rev, ?hard_clear_length, ?length_rev, length_app; lia.
Qed.

Lemma subagent_continues entries attr inc a :
  continues (state a) (state (record_subagent_usage entries attr inc a)) [].
Proof. unfold record_subagent_usage. repeat case_match; by apply continues_same. Qed.

Lemma incomplete_continues prompt session a :
  continues (state a) (state (mark_usage_incomplete prompt session a)) [].
Proof. unfold mark_usage_incomplete. repeat case_match; by apply continues_same. Qed.

Lemma ensure_continues reason a :
  continues (state a) (state (ensure_conversation_integrity_with_reason reason a)) [].
Proof. destruct (ensure_view reason a) as [Et Ec]. by destruct (swapped_view _ _ _ Et Ec). Qed.

(** Every command of a captured turn continues the capture with what it
    pushes. *)
Lemma handle_continues cmd a a' reply :
  handle_command cmd a = Some (a', reply) → capture_kept cmd = true → capture_ok (state a) →
  continues (state a) (state a') (pushed cmd).
Proof.
  intros Hh Hk Hok.
  destruct cmd; simpl in Hk, Hh |- *; try discriminate Hk; unfold no_reply, reply_with in Hh;
    try (inv_ok; by apply continues_same); inv_ok.
  all: try (by eapply push_user_continues); try (by eapply push_message_continues).
  all: try apply subagent_continues; try apply incomplete_continues; try apply ensure_continues.
  - unfold record_token_usage in *. inv_ok. by apply continues_same.
  - by eapply replace_view.
  - destruct dry_run; [|done]. destruct (default false turn_active); inv_ok; [by apply continues_same|].
    destruct x. simpl in *. inv_ok. by apply continues_same.
  - destruct x. inv_ok. by eapply system_head_continues.
  - by eapply restore_continues.
  - unfold seal_harness_trace_turn, modify. simpl. case_match; by apply continues_same.
  - pose proof (build_continues tool_definitions memory_reminder persist_memory_reminder tr
      conv_id req_id (ensure_conversation_integrity a)) as Hb.
    pose proof (ensure_continues UserCancelled a) as He.
    destruct (build_conversation_request _ _ _ _ _ _ _) as [a2 r]. inv_ok.
    by apply (continues_trans _ _ _ [] []) with (1 := He).
  - unfold seal_harness_trace_turn, modify. simpl. case_match; by apply continues_same.
Qed.

Lemma run_continues cmds a a' :
  run cmds a = Some a' → forallb capture_kept cmds = true → capture_ok (state a) →
  continues (state a) (state a') (concat (map pushed cmds)).
Proof.
  revert a. induction cmds as [|cmd cmds IH]; intros a Hr Hk Hok; simpl in *.
  - inv_ok. by apply continues_same.
  - apply andb_true_iff in Hk as [Hk Hks]. apply bind_Some in Hr as ([a1 r] & Hh & Hr).
    pose proof (handle_continues _ _ _ _ Hh Hk Hok) as Hc.
    eapply continues_trans; [exact Hc|]. apply IH; [done..|]. by apply Hc.
Qed.

(** ** The offset invariant *)

Lemma repair_history_ok a a' report :
  actor_repair_history false a = Some (a', report) → capture_ok (state a) → capture_ok (state a').
Proof.
  unfold actor_repair_history. intros Hr Hok.
  pose proof (repair_history_fix (conversation (state a))) as Hfix.
  pose proof (report_unchanged (conversation (state a))) as Hrep.
  destruct (repair_history (conversation (state a))) as [its rep] eqn:E. simpl in Hrep.
  destruct (report_changed rep) eqn:Ech.
  - inv_ok. destruct (replace_view _ _ _ _ H) as [_ Hend]. intros cap Hcap. by rewrite (Hend _ Hcap).
  - inv_ok. destruct (Hrep eq_refl) as (Ha & Ho & Hu). specialize (Hfix Ha Ho Hu).
    injection Hfix as -> _. exact Hok.
Qed.

Lemma handle_capture_ok cmd a a' reply :
  handle_command cmd a = Some (a', reply) → capture_ok (state a) →
  (∀ item, pushed cmd = [item] → capture_kept cmd = true) → capture_ok (state a').
Proof.
  intros Hh Hok Huser. destruct (capture_kept cmd) eqn:Hk; [by eapply handle_continues|].
  destruct cmd; simpl in Hk, Hh, Huser; try discriminate Hk;
    try (by discriminate (Huser _ eq_refl)); unfold reply_with in Hh.
  - destruct dry_run; [done|]. destruct (default false turn_active); [by inv_ok|].
    inv_ok. destruct x. inv_ok. by eapply repair_history_ok.
  - inv_ok. intros cap [= <-]. done.
  - inv_ok. by intros cap [=].
  - inv_ok. by intros cap [=].
Qed.

(** ** Properties *)

(** The capture's start offset never passes the end of the conversation:
    it holds when the actor starts and every command keeps it (user pushes
    carrying user items), whatever replaces, prunes, repairs or rewinds the
    conversation, so [turn_tail]'s out-of-range fallback is never taken between
    commands. *)
Theorem capture_offset_invariant conv config pruning a cmds a'
    (Hspawn : spawn_with_pruning conv config pruning = Some a)
    (Hcmds : Forall (λ cmd, ∀ item, pushed cmd = [item] → capture_kept cmd = true) cmds)
    (Hrun : run cmds a = Some a') :
  capture_ok (state a').
Proof.
  assert (Hok : capture_ok (state a)).
  { unfold spawn_with_pruning, ChatState_new in Hspawn.
    destruct (dedup_duplicate_tool_results conv) as [c1 ?].
    destruct (repair_dangling_tool_calls c1 UserCancelled) as [c2 ?].
    inv_ok. by intros cap [=]. }
  clear Hspawn. revert a Hok Hrun. induction Hcmds as [|cmd cmds Hc Hcmds IH]; intros a Hok Hrun.
  - simpl in Hrun. by inv_ok.
  - apply bind_Some in Hrun as ([a1 r] & Hh & Hrun). apply (IH a1); [|done].
    by eapply handle_capture_ok.
Qed.

(** C18: between [BeginTurnCapture] and [TakeTurnMessages], through any
    compaction, snapshot restore, integrity repair, prune, reminder injection
    or system-prompt swap, the captured messages are exactly the messages
    pushed, in order: none is lost, none is duplicated, and synthetic repairs
    are not captured. *)
Theorem turn_capture_exact cmds a a1 a2
    (Hkept : forallb capture_kept cmds = true)
    (Hbegin : handle_command BeginTurnCapture a = Some (a1, NoReply))
    (Hrun : run cmds a1 = Some a2) :
  ∃ c, handle_command TakeTurnMessages a2
       = Some (modify (set_turn_capture None) a2, RCapture (Some c)) ∧
       tc_messages c = concat (map pushed cmds).
Proof.
  simpl in Hbegin. inv_ok.
  match type of Hrun with run _ ?b = _ => set (b0 := b) in * end.
  assert (Hok : capture_ok (state b0)) by (by intros cap [= <-]).
  destruct (run_continues _ _ _ Hrun Hkept Hok) as [Hc _].
  unfold captured in Hc. simpl in Hc. rewrite turn_tail_all in Hc. simpl in *.
  unfold take_turn_messages. destruct (turn_capture (state a2)) as [cap|]; [|done].
  injection Hc as Hc. eexists. split; [reflexivity|done].
Qed.

End Capture.

(** ** Examples *)

Definition demo_turn : list ChatStateCommand :=
  [PushUserMessage (item_user (lit "go"));
   PushAssistantResponse (demo_calls ["a"]);
   PushToolResult (demo_result "a" "1");
   ReplaceConversation [item_system (lit "sys"); item_user (lit "summary")] true;
   PushAssistantResponse (demo_assistant "done")].

Lemma turn_capture_exact_witness :
  ∃ a2 c,
    run demo_turn (modify (set_turn_capture
      (Some {| turn_start_offset := 7; pre_replacement_messages := [];
               compaction_occurred := false |})) (demo_actor demo_broken)) = Some a2 ∧
    handle_command TakeTurnMessages a2
      = Some (modify (set_turn_capture None) a2, RCapture (Some c)) ∧
    tc_messages c = [item_user (lit "go"); demo_calls ["a"]; demo_result "a" "1";
                     demo_assistant "done"].
Proof.
  destruct (run demo_turn _) as [a2|] eqn:E; [|vm_compute in E; discriminate E].
  destruct (turn_capture_exact demo_turn (demo_actor demo_broken) _ a2
              eq_refl eq_refl E) as (c & Ht & Hc).
  exists a2, c. split; [done|]. split; [exact Ht|exact Hc].
Defined.

Lemma capture_offset_invariant_witness :
  ∃ a a',
    spawn_with_pruning demo_broken demo_config pruning_default = Some a ∧
    run (BeginTurnCapture :: demo_turn) a = Some a' ∧
    length (conversation (state a')) = 3%nat ∧ capture_ok (state a').
Proof.
  destruct (spawn_with_pruning demo_broken demo_config pruning_default) as [a|] eqn:Es;
    [|vm_compute in Es; discriminate Es].
  destruct (run (BeginTurnCapture :: demo_turn) a) as [a'|] eqn:Er.
  - exists a, a'. split; [done|]. split; [done|].
    assert (El : (λ x, match x with Some a => length (conversation (state a)) | None => 0%nat end)
      (spawn_with_pruning demo_broken demo_config pruning_default
         ≫= run (BeginTurnCapture :: demo_turn)) = 3%nat) by (vm_compute; reflexivity).
    rewrite Es in El.
    change (Some a ≫= run (BeginTurnCapture :: demo_turn))
      with (run (BeginTurnCapture :: demo_turn) a) in El. rewrite Er in El.
    split; [exact El|].
    apply (capture_offset_invariant _ _ _ _ _ _ Es) with (2 := Er).
    repeat constructor; simpl; intros item E; try discriminate E; done.
  - exfalso.
    assert (En : (spawn_with_pruning demo_broken demo_config pruning_default
                    ≫= run (BeginTurnCapture :: demo_turn)) = None)
      by (rewrite Es; exact Er).
    vm_compute in En. discriminate En.
Defined.

(** The out-of-band repair drops the tail of an active capture: the
    conversation is taken out of the state before the snapshot. *)
Theorem repair_history_drops_capture :
  let turn := [PushUserMessage (item_user (lit "go")); PushToolResult (demo_result "x" "1");
               RepairHistory false (Some false)] in
  (λ r, match r with
        | Some (_, RCapture (Some c)) => tc_messages c
        | _ => [item_user (lit "no capture")]
        end)
    ('(a, _) ← handle_command BeginTurnCapture (demo_actor []);
     a ← run turn a; handle_command TakeTurnMessages a) = [].
Proof. vm_compute. reflexivity. Qed.
