(* ===== verification/Mirror.v ===== *)
(** * The persistence log mirrors the conversation

    The actor never writes its state; it sends single messages and full
    replacements.  Replaying them over what was on disk gives the conversation
    in memory. *)
From S2P Require Import Prelude RustStr F64 TokenEstimation Conversation Sampling Concrete.
From S2P Require Import ToolPairing ToolPairingFacts HistoryRepair Usage RequestBuilder.
From S2P Require Import State Actor Demo ActorLemmas.

#[local] Opaque repair_dangling_tool_calls dedup_duplicate_tool_results repair_history.

Section Mirror.
Context {RS : RsApi} {SJ : SerdeJson}.
Implicit Types (a : ChatStateActor) (s : ChatState) (conv disk : list ConversationItem)
  (cmd : ChatStateCommand).

(** The chat history file after the persistence layer handled a record. *)
Definition apply_record disk (r : PersistenceRecord) : list ConversationItem :=
  match r with
  | Message item => disk ++ [item]
  | ReplaceHistory its => its
  | FlushRecord => disk
  end.
Definition replay disk (log : list PersistenceRecord) : list ConversationItem :=
  foldl apply_record disk log.

Definition mirrors disk a : Prop := replay disk (persistence a) = conversation (state a).

Lemma mirrors_persist disk r a conv :
  apply_record (replay disk (persistence a)) r = conv →
  replay disk (persistence (persist r a)) = conv.
Proof. unfold replay. simpl. rewrite foldl_app. done. Qed.

(** Handlers that touch neither the log nor the conversation. *)
Lemma mirrors_same disk a a' :
  persistence a' = persistence a → conversation (state a') = conversation (state a) →
  mirrors disk a → mirrors disk a'.
Proof. unfold mirrors. by intros -> ->. Qed.

Lemma mirrors_ensure disk reason a :
  mirrors disk a → mirrors disk (ensure_conversation_integrity_with_reason reason a).
Proof.
  unfold ensure_conversation_integrity_with_reason, mirrors. intros Hm. simpl.
  rewrite snapshot_turn_slice_conv.
  pose proof (integral_unchanged reason (conversation (state a))) as Hu.
  destruct (dedup_duplicate_tool_results (conversation (state a))) as [c1 n1].
  destruct (repair_dangling_tool_calls c1 reason) as [c2 n2]. destruct Hu as [_ Hu].
  destruct ((0 <? n2)%nat || (0 <? n1)%nat); simpl; rewrite rebase_conv; simpl.
  - by apply mirrors_persist.
  - by rewrite Hu.
Qed.

Lemma mirrors_replace disk its b a a' :
  replace_conversation its b a = Some a' → mirrors disk a'.
Proof.
  unfold replace_conversation. intros Hr. inv_ok. unfold mirrors. simpl. rewrite rebase_conv. simpl.
  destruct b; simpl; unfold replay; rewrite foldl_app; done.
Qed.

Lemma mirrors_push_item disk item a : mirrors disk a → mirrors disk (push_item item a).
Proof. unfold mirrors. intros Hm. simpl. apply mirrors_persist. simpl. by rewrite Hm. Qed.

Lemma mirrors_push_message disk item a a' :
  push_message item a = Some a' → mirrors disk a → mirrors disk a'.
Proof.
  unfold push_message. intros Hp Hm. inv_ok. apply mirrors_push_item.
  destruct (is_assistant item); inv_ok; done.
Qed.

Lemma hard_clear_none th age seen its :
  (hard_clear_loop th age seen its).2 = 0%nat → (hard_clear_loop th age seen its).1 = its.
Proof.
  revert age seen. induction its as [|[] its IH]; intros age seen; simpl; try done;
    match goal with |- context [hard_clear_loop th ?g ?b its] => specialize (IH g b) end;
    destruct (hard_clear_loop _ _ _ its); repeat case_match; simpl in *; intros;
    simplify_eq; by rewrite IH.
Qed.

Lemma mirrors_prune disk a a' :
  prune_retained_conversation a = Some a' → mirrors disk a → mirrors disk a'.
Proof.
  unfold prune_retained_conversation. intros Hp Hm.
  destruct (negb _); [by inv_ok|]. destruct (prompt_index _ <? _)%Z; [by inv_ok|].
  apply bind_Some in Hp as (? & _ & Hp).
  match type of Hp with context [hard_clear_loop ?t _ _ _] =>
    pose proof (hard_clear_none t 0 false (rev (conversation (state a)))) as Hn end.
  destruct (hard_clear_loop _ _ _ _) as [l n]. simpl in Hn.
  destruct (Nat.ltb_spec 0 n); inv_ok; unfold mirrors; simpl.
  - by apply mirrors_persist.
  - rewrite Hn by lia. by rewrite rev_involutive.
Qed.

Lemma mirrors_push_user disk item reason a a' :
  push_user_message_with_repair_reason item reason a = Some a' → mirrors disk a → mirrors disk a'.
Proof.
  unfold push_user_message_with_repair_reason. intros Hp Hm.
  apply bind_Some in Hp as (t & _ & Hp). eapply mirrors_prune; [exact Hp|].
  apply mirrors_push_item. apply (mirrors_ensure _ reason) in Hm. exact Hm.
Qed.

Lemma mirrors_repair_history disk dry a a' report :
  actor_repair_history dry a = Some (a', report) → mirrors disk a → mirrors disk a'.
Proof.
  unfold actor_repair_history. intros Hr Hm. destruct dry; [by inv_ok|]. simpl in Hr.
  pose proof (repair_history_fix (conversation (state a))) as Hfix.
  pose proof (report_unchanged (conversation (state a))) as Hrep.
  destruct (repair_history (conversation (state a))) as [its rep] eqn:E. simpl in Hrep.
  destruct (report_changed rep) eqn:Ech; inv_ok; [by eapply mirrors_replace|].
  destruct (Hrep eq_refl) as (Ha & Ho & Hu). specialize (Hfix Ha Ho Hu).
  injection Hfix as -> _. exact Hm.
Qed.

Lemma mirrors_system_head disk prompt a a' b :
  replace_system_head prompt a = Some (a', b) → mirrors disk a → mirrors disk a'.
Proof.
  unfold replace_system_head. intros Hr Hm. destruct (match conversation _ with [] => _ | _ => _ end).
  - by inv_ok.
  - destruct (replace_or_insert_system_head _ _) as [c ch]. inv_ok. by eapply mirrors_replace.
Qed.

Lemma mirrors_truncate disk target a a' :
  truncate_to_prompt_index target a = Some a' → mirrors disk a → mirrors disk a'.
Proof.
  unfold truncate_to_prompt_index. intros Ht Hm. destruct (prompt_index _ <=? target)%Z; inv_ok; [done|].
  unfold mirrors. simpl. by apply mirrors_persist.
Qed.

Lemma upsert_unchanged p r : (upsert_memory_reminder_text p r).2 = false →
  (upsert_memory_reminder_text p r).1 = p.
Proof. unfold upsert_memory_reminder_text. by case_match. Qed.

Lemma inject_unchanged conv r :
  (inject_memory_reminder conv r).2 = false → (inject_memory_reminder conv r).1 = conv.
Proof.
  unfold inject_memory_reminder. case_match; [done|]. destruct conv as [|[] rest]; try done.
  pose proof (upsert_unchanged (sys_content s) (trim r)).
  destruct (upsert_memory_reminder_text _ _) as [c b]. simpl in *. intros ->.
  rewrite H0 by done. by destruct s.
Qed.

Lemma mirrors_reminder disk mr p a : mirrors disk a → mirrors disk (persist_reminder mr p a).1.
Proof.
  unfold persist_reminder. intros Hm. destruct mr as [r|]; [|done]. destruct p; [|done]. simpl.
  rewrite snapshot_turn_slice_conv. pose proof (inject_unchanged (conversation (state a)) r) as Hu.
  destruct (inject_memory_reminder _ r) as [c b]. simpl in *. unfold mirrors.
  destruct b; simpl; rewrite rebase_conv; simpl; [by apply mirrors_persist|by rewrite Hu].
Qed.

Lemma mirrors_build disk td mr p tr cid rid a :
  mirrors disk a → mirrors disk (build_conversation_request td mr p tr cid rid a).1.
Proof.
  intros Hm%(mirrors_reminder disk mr p). unfold build_conversation_request.
  destruct (persist_reminder mr p a) as [a1 mr1]. simpl in *.
  destruct (request_items _ _ _ _ _) as [its ev]. simpl.
  destruct (0 <? inline_image_count (conversation (state a1)))%nat; exact Hm.
Qed.

Definition keeps_mirror cmd : bool := match cmd with RestoreSnapshot _ => false | _ => true end.

Lemma handle_mirrors disk cmd a a' reply :
  handle_command cmd a = Some (a', reply) → keeps_mirror cmd = true →
  mirrors disk a → mirrors disk a'.
Proof.
  intros Hh Hk Hm. destruct cmd; simpl in Hk, Hh; try discriminate Hk;
    unfold no_reply, reply_with in Hh; try (inv_ok; exact Hm); inv_ok.
  all: try (by eapply mirrors_push_user); try (by eapply mirrors_push_message);
    try (by eapply mirrors_replace); try (by apply mirrors_ensure).
  - unfold record_token_usage in *. by inv_ok.
  - unfold record_subagent_usage. repeat case_match; exact Hm.
  - unfold mark_usage_incomplete. repeat case_match; exact Hm.
  - destruct (default false turn_active); inv_ok; [done|]. destruct x. inv_ok.
    by eapply mirrors_repair_history.
  - destruct x. inv_ok. by eapply mirrors_system_head.
  - unfold mirrors. by apply mirrors_persist.
  - unfold modify, seal_harness_trace_turn. simpl. case_match; exact Hm.
  - apply (mirrors_ensure disk UserCancelled) in Hm.
    apply (mirrors_build disk tool_definitions memory_reminder persist_memory_reminder tr
             conv_id req_id) in Hm.
    unfold ensure_conversation_integrity in Hh.
    destruct (build_conversation_request _ _ _ _ _ _ _) as [a2 r]. by inv_ok.
  - by eapply mirrors_truncate in Hm; [|done].
  - unfold modify, seal_harness_trace_turn. simpl. case_match; exact Hm.
Qed.

(** ** Property *)

(** C17: if the history on disk equals the conversation at some point, then after
    any sequence of commands without [RestoreSnapshot] the replayed persistence
    log still equals the conversation in memory: every in-place mutation
    (repair, prune, reminder, rewind, compaction) is persisted, and nothing is
    persisted that did not happen. *)
Theorem persistence_mirrors_conversation disk cmds a a'
    (Hmirror : mirrors disk a) (Hcmds : forallb keeps_mirror cmds = true)
    (Hrun : run cmds a = Some a') :
  mirrors disk a'.
Proof.
  revert a Hmirror Hrun. induction cmds as [|cmd cmds IH]; intros a Hm Hr; simpl in *.
  - by inv_ok.
  - apply andb_true_iff in Hcmds as [Hk Hks]. apply bind_Some in Hr as ([a1 r] & Hh & Hr).
    apply (IH Hks a1); [|done]. by eapply handle_mirrors.
Qed.

End Mirror.

(** ** Examples *)

Definition demo_session_cmds : list ChatStateCommand :=
  [PushUserMessage (item_user (lit "next")); demo_build;
   PushAssistantResponse (demo_calls ["c"]); Flush;
   RepairHistory false None; TruncateToPromptIndex 0;
   PushUserMessage (item_user (lit "again"))].

Lemma persistence_mirrors_conversation_witness :
  ∃ a', run demo_session_cmds (demo_actor demo_broken) = Some a' ∧
    mirrors demo_broken (demo_actor demo_broken) ∧ mirrors demo_broken a'.
Proof.
  destruct (run demo_session_cmds (demo_actor demo_broken)) as [a'|] eqn:E;
    [|vm_compute in E; discriminate E].
  exists a'. split; [done|]. split; [reflexivity|].
  apply (persistence_mirrors_conversation demo_broken demo_session_cmds (demo_actor demo_broken));
    [reflexivity|reflexivity|exact E].
Defined.

(** A session loaded from a broken file is repaired in memory only: the log is
    empty while the conversation differs from the file. *)
Example spawn_repairs_in_memory_only :
  match spawn_with_pruning demo_broken demo_config pruning_default with
  | Some a => persistence a = [] ∧ length (conversation (state a)) = 7%nat ∧
              conversation (state a) ≠ demo_broken
  | None => False
  end.
Proof. vm_compute. repeat split; try done. Qed.
