(* ===== verification/Safety.v ===== *)
(** * The preview of a code-interpreter call

    [text_summary] slices a text at byte 100, which panics inside a character:
    the one panic that is a value of this model, and every handler that
    estimates the conversation meets it.  No handler comes to it as long as no
    code-interpreter call has its byte 100 inside a character.  (Indexing,
    [remove] and [splice] of vectors are list functions here, so that their
    panics are not seen.) *)
From S2P Require Import Prelude RustStr F64 TokenEstimation Conversation Sampling Concrete.
From S2P Require Import ToolPairing ToolPairingFacts HistoryRepair Usage RequestBuilder.
From S2P Require Import State Actor Demo ActorLemmas.

#[local] Opaque repair_dangling_tool_calls dedup_duplicate_tool_results repair_history.

Section Safety.
Context {RS : RsApi} {SJ : SerdeJson}.
Implicit Types (a : ChatStateActor) (conv its : list ConversationItem) (cmd : ChatStateCommand).

Definition preview_ok (i : ConversationItem) : Prop :=
  match i with BackendToolCall b => is_Some (text_summary b) | _ => True end.

Definition safe conv : Prop := Forall preview_ok conv.

Definition cmd_safe cmd : Prop :=
  match cmd with
  | PushUserMessage item | PushUserMessageAndAck item
  | PushUserMessageWithRepairReason item _ | PushAssistantResponse item
  | PushToolResult item => preview_ok item
  | ReplaceConversation its _ => safe its
  | RestoreSnapshot snap => safe (snap_conversation snap)
  | _ => True
  end.

Lemma estimate_item_some i : preview_ok i → is_Some (estimate_item_tokens i).
Proof.
  destruct i; simpl; try (intros; eexists; reflexivity).
  - intros _. destruct (user_part_sizes _ _ _). eauto.
  - intros [t ->]. simpl. eauto.
Qed.

Lemma content_bytes_some i : preview_ok i → is_Some (item_content_bytes i).
Proof. destruct i; simpl; try (intros; eexists; reflexivity). intros [t ->]. simpl. eauto. Qed.

(** An [option] accumulator over safe items stays defined. *)
Lemma fold_some (f : ConversationItem → option Z) (g : Z → Z → Z) conv z :
  (∀ i, preview_ok i → is_Some (f i)) → safe conv →
  is_Some (foldl (λ acc i, b ← acc; t ← f i; Some (g b t)) (Some z) conv).
Proof.
  intros Hf Hs. revert z. induction Hs as [|i conv Hi Hs IH]; intros z; simpl; [eauto|].
  destruct (Hf i Hi) as [t ->]. simpl. apply IH.
Qed.

Lemma estimate_some conv : safe conv → is_Some (estimate_conversation_tokens conv).
Proof. apply (fold_some _ wrapping_add), estimate_item_some. Qed.

Lemma content_some conv : safe conv → is_Some (conversation_content_bytes conv).
Proof. apply (fold_some _ Z.add), content_bytes_some. Qed.

Lemma estimate_messages_some conv : safe conv → is_Some (estimate_messages_tokens conv).
Proof.
  intros Hs. apply estimate_some. unfold safe in *. rewrite Forall_forall in *.
  intros i [_ Hi]%list_elem_of_filter. by apply Hs.
Qed.

Lemma safe_sublist conv conv' : conv' `sublist_of` conv → safe conv → safe conv'.
Proof.
  unfold safe. rewrite !Forall_forall. intros Hs Ha i Hi. apply Ha.
  eapply elem_of_submseteq; [exact Hi|]. by apply sublist_submseteq.
Qed.

Abbreviation flush reason pending :=
  (map (λ '(id, name), item_tool_result id (synthetic_dangling_result_text name reason))
       pending).

Lemma safe_repair reason pending conv : safe conv → safe (repair_ref reason pending conv).
Proof.
  assert (Hf : ∀ pending rest, safe rest → safe (flush reason pending ++ rest)).
  { intros p rest Hr. apply Forall_app_2; [|done].
    induction p as [|[id n] p IH]; simpl; [done|]. by constructor. }
  intros Hs. revert pending. induction Hs as [|i conv Hi Hs IH]; intros pending; simpl.
  { rewrite <- (app_nil_r (flush _ _)). apply Hf; constructor. }
  destruct i; try apply Hf; constructor; try done; apply IH.
Qed.

Lemma safe_integral reason conv : safe conv → safe (integral reason conv).
Proof. intros Hs. apply safe_repair. eapply safe_sublist; [apply dedup_ref_sublist|done]. Qed.

Lemma safe_repaired conv : safe conv → safe (repaired conv).
Proof.
  intros Hs. apply safe_repair. eapply safe_sublist; [|exact Hs].
  etrans; [apply strip_loop_sublist | apply dedup_ref_sublist].
Qed.

Lemma safe_hard_clear th age seen its : safe its → safe (hard_clear_loop th age seen its).1.
Proof.
  intros Hs. revert age seen. induction Hs as [|i its Hi Hs IH]; intros age seen; [by constructor|].
  destruct i; simpl;
    match goal with |- context [hard_clear_loop th ?g ?b its] => specialize (IH g b) end;
    destruct (hard_clear_loop _ _ _ its); repeat case_match; simpl in *; by constructor.
Qed.

Lemma safe_inject conv r : safe conv → safe (inject_memory_reminder conv r).1.
Proof.
  intros Hs. unfold inject_memory_reminder. case_match; [done|].
  destruct Hs as [|i conv Hi Hs]; [by repeat constructor|].
  destruct i; simpl; try (by repeat constructor).
  destruct (upsert_memory_reminder_text _ _). simpl. by constructor.
Qed.

Lemma safe_rev conv : safe conv → safe (rev conv).
Proof. unfold safe. rewrite !Forall_forall. intros Hs i Hi. apply Hs.
  apply list_elem_of_In. apply in_rev. by apply list_elem_of_In. Qed.

(** [r] returned an actor whose conversation is safe. *)
Definition returns (r : option ChatStateActor) : Prop :=
  ∃ a, r = Some a ∧ safe (conversation (state a)).

Lemma returns_replace its b a : safe its → returns (replace_conversation its b a).
Proof.
  intros Hs. unfold returns, replace_conversation. destruct (estimate_some its Hs) as [t Et].
  rewrite Et. simpl. rewrite Et. simpl. eexists. split; [reflexivity|].
  simpl. by rewrite rebase_conv.
Qed.

Lemma returns_prune a : safe (conversation (state a)) → returns (prune_retained_conversation a).
Proof.
  intros Hs. unfold returns, prune_retained_conversation.
  destruct (negb _); [eauto|]. destruct (_ <? _)%Z; [eauto|].
  destruct (content_some _ Hs) as [t ->]. simpl.
  match goal with |- context [hard_clear_loop ?t _ _ _] =>
    pose proof (safe_rev _ (safe_hard_clear t 0 false _ (safe_rev _ Hs))) as Hc end.
  destruct (hard_clear_loop _ _ _ _) as [l n]. simpl in *.
  destruct (0 <? n)%nat; [|by eauto]. destruct (content_some _ Hc) as [t' ->]. simpl. eauto.
Qed.

Lemma returns_push_user item reason a :
  preview_ok item → safe (conversation (state a)) →
  returns (push_user_message_with_repair_reason item reason a).
Proof.
  intros Hi Hs. unfold push_user_message_with_repair_reason.
  destruct (estimate_item_some _ Hi) as [t ->]. simpl. apply returns_prune. simpl.
  apply Forall_app_2; [|by constructor].
  pose proof (ensure_conv reason a) as E. unfold conv_of in E. rewrite E. by apply safe_integral.
Qed.

Lemma returns_push item a :
  preview_ok item → safe (conversation (state a)) → returns (push_message item a).
Proof.
  intros Hi Hs. unfold returns, push_message.
  destruct (estimate_item_some _ Hi) as [t Et].
  assert (Ha : safe (conversation (state a) ++ [item])) by (apply Forall_app_2; [done|by constructor]).
  destruct (is_assistant item); rewrite ?Et; simpl; eauto.
Qed.

Lemma returns_truncate target a :
  safe (conversation (state a)) → returns (truncate_to_prompt_index target a).
Proof.
  intros Hs. unfold returns, truncate_to_prompt_index. destruct (_ <=? _)%Z; [eauto|].
  simpl. assert (Ht : safe (take (find_user_turn (conversation (state a)) 0 0 target)
                             (conversation (state a))))
    by (unfold safe in *; by apply Forall_take).
  destruct (estimate_some _ Ht) as [t ->]. simpl. eauto.
Qed.

Lemma returns_restore snap a : safe (snap_conversation snap) → returns (restore_snapshot snap a).
Proof.
  intros Hs. unfold returns, restore_snapshot. simpl. rewrite rebase_conv. simpl.
  destruct (estimate_some _ Hs) as [t Et].
  destruct (0 <? _)%Z; simpl; rewrite ?Et; simpl; eexists; (split; [reflexivity|]);
    simpl; by rewrite rebase_conv.
Qed.

Lemma returns_repair_history dry a :
  safe (conversation (state a)) →
  ∃ a' r, actor_repair_history dry a = Some (a', r) ∧ safe (conversation (state a')).
Proof.
  intros Hs. unfold actor_repair_history. destruct dry; [eauto|]. simpl.
  pose proof (safe_repaired _ Hs) as Hr. rewrite <- repair_history_ref in Hr.
  destruct (repair_history (conversation (state a))) as [its rep]. simpl in Hr.
  destruct (report_changed rep); [|by eauto].
  destruct (returns_replace its false (modify (set_conversation []) a) Hr) as (a' & -> & Ha').
  simpl. eauto.
Qed.

Lemma returns_system_head prompt a :
  safe (conversation (state a)) →
  ∃ a' b, replace_system_head prompt a = Some (a', b) ∧ safe (conversation (state a')).
Proof.
  intros Hs. unfold replace_system_head. destruct (match conversation _ with [] => _ | _ => _ end);
    [eauto|].
  assert (Hr : safe (replace_or_insert_system_head (conversation (state a)) prompt).1).
  { unfold replace_or_insert_system_head. destruct Hs as [|i conv Hi Hs]; [by repeat constructor|].
    destruct i; try (by repeat constructor). case_match; by repeat constructor. }
  destruct (replace_or_insert_system_head _ _) as [c ch]. simpl in Hr.
  destruct (returns_replace c false a Hr) as (a' & -> & Ha'). simpl. eauto.
Qed.

Lemma safe_build td mr p tr cid rid a :
  safe (conversation (state a)) →
  safe (conversation (state (build_conversation_request td mr p tr cid rid a).1)).
Proof.
  intros Hs. pose proof (build_request_conv td mr p tr cid rid a) as E. unfold conv_of in E.
  rewrite E. destruct (persist_reminder_conv mr p a) as [E2|[r E2]]; unfold conv_of in E2;
    rewrite E2; [done|by apply safe_inject].
Qed.

Lemma last_query_some conv : is_Some (extract_last_user_query conv).
Proof.
  unfold extract_last_user_query.
  destruct (base.filter _ (rev conv)) as [|i l] eqn:E; [eauto|].
  assert (Hi : is_user i = true).
  { assert (Hin : i ∈ base.filter (λ i, is_user i = true) (rev conv)) by (rewrite E; left).
    by apply list_elem_of_filter in Hin as [? _]. }
  by destruct i.
Qed.

Lemma ensure_safe reason a :
  safe (conversation (state a)) →
  safe (conversation (state (ensure_conversation_integrity_with_reason reason a))).
Proof.
  intros Hs. pose proof (ensure_conv reason a) as E. unfold conv_of in E. rewrite E.
  by apply safe_integral.
Qed.

Lemma handle_returns cmd a :
  safe (conversation (state a)) → cmd_safe cmd →
  ∃ a' reply, handle_command cmd a = Some (a', reply) ∧ safe (conversation (state a')).
Proof.
  assert (Hno : ∀ r, returns r → ∃ a' reply, no_reply r = Some (a', reply) ∧
    safe (conversation (state a'))) by (intros ? (a' & -> & ?); simpl; eauto).
  intros Hs Hc. destruct cmd; simpl in *; try (by eauto);
    try (by apply Hno, returns_push_user); try (by apply Hno, returns_push);
    try (by apply Hno, returns_replace); try (by apply Hno, returns_restore).
  - destruct (returns_push_user item UserCancelled a Hc Hs) as (a' & E & Ha').
    unfold push_user_message. rewrite E. simpl. eauto.
  - apply Hno. unfold returns, record_token_usage. simpl. destruct (estimate_some _ Hs) as [t ->].
    simpl. eauto.
  - eexists _, _. split; [reflexivity|]. unfold record_subagent_usage. repeat case_match; done.
  - eexists _, _. split; [reflexivity|]. unfold mark_usage_incomplete. repeat case_match; done.
  - destruct (default false turn_active); [eauto|]. unfold reply_with.
    destruct (returns_repair_history dry_run a Hs) as (a' & r & -> & Ha'). simpl. eauto.
  - unfold reply_with. destruct (returns_system_head prompt a Hs) as (a' & r & -> & Ha').
    simpl. eauto.
  - eexists _, _. split; [reflexivity|]. unfold modify, seal_harness_trace_turn. simpl.
    by case_match.
  - eexists _, _. split; [reflexivity|]. by apply ensure_safe.
  - pose proof (safe_build tool_definitions memory_reminder persist_memory_reminder tr conv_id
      req_id _ (ensure_safe UserCancelled a Hs)) as Hb.
    unfold ensure_conversation_integrity.
    destruct (build_conversation_request _ _ _ _ _ _ _) as [a2 r]. simpl in *. eauto.
  - destruct (estimate_messages_some _ Hs) as [t ->]. simpl. eauto.
  - destruct (returns_truncate target_prompt_index a Hs) as (a' & -> & Ha'). simpl. eauto.
  - eexists _, _. split; [reflexivity|]. unfold modify, seal_harness_trace_turn. simpl.
    by case_match.
  - destruct (last_query_some (conversation (state a))) as [q ->]. simpl. eauto.
Qed.

(** ** Property *)

(** On a conversation and commands without a code-interpreter call whose byte
    100 falls inside a character, no command sequence makes the preview slice
    inside a character: every handler returns and keeps the conversation in
    that class. *)
Theorem actor_never_panics cmds a
    (Hconv : safe (conversation (state a))) (Hcmds : Forall cmd_safe cmds) :
  ∃ a', run cmds a = Some a' ∧ safe (conversation (state a')).
Proof.
  revert a Hconv. induction Hcmds as [|cmd cmds Hc Hcmds IH]; intros a Hs; simpl; [eauto|].
  destruct (handle_returns cmd a Hs Hc) as (a1 & r & -> & Hs1). simpl. by apply IH.
Qed.

End Safety.

(** ** Examples *)

Lemma actor_never_panics_witness :
  let cmds := [PushUserMessage (item_user (lit "go")); demo_build;
               PushAssistantResponse (BackendToolCall {| bt_kind :=
                 CodeInterpreter (Some (repeat 97%Z 120)) |});
               RecordTokenUsage 10; GetEstimatedMessagesTokens] in
  safe demo_broken ∧ Forall cmd_safe cmds ∧
  ∃ a', run cmds (demo_actor demo_broken) = Some a' ∧ safe (conversation (state a')).
Proof.
  intros cmds.
  assert (Hs : safe demo_broken) by repeat constructor.
  assert (Hc : Forall cmd_safe cmds) by (repeat constructor; vm_compute; eexists; reflexivity).
  split; [exact Hs|]. split; [exact Hc|].
  exact (actor_never_panics cmds (demo_actor demo_broken) Hs Hc).
Defined.

(** A code-interpreter call of 99 ASCII characters and one two-byte character
    panics the next token recount. *)
Theorem text_summary_panics :
  let item := BackendToolCall {| bt_kind :=
    CodeInterpreter (Some (repeat 97%Z 99 ++ [233%Z])) |} in
  run [PushAssistantResponse item; RecordTokenUsage 10] (demo_actor []) = None.
Proof. vm_compute. reflexivity. Qed.
