(* ===== verification/RequestFacts.v ===== *)
(** * Requests: pairing and pruning

    The theorem about [BuildConversationRequest]: the request that goes to the
    sampler, and the conversation the actor keeps, have every call answered next
    to it.  Then pruning: both loops walk the conversation backward with a turn
    counter, and a reference gives every item its age from the user items after
    it. *)
From S2P Require Import Prelude RustStr F64 TokenEstimation Conversation Sampling Concrete.
From S2P Require Import ToolPairing ToolPairingFacts HistoryRepair Usage RequestBuilder.
From S2P Require Import State Actor Demo ActorLemmas.

#[local] Opaque repair_dangling_tool_calls dedup_duplicate_tool_results.

Section Requests.
Context {RS : RsApi} {SJ : SerdeJson}.

(** C8: whatever the conversation looks like when [BuildConversationRequest] is
    processed, and whatever pruning, image eviction and reminder injection then
    do, in the request and in the retained conversation every tool call has its
    result in the run after its assistant item, and (when no assistant item
    repeats a call id) no more than one. *)
Theorem built_request_well_paired a td mr p tr cid rid a' reply
    (Hcmd : handle_command (BuildConversationRequest td mr p tr cid rid) a = Some (a', reply)) :
  ∃ request, reply = RRequest request ∧
    calls_answered (items request) ∧ calls_answered (conversation (state a')) ∧
    (calls_distinct (conversation (state a)) →
     results_unique (items request) ∧ results_unique (conversation (state a'))).
Proof.
  simpl in Hcmd.
  set (a1 := ensure_conversation_integrity a) in *.
  assert (E1 : conv_of a1 = integral UserCancelled (conv_of a)) by apply ensure_conv.
  destruct (request_pairing calls_answered td mr p tr cid rid a1) as [Hi Hc].
  { apply skeleton_calls_answered. }
  { intros sys c. by rewrite calls_answered_cons_other. }
  { rewrite E1. apply integral_answered. }
  assert (Hu : calls_distinct (conversation (state a)) →
    results_unique (items (build_conversation_request td mr p tr cid rid a1).2) ∧
    results_unique (conv_of (build_conversation_request td mr p tr cid rid a1).1)).
  { intros Hd. apply request_pairing.
    - apply skeleton_results_unique.
    - intros sys c. by rewrite results_unique_cons_other.
    - rewrite E1. by apply integral_unique. }
  destruct (build_conversation_request td mr p tr cid rid a1) as [a2 request].
  injection Hcmd as <- <-. by exists request.
Qed.

End Requests.

Lemma built_request_well_paired_witness :
  ∃ a' reply request,
    handle_command demo_build (demo_actor demo_broken) = Some (a', reply) ∧
    reply = RRequest request ∧ length (items request) = 7%nat ∧
    calls_answered (items request) ∧ calls_answered (conversation (state a')) ∧
    (calls_distinct demo_broken →
     results_unique (items request) ∧ results_unique (conversation (state a'))).
Proof.
  destruct (handle_command demo_build (demo_actor demo_broken)) as [[a' reply]|] eqn:E;
    [|vm_compute in E; discriminate E].
  destruct (built_request_well_paired _ _ _ _ _ _ _ _ _ E) as (request & Er & Hi & Hc & Hu).
  exists a', reply, request. repeat (split; [done|]).
  split; [|by split].
  assert (El : (λ x, match x with
                     | Some (_, RRequest r) => length (items r)
                     | _ => 0%nat
                     end) (handle_command demo_build (demo_actor demo_broken)) = 7%nat)
    by (vm_compute; reflexivity).
  rewrite E, Er in El. exact El.
Defined.

#[local] Opaque repair_dangling_tool_calls dedup_duplicate_tool_results.

Section Pruning.
Context {RS : RsApi} {SJ : SerdeJson}.
Implicit Types (a : ChatStateActor) (conv rest : list ConversationItem).

(** The turns completed after an item: the user items after it, the most recent
    of which opened the turn still running. *)
Definition turn_age rest : Z := Z.max 0 (count_users rest - 1).

(** [f age item] at every item. *)
Fixpoint map_ages (f : Z → ConversationItem → ConversationItem) conv : list ConversationItem :=
  match conv with
  | [] => []
  | item :: rest => f (turn_age rest) item :: map_ages f rest
  end.

(** The backward walk both loops share, with an arbitrary starting state. *)
Fixpoint walk (f : Z → ConversationItem → ConversationItem) (age : Z) (seen : bool)
    (rev_items : list ConversationItem) : list ConversationItem :=
  match rev_items with
  | [] => []
  | item :: rest =>
      if is_user item
      then item :: walk f (if seen then age + 1 else age)%Z true rest
      else f age item :: walk f age seen rest
  end.

Lemma count_users_app conv conv' :
  count_users (conv ++ conv') = (count_users conv + count_users conv')%Z.
Proof. unfold count_users. rewrite filter_app, length_app. lia. Qed.

Lemma count_users_one item : count_users [item] = (if is_user item then 1 else 0)%Z.
Proof.
  unfold count_users. rewrite filter_cons, filter_nil. by destruct (is_user item).
Qed.

Lemma count_users_nonneg conv : (0 ≤ count_users conv)%Z.
Proof. unfold count_users. lia. Qed.

(** Ages as the walk counts them, from its state at the end of the list. *)
Definition age_from (age : Z) (seen : bool) (users : Z) : Z :=
  (age + if seen then users else Z.max 0 (users - 1))%Z.

Fixpoint map_ages_from f (age : Z) (seen : bool) conv : list ConversationItem :=
  match conv with
  | [] => []
  | item :: rest => f (age_from age seen (count_users rest)) item :: map_ages_from f age seen rest
  end.

Lemma map_ages_from_snoc f age seen conv item :
  map_ages_from f age seen (conv ++ [item])
  = map_ages_from f (if is_user item then (if seen then age + 1 else age)%Z else age)
      (is_user item || seen) conv ++ [f age item].
Proof.
  induction conv as [|x conv IH]; simpl.
  - unfold age_from. unfold count_users. simpl. destruct seen; by rewrite Z.add_0_r.
  - rewrite IH. f_equal. f_equal. unfold age_from. rewrite count_users_app, count_users_one.
    pose proof (count_users_nonneg conv). destruct (is_user item), seen; simpl; lia.
Qed.

Lemma walk_spec f age seen conv :
  (∀ n u, f n (User u) = User u) →
  rev (walk f age seen (rev conv)) = map_ages_from f age seen conv.
Proof.
  intros Hf. revert age seen. induction conv as [|item conv IH] using rev_ind; intros age seen; [done|].
  rewrite rev_app_distr, map_ages_from_snoc. simpl.
  destruct (is_user item) eqn:Hu; simpl; rewrite IH; f_equal.
  destruct item; try done. by rewrite Hf.
Qed.

Lemma map_ages_from_start f conv : map_ages_from f 0 false conv = map_ages f conv.
Proof. induction conv as [|x conv IH]; simpl; [done|]. by rewrite IH. Qed.

Lemma walk_is_map_ages f conv :
  (∀ n u, f n (User u) = User u) → rev (walk f 0 false (rev conv)) = map_ages f conv.
Proof. intros Hf. by rewrite walk_spec, map_ages_from_start. Qed.

Lemma lookup_map_ages f conv i item :
  conv !! i = Some item → map_ages f conv !! i = Some (f (turn_age (drop (S i) conv)) item).
Proof.
  revert i. induction conv as [|x conv IH]; intros [|i] Hi; simplify_eq/=; [done|]. by apply IH.
Qed.

Lemma length_map_ages f conv : length (map_ages f conv) = length conv.
Proof. induction conv; simpl; congruence. Qed.

(** ** The request copy *)

Definition prune_item (cfg : PruningConfig) (age : Z) (item : ConversationItem) : ConversationItem :=
  match item with ToolResult t => ToolResult (prune_tool_result age t cfg) | _ => item end.

Lemma prune_loop_walk age seen its cfg :
  prune_loop age seen its cfg = walk (prune_item cfg) age seen its.
Proof. revert age seen. induction its as [|[] its IH]; intros age seen; simpl; by rewrite ?IH. Qed.

Lemma prune_is_map_ages conv cfg :
  enabled cfg = true → prune_conversation conv cfg = map_ages (prune_item cfg) conv.
Proof.
  intros He. unfold prune_conversation. rewrite He, prune_loop_walk. by apply walk_is_map_ages.
Qed.

Lemma length_placeholder : length HARD_CLEAR_PLACEHOLDER = 31%nat.
Proof. vm_compute. reflexivity. Qed.
Lemma length_separator : length SOFT_TRIM_SEPARATOR = 15%nat.
Proof. vm_compute. reflexivity. Qed.

Lemma soft_trim_length t cfg age :
  (0 ≤ soft_trim_head cfg)%Z → (0 ≤ soft_trim_tail cfg)%Z →
  (keep_last_n_turns cfg ≤ age)%Z →
  let t' := prune_tool_result age t cfg in
  (Z.of_nat (length (tr_content t')) ≤
   Z.max (soft_trim_threshold cfg)
     (Z.max 31 (soft_trim_head cfg + 15 + soft_trim_tail cfg)))%Z.
Proof.
  intros Hh Ht Hk. unfold prune_tool_result. destruct (Z.ltb_spec age (keep_last_n_turns cfg)); [lia|].
  destruct (hard_clear_age_turns cfg <=? age)%Z.
  { unfold str_eqb. case_bool_decide as E; [rewrite E|]; cbn [set_tr_content tr_content];
      rewrite length_placeholder; lia. }
  destruct (Z.ltb_spec (soft_trim_threshold cfg) (Z.of_nat (length (tr_content t))));
    cbn [set_tr_content tr_content]; [|lia].
  rewrite !length_app. rewrite length_separator.
  unfold safe_char_slice, safe_char_slice_tail. rewrite length_take, length_drop.
  case_match eqn:E; [apply Z.leb_le in E | apply Z.leb_gt in E; rewrite length_drop]; lia.
Qed.

(** ** The retained history *)

Definition clear_item (th age : Z) (item : ConversationItem) : ConversationItem :=
  match item with
  | ToolResult t => if (age <? th)%Z then item else ToolResult (set_tr_content t HARD_CLEAR_PLACEHOLDER)
  | _ => item
  end.

Lemma clear_item_diff th age item :
  item ≠ clear_item th age item →
  (th ≤ age)%Z ∧
  ∃ t, item = ToolResult t ∧
       clear_item th age item = ToolResult (set_tr_content t HARD_CLEAR_PLACEHOLDER).
Proof.
  destruct item as [| | |t| |]; cbn [clear_item]; try done.
  destruct (Z.ltb_spec age th); [done|]. intros _. split; [done|]. by exists t.
Qed.

Lemma hard_clear_walk th age seen its :
  (hard_clear_loop th age seen its).1 = walk (clear_item th) age seen its.
Proof.
  revert age seen. induction its as [|[] its IH]; intros age seen; simpl; [done|..];
    try (match goal with |- context [hard_clear_loop th ?g ?b its] => specialize (IH g b) end;
         destruct (hard_clear_loop _ _ _ its); simpl in *; by rewrite IH).
  specialize (IH age seen). destruct (hard_clear_loop _ _ _ its). simpl in *.
  destruct (age <? th)%Z; simpl; [by rewrite IH|]. unfold str_eqb.
  case_bool_decide as E; simpl; rewrite IH; [|done]. f_equal. unfold set_tr_content.
  rewrite <- E. by destruct t.
Qed.

Lemma hard_clear_is_map_ages th conv :
  rev (hard_clear_loop th 0 false (rev conv)).1 = map_ages (clear_item th) conv.
Proof. rewrite hard_clear_walk. by apply walk_is_map_ages. Qed.

(** The threshold the actor computes. *)
Definition effective_threshold a : Z :=
  saturating_add (hard_clear_age_turns (pruning_config a))
    (saturating_sub (count_users (conversation (state a))) (prompt_index (state a))).

Lemma prune_retained_conv a a' :
  prune_retained_conversation a = Some a' →
  conversation (state a') = conversation (state a) ∨
  conversation (state a') = map_ages (clear_item (effective_threshold a)) (conversation (state a)).
Proof.
  unfold prune_retained_conversation. intros Hp.
  destruct (negb _); [inv_ok; by left|]. destruct (prompt_index _ <? _)%Z; [inv_ok; by left|].
  apply bind_Some in Hp as (? & _ & Hp). fold (effective_threshold a) in Hp.
  right. rewrite <- hard_clear_is_map_ages.
  destruct (hard_clear_loop _ _ _ _) as [l n]. destruct (0 <? n)%nat; by inv_ok.
Qed.

(** User items that are not marked synthetic. *)
Definition count_real (synth : ConversationItem → bool) conv : Z :=
  Z.of_nat (length (base.filter (λ i, is_user i && negb (synth i) = true) conv)).
Definition count_synth (synth : ConversationItem → bool) conv : Z :=
  Z.of_nat (length (base.filter (λ i, is_user i && synth i = true) conv)).

Lemma count_real_synth synth conv :
  count_users conv = (count_real synth conv + count_synth synth conv)%Z.
Proof.
  unfold count_users, count_real, count_synth.
  induction conv as [|x conv IH]; [done|]. rewrite !filter_cons.
  destruct (is_user x), (synth x); simpl in *; lia.
Qed.

Lemma count_synth_drop synth i conv : (count_synth synth (drop i conv) ≤ count_synth synth conv)%Z.
Proof.
  unfold count_synth. rewrite <- (take_drop i conv) at 2. rewrite filter_app, length_app. lia.
Qed.

Lemma count_users_drop i conv : (count_users (drop i conv) ≤ Z.of_nat (length conv))%Z.
Proof.
  unfold count_users.
  pose proof (sublist_length _ _ (sublist_filter (λ i, is_user i = true) (drop i conv))) as Hl.
  rewrite length_drop in Hl. lia.
Qed.

Lemma count_synth_nonneg synth conv : (0 ≤ count_synth synth conv)%Z.
Proof. unfold count_synth. lia. Qed.

(** An age past the compensated threshold leaves more than [h] real turns. *)
Lemma threshold_arith users idx after_i synth synth_after real_after h :
  (0 ≤ h)%Z → (saturating_add h (saturating_sub users idx) ≤ Z.max 0 (after_i - 1))%Z →
  (0 ≤ synth)%Z → (synth ≤ saturating_sub users idx)%Z → (after_i ≤ U64_MAX)%Z →
  after_i = (real_after + synth_after)%Z → (synth_after ≤ synth)%Z →
  (h ≤ Z.max 0 (after_i - 1))%Z ∧ (0 < h → h < real_after)%Z.
Proof. unfold saturating_add, saturating_sub, U64_MAX. lia. Qed.

(** ** Properties *)

(** The backward pruning loop of the request copy does to every tool result
    what its age prescribes, age being the number of user turns completed after
    it: untouched when younger than [keep_last_n_turns], the placeholder from
    [hard_clear_age_turns] on, head and tail in between; nothing else changes,
    and an old result is bounded in characters. *)
Theorem prune_conversation_by_age conv cfg i item
    (He : enabled cfg = true) (Hi : conv !! i = Some item) :
  let age := turn_age (drop (S i) conv) in
  length (prune_conversation conv cfg) = length conv ∧
  prune_conversation conv cfg !! i = Some (prune_item cfg age item) ∧
  (age < keep_last_n_turns cfg → prune_conversation conv cfg !! i = Some item)%Z ∧
  (∀ t, prune_conversation conv cfg !! i = Some (ToolResult t) →
   (0 ≤ soft_trim_head cfg)%Z → (0 ≤ soft_trim_tail cfg)%Z → (keep_last_n_turns cfg ≤ age)%Z →
   (Z.of_nat (length (tr_content t)) ≤
    Z.max (soft_trim_threshold cfg)
      (Z.max 31 (soft_trim_head cfg + 15 + soft_trim_tail cfg)))%Z).
Proof.
  intros age. rewrite prune_is_map_ages by done. rewrite length_map_ages.
  rewrite (lookup_map_ages _ _ _ _ Hi). fold age. repeat split.
  - intros Ha. f_equal. destruct item; simpl; try done. unfold prune_tool_result.
    by rewrite (proj2 (Z.ltb_lt _ _) Ha).
  - intros t E Hh Ht Hk. destruct item; simplify_eq/=. by apply soft_trim_length.
Qed.

(** the eager clearing of the retained history never touches a tool result
    before [hard_clear_age_turns] real turns have gone by, however many
    synthetic user items the session injected: if item [i] changed, it is a tool
    result now holding the placeholder, and more than [hard_clear_age_turns]
    real user items follow it, whenever at most
    [total user items - prompt_index] user items are synthetic. *)
Theorem prune_retained_respects_age a a' i item item' synth
    (Hprune : prune_retained_conversation a = Some a')
    (Hlen : (Z.of_nat (length (conversation (state a))) ≤ U64_MAX)%Z)
    (Hi : conversation (state a) !! i = Some item)
    (Hi' : conversation (state a') !! i = Some item')
    (Hdiff : item ≠ item')
    (Hsynth : (count_synth synth (conversation (state a))
               ≤ saturating_sub (count_users (conversation (state a))) (prompt_index (state a)))%Z)
    (Hage : (0 ≤ hard_clear_age_turns (pruning_config a))%Z) :
  (∃ t, item = ToolResult t ∧ item' = ToolResult (set_tr_content t HARD_CLEAR_PLACEHOLDER)) ∧
  (hard_clear_age_turns (pruning_config a)
   ≤ turn_age (drop (S i) (conversation (state a))))%Z ∧
  (0 < hard_clear_age_turns (pruning_config a) →
   hard_clear_age_turns (pruning_config a)
   < count_real synth (drop (S i) (conversation (state a))))%Z.
Proof.
  destruct (prune_retained_conv _ _ Hprune) as [E|E]; rewrite E in Hi'; [congruence|].
  rewrite (lookup_map_ages _ _ _ _ Hi) in Hi'. apply (inj Some) in Hi'. subst item'.
  set (age := turn_age (drop (S i) (conversation (state a)))) in *.
  pose proof (clear_item_diff _ _ _ Hdiff) as Hclear.
  destruct Hclear as [Hth Ht]. split; [exact Ht|]. clear Ht Hdiff E.
  apply (threshold_arith (count_users (conversation (state a))) (prompt_index (state a))
    (count_users (drop (S i) (conversation (state a))))
    (count_synth synth (conversation (state a)))
    (count_synth synth (drop (S i) (conversation (state a)))));
    [done|done|apply count_synth_nonneg|done| |apply count_real_synth|apply count_synth_drop].
  pose proof (count_users_drop (S i) (conversation (state a))). lia.
Qed.

End Pruning.

(** ** Examples *)

(** Twelve turns with one result each. *)
Definition demo_long : list ConversationItem :=
  concat (repeat [item_user (lit "q"); demo_calls ["a"]; demo_result "a" "out"] 12).

Definition demo_long_actor : ChatStateActor :=
  modify (set_prompt_index 12) (demo_actor demo_long).

Lemma prune_conversation_by_age_witness :
  enabled pruning_default = true ∧ demo_long !! 2%nat = Some (demo_result "a" "out") ∧
  prune_conversation demo_long pruning_default !! 2%nat
    = Some (item_tool_result (lit "a") HARD_CLEAR_PLACEHOLDER).
Proof.
  split; [reflexivity|]. split; [reflexivity|].
  destruct (prune_conversation_by_age demo_long pruning_default 2 (demo_result "a" "out")
              eq_refl eq_refl) as (_ & E & _).
  rewrite E. vm_compute. reflexivity.
Defined.

Lemma prune_retained_respects_age_witness :
  ∃ a', prune_retained_conversation demo_long_actor = Some a' ∧
    conversation (state a') !! 2%nat = Some (item_tool_result (lit "a") HARD_CLEAR_PLACEHOLDER) ∧
    (10 < count_real (λ _, false) (drop 3 demo_long))%Z.
Proof.
  destruct (prune_retained_conversation demo_long_actor) as [a'|] eqn:E;
    [|vm_compute in E; discriminate E].
  exists a'. split; [done|].
  assert (E2 : (λ r, match r with Some a => conversation (state a) !! 2%nat | None => None end)
    (prune_retained_conversation demo_long_actor)
    = Some (item_tool_result (lit "a") HARD_CLEAR_PLACEHOLDER)) by (vm_compute; reflexivity).
  rewrite E in E2. split; [exact E2|].
  apply (prune_retained_respects_age demo_long_actor a' 2 (demo_result "a" "out")
           (item_tool_result (lit "a") HARD_CLEAR_PLACEHOLDER) (λ _, false) E).
  - vm_compute. discriminate.
  - reflexivity.
  - exact E2.
  - intros Heq. vm_compute in Heq. discriminate Heq.
  - vm_compute. discriminate.
  - vm_compute. discriminate.
  - vm_compute. reflexivity.
Defined.
