(* ===== verification/RequestBodies.v ===== *)
(** * Request bodies: images and the memory reminder

    The eviction loop works on recorded positions; the reference replaces the
    first [n] images in reading order.  Also [strip_images].  Injecting a memory
    reminder twice leaves one block: the text law behind
    [inject_memory_reminder]. *)
From S2P Require Import Prelude RustStr F64 TokenEstimation Conversation Sampling Concrete.
From S2P Require Import StrSearch ToolPairing HistoryRepair Usage RequestBuilder State Actor Demo.

Section Images.
Context {RS : RsApi}.
Implicit Types (conv : list ConversationItem) (ps : list ContentPart) (n i j : nat).

Definition PH : ContentPart := Text IMAGE_COMPACT_PLACEHOLDER.

(** The first [n] images of a part list replaced, and what is left of [n]. *)
Fixpoint evict_parts n ps : list ContentPart * nat :=
  match ps with
  | [] => ([], n)
  | Image url :: ps' =>
      match n with
      | O => (ps, O)
      | S n' => let '(r, m) := evict_parts n' ps' in (PH :: r, m)
      end
  | Text t :: ps' => let '(r, m) := evict_parts n ps' in (Text t :: r, m)
  end.

Fixpoint evict_first n conv : list ConversationItem :=
  match conv with
  | [] => []
  | User u :: rest =>
      let '(ps, m) := evict_parts n (u_content u) in
      User (set_u_content u ps) :: evict_first m rest
  | item :: rest => item :: evict_first n rest
  end.

Definition images_in ps : nat := length (base.filter (λ p, is_image p = true) ps).
Arguments images_in : simpl never.

Lemma evict_parts_zero ps : evict_parts 0 ps = (ps, 0%nat).
Proof. induction ps as [|[] ps IH]; simpl; [done| |done]. by rewrite IH. Qed.

Lemma evict_first_zero conv : evict_first 0 conv = conv.
Proof.
  induction conv as [|[|u| | | |] conv IH]; simpl; try congruence.
  rewrite evict_parts_zero, IH. by destruct u.
Qed.

Lemma images_in_cons p ps :
  images_in (p :: ps) = ((if is_image p then 1 else 0) + images_in ps)%nat.
Proof. unfold images_in. rewrite filter_cons. by destruct (is_image p). Qed.

Lemma length_part_images i j ps : length (part_images i j ps) = images_in ps.
Proof.
  revert j. induction ps as [|[] ps IH]; intros j; simpl; rewrite ?images_in_cons, ?IH; done.
Qed.

Lemma evict_parts_rest n ps : (evict_parts n ps).2 = (n - images_in ps)%nat.
Proof.
  revert n. induction ps as [|p ps IH]; intros n; [unfold images_in; simpl; lia|].
  rewrite images_in_cons. destruct p as [t|url]; cbn [is_image evict_parts].
  - specialize (IH n). destruct (evict_parts n ps). cbn [snd] in *. lia.
  - destruct n as [|n]; [done|]. specialize (IH n). destruct (evict_parts n ps).
    cbn [snd] in *. lia.
Qed.

Lemma length_evict_parts n ps : length (evict_parts n ps).1 = length ps.
Proof.
  revert n. induction ps as [|[t|url] ps IH]; intros n; simpl; [done| |destruct n as [|n]; [done|]];
    match goal with |- context [evict_parts ?m ps] => specialize (IH m) end;
    destruct (evict_parts _ ps); simpl in *; lia.
Qed.

(** The [n]-th image of a part list is at the recorded position, and evicting
    it is one more step of the reference. *)
Lemma evict_parts_step n i j ps i' j' b :
  part_images i j ps !! n = Some (i', j', b) →
  i' = i ∧ (j ≤ j' < j + length ps)%nat ∧
  evict_parts (S n) ps = (<[(j' - j)%nat := PH]> (evict_parts n ps).1, 0%nat).
Proof.
  revert n j. induction ps as [|[t|url] ps IH]; intros n j Hn; simpl in *; [done| |].
  - destruct (IH _ _ Hn) as (-> & Hj & E). repeat split; try lia.
    pose proof (IH n (S j) Hn) as _. destruct n as [|n].
    + simpl in E. rewrite E. rewrite evict_parts_zero. cbn [fst].
      destruct (j' - j)%nat eqn:Ej; [lia|]. by replace (j' - S j)%nat with n by lia.
    + rewrite E. destruct (evict_parts (S n) ps) as [r m]. cbn [fst].
      destruct (j' - j)%nat eqn:Ej; [lia|]. by replace (j' - S j)%nat with n0 by lia.
  - destruct n as [|n]; simpl in Hn.
    + injection Hn as <- <- <-. rewrite Nat.sub_diag. repeat split; try lia.
      by rewrite evict_parts_zero.
    + destruct (IH _ _ Hn) as (-> & Hj & E). repeat split; try lia.
      rewrite E. destruct (evict_parts n ps) as [r m]. cbn [fst].
      destruct (j' - j)%nat eqn:Ej; [lia|]. by replace (j' - S j)%nat with n0 by lia.
Qed.

Lemma evict_first_step n k conv i j b :
  inline_images k conv !! n = Some (i, j, b) →
  ∃ u, (k ≤ i)%nat ∧ evict_first n conv !! (i - k)%nat = Some (User u) ∧
    (j < length (u_content u))%nat ∧
    <[(i - k)%nat := User (set_u_content u (<[j := PH]> (u_content u)))]> (evict_first n conv)
    = evict_first (S n) conv.
Proof.
  revert n k. induction conv as [|item conv IH]; intros n k Hn; [done|].
  cbn [inline_images] in Hn. apply lookup_app_Some in Hn as [Hn|[Hle Hn]].
  - destruct item as [|u| | | |]; try done. cbn [user_parts] in Hn.
    pose proof (evict_parts_step n k 0 (u_content u) i j b Hn) as (-> & Hj & E).
    rewrite Nat.sub_diag. cbn [evict_first]. rewrite E.
    pose proof (evict_parts_rest n (u_content u)) as Hr.
    pose proof (lookup_lt_Some _ _ _ Hn) as Hlt. rewrite length_part_images in Hlt.
    pose proof (length_evict_parts n (u_content u)) as Hlen.
    destruct (evict_parts n (u_content u)) as [ps m]. cbn [fst snd] in *.
    replace m with 0%nat by lia. rewrite Nat.sub_0_r.
    exists (set_u_content u ps). repeat split; simpl; lia.
  - rewrite length_part_images in Hle, Hn. destruct (IH _ _ Hn) as (u & Hk & Hl & Hj & E).
    assert (Hi : (i - k = S (i - S k))%nat) by lia.
    exists u. rewrite Hi. split; [lia|].
    assert (Heq : ∀ m, (images_in (user_parts item) ≤ m)%nat →
      ∃ x, evict_first m (item :: conv) = x :: evict_first (m - images_in (user_parts item)) conv
           ∧ x = match item with User u' => User (set_u_content u' (evict_parts m (u_content u')).1)
                               | _ => item end).
    { intros m Hm. destruct item as [|u'| | | |]; cbn [user_parts] in *;
        try (eexists; split; [cbn [evict_first]; unfold images_in; simpl; by rewrite Nat.sub_0_r|done]).
      cbn [evict_first]. pose proof (evict_parts_rest m (u_content u')) as Hr.
      destruct (evict_parts m (u_content u')) as [ps r]. cbn [fst snd] in *. subst r. eauto. }
    destruct (Heq n Hle) as (x & Ex & Hx). destruct (Heq (S n) ltac:(lia)) as (y & Ey & Hy).
    rewrite Ex, Ey. split; [exact Hl|]. split; [exact Hj|].
    assert (Ei : ∀ (v : ConversationItem) l,
      <[S (i - S k) := v]> (x :: l) = x :: <[(i - S k)%nat := v]> l) by done.
    rewrite Ei.
    replace (S n - images_in (user_parts item))%nat
      with (S (n - images_in (user_parts item)))%nat by lia.
    rewrite E. f_equal. subst x y. destruct item as [|u'| | | |]; try done. cbn [user_parts] in *.
    do 2 f_equal. revert Hle. clear. generalize (u_content u'). intros ps. revert n.
    induction ps as [|[t|url] ps IH]; intros n Hle; simpl; [done| |].
    + rewrite images_in_cons in Hle. simpl in Hle. specialize (IH n Hle).
      destruct (evict_parts n ps) as [r1 m1]. simpl in IH.
      destruct (evict_parts (S n) ps) as [r2 m2]. simpl in *. by rewrite IH.
    + rewrite images_in_cons in Hle. simpl in Hle. destruct n as [|n]; [lia|].
      specialize (IH n ltac:(lia)). simpl.
      destruct (evict_parts n ps) as [r1 m1]. destruct (evict_parts (S n) ps) as [r2 m2].
      simpl in *. by rewrite IH.
Qed.

(** The running estimate after evicting the images of sizes [bs]. *)
Definition running_after (ph start : Z) (bs : list Z) : Z :=
  foldl (λ r b, saturating_sub r (saturating_sub b ph)) start bs.

Lemma evict_loop_spec ph target conv start imgs n cur :
  drop n (inline_images 0 conv) = imgs →
  cur = running_after ph start (take n (inline_images 0 conv)).*2 →
  (∀ k, (k < n)%nat → (target < running_after ph start (take k (inline_images 0 conv)).*2)%Z) →
  let '(out, o) := evict_loop imgs (evict_first n conv) cur target ph n in
  out = evict_first (evicted o) conv ∧
  body_bytes_after o = running_after ph start (take (evicted o) (inline_images 0 conv)).*2 ∧
  (evicted o ≤ length (inline_images 0 conv) ∨ evicted o = n)%nat ∧
  ((body_bytes_after o ≤ target)%Z ∨ (length (inline_images 0 conv) ≤ evicted o)%nat) ∧
  (∀ k, (k < evicted o)%nat →
     (target < running_after ph start (take k (inline_images 0 conv)).*2)%Z).
Proof.
  revert n cur. induction imgs as [|[[i j] b] imgs IH]; intros n cur Hd Hcur Hprev; simpl.
  - apply (f_equal length) in Hd. rewrite length_drop in Hd. simpl in Hd.
    repeat split; auto. right. simpl. lia.
  - destruct (Z.leb_spec cur target) as [Hle|Hgt].
    { repeat split; auto. }
    assert (Hn : inline_images 0 conv !! n = Some (i, j, b)).
    { rewrite <- (Nat.add_0_r n), <- lookup_drop, Hd. done. }
    destruct (evict_first_step n 0 conv i j b Hn) as (u & _ & Hu & Hj & E).
    rewrite Nat.sub_0_r in Hu, E. rewrite Hu.
    destruct (Nat.ltb_spec j (length (u_content u))); [|lia].
    fold PH. rewrite E.
    assert (Ht : running_after ph start (take (S n) (inline_images 0 conv)).*2
                 = saturating_sub cur (saturating_sub b ph)).
    { rewrite (take_S_r _ _ _ Hn), fmap_app. unfold running_after. rewrite foldl_app. simpl.
      unfold running_after in Hcur. by rewrite <- Hcur. }
    specialize (IH (S n) (saturating_sub cur (saturating_sub b ph))).
    destruct (evict_loop imgs _ _ _ _ _) as [out o]. destruct IH as (E1 & E2 & E3 & E4 & E5).
    + rewrite (drop_S _ _ _ Hn) in Hd. by injection Hd.
    + by rewrite Ht.
    + intros k Hk. destruct (decide (k = n)) as [->|]; [by rewrite <- Hcur|apply Hprev; lia].
    + repeat split; auto. left. destruct E3 as [?|E3]; [done|]. rewrite E3.
      apply lookup_lt_Some in Hn. lia.
Qed.

(** ** Properties *)

(** Image eviction replaces exactly the oldest [evicted] images of the
    conversation, in reading order, and nothing else; it stops as soon as the
    tracked size is within the target, so [evicted] is the least number of
    oldest images that reaches it, or every image when none does; within the
    budget it changes nothing. *)
Theorem compact_images_evicts_oldest {SJ : SerdeJson} conv current target :
  let '(out, o) := compact_images_to_byte_budget conv current target in
  let ph := json_part_bytes PH in
  let size k := running_after ph current (take k (inline_images 0 conv)).*2 in
  out = evict_first (evicted o) conv ∧
  body_bytes_after o = size (evicted o) ∧
  (evicted o ≤ length (inline_images 0 conv))%nat ∧
  ((body_bytes_after o ≤ target)%Z ∨ evicted o = length (inline_images 0 conv)) ∧
  (∀ k, (k < evicted o)%nat → (target < size k)%Z).
Proof.
  unfold compact_images_to_byte_budget.
  destruct (Z.leb_spec current target) as [Hle|Hgt]; simpl.
  { rewrite evict_first_zero. repeat split; auto; lia. }
  pose proof (evict_loop_spec (json_part_bytes PH) target conv current (inline_images 0 conv) 0
    current) as Hs.
  rewrite evict_first_zero in Hs. specialize (Hs eq_refl eq_refl ltac:(lia)).
  fold PH. destruct (evict_loop _ conv current target _ 0) as [out o].
  destruct Hs as (E1 & E2 & E3 & E4 & E5). repeat split; auto; [lia|].
  destruct E4 as [?|?]; [by left|right; lia].
Qed.

(** ** Stripping every image *)

Definition item_images (i : ConversationItem) : nat :=
  match i with
  | User u => images_in (u_content u)
  | ToolResult t => length (tr_images t)
  | _ => 0%nat
  end.

Lemma strip_image_parts_spec ps :
  images_in (strip_image_parts ps).1 = 0%nat ∧ (strip_image_parts ps).2 = images_in ps ∧
  length (strip_image_parts ps).1 = length ps.
Proof.
  induction ps as [|[t|url] ps (IH1 & IH2 & IH3)]; cbn [strip_image_parts]; [done| |];
    destruct (strip_image_parts ps) as [r n]; cbn [fst snd] in *;
    rewrite !images_in_cons; simpl; repeat split; lia.
Qed.

(** the 413 recovery removes every image of every user item and tool
    result, counts each exactly once, and keeps the number of items. *)
Theorem strip_images_removes_all its :
  let '(out, n) := strip_images its in
  Forall (λ item, item_images item = 0%nat) out ∧ n = sum_list (map item_images its) ∧
  length out = length its.
Proof.
  unfold strip_images. repeat split.
  - apply Forall_map, Forall_forall. intros i _. destruct i as [|u| |t| |]; simpl; try done.
    destruct (strip_image_parts_spec (u_content u)) as (E & _).
    destruct (strip_image_parts (u_content u)). done.
  - induction its as [|i its IH]; [done|]. simpl. rewrite IH. f_equal.
    destruct i as [|u| |t| |]; simpl; try done.
    destruct (strip_image_parts_spec (u_content u)) as (_ & E & _).
    by destruct (strip_image_parts (u_content u)).
  - by rewrite length_map.
Qed.

End Images.

(** ** Examples *)

(** The tracked size drifts from the real one when an image is smaller than the
    placeholder that replaces it: the sources saturate the difference at 0. *)
Theorem eviction_size_drifts :
  let conv := [User {| u_content := [Image (lit "data:,")]; u_synthetic_reason := None;
                       u_prior_turn_interrupt := None; u_prompt_index := None |}] in
  let '(out, o) := compact_images_to_byte_budget conv (conversation_body_bytes conv) 0 in
  evicted o = 1%nat ∧ body_bytes_after o = conversation_body_bytes conv ∧
  (body_bytes_after o < conversation_body_bytes out)%Z.
Proof. vm_compute. repeat split; done. Qed.

(** ** Prefixes *)

Lemma starts_with_prefix s p : starts_with s p = true ↔ p `prefix_of` s.
Proof.
  unfold starts_with. revert s. induction p as [|x p IH]; intros [|y s]; simpl.
  - split; [intros _; by exists []|done].
  - split; [intros _; by exists (y :: s)|done].
  - split; [done|intros [k Hk]; discriminate Hk].
  - destruct (Z.eqb_spec x y) as [->|Hne].
    + rewrite IH. split; [apply prefix_cons|apply prefix_cons_inv_2].
    + split; [done|]. intros Hp. by apply prefix_cons_inv_1 in Hp.
Qed.

Lemma find_some s p i :
  find s p = Some i ↔
  (i ≤ length s)%nat ∧ p `prefix_of` drop i s ∧ ∀ k, (k < i)%nat → ¬ p `prefix_of` drop k s.
Proof.
  revert i. induction s as [|x s IH]; intros i.
  - simpl. pose proof (starts_with_prefix [] p) as Hs. destruct (starts_with [] p).
    + split; [intros [= <-]; split; [done|]; split; [by apply Hs|lia]|].
      intros (Hi & _ & Hk). destruct i as [|i]; [done|]. by destruct (Hk 0%nat ltac:(lia)); apply Hs.
    + split; [done|]. intros (Hi & Hp & _). destruct i; simpl in *; [|lia]. by apply Hs in Hp.
  - cbn [find]. pose proof (starts_with_prefix (x :: s) p) as Hs. destruct (starts_with (x :: s) p).
    + split; [intros [= <-]; split; [simpl; lia|]; split; [by apply Hs|lia]|].
      intros (Hi & _ & Hk). destruct i as [|i]; [done|]. by destruct (Hk 0%nat ltac:(lia)); apply Hs.
    + split.
      * destruct (find s p) as [j|] eqn:E; [|done]. intros [= <-].
        destruct (proj1 (IH j) eq_refl) as (Hj & Hp & Hk). split; [simpl; lia|]. split; [done|].
        intros [|k] Hlt Hpk; [by apply Hs in Hpk|]. by apply (Hk k); [lia|].
      * intros (Hi & Hp & Hk). destruct i as [|i]; [by apply Hs in Hp|].
        rewrite (proj2 (IH i)); [done|]. simpl in *. split; [lia|]. split; [done|].
        intros k Hlt. apply (Hk (S k)). lia.
Qed.

Lemma find_none s p : find s p = None → ∀ k, (k ≤ length s)%nat → ¬ p `prefix_of` drop k s.
Proof.
  intros Hn k. induction k as [k IH] using lt_wf_ind. intros Hk Hp.
  assert (E : find s p = Some k); [|congruence].
  apply find_some. split; [done|]. split; [done|]. intros k' Hlt. apply IH; lia.
Qed.

(** A pattern without newline that starts inside [l] ends inside it. *)
Lemma prefix_before_newline (p l m : str) :
  NL ∉ p → p `prefix_of` l ++ NL :: m → p `prefix_of` l.
Proof.
  revert l. induction p as [|x p IH]; intros l Hni Hp; [by exists l|].
  apply not_elem_of_cons in Hni as [Hx Hni].
  destruct l as [|y l]; simpl in Hp; [by apply prefix_cons_inv_1 in Hp|].
  assert (x = y) as -> by by apply prefix_cons_inv_1 in Hp.
  apply prefix_cons. apply IH; [done|]. by apply prefix_cons_inv_2 in Hp.
Qed.

Lemma take_of_prefix {A} (l l' : list A) : l `prefix_of` l' → take (length l) l' = l.
Proof. intros [k ->]. apply take_app_length. Qed.

(** ** Trailing newlines *)

Lemma trim_end_prefix f s : trim_end_matches f s `prefix_of` s.
Proof.
  unfold trim_end_matches. destruct (drop_while_suffix f (rev s)) as [k E].
  exists (rev k). rewrite <- rev_app_distr, <- E. by rewrite rev_involutive.
Qed.

Lemma trim_newlines_idem s : trim_newlines_end (trim_newlines_end s) = trim_newlines_end s.
Proof. unfold trim_newlines_end, trim_end_matches. by rewrite rev_involutive, drop_while_idem. Qed.

Lemma trim_newlines_app s : trim_newlines_end (s ++ [NL; NL]) = trim_newlines_end s.
Proof. unfold trim_newlines_end, trim_end_matches. by rewrite rev_app_distr. Qed.

(** ** The text law *)

Abbreviation TAG := MEMORY_CONTEXT_OPEN_TAG.

Lemma tag_no_newline : NL ∉ TAG.
Proof. apply (bool_decide_unpack _). vm_compute. done. Qed.

(** The text [upsert_memory_reminder_text] returns. *)
Definition upserted (p r : str) : str := (upsert_memory_reminder_text p r).1.

(** The prompt before its first block, without trailing newlines. *)
Definition head_of (p : str) : str :=
  match find p TAG with
  | Some i => trim_newlines_end (take i p)
  | None => trim_newlines_end p
  end.

Definition has_block (p : str) : bool := match find p TAG with Some _ => true | None => false end.

Lemma head_of_prefix p : head_of p `prefix_of` p.
Proof.
  unfold head_of. destruct (find p TAG); [|apply trim_end_prefix].
  etrans; [apply trim_end_prefix|apply prefix_take].
Qed.

Lemma head_of_trimmed p : trim_newlines_end (head_of p) = head_of p.
Proof. unfold head_of. destruct (find p TAG); apply trim_newlines_idem. Qed.

(** No block starts inside the head. *)
Lemma head_of_no_tag p k : (k < length (head_of p))%nat → ¬ TAG `prefix_of` drop k p.
Proof.
  unfold head_of. intros Hk. destruct (find p TAG) as [i|] eqn:E.
  - apply find_some in E as (Hi & _ & Hno). apply Hno.
    pose proof (prefix_length _ _ (trim_end_prefix (λ c, (c =? NL)%Z) (take i p))) as Hl.
    unfold trim_newlines_end in Hk. rewrite length_take in Hl. lia.
  - apply (find_none _ _ E).
    pose proof (prefix_length _ _ (trim_end_prefix (λ c, (c =? NL)%Z) p)) as Hl.
    unfold trim_newlines_end in Hk. lia.
Qed.

Lemma tag_prefix_nonempty r : TAG `prefix_of` r → r ≠ [].
Proof. intros [k ->]. destruct TAG eqn:E; [|done]. vm_compute in E. discriminate E. Qed.

Lemma upserted_eq p r :
  TAG `prefix_of` r → (p = [] ∨ has_block p = true ∨ trim_newlines_end p ≠ []) →
  upserted p r = if is_empty (head_of p) then r else head_of p ++ [NL; NL] ++ r.
Proof.
  intros Hr Hp. unfold upserted, upsert_memory_reminder_text, head_of, has_block in *.
  destruct (find p TAG) as [i|] eqn:E; simpl.
  - assert (Et : take (length (trim_newlines_end (take i p))) p = trim_newlines_end (take i p)).
    { apply take_of_prefix. etrans; [apply trim_end_prefix|apply prefix_take]. }
    rewrite Et, trim_newlines_idem. unfold str_eqb. case_bool_decide as Eq; simpl; congruence.
  - assert (Hne : str_eqb (trim_end p) r = false).
    { unfold str_eqb. apply bool_decide_eq_false. intros Eq.
      apply (find_none _ _ E 0%nat); [lia|]. simpl.
      etrans; [exact Hr|]. rewrite <- Eq. apply trim_end_prefix. }
    rewrite Hne. destruct p as [|x p]; simpl.
    + destruct (str_eqb [] r) eqn:Eq; [|done]. apply bool_decide_eq_true in Eq.
      by apply tag_prefix_nonempty in Hr.
    + destruct Hp as [?|[?|Hp]]; [done|done|].
      destruct (is_empty (trim_newlines_end (x :: p))) eqn:Em.
      { by destruct (trim_newlines_end (x :: p)). }
      unfold str_eqb. by case_bool_decide as Eq.
Qed.

(** The upserted prompt has the same head and a block. *)
Lemma head_of_upserted p r :
  TAG `prefix_of` r → (p = [] ∨ has_block p = true ∨ trim_newlines_end p ≠ []) →
  head_of (upserted p r) = head_of p ∧ has_block (upserted p r) = true.
Proof.
  intros Hr Hp. rewrite upserted_eq by done.
  destruct (is_empty (head_of p)) eqn:Em.
  - assert (E : find r TAG = Some 0%nat).
    { apply find_some. split; [lia|]. split; [done|]. intros; lia. }
    unfold has_block, head_of at 1. rewrite E. split; [|done]. simpl.
    by destruct (head_of p).
  - set (h := head_of p) in *.
    assert (E : find (h ++ [NL; NL] ++ r) TAG = Some (length h + 2)%nat).
    { apply find_some. rewrite !length_app. split; [simpl; lia|]. split.
      - rewrite app_assoc, drop_app_length' by (rewrite length_app; simpl; lia). done.
      - intros k Hk Hpre. destruct (decide (k < length h)%nat) as [Hlt|Hge].
        + apply (head_of_no_tag p k Hlt). rewrite drop_app_le in Hpre by lia.
          apply (prefix_before_newline _ _ (NL :: r) tag_no_newline) in Hpre.
          etrans; [exact Hpre|]. destruct (head_of_prefix p) as [t ->].
          rewrite drop_app_le by (unfold h in *; lia). apply prefix_app_r. done.
        + rewrite drop_app_ge in Hpre by lia.
          assert (Hnl : ∃ m, drop (k - length h) ([NL; NL] ++ r) = NL :: m).
          { destruct (k - length h)%nat as [|[|]] eqn:Ek; [by eexists|by eexists|lia]. }
          destruct Hnl as [m Em2]. rewrite Em2 in Hpre.
          apply (prefix_before_newline TAG [] m tag_no_newline) in Hpre.
          apply prefix_nil_inv in Hpre. vm_compute in Hpre. discriminate Hpre. }
    unfold has_block, head_of at 1. rewrite E. split; [|done].
    rewrite app_assoc, take_app_length' by (rewrite length_app; simpl; lia).
    rewrite trim_newlines_app. apply head_of_trimmed.
Qed.

Lemma upserted_twice p r r' :
  TAG `prefix_of` r → TAG `prefix_of` r' →
  (p = [] ∨ has_block p = true ∨ trim_newlines_end p ≠ []) →
  upserted (upserted p r) r' = upserted p r'.
Proof.
  intros Hr Hr' Hp. destruct (head_of_upserted p r Hr Hp) as [Eh Eb].
  rewrite (upserted_eq (upserted p r) r'), (upserted_eq p r') by auto. by rewrite Eh.
Qed.

Section Inject.
Context {RS : RsApi}.
Implicit Types (conv : list ConversationItem).

(** A leading system prompt that is not a run of newlines. *)
Definition head_ok conv : Prop :=
  match conv with
  | System s :: _ =>
      sys_content s = [] ∨ has_block (sys_content s) = true
      ∨ trim_newlines_end (sys_content s) ≠ []
  | _ => True
  end.

Lemma inject_eq conv reminder :
  trim reminder ≠ [] →
  (inject_memory_reminder conv reminder).1 =
  match conv with
  | System s :: rest => System {| sys_content := upserted (sys_content s) (trim reminder) |} :: rest
  | _ => item_system (trim reminder) :: conv
  end.
Proof.
  intros Hne. unfold inject_memory_reminder, upserted.
  destruct (trim reminder) as [|x r] eqn:E; [done|]. simpl.
  destruct conv as [|[] rest]; try done.
  by destruct (upsert_memory_reminder_text _ _).
Qed.

(** ** Property *)

(** memory reminders do not accumulate: injecting a second reminder gives
    the conversation the second one alone would have given, and injecting the
    same one again reports no change. *)
Theorem memory_reminder_last_wins conv r r'
    (Hr : TAG `prefix_of` trim r) (Hr' : TAG `prefix_of` trim r') (Hok : head_ok conv) :
  (inject_memory_reminder (inject_memory_reminder conv r).1 r').1
    = (inject_memory_reminder conv r').1 ∧
  (inject_memory_reminder (inject_memory_reminder conv r).1 r).2 = false.
Proof.
  pose proof (tag_prefix_nonempty _ Hr) as Hn. pose proof (tag_prefix_nonempty _ Hr') as Hn'.
  assert (Hblock : has_block (trim r) = true).
  { unfold has_block. rewrite (proj2 (find_some (trim r) TAG 0%nat)); [done|].
    split; [lia|]. split; [done|]. intros; lia. }
  assert (Hup : ∀ r', TAG `prefix_of` r' → upserted (trim r) r' = r').
  { intros x Hx. rewrite upserted_eq by auto. unfold head_of.
    rewrite (proj2 (find_some (trim r) TAG 0%nat)); [done|].
    split; [lia|]. split; [done|]. intros; lia. }
  assert (Hsnd : ∀ p rest, upserted p (trim r) = p →
    (inject_memory_reminder (System {| sys_content := p |} :: rest) r).2 = false).
  { intros p rest E. unfold inject_memory_reminder, upserted, upsert_memory_reminder_text in *.
    destruct (trim r) as [|x t]; [done|]. simpl in *.
    unfold str_eqb in *. case_bool_decide as Eq; [done|]. simpl in E. congruence. }
  rewrite (inject_eq conv r), (inject_eq conv r') by done.
  destruct conv as [|[s| | | | |] rest];
    try (split; [rewrite inject_eq by done; simpl; by rewrite Hup | apply Hsnd; by apply Hup]).
  split.
  - rewrite inject_eq by done. simpl. by rewrite upserted_twice.
  - apply Hsnd. by apply upserted_twice.
Qed.

End Inject.

(** ** Example *)

Lemma memory_reminder_last_wins_witness :
  let conv := [item_system (lit "You are a coding agent."); item_user (lit "hi")] in
  let r := lit "<memory-context>old</memory-context>" in
  let r' := lit "<memory-context>new</memory-context>" in
  (inject_memory_reminder (inject_memory_reminder conv r).1 r').1
    = (inject_memory_reminder conv r').1 ∧
  (inject_memory_reminder (inject_memory_reminder conv r).1 r).2 = false.
Proof.
  intros conv r r'. apply memory_reminder_last_wins.
  - apply starts_with_prefix. vm_compute. reflexivity.
  - apply starts_with_prefix. vm_compute. reflexivity.
  - right. right. vm_compute. discriminate.
Defined.
