(* ===== verification/Session.v ===== *)
(** * Compaction totals, rewind, snapshots and the auto-compact gate

    The functional behaviour of [replace_conversation],
    [truncate_to_prompt_index], [restore_snapshot] and
    [check_auto_compact_needed]. *)
From S2P Require Import Prelude RustStr F64 TokenEstimation Conversation Sampling Concrete.
From S2P Require Import ToolPairing ToolPairingFacts HistoryRepair Usage RequestBuilder.
From S2P Require Import State Actor Demo ActorLemmas RequestFacts.

#[local] Opaque repair_dangling_tool_calls dedup_duplicate_tool_results.

Section Session.
Context {RS : RsApi} {SJ : SerdeJson}.
Implicit Types (a : ChatStateActor) (s : ChatState) (conv its : list ConversationItem).

(** ** Token totals *)

Lemma estimate_fold_u64 conv acc t :
  is_u64 acc →
  foldl (λ acc i, a ← acc; t ← estimate_item_tokens i; Some (wrapping_add a t)) (Some acc) conv
    = Some t → is_u64 t.
Proof.
  assert (Hnone : ∀ l, foldl (λ acc i, a ← acc; t ← estimate_item_tokens i;
    Some (wrapping_add a t)) None l = None) by (induction l; done).
  revert acc. induction conv as [|i conv IH]; intros acc Ha Ht; simpl in Ht; [by simplify_eq|].
  destruct (estimate_item_tokens i) as [x|]; simpl in Ht.
  - eapply IH; [|exact Ht]. apply wrap64_u64.
  - by rewrite Hnone in Ht.
Qed.

Lemma estimate_u64 conv t : estimate_conversation_tokens conv = Some t → is_u64 t.
Proof. apply estimate_fold_u64. unfold is_u64, U64_MAX. lia. Qed.

Lemma reseed_spec b total last base :
  is_u64 total → is_u64 base →
  is_u64 (reseed_tokens b total last base) ∧
  (b = false ∨ total = 0%Z → reseed_tokens b total last base = base) ∧
  (b = true → (0 < total)%Z → (reseed_tokens b total last base ≤ total)%Z) ∧
  (b = true → (0 < total)%Z → last = 0%Z → reseed_tokens b total last base = Z.min base total).
Proof.
  unfold is_u64, reseed_tokens. intros Ht Hb.
  pose proof (f64_round_as_range U64_MAX
    (f64_mul (f64_of_Z base) (f64_div (f64_of_Z total) (f64_of_Z last))) ltac:(unfold U64_MAX; lia)).
  destruct b; simpl; [|repeat split; try lia; done].
  destruct (Z.ltb_spec 0 total); simpl; [|repeat split; intros; lia].
  destruct (Z.ltb_spec 0 last); repeat split; intros; lia.
Qed.

(** replacing the conversation installs it, resets the pending estimate,
    stores its own estimate as the new baseline and keeps the total a [u64].  A
    plain replacement reseeds the total to that estimate; a compaction never
    raises a positive total (and is capped at it).  The events announce the new
    length and the new total. *)
Theorem replace_conversation_totals its b a a'
    (Hu : is_u64 (total_tokens (state a)))
    (Hr : replace_conversation its b a = Some a') :
  ∃ base, estimate_conversation_tokens its = Some base ∧
    conversation (state a') = its ∧
    estimated_tokens_since_model (state a') = 0%Z ∧
    estimate_at_last_response (state a') = base ∧
    is_u64 (total_tokens (state a')) ∧
    (b = false → total_tokens (state a') = base) ∧
    (b = true → 0 < total_tokens (state a) →
     total_tokens (state a') ≤ total_tokens (state a))%Z ∧
    event_log a' = event_log a ++ [ConversationReset (length its);
                                   TokensUpdated (total_tokens (state a'))] ∧
    persistence a' = persistence a ++ [ReplaceHistory its].
Proof.
  pose proof (replace_conversation_conv _ _ _ _ Hr) as Hconv. unfold conv_of in Hconv.
  unfold replace_conversation in Hr. apply bind_Some in Hr as (base & Eb & Hr).
  apply bind_Some in Hr as (base' & Eb' & Hr). simpl in Eb'. rewrite Eb in Eb'.
  injection Eb' as <-. injection Hr as Hr.
  pose proof (estimate_u64 _ _ Eb) as Hb.
  set (total0 := total_tokens (state (if b then modify mark_compaction (modify snapshot_turn_slice a)
                                       else modify snapshot_turn_slice a))) in *.
  assert (Et : total0 = total_tokens (state a)).
  { unfold total0. destruct b; simpl; unfold mark_compaction, snapshot_turn_slice;
      by repeat case_match. }
  assert (Ht : ∃ last, total_tokens (state a') = reseed_tokens b total0 last base ∧
      estimated_tokens_since_model (state a') = 0%Z ∧ estimate_at_last_response (state a') = base ∧
      event_log a' = event_log a ++ [ConversationReset (length its); TokensUpdated (total_tokens (state a'))] ∧
      persistence a' = persistence a ++ [ReplaceHistory its]).
  { subst a'. simpl in *. eexists.
    unfold rebase_turn_capture_offset in *. case_match; simpl in *;
      (split; [reflexivity|]); rewrite <- !app_assoc; destruct b; done. }
  destruct Ht as (last & E1 & E2 & E3 & E4 & E5).
  rewrite Et in E1. destruct (reseed_spec b (total_tokens (state a)) last base Hu Hb)
    as (R1 & R2 & R3 & _).
  exists base. rewrite <- E1 in R1, R2, R3. repeat split; auto; apply R1.
Qed.

(** ** Rewind *)

Lemma find_user_turn_spec conv i n target :
  (0 ≤ n ≤ target)%Z →
  let k := (find_user_turn conv i n target - i)%nat in
  (i ≤ find_user_turn conv i n target ≤ i + length conv)%nat ∧
  count_users (take k conv) = Z.min (target - n) (count_users conv) ∧
  (drop k conv = [] ∨ ∃ u rest, drop k conv = User u :: rest).
Proof.
  revert i n. induction conv as [|item conv IH]; intros i n Hn k; unfold k; clear k.
  - simpl. rewrite Nat.sub_diag. unfold count_users. simpl. repeat split; try lia. by left.
  - pose proof (count_users_nonneg conv) as Hnn.
    assert (Hcons : ∀ l, count_users (item :: l)
              = ((if is_user item then 1 else 0) + count_users l)%Z).
    { intros l. change (item :: l) with ([item] ++ l). by rewrite count_users_app, count_users_one. }
    assert (Hstep : ∀ n', (0 ≤ n' ≤ target)%Z →
      n' = (n + if is_user item then 1 else 0)%Z →
      let k := (find_user_turn conv (S i) n' target - i)%nat in
      (i ≤ find_user_turn conv (S i) n' target ≤ i + length (item :: conv))%nat ∧
      count_users (take k (item :: conv)) = Z.min (target - n) (count_users (item :: conv)) ∧
      (drop k (item :: conv) = [] ∨ ∃ u rest, drop k (item :: conv) = User u :: rest)).
    { intros n' Hn' En k. destruct (IH (S i) n' Hn') as (Hb & Hc & Hd).
      assert (Ek : k = S (find_user_turn conv (S i) n' target - S i)) by (unfold k; lia).
      rewrite Ek. cbn [take drop length]. rewrite !Hcons, Hc. split; [lia|]. split; [|done].
      destruct (is_user item); lia. }
    destruct item; simpl find_user_turn; try (apply Hstep; [done|simpl; lia]).
    destruct (Z.eqb_spec n target) as [->|Hne].
    + rewrite Nat.sub_diag. simpl. rewrite Hcons. simpl. split; [lia|]. split.
      * unfold count_users at 1. simpl. pose proof (count_users_nonneg conv). lia.
      * right. by exists u, conv.
    + apply Hstep; [lia|done].
Qed.

(** a rewind to an earlier prompt keeps the prefix of the conversation with
    the first [target] user turns and cuts right before a user item (or keeps
    everything when there are fewer), trims the cached prompt texts, re-bases
    every token counter on what is left, persists it, and announces its
    length; a rewind to the current prompt or beyond changes nothing. *)
Theorem truncate_to_prompt_index_prefix target a a'
    (Htarget : (0 ≤ target)%Z) (Ht : truncate_to_prompt_index target a = Some a') :
  if (prompt_index (state a) <=? target)%Z then a' = a
  else
    ∃ cut, conversation (state a) = conversation (state a') ++ cut ∧
      (cut = [] ∨ ∃ u rest, cut = User u :: rest) ∧
      count_users (conversation (state a')) = Z.min target (count_users (conversation (state a))) ∧
      prompt_index (state a') = target ∧
      prompt_texts (state a') = take (Z.to_nat target) (prompt_texts (state a)) ∧
      estimate_conversation_tokens (conversation (state a')) = Some (total_tokens (state a')) ∧
      estimate_at_last_response (state a') = total_tokens (state a') ∧
      estimated_tokens_since_model (state a') = 0%Z ∧
      persistence a' = persistence a ++ [ReplaceHistory (conversation (state a'))] ∧
      event_log a' = event_log a ++ [ConversationReset (length (conversation (state a')))].
Proof.
  unfold truncate_to_prompt_index in Ht. destruct (prompt_index (state a) <=? target)%Z; [by inv_ok|].
  apply bind_Some in Ht as (e & Ee & Ht). injection Ht as <-. simpl in *.
  destruct (find_user_turn_spec (conversation (state a)) 0 0 target ltac:(lia)) as (_ & Hc & Hd).
  rewrite !Nat.sub_0_r in Hc, Hd.
  set (k := find_user_turn (conversation (state a)) 0 0 target) in *.
  exists (drop k (conversation (state a))). rewrite Z.sub_0_r in Hc.
  repeat split; try done. by rewrite take_drop.
Qed.

(** ** Snapshots *)

(** restoring a snapshot gives a state whose snapshot is the same one
    (re-estimating only a baseline the snapshot did not carry), whatever the
    state before; it drops the open prompt's bill and keeps the session's. *)
Theorem restore_snapshot_roundtrip snap a a' (Hr : restore_snapshot snap a = Some a') :
  (0 < snap_estimate_at_last_response snap → snapshot (state a') = snap)%Z ∧
  conversation (state a') = snap_conversation snap ∧
  (snap_estimate_at_last_response snap ≤ 0 →
   estimate_conversation_tokens (snap_conversation snap)
     = Some (estimate_at_last_response (state a')))%Z ∧
  estimated_tokens_since_model (state a') = 0%Z ∧
  prompt_usage (state a') = None ∧ session_usage (state a') = session_usage (state a) ∧
  persistence a' = persistence a ∧ event_log a' = event_log a.
Proof.
  unfold restore_snapshot in Hr. apply bind_Some in Hr as (e & Ee & Hr). injection Hr as <-.
  simpl in *. rewrite rebase_conv in *. simpl in *.
  assert (Es : session_usage (rebase_turn_capture_offset
    (set_conversation (snap_conversation snap) (snapshot_turn_slice (state a))))
    = session_usage (state a)).
  { unfold rebase_turn_capture_offset, snapshot_turn_slice. by repeat case_match. }
  destruct (Z.ltb_spec 0 (snap_estimate_at_last_response snap)); repeat split; intros; try done; try lia.
  injection Ee as <-. unfold snapshot. simpl. rewrite rebase_conv. by destruct snap.
Qed.

(** ** The auto-compact gate *)

(** For a window that scales without saturating and a threshold up to 100%,
    auto-compaction triggers exactly when the utilisation it reports has
    reached the threshold, and the report is the state's total, the configured
    window and a percentage of at most 100. *)
Theorem auto_compact_gate s threshold
    (Hu : is_u64 (total_tokens s)) (Hcw : (0 < context_window (sampling_config s))%Z)
    (Hsat : (context_window (sampling_config s) * 100 ≤ U64_MAX)%Z)
    (Hthr : (0 ≤ threshold ≤ 100)%Z) :
  let pct := usage_percentage_truncated_u8 (total_tokens s) (context_window (sampling_config s)) in
  (0 ≤ pct ≤ 100)%Z ∧
  check_auto_compact_needed threshold s =
    if (threshold <=? pct)%Z
    then Some {| act_total_tokens := total_tokens s;
                 act_context_window := context_window (sampling_config s);
                 utilization_percent := pct |}
    else None.
Proof.
  intros pct. split.
  - apply usage_percentage_truncated_range; [apply Hu|lia].
  - unfold check_auto_compact_needed. by rewrite exceeds_threshold_percentage.
Qed.

End Session.

(** ** Examples *)

Lemma replace_conversation_totals_witness :
  ∃ a', replace_conversation [item_user (repeat 97%Z 400)] true (demo_actor demo_broken) = Some a' ∧
    total_tokens (state a') = 200%Z ∧ (total_tokens (state a') ≤ 900)%Z.
Proof.
  destruct (replace_conversation _ true (demo_actor demo_broken)) as [a'|] eqn:E;
    [|vm_compute in E; discriminate E].
  exists a'. split; [done|].
  assert (Et : (λ r, match r with Some a => total_tokens (state a) | None => 0%Z end)
    (replace_conversation [item_user (repeat 97%Z 400)] true (demo_actor demo_broken)) = 200%Z)
    by (vm_compute; reflexivity).
  rewrite E in Et. split; [exact Et|].
  assert (Hu : is_u64 (total_tokens (state (demo_actor demo_broken))))
    by (split; vm_compute; discriminate).
  destruct (replace_conversation_totals _ _ _ _ Hu E) as (base & _ & _ & _ & _ & _ & _ & Hle & _).
  apply Hle; [done|]. vm_compute. reflexivity.
Defined.

Lemma truncate_to_prompt_index_prefix_witness :
  ∃ a', truncate_to_prompt_index 0 (demo_actor demo_broken) = Some a' ∧
    count_users (conversation (state a')) = 0%Z ∧
    ∃ cut, demo_broken = conversation (state a') ++ cut.
Proof.
  destruct (truncate_to_prompt_index 0 (demo_actor demo_broken)) as [a'|] eqn:E;
    [|vm_compute in E; discriminate E].
  exists a'. split; [done|].
  destruct (truncate_to_prompt_index_prefix 0 _ _ ltac:(lia) E) as (cut & Ec & _ & Hn & _).
  split; [rewrite Hn; vm_compute; reflexivity|]. by exists cut.
Defined.

Lemma restore_snapshot_roundtrip_witness :
  ∃ a', restore_snapshot (snapshot (state (demo_actor demo_broken))) (demo_actor []) = Some a' ∧
    snapshot (state a') = snapshot (state (demo_actor demo_broken)).
Proof.
  destruct (restore_snapshot (snapshot (state (demo_actor demo_broken))) (demo_actor []))
    as [a'|] eqn:E; [|vm_compute in E; discriminate E].
  exists a'. split; [done|].
  apply (restore_snapshot_roundtrip _ _ _ E). vm_compute. reflexivity.
Defined.

Lemma auto_compact_gate_witness :
  check_auto_compact_needed 90 (state (demo_actor [])) =
    Some {| act_total_tokens := 900; act_context_window := 1000; utilization_percent := 90 |}.
Proof.
  destruct (auto_compact_gate (state (demo_actor [])) 90) as [_ E].
  - split; vm_compute; discriminate.
  - vm_compute. reflexivity.
  - vm_compute. discriminate.
  - lia.
  - rewrite E. vm_compute. reflexivity.
Defined.
