(* ===== verification/Breaker.v ===== *)
(** * Circuit breaker

    [xai-circuit-breaker]: the sliding window of [window.rs], then [state.rs],
    [config.rs], [retry_policy.rs], [registry.rs] and the state machine of
    [breaker.rs].

    Durations and instants are nanoseconds, the stored offsets milliseconds.
    An [Instant] of the window is bounded as its seconds are an [i64].
    A call reads the clock through the argument [now] and its shared cells are
    the fields of [Breaker]; one call is one step here, and the file
    BreakerRace interleaves the atomic operations of several. *)
From S2P Require Import Prelude RustStr F64.

Definition MAX_WINDOW_ENTRIES : nat := Z.to_nat 10000.
Definition INSTANT_MIN : Z := - (9223372036854775808 * 1000000000).

Definition instant_checked_sub (now d : Z) : option Z :=
  if (INSTANT_MIN <=? now - d)%Z then Some (now - d)%Z else None.

Record SlidingWindow := {
  entries : list (Z * bool);
  failures : Z;
}.

Definition window_new : SlidingWindow := {| entries := []; failures := 0 |}.

Definition window_push (w : SlidingWindow) (is_failure : bool) (at_ : Z) : SlidingWindow :=
  let '(es, f) :=
    if (MAX_WINDOW_ENTRIES <=? length (entries w))%nat then
      match entries w with
      | (_, was_failure) :: es =>
          (es, if was_failure then wrap64 (failures w - 1) else failures w)
      | [] => ([], failures w)
      end
    else (entries w, failures w) in
  {| entries := es ++ [(at_, is_failure)];
     failures := if is_failure then wrapping_add f 1 else f |}.

(** The [while let Some(..) = front()] loop. *)
Fixpoint evict_before (cutoff : Z) (es : list (Z * bool)) (f : Z) : list (Z * bool) * Z :=
  match es with
  | [] => ([], f)
  | (ts, was_failure) :: es' =>
      if (ts <? cutoff)%Z
      then evict_before cutoff es' (if was_failure then wrap64 (f - 1) else f)
      else (es, f)
  end.

Definition window_evict (w : SlidingWindow) (window now : Z) : SlidingWindow :=
  match instant_checked_sub now window with
  | None => w
  | Some cutoff =>
      let '(es, f) := evict_before cutoff (entries w) (failures w) in
      {| entries := es; failures := f |}
  end.

Definition window_error_rate (w : SlidingWindow) : f64 :=
  match entries w with
  | [] => f64_zero
  | es => f64_div (f64_of_Z (failures w)) (f64_of_Z (Z.of_nat (length es)))
  end.

Definition sample_count (w : SlidingWindow) : Z := Z.of_nat (length (entries w)).

Definition window_clear (w : SlidingWindow) : SlidingWindow := {| entries := []; failures := 0 |}.

(** ** Invariant *)

Definition count_failures (es : list (Z * bool)) : Z :=
  Z.of_nat (length (base.filter (λ e : Z * bool, e.2 = true) es)).

Record window_ok (w : SlidingWindow) : Prop := {
  wo_failures : failures w = count_failures (entries w);
  wo_bound : (length (entries w) ≤ MAX_WINDOW_ENTRIES)%nat;
}.

(** Samples are in the order they were taken, the last one at most [now]. *)
Definition taken_in_order (w : SlidingWindow) (now : Z) : Prop :=
  StronglySorted (λ e e' : Z * bool, e.1 ≤ e'.1)%Z (entries w) ∧
  Forall (λ e : Z * bool, e.1 ≤ now)%Z (entries w).

Lemma count_failures_cons e es :
  count_failures (e :: es) = ((if e.2 then 1 else 0) + count_failures es)%Z.
Proof.
  unfold count_failures. rewrite filter_cons. destruct e as [ts [|]]; simpl; lia.
Qed.

Lemma count_failures_app es es' :
  count_failures (es ++ es') = (count_failures es + count_failures es')%Z.
Proof. unfold count_failures. rewrite filter_app, length_app. lia. Qed.

Lemma count_failures_bound es : (0 ≤ count_failures es ≤ Z.of_nat (length es))%Z.
Proof. unfold count_failures. pose proof (length_filter (λ e : Z * bool, e.2 = true) es). lia. Qed.

Lemma max_window_entries : Z.of_nat MAX_WINDOW_ENTRIES = 10000%Z.
Proof. unfold MAX_WINDOW_ENTRIES. lia. Qed.

#[local] Opaque MAX_WINDOW_ENTRIES.

Lemma window_new_ok : window_ok window_new.
Proof. constructor; simpl; [done|lia]. Qed.

Lemma window_clear_ok w : window_ok (window_clear w).
Proof. constructor; simpl; [done|lia]. Qed.

Lemma window_push_ok w b t : window_ok w → window_ok (window_push w b t).
Proof.
  intros [Hf Hb]. pose proof max_window_entries.
  pose proof (count_failures_bound (entries w)).
  assert (Hsmall : ∀ z, (0 ≤ z ≤ 10001)%Z → wrap64 z = z)
    by (intros; apply wrap64_small; unfold is_u64, U64_MAX; lia).
  unfold window_push. destruct (Nat.leb_spec MAX_WINDOW_ENTRIES (length (entries w))) as [Hge|Hlt].
  - destruct (entries w) as [|[ts f] es] eqn:E; simpl in *; [lia|].
    rewrite count_failures_cons in Hf. simpl in Hf. pose proof (count_failures_bound es).
    constructor; simpl; [|rewrite length_app; simpl; lia].
    rewrite count_failures_app, count_failures_cons. unfold count_failures at 2. simpl.
    unfold wrapping_add. destruct f, b; simpl; rewrite ?Hsmall; rewrite ?Hsmall; lia.
  - constructor; simpl; [|rewrite length_app; simpl; lia].
    rewrite count_failures_app, count_failures_cons. unfold count_failures at 2. simpl.
    unfold wrapping_add. destruct b; simpl; rewrite ?Hsmall; lia.
Qed.

Lemma evict_before_spec cutoff es f :
  f = count_failures es → (Z.of_nat (length es) ≤ 10000)%Z →
  let '(es', f') := evict_before cutoff es f in
  f' = count_failures es' ∧ (∃ old, es = old ++ es' ∧ Forall (λ e : Z * bool, e.1 < cutoff)%Z old) ∧
  match es' with [] => True | e :: _ => (cutoff ≤ e.1)%Z end.
Proof.
  revert f. induction es as [|[ts b] es IH]; intros f Hf Hl; simpl in *.
  - split; [done|]. split; [by exists []|done].
  - rewrite count_failures_cons in Hf. simpl in Hf. pose proof (count_failures_bound es).
    destruct (Z.ltb_spec ts cutoff).
    + specialize (IH (if b then wrap64 (f - 1) else f)).
      destruct (evict_before cutoff es _) as [es' f'].
      destruct IH as (E & (old & -> & Ho) & Hh).
      { destruct b; [|lia]. rewrite wrap64_small by (unfold is_u64, U64_MAX; lia). lia. }
      { lia. }
      split; [done|]. split; [|done]. exists ((ts, b) :: old). split; [done|]. by constructor.
    + split; [by rewrite count_failures_cons|]. split; [by exists []|done].
Qed.

Lemma window_evict_ok w d now : window_ok w → window_ok (window_evict w d now).
Proof.
  intros [Hf Hb]. pose proof max_window_entries. unfold window_evict.
  destruct (instant_checked_sub now d) as [cutoff|]; [|by constructor].
  pose proof (evict_before_spec cutoff (entries w) (failures w) Hf ltac:(lia)) as He.
  destruct (evict_before cutoff _ _) as [es f]. destruct He as (-> & (old & E & _) & _).
  constructor; simpl; [done|]. apply (f_equal length) in E. rewrite length_app in E. lia.
Qed.

(** Eviction of samples in order keeps exactly the ones in the window. *)
Lemma window_evict_filter w d now cutoff :
  window_ok w → taken_in_order w now → instant_checked_sub now d = Some cutoff →
  entries (window_evict w d now) = base.filter (λ e : Z * bool, cutoff ≤ e.1)%Z (entries w).
Proof.
  intros [Hf Hb] [Hs _] Hc. pose proof max_window_entries. unfold window_evict. rewrite Hc.
  pose proof (evict_before_spec cutoff (entries w) (failures w) Hf ltac:(lia)) as He.
  destruct (evict_before cutoff _ _) as [es f]. destruct He as (_ & (old & E & Ho) & Hh). simpl.
  rewrite E in Hs |- *. rewrite filter_app.
  assert (Hold : base.filter (λ e : Z * bool, cutoff ≤ e.1)%Z old = []).
  { clear -Ho. induction Ho as [|e old He Ho IH]; [done|]. rewrite filter_cons_False; [done|lia]. }
  rewrite Hold. simpl. symmetry. apply list_filter_all. intros e Hin.
  assert (Hes : StronglySorted (λ e e' : Z * bool, e.1 ≤ e'.1)%Z es).
  { clear -Hs. induction old; [done|]. apply IHold. by inversion Hs. }
  destruct es as [|e0 es]; [by apply elem_of_nil in Hin|].
  apply elem_of_cons in Hin as [->|Hin]; [done|].
  inversion Hes as [|? ? _ Hall]; subst. rewrite Forall_forall in Hall.
  specialize (Hall _ Hin). simpl in *. lia.
Qed.

Lemma window_evict_in_order w d now : window_ok w → taken_in_order w now →
  taken_in_order (window_evict w d now) now.
Proof.
  intros [Hf Hb] [Hs Ht]. pose proof max_window_entries. unfold window_evict.
  destruct (instant_checked_sub now d) as [cutoff|]; [|by split].
  pose proof (evict_before_spec cutoff (entries w) (failures w) Hf ltac:(lia)) as He.
  destruct (evict_before cutoff _ _) as [es f]. destruct He as (_ & (old & E & _) & _).
  rewrite E in Hs, Ht. split; simpl.
  - clear -Hs. induction old; [done|]. apply IHold. by inversion Hs.
  - by apply Forall_app in Ht as [_ ?].
Qed.

Lemma window_push_in_order w b now now' :
  taken_in_order w now → (now ≤ now')%Z → taken_in_order (window_push w b now') now'.
Proof.
  intros [Hs Ht] Hn.
  assert (Hsnoc : ∀ es, StronglySorted (λ e e' : Z * bool, e.1 ≤ e'.1)%Z es →
    Forall (λ e : Z * bool, e.1 ≤ now)%Z es →
    StronglySorted (λ e e' : Z * bool, e.1 ≤ e'.1)%Z (es ++ [(now', b)]) ∧
    Forall (λ e : Z * bool, e.1 ≤ now')%Z (es ++ [(now', b)])).
  { clear -Hn. intros es Hs Ht. split.
    - induction Hs as [|e es Hs IH Hall]; simpl; [repeat constructor|].
      apply Forall_cons in Ht as [He Ht]. constructor; [by apply IH|].
      apply Forall_app. split; [done|]. constructor; [simpl; lia|done].
    - apply Forall_app. split; [|by repeat constructor].
      eapply Forall_impl; [exact Ht|]. simpl. lia. }
  unfold window_push, taken_in_order. destruct (MAX_WINDOW_ENTRIES <=? length (entries w))%nat.
  - destruct (entries w) as [|[ts f] es] eqn:E; simpl; [by apply (Hsnoc [])|].
    apply Hsnoc; [by inversion Hs|by apply Forall_cons in Ht as [_ ?]].
  - simpl. by apply Hsnoc.
Qed.

Inductive BreakerState : Type := Closed | Open | HalfOpen.

#[global] Instance breaker_state_eq_dec : EqDecision BreakerState.
Proof. solve_decision. Defined.

(** [s as u8] and [from_u8]; a release build maps an invalid byte to
    [Closed]. *)
Definition to_u8 (s : BreakerState) : Z :=
  match s with Closed => 0 | Open => 1 | HalfOpen => 2 end.
Definition from_u8 (v : Z) : BreakerState :=
  if (v =? 0)%Z then Closed else if (v =? 1)%Z then Open
  else if (v =? 2)%Z then HalfOpen else Closed.

Inductive Outcome : Type := Success | Failure.

Record BreakerOpen := { retry_after : Z }.

(** ** Configuration *)

Record BreakerConfig := {
  window_duration : Z;
  min_samples : Z;
  error_rate_threshold : f64;
  open_duration : Z;
  half_open_max_probes : Z;
  failure_codes : gset Z;
  breaker_enabled : bool;
}.

Definition from_secs (s : Z) : Z := (s * 1000000000)%Z.
Definition from_millis (ms : Z) : Z := (ms * 1000000)%Z.
(** [Duration::as_millis() as u64] *)
Definition as_millis_u64 (d : Z) : Z := wrap64 (d / 1000000).

Definition DEFAULT_FAILURE_CODES : list Z := [429; 500; 502; 503; 504]%Z.
Definition default_failure_codes : gset Z := list_to_set DEFAULT_FAILURE_CODES.

(** The literal [0.5]. *)
Definition f64_half : f64 := f64_div (f64_of_Z 1) (f64_of_Z 2).

Definition config_server : BreakerConfig :=
  {| window_duration := from_secs 60; min_samples := 10; error_rate_threshold := f64_half;
     open_duration := from_secs 10; half_open_max_probes := 1;
     failure_codes := default_failure_codes; breaker_enabled := true |}.

Definition config_client : BreakerConfig :=
  {| window_duration := from_secs 60; min_samples := 5; error_rate_threshold := f64_half;
     open_duration := from_secs 60; half_open_max_probes := 1;
     failure_codes := {[401%Z]}; breaker_enabled := true |}.

Definition is_failure_status (c : BreakerConfig) (status : Z) : bool :=
  bool_decide (status ∈ failure_codes c).

Definition COMMA : char := 44.

Definition parse_failure_codes (s : str) : gset Z :=
  list_to_set (omap (λ c, parse_unsigned 65535 (trim c)) (split COMMA s)).

Definition lookup_or {A} (parse : str → option A) (get : str → option str) (key : str) (dflt : A)
  : A :=
  match get key with
  | Some v => match parse v with Some p => p | None => dflt end
  | None => dflt
  end.

Definition from_lookup_with_prefix (parse_f64 : str → option f64) (prefix : str)
    (get : str → option str) : BreakerConfig :=
  let key := λ k : string, prefix ++ lit k in
  let codes :=
    match get (key "FAILURE_CODES"%string) with
    | Some raw =>
        let codes := parse_failure_codes raw in
        if bool_decide (codes = ∅) then default_failure_codes else codes
    | None => default_failure_codes
    end in
  {| window_duration :=
       from_secs (lookup_or (parse_unsigned U64_MAX) get (key "WINDOW_SECS"%string) 60%Z);
     min_samples := lookup_or (parse_unsigned U64_MAX) get (key "MIN_SAMPLES"%string) 10%Z;
     error_rate_threshold :=
       lookup_or parse_f64 get (key "ERROR_RATE_THRESHOLD"%string) f64_half;
     open_duration :=
       from_secs (lookup_or (parse_unsigned U64_MAX) get (key "OPEN_DURATION_SECS"%string) 10%Z);
     half_open_max_probes :=
       Z.max (lookup_or (parse_unsigned U64_MAX) get (key "HALF_OPEN_MAX_PROBES"%string) 1%Z) 1;
     failure_codes := codes;
     breaker_enabled := lookup_or parse_bool get (key "ENABLED"%string) true |}.

(** ** Retry policy *)

Inductive Disposition : Type := Retryable | AuthRefresh | Terminal.

Record RetryPolicy := {
  retryable : list Z;
  auth_refresh : list Z;
  terminal : list Z;
  default_disposition : Disposition;
}.

Definition contains (l : list Z) (status : Z) : bool := bool_decide (status ∈ l).

Definition classify (p : RetryPolicy) (status : Z) : option Disposition :=
  if (200 <=? status)%Z && (status <? 300)%Z then None
  else if contains (auth_refresh p) status then Some AuthRefresh
  else if contains (terminal p) status then Some Terminal
  else if contains (retryable p) status || ((500 <=? status)%Z && (status <? 600)%Z)
  then Some Retryable
  else Some (default_disposition p).

Definition should_retry (p : RetryPolicy) (status : Z) : bool :=
  match classify p status with Some Retryable => true | _ => false end.

Definition policy_server : RetryPolicy :=
  {| retryable := [429%Z]; auth_refresh := []; terminal := []; default_disposition := Terminal |}.
Definition policy_client_storage : RetryPolicy :=
  {| retryable := []; auth_refresh := [401%Z]; terminal := [400; 403; 404]%Z;
     default_disposition := Retryable |}.

(** ** The breaker *)

(** The calls an [Observer] receives. *)
Inductive ObserverCall : Type :=
| OnStateChange (old new : BreakerState) (reason : string)
| OnProbeAdmission (allowed : bool)
| OnOutcome (o : Outcome) (status : BreakerState).

Record Breaker := {
  b_config : BreakerConfig;
  b_state : BreakerState;
  baseline : Z;
  opened_at_millis : Z;
  half_open_probes : Z;
  probe_claimed_at_millis : Z;
  is_open_fast : bool;
  b_window : SlidingWindow;
  b_calls : list ObserverCall;
}.

Definition with_clock (config : BreakerConfig) (now : Z) : Breaker :=
  {| b_config :=
       {| window_duration := window_duration config; min_samples := min_samples config;
          error_rate_threshold := error_rate_threshold config;
          open_duration := open_duration config;
          half_open_max_probes := Z.max (half_open_max_probes config) 1;
          failure_codes := failure_codes config; breaker_enabled := breaker_enabled config |};
     b_state := Closed; baseline := now; opened_at_millis := 0; half_open_probes := 0;
     probe_claimed_at_millis := 0; is_open_fast := false; b_window := window_new;
     b_calls := [] |}.

Definition observe (c : ObserverCall) (b : Breaker) : Breaker :=
  {| b_config := b_config b; b_state := b_state b; baseline := baseline b;
     opened_at_millis := opened_at_millis b; half_open_probes := half_open_probes b;
     probe_claimed_at_millis := probe_claimed_at_millis b; is_open_fast := is_open_fast b;
     b_window := b_window b; b_calls := b_calls b ++ [c] |}.
Definition store_state (s : BreakerState) (b : Breaker) : Breaker :=
  {| b_config := b_config b; b_state := s; baseline := baseline b;
     opened_at_millis := opened_at_millis b; half_open_probes := half_open_probes b;
     probe_claimed_at_millis := probe_claimed_at_millis b; is_open_fast := is_open_fast b;
     b_window := b_window b; b_calls := b_calls b |}.
Definition store_opened (t : Z) (b : Breaker) : Breaker :=
  {| b_config := b_config b; b_state := b_state b; baseline := baseline b;
     opened_at_millis := t; half_open_probes := half_open_probes b;
     probe_claimed_at_millis := probe_claimed_at_millis b; is_open_fast := is_open_fast b;
     b_window := b_window b; b_calls := b_calls b |}.
Definition store_probes (n : Z) (b : Breaker) : Breaker :=
  {| b_config := b_config b; b_state := b_state b; baseline := baseline b;
     opened_at_millis := opened_at_millis b; half_open_probes := n;
     probe_claimed_at_millis := probe_claimed_at_millis b; is_open_fast := is_open_fast b;
     b_window := b_window b; b_calls := b_calls b |}.
Definition store_claimed (t : Z) (b : Breaker) : Breaker :=
  {| b_config := b_config b; b_state := b_state b; baseline := baseline b;
     opened_at_millis := opened_at_millis b; half_open_probes := half_open_probes b;
     probe_claimed_at_millis := t; is_open_fast := is_open_fast b;
     b_window := b_window b; b_calls := b_calls b |}.
Definition store_fast (f : bool) (b : Breaker) : Breaker :=
  {| b_config := b_config b; b_state := b_state b; baseline := baseline b;
     opened_at_millis := opened_at_millis b; half_open_probes := half_open_probes b;
     probe_claimed_at_millis := probe_claimed_at_millis b; is_open_fast := f;
     b_window := b_window b; b_calls := b_calls b |}.
Definition store_window (w : SlidingWindow) (b : Breaker) : Breaker :=
  {| b_config := b_config b; b_state := b_state b; baseline := baseline b;
     opened_at_millis := opened_at_millis b; half_open_probes := half_open_probes b;
     probe_claimed_at_millis := probe_claimed_at_millis b; is_open_fast := is_open_fast b;
     b_window := w; b_calls := b_calls b |}.

(** [now.saturating_duration_since(baseline).as_millis() as u64] *)
Definition elapsed_millis (now : Z) (b : Breaker) : Z :=
  as_millis_u64 (Z.max 0 (now - baseline b)).

Definition state_change (prev new : BreakerState) (reason : string) (b : Breaker) : Breaker :=
  if bool_decide (prev = new) then b else observe (OnStateChange prev new reason) b.

Definition trip (now : Z) (prev : BreakerState) (reason : string) (b : Breaker) : Breaker :=
  let b := store_state Open b in
  let b := store_opened (elapsed_millis now b) b in
  let b := store_probes 0 b in
  let b := store_fast true b in
  state_change prev Open reason b.

Definition close (prev : BreakerState) (reason : string) (b : Breaker) : Breaker :=
  let b := store_state Closed b in
  let b := store_window (window_clear (b_window b)) b in
  let b := store_probes 0 b in
  let b := store_fast false b in
  state_change prev Closed reason b.

Definition HALF_OPEN_PROBE_BACKOFF : Z := from_millis 50.

Definition try_half_open_probe (now : Z) (b : Breaker) : Breaker * result unit BreakerOpen :=
  let now_ms := elapsed_millis now b in
  let prev := half_open_probes b in
  let b := store_probes (wrapping_add prev 1) b in
  if (prev <? half_open_max_probes (b_config b))%Z then
    (observe (OnProbeAdmission true) (store_claimed now_ms b), Ok tt)
  else
    let b := store_probes (wrap64 (half_open_probes b - 1)) b in
    let lease_millis := as_millis_u64 (open_duration (b_config b)) in
    let claimed := probe_claimed_at_millis b in
    if (lease_millis <=? saturating_sub now_ms claimed)%Z then
      (observe (OnProbeAdmission true) (store_claimed now_ms b), Ok tt)
    else
      (observe (OnProbeAdmission false) b,
       Err {| retry_after := Z.min HALF_OPEN_PROBE_BACKOFF (open_duration (b_config b)) |}).

(** [check_open]; the compare-and-swap succeeds when the state is still
    [Open]. *)
Definition check_open (now : Z) (b : Breaker) : Breaker * result unit BreakerOpen :=
  let opened := opened_at_millis b in
  let elapsed := from_millis (saturating_sub (elapsed_millis now b) opened) in
  if (open_duration (b_config b) <=? elapsed)%Z then
    match b_state b with
    | Open =>
        let b := store_state HalfOpen b in
        let b := store_fast false b in
        let b := observe (OnStateChange Open HalfOpen "open_elapsed") b in
        try_half_open_probe now b
    | Closed => (b, Ok tt)
    | HalfOpen => try_half_open_probe now b
    end
  else (b, Err {| retry_after := saturating_sub (open_duration (b_config b)) elapsed |}).

Definition check (now : Z) (b : Breaker) : Breaker * result unit BreakerOpen :=
  if negb (breaker_enabled (b_config b)) then (b, Ok tt)
  else
    match b_state b with
    | Closed => (b, Ok tt)
    | Open => check_open now b
    | HalfOpen => try_half_open_probe now b
    end.

Definition sample (is_failure : bool) (now : Z) (b : Breaker) : Breaker :=
  store_window
    (window_evict (window_push (b_window b) is_failure now) (window_duration (b_config b)) now) b.

Definition should_trip (b : Breaker) : bool :=
  (min_samples (b_config b) <=? sample_count (b_window b))%Z
  && f64_leb (error_rate_threshold (b_config b)) (window_error_rate (b_window b)).

Definition record (outcome : Outcome) (now : Z) (b : Breaker) : Breaker :=
  if negb (breaker_enabled (b_config b)) then b
  else
    let is_failure := match outcome with Failure => true | Success => false end in
    let prev_state := b_state b in
    let b :=
      match prev_state with
      | Closed =>
          let b := sample is_failure now b in
          if should_trip b then trip now prev_state "trip" b else b
      | HalfOpen =>
          if is_failure then trip now prev_state "probe_failure" b
          else close prev_state "probe_success" b
      | Open => sample is_failure now b
      end in
    observe (OnOutcome outcome (b_state b)) b.

Definition error_rate (now : Z) (b : Breaker) : Breaker * f64 :=
  let b := store_window (window_evict (b_window b) (window_duration (b_config b)) now) b in
  (b, window_error_rate (b_window b)).

Definition force_half_open (b : Breaker) : Breaker :=
  let prev := b_state b in
  let b := store_state HalfOpen b in
  let b := store_fast false b in
  let b := store_probes 0 b in
  state_change prev HalfOpen "force_half_open" b.

(** ** Registry *)

(** [Arc<CircuitBreaker>]s are positions in the list of breakers created. *)
Record Registry := {
  r_config : BreakerConfig;
  r_breakers : gmap str nat;
  r_heap : list Breaker;
}.

Definition registry_new (config : BreakerConfig) : Registry :=
  {| r_config := config; r_breakers := ∅; r_heap := [] |}.

Definition registry_get (key : str) (now : Z) (r : Registry) : Registry * option nat :=
  if negb (breaker_enabled (r_config r)) then (r, None)
  else
    match r_breakers r !! key with
    | Some cb => (r, Some cb)
    | None =>
        let cb := length (r_heap r) in
        ({| r_config := r_config r; r_breakers := <[key := cb]> (r_breakers r);
            r_heap := r_heap r ++ [with_clock (r_config r) now] |}, Some cb)
    end.
