(* ===== verification/BreakerFacts.v ===== *)
(** * Circuit breaker: the theorems

    Over calls that are atomic steps at non-decreasing times: the invariant of
    the reachable breakers, the transitions, the number of probes admitted, the
    advertised retry delay, and recovery. *)
From S2P Require Import Prelude RustStr F64 Breaker.

#[local] Opaque MAX_WINDOW_ENTRIES.

(** ** Time *)

Definition MS : Z := 1000000.

(** The offsets of the breaker's lifetime fit the [u64] they are stored in. *)
Definition in_lifetime (b : Breaker) (now : Z) : Prop :=
  (baseline b ≤ now ≤ baseline b + U64_MAX * MS)%Z.

Lemma elapsed_eq now b : in_lifetime b now → elapsed_millis now b = ((now - baseline b) / MS)%Z.
Proof.
  unfold in_lifetime, elapsed_millis, as_millis_u64, MS. intros Hl.
  rewrite Z.max_r by lia. apply wrap64_small. unfold is_u64. split; [apply Z.div_pos; lia|].
  apply Z.div_le_upper_bound; lia.
Qed.

Lemma elapsed_bounds now b : in_lifetime b now → is_u64 (elapsed_millis now b).
Proof. intros _. apply wrap64_u64. Qed.

Lemma elapsed_mono b now now' :
  in_lifetime b now → in_lifetime b now' → (now ≤ now')%Z →
  (elapsed_millis now b ≤ elapsed_millis now' b)%Z.
Proof.
  intros Hl Hl' Hn. rewrite !elapsed_eq by done. apply Z.div_le_mono; unfold MS; lia.
Qed.

(** The configurations a breaker can be built with. *)
Definition config_ok (c : BreakerConfig) : Prop :=
  (0 ≤ open_duration c ≤ U64_MAX * MS)%Z ∧ (1 ≤ half_open_max_probes c ≤ U64_MAX)%Z.

Lemma lease_eq c : config_ok c → as_millis_u64 (open_duration c) = (open_duration c / MS)%Z.
Proof.
  intros [Hd _]. unfold as_millis_u64, MS in *. apply wrap64_small. unfold is_u64.
  split; [apply Z.div_pos; lia|]. apply Z.div_le_upper_bound; lia.
Qed.

(** ** The invariant *)

Record breaker_inv (b : Breaker) (now : Z) : Prop := {
  bi_config : config_ok (b_config b);
  bi_life : in_lifetime b now;
  bi_fast : is_open_fast b = bool_decide (b_state b = Open);
  bi_probes : (0 ≤ half_open_probes b ≤ half_open_max_probes (b_config b))%Z;
  bi_idle : b_state b ≠ HalfOpen → half_open_probes b = 0%Z;
  bi_opened : (0 ≤ opened_at_millis b ≤ elapsed_millis now b)%Z;
  bi_claimed : (0 ≤ probe_claimed_at_millis b ≤ elapsed_millis now b)%Z;
  bi_window : window_ok (b_window b);
  bi_order : taken_in_order (b_window b) now;
}.

Lemma inv_later b now now' :
  breaker_inv b now → (now ≤ now')%Z → in_lifetime b now' → breaker_inv b now'.
Proof.
  intros [Hc Hl Hf Hp Hi Ho Hcl Hw [Hs Ht]] Hn Hl'.
  pose proof (elapsed_mono b now now' Hl Hl' Hn).
  constructor; try done; try lia. split; [done|].
  eapply Forall_impl; [exact Ht|]. simpl. lia.
Qed.

Lemma inv_with_clock c now :
  (0 ≤ open_duration c ≤ U64_MAX * MS)%Z → (0 ≤ half_open_max_probes c ≤ U64_MAX)%Z →
  breaker_inv (with_clock c now) now.
Proof.
  intros Hd Hp. constructor; simpl; try done; try lia.
  - split; simpl; [done|]. unfold U64_MAX in *. lia.
  - unfold in_lifetime; simpl. unfold U64_MAX, MS. lia.
  - split; [lia|]. apply wrap64_u64.
  - split; [lia|]. apply wrap64_u64.
  - apply window_new_ok.
  - split; constructor.
Qed.

Lemma elapsed_nonneg now b : (0 ≤ elapsed_millis now b)%Z.
Proof. apply wrap64_u64. Qed.

(** Only the observed calls differ. *)
Lemma inv_observe c b now : breaker_inv b now → breaker_inv (observe c b) now.
Proof. intros [? ? ? ? ? ? ? ? ?]. by constructor. Qed.
Lemma inv_state_change prev new reason b now :
  breaker_inv b now → breaker_inv (state_change prev new reason b) now.
Proof. unfold state_change. case_bool_decide; [done|apply inv_observe]. Qed.

Lemma inv_trip now prev reason b : breaker_inv b now → breaker_inv (trip now prev reason b) now.
Proof.
  intros [Hc Hl Hf Hp Hi Ho Hcl Hw Hord]. apply inv_state_change.
  pose proof (elapsed_nonneg now b). constructor; simpl; try done; destruct Hc; lia.
Qed.

Lemma inv_close now prev reason b : breaker_inv b now → breaker_inv (close prev reason b) now.
Proof.
  intros [Hc Hl Hf Hp Hi Ho Hcl Hw Hord]. apply inv_state_change.
  constructor; simpl; try done.
  - destruct Hc. lia.
  - apply window_clear_ok.
  - split; constructor.
Qed.

Lemma inv_sample f now b : breaker_inv b now → breaker_inv (sample f now b) now.
Proof.
  intros [Hc Hl Hf Hp Hi Ho Hcl Hw Hord]. constructor; simpl; try done.
  - by apply window_evict_ok, window_push_ok.
  - apply window_evict_in_order; [by apply window_push_ok|].
    by eapply window_push_in_order.
Qed.

Lemma probe_restore p : is_u64 p → wrap64 (wrapping_add p 1 - 1) = p.
Proof.
  intros Hp. unfold wrapping_add, wrap64. rewrite Zminus_mod_idemp_l.
  replace (p + 1 - 1)%Z with p by lia. apply Z.mod_small. unfold is_u64 in Hp. lia.
Qed.

Lemma probe_unfold now b :
  try_half_open_probe now b =
  if (half_open_probes b <? half_open_max_probes (b_config b))%Z then
    (observe (OnProbeAdmission true)
       (store_claimed (elapsed_millis now b)
          (store_probes (wrapping_add (half_open_probes b) 1) b)), Ok tt)
  else if (as_millis_u64 (open_duration (b_config b))
             <=? saturating_sub (elapsed_millis now b) (probe_claimed_at_millis b))%Z
  then
    (observe (OnProbeAdmission true)
       (store_claimed (elapsed_millis now b)
          (store_probes (wrap64 (wrapping_add (half_open_probes b) 1 - 1)) b)), Ok tt)
  else
    (observe (OnProbeAdmission false)
       (store_probes (wrap64 (wrapping_add (half_open_probes b) 1 - 1)) b),
     Err {| retry_after := Z.min HALF_OPEN_PROBE_BACKOFF (open_duration (b_config b)) |}).
Proof. reflexivity. Qed.

(** A denied probe leaves the breaker as it was but for the observer call. *)
Lemma probe_cases now b :
  breaker_inv b now → b_state b = HalfOpen →
  let lease := as_millis_u64 (open_duration (b_config b)) in
  let now_ms := elapsed_millis now b in
  ((half_open_probes b < half_open_max_probes (b_config b))%Z ∧
   try_half_open_probe now b
   = (observe (OnProbeAdmission true)
        (store_claimed now_ms (store_probes (half_open_probes b + 1) b)), Ok tt)) ∨
  ((half_open_max_probes (b_config b) ≤ half_open_probes b)%Z ∧
   (lease ≤ saturating_sub now_ms (probe_claimed_at_millis b))%Z ∧
   try_half_open_probe now b
   = (observe (OnProbeAdmission true) (store_claimed now_ms (store_probes (half_open_probes b) b)),
      Ok tt)) ∨
  ((half_open_max_probes (b_config b) ≤ half_open_probes b)%Z ∧
   (saturating_sub now_ms (probe_claimed_at_millis b) < lease)%Z ∧
   try_half_open_probe now b
   = (observe (OnProbeAdmission false) (store_probes (half_open_probes b) b),
      Err {| retry_after := Z.min HALF_OPEN_PROBE_BACKOFF (open_duration (b_config b)) |})).
Proof.
  intros [Hc Hl Hf Hp Hi Ho Hcl Hw Hord] Hs lease now_ms. destruct (proj2 Hc) as [Hm1 Hm2].
  rewrite probe_unfold. rewrite probe_restore by (unfold is_u64; lia).
  destruct (Z.ltb_spec (half_open_probes b) (half_open_max_probes (b_config b))) as [Hlt|Hge].
  - left. split; [done|]. unfold wrapping_add. by rewrite wrap64_small by (unfold is_u64; lia).
  - right. fold lease now_ms.
    destruct (Z.leb_spec lease (saturating_sub now_ms (probe_claimed_at_millis b))); [by left|by right].
Qed.

Lemma inv_probe now b :
  breaker_inv b now → b_state b = HalfOpen → breaker_inv (try_half_open_probe now b).1 now.
Proof.
  intros Hb Hs. pose proof (elapsed_nonneg now b).
  destruct (probe_cases now b Hb Hs) as [(Hlt & ->)|[(Hge & _ & ->)|(Hge & _ & ->)]];
    destruct Hb as [Hc Hl Hf Hp Hi Ho Hcl Hw Hord]; simpl; apply inv_observe;
    constructor; simpl; try done; try lia; split; try lia; try done; reflexivity.
Qed.

Lemma inv_check now b : breaker_inv b now → breaker_inv (check now b).1 now.
Proof.
  intros Hb. unfold check. destruct (negb _); [done|].
  destruct (b_state b) eqn:Es; [done| |by apply inv_probe].
  unfold check_open. destruct (_ <=? _)%Z; [|done]. rewrite Es.
  apply inv_probe; [|done]. apply inv_observe. destruct Hb as [Hc Hl Hf Hp Hi Ho Hcl Hw Hord].
  constructor; simpl; try done.
Qed.

Lemma inv_record o now b : breaker_inv b now → breaker_inv (record o now b) now.
Proof.
  intros Hb. unfold record. destruct (negb _); [done|]. apply inv_observe.
  destruct (b_state b).
  - pose proof (inv_sample (match o with Failure => true | Success => false end) now b Hb).
    destruct (should_trip _); [by apply inv_trip|done].
  - by apply inv_sample.
  - destruct o; [by apply inv_close|by apply inv_trip].
Qed.

Lemma inv_error_rate now b : breaker_inv b now → breaker_inv (error_rate now b).1 now.
Proof.
  intros [Hc Hl Hf Hp Hi Ho Hcl Hw Hord]. constructor; simpl; try done.
  - by apply window_evict_ok.
  - by apply window_evict_in_order.
Qed.

(** ** Histories *)

Inductive BreakerOp : Type :=
| OpCheck
| OpRecord (o : Outcome)
| OpErrorRate.

Definition apply_breaker_op (now : Z) (op : BreakerOp) (b : Breaker) : Breaker :=
  match op with
  | OpCheck => (check now b).1
  | OpRecord o => record o now b
  | OpErrorRate => (error_rate now b).1
  end.

(** Breakers reachable by calls at non-decreasing times that do not overlap: each
    call returns before the next begins.  The breaker is shared by threads whose
    calls can overlap; [BreakerRace] interleaves their accesses and shows that the
    mirror and the bound of the probe counter do not survive it. *)
Inductive reachable (c : BreakerConfig) (start : Z) : Breaker → Z → Prop :=
| reach_new : reachable c start (with_clock c start) start
| reach_call b now now' op :
    reachable c start b now → (now ≤ now')%Z → in_lifetime b now' →
    reachable c start (apply_breaker_op now' op b) now'.

Lemma reachable_inv c start b now :
  (0 ≤ open_duration c ≤ U64_MAX * MS)%Z → (0 ≤ half_open_max_probes c ≤ U64_MAX)%Z →
  reachable c start b now → breaker_inv b now.
Proof.
  intros Hd Hp. induction 1 as [|b now now' op Hr IH Hn Hl]; [by apply inv_with_clock|].
  pose proof (inv_later _ _ _ IH Hn Hl) as Hb.
  destruct op; [by apply inv_check|by apply inv_record|by apply inv_error_rate].
Qed.

(** ** Checks *)

Lemma check_half_open now b :
  breaker_enabled (b_config b) = true → b_state b = HalfOpen →
  check now b = try_half_open_probe now b.
Proof. intros He Hs. unfold check. by rewrite He, Hs. Qed.

(** The results of a sequence of checks. *)
Fixpoint check_all (times : list Z) (b : Breaker) : list (result unit BreakerOpen) :=
  match times with
  | [] => []
  | t :: ts => let '(b', r) := check t b in r :: check_all ts b'
  end.

Definition admitted (r : result unit BreakerOpen) : bool :=
  match r with Ok _ => true | Err _ => false end.

(** Every claim younger than the lease: no slot can be taken over. *)
Definition fresh_claims (b : Breaker) (times : list Z) : Prop :=
  Forall (λ t, saturating_sub (elapsed_millis t b) (probe_claimed_at_millis b)
               < as_millis_u64 (open_duration (b_config b)))%Z times.

Lemma check_all_half_open times b now :
  breaker_inv b now → b_state b = HalfOpen → breaker_enabled (b_config b) = true →
  StronglySorted Z.le (now :: times) → Forall (in_lifetime b) times → fresh_claims b times →
  Z.of_nat (length (base.filter (λ r, admitted r = true) (check_all times b)))
  = Z.min (Z.of_nat (length times)) (half_open_max_probes (b_config b) - half_open_probes b).
Proof.
  revert b now. induction times as [|t ts IH]; intros b now Hb Hs He Hsort Hlife Hfresh.
  { simpl. destruct Hb as [_ _ _ Hp _ _ _ _ _]. lia. }
  apply StronglySorted_inv in Hsort as [Hsort Hall].
  apply Forall_cons in Hall as [Hnt Hall]. apply Forall_cons in Hlife as [Hlt Hlife].
  apply Forall_cons in Hfresh as [Hft Hfresh].
  pose proof (inv_later _ _ _ Hb Hnt Hlt) as Hbt.
  pose proof (inv_probe t b Hbt Hs) as Hinv.
  cbn [check_all]. rewrite check_half_open by done.
  destruct (probe_cases t b Hbt Hs) as [(Hlt' & E)|[(_ & Hl & _)|(Hge & _ & E)]]; [| lia |].
  - rewrite E in Hinv |- *. cbn [fst] in Hinv. cbn [length]. rewrite filter_cons_True by done. cbn [length].
    specialize (IH _ t Hinv Hs He Hsort Hlife). rewrite Nat2Z.inj_succ, IH.
    + simpl. lia.
    + unfold fresh_claims in *. rewrite Forall_forall in Hfresh |- *. intros t' Ht'.
      specialize (Hfresh t' Ht'). destruct Hbt as [_ _ _ _ _ _ [_ Hc] _ _].
      simpl in *. change (elapsed_millis t' _) with (elapsed_millis t' b).
      unfold saturating_sub in *. lia.
  - rewrite E in Hinv |- *. cbn [fst] in Hinv. rewrite filter_cons_False by done.
    specialize (IH _ t Hinv Hs He Hsort Hlife Hfresh). rewrite IH. cbn [length]. simpl.
    destruct Hb as [_ _ _ Hp _ _ _ _ _]. lia.
Qed.

Lemma elapsed_gap b now now' d :
  in_lifetime b now → in_lifetime b now' → (0 ≤ d)%Z → (now + d + MS ≤ now')%Z →
  (d < from_millis (elapsed_millis now' b - elapsed_millis now b))%Z.
Proof.
  intros Hl Hl' Hd Hn. rewrite !elapsed_eq by done. unfold from_millis. fold MS.
  pose proof (Z.div_mod (now - baseline b) MS). pose proof (Z.mod_pos_bound (now - baseline b) MS).
  pose proof (Z.div_mod (now' - baseline b) MS). pose proof (Z.mod_pos_bound (now' - baseline b) MS).
  unfold MS in *. lia.
Qed.

Lemma contains_existsb l status : contains l status = existsb (Z.eqb status) l.
Proof.
  unfold contains. induction l as [|x l IH]; [done|]. simpl. rewrite <- IH.
  destruct (Z.eqb_spec status x) as [->|Hne]; simpl.
  - apply bool_decide_eq_true. left.
  - apply bool_decide_ext. rewrite elem_of_cons. naive_solver.
Qed.

(** ** Properties *)

(** C28: when the calls on a breaker do not overlap, whatever they are and whenever
    they come, then after each of them the lock-free mirror [is_open] agrees with
    the state, the probe counter is within its bound and zero outside [HalfOpen],
    the stored offsets are in the past, and the window's incremental failure count
    is the number of failures among at most 10000 samples in the order they were
    taken.  Calls of threads that overlap can break the mirror and the counter
    ([mirror_disagrees_after_race], [probe_counter_underflow]). *)
Theorem breaker_invariant c start b now
    (Hd : (0 ≤ open_duration c ≤ U64_MAX * MS)%Z)
    (Hp : (0 ≤ half_open_max_probes c ≤ U64_MAX)%Z)
    (Hr : reachable c start b now) :
  is_open_fast b = bool_decide (b_state b = Open) ∧
  (0 ≤ half_open_probes b ≤ half_open_max_probes (b_config b))%Z ∧
  (b_state b ≠ HalfOpen → half_open_probes b = 0%Z) ∧
  (opened_at_millis b ≤ elapsed_millis now b)%Z ∧
  (probe_claimed_at_millis b ≤ elapsed_millis now b)%Z ∧
  failures (b_window b) = count_failures (entries (b_window b)) ∧
  (Z.of_nat (length (entries (b_window b))) ≤ 10000)%Z ∧
  taken_in_order (b_window b) now.
Proof.
  destruct (reachable_inv c start b now Hd Hp Hr) as [_ _ Hf Hpr Hi [_ Ho] [_ Hc] [Hw1 Hw2] Hord].
  pose proof max_window_entries. repeat split; try done; try lia; apply Hord.
Qed.

(** Recording an outcome moves the breaker exactly as its state says: a
    closed breaker adds the sample, drops the samples older than the window and
    opens iff at least [min_samples] remain and their failure rate has reached
    the threshold; a half-open one closes (window cleared) on success and opens
    on failure; an open one only samples. *)
Theorem record_transitions o now now' b cutoff
    (Hb : breaker_inv b now) (Hn : (now ≤ now')%Z) (He : breaker_enabled (b_config b) = true)
    (Hcut : instant_checked_sub now' (window_duration (b_config b)) = Some cutoff) :
  let b' := record o now' b in
  let samples := base.filter (λ e : Z * bool, cutoff ≤ e.1)%Z
                   (entries (window_push (b_window b) (match o with Failure => true | Success => false end) now')) in
  match b_state b with
  | Closed =>
      entries (b_window b') = samples ∧
      (b_state b' = Open ↔
       (min_samples (b_config b) ≤ Z.of_nat (length samples))%Z ∧
       f64_leb (error_rate_threshold (b_config b))
         (match samples with
          | [] => f64_zero
          | _ => f64_div (f64_of_Z (count_failures samples)) (f64_of_Z (Z.of_nat (length samples)))
          end) = true) ∧
      (b_state b' = Open ∨ b_state b' = Closed)
  | HalfOpen =>
      b_state b' = match o with Success => Closed | Failure => Open end ∧
      half_open_probes b' = 0%Z ∧ (o = Success → entries (b_window b') = [])
  | Open => b_state b' = Open ∧ entries (b_window b') = samples
  end.
Proof.
  set (f := match o with Failure => true | Success => false end).
  intros b' samples.
  assert (Hwin : entries (b_window (sample f now' b)) = samples ∧
                 failures (b_window (sample f now' b)) = count_failures samples).
  { destruct Hb as [_ _ _ _ _ _ _ Hw Hord].
    pose proof (window_push_ok _ f now' Hw) as Hw'.
    pose proof (window_push_in_order _ f _ _ Hord Hn) as Hord'.
    pose proof (window_evict_filter _ _ _ _ Hw' Hord' Hcut) as E.
    simpl. rewrite (wo_failures _ (window_evict_ok _ _ _ Hw')), E. done. }
  unfold b', record. rewrite He. cbn [negb].
  destruct (b_state b) eqn:Es; cbn zeta.
  - destruct Hwin as [E1 E2].
    assert (Et : should_trip (sample f now' b) = true ↔
      (min_samples (b_config b) ≤ Z.of_nat (length samples))%Z ∧
      f64_leb (error_rate_threshold (b_config b))
        (match samples with
         | [] => f64_zero
         | _ => f64_div (f64_of_Z (count_failures samples)) (f64_of_Z (Z.of_nat (length samples)))
         end) = true).
    { unfold should_trip, sample_count, window_error_rate. rewrite E1, E2.
      rewrite andb_true_iff, Z.leb_le. clear. by destruct samples. }
    fold f. destruct (should_trip (sample f now' b)).
    + split; [exact E1|]. split; [|by left]. split; [|done]. intros _. by apply Et.
    + split; [exact E1|]. split; [|right; exact Es].
      split; [|intros Hx; apply Et in Hx; discriminate].
      intros Hx. simpl in Hx. rewrite Es in Hx. discriminate Hx.
  - split; [exact Es|]. apply Hwin.
  - destruct o; done.
Qed.

(** Within one lease of the last claim, a half-open breaker admits exactly
    as many of the next checks as it has free probe slots, and rejects the
    others. *)
Theorem half_open_admits_free_slots b now times
    (Hb : breaker_inv b now) (Hs : b_state b = HalfOpen)
    (He : breaker_enabled (b_config b) = true)
    (Hsorted : StronglySorted Z.le (now :: times)) (Hlife : Forall (in_lifetime b) times)
    (Hfresh : fresh_claims b times) :
  Z.of_nat (length (base.filter (λ r, admitted r = true) (check_all times b)))
  = Z.min (Z.of_nat (length times)) (half_open_max_probes (b_config b) - half_open_probes b).
Proof. by eapply check_all_half_open. Qed.

(** C40: the breaker never sheds traffic forever: whatever calls came before, one
    after another, even probes whose outcome is never recorded, a check one
    [open_duration] (and a millisecond of rounding) after the last call is
    admitted. *)
Theorem breaker_recovers c start b now now'
    (Hd : (0 ≤ open_duration c ≤ U64_MAX * MS)%Z)
    (Hp : (0 ≤ half_open_max_probes c ≤ U64_MAX)%Z)
    (Hr : reachable c start b now)
    (Hl : in_lifetime b now') (Hn : (now + open_duration (b_config b) + MS ≤ now')%Z) :
  (check now' b).2 = Ok tt.
Proof.
  pose proof (reachable_inv c start b now Hd Hp Hr) as Hb.
  pose proof (bi_config _ _ Hb) as Hc. destruct Hc as [Hod Hmax].
  assert (Hle : (now ≤ now')%Z) by (unfold MS in *; lia).
  pose proof (elapsed_gap b now now' (open_duration (b_config b)) (bi_life _ _ Hb) Hl
    ltac:(lia) Hn) as Hgap.
  pose proof (inv_later _ _ _ Hb Hle Hl) as Hb'.
  unfold check. destruct (negb _); [done|]. destruct (b_state b) eqn:Es; [done| |].
  - unfold check_open.
    assert (Hel : (open_duration (b_config b)
                   ≤ from_millis (saturating_sub (elapsed_millis now' b) (opened_at_millis b)))%Z).
    { pose proof (bi_opened _ _ Hb). unfold saturating_sub, from_millis in *. lia. }
    rewrite (proj2 (Z.leb_le _ _) Hel), Es. cbn zeta.
    assert (Hz : half_open_probes b = 0%Z) by (apply (bi_idle _ _ Hb); congruence).
    unfold try_half_open_probe. cbn. rewrite Hz.
    by rewrite (proj2 (Z.ltb_lt 0 (half_open_max_probes (b_config b)))) by lia.
  - destruct (probe_cases now' b Hb' Es) as [(_ & ->)|[(_ & _ & ->)|(_ & Hlt & _)]]; [done|done|].
    exfalso. rewrite lease_eq in Hlt by (by split).
    pose proof (bi_claimed _ _ Hb). unfold saturating_sub, from_millis in *. fold MS in Hgap.
    pose proof (Z.mul_div_le (open_duration (b_config b)) MS ltac:(unfold MS; lia)).
    unfold MS in *. lia.
Qed.

(** a rejected caller is told a delay of at most [open_duration]; while the
    breaker is open the delay is positive, and (for an [open_duration] of whole
    milliseconds) waiting exactly that long is enough: if nothing else happens,
    the check after it is admitted. *)
Theorem retry_after_is_enough b now b' e
    (Hb : breaker_inv b now) (Hcheck : check now b = (b', Err e))
    (Hlife : in_lifetime b (now + retry_after e)) :
  (0 ≤ retry_after e ≤ open_duration (b_config b))%Z ∧
  (b_state b = Open →
   b' = b ∧ (0 < retry_after e)%Z ∧
   ((open_duration (b_config b) mod MS = 0)%Z → (check (now + retry_after e) b').2 = Ok tt)).
Proof.
  unfold check in Hcheck. destruct (negb (breaker_enabled (b_config b))) eqn:He; [done|].
  pose proof (bi_config _ _ Hb) as Hc. destruct Hc as [Hod Hmax].
  destruct (b_state b) eqn:Es; [done| |].
  - unfold check_open in Hcheck. rewrite Es in Hcheck.
    pose proof (bi_opened _ _ Hb) as Hop. pose proof (bi_life _ _ Hb) as Hl.
    destruct (Z.leb_spec (open_duration (b_config b))
      (from_millis (saturating_sub (elapsed_millis now b) (opened_at_millis b)))) as [Hle|Hlt].
    { exfalso. cbn zeta in Hcheck. unfold try_half_open_probe in Hcheck. cbn in Hcheck.
      rewrite (bi_idle _ _ Hb) in Hcheck by congruence.
      by rewrite (proj2 (Z.ltb_lt 0 (half_open_max_probes (b_config b)))) in Hcheck by lia. }
    injection Hcheck as <- <-. cbn [retry_after] in *.
    set (d := open_duration (b_config b)) in *. set (op := opened_at_millis b) in *.
    assert (Hs1 : saturating_sub (elapsed_millis now b) op = (elapsed_millis now b - op)%Z)
      by (unfold saturating_sub; lia).
    rewrite Hs1 in *.
    assert (Hs2 : saturating_sub d (from_millis (elapsed_millis now b - op))
                  = (d - from_millis (elapsed_millis now b - op))%Z)
      by (unfold saturating_sub; lia).
    rewrite Hs2 in *.
    assert (0 ≤ from_millis (elapsed_millis now b - op))%Z by (unfold from_millis; lia).
    split; [lia|]. intros _. split; [done|]. split; [lia|]. intros Hmod.
    unfold check. rewrite He, Es. unfold check_open. rewrite Es.
    set (t := (now + (d - from_millis (elapsed_millis now b - op)))%Z) in *.
    assert (Ht : elapsed_millis t b = (op + d / MS)%Z).
    { rewrite elapsed_eq by done. rewrite elapsed_eq in * by done.
      assert (Ed : d = (MS * (d / MS))%Z)
        by (pose proof (Z.div_mod d MS ltac:(unfold MS; lia)); lia).
      assert (Et : (t - baseline b = (now - baseline b)
                    + (d / MS - (now - baseline b) / MS + op) * MS)%Z).
      { unfold t, from_millis. rewrite elapsed_eq by done. fold MS. lia. }
      rewrite Et.
      rewrite Z.div_add by (unfold MS; lia). lia. }
    assert (Hok : (d ≤ from_millis (saturating_sub (elapsed_millis t b) op))%Z).
    { rewrite Ht. unfold saturating_sub, from_millis. fold MS.
      pose proof (Z.div_mod d MS ltac:(unfold MS; lia)).
      assert (0 ≤ d / MS)%Z by (apply Z.div_pos; unfold MS; lia). unfold MS in *. lia. }
    fold d op. rewrite (proj2 (Z.leb_le _ _) Hok). cbn zeta.
    unfold try_half_open_probe. cbn. rewrite (bi_idle _ _ Hb) by congruence.
    by rewrite (proj2 (Z.ltb_lt 0 (half_open_max_probes (b_config b)))) by lia.
  - split; [|done].
    destruct (probe_cases now b Hb Es) as [(_ & E)|[(_ & _ & E)|(_ & _ & E)]];
      rewrite E in Hcheck; try done. injection Hcheck as <- <-. cbn [retry_after].
    unfold HALF_OPEN_PROBE_BACKOFF, from_millis. lia.
Qed.

(** a 2xx status is no error under any policy; the server preset retries
    exactly 429 and the 5xx; the storage preset refreshes credentials on 401,
    drops 400, 403 and 404, and retries everything else. *)
Theorem retry_policy_presets status :
  ((200 ≤ status < 300)%Z ↔ classify policy_server status = None) ∧
  ((200 ≤ status < 300)%Z ↔ classify policy_client_storage status = None) ∧
  (should_retry policy_server status = true ↔ status = 429%Z ∨ (500 ≤ status < 600)%Z) ∧
  (classify policy_client_storage status = Some AuthRefresh ↔ status = 401%Z) ∧
  (classify policy_client_storage status = Some Terminal ↔
   status = 400%Z ∨ status = 403%Z ∨ status = 404%Z).
Proof.
  unfold should_retry, classify. rewrite !contains_existsb. simpl.
  destruct (Z.leb_spec 200 status), (Z.ltb_spec status 300), (Z.leb_spec 500 status),
    (Z.ltb_spec status 600); try lia; simpl;
  destruct (Z.eqb_spec status 401), (Z.eqb_spec status 400),
    (Z.eqb_spec status 403), (Z.eqb_spec status 404), (Z.eqb_spec status 429); try lia;
    simpl; repeat split; intros; try done; lia.
Qed.

(** ** Examples *)

Fixpoint run_ops (ops : list (Z * BreakerOp)) (b : Breaker) : Breaker :=
  match ops with
  | [] => b
  | (t, op) :: ops' => run_ops ops' (apply_breaker_op t op b)
  end.

(** Times that go forward within the lifetime of a breaker built at 0. *)
Fixpoint times_ok (now : Z) (ops : list (Z * BreakerOp)) : bool :=
  match ops with
  | [] => true
  | (t, _) :: ops' => (now <=? t)%Z && (t <=? U64_MAX * MS)%Z && times_ok t ops'
  end.
Fixpoint last_time (now : Z) (ops : list (Z * BreakerOp)) : Z :=
  match ops with [] => now | (t, _) :: ops' => last_time t ops' end.

Lemma baseline_apply t op b : baseline (apply_breaker_op t op b) = baseline b.
Proof.
  assert (Hs : ∀ p n r b, baseline (state_change p n r b) = baseline b)
    by (intros; unfold state_change; by case_bool_decide).
  assert (Ht : ∀ b, baseline (try_half_open_probe t b).1 = baseline b)
    by (intros x; rewrite probe_unfold; by repeat case_match).
  destruct op; simpl.
  - unfold check, check_open. repeat case_match; simpl; rewrite ?Ht; done.
  - unfold record. case_match; [done|]. simpl. destruct (b_state b).
    + destruct (should_trip _); [|done]. unfold trip. by rewrite Hs.
    + done.
    + destruct o; unfold close, trip; by rewrite Hs.
  - done.
Qed.

Lemma reachable_run c ops b now :
  reachable c 0 b now → baseline b = 0%Z → (0 ≤ now)%Z → times_ok now ops = true →
  reachable c 0 (run_ops ops b) (last_time now ops).
Proof.
  revert b now. induction ops as [|[t op] ops IH]; intros b now Hr Hb Hn Ht; simpl in *; [done|].
  apply andb_true_iff in Ht as [[H1%Z.leb_le H2%Z.leb_le]%andb_true_iff Ht].
  apply IH; [| by rewrite baseline_apply | lia | done].
  eapply reach_call; [exact Hr|done|]. unfold in_lifetime. rewrite Hb. lia.
Qed.

(** Ten failures one second apart trip the server preset; eleven seconds later a
    probe is admitted. *)
Definition demo_trip : list (Z * BreakerOp) :=
  map (λ i, (from_secs (Z.of_nat i), OpRecord Failure)) (seq 1 10).
Definition demo_open : Breaker := run_ops demo_trip (with_clock config_server 0).
Definition demo_half_open : Breaker :=
  run_ops [(from_secs 21, OpCheck)] demo_open.

Lemma demo_open_reachable : reachable config_server 0 demo_open (from_secs 10).
Proof. apply (reachable_run config_server demo_trip (with_clock config_server 0) 0); [constructor|done|done|reflexivity]. Qed.

Lemma demo_half_open_reachable : reachable config_server 0 demo_half_open (from_secs 21).
Proof.
  apply (reachable_run config_server [(from_secs 21, OpCheck)] demo_open (from_secs 10));
    [exact demo_open_reachable|vm_compute; reflexivity|vm_compute; discriminate|vm_compute; reflexivity].
Qed.

Lemma server_config_ok :
  (0 ≤ open_duration config_server ≤ U64_MAX * MS)%Z ∧
  (0 ≤ half_open_max_probes config_server ≤ U64_MAX)%Z.
Proof. repeat split; vm_compute; discriminate. Qed.

Lemma breaker_invariant_witness :
  b_state demo_open = Open ∧ is_open_fast demo_open = true ∧
  (Z.of_nat (length (entries (b_window demo_open))) ≤ 10000)%Z.
Proof.
  destruct (breaker_invariant config_server 0 demo_open (from_secs 10)
    (proj1 server_config_ok) (proj2 server_config_ok) demo_open_reachable)
    as (Hf & _ & _ & _ & _ & _ & Hlen & _).
  split; [vm_compute; reflexivity|]. split; [rewrite Hf; vm_compute; reflexivity|exact Hlen].
Defined.

Lemma record_transitions_witness :
  b_state (record Success (from_secs 22) demo_half_open) = Closed.
Proof.
  assert (Hs : b_state demo_half_open = HalfOpen) by (vm_compute; reflexivity).
  pose proof (record_transitions Success (from_secs 21) (from_secs 22) demo_half_open
    (from_secs 22 - from_secs 60)
    (reachable_inv _ _ _ _ (proj1 server_config_ok) (proj2 server_config_ok)
       demo_half_open_reachable)) as Hr.
  rewrite Hs in Hr. apply Hr; [vm_compute; discriminate|vm_compute; reflexivity|vm_compute; reflexivity].
Defined.

Lemma half_open_admits_free_slots_witness :
  let times := [from_secs 22; from_secs 23] in
  Z.of_nat (length (base.filter (λ r, admitted r = true) (check_all times demo_half_open))) = 0%Z.
Proof.
  intros times.
  rewrite (half_open_admits_free_slots demo_half_open (from_secs 21) times
    (reachable_inv _ _ _ _ (proj1 server_config_ok) (proj2 server_config_ok)
       demo_half_open_reachable)).
  - vm_compute. reflexivity.
  - vm_compute. reflexivity.
  - vm_compute. reflexivity.
  - repeat constructor; vm_compute; discriminate.
  - repeat constructor; vm_compute; discriminate.
  - repeat constructor; vm_compute; reflexivity.
Defined.

Lemma breaker_recovers_witness : (check (from_secs 32) demo_half_open).2 = Ok tt.
Proof.
  apply (breaker_recovers config_server 0 demo_half_open (from_secs 21) (from_secs 32)
    (proj1 server_config_ok) (proj2 server_config_ok) demo_half_open_reachable).
  - split; vm_compute; discriminate.
  - vm_compute. discriminate.
Defined.

Lemma retry_after_is_enough_witness :
  ∃ e, (check (from_secs 13) demo_open).2 = Err e ∧ retry_after e = from_secs 7 ∧
    (check (from_secs 20) demo_open).2 = Ok tt.
Proof.
  destruct (check (from_secs 13) demo_open) as [b' [[]|e]] eqn:E; [vm_compute in E; discriminate E|].
  exists e. split; [done|].
  assert (Er : (λ r, match r with Err e => retry_after e | Ok _ => 0%Z end)
    (check (from_secs 13) demo_open).2 = from_secs 7) by (vm_compute; reflexivity).
  rewrite E in Er. cbn [snd] in Er. split; [exact Er|].
  pose proof (inv_later demo_open (from_secs 10) (from_secs 13)
    (reachable_inv _ _ _ _ (proj1 server_config_ok) (proj2 server_config_ok) demo_open_reachable)
    ltac:(vm_compute; discriminate) ltac:(split; vm_compute; discriminate)) as Hb.
  destruct (retry_after_is_enough demo_open (from_secs 13) b' e Hb E) as [_ Ho].
  - rewrite Er. split; vm_compute; discriminate.
  - destruct (Ho ltac:(vm_compute; reflexivity)) as (-> & _ & Hw). rewrite Er in Hw.
    apply Hw. vm_compute. reflexivity.
Defined.
