(* ===== verification/BreakerRace.v ===== *)
(** * Circuit breaker under interleaving

    The same handlers cut at their atomic operations: a thread is a program
    counter, a step executes the next load, store, fetch-and-add or
    compare-and-swap on the shared cells.  Running one thread alone gives the
    calls of the file Breaker; interleaving two shows what the release/acquire
    comments of [breaker.rs] do not exclude.  Observer calls are left out: they
    touch no shared cell. *)
From S2P Require Import Prelude RustStr F64 Breaker.

Inductive Pc : Type :=
| PcProbeAdd
| PcProbeClaim (now_ms : Z)
| PcProbeSub (now_ms : Z)
| PcProbeLoad (now_ms : Z)
| PcProbeCas (now_ms claimed : Z)
| PcOpenLoad
| PcOpenCas
| PcOpenFast
| PcOpenLost
| PcTripState
| PcTripOpened
| PcTripProbes
| PcTripFast
| PcCloseState
| PcCloseWindow
| PcCloseProbes
| PcCloseFast
| PcDone (r : result unit BreakerOpen).

Definition rejected_probe (b : Breaker) : Pc :=
  PcDone (Err {| retry_after := Z.min HALF_OPEN_PROBE_BACKOFF (open_duration (b_config b)) |}).

(** What [check] and [record] do first: read the state and pick the handler. *)
Definition start_check (b : Breaker) : Pc :=
  if negb (breaker_enabled (b_config b)) then PcDone (Ok tt)
  else match b_state b with
       | Closed => PcDone (Ok tt)
       | Open => PcOpenLoad
       | HalfOpen => PcProbeAdd
       end.
Definition start_probe_record (o : Outcome) : Pc :=
  match o with Failure => PcTripState | Success => PcCloseState end.

Definition pc_step (now : Z) (pc : Pc) (b : Breaker) : Pc * Breaker :=
  let lease := as_millis_u64 (open_duration (b_config b)) in
  match pc with
  | PcProbeAdd =>
      let now_ms := elapsed_millis now b in
      let prev := half_open_probes b in
      (if (prev <? half_open_max_probes (b_config b))%Z then PcProbeClaim now_ms
       else PcProbeSub now_ms,
       store_probes (wrapping_add prev 1) b)
  | PcProbeClaim now_ms => (PcDone (Ok tt), store_claimed now_ms b)
  | PcProbeSub now_ms =>
      (PcProbeLoad now_ms, store_probes (wrap64 (half_open_probes b - 1)) b)
  | PcProbeLoad now_ms =>
      let claimed := probe_claimed_at_millis b in
      (if (lease <=? saturating_sub now_ms claimed)%Z then PcProbeCas now_ms claimed
       else rejected_probe b, b)
  | PcProbeCas now_ms claimed =>
      if (probe_claimed_at_millis b =? claimed)%Z
      then (PcDone (Ok tt), store_claimed now_ms b)
      else (rejected_probe b, b)
  | PcOpenLoad =>
      let elapsed := from_millis (saturating_sub (elapsed_millis now b) (opened_at_millis b)) in
      (if (open_duration (b_config b) <=? elapsed)%Z then PcOpenCas
       else PcDone (Err {| retry_after := saturating_sub (open_duration (b_config b)) elapsed |}),
       b)
  | PcOpenCas =>
      if bool_decide (b_state b = Open) then (PcOpenFast, store_state HalfOpen b)
      else (PcOpenLost, b)
  | PcOpenFast => (PcProbeAdd, store_fast false b)
  | PcOpenLost =>
      match b_state b with
      | Closed => (PcDone (Ok tt), b)
      | HalfOpen => (PcProbeAdd, b)
      | Open =>
          let elapsed := from_millis (saturating_sub (elapsed_millis now b) (opened_at_millis b)) in
          (PcDone (Err {| retry_after := saturating_sub (open_duration (b_config b)) elapsed |}), b)
      end
  | PcTripState => (PcTripOpened, store_state Open b)
  | PcTripOpened => (PcTripProbes, store_opened (elapsed_millis now b) b)
  | PcTripProbes => (PcTripFast, store_probes 0 b)
  | PcTripFast => (PcDone (Ok tt), store_fast true b)
  | PcCloseState => (PcCloseWindow, store_state Closed b)
  | PcCloseWindow => (PcCloseProbes, store_window (window_clear (b_window b)) b)
  | PcCloseProbes => (PcCloseFast, store_probes 0 b)
  | PcCloseFast => (PcDone (Ok tt), store_fast false b)
  | PcDone r => (PcDone r, b)
  end.

(** One thread running alone; every handler finishes within ten steps. *)
Fixpoint solo (n : nat) (now : Z) (pc : Pc) (b : Breaker) : Pc * Breaker :=
  match n with
  | O => (pc, b)
  | S n' => let '(pc', b') := pc_step now pc b in solo n' now pc' b'
  end.

(** A schedule: which of the threads takes the next step. *)
Fixpoint interleave (now : Z) (schedule : list nat) (pcs : list Pc) (b : Breaker)
  : list Pc * Breaker :=
  match schedule with
  | [] => (pcs, b)
  | i :: schedule' =>
      match pcs !! i with
      | Some pc =>
          let '(pc', b') := pc_step now pc b in interleave now schedule' (<[i := pc']> pcs) b'
      | None => interleave now schedule' pcs b
      end
  end.

(** The shared cells, without the observer's calls. *)
Definition cells (b : Breaker) : Breaker :=
  {| b_config := b_config b; b_state := b_state b; baseline := baseline b;
     opened_at_millis := opened_at_millis b; half_open_probes := half_open_probes b;
     probe_claimed_at_millis := probe_claimed_at_millis b; is_open_fast := is_open_fast b;
     b_window := b_window b; b_calls := [] |}.

Lemma solo_done n now r b : solo n now (PcDone r) b = (PcDone r, b).
Proof. induction n as [|n IH]; [done|]. exact IH. Qed.

#[local] Arguments as_millis_u64 : simpl never.
#[local] Arguments saturating_sub : simpl never.
#[local] Arguments wrap64 : simpl never.
#[local] Arguments wrapping_add : simpl never.
#[local] Arguments elapsed_millis : simpl never.
#[local] Arguments Z.max : simpl never.
#[local] Arguments Z.min : simpl never.

Lemma solo_probe n now b :
  (5 ≤ n)%nat →
  let '(pc, b') := solo n now PcProbeAdd b in
  let '(b'', r) := try_half_open_probe now b in
  pc = PcDone r ∧ cells b' = cells b''.
Proof.
  intros Hn. do 5 (destruct n as [|n]; [lia|]). clear Hn.
  destruct b. unfold try_half_open_probe, elapsed_millis. cbn.
  destruct (_ <? _)%Z eqn:E1; cbn; [by rewrite solo_done|].
  destruct (_ <=? _)%Z eqn:E2; cbn; rewrite ?Z.eqb_refl; cbn; by rewrite solo_done.
Qed.

Lemma solo_S n now pc b :
  solo (S n) now pc b = solo n now (pc_step now pc b).1 (pc_step now pc b).2.
Proof. simpl. by destruct (pc_step now pc b). Qed.

Lemma probe_observe now c b :
  cells (try_half_open_probe now (observe c b)).1 = cells (try_half_open_probe now b).1 ∧
  (try_half_open_probe now (observe c b)).2 = (try_half_open_probe now b).2.
Proof.
  destruct b. unfold try_half_open_probe, elapsed_millis. cbn.
  destruct (_ <? _)%Z; cbn; [done|]. by destruct (_ <=? _)%Z.
Qed.

Lemma solo_open now b :
  b_state b = Open →
  (solo 10 now PcOpenLoad b).1 = PcDone (check_open now b).2 ∧
  cells (solo 10 now PcOpenLoad b).2 = cells (check_open now b).1.
Proof.
  intros Es. unfold check_open. rewrite solo_S.
  destruct (open_duration (b_config b) <=? from_millis _)%Z eqn:E; cbn [pc_step fst snd];
    rewrite E; [|by rewrite solo_done].
  rewrite Es, solo_S. cbn [pc_step fst snd]. rewrite bool_decide_true by done.
  rewrite solo_S. cbn [pc_step fst snd].
  set (b1 := store_fast false (store_state HalfOpen b)).
  pose proof (solo_probe 7 now b1 ltac:(lia)) as Hp.
  destruct (probe_observe now (OnStateChange Open HalfOpen "open_elapsed") b1) as [-> ->].
  destruct (solo 7 now PcProbeAdd b1) as [pc b'].
  destruct (try_half_open_probe now b1) as [b'' r]. exact Hp.
Qed.

(** ** Property *)

(** A caller that runs without interference executes exactly the
    sequential handlers: the atomic steps of a check end with the result and
    the cells of [check], and those of recording a probe's outcome with the
    cells of [record]. *)
Theorem solo_refines now b o
    (He : breaker_enabled (b_config b) = true) (Hs : b_state b = HalfOpen) :
  (∀ b0, breaker_enabled (b_config b0) = true →
     (solo 10 now (start_check b0) b0).1 = PcDone (check now b0).2 ∧
     cells (solo 10 now (start_check b0) b0).2 = cells (check now b0).1) ∧
  (solo 10 now (start_probe_record o) b).1 = PcDone (Ok tt) ∧
  cells (solo 10 now (start_probe_record o) b).2 = cells (record o now b).
Proof.
  split.
  - intros b0 He0. unfold start_check, check. rewrite He0. cbn [negb].
    destruct (b_state b0) eqn:Es; [by rewrite solo_done| |].
    + by apply solo_open.
    + pose proof (solo_probe 10 now b0 ltac:(lia)) as Hp.
      destruct (solo 10 now PcProbeAdd b0) as [pc b'].
      destruct (try_half_open_probe now b0) as [b'' r]. exact Hp.
  - unfold record. rewrite He, Hs. cbn [negb]. destruct o; cbn; done.
Qed.

(** ** Examples *)

(** A half-open breaker with its single probe slot taken at [t = 0]. *)
Definition race_start : Breaker :=
  store_probes 1 (store_state HalfOpen (with_clock config_server 0)).

Lemma solo_refines_witness :
  (solo 10 (from_secs 1) (start_probe_record Success) race_start).1 = PcDone (Ok tt) ∧
  cells (solo 10 (from_secs 1) (start_probe_record Success) race_start).2
  = cells (record Success (from_secs 1) race_start).
Proof.
  destruct (solo_refines (from_secs 1) race_start Success) as [_ H]; [reflexivity|reflexivity|].
  exact H.
Defined.

(** A second caller is rejected between its [fetch_add] and [fetch_sub] while
    the probe's failure trips the breaker: the counter wraps to the largest
    [u64] in state [Open], where [check_open] takes it to be 0. *)
Theorem probe_counter_underflow :
  let '(pcs, b) :=
    interleave (from_secs 1) [0; 1; 1; 1; 1; 0; 0]%nat
      [start_check race_start; start_probe_record Failure] race_start in
  b_state b = Open ∧ half_open_probes b = U64_MAX ∧
  Forall (λ pc, ∃ r, pc = PcDone r) pcs.
Proof.
  vm_compute. split; [done|]. split; [done|]. repeat constructor; eexists; reflexivity.
Qed.

(** Two probes report opposite outcomes at once: both calls return and the
    breaker is closed, but the mirror [is_open] says it is open. *)
Theorem mirror_disagrees_after_race :
  let '(pcs, b) :=
    interleave (from_secs 1) [0; 1; 0; 0; 1; 1; 1; 0]%nat
      [start_probe_record Failure; start_probe_record Success] race_start in
  b_state b = Closed ∧ is_open_fast b = true ∧ Forall (λ pc, ∃ r, pc = PcDone r) pcs.
Proof.
  vm_compute. split; [done|]. split; [done|]. repeat constructor; eexists; reflexivity.
Qed.
