(* ===== verification/FileSystem.v ===== *)
(** * File systems and paths

    The trait [AsyncFileSystem] of [computer/types.rs] and tokio's
    [create_dir_all] as a class of operations on an abstract file system, a
    class of laws on what a read returns after the other calls, and an instance
    in memory.  Paths are Unix paths, as text. *)
From S2P Require Import Prelude RustStr.

(** ** Paths *)

Definition SLASH : char := 47.
Definition is_absolute (p : str) : bool := starts_with p [SLASH].

(** [Path::join] on Unix *)
Definition path_join (base p : str) : str :=
  if is_absolute p then p
  else if is_empty base || ends_with base [SLASH] then base ++ p
  else base ++ [SLASH] ++ p.

(** The path without trailing separators and [.] components, on the reversed
    text. *)
Fixpoint trim_right_rev (fuel : nat) (r : str) : str :=
  match fuel with
  | O => r
  | S fuel' =>
      match r with
      | 47%Z :: (_ :: _) => trim_right_rev fuel' (tail r)
      | 46%Z :: (47%Z :: _) => trim_right_rev fuel' (tail r)
      | _ => r
      end
  end.
Definition trim_right_path (p : str) : str := rev (trim_right_rev (S (length p)) (rev p)).

(** [Path::parent] *)
Definition path_parent (p : str) : option str :=
  let t := trim_right_path p in
  if is_empty t || str_eqb t [SLASH] then None
  else Some (trim_right_path (rev (drop_while (λ c, negb (c =? SLASH)%Z) (rev t)))).

(** ** File systems *)

Class AsyncFs : Type := {
  Fs : Type;
  FsError : Type;
  fs_error_display : FsError → str;
  read_file : Fs → str → result bytes FsError;
  write_file : Fs → str → bytes → Fs * result unit FsError;
  delete_file : Fs → str → Fs * result unit FsError;
  create_dir_all : Fs → str → Fs * result unit FsError;
}.

Definition contents `{AFS : AsyncFs} (fs : Fs) (p : str) : option bytes :=
  match read_file fs p with Ok b => Some b | Err _ => None end.

(** No component goes up: whether such a path names a file does not depend on
    which directories there are beside its own. *)
Definition plain_path (p : str) : Prop := lit ".." ∉ split SLASH p.

(** What is documented of the calls on a file system without links, whose files
    can be read back and which nobody else changes: [same_file p q] says that
    the paths are spellings of one.  A write or delete that fails has changed at
    most the file it was for. *)
Class LawfulFs `{AsyncFs} : Type := {
  same_file : str → str → bool;
  write_contents fs p d fs' :
    write_file fs p d = (fs', Ok tt) →
    ∀ q, plain_path q → contents fs' q = if same_file p q then Some d else contents fs q;
  write_failed fs p d fs' e :
    write_file fs p d = (fs', Err e) →
    ∀ q, plain_path q → same_file p q = false → contents fs' q = contents fs q;
  delete_contents fs p fs' :
    delete_file fs p = (fs', Ok tt) →
    ∀ q, plain_path q → contents fs' q = if same_file p q then None else contents fs q;
  delete_failed fs p fs' e :
    delete_file fs p = (fs', Err e) →
    ∀ q, plain_path q → same_file p q = false → contents fs' q = contents fs q;
  mkdir_contents fs p fs' r :
    create_dir_all fs p = (fs', r) →
    ∀ q, plain_path q → contents fs' q = contents fs q;
}.

(** ** A file system in memory *)

#[global] Instance memory_fs : AsyncFs := {
  Fs := gmap str bytes;
  FsError := str;
  fs_error_display e := e;
  read_file fs p :=
    match fs !! p with Some b => Ok b | None => Err (lit "No such file or directory") end;
  write_file fs p d := (<[p := d]> fs, Ok tt);
  delete_file fs p :=
    match fs !! p with
    | Some _ => (base.delete p fs, Ok tt)
    | None => (fs, Err (lit "No such file or directory"))
    end;
  create_dir_all fs _ := (fs, Ok tt);
}.

Lemma memory_contents (fs : gmap str bytes) p : contents (fs : Fs) p = fs !! p.
Proof. unfold contents, read_file, memory_fs. destruct (fs !! p); reflexivity. Qed.

#[global] Instance memory_fs_lawful : LawfulFs.
Proof.
  refine {| same_file p q := bool_decide (p = q) |}.
  - intros fs p d fs' [= <-] q _. rewrite !memory_contents. case_bool_decide as E.
    + subst. apply lookup_insert_eq.
    + by apply lookup_insert_ne.
  - done.
  - intros fs p fs' H q _. unfold delete_file, memory_fs in H. case_match; [|discriminate H].
    injection H as <-. rewrite !memory_contents. case_bool_decide as E.
    + subst. apply lookup_delete_eq.
    + by apply lookup_delete_ne.
  - intros fs p fs' e H q _ _. unfold delete_file, memory_fs in H. case_match; [discriminate H|].
    by injection H as <- _.
  - intros fs p fs' r [= <- _] q _. reflexivity.
Defined.

(** ** Examples *)

Example parents :
  map path_parent [lit "/a/b.txt"; lit "/a"; lit "a"; lit "/"; lit "a/b/"; lit "a/./b"; lit "a//b"]
  = [Some (lit "/a"); Some (lit "/"); Some []; None; Some (lit "a"); Some (lit "a");
     Some (lit "a")].
Proof. by vm_compute. Qed.
