(* ===== verification/SeekSequence.v ===== *)
(** * Fuzzy line matcher of the patch engine

    [codex/apply_patch/seek_sequence.rs]: a block of lines is looked for with
    four comparisons of decreasing strictness. *)
From S2P Require Import Prelude RustStr.

(** ** Operations *)

Definition normalise_char (c : char) : char :=
  if in_range 8208 8213 c || (c =? 8722)%Z then 45%Z
  else if in_range 8216 8219 c then 39%Z
  else if in_range 8220 8223 c then 34%Z
  else if (c =? 160)%Z || in_range 8194 8202 c || (c =? 8239)%Z || (c =? 8287)%Z
          || (c =? 12288)%Z
  then 32%Z
  else c.

Definition normalise (s : str) : str := map normalise_char (trim s).

(** The comparison loop of one pass at one position; [f] is what the pass
    applies to both lines. *)
Fixpoint lines_agree (f : str → str) (ls pattern : list str) : bool :=
  match pattern, ls with
  | [], _ => true
  | pat :: pattern', l :: ls' =>
      if negb (str_eqb (f l) (f pat)) then false else lines_agree f ls' pattern'
  | _ :: _, [] => false
  end.

(** [for i in start..start + count] *)
Fixpoint first_from (ok : nat → bool) (start count : nat) : option nat :=
  match count with
  | O => None
  | S count' => if ok start then Some start else first_from ok (S start) count'
  end.

Definition search_start (ls pattern : list str) (start : nat) (eof : bool) : nat :=
  if eof && (length pattern <=? length ls)%nat then length ls - length pattern else start.

Definition seek_sequence (ls pattern : list str) (start : nat) (eof : bool) : option nat :=
  if is_empty pattern then Some start
  else if (length ls <? length pattern)%nat then None
  else
    let from := search_start ls pattern start eof in
    let pass := λ f : str → str,
      first_from (λ i, lines_agree f (drop i ls) pattern) from
                 (S (length ls - length pattern) - from) in
    match pass (λ s, s) with
    | Some i => Some i
    | None =>
        match pass trim_end with
        | Some i => Some i
        | None =>
            match pass trim with
            | Some i => Some i
            | None => pass normalise
            end
        end
    end.

(** ** Specification *)

(** The comparisons, strictest first. *)
Definition tiers : list (str → str) := [(λ s, s); trim_end; trim; normalise].

(** [pattern] stands at line [i] up to [f]. *)
Definition agrees (f : str → str) (ls pattern : list str) (i : nat) : Prop :=
  map f (take (length pattern) (drop i ls)) = map f pattern ∧
  (i + length pattern ≤ length ls)%nat.

(** A position the search considers. *)
Definition considered (ls pattern : list str) (start : nat) (eof : bool) (i : nat) : Prop :=
  (search_start ls pattern start eof ≤ i ∧ i + length pattern ≤ length ls)%nat.

(** ** Lemmas *)

Lemma str_eqb_true a b : str_eqb a b = true ↔ a = b.
Proof. unfold str_eqb. apply bool_decide_eq_true. Qed.

Lemma lines_agree_iff f ls pattern :
  lines_agree f ls pattern = true ↔
  map f (take (length pattern) ls) = map f pattern ∧ (length pattern ≤ length ls)%nat.
Proof.
  revert ls. induction pattern as [|p pattern IH]; intros ls; simpl; [by destruct ls; split; auto with lia|].
  destruct ls as [|l ls]; simpl; [split; [done|intros [? ?]; lia]|].
  destruct (str_eqb (f l) (f p)) eqn:E; simpl.
  - apply str_eqb_true in E. rewrite IH, E. split; intros [H ?]; (split; [|lia]); congruence.
  - split; [done|]. intros [H _]. injection H as H _. apply str_eqb_true in H. congruence.
Qed.

Lemma agrees_iff f ls pattern i :
  pattern ≠ [] → lines_agree f (drop i ls) pattern = true ↔ agrees f ls pattern i.
Proof.
  intros Hne. rewrite lines_agree_iff, length_drop. unfold agrees.
  destruct pattern; [done|]. simpl. split; intros [? ?]; (split; [done|lia]).
Qed.

Lemma first_from_spec ok start count :
  match first_from ok start count with
  | Some i => (start ≤ i < start + count)%nat ∧ ok i = true ∧
              ∀ j, (start ≤ j < i)%nat → ok j = false
  | None => ∀ j, (start ≤ j < start + count)%nat → ok j = false
  end.
Proof.
  revert start. induction count as [|count IH]; intros start; simpl; [intros; lia|].
  destruct (ok start) eqn:E; [split; [lia|]; split; [done|intros; lia]|].
  specialize (IH (S start)). destruct (first_from ok (S start) count) as [i|].
  - destruct IH as (? & ? & Hlt). split; [lia|]. split; [done|]. intros j Hj.
    destruct (decide (j = start)) as [->|]; [done|]. apply Hlt. lia.
  - intros j Hj. destruct (decide (j = start)) as [->|]; [done|]. apply IH. lia.
Qed.

(** One pass, in terms of [agrees] and [considered]. *)
Lemma pass_spec f ls pattern start eof :
  pattern ≠ [] → (length pattern ≤ length ls)%nat →
  match first_from (λ i, lines_agree f (drop i ls) pattern) (search_start ls pattern start eof)
          (S (length ls - length pattern) - search_start ls pattern start eof) with
  | Some i => considered ls pattern start eof i ∧ agrees f ls pattern i ∧
              ∀ j, considered ls pattern start eof j → (j < i)%nat → ¬ agrees f ls pattern j
  | None => ∀ j, considered ls pattern start eof j → ¬ agrees f ls pattern j
  end.
Proof.
  intros Hne Hl. unfold considered. set (from := search_start ls pattern start eof).
  pose proof (first_from_spec (λ i, lines_agree f (drop i ls) pattern) from
                (S (length ls - length pattern) - from)) as H.
  assert (Hno : ∀ j, lines_agree f (drop j ls) pattern = false → ¬ agrees f ls pattern j).
  { intros j Hj Ha. apply agrees_iff in Ha; [congruence|done]. }
  destruct (first_from _ _ _) as [i|].
  - destruct H as (Hi & Ha & Hlt). split; [lia|]. split; [by apply agrees_iff|].
    intros j Hj Hji. apply Hno, Hlt. lia.
  - intros j Hj. apply Hno, H. lia.
Qed.

(** ** Trimming from both sides *)

Lemma drop_while_app {A} (p : A → bool) l x l' :
  Forall (λ y, p y = true) l → p x = false → drop_while p (l ++ x :: l') = x :: l'.
Proof. induction 1 as [|y l Hy Hl IH]; simpl; intros Hx; [by rewrite Hx|]. by rewrite Hy, IH. Qed.

Lemma drop_while_all {A} (p : A → bool) l : Forall (λ y, p y = true) l → drop_while p l = [].
Proof. induction 1 as [|y l Hy Hl IH]; simpl; [done|]. by rewrite Hy. Qed.

Lemma drop_while_split {A} (p : A → bool) l :
  Forall (λ y, p y = true) l ∨
  ∃ l1 x l2, l = l1 ++ x :: l2 ∧ Forall (λ y, p y = true) l1 ∧ p x = false.
Proof.
  induction l as [|y l IH]; [by left|]. destruct (p y) eqn:E.
  - destruct IH as [H|(l1 & x & l2 & -> & H1 & Hx)]; [left; by constructor|].
    right. exists (y :: l1), x, l2. split; [done|]. split; [by constructor|done].
  - right. by exists [], y, l.
Qed.

Lemma trim_end_app_keep l x l' :
  is_whitespace x = false → trim_end (l ++ x :: l') = l ++ trim_end (x :: l').
Proof.
  intros Hx. unfold trim_end, trim_end_matches. rewrite rev_app_distr. simpl.
  destruct (drop_while_split is_whitespace (rev l')) as [H|(l1 & y & l2 & E & H1 & Hy)].
  - rewrite <- app_assoc. simpl. rewrite !drop_while_app by done.
    simpl. by rewrite rev_involutive.
  - rewrite E, <- !app_assoc. simpl. rewrite !drop_while_app by done.
    simpl. rewrite !rev_app_distr. simpl. by rewrite rev_involutive, <- !app_assoc.
Qed.

Lemma trim_end_all s : Forall (λ c, is_whitespace c = true) s → trim_end s = [].
Proof.
  intros H. unfold trim_end, trim_end_matches. rewrite drop_while_all; [done|].
  apply Forall_forall. intros c Hc. rewrite Forall_forall in H. apply H.
  apply list_elem_of_In, in_rev. by apply list_elem_of_In.
Qed.

Lemma trim_end_keeps_head x l : is_whitespace x = false → ∃ l', trim_end (x :: l) = x :: l'.
Proof.
  intros Hx. unfold trim_end, trim_end_matches. simpl.
  destruct (drop_while_split is_whitespace (rev l)) as [H|(l1 & y & l2 & -> & H1 & Hy)].
  - rewrite drop_while_app by done. by exists [].
  - rewrite <- app_assoc. simpl. rewrite drop_while_app by done. simpl. rewrite rev_app_distr. by eexists.
Qed.

Lemma trim_trim_end s : trim s = trim_start (trim_end s).
Proof.
  unfold trim. destruct (drop_while_split is_whitespace s) as [H|(l1 & x & l2 & -> & H1 & Hx)].
  - rewrite (trim_end_all s) by done. unfold trim_start, trim_start_matches.
    by rewrite drop_while_all.
  - rewrite trim_end_app_keep by done. unfold trim_start, trim_start_matches.
    rewrite drop_while_app by done. destruct (trim_end_keeps_head x l2 Hx) as [l' ->].
    by rewrite drop_while_app.
Qed.

(** Each comparison accepts what a stricter one accepts. *)
Lemma tiers_nested i j f g a b :
  tiers !! i = Some f → tiers !! j = Some g → (i ≤ j)%nat → f a = f b → g a = g b.
Proof.
  intros Hi Hj Hij.
  assert (Htt : trim_end a = trim_end b → trim a = trim b) by (by rewrite !trim_trim_end; intros ->).
  assert (Htn : trim a = trim b → normalise a = normalise b) by (by unfold normalise; intros ->).
  unfold tiers in *.
  do 4 (destruct i as [|i]; [injection Hi as <-;
    do 4 (destruct j as [|j]; [injection Hj as <-; solve [lia|intros; subst; auto|auto]|]); done|]); done.
Qed.

Lemma agrees_weaken f g ls pattern i :
  (∀ a b, f a = f b → g a = g b) → agrees f ls pattern i → agrees g ls pattern i.
Proof.
  intros Hfg [H Hl]. split; [|done]. revert H. generalize (take (length pattern) (drop i ls)).
  intros l. revert pattern Hl. induction l as [|a l IH]; intros [|b pattern] Hl H; try done.
  simpl in *. injection H as H1 H2. f_equal; [by apply Hfg|]. apply IH; [lia|done].
Qed.

(** What the normalising comparison misses, all of them miss. *)
Lemma misses_all f ls pattern i :
  f ∈ tiers → ¬ agrees normalise ls pattern i → ¬ agrees f ls pattern i.
Proof.
  intros Hf Hn Ha. apply Hn. apply list_elem_of_lookup in Hf as [k Hk].
  pose proof (lookup_lt_Some _ _ _ Hk) as Hlt. simpl in Hlt.
  eapply agrees_weaken; [|exact Ha]. intros a b. apply (tiers_nested k 3); [done|done|lia].
Qed.

(** A match is in the range searched and agrees under one of the
    comparisons. *)
Lemma seek_found ls pattern start eof i :
  pattern ≠ [] → seek_sequence ls pattern start eof = Some i →
  considered ls pattern start eof i ∧ ∃ f, f ∈ tiers ∧ agrees f ls pattern i.
Proof.
  intros Hne. unfold seek_sequence. replace (is_empty pattern) with false by (by destruct pattern).
  destruct (Nat.ltb_spec (length ls) (length pattern)) as [|Hl]; [done|]. cbv zeta.
  repeat (match goal with
    | |- context [first_from (λ i, lines_agree ?f _ _) _ _] =>
        pose proof (pass_spec f ls pattern start eof Hne Hl)
    end; destruct (first_from _ _ _);
    [intros [= <-]; destruct_and!; split; [done|]; eexists; split; [|done];
     unfold tiers; set_solver|]).
  done.
Qed.

(** The bounds of any answer, the empty pattern's included. *)
Lemma seek_bounds ls pattern start eof i :
  (start ≤ length ls)%nat → seek_sequence ls pattern start eof = Some i →
  (i + length pattern ≤ length ls)%nat ∧ (eof = false → start ≤ i)%nat.
Proof.
  intros Hs H. destruct pattern as [|p pattern].
  { injection H as <-. simpl. lia. }
  apply seek_found in H as [[H1 H2] _]; [|done]. split; [done|]. intros ->. exact H1.
Qed.

(** ** Properties *)

(** For a non-empty pattern [seek_sequence] returns the first position of
    the searched range where the pattern stands under the strictest comparison
    that finds it anywhere in the range, the block lies inside the file, and
    [None] is returned only when no comparison finds it at all. *)
Theorem seek_sequence_spec ls p pattern' start eof :
  let pattern := p :: pattern' in
  match seek_sequence ls pattern start eof with
  | Some i =>
      considered ls pattern start eof i ∧
      ∃ k f, tiers !! k = Some f ∧ agrees f ls pattern i ∧
        (∀ j, considered ls pattern start eof j → (j < i)%nat → ¬ agrees f ls pattern j) ∧
        (∀ k' g j, (k' < k)%nat → tiers !! k' = Some g → considered ls pattern start eof j →
           ¬ agrees g ls pattern j)
  | None =>
      ∀ f j, f ∈ tiers → considered ls pattern start eof j → ¬ agrees f ls pattern j
  end.
Proof.
  intros pattern. assert (Hne : pattern ≠ []) by done.
  unfold seek_sequence. replace (is_empty pattern) with false by done.
  destruct (Nat.ltb_spec (length ls) (length pattern)) as [Hlt|Hl].
  { intros f j _ [_ Hj]. lia. }
  pose proof (λ f, pass_spec f ls pattern start eof Hne Hl) as P. cbv zeta.
  pose proof (P (λ s, s)) as P0. pose proof (P trim_end) as P1. pose proof (P trim) as P2.
  pose proof (P normalise) as P3. clear P.
  destruct (first_from _ _ _) as [i|]; [destruct P0 as (Hc & Ha & Hf); split; [done|];
    exists 0%nat, (λ s, s); repeat split; try done; try apply Ha; intros; lia|].
  destruct (first_from _ _ _) as [i|]; [destruct P1 as (Hc & Ha & Hf); split; [done|];
    exists 1%nat, trim_end; split_and!; try done; intros k' g j Hk Hg Hj;
    destruct k' as [|]; [|lia]; injection Hg as <-; by apply P0|].
  destruct (first_from _ _ _) as [i|]; [destruct P2 as (Hc & Ha & Hf); split; [done|];
    exists 2%nat, trim; split_and!; try done; intros k' g j Hk Hg Hj;
    destruct k' as [|[|]]; [| |lia]; injection Hg as <-; auto|].
  destruct (first_from _ _ _) as [i|]; [destruct P3 as (Hc & Ha & Hf); split; [done|];
    exists 3%nat, normalise; split_and!; try done; intros k' g j Hk Hg Hj;
    destruct k' as [|[|[|]]]; [| | |lia]; injection Hg as <-; auto|].
  intros f j Hf Hj. apply misses_all; [done|]. by apply P3.
Qed.

(** With [eof] the pattern is only tried at the very end: there is no fall back
    to the range from [start]. *)
Theorem seek_eof_no_fallback ls p pattern' start i :
  seek_sequence ls (p :: pattern') start true = Some i →
  i = (length ls - length (p :: pattern'))%nat.
Proof.
  intros H. apply seek_found in H as [[Hr1 Hr2] _]; [|done]. unfold search_start in Hr1.
  rewrite (proj2 (Nat.leb_le _ _)) in Hr1 by lia. simpl in *. lia.
Qed.

Example seek_eof_misses_start :
  seek_sequence [lit "a"; lit "b"] [lit "a"] 0 false = Some 0%nat ∧
  seek_sequence [lit "a"; lit "b"] [lit "a"] 0 true = None.
Proof. by vm_compute. Qed.

Example seek_tiers :
  seek_sequence [lit "x"; lit " y "; lit "y"] [lit "y"] 0 false = Some 2%nat ∧
  seek_sequence [lit "x"; lit " a – b"] [lit "a - b"] 0 false = Some 1%nat.
Proof. by vm_compute. Qed.
