(* ===== verification/PatchParser.v ===== *)
(** * Patch parser

    [codex/apply_patch/parser.rs] and the parse errors of [errors.rs].  A line
    is a [str] without its line ending, a path the text it was made from.

    [None] is an index or slice out of range, or a loop out of fuel;
    the file PatchParserFacts shows that neither happens.  Line numbers count
    the lines of a string in memory and stay below the width of [usize]. *)
From S2P Require Import Prelude RustStr.

(** ** Data *)

Inductive ParseError : Type :=
| InvalidPatchError (m : str)
| InvalidHunkError (message : str) (line_number : nat).

Record UpdateFileChunk := {
  change_context : option str;
  old_lines : list str;
  new_lines : list str;
  is_end_of_file : bool;
}.

Inductive Hunk : Type :=
| AddFile (path contents : str)
| DeleteFile (path : str)
| UpdateFile (path : str) (move_path : option str) (chunks : list UpdateFileChunk).

Record ParsedPatch := { hunks : list Hunk; patch_text : str }.

Inductive ParseMode : Type := Strict | Lenient.

Definition BEGIN_PATCH_MARKER : str := lit "*** Begin Patch".
Definition END_PATCH_MARKER : str := lit "*** End Patch".
Definition ADD_FILE_MARKER : str := lit "*** Add File: ".
Definition DELETE_FILE_MARKER : str := lit "*** Delete File: ".
Definition UPDATE_FILE_MARKER : str := lit "*** Update File: ".
Definition MOVE_TO_MARKER : str := lit "*** Move to: ".
Definition EOF_MARKER : str := lit "*** End of File".
Definition CHANGE_CONTEXT_MARKER : str := lit "@@ ".
Definition EMPTY_CHANGE_CONTEXT_MARKER : str := lit "@@".
Definition PARSE_IN_STRICT_MODE : bool := false.

Definition SPACE : char := 32.
Definition PLUS : char := 43.
Definition MINUS : char := 45.

(** The three heredoc openings of the lenient mode. *)
Definition HEREDOC_OPENINGS : list str :=
  [lit "<<EOF"; lit "<<'EOF'"; lit "<<" ++ [34%Z] ++ lit "EOF" ++ [34%Z]].

(** ** Slices *)

(** [&l[n..]] and [&l[a..b]] *)
Definition slice_from {A} (n : nat) (l : list A) : option (list A) :=
  if (n <=? length l)%nat then Some (drop n l) else None.
Definition slice_range {A} (a b : nat) (l : list A) : option (list A) :=
  if ((a <=? b) && (b <=? length l))%nat then Some (take (b - a) (drop a l)) else None.

(** ** Chunks *)

Definition chunk_new (ctx : option str) : UpdateFileChunk :=
  {| change_context := ctx; old_lines := []; new_lines := []; is_end_of_file := false |}.
Definition push_old (l : str) (c : UpdateFileChunk) : UpdateFileChunk :=
  {| change_context := change_context c; old_lines := old_lines c ++ [l];
     new_lines := new_lines c; is_end_of_file := is_end_of_file c |}.
Definition push_new (l : str) (c : UpdateFileChunk) : UpdateFileChunk :=
  {| change_context := change_context c; old_lines := old_lines c;
     new_lines := new_lines c ++ [l]; is_end_of_file := is_end_of_file c |}.
Definition set_eof (c : UpdateFileChunk) : UpdateFileChunk :=
  {| change_context := change_context c; old_lines := old_lines c;
     new_lines := new_lines c; is_end_of_file := true |}.

Definition no_lines_error (line_number : nat) : ParseError :=
  InvalidHunkError (lit "Update hunk does not contain any lines") line_number.

Definition unexpected_line_error (line : str) (line_number : nat) : ParseError :=
  InvalidHunkError
    (lit "Unexpected line found in update hunk: '" ++ line
     ++ lit "'. Every line should start with ' ' (context line), '+' (added line), or '-' (removed line)")
    line_number.

(** The loop over the lines of one chunk. *)
Fixpoint chunk_body (ls : list str) (line_number parsed_lines : nat) (chunk : UpdateFileChunk)
  : result (UpdateFileChunk * nat) ParseError :=
  match ls with
  | [] => Ok (chunk, parsed_lines)
  | line :: rest =>
      if str_eqb line EOF_MARKER then
        if (parsed_lines =? 0)%nat then Err (no_lines_error (line_number + 1))
        else Ok (set_eof chunk, S parsed_lines)
      else
        match line with
        | [] => chunk_body rest line_number (S parsed_lines) (push_new [] (push_old [] chunk))
        | c :: text =>
            if (c =? SPACE)%Z
            then chunk_body rest line_number (S parsed_lines) (push_new text (push_old text chunk))
            else if (c =? PLUS)%Z
            then chunk_body rest line_number (S parsed_lines) (push_new text chunk)
            else if (c =? MINUS)%Z
            then chunk_body rest line_number (S parsed_lines) (push_old text chunk)
            else if (parsed_lines =? 0)%nat
            then Err (unexpected_line_error line (line_number + 1))
            else Ok (chunk, parsed_lines)
        end
  end.

Definition parse_update_file_chunk (ls : list str) (line_number : nat)
    (allow_missing_context : bool) : result (UpdateFileChunk * nat) ParseError :=
  match ls with
  | [] => Err (no_lines_error line_number)
  | first :: _ =>
      let? (ctx, start_index) :=
        (if str_eqb first EMPTY_CHANGE_CONTEXT_MARKER then Ok (None, 1%nat)
         else match strip_prefix CHANGE_CONTEXT_MARKER first with
              | Some context => Ok (Some context, 1%nat)
              | None =>
                  if negb allow_missing_context
                  then Err (InvalidHunkError
                         (lit "Expected update hunk to start with a @@ context marker, got: '"
                          ++ first ++ lit "'") line_number)
                  else Ok (None, 0%nat)
              end) in
      if (length ls <=? start_index)%nat then Err (no_lines_error (line_number + 1))
      else
        let? (chunk, parsed_lines) :=
          chunk_body (drop start_index ls) line_number 0 (chunk_new ctx) in
        Ok (chunk, (parsed_lines + start_index)%nat)
  end.

(** ** Hunks *)

(** The loop over the [+] lines of an added file. *)
Fixpoint add_lines (ls : list str) (contents : str) (parsed_lines : nat) : str * nat :=
  match ls with
  | [] => (contents, parsed_lines)
  | add_line :: rest =>
      match strip_prefix [PLUS] add_line with
      | Some line_to_add => add_lines rest (contents ++ line_to_add ++ [NL]) (S parsed_lines)
      | None => (contents, parsed_lines)
      end
  end.

(** The loop over the chunks of an updated file. *)
Fixpoint update_chunks (fuel : nat) (remaining : list str) (line_number parsed_lines : nat)
    (chunks : list UpdateFileChunk)
  : option (result (list UpdateFileChunk * nat) ParseError) :=
  match fuel with
  | O => None
  | S fuel' =>
      match remaining with
      | [] => Some (Ok (chunks, parsed_lines))
      | first :: rest =>
          if is_empty (trim first)
          then update_chunks fuel' rest line_number (S parsed_lines) chunks
          else if starts_with first (lit "***") then Some (Ok (chunks, parsed_lines))
          else
            match parse_update_file_chunk remaining (line_number + parsed_lines)
                    (is_empty chunks) with
            | Err e => Some (Err e)
            | Ok (chunk, chunk_lines) =>
                match slice_from chunk_lines remaining with
                | Some remaining' =>
                    update_chunks fuel' remaining' line_number (parsed_lines + chunk_lines)
                      (chunks ++ [chunk])
                | None => None
                end
            end
      end
  end.

Definition parse_one_hunk (ls : list str) (line_number : nat)
  : option (result (Hunk * nat) ParseError) :=
  match ls with
  | [] => None
  | l0 :: rest =>
      let first_line := trim l0 in
      match strip_prefix ADD_FILE_MARKER first_line with
      | Some path =>
          let '(contents, parsed_lines) := add_lines rest [] 1 in
          Some (Ok (AddFile path contents, parsed_lines))
      | None =>
      match strip_prefix DELETE_FILE_MARKER first_line with
      | Some path => Some (Ok (DeleteFile path, 1%nat))
      | None =>
      match strip_prefix UPDATE_FILE_MARKER first_line with
      | Some path =>
          let move_path := match rest with x :: _ => strip_prefix MOVE_TO_MARKER x | [] => None end in
          let '(remaining, parsed_lines) :=
            match move_path with Some _ => (drop 1 rest, 2%nat) | None => (rest, 1%nat) end in
          match update_chunks (S (length remaining)) remaining line_number parsed_lines [] with
          | None => None
          | Some (Err e) => Some (Err e)
          | Some (Ok (chunks, parsed_lines)) =>
              if is_empty chunks
              then Some (Err (InvalidHunkError
                     (lit "Update file hunk for path '" ++ path ++ lit "' is empty") line_number))
              else Some (Ok (UpdateFile path move_path chunks, parsed_lines))
          end
      | None =>
          Some (Err (InvalidHunkError
            (lit "'" ++ first_line
             ++ lit "' is not a valid hunk header. Valid hunk headers: '*** Add File: {path}', '*** Delete File: {path}', '*** Update File: {path}'")
            line_number))
      end end end
  end.

(** ** Patches *)

Definition check_start_and_end_lines_strict (first_line last_line : option str)
  : result unit ParseError :=
  let first_line := trim <$> first_line in
  let last_line := trim <$> last_line in
  let first_is := match first_line with Some f => str_eqb f BEGIN_PATCH_MARKER | None => false end in
  let last_is := match last_line with Some l => str_eqb l END_PATCH_MARKER | None => false end in
  match first_line with
  | Some _ =>
      if first_is && last_is then Ok tt
      else if negb first_is
      then Err (InvalidPatchError (lit "The first line of the patch must be '*** Begin Patch'"))
      else Err (InvalidPatchError (lit "The last line of the patch must be '*** End Patch'"))
  | None => Err (InvalidPatchError (lit "The last line of the patch must be '*** End Patch'"))
  end.

Definition check_patch_boundaries_strict (ls : list str) : result unit ParseError :=
  check_start_and_end_lines_strict (head ls) (last ls).

Definition check_patch_boundaries_lenient (original_lines : list str)
    (original_parse_error : ParseError) : result (list str) ParseError :=
  match original_lines with
  | first :: _ :: _ =>
      if existsb (str_eqb first) HEREDOC_OPENINGS
         && match last original_lines with Some l => ends_with l (lit "EOF") | None => false end
         && (4 <=? length original_lines)%nat
      then
        let inner_lines := take (length original_lines - 2) (drop 1 original_lines) in
        let? _ := check_patch_boundaries_strict inner_lines in Ok inner_lines
      else Err original_parse_error
  | _ => Err original_parse_error
  end.

(** The loop over the hunks. *)
Fixpoint parse_hunks (fuel : nat) (remaining : list str) (line_number : nat) (acc : list Hunk)
  : option (result (list Hunk) ParseError) :=
  match fuel with
  | O => None
  | S fuel' =>
      match remaining with
      | [] => Some (Ok acc)
      | _ :: _ =>
          match parse_one_hunk remaining line_number with
          | None => None
          | Some (Err e) => Some (Err e)
          | Some (Ok (hunk, hunk_lines)) =>
              match slice_from hunk_lines remaining with
              | Some remaining' =>
                  parse_hunks fuel' remaining' (line_number + hunk_lines) (acc ++ [hunk])
              | None => None
              end
          end
      end
  end.

Definition parse_patch_text (patch : str) (mode : ParseMode)
  : option (result ParsedPatch ParseError) :=
  let ls := lines (trim patch) in
  let checked :=
    match check_patch_boundaries_strict ls with
    | Ok _ => Ok ls
    | Err e =>
        match mode with
        | Strict => Err e
        | Lenient => check_patch_boundaries_lenient ls e
        end
    end in
  match checked with
  | Err e => Some (Err e)
  | Ok ls =>
      match slice_range 1 (length ls - 1) ls with
      | None => None
      | Some remaining =>
          match parse_hunks (S (length remaining)) remaining 2 [] with
          | None => None
          | Some (Err e) => Some (Err e)
          | Some (Ok hs) => Some (Ok {| hunks := hs; patch_text := join [NL] ls |})
          end
      end
  end.

Definition parse_patch (patch : str) : option (result ParsedPatch ParseError) :=
  parse_patch_text patch (if PARSE_IN_STRICT_MODE then Strict else Lenient).

(** ** Examples *)

Definition nl_join (l : list string) : str := join [NL] (map lit l).

Definition demo_patch : str :=
  nl_join ["*** Begin Patch"; "*** Add File: a.txt"; "+one"; "+two"; "*** Update File: b.txt";
           "@@ fn f"; "-x"; "+y"; " z"; "*** End of File"; "*** Delete File: c.txt";
           "*** End Patch"]%string.

Example demo_patch_parses :
  parse_patch demo_patch =
  Some (Ok {| hunks :=
    [AddFile (lit "a.txt") (lit "one" ++ [NL] ++ lit "two" ++ [NL]);
     UpdateFile (lit "b.txt") None
       [{| change_context := Some (lit "fn f"); old_lines := [lit "x"; lit "z"];
           new_lines := [lit "y"; lit "z"]; is_end_of_file := true |}];
     DeleteFile (lit "c.txt")];
    patch_text := demo_patch |}).
Proof. by vm_compute. Qed.

(** Two context markers in a row, as the description of the tool suggests, do
    not parse: a chunk with a context line needs a body line. *)
Example stacked_contexts_example :
  parse_patch (nl_join ["*** Begin Patch"; "*** Update File: b.txt"; "@@ class A"; "@@ def m";
                        "-x"; "+y"; "*** End Patch"]%string)
  = Some (Err (unexpected_line_error (lit "@@ def m") 4)).
Proof. by vm_compute. Qed.
