(* ===== verification/PatchGrammar.v ===== *)
(** * The patch grammar

    Every text is parsed or rejected without a slice out of range.  A printer for
    the grammar in the header of [parser.rs], and the theorem that the parser
    reads back what it writes.  A chunk is written with its marked lines, from
    which the lines before and after the change derive. *)
From S2P Require Import Prelude RustStr StrSearch SeekSequence PatchParser.

(** ** Consumption *)

Lemma chunk_body_consumes ls line p c c' p' :
  chunk_body ls line p c = Ok (c', p') →
  (p ≤ p' ≤ p + length ls)%nat ∧ (ls ≠ [] → p = 0 → 0 < p')%nat.
Proof.
  revert p c. induction ls as [|l ls IH]; intros p c H; cbn [chunk_body length] in *.
  { injection H as <- <-. split; [lia|done]. }
  assert (IH' : ∀ c0, chunk_body ls line (S p) c0 = Ok (c', p') →
    (p ≤ p' ≤ p + S (length ls))%nat ∧ (l :: ls ≠ [] → p = 0 → 0 < p')%nat).
  { intros c0 H0. apply IH in H0 as [? _]. split; [lia|]. intros; lia. }
  destruct (str_eqb l EOF_MARKER).
  { destruct (Nat.eqb_spec p 0); [done|]. injection H as <- <-. split; [lia|intros; lia]. }
  destruct l as [|x l]; [by eapply IH'|].
  repeat (destruct (x =? _)%Z; [by eapply IH'|]).
  destruct (Nat.eqb_spec p 0); [done|]. injection H as <- <-. split; [lia|intros; lia].
Qed.

Lemma parse_chunk_consumes ls line allow c n :
  parse_update_file_chunk ls line allow = Ok (c, n) → (1 ≤ n ≤ length ls)%nat.
Proof.
  unfold parse_update_file_chunk. destruct ls as [|l ls]; [done|].
  destruct (if str_eqb l _ then _ else _) as [[ctx start]|e] eqn:E; [|done].
  destruct (Nat.leb_spec (length (l :: ls)) start) as [|Hs]; [done|].
  destruct (chunk_body _ _ _ _) as [[c' p]|e] eqn:Eb; [|done]. intros [= <- <-].
  apply chunk_body_consumes in Eb as [Hp Hpos]. rewrite length_drop in Hp.
  assert (drop start (l :: ls) ≠ []).
  { intros Hd. apply (f_equal length) in Hd. rewrite length_drop in Hd. simpl in *. lia. }
  specialize (Hpos ltac:(done) ltac:(done)). lia.
Qed.

Lemma slice_from_some {A} n (l : list A) : (n ≤ length l)%nat → slice_from n l = Some (drop n l).
Proof. intros H. unfold slice_from. by rewrite (proj2 (Nat.leb_le _ _) H). Qed.

Lemma update_chunks_total fuel rem line p cs :
  (length rem < fuel)%nat →
  ∃ r, update_chunks fuel rem line p cs = Some r ∧
  ∀ cs' p', r = Ok (cs', p') → (p ≤ p' ≤ p + length rem)%nat.
Proof.
  revert rem p cs. induction fuel as [|fuel IH]; intros rem p cs Hf; [lia|].
  destruct rem as [|l rem]; cbn [update_chunks].
  { eexists. split; [done|]. intros ? ? [= <- <-]. simpl. lia. }
  destruct (is_empty (trim l)).
  { destruct (IH rem (S p) cs) as (r & -> & Hr); [simpl in Hf; lia|].
    eexists. split; [done|]. intros ? ? E. apply Hr in E. simpl. lia. }
  destruct (starts_with l _).
  { eexists. split; [done|]. intros ? ? [= <- <-]. lia. }
  destruct (parse_update_file_chunk _ _ _) as [[c n]|e] eqn:Ec; [|by eexists].
  apply parse_chunk_consumes in Ec. rewrite slice_from_some by lia.
  destruct (IH (drop n (l :: rem)) (p + n)%nat (cs ++ [c])) as (r & -> & Hr).
  { rewrite length_drop. lia. }
  eexists. split; [done|]. intros ? ? E. apply Hr in E. rewrite length_drop in E. lia.
Qed.

Lemma add_lines_consumes ls contents p :
  (p ≤ (add_lines ls contents p).2 ≤ p + length ls)%nat.
Proof.
  revert contents p. induction ls as [|l ls IH]; intros contents p; cbn [add_lines]; [simpl; lia|].
  destruct (strip_prefix _ l); [|simpl; lia].
  specialize (IH (contents ++ l0 ++ [NL]) (S p)). simpl in *. lia.
Qed.

Lemma parse_one_hunk_total l ls line :
  ∃ r, parse_one_hunk (l :: ls) line = Some r ∧
  ∀ h n, r = Ok (h, n) → (1 ≤ n ≤ length (l :: ls))%nat.
Proof.
  cbn [parse_one_hunk length].
  destruct (strip_prefix ADD_FILE_MARKER _).
  { pose proof (add_lines_consumes ls [] 1). destruct (add_lines ls [] 1) as [ct p].
    eexists. split; [done|]. intros ? ? [= <- <-]. simpl in *. lia. }
  destruct (strip_prefix DELETE_FILE_MARKER _).
  { eexists. split; [done|]. intros ? ? [= <- <-]. lia. }
  destruct (strip_prefix UPDATE_FILE_MARKER _); [|by eexists].
  set (mv := match ls with [] => None | x :: _ => strip_prefix MOVE_TO_MARKER x end).
  assert (Hrem : ∃ rem p, match mv with Some _ => (drop 1 ls, 2%nat) | None => (ls, 1%nat) end
    = (rem, p) ∧ (1 ≤ p)%nat ∧ (p + length rem ≤ S (length ls))%nat).
  { unfold mv. destruct ls as [|x ls]; [exists [], 1%nat; simpl; split_and!; done || lia|].
    destruct (strip_prefix _ x); eexists _, _; (split; [done|]); simpl; rewrite ?drop_0; lia. }
  destruct Hrem as (rem & p & -> & Hp & Hl).
  destruct (update_chunks_total (S (length rem)) rem line p []) as (r & -> & Hr); [lia|].
  destruct r as [[cs p']|e]; [|by eexists].
  specialize (Hr cs p' eq_refl). destruct (is_empty cs); [by eexists|].
  eexists. split; [done|]. intros ? ? [= <- <-]. lia.
Qed.

Lemma parse_hunks_total fuel rem line acc :
  (length rem < fuel)%nat → ∃ r, parse_hunks fuel rem line acc = Some r.
Proof.
  revert rem line acc. induction fuel as [|fuel IH]; intros rem line acc Hf; [lia|].
  destruct rem as [|l rem]; cbn [parse_hunks]; [by eexists|].
  destruct (parse_one_hunk_total l rem line) as (r & -> & Hr).
  destruct r as [[h n]|e]; [|by eexists]. specialize (Hr h n eq_refl).
  rewrite slice_from_some by lia. apply IH. rewrite length_drop. lia.
Qed.

(** ** Boundaries *)

Lemma markers_differ : BEGIN_PATCH_MARKER ≠ END_PATCH_MARKER.
Proof. by vm_compute. Qed.

Lemma strict_two_lines ls :
  check_patch_boundaries_strict ls = Ok tt → (2 ≤ length ls)%nat.
Proof.
  unfold check_patch_boundaries_strict, check_start_and_end_lines_strict.
  destruct ls as [|a [|b ls]]; [done| |simpl; lia]. cbn [head last fmap option_fmap option_map].
  destruct (str_eqb (trim a) BEGIN_PATCH_MARKER) eqn:E1;
    destruct (str_eqb (trim a) END_PATCH_MARKER) eqn:E2; cbn [andb negb]; try done.
  apply str_eqb_true in E1. apply str_eqb_true in E2. intros _.
  destruct markers_differ. congruence.
Qed.

Lemma lenient_two_lines ls e ls' :
  check_patch_boundaries_lenient ls e = Ok ls' → (2 ≤ length ls')%nat.
Proof.
  unfold check_patch_boundaries_lenient. destruct ls as [|a [|b ls]]; [done|done|].
  destruct (existsb _ _ && _ && _); [|done].
  destruct (check_patch_boundaries_strict _) as [[]|e'] eqn:E; [|done].
  intros [= <-]. by eapply strict_two_lines.
Qed.

Lemma slice_range_inner {A} (l : list A) :
  (2 ≤ length l)%nat → slice_range 1 (length l - 1) l = Some (take (length l - 2) (drop 1 l)).
Proof.
  intros H. unfold slice_range.
  rewrite (proj2 (Nat.leb_le 1 (length l - 1))), (proj2 (Nat.leb_le (length l - 1) (length l))) by lia.
  simpl. do 2 f_equal. lia.
Qed.

(** Parsing terminates and never indexes out of range: every text, in
    either mode, is parsed to hunks or rejected with a parse error. *)
Theorem parse_patch_total patch mode : ∃ r, parse_patch_text patch mode = Some r.
Proof.
  unfold parse_patch_text. set (ls := lines (trim patch)).
  destruct (match check_patch_boundaries_strict ls with Ok _ => _ | Err _ => _ end)
    as [ls'|e] eqn:E; [|by eexists].
  assert (Hl : (2 ≤ length ls')%nat).
  { destruct (check_patch_boundaries_strict ls) as [[]|e'] eqn:Es.
    - injection E as <-. by apply strict_two_lines.
    - destruct mode; [done|]. by eapply lenient_two_lines. }
  rewrite slice_range_inner by done.
  destruct (parse_hunks_total (S (length (take (length ls' - 2) (drop 1 ls'))))
    (take (length ls' - 2) (drop 1 ls')) 2 []) as [r ->]; [lia|].
  destruct r; by eexists.
Qed.

(** ** Sources *)

Inductive Mark : Type := Keep | Remove | Insert.

Record ChunkSrc := { cs_context : option str; cs_body : list (Mark * str); cs_eof : bool }.

Inductive HunkSrc : Type :=
| AddSrc (path : str) (content : list str)
| DeleteSrc (path : str)
| UpdateSrc (path : str) (move : option str) (chunks : list ChunkSrc).

Definition mark_char (m : Mark) : char :=
  match m with Keep => SPACE | Remove => MINUS | Insert => PLUS end.
Definition render_line (l : Mark * str) : str := mark_char l.1 :: l.2.

Definition render_chunk (c : ChunkSrc) : list str :=
  match cs_context c with
  | Some ctx => CHANGE_CONTEXT_MARKER ++ ctx
  | None => EMPTY_CHANGE_CONTEXT_MARKER
  end :: map render_line (cs_body c) ++ (if cs_eof c then [EOF_MARKER] else []).

Definition render_hunk (h : HunkSrc) : list str :=
  match h with
  | AddSrc path content => (ADD_FILE_MARKER ++ path) :: map (cons PLUS) content
  | DeleteSrc path => [DELETE_FILE_MARKER ++ path]
  | UpdateSrc path move chunks =>
      (UPDATE_FILE_MARKER ++ path)
      :: match move with Some m => [MOVE_TO_MARKER ++ m] | None => [] end
      ++ concat (map render_chunk chunks)
  end.

Definition render_lines (hs : list HunkSrc) : list str :=
  BEGIN_PATCH_MARKER :: concat (map render_hunk hs) ++ [END_PATCH_MARKER].
Definition render (hs : list HunkSrc) : str := join [NL] (render_lines hs).

(** What a source means. *)
Definition keep_old (l : Mark * str) : list str :=
  match l.1 with Insert => [] | _ => [l.2] end.
Definition keep_new (l : Mark * str) : list str :=
  match l.1 with Remove => [] | _ => [l.2] end.
Definition denote_chunk (c : ChunkSrc) : UpdateFileChunk :=
  {| change_context := cs_context c; old_lines := concat (map keep_old (cs_body c));
     new_lines := concat (map keep_new (cs_body c)); is_end_of_file := cs_eof c |}.
Definition denote_hunk (h : HunkSrc) : Hunk :=
  match h with
  | AddSrc path content => AddFile path (concat (map (λ l, l ++ [NL]) content))
  | DeleteSrc path => DeleteFile path
  | UpdateSrc path move chunks => UpdateFile path move (map denote_chunk chunks)
  end.

(** Text of one line, and a file name in a header.  Of the grammar of
    [parser.rs], an [update_hunk] is well-formed here when it has changes, each
    one context line and at least one change line: the parser takes no other
    ([stacked_contexts_rejected], [empty_update_rejected] below), except that
    the first change may do without its context line. *)
Definition line_text (s : str) : Prop := NL ∉ s ∧ last s ≠ Some CR.
Definition header_path (s : str) : Prop :=
  NL ∉ s ∧ ∃ s' c, s = s' ++ [c] ∧ is_whitespace c = false.
Definition chunk_src_ok (c : ChunkSrc) : Prop :=
  cs_body c ≠ [] ∧ Forall (λ l, line_text l.2) (cs_body c) ∧
  match cs_context c with Some ctx => line_text ctx | None => True end.
Definition hunk_src_ok (h : HunkSrc) : Prop :=
  match h with
  | AddSrc path content => header_path path ∧ Forall line_text content
  | DeleteSrc path => header_path path
  | UpdateSrc path move chunks =>
      header_path path ∧ chunks ≠ [] ∧ Forall chunk_src_ok chunks ∧
      match move with Some m => line_text m | None => True end
  end.

(** ** Prefixes and trimming *)

Lemma strip_prefix_app p s : strip_prefix p (p ++ s) = Some s.
Proof. induction p as [|a p IH]; simpl; [done|]. by rewrite Z.eqb_refl. Qed.

Lemma trim_id x s c :
  is_whitespace x = false → is_whitespace c = false → trim (x :: s ++ [c]) = x :: s ++ [c].
Proof.
  intros Hx Hc. unfold trim, trim_start, trim_start_matches. cbn [drop_while]. rewrite Hx.
  unfold trim_end, trim_end_matches. cbn [rev]. rewrite rev_app_distr.
  cbn [rev app drop_while]. rewrite Hc.
  change (c :: rev s ++ [x]) with ((c :: rev s) ++ [x]). rewrite rev_app_distr. cbn [rev app].
  by rewrite rev_involutive.
Qed.

Lemma trim_header x m path :
  is_whitespace x = false → header_path path → trim (x :: m ++ path) = x :: m ++ path.
Proof. intros Hx (_ & s & c & -> & Hc). rewrite app_assoc. by apply trim_id. Qed.

Lemma trim_not_empty x s : is_whitespace x = false → is_empty (trim (x :: s)) = false.
Proof.
  intros Hx. unfold trim, trim_start, trim_start_matches. cbn [drop_while]. rewrite Hx.
  by destruct (trim_end_keeps_head x s Hx) as [s' ->].
Qed.

Lemma str_eqb_refl s : str_eqb s s = true.
Proof. by apply str_eqb_true. Qed.

(** ** Lines *)

Lemma lines_of_id ls l :
  Forall line_text ls → l ≠ [] → lines_of (ls ++ [l]) = ls ++ [l].
Proof.
  intros H Hl. induction H as [|x ls [_ Hx] H IH]; [by destruct l|].
  cbn [app lines_of]. destruct (ls ++ [l]) as [|y r] eqn:E; [by destruct ls|].
  rewrite strip_suffix_id by done. by rewrite IH.
Qed.

Lemma lines_join ls l :
  Forall line_text ls → NL ∉ l → l ≠ [] → lines (join [NL] (ls ++ [l])) = ls ++ [l].
Proof.
  intros H Hn Hl. unfold lines. rewrite split_join; [by apply lines_of_id|by destruct ls|].
  apply Forall_app. split; [|by constructor]. eapply Forall_impl; [exact H|]. by intros ? [? _].
Qed.

(** ** Chunks *)

(** The lines that may follow a chunk: none of them continues it. *)
Definition stops (rest : list str) : Prop :=
  match rest with
  | [] => True
  | l :: _ => str_eqb l EOF_MARKER = false ∧
      ∃ c t, l = c :: t ∧ c ≠ SPACE ∧ c ≠ PLUS ∧ c ≠ MINUS
  end.

Definition extend (c : UpdateFileChunk) (body : list (Mark * str)) : UpdateFileChunk :=
  {| change_context := change_context c;
     old_lines := old_lines c ++ concat (map keep_old body);
     new_lines := new_lines c ++ concat (map keep_new body);
     is_end_of_file := is_end_of_file c |}.

Lemma render_line_not_eof l : str_eqb (render_line l) EOF_MARKER = false.
Proof.
  apply bool_decide_eq_false. intros H. apply (f_equal head) in H. by destruct l as [[] ?].
Qed.

Lemma chunk_body_line l ls line p c :
  chunk_body (render_line l :: ls) line p c = chunk_body ls line (S p) (extend c [l]).
Proof.
  cbn [chunk_body]. rewrite render_line_not_eof. destruct c, l as [[] s];
    cbn; unfold push_new, push_old, extend; cbn; by rewrite ?app_nil_r.
Qed.

Lemma extend_extend c l body : extend (extend c [l]) body = extend c (l :: body).
Proof. destruct c. unfold extend. cbn. by rewrite !app_nil_r, <- !app_assoc. Qed.

Lemma extend_nil c : extend c [] = c.
Proof. destruct c. unfold extend. cbn. by rewrite !app_nil_r. Qed.

Lemma chunk_body_lines body ls line p c :
  chunk_body (map render_line body ++ ls) line p c
  = chunk_body ls line (p + length body) (extend c body).
Proof.
  revert p c. induction body as [|l body IH]; intros p c.
  - cbn [map app length]. by rewrite extend_nil, Nat.add_0_r.
  - cbn [map app length]. rewrite chunk_body_line, IH, extend_extend. f_equal. lia.
Qed.

Lemma chunk_body_stops rest line p c :
  stops rest → (0 < p)%nat → chunk_body rest line p c = Ok (c, p).
Proof.
  intros Hs Hp. destruct rest as [|l rest]; [done|].
  destruct Hs as (He & x & t & -> & H1 & H2 & H3). cbn [chunk_body]. rewrite He.
  rewrite !(proj2 (Z.eqb_neq _ _)) by done. by rewrite (proj2 (Nat.eqb_neq p 0)) by lia.
Qed.

Lemma denote_extend c :
  (if cs_eof c then set_eof (extend (chunk_new (cs_context c)) (cs_body c))
   else extend (chunk_new (cs_context c)) (cs_body c)) = denote_chunk c.
Proof. unfold denote_chunk. by destruct (cs_eof c). Qed.

Lemma render_chunk_length c :
  length (render_chunk c) = (1 + length (cs_body c) + if cs_eof c then 1 else 0)%nat.
Proof.
  unfold render_chunk. cbn [length]. rewrite length_app, length_map. by destruct (cs_eof c).
Qed.

Lemma parse_chunk_render c rest line allow :
  chunk_src_ok c → stops rest →
  parse_update_file_chunk (render_chunk c ++ rest) line allow
  = Ok (denote_chunk c, length (render_chunk c)).
Proof.
  intros (Hb & _ & _) Hs. unfold render_chunk, parse_update_file_chunk. cbn [app].
  set (first := match cs_context c with Some _ => _ | None => _ end).
  assert (Hf : (if str_eqb first EMPTY_CHANGE_CONTEXT_MARKER then Ok (None, 1%nat)
    else match strip_prefix CHANGE_CONTEXT_MARKER first with
         | Some context => Ok (Some context, 1%nat)
         | None => if negb allow then Err (InvalidHunkError
               (lit "Expected update hunk to start with a @@ context marker, got: '"
                ++ first ++ lit "'") line) else Ok (None, 0%nat)
         end) = Ok (cs_context c, 1%nat)).
  { unfold first. destruct (cs_context c) as [ctx|]; [|by rewrite str_eqb_refl].
    rewrite strip_prefix_app. replace (str_eqb _ _) with false; [done|]. symmetry.
    apply bool_decide_eq_false. intros H. by apply (f_equal (lookup 2%nat)) in H. }
  rewrite Hf.
  assert (Hl : (1 < length (first :: (map render_line (cs_body c)
    ++ (if cs_eof c then [EOF_MARKER] else [])) ++ rest))%nat).
  { destruct (cs_body c); [done|]. simpl. lia. }
  rewrite (proj2 (Nat.leb_gt _ _) Hl).
  cbn [drop]. rewrite ?drop_0, <- app_assoc, chunk_body_lines.
  assert (Hp : (0 < length (cs_body c))%nat) by (destruct (cs_body c); [done|simpl; lia]).
  pose proof (denote_extend c) as Hd. pose proof (render_chunk_length c) as Hr.
  unfold render_chunk in Hr. fold first in Hr. rewrite Hr. clear Hr Hl Hf.
  destruct (cs_eof c); cbn [app chunk_body].
  - rewrite str_eqb_refl, (proj2 (Nat.eqb_neq _ 0)) by lia. rewrite Hd. do 2 f_equal; lia.
  - rewrite chunk_body_stops; [|exact Hs|lia]. rewrite Hd. do 2 f_equal; lia.
Qed.

(** ** Hunks *)

(** A line that starts a hunk. *)
Definition header_line (l : str) : Prop :=
  str_eqb l EOF_MARKER = false ∧ ∃ t, l = 42%Z :: 42%Z :: 42%Z :: t.
Definition next_hunk (rest : list str) : Prop :=
  match rest with [] => True | l :: _ => header_line l end.

Lemma next_hunk_stops rest : next_hunk rest → stops rest.
Proof.
  destruct rest as [|l rest]; [done|]. intros (He & t & ->). split; [done|].
  eexists _, _. split; [done|]. done.
Qed.

Lemma next_hunk_not_plus l rest : next_hunk (l :: rest) → strip_prefix [PLUS] l = None.
Proof. by intros (_ & t & ->). Qed.

Lemma render_chunk_stops c rest : stops (render_chunk c ++ rest).
Proof.
  unfold render_chunk. destruct (cs_context c) as [ctx|].
  - split; [|by eexists _, _]. apply bool_decide_eq_false. intros H.
    by apply (f_equal head) in H.
  - split; [by vm_compute|by eexists _, _].
Qed.

Lemma render_chunk_head c :
  ∃ l ls, render_chunk c = l :: ls ∧ is_empty (trim l) = false ∧
    starts_with l (lit "***") = false.
Proof.
  unfold render_chunk. destruct (cs_context c) as [ctx|]; eexists _, _;
    (split; [done|]); (split; [|by vm_compute]); by apply trim_not_empty.
Qed.

Lemma update_chunks_render chunks fuel rest line p cs :
  Forall chunk_src_ok chunks → next_hunk rest →
  (length (concat (map render_chunk chunks) ++ rest) < fuel)%nat →
  update_chunks fuel (concat (map render_chunk chunks) ++ rest) line p cs
  = Some (Ok (cs ++ map denote_chunk chunks,
              (p + length (concat (map render_chunk chunks)))%nat)).
Proof.
  intros H Hr. revert fuel p cs. induction H as [|c chunks Hc H IH]; intros fuel p cs Hf.
  - destruct fuel as [|fuel]; [lia|]. cbn [map concat app length]. rewrite app_nil_r, Nat.add_0_r.
    destruct rest as [|l rest]; [done|]. destruct Hr as (_ & t & ->). cbn [update_chunks].
    by rewrite trim_not_empty.
  - destruct fuel as [|fuel]; [lia|]. cbn [map concat] in *. rewrite <- app_assoc in *.
    assert (Hs : stops (concat (map render_chunk chunks) ++ rest)).
    { destruct chunks as [|c' chunks]; [by apply next_hunk_stops|].
      cbn [map concat]. rewrite <- app_assoc. apply render_chunk_stops. }
    pose proof (parse_chunk_render c (concat (map render_chunk chunks) ++ rest) (line + p)
      (is_empty cs) Hc Hs) as Hp.
    pose proof (render_chunk_length c) as Hl.
    destruct (render_chunk_head c) as (l & ls & E & Ht & Hst). rewrite E in *.
    cbn [app update_chunks]. rewrite Ht, Hst. change (l :: ls ++ ?r) with ((l :: ls) ++ r).
    rewrite Hp, slice_from_some by (rewrite length_app; lia).
    rewrite drop_app_length, IH by (rewrite length_app in Hf; simpl in Hf; lia).
    rewrite <- app_assoc, length_app. cbn [app]. do 3 f_equal. lia.
Qed.

Lemma add_lines_render content rest acc p :
  next_hunk rest →
  add_lines (map (cons PLUS) content ++ rest) acc p
  = (acc ++ concat (map (λ l, l ++ [NL]) content), (p + length content)%nat).
Proof.
  intros Hr. revert acc p. induction content as [|l content IH]; intros acc p.
  - cbn [map app concat length]. rewrite app_nil_r, Nat.add_0_r.
    destruct rest as [|l rest]; [done|]. cbn [add_lines]. by rewrite (next_hunk_not_plus _ _ Hr).
  - cbn [map app concat length add_lines strip_prefix]. rewrite Z.eqb_refl, IH.
    rewrite <- !app_assoc. f_equal. lia.
Qed.

Lemma trim_marker m path :
  head m = Some 42%Z → header_path path → trim (m ++ path) = m ++ path.
Proof. destruct m as [|x m]; [done|]. intros [= ->]. by apply trim_header. Qed.

Lemma not_add_delete path : strip_prefix ADD_FILE_MARKER (DELETE_FILE_MARKER ++ path) = None.
Proof. by vm_compute. Qed.
Lemma not_add_update path : strip_prefix ADD_FILE_MARKER (UPDATE_FILE_MARKER ++ path) = None.
Proof. by vm_compute. Qed.
Lemma not_delete_update path :
  strip_prefix DELETE_FILE_MARKER (UPDATE_FILE_MARKER ++ path) = None.
Proof. by vm_compute. Qed.

Lemma parse_hunk_render h rest line :
  hunk_src_ok h → next_hunk rest →
  parse_one_hunk (render_hunk h ++ rest) line
  = Some (Ok (denote_hunk h, length (render_hunk h))).
Proof.
  intros Hh Hr. destruct h as [path content|path|path mv chunks]; cbn [render_hunk app parse_one_hunk].
  - destruct Hh as [Hp _]. rewrite trim_marker by done. rewrite strip_prefix_app.
    rewrite add_lines_render by done. cbn [denote_hunk length]. by rewrite length_map.
  - rewrite trim_marker by done.
    by rewrite not_add_delete, strip_prefix_app.
  - destruct Hh as (Hp & Hne & Hc & _). rewrite trim_marker by done.
    rewrite not_add_update, not_delete_update, strip_prefix_app.
    destruct mv as [m|]; cbn [app].
    + rewrite strip_prefix_app. cbn [drop]. rewrite ?drop_0, update_chunks_render by (done || lia).
      destruct chunks; [done|]. cbn [map app is_empty denote_hunk length]. do 3 f_equal.
    + destruct chunks as [|c chunks]; [done|].
      assert (Hm : match concat (map render_chunk (c :: chunks)) ++ rest with
        [] => None | x :: _ => strip_prefix MOVE_TO_MARKER x end = None).
      { cbn [map concat]. unfold render_chunk at 1. by destruct (cs_context c). }
      rewrite Hm, update_chunks_render by (done || lia). done.
Qed.

Lemma render_hunk_header h : ∃ l ls, render_hunk h = l :: ls ∧ header_line l.
Proof.
  destruct h; eexists _, _; (split; [reflexivity|]); split;
    vm_compute; [reflexivity|by eexists|reflexivity|by eexists|reflexivity|by eexists].
Qed.

Lemma parse_hunks_render hs fuel line acc :
  Forall hunk_src_ok hs → (length (concat (map render_hunk hs)) < fuel)%nat →
  parse_hunks fuel (concat (map render_hunk hs)) line acc = Some (Ok (acc ++ map denote_hunk hs)).
Proof.
  intros H. revert fuel line acc. induction H as [|h hs Hh H IH]; intros fuel line acc Hf;
    (destruct fuel as [|fuel]; [lia|]).
  - cbn [map concat parse_hunks]. by rewrite app_nil_r.
  - cbn [map concat] in *.
    assert (Hn : next_hunk (concat (map render_hunk hs))).
    { destruct hs as [|h' hs]; [done|]. cbn [map concat].
      by destruct (render_hunk_header h') as (l & ls & -> & ?). }
    pose proof (parse_hunk_render h _ line Hh Hn) as Hp.
    destruct (render_hunk_header h) as (l & ls & E & _). rewrite E in *.
    cbn [app parse_hunks]. cbn [app] in Hp. rewrite Hp. change (l :: ls ++ ?r) with ((l :: ls) ++ r).
    rewrite slice_from_some by (rewrite length_app; lia).
    rewrite drop_app_length, IH by (rewrite length_app in Hf; simpl in Hf; lia).
    by rewrite <- app_assoc.
Qed.

(** ** The whole text *)

Lemma line_text_app m s : line_text m → line_text s → line_text (m ++ s).
Proof.
  intros [Hm1 Hm2] [Hs1 Hs2]. split; [rewrite elem_of_app; tauto|].
  destruct s as [|x s _] using rev_ind; [by rewrite app_nil_r|].
  rewrite app_assoc, last_snoc. by rewrite last_snoc in Hs2.
Qed.

Lemma header_path_text s : header_path s → line_text s.
Proof.
  intros (Hn & s' & c & -> & Hc). split; [done|]. rewrite last_snoc. intros [= ->]. done.
Qed.

Definition is_line_text (s : str) : bool :=
  bool_decide (NL ∉ s) && bool_decide (last s ≠ Some CR).
Lemma is_line_text_ok s : is_line_text s = true → line_text s.
Proof. intros [H1 H2]%andb_prop. split; by eapply bool_decide_eq_true. Qed.

Definition is_header_path (s : str) : bool :=
  bool_decide (NL ∉ s) && match last s with Some c => negb (is_whitespace c) | None => false end.
Lemma is_header_path_ok s : is_header_path s = true → header_path s.
Proof.
  intros [H1 H2]%andb_prop. split; [by eapply bool_decide_eq_true|].
  destruct s as [|c s _] using rev_ind; [done|]. rewrite last_snoc in H2.
  exists s, c. split; [done|]. by destruct (is_whitespace c).
Qed.

Ltac header := apply is_header_path_ok; vm_compute; reflexivity.
(** The text of a marker is a line. *)
Ltac marker := apply is_line_text_ok; vm_compute; reflexivity.

Lemma render_chunk_text c : chunk_src_ok c → Forall line_text (render_chunk c).
Proof.
  intros (_ & Hb & Hc). unfold render_chunk. constructor.
  { destruct (cs_context c); [apply line_text_app; [marker|done]|marker]. }
  apply Forall_app. split.
  - apply Forall_map. eapply Forall_impl; [exact Hb|]. intros [m s] Hs. cbn in Hs.
    change (render_line (m, s)) with ([mark_char m] ++ s). apply line_text_app; [|done].
    destruct m; cbn [mark_char]; marker.
  - destruct (cs_eof c); [|constructor]. constructor; [marker|constructor].
Qed.

Lemma render_hunk_text h : hunk_src_ok h → Forall line_text (render_hunk h).
Proof.
  destruct h as [path content|path|path mv chunks]; cbn [render_hunk hunk_src_ok].
  - intros [Hp Hc]. constructor; [apply line_text_app; [marker|by apply header_path_text]|].
    apply Forall_map. eapply Forall_impl; [exact Hc|]. intros s Hs.
    change (PLUS :: s) with ([PLUS] ++ s). apply line_text_app; [marker|done].
  - intros Hp. constructor; [apply line_text_app; [marker|by apply header_path_text]|constructor].
  - intros (Hp & _ & Hc & Hm).
    constructor; [apply line_text_app; [marker|by apply header_path_text]|].
    apply Forall_app. split.
    + destruct mv as [m|]; [|constructor]. constructor; [|constructor].
      apply line_text_app; [marker|done].
    + apply Forall_concat, Forall_map. eapply Forall_impl; [exact Hc|]. apply render_chunk_text.
Qed.

Lemma join_head sep x l ls : ∃ s, join sep ((x :: l) :: ls) = x :: s.
Proof. destruct ls; by eexists. Qed.

Lemma join_trim first ls final x a b c :
  first = x :: a → final = b ++ [c] → is_whitespace x = false → is_whitespace c = false →
  trim (join [NL] (first :: ls ++ [final])) = join [NL] (first :: ls ++ [final]).
Proof.
  intros -> -> Hx Hc. rewrite app_comm_cons, join_snoc by done.
  destruct (join_head [NL] x a ls) as [s ->].
  rewrite !app_assoc, <- app_assoc. cbn [app]. rewrite <- (app_assoc s).
  change ([NL] ++ b) with (NL :: b). rewrite ?app_comm_cons.
  rewrite !app_assoc. by apply trim_id.
Qed.

Lemma begin_marker_head : BEGIN_PATCH_MARKER = 42%Z :: tail BEGIN_PATCH_MARKER.
Proof. by vm_compute. Qed.
Lemma end_marker_tail : END_PATCH_MARKER = take 12 END_PATCH_MARKER ++ [104%Z].
Proof. by vm_compute. Qed.

Lemma render_trim hs : trim (render hs) = render hs.
Proof. by apply (join_trim _ _ _ _ _ _ _ begin_marker_head end_marker_tail). Qed.

Lemma render_splits hs : Forall hunk_src_ok hs → lines (render hs) = render_lines hs.
Proof.
  intros H. unfold render, render_lines. rewrite app_comm_cons. apply lines_join.
  - constructor; [marker|]. apply Forall_concat, Forall_map.
    eapply Forall_impl; [exact H|]. apply render_hunk_text.
  - assert (Ht : line_text END_PATCH_MARKER) by marker. apply Ht.
  - done.
Qed.

Lemma render_bounded hs : check_patch_boundaries_strict (render_lines hs) = Ok tt.
Proof.
  unfold check_patch_boundaries_strict, render_lines. cbn [head].
  rewrite app_comm_cons, last_snoc. by vm_compute.
Qed.

(** ** Property *)

Lemma context_not_marker ctx m :
  m !! 0%nat = Some 42%Z ∨ m = EMPTY_CHANGE_CONTEXT_MARKER →
  str_eqb (CHANGE_CONTEXT_MARKER ++ ctx) m = false.
Proof.
  intros Hm. apply bool_decide_eq_false. intros H. destruct Hm as [Hm| ->].
  - subst m. discriminate Hm.
  - by apply (f_equal (lookup 2%nat)) in H.
Qed.

Lemma stacked_chunk a b rest line allow :
  parse_update_file_chunk ((CHANGE_CONTEXT_MARKER ++ a) :: (CHANGE_CONTEXT_MARKER ++ b) :: rest)
    line allow = Err (unexpected_line_error (CHANGE_CONTEXT_MARKER ++ b) (line + 1)).
Proof.
  unfold parse_update_file_chunk. rewrite context_not_marker by (by right).
  rewrite strip_prefix_app. cbn [length Nat.leb drop chunk_body].
  rewrite context_not_marker by (by left). reflexivity.
Qed.

(** The grammar has [(change_context | change_line)+], and the description of
    the tool advises several [@@] lines where one does not identify the place;
    the parser refuses two of them in a row. *)
Theorem stacked_contexts_rejected path a b rest line :
  header_path path →
  parse_one_hunk ((UPDATE_FILE_MARKER ++ path) :: (CHANGE_CONTEXT_MARKER ++ a) ::
                  (CHANGE_CONTEXT_MARKER ++ b) :: rest) line
  = Some (Err (unexpected_line_error (CHANGE_CONTEXT_MARKER ++ b) (line + 2))).
Proof.
  intros Hp. cbn [parse_one_hunk]. rewrite trim_marker by done.
  rewrite not_add_update, not_delete_update, strip_prefix_app.
  change (strip_prefix MOVE_TO_MARKER (CHANGE_CONTEXT_MARKER ++ a)) with (@None str).
  cbn [update_chunks]. change (is_empty (trim (CHANGE_CONTEXT_MARKER ++ a))) with
    (is_empty (trim (64%Z :: [64%Z; SPACE] ++ a))).
  rewrite trim_not_empty by done.
  change (starts_with (CHANGE_CONTEXT_MARKER ++ a) (lit "***")) with false. cbv iota.
  rewrite stacked_chunk. by replace (line + 1 + 1)%nat with (line + 2)%nat by lia.
Qed.

(** The grammar has [change?]; the parser wants a change. *)
Theorem empty_update_rejected path rest line :
  header_path path → next_hunk rest →
  (∀ l, head rest = Some l → strip_prefix MOVE_TO_MARKER l = None) →
  ∃ m, parse_one_hunk ((UPDATE_FILE_MARKER ++ path) :: rest) line
       = Some (Err (InvalidHunkError m line)).
Proof.
  intros Hp Hr Hm. cbn [parse_one_hunk]. rewrite trim_marker by done.
  rewrite not_add_update, not_delete_update, strip_prefix_app.
  assert (match rest with x :: _ => strip_prefix MOVE_TO_MARKER x | [] => None end = None) as ->.
  { destruct rest; [done|]. by apply Hm. }
  pose proof (update_chunks_render [] (S (length rest)) rest line 1 []) as Hu.
  cbn [map concat app length] in Hu. rewrite Hu by (done || lia). cbn [is_empty]. by eexists.
Qed.

(** C35: what the part of the documented grammar that the parser takes writes,
    it reads: for every sequence of file sections, of which those that update a
    file have changes and each change one context line and then change lines,
    parsing their text gives exactly the hunks they denote, in order, with every
    line accounted for.  Names do not end in white space, and no text holds a
    line feed or ends in a carriage return. *)
Theorem parse_render hs (H : Forall hunk_src_ok hs) :
  parse_patch (render hs)
  = Some (Ok {| hunks := map denote_hunk hs; patch_text := render hs |}).
Proof.
  unfold parse_patch, parse_patch_text. cbv zeta. rewrite render_trim, render_splits by done.
  rewrite render_bounded. unfold render, render_lines.
  set (body := concat (map render_hunk hs)).
  assert (Hl : length (BEGIN_PATCH_MARKER :: body ++ [END_PATCH_MARKER]) = S (S (length body)))
    by (cbn [length]; rewrite length_app; cbn [length]; lia).
  rewrite slice_range_inner by lia. rewrite Hl. cbn [drop]. rewrite drop_0.
  replace (S (S (length body)) - 2)%nat with (length body) by lia.
  rewrite take_app_length. unfold body at 1 2. by rewrite parse_hunks_render by (done || (fold body; lia)).
Qed.

(** ** Examples *)

Definition demo_sources : list HunkSrc :=
  [AddSrc (lit "new.txt") [lit "one"; []; lit "+two"];
   UpdateSrc (lit "src/app.py") (Some (lit "src/main.py"))
     [{| cs_context := None; cs_body := [(Keep, lit "a"); (Remove, lit "b"); (Insert, lit "c")];
         cs_eof := false |};
      {| cs_context := Some (lit "def greet():"); cs_body := [(Insert, lit "x")]; cs_eof := true |}];
   DeleteSrc (lit "old.txt")].

Lemma parse_render_witness :
  Forall hunk_src_ok demo_sources ∧
  parse_patch (render demo_sources)
  = Some (Ok {| hunks := map denote_hunk demo_sources; patch_text := render demo_sources |}).
Proof.
  assert (H : Forall hunk_src_ok demo_sources).
  { unfold demo_sources. apply Forall_cons; split; [split; [header|repeat (constructor; [marker|]); constructor]|].
    apply Forall_cons; split; [|apply Forall_cons; split; [header|constructor]].
    split; [header|]. split; [done|]. split; [|marker].
    apply Forall_cons; split; [|apply Forall_cons; split; [|constructor]];
      (split; [done|]); (split; [repeat (constructor; [marker|]); constructor|]); [done|marker]. }
  split; [exact H|]. exact (parse_render demo_sources H).
Defined.
