(* ===== verification/PatchApply.v ===== *)
(** * Patch application

    [codex/apply_patch/apply.rs] and [ApplyPatchError] of [errors.rs].  A
    replacement is [(start_index, old_len, new_lines)]; [None] is
    [Vec::insert] beyond the end, which the last section excludes. *)
From S2P Require Import Prelude RustStr SeekSequence PatchParser.

Inductive ApplyPatchError : Type :=
| Parse (e : ParseError)
| ComputeReplacements (m : str)
| Io (context message : str) (path : option str).

Definition Replacement : Type := nat * nat * list str.
Definition r_start (r : Replacement) : nat := r.1.1.
Definition r_len (r : Replacement) : nat := r.1.2.
Definition r_new (r : Replacement) : list str := r.2.

(** [l.last().is_some_and(String::is_empty)] *)
Definition last_is_empty (l : list str) : bool :=
  match last l with Some [] => true | _ => false end.

(** ** Operations *)

Definition insertion_idx (original_lines : list str) : nat :=
  if last_is_empty original_lines then length original_lines - 1 else length original_lines.

(** The part of the loop body that looks for the old lines of a chunk: the
    position, the pattern and the new lines used. *)
Definition find_old_lines (original_lines : list str) (chunk : UpdateFileChunk) (line_index : nat)
  : option nat * list str * list str :=
  let pattern := old_lines chunk in
  let found := seek_sequence original_lines pattern line_index (is_end_of_file chunk) in
  let new_slice := new_lines chunk in
  match found with
  | Some _ => (found, pattern, new_slice)
  | None =>
      if last_is_empty pattern then
        let pattern := removelast pattern in
        let new_slice := if last_is_empty new_slice then removelast new_slice else new_slice in
        (seek_sequence original_lines pattern line_index (is_end_of_file chunk),
         pattern, new_slice)
      else (None, pattern, new_slice)
  end.

Fixpoint compute_loop (original_lines : list str) (path : str) (chunks : list UpdateFileChunk)
    (line_index : nat) (replacements : list Replacement)
  : result (list Replacement) ApplyPatchError :=
  match chunks with
  | [] => Ok replacements
  | chunk :: chunks' =>
      let? line_index :=
        match change_context chunk with
        | Some ctx_line =>
            match seek_sequence original_lines [ctx_line] line_index false with
            | Some idx => Ok (idx + 1)%nat
            | None => Err (ComputeReplacements
                (lit "Failed to find context '" ++ ctx_line ++ lit "' in " ++ path))
            end
        | None => Ok line_index
        end in
      if is_empty (old_lines chunk) then
        compute_loop original_lines path chunks' line_index
          (replacements ++ [(insertion_idx original_lines, 0%nat, new_lines chunk)])
      else
        let '(found, pattern, new_slice) := find_old_lines original_lines chunk line_index in
        match found with
        | Some start_idx =>
            compute_loop original_lines path chunks' (start_idx + length pattern)
              (replacements ++ [(start_idx, length pattern, new_slice)])
        | None => Err (ComputeReplacements
            (lit "Failed to find expected lines in " ++ path ++ lit ":" ++ [NL]
             ++ join [NL] (old_lines chunk)))
        end
  end.

(** The stable [sort_by] on the start index. *)
Fixpoint insert_sorted (r : Replacement) (l : list Replacement) : list Replacement :=
  match l with
  | [] => [r]
  | x :: l' => if (r_start r <=? r_start x)%nat then r :: l else x :: insert_sorted r l'
  end.
Definition sort_replacements (l : list Replacement) : list Replacement :=
  foldr insert_sorted [] l.

Definition compute_replacements (original_lines : list str) (path : str)
    (chunks : list UpdateFileChunk) : result (list Replacement) ApplyPatchError :=
  let? replacements := compute_loop original_lines path chunks 0 [] in
  Ok (sort_replacements replacements).

(** [for _ in 0..old_len { if start_idx < lines.len() { lines.remove(..) } }] *)
Fixpoint remove_lines (n start_idx : nat) (ls : list str) : list str :=
  match n with
  | O => ls
  | S n' =>
      remove_lines n' start_idx
        (if (start_idx <? length ls)%nat then delete start_idx ls else ls)
  end.

(** [Vec::insert] *)
Definition vec_insert (i : nat) (x : str) (ls : list str) : option (list str) :=
  if (i <=? length ls)%nat then Some (take i ls ++ x :: drop i ls) else None.

Fixpoint insert_lines (at_ : nat) (new : list str) (ls : list str) : option (list str) :=
  match new with
  | [] => Some ls
  | l :: new' => ls' ← vec_insert at_ l ls; insert_lines (S at_) new' ls'
  end.

Definition apply_one (r : Replacement) (ls : list str) : option (list str) :=
  insert_lines (r_start r) (r_new r) (remove_lines (r_len r) (r_start r) ls).

Definition apply_replacements (ls : list str) (replacements : list Replacement)
  : option (list str) :=
  foldl (λ acc r, ls ← acc; apply_one r ls) (Some ls) (rev replacements).

(** [split('\n')] without the empty piece after a final newline. *)
Definition split_content (original_content : str) : list str :=
  let original_lines := split NL original_content in
  if last_is_empty original_lines then removelast original_lines else original_lines.

Definition end_with_newline (new_lines : list str) : list str :=
  if last_is_empty new_lines then new_lines else new_lines ++ [[]].

Definition derive_new_contents (original_content path : str) (chunks : list UpdateFileChunk)
  : option (result str ApplyPatchError) :=
  let original_lines := split_content original_content in
  match compute_replacements original_lines path chunks with
  | Err e => Some (Err e)
  | Ok replacements =>
      new_lines ← apply_replacements original_lines replacements;
      Some (Ok (join [NL] (end_with_newline new_lines)))
  end.

(** ** Specification *)

(** The lines between replacements are kept, the others exchanged, in one
    forward pass; [pos] is the number of lines already consumed. *)
Fixpoint splice_ref (pos : nat) (rs : list Replacement) (ls : list str) : list str :=
  match rs with
  | [] => ls
  | r :: rs' =>
      take (r_start r - pos) ls ++ r_new r
      ++ splice_ref (r_start r + r_len r) rs' (drop (r_start r + r_len r - pos) ls)
  end.

(** Replacements in order that do not overlap and stay inside [len] lines. *)
Fixpoint disjoint_from (pos len : nat) (rs : list Replacement) : Prop :=
  match rs with
  | [] => (pos ≤ len)%nat
  | r :: rs' => (pos ≤ r_start r)%nat ∧ disjoint_from (r_start r + r_len r) len rs'
  end.

(** ** One replacement *)

Lemma remove_lines_splice n i ls :
  remove_lines n i ls = take i ls ++ drop (i + n) ls.
Proof.
  revert ls. induction n as [|n IH]; intros ls; cbn [remove_lines].
  { by rewrite Nat.add_0_r, take_drop. }
  rewrite IH. destruct (Nat.ltb_spec i (length ls)) as [Hi|Hi].
  - rewrite delete_take_drop, take_app_le, take_take, Nat.min_id
      by (rewrite length_take; lia). f_equal.
    rewrite drop_app_ge by (rewrite length_take; lia). rewrite length_take, drop_drop. f_equal. lia.
  - rewrite !drop_ge, !take_ge by lia. done.
Qed.

Lemma insert_lines_splice new i ls :
  (i ≤ length ls)%nat → insert_lines i new ls = Some (take i ls ++ new ++ drop i ls).
Proof.
  revert i ls. induction new as [|l new IH]; intros i ls Hi; cbn [insert_lines].
  { cbn [app]. by rewrite take_drop. }
  unfold vec_insert. rewrite (proj2 (Nat.leb_le _ _) Hi). csimpl.
  assert (Hl : length (take i ls) = i) by (rewrite length_take; lia).
  rewrite IH by (rewrite length_app; simpl; rewrite length_drop; lia). f_equal.
  replace (S i) with (length (take i ls) + 1)%nat by lia.
  rewrite take_app_add, drop_app_add. simpl. rewrite <- app_assoc. simpl.
  by rewrite ?take_0, ?drop_0.
Qed.

Lemma apply_one_splice r ls :
  (r_start r ≤ length ls)%nat →
  apply_one r ls = Some (take (r_start r) ls ++ r_new r ++ drop (r_start r + r_len r) ls).
Proof.
  intros H. unfold apply_one. rewrite remove_lines_splice.
  assert (Hl : length (take (r_start r) ls) = r_start r) by (rewrite length_take; lia).
  rewrite insert_lines_splice by (rewrite length_app; lia).
  rewrite take_app_le, take_take, Nat.min_id by lia.
  rewrite drop_app_ge by lia. by rewrite Hl, Nat.sub_diag, drop_0.
Qed.

(** ** All replacements *)

Lemma disjoint_end pos len rs : disjoint_from pos len rs → (pos ≤ len)%nat.
Proof.
  revert pos. induction rs as [|r rs IH]; intros pos; cbn [disjoint_from]; [done|].
  intros [? H]. apply IH in H. lia.
Qed.

Lemma apply_replacements_cons r rs ls :
  apply_replacements ls (r :: rs) = ls' ← apply_replacements ls rs; apply_one r ls'.
Proof. unfold apply_replacements. cbn [rev]. by rewrite foldl_app. Qed.

(** A forward splice leaves the lines before its first replacement alone. *)
Lemma splice_prefix pos rs ls :
  disjoint_from pos (length ls) rs →
  splice_ref 0 rs ls = take pos ls ++ splice_ref pos rs (drop pos ls).
Proof.
  destruct rs as [|r rs]; cbn [splice_ref disjoint_from]; [by rewrite take_drop|].
  intros [Hp Hd]. apply disjoint_end in Hd. rewrite !Nat.sub_0_r, drop_drop.
  replace (pos + (r_start r + r_len r - pos))%nat with (r_start r + r_len r)%nat by lia.
  rewrite <- (take_drop pos (take (r_start r) ls)) at 1.
  rewrite take_take, Nat.min_l by lia. rewrite <- skipn_firstn_comm, <- app_assoc. done.
Qed.

(** The reverse pass over replacements that do not overlap is one forward
    splice. *)
Lemma apply_replacements_splice rs ls :
  disjoint_from 0 (length ls) rs → apply_replacements ls rs = Some (splice_ref 0 rs ls).
Proof.
  intros H. assert (Hg : ∀ pos, disjoint_from pos (length ls) rs →
    apply_replacements ls rs = Some (splice_ref 0 rs ls)); [|by apply (Hg 0%nat)].
  clear H. induction rs as [|r rs IH]; intros pos; [done|]. intros [Hp Hd].
  rewrite apply_replacements_cons, (IH _ Hd). csimpl.
  pose proof (disjoint_end _ _ _ Hd) as He.
  rewrite (splice_prefix (r_start r + r_len r)) by done.
  assert (Hl : length (take (r_start r + r_len r) ls) = (r_start r + r_len r)%nat)
    by (rewrite length_take; lia).
  rewrite apply_one_splice by (rewrite length_app; lia). cbn [splice_ref]. f_equal.
  rewrite Nat.sub_0_r, Nat.sub_0_r. rewrite take_app_le by lia.
  rewrite take_take, Nat.min_l by lia. f_equal. f_equal.
  rewrite drop_app_ge by lia. by rewrite Hl, Nat.sub_diag, drop_0.
Qed.

(** ** Computed replacements *)

(** [pattern] stands at [i] under one of the comparisons. *)
Definition stands (ls pattern : list str) (i : nat) : Prop :=
  ∃ f, f ∈ tiers ∧ agrees f ls pattern i.

(** The lines a chunk asks for and puts there, perhaps without the empty line
    both end in. *)
Definition chunk_lines (chunk : UpdateFileChunk) (pattern new : list str) : Prop :=
  (pattern = old_lines chunk ∧ new = new_lines chunk) ∨
  (old_lines chunk = pattern ++ [[]] ∧
   new_lines chunk = if last_is_empty (new_lines chunk) then new ++ [[]] else new).

(** [r] carries out [chunk] on [ls]. *)
Definition chunk_replaced (ls : list str) (chunk : UpdateFileChunk) (r : Replacement) : Prop :=
  (old_lines chunk = [] ∧ r = (insertion_idx ls, 0%nat, new_lines chunk)) ∨
  (old_lines chunk ≠ [] ∧ ∃ pattern,
     chunk_lines chunk pattern (r_new r) ∧ r_len r = length pattern ∧ stands ls pattern (r_start r)).

Lemma last_is_empty_snoc l : last_is_empty l = true → l = removelast l ++ [[]].
Proof.
  unfold last_is_empty. destruct l as [|x l _] using rev_ind; [done|].
  rewrite last_snoc, removelast_last. by destruct x.
Qed.

Lemma seek_stands ls pattern start eof i :
  (start ≤ length ls)%nat → seek_sequence ls pattern start eof = Some i → stands ls pattern i.
Proof.
  intros Hs H. destruct pattern as [|p pattern].
  - injection H as <-. exists (λ s, s). split; [left|]. split; simpl; [done|lia].
  - apply seek_found in H as [_ H]; done.
Qed.

Lemma find_old_lines_spec ls chunk li i pattern new :
  (li ≤ length ls)%nat → find_old_lines ls chunk li = (Some i, pattern, new) →
  (i + length pattern ≤ length ls)%nat ∧ (is_end_of_file chunk = false → li ≤ i)%nat ∧
  chunk_lines chunk pattern new ∧ stands ls pattern i.
Proof.
  intros Hli. unfold find_old_lines.
  destruct (seek_sequence ls (old_lines chunk) li (is_end_of_file chunk)) as [i'|] eqn:E.
  { intros [= -> <- <-]. pose proof (seek_bounds _ _ _ _ _ Hli E) as [? ?].
    apply seek_stands in E; [|done]. split_and!; try done. by left. }
  destruct (last_is_empty (old_lines chunk)) eqn:El; [|done]. intros [= Es <- <-].
  pose proof (seek_bounds _ _ _ _ _ Hli Es) as [? ?].
  apply seek_stands in Es; [|done]. split_and!; try done. right.
  split; [by apply last_is_empty_snoc|].
  destruct (last_is_empty (new_lines chunk)) eqn:En; [by apply last_is_empty_snoc|done].
Qed.

Lemma compute_loop_acc ls path chunks li acc :
  compute_loop ls path chunks li acc
  = let? rs := compute_loop ls path chunks li [] in Ok (acc ++ rs).
Proof.
  revert li acc. induction chunks as [|c chunks IH]; intros li acc; cbn [compute_loop].
  { by rewrite app_nil_r. }
  destruct (match change_context c with Some _ => _ | None => _ end) as [li'|e]; [|done].
  destruct (is_empty (old_lines c)).
  - rewrite IH, (IH li' ([] ++ _)). destruct (compute_loop _ _ _ _ []); [|done].
    by rewrite <- app_assoc.
  - destruct (find_old_lines ls c li') as [[[i|] pattern] new]; [|done].
    rewrite IH, (IH _ ([] ++ _)). destruct (compute_loop _ _ _ _ []); [|done].
    by rewrite <- app_assoc.
Qed.

Lemma insertion_idx_bound ls : (insertion_idx ls ≤ length ls)%nat.
Proof. unfold insertion_idx. destruct (last_is_empty ls); lia. Qed.

(** One round of the loop: the first chunk's replacement, and the index the
    others start from. *)
Lemma compute_loop_cons ls path c chunks li rs :
  (li ≤ length ls)%nat → compute_loop ls path (c :: chunks) li [] = Ok rs →
  ∃ r li' rs', rs = r :: rs' ∧ compute_loop ls path chunks li' [] = Ok rs' ∧
    (li' ≤ length ls)%nat ∧ (r_start r + r_len r ≤ length ls)%nat ∧ chunk_replaced ls c r ∧
    (is_end_of_file c = false → (li ≤ li')%nat ∧
       (old_lines c = [] ∨ li ≤ r_start r ∧ r_start r + r_len r = li')%nat).
Proof.
  intros Hli. cbn [compute_loop].
  destruct (match change_context c with Some _ => _ | None => _ end) as [li1|e] eqn:Ec; [|done].
  assert (Hli1 : (li ≤ li1 ≤ length ls)%nat).
  { destruct (change_context c) as [ctx|]; [|injection Ec as <-; lia].
    destruct (seek_sequence ls [ctx] li false) as [idx|] eqn:Es; [|done]. injection Ec as <-.
    apply seek_bounds in Es as [Hb Hs]; [|done]. specialize (Hs eq_refl). simpl in Hb. lia. }
  destruct (is_empty (old_lines c)) eqn:Eo.
  - assert (Ho : old_lines c = []) by (by destruct (old_lines c)).
    rewrite compute_loop_acc. destruct (compute_loop _ _ _ _ []) as [rs'|] eqn:E; [|done].
    intros [= <-]. eexists _, li1, rs'. split; [done|]. split; [done|].
    pose proof (insertion_idx_bound ls). split; [lia|]. split; [cbn; lia|].
    split; [by left|]. intros _. split; [lia|by left].
  - destruct (find_old_lines ls c li1) as [[[i|] pattern] new] eqn:Ef; [|done].
    apply find_old_lines_spec in Ef as (Hb & Hs & Hc & Hst); [|lia].
    rewrite compute_loop_acc. destruct (compute_loop _ _ _ _ []) as [rs'|] eqn:E; [|done].
    intros [= <-]. eexists _, (i + length pattern)%nat, rs'. split; [done|]. split; [done|].
    split; [lia|]. split; [cbn; lia|]. split.
    + right. split; [by destruct (old_lines c)|]. by exists pattern.
    + intros He. specialize (Hs He). split; [lia|right; cbn; lia].
Qed.

(** ** Order *)

Definition before (a b : Replacement) : Prop := (r_start a + r_len a ≤ r_start b)%nat.
Definition at_end (len : nat) (r : Replacement) : Prop := r_start r = len ∧ r_len r = 0%nat.

(** Of two replacements the later chunk's comes behind, unless the earlier one
    adds at the end. *)
Fixpoint compatible (len : nat) (rs : list Replacement) : Prop :=
  match rs with
  | [] => True
  | r :: rs' =>
      (r_start r + r_len r ≤ len)%nat ∧ Forall (λ x, before r x ∨ at_end len r) rs' ∧
      compatible len rs'
  end.

Lemma elem_of_insert_sorted x r l : x ∈ insert_sorted r l ↔ x = r ∨ x ∈ l.
Proof.
  induction l as [|y l IH]; cbn [insert_sorted]; [set_solver|].
  destruct (r_start r <=? r_start y)%nat; set_solver.
Qed.

Lemma insert_sorted_permutation r l : insert_sorted r l ≡ₚ r :: l.
Proof.
  induction l as [|x l IH]; cbn [insert_sorted]; [done|].
  destruct (r_start r <=? r_start x)%nat; [done|]. rewrite IH. constructor.
Qed.

Lemma sort_permutation l : sort_replacements l ≡ₚ l.
Proof.
  induction l as [|r l IH]; [done|]. cbn [sort_replacements foldr].
  by rewrite insert_sorted_permutation, IH.
Qed.

Lemma insert_sorted_before len r l :
  StronglySorted before l → Forall (λ x, before r x ∨ at_end len r) l →
  Forall (λ x, r_start x + r_len x ≤ len)%nat l → StronglySorted before (insert_sorted r l).
Proof.
  intros Hs. induction Hs as [|x l Hs IH Hx]; intros Hr Hl; cbn [insert_sorted].
  { repeat constructor. }
  inversion Hr as [|? ? Hrx Hr']; subst. inversion Hl as [|? ? Hlx Hl']; subst.
  unfold before, at_end in *. destruct (Nat.leb_spec (r_start r) (r_start x)) as [Hle|Hlt].
  - assert (Hrx' : (r_start r + r_len r ≤ r_start x)%nat) by lia.
    constructor; [by constructor|]. constructor; [done|].
    eapply Forall_impl; [exact Hx|]. cbn. lia.
  - constructor; [by apply IH|]. apply Forall_forall. intros y Hy.
    apply elem_of_insert_sorted in Hy as [->|Hy]; [lia|]. rewrite Forall_forall in Hx. by apply Hx.
Qed.

Lemma compatible_bound len rs :
  compatible len rs → Forall (λ x, r_start x + r_len x ≤ len)%nat rs.
Proof. induction rs as [|r rs IH]; [done|]. intros (? & _ & ?). constructor; [done|by apply IH]. Qed.

Lemma sort_forall (P : Replacement → Prop) rs : Forall P rs → Forall P (sort_replacements rs).
Proof. by rewrite sort_permutation. Qed.

Lemma sort_before len rs : compatible len rs → StronglySorted before (sort_replacements rs).
Proof.
  induction rs as [|r rs IH]; [constructor|]. intros (Hl & Hr & Hc).
  apply (insert_sorted_before len); [by apply IH|by apply sort_forall|].
  by apply sort_forall, compatible_bound.
Qed.

Lemma before_disjoint pos len rs :
  StronglySorted before rs → Forall (λ r, pos ≤ r_start r ∧ r_start r + r_len r ≤ len)%nat rs →
  (pos ≤ len)%nat → disjoint_from pos len rs.
Proof.
  intros Hs. revert pos. induction Hs as [|r rs Hs IH Hr]; intros pos Hl Hp; [done|].
  inversion Hl as [|? ? [H1 H2] Hl']; subst. split; [done|]. apply IH; [|lia].
  apply Forall_forall. intros x Hx. rewrite Forall_forall in Hr, Hl'.
  specialize (Hr x Hx). destruct (Hl' x Hx). unfold before in Hr. lia.
Qed.

(** What the loop computes, in the order of the chunks. *)
Lemma compute_loop_replaced ls path chunks li rs :
  (li ≤ length ls)%nat → compute_loop ls path chunks li [] = Ok rs →
  Forall2 (chunk_replaced ls) chunks rs ∧
  Forall (λ r, r_start r + r_len r ≤ length ls)%nat rs.
Proof.
  revert li rs. induction chunks as [|c chunks IH]; intros li rs Hli H.
  { injection H as <-. by split. }
  apply compute_loop_cons in H as (r & li' & rs' & -> & H & Hli' & Hb & Hr & _); [|done].
  apply IH in H as [H1 H2]; [|done]. by split; constructor.
Qed.

(** Without end-of-file chunks, and with added lines going behind the last
    line, the replacements do not overlap. *)
Lemma compute_loop_compatible ls path chunks li rs :
  Forall (λ c, is_end_of_file c = false) chunks →
  Forall (λ c, old_lines c = [] → last_is_empty ls = false) chunks →
  (li ≤ length ls)%nat → compute_loop ls path chunks li [] = Ok rs →
  compatible (length ls) rs ∧ Forall (λ r, (li ≤ r_start r)%nat ∨ at_end (length ls) r) rs.
Proof.
  revert li rs. induction chunks as [|c chunks IH]; intros li rs He Ha Hli H.
  { injection H as <-. by split. }
  inversion He as [|? ? Hce He']; inversion Ha as [|? ? Hca Ha']; subst.
  apply compute_loop_cons in H as (r & li' & rs' & -> & H & Hli' & Hb & Hr & Hs); [|done].
  destruct (Hs Hce) as [Hle Hpos]. destruct (IH _ _ He' Ha' Hli' H) as [Hc Hf].
  assert (Hend : old_lines c = [] → at_end (length ls) r).
  { intros Ho. destruct Hr as [[_ ->]|[Hne _]]; [|done]. unfold insertion_idx, at_end. cbn.
    by rewrite Hca. }
  split; [split; [done|split; [|done]]|constructor].
  - destruct Hpos as [Ho|Hpos]; [apply Forall_true; intros; right; by apply Hend|].
    eapply Forall_impl; [exact Hf|]. unfold before, at_end. cbn. intros x Hx. left. lia.
  - destruct Hpos as [Ho|Hpos]; [right; by apply Hend|left; lia].
  - eapply Forall_impl; [exact Hf|]. cbn. intros x [?|?]; [left; lia|by right].
Qed.

(** ** No insertion beyond the end *)

Definition starts_le (a b : Replacement) : Prop := (r_start a ≤ r_start b)%nat.

Lemma sort_starts rs : StronglySorted starts_le (sort_replacements rs).
Proof.
  induction rs as [|r rs IH]; [constructor|]. cbn [sort_replacements foldr].
  change (foldr insert_sorted [] rs) with (sort_replacements rs).
  induction IH as [|x l Hs IH Hx]; cbn [insert_sorted]; [by repeat constructor|].
  unfold starts_le in *. destruct (Nat.leb_spec (r_start r) (r_start x)).
  - constructor; [by constructor|]. constructor; [done|]. eapply Forall_impl; [exact Hx|]. cbn. lia.
  - constructor; [done|]. rewrite insert_sorted_permutation. constructor; [lia|done].
Qed.

(** Later replacements leave the lines before them in place, so that earlier
    positions stay valid even when replacements overlap. *)
Lemma apply_replacements_total rs ls :
  StronglySorted starts_le rs → Forall (λ r, r_start r ≤ length ls)%nat rs →
  ∃ ls', apply_replacements ls rs = Some ls' ∧
    ∀ k, (k ≤ length ls)%nat → Forall (λ r, k ≤ r_start r)%nat rs → (k ≤ length ls')%nat.
Proof.
  intros Hs. induction Hs as [|r rs Hs IH Hr]; intros Hl; [by exists ls|].
  inversion Hl as [|? ? Hlr Hl']; subst. destruct (IH Hl') as (ls1 & E & Hk).
  rewrite apply_replacements_cons, E. csimpl.
  assert (Hr1 : (r_start r ≤ length ls1)%nat) by (by apply Hk).
  rewrite apply_one_splice by done. eexists. split; [done|].
  intros k Hkl Hkr. inversion Hkr; subst. rewrite length_app, length_take. lia.
Qed.

(** Applying chunks to a text always returns, with new contents or an
    error: no [Vec::insert] is out of range, whatever the chunks, even when
    end-of-file chunks make replacements overlap. *)
Theorem derive_never_panics content path chunks :
  ∃ r, derive_new_contents content path chunks = Some r.
Proof.
  unfold derive_new_contents, compute_replacements.
  destruct (compute_loop _ _ _ _ []) as [rs|] eqn:E; [|by eexists].
  apply compute_loop_replaced in E as [_ E]; [|lia].
  destruct (apply_replacements_total (sort_replacements rs) (split_content content))
    as (ls & -> & _).
  - apply sort_starts.
  - apply sort_forall. eapply Forall_impl; [exact E|]. cbn. lia.
  - by eexists.
Qed.

(** ** Property *)

(** For chunks that are not anchored at the end of the file (and, when
    some only add lines, a file that does not end in an empty line), a
    successful application makes exactly the requested edits: there is one
    replacement per chunk, each at a place where the chunk's old lines stand,
    no two overlap, and the new text is the original with these blocks
    exchanged and every other line kept, ended by a newline. *)
Theorem derive_new_contents_edits content path chunks out
    (Heof : Forall (λ c, is_end_of_file c = false) chunks)
    (Hadd : Forall (λ c, old_lines c = [] → last_is_empty (split_content content) = false) chunks)
    (Hok : derive_new_contents content path chunks = Some (Ok out)) :
  let ls := split_content content in
  ∃ rs, Forall2 (chunk_replaced ls) chunks rs ∧
    disjoint_from 0 (length ls) (sort_replacements rs) ∧ sort_replacements rs ≡ₚ rs ∧
    out = join [NL] (end_with_newline (splice_ref 0 (sort_replacements rs) ls)).
Proof.
  intros ls. unfold derive_new_contents, compute_replacements in Hok. fold ls in Hok, Hadd.
  destruct (compute_loop ls path chunks 0 []) as [rs|] eqn:E; [|done].
  exists rs. destruct (compute_loop_replaced ls path chunks 0 rs (Nat.le_0_l _) E) as [H1 H2].
  destruct (compute_loop_compatible _ _ _ _ _ Heof Hadd (Nat.le_0_l _) E) as [Hc _].
  assert (Hd : disjoint_from 0 (length ls) (sort_replacements rs)).
  { apply before_disjoint; [by eapply sort_before| |lia].
    apply sort_forall. eapply Forall_impl; [exact H2|]. cbn. lia. }
  split; [done|]. split; [done|]. split; [apply sort_permutation|].
  rewrite apply_replacements_splice in Hok by done. csimpl in Hok. by injection Hok as <-.
Qed.

(** ** Examples *)

Definition chunk (ctx : option string) (old new : list string) (eof : bool) : UpdateFileChunk :=
  {| change_context := lit <$> ctx; old_lines := map lit old; new_lines := map lit new;
     is_end_of_file := eof |}.

Definition demo_content : str := nl_join ["fn f"; "  x"; "fn g"; "  x "; "end"; ""]%string.
Definition demo_chunks : list UpdateFileChunk :=
  [chunk (Some "fn g") ["  x"] ["  y"; "  z"] false; chunk None [] ["tail"] false;
   chunk None ["end"; ""] ["fin"; ""] false]%string.
Definition demo_out : str := nl_join ["fn f"; "  x"; "fn g"; "  y"; "  z"; "fin"; "tail"; ""]%string.

Lemma derive_new_contents_edits_witness :
  derive_new_contents demo_content (lit "f.rs") demo_chunks = Some (Ok demo_out) ∧
  ∃ rs, Forall2 (chunk_replaced (split_content demo_content)) demo_chunks rs ∧
    disjoint_from 0 (length (split_content demo_content)) (sort_replacements rs) ∧
    sort_replacements rs ≡ₚ rs ∧
    demo_out = join [NL] (end_with_newline
      (splice_ref 0 (sort_replacements rs) (split_content demo_content))).
Proof.
  assert (E : derive_new_contents demo_content (lit "f.rs") demo_chunks = Some (Ok demo_out))
    by (vm_compute; reflexivity).
  split; [exact E|]. apply (derive_new_contents_edits demo_content (lit "f.rs") demo_chunks demo_out).
  - repeat constructor.
  - assert (Hl : last_is_empty (split_content demo_content) = false) by (vm_compute; reflexivity).
    repeat constructor; intros _; exact Hl.
  - exact E.
Defined.

(** An end-of-file chunk is searched at the end only, even before the lines the
    previous chunk took: both chunks are accepted and the second edit is
    lost. *)
Theorem eof_chunk_edit_lost :
  let cs := [chunk None ["a"; "b"] ["a"; "x"; "b"] false; chunk None ["b"] ["c"] true]%string in
  derive_new_contents (nl_join ["a"; "b"; ""]%string) (lit "f") cs
  = Some (Ok (nl_join ["a"; "x"; "b"; ""]%string)).
Proof. by vm_compute. Qed.

(** Added lines go to the end of the file even behind a context line. *)
Example context_does_not_place_additions :
  derive_new_contents (nl_join ["fn f"; "fn g"; ""]%string) (lit "f")
    [chunk (Some "fn f") [] ["new"] false]%string
  = Some (Ok (nl_join ["fn f"; "fn g"; "new"; ""]%string)).
Proof. by vm_compute. Qed.
