(* ===== verification/ApplyPatchTool.v ===== *)
(** * The [apply_patch] tool

    [codex/apply_patch/tool.rs]: parse, compute every change in memory, then
    write.  Notifications are the list sent so far. *)
From S2P Require Import Prelude RustStr FileSystem SeekSequence PatchParser PatchGrammar.
From S2P Require Import PatchApply.

(** ** Data *)

Inductive FileChange : Type :=
| Add (path content : str)
| Delete (path original_content : str)
| Update (path original_content new_content : str)
| Move (source_path dest_path original_content new_content : str).

Record FileWritten := {
  fw_tool_call_id : str;
  fw_absolute_path : str;
  fw_content : str;
  fw_previous_content : option str;
  fw_is_new_file : bool;
}.

Record ApplyPatchFileResult := {
  fr_path : str;
  fr_action : str;
  fr_old_text : option str;
  fr_new_text : str;
  fr_move_to : option str;
}.

Inductive ApplyPatchOutput : Type :=
| Success (files : list ApplyPatchFileResult) (tool_output_for_prompt : str)
| OutParseError (m : str)
| ApplicationError (m : str)
| EmptyPatch (m : str).

(** [ToolError::execution] *)
Record ToolError := { te_tool_id : str; te_detail : str }.
Definition execution_error (detail : str) : ToolError :=
  {| te_tool_id := lit "apply_patch"; te_detail := detail |}.

(** ** Operations *)

Section Tool.
Context `{AFS : AsyncFs}.

Record World := { w_fs : Fs; w_notes : list FileWritten }.

Definition send (ns : list FileWritten) (w : World) : World :=
  {| w_fs := w_fs w; w_notes := w_notes w ++ ns |}.

(** [op.await.map_err(|e| ToolError::execution(..))?] *)
Definition run_io (op : Fs → Fs * result unit FsError) (w : World) : World * result unit ToolError :=
  let '(fs', r) := op (w_fs w) in
  ({| w_fs := fs'; w_notes := w_notes w |},
   match r with Ok _ => Ok tt | Err e => Err (execution_error (fs_error_display e)) end).

Definition and_then (f g : World → World * result unit ToolError) (w : World)
  : World * result unit ToolError :=
  match f w with (w', Ok _) => g w' | (w', Err e) => (w', Err e) end.

Definition ensure_parent_dirs (path : str) (w : World) : World * result unit ToolError :=
  match path_parent path with
  | Some parent => if is_empty parent then (w, Ok tt) else run_io (λ fs, create_dir_all fs parent) w
  | None => (w, Ok tt)
  end.

Definition read_file_as_string (fs : Fs) (path : str) : result str str :=
  match read_file fs path with
  | Ok bs => Ok (from_utf8_lossy bs)
  | Err e => Err (fs_error_display e)
  end.

Definition parse_error_display (e : ParseError) : str :=
  match e with
  | InvalidPatchError m => lit "invalid patch: " ++ m
  | InvalidHunkError m n => lit "invalid hunk at line " ++ fmt_Z (Z.of_nat n) ++ lit ", " ++ m
  end.

Definition apply_error_display (e : ApplyPatchError) : str :=
  match e with
  | Parse p => parse_error_display p
  | ComputeReplacements m => m
  | Io context message _ => context ++ lit ": " ++ message
  end.

(** One iteration of the loop of [compute_all_changes]. *)
Definition compute_change (cwd : str) (fs : Fs) (hunk : Hunk) : option (result FileChange str) :=
  match hunk with
  | AddFile path contents => Some (Ok (Add (path_join cwd path) contents))
  | DeleteFile path =>
      let resolved := path_join cwd path in
      Some (match read_file_as_string fs resolved with
            | Ok original_content => Ok (Delete resolved original_content)
            | Err e => Err (lit "Failed to read file: " ++ resolved ++ lit ", " ++ e)
            end)
  | UpdateFile path move_path chunks =>
      let resolved := path_join cwd path in
      match read_file_as_string fs resolved with
      | Err e => Some (Err (lit "Failed to read file to update: " ++ resolved ++ lit ", " ++ e))
      | Ok original_content =>
          derived ← derive_new_contents original_content resolved chunks;
          Some (match derived with
                | Err e => Err (apply_error_display e)
                | Ok new_content =>
                    match move_path with
                    | Some dest => Ok (Move resolved (path_join cwd dest) original_content new_content)
                    | None => Ok (Update resolved original_content new_content)
                    end
                end)
      end
  end.

Fixpoint compute_all_changes (cwd : str) (fs : Fs) (hs : list Hunk) (changes : list FileChange)
  : option (result (list FileChange) str) :=
  match hs with
  | [] => Some (Ok changes)
  | hunk :: hs' =>
      r ← compute_change cwd fs hunk;
      match r with
      | Ok c => compute_all_changes cwd fs hs' (changes ++ [c])
      | Err e => Some (Err e)
      end
  end.

(** The I/O of one change, in order. *)
Definition write_change (c : FileChange) : World → World * result unit ToolError :=
  match c with
  | Add path content =>
      and_then (ensure_parent_dirs path) (run_io (λ fs, write_file fs path (as_bytes content)))
  | Delete path _ => run_io (λ fs, delete_file fs path)
  | Update path _ new_content => run_io (λ fs, write_file fs path (as_bytes new_content))
  | Move source_path dest_path _ new_content =>
      and_then (ensure_parent_dirs dest_path)
        (and_then (run_io (λ fs, write_file fs dest_path (as_bytes new_content)))
                  (run_io (λ fs, delete_file fs source_path)))
  end.

(** The [FileWritten] notifications of one change. *)
Definition change_notes (tool_call_id : str) (c : FileChange) : list FileWritten :=
  let note path content previous is_new :=
    {| fw_tool_call_id := tool_call_id; fw_absolute_path := path; fw_content := content;
       fw_previous_content := previous; fw_is_new_file := is_new |} in
  match c with
  | Add path content => [note path content None true]
  | Delete path original => [note path [] (Some original) false]
  | Update path original new => [note path new (Some original) false]
  | Move source dest original new =>
      [note dest new None true; note source [] (Some original) false]
  end.

Definition change_result (c : FileChange) : ApplyPatchFileResult :=
  match c with
  | Add path content =>
      {| fr_path := path; fr_action := lit "added"; fr_old_text := None; fr_new_text := content;
         fr_move_to := None |}
  | Delete path original =>
      {| fr_path := path; fr_action := lit "deleted"; fr_old_text := Some original;
         fr_new_text := []; fr_move_to := None |}
  | Update path original new =>
      {| fr_path := path; fr_action := lit "modified"; fr_old_text := Some original;
         fr_new_text := new; fr_move_to := None |}
  | Move source dest original new =>
      {| fr_path := source; fr_action := lit "moved"; fr_old_text := Some original;
         fr_new_text := new; fr_move_to := Some dest |}
  end.

(** The loop of phase 3. *)
Fixpoint apply_changes (tool_call_id : str) (changes : list FileChange)
    (file_results : list ApplyPatchFileResult) (w : World)
  : World * result (list ApplyPatchFileResult) ToolError :=
  match changes with
  | [] => (w, Ok file_results)
  | c :: changes' =>
      match write_change c w with
      | (w', Ok _) =>
          apply_changes tool_call_id changes' (file_results ++ [change_result c])
            (send (change_notes tool_call_id c) w')
      | (w', Err e) => (w', Err e)
      end
  end.

Definition summary_prefix (action : str) : str :=
  if str_eqb action (lit "added") then lit "A"
  else if str_eqb action (lit "deleted") then lit "D"
  else lit "M".
Definition build_summary (results : list ApplyPatchFileResult) : str :=
  foldl (λ out r, out ++ summary_prefix (fr_action r) ++ lit " " ++ fr_path r ++ [NL])
    (lit "Success. Updated the following files:" ++ [NL]) results.

Definition parse_error_message (e : ParseError) : str :=
  match e with
  | InvalidPatchError m => lit "Invalid patch: " ++ m
  | InvalidHunkError message line_number =>
      lit "Invalid patch hunk on line " ++ fmt_Z (Z.of_nat line_number) ++ lit ": " ++ message
  end.

(** [run], after the resources are looked up. *)
Definition run_apply_patch (cwd tool_call_id patch : str) (w : World)
  : option (World * result ApplyPatchOutput ToolError) :=
  parsed ← parse_patch patch;
  match parsed with
  | Err e => Some (w, Ok (OutParseError (parse_error_message e)))
  | Ok parsed =>
      if is_empty (hunks parsed)
      then Some (w, Ok (EmptyPatch (lit "No files were modified.")))
      else
        changes ← compute_all_changes cwd (w_fs w) (hunks parsed) [];
        match changes with
        | Err msg => Some (w, Ok (ApplicationError msg))
        | Ok changes =>
            let '(w', r) := apply_changes tool_call_id changes [] w in
            Some (w', match r with
                      | Ok file_results => Ok (Success file_results (build_summary file_results))
                      | Err e => Err e
                      end)
        end
  end.

End Tool.

(** ** What a patch does to the file system *)

Section Effects.
Context `{AFS : AsyncFs} {L : LawfulFs}.

(** The files a change leaves behind, in the order they are written. *)
Definition effects (c : FileChange) : list (str * option bytes) :=
  match c with
  | Add path content => [(path, Some (as_bytes content))]
  | Delete path _ => [(path, None)]
  | Update path _ new_content => [(path, Some (as_bytes new_content))]
  | Move source dest _ new_content => [(dest, Some (as_bytes new_content)); (source, None)]
  end.

(** The content of [q] after [effs]: the last one on the same file counts. *)
Definition contents_after (before : option bytes) (effs : list (str * option bytes)) (q : str)
  : option bytes :=
  foldl (λ acc e, if same_file e.1 q then e.2 else acc) before effs.

Lemma run_io_spec op w w' r :
  run_io op w = (w', r) →
  match r with
  | Ok _ => op (w_fs w) = (w_fs w', Ok tt)
  | Err _ => ∃ e, op (w_fs w) = (w_fs w', Err e)
  end.
Proof.
  unfold run_io. destruct (op (w_fs w)) as [fs' [[]|e]]; intros [= <- <-]; [done|by exists e].
Qed.

Lemma run_io_notes op w w' r : run_io op w = (w', r) → w_notes w' = w_notes w.
Proof. unfold run_io. destruct (op (w_fs w)). by intros [= <- <-]. Qed.

Lemma and_then_spec f g w w' r :
  and_then f g w = (w', r) →
  (∃ e, f w = (w', Err e) ∧ r = Err e) ∨ ∃ w1 u, f w = (w1, Ok u) ∧ g w1 = (w', r).
Proof.
  unfold and_then. destruct (f w) as [w1 [u|e]]; [by right; eauto|].
  intros [= <- <-]. left. by exists e.
Qed.

Lemma and_then_notes f g w w' r :
  (∀ w w' r, f w = (w', r) → w_notes w' = w_notes w) →
  (∀ w w' r, g w = (w', r) → w_notes w' = w_notes w) →
  and_then f g w = (w', r) → w_notes w' = w_notes w.
Proof.
  unfold and_then. intros Hf Hg. destruct (f w) as [w1 [r1|e]] eqn:E.
  - intros H. apply Hg in H. apply Hf in E. congruence.
  - intros [= <- <-]. by eapply Hf.
Qed.

Lemma ensure_parent_dirs_contents path w w' r :
  ensure_parent_dirs path w = (w', r) →
  ∀ q, plain_path q → contents (w_fs w') q = contents (w_fs w) q.
Proof.
  unfold ensure_parent_dirs. destruct (path_parent path) as [parent|]; [|by intros [= <- <-]].
  destruct (is_empty parent); [by intros [= <- <-]|].
  intros H%run_io_spec q Hq. destruct r as [u|e]; [|destruct H as [e' H]]; by eapply mkdir_contents.
Qed.

Lemma ensure_parent_dirs_notes path w w' r :
  ensure_parent_dirs path w = (w', r) → w_notes w' = w_notes w.
Proof.
  unfold ensure_parent_dirs. destruct (path_parent path) as [parent|]; [|by intros [= <- <-]].
  destruct (is_empty parent); [by intros [= <- <-]|]. apply run_io_notes.
Qed.

Lemma write_change_notes c w w' r : write_change c w = (w', r) → w_notes w' = w_notes w.
Proof.
  destruct c; cbn [write_change]; try apply run_io_notes;
    repeat (apply and_then_notes; intros ? ? ?);
    first [apply ensure_parent_dirs_notes|apply run_io_notes].
Qed.

(** The file system [fs'] holds what [fs] did after [effs], but for at most the
    files the effect [failed] is for. *)
Definition leaves (fs fs' : Fs) (effs : list (str * option bytes))
    (failed : option (str * option bytes)) : Prop :=
  ∀ q, plain_path q → (∀ e, failed = Some e → same_file e.1 q = false) →
    contents fs' q = contents_after (contents fs q) effs q.

Definition do_effect (e : str * option bytes) (fs : Fs) : Fs * result unit FsError :=
  match e.2 with Some d => write_file fs e.1 d | None => delete_file fs e.1 end.

Lemma effect_leaves e w w' r :
  run_io (do_effect e) w = (w', r) →
  match r with
  | Ok _ => leaves (w_fs w) (w_fs w') [e] None
  | Err _ => leaves (w_fs w) (w_fs w') [] (Some e)
  end.
Proof.
  intros H%run_io_spec. destruct e as [p [d|]], r as [u|err]; [|destruct H as [e' H]| |destruct H as [e' H]];
    intros q Hq Hf; unfold do_effect, contents_after in *; simpl in *.
  - by eapply write_contents.
  - by eapply write_failed, (Hf _ eq_refl).
  - by eapply delete_contents.
  - by eapply delete_failed, (Hf _ eq_refl).
Qed.

(** One change leaves exactly its effects, or some of them when it fails. *)
Definition change_leaves (c : FileChange) (fs fs' : Fs) (r : result unit ToolError) : Prop :=
  match r with
  | Ok _ => leaves fs fs' (effects c) None
  | Err _ => ∃ pre e post, effects c = pre ++ e :: post ∧ leaves fs fs' pre (Some e)
  end.

Lemma leaves_mkdir path w w1 r fs' effs failed :
  ensure_parent_dirs path w = (w1, r) → leaves (w_fs w1) fs' effs failed →
  leaves (w_fs w) fs' effs failed.
Proof.
  intros H Hl q Hq Hf. rewrite (Hl q Hq Hf).
  by rewrite (ensure_parent_dirs_contents _ _ _ _ H q Hq).
Qed.

Lemma leaves_none fs effs failed : effs = [] → leaves fs fs effs failed.
Proof. intros ->. by intros q _ _. Qed.

Lemma leaves_trans fs fs1 fs2 effs effs' failed :
  leaves fs fs1 effs None → leaves fs1 fs2 effs' failed → leaves fs fs2 (effs ++ effs') failed.
Proof.
  intros H1 H2 q Hq Hf. rewrite (H2 q Hq Hf), (H1 q Hq) by done.
  unfold contents_after. by rewrite foldl_app.
Qed.

Lemma write_change_leaves c w w' r :
  write_change c w = (w', r) → change_leaves c (w_fs w) (w_fs w') r.
Proof.
  unfold change_leaves.
  assert (∀ e w w' r, run_io (do_effect e) w = (w', r) → effects c = [e] →
    change_leaves c (w_fs w) (w_fs w') r) as Hone.
  { intros e w0 w1 r0 H%effect_leaves Ec. unfold change_leaves.
    destruct r0; [by rewrite Ec|]. by exists [], e, []. }
  destruct c as [path content|path original|path original new|source dest original new];
    cbn [write_change].
  - intros [(e & H & ->)|(w1 & u & H1 & H2)]%and_then_spec.
    + exists [], (path, Some (as_bytes content)), []. split; [done|].
      eapply leaves_mkdir; [done|by apply leaves_none].
    + apply (Hone (path, Some (as_bytes content))) in H2; [|done].
      unfold change_leaves in H2. destruct r as [u'|e].
      * by eapply leaves_mkdir.
      * destruct H2 as (pre & e' & post & Ec & Hl). exists pre, e', post.
        split; [done|]. by eapply leaves_mkdir.
  - intros H. by apply (Hone (path, None)) in H.
  - intros H. by apply (Hone (path, Some (as_bytes new))) in H.
  - set (ed := (dest, Some (as_bytes new))). set (es := (source, @None bytes)).
    intros [(e & H & ->)|(w1 & u & H1 & H)]%and_then_spec.
    { exists [], ed, [es]. split; [done|]. eapply leaves_mkdir; [done|by apply leaves_none]. }
    apply and_then_spec in H as [(e & H & ->)|(w2 & u2 & H2 & H3)].
    { apply (effect_leaves ed) in H. exists [], ed, [es]. split; [done|]. by eapply leaves_mkdir. }
    apply (effect_leaves ed) in H2. apply (effect_leaves es) in H3.
    destruct r as [u3|e]; [|exists [ed], es, []; split; [done|] ];
      (eapply leaves_mkdir; [done|]); by eapply (leaves_trans _ _ _ [ed]).
Qed.

Definition all_notes (tool_call_id : str) (cs : list FileChange) : list FileWritten :=
  concat (map (change_notes tool_call_id) cs).

Lemma apply_changes_spec id cs acc w :
  match apply_changes id cs acc w with
  | (w', Ok results) =>
      results = acc ++ map change_result cs ∧ w_notes w' = w_notes w ++ all_notes id cs ∧
      leaves (w_fs w) (w_fs w') (concat (map effects cs)) None
  | (w', Err _) =>
      ∃ done_ c rest pre e post, cs = done_ ++ c :: rest ∧ effects c = pre ++ e :: post ∧
        w_notes w' = w_notes w ++ all_notes id done_ ∧
        leaves (w_fs w) (w_fs w') (concat (map effects done_) ++ pre) (Some e)
  end.
Proof.
  revert acc w. induction cs as [|c cs IH]; intros acc w; cbn [apply_changes].
  { unfold all_notes. simpl. rewrite !app_nil_r. split_and!; [done..|by apply leaves_none]. }
  destruct (write_change c w) as [w1 [u|e]] eqn:E; pose proof (write_change_notes _ _ _ _ E) as Hn;
    apply write_change_leaves in E; unfold change_leaves in E.
  - specialize (IH (acc ++ [change_result c]) (send (change_notes id c) w1)).
    destruct (apply_changes _ cs _ _) as [w' [results|e]].
    + destruct IH as (-> & -> & Hc). split; [by rewrite <- app_assoc|].
      split; [unfold all_notes; simpl; by rewrite Hn, <- app_assoc|].
      cbn [map concat]. by eapply leaves_trans.
    + destruct IH as (d & f & rest & pre & eff & post & -> & Ef & -> & Hl).
      exists (c :: d), f, rest, pre, eff, post. split_and!; [done|done| |].
      * unfold all_notes. simpl. by rewrite Hn, <- app_assoc.
      * cbn [map concat]. rewrite <- app_assoc. by eapply leaves_trans.
  - destruct E as (pre & eff & post & Ec & Hl). exists [], c, cs, pre, eff, post.
    split_and!; [done|done| |done]. rewrite Hn. unfold all_notes. simpl. by rewrite app_nil_r.
Qed.

Lemma compute_change_total cwd fs h : ∃ r, compute_change cwd fs h = Some r.
Proof.
  destruct h; cbn [compute_change]; try by eexists.
  destruct (read_file_as_string fs _) as [content|e]; [|by eexists].
  destruct (derive_never_panics content (path_join cwd path) chunks) as [r ->].
  csimpl. by eexists.
Qed.

Lemma compute_all_changes_total cwd fs hs acc : ∃ r, compute_all_changes cwd fs hs acc = Some r.
Proof.
  revert acc. induction hs as [|h hs IH]; intros acc; cbn [compute_all_changes]; [by eexists|].
  destruct (compute_change_total cwd fs h) as [[c|e] ->]; csimpl; [apply IH|by eexists].
Qed.

End Effects.

(** ** Properties *)

(** The tool returns for every patch text and every file system: parsing
    and matching terminate, and no index, slice or insertion is out of
    range. *)
Theorem apply_patch_total `{AFS : AsyncFs} cwd id patch w :
  ∃ r, run_apply_patch cwd id patch w = Some r.
Proof.
  unfold run_apply_patch, parse_patch.
  destruct (parse_patch_total patch (if PARSE_IN_STRICT_MODE then Strict else Lenient))
    as [[p|e] ->]; csimpl; [|by eexists].
  destruct (is_empty (hunks p)); [by eexists|].
  destruct (compute_all_changes_total cwd (w_fs w) (hunks p) []) as [[cs|e] ->];
    csimpl; [|by eexists].
  destruct (apply_changes id cs [] w) as [w' r]. by eexists.
Qed.

(** C34: a patch that does not parse, is empty or does not fit its files writes
    nothing and notifies nobody.  A success carries out the parsed hunks
    against the files as they were before the call: every file holds what the
    last change to it says and all others are untouched, with one result per
    hunk and the notifications in order.  An I/O failure stops in one change:
    those before it are done, and they alone are notified; of this one the
    effects before the call that failed are done, which is the writing of the
    destination when a move cannot delete its source; and at most the file of
    the call that failed may have changed besides.  This is on a file system
    without links, and for files named without [..]. *)
Theorem apply_patch_effect `{AFS : AsyncFs} `{L : !LawfulFs} cwd id patch w w' out
    (H : run_apply_patch cwd id patch w = Some (w', out)) :
  match out with
  | Ok (Success files prompt) =>
      ∃ p cs, parse_patch patch = Some (Ok p) ∧
        compute_all_changes cwd (w_fs w) (hunks p) [] = Some (Ok cs) ∧
        files = map change_result cs ∧ prompt = build_summary files ∧
        w_notes w' = w_notes w ++ all_notes id cs ∧
        leaves (w_fs w) (w_fs w') (concat (map effects cs)) None
  | Ok _ => w' = w
  | Err _ =>
      ∃ p done_ c rest pre e post, parse_patch patch = Some (Ok p) ∧
        compute_all_changes cwd (w_fs w) (hunks p) [] = Some (Ok (done_ ++ c :: rest)) ∧
        effects c = pre ++ e :: post ∧
        w_notes w' = w_notes w ++ all_notes id done_ ∧
        leaves (w_fs w) (w_fs w') (concat (map effects done_) ++ pre) (Some e)
  end.
Proof.
  unfold run_apply_patch in H.
  destruct (parse_patch patch) as [[p|e]|] eqn:Ep; csimpl in H; [|injection H as <- <-; reflexivity|discriminate H].
  destruct (is_empty (hunks p)); [injection H as <- <-; reflexivity|].
  destruct (compute_all_changes _ _ _ _) as [[cs|e]|] eqn:Ec; csimpl in H;
    [|injection H as <- <-; reflexivity|discriminate H].
  pose proof (apply_changes_spec id cs [] w) as Ha.
  destruct (apply_changes id cs [] w) as [w1 [results|e]]; injection H as <- <-.
  - destruct Ha as (-> & Hn & Hc). exists p, cs. split_and!; first [reflexivity|assumption].
  - destruct Ha as (d & c & rest & pre & eff & post & -> & Ef & Hn & Hl).
    exists p, d, c, rest, pre, eff, post. split_and!; first [reflexivity|assumption].
Qed.

(** ** Examples *)

Definition demo_world (fs : list (string * list string)) : World :=
  {| w_fs := list_to_map (map (λ f, (lit f.1, as_bytes (nl_join f.2))) fs); w_notes := [] |}.
Definition read_back (p : string) (r : option (World * result ApplyPatchOutput ToolError))
  : option str :=
  '(w, _) ← r; from_utf8_lossy <$> contents (w_fs w) (lit p).

Definition two_updates : str :=
  nl_join ["*** Begin Patch"; "*** Update File: a"; "@@"; "-one"; "+1";
           "*** Update File: a"; "@@"; "-two"; "+2"; "*** End Patch"]%string.
Definition demo_files : World := demo_world [("/w/a", ["one"; "two"; ""])]%string.

Lemma apply_patch_effect_witness :
  match run_apply_patch (lit "/w") (lit "call") two_updates demo_files with
  | Some (w', Ok (Success files prompt)) =>
      ∃ p cs, parse_patch two_updates = Some (Ok p) ∧
        compute_all_changes (lit "/w") (w_fs demo_files) (hunks p) [] = Some (Ok cs) ∧
        files = map change_result cs ∧ prompt = build_summary files ∧
        w_notes w' = w_notes demo_files ++ all_notes (lit "call") cs ∧
        leaves (w_fs demo_files) (w_fs w') (concat (map effects cs)) None
  | _ => False
  end.
Proof.
  destruct (run_apply_patch (lit "/w") (lit "call") two_updates demo_files) as [[w' out]|] eqn:E.
  - pose proof (apply_patch_effect (lit "/w") (lit "call") two_updates demo_files w' out E) as H.
    assert (Hs : match run_apply_patch (lit "/w") (lit "call") two_updates demo_files with
                 | Some (_, Ok (Success _ _)) => true | _ => false end = true)
      by (vm_compute; reflexivity).
    rewrite E in Hs. destruct out as [[files prompt| | |]|]; try discriminate Hs. exact H.
  - assert (Hs : match run_apply_patch (lit "/w") (lit "call") two_updates demo_files with
                 | Some _ => true | _ => false end = true) by (vm_compute; reflexivity).
    rewrite E in Hs. discriminate Hs.
Defined.

(** Two sections for one file both start from its old contents: the patch
    succeeds and the first section's edit is overwritten. *)
Theorem same_file_updates_lost :
  read_back "/w/a" (run_apply_patch (lit "/w") (lit "call") two_updates demo_files)
  = Some (nl_join ["one"; "2"; ""]%string).
Proof. by vm_compute. Qed.

(** Adding a file that exists replaces it and reports a new file without
    previous content. *)
Theorem add_over_existing_file :
  let patch := nl_join ["*** Begin Patch"; "*** Add File: a"; "+new"; "*** End Patch"]%string in
  match run_apply_patch (lit "/w") (lit "call") patch demo_files with
  | Some (w', _) =>
      contents (w_fs w') (lit "/w/a") = Some (as_bytes (nl_join ["new"; ""]%string)) ∧
      map (λ n, (fw_absolute_path n, fw_previous_content n, fw_is_new_file n)) (w_notes w')
      = [(lit "/w/a", None, true)]
  | None => False
  end.
Proof. vm_compute. done. Qed.
