(* ===== verification/ReadFile.v ===== *)
(** * The [read_file] tool of codex

    [codex/read_file]: [text_utils.rs], [slice.rs], [indentation.rs] and
    [run] of [tool.rs].  Line numbers and counts the caller chooses are [usize]
    values in [Z]; positions in the file are [nat].  [None] is an index out of
    range or a loop out of fuel. *)
From S2P Require Import Prelude RustStr FileSystem.

(** ** Text *)

Definition MAX_LINE_LENGTH : Z := 500.

(** The chars up to [last_ok], the end of the last one that fits. *)
Fixpoint boundary_loop (s : str) (i max_bytes : Z) : str :=
  match s with
  | [] => []
  | ch :: s' =>
      let nb := (i + char_len ch)%Z in
      if (max_bytes <? nb)%Z then [] else ch :: boundary_loop s' nb max_bytes
  end.
Definition take_at_char_boundary (s : str) (max_bytes : Z) : str :=
  if (str_len s <=? max_bytes)%Z then s else boundary_loop s 0 max_bytes.

Definition format_display (raw : bytes) : str :=
  let decoded := from_utf8_lossy raw in
  if (MAX_LINE_LENGTH <? str_len decoded)%Z then take_at_char_boundary decoded MAX_LINE_LENGTH
  else decoded.

(** ** Slices *)

(** The bytes of a line without one carriage return at their end. *)
Definition strip_cr (line : bytes) : bytes := strip_suffix_char CR line.

(** The scan of [split_lines]; [cur] is [bytes[start..i]]. *)
Fixpoint split_loop (bs cur : bytes) : list bytes :=
  match bs with
  | [] => if is_empty cur then [] else [strip_cr cur]
  | b :: bs' =>
      if (b =? NL)%Z then strip_cr cur :: split_loop bs' [] else split_loop bs' (cur ++ [b])
  end.
Definition split_lines (bs : bytes) : list bytes :=
  if is_empty bs then [] else split_loop bs [].

Definition format_line (bs : bytes) : str := format_display bs.

Definition numbered (n : Z) (text : str) : str := lit "L" ++ fmt_Z n ++ lit ": " ++ text.

(** The loop of [read_slice]; returns [seen] and [collected]. *)
Fixpoint slice_loop (ls : list bytes) (offset limit seen : Z) (collected : list str)
  : Z * list str :=
  match ls with
  | [] => (seen, collected)
  | raw_line :: ls' =>
      let seen := (seen + 1)%Z in
      if (seen <? offset)%Z then slice_loop ls' offset limit seen collected
      else if (Z.of_nat (length collected) =? limit)%Z then (seen, collected)
      else
        let collected := collected ++ [numbered seen (format_line raw_line)] in
        if (Z.of_nat (length collected) =? limit)%Z then (seen, collected)
        else slice_loop ls' offset limit seen collected
  end.

Definition read_slice (file_bytes : bytes) (offset limit : Z) : result (list str) str :=
  let '(seen, collected) := slice_loop (split_lines file_bytes) offset limit 0 [] in
  if (seen <? offset)%Z then Err (lit "offset exceeds file length") else Ok collected.

(** ** Indentation *)

Definition TAB : char := 9.
Definition TAB_WIDTH : Z := 4.
Definition COMMENT_PREFIXES : list str := [lit "#"; lit "//"; lit "--"].

Record IndentationOptions := {
  anchor_line : option Z;
  max_levels : Z;
  include_siblings : bool;
  include_header : bool;
  max_lines : option Z;
}.

Record LineRecord := { lr_number : Z; lr_raw : str; lr_display : str; lr_indent : Z }.

Definition trimmed (r : LineRecord) : str := trim_start (lr_raw r).
Definition is_blank (r : LineRecord) : bool := is_empty (trimmed r).
Definition is_comment (r : LineRecord) : bool :=
  let t := trim (lr_raw r) in existsb (starts_with t) COMMENT_PREFIXES.

Fixpoint measure_loop (line : str) (indent : Z) : Z :=
  match line with
  | [] => indent
  | ch :: line' =>
      if (ch =? 32)%Z then measure_loop line' (indent + 1)
      else if (ch =? TAB)%Z then measure_loop line' (indent + TAB_WIDTH)
      else indent
  end.
Definition measure_indent (line : str) : Z := measure_loop line 0.

Definition line_record (line_num : Z) (raw_bytes : bytes) : LineRecord :=
  let raw := from_utf8_lossy raw_bytes in
  {| lr_number := line_num; lr_raw := raw; lr_display := format_display raw_bytes;
     lr_indent := measure_indent raw |}.

Fixpoint collect_loop (bs cur : bytes) (line_num : Z) : list LineRecord :=
  match bs with
  | [] => if is_empty cur then [] else [line_record (line_num + 1) (strip_cr cur)]
  | b :: bs' =>
      if (b =? NL)%Z
      then line_record (line_num + 1) (strip_cr cur) :: collect_loop bs' [] (line_num + 1)
      else collect_loop bs' (cur ++ [b]) line_num
  end.
Definition collect_lines (bs : bytes) : list LineRecord :=
  if is_empty bs then [] else collect_loop bs [] 0.

Fixpoint effective_loop (records : list LineRecord) (last_non_blank_indent : Z) : list Z :=
  match records with
  | [] => []
  | rec :: records' =>
      if is_blank rec then last_non_blank_indent :: effective_loop records' last_non_blank_indent
      else lr_indent rec :: effective_loop records' (lr_indent rec)
  end.
Definition compute_effective_indents (records : list LineRecord) : list Z :=
  effective_loop records 0.

(** The cursors of [read_block]: the deque, [i] and [j] and their counters. *)
Record Cursors := {
  c_out : list nat;
  c_i : Z;
  c_j : nat;
  c_i_counter : Z;
  c_j_counter : Z;
}.

Definition expand_up (collected : list LineRecord) (effective : list Z) (min_indent : Z)
    (siblings header : bool) (c : Cursors) : option (Cursors * bool) :=
  if (c_i c <? 0)%Z then Some (c, false)
  else
    let iu := Z.to_nat (c_i c) in
    eff ← effective !! iu;
    if (eff <? min_indent)%Z then
      Some ({| c_out := c_out c; c_i := -1; c_j := c_j c; c_i_counter := c_i_counter c;
               c_j_counter := c_j_counter c |}, false)
    else if (eff =? min_indent)%Z && negb siblings then
      rec ← collected !! iu;
      let allow_header_comment := header && is_comment rec in
      let can_take_line := allow_header_comment || (c_i_counter c =? 0)%Z in
      if can_take_line then
        Some ({| c_out := iu :: c_out c; c_i := c_i c - 1; c_j := c_j c;
                 c_i_counter := c_i_counter c + 1; c_j_counter := c_j_counter c |}, true)
      else
        Some ({| c_out := c_out c; c_i := -1; c_j := c_j c; c_i_counter := c_i_counter c;
                 c_j_counter := c_j_counter c |}, false)
    else
      Some ({| c_out := iu :: c_out c; c_i := c_i c - 1; c_j := c_j c;
               c_i_counter := c_i_counter c; c_j_counter := c_j_counter c |}, true).

Definition expand_down (effective : list Z) (n : nat) (min_indent : Z) (siblings : bool)
    (c : Cursors) : option (Cursors * bool) :=
  if (n <=? c_j c)%nat then Some (c, false)
  else
    let ju := c_j c in
    eff ← effective !! ju;
    if (eff <? min_indent)%Z then
      Some ({| c_out := c_out c; c_i := c_i c; c_j := n; c_i_counter := c_i_counter c;
               c_j_counter := c_j_counter c |}, false)
    else if (eff =? min_indent)%Z && negb siblings then
      if (0 <? c_j_counter c)%Z then
        Some ({| c_out := c_out c; c_i := c_i c; c_j := n; c_i_counter := c_i_counter c;
                 c_j_counter := c_j_counter c + 1 |}, false)
      else
        Some ({| c_out := c_out c ++ [ju]; c_i := c_i c; c_j := S ju;
                 c_i_counter := c_i_counter c; c_j_counter := c_j_counter c + 1 |}, true)
    else
      Some ({| c_out := c_out c ++ [ju]; c_i := c_i c; c_j := S ju;
               c_i_counter := c_i_counter c; c_j_counter := c_j_counter c |}, true).

(** [while out.len() < final_limit] *)
Fixpoint expand_loop (fuel : nat) (collected : list LineRecord) (effective : list Z)
    (final_limit min_indent : Z) (siblings header : bool) (c : Cursors) : option Cursors :=
  match fuel with
  | O => None
  | S fuel' =>
      if (final_limit <=? Z.of_nat (length (c_out c)))%Z then Some c
      else
        let tried := (0 <=? c_i c)%Z in
        '(c, up) ← (if tried then expand_up collected effective min_indent siblings header c
                    else Some (c, false));
        if tried && (final_limit <=? Z.of_nat (length (c_out c)))%Z then Some c
        else
          '(c, down) ← (if (c_j c <? length collected)%nat
                        then expand_down effective (length collected) min_indent siblings c
                        else Some (c, false));
          if negb up && negb down then Some c
          else expand_loop fuel' collected effective final_limit min_indent siblings header c
  end.

Definition blank_at (records : list LineRecord) (idx : nat) : bool :=
  match records !! idx with Some r => is_blank r | None => false end.
Definition trim_empty_lines (records : list LineRecord) (deque : list nat) : list nat :=
  rev (drop_while (blank_at records) (rev (drop_while (blank_at records) deque))).

Definition format_record (r : LineRecord) : str := numbered (lr_number r) (lr_display r).

Definition min_indent_for (anchor_indent levels : Z) : Z :=
  if (levels =? 0)%Z then 0%Z else saturating_sub anchor_indent (wrap64 (levels * TAB_WIDTH)).

Definition read_block (bs : bytes) (offset limit : Z) (options : IndentationOptions)
  : option (result (list str) str) :=
  let collected := collect_lines bs in
  if is_empty collected then Some (Ok [])
  else
    let anchor := default offset (anchor_line options) in
    if (anchor =? 0)%Z || (Z.of_nat (length collected) <? anchor)%Z
    then Some (Err (lit "anchor_line exceeds file length"))
    else
      let effective := compute_effective_indents collected in
      let guard_limit := default limit (max_lines options) in
      if (guard_limit =? 0)%Z then Some (Err (lit "max_lines must be greater than zero"))
      else
        let final_limit := Z.min (Z.min limit guard_limit) (Z.of_nat (length collected)) in
        let anchor_idx := Z.to_nat (anchor - 1) in
        anchor_indent ← effective !! anchor_idx;
        let min_indent := min_indent_for anchor_indent (max_levels options) in
        if (final_limit =? 1)%Z then
          rec ← collected !! anchor_idx; Some (Ok [format_record rec])
        else
          c ← expand_loop (S (length collected)) collected effective final_limit min_indent
                (include_siblings options) (include_header options)
                {| c_out := [anchor_idx]; c_i := Z.of_nat anchor_idx - 1; c_j := S anchor_idx;
                   c_i_counter := 0; c_j_counter := 0 |};
          recs ← mapM (λ idx, collected !! idx) (trim_empty_lines collected (c_out c));
          Some (Ok (map format_record recs)).

(** ** The tool *)

Inductive ReadMode : Type := Slice | Indentation.

Record IndentationArgs := {
  arg_anchor_line : option Z;
  arg_max_levels : Z;
  arg_include_siblings : bool;
  arg_include_header : bool;
  arg_max_lines : option Z;
}.
Definition indentation_default : IndentationArgs :=
  {| arg_anchor_line := None; arg_max_levels := 0; arg_include_siblings := false;
     arg_include_header := true; arg_max_lines := None |}.

Record CodexReadFileInput := {
  in_file_path : str;
  in_offset : Z;
  in_limit : Z;
  in_mode : ReadMode;
  in_indentation : option IndentationArgs;
}.

(** The fields of [FileContent] the tool fills in. *)
Record FileContent := {
  fc_content : str;
  fc_absolute_path : str;
  fc_offset : Z;
  fc_limit : Z;
  fc_raw_output : str;
  fc_total_lines : Z;
}.

Inductive ReadFileOutput : Type :=
| OutFileContent (fc : FileContent)
| FileReadError (m : str).

Definition count_total_lines (file_bytes : bytes) : Z :=
  (Z.of_nat (length (base.filter (λ b : Z, b = NL) file_bytes))
   + if negb (bool_decide (last file_bytes = Some NL)) && negb (is_empty file_bytes)
     then 1 else 0)%Z.

Definition options_of (args : IndentationArgs) : IndentationOptions :=
  {| anchor_line := arg_anchor_line args; max_levels := arg_max_levels args;
     include_siblings := arg_include_siblings args; include_header := arg_include_header args;
     max_lines := arg_max_lines args |}.

Definition run_read_file `{AFS : AsyncFs} (fs : Fs) (input : CodexReadFileInput)
  : option ReadFileOutput :=
  if (in_offset input =? 0)%Z
  then Some (FileReadError (lit "offset must be a 1-indexed line number"))
  else if (in_limit input =? 0)%Z
  then Some (FileReadError (lit "limit must be greater than zero"))
  else if negb (is_absolute (in_file_path input))
  then Some (FileReadError (lit "file_path must be an absolute path"))
  else
    match read_file fs (in_file_path input) with
    | Err e => Some (FileReadError (lit "Failed to read file: " ++ in_file_path input ++ lit ", "
                                    ++ fs_error_display e))
    | Ok file_bytes =>
        collected ←
          match in_mode input with
          | Slice => Some (read_slice file_bytes (in_offset input) (in_limit input))
          | Indentation =>
              read_block file_bytes (in_offset input) (in_limit input)
                (options_of (default indentation_default (in_indentation input)))
          end;
        Some (match collected with
              | Err e => FileReadError e
              | Ok ls =>
                  OutFileContent
                    {| fc_content := join [NL] ls; fc_absolute_path := in_file_path input;
                       fc_offset := in_offset input; fc_limit := in_limit input;
                       fc_raw_output := from_utf8_lossy file_bytes;
                       fc_total_lines := count_total_lines file_bytes |}
              end)
    end.

(** ** Lines *)

(** Both readers see the same lines. *)
Lemma collect_loop_lines bs cur k :
  collect_loop bs cur k = imap (λ i l, line_record (k + Z.of_nat i + 1) l) (split_loop bs cur).
Proof.
  revert cur k. induction bs as [|b bs IH]; intros cur k; cbn [collect_loop split_loop].
  - destruct (is_empty cur); csimpl; [done|]. do 2 f_equal. lia.
  - destruct (b =? NL)%Z; [|apply IH]. csimpl. f_equal; [f_equal; lia|].
    rewrite IH. apply imap_ext. intros i l _. simpl. f_equal. lia.
Qed.

Lemma collect_lines_split bs :
  collect_lines bs = imap (λ i l, line_record (Z.of_nat i + 1) l) (split_lines bs).
Proof.
  unfold collect_lines, split_lines. destruct (is_empty bs); [done|].
  rewrite collect_loop_lines. apply imap_ext. intros i l _. f_equal.
Qed.

Lemma split_loop_count bs cur :
  Z.of_nat (length (split_loop bs cur))
  = (Z.of_nat (length (base.filter (λ b : Z, b = NL) bs))
     + if match last bs with Some b => negb (bool_decide (b = NL)) | None => negb (is_empty cur) end
       then 1 else 0)%Z.
Proof.
  revert cur. induction bs as [|b bs IH]; intros cur; cbn [split_loop].
  { by destruct (is_empty cur). }
  rewrite last_cons, filter_cons. destruct (Z.eqb_spec b NL) as [->|Hb].
  - rewrite decide_True by done. cbn [length]. rewrite Nat2Z.inj_succ, IH.
    destruct (last bs); [lia|]. rewrite bool_decide_eq_true_2 by done. simpl. lia.
  - rewrite decide_False by done. rewrite IH. destruct (last bs); [done|].
    rewrite bool_decide_eq_false_2 by done. by destruct cur.
Qed.

Lemma total_lines_split bs : count_total_lines bs = Z.of_nat (length (split_lines bs)).
Proof.
  unfold count_total_lines, split_lines. destruct bs as [|b bs]; [done|]. cbn [is_empty].
  rewrite split_loop_count. f_equal. rewrite last_cons, andb_true_r.
  destruct (last bs) as [b'|]; simpl; repeat case_bool_decide; done || congruence.
Qed.

(** ** Slices *)

(** The lines of a file as the tool shows them, numbered behind [seen]. *)
Definition shown (seen : Z) (ls : list bytes) : list str :=
  imap (λ i l, numbered (seen + Z.of_nat i + 1) (format_display l)) ls.

Lemma shown_cons seen l ls :
  shown seen (l :: ls) = numbered (seen + 1) (format_display l) :: shown (seen + 1) ls.
Proof.
  unfold shown. rewrite imap_cons. f_equal; [f_equal; lia|].
  apply imap_ext. intros i x _. simpl. f_equal. lia.
Qed.

Lemma slice_take ls offset limit seen collected :
  (offset ≤ seen + 1)%Z → (Z.of_nat (length collected) < limit)%Z →
  let '(seen', collected') := slice_loop ls offset limit seen collected in
  (seen ≤ seen')%Z ∧ (ls ≠ [] → seen < seen')%Z ∧
  collected' = collected ++ take (Z.to_nat limit - length collected) (shown seen ls).
Proof.
  revert seen collected. induction ls as [|l ls IH]; intros seen collected Ho Hl; cbn [slice_loop].
  { unfold shown. simpl. rewrite take_nil, app_nil_r. split_and!; done || lia. }
  rewrite (proj2 (Z.ltb_ge _ _)) by lia. rewrite (proj2 (Z.eqb_neq _ limit)) by lia.
  rewrite shown_cons. set (x := numbered _ (format_line l)).
  replace (Z.to_nat limit - length collected)%nat
    with (S (Z.to_nat limit - length (collected ++ [x]))) by (rewrite length_app; simpl; lia).
  destruct (Z.eqb_spec (Z.of_nat (length (collected ++ [x]))) limit) as [E|E].
  - split; [lia|]. split; [lia|]. f_equal. simpl. f_equal.
    replace (Z.to_nat limit - length (collected ++ [x]))%nat with 0%nat by lia. by rewrite take_0.
  - assert (Hl' : (Z.of_nat (length (collected ++ [x])) < limit)%Z)
      by (rewrite length_app in *; simpl in *; lia).
    specialize (IH (seen + 1)%Z (collected ++ [x]) ltac:(lia) Hl').
    destruct (slice_loop _ _ _ _ _) as [seen' collected']. destruct IH as (H1 & _ & ->).
    split; [lia|]. split; [lia|]. by rewrite <- app_assoc.
Qed.

Lemma slice_skip ls offset limit seen :
  (seen < offset)%Z → (1 ≤ limit)%Z →
  let '(seen', collected) := slice_loop ls offset limit seen [] in
  (seen' <? offset)%Z = (seen + Z.of_nat (length ls) <? offset)%Z ∧
  ((offset ≤ seen + Z.of_nat (length ls))%Z →
   collected = take (Z.to_nat limit) (drop (Z.to_nat (offset - 1 - seen)) (shown seen ls))).
Proof.
  intros Ho Hl. revert seen Ho. induction ls as [|l ls IH]; intros seen Ho.
  { cbn [slice_loop length]. rewrite Z.add_0_r. split; [done|lia]. }
  destruct (Z.ltb_spec (seen + 1) offset) as [Hlt|Hge].
  - cbn [slice_loop]. rewrite (proj2 (Z.ltb_lt _ _)) by lia.
    specialize (IH (seen + 1)%Z Hlt). destruct (slice_loop ls _ _ _ _) as [seen' collected].
    destruct IH as [-> IH]. cbn [length]. rewrite Nat2Z.inj_succ. split; [f_equal; lia|].
    intros H. rewrite IH by lia. rewrite shown_cons.
    replace (Z.to_nat (offset - 1 - seen)) with (S (Z.to_nat (offset - 1 - (seen + 1)))) by lia.
    done.
  - pose proof (slice_take (l :: ls) offset limit seen [] ltac:(lia) ltac:(simpl; lia)) as Ht.
    destruct (slice_loop _ _ _ _ _) as [seen' collected]. destruct Ht as (H1 & H2 & ->).
    specialize (H2 ltac:(done)). split.
    + rewrite !(proj2 (Z.ltb_ge _ _)); [done|cbn [length]; lia|lia].
    + intros _. replace (Z.to_nat (offset - 1 - seen)) with 0%nat by lia.
      rewrite drop_0. simpl. by rewrite Nat.sub_0_r.
Qed.

(** What a slice is. *)
Lemma read_slice_spec bs offset limit :
  (1 ≤ offset)%Z → (1 ≤ limit)%Z →
  read_slice bs offset limit
  = if (Z.of_nat (length (split_lines bs)) <? offset)%Z
    then Err (lit "offset exceeds file length")
    else Ok (take (Z.to_nat limit) (drop (Z.to_nat (offset - 1)) (shown 0 (split_lines bs)))).
Proof.
  intros Ho Hl. unfold read_slice.
  pose proof (slice_skip (split_lines bs) offset limit 0 ltac:(lia) Hl) as Hs.
  destruct (slice_loop _ _ _ _ _) as [seen collected]. destruct Hs as [-> Hs].
  rewrite Z.add_0_l in *. destruct (Z.ltb_spec (Z.of_nat (length (split_lines bs))) offset);
    [reflexivity|]. rewrite Hs by lia. rewrite Z.sub_0_r. reflexivity.
Qed.

(** ** Displayed lines *)

Lemma char_len_pos c : (1 ≤ char_len c)%Z.
Proof. unfold char_len. repeat case_match; lia. Qed.

Lemma str_len_nonneg s : (0 ≤ str_len s)%Z.
Proof. induction s as [|c s IH]; simpl; [lia|]. pose proof (char_len_pos c). lia. Qed.

Lemma str_len_app s s' : str_len (s ++ s') = (str_len s + str_len s')%Z.
Proof. induction s as [|c s IH]; simpl; [lia|]. rewrite IH. lia. Qed.

(** The loop keeps the longest prefix that fits. *)
Lemma boundary_loop_spec s i m :
  (i ≤ m)%Z →
  ∃ rest, s = boundary_loop s i m ++ rest ∧ (i + str_len (boundary_loop s i m) ≤ m)%Z ∧
  match rest with [] => True | c :: _ => (m < i + str_len (boundary_loop s i m) + char_len c)%Z end.
Proof.
  revert i. induction s as [|c s IH]; intros i Hi; cbn [boundary_loop].
  { exists []. simpl. split_and!; done || lia. }
  destruct (Z.ltb_spec m (i + char_len c)) as [H|H].
  { exists (c :: s). simpl. split_and!; done || lia. }
  destruct (IH (i + char_len c)%Z H) as (rest & E & Hl & Hr). exists rest.
  split; [cbn [app]; by rewrite <- E|]. cbn [str_len]. split; [lia|]. destruct rest; [done|lia].
Qed.

(** [t] is the longest prefix of [s] of at most [m] bytes. *)
Definition longest_prefix (m : Z) (t s : str) : Prop :=
  (str_len t ≤ m)%Z ∧
  ∃ rest, s = t ++ rest ∧ match rest with [] => True | c :: _ => (m < str_len (t ++ [c]))%Z end.

Lemma format_display_prefix raw :
  longest_prefix MAX_LINE_LENGTH (format_display raw) (from_utf8_lossy raw).
Proof.
  unfold longest_prefix, format_display, take_at_char_boundary.
  set (s := from_utf8_lossy raw). clearbody s.
  destruct (Z.ltb_spec MAX_LINE_LENGTH (str_len s)) as [H|H].
  - rewrite (proj2 (Z.leb_gt _ _)) by lia.
    destruct (boundary_loop_spec s 0 MAX_LINE_LENGTH) as (rest & E & Hl & Hr);
      [unfold MAX_LINE_LENGTH; lia|].
    split; [lia|]. exists rest. split; [done|]. destruct rest as [|c rest]; [done|].
    rewrite str_len_app. simpl. lia.
  - split; [done|]. exists []. by rewrite app_nil_r.
Qed.

(** ** Blocks *)

Lemma effective_length records k : length (effective_loop records k) = length records.
Proof.
  revert k. induction records as [|r records IH]; intros k; cbn [effective_loop]; [done|].
  destruct (is_blank r); simpl; by rewrite IH.
Qed.

Section Block.
Context (records : list LineRecord) (anchor : nat) (final_limit min_indent : Z)
        (siblings header : bool).

Let n : nat := length records.
Let eff : list Z := compute_effective_indents records.
Definition eff_at (k : nat) : Z := default 0%Z (compute_effective_indents records !! k).

(** A line the expansion does not go past. *)
Definition blocks (k : nat) : Prop :=
  (eff_at k < min_indent)%Z ∨ eff_at k = min_indent ∧ siblings = false.

(** The deque is a run of lines around the anchor; a cursor is next to it, or
    stopped by a blocking line. *)
Definition cursors_ok (lo len : nat) (c : Cursors) : Prop :=
  c_out c = seq lo len ∧ (lo ≤ anchor < lo + len)%nat ∧ (lo + len ≤ n)%nat ∧
  (∀ k, (lo ≤ k < lo + len)%nat → k ≠ anchor → (min_indent ≤ eff_at k)%Z) ∧
  (c_i c = Z.of_nat lo - 1 ∨ c_i c = -1 ∧ blocks (lo - 1))%Z ∧
  (c_j c = (lo + len)%nat ∨ c_j c = n ∧ blocks (lo + len)).

Lemma eff_lookup k : (k < n)%nat → eff !! k = Some (eff_at k).
Proof.
  intros Hk. unfold eff_at. destruct (lookup_lt_is_Some_2 eff k) as [e E].
  - unfold eff, compute_effective_indents. by rewrite effective_length.
  - fold eff. by rewrite E.
Qed.

Lemma expand_up_ok lo len c :
  cursors_ok lo len c → (0 ≤ c_i c)%Z →
  ∃ c' b, expand_up records eff min_indent siblings header c = Some (c', b) ∧
    if b then cursors_ok (lo - 1) (S len) c' else cursors_ok lo len c' ∧ c_i c' = (-1)%Z.
Proof.
  intros (Ho & Ha & Hn & Hk & Hi & Hj) Hpos. destruct Hi as [Hi|[Hi _]]; [|lia].
  unfold expand_up. rewrite (proj2 (Z.ltb_ge _ _)) by lia.
  replace (Z.to_nat (c_i c)) with (lo - 1)%nat by lia.
  rewrite eff_lookup by (unfold n in *; lia). csimpl.
  assert (Hgrow : ∀ ci, (min_indent ≤ eff_at (lo - 1))%Z →
    cursors_ok (lo - 1) (S len)
      {| c_out := (lo - 1)%nat :: c_out c; c_i := c_i c - 1; c_j := c_j c; c_i_counter := ci;
         c_j_counter := c_j_counter c |}).
  { intros ci He. unfold cursors_ok. cbn [c_out c_i c_j].
    replace (lo - 1 + S len)%nat with (lo + len)%nat by lia.
    split; [rewrite Ho; cbn [seq]; by replace (S (lo - 1)) with lo by lia|].
    split; [lia|]. split; [done|]. split.
    - intros k Hk1 Hk2. destruct (decide (k = lo - 1)%nat) as [->|]; [done|]. apply Hk; [lia|done].
    - split; [left; lia|done]. }
  assert (Hstop : blocks (lo - 1) →
    cursors_ok lo len {| c_out := c_out c; c_i := -1; c_j := c_j c; c_i_counter := c_i_counter c;
                         c_j_counter := c_j_counter c |}).
  { intros Hb. unfold cursors_ok. cbn [c_out c_i c_j]. split_and!; try done; try lia. by right. }
  destruct (Z.ltb_spec (eff_at (lo - 1)) min_indent) as [Hlt|Hge].
  { eexists _, false. split; [done|]. split; [apply Hstop; by left|done]. }
  destruct (Z.eqb_spec (eff_at (lo - 1)) min_indent) as [He|He]; cbn [andb].
  - destruct siblings eqn:Es; cbn [negb]; [eexists _, true; split; [done|by apply Hgrow]|].
    destruct (lookup_lt_is_Some_2 records (lo - 1)) as [rec Er]; [unfold n in *; lia|].
    rewrite Er. csimpl. destruct (_ || _).
    + eexists _, true. split; [done|by apply Hgrow].
    + eexists _, false. split; [done|]. split; [apply Hstop; by right|done].
  - eexists _, true. split; [done|by apply Hgrow].
Qed.

Lemma expand_down_ok lo len c :
  cursors_ok lo len c → (c_j c < n)%nat →
  ∃ c' b, expand_down eff n min_indent siblings c = Some (c', b) ∧ c_i c' = c_i c ∧
    if b then cursors_ok lo (S len) c' else cursors_ok lo len c' ∧ c_j c' = n.
Proof.
  intros (Ho & Ha & Hn & Hk & Hi & Hj) Hlt. destruct Hj as [Hj|[Hj _]]; [|lia].
  unfold expand_down. rewrite (proj2 (Nat.leb_gt _ _)) by lia. rewrite Hj in *.
  rewrite eff_lookup by lia. csimpl.
  assert (Hgrow : ∀ cj, (min_indent ≤ eff_at (lo + len))%Z →
    cursors_ok lo (S len)
      {| c_out := c_out c ++ [(lo + len)%nat]; c_i := c_i c; c_j := S (lo + len);
         c_i_counter := c_i_counter c; c_j_counter := cj |}).
  { intros cj He. unfold cursors_ok. cbn [c_out c_i c_j].
    split; [rewrite Ho; by rewrite seq_S|]. split; [lia|]. split; [lia|]. split.
    - intros k Hk1 Hk2. destruct (decide (k = lo + len)%nat) as [->|]; [done|]. apply Hk; [lia|done].
    - split; [done|left; lia]. }
  assert (Hstop : ∀ cj, blocks (lo + len) →
    cursors_ok lo len {| c_out := c_out c; c_i := c_i c; c_j := n; c_i_counter := c_i_counter c;
                         c_j_counter := cj |}).
  { intros cj Hb. unfold cursors_ok. cbn [c_out c_i c_j]. split_and!; try done; try lia. by right. }
  destruct (Z.ltb_spec (eff_at (lo + len)) min_indent) as [Hl|Hge].
  { eexists _, false. split; [done|]. split; [done|]. split; [apply Hstop; by left|done]. }
  destruct (Z.eqb_spec (eff_at (lo + len)) min_indent) as [He|He]; cbn [andb].
  - destruct siblings eqn:Es; cbn [negb].
    { eexists _, true. split; [done|]. split; [done|by apply Hgrow]. }
    destruct (0 <? c_j_counter c)%Z.
    + eexists _, false. split; [done|]. split; [done|]. split; [apply Hstop; by right|done].
    + eexists _, true. split; [done|]. split; [done|by apply Hgrow].
  - eexists _, true. split; [done|]. split; [done|by apply Hgrow].
Qed.

(** The block cannot grow any further in either direction. *)
Definition stuck (lo len : nat) : Prop :=
  (lo = 0%nat ∨ blocks (lo - 1)) ∧ ((lo + len)%nat = n ∨ blocks (lo + len)).

Lemma expand_loop_ok fuel lo len c :
  cursors_ok lo len c → (Z.of_nat len ≤ final_limit)%Z →
  (final_limit - Z.of_nat len < Z.of_nat fuel)%Z →
  ∃ c' lo' len', expand_loop fuel records eff final_limit min_indent siblings header c = Some c' ∧
    cursors_ok lo' len' c' ∧ (Z.of_nat len' ≤ final_limit)%Z ∧
    (Z.of_nat len' = final_limit ∨ stuck lo' len').
Proof.
  revert lo len c. induction fuel as [|fuel IH]; intros lo len c Hc Hl Hf; [lia|].
  assert (Hlen : ∀ lo len c, cursors_ok lo len c → length (c_out c) = len).
  { intros ??? [-> _]. apply length_seq. }
  cbn [expand_loop]. rewrite (Hlen _ _ _ Hc).
  destruct (Z.leb_spec final_limit (Z.of_nat len)) as [Hle|Hlt].
  { exists c, lo, len. split_and!; try done. left. lia. }
  assert (Hup : ∃ c1 up lo1 len1,
    (if (0 <=? c_i c)%Z then expand_up records eff min_indent siblings header c
     else Some (c, false)) = Some (c1, up) ∧ cursors_ok lo1 len1 c1 ∧
    len1 = (len + if up then 1 else 0)%nat ∧ (if up then 0 ≤ c_i c else c_i c1 < 0)%Z).
  { destruct (Z.leb_spec 0 (c_i c)) as [Hp|Hp].
    - destruct (expand_up_ok lo len c Hc Hp) as (c1 & b & -> & H). destruct b.
      + exists c1, true, (lo - 1)%nat, (S len). split_and!; done || lia.
      + destruct H as [H1 H2]. exists c1, false, lo, len. split_and!; done || lia.
    - exists c, false, lo, len. split_and!; done || lia. }
  destruct Hup as (c1 & up & lo1 & len1 & -> & Hc1 & Hlen1 & Hup). csimpl.
  rewrite (Hlen _ _ _ Hc1).
  destruct ((0 <=? c_i c)%Z && (final_limit <=? Z.of_nat len1)%Z) eqn:Eb.
  { apply andb_prop in Eb as [_ Eb%Z.leb_le]. exists c1, lo1, len1.
    split_and!; try done; [destruct up; lia|left; destruct up; lia]. }
  assert (Hl1 : (Z.of_nat len1 < final_limit)%Z).
  { apply andb_false_iff in Eb as [Eb|Eb]; [|by apply Z.leb_gt].
    destruct up; [|lia]. apply Z.leb_gt in Eb. lia. }
  assert (Hdown : ∃ c2 down len2,
    (if (c_j c1 <? length records)%nat then expand_down eff (length records) min_indent siblings c1
     else Some (c1, false)) = Some (c2, down) ∧ cursors_ok lo1 len2 c2 ∧ c_i c2 = c_i c1 ∧
    len2 = (len1 + if down then 1 else 0)%nat ∧ (down = false → n ≤ c_j c2)%nat).
  { destruct (Nat.ltb_spec (c_j c1) (length records)) as [Hp|Hp].
    - destruct (expand_down_ok lo1 len1 c1 Hc1 Hp) as (c2 & b & E & Hci & H). fold n.
      rewrite E. destruct b.
      + exists c2, true, (S len1). split_and!; done || lia.
      + destruct H as [H1 H2]. exists c2, false, len1. split_and!; done || lia.
    - exists c1, false, len1. split_and!; done || lia. }
  destruct Hdown as (c2 & down & len2 & -> & Hc2 & Hci & Hlen2 & Hdown). csimpl.
  destruct up, down; cbn [negb andb]; try (apply (IH lo1 len2); [done|lia|lia]).
  exists c2, lo1, len2. split_and!; try done; [lia|]. right.
  specialize (Hdown eq_refl). destruct Hc2 as (_ & Ha & Hn & _ & Hi & Hj). split.
  - destruct Hi as [Hi|[_ Hi]]; [left; lia|by right].
  - destruct Hj as [Hj|[_ Hj]]; [left; lia|by right].
Qed.

End Block.

Lemma trim_empty_elem records l x : x ∈ trim_empty_lines records l → x ∈ l.
Proof.
  unfold trim_empty_lines. set (p := blank_at records).
  destruct (drop_while_suffix p l) as [pre E]. rewrite E at 2. intros H.
  apply elem_of_app. right. set (m := drop_while p l) in *.
  destruct (drop_while_suffix p (rev m)) as [pre' E'].
  apply list_elem_of_In, in_rev. rewrite E'. apply list_elem_of_In, elem_of_app. right.
  apply list_elem_of_In, in_rev. by apply list_elem_of_In.
Qed.

Lemma mapM_lookup_some {A} (l : list A) idxs :
  (∀ k, k ∈ idxs → k < length l)%nat → ∃ xs, mapM (λ k, l !! k) idxs = Some xs.
Proof.
  intros H. apply mapM_is_Some_2, Forall_forall. intros k Hk.
  by apply lookup_lt_is_Some_2, H.
Qed.

(** ** Properties *)

(** A slice read of a readable file returns the lines from [offset] on, at
    most [limit] of them, joined and numbered as in the file, with the number
    of lines of the whole file; an offset behind the last line is an error.
    Every shown line is the longest prefix of at most 500 bytes of its decoded
    text. *)
Theorem read_file_slice `{AFS : AsyncFs} fs input file_bytes
    (Hm : in_mode input = Slice) (Ho : (1 ≤ in_offset input)%Z) (Hl : (1 ≤ in_limit input)%Z)
    (Hp : is_absolute (in_file_path input) = true)
    (Hr : read_file fs (in_file_path input) = Ok file_bytes) :
  let ls := split_lines file_bytes in
  run_read_file fs input
  = Some (if (Z.of_nat (length ls) <? in_offset input)%Z
          then FileReadError (lit "offset exceeds file length")
          else OutFileContent
            {| fc_content := join [NL] (take (Z.to_nat (in_limit input))
                               (drop (Z.to_nat (in_offset input - 1)) (shown 0 ls)));
               fc_absolute_path := in_file_path input; fc_offset := in_offset input;
               fc_limit := in_limit input; fc_raw_output := from_utf8_lossy file_bytes;
               fc_total_lines := Z.of_nat (length ls) |}) ∧
  Forall (λ l, longest_prefix 500 (format_display l) (from_utf8_lossy l)) ls.
Proof.
  intros ls. split; [|apply Forall_forall; intros l _; apply format_display_prefix].
  unfold run_read_file. rewrite (proj2 (Z.eqb_neq (in_offset input) 0)) by lia.
  rewrite (proj2 (Z.eqb_neq (in_limit input) 0)) by lia. rewrite Hp, Hr, Hm. cbn [negb].
  rewrite read_slice_spec by done. fold ls. rewrite total_lines_split. fold ls.
  destruct (Z.of_nat (length ls) <? in_offset input)%Z; reflexivity.
Qed.

(** An indentation read always returns.  It fails only for an anchor
    outside the file or a [max_lines] of 0.  Otherwise the lines come, blank
    ends removed, from one contiguous run around the anchor that respects both
    limits, has no line indented less than the threshold (the anchor apart),
    and is as long as the limits allow or stopped on both sides by the file's
    ends or a line at or below the threshold. *)
Theorem read_block_contiguous bs offset limit options
    (Ho : (1 ≤ offset)%Z) (Hl : (1 ≤ limit)%Z)
    (Ha : ∀ a, anchor_line options = Some a → (0 ≤ a)%Z)
    (Hm : ∀ m, max_lines options = Some m → (0 ≤ m)%Z) :
  let records := collect_lines bs in
  let n := length records in
  let anchor := default offset (anchor_line options) in
  let a := Z.to_nat (anchor - 1) in
  let final := Z.min (Z.min limit (default limit (max_lines options))) (Z.of_nat n) in
  let threshold := min_indent_for (eff_at records a) (max_levels options) in
  ∃ r, read_block bs offset limit options = Some r ∧
  match r with
  | Err _ => records ≠ [] ∧
      (anchor = 0 ∨ (Z.of_nat n < anchor)%Z ∨ max_lines options = Some 0)%Z
  | Ok ls => records = [] ∧ ls = [] ∨
      ∃ lo len block, (lo ≤ a < lo + len)%nat ∧ (lo + len ≤ n)%nat ∧ (Z.of_nat len ≤ final)%Z ∧
        (∀ k, (lo ≤ k < lo + len)%nat → k ≠ a → (threshold ≤ eff_at records k)%Z) ∧
        (Z.of_nat len = final ∨ stuck records threshold (include_siblings options) lo len) ∧
        mapM (λ k, records !! k)
          (if (final =? 1)%Z then [a] else trim_empty_lines records (seq lo len)) = Some block ∧
        ls = map format_record block
  end.
Proof.
  intros records n anchor a final threshold. unfold read_block. fold records.
  destruct (is_empty records) eqn:Er; [by eexists; split; [done|]; left; destruct records|].
  assert (Hne : records ≠ []) by (by destruct records). fold anchor n.
  destruct ((anchor =? 0)%Z || (Z.of_nat n <? anchor)%Z) eqn:Eo.
  { eexists. split; [reflexivity|]. split; [done|].
    apply orb_prop in Eo as [Eo%Z.eqb_eq|Eo%Z.ltb_lt]; [by left|right; by left]. }
  apply orb_false_iff in Eo as [Eo1%Z.eqb_neq Eo2%Z.ltb_ge].
  destruct (Z.eqb_spec (default limit (max_lines options)) 0) as [Eg|Eg].
  { eexists. split; [reflexivity|]. split; [done|]. right. right.
    destruct (max_lines options) as [m|]; simpl in Eg; [by subst|lia]. }
  assert (Hanc : (0 ≤ anchor)%Z).
  { unfold anchor. destruct (anchor_line options) as [x|]; simpl; [by apply Ha|lia]. }
  assert (Hg : (1 ≤ default limit (max_lines options))%Z).
  { destruct (max_lines options) as [m|]; simpl in *; [specialize (Hm m eq_refl)|]; lia. }
  assert (Han : (a < n)%nat) by (unfold a; lia). fold a final.
  rewrite (eff_lookup records) by done. remember (S n) as fuel eqn:Hfuel.
  cbn [mbind option_bind]. fold threshold.
  assert (Hf : (1 ≤ final)%Z) by (unfold final; lia).
  destruct (Z.eqb_spec final 1) as [E1|E1].
  { destruct (lookup_lt_is_Some_2 records a Han) as [rec Erec]. rewrite Erec. csimpl.
    eexists. split; [reflexivity|]. right. exists a, 1%nat, [rec].
    split_and!; first [lia|intros; lia|left; lia|by rewrite Erec|done]. }
  destruct (expand_loop_ok records a final threshold (include_siblings options)
    (include_header options) fuel a 1
    {| c_out := [a]; c_i := Z.of_nat a - 1; c_j := S a; c_i_counter := 0; c_j_counter := 0 |})
    as (c & lo & len & -> & Hc & Hlen & Hst).
  - unfold cursors_ok. cbn [c_out c_i c_j]. fold n.
    split_and!; first [lia|done|by left|left; lia|intros; lia].
  - lia.
  - unfold final. lia.
  - cbn [mbind option_bind]. destruct Hc as (Hout & Hin & Hn & Hk & _). rewrite Hout.
    destruct (mapM_lookup_some records (trim_empty_lines records (seq lo len))) as [block Eb].
    { intros k Hk'. apply trim_empty_elem, elem_of_seq in Hk'. fold n in Hn |- *. lia. }
    rewrite Eb. csimpl. eexists. split; [reflexivity|]. right. by exists lo, len, block.
Qed.

(** ** Examples *)

Definition demo_source : bytes :=
  as_bytes (join [NL] (map lit
    ["mod m {"; "    fn f() {"; "        a"; ""; "        b"; "    }"; ""; "    fn g() {}"; "}"; ""]%string)).
Definition demo_input (mode : ReadMode) (offset limit : Z) : CodexReadFileInput :=
  {| in_file_path := lit "/w/m.rs"; in_offset := offset; in_limit := limit; in_mode := mode;
     in_indentation := Some {| arg_anchor_line := None; arg_max_levels := 1;
       arg_include_siblings := false; arg_include_header := true; arg_max_lines := None |} |}.
Definition demo_disk : gmap str bytes := {[ lit "/w/m.rs" := demo_source ]}.

Lemma read_file_slice_witness :
  run_read_file (AFS := memory_fs) demo_disk (demo_input Slice 2 3)
  = Some (OutFileContent
      {| fc_content := join [NL] (map lit ["L2:     fn f() {"; "L3:         a"; "L4: "]%string);
         fc_absolute_path := lit "/w/m.rs"; fc_offset := 2; fc_limit := 3;
         fc_raw_output := from_utf8_lossy demo_source; fc_total_lines := 9 |}).
Proof.
  destruct (read_file_slice (AFS := memory_fs) demo_disk (demo_input Slice 2 3) demo_source)
    as [H _]; [reflexivity|cbn; lia|cbn; lia|vm_compute; reflexivity|vm_compute; reflexivity|].
  etransitivity; [exact H|]. vm_compute. reflexivity.
Defined.

Example demo_block :
  read_block demo_source 3 10 (options_of (default indentation_default
    (in_indentation (demo_input Indentation 3 10))))
  = Some (Ok (map lit ["L2:     fn f() {"; "L3:         a"; "L4: "; "L5:         b"; "L6:     }"]%string)).
Proof. by vm_compute. Qed.

Lemma read_block_contiguous_witness :
  ∃ lo len block, (lo ≤ 2 < lo + len)%nat ∧
    mapM (λ k, collect_lines demo_source !! k)
      (trim_empty_lines (collect_lines demo_source) (seq lo len)) = Some block ∧
    map lit ["L2:     fn f() {"; "L3:         a"; "L4: "; "L5:         b"; "L6:     }"]%string
    = map format_record block.
Proof.
  destruct (read_block_contiguous demo_source 3 10
    (options_of (default indentation_default (in_indentation (demo_input Indentation 3 10)))))
    as (r & E & H); [lia|lia|discriminate|discriminate|].
  rewrite demo_block in E. injection E as <-.
  destruct H as [[_ H]|(lo & len & block & H1 & _ & _ & _ & _ & H2 & H3)]; [discriminate H|].
  exists lo, len, block. split; [exact H1|]. split; [exact H2|exact H3].
Defined.

(** A final newline ends the last line; it does not start an empty one. *)
Example no_trailing_entry :
  split_lines (as_bytes (lit "a" ++ [NL])) = [as_bytes (lit "a")].
Proof. by vm_compute. Qed.

(** [raw_output] is the whole file, whatever range is read. *)
Theorem raw_output_is_whole_file `{AFS : AsyncFs} fs input fc file_bytes :
  run_read_file fs input = Some (OutFileContent fc) →
  read_file fs (in_file_path input) = Ok file_bytes →
  fc_raw_output fc = from_utf8_lossy file_bytes.
Proof.
  unfold run_read_file. intros H Hr. rewrite Hr in H.
  repeat (case_match; [discriminate H|]).
  destruct (match in_mode input with Slice => _ | Indentation => _ end) as [[ls|e]|];
    cbn in H; [|discriminate H|discriminate H]. by injection H as <-.
Qed.

(** A level count whose width overflows [usize] wraps to a threshold at the
    anchor's own indentation instead of lifting it. *)
Example max_levels_wraps :
  min_indent_for 8 4611686018427387904 = 8%Z ∧ min_indent_for 8 2 = 0%Z.
Proof. by vm_compute. Qed.
