(* ===== verification/Permission.v ===== *)
(** * Permissions: data

    What a tool call asks for and what the permission system answers:
    [xai-grok-workspace/src/permission/types.rs], the prompt outcomes and tool
    names of [prompter.rs], the ranking of decisions of [shell_access.rs], and
    the domain allowlist of [web_fetch/domain.rs].

    Crates outside the repository are the class [PermApi]: [glob] (compiled
    patterns), [url], the JSON arguments of an MCP call, and the Unicode tables
    behind [str::to_lowercase]. *)
From S2P Require Import Prelude.
From S2P Require Import RustStr.
From S2P Require Import StrSearch.

Class PermApi : Type := {
  Json : Type;
  json_is_null : Json → bool;
  json_compact : Json → str;
  (** [serde_json::json!({ "command": cmd }).to_string()] *)
  json_command : str → str;
  (** [serde_json::from_str]; [get(key).is_some()]; [get(key)] as a boolean *)
  json_from_str : str → option Json;
  json_has : Json → str → bool;
  json_get_bool : Json → str → option bool;
  Pattern : Type;
  glob_new : str → option Pattern;
  (** [matches_with]; the flag is [require_literal_separator] *)
  glob_matches_with : Pattern → str → bool → bool;
  Url : Type;
  url_parse : str → option Url;
  url_host_str : Url → option str;
  url_path : Url → str;
  to_lowercase : str → str;
}.

Section data.
Context {PA : PermApi}.

Inductive AccessKind : Type :=
| Read (path : option str)
| Grep (path glob : option str)
| Edit (path : str)
| Bash (cmd : str)
| MCPTool (name : str) (input : Json)
| WebFetch (url : str)
| WebSearch (query : str).

Inductive Decision : Type :=
| Allow
| Ask
| FollowupMessage (msg : str)
| Reject (reason : str)
| PolicyDeny (reason : str)
| Cancelled.

Inductive EditPolicy : Type := EditAsk | EditAllow | EditReject.

Definition edit_policy_serialize (p : EditPolicy) : str :=
  match p with EditAsk => lit "ask" | EditAllow => lit "allow" | EditReject => lit "reject" end.
(** [None] is the [unknown_variant] error. *)
Definition edit_policy_visit_str (v : str) : option EditPolicy :=
  if str_eqb v (lit "ask") then Some EditAsk
  else if str_eqb v (lit "allow") then Some EditAllow
  else if str_eqb v (lit "reject") then Some EditReject
  else None.

Inductive PromptPolicy : Type := PromptAsk | PromptDeny | PromptAuto.
Inductive PatternMode : Type := Glob | Domain.
Inductive RuleAction : Type := ActionAllow | ActionDeny | ActionAsk.
Inductive ToolFilter : Type :=
| AnyTool | BashTool | EditTool | ReadTool | GrepTool | McpTool | WebFetchTool | WebSearchTool.

Record PermissionRule : Type := {
  action : RuleAction;
  tool : ToolFilter;
  pattern : option str;
  pattern_mode : PatternMode;
}.

Record PermissionConfig : Type := {
  rules : list PermissionRule;
  prompt_policy : PromptPolicy;
}.
Definition PermissionConfig_new (rs : list PermissionRule) : PermissionConfig :=
  {| rules := rs; prompt_policy := PromptAsk |}.

(** ** Prompt outcomes ([prompter.rs]) *)

Inductive PromptOutcome : Type :=
| AllowOnce
| AllowAlways
| AllowEditsForSession
| AllowAlwaysBashCommand (prefix : str)
| AllowAlwaysDomain (domain : str)
| AllowAlwaysMcpTool (tool_name : str)
| AllowAlwaysMcpServer (server_prefix : str)
| RejectOnce
| RejectAlwaysBashCommand (prefix : str)
| OutcomeCancelled
| OutcomeFollowupMessage (msg : str)
| OutcomeError (e : str).

Definition tool_name_for_access (access : AccessKind) : str :=
  match access with
  | Read _ => lit "read_file"
  | Grep _ _ => lit "grep"
  | Edit _ => lit "search_replace"
  | Bash _ => lit "run_terminal_command"
  | MCPTool name _ => lit "mcp:" ++ name
  | WebFetch _ => lit "web_fetch"
  | WebSearch _ => lit "web_search"
  end.

(** ** Combining decisions ([shell_access.rs]) *)

Definition decision_rank (d : Decision) : nat :=
  match d with
  | Reject _ | PolicyDeny _ => 3
  | Ask => 2
  | Allow => 1
  | FollowupMessage _ | Cancelled => 0
  end.

Definition combine_decisions (a b : option Decision) : option Decision :=
  match a, b with
  | None, other | other, None => other
  | Some a, Some b => Some (if decision_rank b <=? decision_rank a then a else b)
  end.

(** ** Domains ([web_fetch/domain.rs]) *)

Definition DOT : char := 46.

Definition normalize_domain (raw : str) : str :=
  let s := trim_end_matches (λ c, (c =? DOT)%Z)
             (trim_end_matches (λ c, (c =? SLASH)%Z) (trim raw)) in
  to_lowercase (default s (strip_prefix (lit "www.") s)).

Inductive HostEntry : Type :=
| AnyPath
| PathPrefixes (prefixes : list str).

Definition DomainMatcher : Type := gmap str HostEntry.

(** One entry of the raw allowlist, as an iteration of the loop of [new]. *)
Definition add_entry (entries : DomainMatcher) (raw : str) : DomainMatcher :=
  let normalized := normalize_domain raw in
  if is_empty normalized then entries
  else match find normalized [SLASH] with
  | None => <[normalized := AnyPath]> entries
  | Some i =>
      let host := take i normalized in
      let raw_path := drop i normalized in
      match entries !! host with
      | Some AnyPath => entries
      | existing =>
          let prefix := trim_end_matches (λ c, (c =? SLASH)%Z) raw_path in
          if is_empty prefix || str_eqb prefix [SLASH] then <[host := AnyPath]> entries
          else
            let prefix := if starts_with prefix [SLASH] then prefix else SLASH :: prefix in
            match existing with
            | Some (PathPrefixes v) =>
                <[host := PathPrefixes (if existsb (str_eqb prefix) v then v else v ++ [prefix])]>
                  entries
            | _ => <[host := PathPrefixes [prefix]]> entries
            end
      end
  end.
Definition DomainMatcher_new (raw_entries : list str) : DomainMatcher :=
  foldl add_entry ∅ raw_entries.

(** [None]: the URL is permitted.  [Some h]: [DomainNotAllowed(h)]. *)
Definition DomainMatcher_check (m : DomainMatcher) (url : Url) : option str :=
  match url_host_str url with
  | None => Some []
  | Some raw_host =>
      let host := normalize_domain raw_host in
      match m !! host with
      | Some AnyPath => None
      | Some (PathPrefixes prefixes) =>
          let url_path := to_lowercase (url_path url) in
          if existsb (λ prefix, match strip_prefix prefix url_path with
                                | Some [] => true
                                | Some (c :: _) => (c =? SLASH)%Z
                                | None => false
                                end) prefixes
          then None else Some host
      | None => Some host
      end
  end.

End data.

#[export] Instance Decision_eq_dec : EqDecision Decision.
Proof. solve_decision. Defined.
#[export] Instance RuleAction_eq_dec : EqDecision RuleAction.
Proof. solve_decision. Defined.
#[export] Instance ToolFilter_eq_dec : EqDecision ToolFilter.
Proof. solve_decision. Defined.
#[export] Instance PatternMode_eq_dec : EqDecision PatternMode.
Proof. solve_decision. Defined.
#[export] Instance PromptPolicy_eq_dec : EqDecision PromptPolicy.
Proof. solve_decision. Defined.

(** ** The ranking of decisions

    [combine_decisions] keeps the stronger side; what matters to its clients is
    the rank of the result. *)

Definition rank (d : option Decision) : nat := from_option decision_rank 0%nat d.

Lemma rank_combine a b : rank (combine_decisions a b) = Nat.max (rank a) (rank b).
Proof.
  destruct a as [a|], b as [b|]; cbn; try lia.
  destruct (Nat.leb_spec (decision_rank b) (decision_rank a)); cbn; lia.
Qed.

(** A decision that only escalates: what the bash gates return. *)
Definition escalation (d : option Decision) : Prop :=
  match d with
  | None | Some Ask | Some (Reject _) => True
  | _ => False
  end.

Lemma escalation_combine a b :
  escalation a → escalation b → escalation (combine_decisions a b).
Proof.
  destruct a as [a|], b as [b|]; cbn; try done.
  by destruct (decision_rank b <=? decision_rank a)%nat.
Qed.

(** Among escalations a rank of 3 is a rejection, and a rank of 2 an [Ask]. *)
Lemma combine_Reject_l r b : combine_decisions (Some (Reject r)) b = Some (Reject r).
Proof. by destruct b as [[]|]. Qed.

Lemma escalation_rank3 d : escalation d → rank d = 3%nat → ∃ r, d = Some (Reject r).
Proof. destruct d as [[]|]; cbn; try done; eauto. Qed.
Lemma escalation_rank2 d : escalation d → rank d = 2%nat → d = Some Ask.
Proof. destruct d as [[]|]; cbn; done. Qed.
