(* ===== verification/PermissionRules.v ===== *)
(** * Permission rules: the rule-string language

    [xai-grok-workspace/src/permission/rules.rs]: [parse_permission_rule] with
    its escapes and idioms, and the [defaultMode] vocabulary.  The theorem
    [parse_rule_text] is the round trip with a printer of rules.

    Positions count characters where the source counts bytes: the searched
    bytes are ASCII, so both cut the text at the same places. *)
From S2P Require Import Prelude.
From S2P Require Import RustStr.
From S2P Require Import StrSearch.
From S2P Require Import Permission.

(** ** Default modes *)

Inductive DefaultPermissionMode : Type :=
| ModeDefault | AcceptEdits | Plan | Auto | DontAsk | BypassPermissions.

Definition mode_from_str (s : str) : result DefaultPermissionMode str :=
  if str_eqb s (lit "default") then Ok ModeDefault
  else if str_eqb s (lit "acceptEdits") then Ok AcceptEdits
  else if str_eqb s (lit "plan") then Ok Plan
  else if str_eqb s (lit "auto") then Ok Auto
  else if str_eqb s (lit "dontAsk") then Ok DontAsk
  else if str_eqb s (lit "bypassPermissions") then Ok BypassPermissions
  else Err s.

Record DefaultModeEffects : Type := {
  eff_prompt_policy : PromptPolicy;
  accept_edits : bool;
  bypass_permissions : bool;
}.

Definition effects (m : DefaultPermissionMode) : DefaultModeEffects :=
  match m with
  | AcceptEdits =>
      {| eff_prompt_policy := PromptAsk; accept_edits := true; bypass_permissions := false |}
  | BypassPermissions =>
      {| eff_prompt_policy := PromptAsk; accept_edits := false; bypass_permissions := true |}
  | ModeDefault | Plan =>
      {| eff_prompt_policy := PromptAsk; accept_edits := false; bypass_permissions := false |}
  | DontAsk =>
      {| eff_prompt_policy := PromptDeny; accept_edits := false; bypass_permissions := false |}
  | Auto =>
      {| eff_prompt_policy := PromptAuto; accept_edits := false; bypass_permissions := false |}
  end.

(** ** The parser *)

Inductive RuleParseError : Type :=
| UnsupportedToolPrefix (prefix : str)
| UnknownToolPrefix (prefix : str)
| MalformedRule (detail : str).

Definition tool_name_to_filter (name : str) : option ToolFilter :=
  if str_eqb name (lit "Bash") then Some BashTool
  else if one_of ["Read"; "NotebookRead"] name then Some ReadTool
  else if one_of ["Edit"; "Write"; "NotebookEdit"] name then Some EditTool
  else if str_eqb name (lit "MCPTool") then Some McpTool
  else if one_of ["Grep"; "Glob"] name then Some GrepTool
  else if str_eqb name (lit "WebFetch") then Some WebFetchTool
  else if str_eqb name (lit "WebSearch") then Some WebSearchTool
  else None.

(** The number of backslashes right before [pos], counted by going back. *)
Fixpoint backslashes_before (s : str) (j : nat) : nat :=
  match j with
  | O => 0
  | S j' => if bool_decide (s !! j' = Some BACKSLASH) then S (backslashes_before s j') else 0
  end.
Definition is_unescaped (s : str) (pos : nat) : bool := Nat.even (backslashes_before s pos).

Definition unescaped_at (s : str) (target : char) (i : nat) : bool :=
  bool_decide (s !! i = Some target) && is_unescaped s i.
Definition find_first_unescaped (s : str) (target : char) : option nat :=
  List.find (unescaped_at s target) (seq 0 (length s)).
Definition find_last_unescaped (s : str) (target : char) : option nat :=
  List.find (unescaped_at s target) (rev (seq 0 (length s))).

Definition OPEN : char := 40.
Definition CLOSE : char := 41.
Definition STAR : char := 42.

Definition unescape_rule_content (s : str) : str :=
  if negb (contains s [BACKSLASH]) then s
  else replace [BACKSLASH; BACKSLASH] [BACKSLASH]
         (replace [BACKSLASH; CLOSE] [CLOSE]
            (replace [BACKSLASH; OPEN] [OPEN] s)).

Definition strip_domain_prefix (pattern : str) : str * PatternMode :=
  match strip_prefix (lit "domain:") pattern with
  | Some domain => (domain, Domain)
  | None => (pattern, Glob)
  end.

Definition strip_bash_colon_wildcard (pattern : str) : str :=
  default pattern (strip_suffix (lit ":*") pattern).

Definition parse_permission_rule (rule : str) (action : RuleAction)
  : result PermissionRule RuleParseError :=
  let rule := trim rule in
  match find_first_unescaped rule OPEN with
  | Some open_paren =>
      let prefix_trimmed := trim (take open_paren rule) in
      let content_and_close := drop (open_paren + 1) rule in
      match find_last_unescaped content_and_close CLOSE with
      | None => Err (MalformedRule (lit "missing closing parenthesis"))
      | Some close_paren =>
          let raw_content := trim (take close_paren content_and_close) in
          let pattern :=
            if is_empty raw_content || str_eqb raw_content [STAR] then []
            else unescape_rule_content raw_content in
          match tool_name_to_filter prefix_trimmed with
          | None =>
              if str_eqb prefix_trimmed (lit "EnterWorktree")
              then Err (UnsupportedToolPrefix prefix_trimmed)
              else Err (UnknownToolPrefix prefix_trimmed)
          | Some tool =>
              let pattern :=
                if bool_decide (tool = BashTool) then strip_bash_colon_wildcard pattern
                else pattern in
              let '(pattern, pattern_mode) := strip_domain_prefix pattern in
              Ok {| action := action; tool := tool;
                    pattern := if is_empty pattern then None else Some pattern;
                    pattern_mode := pattern_mode |}
          end
      end
  | None =>
      match tool_name_to_filter rule with
      | Some tool =>
          Ok {| action := action; tool := tool; pattern := None; pattern_mode := Glob |}
      | None =>
          Ok {| action := action; tool := AnyTool;
                pattern := if is_empty rule then None else Some rule;
                pattern_mode := Glob |}
      end
  end.

(** ** Printing rules *)

(** The escaping that [unescape_rule_content] reverses. *)
Fixpoint escape_content (s : str) : str :=
  match s with
  | [] => []
  | c :: s' =>
      if (c =? BACKSLASH)%Z || (c =? OPEN)%Z || (c =? CLOSE)%Z
      then BACKSLASH :: c :: escape_content s'
      else c :: escape_content s'
  end.

Definition filter_name (f : ToolFilter) : str :=
  match f with
  | AnyTool => []
  | BashTool => lit "Bash" | EditTool => lit "Edit" | ReadTool => lit "Read"
  | GrepTool => lit "Grep" | McpTool => lit "MCPTool"
  | WebFetchTool => lit "WebFetch" | WebSearchTool => lit "WebSearch"
  end.

(** What stands between the parentheses, before escaping.  A Bash pattern is
    printed with the [:*] idiom, whose removal makes its text opaque. *)
Definition rule_content (r : PermissionRule) : str :=
  match pattern r with
  | None => []
  | Some p =>
      match pattern_mode r with Domain => lit "domain:" | Glob => [] end
      ++ p ++ match tool r with BashTool => lit ":*" | _ => [] end
  end.
Definition rule_text (r : PermissionRule) : str :=
  match tool r, pattern r with
  | AnyTool, Some p => p
  | AnyTool, None => []
  | t, _ => filter_name t ++ [OPEN] ++ escape_content (rule_content r) ++ [CLOSE]
  end.

(** The rules the language can express: no pattern that is empty or not
    trimmed, a [*] and a pattern that reads as a domain mark only where they
    cannot be mistaken, and for a rule without a tool no parenthesis and no
    tool name. *)
Definition expressible (r : PermissionRule) : bool :=
  match pattern r with
  | None => bool_decide (pattern_mode r = Glob)
  | Some p =>
      negb (is_empty p) && str_eqb (trim (rule_content r)) (rule_content r)
      && match tool r with
         | AnyTool =>
             bool_decide (pattern_mode r = Glob) && negb (existsb (Z.eqb OPEN) p)
             && negb (bool_decide (is_Some (tool_name_to_filter p)))
         | _ =>
             negb (str_eqb (rule_content r) [STAR])
             && (bool_decide (pattern_mode r = Domain) || negb (starts_with p (lit "domain:")))
         end
  end.

(** ** Escapes are undone *)

Definition special (c : char) : bool :=
  (c =? BACKSLASH)%Z || (c =? OPEN)%Z || (c =? CLOSE)%Z.

Lemma escape_cons c s :
  escape_content (c :: s) = (if special c then [BACKSLASH; c] else [c]) ++ escape_content s.
Proof. unfold special. cbn [escape_content]. by destruct (_ || _). Qed.

Lemma escape_app s t : escape_content (s ++ t) = escape_content s ++ escape_content t.
Proof.
  induction s as [|c s IH]; [done|].
  rewrite <- app_comm_cons, !escape_cons, IH. by rewrite app_assoc.
Qed.

(** An escape with a set [sp] of characters, and one replacement that takes a
    character [a] out of the set.  [unescape_rule_content] is three of them. *)
Fixpoint escape_with (sp : char → bool) (s : str) : str :=
  match s with
  | [] => []
  | c :: s' => (if sp c then [BACKSLASH; c] else [c]) ++ escape_with sp s'
  end.

Lemma escape_with_head sp s c :
  head (escape_with sp s) = Some c → c = BACKSLASH ∨ sp c = false.
Proof. destruct s as [|x s]; [done|]. cbn. destruct (sp x) eqn:Hx; cbn; naive_solver. Qed.

Lemma replace_no_match p r c s :
  starts_with (c :: s) p = false → replace p r (c :: s) = c :: replace p r s.
Proof. intros H. unfold replace. cbn [replace_from]. by rewrite H. Qed.

Lemma starts_with_two s a b :
  starts_with s [a; b] = bool_decide (s !! 0%nat = Some a ∧ s !! 1%nat = Some b).
Proof.
  unfold starts_with. symmetry. destruct s as [|x [|y s]]; cbn [strip_prefix].
  - apply bool_decide_eq_false_2. intros [H _]. discriminate H.
  - destruct (Z.eqb_spec a x); apply bool_decide_eq_false_2; intros [_ H]; discriminate H.
  - destruct (Z.eqb_spec a x) as [<-|Hx]; [destruct (Z.eqb_spec b y) as [<-|Hy]|].
    + by apply bool_decide_eq_true_2.
    + apply bool_decide_eq_false_2. intros [_ [= H]]. congruence.
    + apply bool_decide_eq_false_2. intros [[= H] _]. congruence.
Qed.

Lemma replace_two_match a b r s : replace [a; b] r (a :: b :: s) = r ++ replace [a; b] r s.
Proof.
  unfold replace. cbn [replace_from]. rewrite starts_with_two, bool_decide_eq_true_2 by done.
  done.
Qed.

Lemma replace_escape_with (sp : char → bool) a s :
  sp a = true → (a ≠ BACKSLASH → sp BACKSLASH = true) →
  replace [BACKSLASH; a] [a] (escape_with sp s)
    = escape_with (λ c, sp c && negb (c =? a)%Z) s.
Proof.
  intros Ha Hb. induction s as [|c s IH]; [done|]. cbn [escape_with].
  destruct (sp c) eqn:Hc; cbn [andb].
  - cbn [app]. destruct (Z.eqb_spec c a) as [->|Hne]; cbn [negb app].
    + by rewrite replace_two_match, IH.
    + rewrite replace_no_match.
      2: { rewrite starts_with_two. apply bool_decide_eq_false_2. intros [_ [= ?]]. congruence. }
      rewrite replace_no_match; [by rewrite IH|].
      rewrite starts_with_two. apply bool_decide_eq_false_2. intros [[= ->] Hhd].
      change ((BACKSLASH :: escape_with sp s) !! 1%nat) with (escape_with sp s !! 0%nat) in Hhd.
      rewrite <- head_lookup in Hhd. apply escape_with_head in Hhd as [->|Hf]; congruence.
  - cbn [app]. rewrite replace_no_match; [by rewrite IH|].
    rewrite starts_with_two. apply bool_decide_eq_false_2. intros [[= ->] _].
    destruct (decide (a = BACKSLASH)) as [->|Hn]; [congruence|].
    rewrite Hb in Hc by done. done.
Qed.

Lemma escape_with_none sp s : (∀ c, sp c = false) → escape_with sp s = s.
Proof. intros H. induction s as [|c s IH]; [done|]. cbn. by rewrite H, IH. Qed.

Lemma escape_with_ext sp sp' s :
  (∀ c, sp c = sp' c) → escape_with sp s = escape_with sp' s.
Proof. intros H. induction s as [|c s IH]; [done|]. cbn. by rewrite H, IH. Qed.

Lemma escape_content_with s : escape_content s = escape_with special s.
Proof. induction s as [|c s IH]; [done|]. by rewrite escape_cons, IH. Qed.

Lemma contains_backslash s : contains s [BACKSLASH] = existsb (Z.eqb BACKSLASH) s.
Proof.
  unfold contains. induction s as [|c s IH]; [done|].
  cbn [find existsb]. unfold starts_with. cbn [strip_prefix].
  destruct (BACKSLASH =? c)%Z; [done|]. cbn [orb]. rewrite <- IH. by destruct (find s _).
Qed.

Lemma escape_content_plain s :
  existsb (Z.eqb BACKSLASH) (escape_content s) = false → escape_content s = s.
Proof.
  induction s as [|c s IH]; [done|]. rewrite escape_cons.
  destruct (special c); cbn [app existsb]; [done|].
  intros [_ H]%orb_false_iff. by rewrite IH.
Qed.

Lemma unescape_escape s : unescape_rule_content (escape_content s) = s.
Proof.
  unfold unescape_rule_content. rewrite contains_backslash.
  destruct (existsb _ (escape_content s)) eqn:Hb; cbn [negb];
    [|by apply escape_content_plain].
  rewrite escape_content_with, replace_escape_with by done.
  rewrite replace_escape_with by done.
  rewrite replace_escape_with by (try done; reflexivity).
  apply escape_with_none. intros c. unfold special.
  destruct (c =? BACKSLASH)%Z, (c =? OPEN)%Z, (c =? CLOSE)%Z; done.
Qed.

(** ** Finding the parentheses *)

Lemma find_app {A} (f : A → bool) l1 x l2 :
  Forall (λ y, f y = false) l1 → f x = true → List.find f (l1 ++ x :: l2) = Some x.
Proof.
  intros Hl Hx. induction Hl as [|y l1 Hy Hl IH]; cbn [app List.find].
  - by rewrite Hx.
  - by rewrite Hy.
Qed.

Lemma backslashes_before_app s t j :
  (j ≤ length s)%nat → backslashes_before (s ++ t) j = backslashes_before s j.
Proof.
  induction j as [|j IH]; intros Hj; [done|]. cbn [backslashes_before].
  rewrite lookup_app_l, IH by lia. done.
Qed.

Lemma backslashes_before_none s j :
  BACKSLASH ∉ s → backslashes_before s j = 0%nat.
Proof.
  intros Hs. destruct j as [|j]; [done|]. cbn [backslashes_before].
  rewrite bool_decide_eq_false_2; [done|]. intros H. by apply list_elem_of_lookup_2 in H.
Qed.

(** An escape ends in an even number of backslashes. *)
Lemma escape_even p :
  Nat.even (backslashes_before (escape_content p) (length (escape_content p))) = true.
Proof.
  induction p as [|c p IH] using rev_ind; [done|].
  assert (escape_content [c] = if special c then [BACKSLASH; c] else [c]) as Hc
    by (rewrite escape_cons; by rewrite app_nil_r).
  rewrite escape_app, Hc. set (s := escape_content p) in *.
  destruct (special c) eqn:Hsp; rewrite length_app; cbn [length].
  - replace (length s + 2)%nat with (S (S (length s))) by lia. cbn [backslashes_before].
    rewrite lookup_app_r by lia. replace (S (length s) - length s)%nat with 1%nat by lia.
    cbn [lookup list_lookup]. destruct (decide (c = BACKSLASH)) as [->|Hne].
    + rewrite bool_decide_eq_true_2 by done. rewrite lookup_app_r, Nat.sub_diag by lia.
      rewrite bool_decide_eq_true_2 by done. rewrite backslashes_before_app by lia. done.
    + by rewrite bool_decide_eq_false_2 by (intros [= ?]; congruence).
  - replace (length s + 1)%nat with (S (length s)) by lia. cbn [backslashes_before].
    rewrite lookup_app_r, Nat.sub_diag by lia.
    rewrite bool_decide_eq_false_2; [done|]. intros [= ->]. discriminate Hsp.
Qed.

Lemma find_last_close p :
  find_last_unescaped (escape_content p ++ [CLOSE]) CLOSE = Some (length (escape_content p)).
Proof.
  set (s := escape_content p). unfold find_last_unescaped.
  rewrite length_app. cbn [length]. rewrite Nat.add_1_r, seq_S, rev_app_distr. cbn [rev app].
  cbn [List.find]. unfold unescaped_at at 1. rewrite Nat.add_0_l.
  rewrite lookup_app_r, Nat.sub_diag by lia. rewrite bool_decide_eq_true_2 by done.
  unfold is_unescaped. rewrite backslashes_before_app by lia. unfold s.
  rewrite escape_even. done.
Qed.

Lemma find_first_open name rest :
  BACKSLASH ∉ name → OPEN ∉ name →
  find_first_unescaped (name ++ OPEN :: rest) OPEN = Some (length name).
Proof.
  intros Hb Ho. unfold find_first_unescaped. rewrite length_app. cbn [length].
  rewrite seq_app, Nat.add_0_l. cbn [seq]. apply find_app.
  - apply Forall_forall. intros i Hi%elem_of_seq. unfold unescaped_at.
    rewrite lookup_app_l by lia. rewrite bool_decide_eq_false_2; [done|].
    intros H. by apply list_elem_of_lookup_2 in H.
  - unfold unescaped_at. rewrite lookup_app_r, Nat.sub_diag by lia.
    rewrite bool_decide_eq_true_2 by done. unfold is_unescaped.
    rewrite backslashes_before_app, backslashes_before_none by done. done.
Qed.

Lemma find_first_none s : OPEN ∉ s → find_first_unescaped s OPEN = None.
Proof.
  intros Ho. unfold find_first_unescaped. generalize (seq 0 (length s)) as l.
  induction l as [|i l IH]; [done|]. cbn [List.find]. unfold unescaped_at at 1.
  rewrite bool_decide_eq_false_2; [done|]. intros H. by apply list_elem_of_lookup_2 in H.
Qed.

(** ** The round trip *)

Lemma escape_head p : head (escape_content p) = (λ c, if special c then BACKSLASH else c) <$> head p.
Proof. destruct p as [|c p]; [done|]. rewrite escape_cons. cbn. by destruct (special c). Qed.

Lemma escape_last p : last (escape_content p) = last p.
Proof.
  induction p as [|c p IH] using rev_ind; [done|].
  rewrite escape_app, last_snoc. rewrite escape_cons, app_nil_r.
  destruct (special c); [|by rewrite last_snoc].
  change [BACKSLASH; c] with ([BACKSLASH] ++ [c]). by rewrite app_assoc, last_snoc.
Qed.

Lemma escape_trimmed p : trimmed p → trimmed (escape_content p).
Proof.
  intros [Hh Hl]. split; intros c.
  - rewrite escape_head. destruct (head p) as [x|]; [|done]. intros [= <-].
    destruct (special x); [done|by apply Hh].
  - rewrite escape_last. apply Hl.
Qed.

Lemma escape_nil p : is_empty (escape_content p) = is_empty p.
Proof. destruct p as [|c p]; [done|]. rewrite escape_cons. by destruct (special c). Qed.

Lemma escape_star p : str_eqb (escape_content p) [STAR] = str_eqb p [STAR].
Proof.
  apply bool_decide_ext. split.
  - intros H. apply (f_equal unescape_rule_content) in H.
    rewrite unescape_escape in H. rewrite H. reflexivity.
  - intros ->. reflexivity.
Qed.

(** The names of the filters: no special character, no blank, and
    [tool_name_to_filter] reads them back. *)
Lemma filter_name_ok t :
  t ≠ AnyTool →
  forallb (λ c, negb (special c) && negb (is_whitespace c)) (filter_name t) = true
  ∧ is_empty (filter_name t) = false
  ∧ tool_name_to_filter (filter_name t) = Some t.
Proof. intros Ht. destruct t; try done; split_and!; vm_compute; reflexivity. Qed.

Lemma forallb_elem {A} (f : A → bool) l x : forallb f l = true → x ∈ l → f x = true.
Proof. rewrite forallb_forall. intros H Hx%list_elem_of_In. by apply H. Qed.

Lemma filter_name_trimmed t : t ≠ AnyTool → trimmed (filter_name t).
Proof. intros Ht. apply trim_trimmed. destruct t; try done; vm_compute; reflexivity. Qed.

Lemma tool_text_trimmed t c :
  t ≠ AnyTool → trimmed (filter_name t ++ [OPEN] ++ escape_content c ++ [CLOSE]).
Proof.
  intros Ht. split; intros x.
  - destruct (filter_name_trimmed t Ht) as [Hh _].
    destruct (filter_name_ok t Ht) as (_ & Hn & _).
    destruct (filter_name t) as [|y l]; [discriminate Hn|]. intros [= <-]. by apply Hh.
  - rewrite !app_assoc, last_snoc. intros [= <-]. reflexivity.
Qed.

(** What the parser makes of a tool name and an escaped content. *)
Lemma parse_tool_text t c a :
  t ≠ AnyTool → trimmed c →
  parse_permission_rule (filter_name t ++ [OPEN] ++ escape_content c ++ [CLOSE]) a
    = let p := if is_empty c || str_eqb c [STAR] then [] else c in
      let p := if bool_decide (t = BashTool) then strip_bash_colon_wildcard p else p in
      let '(p, m) := strip_domain_prefix p in
      Ok {| action := a; tool := t; pattern := if is_empty p then None else Some p;
            pattern_mode := m |}.
Proof.
  intros Ht Hc. destruct (filter_name_ok t Ht) as (Hok & _ & Hname).
  pose proof (tool_text_trimmed t c Ht) as Htr. apply trim_trimmed in Htr.
  unfold parse_permission_rule. rewrite Htr. cbn [app].
  assert (∀ x, special x = true → x ∉ filter_name t) as Hsp.
  { intros x Hx Hin. apply (forallb_elem _ _ _ Hok) in Hin. by rewrite Hx in Hin. }
  rewrite find_first_open by (by apply Hsp).
  replace (drop (length (filter_name t) + 1) (filter_name t ++ OPEN :: escape_content c ++ [CLOSE]))
    with (escape_content c ++ [CLOSE])
    by (rewrite drop_app_ge by lia;
        by replace (length (filter_name t) + 1 - length (filter_name t))%nat with 1%nat by lia).
  rewrite find_last_close, !take_app_length.
  rewrite (proj2 (trim_trimmed (filter_name t))) by by apply filter_name_trimmed.
  rewrite (proj2 (trim_trimmed (escape_content c))) by by apply escape_trimmed.
  rewrite escape_nil, escape_star, unescape_escape, Hname. reflexivity.
Qed.

Lemma strip_colon_app p : strip_bash_colon_wildcard (p ++ lit ":*") = p.
Proof.
  unfold strip_bash_colon_wildcard.
  by rewrite (proj2 (strip_suffix_Some (lit ":*") (p ++ lit ":*") p)).
Qed.

Lemma strip_domain_app p : strip_domain_prefix (lit "domain:" ++ p) = (p, Domain).
Proof.
  unfold strip_domain_prefix.
  by rewrite (proj2 (strip_prefix_Some (lit "domain:") (lit "domain:" ++ p) p)).
Qed.

Lemma strip_domain_none p :
  starts_with p (lit "domain:") = false → strip_domain_prefix p = (p, Glob).
Proof.
  unfold starts_with, strip_domain_prefix. by destruct (strip_prefix _ p).
Qed.

Lemma parse_any_text p a :
  trimmed p → OPEN ∉ p → tool_name_to_filter p = None →
  parse_permission_rule p a
    = Ok {| action := a; tool := AnyTool; pattern := if is_empty p then None else Some p;
            pattern_mode := Glob |}.
Proof.
  intros Hp Ho Hn. unfold parse_permission_rule.
  rewrite (proj2 (trim_trimmed p)) by done. rewrite find_first_none by done.
  rewrite Hn. reflexivity.
Qed.

Lemma content_not_empty r p :
  pattern r = Some p → is_empty p = false → is_empty (rule_content r) = false.
Proof.
  intros Hp Hne. unfold rule_content. rewrite Hp.
  destruct p; [discriminate Hne|]. by destruct (pattern_mode r).
Qed.

(** The idioms come off again: first the [:*], then the domain mark. *)
Lemma strip_idioms t m p :
  bool_decide (m = Domain) || negb (starts_with p (lit "domain:")) = true →
  strip_domain_prefix
    (if bool_decide (t = BashTool)
     then strip_bash_colon_wildcard
            (match m with Domain => lit "domain:" | Glob => [] end
             ++ p ++ match t with BashTool => lit ":*" | _ => [] end)
     else match m with Domain => lit "domain:" | Glob => [] end
          ++ p ++ match t with BashTool => lit ":*" | _ => [] end) = (p, m).
Proof.
  intros Hd.
  assert (∀ d, (if bool_decide (t = BashTool)
                then strip_bash_colon_wildcard
                       (d ++ p ++ match t with BashTool => lit ":*" | _ => [] end)
                else d ++ p ++ match t with BashTool => lit ":*" | _ => [] end) = d ++ p) as Ht.
  { intros d. rewrite app_assoc. destruct (decide (t = BashTool)) as [->|Hne].
    - rewrite bool_decide_eq_true_2 by done. apply strip_colon_app.
    - rewrite bool_decide_eq_false_2 by done. destruct t; try done; apply app_nil_r. }
  rewrite Ht. destruct m.
  - apply strip_domain_none. by apply negb_true_iff in Hd.
  - apply strip_domain_app.
Qed.

(** What the rule language can express, the parser reads: for every such
    rule, whatever its pattern holds (parentheses, backslashes, the [:*] and
    [domain:] idioms), parsing its text gives exactly the rule. *)
Theorem parse_rule_text (r : PermissionRule) :
  expressible r = true → parse_permission_rule (rule_text r) (action r) = Ok r.
Proof.
  destruct r as [a t [p|] m]; unfold expressible, rule_text; cbn [pattern tool pattern_mode action].
  - rewrite !andb_true_iff, negb_true_iff, str_eqb_eq, trim_trimmed.
    intros [[Hne Htr] Hr].
    pose proof (content_not_empty {| action := a; tool := t; pattern := Some p;
                                     pattern_mode := m |} p eq_refl Hne) as Hce.
    destruct (decide (t = AnyTool)) as [->|Ht].
    + rewrite !andb_true_iff, !negb_true_iff in Hr. destruct Hr as [[Hm Ho] Hn].
      apply bool_decide_eq_true in Hm. apply bool_decide_eq_false in Hn. subst m.
      unfold rule_content in Htr. cbn [pattern tool pattern_mode app] in Htr.
      rewrite app_nil_r in Htr.
      rewrite parse_any_text; [by rewrite Hne|done| |by apply eq_None_not_Some].
      intros Hin. assert (existsb (Z.eqb OPEN) p = true) as Hx; [|congruence].
      apply existsb_exists. exists OPEN. split; [by apply list_elem_of_In|reflexivity].
    + assert (str_eqb (rule_content {| action := a; tool := t; pattern := Some p;
                                       pattern_mode := m |}) [STAR] = false
              ∧ (bool_decide (m = Domain) || negb (starts_with p (lit "domain:"))) = true)
        as [Hs Hd].
      { destruct t; [done|..]; apply andb_true_iff in Hr as [Hs Hd];
          by apply negb_true_iff in Hs. }
      transitivity (parse_permission_rule
        (filter_name t ++ [OPEN] ++ escape_content (rule_content {| action := a; tool := t;
           pattern := Some p; pattern_mode := m |}) ++ [CLOSE]) a).
      { destruct t; [done|..]; reflexivity. }
      rewrite parse_tool_text by done. rewrite Hce, Hs. cbn [orb].
      unfold rule_content. cbn [pattern tool pattern_mode]. cbn zeta.
      rewrite strip_idioms by done. by rewrite Hne.
  - intros Hm%bool_decide_eq_true. subst m. destruct t; vm_compute; reflexivity.
Qed.

Definition demo_rule : PermissionRule :=
  {| action := ActionDeny; tool := BashTool;
     pattern := Some (lit "domain echo (a\b) :* \"); pattern_mode := Glob |}.

Lemma parse_rule_text_witness :
  expressible demo_rule = true
  ∧ parse_permission_rule (rule_text demo_rule) ActionDeny = Ok demo_rule.
Proof.
  split; [vm_compute; reflexivity|].
  apply (parse_rule_text demo_rule). vm_compute. reflexivity.
Defined.

(** Text after the last closing parenthesis is dropped without an error. *)
Example trailing_text_ignored :
  parse_permission_rule (lit "Bash(ls) -la") ActionAllow
    = parse_permission_rule (lit "Bash(ls)") ActionAllow.
Proof. vm_compute. reflexivity. Qed.

(** A rule on an unknown or unsupported tool is an error, as is a rule whose
    parenthesis is not closed. *)
Example rule_errors :
  parse_permission_rule (lit "EnterWorktree(*)") ActionAllow
    = Err (UnsupportedToolPrefix (lit "EnterWorktree"))
  ∧ parse_permission_rule (lit "Foo(x)") ActionAllow = Err (UnknownToolPrefix (lit "Foo"))
  ∧ parse_permission_rule (lit "Bash(x\)") ActionAllow
    = Err (MalformedRule (lit "missing closing parenthesis")).
Proof. split_and!; vm_compute; reflexivity. Qed.
