(* ===== verification/BashSyntax.v ===== *)
(** * Bash scripts: syntax trees, plain commands, wrappers

    [xai-grok-workspace/src/permission/bash_command_splitting.rs] without the
    display part: [try_parse_word_only_commands_sequence], plain commands, the
    setup and wrapper commands.

    The grammar is the crate [tree-sitter-bash]: the parser is the parameter of
    [TreeSitter], and [Node] holds what the sources read of a syntax node. *)
From S2P Require Import Prelude.
From S2P Require Import RustStr.
From S2P Require Import StrSearch.

(** ** Syntax nodes *)

Inductive Node : Type := MkNode {
  kind : string;
  is_named : bool;
  has_error : bool;
  (** the field of the parent the node stands in *)
  field : option string;
  start_byte : Z;
  end_byte : Z;
  children : list Node;
}.

(** [Parser::parse] with the bash grammar; the root of the tree. *)
Class TreeSitter : Type := { try_parse_shell : str → option Node }.

Definition kind_in (l : list string) (k : string) : bool := existsb (String.eqb k) l.
Definition is_kind (n : Node) (k : string) : bool := String.eqb (kind n) k.
Definition named_children (n : Node) : list Node := List.filter is_named (children n).

(** [&s[a..b]] by bytes; [None] outside the text or inside a character. *)
Fixpoint drop_bytes (n : Z) (s : str) : option str :=
  if (n =? 0)%Z then Some s
  else match s with
       | [] => None
       | c :: s' => if (char_len c <=? n)%Z then drop_bytes (n - char_len c) s' else None
       end.
Fixpoint take_bytes (n : Z) (s : str) : option str :=
  if (n =? 0)%Z then Some []
  else match s with
       | [] => None
       | c :: s' => if (char_len c <=? n)%Z then cons c <$> take_bytes (n - char_len c) s' else None
       end.
Definition byte_slice (s : str) (a b : Z) : option str :=
  match drop_bytes a s with Some t => take_bytes (b - a) t | None => None end.

(** [Node::utf8_text] *)
Definition utf8_text (n : Node) (src : str) : option str :=
  byte_slice src (start_byte n) (end_byte n).

(** The sources walk a tree with a stack: a node is popped and its children
    are pushed in order, so the last child is popped next. *)
Fixpoint visit (n : Node) : list Node :=
  n :: (fix go cs := match cs with [] => [] | c :: cs' => go cs' ++ visit c end) (children n).

(** ** Plain commands *)

Record PlainCommand : Type := {
  words : list str;
  span_start : Z;
  span_end : Z;
}.

Definition ALLOWED_KINDS : list string :=
  ["program"; "list"; "pipeline"; "command"; "command_name"; "word"; "string";
   "string_content"; "raw_string"; "number"; "concatenation"; "variable_assignment";
   "variable_name"; "redirected_statement"; "file_redirect"; "file_descriptor"; "comment";
   "heredoc_redirect"; "heredoc_start"; "heredoc_body"; "heredoc_content"; "heredoc_end"].

Definition QUOTE_KIND : string := String (Ascii.ascii_of_nat 34) EmptyString.
Definition ALLOWED_PUNCT_TOKENS : list string :=
  ["&&"; "||"; ";"; "|"; QUOTE_KIND; "'"; "="; ">"; ">>"; "<"; "<<"; ">&"; "&>"; "&>>"].

(** The words so far and the span of the words. *)
Definition Acc : Type := list str * option Z * option Z.
Definition push_word (acc : Acc) (text : str) (outer : Node) : Acc :=
  let '(ws, a, _) := acc in
  (ws ++ [text], Some (default (start_byte outer) a), Some (end_byte outer)).

(** One named child of a [command] node. *)
Definition plain_child (src : str) (acc : Acc) (child : Node) : option Acc :=
  if is_kind child "variable_assignment" then Some acc
  else if is_kind child "command_name" then
    match named_children child with
    | [] => None
    | word_node :: _ =>
        if negb (is_kind word_node "word") then None
        else match utf8_text word_node src with
             | Some text => Some (push_word acc text word_node)
             | None => None
             end
    end
  else if is_kind child "word" || is_kind child "number" || is_kind child "concatenation" then
    match utf8_text child src with
    | Some text => Some (push_word acc text child)
    | None => None
    end
  else if is_kind child "string" then
    match children child with
    | [q1; content_node; q2] =>
        if is_kind q1 QUOTE_KIND && is_kind content_node "string_content" && is_kind q2 QUOTE_KIND
        then match utf8_text content_node src with
             | Some text => Some (push_word acc text child)
             | None => None
             end
        else None
    | _ => None
    end
  else if is_kind child "raw_string" then
    match utf8_text child src with
    | Some raw_string =>
        match strip_prefix (lit "'") raw_string with
        | Some s => match strip_suffix (lit "'") s with
                    | Some s => Some (push_word acc s child)
                    | None => None
                    end
        | None => None
        end
    | None => None
    end
  else None.

Fixpoint plain_children (src : str) (acc : Acc) (l : list Node) : option Acc :=
  match l with
  | [] => Some acc
  | c :: l' => match plain_child src acc c with
               | Some acc' => plain_children src acc' l'
               | None => None
               end
  end.

Definition parse_plain_command_from_node (cmd : Node) (src : str) : option PlainCommand :=
  if negb (is_kind cmd "command") then None
  else match plain_children src ([], None, None) (named_children cmd) with
       | Some (ws, a, b) =>
           Some {| words := ws; span_start := default (start_byte cmd) a;
                   span_end := default (end_byte cmd) b |}
       | None => None
       end.

(** One popped node: refused, or kept. *)
Definition node_allowed (node : Node) : bool :=
  if is_named node then kind_in ALLOWED_KINDS (kind node)
  else
    let ok := kind_in ALLOWED_PUNCT_TOKENS (kind node) in
    if existsb (λ c, existsb (Z.eqb c) (lit "&;|")) (lit (kind node)) && negb ok then false
    else ok || is_empty (trim (lit (kind node))).

Definition try_parse_word_only_commands_sequence (tree : Node) (src : str)
  : option (list PlainCommand) :=
  if has_error tree then None
  else if negb (forallb node_allowed (visit tree)) then None
  else
    let command_nodes :=
      List.filter (λ n, is_named n && is_kind n "command") (visit tree) in
    mapM (λ n, parse_plain_command_from_node n src) (sort_by_key start_byte command_nodes).

Definition all_commands_from_script `{TreeSitter} (script : str) : option (list PlainCommand) :=
  match try_parse_shell script with
  | Some tree => try_parse_word_only_commands_sequence tree script
  | None => None
  end.

(** ** Setup and wrapper commands *)

Definition SETUP_COMMANDS : list string :=
  ["cd"; "pushd"; "popd"; "export"; "unset"; "set"; "sleep"; "timeout"].
Definition is_setup_command (cmd : list str) : bool :=
  match cmd with
  | [] => true
  | w :: _ => one_of SETUP_COMMANDS w
  end.

Definition is_env_assignment (tok : str) : bool :=
  match split_once EQUALS tok with
  | None => false
  | Some (name, _) =>
      match name with
      | [] => false
      | b :: _ => (is_ascii_alphabetic b || (b =? UNDERSCORE)%Z)
                  && forallb (λ b, is_ascii_alphanumeric b || (b =? UNDERSCORE)%Z) name
      end
  end.

Definition is_option (tok : str) : bool := starts_with tok [DASH].

(** The loop of [env_scan] from index [i]; [i] grows, so [fuel] is the number
    of words. *)
Fixpoint env_scan_from (fuel : nat) (cmd : list str) (chdir : option str) (i : nat)
  : option str * nat :=
  match fuel with
  | O => (chdir, i)
  | S fuel' =>
      match cmd !! i with
      | None => (chdir, i)
      | Some tok =>
          if str_eqb tok (lit "--") then (chdir, S i)
          else if negb (str_eqb tok (lit "-")) && is_option tok then
            if one_of ["-C"; "--chdir"] tok then env_scan_from fuel' cmd (cmd !! S i) (i + 2)
            else match strip_prefix (lit "--chdir=") tok with
                 | Some dir => env_scan_from fuel' cmd (Some dir) (S i)
                 | None =>
                     match strip_prefix (lit "-C") tok with
                     | Some (_ :: _ as dir) => env_scan_from fuel' cmd (Some dir) (S i)
                     | _ =>
                         if one_of ["-u"; "--unset"; "-S"; "--split-string"] tok
                         then env_scan_from fuel' cmd chdir (i + 2)
                         else env_scan_from fuel' cmd chdir (S i)
                     end
                 end
          else if is_env_assignment tok then env_scan_from fuel' cmd chdir (S i)
          else (chdir, i)
      end
  end.
Definition env_scan (cmd : list str) : option str * nat :=
  env_scan_from (length cmd) cmd None 1.

(** The option loops of [strip_wrapper_command]: [two] are the options that
    take the next word. *)
Fixpoint skip_options (fuel : nat) (two : list string) (cmd : list str) (i : nat) : nat :=
  match fuel with
  | O => i
  | S fuel' =>
      match cmd !! i with
      | Some tok =>
          if is_option tok
          then skip_options fuel' two cmd (if one_of two tok then i + 2 else S i)
          else i
      | None => i
      end
  end.

(** Where the inner command starts; [None] when a mandatory word is missing or
    the head is no wrapper. *)
Definition wrapper_inner_index (head : str) (cmd : list str) : option nat :=
  let skip two := skip_options (length cmd) two cmd 1 in
  let mandatory i := if length cmd <=? i then None else Some (S i) in
  if str_eqb head (lit "timeout") then
    mandatory (skip ["-k"; "-s"; "--kill-after"; "--signal"])
  else if str_eqb head (lit "nice") then Some (skip ["-n"; "--adjustment"])
  else if str_eqb head (lit "ionice") then
    Some (skip ["-c"; "-n"; "-p"; "-P"; "-u"; "--class"; "--classdata"; "--pid"; "--pgid"; "--uid"])
  else if str_eqb head (lit "chrt") then mandatory (skip [])
  else if str_eqb head (lit "stdbuf") then Some (skip ["-i"; "-o"; "-e"])
  else if str_eqb head (lit "env") then Some (env_scan cmd).2
  else None.

Definition strip_wrapper_command (cmd : list str) : option (list str) :=
  match cmd with
  | [] => None
  | w :: _ =>
      match wrapper_inner_index (base_name w) cmd with
      | None => None
      | Some i =>
          if (length cmd <? i)%nat then None
          else match drop i cmd with
               | [] => None
               | inner => Some inner
               end
      end
  end.

Definition WRAPPERS : list string := ["timeout"; "nice"; "ionice"; "chrt"; "stdbuf"; "env"].
Definition is_wrapper_command (ws : list str) : bool :=
  match ws with w :: _ => one_of WRAPPERS (base_name w) | [] => false end.

Fixpoint unwrap_loop (n : nat) (current : list str) : list str :=
  match n with
  | O => current
  | S n' => match strip_wrapper_command current with
            | Some inner => unwrap_loop n' inner
            | None => current
            end
  end.
Definition unwrap_wrappers (ws : list str) : list str := unwrap_loop 8 ws.

Definition head_is_env (ws : list str) : bool :=
  match ws with w :: _ => str_eqb (base_name w) (lit "env") | [] => false end.

Fixpoint chdir_loop (n : nat) (current : list str) : bool :=
  match n with
  | O => false
  | S n' =>
      if head_is_env current && bool_decide (is_Some (env_scan current).1) then true
      else match strip_wrapper_command current with
           | Some inner => chdir_loop n' inner
           | None => false
           end
  end.
Definition wrapper_has_chdir (ws : list str) : bool := chdir_loop 8 ws.

(** ** Highlighting *)

Definition SINGLE : char := 39.

(** [sh_split_simple]: [current] is the word being read, [result] the words
    before it. *)
Fixpoint sh_split_go (s : str) (result : list str) (current : str) (in_single in_double : bool)
  : list str :=
  match s with
  | [] => if is_empty current then result else result ++ [current]
  | c :: s' =>
      if (c =? SINGLE)%Z && negb in_double then sh_split_go s' result current (negb in_single) in_double
      else if (c =? QUOTE)%Z && negb in_single then
        sh_split_go s' result current in_single (negb in_double)
      else if (c =? BACKSLASH)%Z then
        match s' with
        | next :: s'' => sh_split_go s'' result (current ++ [next]) in_single in_double
        | [] => if is_empty current then result else result ++ [current]
        end
      else if is_whitespace c && negb in_single && negb in_double then
        if is_empty current then sh_split_go s' result current in_single in_double
        else sh_split_go s' (result ++ [current]) [] in_single in_double
      else sh_split_go s' result (current ++ [c]) in_single in_double
  end.
Definition sh_split_simple (s : str) : list str := sh_split_go s [] [] false false.

Record BashCommandHighlights : Type := {
  hl_prefix : list str;
  highlighted_words : list str;
  hl_suffix : list str;
}.

(** The outer [option] is the panic of a slice inside a character. *)
Definition primary_command_from_script `{TreeSitter} (script : str)
  : option (option BashCommandHighlights) :=
  match all_commands_from_script script with
  | None => Some None
  | Some commands =>
      match List.find (λ c, negb (is_setup_command (words c))) commands with
      | None => Some None
      | Some primary =>
          match take_bytes (span_start primary) script, drop_bytes (span_end primary) script with
          | Some prefix_str, Some suffix_str =>
              Some (Some {| hl_prefix := sh_split_simple prefix_str;
                            highlighted_words := words primary;
                            hl_suffix := sh_split_simple suffix_str |})
          | _, _ => None
          end
      end
  end.
