(* ===== verification/PermissionDemo.v ===== *)
(** * Concrete instances for the permission parameters

    A small glob matcher, URLs of the form [scheme://host/path], a parser for
    scripts of words and single-quoted words separated by [;], and a file
    system without links.  Examples and witnesses evaluate on them. *)
From S2P Require Import Prelude.
From S2P Require Import RustStr.
From S2P Require Import StrSearch.
From S2P Require Import Permission.
From S2P Require Import BashSyntax.

(** [*] matches any text, without separators under [sep]. *)
Fixpoint demo_glob (fuel : nat) (sep : bool) (p s : str) : bool :=
  match fuel with
  | O => false
  | S fuel' =>
      match p with
      | [] => is_empty s
      | c :: p' =>
          if (c =? 42)%Z then
            demo_glob fuel' sep p' s
            || match s with
               | x :: s' => negb (sep && (x =? SLASH)%Z) && demo_glob fuel' sep p s'
               | [] => false
               end
          else match s with
               | x :: s' => (x =? c)%Z && demo_glob fuel' sep p' s'
               | [] => false
               end
      end
  end.

Record DemoUrl : Type := { demo_host : str; demo_path : str }.
Definition demo_url_parse (s : str) : option DemoUrl :=
  match find s (lit "://") with
  | None => None
  | Some i =>
      let rest := drop (i + 3) s in
      match find rest [SLASH] with
      | None => Some {| demo_host := rest; demo_path := [SLASH] |}
      | Some j => Some {| demo_host := take j rest; demo_path := drop j rest |}
      end
  end.

#[global] Instance demo_perm_api : PermApi := {
  Json := str;
  json_is_null s := is_empty s;
  json_compact s := s;
  json_command cmd := lit "{command:" ++ cmd ++ lit "}";
  json_from_str s := Some s;
  json_has s key := str_eqb s key;
  json_get_bool s key := if str_eqb s key then Some true else None;
  Pattern := str;
  glob_new s := if contains s (lit "***") then None else Some s;
  glob_matches_with p s sep := demo_glob (S (length p + length s)) sep p s;
  Url := DemoUrl;
  url_parse := demo_url_parse;
  url_host_str u := Some (demo_host u);
  url_path := demo_path;
  to_lowercase := to_ascii_lowercase;
}.

(** Tokens with their byte range, for ASCII text. *)
Inductive Token : Type := TWord (quoted : bool) (a b : Z) | TSemi (a : Z).

Fixpoint demo_tokens (s : str) (pos : Z) (cur : option (bool * Z)) : list Token :=
  match s with
  | [] => match cur with Some (q, a) => [TWord q a pos] | None => [] end
  | c :: s' =>
      match cur with
      | Some (true, a) =>
          if (c =? 39)%Z then TWord true a (pos + 1) :: demo_tokens s' (pos + 1) None
          else demo_tokens s' (pos + 1) cur
      | _ =>
          let flush := match cur with Some (q, a) => [TWord q a pos] | None => [] end in
          if (c =? 32)%Z then flush ++ demo_tokens s' (pos + 1) None
          else if (c =? 59)%Z then flush ++ TSemi pos :: demo_tokens s' (pos + 1) None
          else if (c =? 39)%Z then flush ++ demo_tokens s' (pos + 1) (Some (true, pos))
          else match cur with
               | Some _ => demo_tokens s' (pos + 1) cur
               | None => demo_tokens s' (pos + 1) (Some (false, pos))
               end
      end
  end.

Definition demo_leaf (k : string) (named : bool) (a b : Z) : Node :=
  MkNode k named false None a b [].
Definition demo_word (q : bool) (a b : Z) : Node :=
  demo_leaf (if q then "raw_string" else "word") true a b.
Definition demo_command (ws : list (bool * Z * Z)) : list Node :=
  match ws with
  | [] => []
  | (q, a, b) :: rest =>
      [MkNode "command" true false None a (default b (snd <$> last ws))
         (MkNode "command_name" true false (Some "name") a b [demo_word q a b]
            :: map (λ w, demo_word w.1.1 w.1.2 w.2) rest)]
  end.
Fixpoint demo_group (ts : list Token) (cur : list (bool * Z * Z)) : list Node :=
  match ts with
  | [] => demo_command cur
  | TWord q a b :: ts' => demo_group ts' (cur ++ [(q, a, b)])
  | TSemi a :: ts' => demo_command cur ++ demo_leaf ";" false a (a + 1) :: demo_group ts' []
  end.
Definition demo_program (s : str) : Node :=
  MkNode "program" true false None 0 (str_len s) (demo_group (demo_tokens s 0 None) []).

#[global] Instance demo_tree_sitter : TreeSitter := {
  try_parse_shell s := Some (demo_program s);
}.

Example demo_splits :
  map words <$> all_commands_from_script (lit "cd src; bash -c 'git push'")
    = Some [[lit "cd"; lit "src"]; [lit "bash"; lit "-c"; lit "git push"]].
Proof. vm_compute. reflexivity. Qed.
