(* ===== verification/PolicyFacts.v ===== *)
(** * Permission policy: theorems

    The precedence of rules and its independence of their order; grammars of
    the wrappers and shells a command runs others through, which the code reads;
    and what the segment gate guarantees about the commands of a script. *)
From S2P Require Import Prelude.
From S2P Require Import RustStr.
From S2P Require Import StrSearch.
From S2P Require Import Permission.
From S2P Require Import BashSyntax.
From S2P Require Import PermissionDemo.
From S2P Require Import PermissionPolicy.

Section facts.
Context {PA : PermApi} {TS : TreeSitter}.

(** ** Precedence *)

(** A rule of the configuration governs an access. *)
Definition applies (access : AccessKind) (r : PermissionRule) : bool :=
  rule_matches access (r, compile_matcher r).
Definition hit (c : PermissionConfig) (access : AccessKind) (a : RuleAction) : Prop :=
  ∃ r, r ∈ rules c ∧ action r = a ∧ applies access r = true.

Definition is_action (a : RuleAction) (r : PermissionRule) : bool :=
  match a, action r with
  | ActionDeny, ActionDeny | ActionAsk, ActionAsk | ActionAllow, ActionAllow => true
  | _, _ => false
  end.

Lemma is_action_spec a r : is_action a r = true ↔ action r = a.
Proof. unfold is_action. by destruct a, (action r). Qed.

(** The verdict without the reason. *)
Inductive Verdict : Type := VDeny | VAsk | VAllow | VNone.
Definition verdict (d : option Decision) : Verdict :=
  match d with
  | Some (Reject _) => VDeny | Some Ask => VAsk | Some Allow => VAllow | _ => VNone
  end.

Lemma zip_compiled c :
  zip (rules c) (matchers (CompiledPolicy_new c)) = map (λ r, (r, compile_matcher r)) (rules c).
Proof.
  cbn [CompiledPolicy_new matchers]. induction (rules c) as [|r l IH]; [done|].
  cbn [map zip zip_with]. by rewrite IH.
Qed.

(** The loop over a list without a matching deny rule ends in the flags it
    collected. *)
Lemma evaluate_loop_no_deny access l ask allow :
  Forall (λ r, action r = ActionDeny → applies access r = false) l →
  evaluate_loop access (map (λ r, (r, compile_matcher r)) l) ask allow
    = if ask || existsb (λ r, is_action ActionAsk r && applies access r) l
      then Some Ask
      else if allow || existsb (λ r, is_action ActionAllow r && applies access r) l
      then Some Allow else None.
Proof.
  intros Hl. revert ask allow. induction Hl as [|r l Hr Hl IH]; intros ask allow.
  - cbn. by rewrite !orb_false_r.
  - cbn [map evaluate_loop existsb fst snd]. unfold applies, rule_matches in *. cbn [fst snd] in *.
    destruct (tool_filter_matches access (tool r)); cbn [negb andb] in *.
    2: { rewrite !andb_false_r. cbn [orb]. apply IH. }
    destruct (pattern_matches access r (compile_matcher r)); cbn [negb] in *.
    2: { rewrite !andb_false_r. cbn [orb]. apply IH. }
    unfold is_action at 1 3. destruct (action r); [| by specialize (Hr eq_refl) |];
      rewrite IH; cbn [andb orb]; by rewrite ?orb_true_r.
Qed.

(** The loop stops at the first matching deny rule. *)
Lemma evaluate_loop_deny access l1 r l2 ask allow :
  Forall (λ r, action r = ActionDeny → applies access r = false) l1 →
  action r = ActionDeny → applies access r = true →
  evaluate_loop access (map (λ r, (r, compile_matcher r)) (l1 ++ r :: l2)) ask allow
    = Some (Reject (deny_reason r)).
Proof.
  intros Hl Ha Hr. revert ask allow. induction Hl as [|x l1 Hx Hl IH]; intros ask allow.
  - cbn [app map evaluate_loop fst snd]. unfold applies, rule_matches in Hr.
    cbn [fst snd] in Hr. apply andb_true_iff in Hr as [-> ->]. by rewrite Ha.
  - cbn [app map evaluate_loop fst snd]. unfold applies, rule_matches in Hx. cbn [fst snd] in Hx.
    destruct (tool_filter_matches access (tool x)); cbn [negb andb] in *; [|apply IH].
    destruct (pattern_matches access x (compile_matcher x)); cbn [negb] in *; [|apply IH].
    destruct (action x); [apply IH| by specialize (Hx eq_refl) | apply IH].
Qed.

(** A list either has a first matching deny rule, or none. *)
Lemma first_deny access (l : list PermissionRule) :
  Forall (λ r, action r = ActionDeny → applies access r = false) l
  ∨ ∃ l1 r l2, l = l1 ++ r :: l2
      ∧ Forall (λ r, action r = ActionDeny → applies access r = false) l1
      ∧ action r = ActionDeny ∧ applies access r = true.
Proof.
  induction l as [|x l IH]; [by left|].
  destruct (decide (action x = ActionDeny ∧ applies access x = true)) as [[Ha Hx]|Hno].
  - right. by exists [], x, l.
  - assert (action x = ActionDeny → applies access x = false) as Hx.
    { intros Ha. destruct (applies access x); [by destruct Hno|done]. }
    destruct IH as [Hall|(l1 & r & l2 & -> & Hl1 & Hr)]; [left; by constructor|].
    right. exists (x :: l1), r, l2. split_and!; try apply Hr; [done|by constructor].
Qed.

Lemma existsb_hit c access a :
  existsb (λ r, is_action a r && applies access r) (rules c) = true
  ↔ hit c access a.
Proof.
  rewrite existsb_exists. split.
  - intros (r & Hin%list_elem_of_In & [Ha%is_action_spec Hr]%andb_true_iff). by exists r.
  - intros (r & Hin & Ha%is_action_spec & Hr). exists r.
    split; [by apply list_elem_of_In|by apply andb_true_iff].
Qed.

Lemma no_deny_hit c access :
  Forall (λ r, action r = ActionDeny → applies access r = false) (rules c)
  → ¬ hit c access ActionDeny.
Proof.
  rewrite Forall_forall. intros H (r & Hin & Ha & Hr). specialize (H r Hin Ha). congruence.
Qed.

(** The two ways [evaluate] ends. *)
Lemma evaluate_cases c access :
  (∃ l1 r l2, rules c = l1 ++ r :: l2
     ∧ action r = ActionDeny ∧ applies access r = true
     ∧ Forall (λ r, action r = ActionDeny → applies access r = false) l1
     ∧ evaluate (CompiledPolicy_new c) access = Some (Reject (deny_reason r)))
  ∨ (¬ hit c access ActionDeny
     ∧ evaluate (CompiledPolicy_new c) access
       = if existsb (λ r, is_action ActionAsk r && applies access r) (rules c) then Some Ask
         else if existsb (λ r, is_action ActionAllow r && applies access r) (rules c)
         then Some Allow else None).
Proof.
  unfold evaluate. cbn [config CompiledPolicy_new]. fold (CompiledPolicy_new c).
  rewrite zip_compiled.
  destruct (first_deny access (rules c)) as [Hno|(l1 & r & l2 & Hl & Hl1 & Ha & Hr)].
  - right. split; [by apply no_deny_hit|]. by rewrite evaluate_loop_no_deny.
  - left. exists l1, r, l2. rewrite Hl. split_and!; try done. by apply evaluate_loop_deny.
Qed.

Lemma evaluate_exact c access :
  (hit c access ActionDeny ∧ ∃ x, evaluate (CompiledPolicy_new c) access = Some (Reject x))
  ∨ (¬ hit c access ActionDeny ∧ hit c access ActionAsk
     ∧ evaluate (CompiledPolicy_new c) access = Some Ask)
  ∨ (¬ hit c access ActionDeny ∧ ¬ hit c access ActionAsk ∧ hit c access ActionAllow
     ∧ evaluate (CompiledPolicy_new c) access = Some Allow)
  ∨ (¬ hit c access ActionDeny ∧ ¬ hit c access ActionAsk ∧ ¬ hit c access ActionAllow
     ∧ evaluate (CompiledPolicy_new c) access = None).
Proof.
  destruct (evaluate_cases c access) as [(l1 & r & l2 & Hl & Ha & Hr & _ & ->)|[Hd ->]].
  - left. split; [|by eexists]. exists r. rewrite Hl. split; [set_solver|done].
  - right. rewrite <- !existsb_hit. rewrite <- existsb_hit in Hd.
    destruct (existsb (λ r, is_action ActionAsk r && applies access r) (rules c)); [by left|].
    right. destruct (existsb (λ r, is_action ActionAllow r && applies access r) (rules c));
      [left|right]; split_and!; done.
Qed.

Lemma hit_perm c c' access a : rules c' ≡ₚ rules c → hit c' access a ↔ hit c access a.
Proof. intros Hp. unfold hit. by setoid_rewrite Hp. Qed.

(** A deny rule that governs the access decides it, whatever other rules
    there are: the answer is the rejection naming the first such rule.  Without
    one, a governing ask rule decides; without either, a governing allow rule;
    and only an access no rule governs is left undecided.  Which of the four it
    is does not depend on the order of the rules. *)
Theorem evaluate_precedence (c : PermissionConfig) (access : AccessKind) :
  let d := evaluate (CompiledPolicy_new c) access in
  (hit c access ActionDeny →
     ∃ l1 r l2, rules c = l1 ++ r :: l2
       ∧ action r = ActionDeny ∧ applies access r = true
       ∧ Forall (λ r, action r = ActionDeny → applies access r = false) l1
       ∧ d = Some (Reject (deny_reason r)))
  ∧ (d = Some Ask ↔ ¬ hit c access ActionDeny ∧ hit c access ActionAsk)
  ∧ (d = Some Allow ↔ ¬ hit c access ActionDeny ∧ ¬ hit c access ActionAsk
                      ∧ hit c access ActionAllow)
  ∧ (d = None ↔ ∀ a, ¬ hit c access a)
  ∧ (∀ c', rules c' ≡ₚ rules c →
       verdict (evaluate (CompiledPolicy_new c') access) = verdict d).
Proof.
  cbn zeta. pose proof (evaluate_exact c access) as Hv. split_and!.
  - intros Hd. destruct (evaluate_cases c access) as [Hc|[Hno _]]; [exact Hc|done].
  - destruct Hv as [(H1 & x & ->)|[(H1 & H2 & ->)|[(H1 & H2 & H3 & ->)|(H1 & H2 & H3 & ->)]]];
      split; intros; first [discriminate|reflexivity|tauto].
  - destruct Hv as [(H1 & x & ->)|[(H1 & H2 & ->)|[(H1 & H2 & H3 & ->)|(H1 & H2 & H3 & ->)]]];
      split; intros; first [discriminate|reflexivity|tauto].
  - destruct Hv as [(H1 & x & ->)|[(H1 & H2 & ->)|[(H1 & H2 & H3 & ->)|(H1 & H2 & H3 & ->)]]];
      split; intros Hx; first [discriminate|done|by destruct (Hx ActionDeny)
                              |by destruct (Hx ActionAsk)|by destruct (Hx ActionAllow)|idtac].
    intros []; done.
  - intros c' Hp. pose proof (evaluate_exact c' access) as Hv'.
    rewrite !(hit_perm c c' access _ Hp) in Hv'.
    destruct Hv as [(H1 & x & ->)|[(H1 & H2 & ->)|[(H1 & H2 & H3 & ->)|(H1 & H2 & H3 & ->)]]],
      Hv' as [(G1 & y & ->)|[(G1 & G2 & ->)|[(G1 & G2 & G3 & ->)|(G1 & G2 & G3 & ->)]]];
      first [reflexivity|tauto].
Qed.

(** ** What a command runs

    The wrappers and the shells the gate looks through, as grammars of their
    words: what a word means depends on the words before it, as the programs
    read them. *)

Definition dashed (w : str) : Prop := ∃ r, w = DASH :: r.

(** The program a word names: what follows its last separator. *)
Definition separator (c : char) : Prop := c = SLASH ∨ c = BACKSLASH.
Definition names (w : str) (program : string) : Prop :=
  (∀ c, separator c → c ∉ lit program) ∧
  (w = lit program ∨ ∃ dir c, separator c ∧ w = dir ++ c :: lit program).

(** Options, of which those of [two] take the next word. *)
Inductive options (two : list string) : list str → Prop :=
| options_nil : options two []
| options_one o l : dashed o → o ∉ map lit two → options two l → options two (o :: l)
| options_two o v l : dashed o → o ∈ map lit two → options two l → options two (o :: v :: l).

(** [NAME=value] *)
Definition name_start (c : char) : Prop := is_ascii_alphabetic c = true ∨ c = UNDERSCORE.
Definition name_char (c : char) : Prop := is_ascii_alphanumeric c = true ∨ c = UNDERSCORE.
Definition assignment (w : str) : Prop :=
  ∃ c name value, w = c :: name ++ EQUALS :: value ∧ name_start c ∧ Forall name_char name.

Definition env_valued : list string :=
  ["-C"; "--chdir"; "-u"; "--unset"; "-S"; "--split-string"].
Inductive env_args : list str → Prop :=
| env_nil : env_args []
| env_option o l :
    dashed o → o ∉ map lit (["-"; "--"] ++ env_valued) → env_args l → env_args (o :: l)
| env_value o v l : o ∈ map lit env_valued → env_args l → env_args (o :: v :: l)
| env_assign a l : assignment a → env_args l → env_args (a :: l).

(** The wrappers with an operand before the command, and those without, with
    the options that take the next word. *)
Definition operand_wrappers : list (string * list string) :=
  [("timeout", ["-k"; "-s"; "--kill-after"; "--signal"]); ("chrt", [])].
Definition plain_wrappers : list (string * list string) :=
  [("nice", ["-n"; "--adjustment"]); ("stdbuf", ["-i"; "-o"; "-e"]);
   ("ionice", ["-c"; "-n"; "-p"; "-P"; "-u"; "--class"; "--classdata"; "--pid"; "--pgid";
               "--uid"])].

(** [wraps ws inner]: the command [ws] runs the command [inner]. *)
Inductive wraps : list str → list str → Prop :=
| wraps_operand program two w opts operand inner :
    (program, two) ∈ operand_wrappers →
    names w program → options two opts → ¬ dashed operand → inner ≠ [] →
    wraps (w :: opts ++ operand :: inner) inner
| wraps_plain program two w opts c inner :
    (program, two) ∈ plain_wrappers →
    names w program → options two opts → ¬ dashed c →
    wraps (w :: opts ++ c :: inner) (c :: inner)
| wraps_env w args c inner :
    names w "env" → env_args args → (dashed c → c = lit "-") → ¬ assignment c →
    wraps (w :: args ++ c :: inner) (c :: inner)
| wraps_env_end w args c inner :
    names w "env" → env_args args → wraps (w :: args ++ lit "--" :: c :: inner) (c :: inner).

(** Up to [n] wrappers taken off. *)
Inductive peeled : nat → list str → list str → Prop :=
| peeled_bare n ws : (∀ inner, ¬ wraps ws inner) → peeled n ws ws
| peeled_enough ws : peeled 0 ws ws
| peeled_more n ws inner bare : wraps ws inner → peeled n inner bare → peeled (S n) ws bare.

(** The words of a cluster of short options with a [c] in it. *)
Definition c_cluster (w : str) : Prop :=
  ∃ r, w = DASH :: r ∧ (∀ r', r ≠ DASH :: r') ∧ lit "c" ⊆ r.

(** [passes ws script]: a shell run with [-c]; the script is the first operand
    after the cluster. *)
Inductive passes : list str → str → Prop :=
| passes_operand shell w before cluster opts script rest :
    shell ∈ ["bash"; "sh"; "dash"; "zsh"; "ksh"] → names w shell →
    Forall (λ w, ¬ c_cluster w) before → c_cluster cluster →
    Forall (λ w, dashed w ∧ w ∉ map lit ["-"; "--"]) opts → ¬ dashed script →
    passes (w :: before ++ cluster :: opts ++ script :: rest) script
| passes_end shell w before cluster opts stop script rest :
    shell ∈ ["bash"; "sh"; "dash"; "zsh"; "ksh"] → names w shell →
    Forall (λ w, ¬ c_cluster w) before → c_cluster cluster →
    Forall (λ w, dashed w ∧ w ∉ map lit ["-"; "--"]) opts → stop ∈ map lit ["-"; "--"] →
    passes (w :: before ++ cluster :: opts ++ stop :: script :: rest) script.

(** The texts of a command: its words, and its words without wrappers. *)
Definition judged (ws form : list str) : Prop := form = ws ∨ peeled 8 ws form.

(** *** The code reads these grammars *)

Lemma is_option_spec w : is_option w = true ↔ dashed w.
Proof. unfold is_option, dashed. by rewrite starts_with_spec. Qed.

Lemma is_option_false w : is_option w = false ↔ ¬ dashed w.
Proof. rewrite <- is_option_spec. by rewrite not_true_iff_false. Qed.

Lemma one_of_false l s : one_of l s = false ↔ s ∉ map lit l.
Proof. rewrite <- one_of_In. by rewrite not_true_iff_false. Qed.

Lemma app_at {A} (s dir : list A) x c p :
  x :: s = dir ++ c :: p ↔ (dir = [] ∧ x = c ∧ s = p) ∨ ∃ dir', dir = x :: dir' ∧ s = dir' ++ c :: p.
Proof. destruct dir as [|y dir]; simpl; naive_solver. Qed.

Lemma base_name_go_spec s acc p :
  (∀ c, separator c → c ∉ p) →
  base_name_go s acc = p ↔ rev acc ++ s = p ∨ ∃ dir c, separator c ∧ s = dir ++ c :: p.
Proof.
  intros Hp. revert acc. induction s as [|x s IH]; intros acc; simpl.
  - rewrite app_nil_r. split; [by left|]. intros [H|(dir & c & _ & H)]; [done|by destruct dir].
  - setoid_rewrite app_at.
    destruct ((x =? SLASH)%Z || (x =? BACKSLASH)%Z) eqn:Hx;
      rewrite orb_comm, ?orb_true_iff, ?orb_false_iff, ?Z.eqb_eq, ?Z.eqb_neq in Hx; rewrite IH.
    + assert (separator x) as Hsep by (unfold separator; tauto).
      assert (rev acc ++ x :: s ≠ p) by (intros <-; apply (Hp x Hsep); set_solver).
      simpl. naive_solver.
    + assert (¬ separator x) by (unfold separator; tauto).
      simpl. rewrite <- app_assoc. simpl. naive_solver.
Qed.

Lemma names_spec w program :
  forallb (λ c, negb (c =? SLASH) && negb (c =? BACKSLASH))%Z (lit program) = true →
  base_name w = lit program ↔ names w program.
Proof.
  intros Hf. rewrite forallb_forall in Hf.
  assert (∀ c, separator c → c ∉ lit program) as Hp.
  { intros c Hc Hin%list_elem_of_In%Hf. by destruct Hc as [-> | ->]. }
  unfold base_name, names. rewrite base_name_go_spec by done. simpl. tauto.
Qed.

(** The loop over the options, from any index. *)
Lemma skip_options_out fuel two cmd i : length cmd ≤ i → skip_options fuel two cmd i = i.
Proof. intros Hi%lookup_ge_None. destruct fuel; simpl; [done|]. by rewrite Hi. Qed.

Lemma skip_options_sound fuel two cmd i :
  length cmd ≤ fuel + i →
  let j := skip_options fuel two cmd i in
  length cmd < j ∨
  ∃ opts, drop i cmd = opts ++ drop j cmd ∧ options two opts ∧
    ∀ o, cmd !! j = Some o → ¬ dashed o.
Proof.
  revert i. induction fuel as [|fuel IH]; intros i Hf; simpl.
  - right. exists []. split_and!; [done|constructor|]. intros o Ho%lookup_lt_Some. lia.
  - destruct (cmd !! i) as [tok|] eqn:Ht.
    2: { right. exists []. split_and!; [done|constructor|congruence]. }
    destruct (is_option tok) eqn:Ho.
    2: { right. exists []. split_and!; [done|constructor|]. intros o Ho'.
         apply is_option_false. congruence. }
    apply is_option_spec in Ho. rewrite (drop_S _ _ _ Ht). destruct (one_of two tok) eqn:H2.
    + destruct (IH (i + 2) ltac:(lia)) as [Hlt|(opts & Hd & Hopts & Hj)]; [by left|].
      destruct (cmd !! S i) as [v|] eqn:Hv.
      * right. exists (tok :: v :: opts). rewrite (drop_S _ _ _ Hv).
        replace (S (S i)) with (i + 2) by lia. rewrite Hd at 1.
        split_and!; [done|constructor; [done|by apply one_of_In|done]|done].
      * apply lookup_ge_None in Hv. left. rewrite skip_options_out by lia. lia.
    + destruct (IH (S i) ltac:(lia)) as [Hlt|(opts & Hd & Hopts & Hj)]; [by left|].
      right. exists (tok :: opts). rewrite Hd at 1.
      split_and!; [done|constructor; [done|by apply one_of_false|done]|done].
Qed.

Lemma drop_head {A} (l : list A) i x r : drop i l = x :: r → l !! i = Some x.
Proof. intros Hd. rewrite <- (Nat.add_0_r i), <- lookup_drop. by rewrite Hd. Qed.

Lemma skip_options_complete fuel two cmd i opts rest :
  options two opts → drop i cmd = opts ++ rest → length opts ≤ fuel →
  (∀ o, head rest = Some o → ¬ dashed o) →
  skip_options fuel two cmd i = i + length opts.
Proof.
  intros Ho. revert fuel i. induction Ho as [|o l Hd H2 Ho IH|o v l Hd H2 Ho IH];
    intros fuel i Hdrop Hf Hstop; simpl.
  - rewrite Nat.add_0_r. destruct fuel as [|fuel]; [done|]. simpl.
    destruct (cmd !! i) as [tok|] eqn:Ht; [|done].
    rewrite (drop_S _ _ _ Ht) in Hdrop. simpl in Hdrop. subst rest.
    specialize (Hstop tok eq_refl). apply is_option_false in Hstop. by rewrite Hstop.
  - destruct fuel as [|fuel]; [simpl in Hf; lia|].
    assert (cmd !! i = Some o) as Ht by (exact (drop_head _ _ _ _ Hdrop)).
    simpl. rewrite Ht, (proj2 (is_option_spec o) Hd), (proj2 (one_of_false _ _) H2).
    rewrite (drop_S _ _ _ Ht) in Hdrop. injection Hdrop as Hdrop.
    rewrite IH by (simpl in Hf; done || lia). lia.
  - destruct fuel as [|fuel]; [simpl in Hf; lia|].
    assert (cmd !! i = Some o) as Ht by (exact (drop_head _ _ _ _ Hdrop)).
    simpl. rewrite Ht, (proj2 (is_option_spec o) Hd), (proj2 (one_of_In _ _) H2).
    assert (drop (i + 2) cmd = l ++ rest) as Hdrop2 by (by rewrite <- drop_drop, Hdrop).
    rewrite (IH _ _ Hdrop2) by (simpl in Hf; done || lia). lia.
Qed.

(** Where a wrapper's command starts. *)
Definition inner_at (ws : list str) (i : nat) (inner : list str) : Prop :=
  length ws ≥ i ∧ drop i ws = inner ∧ inner ≠ [].

Lemma strip_spec w args inner :
  strip_wrapper_command (w :: args) = Some inner ↔
  ∃ i, wrapper_inner_index (base_name w) (w :: args) = Some i ∧ inner_at (w :: args) i inner.
Proof.
  unfold strip_wrapper_command, inner_at. destruct (wrapper_inner_index _ _) as [i|]; [|naive_solver].
  destruct (Nat.ltb_spec (length (w :: args)) i).
  - split; [done|]. intros (j & [= <-] & ? & _). lia.
  - destruct (drop i (w :: args)) as [|c rest] eqn:Hd; split.
    + done.
    + intros (j & [= <-] & _ & E & ?). congruence.
    + intros [= <-]. exists i. split_and!; [done|lia|done|done].
    + intros (j & [= <-] & _ & E & ?). congruence.
Qed.

Lemma plain_inner two w args inner :
  inner_at (w :: args) (skip_options (length (w :: args)) two (w :: args) 1) inner ↔
  ∃ opts c rest, args = opts ++ c :: rest ∧ options two opts ∧ ¬ dashed c ∧ inner = c :: rest.
Proof.
  unfold inner_at. split.
  - intros (Hl & Hd & Hne). set (j := skip_options _ _ _ _) in *.
    destruct (skip_options_sound (length (w :: args)) two (w :: args) 1) as [?|(opts & Hs & Ho & Hj)];
      [lia|fold j in H; lia|].
    fold j in Hs, Hj. destruct inner as [|c rest]; [done|]. rewrite Hd in Hs.
    exists opts, c, rest. split_and!; try done. apply Hj.
    exact (drop_head _ _ _ _ Hd).
  - intros (opts & c & rest & -> & Ho & Hc & ->).
    rewrite (skip_options_complete _ two _ 1 opts (c :: rest)); [|done|done| |].
    + simpl. rewrite drop_app_length, length_app. simpl. split_and!; [lia|done|done].
    + simpl. rewrite length_app. lia.
    + by intros o [= <-].
Qed.

Lemma operand_inner two w args inner :
  (∃ i, (let i := skip_options (length (w :: args)) two (w :: args) 1 in
         if length (w :: args) <=? i then None else Some (S i)) = Some i ∧
        inner_at (w :: args) i inner) ↔
  ∃ opts c, args = opts ++ c :: inner ∧ options two opts ∧ ¬ dashed c ∧ inner ≠ [].
Proof.
  set (j := skip_options _ _ _ _). cbv zeta. split.
  - intros (i & E & Hl & Hd & Hne). destruct (Nat.leb_spec (length (w :: args)) j); [done|].
    injection E as <-. destruct (drop j (w :: args)) as [|c rest] eqn:Hj.
    { assert (length (drop j (w :: args)) = 0) as H0 by (by rewrite Hj).
      rewrite length_drop in H0. lia. }
    destruct (proj1 (plain_inner two w args (c :: rest))) as (opts & c' & rest' & -> & Ho & Hc & [= <- <-]).
    { fold j. unfold inner_at. split_and!; [lia|exact Hj|done]. }
    exists opts, c. split_and!; try done. do 2 f_equal.
    rewrite <- (Nat.add_1_r j), <- drop_drop, Hj in Hd. simpl in Hd. by rewrite <- Hd.
  - intros (opts & c & -> & Ho & Hc & Hne).
    assert (j = 1 + length opts) as Ej.
    { apply (skip_options_complete _ _ _ _ _ (c :: inner)); [done|done| |by intros o [= <-] ].
      simpl. rewrite length_app. lia. }
    exists (S j). rewrite Ej. split.
    + destruct (Nat.leb_spec (length (w :: opts ++ c :: inner)) (1 + length opts)) as [Hle|]; [|done].
      simpl in Hle. rewrite length_app in Hle. simpl in Hle. destruct inner; [done|]. simpl in Hle. lia.
    + unfold inner_at. simpl. rewrite length_app. simpl. split_and!; [lia| |done].
      by rewrite cons_middle, app_assoc, drop_app_length' by (rewrite length_app; simpl; lia).
Qed.

Lemma split_once_Some c s a b : split_once c s = Some (a, b) ↔ s = a ++ c :: b ∧ c ∉ a.
Proof.
  revert a. induction s as [|x s IH]; intros a; simpl.
  - split; [done|]. intros [E _]. by destruct a.
  - destruct (Z.eqb_spec x c) as [-> |Hne].
    + split.
      * intros [= <- <-]. split; [done|]. apply not_elem_of_nil.
      * intros [E Hn]. destruct a as [|y a]; [naive_solver|]. injection E as <- _. set_solver.
    + split.
      * destruct (split_once c s) as [ [a' b']|] eqn:Hs; [|done]. intros [= <- <-].
        destruct (proj1 (IH a')) as [-> Hn]; [done|]. split; [done|]. set_solver.
      * intros [E Hn]. destruct a as [|y a]; [naive_solver|]. injection E as <- E.
        rewrite (proj2 (IH a)); [done|]. split; [done|set_solver].
Qed.

Lemma is_env_assignment_spec w : is_env_assignment w = true ↔ assignment w.
Proof.
  unfold is_env_assignment, assignment.
  assert (∀ name, forallb (λ b, is_ascii_alphanumeric b || (b =? UNDERSCORE)%Z) name = true ↔
    Forall name_char name) as Hall.
  { intros name. rewrite forallb_forall, Forall_forall. unfold name_char.
    split; intros Hall x Hx; apply list_elem_of_In in Hx; specialize (Hall x Hx); cbv beta in *;
      rewrite orb_true_iff, Z.eqb_eq in *; done. }
  assert (∀ b, is_ascii_alphabetic b || (b =? UNDERSCORE)%Z = true ↔ name_start b) as Hstart.
  { intros b. unfold name_start. by rewrite orb_true_iff, Z.eqb_eq. }
  assert (¬ name_char EQUALS) as Heq by (unfold name_char; by vm_compute; intros []).
  split.
  - destruct (split_once EQUALS w) as [ [ [|c name] value]|] eqn:Hs; try done.
    apply split_once_Some in Hs as [-> _]. rewrite andb_true_iff, Hstart. cbn [forallb].
    rewrite andb_true_iff, Hall. intros (Hc & _ & Hn). by exists c, name, value.
  - intros (c & name & value & -> & Hc & Hn).
    assert (is_ascii_alphanumeric c || (c =? UNDERSCORE)%Z = true) as Hc'.
    { unfold name_start in Hc. unfold is_ascii_alphanumeric.
      destruct Hc as [-> | ->]; [done|]. by rewrite orb_true_r. }
    assert (split_once EQUALS ((c :: name) ++ EQUALS :: value) = Some (c :: name, value)) as Hs.
    { apply split_once_Some. split; [done|]. rewrite not_elem_of_cons. split.
      - intros <-. by vm_compute in Hc'.
      - intros Hin. rewrite Forall_forall in Hn. by apply Hn in Hin. }
    simpl app in Hs. rewrite Hs, andb_true_iff, Hstart. cbn [forallb].
    by rewrite Hc', andb_true_l, Hall.
Qed.

Lemma env_scan_out fuel cmd ch i : length cmd ≤ i → (env_scan_from fuel cmd ch i).2 = i.
Proof. intros Hi%lookup_ge_None. destruct fuel; simpl; [done|]. by rewrite Hi. Qed.

Lemma env_valued_not (p : string) w r :
  forallb (λ x, negb (starts_with (lit x) (lit p))) env_valued = true →
  w = lit p ++ r → one_of env_valued w = false.
Proof.
  intros Hp ->. apply one_of_false. rewrite list_elem_of_fmap. intros (x & E & Hin).
  rewrite forallb_forall in Hp. apply list_elem_of_In, Hp in Hin. apply negb_true_iff in Hin.
  revert Hin. apply not_false_iff_true. apply starts_with_spec. by exists r.
Qed.

Lemma env_valued_split tok :
  one_of env_valued tok =
  one_of ["-C"; "--chdir"] tok || one_of ["-u"; "--unset"; "-S"; "--split-string"] tok.
Proof. apply (existsb_app (λ x, str_eqb tok (lit x)) ["-C"; "--chdir"]). Qed.

(** One word of [env]. *)
Lemma env_step fuel cmd ch i tok :
  cmd !! i = Some tok →
  ∃ ch', (env_scan_from (S fuel) cmd ch i).2 =
    if str_eqb tok (lit "--") then S i
    else if negb (str_eqb tok (lit "-")) && is_option tok then
      (env_scan_from fuel cmd ch' (if one_of env_valued tok then i + 2 else S i)).2
    else if is_env_assignment tok then (env_scan_from fuel cmd ch' (S i)).2 else i.
Proof.
  intros Ht. cbn [env_scan_from]. rewrite Ht. destruct (str_eqb tok (lit "--")); [by exists ch|].
  destruct (_ && _); [|destruct (is_env_assignment tok); by exists ch].
  pose proof (env_valued_split tok) as Hv.
  destruct (one_of ["-C"; "--chdir"] tok) eqn:HC; [rewrite Hv; by eexists|].
  destruct (strip_prefix (lit "--chdir=") tok) as [dir|] eqn:H1.
  { apply strip_prefix_Some in H1. rewrite (env_valued_not "--chdir=" tok dir) by done.
    by eexists. }
  destruct (strip_prefix (lit "-C") tok) as [ [|x dir]|] eqn:H2.
  - apply strip_prefix_Some in H2. subst tok. by vm_compute in HC.
  - apply strip_prefix_Some in H2. assert (one_of env_valued tok = false) as ->; [|by eexists].
    subst tok. by vm_compute.
  - rewrite Hv. cbn [orb].
    by destruct (one_of ["-u"; "--unset"; "-S"; "--split-string"] tok); exists ch.
Qed.

(** A word that ends the arguments of [env]. *)
Definition env_stop (c : str) : Prop := (dashed c → c = lit "-") ∧ ¬ assignment c.

Lemma env_scan_sound fuel cmd ch i :
  length cmd ≤ fuel + i →
  let j := (env_scan_from fuel cmd ch i).2 in
  length cmd < j ∨
  ∃ args, env_args args ∧
    (drop i cmd = args ++ drop j cmd ∧ (∀ c, cmd !! j = Some c → env_stop c) ∨
     drop i cmd = args ++ lit "--" :: drop j cmd).
Proof.
  revert ch i. induction fuel as [|fuel IH]; intros ch i Hf; cbv zeta.
  { right. exists []. split; [constructor|]. left. split; [done|].
    intros c Hc%lookup_lt_Some. simpl in Hc. lia. }
  destruct (cmd !! i) as [tok|] eqn:Ht.
  2: { right. exists []. simpl. rewrite Ht. split; [constructor|]. left. split; [done|].
       simpl. congruence. }
  destruct (env_step fuel cmd ch i tok Ht) as [ch' ->]. rewrite (drop_S _ _ _ Ht).
  assert (∀ k pre, length cmd ≤ fuel + k → tok :: drop (S i) cmd = pre ++ drop k cmd →
    (∀ args, env_args args → env_args (pre ++ args)) →
    let j := (env_scan_from fuel cmd ch' k).2 in
    length cmd < j ∨ ∃ args, env_args args ∧
      (tok :: drop (S i) cmd = args ++ drop j cmd ∧ (∀ c, cmd !! j = Some c → env_stop c) ∨
       tok :: drop (S i) cmd = args ++ lit "--" :: drop j cmd)) as Hnext.
  { intros k pre Hk Hpre Hargs. destruct (IH ch' k Hk) as [|(args & Ha & Hd)]; [by left|right].
    exists (pre ++ args). split; [by apply Hargs|]. rewrite Hpre, <- !app_assoc.
    destruct Hd as [ [-> Hc]| ->]; [by left|by right]. }
  destruct (str_eqb tok (lit "--")) eqn:Hend.
  { apply str_eqb_eq in Hend as ->. right. exists []. split; [constructor|by right]. }
  destruct (negb (str_eqb tok (lit "-")) && is_option tok) eqn:Hopt.
  - apply andb_true_iff in Hopt as [Hne Hd%is_option_spec].
    destruct (one_of env_valued tok) eqn:Hv.
    + apply one_of_In in Hv. destruct (cmd !! S i) as [v|] eqn:Hvl.
      * apply (Hnext (i + 2) [tok; v]); [lia| |by constructor].
        rewrite (drop_S _ _ _ Hvl). by replace (S (S i)) with (i + 2) by lia.
      * apply lookup_ge_None in Hvl. left. rewrite env_scan_out; lia.
    + apply (Hnext (S i) [tok]); [lia|done|]. intros args. apply env_option; [done|].
      apply one_of_false in Hv. rewrite map_app, elem_of_app. intros [Hin|Hin]; [|done].
      apply one_of_In in Hin. unfold one_of in Hin. simpl in Hin. rewrite Hend in Hin.
      by destruct (str_eqb tok (lit "-")).
  - assert (dashed tok → tok = lit "-") as Hd.
    { intros Hd%is_option_spec. rewrite Hd, andb_true_r in Hopt.
      apply str_eqb_eq. by apply negb_false_iff. }
    destruct (is_env_assignment tok) eqn:Ha.
    + apply is_env_assignment_spec in Ha. apply (Hnext (S i) [tok]); [lia|done|].
      intros args. by apply env_assign.
    + right. exists []. rewrite <- (drop_S _ _ _ Ht). split; [constructor|]. left.
      split; [done|]. intros c Hc. assert (c = tok) as -> by congruence.
      split; [done|]. rewrite <- is_env_assignment_spec. congruence.
Qed.

Lemma env_step_stop fuel cmd ch i c :
  cmd !! i = Some c → env_stop c → (env_scan_from (S fuel) cmd ch i).2 = i.
Proof.
  intros Hc [Hd Ha]. destruct (env_step fuel cmd ch i c Hc) as [ch' ->].
  rewrite <- is_env_assignment_spec in Ha. apply not_true_iff_false in Ha.
  destruct (str_eqb c (lit "--")) eqn:E.
  { apply str_eqb_eq in E as ->. by discriminate (Hd ltac:(by exists (lit "-"))). }
  destruct (is_option c) eqn:Ho; [|by rewrite andb_false_r, Ha].
  apply is_option_spec, Hd in Ho as ->. by rewrite Ha.
Qed.

(** One argument of [env], of one or two words. *)
Lemma env_step_arg cmd ch i w n :
  cmd !! i = Some w →
  (n = 2 ∧ w ∈ map lit env_valued) ∨
  (n = 1 ∧ (dashed w ∧ w ∉ map lit (["-"; "--"] ++ env_valued) ∨ assignment w)) →
  ∀ fuel, ∃ ch', (env_scan_from (S fuel) cmd ch i).2 = (env_scan_from fuel cmd ch' (i + n)).2.
Proof.
  intros Hw Hn fuel. destruct (env_step fuel cmd ch i w Hw) as [ch' ->]. exists ch'.
  destruct Hn as [ [-> Hv]|[-> [ [Hd Hv]|Ha] ] ].
  - assert (dashed w ∧ w ∉ map lit ["-"; "--"]) as [Hd Hn].
    { apply list_elem_of_fmap in Hv as (x & -> & Hx%list_elem_of_In).
      assert (forallb (λ x, is_option (lit x) && negb (one_of ["-"; "--"] (lit x))) env_valued
        = true) as Hall by by vm_compute.
      rewrite forallb_forall in Hall. apply Hall, andb_true_iff in Hx as [Ho Hn].
      split; [by apply is_option_spec|]. by apply one_of_false, negb_true_iff. }
    apply one_of_false in Hn. unfold one_of in Hn. cbn [existsb] in Hn.
    apply orb_false_iff in Hn as [-> [-> _]%orb_false_iff].
    apply is_option_spec in Hd as ->. apply one_of_In in Hv as ->. done.
  - rewrite map_app, not_elem_of_app in Hv. destruct Hv as [Hn Hv].
    apply one_of_false in Hn. unfold one_of in Hn. cbn [existsb] in Hn.
    apply orb_false_iff in Hn as [-> [-> _]%orb_false_iff].
    apply is_option_spec in Hd as ->. apply one_of_false in Hv as ->. cbn. by rewrite Nat.add_1_r.
  - assert (¬ dashed w) as Hd.
    { destruct Ha as (c & name & value & -> & [Hc| ->] & _); intros [r E]; injection E as E _;
        [subst c; by vm_compute in Hc|done]. }
    apply is_option_false in Hd as ->. rewrite andb_false_r.
    destruct (str_eqb w (lit "--")) eqn:E.
    { apply str_eqb_eq in E as ->. destruct Ha as (c & name & value & E & [Hc| ->] & _); [|done].
      injection E as <- _. by vm_compute in Hc. }
    apply is_env_assignment_spec in Ha as ->. by rewrite Nat.add_1_r.
Qed.

Lemma env_scan_complete fuel cmd ch i args rest stop :
  env_args args → length args < fuel → drop i cmd = args ++ stop ++ rest →
  (stop = [] ∧ (∀ c, head rest = Some c → env_stop c)) ∨ stop = [lit "--"] →
  (env_scan_from fuel cmd ch i).2 = i + length args + length stop.
Proof.
  intros Ha. revert fuel ch i.
  induction Ha as [|o l Hd Hn Ha IH|o v l Hv Ha IH|a l Has Ha IH];
    intros [|fuel] ch i Hf Hdrop Hstop; simpl in Hf; try lia.
  - destruct Hstop as [ [-> Hstop]| ->].
    + cbn [length app] in *. rewrite !Nat.add_0_r. destruct (cmd !! i) as [c|] eqn:Hc.
      * rewrite (drop_S _ _ _ Hc) in Hdrop. subst rest.
        apply (env_step_stop fuel _ ch _ c); auto.
      * apply env_scan_out. by apply lookup_ge_None.
    + pose proof (drop_head _ _ _ _ Hdrop) as Hc.
      destruct (env_step fuel cmd ch i _ Hc) as [ch' E]. rewrite E.
      rewrite (proj2 (str_eqb_eq _ _) eq_refl). cbn [length]. lia.
  - pose proof (drop_head _ _ _ _ Hdrop) as Hc.
    destruct (env_step_arg cmd ch i o 1 Hc ltac:(auto) fuel) as [ch' ->].
    rewrite (IH fuel ch' (i + 1)); [simpl; lia|lia| |done]. by rewrite <- drop_drop, Hdrop.
  - pose proof (drop_head _ _ _ _ Hdrop) as Hc.
    destruct (env_step_arg cmd ch i o 2 Hc ltac:(auto) fuel) as [ch' ->].
    rewrite (IH fuel ch' (i + 2)); [simpl; lia|lia| |done]. by rewrite <- drop_drop, Hdrop.
  - pose proof (drop_head _ _ _ _ Hdrop) as Hc.
    destruct (env_step_arg cmd ch i a 1 Hc ltac:(auto) fuel) as [ch' ->].
    rewrite (IH fuel ch' (i + 1)); [simpl; lia|lia| |done]. by rewrite <- drop_drop, Hdrop.
Qed.

Lemma env_inner w args inner :
  inner_at (w :: args) (env_scan (w :: args)).2 inner ↔
  ∃ eargs c rest, env_args eargs ∧ inner = c :: rest ∧
    (args = eargs ++ c :: rest ∧ env_stop c ∨ args = eargs ++ lit "--" :: c :: rest).
Proof.
  unfold inner_at, env_scan. split.
  - intros (Hl & Hd & Hne). set (j := (env_scan_from _ _ _ _).2) in *.
    destruct (env_scan_sound (length (w :: args)) (w :: args) None 1) as [?|(eargs & Ha & Hs)];
      [lia|fold j in H; lia|].
    fold j in Hs. destruct inner as [|c rest]; [done|]. rewrite Hd in Hs. exists eargs, c, rest.
    split_and!; [done|done|]. destruct Hs as [ [Hs Hc]|Hs]; [left|by right].
    split; [done|]. apply Hc. exact (drop_head _ _ _ _ Hd).
  - intros (eargs & c & rest & Ha & -> & Hs).
    assert (∃ stop, args = eargs ++ stop ++ c :: rest ∧
      ((stop = [] ∧ ∀ c', head (c :: rest) = Some c' → env_stop c') ∨ stop = [lit "--"]))
      as (stop & -> & Hstop).
    { destruct Hs as [ [-> Hc]| ->]; [exists []|by exists [lit "--"]; auto].
      split; [done|]. left. split; [done|]. by intros c' [= <-]. }
    rewrite (env_scan_complete _ _ _ _ eargs (c :: rest) stop); [|done| |done|done].
    + simpl. rewrite app_assoc, <- length_app, drop_app_length, length_app. split_and!; [lia|done|done].
    + simpl. rewrite length_app. lia.
Qed.

Lemma index_operand program two cmd :
  (program, two) ∈ operand_wrappers →
  wrapper_inner_index (lit program) cmd =
    (let i := skip_options (length cmd) two cmd 1 in
     if length cmd <=? i then None else Some (S i)) ∧
  ∀ w, base_name w = lit program ↔ names w program.
Proof.
  intros Hin. apply list_elem_of_In in Hin as [ [= <- <-]|[ [= <- <-]|[] ] ];
    (split; [done|intros w; by apply names_spec]).
Qed.

Lemma index_plain program two cmd :
  (program, two) ∈ plain_wrappers →
  wrapper_inner_index (lit program) cmd = Some (skip_options (length cmd) two cmd 1) ∧
  ∀ w, base_name w = lit program ↔ names w program.
Proof.
  intros Hin. apply list_elem_of_In in Hin as [ [= <- <-]|[ [= <- <-]|[ [= <- <-]|[] ] ] ];
    (split; [done|intros w; by apply names_spec]).
Qed.

Lemma index_cases program cmd i :
  wrapper_inner_index program cmd = Some i →
  ∃ name two, program = lit name ∧
    ((name, two) ∈ operand_wrappers ∨ (name, two) ∈ plain_wrappers ∨ name = "env").
Proof.
  unfold wrapper_inner_index. cbv zeta.
  destruct (str_eqb program (lit "timeout")) eqn:E1.
  { apply str_eqb_eq in E1 as ->. intros _. eexists _, _. split; [done|]. left. left. }
  destruct (str_eqb program (lit "nice")) eqn:E2.
  { apply str_eqb_eq in E2 as ->. intros _. eexists _, _. split; [done|]. right. left. left. }
  destruct (str_eqb program (lit "ionice")) eqn:E3.
  { apply str_eqb_eq in E3 as ->. intros _. eexists _, _. split; [done|].
    right. left. right. right. left. }
  destruct (str_eqb program (lit "chrt")) eqn:E4.
  { apply str_eqb_eq in E4 as ->. intros _. eexists _, _. split; [done|]. left. right. left. }
  destruct (str_eqb program (lit "stdbuf")) eqn:E5.
  { apply str_eqb_eq in E5 as ->. intros _. eexists _, _. split; [done|].
    right. left. right. left. }
  destruct (str_eqb program (lit "env")) eqn:E6; [|done].
  apply str_eqb_eq in E6 as ->. intros _. by exists "env", []; auto.
Qed.

Lemma index_env cmd : wrapper_inner_index (lit "env") cmd = Some (env_scan cmd).2.
Proof. done. Qed.

Lemma wraps_spec ws inner : strip_wrapper_command ws = Some inner ↔ wraps ws inner.
Proof.
  split.
  - destruct ws as [|w args]; [done|]. rewrite strip_spec. intros (i & E & Hi).
    destruct (index_cases _ _ _ E) as (name & two & Hw & [Hin|[Hin| ->] ]).
    + destruct (index_operand name two (w :: args) Hin) as [Ei Hn]. rewrite Hw, Ei in E.
      destruct (proj1 (operand_inner two w args inner)) as (opts & c & -> & Ho & Hc & Hne); [eauto|].
      apply (wraps_operand name two); [done|by apply Hn|done..].
    + destruct (index_plain name two (w :: args) Hin) as [Ei Hn]. rewrite Hw, Ei in E.
      injection E as <-. apply plain_inner in Hi as (opts & c & rest & -> & Ho & Hc & ->).
      apply (wraps_plain name two); [done|by apply Hn|done..].
    + rewrite Hw, index_env in E. injection E as <-. apply names_spec in Hw; [|done].
      apply env_inner in Hi as (eargs & c & rest & Ha & -> & [ [-> [Hd Hc] ]| ->]);
        by constructor.
  - intros Hw. destruct Hw as [name two w opts c inner Hin Hw Ho Hc Hne
      |name two w opts c inner Hin Hw Ho Hc|w args c inner Hw Ha Hd Hc|w args c inner Hw Ha];
      apply strip_spec.
    + destruct (index_operand name two (w :: opts ++ c :: inner) Hin) as [Ei Hn].
      apply Hn in Hw. rewrite Hw, Ei. apply operand_inner. by exists opts, c.
    + destruct (index_plain name two (w :: opts ++ c :: inner) Hin) as [Ei Hn].
      apply Hn in Hw. rewrite Hw, Ei. eexists. split; [done|]. apply plain_inner.
      by exists opts, c, inner.
    + apply names_spec in Hw; [|done]. rewrite Hw, index_env. eexists. split; [done|].
      apply env_inner. exists args, c, inner. split_and!; [done|done|]. by left.
    + apply names_spec in Hw; [|done]. rewrite Hw, index_env. eexists. split; [done|].
      apply env_inner. exists args, c, inner. split_and!; [done|done|]. by right.
Qed.

Lemma wraps_shorter ws inner : wraps ws inner → length inner < length ws.
Proof. intros Hw. destruct Hw; simpl; rewrite length_app; simpl; lia. Qed.

Lemma peeled_spec n ws bare : unwrap_loop n ws = bare ↔ peeled n ws bare.
Proof.
  revert ws. induction n as [|n IH]; intros ws; simpl.
  - split; [intros <-; apply peeled_enough|]. by inversion 1.
  - destruct (strip_wrapper_command ws) as [inner|] eqn:Hs.
    + apply wraps_spec in Hs as Hw. rewrite IH. split; [by apply peeled_more|].
      inversion 1 as [? ? Hno| |? ? inner' ? Hw' Hp]; subst; [by apply Hno in Hw|].
      apply wraps_spec in Hw'. by replace inner with inner' by congruence.
    + split.
      * intros <-. apply peeled_bare. intros inner Hw%wraps_spec. congruence.
      * inversion 1 as [| |? ? inner' ? Hw' Hp]; subst; [done|].
        apply wraps_spec in Hw'. congruence.
Qed.

Lemma peeled_length n ws bare : peeled n ws bare → bare = ws ∨ length bare < length ws.
Proof.
  induction 1 as [| |n ws inner bare Hw%wraps_shorter Hp IH]; [by left..|]. right.
  destruct IH as [-> |]; lia.
Qed.

Lemma forms_spec ws form : form ∈ forms ws ↔ judged ws form.
Proof.
  unfold forms, judged, unwrap_wrappers. rewrite <- peeled_spec, elem_of_cons.
  set (bare := unwrap_loop 8 ws).
  destruct (peeled_length 8 ws bare) as [Hb|Hb]; [by apply peeled_spec|..].
  - rewrite Hb, Nat.eqb_refl. cbn [negb]. set_solver.
  - destruct (Nat.eqb_spec (length bare) (length ws)); [lia|]. cbn [negb]. set_solver.
Qed.

Lemma position_spec {A} (f : A → bool) l n :
  position f l = Some n ↔
  ∃ pre x post, l = pre ++ x :: post ∧ n = length pre ∧ Forall (λ y, f y = false) pre ∧ f x = true.
Proof.
  revert n. induction l as [|x l IH]; intros n; simpl.
  - split; [done|]. intros ([|] & ? & ? & ? & _); done.
  - destruct (f x) eqn:Hx.
    + split.
      * intros [= <-]. by exists [], x, l.
      * intros ([|y pre] & x' & post & [= <- ->] & -> & Hpre & _); [done|].
        apply Forall_cons in Hpre as [? _]. congruence.
    + rewrite fmap_Some. setoid_rewrite IH. split.
      * intros (m & (pre & x' & post & -> & -> & Hpre & Hx') & ->).
        exists (x :: pre), x', post. split_and!; [done|done|by constructor|done].
      * intros ([|y pre] & x' & post & [= <- ->] & -> & Hpre & Hx'); [congruence|].
        apply Forall_cons in Hpre as [_ Hpre]. eexists. split; [|done]. by exists pre, x', post.
Qed.

Lemma first_operand_spec rest script :
  first_operand rest = Some script ↔
  ∃ opts tail, Forall (λ w, dashed w ∧ w ∉ map lit ["-"; "--"]) opts ∧
    (rest = opts ++ script :: tail ∧ ¬ dashed script ∨
     ∃ stop, rest = opts ++ stop :: script :: tail ∧ stop ∈ map lit ["-"; "--"]).
Proof.
  induction rest as [|w rest IH].
  - split; [done|]. intros (opts & tail & _ & [ [E _]|(stop & E & _)]); by destruct opts.
  - cbn [first_operand]. destruct (one_of ["--"; "-"] w) eqn:Hstop.
    + assert (w ∈ map lit ["-"; "--"]) as Hw by (apply one_of_In in Hstop; simpl in *; set_solver).
      assert (dashed w) as Hd.
      { apply list_elem_of_fmap in Hw as (x & -> & Hx). apply is_option_spec.
        apply list_elem_of_In in Hx as [<- |[<- |[] ] ]; done. }
      split.
      * intros Hr. destruct rest as [|s tail]; [done|]. injection Hr as ->.
        exists [], tail. split; [done|]. right. by exists w.
      * intros (opts & tail & Ho & Hs). destruct opts as [|o opts].
        -- destruct Hs as [ [ [= -> ->] ?]|(stop & [= -> ->] & _)]; done.
        -- apply Forall_cons in Ho as [ [_ Ho] _].
           destruct Hs as [ [ [= -> _] _]|(stop & [= -> _] & _)]; done.
    + assert (w ∉ map lit ["-"; "--"]) as Hw.
      { intros Hin. apply not_true_iff_false in Hstop. apply Hstop, one_of_In.
        simpl in *. set_solver. }
      destruct (is_option w) eqn:Ho; cbn [negb].
      * apply is_option_spec in Ho. rewrite IH. split.
        -- intros (opts & tail & Hf & Hs). exists (w :: opts), tail.
           split; [by constructor|]. destruct Hs as [ [-> ?]|(stop & -> & ?)]; [by left|].
           right. by exists stop.
        -- intros (opts & tail & Hf & Hs). destruct opts as [|o opts].
           ++ destruct Hs as [ [ [= -> ->] ?]|(stop & [= -> ->] & ?)]; done.
           ++ apply Forall_cons in Hf as [_ Hf]. exists opts, tail. split; [done|].
              destruct Hs as [ [ [= -> ->] ?]|(stop & [= -> ->] & ?)]; [by left|right].
              by exists stop.
      * apply is_option_false in Ho. split.
        -- intros [= <-]. exists [], rest. split; [done|]. by left.
        -- intros ([|o opts] & tail & Hf & Hs).
           ++ destruct Hs as [ [ [= -> ->] ?]|(stop & [= -> ->] & ?)]; done.
           ++ apply Forall_cons in Hf as [ [Hd _] _].
              destruct Hs as [ [ [= -> ->] ?]|(stop & [= -> ->] & ?)]; done.
Qed.

Lemma contains_char s c : contains s [c] = true ↔ c ∈ s.
Proof.
  unfold contains. induction s as [|x s IH]; [by split; [|intros ?%elem_of_nil]|].
  cbn [find]. unfold starts_with. cbn [strip_prefix]. rewrite elem_of_cons, <- IH.
  destruct (Z.eqb_spec c x) as [-> |]; [by split; [left|] |].
  destruct (find s [c]); naive_solver.
Qed.

Lemma is_c_flag_spec w : is_c_flag w = true ↔ c_cluster w.
Proof.
  unfold is_c_flag, c_cluster. rewrite !andb_true_iff, negb_true_iff, is_option_spec.
  change (lit "c") with [99%Z]. rewrite contains_char. unfold dashed. split.
  - intros [ [ [r ->] Hdd] Hc]. exists r. split_and!; [done| |set_solver].
    intros r' ->. by apply not_true_iff_false in Hdd; destruct Hdd; apply starts_with_spec; exists r'.
  - intros (r & -> & Hdd & Hc). split; [|set_solver]. split; [by exists r|].
    apply not_true_iff_false. rewrite starts_with_spec. intros [r' [= ->] ]. by destruct (Hdd r').
Qed.

Lemma shells_spec w :
  one_of SHELLS (base_name w) = true ↔
  ∃ shell, shell ∈ ["bash"; "sh"; "dash"; "zsh"; "ksh"] ∧ names w shell.
Proof.
  rewrite one_of_In, list_elem_of_fmap. unfold SHELLS. split.
  - intros (shell & E & Hin). exists shell. split; [done|]. apply names_spec; [|done].
    apply list_elem_of_In in Hin as [<- |[<- |[<- |[<- |[<- |[] ] ] ] ] ]; done.
  - intros (shell & Hin & Hn). exists shell. split; [|done]. apply names_spec; [|done].
    apply list_elem_of_In in Hin as [<- |[<- |[<- |[<- |[<- |[] ] ] ] ] ]; done.
Qed.

Lemma passes_spec ws script : shell_dash_c_script ws = Some script ↔ passes ws script.
Proof.
  assert (∀ l, Forall (λ w, is_c_flag w = false) l ↔ Forall (λ w, ¬ c_cluster w) l) as Hflags.
  { intros l. apply Forall_iff. intros w. rewrite <- is_c_flag_spec. by rewrite not_true_iff_false. }
  assert (∀ (w c : str) before rest, drop (length before + 2) (w :: before ++ c :: rest) = rest)
    as Hdrop.
  { intros w c before rest. rewrite Nat.add_comm. simpl.
    rewrite cons_middle, app_assoc, drop_app_length' by (rewrite length_app; simpl; lia). done. }
  unfold shell_dash_c_script. split.
  - destruct ws as [|w rest]; [done|]. destruct (one_of SHELLS _) eqn:Hsh; [|done].
    apply shells_spec in Hsh as (shell & Hin & Hn). cbn [negb].
    destruct (position is_c_flag rest) as [flag|] eqn:Hp; [|done].
    apply position_spec in Hp as (before & c & post & -> & -> & Hb%Hflags & Hc%is_c_flag_spec).
    rewrite Hdrop. intros (opts & tail & Ho & [ [-> Hd]|(stop & -> & Hs)])%first_operand_spec.
    + by apply (passes_operand shell).
    + by apply (passes_end shell).
  - assert (∀ shell w before c post, shell ∈ ["bash"; "sh"; "dash"; "zsh"; "ksh"] → names w shell →
      Forall (λ w, ¬ c_cluster w) before → c_cluster c →
      one_of SHELLS (base_name w) = true ∧
      position is_c_flag (before ++ c :: post) = Some (length before)) as Hhead.
    { intros shell w before c post Hin Hn Hb%Hflags Hc%is_c_flag_spec.
      split; [apply shells_spec; eauto|]. apply position_spec. by exists before, c, post. }
    intros Hp. destruct Hp as [shell w before c opts s rest Hin Hn Hb Hc Ho Hd
      |shell w before c opts stop s rest Hin Hn Hb Hc Ho Hs].
    + destruct (Hhead shell w before c (opts ++ s :: rest)) as [-> ->]; try done. cbn [negb].
      rewrite Hdrop. apply first_operand_spec. exists opts, rest. auto.
    + destruct (Hhead shell w before c (opts ++ stop :: s :: rest)) as [-> ->]; try done.
      cbn [negb]. rewrite Hdrop. apply first_operand_spec. exists opts, rest. eauto.
Qed.

(** ** Segments *)

(** The commands a script runs, as far as the splitter takes it apart: every
    command of it as it is written, and without its wrappers; and the commands
    of the scripts these pass to a shell, down to [left] levels. *)
Inductive reaches : nat → str → str → Prop :=
| reach_here left cmd segments c ws :
    all_commands_from_script cmd = Some segments → c ∈ segments → judged (words c) ws →
    reaches (S left) cmd (join_words ws)
| reach_inner left cmd segments c ws inner s :
    all_commands_from_script cmd = Some segments → c ∈ segments → judged (words c) ws →
    passes ws inner → reaches left inner s →
    reaches (S left) cmd s.

(** A script, or one nested in it, that is too deep or that the splitter cannot
    take apart. *)
Inductive unjudged : nat → str → Prop :=
| too_deep cmd : unjudged 0 cmd
| unsplit left cmd : all_commands_from_script cmd = None → unjudged (S left) cmd
| unjudged_inner left cmd segments c ws inner :
    all_commands_from_script cmd = Some segments → c ∈ segments → judged (words c) ws →
    passes ws inner → unjudged left inner →
    unjudged (S left) cmd.

(** What one form contributes to the fold. *)
Definition form_decision (p : CompiledPolicy) (left : nat) (ws : list str) : option Decision :=
  combine_decisions (escalate (evaluate p (Bash (join_words ws))))
    match shell_dash_c_script ws with
    | Some inner => evaluate_bash_command_segments p left inner
    | None => None
    end.

Lemma segments_rank_step p left cmd segments k :
  all_commands_from_script cmd = Some segments → (1 ≤ k)%nat →
  (k ≤ rank (evaluate_bash_command_segments p (S left) cmd))%nat
  ↔ ∃ c ws, c ∈ segments ∧ ws ∈ forms (words c) ∧ (k ≤ rank (form_decision p left ws))%nat.
Proof.
  intros Hs Hk. cbn [evaluate_bash_command_segments]. rewrite Hs.
  set (step := λ (decision : option Decision) ws, _).
  assert (∀ l d, (k ≤ rank (foldl step d l))%nat
            ↔ (k ≤ rank d)%nat ∨ ∃ ws, ws ∈ l ∧ (k ≤ rank (form_decision p left ws))%nat) as Hf.
  { induction l as [|ws l IH]; intros d; cbn [foldl].
    - set_solver.
    - rewrite IH. assert (rank (step d ws) = Nat.max (rank d) (rank (form_decision p left ws))) as ->.
      { unfold step, form_decision. destruct (shell_dash_c_script ws); rewrite !rank_combine;
          cbn [rank from_option]; lia. }
      setoid_rewrite elem_of_cons. rewrite Nat.max_le_iff. naive_solver. }
  rewrite Hf. cbn [rank from_option]. split.
  - intros [Hz|(ws & Hin & Hr)]; [lia|].
    apply list_elem_of_In, in_flat_map in Hin as (c & Hc & Hws).
    exists c, ws. by rewrite !list_elem_of_In.
  - intros (c & ws & Hc & Hws & Hr). right. exists ws. split; [|done].
    apply list_elem_of_In, in_flat_map. exists c. by rewrite <- !list_elem_of_In.
Qed.

(** The strength of the gate's answer, at every depth. *)
Lemma segments_rank p k left cmd :
  (1 ≤ k)%nat →
  (k ≤ rank (evaluate_bash_command_segments p left cmd))%nat
  ↔ (∃ s, reaches left cmd s ∧ (k ≤ rank (escalate (evaluate p (Bash s))))%nat)
    ∨ (k ≤ 2)%nat ∧ unjudged left cmd.
Proof.
  intros Hk. revert cmd. induction left as [|left IH]; intros cmd.
  { split; [intros H; right; split; [exact H|constructor]|].
    intros [(s & Hr & _)|[H _]]; [inversion Hr|exact H]. }
  destruct (all_commands_from_script cmd) as [segments|] eqn:Hs.
  - rewrite segments_rank_step by done. split.
    + intros (c & ws & Hc & Hws & Hr). unfold form_decision in Hr.
      rewrite rank_combine, Nat.max_le_iff in Hr. destruct Hr as [Hr|Hr].
      * left. exists (join_words ws). apply forms_spec in Hws. split; [by eapply reach_here|done].
      * destruct (shell_dash_c_script ws) as [inner|] eqn:Hi; [|cbn in Hr; lia].
        apply passes_spec in Hi. apply forms_spec in Hws.
        apply IH in Hr as [(s & Hrs & Hr)|[H2 Hu]].
        -- left. exists s. split; [by eapply reach_inner|done].
        -- right. split; [done|]. by eapply unjudged_inner.
    + intros [(s & Hrs & Hr)|[H2 Hu]].
      * inversion Hrs as [? ? sg c ws Hsg Hc Hws|? ? sg c ws inner ? Hsg Hc Hws Hi Hin]; subst;
          rewrite Hs in Hsg; injection Hsg as <-; apply forms_spec in Hws; exists c, ws;
          split_and!; try done;
          unfold form_decision; rewrite rank_combine, Nat.max_le_iff; [by left|].
        right. apply passes_spec in Hi. rewrite Hi. apply IH. left. by exists s.
      * inversion Hu as [|? ? Hn|? ? sg c ws inner Hsg Hc Hws Hi Hin]; subst; [congruence|].
        rewrite Hs in Hsg. injection Hsg as <-. apply forms_spec in Hws. apply passes_spec in Hi.
        exists c, ws. split_and!; try done.
        unfold form_decision. rewrite rank_combine, Nat.max_le_iff. right. rewrite Hi.
        apply IH. by right.
  - cbn [evaluate_bash_command_segments]. rewrite Hs. cbn [rank from_option decision_rank]. split.
    + intros H. right. split; [exact H|by constructor].
    + intros [(s & Hrs & _)|[H _]]; [|exact H]. by inversion Hrs; congruence.
Qed.

Lemma escalate_escalation p access : escalation (escalate (evaluate p access)).
Proof.
  unfold evaluate. generalize false at 1 as a. generalize false as b.
  induction (zip _ _) as [|rm l IH]; intros b a; cbn [evaluate_loop].
  - by destruct a, b.
  - destruct (negb _); [apply IH|]. destruct (negb _); [apply IH|].
    destruct (action rm.1); [apply IH|done|apply IH].
Qed.

Lemma escalate_deny p access r :
  escalate (evaluate p access) = Some (Reject r) ↔ evaluate p access = Some (Reject r).
Proof. by destruct (evaluate p access) as [[]|]. Qed.
Lemma escalate_ask p access :
  escalate (evaluate p access) = Some Ask ↔ evaluate p access = Some Ask.
Proof. by destruct (evaluate p access) as [[]|]. Qed.

Lemma segments_escalation p left cmd : escalation (evaluate_bash_command_segments p left cmd).
Proof.
  revert cmd. induction left as [|left IH]; intros cmd; [done|].
  cbn [evaluate_bash_command_segments]. destruct (all_commands_from_script cmd) as [segments|]; [|done].
  set (step := λ (decision : option Decision) ws, _).
  assert (∀ l d, escalation d → escalation (foldl step d l)) as H; [|by apply H].
  induction l as [|ws l IHl]; intros d Hd; [done|]. cbn [foldl]. apply IHl. unfold step.
  destruct (shell_dash_c_script ws);
    repeat first [assumption|apply IH|apply escalate_escalation|apply escalation_combine].
Qed.

Lemma rank_deny d : escalation d → (3 ≤ rank d)%nat ↔ ∃ r, d = Some (Reject r).
Proof.
  destruct d as [[]|]; cbn; intros H; try done; split; intros G;
    first [lia|by eexists|by destruct G].
Qed.
Lemma rank_ask d :
  escalation d → (2 ≤ rank d)%nat ↔ (∃ r, d = Some (Reject r)) ∨ d = Some Ask.
Proof.
  destruct d as [[]|]; cbn; intros H; try done; split; intros G;
    first [lia|by left; eexists|by right|by destruct G as [[? ?]|?]].
Qed.

(** Without the flag no rule can escalate a command. *)
Lemma unrestricted_commands c s :
  has_bash_command_restrictions (CompiledPolicy_new c) = false →
  escalate (evaluate (CompiledPolicy_new c) (Bash s)) = None.
Proof.
  cbn [CompiledPolicy_new has_bash_command_restrictions]. intros Hr.
  assert (∀ r, r ∈ rules c → applies (Bash s) r = true → restrictive r = false) as Hno.
  { intros r Hin Ha. apply not_true_is_false. intros Hx.
    assert (existsb (λ r, restrictive r && match tool r with BashTool | AnyTool => true
                                                       | _ => false end) (rules c) = true);
      [|congruence].
    apply existsb_exists. exists r. split; [by apply list_elem_of_In|]. rewrite Hx.
    unfold applies, rule_matches in Ha. apply andb_true_iff in Ha as [Ht _].
    cbn [fst] in Ht. by destruct (tool r). }
  assert (∀ a, a ≠ ActionAllow → ¬ hit c (Bash s) a) as Hh.
  { intros a Hne (r & Hin & <- & Ha). specialize (Hno r Hin Ha). unfold restrictive in Hno.
    by destruct (action r). }
  destruct (evaluate_exact c (Bash s)) as [[H _]|[(_ & H & _)|[(_ & _ & _ & ->)|(_ & _ & _ & ->)]]];
    try done; by apply Hh in H.
Qed.

(** C33: with deny or ask rules for commands, the command gate rejects a script
    exactly when a command it runs is denied, and asks exactly when none is
    denied and one is to be asked about, or some part cannot be judged.  The
    commands a script runs are those the splitter finds, each as it is written
    and without the wrappers [timeout], [chrt], [nice], [ionice], [stdbuf] and
    [env], up to 8 of them, with their options and operands, and those of the
    scripts these pass to [bash], [sh], [dash], [zsh] or [ksh] with [-c], the
    script being the first operand after the cluster of options with the [c].
    A part cannot be judged when it lies 8 scripts deep or the splitter refuses
    it.  (An option argument between the cluster and the script is taken for the
    script, as the comment on [shell_dash_c_script] says.)  The gate never
    allows, and without such rules, when it is skipped, no rule could have
    escalated. *)
Theorem bash_segments_exact (c : PermissionConfig) (cmd : str) :
  let p := CompiledPolicy_new c in
  let denied s := ∃ r, evaluate p (Bash s) = Some (Reject r) in
  let restricted := has_bash_command_restrictions p in
  let d := evaluate_bash_command_policy p cmd in
  (restricted = true →
     ((∃ r, d = Some (Reject r)) ↔ ∃ s, reaches 8 cmd s ∧ denied s)
     ∧ (d = Some Ask ↔
          (¬ ∃ s, reaches 8 cmd s ∧ denied s)
          ∧ (unjudged 8 cmd ∨ ∃ s, reaches 8 cmd s ∧ evaluate p (Bash s) = Some Ask)))
  ∧ escalation d
  ∧ (restricted = false → d = None ∧ ∀ s, escalate (evaluate p (Bash s)) = None).
Proof.
  cbn zeta. set (p := CompiledPolicy_new c). unfold evaluate_bash_command_policy.
  split_and!.
  2: { destruct (negb _); [done|apply segments_escalation]. }
  2: { intros H. rewrite H. split; [done|]. intros s. by apply unrestricted_commands. }
  intros ->. cbn [negb]. set (d := evaluate_bash_command_segments p 8 cmd).
  assert (Hd : escalation d) by apply segments_escalation.
  assert (Hdeny : (∃ r, d = Some (Reject r))
                  ↔ ∃ s, reaches 8 cmd s ∧ ∃ r, evaluate p (Bash s) = Some (Reject r)).
  { rewrite <- (rank_deny d Hd). unfold d. rewrite (segments_rank p 3) by lia. split.
    - intros [(s & Hs & Hr)|[H _]]; [|lia]. exists s. split; [done|].
      apply rank_deny in Hr as [r Hr]; [|apply escalate_escalation].
      exists r. by apply escalate_deny.
    - intros (s & Hs & r & Hr). left. exists s. split; [done|].
      apply rank_deny; [apply escalate_escalation|]. exists r. by apply escalate_deny. }
  split; [exact Hdeny|]. rewrite <- Hdeny.
  pose proof (segments_rank p 2 8 cmd ltac:(lia)) as Hr. fold d in Hr.
  rewrite (rank_ask d Hd) in Hr. split.
  - intros Ha. split; [intros [r Hx]; congruence|].
    destruct (proj1 Hr (or_intror Ha)) as [(s & Hs & H2)|[_ H]]; [|by left].
    apply rank_ask in H2 as [[r H2]|H2]; [| |apply escalate_escalation].
    + exfalso. apply escalate_deny in H2.
      destruct (proj2 Hdeny) as [r' Hx]; [by exists s; eauto|congruence].
    + right. exists s. split; [done|]. by apply (escalate_ask p (Bash s)).
  - intros [Hno Hor]. destruct (proj2 Hr) as [H|H]; [|by destruct Hno|exact H].
    destruct Hor as [Hu|(s & Hs & Hask)]; [right; split; [lia|exact Hu]|].
    left. exists s. split; [done|]. apply rank_ask; [apply escalate_escalation|].
    right. by apply escalate_ask.
Qed.
End facts.

(** ** Instances and boundary cases *)

Definition demo_rules : PermissionConfig :=
  PermissionConfig_new
    [{| action := ActionAllow; tool := BashTool; pattern := None; pattern_mode := Glob |};
     {| action := ActionAsk; tool := BashTool; pattern := Some (lit "npm *"); pattern_mode := Glob |};
     {| action := ActionDeny; tool := BashTool; pattern := Some (lit "git push");
        pattern_mode := Glob |}].

Lemma evaluate_precedence_witness :
  hit demo_rules (Bash (lit "  git push -f")) ActionDeny
  ∧ ∃ l1 r l2, rules demo_rules = l1 ++ r :: l2
      ∧ action r = ActionDeny ∧ applies (Bash (lit "  git push -f")) r = true
      ∧ Forall (λ r, action r = ActionDeny → applies (Bash (lit "  git push -f")) r = false) l1
      ∧ evaluate (CompiledPolicy_new demo_rules) (Bash (lit "  git push -f"))
        = Some (Reject (deny_reason r)).
Proof.
  assert (H : hit demo_rules (Bash (lit "  git push -f")) ActionDeny).
  { eexists. split; [right; right; left|]. split; [reflexivity|vm_compute; reflexivity]. }
  split; [exact H|]. exact (proj1 (evaluate_precedence demo_rules _) H).
Defined.

Definition demo_script : str := lit "cd src; timeout 9 bash -c 'ls; git push'".

Lemma demo_script_denied :
  ∃ s, reaches 8 demo_script s
       ∧ ∃ r, evaluate (CompiledPolicy_new demo_rules) (Bash s) = Some (Reject r).
Proof.
  exists (lit "git push"). split; [|eexists; vm_compute; reflexivity].
  pose (c := {| words := map lit ["timeout"; "9"; "bash"; "-c"; "ls; git push"];
                span_start := 8; span_end := 40 |}).
  pose (i := {| words := map lit ["git"; "push"]; span_start := 4; span_end := 12 |}).
  eapply (reach_inner 7 demo_script _ c (map lit ["bash"; "-c"; "ls; git push"])
            (lit "ls; git push")).
  - vm_compute. reflexivity.
  - right. left.
  - apply forms_spec. right. left.
  - apply passes_spec. vm_compute. reflexivity.
  - change (lit "git push") with (join_words (words i)). eapply reach_here.
    + vm_compute. reflexivity.
    + right. left.
    + by left.
Qed.

Lemma bash_segments_exact_witness :
  has_bash_command_restrictions (CompiledPolicy_new demo_rules) = true
  ∧ ∃ r, evaluate_bash_command_policy (CompiledPolicy_new demo_rules) demo_script
         = Some (Reject r).
Proof.
  split; [reflexivity|].
  apply (bash_segments_exact demo_rules demo_script); [reflexivity|]. exact demo_script_denied.
Defined.

(** A deny rule whose pattern is no glob is compiled to no matcher: for edits,
    reads and MCP calls it never applies, and nothing reports it. *)
Lemma bad_glob_never_applies {PA : PermApi} r p access :
  pattern r = Some p → p ≠ lit "*" → glob_new p = None →
  match access with Edit _ | Read _ | Grep _ _ | MCPTool _ _ => True | _ => False end →
  applies access r = false.
Proof.
  intros Hp Hne Hg Ha. unfold applies, rule_matches, pattern_matches. cbn [fst snd].
  apply andb_false_iff. right. unfold compile_matcher. rewrite Hp, Hg.
  unfold str_eqb. rewrite bool_decide_eq_false_2 by done.
  destruct access as [[]|[]| | | | |]; done.
Qed.
