(* ===== verification/ShellAccess.v ===== *)
(** * Shell file access

    [xai-grok-workspace/src/permission/shell_access.rs]: which files a shell
    command reads and writes, and the gate that holds them against the file
    rules of the policy.

    The file system is the class [PathFs]: the standard library's
    [canonicalize] (through the crate [dunce]), [symlink_metadata] and
    [read_link], at the time of the check.  Paths are Unix paths. *)
From S2P Require Import Prelude.
From S2P Require Import RustStr.
From S2P Require Import FileSystem.
From S2P Require Import StrSearch.
From S2P Require Import Permission.
From S2P Require Import BashSyntax.
From S2P Require Import PermissionPolicy.

Class PathFs : Type := {
  canonicalize : str → option str;
  (** [None] is an error; [Some b] whether the file itself is a link *)
  symlink_metadata : str → option bool;
  read_link : str → option str;
}.

Inductive ShellFileMode : Type := ReadMode | WriteMode.
Definition is_write (m : ShellFileMode) : bool :=
  match m with WriteMode => true | ReadMode => false end.

(** ** Programs *)

Definition READERS : list string :=
  ["cat"; "tac"; "nl"; "head"; "tail"; "grep"; "egrep"; "fgrep"; "rg"; "sed"; "awk"; "less";
   "more"; "bat"; "strings"; "xxd"; "od"; "hexdump"; "base64"; "base32"; "cut"; "sort"; "uniq";
   "wc"; "type"; "get-content"; "gc"; "diff"; "comm"; "rev"; "jq"; "yq"; "select-string"; "sls";
   "ag"; "ack"; "zcat"; "zless"; "zmore"; "zgrep"; "zegrep"; "zfgrep"; "bzcat"; "bzgrep";
   "xzcat"; "xzgrep"; "zstdcat"; "lz4cat"].
Definition WRITERS : list string :=
  ["tee"; "set-content"; "out-file"; "add-content"; "tee-object"; "truncate"].
Definition shell_file_mode (program : str) : option ShellFileMode :=
  if one_of READERS program then Some ReadMode
  else if one_of WRITERS program then Some WriteMode
  else None.

Definition shell_program_name (word : str) : str := base_name word.

Definition is_short_option (word : str) : bool :=
  is_option word && negb (starts_with word (lit "--")).

Definition shell_sed_in_place (ws : list str) : bool :=
  existsb (λ word, str_eqb word (lit "--in-place")
                   || starts_with word (lit "--in-place=")
                   || is_short_option word && contains word (lit "i")) (tail ws).

(** [strip_prefix(p).filter(|v| !v.is_empty())] *)
Definition glued (p token : str) : option str :=
  match strip_prefix p token with
  | Some (_ :: _ as v) => Some v
  | _ => None
  end.

(** [iter().enumerate().filter_map]: a token sees the token after it. *)
Fixpoint filter_map_next {A} (f : str → option str → option A) (ws : list str) : list A :=
  match ws with
  | [] => []
  | t :: ws' => match f t (head ws') with
                | Some x => x :: filter_map_next f ws'
                | None => filter_map_next f ws'
                end
  end.

Definition shell_output_flag_values (ws : list str) : list str :=
  filter_map_next (λ token next,
    match strip_prefix (lit "--output=") token with
    | Some v => Some v
    | None => match glued (lit "-o") token with
              | Some v => Some v
              | None => if one_of ["--output"; "-o"] token then next else None
              end
    end) ws.

Definition value_flag_values (ws : list str) (flag : str) : list str :=
  filter_map_next (λ token next,
    match strip_prefix (flag ++ [EQUALS]) token with
    | Some v => Some v
    | None => if str_eqb token flag then next
              else if negb (starts_with flag (lit "--")) then glued flag token
              else None
    end) ws.

(** Operands: not options, or anything after [--]. *)
Fixpoint candidates_from (end_of_options : bool) (ws : list str) : list str :=
  match ws with
  | [] => []
  | token :: ws' =>
      if negb end_of_options && str_eqb token (lit "--") then candidates_from true ws'
      else if end_of_options || negb (str_eqb token (lit "-")) && negb (is_option token)
      then token :: candidates_from end_of_options ws'
      else candidates_from end_of_options ws'
  end.
Definition shell_file_candidates (ws : list str) : list str := candidates_from false (tail ws).

Definition with_mode (m : ShellFileMode) (l : list str) : list (str * ShellFileMode) :=
  map (λ p, (p, m)) l.

Fixpoint filter_map {A B} (f : A → option B) (l : list A) : list B :=
  match l with
  | [] => []
  | x :: l' => match f x with Some y => y :: filter_map f l' | None => filter_map f l' end
  end.

Definition special_file_operands (program : str) (ws : list str) : list (str * ShellFileMode) :=
  if str_eqb program (lit "dd") then
    filter_map (λ token, match strip_prefix (lit "if=") token with
                         | Some path => Some (path, ReadMode)
                         | None => match strip_prefix (lit "of=") token with
                                   | Some path => Some (path, WriteMode)
                                   | None => None
                                   end
                         end) (tail ws)
  else if one_of ["sort"; "go"; "git"] program then
    with_mode WriteMode (shell_output_flag_values ws)
  else if str_eqb program (lit "rustc") then
    with_mode WriteMode (shell_output_flag_values ws ++ value_flag_values ws (lit "--out-dir"))
  else if str_eqb program (lit "rustfmt") then with_mode WriteMode (shell_file_candidates ws)
  else [].

Definition shell_path_command_operands (program : str) (ws : list str)
  : option (list (str * ShellFileMode)) :=
  if one_of ["cp"; "mv"; "ln"; "install"] program then
    let operands := shell_file_candidates ws in
    match last operands with
    | None => None
    | Some dest => Some (with_mode ReadMode (removelast operands) ++ [(dest, WriteMode)])
    end
  else if one_of ["rm"; "rmdir"; "mkdir"; "touch"] program then
    Some (with_mode WriteMode (shell_file_candidates ws))
  else if str_eqb program (lit "uniq") then
    match shell_file_candidates ws with
    | input :: output :: _ => Some [(input, ReadMode); (output, WriteMode)]
    | _ => None
    end
  else None.

Definition command_words_write_paths (ws : list str) : list str :=
  let inner := unwrap_wrappers ws in
  match inner with
  | [] => []
  | w :: _ =>
      let program := to_ascii_lowercase (shell_program_name w) in
      let writes l := map fst (List.filter (λ pm, is_write pm.2) l) in
      let out := writes (special_file_operands program inner) in
      match shell_path_command_operands program inner with
      | Some operands => out ++ writes operands
      | None =>
          if match shell_file_mode program with Some WriteMode => true | _ => false end
             || str_eqb program (lit "sed") && shell_sed_in_place inner
          then out ++ shell_file_candidates inner
          else out
      end
  end.

Definition is_safe_write_sink (path : str) : bool :=
  one_of ["/dev/null"; "/dev/stdout"; "/dev/stderr"] path.

(** ** Operands in the tree *)

Definition EXPANSIONS : list string :=
  ["expansion"; "simple_expansion"; "command_substitution"; "arithmetic_expansion";
   "process_substitution"].
(** Some proper descendant expands at run time. *)
Definition node_has_expansion (n : Node) : bool :=
  existsb (λ d, kind_in EXPANSIONS (kind d)) (flat_map visit (children n)).

Inductive ArgText : Type := Literal (s : str) | Ambiguous.

Definition strip_both (q raw : str) : str :=
  match strip_prefix q raw with
  | Some s => default raw (strip_suffix q s)
  | None => raw
  end.

Definition shell_node_arg (n : Node) (src : str) : option ArgText :=
  if is_kind n "variable_assignment" then None
  else if is_kind n "word" || is_kind n "number" then Literal <$> utf8_text n src
  else if is_kind n "raw_string" then
    (λ raw, Literal (strip_both (lit "'") raw)) <$> utf8_text n src
  else if is_kind n "string" then
    if node_has_expansion n then Some Ambiguous
    else (λ raw, Literal (strip_both [QUOTE] raw)) <$> utf8_text n src
  else if is_kind n "concatenation" then
    if node_has_expansion n then Some Ambiguous else Literal <$> utf8_text n src
  else Some Ambiguous.

Record Invocation : Type := { inv_start : Z; inv_words : list str; inv_ambiguous : bool }.

Definition command_operand (child : Node) (src : str) : option ArgText :=
  if is_kind child "command_name" then
    match named_children child with
    | inner :: _ => shell_node_arg inner src
    | [] => None
    end
  else shell_node_arg child src.
Definition invocation_of (n : Node) (src : str) : Invocation :=
  let operands := filter_map (λ c, command_operand c src) (named_children n) in
  {| inv_start := start_byte n;
     inv_words := filter_map (λ a, match a with Literal w => Some w | Ambiguous => None end) operands;
     inv_ambiguous := existsb (λ a, match a with Ambiguous => true | Literal _ => false end) operands |}.
Definition shell_command_invocations (root : Node) (src : str) : list Invocation :=
  sort_by_key inv_start
    (map (λ n, invocation_of n src) (List.filter (λ n, is_kind n "command") (visit root))).

Definition shell_arg_is_ambiguous (token : str) : bool :=
  contains token (lit "*") || contains token (lit "?") || contains token (lit "[").

(** The first child that is a redirection operator; [None] after a heredoc. *)
Fixpoint redirect_operator (l : list Node) : option str :=
  match l with
  | [] => None
  | c :: l' =>
      let k := lit (kind c) in
      if contains k (lit "<<") then None
      else if contains k (lit ">") || contains k (lit "<") then Some k
      else redirect_operator l'
  end.
Definition child_by_field_name (n : Node) (f : string) : option Node :=
  List.find (λ c, bool_decide (field c = Some f)) (children n).

Record Redirect : Type := {
  rd_start : Z;
  rd_path : option str;
  rd_mode : ShellFileMode;
  rd_ambiguous : bool;
}.
Definition shell_redirect_one (n : Node) (src : str) : option Redirect :=
  match redirect_operator (children n) with
  | None => None
  | Some redirect =>
      let mode := if contains redirect (lit ">") then WriteMode else ReadMode in
      let duplicates_fd := one_of [">&"; "<&"] redirect in
      match child_by_field_name n "destination" with
      | None => None
      | Some dest =>
          match shell_node_arg dest src with
          | None => None
          | Some (Literal s) =>
              if is_empty s || starts_with s (lit "&")
                 || duplicates_fd && (str_eqb s (lit "-") || forallb is_ascii_digit s)
              then None
              else Some {| rd_start := start_byte n; rd_path := Some s; rd_mode := mode;
                           rd_ambiguous := shell_arg_is_ambiguous s |}
          | Some Ambiguous =>
              Some {| rd_start := start_byte n; rd_path := None; rd_mode := mode;
                      rd_ambiguous := true |}
          end
      end
  end.
Definition shell_redirect_targets (root : Node) (src : str) : list Redirect :=
  filter_map (λ n, if is_kind n "file_redirect" then shell_redirect_one n src else None)
    (visit root).

(** Every path a script writes: output redirects, then the writers. *)
Definition command_write_paths_in_tree (root : Node) (src : str) : list str :=
  filter_map (λ r, if is_write (rd_mode r) then rd_path r else None) (shell_redirect_targets root src)
  ++ flat_map (λ i, command_words_write_paths (inv_words i)) (shell_command_invocations root src).

(** ** Changes of directory *)

(** A node and, from it upwards, the kind of the next sibling and of the
    parent. *)
Definition Frames : Type := list (option string * string).
Fixpoint visit_located (frames : Frames) (n : Node) : list (Node * Frames) :=
  (n, frames)
  :: (fix go cs := match cs with
                   | [] => []
                   | c :: cs' => go cs' ++ visit_located ((kind <$> head cs', kind n) :: frames) c
                   end) (children n).

Definition SUBSHELLS : list string :=
  ["subshell"; "pipeline"; "command_substitution"; "process_substitution"].
Definition runs_in_current_shell (frames : Frames) : bool :=
  forallb (λ f, negb (bool_decide (f.1 = Some "&")) && negb (kind_in SUBSHELLS f.2)) frames.

Definition cwd_poison_positions (root : Node) (src : str) : list Z :=
  filter_map (λ '(n, frames),
    if is_kind n "command"
       && match child_by_field_name n "name" with
          | Some name => match utf8_text name src with
                         | Some p => one_of ["cd"; "pushd"; "popd"] (shell_program_name p)
                         | None => false
                         end
          | None => false
          end
       && runs_in_current_shell frames
    then Some (start_byte n) else None) (visit_located [] root).
Definition cwd_unpinned_before (positions : list Z) (at_ : Z) : bool :=
  existsb (λ p, (p <? at_)%Z) positions.

(** ** Paths *)

Definition is_absolute_shell_path (path : str) : bool :=
  starts_with path (lit "/") || starts_with path (lit "~/")
  || bool_decide (as_bytes path !! 1%nat = Some 58%Z).

(** [trim_matches] of both quotes. *)
Definition is_quote (c : char) : bool := (c =? QUOTE)%Z || (c =? SINGLE)%Z.
Definition trim_quotes (s : str) : str := trim_end_matches is_quote (trim_start_matches is_quote s).

Definition normalize_shell_path_raw (path : str) : str :=
  let p := replace [BACKSLASH] [SLASH] (trim_quotes path) in
  match strip_prefix (lit "/c/") p with
  | Some rest => lit "C:/" ++ rest
  | None => p
  end.

(** The loop of [lexical_normalize]; [out] is the stack, last segment first. *)
Fixpoint normalize_segments (absolute : bool) (segments out : list str) : list str :=
  match segments with
  | [] => rev out
  | s :: rest =>
      if is_empty s || str_eqb s (lit ".") then normalize_segments absolute rest out
      else if str_eqb s (lit "..") then
        match out with
        | top :: out' =>
            if negb (str_eqb top (lit "..")) then normalize_segments absolute rest out'
            else if negb absolute then normalize_segments absolute rest (lit ".." :: out)
            else normalize_segments absolute rest out
        | [] => if negb absolute then normalize_segments absolute rest [lit ".."]
                else normalize_segments absolute rest []
        end
      else normalize_segments absolute rest (s :: out)
  end.
(** A drive prefix is two ASCII bytes: the second byte is [:]. *)
Definition lexical_normalize (path : str) : str :=
  let prefix_len := if bool_decide (as_bytes path !! 1%nat = Some 58%Z) then 2%nat else 0%nat in
  let prefix := take prefix_len path in
  let rest := drop prefix_len path in
  let absolute := starts_with rest [SLASH] in
  let body := join [SLASH] (normalize_segments absolute (split SLASH rest) []) in
  if absolute then prefix ++ [SLASH] ++ body else prefix ++ body.
Definition normalize_shell_path (path : str) : str :=
  lexical_normalize (normalize_shell_path_raw path).

(** [Path::components] of a Unix path, without the root. *)
Definition components (p : str) : list str :=
  List.filter (λ s, negb (is_empty s) && negb (str_eqb s (lit "."))) (split SLASH p).
(** [Path::file_name] *)
Definition path_file_name (p : str) : option str :=
  match last (components p) with
  | Some s => if str_eqb s (lit "..") then None else Some s
  | None => None
  end.

Section gate.
Context {PA : PermApi} {TS : TreeSitter} {PF : PathFs}.

(** The prefixes of the path, pushed component by component. *)
Fixpoint some_link (prefix : str) (comps : list str) : bool :=
  match comps with
  | [] => false
  | c :: comps' =>
      let prefix := path_join prefix c in
      default false (symlink_metadata prefix) || some_link prefix comps'
  end.
Definition path_has_symlink (absolute : str) : bool :=
  if negb (is_absolute absolute) then false
  else default false (symlink_metadata [SLASH]) || some_link [SLASH] (components absolute).

Definition MAX_SYMLINK_DEPTH : nat := 40.
(** [fuel] is [MAX_SYMLINK_DEPTH + 1 - depth]. *)
Fixpoint resolve_following_symlinks (fuel : nat) (path : str) : option str :=
  match fuel with
  | O => None
  | S fuel' =>
      match canonicalize path with
      | Some canonical => Some canonical
      | None =>
          match path_parent path, path_file_name path with
          | Some parent, Some file_name =>
              match resolve_following_symlinks fuel' parent with
              | None => None
              | Some resolved_parent =>
                  let candidate := path_join resolved_parent file_name in
                  match symlink_metadata candidate with
                  | Some true =>
                      match read_link candidate with
                      | None => None
                      | Some target => resolve_following_symlinks fuel' (path_join resolved_parent target)
                      end
                  | _ => Some candidate
                  end
              end
          | _, _ => None
          end
      end
  end.
Definition resolve_symlink_target (absolute : str) : option str :=
  if negb (is_absolute absolute) then None
  else normalize_shell_path <$> resolve_following_symlinks (S MAX_SYMLINK_DEPTH) absolute.

Definition shell_access (mode : ShellFileMode) (path : str) : AccessKind :=
  match mode with ReadMode => Read (Some path) | WriteMode => Edit path end.

Definition evaluate_shell_path (p : CompiledPolicy) (token cwd : str) (mode : ShellFileMode)
  : option Decision :=
  let path := normalize_shell_path token in
  let absolute := if is_absolute_shell_path path then path
                  else normalize_shell_path (path_join cwd path) in
  let raw := normalize_shell_path_raw token in
  let raw_absolute := if is_absolute_shell_path raw then raw
                      else normalize_shell_path_raw (path_join cwd raw) in
  let esc a := escalate (evaluate p (shell_access mode a)) in
  let resolved_decision :=
    match resolve_symlink_target raw_absolute with
    | Some resolved => if negb (str_eqb resolved absolute) then esc resolved else None
    | None => if path_has_symlink raw_absolute then Some Ask else None
    end in
  combine_decisions (combine_decisions (esc path) (esc absolute)) resolved_decision.

(** ** The gate *)

Definition is_directory_operand (token : str) : bool :=
  str_eqb token (lit ".") || str_eqb token (lit "..") || ends_with token (lit "/").
Definition shell_reader_can_recurse (program : str) (ws candidates : list str) : bool :=
  one_of ["grep"; "egrep"; "fgrep"] program
    && existsb (λ word, one_of ["--recursive"; "--dereference-recursive"] word
                        || is_short_option word
                           && (contains word (lit "r") || contains word (lit "R"))) ws
  || one_of ["rg"; "ag"; "ack"] program
     && ((length candidates <=? 1)%nat || existsb is_directory_operand (tail candidates)).

(** What the loops accumulate: [forced_ask] and [decision]. *)
Definition Gate : Type := bool * option Decision.
Definition force (b : bool) (g : Gate) : Gate := (g.1 || b, g.2).
Definition combine_in (g : Gate) (d : option Decision) : Gate := (g.1, combine_decisions g.2 d).

(** One operand: an ambiguous one forces a prompt, and its path is judged. *)
Definition judge_operand (p : CompiledPolicy) (cwd : str) (g : Gate) (pm : str * ShellFileMode)
  : Gate :=
  combine_in (force (shell_arg_is_ambiguous pm.1) g) (evaluate_shell_path p pm.1 cwd pm.2).

Definition judge_redirect (p : CompiledPolicy) (cwd : str) (cwd_changes : list Z) (g : Gate)
  (r : Redirect) : Gate :=
  let g := force (rd_ambiguous r) g in
  match rd_path r with
  | None => g
  | Some path =>
      combine_in
        (force (cwd_unpinned_before cwd_changes (rd_start r)
                && negb (is_absolute_shell_path (normalize_shell_path path))) g)
        (evaluate_shell_path p path cwd (rd_mode r))
  end.

Definition judge_invocation (p : CompiledPolicy) (cwd : str) (cwd_changes : list Z)
  (parse_failed : bool) (g : Gate) (i : Invocation) : Gate :=
  let ws := unwrap_wrappers (inv_words i) in
  match ws with
  | [] => g
  | w :: _ =>
      let program := to_ascii_lowercase (shell_program_name w) in
      if str_eqb program (lit "cd") then g
      else
        let cwd_unpinned := cwd_unpinned_before cwd_changes (inv_start i)
                            || wrapper_has_chdir (inv_words i) in
        let candidates := shell_file_candidates ws in
        let path_operands := shell_path_command_operands program ws in
        let is_known := str_eqb program (lit "dd")
                        || bool_decide (is_Some (shell_file_mode program))
                        || bool_decide (is_Some path_operands) in
        let g := force (is_known && (cwd_unpinned || inv_ambiguous i || parse_failed)) g in
        let g := foldl (judge_operand p cwd) g (special_file_operands program ws) in
        if str_eqb program (lit "dd") then g
        else match path_operands with
        | Some operands => foldl (judge_operand p cwd) g operands
        | None =>
            match shell_file_mode program with
            | None => g
            | Some m =>
                let modes := if str_eqb program (lit "sed") && shell_sed_in_place ws
                             then [ReadMode; WriteMode] else [m] in
                let g := foldl (judge_operand p cwd) g
                           (flat_map (λ token, map (λ m, (token, m)) modes) candidates) in
                force (shell_reader_can_recurse program ws candidates) g
            end
        end
  end.

Definition evaluate_shell_file_access (p : CompiledPolicy) (cmd cwd : str) : option Decision :=
  if negb (has_file_restrictions p) then None
  else match try_parse_shell cmd with
  | None => None
  | Some root =>
      let parse_failed := has_error root in
      let cwd_changes := cwd_poison_positions root cmd in
      let g := foldl (judge_redirect p cwd cwd_changes) (false, None)
                 (shell_redirect_targets root cmd) in
      let g := foldl (judge_invocation p cwd cwd_changes parse_failed) g
                 (shell_command_invocations root cmd) in
      combine_decisions g.2 (if g.1 then Some Ask else None)
  end.

End gate.
