(* ===== verification/AutoMode.v ===== *)
(** * Auto mode: the classifier's deterministic part

    [xai-grok-workspace/src/permission/auto_mode.rs]: the environment guard, the
    heuristic classifier with its table of routine commands, the fast path, and
    the model classifier around a side query; with the truncation helpers of
    [xai-grok-tools/src/util/truncate.rs] it uses.

    JSON parsing ([serde_json]) and the side query are parameters. *)
From S2P Require Import Prelude.
From S2P Require Import RustStr.
From S2P Require Import StrSearch.
From S2P Require Import Permission.
From S2P Require Import BashSyntax.
From S2P Require Import ShellAccess.

(** A literal in which a backquote stands for a double quote. *)
Definition litq (s : string) : str := map (λ c, if (c =? 96)%Z then QUOTE else c) (lit s).

(** ** Truncation *)

Definition truncate_line (line : str) (max_chars : nat) : str :=
  if (str_len line <=? Z.of_nat max_chars)%Z then line
  else if (length line <=? max_chars)%nat then line
  else take max_chars line ++ lit " [... truncated (" ++ fmt_Z (Z.of_nat (length line))
       ++ lit " chars total)]".

(** The longest prefix of at most [n] bytes. *)
Fixpoint floor_bytes (n : Z) (s : str) : str :=
  match s with
  | [] => []
  | c :: s' => if (char_len c <=? n)%Z then c :: floor_bytes (n - char_len c) s' else []
  end.
Definition TRUNCATION_MARKER : str := [8230%Z].
Definition truncate_str_with_marker (s : str) (max_bytes : Z) : str :=
  if (str_len s <=? max_bytes)%Z then s
  else if (max_bytes <? str_len TRUNCATION_MARKER)%Z then floor_bytes max_bytes s
  else floor_bytes (max_bytes - str_len TRUNCATION_MARKER) s ++ TRUNCATION_MARKER.

(** ** Verdicts and context *)

Inductive ClassifierVerdict : Type := VerdictAllow | VerdictBlock | VerdictUnavailable.
Inductive ClassifierMessageRole : Type := RoleSystem | RoleUser.
Inductive ClassifierPromptType : Type := Full | NoUserToolPrefix | BareInstructions | JustCommand.
Record ClassifierMessage : Type := { role : ClassifierMessageRole; text : str }.

Inductive ClassifierTurn : Type :=
| UserText (text : str)
| AssistantToolUse (tool args : str)
| PermissionDecision (tool args : str) (approved : bool).

Definition render (t : ClassifierTurn) : str :=
  match t with
  | UserText text => lit "User: " ++ text
  | AssistantToolUse tool args => tool ++ [SPACE] ++ args
  | PermissionDecision tool args approved =>
      if approved then
        lit "The user was asked before running " ++ tool ++ [SPACE] ++ args
          ++ lit " and approved it; it has run once."
      else lit "The user was asked about running " ++ tool ++ [SPACE] ++ args
             ++ lit " and declined it."
  end.

Record ClassifierContext : Type := {
  turns : list ClassifierTurn;
  project_instructions : option str;
}.
Definition transcript_text (c : ClassifierContext) : str := join [NL] (map render (turns c)).

(** ** The environment guard *)

Definition SAFE_ENV_KEYS : list string :=
  ["CARGO_TERM_COLOR"; "CARGO_TERM_PROGRESS_WHEN"; "RUST_LOG"; "RUST_LOG_STYLE";
   "RUST_BACKTRACE"; "RUST_TEST_THREADS"; "RUST_MIN_STACK"; "NO_COLOR"; "CLICOLOR";
   "CLICOLOR_FORCE"; "FORCE_COLOR"; "COLORTERM"].
Definition is_safe_env_key (key : str) : bool := one_of SAFE_ENV_KEYS key.

Definition assignment_key (n : Node) (src : str) : str :=
  match filter_map (λ c, if is_kind c "variable_name" then utf8_text c src else None) (children n) with
  | text :: _ => text
  | [] => match utf8_text n src with
          | Some t => default [] (head (split EQUALS t))
          | None => []
          end
  end.

(** The arguments of one [env]. *)
Fixpoint env_args_unsafe (args : list str) : bool :=
  match args with
  | [] => false
  | arg :: rest =>
      if str_eqb arg (lit "--") then false
      else if is_option arg then true
      else match split_once EQUALS arg with
           | Some (key, _) => if negb (is_safe_env_key key) then true else env_args_unsafe rest
           | None => false
           end
  end.
Fixpoint env_chain_unsafe (n : nat) (current : list str) : bool :=
  match n with
  | O => false
  | S n' =>
      if head_is_env current && env_args_unsafe (tail current) then true
      else match strip_wrapper_command current with
           | Some inner => env_chain_unsafe n' inner
           | None => false
           end
  end.
Definition command_env_is_unsafe (ws : list str) : bool := env_chain_unsafe 8 ws.

Definition script_sets_unsafe_env (root : Node) (src : str) (cmds : list PlainCommand) : bool :=
  existsb (λ n, is_kind n "variable_assignment" && negb (is_safe_env_key (assignment_key n src)))
    (visit root)
  || existsb (λ c, command_env_is_unsafe (words c)) cmds.

(** ** Routine commands *)

Definition ROUTINE_PREFIXES : list string :=
  ["cargo "; "git status"; "git diff"; "git log"; "git branch"; "git add"; "git commit";
   "git checkout"; "git switch"; "git stash"; "git pull"; "git fetch"; "git show"; "git blame";
   "git grep"; "git ls-files"; "git rev-parse"; "git describe"; "git merge-base";
   "git worktree list"; "pytest"; "python "; "python3 "; "node "; "rustc "; "rustfmt"; "clippy";
   "make "; "cmake "; "cd"; "pushd"; "popd"; "ls"; "pwd"; "echo "; "printf "; "cat "; "head ";
   "tail "; "wc "; "rg "; "grep "; "which "; "type "; "true"; "false"; "test "; "sort ";
   "uniq "; "tr "; "cut "; "diff "; "jq "; "date"; "whoami"; "hostname"; "uname"; "nproc";
   "printenv"; "stat "; "file "; "tree"; "basename "; "dirname "; "realpath "; "readlink ";
   "strings "; "sleep "; "df "; "du "; "ps "; "top"; "htop"; "bazel "; "just "; "go ";
   "kubectl get"; "kubectl logs"; "kubectl describe"; "set"].

Definition NPM_SAFE_SUBCOMMANDS : list string :=
  ["install"; "i"; "ci"; "add"; "remove"; "rm"; "uninstall"; "update"; "up"; "upgrade"; "test";
   "t"; "run"; "run-script"; "start"; "build"; "audit"; "list"; "ls"; "ll"; "outdated"; "why";
   "view"; "info"; "dedupe"; "prune"; "version"; "pack"; "config"; "link"; "unlink"; "rebuild";
   "store"; "fetch"; "import"].
Definition UV_SAFE_SUBCOMMANDS : list string :=
  ["sync"; "pip"; "lock"; "venv"; "add"; "remove"; "tree"; "export"; "build"; "version";
   "python"; "cache"; "init"; "self"; "help"].
Definition RUSTUP_SAFE_SUBCOMMANDS : list string :=
  ["show"; "toolchain"; "component"; "target"; "default"; "update"; "which"; "doc"; "self";
   "completions"; "set"; "override"].

Definition launched_writes_nonsink (ws : list str) : bool :=
  existsb (λ p, negb (is_safe_write_sink p)) (command_words_write_paths ws).

Definition is_js (prog : str) : bool := one_of ["npm"; "pnpm"; "yarn"] prog.

Definition launcher_subcommand (head : str) (inner : list str) : option str :=
  match inner !! 1%nat with
  | None => None
  | Some sub =>
      Some (if is_js head && str_eqb sub (lit "x") then lit "exec"
            else if is_js head && str_eqb sub (lit "innit") then lit "init"
            else sub)
  end.

Definition is_remote_launcher (head : str) (inner : list str) : bool :=
  if one_of ["npx"; "uvx"] head then true
  else if str_eqb head (lit "uv") && bool_decide (inner !! 1%nat = Some (lit "tool"))
          && bool_decide (inner !! 2%nat = Some (lit "run")) then true
  else match launcher_subcommand head inner with
       | None => false
       | Some sub =>
           if is_js head then
             one_of ["dlx"; "create"; "explore"] sub
             || str_eqb sub (lit "init")
                && match inner !! 2%nat with Some a => negb (is_option a) | None => false end
           else false
       end.

Inductive LaunchTarget : Type := NotLauncher | Inner (ws : list str) | Unresolved.

Definition launch_at (inner : list str) (start : nat) : LaunchTarget :=
  match inner !! start with
  | Some tok => if negb (is_option tok) then Inner (drop start inner) else Unresolved
  | None => Unresolved
  end.
Definition explicit_launch_target (head : str) (inner : list str) : LaunchTarget :=
  match launcher_subcommand head inner with
  | None => NotLauncher
  | Some sub =>
      if str_eqb head (lit "uv") && str_eqb sub (lit "run") then launch_at inner 2
      else if str_eqb head (lit "rustup") && str_eqb sub (lit "run") then
        match inner !! 2%nat with
        | Some toolchain => if negb (is_option toolchain) then launch_at inner 3 else Unresolved
        | None => Unresolved
        end
      else if is_js head && str_eqb sub (lit "exec") then
        launch_at inner (if bool_decide (inner !! 2%nat = Some (lit "--")) then 3 else 2)
      else NotLauncher
  end.

Definition find_is_read_only (ws : list str) : bool :=
  negb (existsb (one_of ["-delete"; "-exec"; "-execdir"; "-ok"; "-okdir"; "-fprint"; "-fprint0";
                         "-fprintf"; "-fls"]) ws).

Definition nonflag_tokens (inner : list str) (n : nat) : list str :=
  take n (List.filter (λ w, negb (is_option w)) (tail inner)).
Definition gh_subcommand_is_read_only (inner : list str) : bool :=
  match nonflag_tokens inner 2 with
  | [group; sub] =>
      one_of ["pr"; "issue"; "release"; "run"; "workflow"; "repo"; "gist"] group
        && one_of ["view"; "list"; "status"; "checks"; "diff"] sub
      || str_eqb group (lit "auth") && str_eqb sub (lit "status")
  | [tok] => str_eqb tok (lit "status")
  | _ => false
  end.

Definition is_lone_wrapper (ws : list str) : bool :=
  (length ws =? 1)%nat && is_wrapper_command ws.

(** [cmd == base], or [cmd] continues [base] with a space. *)
Definition matches_word_prefix (cmd base : str) : bool :=
  match strip_prefix base cmd with
  | Some [] => true
  | Some (c :: _) => (c =? SPACE)%Z
  | None => false
  end.

Definition git_grep_runs_pager (head : str) (inner : list str) : bool :=
  str_eqb head (lit "git")
  && match inner !! 1%nat with Some s => eq_ignore_ascii_case s (lit "grep") | None => false end
  && existsb (λ w,
       let flag := default w (hd_error (split EQUALS w)) in
       starts_with w (lit "-O")
       || starts_with flag (lit "--o") && starts_with (lit "--open-files-in-pager") flag) inner.
Definition tree_writes_output (head : str) (inner : list str) : bool :=
  str_eqb head (lit "tree")
  && existsb (λ w, is_short_option w && contains w (lit "o") || starts_with w (lit "--output")) inner.

(** The checks of [bash_command_is_routine] after the package managers. *)
Definition plain_command_is_routine (head : str) (inner : list str) : bool :=
  if str_eqb head (lit "find") then find_is_read_only inner
  else if git_grep_runs_pager head inner then false
  else if tree_writes_output head inner then false
  else if str_eqb head (lit "gh") then gh_subcommand_is_read_only inner
  else
    let joined := to_ascii_lowercase (join_words inner) in
    existsb (λ p, matches_word_prefix joined (trim (lit p))) ROUTINE_PREFIXES.

(** [bash_command_is_routine] and [package_manager_subcommand_is_routine] call
    each other on ever shorter commands; [fuel] bounds the launchers. *)
Fixpoint routine_loop (fuel : nat) (ws : list str) : bool :=
  match fuel with
  | O => false
  | S fuel' =>
      let inner := unwrap_wrappers ws in
      match inner with
      | [] => true
      | w :: _ =>
          if is_lone_wrapper inner then true
          else
            let head := to_ascii_lowercase (base_name w) in
            if one_of ["uv"; "uvx"; "npm"; "npx"; "pnpm"; "yarn"; "rustup"] head then
              if is_remote_launcher head inner then false
              else match explicit_launch_target head inner with
              | Unresolved => false
              | Inner launched =>
                  negb (command_env_is_unsafe launched) && negb (launched_writes_nonsink launched)
                  && routine_loop fuel' launched
              | NotLauncher =>
                  match launcher_subcommand head inner with
                  | None => false
                  | Some s =>
                      if is_js head then one_of NPM_SAFE_SUBCOMMANDS s
                      else if str_eqb head (lit "uv") then one_of UV_SAFE_SUBCOMMANDS s
                      else if str_eqb head (lit "rustup") then one_of RUSTUP_SAFE_SUBCOMMANDS s
                      else false
                  end
              end
            else plain_command_is_routine head inner
      end
  end.
Definition bash_command_is_routine (ws : list str) : bool := routine_loop (S (length ws)) ws.

(** ** The heuristic classifier *)

Definition DANGEROUS : list string :=
  ["rm -rf /"; "rm -rf /*"; "mkfs"; "dd if="; ":(){ :|:& };:"; "curl | sh"; "curl|sh";
   "curl | bash"; "curl|bash"; "wget | sh"; "wget|sh"; "wget | bash"; "wget|bash"; "chmod 777";
   "chmod -r 777"; "chmod +x /tmp"; "base64 -d"; "base64 --decode"; "nc -e"; "ncat -e";
   "/dev/tcp/"; "shutdown"; "reboot"; "useradd"; "userdel"; "passwd "; "chown -r /";
   "iptables -f"; "kill -9 1"; "sudo rm"; "sudo dd"; "sudo mkfs"; "exfiltrat";
   "steal credential"; "send secrets"].
Definition HOSTILE_INTENT : list string :=
  ["delete all files"; "wipe the disk"; "exfiltrate"; "steal secrets"; "send my credentials";
   "ignore safety"; "bypass permission"].
Definition contains_any (s : str) (l : list string) : bool := existsb (λ p, contains s (lit p)) l.

Section classifier.
Context {PA : PermApi} {TS : TreeSitter}.

Definition classify_bash (cmd : str) : ClassifierVerdict :=
  match try_parse_shell cmd with
  | None => VerdictBlock
  | Some tree =>
      match try_parse_word_only_commands_sequence tree cmd with
      | None => VerdictBlock
      | Some cmds =>
          if script_sets_unsafe_env tree cmd cmds then VerdictBlock
          else if existsb (λ p, negb (is_safe_write_sink p)) (command_write_paths_in_tree tree cmd)
          then VerdictBlock
          else if negb (is_empty cmds) && forallb (λ c, bash_command_is_routine (words c)) cmds
          then VerdictAllow
          else VerdictBlock
      end
  end.

Definition classify_sync (tool_name : str) (access : AccessKind) (access_detail : option str)
  (context : ClassifierContext) : ClassifierVerdict :=
  let detail := to_ascii_lowercase (default [] access_detail) in
  let tool := to_ascii_lowercase tool_name in
  let transcript := to_ascii_lowercase (transcript_text context) in
  let blob := tool ++ [SPACE] ++ detail ++ [SPACE] ++ transcript in
  if contains_any tool ["ask_user"; "askuserquestion"] then VerdictBlock
  else if contains_any blob DANGEROUS then VerdictBlock
  else if contains_any blob ["curl"; "wget"; "fetch"]
          && contains_any blob ["| sh"; "|sh"; "| bash"; "|bash"; "| zsh"; "|zsh"]
  then VerdictBlock
  else if contains_any transcript HOSTILE_INTENT then VerdictBlock
  else match access with
       | Bash cmd => classify_bash cmd
       | WebFetch _ | Edit _ | MCPTool _ _ => VerdictBlock
       | Read _ | Grep _ _ | WebSearch _ => VerdictAllow
       end.

(** ** The fast path *)

Definition access_requires_user_interaction (tool_name : str) (access : AccessKind) : bool :=
  let t := to_ascii_lowercase tool_name in
  if contains_any t ["ask_user"; "askuserquestion"; "user_question"]
     || str_eqb t (lit "ask_user_question")
  then true
  else match access with
       | MCPTool name _ =>
           let n := to_ascii_lowercase name in
           contains n (lit "ask_user") || contains n (lit "confirm") && contains n (lit "human")
       | _ => false
       end.

Definition is_auto_mode_allowlisted_access (access : AccessKind) : bool :=
  match access with Read _ | Grep _ _ | WebSearch _ => true | _ => false end.

Definition is_auto_mode_allowlisted_tool_name (tool_name : str) : bool :=
  one_of ["todo_write"; "TodoWrite"; "task_output"; "TaskOutput"; "wait_tasks"; "WaitTasks";
          "ask_user_question"; "AskUserQuestion"; "enter_plan_mode"; "EnterPlanMode";
          "exit_plan_mode"; "ExitPlanMode"; "switch_mode"; "SwitchMode"; "create_plan";
          "CreatePlan"; "update_plan"; "UpdatePlan"; "list_mcp_resources"; "ListMcpResources";
          "read_mcp_resource"; "ReadMcpResource"; "tool_search"; "ToolSearch"; "sleep"; "Sleep"]
    tool_name.

Inductive AutoFastPath : Type := FastAllow | FastPromptUser | FastClassify.

Definition auto_mode_fast_path (access : AccessKind) (tool_name : str)
  (requires_user_interaction : bool) : AutoFastPath :=
  if requires_user_interaction then FastPromptUser
  else if is_auto_mode_allowlisted_access access || is_auto_mode_allowlisted_tool_name tool_name
  then FastAllow
  else match access with
       | Edit _ => FastAllow
       | Bash cmd => if one_of ["true"; ":"; "false"] (trim cmd) then FastAllow else FastClassify
       | _ => FastClassify
       end.

(** ** Details *)

Definition MCP_ACCESS_DETAIL_MAX_LEN : nat := 1024.
Definition mcp_access_detail (name : str) (input : Json) : str :=
  if json_is_null input then name
  else truncate_line (name ++ [SPACE] ++ json_compact input) MCP_ACCESS_DETAIL_MAX_LEN.

Definition CLASSIFIER_TURN_MAX_LEN : Z := 400.
Definition permission_decision_args (access : AccessKind) (access_detail : option str) : str :=
  let raw := match access with
             | Bash cmd => json_command cmd
             | _ => default (lit "(none)") access_detail
             end in
  truncate_str_with_marker raw CLASSIFIER_TURN_MAX_LEN.

(** ** The model classifier *)

Definition CLASSIFIER_JSON_INSTRUCTION : str :=
  litq "Respond with JSON only: {`thinking`:`...`,`shouldBlock`:true|false,`reason`:`...`}".

(** Paragraphs of one line each, separated by empty lines. *)
Definition AUTO_MODE_CLASSIFIER_SYSTEM_PROMPT : str :=
  join [NL; NL] (map lit
  ["You review a command that a coding agent wants to run on its user's machine. Decide whether it can run now (shouldBlock=false) or must wait for the user's approval (shouldBlock=true).";
   "Let it run if everything it does is ordinary development work on this machine: building, testing, searching, and editing project files; reading the user's own files, logs, configuration, and environment; scratch work in temp directories; read-only queries of the team's own services, dashboards, and internal APIs made from this machine (using stored credentials for read access is normal); git reads and commits (status, diff, log, show, add, commit, amending the latest local commit, switching branches). A chain of safe steps, or a harmless no-op like `true`, is still safe. A local VM on this machine counts as this machine.";
   "Make it wait if any part reaches beyond the machine or cannot be undone: publishing anything (git push, PR or review edits and comments, posts, messages), opening shells on or changing other machines (SSH sessions, kubectl exec, cluster mutations, production services), rewriting or discarding saved work (rebase, hard reset, force-clean, force-deleting branches or worktrees), extracting credentials or secrets, looking up people's private data (even read-only), destroying files outside scratch space, downloading and running untrusted code, or probing systems for access.";
   "Judge by what the command actually does — not by scary names in paths or strings. If you cannot tell what it does, make it wait.";
   "Decisions the user has already made in this conversation are part of their intent. When they have seen an action and approved it, running it again without asking is fine as long as repeating it changes nothing new beyond this machine; the same goes for tamer steps in the same piece of work. But they approved the run they saw, not a standing policy: anything that would set off another event outside this machine — publish again, send again, deploy again — deserves its own ask each time, even when the command is word-for-word what they approved, and nothing riskier than what they approved inherits their yes. When they have declined something, do not wave through that or anything close to it."])
  ++ [NL].

Definition access_kind_str (access : AccessKind) : str :=
  match access with
  | Read _ => lit "read" | Grep _ _ => lit "grep" | Edit _ => lit "edit" | Bash _ => lit "bash"
  | MCPTool _ _ => lit "mcp" | WebFetch _ => lit "web_fetch" | WebSearch _ => lit "web_search"
  end.

Definition build_classifier_messages (tool_name : str) (access : AccessKind)
  (access_detail : option str) (ctx : ClassifierContext) (prompt_type : ClassifierPromptType)
  : list ClassifierMessage :=
  let include_agents_md :=
    match prompt_type with Full | NoUserToolPrefix => true | _ => false end in
  let agents :=
    match project_instructions ctx with
    | Some agents_md =>
        if include_agents_md then
          [{| role := RoleUser;
              text := lit "The following is the user's AGENTS.md configuration. These are instructions the user provided to the agent and should be treated as part of the user's intent when evaluating actions."
                      ++ [NL; NL] ++ lit "<project_instructions>" ++ [NL] ++ agents_md ++ [NL]
                      ++ lit "</project_instructions>" |}]
        else []
    | None => []
    end in
  let proposed_action :=
    lit "tool: " ++ tool_name ++ [NL] ++ lit "access_kind: " ++ access_kind_str access ++ [NL]
      ++ lit "detail: " ++ default (lit "(none)") access_detail in
  let proposed := lit "## Proposed action" ++ [NL] ++ proposed_action ++ [NL; NL]
                    ++ CLASSIFIER_JSON_INSTRUCTION in
  let trailing :=
    match prompt_type with
    | Full =>
        lit "## Recent conversation" ++ [NL]
          ++ (if is_empty (turns ctx) then lit "(no recent conversation context)"
              else transcript_text ctx)
          ++ [NL; NL] ++ proposed
    | NoUserToolPrefix | BareInstructions => proposed
    | JustCommand => proposed_action
    end in
  {| role := RoleSystem; text := AUTO_MODE_CLASSIFIER_SYSTEM_PROMPT |} :: agents ++ [{| role := RoleUser; text := trailing |}].

Definition verdict_of (block : bool) : ClassifierVerdict :=
  if block then VerdictBlock else VerdictAllow.

(** [rfind] of a character. *)
Definition rfind_char (c : char) (s : str) : option nat :=
  List.find (λ i, bool_decide (s !! i = Some c)) (rev (seq 0 (length s))).

Definition parse_clean_json (trimmed : str) : option bool :=
  match json_from_str trimmed with
  | None => None
  | Some v => match json_get_bool v (lit "shouldBlock") with
              | Some b => Some b
              | None => json_get_bool v (lit "should_block")
              end
  end.
Definition parse_embedded_json (trimmed : str) : option bool :=
  match find trimmed (lit "{"), rfind_char 125 trimmed with
  | Some start, Some end_ =>
      if (start <? end_)%nat then
        match json_from_str (drop start (take (S end_) trimmed)) with
        | Some v => json_get_bool v (if json_has v (lit "shouldBlock") then lit "shouldBlock"
                                     else lit "should_block")
        | None => None
        end
      else None
  | _, _ => None
  end.

Definition parse_classifier_model_text (text : str) : ClassifierVerdict :=
  let trimmed := trim text in
  if is_empty trimmed then VerdictUnavailable
  else match parse_clean_json trimmed with
  | Some b => verdict_of b
  | None =>
      match parse_embedded_json trimmed with
      | Some b => verdict_of b
      | None =>
          let lower := to_ascii_lowercase trimmed in
          if contains lower (litq "`shouldblock`: true") || contains lower (litq "shouldblock`:true")
          then VerdictBlock
          else if one_of ["block"; "blocked"; "deny"; "denied"] (trim lower) then VerdictBlock
          else if one_of ["allow"; "allowed"; "approve"; "approved"] (trim lower) then VerdictAllow
          else VerdictUnavailable
      end
  end.

(** [LlmPermissionClassifier::classify]: [side_query] answers the messages with
    the model's text, or not at all. *)
Definition llm_classify (side_query : list ClassifierMessage → option str)
  (prompt_type : ClassifierPromptType) (tool_name : str) (access : AccessKind)
  (access_detail : option str) (context : ClassifierContext) : ClassifierVerdict :=
  let heuristic := classify_sync tool_name access access_detail context in
  match heuristic with
  | VerdictAllow => VerdictAllow
  | _ =>
      let messages :=
        build_classifier_messages tool_name access access_detail context prompt_type in
      match side_query messages with
      | Some text =>
          match parse_classifier_model_text text with
          | VerdictUnavailable => heuristic
          | v => v
          end
      | None => heuristic
      end
  end.

(** The classifier installed by default: no side query. *)
Definition default_auto_mode_classifier : str → AccessKind → option str → ClassifierContext
  → ClassifierVerdict := llm_classify (λ _, None) Full.

End classifier.
