(* ===== verification/BashGate.v ===== *)
(** * The bash gate of the permission manager

    [xai-grok-workspace/src/permission/manager.rs], the part about one bash
    request: safe and dangerous commands, [evaluate_bash], the floors, and what
    remembered grants may answer without a prompt. *)
From S2P Require Import Prelude.
From S2P Require Import RustStr.
From S2P Require Import StrSearch.
From S2P Require Import Permission.
From S2P Require Import BashSyntax.
From S2P Require Import ShellAccess.
From S2P Require Import AutoMode.

(** [PermissionState] of [state.rs]. *)
Record PermissionState : Type := {
  edit_policy : EditPolicy;
  allow_bash_execute : bool;
  allowed_bash_commands : gset str;
  disallowed_bash_commands : gset str;
  allowed_web_fetch_domains : gset str;
  allowed_mcp_tools : gset str;
  allowed_mcp_servers : gset str;
}.
Definition PermissionState_default : PermissionState :=
  {| edit_policy := EditAsk; allow_bash_execute := false; allowed_bash_commands := ∅;
     disallowed_bash_commands := ∅; allowed_web_fetch_domains := ∅; allowed_mcp_tools := ∅;
     allowed_mcp_servers := ∅ |}.

(** ** Command lists *)

Definition rg_has_pre_flag (ws : list str) : bool :=
  match ws with
  | w :: _ => str_eqb w (lit "rg")
              && existsb (λ w, str_eqb w (lit "--pre") || starts_with w (lit "--pre=")) ws
  | [] => false
  end.

Definition matches_command_prefix (cmd pattern : str) : bool := matches_word_prefix cmd pattern.

Definition SAFE_COMMANDS : list string :=
  ["ls"; "cat"; "pwd"; "date"; "git status"; "git branch"; "git log"; "git diff"; "git ls-files";
   "git show"; "git rev-parse"; "cargo check"; "whoami"; "hostname"; "uptime"; "grep"; "rg";
   "kubectl get"; "kubectl logs"; "kubectl describe"; "ps"; "bin/explorer ls"; "head"; "tail";
   "wc"; "sort"; "uniq"; "tr"; "cut"].
Definition is_safe_command_words_str (cmd : str) : bool :=
  existsb (λ p, matches_command_prefix cmd (lit p)) SAFE_COMMANDS.
Definition is_safe_command_words (ws : list str) : bool :=
  if is_empty ws then false
  else if rg_has_pre_flag ws then false
  else is_safe_command_words_str (join_words ws).

Definition ALWAYS_SAFE_COMMANDS : list string :=
  ["ls"; "cat"; "pwd"; "date"; "whoami"; "hostname"; "uptime"; "ps"; "git status"; "git branch";
   "git log"; "git diff"; "git ls-files"; "git show"; "git rev-parse"; "grep"; "rg";
   "cargo check"; "kubectl get"; "kubectl logs"; "kubectl describe"; "bin/explorer ls"].
Definition is_always_safe_command_words (ws : list str) : bool :=
  if is_empty ws then false
  else if rg_has_pre_flag ws then false
  else existsb (λ p, matches_command_prefix (join_words ws) (lit p)) ALWAYS_SAFE_COMMANDS.

Fixpoint flags_from (ws : list str) : nat :=
  match ws with
  | w :: ws' => if is_option w then S (flags_from ws') else 0
  | [] => 0
  end.
Definition default_always_allow_scope (ws : list str) : nat :=
  match ws with
  | [] => 0
  | w :: _ =>
      let general := let n := Nat.min (length ws) 2 in (n + flags_from (drop n ws))%nat in
      if is_safe_command_words ws then
        if is_safe_command_words_str w then 1
        else if (2 <=? length ws)%nat && is_safe_command_words_str (join_words (take 2 ws)) then 2
        else general
      else general
  end.

Definition DANGEROUS_COMMANDS : list string :=
  ["rm"; "chmod"; "chown"; "chgrp"; "chattr"; "pkill"; "kill"; "killall"; "git push"].
Definition is_dangerous_command_words (ws : list str) : bool :=
  if is_empty ws then false
  else existsb (λ p, matches_command_prefix (join_words ws) (lit p)) DANGEROUS_COMMANDS.

Definition matches_whitelist_prefix (segment_str allowed_prefix : str) : bool :=
  matches_command_prefix segment_str allowed_prefix.

(** ** One request *)

Inductive SegmentEvaluation : Type :=
| AutoAllow (via_session_grant : bool)
| SegReject (reason : str)
| NeedsPrompts (segments : list str) (any_dangerous : bool)
| Unparseable.

Record BashEvaluation : Type := {
  segments : SegmentEvaluation;
  writes_real_file : bool;
  sets_unsafe_env : bool;
  exact_grant : bool;
  all_segments_granted : bool;
}.

(** The locals of the loop of [evaluate_bash]. *)
Record SegAcc : Type := {
  needs_prompt : list str;
  any_dangerous : bool;
  via_session_grant : bool;
  granted : bool;
}.

(** [HashSet] iteration has no order: any element that matches may be the one
    [find] returns; the model takes the first of [elements]. *)
Definition find_prefix (s : str) (prefixes : gset str) : option str :=
  List.find (matches_whitelist_prefix s) (elements prefixes).

(** The first component is the result so far, the second a rejection, which
    ends the loop. *)
Fixpoint segment_loop (state : PermissionState) (honor_safe_lists : bool)
  (cmds : list PlainCommand) (acc : SegAcc) : SegAcc * option str :=
  match cmds with
  | [] => (acc, None)
  | parsed :: cmds' =>
      let ws := unwrap_wrappers (words parsed) in
      if is_setup_command ws then segment_loop state honor_safe_lists cmds' acc
      else
        let s := join_words ws in
        match find_prefix s (disallowed_bash_commands state) with
        | Some d =>
            (acc, Some (lit "User previously rejected `" ++ d ++ lit "` for this session"))
        | None =>
            let matched_grant :=
              existsb (matches_whitelist_prefix s) (elements (allowed_bash_commands state)) in
            let granted := granted acc && matched_grant in
            if is_dangerous_command_words ws then
              segment_loop state honor_safe_lists cmds'
                {| needs_prompt := needs_prompt acc ++ [s]; any_dangerous := true;
                   via_session_grant := via_session_grant acc; granted := granted |}
            else
              let matched_safe := honor_safe_lists
                                  && (is_safe_command_words ws || is_always_safe_command_words ws) in
              if matched_grant || matched_safe then
                segment_loop state honor_safe_lists cmds'
                  {| needs_prompt := needs_prompt acc; any_dangerous := any_dangerous acc;
                     via_session_grant := via_session_grant acc || matched_grant;
                     granted := granted |}
              else
                segment_loop state honor_safe_lists cmds'
                  {| needs_prompt := needs_prompt acc ++ [s]; any_dangerous := any_dangerous acc;
                     via_session_grant := via_session_grant acc; granted := granted |}
        end
  end.

Section gate.
Context {TS : TreeSitter}.

Definition evaluate_bash (cmd : str) (state : PermissionState) (honor_safe_lists : bool)
  : BashEvaluation :=
  let exact := bool_decide (cmd ∈ allowed_bash_commands state) in
  match try_parse_shell cmd with
  | None =>
      {| segments := Unparseable; writes_real_file := false; sets_unsafe_env := false;
         exact_grant := exact; all_segments_granted := false |}
  | Some tree =>
      let writes := existsb (λ p, negb (is_safe_write_sink p)) (command_write_paths_in_tree tree cmd) in
      let segs := try_parse_word_only_commands_sequence tree cmd in
      let unsafe_env := script_sets_unsafe_env tree cmd (default [] segs) in
      match segs with
      | None =>
          {| segments := Unparseable; writes_real_file := writes; sets_unsafe_env := unsafe_env;
             exact_grant := exact; all_segments_granted := false |}
      | Some cmds =>
          let '(acc, rejected) :=
            segment_loop state honor_safe_lists cmds
              {| needs_prompt := []; any_dangerous := false; via_session_grant := false;
                 granted := true |} in
          {| segments := match rejected with
                         | Some reason => SegReject reason
                         | None => if is_empty (needs_prompt acc)
                                   then AutoAllow (via_session_grant acc)
                                   else NeedsPrompts (needs_prompt acc) (any_dangerous acc)
                         end;
             writes_real_file := writes; sets_unsafe_env := unsafe_env; exact_grant := exact;
             all_segments_granted := granted acc |}
      end
  end.

End gate.

(** ** Floors and grants *)

Definition clamp_yolo (requested : bool) (yolo_pin : option str) : bool :=
  requested && negb (bool_decide (is_Some yolo_pin)).

Definition persisted_bash_auto_allows (state : PermissionState) (cmd : str) (yolo_pin : option str)
  : bool :=
  allow_bash_execute state && negb (bool_decide (is_Some yolo_pin))
  || bool_decide (cmd ∈ allowed_bash_commands state).

Definition bash_write_floor_requires_prompt (e : option BashEvaluation) : bool :=
  match e with Some e => writes_real_file e && negb (exact_grant e) | None => false end.
Definition bash_unsafe_env_floor_requires_prompt (e : option BashEvaluation) : bool :=
  match e with Some e => sets_unsafe_env e && negb (exact_grant e) | None => false end.
Definition bash_request_floor_requires_prompt (e : option BashEvaluation) : bool :=
  bash_write_floor_requires_prompt e || bash_unsafe_env_floor_requires_prompt e.
Definition sandbox_may_auto_allow_bash (e : option BashEvaluation) (sandbox_active : bool) : bool :=
  sandbox_active && negb (bash_request_floor_requires_prompt e).

(** Decision reasons ([mod reasons]). *)
Inductive Reason : Type :=
| YOLO | POLICY_ALLOW | POLICY_DENY | POLICY_ASK | AUTO_FAST_PATH | AUTO_CLASSIFIER_ALLOW
| AUTO_CLASSIFIER_BLOCK | SANDBOX_AUTO | PERSISTED_GRANT | SESSION_GRANT | STATIC_ALLOWLIST
| SAFE_COMMAND | SESSION_DENY | PROMPT_DENY | NEEDS_USER | REQUESTER_GONE.

Record BashGrantOpts : Type := {
  honor_safe_lists : bool;
  allow_blanket : bool;
  conservative_blanket : bool;
}.
Definition PRE_CLASSIFIER : BashGrantOpts :=
  {| honor_safe_lists := true; allow_blanket := true; conservative_blanket := true |}.
Definition ASK_FLOOR_REMEMBER : BashGrantOpts :=
  {| honor_safe_lists := false; allow_blanket := false; conservative_blanket := false |}.
Definition post_classify (auto_forced_prompt : bool) : BashGrantOpts :=
  {| honor_safe_lists := true; allow_blanket := negb auto_forced_prompt;
     conservative_blanket := false |}.

Definition grant_allow (reason : Reason) : option (Decision * Reason) := Some (Allow, reason).

Definition bash_grant_pre_decision (cmd : str) (e : BashEvaluation) (state : PermissionState)
  (yolo_pin : option str) (opts : BashGrantOpts) : option (Decision * Reason) :=
  match segments e with
  | SegReject reason => Some (Reject reason, SESSION_DENY)
  | segs =>
      if bash_request_floor_requires_prompt (Some e) then None
      else match segs with
      | AutoAllow via =>
          if negb (honor_safe_lists opts) && negb (all_segments_granted e) then None
          else grant_allow (if via then SESSION_GRANT else SAFE_COMMAND)
      | NeedsPrompts _ any_dangerous =>
          if negb (allow_blanket opts) || any_dangerous && conservative_blanket opts then None
          else if persisted_bash_auto_allows state cmd yolo_pin
          then Some (Allow, SESSION_GRANT) else None
      | Unparseable =>
          if negb (allow_blanket opts) then None
          else if (if conservative_blanket opts then exact_grant e
                   else persisted_bash_auto_allows state cmd yolo_pin)
          then Some (Allow, SESSION_GRANT) else None
      | SegReject _ => None
      end
  end.

(** ** MCP and web grants *)

Definition mcp_server_prefix_allowed (name : str) (servers : gset str) : bool :=
  if bool_decide (servers = ∅) then false
  else match split_once2 UNDERSCORE name with
       | None => false
       | Some (server, _) => negb (is_empty server) && bool_decide (server ∈ servers)
       end.

Definition mcp_pre_decision (name : str) (state : PermissionState)
  (policy_forced_prompt remember_tool_approvals : bool) : option Decision :=
  if policy_forced_prompt && negb remember_tool_approvals then None
  else if bool_decide (name ∈ allowed_mcp_tools state) then Some Allow
  else if mcp_server_prefix_allowed name (allowed_mcp_servers state) then Some Allow
  else None.

Section grants.
Context {PA : PermApi}.

(** The answer of the web allowlists: the static one, then the session's. *)
Definition web_fetch_grant (url : str) (state : PermissionState) (matcher : DomainMatcher)
  (granted_reason : Reason) : option (Decision * Reason) :=
  match url_parse url with
  | None => None
  | Some parsed_url =>
      match DomainMatcher_check matcher parsed_url with
      | None => grant_allow STATIC_ALLOWLIST
      | Some _ =>
          match url_host_str parsed_url with
          | None => None
          | Some host =>
              if bool_decide (normalize_domain host ∈ allowed_web_fetch_domains state)
              then grant_allow granted_reason else None
          end
      end
  end.

Definition session_grant_pre_decision (access : AccessKind) (e : option BashEvaluation)
  (state : PermissionState) (allow_edits_for_session : bool) (matcher : DomainMatcher)
  (yolo_pin : option str) : option (Decision * Reason) :=
  match access with
  | MCPTool name _ => (λ d, (d, SESSION_GRANT)) <$> mcp_pre_decision name state false false
  | WebFetch url => web_fetch_grant url state matcher SESSION_GRANT
  | Edit _ => if allow_edits_for_session then grant_allow SESSION_GRANT else None
  | Bash cmd => match e with
                | Some e => bash_grant_pre_decision cmd e state yolo_pin PRE_CLASSIFIER
                | None => None
                end
  | Read _ | Grep _ _ | WebSearch _ => None
  end.

End grants.
