(* ===== verification/PermissionManager.v ===== *)
(** * The permission manager

    The actor of [xai-grok-workspace/src/permission/manager.rs]: its state, its
    commands, the decision pipeline of a request and what a prompt's answer
    changes.  One command is one step; what the outside contributes to a step
    (whether the requester is still there, the answer of the prompt, the
    sandbox, the world a classifier looks at) is a record [Env].

    [persisted] logs every state handed to [persist_state]; [events] every
    [PermissionEvent], without identifiers and times. *)
From S2P Require Import Prelude.
From S2P Require Import RustStr.
From S2P Require Import FileSystem.
From S2P Require Import StrSearch.
From S2P Require Import Permission.
From S2P Require Import BashSyntax.
From S2P Require Import PermissionPolicy.
From S2P Require Import ShellAccess.
From S2P Require Import AutoMode.
From S2P Require Import BashGate.

Section manager.
Context {PA : PermApi} {TS : TreeSitter} {PF : PathFs} {World : Type}.

(** A [SharedClassifier]: its verdict may depend on the world. *)
Definition Classifier : Type :=
  World → str → AccessKind → option str → ClassifierContext → ClassifierVerdict.

(** What is fixed when the actor is spawned. *)
Record Config : Type := {
  cwd : str;
  yolo_pin : option str;
  remember_tool_approvals : bool;
  cfg_prompt_policy : PromptPolicy;
  compiled_policy : option CompiledPolicy;
  static_domain_matcher : DomainMatcher;
}.

Inductive PermissionMode : Type := ModeAlwaysApprove | ModeAuto | ModeAsk.
Definition permission_mode_artifact_str (m : PermissionMode) : str :=
  match m with
  | ModeAlwaysApprove => lit "always-approve" | ModeAuto => lit "auto" | ModeAsk => lit "ask"
  end.

Record PermissionEvent : Type := {
  ev_tool_name : str;
  ev_access_kind : str;
  ev_access_detail : option str;
  ev_yolo_mode : bool;
  ev_auto_approved : bool;
  ev_user_prompted : bool;
  ev_decision : str;
  ev_prompt_outcome : option str;
  ev_reject_reason : option str;
  ev_permission_mode : str;
  ev_decision_reason : Reason;
}.

Record Manager : Type := {
  state : PermissionState;
  yolo_mode : bool;
  auto_mode : bool;
  auto_classifier : option Classifier;
  classifier_turns : list ClassifierTurn;
  recorded_permission_decisions : list ClassifierTurn;
  instructions : option str;
  pin_refusal_logged : bool;
  allow_edits_for_session : bool;
  persisted : list PermissionState;
  events : list PermissionEvent;
}.

Inductive PermissionCommand : Type :=
| Request (access : AccessKind)
| SetYoloMode (enabled : bool)
| SetAutoMode (enabled : bool)
| SetClassifier (c : option Classifier)
| SetClassifierTranscript (ts : list ClassifierTurn)
| SetProjectInstructions (i : option str)
| ResetState
| Shutdown.

Record Env : Type := {
  gone_at_dequeue : bool;
  sandbox_active : bool;
  world : World;
  classify_abandoned : bool;
  gone_before_prompt : bool;
  (** [Cancelled] also when the requester goes away during the prompt *)
  outcome : PromptOutcome;
  gone_after_prompt : bool;
}.

(** ** Start *)

Definition default_classifier : Classifier := λ _, default_auto_mode_classifier.

(** [spawn_permission_manager_with_pin] up to the loop; [loaded] is what
    [load_state_from_disk] returned. *)
Definition spawn (yolo_pin : option str) (permission_config : option PermissionConfig)
  (initial_yolo : bool) (loaded : PermissionState) : Manager :=
  let initial_yolo := clamp_yolo initial_yolo yolo_pin in
  let seed_auto := negb initial_yolo
                   && match permission_config with
                      | Some c => bool_decide (prompt_policy c = PromptAuto)
                      | None => false
                      end in
  let migrate := match edit_policy loaded with EditAllow => true | _ => false end in
  let st := if migrate then
              {| edit_policy := EditAsk; allow_bash_execute := allow_bash_execute loaded;
                 allowed_bash_commands := allowed_bash_commands loaded;
                 disallowed_bash_commands := disallowed_bash_commands loaded;
                 allowed_web_fetch_domains := allowed_web_fetch_domains loaded;
                 allowed_mcp_tools := allowed_mcp_tools loaded;
                 allowed_mcp_servers := allowed_mcp_servers loaded |}
            else loaded in
  {| state := st; yolo_mode := initial_yolo; auto_mode := seed_auto;
     auto_classifier := Some default_classifier; classifier_turns := [];
     recorded_permission_decisions := []; instructions := None; pin_refusal_logged := false;
     allow_edits_for_session := false; persisted := if migrate then [st] else [];
     events := [] |}.
Definition spawn_config (yolo_pin : option str) (permission_config : option PermissionConfig)
  (remember : bool) (dir : str) (web_fetch_allowed_domains : list str) : Config :=
  {| cwd := dir; yolo_pin := yolo_pin; remember_tool_approvals := remember;
     cfg_prompt_policy := match permission_config with
                          | Some c => prompt_policy c
                          | None => PromptAsk
                          end;
     compiled_policy := CompiledPolicy_new <$> permission_config;
     static_domain_matcher := DomainMatcher_new web_fetch_allowed_domains |}.

(** ** Events *)

Definition access_detail (access : AccessKind) : option str :=
  match access with
  | Read _ => None
  | Grep path _ => path
  | Edit path => Some path
  | Bash cmd => Some cmd
  | MCPTool name input => Some (mcp_access_detail name input)
  | WebFetch url => Some url
  | WebSearch query => Some query
  end.

Definition decision_str (d : Decision) : str * option str :=
  match d with
  | Allow => (lit "allow", None)
  | Ask => (lit "ask", None)
  | Reject reason | PolicyDeny reason => (lit "reject", Some reason)
  | FollowupMessage _ => (lit "followup", None)
  | Cancelled => (lit "cancelled", None)
  end.

Definition current_mode (m : Manager) : PermissionMode :=
  if yolo_mode m then ModeAlwaysApprove else if auto_mode m then ModeAuto else ModeAsk.

Definition event_for (m : Manager) (access : AccessKind) (d : Decision)
  (auto_approved user_prompted : bool) (prompt_outcome : option str) (reason : Reason)
  : PermissionEvent :=
  {| ev_tool_name := tool_name_for_access access;
     ev_access_kind := access_kind_str access;
     ev_access_detail := access_detail access;
     ev_yolo_mode := yolo_mode m;
     ev_auto_approved := auto_approved;
     ev_user_prompted := user_prompted;
     ev_decision := (decision_str d).1;
     ev_prompt_outcome := prompt_outcome;
     ev_reject_reason := (decision_str d).2;
     ev_permission_mode := permission_mode_artifact_str (current_mode m);
     ev_decision_reason := reason |}.

Definition log_event (e : PermissionEvent) (m : Manager) : Manager :=
  {| state := state m; yolo_mode := yolo_mode m; auto_mode := auto_mode m;
     auto_classifier := auto_classifier m; classifier_turns := classifier_turns m;
     recorded_permission_decisions := recorded_permission_decisions m;
     instructions := instructions m; pin_refusal_logged := pin_refusal_logged m;
     allow_edits_for_session := allow_edits_for_session m; persisted := persisted m;
     events := events m ++ [e] |}.

(** ** Before the prompt *)

Inductive PrePrompt : Type :=
| Reply (d : Decision) (auto_approved : bool) (reason : Reason)
| Gone
| Prompt (trigger : Reason).

(** The policy's part: direct access, segments, file arguments. *)
Record PolicyView : Type := {
  policy_decision : option Decision;
  shell_file_forced_prompt : bool;
  shell_forced_prompt : bool;
  policy_forced_prompt : bool;
}.
Definition is_ask (d : option Decision) : bool :=
  match d with Some Ask => true | _ => false end.
Definition policy_view (cfg : Config) (access : AccessKind) : PolicyView :=
  let direct_decision :=
    match compiled_policy cfg with Some p => evaluate p access | None => None end in
  let shell_command_decision :=
    match compiled_policy cfg, access with
    | Some p, Bash cmd => evaluate_bash_command_policy p cmd
    | _, _ => None
    end in
  let shell_file_decision :=
    match compiled_policy cfg, access with
    | Some p, Bash cmd => evaluate_shell_file_access p cmd (cwd cfg)
    | _, _ => None
    end in
  let d := combine_decisions (combine_decisions direct_decision shell_command_decision)
             shell_file_decision in
  {| policy_decision := d;
     shell_file_forced_prompt := is_ask shell_file_decision;
     shell_forced_prompt := is_ask shell_file_decision || is_ask shell_command_decision;
     policy_forced_prompt := is_ask d |}.

(** The auto-mode stage: an answer, or whether and why it forces a prompt. *)
Definition auto_stage (m : Manager) (access : AccessKind) (env : Env)
  : PrePrompt + (bool * option Reason) :=
  let tool_name := tool_name_for_access access in
  let needs_user := access_requires_user_interaction tool_name access in
  match auto_mode_fast_path access tool_name needs_user with
  | FastAllow => inl (Reply Allow true AUTO_FAST_PATH)
  | FastPromptUser => inr (true, Some NEEDS_USER)
  | FastClassify =>
      let verdict :=
        match auto_classifier m with
        | Some clf =>
            if classify_abandoned env then None
            else Some (clf (world env) tool_name access (access_detail access)
                         {| turns := classifier_turns m ++ recorded_permission_decisions m;
                            project_instructions := instructions m |})
        | None => Some VerdictUnavailable
        end in
      match verdict with
      | None => inl Gone
      | Some VerdictAllow => inl (Reply Allow true AUTO_CLASSIFIER_ALLOW)
      | Some VerdictBlock | Some VerdictUnavailable => inr (true, Some AUTO_CLASSIFIER_BLOCK)
      end
  end.

(** The per-access pre-decision after auto mode, sandbox and policy allow. *)
Definition pre_decision_for (cfg : Config) (m : Manager) (access : AccessKind)
  (e : option BashEvaluation) (v : PolicyView) (auto_forced_prompt : bool)
  : option (Decision * Reason) :=
  match access with
  | Read _ | Grep _ _ =>
      if policy_forced_prompt v then None else Some (Allow, SAFE_COMMAND)
  | WebSearch _ => Some (Allow, SAFE_COMMAND)
  | MCPTool name _ =>
      (λ d, (d, PERSISTED_GRANT)) <$>
        mcp_pre_decision name (state m) (policy_forced_prompt v) (remember_tool_approvals cfg)
  | Edit _ =>
      if allow_edits_for_session m then Some (Allow, PERSISTED_GRANT)
      else match edit_policy (state m) with
           | EditReject => Some (Reject (lit "edits prohibited"), SESSION_DENY)
           | EditAsk | EditAllow => None
           end
  | Bash cmd =>
      match e with
      | None => None
      | Some ev =>
          if bash_request_floor_requires_prompt e then None
          else if policy_forced_prompt v then
            if remember_tool_approvals cfg && negb auto_forced_prompt
               && negb (shell_file_forced_prompt v)
            then bash_grant_pre_decision cmd ev (state m) (yolo_pin cfg) ASK_FLOOR_REMEMBER
            else None
          else bash_grant_pre_decision cmd ev (state m) (yolo_pin cfg)
                 (post_classify auto_forced_prompt)
      end
  | WebFetch url => web_fetch_grant url (state m) (static_domain_matcher cfg) PERSISTED_GRANT
  end.

Definition auto_prompt_blocks_allow (access : AccessKind) : bool :=
  match access with Bash _ => false | _ => true end.

Definition is_bash (access : AccessKind) : bool :=
  match access with Bash _ => true | _ => false end.

(** From the sandbox stage on. *)
Definition after_auto (cfg : Config) (m : Manager) (access : AccessKind) (env : Env)
  (e : option BashEvaluation) (v : PolicyView) (auto_forced_prompt : bool)
  (auto_prompt_reason : option Reason) : PrePrompt :=
  if is_bash access && sandbox_may_auto_allow_bash e (sandbox_active env)
     && negb (policy_forced_prompt v) && negb auto_forced_prompt
  then Reply Allow true SANDBOX_AUTO
  else
    let rest :=
      let pre_decision := pre_decision_for cfg m access e v auto_forced_prompt in
      let pre_decision :=
        match pre_decision with
        | Some (Allow, _) =>
            if auto_forced_prompt && auto_prompt_blocks_allow access then None else pre_decision
        | _ => pre_decision
        end in
      match pre_decision with
      | Some (decision, reason) => Reply decision true reason
      | None =>
          if bool_decide (cfg_prompt_policy cfg = PromptDeny) then
            Reply (PolicyDeny (lit "denied by prompt policy (tool not pre-approved)")) false PROMPT_DENY
          else if gone_before_prompt env then Gone
          else Prompt (if policy_forced_prompt v || shell_forced_prompt v then POLICY_ASK
                       else default NEEDS_USER auto_prompt_reason)
      end in
    match policy_decision v with
    | Some Ask => rest
    | Some Allow =>
        if bash_request_floor_requires_prompt e then rest
        else Reply Allow true POLICY_ALLOW
    | Some decision => Reply decision true POLICY_ALLOW
    | None => rest
    end.

(** From the always-approve stage on: what a deny rule did not settle. *)
Definition after_deny (cfg : Config) (m : Manager) (access : AccessKind) (env : Env)
  (e : option BashEvaluation) (v : PolicyView) : PrePrompt :=
  if yolo_mode m && negb (shell_forced_prompt v) then Reply Allow true YOLO
  else
    let grant :=
      if negb (policy_forced_prompt v) && negb (shell_forced_prompt v)
      then session_grant_pre_decision access e (state m) (allow_edits_for_session m)
             (static_domain_matcher cfg) (yolo_pin cfg)
      else None in
    match grant with
    | Some (decision, reason) => Reply decision true reason
    | None =>
        if auto_mode m && negb (policy_forced_prompt v) && negb (shell_forced_prompt v)
           && negb (bash_request_floor_requires_prompt e)
        then match auto_stage m access env with
             | inl r => r
             | inr (forced, reason) => after_auto cfg m access env e v forced reason
             end
        else after_auto cfg m access env e v false None
    end.

Definition bash_evaluation (m : Manager) (access : AccessKind) : option BashEvaluation :=
  match access with
  | Bash cmd => Some (evaluate_bash cmd (state m) true)
  | _ => None
  end.

Definition decide_request (cfg : Config) (m : Manager) (access : AccessKind) (env : Env)
  : PrePrompt :=
  if gone_at_dequeue env then Gone
  else
    let v := policy_view cfg access in
    match policy_decision v with
    | Some (Reject reason) => Reply (PolicyDeny reason) false POLICY_DENY
    | _ => after_deny cfg m access env (bash_evaluation m access) v
    end.

(** ** The answer of the prompt *)

(** The state after an answer, the decision, its name, and whether the state
    was handed to [persist_state]. *)
Record Answer : Type := {
  ans_state : PermissionState;
  ans_edits : bool;
  ans_decision : Decision;
  ans_outcome : str;
  ans_persist : bool;
}.

Definition allow_bash_command (c : str) (s : PermissionState) : PermissionState :=
  {| edit_policy := edit_policy s; allow_bash_execute := allow_bash_execute s;
     allowed_bash_commands := {[c]} ∪ allowed_bash_commands s;
     disallowed_bash_commands := disallowed_bash_commands s;
     allowed_web_fetch_domains := allowed_web_fetch_domains s;
     allowed_mcp_tools := allowed_mcp_tools s; allowed_mcp_servers := allowed_mcp_servers s |}.
Definition disallow_bash_command (c : str) (s : PermissionState) : PermissionState :=
  {| edit_policy := edit_policy s; allow_bash_execute := allow_bash_execute s;
     allowed_bash_commands := allowed_bash_commands s;
     disallowed_bash_commands := {[c]} ∪ disallowed_bash_commands s;
     allowed_web_fetch_domains := allowed_web_fetch_domains s;
     allowed_mcp_tools := allowed_mcp_tools s; allowed_mcp_servers := allowed_mcp_servers s |}.
Definition allow_domain (d : str) (s : PermissionState) : PermissionState :=
  {| edit_policy := edit_policy s; allow_bash_execute := allow_bash_execute s;
     allowed_bash_commands := allowed_bash_commands s;
     disallowed_bash_commands := disallowed_bash_commands s;
     allowed_web_fetch_domains := {[d]} ∪ allowed_web_fetch_domains s;
     allowed_mcp_tools := allowed_mcp_tools s; allowed_mcp_servers := allowed_mcp_servers s |}.
Definition allow_mcp_tool (t : str) (s : PermissionState) : PermissionState :=
  {| edit_policy := edit_policy s; allow_bash_execute := allow_bash_execute s;
     allowed_bash_commands := allowed_bash_commands s;
     disallowed_bash_commands := disallowed_bash_commands s;
     allowed_web_fetch_domains := allowed_web_fetch_domains s;
     allowed_mcp_tools := {[t]} ∪ allowed_mcp_tools s;
     allowed_mcp_servers := allowed_mcp_servers s |}.
Definition allow_mcp_server (t : str) (s : PermissionState) : PermissionState :=
  {| edit_policy := edit_policy s; allow_bash_execute := allow_bash_execute s;
     allowed_bash_commands := allowed_bash_commands s;
     disallowed_bash_commands := disallowed_bash_commands s;
     allowed_web_fetch_domains := allowed_web_fetch_domains s;
     allowed_mcp_tools := allowed_mcp_tools s;
     allowed_mcp_servers := {[t]} ∪ allowed_mcp_servers s |}.

Definition answer (s : PermissionState) (edits : bool) (d : Decision) (o : string) (persist : bool)
  : Answer :=
  {| ans_state := s; ans_edits := edits; ans_decision := d; ans_outcome := lit o;
     ans_persist := persist |}.

Definition rejected_execution : Decision := Reject (lit "User rejected the execution").
Definition prompt_error (e : str) : Decision :=
  Reject (lit "Failed to request permission from user: " ++ e).

Definition answer_bash (cmd : str) (s : PermissionState) (edits : bool) (o : PromptOutcome) : Answer :=
  match o with
  | AllowOnce => answer s edits Allow "allow_once" false
  | AllowAlways => answer (allow_bash_command cmd s) edits Allow "allow_always" true
  | AllowAlwaysBashCommand prefix =>
      answer (allow_bash_command prefix s) edits Allow "allow_always_bash" true
  | AllowAlwaysDomain _ | AllowAlwaysMcpTool _ | AllowAlwaysMcpServer _ | AllowEditsForSession =>
      answer s edits Allow "allow_once" false
  | RejectOnce => answer s edits rejected_execution "reject_once" false
  | RejectAlwaysBashCommand prefix =>
      answer (disallow_bash_command prefix s) edits
        (Reject (lit "User rejected the execution and excluded " ++ prefix ++ lit " from this session"))
        "reject_always_bash" true
  | OutcomeCancelled => answer s edits Cancelled "cancelled" false
  | OutcomeFollowupMessage msg => answer s edits (FollowupMessage msg) "followup" false
  | OutcomeError e => answer s edits (prompt_error e) "error" false
  end.

(** The server of an MCP tool name: not empty, before the first [__]. *)
Definition canonical_server (name : str) : option str :=
  match split_once2 UNDERSCORE name with
  | Some (s, _) => if is_empty s then None else Some s
  | None => None
  end.

Definition answer_other (access : AccessKind) (s : PermissionState) (edits : bool)
  (o : PromptOutcome) : Answer :=
  match o with
  | AllowOnce => answer s edits Allow "allow_once" false
  | AllowEditsForSession => answer s true Allow "allow_edits_for_session" false
  | AllowAlways =>
      let s' := match access with MCPTool name _ => allow_mcp_tool name s | _ => s end in
      answer s' edits Allow "allow_always" true
  | AllowAlwaysBashCommand _ => answer s edits Allow "allow_always_bash" false
  | AllowAlwaysDomain domain =>
      match access with
      | WebFetch _ => answer (allow_domain domain s) edits Allow "allow_always_domain" true
      | _ => answer s edits Allow "allow_always_domain" false
      end
  | AllowAlwaysMcpTool _ =>
      match access with
      | MCPTool access_name _ =>
          answer (allow_mcp_tool access_name s) edits Allow "allow_always_mcp_tool" true
      | _ => answer s edits Allow "allow_always_mcp_tool" false
      end
  | AllowAlwaysMcpServer server_prefix =>
      match access with
      | MCPTool access_name _ =>
          let s' := match canonical_server access_name with
                    | Some canonical =>
                        if str_eqb canonical server_prefix then allow_mcp_server canonical s
                        else allow_mcp_tool access_name s
                    | None => allow_mcp_tool access_name s
                    end in
          answer s' edits Allow "allow_always_mcp_server" true
      | _ => answer s edits Allow "allow_always_mcp_server" false
      end
  | RejectAlwaysBashCommand _ => answer s edits rejected_execution "reject_always_bash" false
  | RejectOnce => answer s edits rejected_execution "reject_once" false
  | OutcomeCancelled => answer s edits Cancelled "cancelled" false
  | OutcomeError e => answer s edits (prompt_error e) "error" false
  | OutcomeFollowupMessage msg => answer s edits (FollowupMessage msg) "followup" false
  end.

Definition answer_prompt (access : AccessKind) (s : PermissionState) (edits : bool)
  (o : PromptOutcome) : Answer :=
  match access with
  | Bash cmd => answer_bash cmd s edits o
  | _ => answer_other access s edits o
  end.

Definition MAX_RECORDED_PERMISSION_DECISIONS : nat := 12.

Definition prompted_decision_approved (d : Decision) (outcome_str : str) : option bool :=
  match d with
  | Allow => Some true
  | Reject _ => if str_eqb outcome_str (lit "error") then None else Some false
  | _ => None
  end.

(** Appending a decision and dropping the oldest beyond the limit. *)
Definition record_decision (access : AccessKind) (d : Decision) (outcome_str : str)
  (recorded : list ClassifierTurn) : list ClassifierTurn :=
  match prompted_decision_approved d outcome_str with
  | None => recorded
  | Some approved =>
      let recorded := recorded ++
        [PermissionDecision (tool_name_for_access access)
           (permission_decision_args access (access_detail access)) approved] in
      drop (length recorded - MAX_RECORDED_PERMISSION_DECISIONS) recorded
  end.

Definition is_cancelled (d : Decision) : bool :=
  match d with Cancelled => true | _ => false end.

Definition prompt_user (m : Manager) (access : AccessKind) (env : Env) (trigger : Reason)
  : Manager * Decision :=
  let a := answer_prompt access (state m) (allow_edits_for_session m) (outcome env) in
  let trigger := if is_cancelled (ans_decision a) && gone_after_prompt env then REQUESTER_GONE
                 else trigger in
  (log_event
     (event_for m access (ans_decision a) false true (Some (ans_outcome a)) trigger)
     {| state := ans_state a; yolo_mode := yolo_mode m; auto_mode := auto_mode m;
        auto_classifier := auto_classifier m; classifier_turns := classifier_turns m;
        recorded_permission_decisions :=
          record_decision access (ans_decision a) (ans_outcome a) (recorded_permission_decisions m);
        instructions := instructions m; pin_refusal_logged := pin_refusal_logged m;
        allow_edits_for_session := ans_edits a;
        persisted := if ans_persist a then persisted m ++ [ans_state a] else persisted m;
        events := events m |},
   ans_decision a).

(** ** Commands *)

(** The reply is [None] when the requester is gone. *)
Definition handle_request (cfg : Config) (m : Manager) (access : AccessKind) (env : Env)
  : Manager * option Decision :=
  match decide_request cfg m access env with
  | Gone => (log_event (event_for m access Cancelled false false None REQUESTER_GONE) m, None)
  | Reply d auto_approved reason =>
      (log_event (event_for m access d auto_approved false None reason) m, Some d)
  | Prompt trigger =>
      let '(m', d) := prompt_user m access env trigger in (m', Some d)
  end.

(** What the actor does to its own modes; the stores to the flags it shares with
    its handles are [mode_stores]. *)
Definition set_yolo_mode (cfg : Config) (m : Manager) (enabled : bool) : Manager :=
  let clamped := clamp_yolo enabled (yolo_pin cfg) in
  {| state := state m;
     yolo_mode := clamped; auto_mode := if clamped then false else auto_mode m;
     auto_classifier := auto_classifier m; classifier_turns := classifier_turns m;
     recorded_permission_decisions := recorded_permission_decisions m;
     instructions := instructions m;
     pin_refusal_logged := pin_refusal_logged m || enabled && negb clamped;
     allow_edits_for_session := allow_edits_for_session m; persisted := persisted m;
     events := events m |}.

Definition set_auto_mode (m : Manager) (enabled : bool) : Manager :=
  {| state := state m;
     yolo_mode := if enabled then false else yolo_mode m; auto_mode := enabled;
     auto_classifier := if enabled then Some (default default_classifier (auto_classifier m))
                        else auto_classifier m;
     classifier_turns := classifier_turns m;
     recorded_permission_decisions := recorded_permission_decisions m;
     instructions := instructions m; pin_refusal_logged := pin_refusal_logged m;
     allow_edits_for_session := allow_edits_for_session m; persisted := persisted m;
     events := events m |}.

(** The three commands that replace what the classifier sees. *)
Definition set_context (m : Manager) (clf : option Classifier) (ts : list ClassifierTurn)
  (i : option str) : Manager :=
  {| state := state m; yolo_mode := yolo_mode m; auto_mode := auto_mode m;
     auto_classifier := clf; classifier_turns := ts;
     recorded_permission_decisions := recorded_permission_decisions m;
     instructions := i; pin_refusal_logged := pin_refusal_logged m;
     allow_edits_for_session := allow_edits_for_session m; persisted := persisted m;
     events := events m |}.

Definition reset_state (m : Manager) : Manager :=
  {| state := PermissionState_default; yolo_mode := yolo_mode m; auto_mode := auto_mode m;
     auto_classifier := auto_classifier m; classifier_turns := classifier_turns m;
     recorded_permission_decisions := recorded_permission_decisions m;
     instructions := instructions m; pin_refusal_logged := pin_refusal_logged m;
     allow_edits_for_session := false;
     persisted := persisted m ++ [PermissionState_default]; events := events m |}.

(** The body of the receive loop.  The first component is [None] when the loop
    ends; the second is the reply of a request. *)
Definition handle_command (cfg : Config) (m : Manager) (cmd : PermissionCommand) (env : Env)
  : option Manager * option Decision :=
  match cmd with
  | SetYoloMode enabled => (Some (set_yolo_mode cfg m enabled), None)
  | SetAutoMode enabled => (Some (set_auto_mode m enabled), None)
  | SetClassifier c => (Some (set_context m c (classifier_turns m) (instructions m)), None)
  | SetClassifierTranscript ts => (Some (set_context m (auto_classifier m) ts (instructions m)), None)
  | SetProjectInstructions i =>
      (Some (set_context m (auto_classifier m) (classifier_turns m) i), None)
  | ResetState => (Some (reset_state m), None)
  | Request access => let '(m', d) := handle_request cfg m access env in (Some m', d)
  | Shutdown => (None, None)
  end.

(** ** The handle

    Handles share the mode flags with the actor and store to them before they send
    their command, so that [is_yolo_mode] answers at once; the actor stores again
    when it processes the command.  Each store and each send is a step of its own,
    so calls of different threads and the actor's stores interleave. *)
Inductive HandleOp : Type :=
| StoreYolo (b : bool)
| StoreAuto (b : bool)
| StoreSideQuery (b : bool)
| SendCommand (c : PermissionCommand).

(** The stores of a command that sets a mode: the handle's and the actor's are
    the same. *)
Definition mode_stores (pin : option str) (cmd : PermissionCommand) : list HandleOp :=
  match cmd with
  | SetYoloMode enabled =>
      let clamped := clamp_yolo enabled pin in
      StoreYolo clamped :: if clamped then [StoreAuto false] else []
  | SetAutoMode enabled => StoreAuto enabled :: if enabled then [StoreYolo false] else []
  | _ => []
  end.

(** The methods of [PermissionHandle] that send a command; [set_classifier]
    clears [side_query_wired]. *)
Definition handle_send (cfg : Config) (cmd : PermissionCommand) : list HandleOp :=
  match cmd with
  | SetClassifier _ => [StoreSideQuery false]
  | _ => mode_stores (yolo_pin cfg) cmd
  end ++ [SendCommand cmd].
Definition set_classifier_with_side_query (c : Classifier) (has_side_query : bool) : list HandleOp :=
  [StoreSideQuery has_side_query; SendCommand (SetClassifier (Some c))].
Definition set_llm_side_query_wired (wired : bool) : list HandleOp := [StoreSideQuery wired].

(** [calls] holds what is left of each call of a handle, [storing] what is left of
    the actor's stores. *)
Record System : Type := {
  actor : Manager;
  mailbox : list PermissionCommand;
  yolo_state : bool;
  auto_state : bool;
  side_query_wired : bool;
  calls : list (list HandleOp);
  storing : list HandleOp;
}.
Definition is_yolo_mode (s : System) : bool := yolo_state s.
Definition is_auto_mode (s : System) : bool := auto_state s.
Definition has_llm_side_query (s : System) : bool := side_query_wired s.

Definition do_op (op : HandleOp) (s : System) : System :=
  {| actor := actor s;
     mailbox := match op with SendCommand c => mailbox s ++ [c] | _ => mailbox s end;
     yolo_state := match op with StoreYolo b => b | _ => yolo_state s end;
     auto_state := match op with StoreAuto b => b | _ => auto_state s end;
     side_query_wired := match op with StoreSideQuery b => b | _ => side_query_wired s end;
     calls := calls s; storing := storing s |}.
Definition with_calls (l : list (list HandleOp)) (s : System) : System :=
  {| actor := actor s; mailbox := mailbox s; yolo_state := yolo_state s; auto_state := auto_state s;
     side_query_wired := side_query_wired s; calls := l; storing := storing s |}.
Definition with_storing (l : list HandleOp) (s : System) : System :=
  {| actor := actor s; mailbox := mailbox s; yolo_state := yolo_state s; auto_state := auto_state s;
     side_query_wired := side_query_wired s; calls := calls s; storing := l |}.

(** What a handle can be asked to do *)
Inductive handle_call (cfg : Config) : list HandleOp → Prop :=
| call_send cmd : handle_call cfg (handle_send cfg cmd)
| call_classifier c b : handle_call cfg (set_classifier_with_side_query c b)
| call_wired b : handle_call cfg (set_llm_side_query_wired b).

(** One step of the session: a call begins, a call does its next operation, the
    actor takes the next command, or it does its next store. *)
Inductive step (cfg : Config) : System → System → Prop :=
| step_call s ops : handle_call cfg ops → step cfg s (with_calls (calls s ++ [ops]) s)
| step_op s l1 op ops l2 :
    calls s = l1 ++ (op :: ops) :: l2 → step cfg s (do_op op (with_calls (l1 ++ ops :: l2) s))
| step_actor s cmd rest env m' reply :
    storing s = [] → mailbox s = cmd :: rest →
    handle_command cfg (actor s) cmd env = (Some m', reply) →
    step cfg s
      {| actor := m'; mailbox := rest; yolo_state := yolo_state s; auto_state := auto_state s;
         side_query_wired := side_query_wired s; calls := calls s;
         storing := mode_stores (yolo_pin cfg) cmd |}
| step_store s op ops :
    storing s = op :: ops → step cfg s (do_op op (with_storing ops s)).

Definition initial_system (m : Manager) : System :=
  {| actor := m; mailbox := []; yolo_state := yolo_mode m; auto_state := auto_mode m;
     side_query_wired := false; calls := []; storing := [] |}.

End manager.

Arguments Manager {PA} World.
Arguments System {PA} World.
Arguments PermissionCommand {PA} World.
Arguments HandleOp {PA} World.
Arguments Env World : clear implicits.
