(* ===== verification/PermissionFacts.v ===== *)
(** * The permission manager: theorems

    Deny rules win in every mode; what an unprompted approval of a bash command
    rests on; the modes and their pin over every interleaving of handles and
    actor; what a prompt's answer may add to the remembered grants. *)
From S2P Require Import Prelude.
From S2P Require Import RustStr.
From S2P Require Import FileSystem.
From S2P Require Import StrSearch.
From S2P Require Import Permission.
From S2P Require Import BashSyntax.
From S2P Require Import PermissionDemo.
From S2P Require Import PermissionPolicy.
From S2P Require Import PolicyFacts.
From S2P Require Import ShellAccess.
From S2P Require Import AutoMode.
From S2P Require Import BashGate.
From S2P Require Import PermissionManager.

(** Split every branch of a hypothesis about the pipeline. *)
Ltac branches H :=
  repeat match type of H with
         | context [match ?x with _ => _ end] => destruct x eqn:?; try discriminate H
         end.

Section facts.
Context {PA : PermApi} {TS : TreeSitter} {PF : PathFs} {World : Type}.
Implicit Types (m : Manager World) (env : Env World) (cfg : Config).

(** ** Deny rules *)

Lemma evaluate_rank p access : (rank (evaluate p access) ≤ 3)%nat.
Proof. destruct (evaluate p access) as [[]|]; cbn; lia. Qed.

(** [evaluate] only rejects, asks or allows. *)
Lemma evaluate_shape p access :
  match evaluate p access with
  | None | Some Allow | Some Ask | Some (Reject _) => True
  | _ => False
  end.
Proof.
  unfold evaluate. generalize false at 1 as a. generalize false as b.
  induction (zip _ _) as [|rm l IH]; intros b a; cbn [evaluate_loop].
  - by destruct a, b.
  - destruct (negb _); [apply IH|]. destruct (negb _); [apply IH|].
    destruct (action rm.1); [apply IH|done|apply IH].
Qed.

(** The shape of everything that is combined. *)
Definition policy_shape (d : option Decision) : Prop :=
  match d with None | Some Allow | Some Ask | Some (Reject _) => True | _ => False end.
Lemma escalation_shape d : escalation d → policy_shape d.
Proof. by destruct d as [[]|]. Qed.
Lemma combine_shape a b :
  policy_shape a → policy_shape b → policy_shape (combine_decisions a b).
Proof.
  destruct a as [a|], b as [b|]; cbn; try done. by destruct (decision_rank b <=? decision_rank a)%nat.
Qed.
Lemma shape_deny d : policy_shape d → (3 ≤ rank d)%nat → ∃ r, d = Some (Reject r).
Proof. destruct d as [[]|]; cbn; intros; try done; try lia. by eexists. Qed.

Lemma evaluate_shell_path_escalation p token dir mode :
  escalation (evaluate_shell_path p token dir mode).
Proof.
  unfold evaluate_shell_path.
  repeat first [apply escalate_escalation|apply escalation_combine];
    destruct (resolve_symlink_target _); [destruct (negb _)|destruct (path_has_symlink _)];
    try apply escalate_escalation; done.
Qed.

Lemma judge_operand_escalation p dir g pm :
  escalation g.2 → escalation (judge_operand p dir g pm).2.
Proof.
  intros Hg. apply escalation_combine; [exact Hg|apply evaluate_shell_path_escalation].
Qed.
Lemma judge_operands_escalation p dir l g :
  escalation g.2 → escalation (foldl (judge_operand p dir) g l).2.
Proof.
  revert g. induction l as [|pm l IH]; intros g Hg; [exact Hg|].
  cbn [foldl]. by apply IH, judge_operand_escalation.
Qed.

Lemma judge_redirect_escalation p dir pos g r :
  escalation g.2 → escalation (judge_redirect p dir pos g r).2.
Proof.
  intros Hg. unfold judge_redirect. destruct (rd_path r); [|exact Hg].
  apply escalation_combine; [exact Hg|apply evaluate_shell_path_escalation].
Qed.

Lemma judge_invocation_escalation p dir pos failed g i :
  escalation g.2 → escalation (judge_invocation p dir pos failed g i).2.
Proof.
  intros Hg. unfold judge_invocation. destruct (unwrap_wrappers _); [exact Hg|]. cbn zeta.
  destruct (str_eqb _ (lit "cd")); [exact Hg|].
  destruct (str_eqb _ (lit "dd")); [by apply judge_operands_escalation|].
  destruct (shell_path_command_operands _ _); [by repeat apply judge_operands_escalation|].
  destruct (shell_file_mode _); by repeat apply judge_operands_escalation.
Qed.

Lemma file_access_escalation p cmd dir : escalation (evaluate_shell_file_access p cmd dir).
Proof.
  unfold evaluate_shell_file_access. destruct (negb _); [done|].
  destruct (try_parse_shell cmd) as [root|]; [|done]. cbn zeta.
  apply escalation_combine; [|by case_match].
  assert (∀ l g, escalation g.2 →
            escalation (foldl (judge_invocation p dir (cwd_poison_positions root cmd)
                                 (has_error root)) g l).2) as Hi.
  { induction l as [|i l IH]; intros g Hg; [exact Hg|].
    cbn [foldl]. by apply IH, judge_invocation_escalation. }
  apply Hi. assert (escalation (false, None : option Decision).2) as H0 by done. revert H0.
  generalize (false, None : option Decision) as g.
  induction (shell_redirect_targets root cmd) as [|r l IH]; intros g Hg; [exact Hg|].
  cbn [foldl]. by apply IH, judge_redirect_escalation.
Qed.

Lemma evaluate_deny_rank c access :
  hit c access ActionDeny → (3 ≤ rank (evaluate (CompiledPolicy_new c) access))%nat.
Proof.
  intros Hd. destruct (evaluate_exact c access) as [[_ [r ->]]|[[? _]|[[? _]|[? _]]]]; [cbn; lia|done..].
Qed.

Lemma command_policy_deny_rank c cmd s :
  reaches 8 cmd s → hit c (Bash s) ActionDeny →
  (3 ≤ rank (evaluate_bash_command_policy (CompiledPolicy_new c) cmd))%nat.
Proof.
  intros Hs Hd. pose proof (evaluate_deny_rank c (Bash s) Hd) as Hr.
  assert (3 ≤ rank (escalate (evaluate (CompiledPolicy_new c) (Bash s))))%nat as Hr'.
  { destruct (evaluate _ _) as [[]|]; cbn in *; lia. }
  unfold evaluate_bash_command_policy.
  destruct (has_bash_command_restrictions (CompiledPolicy_new c)) eqn:Hres; cbn [negb].
  - apply segments_rank; [lia|]. left. by exists s.
  - rewrite unrestricted_commands in Hr' by done. cbn in Hr'. lia.
Qed.

(** What the policy view holds against a request. *)
Definition policy_denies (c : PermissionConfig) (cfg : Config) (access : AccessKind) : Prop :=
  hit c access ActionDeny
  ∨ ∃ cmd, access = Bash cmd
      ∧ ((∃ s, reaches 8 cmd s ∧ hit c (Bash s) ActionDeny)
         ∨ ∃ r, evaluate_shell_file_access (CompiledPolicy_new c) cmd (cwd cfg) = Some (Reject r)).

Lemma policy_view_shape cfg access : policy_shape (policy_decision (policy_view cfg access)).
Proof.
  unfold policy_view. cbn [policy_decision]. destruct (compiled_policy cfg) as [p|]; [|done].
  repeat apply combine_shape; [apply evaluate_shape|..]; destruct access; try done;
    apply escalation_shape.
  - unfold evaluate_bash_command_policy. destruct (negb _); [done|apply segments_escalation].
  - apply file_access_escalation.
Qed.

Lemma policy_view_deny c cfg access :
  compiled_policy cfg = Some (CompiledPolicy_new c) → policy_denies c cfg access →
  ∃ r, policy_decision (policy_view cfg access) = Some (Reject r).
Proof.
  intros Hp Hd. apply shape_deny; [apply policy_view_shape|].
  unfold policy_view. cbn [policy_decision]. rewrite Hp, !rank_combine.
  destruct Hd as [Hd|(cmd & -> & [(s & Hs & Hd)|[r ->]])].
  - pose proof (evaluate_deny_rank c access Hd). lia.
  - pose proof (command_policy_deny_rank c cmd s Hs Hd). lia.
  - cbn [rank from_option decision_rank]. lia.
Qed.

(** A step that answers without a prompt changes nothing but the event log. *)
Definition only_logs m m' : Prop :=
  state m' = state m ∧ persisted m' = persisted m
  ∧ allow_edits_for_session m' = allow_edits_for_session m
  ∧ recorded_permission_decisions m' = recorded_permission_decisions m
  ∧ ∃ e, events m' = events m ++ [e] ∧ ev_user_prompted e = false.

Lemma log_only m access d auto r :
  only_logs m (log_event (event_for m access d auto false None r) m).
Proof. split_and!; try done. by eexists. Qed.

(** C1: A deny rule wins in every mode: if one governs the access, or any
    command a bash script can reach, or the script's file arguments are denied,
    the request is answered with the denial (or abandoned with its requester),
    whatever the modes, the remembered grants, the classifier and the sandbox
    say; nobody is prompted and no state changes. *)
Theorem deny_always_wins (c : PermissionConfig) cfg m access env :
  compiled_policy cfg = Some (CompiledPolicy_new c) → policy_denies c cfg access →
  let '(m', reply) := handle_request cfg m access env in
  only_logs m m'
  ∧ (if gone_at_dequeue env then reply = None else ∃ r, reply = Some (PolicyDeny r)).
Proof.
  intros Hp Hd. destruct (policy_view_deny c cfg access Hp Hd) as [r Hr].
  unfold handle_request, decide_request. destruct (gone_at_dequeue env).
  - split; [apply log_only|reflexivity].
  - rewrite Hr. split; [apply log_only|by exists r].
Qed.

(** The stages of the pipeline, as cases. *)
Lemma decide_cases cfg m access env r :
  decide_request cfg m access env = r →
  r = Gone ∨ (∃ x, r = Reply (PolicyDeny x) false POLICY_DENY)
  ∨ after_deny cfg m access env (bash_evaluation m access) (policy_view cfg access) = r.
Proof.
  unfold decide_request. destruct (gone_at_dequeue env); [by left|]. cbn zeta.
  intros H. right. destruct (policy_decision _) as [[]|]; first [by right|left; by eexists].
Qed.

Lemma after_deny_cases cfg m access env e v r :
  after_deny cfg m access env e v = r →
  (r = Reply Allow true YOLO ∧ yolo_mode m = true ∧ shell_forced_prompt v = false)
  ∨ (∃ d why, r = Reply d true why ∧ policy_forced_prompt v = false
       ∧ session_grant_pre_decision access e (state m) (allow_edits_for_session m)
           (static_domain_matcher cfg) (yolo_pin cfg) = Some (d, why))
  ∨ (auto_mode m = true ∧ policy_forced_prompt v = false ∧ shell_forced_prompt v = false
     ∧ bash_request_floor_requires_prompt e = false ∧ auto_stage m access env = inl r)
  ∨ (∃ forced why, after_auto cfg m access env e v forced why = r
       ∧ (why = None ∨ auto_stage m access env = inr (forced, why))).
Proof.
  unfold after_deny. destruct (yolo_mode m && negb (shell_forced_prompt v)) eqn:Hy.
  { intros <-. apply andb_true_iff in Hy as [Hy Hs%negb_true_iff]. by left. }
  cbn zeta. intros H. right. revert H.
  destruct (if _ && _ then session_grant_pre_decision _ _ _ _ _ _ else None) as [[d why]|] eqn:Hg.
  { intros <-. left. exists d, why.
    destruct (negb (policy_forced_prompt v)) eqn:Hp; [|discriminate].
    destruct (negb (shell_forced_prompt v)); [|discriminate].
    by apply negb_true_iff in Hp. }
  intros H. right. revert H.
  destruct (auto_mode m && negb (policy_forced_prompt v) && negb (shell_forced_prompt v)
            && negb (bash_request_floor_requires_prompt e)) eqn:Ha.
  - rewrite !andb_true_iff, !negb_true_iff in Ha. destruct Ha as [[[Ha Hp] Hs] Hf].
    destruct (auto_stage m access env) as [x|[forced why]]; intros H.
    + left. subst x. by split_and!.
    + right. exists forced, why. split; [done|by right].
  - intros H. right. exists false, None. split; [done|by left].
Qed.

(** ** Approvals without a prompt *)















(** Auto mode only ever answers with an approval. *)
Lemma auto_stage_reply m access env d auto r :
  auto_stage m access env = inl (Reply d auto r) → auto = true ∧ d = Allow ∧ r ≠ YOLO.
Proof.
  unfold auto_stage. cbn zeta. destruct (auto_mode_fast_path _ _ _).
  - by intros [= <- <- <-].
  - discriminate.
  - destruct (match auto_classifier m with None => _ | Some _ => _ end) as [[]|]; try discriminate.
    by intros [= <- <- <-].
Qed.



(** ** Modes *)

(** What a command does to the actor's modes, always-approve and auto *)
Definition mode_step (pin : option str) (cmd : PermissionCommand World) (f : bool * bool)
  : bool * bool :=
  match cmd with
  | SetYoloMode enabled =>
      let clamped := clamp_yolo enabled pin in (clamped, if clamped then false else f.2)
  | SetAutoMode enabled => (if enabled then false else f.1, enabled)
  | _ => f
  end.

Definition actor_flags m : bool * bool := (yolo_mode m, auto_mode m).

Definition not_both (f : bool * bool) : Prop := f.1 && f.2 = false.
Definition pinned_off (pin : option str) (f : bool * bool) : Prop := is_Some pin → f.1 = false.

Lemma mode_step_ok pin c f :
  not_both f ∧ pinned_off pin f → not_both (mode_step pin c f) ∧ pinned_off pin (mode_step pin c f).
Proof.
  unfold not_both, pinned_off. intros [Hb Hp]. destruct c; cbn [mode_step fst snd]; try done.
  - unfold clamp_yolo. destruct enabled; cbn [andb]; [|done].
    destruct (decide (is_Some pin)) as [Hs|Hs]; [by rewrite bool_decide_eq_true_2|].
    rewrite bool_decide_eq_false_2 by done. split; [done|]. intros; done.
  - destruct enabled; cbn [andb]; [done|]. rewrite andb_false_r. done.
Qed.

(** What a step of the actor does to flags and events. *)
Definition quiet_event m (e : PermissionEvent) : Prop :=
  ev_yolo_mode e = yolo_mode m ∧ (yolo_mode m = false → ev_decision_reason e ≠ YOLO).

Lemma grant_reason cmd ev st pin opts d r :
  bash_grant_pre_decision cmd ev st pin opts = Some (d, r) → r ≠ YOLO.
Proof.
  unfold bash_grant_pre_decision, grant_allow.
  destruct (segments ev); repeat case_match; intros [= <- <-]; done.
Qed.
Lemma web_grant_reason url st dm why d r :
  why ≠ YOLO → web_fetch_grant url st dm why = Some (d, r) → r ≠ YOLO.
Proof.
  intros Hw. unfold web_fetch_grant, grant_allow. repeat case_match; intros [= <- <-]; done.
Qed.

Lemma session_grant_reason access e st edits dm pin d r :
  session_grant_pre_decision access e st edits dm pin = Some (d, r) → r ≠ YOLO.
Proof.
  destruct access; cbn [session_grant_pre_decision]; try discriminate.
  - destruct edits; [|discriminate]. by intros [= <- <-].
  - destruct e; [apply grant_reason|discriminate].
  - intros (x & _ & [= -> ->])%fmap_Some. done.
  - by apply web_grant_reason.
Qed.

Lemma pre_decision_reason cfg m access e v forced d r :
  pre_decision_for cfg m access e v forced = Some (d, r) → r ≠ YOLO.
Proof.
  destruct access; cbn [pre_decision_for].
  - case_match; [discriminate|]. by intros [= <- <-].
  - case_match; [discriminate|]. by intros [= <- <-].
  - case_match; [by intros [= <- <-]|]. case_match; try discriminate. by intros [= <- <-].
  - destruct e; [|discriminate]. repeat case_match; try discriminate; apply grant_reason.
  - intros (x & _ & [= -> ->])%fmap_Some. done.
  - by apply web_grant_reason.
  - by intros [= <- <-].
Qed.

Lemma after_auto_reason cfg m access env e v forced why d auto r :
  after_auto cfg m access env e v forced why = Reply d auto r → r ≠ YOLO.
Proof.
  unfold after_auto. destruct (_ && negb forced); [by intros [= <- <- <-]|].
  set (pre := pre_decision_for cfg m access e v forced).
  assert (Hpre : ∀ d r, pre = Some (d, r) → r ≠ YOLO) by (intros; by eapply pre_decision_reason).
  set (rest := match _ with Some (decision, reason) => _ | None => _ end).
  assert (Hrest : rest = Reply d auto r → r ≠ YOLO).
  { unfold rest. destruct pre as [[dd rr]|].
    - specialize (Hpre dd rr eq_refl).
      destruct dd; try (destruct (forced && _)); try (by intros [= <- <- <-]);
        repeat case_match; try discriminate; by intros [= <- <- <-].
    - repeat case_match; try discriminate; by intros [= <- <- <-]. }
  destruct (policy_decision v) as [[]|]; try exact Hrest; try (by intros [= <- <- <-]).
  case_match; [exact Hrest|by intros [= <- <- <-]].
Qed.

Lemma decide_reason cfg m access env d auto r :
  decide_request cfg m access env = Reply d auto r → yolo_mode m = false → r ≠ YOLO.
Proof.
  intros [?|[[? [= -> -> ->]]|H]]%decide_cases Hy; [discriminate|done|].
  apply after_deny_cases in H as [(Hr & Hy' & _)|[(d' & why & [= -> -> ->] & _ & Hg)
    |[(_ & _ & _ & _ & Hst)|(forced & why & H & _)]]].
  - congruence.
  - by eapply session_grant_reason.
  - by apply auto_stage_reply in Hst as (_ & _ & ?).
  - by eapply after_auto_reason.
Qed.

Lemma after_auto_prompt_reason cfg m access env e v forced why trigger :
  why ≠ Some YOLO →
  after_auto cfg m access env e v forced why = Prompt trigger → trigger ≠ YOLO.
Proof.
  intros Hw. unfold after_auto. destruct (_ && negb forced); [discriminate|].
  assert (∀ x, x = Prompt (if policy_forced_prompt v || shell_forced_prompt v then POLICY_ASK
                            else default NEEDS_USER why) → x = Prompt trigger → trigger ≠ YOLO) as Ht.
  { intros x ->. intros [= <-]. destruct (_ || _); [done|]. destruct why as [w|]; [|done].
    cbn. congruence. }
  intros H. eapply Ht; [|reflexivity]. revert H. repeat case_match; congruence.
Qed.

Lemma auto_stage_never_prompts m access env trigger :
  auto_stage m access env ≠ inl (Prompt trigger).
Proof.
  unfold auto_stage. cbn zeta. destruct (auto_mode_fast_path _ _ _); try discriminate.
  destruct (match auto_classifier m with None => _ | Some _ => _ end) as [[]|]; discriminate.
Qed.

Lemma auto_stage_why m access env forced why :
  auto_stage m access env = inr (forced, why) → why ≠ Some YOLO.
Proof.
  unfold auto_stage. cbn zeta. destruct (auto_mode_fast_path _ _ _).
  - discriminate.
  - by intros [= <- <-].
  - destruct (match auto_classifier m with None => _ | Some _ => _ end) as [[]|]; try discriminate;
      by intros [= <- <-].
Qed.

Lemma decide_prompt_reason cfg m access env trigger :
  decide_request cfg m access env = Prompt trigger → trigger ≠ YOLO.
Proof.
  intros [?|[[? ?]|H]]%decide_cases; [discriminate..|].
  apply after_deny_cases in H as [(? & _)|[(d & why & ? & _)
    |[(_ & _ & _ & _ & Hst)|(forced & why & H & Hw)]]]; try discriminate.
  - by apply auto_stage_never_prompts in Hst.
  - eapply after_auto_prompt_reason; [|exact H].
    destruct Hw as [->|Hw]; [done|by eapply auto_stage_why].
Qed.

(** A request appends one event, and touches no flag. *)
Lemma handle_request_flags cfg m access env m' reply :
  handle_request cfg m access env = (m', reply) →
  actor_flags m' = actor_flags m
  ∧ ∃ e, events m' = events m ++ [e] ∧ quiet_event m e.
Proof.
  unfold handle_request. destruct (decide_request cfg m access env) as [d auto r| |trigger] eqn:Hd.
  - intros [= <- _]. split_and!; try done. eexists. split; [reflexivity|]. split; [done|].
    intros Hy. cbn [ev_decision_reason event_for]. by eapply decide_reason.
  - intros [= <- _]. split_and!; try done. eexists. by split; [reflexivity|].
  - unfold prompt_user. intros [= <- _]. split_and!; try done. eexists.
    split; [reflexivity|]. split; [done|]. intros Hy. cbn [ev_decision_reason event_for].
    case_match; [done|]. by eapply decide_prompt_reason.
Qed.

Lemma handle_command_flags cfg m cmd env m' reply :
  handle_command cfg m cmd env = (Some m', reply) →
  actor_flags m' = mode_step (yolo_pin cfg) cmd (actor_flags m)
  ∧ (events m' = events m ∨ ∃ e, events m' = events m ++ [e] ∧ quiet_event m e).
Proof.
  destruct cmd as [access| | | | | | |]; cbn [handle_command]; try (intros [= <- _]; by split_and!; try left).
  destruct (handle_request cfg m access env) as [m1 d] eqn:Hr. intros [= -> _].
  apply handle_request_flags in Hr as (H1 & H2). split_and!; [done|by right].
Qed.

(** *** The shared flags, one at a time *)

Inductive Flag : Type := Yolo | Auto.
Definition shared (f : Flag) (s : System World) : bool :=
  match f with Yolo => yolo_state s | Auto => auto_state s end.
Definition mode_of (f : Flag) m : bool := match f with Yolo => yolo_mode m | Auto => auto_mode m end.
(** The value an operation stores to the flag *)
Definition stored (f : Flag) (op : HandleOp World) : option bool :=
  match f, op with Yolo, StoreYolo b | Auto, StoreAuto b => Some b | _, _ => None end.
Definition stores (f : Flag) (op : HandleOp World) : bool :=
  match stored f op with Some _ => true | None => false end.
Definition sets_flag (f : Flag) pin (cmd : PermissionCommand World) : bool :=
  existsb (λ op, stores f op) (mode_stores pin cmd).
(** The operation stores to the flag or sends a command that will. *)
Definition due (f : Flag) pin (op : HandleOp World) : bool :=
  stores f op || match op with SendCommand c => sets_flag f pin c | _ => false end.

(** Nothing that is under way concerns the flag. *)
Record idle (f : Flag) pin (s : System World) : Prop := {
  idle_mailbox : Forall (λ c, sets_flag f pin c = false) (mailbox s);
  idle_calls : Forall (Forall (λ op, due f pin op = false)) (calls s);
  idle_storing : Forall (λ op, due f pin op = false) (storing s);
}.

(** A call that stores to the flag has a command to send afterwards that does. *)
Definition call_ok (f : Flag) pin (ops : list (HandleOp World)) : Prop :=
  ∀ l1 op l2, ops = l1 ++ op :: l2 → stores f op = true →
    Exists (λ op, due f pin op = true) l2.
(** What is stored under a pin is not always-approve. *)
Definition op_pinned (pin : option str) (op : HandleOp World) : Prop := is_Some pin → stored Yolo op ≠ Some true.

Lemma call_ok_tail f pin op ops : call_ok f pin (op :: ops) → call_ok f pin ops.
Proof. intros H l1 o l2 ->. by apply (H (op :: l1)). Qed.

Lemma pinned_stores pin cmd : Forall (op_pinned pin) (mode_stores pin cmd).
Proof.
  unfold op_pinned. destruct cmd; cbn [mode_stores]; try constructor.
  - intros Hp. unfold clamp_yolo. rewrite (bool_decide_eq_true_2 (is_Some pin)) by done.
    cbn. rewrite andb_false_r. done.
  - by destruct (clamp_yolo enabled pin); repeat constructor.
  - done.
  - by destruct enabled; repeat constructor.
Qed.

Lemma call_pinned cfg ops : handle_call cfg ops → Forall (op_pinned (yolo_pin cfg)) ops.
Proof.
  unfold op_pinned. intros [cmd|c b|b]; [|by repeat constructor..].
  unfold handle_send. apply Forall_app. split; [|by repeat constructor].
  destruct cmd; try apply pinned_stores. by repeat constructor.
Qed.

Lemma call_sends f cfg ops : handle_call cfg ops → call_ok f (yolo_pin cfg) ops.
Proof.
  intros Hc l1 op l2 E Hop.
  assert (Hin : op ∈ ops) by (rewrite E; apply elem_of_app; right; left).
  destruct Hc as [cmd|c b|b].
  2-3: exfalso; repeat (apply elem_of_cons in Hin as [->|Hin]; [by destruct f|]);
    by apply elem_of_nil in Hin.
  assert (Hsets : sets_flag f (yolo_pin cfg) cmd = true).
  { apply existsb_exists. exists op. split; [|done]. apply list_elem_of_In.
    unfold handle_send in Hin. apply elem_of_app in Hin as [Hin| ->%list_elem_of_singleton].
    - destruct cmd; try exact Hin. apply list_elem_of_singleton in Hin as ->. by destruct f.
    - by destruct f. }
  destruct l2 as [|x l2 _] using rev_ind.
  - exfalso. unfold handle_send in E. apply app_inj_tail in E as [_ <-]. by destruct f.
  - apply Exists_app. right. constructor. unfold handle_send in E.
    rewrite app_comm_cons, app_assoc in E. apply app_inj_tail in E as [_ <-].
    unfold due. by destruct f.
Qed.

(** The stores of a command are the modes the actor has after it. *)
Lemma stores_are_modes f cfg m cmd env m' reply op b :
  handle_command cfg m cmd env = (Some m', reply) →
  op ∈ mode_stores (yolo_pin cfg) cmd → stored f op = Some b → b = mode_of f m'.
Proof.
  intros [Hf _]%handle_command_flags. unfold actor_flags, mode_step in Hf.
  destruct cmd; cbn [mode_stores]; try (by intros ?%elem_of_nil).
  - injection Hf as Hy Ha. intros [->|Hin]%elem_of_cons.
    + destruct f; [|done]. intros [= <-]. by rewrite <- Hy.
    + destruct (clamp_yolo _ _); [|by apply elem_of_nil in Hin].
      apply list_elem_of_singleton in Hin as ->. destruct f; [done|]. intros [= <-]. by rewrite <- Ha.
  - injection Hf as Hy Ha. intros [->|Hin]%elem_of_cons.
    + destruct f; [done|]. intros [= <-]. by rewrite <- Ha.
    + destruct enabled; [|by apply elem_of_nil in Hin].
      apply list_elem_of_singleton in Hin as ->. destruct f; [|done]. intros [= <-]. by rewrite <- Hy.
Qed.
Lemma mode_kept f cfg m cmd env m' reply :
  handle_command cfg m cmd env = (Some m', reply) → sets_flag f (yolo_pin cfg) cmd = false →
  mode_of f m' = mode_of f m.
Proof.
  intros [Hf _]%handle_command_flags. unfold actor_flags, mode_step, sets_flag in *.
  destruct cmd; cbn [mode_stores]; injection Hf as Hy Ha; destruct f; cbn [mode_of];
    rewrite ?Hy, ?Ha; try done; [by destruct (clamp_yolo _ _)|by destruct enabled].
Qed.

Lemma stores_not_sends pin cmd op c : op ∈ mode_stores pin cmd → op ≠ SendCommand (World := World) c.
Proof.
  destruct cmd; cbn [mode_stores]; try (by intros ?%elem_of_nil);
    (intros [->|Hin]%elem_of_cons; [done|]); revert Hin; case_match;
    (by intros ->%list_elem_of_singleton) || (by intros ?%elem_of_nil).
Qed.

Record modes_ok (cfg : Config) (s : System World) : Prop := {
  actor_ok : not_both (actor_flags (actor s)) ∧ pinned_off (yolo_pin cfg) (actor_flags (actor s));
  shared_pinned : is_Some (yolo_pin cfg) → yolo_state s = false;
  ops_pinned : Forall (Forall (op_pinned (yolo_pin cfg))) (storing s :: calls s);
  calls_send f : Forall (call_ok f (yolo_pin cfg)) (calls s);
  storing_modes f op b : op ∈ storing s → stored f op = Some b → b = mode_of f (actor s);
  storing_stores op c : op ∈ storing s → op ≠ SendCommand c;
  settled f : idle f (yolo_pin cfg) s → shared f s = mode_of f (actor s);
  events_ok : is_Some (yolo_pin cfg) →
    Forall (λ e, ev_yolo_mode e = false ∧ ev_decision_reason e ≠ YOLO) (events (actor s));
}.

Lemma do_op_pinned pin op (s : System World) :
  op_pinned pin op → (is_Some pin → yolo_state s = false) → is_Some pin → yolo_state (do_op op s) = false.
Proof. intros Ho Hs Hp. destruct op as [b| | |]; cbn; auto. destruct b; [by destruct Ho|done]. Qed.

Lemma do_op_shared f op (s : System World) :
  shared f (do_op op s) = default (shared f s) (stored f op).
Proof. by destruct f, op. Qed.

Lemma do_op_idle f pin op (s : System World) :
  idle f pin (do_op op s) → idle f pin s ∧ (due f pin op = false ∨ stores f op = true).
Proof.
  intros [Hm Hc Hs]. destruct op as [b|b|b|c].
  1-3: (split; [split; [exact Hm|exact Hc|exact Hs]|]; destruct f; ((by left) || (by right))).
  cbn [do_op mailbox] in Hm. apply Forall_app in Hm as [Hm [Hc' _]%Forall_cons].
  split; [split; [exact Hm|exact Hc|exact Hs]|]. left. unfold due. destruct f; exact Hc'.
Qed.

Lemma modes_ok_call cfg s ops :
  handle_call cfg ops → modes_ok cfg s → modes_ok cfg (with_calls (calls s ++ [ops]) s).
Proof.
  intros Hc [Ha Hsh Ho Hs Hv Hn Hi He]. apply Forall_cons in Ho as [Ho1 Ho2].
  constructor; cbn; try done.
  - constructor; [done|]. apply Forall_app. split; [done|]. constructor; [|done]. by apply call_pinned.
  - intros f. apply Forall_app. split; [done|]. constructor; [|done]. by apply call_sends.
  - intros f [Hm Hcs Hst]. apply Hi. cbn in *. apply Forall_app in Hcs as [Hcs _]. by split.
Qed.

Lemma modes_ok_op cfg s l1 op ops l2 :
  calls s = l1 ++ (op :: ops) :: l2 → modes_ok cfg s →
  modes_ok cfg (do_op op (with_calls (l1 ++ ops :: l2) s)).
Proof.
  intros E [Ha Hsh Ho Hs Hv Hn Hi He]. rewrite E in *.
  apply Forall_cons in Ho as [Ho1 [Ho2 [[Hop Hops]%Forall_cons Ho3]%Forall_cons]%Forall_app].
  assert (Hcall : ∀ f, call_ok f (yolo_pin cfg) (op :: ops)).
  { intros f. specialize (Hs f). apply Forall_app in Hs as [_ Hs]. by apply Forall_cons in Hs as [? _]. }
  constructor; cbn; try done.
  - by apply do_op_pinned.
  - constructor; [done|]. apply Forall_app. split; [done|by constructor].
  - intros f. specialize (Hs f). apply Forall_app in Hs as [Hs1 [_ Hs2]%Forall_cons].
    apply Forall_app. split; [done|]. constructor; [|done]. by eapply call_ok_tail.
  - intros f [[Hm Hcs Hst] Hd]%do_op_idle. rewrite do_op_shared.
    cbn [calls with_calls] in Hcs. apply Forall_app in Hcs as [Hc1 [Hc2 Hc3]%Forall_cons].
    destruct Hd as [Hd|Hd].
    + assert (stored f op = None) as ->.
      { unfold due, stores in Hd. by destruct (stored f op). }
      apply Hi. split; rewrite ?E; [exact Hm| |exact Hst]. apply Forall_app.
      split; [done|]. by repeat constructor.
    + exfalso. specialize (Hcall f [] op ops eq_refl Hd).
      apply Exists_exists in Hcall as (x & Hx & Hdx). rewrite Forall_forall in Hc2.
      rewrite (Hc2 x Hx) in Hdx. discriminate.
Qed.

Lemma modes_ok_actor cfg s cmd rest env m' reply :
  storing s = [] → mailbox s = cmd :: rest →
  handle_command cfg (actor s) cmd env = (Some m', reply) → modes_ok cfg s →
  modes_ok cfg {| actor := m'; mailbox := rest; yolo_state := yolo_state s;
                  auto_state := auto_state s; side_query_wired := side_query_wired s;
                  calls := calls s; storing := mode_stores (yolo_pin cfg) cmd |}.
Proof.
  intros Est Em Hh [Ha Hsh Ho Hs Hv Hn Hi He].
  pose proof (handle_command_flags _ _ _ _ _ _ Hh) as [Hf Hev].
  apply Forall_cons in Ho as [_ Ho]. constructor; cbn; try done.
  - rewrite Hf. by apply mode_step_ok.
  - constructor; [apply pinned_stores|done].
  - intros f op b. by eapply stores_are_modes.
  - intros op c. apply stores_not_sends.
  - intros f [Hm Hcs Hst]. cbn [mailbox calls storing] in Hm, Hcs, Hst.
    assert (Hset : sets_flag f (yolo_pin cfg) cmd = false).
    { apply not_true_is_false. intros (op & Hop%list_elem_of_In & Hx)%existsb_exists.
      rewrite Forall_forall in Hst. specialize (Hst op Hop). unfold due in Hst. by rewrite Hx in Hst. }
    rewrite (mode_kept f _ _ _ _ _ _ Hh Hset). change (shared f s = mode_of f (actor s)).
    apply Hi. split; rewrite ?Em, ?Est; [by constructor|done|constructor].
  - intros Hp. specialize (He Hp). destruct Hev as [->|(e & -> & Hy & Hr)]; [done|].
    apply Forall_app. split; [done|]. constructor; [|done].
    destruct Ha as [_ Ha]. specialize (Ha Hp). cbn [actor_flags fst] in Ha.
    rewrite Hy. split; [exact Ha|by apply Hr].
Qed.

Lemma modes_ok_store cfg s op ops :
  storing s = op :: ops → modes_ok cfg s → modes_ok cfg (do_op op (with_storing ops s)).
Proof.
  intros E [Ha Hsh Ho Hs Hv Hn Hi He]. rewrite E in *.
  apply Forall_cons in Ho as [[Hop Ho1]%Forall_cons Ho2]. constructor; cbn; try done.
  - by apply do_op_pinned.
  - by constructor.
  - intros f op' b Hin. apply Hv. by right.
  - intros op' c Hin. apply Hn. by right.
  - intros f [[Hm Hcs Hst] Hd]%do_op_idle. rewrite do_op_shared.
    destruct (stored f op) as [b|] eqn:Eb; [apply (Hv f op b); [left|done]|].
    apply Hi. split; rewrite ?E; [exact Hm|exact Hcs|]. constructor; [|exact Hst].
    unfold due, stores. rewrite Eb. destruct op as [| | |c]; try done. by destruct (Hn (SendCommand c) c); [left|].
Qed.

Lemma modes_ok_step cfg s s' : step cfg s s' → modes_ok cfg s → modes_ok cfg s'.
Proof.
  intros [x ops Hc|x l1 op ops l2 E|x cmd rest env m' reply E1 E2 E3|x op ops E] Hok;
    eauto using modes_ok_call, modes_ok_op, modes_ok_actor, modes_ok_store.
Qed.

Lemma spawn_modes_ok pin pc remember dir domains initial_yolo loaded :
  modes_ok (spawn_config pin pc remember dir domains)
    (initial_system (World := World) (spawn pin pc initial_yolo loaded)).
Proof.
  assert (Hc : is_Some pin → clamp_yolo initial_yolo pin = false).
  { intros Hp. unfold clamp_yolo. rewrite bool_decide_eq_true_2 by done. apply andb_false_r. }
  constructor; cbn [actor initial_system spawn_config yolo_pin storing calls yolo_state auto_state];
    unfold actor_flags, not_both, pinned_off;
    cbn [spawn yolo_mode auto_mode events fst snd]; try done.
  - split; [|exact Hc]. by destruct (clamp_yolo initial_yolo pin).
  - by repeat constructor.
  - intros f op b Hin. by apply elem_of_nil in Hin.
  - intros op c Hin. by apply elem_of_nil in Hin.
Qed.

(** A command that changes modes, and an operation that does or sends one. *)
Definition sets_mode (cmd : PermissionCommand World) : bool :=
  match cmd with SetYoloMode _ | SetAutoMode _ => true | _ => false end.
Definition op_sets_mode (op : HandleOp World) : bool :=
  match op with StoreYolo _ | StoreAuto _ => true | SendCommand c => sets_mode c | _ => false end.
(** No mode is being changed: no such command waits, no call is about to send one,
    and the actor has no store left. *)
Definition modes_settled (s : System World) : Prop :=
  Forall (λ c, sets_mode c = false) (mailbox s)
  ∧ Forall (Forall (λ op, op_sets_mode op = false)) (calls s) ∧ storing s = [].

Lemma modes_settled_idle f pin s : modes_settled s → idle f pin s.
Proof.
  intros (Hm & Hc & Hs).
  assert (Hsets : ∀ c, sets_mode c = false → sets_flag f pin c = false) by (by intros []).
  split; [by eapply Forall_impl| |by rewrite Hs].
  eapply Forall_impl; [exact Hc|]. intros ops Hops. eapply Forall_impl; [exact Hops|].
  intros op Hop. unfold due. destruct op; try discriminate; destruct f; cbn; auto.
Qed.

(** C32: Over every interleaving, from the start, of the stores and sends of calls
    on handles with the commands and stores of the actor: under a pin neither the
    actor nor the shared flag is ever in always-approve, and no event reports it or
    names it as the reason; the actor is never in always-approve and auto at once;
    and whenever no mode is being changed (no such command waits, no call is about
    to send one and the actor has no store left), the shared flags that handles
    read are the actor's modes, so not both on.  In between they may differ, and
    both be on ([both_flags_on_between_stores]). *)
Theorem modes_invariant pin pc remember dir domains initial_yolo loaded (s : System World) :
  let cfg := spawn_config pin pc remember dir domains in
  rtc (step cfg) (initial_system (spawn pin pc initial_yolo loaded)) s →
  (is_Some pin →
     yolo_mode (actor s) = false ∧ is_yolo_mode s = false
     ∧ Forall (λ e, ev_yolo_mode e = false ∧ ev_decision_reason e ≠ YOLO) (events (actor s)))
  ∧ yolo_mode (actor s) && auto_mode (actor s) = false
  ∧ (modes_settled s →
     is_yolo_mode s = yolo_mode (actor s) ∧ is_auto_mode s = auto_mode (actor s)).
Proof.
  cbn zeta. set (cfg := spawn_config pin pc remember dir domains). intros Hr.
  assert (Hok : modes_ok cfg s).
  { pose proof (spawn_modes_ok pin pc remember dir domains initial_yolo loaded) as H0.
    fold cfg in H0. induction Hr as [|a b c Hs Hr IH]; [done|]. apply IH.
    by eapply modes_ok_step. }
  destruct Hok as [[Ha1 Ha2] Hsh _ _ _ _ Hi He]. split_and!; [|exact Ha1|].
  - intros Hp. split_and!; [by apply Ha2|by apply Hsh|by apply He].
  - intros Hq. split; [apply (Hi Yolo)|apply (Hi Auto)]; by apply modes_settled_idle.
Qed.

(** ** Remembered grants *)

(** The command is a request for the access, and it came to a prompt. *)
Definition chosen cfg m (cmd : PermissionCommand World) env (access : AccessKind) : Prop :=
  cmd = Request access ∧ ∃ trigger, decide_request cfg m access env = Prompt trigger.

(** Every grant that [m'] has and [m] lacks was chosen by the user at a prompt
    for the access that names it. *)
Record grants_chosen cfg m (cmd : PermissionCommand World) env m' : Prop := {
  bash_chosen c :
    c ∈ allowed_bash_commands (state m') → c ∉ allowed_bash_commands (state m) →
    ∃ script, chosen cfg m cmd env (Bash script)
      ∧ (outcome env = AllowAlways ∧ c = script ∨ outcome env = AllowAlwaysBashCommand c);
  domain_chosen d :
    d ∈ allowed_web_fetch_domains (state m') → d ∉ allowed_web_fetch_domains (state m) →
    ∃ url, chosen cfg m cmd env (WebFetch url) ∧ outcome env = AllowAlwaysDomain d;
  tool_chosen t :
    t ∈ allowed_mcp_tools (state m') → t ∉ allowed_mcp_tools (state m) →
    ∃ input, chosen cfg m cmd env (MCPTool t input)
      ∧ (outcome env = AllowAlways ∨ (∃ x, outcome env = AllowAlwaysMcpTool x)
         ∨ ∃ x, outcome env = AllowAlwaysMcpServer x ∧ canonical_server t ≠ Some x);
  server_chosen sv :
    sv ∈ allowed_mcp_servers (state m') → sv ∉ allowed_mcp_servers (state m) →
    ∃ name input, chosen cfg m cmd env (MCPTool name input)
      ∧ outcome env = AllowAlwaysMcpServer sv ∧ canonical_server name = Some sv;
  edits_chosen :
    allow_edits_for_session m' = true → allow_edits_for_session m = false →
    ∃ access, chosen cfg m cmd env access ∧ outcome env = AllowEditsForSession;
  execute_kept : allow_bash_execute (state m') = true → allow_bash_execute (state m) = true;
}.

Lemma grants_unchanged cfg m cmd env m' :
  state m' = state m → allow_edits_for_session m' = allow_edits_for_session m →
  grants_chosen cfg m cmd env m'.
Proof. intros Hs He. constructor; rewrite ?Hs, ?He; try done. congruence. Qed.

(** The state after an answer, set by set. *)
Lemma answer_bash_grants cmd s edits o :
  let a := answer_bash cmd s edits o in
  (∀ c, c ∈ allowed_bash_commands (ans_state a) → c ∉ allowed_bash_commands s →
     o = AllowAlways ∧ c = cmd ∨ o = AllowAlwaysBashCommand c)
  ∧ allowed_web_fetch_domains (ans_state a) = allowed_web_fetch_domains s
  ∧ allowed_mcp_tools (ans_state a) = allowed_mcp_tools s
  ∧ allowed_mcp_servers (ans_state a) = allowed_mcp_servers s
  ∧ ans_edits a = edits ∧ allow_bash_execute (ans_state a) = allow_bash_execute s
  ∧ edit_policy (ans_state a) = edit_policy s
  ∧ (ans_persist a = false → ans_state a = s).
Proof.
  cbn zeta. destruct o; cbn [answer_bash answer ans_state ans_edits ans_persist allow_bash_command
    disallow_bash_command allowed_bash_commands allowed_web_fetch_domains allowed_mcp_tools
    allowed_mcp_servers allow_bash_execute edit_policy];
    (split_and!; [|try done..]); intros c; [done|set_solver|done|set_solver|done..].
Qed.

Lemma answer_other_grants access s edits o :
  let a := answer_other access s edits o in
  allowed_bash_commands (ans_state a) = allowed_bash_commands s
  ∧ (∀ d, d ∈ allowed_web_fetch_domains (ans_state a) → d ∉ allowed_web_fetch_domains s →
       (∃ url, access = WebFetch url) ∧ o = AllowAlwaysDomain d)
  ∧ (∀ t, t ∈ allowed_mcp_tools (ans_state a) → t ∉ allowed_mcp_tools s →
       (∃ input, access = MCPTool t input)
       ∧ (o = AllowAlways ∨ (∃ x, o = AllowAlwaysMcpTool x)
          ∨ ∃ x, o = AllowAlwaysMcpServer x ∧ canonical_server t ≠ Some x))
  ∧ (∀ sv, sv ∈ allowed_mcp_servers (ans_state a) → sv ∉ allowed_mcp_servers s →
       (∃ name input, access = MCPTool name input ∧ canonical_server name = Some sv)
       ∧ o = AllowAlwaysMcpServer sv)
  ∧ (ans_edits a = true → edits = false → o = AllowEditsForSession)
  ∧ allow_bash_execute (ans_state a) = allow_bash_execute s
  ∧ edit_policy (ans_state a) = edit_policy s
  ∧ (ans_persist a = false → ans_state a = s).
Proof.
  cbn zeta. destruct o; try (split_and!; try done; cbn; congruence).
  - destruct access; try (split_and!; try done; cbn; congruence).
    split_and!; try done; cbn [answer_other answer ans_state allow_mcp_tool allowed_mcp_tools].
    + set_solver.
    + cbn. congruence.
  - destruct access; try (split_and!; try done; cbn; congruence).
    split_and!; try done; cbn [answer_other answer ans_state allow_domain allowed_web_fetch_domains].
    + set_solver.
    + cbn. congruence.
  - destruct access; try (split_and!; try done; cbn; congruence).
    split_and!; try done; cbn [answer_other answer ans_state allow_mcp_tool allowed_mcp_tools].
    + set_solver.
    + cbn. congruence.
  - destruct access as [| | | |name input| |]; try (split_and!; try done; cbn; congruence).
    cbn [answer_other]. set (s' := match canonical_server name with Some _ => _ | None => _ end).
    assert (Hs' : s' = allow_mcp_server server_prefix s ∧ canonical_server name = Some server_prefix
                  ∨ s' = allow_mcp_tool name s ∧ canonical_server name ≠ Some server_prefix).
    { unfold s'. destruct (canonical_server name) as [cn|]; [|by right].
      unfold str_eqb. case_bool_decide as Hc; [subst; by left|]. right. split; [done|congruence]. }
    clearbody s'. cbn [answer ans_state ans_edits ans_persist].
    destruct Hs' as [[-> Hc]|[-> Hc]]; split_and!; try done;
      cbn [allow_mcp_server allow_mcp_tool allowed_mcp_tools allowed_mcp_servers allowed_bash_commands
           allowed_web_fetch_domains]; first [cbn; congruence|intros x; set_solver].
Qed.

(** What a command does to the remembered state: nothing, a reset, or the
    answer of a prompt. *)
Lemma handle_command_state cfg m cmd env m' reply :
  handle_command cfg m cmd env = (Some m', reply) →
  (state m' = state m ∧ allow_edits_for_session m' = allow_edits_for_session m
   ∧ persisted m' = persisted m)
  ∨ (state m' = PermissionState_default ∧ allow_edits_for_session m' = false
     ∧ persisted m' = persisted m ++ [state m'])
  ∨ ∃ access, chosen cfg m cmd env access
      ∧ let a := answer_prompt access (state m) (allow_edits_for_session m) (outcome env) in
        state m' = ans_state a ∧ allow_edits_for_session m' = ans_edits a
        ∧ persisted m' = if ans_persist a then persisted m ++ [state m'] else persisted m.
Proof.
  destruct cmd as [access| | | | | | |]; cbn [handle_command];
    try (intros [= <- _]; by left); [|intros [= <- _]; right; by left].
  unfold handle_request. destruct (decide_request cfg m access env) as [d auto r| |trigger] eqn:Hd.
  - intros [= <- _]. by left.
  - intros [= <- _]. by left.
  - unfold prompt_user. intros [= <- _]. right; right. exists access.
    split; [split; [done|by exists trigger]|done].
Qed.

Lemma handle_command_chosen cfg m cmd env m' reply :
  handle_command cfg m cmd env = (Some m', reply) → grants_chosen cfg m cmd env m'.
Proof.
  intros [(Hs & He & _)|[(Hs & He & _)|(access & Hc & Hs & He & _)]]%handle_command_state.
  - by apply grants_unchanged.
  - constructor; rewrite ?Hs, ?He; cbn; try set_solver; done.
  - destruct access as [| | |script| | |]; cbn [answer_prompt] in *.
    4: { destruct (answer_bash_grants script (state m) (allow_edits_for_session m) (outcome env))
           as (H1 & H2 & H3 & H4 & H5 & H6 & _).
         constructor; rewrite ?Hs, ?He, ?H2, ?H3, ?H4, ?H5, ?H6; try done; [|congruence].
         intros c Hin Hn. exists script. split; [exact Hc|]. by apply H1. }
    all: match type of Hs with state _ = ans_state (answer_other ?a ?s ?e ?o) =>
           destruct (answer_other_grants a s e o) as (H1 & H2 & H3 & H4 & H5 & H6 & _) end.
    all: constructor; rewrite ?Hs, ?He, ?H1, ?H6; try done.
    all: first
      [ intros d Hin Hn; destruct (H2 d Hin Hn) as [[u Ha] Ho]; exists u;
        rewrite <- Ha; by split
      | intros t Hin Hn; destruct (H3 t Hin Hn) as [[input0 Ha] Ho]; exists input0;
        rewrite <- Ha; by split
      | intros sv Hin Hn; destruct (H4 sv Hin Hn) as [(name0 & input0 & Ha & Hcan) Ho];
        exists name0, input0; rewrite <- Ha; by split_and!
      | intros H7 H8; eexists; split; [exact Hc|by apply H5] ].
Qed.

(** What is on disk: the last state handed to [persist_state], or the state
    that was loaded. *)
Definition on_disk (loaded : PermissionState) m : PermissionState :=
  default loaded (last (persisted m)).

Record disk_ok (loaded : PermissionState) m : Prop := {
  disk_same : on_disk loaded m = state m;
  no_edit_allow : edit_policy (state m) ≠ EditAllow;
}.

Lemma answer_prompt_disk access s edits o :
  edit_policy (ans_state (answer_prompt access s edits o)) = edit_policy s
  ∧ (ans_persist (answer_prompt access s edits o) = false →
     ans_state (answer_prompt access s edits o) = s).
Proof.
  destruct access as [| | |cmd| | |]; cbn [answer_prompt].
  4: destruct (answer_bash_grants cmd s edits o) as (_ & _ & _ & _ & _ & _ & ? & ?); done.
  all: match goal with |- context [answer_other ?a ?st ?ed ?out] =>
         by destruct (answer_other_grants a st ed out) as (_ & _ & _ & _ & _ & _ & ? & ?) end.
Qed.

Lemma handle_command_disk loaded cfg m cmd env m' reply :
  handle_command cfg m cmd env = (Some m', reply) → disk_ok loaded m → disk_ok loaded m'.
Proof.
  intros [(Hs & _ & Hp)|[(Hs & _ & Hp)|(access & _ & Hs & _ & Hp)]]%handle_command_state [Hd Hn];
    unfold on_disk in *.
  - constructor; unfold on_disk; rewrite ?Hs, ?Hp; done.
  - constructor; unfold on_disk; rewrite ?Hp, ?last_snoc, ?Hs; done.
  - destruct (answer_prompt_disk access (state m) (allow_edits_for_session m) (outcome env))
      as [He Hsame].
    constructor; [|by rewrite Hs, He]. unfold on_disk. rewrite Hp.
    destruct (ans_persist _); [by rewrite last_snoc|]. rewrite Hs, Hsame by done. exact Hd.
Qed.

Lemma spawn_disk_ok pin pc initial_yolo loaded :
  disk_ok loaded (spawn (World := World) pin pc initial_yolo loaded).
Proof.
  constructor; unfold on_disk; cbn [spawn persisted state];
    destruct (edit_policy loaded) eqn:He; try done; cbn [edit_policy]; rewrite ?He; done.
Qed.

(** Grants are the user's.  In any reachable session, whatever the next
    command, every grant it adds was chosen at a prompt for the very access it
    names (a script, a domain, a tool; a server only if it is the one in the
    tool's name), and no command ever enables blanket execution.  What is on
    disk is the state in memory, and a restart loads it unchanged, without the
    edit approval of the session. *)
Theorem grants_are_chosen pin pc remember dir domains initial_yolo loaded (s : System World) :
  let cfg := spawn_config pin pc remember dir domains in
  rtc (step cfg) (initial_system (spawn pin pc initial_yolo loaded)) s →
  (∀ cmd env m' reply,
     handle_command cfg (actor s) cmd env = (Some m', reply) →
     grants_chosen cfg (actor s) cmd env m')
  ∧ on_disk loaded (actor s) = state (actor s)
  ∧ ∀ yolo, let m' := spawn (World := World) pin pc yolo (on_disk loaded (actor s)) in
      state m' = state (actor s) ∧ allow_edits_for_session m' = false.
Proof.
  cbn zeta. set (cfg := spawn_config pin pc remember dir domains). intros Hr.
  assert (Hok : disk_ok loaded (actor s)).
  { pose proof (spawn_disk_ok pin pc initial_yolo loaded) as H0.
    change (disk_ok loaded (actor (initial_system (World := World)
              (spawn pin pc initial_yolo loaded)))) in H0.
    induction Hr as [|a b c Hs Hr IH]; [done|]. apply IH.
    destruct Hs as [x ops Hc|x l1 op ops l2 E|x cmd rest env m' reply E Hm Hh|x op ops E];
      [exact H0|exact H0| |exact H0].
    by eapply handle_command_disk. }
  destruct Hok as [Hd Hn]. split_and!.
  - intros cmd env m' reply Hh. by eapply handle_command_chosen.
  - exact Hd.
  - intros yolo. rewrite Hd. split; [|done]. cbn [spawn state].
    by destruct (edit_policy (state (actor s))).
Qed.

End facts.

(** [Read] denied by path, under always-approve and with an exact grant. *)
Definition secret_rules : PermissionConfig :=
  PermissionConfig_new
    [{| action := ActionAllow; tool := AnyTool; pattern := None; pattern_mode := Glob |};
     {| action := ActionDeny; tool := ReadTool; pattern := Some (lit "*/secret"); pattern_mode := Glob |};
     {| action := ActionDeny; tool := BashTool; pattern := Some (lit "git push");
        pattern_mode := Glob |}].

#[global] Instance demo_path_fs : PathFs := {
  canonicalize p := Some p;
  symlink_metadata _ := Some false;
  read_link _ := None;
}.

Definition demo_config : Config :=
  spawn_config None (Some secret_rules) true (lit "/w") [].
Definition granted_state : PermissionState :=
  {| edit_policy := EditAsk; allow_bash_execute := true;
     allowed_bash_commands := {[lit "ls; git push"]}; disallowed_bash_commands := ∅;
     allowed_web_fetch_domains := ∅; allowed_mcp_tools := ∅; allowed_mcp_servers := ∅ |}.
Definition demo_manager : Manager unit := spawn None (Some secret_rules) true granted_state.
Definition demo_env : Env unit :=
  {| gone_at_dequeue := false; sandbox_active := true; world := tt; classify_abandoned := false;
     gone_before_prompt := false; outcome := AllowOnce; gone_after_prompt := false |}.

Lemma demo_denied : policy_denies secret_rules demo_config (Bash (lit "ls; git push")).
Proof.
  right. eexists. split; [reflexivity|]. left. exists (lit "git push"). split.
  - change (lit "git push") with (join_words (map lit ["git"; "push"])).
    eapply (reach_here 7 _ _ {| words := map lit ["git"; "push"]; span_start := 4; span_end := 12 |}).
    + vm_compute. reflexivity.
    + right. left.
    + by left.
  - eexists. split; [right; right; left|]. split; [reflexivity|vm_compute; reflexivity].
Qed.

Lemma deny_always_wins_witness :
  policy_denies secret_rules demo_config (Bash (lit "ls; git push"))
  ∧ ∃ r, (handle_request demo_config demo_manager (Bash (lit "ls; git push")) demo_env).2
         = Some (PolicyDeny r).
Proof.
  split; [exact demo_denied|].
  pose proof (deny_always_wins secret_rules demo_config demo_manager _ demo_env
                eq_refl demo_denied) as H.
  destruct (handle_request _ _ _ _) as [m' reply]. exact (proj2 H).
Defined.

(** A session without policy, and one whose policy asks about [cd]. *)
Definition plain_config : Config := spawn_config None None true (lit "/w") [].
Definition plain_manager (s : PermissionState) : Manager unit := spawn None None false s.


Definition demo_pin : option str := Some (lit "managed policy").
Definition pinned_config : Config := spawn_config demo_pin None true (lit "/w") [].
Definition pinned_start : System unit :=
  initial_system (spawn demo_pin None true PermissionState_default).

(** A call that has stored, and not yet sent *)
Definition pinned_call : System unit :=
  do_op (StoreYolo false) (with_calls [[SendCommand (SetYoloMode true)]] pinned_start).
Lemma pinned_call_reached : rtc (step pinned_config) pinned_start pinned_call.
Proof.
  eapply rtc_l; [apply step_call, (call_send _ (SetYoloMode true))|].
  apply rtc_once.
  refine (step_op pinned_config (with_calls (calls pinned_start ++ _) pinned_start) []
            (StoreYolo false) [SendCommand (SetYoloMode true)] [] _).
  reflexivity.
Qed.

Lemma modes_invariant_witness :
  is_Some demo_pin
  ∧ rtc (step pinned_config) pinned_start pinned_call ∧ is_yolo_mode pinned_call = false.
Proof.
  split; [by eexists|]. split; [exact pinned_call_reached|].
  refine (proj1 (proj2 (proj1 (modes_invariant demo_pin None true (lit "/w") [] true
    PermissionState_default pinned_call pinned_call_reached) _))).
  by eexists.
Defined.

Lemma grants_are_chosen_witness :
  ∃ m' reply,
    handle_command plain_config (plain_manager PermissionState_default)
      (Request (MCPTool (lit "gh__list") [])) demo_env = (Some m', reply)
    ∧ grants_chosen plain_config (plain_manager PermissionState_default)
        (Request (MCPTool (lit "gh__list") [])) demo_env m'.
Proof.
  eexists _, _. split; [reflexivity|].
  eapply (proj1 (grants_are_chosen None None true (lit "/w") [] false PermissionState_default
    (initial_system (plain_manager PermissionState_default)) (rtc_refl _ _))).
  reflexivity.
Defined.

(** ** What the pipeline also does *)

(** Under an ask rule only explicit grants are meant to count; a script of setup
    commands has no segment that needs one, and is approved without any. *)
Definition ask_cd : PermissionConfig :=
  PermissionConfig_new
    [{| action := ActionAsk; tool := BashTool; pattern := Some (lit "cd"); pattern_mode := Glob |}].
Example ask_rule_waived_without_grant :
  decide_request (spawn_config None (Some ask_cd) true (lit "/w") [])
    (spawn None (Some ask_cd) false PermissionState_default) (Bash (lit "cd /etc")) demo_env
    = Reply Allow true SAFE_COMMAND
  ∧ evaluate (CompiledPolicy_new ask_cd) (Bash (lit "cd /etc")) = Some Ask.
Proof. split; vm_compute; reflexivity. Qed.

(** A dangerous script is approved without a prompt once the same script was
    always-allowed. *)
Definition rm_granted : PermissionState := allow_bash_command (lit "rm x") PermissionState_default.
Definition no_sandbox_env : Env unit :=
  {| gone_at_dequeue := false; sandbox_active := false; world := tt; classify_abandoned := false;
     gone_before_prompt := false; outcome := AllowAlways; gone_after_prompt := false |}.
Example dangerous_script_granted :
  decide_request plain_config (plain_manager rm_granted) (Bash (lit "rm x")) no_sandbox_env
    = Reply Allow true SESSION_GRANT
  ∧ is_dangerous_command_words (map lit ["rm"; "x"]) = true.
Proof. split; vm_compute; reflexivity. Qed.

(** A rejection remembered for the session is reported as auto-approved. *)
Definition rm_excluded : PermissionState :=
  disallow_bash_command (lit "make") PermissionState_default.
Example session_rejection_is_auto_approved :
  map (λ e, (ev_decision e, ev_auto_approved e))
    (events (handle_request plain_config (plain_manager rm_excluded) (Bash (lit "make all"))
               no_sandbox_env).1)
    = [(lit "reject", true)].
Proof. vm_compute. reflexivity. Qed.

(** Sessions of the plain manager: a call begins, and call [i] does its next
    operation. *)
Definition begin_call (cmd : PermissionCommand unit) (s : System unit) : System unit :=
  with_calls (calls s ++ [handle_send plain_config cmd]) s.
Definition run_call (i : nat) (s : System unit) : System unit :=
  match calls s !! i with
  | Some (op :: ops) => do_op op (with_calls (take i (calls s) ++ ops :: drop (S i) (calls s)) s)
  | _ => s
  end.
Lemma begin_call_steps cmd s : rtc (step plain_config) s (begin_call cmd s).
Proof. apply rtc_once, step_call, call_send. Qed.
Lemma run_call_steps i s : rtc (step plain_config) s (run_call i s).
Proof.
  unfold run_call. destruct (calls s !! i) as [[|op ops]|] eqn:E; try apply rtc_refl.
  apply rtc_once, step_op. symmetry. by apply take_drop_middle.
Qed.
Definition plain_start : System unit := initial_system (plain_manager PermissionState_default).

(** Between the two stores of [set_yolo_mode] both shared flags are on. *)
Definition half_switched : System unit :=
  run_call 1 (begin_call (SetYoloMode true) (run_call 0 (begin_call (SetAutoMode true) plain_start))).
Example both_flags_on_between_stores :
  rtc (step plain_config) plain_start half_switched
  ∧ is_yolo_mode half_switched = true ∧ is_auto_mode half_switched = true.
Proof.
  split; [|by split]. unfold half_switched.
  repeat (etrans; [|apply run_call_steps || apply begin_call_steps]). apply rtc_refl.
Qed.

(** After a handle switched always-approve on and off again, the actor's
    processing of the first command makes [is_yolo_mode] true once more. *)
Definition toggled : System unit :=
  run_call 1 (run_call 1 (begin_call (SetYoloMode false)
    (run_call 0 (run_call 0 (run_call 0 (begin_call (SetYoloMode true) plain_start)))))).
Example stale_yolo_window :
  rtc (step plain_config) plain_start toggled ∧ is_yolo_mode toggled = false
  ∧ ∃ s, rtc (step plain_config) toggled s ∧ is_yolo_mode s = true.
Proof.
  split_and!.
  - unfold toggled. repeat (etrans; [|apply run_call_steps || apply begin_call_steps]). apply rtc_refl.
  - reflexivity.
  - eexists. split.
    + eapply rtc_l; [eapply (step_actor plain_config toggled _ _ demo_env); reflexivity|].
      apply rtc_once. by eapply step_store.
    + reflexivity.
Qed.

(** The guard against programs run by a search tool knows [rg --pre] only. *)
Example safe_list_runs_programs :
  is_safe_command_words (map lit ["rg"; "--pre"; "./x"; "a"]) = false
  ∧ is_safe_command_words (map lit ["rg"; "--hostname-bin"; "./x"; "a"]) = true
  ∧ is_safe_command_words (map lit ["sort"; "--compress-program=./x"; "a"]) = true.
Proof. split_and!; vm_compute; reflexivity. Qed.
