(* ===== verification/HunkTypes.v ===== *)
(** * Hunk tracker: data

    The data of [codegen/xai-hunk-tracker]: hunks and their sources, the state
    of a tracked file, snapshots, events and commands ([types.rs], [events.rs],
    [commands.rs], [actor/state.rs]).  A path is the list of its components,
    the root being the component [/]: that is what Rust compares and hashes. *)
From S2P Require Import Prelude RustStr StrSearch.

(** ** Paths *)

Abbreviation path := (list (list Z)) (only parsing).
Definition ROOT : str := [47%Z].

(** [Path::join] and [Path::strip_prefix] on Unix *)
Definition join_path (base p : path) : path :=
  match p with c :: _ => if str_eqb c ROOT then p else base ++ p | [] => base end.
Fixpoint path_strip_prefix (p base : path) : option path :=
  match base, p with
  | [], _ => Some p
  | b :: base', c :: p' => if str_eqb b c then path_strip_prefix p' base' else None
  | _ :: _, [] => None
  end.

(** ** Hunks *)

Abbreviation HunkId := (list Z) (only parsing).

Record HunkLineInfo : Type := {
  old_start : Z;
  old_count : Z;
  new_start : Z;
  new_count : Z;
}.
#[global] Instance HunkLineInfo_eq_dec : EqDecision HunkLineInfo.
Proof. solve_decision. Defined.

Inductive HunkSource : Type :=
| AgentEdit (prompt : Z)
| ExternalEditOnAgentFile
| External.
#[global] Instance HunkSource_eq_dec : EqDecision HunkSource.
Proof. solve_decision. Defined.

Definition is_agent_edit (s : HunkSource) : bool :=
  match s with AgentEdit _ => true | _ => false end.
Definition is_agent_tracked (s : HunkSource) : bool :=
  match s with AgentEdit _ | ExternalEditOnAgentFile => true | External => false end.
Definition is_external (s : HunkSource) : bool :=
  match s with External | ExternalEditOnAgentFile => true | AgentEdit _ => false end.
Definition prompt_index (s : HunkSource) : option Z :=
  match s with AgentEdit p => Some p | _ => None end.

Record Hunk : Type := {
  hunk_id : HunkId;
  hunk_path : path;
  line_info : HunkLineInfo;
  source : HunkSource;
  old_text : option str;
  new_text : str;
  patch : option str;
  created_at : Z;
  selected : bool;
}.
#[global] Instance Hunk_eq_dec : EqDecision Hunk.
Proof. solve_decision. Defined.

(** The prompt a hunk is attributed to. *)
Definition hunk_prompt (h : Hunk) : option Z := prompt_index (source h).

(** [count().max(1)] of the lines of a text *)
Definition line_count (content : str) : Z := Z.max (Z.of_nat (length (lines content))) 1.

(** The identifier and the time are drawn by the caller. *)
Definition file_created (id : HunkId) (now : Z) (p : path) (content : str) (s : HunkSource) : Hunk :=
  {| hunk_id := id; hunk_path := p;
     line_info := {| old_start := 0; old_count := 0; new_start := 1;
                     new_count := line_count content |};
     source := s; old_text := None; new_text := content; patch := None;
     created_at := now; selected := false |}.
Definition file_deleted (id : HunkId) (now : Z) (p : path) (content : str) (s : HunkSource) : Hunk :=
  {| hunk_id := id; hunk_path := p;
     line_info := {| old_start := 1; old_count := line_count content; new_start := 0;
                     new_count := 0 |};
     source := s; old_text := Some content; new_text := []; patch := None;
     created_at := now; selected := false |}.

(** [HunkId]'s [Display] and [Hunk::summary] *)
Definition id_display (i : HunkId) : str := take 8 i.
Definition summary (h : Hunk) : str :=
  lit "+" ++ fmt_Z (Z.of_nat (length (lines (new_text h)))) ++ lit "/-"
  ++ fmt_Z (match old_text h with Some t => Z.of_nat (length (lines t)) | None => 0 end).

Definition with_identity (i : HunkId) (s : HunkSource) (h : Hunk) : Hunk :=
  {| hunk_id := i; hunk_path := hunk_path h; line_info := line_info h; source := s;
     old_text := old_text h; new_text := new_text h; patch := patch h;
     created_at := created_at h; selected := selected h |}.
Definition with_patch (t : option str) (h : Hunk) : Hunk :=
  {| hunk_id := hunk_id h; hunk_path := hunk_path h; line_info := line_info h;
     source := source h; old_text := old_text h; new_text := new_text h; patch := t;
     created_at := created_at h; selected := selected h |}.
Definition with_hunk_path (p : path) (h : Hunk) : Hunk :=
  {| hunk_id := hunk_id h; hunk_path := p; line_info := line_info h;
     source := source h; old_text := old_text h; new_text := new_text h; patch := patch h;
     created_at := created_at h; selected := selected h |}.

(** ** Actions and modes *)

Inductive HunkAction : Type := Accept | Reject.
#[global] Instance HunkAction_eq_dec : EqDecision HunkAction.
Proof. solve_decision. Defined.

Inductive HunkSourceFilter : Type := FilterAgent | FilterExternal.
Inductive TrackingMode : Type := AgentOnly | AllDirty.
#[global] Instance TrackingMode_eq_dec : EqDecision TrackingMode.
Proof. solve_decision. Defined.

Inductive HunkActionError (IoError : Type) : Type :=
| HunkNotFound (id : HunkId)
| WriteError (p : path) (e : IoError)
| DeleteError (p : path) (e : IoError)
| ReadError (p : path) (e : IoError).
Arguments HunkNotFound {IoError} _.
Arguments WriteError {IoError} _ _.
Arguments DeleteError {IoError} _ _.
Arguments ReadError {IoError} _ _.

(** ** File contents *)

Definition MAX_TRACKED_TEXT_BYTES : Z := 1048576.

Inductive FileContentState : Type :=
| Missing
| Binary (byte_len : option Z)
| TooLarge (byte_len : Z)
| LfsPointer (byte_len : Z)
| Symlink
| Full (content : str).
#[global] Instance FileContentState_eq_dec : EqDecision FileContentState.
Proof. solve_decision. Defined.

Definition as_str (c : FileContentState) : option str :=
  match c with Full s => Some s | _ => None end.
Definition is_diffable (c : FileContentState) : bool :=
  match c with Full _ => true | _ => false end.
Definition is_missing (c : FileContentState) : bool :=
  match c with Missing => true | _ => false end.
Definition content_byte_len (c : FileContentState) : option Z :=
  match c with
  | Missing => Some 0%Z
  | Binary n => n
  | TooLarge n | LfsPointer n => Some n
  | Symlink => None
  | Full s => Some (str_len s)
  end.

Inductive FileContentStatus : Type :=
| MissingStatus | BinaryStatus | TooLargeStatus | LfsPointerStatus | SymlinkStatus | FullStatus.
Record FileContentView : Type := {
  status : FileContentStatus;
  byte_len : option Z;
  content : option str;
}.
Definition from_content_state (c : FileContentState) : FileContentView :=
  match c with
  | Missing => {| status := MissingStatus; byte_len := None; content := None |}
  | Binary n => {| status := BinaryStatus; byte_len := n; content := None |}
  | TooLarge n => {| status := TooLargeStatus; byte_len := Some n; content := None |}
  | LfsPointer n => {| status := LfsPointerStatus; byte_len := Some n; content := None |}
  | Symlink => {| status := SymlinkStatus; byte_len := None; content := None |}
  | Full s => {| status := FullStatus; byte_len := Some (str_len s); content := Some s |}
  end.

(** ** Tracked files *)

Record FileHunkState : Type := {
  baseline : FileContentState;
  current_content : FileContentState;
  hunks : list Hunk;
  is_agent_file : bool;
  baseline_accepted : bool;
}.

Definition set_baseline (c : FileContentState) (s : FileHunkState) : FileHunkState :=
  {| baseline := c; current_content := current_content s; hunks := hunks s;
     is_agent_file := is_agent_file s; baseline_accepted := baseline_accepted s |}.
Definition set_current (c : FileContentState) (s : FileHunkState) : FileHunkState :=
  {| baseline := baseline s; current_content := c; hunks := hunks s;
     is_agent_file := is_agent_file s; baseline_accepted := baseline_accepted s |}.
Definition set_hunks (l : list Hunk) (s : FileHunkState) : FileHunkState :=
  {| baseline := baseline s; current_content := current_content s; hunks := l;
     is_agent_file := is_agent_file s; baseline_accepted := baseline_accepted s |}.
Definition set_agent_file (s : FileHunkState) : FileHunkState :=
  {| baseline := baseline s; current_content := current_content s; hunks := hunks s;
     is_agent_file := true; baseline_accepted := baseline_accepted s |}.
Definition set_accepted (b : bool) (s : FileHunkState) : FileHunkState :=
  {| baseline := baseline s; current_content := current_content s; hunks := hunks s;
     is_agent_file := is_agent_file s; baseline_accepted := b |}.

(** ** Statistics, summaries, snapshots *)

Record SessionStats : Type := {
  accepted_hunks : Z;
  rejected_hunks : Z;
  accepted_lines_added : Z;
  accepted_lines_removed : Z;
  rejected_lines_added : Z;
  rejected_lines_removed : Z;
}.
Definition SessionStats_default : SessionStats :=
  {| accepted_hunks := 0; rejected_hunks := 0; accepted_lines_added := 0;
     accepted_lines_removed := 0; rejected_lines_added := 0; rejected_lines_removed := 0 |}.

Record TurnSummary : Type := {
  turn_prompt : Z;
  files : list path;
  pending : list Hunk;
  lines_added : Z;
  lines_removed : Z;
}.
Record SessionSummary : Type := {
  stats : SessionStats;
  turns : list TurnSummary;
  files_modified : Z;
  files_with_pending : Z;
  pending_hunks : Z;
  pending_lines_added : Z;
  pending_lines_removed : Z;
  unattributed_pending : Z;
}.

Record FileContentEntry : Type := {
  entry_path : path;
  entry_baseline : FileContentView;
  entry_current : FileContentView;
  entry_agent : bool;
  staged : bool;
}.
Record FileHunkData : Type := {
  data_hunks : list Hunk;
  data_baseline : FileContentView;
  data_current : FileContentView;
  baseline_text : option str;
  current_text : option str;
}.
Definition FileContentView_default : FileContentView := from_content_state Missing.
Definition FileHunkData_default : FileHunkData :=
  {| data_hunks := []; data_baseline := FileContentView_default;
     data_current := FileContentView_default; baseline_text := None; current_text := None |}.

(** [FileHunkStateSnapshot] has the fields of [FileHunkState]; its hunks are not
    shared. *)
Record FileHunkStateSnapshot : Type := {
  snap_baseline : FileContentState;
  snap_current : FileContentState;
  snap_hunks : list Hunk;
  snap_agent : bool;
  snap_accepted : bool;
}.
Record HunkTrackerSnapshot : Type := {
  snap_files : gmap path FileHunkStateSnapshot;
  snap_turns : gmap Z (gset HunkId);
  snap_stats : SessionStats;
}.
Record HunkTurnDelta : Type := {
  delta_prompt : Z;
  delta_files : gmap path FileHunkStateSnapshot;
  delta_ids : gset HunkId;
}.

Definition rewrite_single_path (p old_cwd canonical_old new_cwd : path) : option path :=
  match path_strip_prefix p canonical_old with
  | Some rel => Some (join_path new_cwd rel)
  | None =>
      match path_strip_prefix p old_cwd with
      | Some rel => Some (join_path new_cwd rel)
      | None => None
      end
  end.

(** Rewritten paths are collected in the order the map is drained: a later
    file takes the place of an earlier one with the same target. *)
Definition rewrite_file (old_cwd canonical_old new_cwd : path)
    (e : path * FileHunkStateSnapshot) : path * FileHunkStateSnapshot :=
  let '(p, s) := e in
  let target := default p (rewrite_single_path p old_cwd canonical_old new_cwd) in
  (target,
   {| snap_baseline := snap_baseline s; snap_current := snap_current s;
      snap_hunks := map (with_hunk_path target) (snap_hunks s);
      snap_agent := snap_agent s; snap_accepted := snap_accepted s |}).
Definition rewrite_paths (drained : list (path * FileHunkStateSnapshot))
    (old_cwd canonical_old new_cwd : path) : gmap path FileHunkStateSnapshot :=
  foldl (λ m e, <[e.1 := e.2]> m) ∅ (map (rewrite_file old_cwd canonical_old new_cwd) drained).

(** ** Events and commands *)

Inductive HunkRemovalReason : Type := Accepted | Rejected | Superseded.
#[global] Instance HunkRemovalReason_eq_dec : EqDecision HunkRemovalReason.
Proof. solve_decision. Defined.

Inductive HunkEvent : Type :=
| HunkAdded (p : path) (h : Hunk)
| HunkRemoved (p : path) (id : HunkId) (reason : HunkRemovalReason)
| HunkMoved (p : path) (id : HunkId) (new_line_info : HunkLineInfo)
| HunkContentChanged (p : path) (h : Hunk) (trigger_source : HunkSource)
    (prev_lines_added prev_lines_removed : Z)
| FileAdded (p : path) (agent : bool)
| FileRemoved (p : path)
| BaselineUpdated (p : path).

Inductive HunkTrackerCommand : Type :=
| RecordAgentWrite (p : path) (content : str) (prompt : Z) (previous_content : option str)
| HandleFileChange (p : path)
| HandleFileDeleted (p : path)
| RefreshGitDirtyCache
| ResetBaseline (p : path)
| SetMode (m : TrackingMode)
| HunkActionCmd (id : HunkId) (action : HunkAction)
| FileAction (p : path) (action : HunkAction)
| AllAction (action : HunkAction)
| TurnAction (prompt : Z) (action : HunkAction)
| GetAllHunks
| GetHunksForPath (p : path)
| GetFileHunkData (p : path)
| GetHunksBySource (f : HunkSourceFilter)
| GetHunk (id : HunkId)
| IsAgentFile (p : path)
| GetAllTrackedPaths
| GetStagedFiles
| GetAllFileContents
| GetSessionSummary
| GetTurnHunks (prompt : Z)
| ResetStats
| RefreshAllBaselines
| SnapshotState
| SnapshotTurnDelta (prompt : Z)
| RestoreState (snapshot : HunkTrackerSnapshot).
