(* ===== verification/LocSink.v ===== *)
(** * Hunk tracker: lines of code

    [run_loc_sink] of [codegen/xai-hunk-tracker/src/loc/mod.rs]: it turns the
    tracker's events into attribution records whose sums give the lines each
    author contributed.  The writer of records is a parameter: it may fail, and a
    record that fails is dropped. *)
From S2P Require Import Prelude RustStr StrSearch HunkTypes.

Inductive AuthorType : Type := Agent | Human.
Inductive SourceType : Type :=
| AgentEditType | ExternalEditOnAgentFileType | ExternalType.
Inductive EventType : Type := Added | Updated | Removed.

Definition author_display (a : AuthorType) : str :=
  match a with Agent => lit "agent" | Human => lit "human" end.
Definition source_display (s : SourceType) : str :=
  match s with
  | AgentEditType => lit "agent_edit"
  | ExternalEditOnAgentFileType => lit "external_edit_on_agent_file"
  | ExternalType => lit "external"
  end.
Definition event_display (e : EventType) : str :=
  match e with Added => lit "added" | Updated => lit "updated" | Removed => lit "removed" end.

(** [as i64], and [+], [-] on [i64] in a release build *)
Definition wrap_i64 (z : Z) : Z := ((z - I64_MIN) mod 2 ^ 64 + I64_MIN)%Z.

Record HunkRecord : Type := {
  rec_id : HunkId;
  file_path : path;
  hunk_start : Z;
  hunk_end : Z;
  rec_added : Z;
  rec_removed : Z;
  author_type : option AuthorType;
  author_id : option str;
  rec_agent : str;
  session_id : str;
  timestamp : Z;
  rec_prompt : option Z;
  source_type : option SourceType;
  event_type : EventType;
  removal_reason : option HunkRemovalReason;
}.

Definition attribution (agent : str) (user : option str) (s : HunkSource) :
    AuthorType * option str * option Z * SourceType :=
  match s with
  | AgentEdit p => (Agent, Some agent, Some p, AgentEditType)
  | ExternalEditOnAgentFile => (Human, user, None, ExternalEditOnAgentFileType)
  | External => (Human, user, None, ExternalType)
  end.

(** A pure deletion is placed by its old lines. *)
Definition from_hunk (h : Hunk) (session agent : str) (user : option str) (e : EventType)
    (attribution_source : HunkSource) : HunkRecord :=
  let '(author, id, prompt, src) := attribution agent user attribution_source in
  let li := line_info h in
  let '(start, count) := if (new_count li =? 0)%Z then (old_start li, old_count li)
                         else (new_start li, new_count li) in
  {| rec_id := hunk_id h; file_path := hunk_path h; hunk_start := start;
     hunk_end := if (count =? 0)%Z then start else wrap64 (wrap64 (start + count) - 1);
     rec_added := wrap_i64 (new_count li); rec_removed := wrap_i64 (old_count li);
     author_type := Some author; author_id := id; rec_agent := agent; session_id := session;
     timestamp := created_at h; rec_prompt := prompt; source_type := Some src; event_type := e;
     removal_reason := None |}.

Definition with_lines (a r : Z) (x : HunkRecord) : HunkRecord :=
  {| rec_id := rec_id x; file_path := file_path x; hunk_start := hunk_start x;
     hunk_end := hunk_end x; rec_added := a; rec_removed := r; author_type := author_type x;
     author_id := author_id x; rec_agent := rec_agent x; session_id := session_id x;
     timestamp := timestamp x; rec_prompt := rec_prompt x; source_type := source_type x;
     event_type := event_type x; removal_reason := removal_reason x |}.

Inductive LocAggregate : Type :=
| LinesChanged (author : AuthorType) (added removed : Z) (p : path)
| LinesReverted (added_reverted removed_reverted : Z).

Record LocSinkContext : Type := {
  ctx_session : str;
  ctx_agent : str;
  ctx_user : option str;
  has_aggregate : bool;
}.

(** The writer's operations, and [Utc::now] of the n-th removal *)
Class RecordWriter (W : Type) : Type := {
  write_one : HunkRecord → W → bool * W;
  flush : W → bool * W;
  removal_time : nat → Z;
}.

Section sink.
Context {W : Type} `{RecordWriter W} (ctx : LocSinkContext).

(** The accumulated lines of each hunk, the writer, the records handed to it, and
    the aggregates sent *)
Record Sink : Type := {
  acc : gmap HunkId (Z * Z);
  writer : W;
  handed : list HunkRecord;
  aggregates : list LocAggregate;
  clock : nat;
}.
Definition Sink_new (w : W) : Sink :=
  {| acc := ∅; writer := w; handed := []; aggregates := []; clock := 0 |}.

Definition set_acc (m : gmap HunkId (Z * Z)) (s : Sink) : Sink :=
  {| acc := m; writer := writer s; handed := handed s; aggregates := aggregates s;
     clock := clock s |}.
Definition emit (a : LocAggregate) (s : Sink) : Sink :=
  {| acc := acc s; writer := writer s; handed := handed s;
     aggregates := if has_aggregate ctx then aggregates s ++ [a] else aggregates s;
     clock := clock s |}.
(** [write_record]: a failure is logged and the record dropped. *)
Definition write_record (r : HunkRecord) (s : Sink) : Sink :=
  {| acc := acc s; writer := (write_one r (writer s)).2; handed := handed s ++ [r];
     aggregates := aggregates s; clock := clock s |}.
Definition tick (s : Sink) : Sink :=
  {| acc := acc s; writer := writer s; handed := handed s; aggregates := aggregates s;
     clock := S (clock s) |}.

Definition add_lines (id : HunkId) (a r : Z) (m : gmap HunkId (Z * Z)) : gmap HunkId (Z * Z) :=
  let e := default (0, 0)%Z (m !! id) in <[id := (wrap_i64 (e.1 + a), wrap_i64 (e.2 + r))]> m.

Definition record_lines (fallback : AuthorType) (r : HunkRecord) (s : Sink) : Sink :=
  write_record r
    (emit (LinesChanged (default fallback (author_type r)) (rec_added r) (rec_removed r) (file_path r))
       (set_acc (add_lines (rec_id r) (rec_added r) (rec_removed r) (acc s)) s)).

Definition removed_record (p : path) (id : HunkId) (reason : HunkRemovalReason) (t : Z * Z)
    (now : Z) : HunkRecord :=
  {| rec_id := id; file_path := p; hunk_start := 0; hunk_end := 0;
     rec_added := wrap_i64 (- t.1); rec_removed := wrap_i64 (- t.2);
     author_type := None; author_id := None; rec_agent := ctx_agent ctx;
     session_id := ctx_session ctx; timestamp := now; rec_prompt := None; source_type := None;
     event_type := Removed; removal_reason := Some reason |}.

Definition handle_event (e : HunkEvent) (s : Sink) : Sink :=
  match e with
  | HunkAdded _ h =>
      record_lines Agent
        (from_hunk h (ctx_session ctx) (ctx_agent ctx) (ctx_user ctx) Added (source h)) s
  | HunkContentChanged _ h trigger prev_added prev_removed =>
      let r := from_hunk h (ctx_session ctx) (ctx_agent ctx) (ctx_user ctx) Updated trigger in
      record_lines Human
        (with_lines (wrap_i64 (wrap_i64 (new_count (line_info h)) - wrap_i64 prev_added))
                    (wrap_i64 (wrap_i64 (old_count (line_info h)) - wrap_i64 prev_removed)) r) s
  | HunkRemoved p id reason =>
      let s' := set_acc (delete id (acc s)) s in
      match reason, acc s !! id with
      | Accepted, _ | _, None => s'
      | _, Some t =>
          if (t.1 =? 0)%Z && (t.2 =? 0)%Z then s'
          else tick (write_record (removed_record p id reason t (removal_time (clock s)))
                 (emit (LinesReverted (Z.max t.1 0) (Z.max t.2 0)) s'))
      end
  | HunkMoved _ _ _ | FileAdded _ _ | FileRemoved _ | BaselineUpdated _ => s
  end.

(** [run_loc_sink]: the events received until the channel closes or the token is
    cancelled, then the events still queued when it was cancelled, then a flush. *)
Definition run_loc_sink (w : W) (received : list HunkEvent) (cancelled : bool)
    (queued : list HunkEvent) : Sink :=
  let s := foldl (flip handle_event) (Sink_new w) received in
  let s := if cancelled then foldl (flip handle_event) s queued else s in
  {| acc := acc s; writer := (flush (writer s)).2; handed := handed s;
     aggregates := aggregates s; clock := clock s |}.

(** ** What the sums of the records mean *)

(** The net lines of a hunk: what its events since it was last removed say. *)
Definition net_event (id : HunkId) (e : HunkEvent) (net : Z * Z) : Z * Z :=
  match e with
  | HunkAdded _ h =>
      if bool_decide (hunk_id h = id)
      then (net.1 + new_count (line_info h), net.2 + old_count (line_info h))%Z else net
  | HunkContentChanged _ h _ pa pr =>
      if bool_decide (hunk_id h = id)
      then (net.1 + (new_count (line_info h) - pa), net.2 + (old_count (line_info h) - pr))%Z
      else net
  | HunkRemoved _ i _ => if bool_decide (i = id) then (0, 0)%Z else net
  | _ => net
  end.
(** What accepting a hunk makes permanent *)
Definition kept_event (id : HunkId) (e : HunkEvent) (net : Z * Z) : Z * Z :=
  match e with
  | HunkRemoved _ i Accepted => if bool_decide (i = id) then net else (0, 0)%Z
  | _ => (0, 0)%Z
  end.
Fixpoint kept (id : HunkId) (net : Z * Z) (es : list HunkEvent) : Z * Z :=
  match es with
  | [] => (0, 0)%Z
  | e :: es' =>
      let k := kept_event id e net in
      let r := kept id (net_event id e net) es' in
      (k.1 + r.1, k.2 + r.2)%Z
  end.
Definition net (id : HunkId) (n : Z * Z) (es : list HunkEvent) : Z * Z :=
  foldl (λ n e, net_event id e n) n es.

Definition total (f : HunkRecord → Z) (id : HunkId) (l : list HunkRecord) : Z :=
  foldr (λ r t, if bool_decide (rec_id r = id) then (f r + t)%Z else t) 0%Z l.

Lemma two64 : (2 ^ 64 ≠ 0)%Z.
Proof. lia. Qed.

(** Equality of 64-bit values *)
Definition eq64 (a b : Z) : Prop := (a mod 2 ^ 64 = b mod 2 ^ 64)%Z.
#[global] Instance eq64_equiv : Equivalence eq64.
Proof. split; unfold eq64; repeat intro; congruence. Qed.
#[global] Instance eq64_add : Proper (eq64 ==> eq64 ==> eq64) Z.add.
Proof. intros a b E c d F. unfold eq64 in *. by rewrite Z.add_mod, E, F, <- Z.add_mod by exact two64. Qed.
#[global] Instance eq64_opp : Proper (eq64 ==> eq64) Z.opp.
Proof.
  intros a b E. unfold eq64 in *. rewrite <- !Z.sub_0_l.
  by rewrite Zminus_mod, E, <- Zminus_mod.
Qed.
Lemma wrap_i64_eq z : eq64 (wrap_i64 z) z.
Proof.
  unfold eq64, wrap_i64. rewrite Z.add_mod_idemp_l by exact two64. f_equal. lia.
Qed.

Lemma eq64_eq a b : a = b → eq64 a b.
Proof. by intros ->. Qed.
Lemma eq64_spec a b : eq64 a b ↔ ∃ k, (a = b + k * 2 ^ 64)%Z.
Proof.
  unfold eq64. split.
  - intros E. exists (a / 2 ^ 64 - b / 2 ^ 64)%Z.
    pose proof (Z.div_mod a (2 ^ 64) two64). pose proof (Z.div_mod b (2 ^ 64) two64). lia.
  - intros [k ->]. by rewrite Z_mod_plus_full.
Qed.
(** Two steps in a row: [t], [t1], [t2] are sums, [a], [a1] accumulated lines. *)
Lemma eq64_chain t t1 t2 a a1 n k kept1 kept2 net1 net2 :
  eq64 a1 n → eq64 (t1 + a) (t + k + n) → eq64 (t2 + a1) (t1 + kept1 + net1) →
  eq64 kept1 kept2 → eq64 net1 net2 →
  eq64 (t2 + a) (t + (k + kept2) + net2).
Proof.
  rewrite !eq64_spec. intros [x1 H1] [x2 H2] [x3 H3] [x4 H4] [x5 H5].
  exists (x2 + x3 + x4 + x5 - x1)%Z. lia.
Qed.
Ltac eq64_lia :=
  rewrite ?wrap_i64_eq;
  apply eq64_eq; lia.

(** ** The sums follow the events *)

(** A pair of lines, and both of its sums over the records of a hunk *)
Definition eq64_2 (a b : Z * Z) : Prop := eq64 a.1 b.1 ∧ eq64 a.2 b.2.
Definition acc_of (s : Sink) (id : HunkId) : Z * Z := default (0, 0)%Z (acc s !! id).
Definition totals (id : HunkId) (l : list HunkRecord) : Z * Z :=
  (total rec_added id l, total rec_removed id l).

Lemma total_snoc f id l r :
  total f id (l ++ [r]) = (total f id l + (if bool_decide (rec_id r = id) then f r else 0))%Z.
Proof.
  induction l as [|x l IH]; cbn [app total foldr] in *.
  - case_bool_decide; lia.
  - unfold total in IH. rewrite IH. repeat case_bool_decide; lia.
Qed.

(** One event: what the accumulator holds and what the sums gain *)
Definition gains (id : HunkId) (e : HunkEvent) (s : Sink) : Prop :=
  let s' := handle_event e s in
  let n := net_event id e (acc_of s id) in
  let k := kept_event id e (acc_of s id) in
  eq64_2 (acc_of s' id) n
  ∧ eq64_2 ((totals id (handed s')).1 + (acc_of s id).1, (totals id (handed s')).2 + (acc_of s id).2)%Z
      ((totals id (handed s)).1 + k.1 + n.1, (totals id (handed s)).2 + k.2 + n.2)%Z.

Lemma acc_add id id' a r m :
  default (0, 0)%Z (add_lines id' a r m !! id)
  = if bool_decide (id' = id)
    then (wrap_i64 ((default (0, 0)%Z (m !! id)).1 + a), wrap_i64 ((default (0, 0)%Z (m !! id)).2 + r))
    else default (0, 0)%Z (m !! id).
Proof.
  unfold add_lines. case_bool_decide as E; [subst; by rewrite lookup_insert_eq|].
  by rewrite lookup_insert_ne.
Qed.

Lemma record_gains id fb r s :
  let s' := record_lines fb r s in
  let d := if bool_decide (rec_id r = id) then (rec_added r, rec_removed r) else (0, 0)%Z in
  eq64_2 (acc_of s' id) ((acc_of s id).1 + d.1, (acc_of s id).2 + d.2)%Z
  ∧ totals id (handed s') = ((totals id (handed s)).1 + d.1, (totals id (handed s)).2 + d.2)%Z.
Proof.
  cbn zeta. split.
  - unfold acc_of. cbn [record_lines write_record emit set_acc acc]. rewrite acc_add.
    case_bool_decide; cbn [fst snd]; [split; apply wrap_i64_eq|].
    split; cbn [fst snd]; by rewrite Z.add_0_r.
  - unfold totals. cbn [record_lines write_record emit set_acc handed]. rewrite !total_snoc.
    case_bool_decide; done.
Qed.

Lemma added_gains id p h s : gains id (HunkAdded p h) s.
Proof.
  unfold gains. cbn [handle_event net_event kept_event fst snd].
  set (r := from_hunk _ _ _ _ _ _).
  assert (Hr : rec_id r = hunk_id h ∧ rec_added r = wrap_i64 (new_count (line_info h))
               ∧ rec_removed r = wrap_i64 (old_count (line_info h))).
  { unfold r, from_hunk. destruct (attribution _ _ _) as [[[? ?] ?] ?]. by case_match. }
  destruct Hr as (Hid & Ha & Hd), (record_gains id Agent r s) as [[H1 H2] H3].
  rewrite H3, Hid, Ha, Hd in *. clear H3.
  case_bool_decide; cbn [fst snd] in *; unfold eq64_2; cbn [fst snd]; rewrite H1, H2, ?wrap_i64_eq;
    split_and!; eq64_lia.
Qed.
Lemma changed_gains id p h t pa pr s : gains id (HunkContentChanged p h t pa pr) s.
Proof.
  unfold gains. cbn [handle_event net_event kept_event fst snd].
  set (r := with_lines _ _ _).
  assert (Hid : rec_id r = hunk_id h).
  { unfold r, from_hunk. destruct (attribution _ _ _) as [[[? ?] ?] ?]. by case_match. }
  destruct (record_gains id Human r s) as [[H1 H2] H3]. rewrite H3, Hid in *. clear H3.
  change (rec_added r) with (wrap_i64 (wrap_i64 (new_count (line_info h)) - wrap_i64 pa)) in *.
  change (rec_removed r) with (wrap_i64 (wrap_i64 (old_count (line_info h)) - wrap_i64 pr)) in *.
  unfold Z.sub in *.
  case_bool_decide; cbn [fst snd] in *; unfold eq64_2; cbn [fst snd]; rewrite H1, H2;
    rewrite ?wrap_i64_eq; split_and!; eq64_lia.
Qed.

Lemma removed_gains id p i reason s : gains id (HunkRemoved p i reason) s.
Proof.
  unfold gains. cbn [net_event].
  assert (Hacc : acc_of (handle_event (HunkRemoved p i reason) s) id
                 = if bool_decide (i = id) then (0, 0)%Z else acc_of s id).
  { assert (acc (handle_event (HunkRemoved p i reason) s) = delete i (acc s)) as E.
    { cbn [handle_event]. by repeat case_match. }
    unfold acc_of. rewrite E. case_bool_decide; [subst; by rewrite lookup_delete_eq|].
    by rewrite lookup_delete_ne. }
  assert (Hrec : totals id (handed (handle_event (HunkRemoved p i reason) s))
    = match reason with
      | Accepted => totals id (handed s)
      | _ => if bool_decide (i = id)
             then ((totals id (handed s)).1 + wrap_i64 (- (acc_of s i).1),
                   (totals id (handed s)).2 + wrap_i64 (- (acc_of s i).2))%Z
             else totals id (handed s)
      end).
  { unfold totals, acc_of. cbn [handle_event].
    destruct reason, (acc s !! i) as [[a r]|] eqn:E; cbn [default from_option Datatypes.id fst snd set_acc handed];
      try done; try (destruct ((a =? 0)%Z && (r =? 0)%Z)%bool eqn:Ez;
        [apply andb_prop in Ez as [->%Z.eqb_eq ->%Z.eqb_eq]|]);
      cbn [tick write_record emit set_acc handed fst snd];
      rewrite ?total_snoc; cbn [removed_record rec_id rec_added rec_removed fst snd];
      case_bool_decide; f_equal; change (wrap_i64 (- 0)) with 0%Z; lia. }
  rewrite Hacc, Hrec. split; [reflexivity|]. cbn [kept_event].
  destruct reason; case_bool_decide as E; subst; unfold eq64_2; cbn [fst snd]; split;
    rewrite ?wrap_i64_eq; eq64_lia.
Qed.

Lemma event_gains id e s : gains id e s.
Proof.
  destruct e; [apply added_gains|apply removed_gains| |apply changed_gains|..];
    unfold gains; cbn [handle_event net_event kept_event]; unfold eq64_2; cbn [fst snd];
    split_and!; eq64_lia.
Qed.

Lemma net_event_proper id e a b : eq64_2 a b → eq64_2 (net_event id e a) (net_event id e b).
Proof.
  intros [H1 H2]. destruct e; cbn [net_event]; try case_bool_decide; unfold eq64_2; cbn [fst snd];
    rewrite ?H1, ?H2; done.
Qed.
Lemma kept_event_proper id e a b : eq64_2 a b → eq64_2 (kept_event id e a) (kept_event id e b).
Proof.
  intros [H1 H2]. destruct e; cbn [kept_event]; try case_match; try case_bool_decide; by split.
Qed.
Lemma kept_proper id es : ∀ a b, eq64_2 a b → eq64_2 (kept id a es) (kept id b es).
Proof.
  induction es as [|e es IH]; intros a b E; [done|]. cbn [kept].
  destruct (kept_event_proper id e a b E) as [K1 K2], (IH _ _ (net_event_proper id e a b E)) as [N1 N2].
  unfold eq64_2. cbn [fst snd]. by rewrite K1, K2, N1, N2.
Qed.
Lemma net_proper id es : ∀ a b, eq64_2 a b → eq64_2 (net id a es) (net id b es).
Proof.
  unfold net. induction es as [|e es IH]; intros a b E; [done|]. cbn [foldl].
  by apply IH, net_event_proper.
Qed.

Lemma events_gain id es : ∀ s,
  let s' := foldl (flip handle_event) s es in
  eq64_2 (acc_of s' id) (net id (acc_of s id) es)
  ∧ eq64_2 ((totals id (handed s')).1 + (acc_of s id).1, (totals id (handed s')).2 + (acc_of s id).2)%Z
      ((totals id (handed s)).1 + (kept id (acc_of s id) es).1 + (net id (acc_of s id) es).1,
       (totals id (handed s)).2 + (kept id (acc_of s id) es).2 + (net id (acc_of s id) es).2)%Z.
Proof.
  induction es as [|e es IH]; intros s; cbn zeta; cbn [foldl].
  { unfold eq64_2, net. cbn. split_and!; eq64_lia. }
  destruct (event_gains id e s) as [A A2]. destruct (IH (handle_event e s)) as [B B2].
  pose proof (net_proper id es _ _ A) as N. pose proof (kept_proper id es _ _ A) as K.
  change (flip handle_event s e) with (handle_event e s).
  change (net id (acc_of s id) (e :: es)) with (net id (net_event id e (acc_of s id)) es).
  cbn [kept fst snd].
  split; [destruct B, N; split; by etrans|].
  clear IH B. unfold eq64_2 in *. cbn [fst snd] in *.
  destruct A as [A A'], A2 as [A2 A2'], B2 as [B2 B2'], N as [N N'], K as [K K'].
  split; [exact (eq64_chain _ _ _ _ _ _ _ _ _ _ _ A A2 B2 K N)|exact (eq64_chain _ _ _ _ _ _ _ _ _ _ _ A' A2' B2' K' N')].
Qed.

(** Lines of code.  Whatever events the sink gets, before or after its
    cancellation, the lines of the records it hands to the writer for a hunk sum,
    as 64-bit integers, to what its accepted changes contributed and its pending
    changes still contribute: a rejected or superseded hunk counts for nothing. *)
Theorem loc_records_sum id w (received : list HunkEvent) (cancelled : bool) (queued : list HunkEvent) :
  let es := received ++ (if cancelled then queued else []) in
  eq64_2 (totals id (handed (run_loc_sink w received cancelled queued)))
    ((kept id (0, 0)%Z es).1 + (net id (0, 0)%Z es).1,
     (kept id (0, 0)%Z es).2 + (net id (0, 0)%Z es).2)%Z.
Proof.
  cbn zeta. set (es := received ++ _).
  assert (E : handed (run_loc_sink w received cancelled queued)
              = handed (foldl (flip handle_event) (Sink_new w) es)).
  { unfold run_loc_sink, es. destruct cancelled; cbn [handed]; [by rewrite foldl_app|by rewrite app_nil_r]. }
  rewrite E. destruct (events_gain id es (Sink_new w)) as [_ [H1 H2]].
  unfold acc_of in *. cbn [Sink_new acc handed] in *. rewrite lookup_empty in H1, H2.
  cbn [default from_option fst snd totals total foldr] in H1, H2.
  unfold eq64_2, totals. cbn [fst snd]. rewrite Z.add_0_r, Z.add_0_l in H1, H2. by split.
Qed.
End sink.
