(* ===== verification/HunkDiff.v ===== *)
(** * Hunk tracker: hunks of a diff

    [diff.rs] of [codegen/xai-hunk-tracker]: the hunks of a line diff, the patch
    of a text by line numbers, overlap and matching of hunks, and their display.
    The diff itself is computed by the [similar] crate; its changes are the input
    here. *)
From S2P Require Import Prelude RustStr StrSearch HunkTypes.

(** ** From changes to hunks *)

Definition MAX_DIFF_FILE_SIZE : Z := 1048576.
Definition CONTEXT_LINES : Z := 3.

(** A change of [similar]'s [iter_all_changes]: its tag and value. *)
Inductive Change : Type :=
| Equal (value : str)
| Delete (value : str)
| Insert (value : str).

Record HunkBuilder : Type := {
  b_old_start : nat;
  b_new_start : nat;
  old_lines : list str;
  new_lines : list str;
}.
Definition HunkBuilder_new (o n : nat) : HunkBuilder :=
  {| b_old_start := o; b_new_start := n; old_lines := []; new_lines := [] |}.
Definition add_old_line (b : HunkBuilder) (l : str) : HunkBuilder :=
  {| b_old_start := b_old_start b; b_new_start := b_new_start b;
     old_lines := old_lines b ++ [l]; new_lines := new_lines b |}.
Definition add_new_line (b : HunkBuilder) (l : str) : HunkBuilder :=
  {| b_old_start := b_old_start b; b_new_start := b_new_start b;
     old_lines := old_lines b; new_lines := new_lines b ++ [l] |}.

(** [HunkBuilder::build], with the identifier and the time it draws *)
Definition build (p : path) (s : HunkSource) (id : HunkId) (now : Z) (b : HunkBuilder) : Hunk :=
  {| hunk_id := id; hunk_path := p;
     line_info := {| old_start := Z.of_nat (b_old_start b);
                     old_count := Z.of_nat (length (old_lines b));
                     new_start := Z.of_nat (b_new_start b);
                     new_count := Z.of_nat (length (new_lines b)) |};
     source := s;
     old_text := if is_empty (old_lines b) then None else Some (concat (old_lines b));
     new_text := concat (new_lines b);
     patch := None; created_at := now; selected := false |}.

Definition finish (current : option HunkBuilder) : list HunkBuilder :=
  match current with Some b => [b] | None => [] end.

(** The loop of [compute_hunks]: [old_line] and [new_line] count from 1. *)
Fixpoint change_loop (changes : list Change) (old_line new_line : nat)
    (current : option HunkBuilder) : list HunkBuilder :=
  match changes with
  | [] => finish current
  | Equal _ :: rest => finish current ++ change_loop rest (S old_line) (S new_line) None
  | Delete l :: rest =>
      let b := default (HunkBuilder_new old_line new_line) current in
      change_loop rest (S old_line) new_line (Some (add_old_line b l))
  | Insert l :: rest =>
      let b := default (HunkBuilder_new old_line new_line) current in
      change_loop rest old_line (S new_line) (Some (add_new_line b l))
  end.

(** ** Patching by line numbers *)

Definition wrapping_sub (a b : Z) : Z := wrap64 (a - b).

Definition patch_lines (content : str) (start_line remove_count : Z) (insert_text : str) : str :=
  let ls := lines content in
  let len := Z.of_nat (length ls) in
  let start_idx := saturating_sub start_line 1 in
  let before := take (Z.to_nat (Z.min start_idx len)) ls in
  let inserted := if is_empty insert_text then [] else lines insert_text in
  let end_idx := Z.min (wrapping_add start_idx remove_count) len in
  let after := drop (Z.to_nat end_idx) ls in
  let output := join [NL] (before ++ inserted ++ after) in
  if ends_with content [NL] && negb (is_empty output) then output ++ [NL] else output.

(** ** Comparing hunks *)

Definition hunks_match_content (a b : Hunk) : bool :=
  bool_decide (hunk_path a = hunk_path b) && bool_decide (old_text a = old_text b)
  && bool_decide (new_text a = new_text b).

Definition hunk_moved (old new : Hunk) : bool :=
  hunks_match_content old new && negb (bool_decide (line_info old = line_info new)).

Definition hunks_overlap (a b : Hunk) : bool :=
  if negb (bool_decide (hunk_path a = hunk_path b)) then false
  else
    let a_start := old_start (line_info a) in
    let a_end := saturating_add a_start (old_count (line_info a)) in
    let b_start := old_start (line_info b) in
    let b_end := saturating_add b_start (old_count (line_info b)) in
    if ((old_count (line_info a) =? 0) && (old_count (line_info b) =? 0))%Z
    then (a_start =? b_start)%Z
    else if (old_count (line_info a) =? 0)%Z
    then ((b_start <=? a_start) && (a_start <=? b_end))%Z
    else if (old_count (line_info b) =? 0)%Z
    then ((a_start <=? b_start) && (b_start <=? a_end))%Z
    else negb ((a_end <? b_start) || (b_end <? a_start))%Z.

Definition calculate_overlap_size (a b : HunkLineInfo) : Z :=
  let a_end := wrapping_add (old_start a) (old_count a) in
  let b_end := wrapping_add (old_start b) (old_count b) in
  saturating_sub (Z.min a_end b_end) (Z.max (old_start a) (old_start b)).

Definition find_matching_old_hunk (new_hunk : Hunk) (old_hunks : list Hunk) : option Hunk :=
  let content_matches := List.filter (λ o, hunks_match_content o new_hunk) old_hunks in
  if negb (is_empty content_matches) then
    min_by_key (λ o, Z.abs (new_start (line_info o) - new_start (line_info new_hunk)))
      content_matches
  else
    max_by_key (λ o, calculate_overlap_size (line_info o) (line_info new_hunk))
      (List.filter (λ o, hunks_overlap o new_hunk) old_hunks).

Definition find_overlapping_hunks (new_hunk : Hunk) (old_hunks : list Hunk) : list Hunk :=
  List.filter (λ o, hunks_overlap o new_hunk) old_hunks.

(** ** Display *)

Definition writeln (s : str) : str := s ++ [NL].
Definition marked_lines (mark : str) (text : str) : str :=
  concat (map (λ l, writeln (mark ++ l)) (lines text)).

Definition line_info_display (li : HunkLineInfo) : str :=
  lit "@@ -" ++ fmt_Z (old_start li) ++ lit "," ++ fmt_Z (old_count li)
  ++ lit " +" ++ fmt_Z (new_start li) ++ lit "," ++ fmt_Z (new_count li) ++ lit " @@".

(** The lines [i] with [from <= i < to] that exist. *)
Definition context_lines (ls : list str) (from to : Z) : str :=
  concat (map (λ i, match ls !! Z.to_nat i with
                    | Some l => writeln (lit " " ++ l)
                    | None => []
                    end) (seqZ from (to - from))).

Definition generate_hunk_patch (base current : str) (h : Hunk) : str :=
  let olds := lines base in
  let news := lines current in
  let li := line_info h in
  let old_idx := saturating_sub (old_start li) 1 in
  let new_idx := saturating_sub (new_start li) 1 in
  let before_start := saturating_sub old_idx CONTEXT_LINES in
  let end_new := wrapping_add new_idx (new_count li) in
  let after_end := Z.min (wrapping_add end_new CONTEXT_LINES) (Z.of_nat (length news)) in
  let end_old := wrapping_add old_idx (old_count li) in
  let after_end_old := Z.min (wrapping_add end_old CONTEXT_LINES) (Z.of_nat (length olds)) in
  let total_old := wrapping_add (wrapping_add (wrapping_sub old_idx before_start) (old_count li))
                     (wrapping_sub after_end_old end_old) in
  let total_new := wrapping_add (wrapping_add (wrapping_sub old_idx before_start) (new_count li))
                     (wrapping_sub after_end end_new) in
  let header_start := wrapping_add before_start 1 in
  writeln (line_info_display {| old_start := header_start; old_count := total_old;
                                new_start := header_start; new_count := total_new |})
  ++ context_lines olds before_start old_idx
  ++ match old_text h with Some t => marked_lines (lit "-") t | None => [] end
  ++ marked_lines (lit "+") (new_text h)
  ++ context_lines news end_new after_end.

Definition format_unified_diff (display : path → str) (h : Hunk) : str :=
  writeln (lit "--- a/" ++ display (hunk_path h))
  ++ writeln (lit "+++ b/" ++ display (hunk_path h))
  ++ writeln (line_info_display (line_info h))
  ++ match old_text h with Some t => marked_lines (lit "-") t | None => [] end
  ++ marked_lines (lit "+") (new_text h).
