(* ===== verification/HunkDiffFacts.v ===== *)
(** * Hunk tracker: what accepting and rejecting hunks does to a text

    A diff is cut into segments: common lines and changes.  The hunks of
    [compute_hunks] are the changes with their positions, and patching any
    choice of them, last first, gives the text in which exactly the chosen
    changes are made.  Texts are LF-terminated here; what other texts do is
    shown by examples. *)
From S2P Require Import Prelude RustStr StrSearch HunkTypes HunkDiff.

(** ** Lines and their tokens *)

(** [str::split_inclusive] of a line feed *)
Fixpoint split_inclusive (s : str) : list str :=
  match s with
  | [] => []
  | x :: s' =>
      if (x =? NL)%Z then [NL] :: split_inclusive s'
      else match split_inclusive s' with
           | h :: t => (x :: h) :: t
           | [] => [[x]]
           end
  end.

Definition is_line (l : str) : Prop := NL ∉ l ∧ CR ∉ l.
Definition line_token (t : str) : Prop := ∃ l, t = l ++ [NL] ∧ is_line l.

(** An LF text: empty, or ending in a line feed, without carriage returns. *)
Definition lf_text (s : str) : Prop :=
  CR ∉ s ∧ (s = [] ∨ ∃ s', s = s' ++ [NL]).

Lemma split_inclusive_concat s : concat (split_inclusive s) = s.
Proof.
  induction s as [|x s IH]; [done|]. cbn [split_inclusive].
  destruct (Z.eqb_spec x NL) as [->|_]; [cbn [concat app]; by rewrite IH|].
  destruct (split_inclusive s) as [|h t]; cbn [concat app] in *; by rewrite <- IH.
Qed.

Lemma split_line_token l s :
  is_line l → split_inclusive (l ++ NL :: s) = (l ++ [NL]) :: split_inclusive s.
Proof.
  unfold is_line. induction l as [|x l IH]; intros [Hn Hc].
  - reflexivity.
  - cbn [app split_inclusive]. apply not_elem_of_cons in Hn as [Hx Hn].
    apply not_elem_of_cons in Hc as [_ Hc].
    destruct (Z.eqb_spec x NL) as [->|_]; [done|]. by rewrite IH.
Qed.

(** An LF text is a list of line tokens. *)
Lemma lf_text_lines s : lf_text s → ∃ ls, Forall is_line ls ∧ s = concat (map (λ l, l ++ [NL]) ls).
Proof.
  intros [Hcr Hend].
  assert (∀ cur s, is_line cur → CR ∉ s → (s = [] → cur = []) →
    (s = [] ∨ ∃ s', s = s' ++ [NL]) →
    ∃ ls, Forall is_line ls ∧ cur ++ s = concat (map (λ l, l ++ [NL]) ls)) as Hgen.
  { clear. intros cur s. revert cur. induction s as [|x s IH]; intros cur Hcur Hcr He Hend.
    - exists []. by rewrite He.
    - apply not_elem_of_cons in Hcr as [Hx Hcr].
      assert (Hend' : s = [] ∨ ∃ s', s = s' ++ [NL]).
      { destruct Hend as [|[s' Hs]]; [done|]. destruct s' as [|y s']; cbn [app] in Hs.
        - left. congruence.
        - right. exists s'. congruence. }
      destruct (decide (x = NL)) as [->|Hn].
      + destruct (IH [] ltac:(split; apply not_elem_of_nil) Hcr ltac:(done) Hend') as (ls & Hls & E).
        exists (cur :: ls). split; [by constructor|]. cbn [map concat]. rewrite <- E.
        rewrite <- app_assoc. reflexivity.
      + destruct (IH (cur ++ [x])) as (ls & Hls & E).
        * destruct Hcur. unfold is_line. set_solver.
        * done.
        * intros ->. destruct Hend as [|[s' Hs]]; [done|].
          destruct s' as [|y s']; [cbn in Hs; congruence|].
          apply (f_equal length) in Hs. cbn [length app] in Hs. rewrite length_app in Hs.
          cbn [length] in Hs. lia.
        * done.
        * exists ls. split; [done|]. rewrite <- E, <- app_assoc. reflexivity. }
  exact (Hgen [] s ltac:(split; apply not_elem_of_nil) Hcr ltac:(done) Hend).
Qed.

Lemma split_lf ls :
  Forall is_line ls →
  split_inclusive (concat (map (λ l, l ++ [NL]) ls)) = map (λ l, l ++ [NL]) ls.
Proof.
  induction 1 as [|l ls Hl Hls IH]; [reflexivity|].
  cbn [map concat]. rewrite <- app_assoc. cbn [app]. by rewrite split_line_token, IH.
Qed.

Lemma split_NL_line l s : is_line l → split NL (l ++ NL :: s) = l :: split NL s.
Proof.
  unfold is_line. induction l as [|x l IH]; intros [Hn Hc]; [reflexivity|].
  apply not_elem_of_cons in Hn as [Hx Hn]. apply not_elem_of_cons in Hc as [_ Hc].
  cbn [app split]. destruct (Z.eqb_spec x NL) as [->|_]; [done|]. by rewrite IH.
Qed.

Lemma strip_cr_line l : is_line l → strip_suffix_char CR l = l.
Proof.
  intros [_ Hc]. unfold strip_suffix_char. destruct (rev l) as [|x r] eqn:E.
  - apply (f_equal (@rev Z)) in E. rewrite rev_involutive in E. by rewrite E.
  - destruct (Z.eqb_spec x CR) as [->|_]; [|done]. destruct Hc.
    rewrite <- (rev_involutive l), E. cbn [rev]. set_solver.
Qed.

Lemma lines_lf ls : Forall is_line ls → lines (concat (map (λ l, l ++ [NL]) ls)) = ls.
Proof.
  unfold lines. induction 1 as [|l ls Hl Hls IH]; [reflexivity|].
  cbn [map concat]. rewrite <- app_assoc. cbn [app]. rewrite split_NL_line by done.
  destruct (split NL _) as [|q r] eqn:E.
  - exfalso. clear -E. destruct (concat _) as [|x s]; cbn [split] in E; [done|].
    by repeat case_match.
  - cbn [lines_of]. rewrite strip_cr_line by done. f_equal. exact IH.
Qed.

Lemma join_lf ls :
  ls ≠ [] → join [NL] ls ++ [NL] = concat (map (λ l, l ++ [NL]) ls).
Proof.
  induction ls as [|l ls IH]; intros H; [done|]. destruct ls as [|l' ls].
  - cbn [join map concat app]. by rewrite app_nil_r.
  - change (join [NL] (l :: l' :: ls)) with (l ++ [NL] ++ join [NL] (l' :: ls)).
    cbn [map concat]. cbn [map concat] in IH. rewrite <- IH by done. by rewrite <- !app_assoc.
Qed.

Lemma concat_lf_end ls : ls ≠ [] → ends_with (concat (map (λ l, l ++ [NL]) ls)) [NL] = true.
Proof.
  intros H. rewrite <- join_lf by done. unfold ends_with. rewrite rev_app_distr. reflexivity.
Qed.

(** ** One patch *)

(** A text of line tokens *)
Definition text_of (ls : list str) : str := concat (map (λ l, l ++ [NL]) ls).

Lemma join_not_empty ls : ls ≠ [] → ls ≠ [[]] → is_empty (join [NL] ls) = false.
Proof. destruct ls as [|l [|l' ls]]; [done|by destruct l|by destruct l]. Qed.

(** On LF texts [patch_lines] replaces a range of lines.  Two results are not
    reached: from the empty text there is no line feed to continue, and a single
    blank line joins to nothing. *)
Lemma patch_lines_lf (A D R I : list str) :
  Forall is_line (A ++ D ++ R) → Forall is_line I →
  A ++ D ++ R ≠ [] ∨ I = [] → A ++ I ++ R ≠ [[]] →
  (Z.of_nat (length (A ++ D)) ≤ U64_MAX)%Z →
  patch_lines (text_of (A ++ D ++ R)) (Z.of_nat (S (length A))) (Z.of_nat (length D)) (text_of I)
  = text_of (A ++ I ++ R).
Proof.
  intros Hl HI Hne Hone Hb. rewrite length_app, Nat2Z.inj_add in Hb.
  assert (Hins : ∀ x : str, (if is_empty x then [] else lines x) = lines x) by (by intros []).
  unfold patch_lines, text_of. rewrite Hins, !lines_lf by done.
  replace (saturating_sub (Z.of_nat (S (length A))) 1) with (Z.of_nat (length A))
    by (unfold saturating_sub; lia).
  replace (wrapping_add (Z.of_nat (length A)) (Z.of_nat (length D)))
    with (Z.of_nat (length (A ++ D))).
  2:{ unfold wrapping_add. rewrite wrap64_small, length_app by (unfold is_u64; lia). lia. }
  rewrite !(Z.min_l _ (Z.of_nat (length (A ++ D ++ R)))), !Nat2Z.id
    by (rewrite !length_app; lia).
  rewrite take_app_length, (app_assoc A D R), drop_app_length, <- app_assoc.
  destruct (decide (A ++ D ++ R = [])) as [He|He].
  - destruct Hne as [| ->]; [done|].
    apply app_eq_nil in He as [-> [-> ->]%app_eq_nil]. reflexivity.
  - rewrite concat_lf_end by done. cbn [andb].
    destruct (decide (A ++ I ++ R = [])) as [->|He2]; [reflexivity|].
    rewrite join_not_empty by done. by apply join_lf.
Qed.

Lemma tokens_lines ts : Forall line_token ts → ∃ ls, Forall is_line ls ∧ ts = map (λ l, l ++ [NL]) ls.
Proof.
  induction 1 as [|t ts (l & -> & Hl) _ (ls & Hls & ->)]; [by exists []|].
  exists (l :: ls). split; [by constructor|reflexivity].
Qed.

Lemma patch_lines_tokens (A D R I : list str) :
  Forall line_token (A ++ D ++ R) → Forall line_token I →
  A ++ D ++ R ≠ [] ∨ I = [] → A ++ I ++ R ≠ [[NL]] →
  (Z.of_nat (length (A ++ D)) ≤ U64_MAX)%Z →
  patch_lines (concat (A ++ D ++ R)) (Z.of_nat (S (length A))) (Z.of_nat (length D)) (concat I)
  = concat (A ++ I ++ R).
Proof.
  intros Hl HI Hne Hone Hb.
  apply Forall_app in Hl as [HA [HD HR]%Forall_app].
  apply tokens_lines in HA as (a & Ha & ->), HD as (d & Hd & ->), HR as (r & Hr & ->),
    HI as (i & Hi & ->).
  rewrite <- !map_app, !length_map in *.
  apply (patch_lines_lf a d r i); auto using Forall_app_2.
  - destruct Hne as [Hne|Hne]; [left|right].
    + by intros E; rewrite E in Hne.
    + by apply map_eq_nil in Hne.
  - by intros E; rewrite E in Hone.
Qed.

(** The two results that are not reached: a patch of the empty text ends without
    its line feed, and a patch that leaves one blank line leaves nothing. *)
Lemma patch_lines_empty (I : list str) :
  Forall line_token I → I ≠ [] → patch_lines [] 1 0 (concat I) ++ [NL] = concat I.
Proof.
  intros (i & Hi & ->)%tokens_lines Hne. unfold patch_lines.
  assert (Hins : ∀ x : str, (if is_empty x then [] else lines x) = lines x) by (by intros []).
  rewrite Hins, lines_lf by done. cbn. rewrite app_nil_r. apply join_lf. by intros ->.
Qed.
Lemma patch_lines_lone (A D R I : list str) :
  Forall line_token (A ++ D ++ R) → Forall line_token I → A ++ I ++ R = [[NL]] →
  (Z.of_nat (length (A ++ D)) ≤ U64_MAX)%Z →
  patch_lines (concat (A ++ D ++ R)) (Z.of_nat (S (length A))) (Z.of_nat (length D)) (concat I) = [].
Proof.
  intros [HA [HD HR]%Forall_app]%Forall_app HI Hone Hb.
  apply tokens_lines in HA as (a & Ha & ->), HD as (d & Hd & ->), HR as (r & Hr & ->),
    HI as (i & Hi & ->).
  rewrite <- !map_app, !length_map in *. rewrite length_app, Nat2Z.inj_add in Hb.
  assert (Hins : ∀ x : str, (if is_empty x then [] else lines x) = lines x) by (by intros []).
  unfold patch_lines. rewrite Hins, !lines_lf by auto using Forall_app_2.
  replace (saturating_sub (Z.of_nat (S (length a))) 1) with (Z.of_nat (length a))
    by (unfold saturating_sub; lia).
  replace (wrapping_add (Z.of_nat (length a)) (Z.of_nat (length d)))
    with (Z.of_nat (length (a ++ d))).
  2:{ unfold wrapping_add. rewrite wrap64_small, length_app by (unfold is_u64; lia). lia. }
  rewrite !(Z.min_l _ (Z.of_nat (length (a ++ d ++ r)))), !Nat2Z.id
    by (rewrite !length_app; lia).
  rewrite take_app_length, (app_assoc a d r), drop_app_length.
  assert (a ++ i ++ r = [[]]) as ->.
  { destruct (a ++ i ++ r) as [|x [|]]; try done. cbn in Hone. injection Hone as Hx.
    destruct x as [|c [|]]; done. }
  cbn. by rewrite andb_false_r.
Qed.

(** ** Segments of a diff *)

Inductive Segment : Type :=
| Same (t : str)
| Changed (dels inss : list str).

Definition old_part (s : Segment) : list str :=
  match s with Same t => [t] | Changed d _ => d end.
Definition new_part (s : Segment) : list str :=
  match s with Same t => [t] | Changed _ i => i end.
Definition same_part (s : Segment) : list str :=
  match s with Same t => [t] | Changed _ _ => [] end.
Definition swap (s : Segment) : Segment :=
  match s with Same t => Same t | Changed d i => Changed i d end.

Definition olds (segs : list Segment) : list str := concat (map old_part segs).
Definition news (segs : list Segment) : list str := concat (map new_part segs).
Definition sames (segs : list Segment) : list str := concat (map same_part segs).

(** The lines with the flagged changes made, and the flagged elements of a list. *)
Fixpoint chosen (flags : list bool) (segs : list Segment) : list str :=
  match segs with
  | [] => []
  | Same t :: rest => t :: chosen flags rest
  | Changed d i :: rest =>
      match flags with
      | b :: flags' => (if b then i else d) ++ chosen flags' rest
      | [] => d ++ chosen [] rest
      end
  end.
Fixpoint pick {A} (flags : list bool) (l : list A) : list A :=
  match flags, l with
  | b :: flags', x :: l' => if b then x :: pick flags' l' else pick flags' l'
  | _, _ => []
  end.

(** Two changes are never adjacent, and none is empty. *)
Fixpoint separated (segs : list Segment) : Prop :=
  match segs with
  | [] => True
  | Same _ :: rest => separated rest
  | Changed d i :: rest =>
      (d ≠ [] ∨ i ≠ [])
      ∧ match rest with Changed _ _ :: _ => False | _ => True end
      ∧ separated rest
  end.

Abbreviation edit := (Z * Z * list Z)%type (only parsing).
Definition apply_edit (e : edit) (content : str) : str := patch_lines content e.1.1 e.1.2 e.2.
Fixpoint edits (at_line : nat) (segs : list Segment) : list edit :=
  match segs with
  | [] => []
  | Same _ :: rest => edits (S at_line) rest
  | Changed d i :: rest =>
      (Z.of_nat at_line, Z.of_nat (length d), concat i) :: edits (at_line + length d) rest
  end.

Lemma olds_swap segs : olds (map swap segs) = news segs.
Proof. unfold olds, news. rewrite map_map. f_equal. apply map_ext. by intros []. Qed.
Lemma news_swap segs : news (map swap segs) = olds segs.
Proof. unfold olds, news. rewrite map_map. f_equal. apply map_ext. by intros []. Qed.
Lemma sames_swap segs : sames (map swap segs) = sames segs.
Proof. unfold sames. rewrite map_map. f_equal. apply map_ext. by intros []. Qed.
Lemma separated_swap segs : separated segs → separated (map swap segs).
Proof.
  induction segs as [|[t|d i] segs IH]; cbn [separated map swap]; [done|done|].
  intros (H1 & H2 & H3). split_and!; [tauto| |auto]. by destruct segs as [|[]].
Qed.

Lemma chosen_none segs : chosen [] segs = olds segs.
Proof.
  unfold olds. induction segs as [|[t|d i] segs IH]; cbn [chosen map concat old_part];
    [done|by rewrite IH|by rewrite IH].
Qed.
Fixpoint changes (segs : list Segment) : nat :=
  match segs with [] => 0 | Same _ :: rest => changes rest | Changed _ _ :: rest => S (changes rest) end.
Lemma chosen_all n segs : (changes segs ≤ n)%nat → chosen (repeat true n) segs = news segs.
Proof.
  unfold news. revert n. induction segs as [|[t|d i] segs IH]; intros n Hn;
    cbn [changes chosen map concat new_part] in *; [done|by rewrite IH|].
  destruct n as [|n]; [lia|]. cbn [repeat]. by rewrite IH by lia.
Qed.

Lemma edits_length n segs : length (edits n segs) = changes segs.
Proof. revert n. induction segs as [|[]]; intros n; cbn [edits changes length]; auto. Qed.

Lemma pick_all {A} (l : list A) : pick (repeat true (length l)) l = l.
Proof. induction l as [|x l IH]; [done|]. cbn [length repeat pick]. by rewrite IH. Qed.
Lemma pick_map {A B} (f : A → B) flags l : pick flags (map f l) = map f (pick flags l).
Proof.
  revert l. induction flags as [|[] flags IH]; intros [|x l]; cbn [pick map]; [done..| |done|];
    by rewrite IH.
Qed.
Lemma pick_filter {A} (f : A → bool) (l : list A) : pick (map f l) l = List.filter f l.
Proof. induction l as [|x l IH]; [done|]. cbn [map pick List.filter]. by rewrite IH. Qed.

(** ** Patching a choice of changes, last first *)

Lemma chosen_sames flags segs : chosen flags segs = [] → sames segs = [].
Proof.
  unfold sames. revert flags. induction segs as [|[t|d i] segs IH]; intros flags H;
    cbn [chosen map concat same_part app] in *; [done|done|].
  destruct flags as [|b flags]; apply app_eq_nil in H as [_ H]; by eapply IH.
Qed.

Lemma chosen_Forall (P : str → Prop) flags segs :
  Forall P (olds segs) → Forall P (news segs) → Forall P (chosen flags segs).
Proof.
  unfold olds, news. revert flags. induction segs as [|[t|d i] segs IH]; intros flags Ho Hn;
    cbn [chosen map concat old_part new_part app] in *; [done| |].
  - apply Forall_cons in Ho as [Ht Ho]. apply Forall_cons in Hn as [_ Hn]. constructor; auto.
  - apply Forall_app in Ho as [Hd Ho]. apply Forall_app in Hn as [Hi Hn].
    destruct flags as [|[] flags]; apply Forall_app_2; auto.
Qed.

Lemma singleton_app {A} (x : A) (l1 l2 : list A) y :
  l1 ++ y :: l2 = [x] → l1 = [] ∧ y = x ∧ l2 = [].
Proof.
  intros H. pose proof (f_equal length H) as Hl. rewrite length_app in Hl. cbn [length] in Hl.
  destruct l1; [|cbn [length] in Hl; lia]. cbn [app] in H. by simplify_eq.
Qed.

Lemma apply_edits_chosen segs : ∀ flags pre,
  Forall line_token (pre ++ olds segs) → Forall line_token (news segs) → separated segs →
  pre ++ olds segs ≠ [] → pre ++ sames segs ≠ [[NL]] → pre ++ chosen flags segs ≠ [[NL]] →
  (Z.of_nat (length (pre ++ olds segs)) ≤ U64_MAX)%Z →
  foldr apply_edit (concat (pre ++ olds segs)) (pick flags (edits (S (length pre)) segs))
  = concat (pre ++ chosen flags segs).
Proof.
  induction segs as [|[t|d i] segs IH]; intros flags pre Ho Hn Hs Hne Hsame Hres Hb.
  - by destruct flags.
  - change (olds (Same t :: segs)) with (t :: olds segs) in *.
    change (sames (Same t :: segs)) with (t :: sames segs) in *.
    change (news (Same t :: segs)) with (t :: news segs) in *.
    cbn [chosen edits] in *. apply Forall_cons in Hn as [_ Hn].
    assert (Hm : ∀ X, pre ++ t :: X = (pre ++ [t]) ++ X) by (intros; by rewrite <- app_assoc).
    rewrite Hm in Ho, Hne, Hsame, Hres, Hb. rewrite (Hm (olds segs)), (Hm (chosen flags segs)).
    rewrite <- (IH flags (pre ++ [t]) Ho Hn Hs Hne Hsame Hres Hb).
    rewrite length_app, Nat.add_1_r. reflexivity.
  - change (olds (Changed d i :: segs)) with (d ++ olds segs) in *.
    change (sames (Changed d i :: segs)) with (sames segs) in *.
    change (news (Changed d i :: segs)) with (i ++ news segs) in *.
    apply Forall_app in Hn as [Hi Hn]. destruct Hs as (Hnonempty & Hnext & Hs).
    destruct flags as [|b flags]; [cbn [chosen pick foldr]; by rewrite chosen_none|].
    assert (Hinner : foldr apply_edit (concat (pre ++ d ++ olds segs))
                       (pick flags (edits (S (length pre) + length d) segs))
                     = concat (pre ++ d ++ chosen flags segs)).
    { destruct segs as [|[t|] segs]; [by destruct flags| |done].
      rewrite !app_assoc in *.
      replace (S (length pre) + length d)%nat with (S (length (pre ++ d)))
        by (rewrite length_app; lia).
      apply IH; try assumption.
      - change (sames (Same t :: segs)) with (t :: sames segs) in *.
        intros [Hpd [Ht Hr]]%singleton_app. apply app_eq_nil in Hpd as [-> ->].
        apply Hsame. by rewrite Ht, Hr.
      - change (sames (Same t :: segs)) with (t :: sames segs) in *. cbn [chosen].
        intros [Hpd [Ht Hr]]%singleton_app. apply app_eq_nil in Hpd as [-> ->].
        apply Hsame. by rewrite Ht, (chosen_sames _ _ Hr). }
    cbn [edits pick chosen] in *. destruct b; [|exact Hinner].
    cbn [foldr]. rewrite Hinner. unfold apply_edit. cbn [fst snd].
    apply Forall_app in Ho as [Hpre [Hd Ho]%Forall_app].
    apply patch_lines_tokens; [|assumption| |assumption|].
    + apply Forall_app_2; [done|]. apply Forall_app_2; [done|]. by apply chosen_Forall.
    + left. intros E. apply app_eq_nil in E as [-> [-> Hc]%app_eq_nil].
      destruct segs as [|[t|] segs]; done.
    + rewrite !length_app in *. lia.
Qed.

(** ** Patching any choice of changes

    The text [t] is [full] but for the last line feeds that [patch_lines] lost. *)
Definition short_of (t full : str) : Prop := ∃ k, (k ≤ 2)%nat ∧ full = t ++ repeat NL k.

Lemma short_of_refl t : short_of t t.
Proof. exists 0%nat. split; [lia|]. by rewrite app_nil_r. Qed.

Lemma concat_lone (ts : list str) : Forall line_token ts → concat ts = [NL] → ts = [[NL]].
Proof.
  intros (ls & Hl & ->)%tokens_lines E. destruct ls as [|[|x l] ls]; [done| |].
  - cbn in E. destruct ls as [|[|y l'] ls]; [done|discriminate E|discriminate E].
  - cbn in E. injection E as _ E. destruct l; discriminate E.
Qed.

Lemma apply_edits_short segs : ∀ flags pre,
  Forall line_token (pre ++ olds segs) → Forall line_token (news segs) → separated segs →
  (Z.of_nat (length (pre ++ olds segs)) ≤ U64_MAX)%Z →
  let got := foldr apply_edit (concat (pre ++ olds segs))
               (pick flags (edits (S (length pre)) segs)) in
  let full := concat (pre ++ chosen flags segs) in
  got = full ∨ (got = [] ∧ full = [NL])
  ∨ (pre = [] ∧ (∃ d i rest, segs = Changed d i :: rest) ∧ short_of got full).
Proof.
  induction segs as [|[t|d i] segs IH]; intros flags pre Ho Hn Hs Hb.
  - left. by destruct flags.
  - change (olds (Same t :: segs)) with (t :: olds segs) in *.
    change (news (Same t :: segs)) with (t :: news segs) in *.
    cbn [chosen edits] in *. apply Forall_cons in Hn as [_ Hn].
    assert (Hm : ∀ X, pre ++ t :: X = (pre ++ [t]) ++ X) by (intros; by rewrite <- app_assoc).
    rewrite Hm in Ho, Hb. rewrite (Hm (olds segs)), (Hm (chosen flags segs)).
    pose proof (IH flags (pre ++ [t]) Ho Hn Hs Hb) as H. rewrite length_app, Nat.add_1_r in H.
    destruct H as [H|[H|(H & _)]]; [by left|by right; left|by destruct pre].
  - change (olds (Changed d i :: segs)) with (d ++ olds segs) in *.
    change (news (Changed d i :: segs)) with (i ++ news segs) in *.
    apply Forall_app in Hn as [Hi Hn]. destruct Hs as (Hnonempty & Hnext & Hs).
    destruct flags as [|b flags]; [left; cbn [chosen pick foldr]; by rewrite chosen_none|].
    cbn [edits pick chosen].
    change (S (length pre) + length d)%nat with (S (length pre + length d)).
    rewrite app_assoc in Ho, Hb.
    assert (Hc : Forall line_token ((pre ++ d) ++ chosen flags segs)).
    { apply Forall_app in Ho as [Hpd Ho]. apply Forall_app_2; [done|]. by apply chosen_Forall. }
    pose proof (IH flags (pre ++ d) Ho Hn Hs Hb) as Hinner. cbv zeta in Hinner.
    rewrite length_app, <- !app_assoc in Hinner. rewrite !length_app in Hb. rewrite <- !app_assoc in Hc.
    destruct Hinner as [E|[[E El]|(_ & (d' & i' & r & ->) & _)]]; [| |by destruct Hnext];
      destruct b; cbn [foldr]; [|left; exact E| |right; left; split; [exact E|exact El]].
    + rewrite E. unfold apply_edit. cbn [fst snd].
      destruct (decide (pre ++ d ++ chosen flags segs = [])) as [Hnil|Hnil].
      { rewrite Hnil. apply app_eq_nil in Hnil as [-> [-> Hch]%app_eq_nil]. right; right.
        split; [done|]. split; [by eexists _, _, _|]. exists 1%nat. split; [lia|].
        rewrite Hch. cbn [app concat length repeat]. rewrite app_nil_r. symmetry.
        apply patch_lines_empty; [done|].
        by destruct Hnonempty. }
      destruct (decide (pre ++ i ++ chosen flags segs = [[NL]])) as [Hone|Hone].
      * right; left. rewrite Hone. split; [|done]. apply patch_lines_lone; [done..|].
        rewrite length_app. lia.
      * left. apply patch_lines_tokens; [done..|by left|done|]. rewrite length_app. lia.
    + apply (concat_lone _ Hc) in El.
      assert (pre = [] ∧ d = [] ∧ chosen flags segs = [[NL]]) as (-> & -> & Hch).
      { destruct segs as [|[t|] segs]; [|cbn [chosen] in *|done].
        - exfalso. cbn [chosen edits] in *.
          change (olds []) with (@nil str) in E. rewrite El in E. by destruct flags.
        - rewrite app_assoc in El. apply singleton_app in El as (Hpd & -> & ->).
          by apply app_eq_nil in Hpd as [-> ->]. }
      right; right. split; [done|]. split; [by eexists _, _, _|]. exists 2%nat. split; [lia|].
      cbn [app] in E |- *. rewrite E, Hch. unfold apply_edit. cbn [fst snd length].
      rewrite concat_app. cbn [concat app repeat].
      rewrite <- (patch_lines_empty i) at 1; [|done|by destruct Hnonempty].
      by rewrite <- app_assoc.
Qed.

(** ** The hunks of a diff are its changes *)

Definition old_side (cs : list Change) : list str :=
  concat (map (λ c, match c with Equal v | Delete v => [v] | Insert _ => [] end) cs).
Definition new_side (cs : list Change) : list str :=
  concat (map (λ c, match c with Equal v | Insert v => [v] | Delete _ => [] end) cs).
Definition common_side (cs : list Change) : list str :=
  concat (map (λ c, match c with Equal v => [v] | _ => [] end) cs).

Definition flush (cur : option (list str * list str)) : list Segment :=
  match cur with Some (d, i) => [Changed d i] | None => [] end.
Fixpoint segments (cs : list Change) (cur : option (list str * list str)) : list Segment :=
  match cs with
  | [] => flush cur
  | Equal v :: rest => flush cur ++ Same v :: segments rest None
  | Delete v :: rest =>
      let '(d, i) := default ([], []) cur in segments rest (Some (d ++ [v], i))
  | Insert v :: rest =>
      let '(d, i) := default ([], []) cur in segments rest (Some (d, i ++ [v]))
  end.

(** What a hunk says of the texts: positions and lines. *)
Abbreviation body := (HunkLineInfo * option (list Z) * list Z)%type (only parsing).
Definition hunk_body (h : Hunk) : body := (line_info h, old_text h, new_text h).
Definition change_body (o n : nat) (d i : list str) : body :=
  ({| old_start := Z.of_nat o; old_count := Z.of_nat (length d);
      new_start := Z.of_nat n; new_count := Z.of_nat (length i) |},
   if is_empty d then None else Some (concat d), concat i).
Definition builder_body (b : HunkBuilder) : body :=
  change_body (b_old_start b) (b_new_start b) (old_lines b) (new_lines b).
Fixpoint bodies (o n : nat) (segs : list Segment) : list body :=
  match segs with
  | [] => []
  | Same _ :: rest => bodies (S o) (S n) rest
  | Changed d i :: rest => change_body o n d i :: bodies (o + length d) (n + length i) rest
  end.

Lemma build_body p s id now b : hunk_body (build p s id now b) = builder_body b.
Proof. reflexivity. Qed.

Lemma change_loop_bodies cs : ∀ o n,
  map builder_body (change_loop cs o n None) = bodies o n (segments cs None)
  ∧ ∀ o' n' d i, o = (o' + length d)%nat → n = (n' + length i)%nat →
      map builder_body (change_loop cs o n
        (Some {| b_old_start := o'; b_new_start := n'; old_lines := d; new_lines := i |}))
      = bodies o' n' (segments cs (Some (d, i))).
Proof.
  induction cs as [|[v|v|v] cs IH]; intros o n; cbn [change_loop segments default from_option].
  - split; [done|]. intros; cbn. reflexivity.
  - split; [apply IH|]. intros o' n' d i -> ->.
    cbn [flush finish app map bodies]. f_equal. rewrite <- !Nat.add_succ_r.
    rewrite !Nat.add_succ_r. apply IH.
  - split.
    + apply (IH (S o) n); cbn; lia.
    + intros o' n' d i -> ->. apply IH; rewrite ?length_app; cbn [length]; lia.
  - split.
    + apply (IH o (S n)); cbn; lia.
    + intros o' n' d i -> ->. apply IH; rewrite ?length_app; cbn [length]; lia.
Qed.

Lemma segments_sides cs : ∀ cur,
  olds (segments cs cur) = (default ([], []) cur).1 ++ old_side cs
  ∧ news (segments cs cur) = (default ([], []) cur).2 ++ new_side cs
  ∧ sames (segments cs cur) = common_side cs.
Proof.
  unfold olds, news, sames, old_side, new_side, common_side.
  induction cs as [|[v|v|v] cs IH]; intros cur.
  - destruct cur as [[d i]|]; by cbn.
  - destruct (IH None) as (E1 & E2 & E3). cbn [segments]. rewrite !map_app, !concat_app.
    cbn [map concat old_part new_part same_part]. rewrite E1, E2, E3.
    destruct cur as [[d i]|]; cbn; by rewrite ?app_nil_r.
  - cbn [segments map concat]. destruct (default ([], []) cur) as [d i] eqn:E.
    destruct (IH (Some (d ++ [v], i))) as (E1 & E2 & E3). rewrite E1, E2, E3. cbn [default fst snd].
    cbn. by rewrite <- app_assoc.
  - cbn [segments map concat]. destruct (default ([], []) cur) as [d i] eqn:E.
    destruct (IH (Some (d, i ++ [v]))) as (E1 & E2 & E3). rewrite E1, E2, E3. cbn [default fst snd].
    cbn. by rewrite <- app_assoc.
Qed.

Lemma segments_separated cs : ∀ cur,
  match cur with Some (d, i) => d ≠ [] ∨ i ≠ [] | None => True end →
  separated (segments cs cur).
Proof.
  induction cs as [|[v|v|v] cs IH]; intros cur Hc; cbn [segments].
  - destruct cur as [[d i]|]; cbn; tauto.
  - destruct cur as [[d i]|]; cbn [flush app separated]; [split_and!|]; auto; by apply IH.
  - destruct cur as [[d i]|]; apply IH; left; [|done]. by destruct d.
  - destruct cur as [[d i]|]; apply IH; right; [|done]. by destruct i.
Qed.

(** ** Sorting *)

Lemma insert_by_key_last {A} (key : A → Z) x l :
  Forall (λ y, (key y < key x)%Z) l → insert_by (λ a b, key a <=? key b)%Z x l = l ++ [x].
Proof.
  induction 1 as [|y l Hy Hl IH]; [done|]. cbn [insert_by app].
  destruct (Z.leb_spec (key x) (key y)); [lia|]. by rewrite IH.
Qed.

(** Sorting ascending hunks by descending position reverses them. *)
Lemma sort_descending {A} (key : A → Z) l :
  StronglySorted (λ a b, (key a < key b)%Z) l → sort_by_key (λ x, - key x)%Z l = reverse l.
Proof.
  unfold sort_by_key, sort_by. induction 1 as [|x l Hs IH Hx]; [done|]. cbn [foldr].
  rewrite IH, reverse_cons. apply insert_by_key_last, Forall_reverse.
  eapply Forall_impl; [exact Hx|]. cbn. lia.
Qed.

Lemma pick_sorted {A} (R : A → A → Prop) flags l :
  StronglySorted R l → StronglySorted R (pick flags l).
Proof.
  intros H. revert flags. induction H as [|x l Hs IH Hx]; intros [|[] flags]; cbn [pick];
    try constructor; auto.
  clear -Hx. revert flags. induction Hx as [|y l Hy Hx IH]; intros [|[] flags]; cbn [pick]; auto.
Qed.

Lemma bodies_from segs : ∀ o n,
  Forall (λ b, (Z.of_nat o ≤ old_start b.1.1)%Z ∧ (Z.of_nat n ≤ new_start b.1.1)%Z)
    (bodies o n segs).
Proof.
  induction segs as [|[t|d i] segs IH]; intros o n; cbn [bodies]; [constructor| |constructor].
  - eapply Forall_impl; [exact (IH (S o) (S n))|]. cbn. lia.
  - cbn. lia.
  - eapply Forall_impl; [exact (IH (o + length d)%nat (n + length i)%nat)|]. cbn. lia.
Qed.

Lemma bodies_sorted segs : ∀ o n,
  separated segs →
  StronglySorted (λ a b, (old_start a.1.1 < old_start b.1.1)%Z
                         ∧ (new_start a.1.1 < new_start b.1.1)%Z) (bodies o n segs).
Proof.
  induction segs as [|[t|d i] segs IH]; intros o n Hs; cbn [bodies separated] in *;
    [constructor|auto|].
  destruct Hs as (_ & Hnext & Hs). constructor; [by apply IH|].
  destruct segs as [|[t|] segs]; [constructor| |done]. cbn [bodies].
  eapply Forall_impl; [apply bodies_from|]. cbn. lia.
Qed.

(** ** Accepting and rejecting a choice of hunks *)

Definition accept_edit (h : Hunk) : edit :=
  (old_start (line_info h), old_count (line_info h), new_text h).
Definition reject_edit (h : Hunk) : edit :=
  (new_start (line_info h), new_count (line_info h), default [] (old_text h)).

Definition body_accept (b : body) : edit := (old_start b.1.1, old_count b.1.1, b.2).
Definition body_reject (b : body) : edit := (new_start b.1.1, new_count b.1.1, default [] b.1.2).

Lemma bodies_edits segs : ∀ o n,
  map body_accept (bodies o n segs) = edits o segs
  ∧ map body_reject (bodies o n segs) = edits n (map swap segs).
Proof.
  induction segs as [|[t|d i] segs IH]; intros o n; cbn [bodies edits map swap]; [done|apply IH|].
  destruct (IH (o + length d)%nat (n + length i)%nat) as [-> ->].
  split; [done|]. f_equal. unfold body_reject, change_body. cbn. by destruct d.
Qed.

(** The hunks [hs] are those of the changes [cs]. *)
Definition hunks_of (cs : list Change) (hs : list Hunk) : Prop :=
  map hunk_body hs = map builder_body (change_loop cs 1 1 None).

(** [cs] is a diff of LF texts, line by line. *)
Record line_diff (cs : list Change) (old new : str) : Prop := {
  diff_old : old_side cs = split_inclusive old;
  diff_new : new_side cs = split_inclusive new;
}.

Definition fold_edits (f : Hunk → edit) (text : str) (hs : list Hunk) : str :=
  foldl (λ c h, apply_edit (f h) c) text hs.

Lemma hunks_of_edits cs hs :
  hunks_of cs hs →
  map accept_edit hs = edits 1 (segments cs None)
  ∧ map reject_edit hs = edits 1 (map swap (segments cs None))
  ∧ StronglySorted (λ a b, (old_start (line_info a) < old_start (line_info b))%Z) hs
  ∧ StronglySorted (λ a b, (new_start (line_info a) < new_start (line_info b))%Z) hs.
Proof.
  unfold hunks_of. rewrite (proj1 (change_loop_bodies cs 1 1)). intros Hb.
  pose proof (bodies_edits (segments cs None) 1 1) as [E1 E2].
  pose proof (bodies_sorted (segments cs None) 1 1 (segments_separated cs None I)) as Hs.
  rewrite <- Hb in E1, E2, Hs. rewrite map_map in E1, E2. split_and!; [done|done| |];
    clear -Hs; induction hs as [|h hs IH]; cbn [map] in Hs; try constructor;
    apply StronglySorted_inv in Hs as [Hs Hx]; auto;
    rewrite Forall_map in Hx; eapply Forall_impl; try exact Hx; cbn; tauto.
Qed.

Lemma fold_edits_reverse f text hs : fold_edits f text (reverse hs) = foldr apply_edit text (map f hs).
Proof.
  unfold fold_edits. rewrite foldl_reverse_foldr. induction hs as [|h hs IH]; [done|].
  cbn [foldr map]. by rewrite <- IH.
Qed.

Lemma lf_tokens s : lf_text s → Forall line_token (split_inclusive s).
Proof.
  intros (ls & Hls & ->)%lf_text_lines. rewrite split_lf by done.
  apply Forall_map. eapply Forall_impl; [exact Hls|]. intros l Hl. by exists l.
Qed.

Lemma concat_token_nl (ts : list str) :
  Forall line_token ts → concat ts ≠ [NL] → ts ≠ [[NL]].
Proof. intros _ H ->. by apply H. Qed.

(** The text in which the changes of the flagged hunks are made. *)
Definition text_with (flags : list bool) (cs : list Change) : str :=
  concat (chosen flags (segments cs None)).
Definition text_without (flags : list bool) (cs : list Change) : str :=
  concat (chosen flags (map swap (segments cs None))).

Section lf_texts.
Context (cs : list Change) (old new : str) (hs : list Hunk).
Hypothesis Hold : lf_text old.
Hypothesis Hnew : lf_text new.
Hypothesis Hdiff : line_diff cs old new.
Hypothesis Hhs : hunks_of cs hs.

(** Any choice of hunks, in any LF text: the text with their changes made, or
    undone, up to line feeds lost at its end *)
Lemma fold_accept_short flags :
  (Z.of_nat (length (split_inclusive old)) ≤ U64_MAX)%Z →
  short_of (fold_edits accept_edit old
              (sort_by_key (λ h, - old_start (line_info h))%Z (pick flags hs))) (text_with flags cs).
Proof.
  intros Hb. destruct (hunks_of_edits cs hs Hhs) as (E & _ & Hs & _).
  destruct (segments_sides cs None) as (Eo & En & _). cbn in Eo, En.
  rewrite (diff_old _ _ _ Hdiff) in Eo. rewrite (diff_new _ _ _ Hdiff) in En.
  rewrite (sort_descending (λ h, old_start (line_info h))) by by apply pick_sorted.
  rewrite fold_edits_reverse, <- pick_map, E.
  rewrite <- (split_inclusive_concat old), <- Eo.
  destruct (apply_edits_short (segments cs None) flags []) as [H|[[H1 H2]|(_ & _ & H)]]; cbn [app length] in *.
  - rewrite Eo. by apply lf_tokens.
  - rewrite En. by apply lf_tokens.
  - by apply segments_separated.
  - by rewrite Eo.
  - rewrite H. apply short_of_refl.
  - rewrite H1. exists 1%nat. split; [lia|exact H2].
  - exact H.
Qed.
Lemma fold_reject_short flags :
  (Z.of_nat (length (split_inclusive new)) ≤ U64_MAX)%Z →
  short_of (fold_edits reject_edit new
              (sort_by_key (λ h, - new_start (line_info h))%Z (pick flags hs))) (text_without flags cs).
Proof.
  intros Hb. destruct (hunks_of_edits cs hs Hhs) as (_ & E & _ & Hs).
  destruct (segments_sides cs None) as (Eo & En & _). cbn in Eo, En.
  rewrite (diff_old _ _ _ Hdiff), <- news_swap in Eo.
  rewrite (diff_new _ _ _ Hdiff), <- olds_swap in En.
  rewrite (sort_descending (λ h, new_start (line_info h))) by by apply pick_sorted.
  rewrite fold_edits_reverse, <- pick_map, E.
  rewrite <- (split_inclusive_concat new), <- En.
  destruct (apply_edits_short (map swap (segments cs None)) flags [])
    as [H|[[H1 H2]|(_ & _ & H)]]; cbn [app length] in *.
  - rewrite En. by apply lf_tokens.
  - rewrite Eo. by apply lf_tokens.
  - by apply separated_swap, segments_separated.
  - by rewrite En.
  - rewrite H. apply short_of_refl.
  - rewrite H1. exists 1%nat. split; [lia|exact H2].
  - exact H.
Qed.

(** The text exactly, when no step leaves a lone line feed *)
Hypothesis Hcommon : common_side cs ≠ [[NL]].

Lemma fold_accept flags :
  old ≠ [] → chosen flags (segments cs None) ≠ [[NL]] →
  (Z.of_nat (length (split_inclusive old)) ≤ U64_MAX)%Z →
  fold_edits accept_edit old
    (sort_by_key (λ h, - old_start (line_info h))%Z (pick flags hs)) = text_with flags cs.
Proof.
  intros Hne Hres Hb. destruct (hunks_of_edits cs hs Hhs) as (E & _ & Hs & _).
  destruct (segments_sides cs None) as (Eo & En & Es). cbn in Eo, En.
  rewrite (diff_old _ _ _ Hdiff) in Eo. rewrite (diff_new _ _ _ Hdiff) in En.
  rewrite (sort_descending (λ h, old_start (line_info h))) by by apply pick_sorted.
  rewrite fold_edits_reverse, <- pick_map, E.
  rewrite <- (split_inclusive_concat old), <- Eo.
  apply (apply_edits_chosen (segments cs None) flags []); cbn [app].
  - rewrite Eo. by apply lf_tokens.
  - rewrite En. by apply lf_tokens.
  - by apply segments_separated.
  - rewrite Eo. intros H. by apply Hne; rewrite <- (split_inclusive_concat old), H.
  - by rewrite Es.
  - done.
  - by rewrite Eo.
Qed.

Lemma fold_reject flags :
  new ≠ [] → chosen flags (map swap (segments cs None)) ≠ [[NL]] →
  (Z.of_nat (length (split_inclusive new)) ≤ U64_MAX)%Z →
  fold_edits reject_edit new
    (sort_by_key (λ h, - new_start (line_info h))%Z (pick flags hs)) = text_without flags cs.
Proof.
  intros Hne Hres Hb. destruct (hunks_of_edits cs hs Hhs) as (_ & E & _ & Hs).
  destruct (segments_sides cs None) as (Eo & En & Es). cbn in Eo, En.
  rewrite (diff_old _ _ _ Hdiff), <- news_swap in Eo.
  rewrite (diff_new _ _ _ Hdiff), <- olds_swap in En.
  rewrite (sort_descending (λ h, new_start (line_info h))) by by apply pick_sorted.
  rewrite fold_edits_reverse, <- pick_map, E.
  rewrite <- (split_inclusive_concat new), <- En.
  apply (apply_edits_chosen (map swap (segments cs None)) flags []); cbn [app].
  - rewrite En. by apply lf_tokens.
  - rewrite Eo. by apply lf_tokens.
  - by apply separated_swap, segments_separated.
  - rewrite En. intros H. by apply Hne; rewrite <- (split_inclusive_concat new), H.
  - by rewrite sames_swap, Es.
  - done.
  - by rewrite En.
Qed.

End lf_texts.
