(* ===== verification/HunkWorld.v ===== *)
(** * Hunk tracker: the world, file contents and git

    What the actor asks of its surroundings is the class [TrackerEnv]: the disk
    through tokio, the repository through gix, the diff of [similar], fresh
    identifiers, and the iteration order of hash maps.  An operation may change
    the world in any way, since other processes run between two of them.  On it,
    the monad of the actor's handlers, [actor/file_utils.rs], and the reading
    part of [actor/git.rs]. *)
From S2P Require Import Prelude RustStr StrSearch HunkTypes HunkDiff.

(** ** The environment *)

(** An entry of a git tree: whether it is a link, and its blob when it has one. *)
Record GitEntry : Type := { is_link : bool; blob : option bytes }.

Class TrackerEnv : Type := {
  World : Type;
  IoError : Type;
  (** [tokio::fs] and [std::path]; metadata is whether it is a link, and its length *)
  symlink_metadata : path → World → option (bool * Z) * World;
  open_file : path → World → bool * World;
  read_prefix : path → Z → World → option bytes * World;
  read_to_end : path → Z → World → option bytes * World;
  fs_write : path → str → World → result unit IoError * World;
  fs_remove : path → World → result unit IoError * World;
  path_exists : path → World → bool * World;
  is_dir : path → World → bool * World;
  canonicalize : path → World → option path * World;
  (** gix *)
  Repo : Type;
  discover : path → World → option Repo * World;
  workdir : Repo → option path;
  head_tree : Repo → World → option (path → option GitEntry) * World;
  head_commit_id : Repo → World → option str * World;
  (** length and modification time of the index file *)
  index_metadata : Repo → World → option (Z * option Z) * World;
  (** the locations under the given paths, and whether each is staged *)
  git_status : Repo → list path → World → option (list (path * bool)) * World;
  (** [spawn_blocking]: the task is cancelled or panics *)
  task_fails : World → bool * World;
  (** [similar]: the changes of a line diff, and whether it reached its deadline *)
  diff_lines : str → str → list Change;
  diff_times_out : str → str → World → bool * World;
  (** the n-th identifier and time drawn *)
  uuid : nat → HunkId;
  now : nat → Z;
  (** the order in which a hash map or set is iterated *)
  map_order : ∀ {A : Type}, World → gmap path A → list (path * A);
  path_order : World → gset path → list path;
  id_order : World → gset HunkId → list HunkId;
  prompt_order : ∀ {A : Type}, World → gmap Z A → list (Z * A);
}.

(** Documented behaviour: identifiers are unique, iteration visits every entry
    once, and a diff's old and new lines are those of its texts. *)
Class LawfulTrackerEnv `{TrackerEnv} : Prop := {
  #[global] uuid_inj :: Inj (=) (=) uuid;
  map_order_perm {A} w (m : gmap path A) : map_order w m ≡ₚ map_to_list m;
  path_order_perm w s : path_order w s ≡ₚ elements s;
  id_order_perm w s : id_order w s ≡ₚ elements s;
  prompt_order_perm {A} w (m : gmap Z A) : prompt_order w m ≡ₚ map_to_list m;
}.

(** ** The actor's state *)

Inductive GitRepoState `{TrackerEnv} : Type :=
| UnknownRepo
| NotARepo
| Discovered (repo : Repo) (prefix : path).
Record RepoSyncState : Type := { head_oid : option str; index_mtime : option Z }.
#[global] Instance RepoSyncState_eq_dec : EqDecision RepoSyncState.
Proof. solve_decision. Defined.

Section world.
Context `{TrackerEnv}.

Record HunkTrackerActor : Type := {
  working_dir : path;
  file_states : gmap path FileHunkState;
  turn_index : gmap Z (gset HunkId);
  git_dirty_cache : gset path;
  git_staged_cache : gset path;
  git_repo_state : GitRepoState;
  repo_sync_state : RepoSyncState;
  mode : TrackingMode;
  session_stats : SessionStats;
}.

Definition HunkTrackerActor_new (wd : path) (m : TrackingMode) : HunkTrackerActor :=
  {| working_dir := wd; file_states := ∅; turn_index := ∅; git_dirty_cache := ∅;
     git_staged_cache := ∅; git_repo_state := UnknownRepo;
     repo_sync_state := {| head_oid := None; index_mtime := None |};
     mode := m; session_stats := SessionStats_default |}.

(** A change the actor made on disk. *)
Inductive DiskOp : Type := Wrote (p : path) (content : str) | Removed (p : path).

(** The actor, the world, how many identifiers were drawn, the events sent and
    the changes made on disk so far. *)
Record Sys : Type := {
  actor : HunkTrackerActor;
  world : World;
  drawn : nat;
  sent : list HunkEvent;
  disk_log : list DiskOp;
}.

Definition set_files (m : gmap path FileHunkState) (a : HunkTrackerActor) : HunkTrackerActor :=
  {| working_dir := working_dir a; file_states := m; turn_index := turn_index a;
     git_dirty_cache := git_dirty_cache a; git_staged_cache := git_staged_cache a;
     git_repo_state := git_repo_state a; repo_sync_state := repo_sync_state a;
     mode := mode a; session_stats := session_stats a |}.
Definition set_turns (m : gmap Z (gset HunkId)) (a : HunkTrackerActor) : HunkTrackerActor :=
  {| working_dir := working_dir a; file_states := file_states a; turn_index := m;
     git_dirty_cache := git_dirty_cache a; git_staged_cache := git_staged_cache a;
     git_repo_state := git_repo_state a; repo_sync_state := repo_sync_state a;
     mode := mode a; session_stats := session_stats a |}.
Definition set_caches (d s : gset path) (a : HunkTrackerActor) : HunkTrackerActor :=
  {| working_dir := working_dir a; file_states := file_states a; turn_index := turn_index a;
     git_dirty_cache := d; git_staged_cache := s;
     git_repo_state := git_repo_state a; repo_sync_state := repo_sync_state a;
     mode := mode a; session_stats := session_stats a |}.
Definition set_repo (r : GitRepoState) (a : HunkTrackerActor) : HunkTrackerActor :=
  {| working_dir := working_dir a; file_states := file_states a; turn_index := turn_index a;
     git_dirty_cache := git_dirty_cache a; git_staged_cache := git_staged_cache a;
     git_repo_state := r; repo_sync_state := repo_sync_state a;
     mode := mode a; session_stats := session_stats a |}.
Definition set_sync (r : RepoSyncState) (a : HunkTrackerActor) : HunkTrackerActor :=
  {| working_dir := working_dir a; file_states := file_states a; turn_index := turn_index a;
     git_dirty_cache := git_dirty_cache a; git_staged_cache := git_staged_cache a;
     git_repo_state := git_repo_state a; repo_sync_state := r;
     mode := mode a; session_stats := session_stats a |}.
Definition set_tracking (m : TrackingMode) (a : HunkTrackerActor) : HunkTrackerActor :=
  {| working_dir := working_dir a; file_states := file_states a; turn_index := turn_index a;
     git_dirty_cache := git_dirty_cache a; git_staged_cache := git_staged_cache a;
     git_repo_state := git_repo_state a; repo_sync_state := repo_sync_state a;
     mode := m; session_stats := session_stats a |}.
Definition set_stats (x : SessionStats) (a : HunkTrackerActor) : HunkTrackerActor :=
  {| working_dir := working_dir a; file_states := file_states a; turn_index := turn_index a;
     git_dirty_cache := git_dirty_cache a; git_staged_cache := git_staged_cache a;
     git_repo_state := git_repo_state a; repo_sync_state := repo_sync_state a;
     mode := mode a; session_stats := x |}.

(** ** The monad of handlers *)

Definition M (A : Type) : Type := Sys → A * Sys.
#[global] Instance M_ret : MRet M := λ A a s, (a, s).
#[global] Instance M_bind : MBind M := λ A B k m s, let '(a, s') := m s in k a s'.

Definition get_actor : M HunkTrackerActor := λ s, (actor s, s).
Definition get_file (p : path) : M (option FileHunkState) := λ s, (file_states (actor s) !! p, s).
Definition modify (f : HunkTrackerActor → HunkTrackerActor) : M unit :=
  λ s, (tt, {| actor := f (actor s); world := world s; drawn := drawn s; sent := sent s;
               disk_log := disk_log s |}).
Definition insert_file (p : path) (st : FileHunkState) : M unit :=
  modify (λ a, set_files (<[p := st]> (file_states a)) a).
Definition update_file (p : path) (f : FileHunkState → FileHunkState) : M unit :=
  modify (λ a, set_files (alter f p (file_states a)) a).
Definition remove_file_state (p : path) : M unit :=
  modify (λ a, set_files (delete p (file_states a)) a).
Definition send_event (e : HunkEvent) : M unit :=
  λ s, (tt, {| actor := actor s; world := world s; drawn := drawn s; sent := sent s ++ [e];
               disk_log := disk_log s |}).
Definition log_disk (op : DiskOp) : M unit :=
  λ s, (tt, {| actor := actor s; world := world s; drawn := drawn s; sent := sent s;
               disk_log := disk_log s ++ [op] |}).
(** [HunkId::new] and [Utc::now] *)
Definition draw : M (HunkId * Z) :=
  λ s, ((uuid (drawn s), now (drawn s)),
        {| actor := actor s; world := world s; drawn := S (drawn s); sent := sent s;
           disk_log := disk_log s |}).
Definition ask {A} (op : World → A * World) : M A :=
  λ s, let '(a, w) := op (world s) in
       (a, {| actor := actor s; world := w; drawn := drawn s; sent := sent s;
              disk_log := disk_log s |}).
Definition observe {A} (f : World → A) : M A := λ s, (f (world s), s).

Fixpoint mapM_ {A} (f : A → M unit) (l : list A) : M unit :=
  match l with [] => mret tt | x :: l' => f x ≫= λ _, mapM_ f l' end.
Fixpoint map_M {A B} (f : A → M B) (l : list A) : M (list B) :=
  match l with
  | [] => mret []
  | x :: l' => y ← f x; ys ← map_M f l'; mret (y :: ys)
  end.
Definition send_events (l : list HunkEvent) : M unit := mapM_ send_event l.

(** [spawn_blocking(..).await]: [None] when the task fails. *)
Definition blocking {A} (m : M A) : M (option A) :=
  fails ← ask task_fails;
  if (fails : bool) then mret None else a ← m; mret (Some a).

(** ** File contents *)

Definition LFS_POINTER_PREFIX : bytes :=
  as_bytes (lit "version https://git-lfs.github.com/spec/v1" ++ [NL]).
Definition is_lfs_pointer (bs : bytes) : bool :=
  (Z.of_nat (length bs) <? 1024)%Z && starts_with bs LFS_POINTER_PREFIX.
Definition is_binary (bs : bytes) : bool :=
  existsb (λ b, b =? 0)%Z (take 8000 bs).

(** [String::from_utf8] *)
Definition from_utf8 (bs : bytes) : option str :=
  let s := from_utf8_lossy bs in
  if bool_decide (as_bytes s = bs) then Some s else None.

Definition classify_bytes (bs : bytes) : FileContentState :=
  let n := Z.of_nat (length bs) in
  if (MAX_TRACKED_TEXT_BYTES <? n)%Z then TooLarge n
  else if is_lfs_pointer bs then LfsPointer n
  else if is_binary bs then Binary (Some n)
  else match from_utf8 bs with Some s => Full s | None => Binary (Some n) end.

Definition classify_string (s : str) : FileContentState :=
  let n := str_len s in
  if (MAX_TRACKED_TEXT_BYTES <? n)%Z then TooLarge n
  else if is_lfs_pointer (as_bytes s) then LfsPointer n
  else if is_binary (as_bytes s) then Binary (Some n)
  else Full s.

Definition read_file_bounded (p : path) : M FileContentState :=
  meta ← ask (symlink_metadata p);
  match meta with
  | None => mret Missing
  | Some (true, _) => mret Symlink
  | Some (false, n) =>
      if (MAX_TRACKED_TEXT_BYTES <? n)%Z then mret (TooLarge n) else
      opened ← ask (open_file p);
      if negb opened then mret Missing else
      let prefix_size := Z.min 8000 n in
      prefix ← ask (read_prefix p prefix_size);
      match prefix with
      | None => mret Missing
      | Some prefix =>
          if is_lfs_pointer prefix then mret (LfsPointer n)
          else if is_binary prefix then mret (Binary (Some n))
          else
            rest ← (if (prefix_size <? n)%Z
                    then ask (read_to_end p (Z.of_nat (length prefix)))
                    else mret (Some []));
            match rest with
            | None => mret Missing
            | Some rest =>
                mret match from_utf8 (prefix ++ rest) with
                     | Some s => Full s
                     | None => Binary (Some n)
                     end
            end
      end
  end.

(** ** Git *)

Definition path_parent (p : path) : option path :=
  match rev p with
  | [] => None
  | c :: r => if str_eqb c ROOT then None else Some (rev r)
  end.
Definition file_name (p : path) : option str :=
  match rev p with
  | [] => None
  | c :: _ => if str_eqb c ROOT || str_eqb c (lit "..") then None else Some c
  end.

Definition canonicalize_or (p fallback : path) : M path :=
  c ← ask (canonicalize p); mret (default fallback c).
Definition canonicalize_or_parent (p : path) : M path :=
  c ← ask (canonicalize p);
  match c with
  | Some c => mret c
  | None =>
      match path_parent p with
      | None => mret p
      | Some parent =>
          cp ← ask (canonicalize parent);
          mret match cp, file_name p with
               | Some cp, Some f => join_path cp [f]
               | _, _ => p
               end
      end
  end.

(** The repository, the prefix of the working directory in it, and the outcome
    of a discovery made now. *)
Abbreviation discovery := (option (option (Repo * path))) (only parsing).
Definition open_or_discover : M (option (Repo * path * discovery)) :=
  a ← get_actor;
  match git_repo_state a with
  | Discovered repo prefix => mret (Some (repo, prefix, None))
  | NotARepo => mret None
  | UnknownRepo =>
      found ← ask (discover (working_dir a));
      match found with
      | None => mret None
      | Some repo =>
          match workdir repo with
          | None => mret None
          | Some root =>
              wd ← canonicalize_or (working_dir a) (working_dir a);
              root ← canonicalize_or root root;
              mret match path_strip_prefix wd root with
                   | Some prefix => Some (repo, prefix, Some (Some (repo, prefix)))
                   | None => None
                   end
          end
      end
  end.
(** The discovery to record when [open_or_discover] fails. *)
Definition failed_discovery (a : HunkTrackerActor) : discovery :=
  match git_repo_state a with UnknownRepo => Some None | _ => None end.
Definition record_discovery (d : discovery) : M unit :=
  match d with
  | None => mret tt
  | Some (Some (repo, prefix)) => modify (set_repo (Discovered repo prefix))
  | Some None => modify (set_repo NotARepo)
  end.
Definition not_a_repo (a : HunkTrackerActor) : bool :=
  match git_repo_state a with NotARepo => true | _ => false end.

Definition entry_content (tree : path → option GitEntry) (p : path) : FileContentState :=
  match tree p with
  | None => Missing
  | Some e =>
      if is_link e then Symlink
      else match blob e with Some bs => classify_bytes bs | None => Missing end
  end.

Definition read_baseline (p : path) : M FileContentState :=
  a ← get_actor;
  if not_a_repo a then mret Missing else
  r ← blocking (
    o ← open_or_discover;
    match o with
    | None => mret (Missing, failed_discovery a)
    | Some (repo, prefix, d) =>
        abs ← canonicalize_or_parent p;
        wd ← canonicalize_or (working_dir a) (working_dir a);
        match path_strip_prefix abs wd with
        | None => mret (Missing, d)
        | Some rel =>
            tree ← ask (head_tree repo);
            mret (match tree with
                  | Some tree => entry_content tree (join_path prefix rel)
                  | None => Missing
                  end, d)
        end
    end);
  match r with
  | None => mret Missing
  | Some (content, d) => _ ← record_discovery d; mret content
  end.

Definition read_baselines_batch (paths : list path) : M (gmap path FileContentState) :=
  a ← get_actor;
  if is_empty paths || not_a_repo a then mret ∅ else
  r ← blocking (
    o ← open_or_discover;
    match o with
    | None => mret (map (λ p, (p, Missing)) paths, failed_discovery a)
    | Some (repo, prefix, d) =>
        wd ← canonicalize_or (working_dir a) (working_dir a);
        tree ← ask (head_tree repo);
        l ← map_M (λ p,
          match tree with
          | None => mret (p, Missing)
          | Some tree =>
              abs ← canonicalize_or_parent p;
              mret (p, match path_strip_prefix abs wd with
                       | Some rel => entry_content tree (join_path prefix rel)
                       | None => Missing
                       end)
          end) paths;
        mret (l, d)
    end);
  match r with
  | None => mret ∅
  | Some (l, d) => _ ← record_discovery d; mret (foldl (λ m e, <[e.1 := e.2]> m) ∅ l)
  end.

Definition read_repo_sync_state : M (option RepoSyncState) :=
  a ← get_actor;
  if not_a_repo a then mret None else
  r ← blocking (
    o ← open_or_discover;
    match o with
    | None => mret (None, failed_discovery a)
    | Some (repo, _, d) =>
        oid ← ask (head_commit_id repo);
        meta ← ask (index_metadata repo);
        mret (Some {| head_oid := oid; index_mtime := meta ≫= snd |}, d)
    end);
  match r with
  | None => mret None
  | Some (sync, d) => _ ← record_discovery d; mret sync
  end.

(** The scan of [refresh_git_dirty_cache]: dirty and staged paths under the
    working directory. *)
Definition git_scan (scope : option (list path)) : M (option (gset path * gset path * discovery)) :=
  a ← get_actor;
  blocking (
    o ← open_or_discover;
    match o with
    | None => mret (∅, ∅, failed_discovery a)
    | Some (repo, prefix, d) =>
        meta ← ask (index_metadata repo);
        if match meta with Some (n, _) => (n =? 0)%Z | None => true end then mret (∅, ∅, d) else
        items ← ask (git_status repo (map (join_path prefix) (default [] scope)));
        match items with
        | None => mret (∅, ∅, d)
        | Some items =>
            let under := omap (λ i : path * bool,
              match path_strip_prefix i.1 prefix with
              | Some rel => Some (rel, i.2)
              | None => None
              end) items in
            mret (list_to_set (map fst under),
                  list_to_set (map fst (List.filter snd under)), d)
        end
    end).

End world.
