(* ===== verification/HunkTracker.v ===== *)
(** * Hunk tracker: the actor

    [HunkTrackerActor] of [codegen/xai-hunk-tracker]: recomputation of hunks and
    its events ([actor/hunks.rs]), file changes ([actor/mutations.rs]), accept
    and reject ([actor/actions.rs]), the refresh of the git caches
    ([actor/git.rs]), queries ([actor/queries.rs]), snapshots, batches and the
    dispatch ([actor/mod.rs]). *)
From S2P Require Import Prelude RustStr StrSearch HunkTypes HunkDiff HunkWorld.

(** ** Coalescing *)

Inductive CoalescedPathAction : Type := ChangedAction | DeletedAction | DeletedThenChanged.
#[global] Instance CoalescedPathAction_eq_dec : EqDecision CoalescedPathAction.
Proof. solve_decision. Defined.

Record CoalescedBatch : Type := {
  file_actions : gmap path CoalescedPathAction;
  refresh_all : bool;
  refresh_dirty : bool;
  other_commands : list HunkTrackerCommand;
  command_count : nat;
}.
Definition CoalescedBatch_new : CoalescedBatch :=
  {| file_actions := ∅; refresh_all := false; refresh_dirty := false; other_commands := [];
     command_count := 0 |}.

Definition changed_action (old : option CoalescedPathAction) : CoalescedPathAction :=
  match old with
  | Some DeletedAction => DeletedThenChanged
  | Some a => a
  | None => ChangedAction
  end.

Definition batch_add (b : CoalescedBatch) (cmd : HunkTrackerCommand) : CoalescedBatch :=
  let n := S (command_count b) in
  match cmd with
  | HandleFileChange p =>
      {| file_actions := <[p := changed_action (file_actions b !! p)]> (file_actions b);
         refresh_all := refresh_all b; refresh_dirty := refresh_dirty b;
         other_commands := other_commands b; command_count := n |}
  | HandleFileDeleted p =>
      {| file_actions := <[p := DeletedAction]> (file_actions b);
         refresh_all := refresh_all b; refresh_dirty := refresh_dirty b;
         other_commands := other_commands b; command_count := n |}
  | RefreshAllBaselines =>
      {| file_actions := file_actions b; refresh_all := true; refresh_dirty := refresh_dirty b;
         other_commands := other_commands b; command_count := n |}
  | RefreshGitDirtyCache =>
      {| file_actions := file_actions b; refresh_all := refresh_all b; refresh_dirty := true;
         other_commands := other_commands b; command_count := n |}
  | _ =>
      {| file_actions := file_actions b; refresh_all := refresh_all b;
         refresh_dirty := refresh_dirty b; other_commands := other_commands b ++ [cmd];
         command_count := n |}
  end.

Definition is_coalescable (cmd : HunkTrackerCommand) : bool :=
  match cmd with
  | HandleFileChange _ | HandleFileDeleted _ | RefreshAllBaselines | RefreshGitDirtyCache => true
  | _ => false
  end.

(** [drain_and_coalesce], with what the channel holds *)
Definition drain_and_coalesce (first : HunkTrackerCommand) (queued : list HunkTrackerCommand) :
    CoalescedBatch :=
  foldl batch_add (batch_add CoalescedBatch_new first) queued.

(** ** Events of a recomputation *)

Definition removed_events (p : path) (old_hunks new_hunks : list Hunk) : list HunkEvent :=
  omap (λ o, if existsb (λ n, hunks_overlap o n || hunks_match_content o n) new_hunks
             then None else Some (HunkRemoved p (hunk_id o) Superseded)) old_hunks.
Definition changed_event (p : path) (old_hunks : list Hunk) (trigger : HunkSource) (n : Hunk) :
    option HunkEvent :=
  match List.find (λ o, hunks_match_content o n) old_hunks with
  | Some o =>
      if hunk_moved o n then Some (HunkMoved p (hunk_id o) (line_info n)) else None
  | None =>
      if negb (existsb (λ o, hunks_overlap o n) old_hunks) then Some (HunkAdded p n)
      else
        let prev :=
          match List.find (λ o, bool_decide (hunk_id o = hunk_id n)) old_hunks with
          | Some o => Some o
          | None => List.find (λ o, hunks_overlap o n) old_hunks
          end in
        let '(added, removed) :=
          match prev with
          | Some o => (new_count (line_info o), old_count (line_info o))
          | None => (0, 0)%Z
          end in
        Some (HunkContentChanged p n trigger added removed)
  end.
(** [emit_hunk_diff_events] *)
Definition hunk_diff_events (p : path) (old_hunks new_hunks : list Hunk) (trigger : HunkSource) :
    list HunkEvent :=
  removed_events p old_hunks new_hunks ++ omap (changed_event p old_hunks trigger) new_hunks.

(** New hunks take over the identifier of the old hunk they match, unless another
    new hunk claimed it, and keep an agent's attribution under an external edit. *)
Fixpoint preserve_identity (old_hunks : list Hunk) (claimed : gset HunkId) (new_hunks : list Hunk) :
    list Hunk :=
  match new_hunks with
  | [] => []
  | n :: rest =>
      match find_matching_old_hunk n old_hunks with
      | Some o =>
          if decide (hunk_id o ∈ claimed) then n :: preserve_identity old_hunks claimed rest
          else
            let s := if is_external (source n) && is_agent_edit (source o)
                     then source o else source n in
            with_identity (hunk_id o) s n
              :: preserve_identity old_hunks ({[hunk_id o]} ∪ claimed) rest
      | None => n :: preserve_identity old_hunks claimed rest
      end
  end.

(** [turn_index] without, and with, the identifiers of hunks *)
Definition unindex_hunk (h : Hunk) (idx : gmap Z (gset HunkId)) : gmap Z (gset HunkId) :=
  match hunk_prompt h with
  | Some p => alter (λ s, s ∖ {[hunk_id h]}) p idx
  | None => idx
  end.
Definition index_hunk (h : Hunk) (idx : gmap Z (gset HunkId)) : gmap Z (gset HunkId) :=
  match hunk_prompt h with
  | Some p => <[p := {[hunk_id h]} ∪ default ∅ (idx !! p)]> idx
  | None => idx
  end.
Definition unindex (l : list Hunk) (idx : gmap Z (gset HunkId)) : gmap Z (gset HunkId) :=
  foldl (flip unindex_hunk) idx l.
Definition index (l : list Hunk) (idx : gmap Z (gset HunkId)) : gmap Z (gset HunkId) :=
  foldl (flip index_hunk) idx l.

Definition without_hunks (l : list Hunk) (hs : list Hunk) : list Hunk :=
  List.filter (λ h, negb (existsb (λ x, bool_decide (hunk_id x = hunk_id h)) l)) hs.

Definition update_stats (li : HunkLineInfo) (accepted : bool) (s : SessionStats) : SessionStats :=
  if accepted then
    {| accepted_hunks := saturating_add (accepted_hunks s) 1;
       rejected_hunks := rejected_hunks s;
       accepted_lines_added := saturating_add (accepted_lines_added s) (new_count li);
       accepted_lines_removed := saturating_add (accepted_lines_removed s) (old_count li);
       rejected_lines_added := rejected_lines_added s;
       rejected_lines_removed := rejected_lines_removed s |}
  else
    {| accepted_hunks := accepted_hunks s;
       rejected_hunks := saturating_add (rejected_hunks s) 1;
       accepted_lines_added := accepted_lines_added s;
       accepted_lines_removed := accepted_lines_removed s;
       rejected_lines_added := saturating_add (rejected_lines_added s) (new_count li);
       rejected_lines_removed := saturating_add (rejected_lines_removed s) (old_count li) |}.

(** [strip_single_trailing_newline] *)
Definition strip_single_trailing_newline (s : str) : str :=
  match rev s with
  | 10%Z :: 13%Z :: r => rev r
  | 10%Z :: r => rev r
  | _ => s
  end.
Definition same_text (a b : str) : bool :=
  str_eqb (strip_single_trailing_newline a) (strip_single_trailing_newline b).

Section tracker.
Context `{TrackerEnv}.

Abbreviation Res A := (result A (HunkActionError IoError)).

Definition modify_turns (f : gmap Z (gset HunkId) → gmap Z (gset HunkId)) : M unit :=
  modify (λ a, set_turns (f (turn_index a)) a).

(** ** Recomputation *)

(** [compute_hunks]: every hunk draws its identifier when it is built. *)
Definition compute_hunks (p : path) (base current : str) (s : HunkSource) : M (list Hunk) :=
  if str_eqb base current then mret []
  else if (MAX_DIFF_FILE_SIZE <? str_len base)%Z || (MAX_DIFF_FILE_SIZE <? str_len current)%Z
  then mret []
  else
    timed_out ← ask (diff_times_out base current);
    if (timed_out : bool) then mret []
    else map_M (λ b, i ← draw; mret (build p s i.1 i.2 b))
           (change_loop (diff_lines base current) 1 1 None).

Definition hunks_between (p : path) (base current : FileContentState) (s : HunkSource) :
    M (list Hunk) :=
  match base, current with
  | Full b, Full c => compute_hunks p b c s
  | Full b, Missing =>
      if is_empty b then mret [] else i ← draw; mret [file_deleted i.1 i.2 p b s]
  | Missing, Full c =>
      if is_empty c then mret [] else i ← draw; mret [file_created i.1 i.2 p c s]
  | _, _ => mret []
  end.

Definition recompute_hunks (p : path) (new_current : option FileContentState) (s : HunkSource) :
    M unit :=
  st ← get_file p;
  match st with
  | None => mret tt
  | Some st =>
      let old_hunks := hunks st in
      let current := default Missing new_current in
      fresh ← hunks_between p (baseline st) current s;
      let new_hunks := preserve_identity old_hunks ∅ fresh in
      _ ← update_file p (λ st, set_hunks new_hunks (set_current current st));
      _ ← modify_turns (λ idx, index new_hunks (unindex old_hunks idx));
      send_events (hunk_diff_events p old_hunks new_hunks s)
  end.

(** ** File changes *)

Definition track (p : path) (st : FileHunkState) : M unit :=
  _ ← insert_file p st; send_event (FileAdded p (is_agent_file st)).

Definition record_agent_write (p : path) (content : str) (prompt : Z)
    (previous_content : option str) : M unit :=
  let current := classify_string content in
  st ← get_file p;
  if negb (is_diffable current) then
    match st with
    | None =>
        base ← match previous_content with
               | Some prev => mret (classify_string prev)
               | None => read_baseline p
               end;
        track p {| baseline := base; current_content := current; hunks := [];
                   is_agent_file := true; baseline_accepted := false |}
    | Some _ =>
        update_file p (λ st, set_hunks [] (set_current current (set_agent_file st)))
    end
  else
    _ ← match st with
        | None =>
            head ← read_baseline p;
            let base := match head with
                        | Missing => default Missing (classify_string <$> previous_content)
                        | other => other
                        end in
            track p {| baseline := base; current_content := current; hunks := [];
                       is_agent_file := true; baseline_accepted := false |}
        | Some _ => update_file p set_agent_file
        end;
    recompute_hunks p (Some current) (AgentEdit prompt).

Definition relative (a : HunkTrackerActor) (p : path) : path :=
  default p (path_strip_prefix p (working_dir a)).
Definition is_dirty (a : HunkTrackerActor) (p : path) : bool :=
  bool_decide (relative a p ∈ git_dirty_cache a).

Definition preloaded_or_read (preloaded : option FileContentState) (p : path) : M FileContentState :=
  match preloaded with Some b => mret b | None => read_baseline p end.

(** Without a baseline and outside the dirty cache a path is ignored by git,
    unless it is a directory. *)
Definition is_ignored (base : FileContentState) (p : path) : M bool :=
  a ← get_actor;
  if bool_decide (mode a = AllDirty) && is_missing base then
    dir ← ask (is_dir p);
    mret (negb dir && negb (is_dirty a p))
  else mret false.

(** The content on disk is that of git's HEAD. *)
Definition content_matches_head (a : HunkTrackerActor) (p : path)
    (current head : FileContentState) : bool :=
  match current, head with
  | Full c, Full h => same_text c h
  | Missing, Missing => true
  | Binary _, Binary _ => true
  | TooLarge _, TooLarge _ => true
  | LfsPointer _, LfsPointer _ => true
  | Symlink, Symlink => true
  | Symlink, Full _ | Full _, Symlink => negb (is_dirty a p)
  | _, _ => false
  end.

Definition external_source (st : option FileHunkState) : HunkSource :=
  match st with
  | Some st => if is_agent_file st then ExternalEditOnAgentFile else External
  | None => External
  end.

Definition recompute_external (p : path) (current : option FileContentState) : M unit :=
  st ← get_file p; recompute_hunks p current (external_source st).

Definition process_file_change (p : path) (preloaded : option FileContentState) : M unit :=
  a ← get_actor;
  let st := file_states a !! p in
  let tracked := match st with Some _ => true | None => false end in
  if bool_decide (mode a = AgentOnly) && negb tracked then mret tt else
  current ← read_file_bounded p;
  match st with
  | None =>
      if negb (is_diffable current) then
        base ← (if bool_decide (mode a = AllDirty) then preloaded_or_read preloaded p
                else mret Missing);
        ignored ← is_ignored base p;
        if (ignored : bool) then mret tt else
        _ ← track p {| baseline := base; current_content := current; hunks := [];
                       is_agent_file := false; baseline_accepted := false |};
        if is_diffable base then recompute_hunks p None External else mret tt
      else
        base ← preloaded_or_read preloaded p;
        ignored ← is_ignored base p;
        if (ignored : bool) then mret tt else
        _ ← track p {| baseline := base; current_content := Missing; hunks := [];
                       is_agent_file := false; baseline_accepted := false |};
        recompute_external p (Some current)
  | Some st =>
      if baseline_accepted st then
        head ← preloaded_or_read preloaded p;
        a ← get_actor;
        if content_matches_head a p current head then
          update_file p (λ st, set_hunks [] (set_accepted false
                                 (set_current head (set_baseline head st))))
        else recompute_external p (Some current)
      else recompute_external p (Some current)
  end.

Definition handle_file_change (p : path) : M unit := process_file_change p None.

Definition needs_baseline (a : HunkTrackerActor) (p : path) : bool :=
  match file_states a !! p with
  | None => negb (bool_decide (mode a = AgentOnly))
  | Some st => baseline_accepted st
  end.

Definition handle_file_changes_batch (paths : list path) : M unit :=
  if is_empty paths then mret tt else
  a ← get_actor;
  let baseline_paths := List.filter (needs_baseline a) paths in
  baselines ← (if is_empty baseline_paths then mret ∅ else read_baselines_batch baseline_paths);
  (** a path of a batch occurs once, so taking its entry is looking it up *)
  mapM_ (λ p, process_file_change p (baselines !! p)) paths.

Definition handle_file_deleted (p : path) : M unit :=
  a ← get_actor;
  match file_states a !! p with
  | None =>
      if bool_decide (mode a = AgentOnly) then mret tt else
      exists_ ← ask (path_exists p);
      if (exists_ : bool) then mret tt else
      base ← read_baseline p;
      if is_missing base then mret tt else
      _ ← track p {| baseline := base; current_content := Missing; hunks := [];
                     is_agent_file := false; baseline_accepted := false |};
      recompute_hunks p None External
  | Some _ =>
      exists_ ← ask (path_exists p);
      if (exists_ : bool) then handle_file_change p else recompute_external p None
  end.

(** Hunks that leave without a user's decision: their index entries are removed
    and [HunkRemoved] is sent for each. *)
Definition discard_hunk (p : path) (h : Hunk) : M unit :=
  _ ← modify_turns (unindex_hunk h);
  send_event (HunkRemoved p (hunk_id h) Superseded).

Definition reset_baseline (p : path) : M unit :=
  st ← get_file p;
  match st with
  | None => mret tt
  | Some st =>
      _ ← update_file p (λ st, set_hunks [] (set_accepted false
                                 (set_baseline (current_content st) st)));
      _ ← mapM_ (discard_hunk p) (hunks st);
      send_event (BaselineUpdated p)
  end.

(** ** The git caches *)

Definition refresh_git_dirty_cache (scope : option (list path)) : M unit :=
  a ← get_actor;
  if not_a_repo a then mret tt else
  r ← git_scan scope;
  match r with
  | None => mret tt
  | Some (dirty, staged_files, d) =>
      _ ← record_discovery d;
      order ← observe (λ w, path_order w dirty);
      a ← get_actor;
      let paths_to_track :=
        List.filter (λ rel, match file_states a !! join_path (working_dir a) rel with
                            | None => true | Some _ => false end) order in
      _ ← modify (set_caches dirty staged_files);
      if bool_decide (mode a = AllDirty)
      then mapM_ (λ rel, handle_file_change (join_path (working_dir a) rel)) paths_to_track
      else mret tt
  end.

Definition is_clean (a : HunkTrackerActor) (exists_ : bool) (p : path)
    (base current : FileContentState) : bool :=
  match base, current with
  | Full b, Full c => same_text b c
  | Binary _, Binary _ | TooLarge _, TooLarge _ | LfsPointer _, LfsPointer _
  | Symlink, Symlink => negb (is_dirty a p)
  | LfsPointer _, _ | _, LfsPointer _ => negb (is_dirty a p)
  | Symlink, Full _ | Full _, Symlink => negb (is_dirty a p)
  | Missing, Missing => negb exists_
  | Missing, _ => negb (is_dirty a p)
  | _, _ => false
  end.

(** One file of [refresh_all_baselines_except]. *)
Definition refresh_file (new_baseline new_current : FileContentState) (p : path) : M unit :=
  st ← get_file p;
  match st with
  | None => mret tt
  | Some st =>
      _ ← update_file p (λ st, set_accepted false (set_current new_current
                                 (set_baseline new_baseline st)));
      exists_ ← (if is_missing new_baseline && is_missing new_current
                 then ask (path_exists p) else mret false);
      a ← get_actor;
      if is_clean a exists_ p new_baseline new_current then
        if is_agent_file st then
          _ ← update_file p (set_hunks []);
          _ ← mapM_ (discard_hunk p) (hunks st);
          send_event (BaselineUpdated p)
        else
          _ ← remove_file_state p;
          _ ← mapM_ (discard_hunk p) (hunks st);
          send_event (FileRemoved p)
      else
        _ ← recompute_hunks p (Some new_current)
              (if is_agent_file st then ExternalEditOnAgentFile else External);
        send_event (BaselineUpdated p)
  end.

(** The read of one task; a failed task leaves no entry. *)
Definition read_current (p : path) : M (option (path * FileContentState)) :=
  blocking (c ← read_file_bounded p; mret (p, c)).

Definition refresh_scope (a : HunkTrackerActor) (tracked : list path) : option (list path) :=
  if bool_decide (mode a = AllDirty) then None
  else Some (omap (λ p, path_strip_prefix p (working_dir a)) tracked).

Definition refresh_all_baselines_except (skip : gset path) : M unit :=
  a ← get_actor;
  if bool_decide (mode a = AgentOnly) && bool_decide (file_states a = ∅) then mret tt else
  sync ← read_repo_sync_state;
  a ← get_actor;
  if match sync with Some r => bool_decide (r = repo_sync_state a) | None => false end
  then mret tt else
  _ ← match sync with Some r => modify (set_sync r) | None => mret tt end;
  tracked ← observe (λ w, map fst (map_order w (file_states a)));
  let scope := refresh_scope a tracked in
  _ ← match scope with
      | Some [] => modify (set_caches ∅ ∅)
      | _ => refresh_git_dirty_cache scope
      end;
  a ← get_actor;
  order ← observe (λ w, map fst (map_order w (file_states a)));
  let paths := List.filter (λ p, negb (bool_decide (p ∈ skip))) order in
  baselines ← (if is_empty paths then mret ∅ else read_baselines_batch paths);
  reads ← map_M read_current paths;
  let currents := foldl (λ m e, <[e.1 := e.2]> m) (∅ : gmap path FileContentState)
                    (omap (λ x, x) reads) in
  mapM_ (λ p, refresh_file (default Missing (baselines !! p)) (default Missing (currents !! p)) p)
    paths.
Definition refresh_all_baselines : M unit := refresh_all_baselines_except ∅.

Definition untrack (p : path) : M unit :=
  st ← get_file p;
  match st with
  | None => mret tt
  | Some st =>
      _ ← remove_file_state p;
      _ ← mapM_ (discard_hunk p) (hunks st);
      send_event (FileRemoved p)
  end.

Definition set_mode (m : TrackingMode) : M unit :=
  a ← get_actor;
  _ ← modify (set_tracking m);
  match mode a, m with
  | AgentOnly, AllDirty => refresh_git_dirty_cache None
  | AllDirty, AgentOnly =>
      order ← observe (λ w, map_order w (file_states a));
      mapM_ untrack (map fst (List.filter (λ e, negb (is_agent_file e.2)) order))
  | _, _ => mret tt
  end.

(** ** Accepting and rejecting *)

Definition count_action (h : Hunk) (action : HunkAction) : M unit :=
  _ ← modify (λ a, set_stats (update_stats (line_info h) (bool_decide (action = Accept))
                                (session_stats a)) a);
  modify_turns (unindex_hunk h).

(** The source of the first remaining hunk, else an external one. *)
Definition remaining_source (p : path) : M HunkSource :=
  st ← get_file p;
  mret match st with
       | Some st => match hunks st with h :: _ => source h | [] => External end
       | None => External
       end.
Definition recompute_remaining (p : path) (current : FileContentState) : M unit :=
  s ← remaining_source p; recompute_hunks p (Some current) s.

Definition send_removed (p : path) (reason : HunkRemovalReason) (l : list Hunk) : M unit :=
  mapM_ (λ h, send_event (HunkRemoved p (hunk_id h) reason)) l.

Definition accept_patch (c : FileContentState) (h : Hunk) : FileContentState :=
  match c with
  | Full b => Full (patch_lines b (old_start (line_info h)) (old_count (line_info h)) (new_text h))
  | other => other
  end.
Definition reject_patch (c : str) (h : Hunk) : str :=
  patch_lines c (new_start (line_info h)) (new_count (line_info h)) (default [] (old_text h)).

Definition accept_hunk (p : path) (h : Hunk) : M unit :=
  st ← get_file p;
  match st with
  | None => mret tt
  | Some st =>
      if is_missing (baseline st) then
        _ ← update_file p (λ st, set_hunks (without_hunks [h] (hunks st))
                                   (set_accepted true (set_baseline (current_content st) st)));
        _ ← send_event (HunkRemoved p (hunk_id h) Accepted);
        send_event (BaselineUpdated p)
      else
        _ ← update_file p (λ st, set_hunks (without_hunks [h] (hunks st))
                                   (set_accepted true (set_baseline (accept_patch (baseline st) h) st)));
        _ ← send_event (HunkRemoved p (hunk_id h) Accepted);
        _ ← send_event (BaselineUpdated p);
        recompute_remaining p (current_content st)
  end.

Definition write_to_disk (p : path) (content : str) : M (Res unit) :=
  r ← ask (fs_write p content);
  match r with
  | Ok _ => _ ← log_disk (Wrote p content); mret (Ok tt)
  | Err e => mret (Err (WriteError p e))
  end.
Definition remove_from_disk (p : path) : M (Res unit) :=
  r ← ask (fs_remove p);
  match r with
  | Ok _ => _ ← log_disk (Removed p); mret (Ok tt)
  | Err e => mret (Err (DeleteError p e))
  end.
(** The [?] of a handler *)
Definition try {A B} (m : M (Res A)) (k : A → M (Res B)) : M (Res B) :=
  r ← m; match r with Ok a => k a | Err e => mret (Err e) end.

Definition reject_hunk (p : path) (h : Hunk) : M (Res unit) :=
  st ← get_file p;
  match st with
  | None => mret (Ok tt)
  | Some st =>
      let finish := send_event (HunkRemoved p (hunk_id h) Rejected) in
      match baseline st, current_content st with
      | Full b, Missing =>
          try (write_to_disk p b) (λ _,
            _ ← update_file p (λ st, set_hunks (without_hunks [h] (hunks st))
                                       (set_current (Full b) st));
            _ ← finish; mret (Ok tt))
      | Missing, Full _ =>
          try (remove_from_disk p) (λ _,
            _ ← update_file p (λ st, set_hunks (without_hunks [h] (hunks st))
                                       (set_current Missing st));
            _ ← finish; mret (Ok tt))
      | _, Full c =>
          let patched := reject_patch c h in
          try (write_to_disk p patched) (λ _,
            _ ← update_file p (λ st, set_hunks (without_hunks [h] (hunks st))
                                       (set_current (Full patched) st));
            _ ← finish;
            _ ← recompute_remaining p (Full patched);
            mret (Ok tt))
      | _, _ => mret (Ok tt)
      end
  end.

(** [find_map] over the files: the first one that holds the hunk *)
Definition find_hunk (id : HunkId) (files : list (path * FileHunkState)) : option (path * Hunk) :=
  head (omap (λ e : path * FileHunkState,
    (λ h, (e.1, h)) <$> List.find (λ h, bool_decide (hunk_id h = id)) (hunks e.2)) files).

Definition files_in_order : M (list (path * FileHunkState)) :=
  a ← get_actor; observe (λ w, map_order w (file_states a)).

Definition apply_hunk_action (id : HunkId) (action : HunkAction) : M (Res unit) :=
  files ← files_in_order;
  match find_hunk id files with
  | None => mret (Err (HunkNotFound id))
  | Some (p, h) =>
      _ ← count_action h action;
      match action with
      | Accept => _ ← accept_hunk p h; mret (Ok tt)
      | Reject => reject_hunk p h
      end
  end.

Definition accept_hunks_batch (p : path) (l : list Hunk) : M unit :=
  if is_empty l then mret tt else
  st ← get_file p;
  match st with
  | None => mret tt
  | Some st =>
      if is_missing (baseline st) then
        _ ← update_file p (λ st, set_hunks (without_hunks l (hunks st))
                                   (set_accepted true (set_baseline (current_content st) st)));
        _ ← send_removed p Accepted l;
        send_event (BaselineUpdated p)
      else
        let sorted := sort_by_key (λ h, - old_start (line_info h))%Z l in
        let patched := foldl accept_patch (baseline st) sorted in
        _ ← update_file p (λ st, set_hunks (without_hunks l (hunks st))
                                   (set_accepted true (set_baseline patched st)));
        _ ← send_removed p Accepted l;
        _ ← send_event (BaselineUpdated p);
        recompute_remaining p (current_content st)
  end.

Definition reject_hunks_batch (p : path) (l : list Hunk) : M (Res unit) :=
  if is_empty l then mret (Ok tt) else
  st ← get_file p;
  match st with
  | None => mret (Ok tt)
  | Some st =>
      match baseline st, current_content st with
      | Full b, Missing =>
          try (write_to_disk p b) (λ _,
            _ ← update_file p (λ st, set_hunks (without_hunks l (hunks st))
                                       (set_current (baseline st) st));
            _ ← send_removed p Rejected l; mret (Ok tt))
      | Missing, Full _ =>
          try (remove_from_disk p) (λ _,
            _ ← update_file p (λ st, set_hunks (without_hunks l (hunks st))
                                       (set_current Missing st));
            _ ← send_removed p Rejected l; mret (Ok tt))
      | _, Full c =>
          let sorted := sort_by_key (λ h, - new_start (line_info h))%Z l in
          let patched := foldl reject_patch c sorted in
          try (write_to_disk p patched) (λ _,
            _ ← update_file p (λ st, set_hunks (without_hunks l (hunks st))
                                       (set_current (Full patched) st));
            _ ← send_removed p Rejected l;
            _ ← recompute_remaining p (Full patched);
            mret (Ok tt))
      | _, _ => mret (Ok tt)
      end
  end.

(** [apply_action_batch]: every hunk is counted and unindexed before its file is
    processed; the first error ends the batch. *)
Fixpoint apply_action_batch (files : list (path * list Hunk)) (action : HunkAction) :
    M (Res (list HunkId)) :=
  match files with
  | [] => mret (Ok [])
  | (p, l) :: rest =>
      _ ← mapM_ (λ h, count_action h action) l;
      try match action with
          | Accept => _ ← accept_hunks_batch p l; mret (Ok tt)
          | Reject => reject_hunks_batch p l
          end
          (λ _, try (apply_action_batch rest action)
                  (λ ids, mret (Ok (map hunk_id l ++ ids))))
  end.

Definition apply_file_action (p : path) (action : HunkAction) : M (Res (list HunkId)) :=
  st ← get_file p;
  match st with
  | None => mret (Ok [])
  | Some st =>
      if is_empty (hunks st) then mret (Ok []) else apply_action_batch [(p, hunks st)] action
  end.

Definition apply_all_action (action : HunkAction) : M (Res (list HunkId)) :=
  files ← files_in_order;
  let with_hunks := List.filter (λ e, negb (is_empty (hunks e.2))) files in
  if is_empty with_hunks then mret (Ok [])
  else apply_action_batch (map (λ e, (e.1, hunks e.2)) with_hunks) action.

Definition turn_hunks (prompt : Z) (l : list Hunk) : list Hunk :=
  List.filter (λ h, bool_decide (hunk_prompt h = Some prompt)) l.
(** The files are grouped in a second map, whose order is its own. *)
Definition apply_turn_action (prompt : Z) (action : HunkAction) : M (Res (list HunkId)) :=
  a ← get_actor;
  let grouped : gmap path (list Hunk) :=
    omap (λ st, let l := turn_hunks prompt (hunks st) in if is_empty l then None else Some l)
      (file_states a) in
  if bool_decide (grouped = ∅) then mret (Ok [])
  else
    files ← observe (λ w, map_order w grouped);
    apply_action_batch files action.

(** ** Queries *)

Definition get_all_hunks : M (list Hunk) :=
  files ← files_in_order; mret (concat (map (λ e, hunks e.2) files)).

Definition get_hunks_for_path (p : path) : M (list Hunk) :=
  st ← get_file p; mret match st with Some st => hunks st | None => [] end.

Definition hunk_patch (base current : option str) (h : Hunk) : option str :=
  match base, current with
  | None, None => None
  | _, _ => Some (generate_hunk_patch (default [] base) (default [] current) h)
  end.
Definition file_hunk_data (st : FileHunkState) : FileHunkData :=
  let base := from_content_state (baseline st) in
  let current := from_content_state (current_content st) in
  {| data_hunks := map (λ h, with_patch (hunk_patch (as_str (baseline st))
                                           (as_str (current_content st)) h) h) (hunks st);
     data_baseline := base; data_current := current;
     baseline_text := content base; current_text := content current |}.
Definition get_file_hunk_data (p : path) : M FileHunkData :=
  st ← get_file p; mret match st with Some st => file_hunk_data st | None => FileHunkData_default end.

Definition get_all_tracked_paths : M (list path) :=
  files ← files_in_order; mret (map fst files).

Definition get_hunks_by_source (f : HunkSourceFilter) : M (list Hunk) :=
  l ← get_all_hunks;
  mret (List.filter (λ h, match f with
                          | FilterAgent => is_agent_edit (source h)
                          | FilterExternal => is_external (source h)
                          end) l).

Definition get_hunk (id : HunkId) : M (option Hunk) :=
  l ← get_all_hunks; mret (List.find (λ h, bool_decide (hunk_id h = id)) l).

Definition get_hunks_for_turn (prompt : Z) : M (list Hunk) :=
  a ← get_actor;
  match turn_index a !! prompt with
  | None => mret []
  | Some ids =>
      order ← observe (λ w, id_order w ids);
      found ← map_M get_hunk order;
      mret (omap (λ x, x) found)
  end.

(** *** The session summary *)

Record TurnData : Type := {
  td_files : gset path;
  td_pending : list Hunk;
  td_added : Z;
  td_removed : Z;
}.
Definition TurnData_default : TurnData :=
  {| td_files := ∅; td_pending := []; td_added := 0; td_removed := 0 |}.
Definition add_to_turn (p : path) (h : Hunk) (d : TurnData) : TurnData :=
  {| td_files := {[p]} ∪ td_files d; td_pending := td_pending d ++ [h];
     td_added := wrapping_add (td_added d) (new_count (line_info h));
     td_removed := wrapping_add (td_removed d) (old_count (line_info h)) |}.
(** Per turn data, files with agent hunks, and the count of other hunks *)
Abbreviation Totals := (gmap Z TurnData * gset path * Z)%type (only parsing).
Definition tally_hunk (p : path) (t : Totals) (h : Hunk) : Totals :=
  let '(turns, agent_files, other) := t in
  match hunk_prompt h with
  | Some i => (<[i := add_to_turn p h (default TurnData_default (turns !! i))]> turns,
               {[p]} ∪ agent_files, other)
  | None => (turns, agent_files, wrapping_add other 1)
  end.
Definition tally (files : list (path * FileHunkState)) : Totals :=
  foldl (λ t e, foldl (tally_hunk e.1) t (hunks e.2)) (∅, ∅, 0%Z) files.
Definition turn_summary (file_order : gset path → list path) (e : Z * TurnData) : TurnSummary :=
  {| turn_prompt := e.1; files := file_order (td_files e.2); pending := td_pending e.2;
     lines_added := td_added e.2; lines_removed := td_removed e.2 |}.
Definition wrapping_sum (l : list Z) : Z := foldl wrapping_add 0%Z l.

Definition compute_session_summary : M SessionSummary :=
  a ← get_actor;
  fs ← files_in_order;
  let '(by_prompt, agent_files, other) := tally fs in
  l ← observe (λ w, map (turn_summary (path_order w)) (prompt_order w by_prompt));
  let sorted := sort_by_key turn_prompt l in
  let n := Z.of_nat (size agent_files) in
  mret {| stats := session_stats a; turns := sorted; files_modified := n; files_with_pending := n;
          pending_hunks := wrapping_sum (map (λ t, Z.of_nat (length (pending t))) sorted);
          pending_lines_added := wrapping_sum (map lines_added sorted);
          pending_lines_removed := wrapping_sum (map lines_removed sorted);
          unattributed_pending := other |}.

(** ** Snapshots *)

Definition snapshot_file_state (st : FileHunkState) : FileHunkStateSnapshot :=
  {| snap_baseline := baseline st; snap_current := current_content st; snap_hunks := hunks st;
     snap_agent := is_agent_file st; snap_accepted := baseline_accepted st |}.
Definition take_snapshot : M HunkTrackerSnapshot :=
  a ← get_actor;
  mret {| snap_files := snapshot_file_state <$> file_states a; snap_turns := turn_index a;
          snap_stats := session_stats a |}.
Definition take_turn_delta (prompt : Z) : M HunkTurnDelta :=
  a ← get_actor;
  let ids := default ∅ (turn_index a !! prompt) in
  mret {| delta_prompt := prompt;
          delta_files := omap (λ st,
            if existsb (λ h, bool_decide (hunk_id h ∈ ids)) (hunks st)
            then Some (snapshot_file_state st) else None) (file_states a);
          delta_ids := ids |}.
Definition restore_file_state (s : FileHunkStateSnapshot) : FileHunkState :=
  {| baseline := snap_baseline s; current_content := snap_current s; hunks := snap_hunks s;
     is_agent_file := snap_agent s; baseline_accepted := snap_accepted s |}.
Definition restore_snapshot (s : HunkTrackerSnapshot) : M unit :=
  modify (λ a, set_stats (snap_stats s) (set_turns (snap_turns s)
                 (set_files (restore_file_state <$> snap_files s) a))).

(** ** Dispatch *)

Inductive Reply : Type :=
| NoReply
| ActionReply (r : Res unit)
| ActionsReply (r : Res (list HunkId))
| HunksReply (l : list Hunk)
| DataReply (d : FileHunkData)
| HunkReply (h : option Hunk)
| BoolReply (b : bool)
| PathsReply (l : list path)
| PathSetReply (s : gset path)
| ContentsReply (l : list FileContentEntry)
| SummaryReply (s : SessionSummary)
| SnapshotReply (s : HunkTrackerSnapshot)
| DeltaReply (d : HunkTurnDelta).

Definition get_staged_files : M (gset path) :=
  a ← get_actor;
  mret (list_to_set (map (join_path (working_dir a)) (elements (git_staged_cache a)))).
Definition get_all_file_contents : M (list FileContentEntry) :=
  a ← get_actor;
  fs ← files_in_order;
  mret (map (λ e : path * FileHunkState,
    {| entry_path := e.1;
       entry_baseline := from_content_state (baseline e.2);
       entry_current := from_content_state (current_content e.2);
       entry_agent := is_agent_file e.2;
       staged := bool_decide (relative a e.1 ∈ git_staged_cache a) |}) fs).

Definition silent (m : M unit) : M Reply := _ ← m; mret NoReply.
Definition reply_with {A} (f : A → Reply) (m : M A) : M Reply := a ← m; mret (f a).

Definition handle_command (cmd : HunkTrackerCommand) : M Reply :=
  match cmd with
  | RecordAgentWrite p c i prev => silent (record_agent_write p c i prev)
  | HandleFileChange p => silent (handle_file_change p)
  | HandleFileDeleted p => silent (handle_file_deleted p)
  | RefreshGitDirtyCache => silent (refresh_git_dirty_cache None)
  | ResetBaseline p => silent (reset_baseline p)
  | SetMode m => silent (set_mode m)
  | HunkActionCmd id action => reply_with ActionReply (apply_hunk_action id action)
  | FileAction p action => reply_with ActionsReply (apply_file_action p action)
  | AllAction action => reply_with ActionsReply (apply_all_action action)
  | TurnAction i action => reply_with ActionsReply (apply_turn_action i action)
  | GetAllHunks => reply_with HunksReply get_all_hunks
  | GetHunksForPath p => reply_with HunksReply (get_hunks_for_path p)
  | GetFileHunkData p => reply_with DataReply (get_file_hunk_data p)
  | GetHunksBySource f => reply_with HunksReply (get_hunks_by_source f)
  | GetHunk id => reply_with HunkReply (get_hunk id)
  | IsAgentFile p =>
      reply_with (λ st : option FileHunkState,
        BoolReply match st with Some st => is_agent_file st | None => false end) (get_file p)
  | GetAllTrackedPaths => reply_with PathsReply get_all_tracked_paths
  | GetStagedFiles => reply_with PathSetReply get_staged_files
  | GetAllFileContents => reply_with ContentsReply get_all_file_contents
  | GetSessionSummary => reply_with SummaryReply compute_session_summary
  | GetTurnHunks i => reply_with HunksReply (get_hunks_for_turn i)
  | ResetStats => silent (modify (set_stats SessionStats_default))
  | RefreshAllBaselines => silent refresh_all_baselines
  | SnapshotState => reply_with SnapshotReply take_snapshot
  | SnapshotTurnDelta i => reply_with DeltaReply (take_turn_delta i)
  | RestoreState s => silent (restore_snapshot s)
  end.

(** *** Batches *)

Definition batch_refreshed (e : path * CoalescedPathAction) : M (option path) :=
  let '(p, action) := e in
  st ← get_file p;
  match action, st with
  | ChangedAction, None | DeletedThenChanged, None =>
      _ ← handle_file_change p; mret (Some p)
  | DeletedAction, Some _ => _ ← handle_file_deleted p; mret None
  | _, _ => mret None
  end.
Definition batch_plain (e : path * CoalescedPathAction) : M (option path) :=
  let '(p, action) := e in
  match action with
  | DeletedAction => _ ← handle_file_deleted p; mret None
  | _ => mret (Some p)
  end.

(** The part of a batch that concerns files and git *)
Definition batch_files (b : CoalescedBatch) : M unit :=
  _ ← (if refresh_dirty b && negb (refresh_all b) then refresh_git_dirty_cache None else mret tt);
  order ← observe (λ w, map_order w (file_actions b));
  if refresh_all b then
    done ← map_M batch_refreshed order;
    refresh_all_baselines_except (list_to_set (omap (λ x, x) done))
  else
    changed ← map_M batch_plain order;
    handle_file_changes_batch (omap (λ x, x) changed).

Definition handle_coalesced_batch (b : CoalescedBatch) : M (list Reply) :=
  _ ← batch_files b; map_M handle_command (other_commands b).

(** One turn of the loop of [run] on the queue of the channel. *)
Definition serve (queue : list HunkTrackerCommand) : M (list HunkTrackerCommand * list Reply) :=
  match queue with
  | [] => mret ([], [])
  | cmd :: rest =>
      if is_coalescable cmd then
        replies ← handle_coalesced_batch (drain_and_coalesce cmd rest); mret ([], replies)
      else r ← handle_command cmd; mret (rest, [r])
  end.

(** What [run] does before its loop. *)
Definition start : M unit :=
  a ← get_actor;
  if bool_decide (mode a = AllDirty) then refresh_git_dirty_cache None else mret tt.

End tracker.
