(* ===== verification/HunkIndex.v ===== *)
(** * Hunk tracker: the invariant of the tracked files

    What holds between two commands: hunk identifiers are unique, the turn index
    answers for exactly the pending hunks of each turn, and the pending hunks of
    a file are those of a diff between its baseline and its content.  This file
    states it on the actor's state and proves what each kind of update does to
    it; HunkTrackerFacts lifts that to the handlers. *)
From S2P Require Import Prelude RustStr StrSearch HunkTypes HunkDiff HunkDiffFacts HunkWorld HunkTracker.

(** ** The turn index as sets *)

Definition turn_ids (idx : gmap Z (gset HunkId)) (i : Z) : gset HunkId := default ∅ (idx !! i).

Lemma elem_of_unindex_hunk h idx i id :
  id ∈ turn_ids (unindex_hunk h idx) i
  ↔ id ∈ turn_ids idx i ∧ ¬ (hunk_id h = id ∧ hunk_prompt h = Some i).
Proof.
  unfold turn_ids, unindex_hunk. destruct (hunk_prompt h) as [p|]; [|naive_solver].
  destruct (decide (p = i)) as [->|Hne].
  - rewrite lookup_alter_eq. destruct (idx !! i); cbn; set_solver.
  - rewrite lookup_alter_ne by done. naive_solver.
Qed.

Lemma elem_of_index_hunk h idx i id :
  id ∈ turn_ids (index_hunk h idx) i
  ↔ id ∈ turn_ids idx i ∨ (hunk_id h = id ∧ hunk_prompt h = Some i).
Proof.
  unfold turn_ids, index_hunk. destruct (hunk_prompt h) as [p|]; [|naive_solver].
  destruct (decide (p = i)) as [->|Hne].
  - rewrite lookup_insert_eq. cbn. set_solver.
  - rewrite lookup_insert_ne by done. naive_solver.
Qed.

Lemma elem_of_unindex l : ∀ idx i id,
  id ∈ turn_ids (unindex l idx) i
  ↔ id ∈ turn_ids idx i ∧ ¬ ∃ h, h ∈ l ∧ hunk_id h = id ∧ hunk_prompt h = Some i.
Proof.
  unfold unindex. induction l as [|x l IH]; intros idx i id; cbn [foldl].
  - set_solver.
  - rewrite IH. unfold flip. rewrite elem_of_unindex_hunk. set_solver.
Qed.

Lemma elem_of_index l : ∀ idx i id,
  id ∈ turn_ids (index l idx) i
  ↔ id ∈ turn_ids idx i ∨ ∃ h, h ∈ l ∧ hunk_id h = id ∧ hunk_prompt h = Some i.
Proof.
  unfold index. induction l as [|x l IH]; intros idx i id; cbn [foldl].
  - set_solver.
  - rewrite IH. unfold flip. rewrite elem_of_index_hunk. set_solver.
Qed.

(** ** Matching and identities *)

Lemma foldl_choice {A} (f : option A → A → option A) (l : list A) :
  (∀ b x, f b x = Some x ∨ f b x = b) → ∀ b y, foldl f b l = Some y → b = Some y ∨ y ∈ l.
Proof.
  intros Hf. induction l as [|x l IH]; intros b y Hy; [by left|]. cbn [foldl] in Hy.
  destruct (IH _ _ Hy) as [E|E]; [|right; by right].
  destruct (Hf b x) as [Hx|Hx]; rewrite Hx in E; [injection E as ->; right; left|by left].
Qed.

Lemma min_by_key_elem {A} key (l : list A) x : min_by_key key l = Some x → x ∈ l.
Proof.
  unfold min_by_key. intros [|]%foldl_choice; [done..|].
  intros [b|] y; [|by left]. case_match; auto.
Qed.
Lemma max_by_key_elem {A} key (l : list A) x : max_by_key key l = Some x → x ∈ l.
Proof.
  unfold max_by_key. intros [|]%foldl_choice; [done..|].
  intros [b|] y; [|by left]. case_match; auto.
Qed.

Lemma elem_of_list_filter {A} (f : A → bool) (l : list A) x :
  x ∈ List.filter f l ↔ x ∈ l ∧ f x = true.
Proof. rewrite !list_elem_of_In. apply filter_In. Qed.

Lemma find_matching_elem n old o : find_matching_old_hunk n old = Some o → o ∈ old.
Proof.
  unfold find_matching_old_hunk. case_match.
  - intros Ho%min_by_key_elem. by apply elem_of_list_filter in Ho as [? _].
  - intros Ho%max_by_key_elem. by apply elem_of_list_filter in Ho as [? _].
Qed.

Definition ids (l : list Hunk) : list HunkId := map hunk_id l.

Lemma preserve_identity_ids old new : ∀ claimed,
  NoDup (ids new) → (∀ i, i ∈ ids new → i ∉ ids old) →
  NoDup (ids (preserve_identity old claimed new))
  ∧ ∀ i, i ∈ ids (preserve_identity old claimed new) →
      i ∈ ids new ∨ (i ∈ ids old ∧ i ∉ claimed).
Proof.
  induction new as [|n new IH]; intros claimed Hnd Hdis; cbn [preserve_identity].
  - split; [constructor|]. intros i Hi. by apply elem_of_nil in Hi.
  - cbn [ids map] in Hnd. apply NoDup_cons in Hnd as [Hn Hnd].
    assert (Hdis' : ∀ i, i ∈ ids new → i ∉ ids old) by (intros i Hi; apply Hdis; by right).
    assert (Hown : ∀ r : list Hunk, (∀ i, i ∈ ids r → i ∈ ids new ∨ (i ∈ ids old ∧ i ∉ claimed)) →
              NoDup (ids r) → NoDup (ids (n :: r))
              ∧ ∀ i, i ∈ ids (n :: r) → i ∈ ids (n :: new) ∨ (i ∈ ids old ∧ i ∉ claimed)).
    { intros r Hr Hndr. cbn [ids map]. split.
      - constructor; [|done]. intros [Hi|[Hi _]]%Hr; [done|]. revert Hi. apply Hdis. left.
      - intros i [->|Hi]%elem_of_cons; [left; left|]. destruct (Hr i Hi); [left; by right|by right]. }
    destruct (find_matching_old_hunk n old) as [o|] eqn:Eo;
      [|destruct (IH claimed Hnd Hdis'); by apply Hown].
    apply find_matching_elem in Eo.
    assert (Hoid : hunk_id o ∈ ids old).
    { apply list_elem_of_fmap. by exists o. }
    case_decide as Hc; [destruct (IH claimed Hnd Hdis'); by apply Hown|].
    destruct (IH ({[hunk_id o]} ∪ claimed) Hnd Hdis') as [H1 H2]. cbn [ids map with_identity hunk_id].
    split.
    + constructor; [|done]. intros [Hi|[_ Hi]]%H2; [by apply (Hdis' _ Hi)|]. apply Hi. set_solver.
    + intros i [->|Hi]%elem_of_cons; [by right|].
      destruct (H2 i Hi) as [|[Ho Hcl]]; [left; by right|right]. split; [done|]. set_solver.
Qed.

Lemma preserve_identity_bodies old new : ∀ claimed,
  map hunk_body (preserve_identity old claimed new) = map hunk_body new
  ∧ map hunk_path (preserve_identity old claimed new) = map hunk_path new.
Proof.
  induction new as [|n new IH]; intros claimed; cbn [preserve_identity]; [done|].
  destruct (find_matching_old_hunk n old) as [o|]; [case_decide|]; cbn [map];
    (edestruct IH as [-> ->]); done.
Qed.

Section index.
Context `{TrackerEnv}.

(** ** The invariant *)

Definition file_of (a : HunkTrackerActor) (p : path) (st : FileHunkState) : Prop :=
  file_states a !! p = Some st.

(** The hunk is pending in a file. *)
Definition live (a : HunkTrackerActor) (h : Hunk) : Prop :=
  ∃ p st, file_of a p st ∧ h ∈ hunks st.

Definition drawn_id (n : nat) (i : HunkId) : Prop := ∃ k, (k < n)%nat ∧ i = uuid k.

(** [E] holds identifiers that may be missing from the index. *)
Record index_ok (E : gset HunkId) (a : HunkTrackerActor) (n : nat) : Prop := {
  live_drawn h : live a h → drawn_id n (hunk_id h);
  indexed_drawn i id : id ∈ turn_ids (turn_index a) i → drawn_id n id;
  file_ids p st : file_of a p st → NoDup (ids (hunks st));
  one_file p q st st' h h' :
    file_of a p st → file_of a q st' → h ∈ hunks st → h' ∈ hunks st' →
    hunk_id h = hunk_id h' → p = q;
  index_sound i h : live a h → hunk_id h ∈ turn_ids (turn_index a) i → hunk_prompt h = Some i;
  index_complete i h :
    live a h → hunk_prompt h = Some i → hunk_id h ∉ E → hunk_id h ∈ turn_ids (turn_index a) i;
}.

(** The pending hunks are those of a diff of the two contents, or there are
    none. *)
Definition fits (st : FileHunkState) : Prop :=
  hunks st = [] ∨
  match baseline st, current_content st with
  | Full b, Full c =>
      (str_len b ≤ MAX_DIFF_FILE_SIZE)%Z ∧ (str_len c ≤ MAX_DIFF_FILE_SIZE)%Z
      ∧ hunks_of (diff_lines b c) (hunks st)
  | Full b, Missing =>
      ∃ h, hunks st = [h] ∧ hunk_body h = hunk_body (file_deleted [] 0 [] b External)
  | Missing, Full c =>
      ∃ h, hunks st = [h] ∧ hunk_body h = hunk_body (file_created [] 0 [] c External)
  | _, _ => False
  end.

(** [X] holds files whose hunks are out of date. *)
Record tracker_ok (E : gset HunkId) (X : gset path) (a : HunkTrackerActor) (n : nat) : Prop := {
  ok_index : index_ok E a n;
  ok_fits p st : file_of a p st → p ∉ X → fits st;
}.

Lemma drawn_id_mono n m i : drawn_id n i → (n ≤ m)%nat → drawn_id m i.
Proof. intros (k & Hk & ->) Hle. exists k. split; [lia|done]. Qed.

Lemma tracker_ok_new wd m : tracker_ok ∅ ∅ (HunkTrackerActor_new wd m) 0.
Proof.
  set (a := HunkTrackerActor_new wd m).
  assert (He : ∀ p st, ¬ file_of a p st).
  { intros p st E. unfold file_of in E. cbn in E. by rewrite lookup_empty in E. }
  assert (Hl : ∀ h, ¬ live a h) by (intros h (p & st & E & _); by apply (He p st)).
  assert (Ht : ∀ i id, id ∉ turn_ids (turn_index a) i).
  { intros i id. unfold turn_ids. cbn. rewrite lookup_empty. cbn. set_solver. }
  split; [split|]; intros; exfalso; naive_solver.
Qed.

(** ** What updates do to it *)

(** A weaker exception set, more exceptions, more identifiers drawn. *)
Lemma index_ok_mono E E' a n m : index_ok E a n → E ⊆ E' → (n ≤ m)%nat → index_ok E' a m.
Proof.
  intros [H1 H2 H3 H4 H5 H6] HE Hm. split; eauto using drawn_id_mono.
Qed.

(** Identifiers of no pending hunk need no exception. *)
Lemma index_ok_dead E a n (l : list Hunk) :
  index_ok (list_to_set (ids l) ∪ E) a n → (∀ h, live a h → hunk_id h ∉ ids l) → index_ok E a n.
Proof.
  intros [H1 H2 H3 H4 H5 H6] Hdead. split; auto.
  intros i h Hl Hp He. apply H6; [done..|].
  rewrite elem_of_union, elem_of_list_to_set. intros [Hx|Hx]; [by apply (Hdead h Hl)|done].
Qed.

(** One file changes and its hunks become some of those it had; a file may
    disappear. *)
Definition shrinks (old new : option FileHunkState) : Prop :=
  match new with
  | None => True
  | Some st' => hunks st' = []
                ∨ ∃ st, old = Some st ∧ hunks st' `sublist_of` hunks st
  end.

Definition with_file (a : HunkTrackerActor) (p : path) (new : option FileHunkState) :
    HunkTrackerActor :=
  set_files (partial_alter (λ _, new) p (file_states a)) a.

Lemma file_of_with a p new q st :
  file_of (with_file a p new) q st ↔ (q = p ∧ new = Some st) ∨ (q ≠ p ∧ file_of a q st).
Proof.
  unfold file_of, with_file. cbn [set_files file_states].
  destruct (decide (q = p)) as [->|Hne].
  - rewrite lookup_partial_alter_eq. naive_solver.
  - rewrite lookup_partial_alter_ne by done. naive_solver.
Qed.

Lemma live_with a p new h :
  live (with_file a p new) h ↔
  (∃ st, new = Some st ∧ h ∈ hunks st) ∨ ∃ q st, q ≠ p ∧ file_of a q st ∧ h ∈ hunks st.
Proof. unfold live. setoid_rewrite file_of_with. naive_solver. Qed.

Lemma shrinks_elem a p new st' h :
  shrinks (file_states a !! p) new → new = Some st' → h ∈ hunks st' →
  ∃ st, file_of a p st ∧ h ∈ hunks st.
Proof.
  intros Hs -> Hh. destruct Hs as [Hn|(st & Hf & Hsub)]; [rewrite Hn in Hh; by apply elem_of_nil in Hh|].
  exists st. split; [done|]. by eapply elem_of_sublist.
Qed.

Lemma index_ok_shrink E a n p new :
  index_ok E a n → shrinks (file_states a !! p) new → index_ok E (with_file a p new) n.
Proof.
  intros Hok Hs.
  assert (Hfile : ∀ q st h, file_of (with_file a p new) q st → h ∈ hunks st →
            ∃ st0, file_of a q st0 ∧ h ∈ hunks st0).
  { intros q st h [[-> Hn]|[Hq Hf]]%file_of_with Hh; [by eapply shrinks_elem|by exists st]. }
  assert (Hlive : ∀ h, live (with_file a p new) h → live a h).
  { intros h (q & st & Hf & Hh). destruct (Hfile _ _ _ Hf Hh) as (st0 & ? & ?). by exists q, st0. }
  destruct Hok as [H1 H2 H3 H4 H5 H6]. split; cbn [with_file set_files turn_index]; auto.
  - intros q st [[-> ->]|[Hq Hf]]%file_of_with; [|by eapply H3].
    destruct Hs as [Hn|(st0 & Hf & Hsub)]; [rewrite Hn; constructor|].
    eapply sublist_NoDup; [|by apply (fmap_sublist hunk_id)]. by eapply H3.
  - intros q q' st st' h h' Hf Hf' Hh Hh' Hid.
    destruct (Hfile _ _ _ Hf Hh) as (s1 & ? & ?), (Hfile _ _ _ Hf' Hh') as (s2 & ? & ?). eauto.
Qed.

Lemma elem_of_ids h (l : list Hunk) : h ∈ l → hunk_id h ∈ ids l.
Proof. intros Hh. apply list_elem_of_fmap. by exists h. Qed.
Lemma ids_elem_of i (l : list Hunk) : i ∈ ids l → ∃ h, h ∈ l ∧ hunk_id h = i.
Proof. intros (h & -> & Hh)%list_elem_of_fmap. by exists h. Qed.

(** Removing index entries: the identifiers may be missing then. *)
Lemma index_ok_unindex E a n l :
  index_ok E a n →
  index_ok (list_to_set (ids l) ∪ E) (set_turns (unindex l (turn_index a)) a) n.
Proof.
  intros [H1 H2 H3 H4 H5 H6]. split; cbn [set_turns turn_index]; auto.
  - intros i id [Hi _]%elem_of_unindex. by eapply H2.
  - intros i h Hl [Hi _]%elem_of_unindex. by eapply H5.
  - intros i h Hl Hp Hn. rewrite not_elem_of_union, not_elem_of_list_to_set in Hn.
    destruct Hn as [Hnl Hn]. apply elem_of_unindex. split; [by apply H6|].
    intros (x & Hx & Hid & _). apply Hnl. rewrite <- Hid. by apply elem_of_ids.
Qed.

(** New hunks take the place of a file's hunks: every identifier is an old one
    of the file or a fresh one. *)
Lemma index_ok_replace E a n m p st st' :
  index_ok E a n → file_of a p st → (n ≤ m)%nat →
  NoDup (ids (hunks st')) →
  (∀ i, i ∈ ids (hunks st') → i ∈ ids (hunks st) ∨ ∃ k, (n ≤ k < m)%nat ∧ i = uuid k) →
  Inj (=) (=) uuid →
  index_ok E (set_turns (index (hunks st') (unindex (hunks st) (turn_index a)))
                (with_file a p (Some st'))) m.
Proof.
  intros [H1 H2 H3 H4 H5 H6] Hf Hm Hnd Hids Hinj.
  assert (Hfresh : ∀ i, drawn_id n i → (∃ k, (n ≤ k < m)%nat ∧ i = uuid k) → False).
  { intros i (k & Hk & ->) (k' & Hk' & E'). apply (inj uuid) in E'. lia. }
  assert (Hold : ∀ h, h ∈ hunks st → live a h) by (intros h Hh; by exists p, st).
  assert (Hlive : ∀ h, live (set_turns (index (hunks st') (unindex (hunks st) (turn_index a)))
                         (with_file a p (Some st'))) h ↔
            h ∈ hunks st' ∨ ∃ q s, q ≠ p ∧ file_of a q s ∧ h ∈ hunks s).
  { intros h. change (live (with_file a p (Some st')) h ↔
      h ∈ hunks st' ∨ ∃ q s, q ≠ p ∧ file_of a q s ∧ h ∈ hunks s).
    rewrite live_with. naive_solver. }
  assert (Hother : ∀ q s h x, q ≠ p → file_of a q s → h ∈ hunks s → x ∈ hunks st' →
            hunk_id x ≠ hunk_id h).
  { intros q s h x Hq Hs Hh Hx Hid. destruct (Hids (hunk_id x) (elem_of_ids _ _ Hx)) as [Ho|Hk].
    - apply ids_elem_of in Ho as (o & Ho & Hoid). apply Hq, (H4 q p s st h o); [done..|congruence].
    - rewrite Hid in Hk. apply (Hfresh (hunk_id h)); [|done]. apply H1. by exists q, s. }
  split.
  - intros h [Hh|(q & s & _ & Hs & Hh)]%Hlive.
    + destruct (Hids (hunk_id h) (elem_of_ids _ _ Hh)) as [Ho|(k & Hk & ->)].
      * apply ids_elem_of in Ho as (o & Ho & <-). eauto using drawn_id_mono.
      * exists k. split; [lia|done].
    + eapply drawn_id_mono; [apply H1; by exists q, s|done].
  - cbn [set_turns turn_index]. intros i id [[Hi _]%elem_of_unindex|(h & Hh & <- & _)]%elem_of_index.
    + eauto using drawn_id_mono.
    + destruct (Hids (hunk_id h) (elem_of_ids _ _ Hh)) as [Ho|(k & Hk & ->)].
      * apply ids_elem_of in Ho as (o & Ho & <-). eauto using drawn_id_mono.
      * exists k. split; [lia|done].
  - intros q s [[-> [= ->]]|[Hq Hs]]%file_of_with; [done|by eapply H3].
  - intros q q' s s' h h' [[-> [= <-]]|[Hq Hs]]%file_of_with [[-> [= <-]]|[Hq' Hs']]%file_of_with
      Hh Hh' Hid; [done| | |by eapply (H4 q q' s s' h h')].
    + exfalso. by eapply (Hother q' s' h' h).
    + exfalso. by eapply (Hother q s h h').
  - cbn [set_turns turn_index]. intros i h Hh [[Hi Hrem]%elem_of_unindex|(x & Hx & Hid & Hp)]%elem_of_index;
      apply Hlive in Hh as [Hh|(q & s & Hq & Hs & Hh)].
    + exfalso. destruct (Hids (hunk_id h) (elem_of_ids _ _ Hh)) as [Ho|Hk]; [|by eapply Hfresh; eauto].
      apply ids_elem_of in Ho as (o & Ho & Hoid). apply Hrem. exists o. split_and!; [done..|].
      apply H5; [by apply Hold|by rewrite Hoid].
    + apply H5; [by exists q, s|done].
    + assert (x = h) as <-; [|done].
      apply list_elem_of_lookup in Hx as [j Hj], Hh as [k Hk].
      assert (Ej : ids (hunks st') !! j = Some (hunk_id x)) by (unfold ids; by rewrite list_lookup_fmap, Hj).
      assert (Ek : ids (hunks st') !! k = Some (hunk_id x))
        by (unfold ids; by rewrite list_lookup_fmap, Hk, Hid).
      pose proof (NoDup_lookup _ _ _ _ Hnd Ej Ek). congruence.
    + exfalso. by eapply (Hother q s h x).
  - cbn [set_turns turn_index]. intros i h Hh Hp He. apply elem_of_index.
    apply Hlive in Hh as [Hh|(q & s & Hq & Hs & Hh)]; [right; by exists h|].
    left. apply elem_of_unindex. split; [apply H6; [by exists q, s|done..]|].
    intros (o & Ho & Hid & _). apply Hq. by eapply (H4 q p s st h o).
Qed.

(** Hunks leave a file: their identifiers need no exception any more. *)
Lemma index_ok_drop E a n p st new l :
  index_ok (list_to_set (ids l) ∪ E) a n → file_of a p st → shrinks (Some st) new →
  (∀ x, x ∈ l → x ∈ hunks st) →
  (∀ st' h, new = Some st' → h ∈ hunks st' → hunk_id h ∉ ids l) →
  index_ok E (with_file a p new) n.
Proof.
  intros Hok Hf Hs Hl Hnew. apply (index_ok_dead _ _ _ l).
  - apply index_ok_shrink; [done|]. by rewrite Hf.
  - intros h [(st' & Hst & Hh)|(q & s & Hq & Hfq & Hh)]%live_with; [by eapply Hnew|].
    intros (x & Hx & Hid)%ids_elem_of. apply Hq.
    by eapply (one_file _ _ _ Hok q p s st h x); [..|apply Hl|].
Qed.

Lemma index_ok_discard E a n p st new :
  index_ok E a n → file_of a p st →
  (∀ st', new = Some st' → hunks st' = []) →
  index_ok E (set_turns (unindex (hunks st) (turn_index a)) (with_file a p new)) n.
Proof.
  intros Hok Hf Hnew.
  change (index_ok E (with_file (set_turns (unindex (hunks st) (turn_index a)) a) p new) n).
  eapply (index_ok_drop _ _ _ p st new (hunks st)); [by apply index_ok_unindex|done| |done|].
  - destruct new as [st'|]; [left; by apply Hnew|done].
  - intros st' h -> Hh. rewrite Hnew in Hh by done. by apply elem_of_nil in Hh.
Qed.

Lemma without_hunks_spec l hs h :
  h ∈ without_hunks l hs ↔ h ∈ hs ∧ hunk_id h ∉ ids l.
Proof.
  unfold without_hunks. rewrite elem_of_list_filter, negb_true_iff, <- not_true_iff_false.
  rewrite existsb_exists. split; intros [H1 H2]; (split; [done|]).
  - intros (x & Hx & Hid)%ids_elem_of. apply H2. exists x. rewrite <- list_elem_of_In.
    split; [done|]. by apply bool_decide_eq_true.
  - intros (x & Hx%list_elem_of_In & Hid%bool_decide_eq_true). apply H2. rewrite <- Hid.
    by apply elem_of_ids.
Qed.

Lemma list_filter_sublist {A} (f : A → bool) (l : list A) : List.filter f l `sublist_of` l.
Proof. induction l as [|x l IH]; cbn [List.filter]; [constructor|]. by case_match; constructor. Qed.

Lemma without_all l : without_hunks l l = [].
Proof.
  assert (∀ h, h ∉ without_hunks l l) as Hn.
  { intros h [Hh Hid]%without_hunks_spec. by apply Hid, elem_of_ids. }
  destruct (without_hunks l l) as [|x r]; [done|]. exfalso. apply (Hn x). left.
Qed.
End index.
