(* ===== verification/HunkTrackerFacts.v ===== *)
(** * Hunk tracker: the invariant over every command

    Triples for the monad of the handlers, the invariant of HunkIndex for each
    handler, and for every reachable actor. *)
From S2P Require Import Prelude RustStr StrSearch HunkTypes HunkDiff HunkDiffFacts HunkWorld HunkTracker.
From S2P Require Import HunkIndex.

Create HintDb tracker.

Section triples.
Context `{TrackerEnv}.

(** ** Triples *)

Abbreviation assertion := (HunkTrackerActor → nat → Prop).

(** From an actor in [P], [m] answers [r] and leaves an actor in [Q r]. *)
Definition triple {A} (P : assertion) (m : M A) (Q : A → assertion) : Prop :=
  ∀ s, P (actor s) (drawn s) → Q (m s).1 (actor (m s).2) (drawn (m s).2).
Definition keeps {A} (P : assertion) (m : M A) : Prop := triple P m (λ _, P).

(** An assertion on the tracked files and the turn index only *)
Class Stable (P : assertion) : Prop :=
  stable a a' n : file_states a = file_states a' → turn_index a = turn_index a' → P a n → P a' n.

Lemma triple_bind {A B} P R Q (m : M A) (k : A → M B) :
  triple P m R → (∀ a, triple (R a) (k a) Q) → triple P (m ≫= k) Q.
Proof.
  intros Hm Hk s HP. unfold mbind, M_bind. specialize (Hm s HP). destruct (m s) as [a s'].
  by apply Hk.
Qed.
Lemma triple_weaken {A} (P P' : assertion) (Q Q' : A → assertion) (m : M A) :
  triple P' m Q' → (∀ a n, P a n → P' a n) → (∀ r a n, Q' r a n → Q r a n) → triple P m Q.
Proof. intros Hm HP HQ s Hs. by apply HQ, Hm, HP. Qed.
Lemma triple_ret {A} (P : A → assertion) (x : A) : triple (P x) (mret x) P.
Proof. by intros s HP. Qed.
Lemma triple_get_actor (P : assertion) :
  triple P get_actor (λ r a n, P a n ∧ r = a).
Proof. by intros s HP. Qed.
Lemma triple_get_file (P : assertion) p :
  triple P (get_file p) (λ r a n, P a n ∧ r = file_states a !! p).
Proof. by intros s HP. Qed.
Lemma triple_modify (P Q : assertion) f :
  (∀ a n, P a n → Q (f a) n) → triple P (modify f) (λ _, Q).
Proof. intros Hf s HP. by apply Hf. Qed.

Lemma keeps_bind {A B} P (m : M A) (k : A → M B) :
  keeps P m → (∀ a, keeps P (k a)) → keeps P (m ≫= k).
Proof. intros. by eapply triple_bind. Qed.
Lemma keeps_then {A B} P Q (m : M A) (k : A → M B) :
  keeps P m → (∀ a, triple P (k a) Q) → triple P (m ≫= k) Q.
Proof. intros. by eapply triple_bind. Qed.
Lemma keeps_ret {A} P (x : A) : keeps P (mret x).
Proof. by intros s HP. Qed.
Lemma keeps_get_actor P : keeps P get_actor.
Proof. by intros s HP. Qed.
Lemma keeps_get_file P p : keeps P (get_file p).
Proof. by intros s HP. Qed.
Lemma keeps_ask {A} P (op : World → A * World) : keeps P (ask op).
Proof. intros s HP. unfold ask. by destruct (op (world s)). Qed.
Lemma keeps_observe {A} P (f : World → A) : keeps P (observe f).
Proof. by intros s HP. Qed.
Lemma keeps_send P e : keeps P (send_event e).
Proof. by intros s HP. Qed.
Lemma keeps_log P op : keeps P (log_disk op).
Proof. by intros s HP. Qed.
Lemma keeps_mapM_ {A} P (f : A → M unit) l : (∀ x, keeps P (f x)) → keeps P (mapM_ f l).
Proof. intros Hf. induction l; [apply keeps_ret|]. by apply keeps_bind. Qed.
Lemma keeps_map_M {A B} P (f : A → M B) l : (∀ x, keeps P (f x)) → keeps P (map_M f l).
Proof.
  intros Hf. induction l; [apply keeps_ret|]. apply keeps_bind; [done|]. intros y.
  apply keeps_bind; [done|]. intros ys. apply keeps_ret.
Qed.
Lemma keeps_stable P `{!Stable P} f :
  (∀ a, file_states (f a) = file_states a) → (∀ a, turn_index (f a) = turn_index a) →
  keeps P (modify f).
Proof. intros Hf Ht. apply triple_modify. intros a n. by apply stable. Qed.
Lemma keeps_blocking {A} P (m : M A) : keeps P m → keeps P (blocking m).
Proof.
  intros Hm. apply keeps_bind; [apply keeps_ask|]. intros []; [apply keeps_ret|].
  apply keeps_bind; [done|]. intros x. apply keeps_ret.
Qed.
End triples.

#[export] Hint Resolve keeps_ret keeps_get_actor keeps_get_file keeps_ask keeps_observe
  keeps_send keeps_log keeps_mapM_ keeps_map_M keeps_blocking : tracker.

(** Cut a handler at its binds and matches. *)
Ltac keeps_step :=
  first [ solve [eauto with tracker nocore]
        | apply keeps_bind; [|intros ?]
        | progress case_match
        | apply keeps_mapM_; intros ?
        | apply keeps_map_M; intros ?
        | apply keeps_blocking ].
Ltac keeps_tac := repeat keeps_step.

Section git.
Context `{TrackerEnv} (P : HunkTrackerActor → nat → Prop) `{!Stable P}.

(** ** Reading the disk and the repository *)

Lemma keeps_set_repo r : keeps P (modify (set_repo r)).
Proof. by apply keeps_stable. Qed.
Lemma keeps_record_discovery d : keeps P (record_discovery d).
Proof. unfold record_discovery. repeat case_match; auto using keeps_set_repo, keeps_ret. Qed.
Lemma keeps_canonicalize_or p q : keeps P (canonicalize_or p q).
Proof. unfold canonicalize_or. keeps_tac. Qed.
Lemma keeps_canonicalize_or_parent p : keeps P (canonicalize_or_parent p).
Proof. unfold canonicalize_or_parent. keeps_tac. Qed.
Lemma keeps_open_or_discover : keeps P open_or_discover.
Proof. unfold open_or_discover. pose proof keeps_canonicalize_or. keeps_tac. Qed.
Lemma keeps_read_file_bounded p : keeps P (read_file_bounded p).
Proof. unfold read_file_bounded. keeps_tac. Qed.

Lemma keeps_read_baseline p : keeps P (read_baseline p).
Proof.
  unfold read_baseline.
  pose proof keeps_open_or_discover. pose proof keeps_canonicalize_or.
  pose proof keeps_canonicalize_or_parent. pose proof keeps_record_discovery. keeps_tac.
Qed.
Lemma keeps_read_baselines_batch l : keeps P (read_baselines_batch l).
Proof.
  unfold read_baselines_batch.
  pose proof keeps_open_or_discover. pose proof keeps_canonicalize_or.
  pose proof keeps_canonicalize_or_parent. pose proof keeps_record_discovery. keeps_tac.
Qed.
Lemma keeps_read_repo_sync_state : keeps P read_repo_sync_state.
Proof.
  unfold read_repo_sync_state. pose proof keeps_open_or_discover.
  pose proof keeps_record_discovery. keeps_tac.
Qed.
Lemma keeps_git_scan scope : keeps P (git_scan scope).
Proof. unfold git_scan. pose proof keeps_open_or_discover. keeps_tac. Qed.
End git.

#[export] Hint Extern 0 (Stable _) => apply _ : tracker.
#[export] Hint Resolve keeps_record_discovery keeps_read_file_bounded keeps_read_baseline
  keeps_read_baselines_batch keeps_read_repo_sync_state keeps_git_scan : tracker.

(** ** The tracked files *)

Section handlers.
Context `{TrackerEnv}.

#[global] Instance tracker_ok_stable E X : Stable (tracker_ok E X).
Proof.
  intros a a' n Hf Ht [[H1 H2 H3 H4 H5 H6] H7].
  assert (Hl : ∀ h, live a' h ↔ live a h) by (intros h; unfold live, file_of; by rewrite Hf).
  unfold file_of in *. rewrite Hf in *. rewrite Ht in *.
  split; [split|]; unfold file_of; auto; intros *; rewrite ?Hl; auto.
Qed.

Lemma tracker_ok_mono E X X' a n : tracker_ok E X a n → X ⊆ X' → tracker_ok E X' a n.
Proof. intros [Hi Hf] HX. split; [done|]. intros p st Hp Hn. apply (Hf p); set_solver. Qed.

Lemma tracker_ok_exempt E E' X a n : tracker_ok E X a n → E ⊆ E' → tracker_ok E' X a n.
Proof. intros [Hi Hf] HE. split; [by eapply index_ok_mono|done]. Qed.

Lemma tracker_ok_with E X a n p new :
  tracker_ok E X a n → index_ok E (with_file a p new) n →
  (∀ st, new = Some st → p ∉ X → fits st) → tracker_ok E X (with_file a p new) n.
Proof.
  intros [_ Hf] Hi Hnew. split; [done|].
  intros q st [[-> Hst]|[Hq Hst]]%file_of_with Hx; [by eapply Hnew|by eapply Hf].
Qed.

Lemma insert_is_with a p st : set_files (<[p := st]> (file_states a)) a = with_file a p (Some st).
Proof. reflexivity. Qed.
Lemma alter_is_with a p f :
  set_files (alter f p (file_states a)) a = with_file a p (f <$> file_states a !! p).
Proof.
  unfold with_file. f_equal. unfold alter, map_alter. apply partial_alter_ext. by intros x <-.
Qed.
Lemma delete_is_with a p : set_files (delete p (file_states a)) a = with_file a p None.
Proof. reflexivity. Qed.

Lemma keeps_track E X p st :
  hunks st = [] → keeps (tracker_ok E X) (track p st).
Proof.
  intros Hst. apply keeps_bind; [|intros; apply keeps_send].
  apply triple_modify. intros a n Hok. rewrite insert_is_with.
  apply tracker_ok_with; [done| |].
  - apply index_ok_shrink; [apply Hok|]. by left.
  - intros s [= <-] _. by left.
Qed.

(** Clearing the hunks of a file, or changing nothing they depend on *)
Lemma keeps_clear E X p f :
  (∀ st, hunks (f st) = []) → keeps (tracker_ok E X) (update_file p f).
Proof.
  intros Hf. apply triple_modify. intros a n Hok. rewrite alter_is_with.
  apply tracker_ok_with; [done| |].
  - apply index_ok_shrink; [apply Hok|]. destruct (file_states a !! p); cbn; [|done]. left. apply Hf.
  - intros s Hs _. left. destruct (file_states a !! p); cbn in Hs; simplify_eq. apply Hf.
Qed.
Lemma keeps_agent_flag E X p : keeps (tracker_ok E X) (update_file p set_agent_file).
Proof.
  apply triple_modify. intros a n Hok. rewrite alter_is_with.
  destruct (file_states a !! p) as [st|] eqn:Hp; cbn.
  - apply tracker_ok_with; [done| |].
    + apply index_ok_shrink; [apply Hok|]. rewrite Hp. right. by exists st.
    + intros s [= <-] Hx. exact (ok_fits _ _ _ _ Hok p st Hp Hx).
  - apply tracker_ok_with; [done| |done]. by apply index_ok_shrink; [apply Hok|].
Qed.

(** After any other change of its contents a file is out of date. *)
Lemma update_stale E X p f :
  (∀ st, hunks (f st) `sublist_of` hunks st) →
  triple (tracker_ok E X) (update_file p f) (λ _, tracker_ok E ({[p]} ∪ X)).
Proof.
  intros Hf. apply triple_modify. intros a n Hok. rewrite alter_is_with.
  apply (tracker_ok_mono _ _ ({[p]} ∪ X)) in Hok; [|set_solver].
  apply tracker_ok_with; [done| |].
  - apply index_ok_shrink; [apply Hok|].
    destruct (file_states a !! p) as [st|]; cbn; [|done]. right. by exists st.
  - intros s _ Hn. set_solver.
Qed.

(** ** Recomputation *)

Lemma draw_builds p src l : ∀ s,
  let '(r, s') := map_M (λ b, i ← draw; mret (build p src i.1 i.2 b)) l s in
  actor s' = actor s ∧ drawn s' = (drawn s + length r)%nat
  ∧ sent s' = sent s ∧ disk_log s' = disk_log s
  ∧ ids r = map uuid (seq (drawn s) (length r)) ∧ map hunk_body r = map builder_body l.
Proof.
  induction l as [|b l IH]; intros s.
  - cbn. by rewrite Nat.add_0_r.
  - cbn [map_M]. unfold mbind, M_bind. cbn [draw].
    set (s1 := {| actor := actor s; world := world s; drawn := S (drawn s); sent := sent s;
                  disk_log := disk_log s |}).
    specialize (IH s1). cbn [mret M_ret fst snd].
    destruct (map_M _ l s1) as [r s'] eqn:E. cbn [mret M_ret].
    destruct IH as (Ha & Hd & Hs & Hl & Hi & Hb). cbn [actor drawn sent disk_log s1] in *.
    cbn [ids map seq length hunk_id build]. rewrite Ha, Hd, Hs, Hl, Hb.
    split_and!; [done|lia|done|done| |done]. f_equal. exact Hi.
Qed.

(** What [hunks_between] gives: the next identifiers, and hunks as [fits] asks. *)
Definition fresh_hunks (b c : FileContentState) (s : Sys) (r : list Hunk) (s' : Sys) : Prop :=
  actor s' = actor s ∧ drawn s' = (drawn s + length r)%nat
  ∧ sent s' = sent s ∧ disk_log s' = disk_log s
  ∧ ids r = map uuid (seq (drawn s) (length r))
  ∧ ∀ st, baseline st = b → current_content st = c → map hunk_body (hunks st) = map hunk_body r →
      fits st.

Lemma fresh_none b c s s' :
  actor s' = actor s → drawn s' = drawn s → sent s' = sent s → disk_log s' = disk_log s →
  fresh_hunks b c s [] s'.
Proof.
  unfold fresh_hunks. intros. split_and!; [done|cbn; lia|done|done|done|].
  intros st _ _ E. apply map_eq_nil in E. by left.
Qed.

Lemma fresh_one b c s h :
  hunk_id h = uuid (drawn s) →
  (∀ st x, baseline st = b → current_content st = c → hunks st = [x] →
     hunk_body x = hunk_body h → fits st) →
  fresh_hunks b c s [h] (draw s).2.
Proof.
  unfold fresh_hunks. intros Hid Hfit. split_and!; [done|cbn; lia|done|done|cbn; by rewrite Hid|].
  intros st Hb Hc E. destruct (hunks st) as [|x [|]] eqn:Hx; try discriminate E.
  eapply Hfit; [done..|]. unfold hunk_body in *. cbn in E. congruence.
Qed.

Lemma compute_hunks_spec p b c src s :
  fresh_hunks (Full b) (Full c) s (compute_hunks p b c src s).1 (compute_hunks p b c src s).2.
Proof.
  unfold compute_hunks. destruct (str_eqb b c); [by apply fresh_none|].
  destruct (_ || _)%bool eqn:Hsize; [by apply fresh_none|].
  apply orb_false_iff in Hsize as [Hb%Z.ltb_ge Hc%Z.ltb_ge].
  unfold mbind, M_bind, ask.
  destruct (diff_times_out b c (world s)) as [[] w]; [by apply fresh_none|].
  set (s1 := {| actor := actor s; world := w; drawn := drawn s; sent := sent s;
                disk_log := disk_log s |}).
  pose proof (draw_builds p src (change_loop (diff_lines b c) 1 1 None) s1) as Hd.
  unfold mbind, M_bind in Hd. destruct (map_M _ _ s1) as [r s'].
  destruct Hd as (Ha & Hn & Hs & Hl & Hi & Hbody). cbn [fst snd].
  unfold fresh_hunks. split_and!; [done..|]. intros st Hsb Hsc E. right. rewrite Hsb, Hsc.
  split_and!; [done..|].
  unfold hunks_of. by rewrite E.
Qed.

Lemma hunks_between_spec p b c src s :
  fresh_hunks b c s (hunks_between p b c src s).1 (hunks_between p b c src s).2.
Proof.
  destruct b as [| | | | |b], c as [| | | | |c]; cbn [hunks_between];
    try (by apply fresh_none); [| |apply compute_hunks_spec].
  - destruct c as [|x c]; cbn [is_empty]; [by apply fresh_none|].
    apply fresh_one; [done|]. intros st h Hb Hc Hx E. right. rewrite Hb, Hc. by exists h.
  - destruct b as [|x b]; cbn [is_empty]; [by apply fresh_none|].
    apply fresh_one; [done|]. intros st h Hb Hc Hx E. right. rewrite Hb, Hc. by exists h.
Qed.

(** What a recomputation leaves: only the file, the index and the counter. *)
Definition recomputed (p : path) (st : FileHunkState) (c : FileContentState) (new : list Hunk)
    (a : HunkTrackerActor) : HunkTrackerActor :=
  set_turns (index new (unindex (hunks st) (turn_index a)))
    (with_file a p (Some (set_hunks new (set_current c st)))).

Lemma send_events_actor l : ∀ s, actor (send_events l s).2 = actor s ∧ drawn (send_events l s).2 = drawn s
  ∧ sent (send_events l s).2 = sent s ++ l ∧ disk_log (send_events l s).2 = disk_log s.
Proof.
  unfold send_events. induction l as [|e l IH]; intros s; cbn [mapM_].
  - cbn. by rewrite app_nil_r.
  - unfold mbind, M_bind. cbn [send_event].
    edestruct IH as (-> & -> & -> & ->). cbn. by rewrite <- app_assoc.
Qed.

Lemma recompute_spec p c src s st :
  file_of (actor s) p st →
  let s' := (recompute_hunks p c src s).2 in
  let f := hunks_between p (baseline st) (default Missing c) src s in
  let new := preserve_identity (hunks st) ∅ f.1 in
  actor s' = recomputed p st (default Missing c) new (actor s)
  ∧ drawn s' = drawn f.2
  ∧ sent s' = sent s ++ hunk_diff_events p (hunks st) new src
  ∧ disk_log s' = disk_log s.
Proof.
  intros Hp. cbn zeta. unfold recompute_hunks. unfold mbind, M_bind. cbn [get_file].
  unfold file_of in Hp. rewrite Hp.
  pose proof (hunks_between_spec p (baseline st) (default Missing c) src s) as Hf.
  destruct (hunks_between p (baseline st) (default Missing c) src s) as [r s1].
  destruct Hf as (Ha & _ & Hs & Hl & _). cbn [fst snd] in *.
  cbn [update_file modify modify_turns actor drawn sent disk_log].
  edestruct send_events_actor as (-> & -> & -> & ->). cbn [actor drawn sent disk_log].
  rewrite Ha, Hs, Hl, alter_is_with, Hp. done.
Qed.

Context `{!LawfulTrackerEnv}.

Lemma recompute_fresh E X p c src :
  triple (tracker_ok E ({[p]} ∪ X)) (recompute_hunks p c src) (λ _, tracker_ok E X).
Proof.
  intros s Hok. destruct (file_states (actor s) !! p) as [st|] eqn:Hp.
  - destruct (recompute_spec p c src s st Hp) as (-> & -> & _ & _).
    pose proof (hunks_between_spec p (baseline st) (default Missing c) src s) as Hf.
    destruct (hunks_between p (baseline st) (default Missing c) src s) as [r s1].
    destruct Hf as (_ & Hd & _ & _ & Hids & Hfit). cbn [fst snd] in *.
    set (new := preserve_identity (hunks st) ∅ r).
    assert (Hfr : ∀ i, i ∈ ids r → ∃ k, (drawn s ≤ k < drawn s1)%nat ∧ i = uuid k).
    { intros i Hi. rewrite Hids in Hi. apply list_elem_of_fmap in Hi as (k & -> & Hk).
      apply elem_of_seq in Hk. exists k. split; [lia|done]. }
    assert (Hnd : NoDup (ids r)).
    { rewrite Hids. apply (NoDup_fmap_2 uuid), NoDup_seq. }
    destruct (preserve_identity_ids (hunks st) r ∅ Hnd) as [Hnew Hsrc].
    { intros i Hi (o & Ho & Hoid)%ids_elem_of. destruct (Hfr i Hi) as (k & Hk & ->).
      destruct (live_drawn _ _ _ (ok_index _ _ _ _ Hok) o) as (k' & Hk' & E'); [by exists p, st|].
      rewrite Hoid in E'. apply (inj uuid) in E'. lia. }
    split.
    + unfold recomputed.
      apply (index_ok_replace E (actor s) (drawn s) (drawn s1) p st (set_hunks new _));
        [apply Hok|done|lia|done| |apply uuid_inj].
      intros i Hi. destruct (Hsrc i Hi) as [Hr|[Ho _]]; [right; by apply Hfr|by left].
    + intros q st' Hq Hx. apply (file_of_with (actor s)) in Hq as [[-> [= <-]]|[Hq Hf]].
      * apply Hfit; [done..|]. apply preserve_identity_bodies.
      * eapply (ok_fits _ _ _ _ Hok q st' Hf). set_solver.
  - unfold recompute_hunks. unfold mbind, M_bind. cbn [get_file]. rewrite Hp. cbn.
    destruct Hok as [Hi Hf]. split; [done|]. intros q st Hq Hx. apply (Hf q st Hq).
    intros [->%elem_of_singleton|]%elem_of_union; [|done]. unfold file_of in Hq. congruence.
Qed.

Lemma keeps_recompute E X p c src : keeps (tracker_ok E X) (recompute_hunks p c src).
Proof.
  eapply triple_weaken; [apply (recompute_fresh E X)| |done].
  intros a n Hok. eapply tracker_ok_mono; [done|]. set_solver.
Qed.
Lemma keeps_recompute_external E X p c : keeps (tracker_ok E X) (recompute_external p c).
Proof. apply keeps_bind; [apply keeps_get_file|]. intros. apply keeps_recompute. Qed.
Lemma recompute_remaining_fresh E X p c :
  triple (tracker_ok E ({[p]} ∪ X)) (recompute_remaining p c) (λ _, tracker_ok E X).
Proof.
  unfold recompute_remaining. eapply triple_bind; [|intros; apply recompute_fresh].
  unfold remaining_source. apply keeps_bind; [apply keeps_get_file|]. intros. apply keeps_ret.
Qed.
End handlers.

#[export] Hint Resolve keeps_recompute keeps_recompute_external keeps_agent_flag : tracker.
#[export] Hint Extern 1 (keeps _ (track _ _)) => apply keeps_track; reflexivity : tracker.
#[export] Hint Extern 1 (keeps _ (update_file _ _)) => apply keeps_clear; reflexivity : tracker.
#[export] Hint Extern 1 (keeps (tracker_ok _ _) (modify (set_caches _ _))) =>
  apply keeps_stable; [apply _|reflexivity..] : tracker.
#[export] Hint Extern 1 (keeps (tracker_ok _ _) (modify (set_sync _))) =>
  apply keeps_stable; [apply _|reflexivity..] : tracker.
#[export] Hint Extern 1 (keeps (tracker_ok _ _) (modify (set_tracking _))) =>
  apply keeps_stable; [apply _|reflexivity..] : tracker.
#[export] Hint Extern 1 (keeps (tracker_ok _ _) (modify (set_stats _))) =>
  apply keeps_stable; [apply _|reflexivity..] : tracker.

Section changes.
Context `{!TrackerEnv} `{!LawfulTrackerEnv}.
(** The pending hunks that the index may miss: none of these steps adds one. *)
Context (L : gset HunkId).

Abbreviation Ok := (tracker_ok L ∅).

(** ** File changes *)

Lemma keeps_record_agent_write p c i prev : keeps Ok (record_agent_write p c i prev).
Proof. unfold record_agent_write. keeps_tac. Qed.

Lemma keeps_preloaded b p : keeps Ok (preloaded_or_read b p).
Proof. unfold preloaded_or_read. keeps_tac. Qed.
Lemma keeps_is_ignored b p : keeps Ok (is_ignored b p).
Proof. unfold is_ignored. keeps_tac. Qed.
Lemma keeps_process_file_change p b : keeps Ok (process_file_change p b).
Proof.
  unfold process_file_change. pose proof keeps_preloaded. pose proof keeps_is_ignored. keeps_tac.
Qed.
Lemma keeps_handle_file_change p : keeps Ok (handle_file_change p).
Proof. apply keeps_process_file_change. Qed.
Lemma keeps_handle_file_changes_batch l : keeps Ok (handle_file_changes_batch l).
Proof. unfold handle_file_changes_batch. pose proof keeps_process_file_change. keeps_tac. Qed.
Lemma keeps_handle_file_deleted p : keeps Ok (handle_file_deleted p).
Proof. unfold handle_file_deleted. pose proof keeps_handle_file_change. keeps_tac. Qed.

Lemma discard_all p l : ∀ s,
  let s' := (mapM_ (discard_hunk p) l s).2 in
  actor s' = set_turns (unindex l (turn_index (actor s))) (actor s) ∧ drawn s' = drawn s
  ∧ disk_log s' = disk_log s.
Proof.
  induction l as [|h l IH]; intros s; cbn [mapM_]; [by destruct s as [[]]|].
  destruct (IH (discard_hunk p h s).2) as (E1 & E2 & E3).
  change ((discard_hunk p h ≫= λ _, mapM_ (discard_hunk p) l) s)
    with (mapM_ (discard_hunk p) l (discard_hunk p h s).2).
  by rewrite E1, E2, E3.
Qed.

(** The file [p] with pending hunks [l], possibly out of date, and the moment when
    its hunks are gone but still indexed *)
Definition pending_at (E : gset HunkId) (X : gset path) (p : path) (l : list Hunk)
    (a : HunkTrackerActor) (n : nat) : Prop :=
  tracker_ok E ({[p]} ∪ X) a n ∧ ∃ st, file_of a p st ∧ hunks st = l.
Definition dropped_at (E : gset HunkId) (X : gset path) (p : path) (l : list Hunk)
    (a : HunkTrackerActor) (n : nat) : Prop :=
  ∃ a0 new, pending_at E X p l a0 n ∧ (∀ st, new = Some st → hunks st = [])
            ∧ a = with_file a0 p new.

Lemma update_drops E X p l f :
  (∀ st, hunks (f st) = []) →
  triple (pending_at E X p l) (update_file p f) (λ _, dropped_at E X p l).
Proof.
  intros Hf. apply triple_modify. intros a n Hp. rewrite alter_is_with.
  exists a, (f <$> file_states a !! p). split_and!; [done| |done].
  intros st Hst. destruct (file_states a !! p); cbn in Hst; simplify_eq. apply Hf.
Qed.
Lemma remove_drops E X p l :
  triple (pending_at E X p l) (remove_file_state p) (λ _, dropped_at E X p l).
Proof.
  apply triple_modify. intros a n Hp. rewrite delete_is_with. by exists a, None.
Qed.
Lemma discard_dropped E X p l :
  triple (dropped_at E X p l) (mapM_ (discard_hunk p) l) (λ _, tracker_ok E X).
Proof.
  intros s (a0 & new & [Hok (st & Hf & <-)] & Hnew & Ha).
  destruct (discard_all p (hunks st) s) as (-> & -> & _). rewrite Ha.
  split; [by apply (index_ok_discard E a0 _ p st new); [apply Hok|..]|].
  intros q s' [[-> Hs]|[Hq Hs]]%file_of_with Hx; [left; by apply Hnew|].
  eapply (ok_fits _ _ _ _ Hok q); [done|]. set_solver.
Qed.

Lemma triple_get_pending {A} (p : path) (m : FileHunkState → M A) (e : M A) :
  (∀ st, triple (pending_at L ∅ p (hunks st)) (m st) (λ _, Ok)) → keeps Ok e →
  keeps Ok (st ← get_file p; match st with Some st => m st | None => e end).
Proof.
  intros Hm He s Hok. unfold mbind, M_bind. cbn [get_file].
  destruct (file_states (actor s) !! p) as [st|] eqn:Hp; [|by apply He].
  apply Hm. split; [eapply tracker_ok_mono; [done|set_solver]|by exists st].
Qed.

Lemma keeps_reset_baseline p : keeps Ok (reset_baseline p).
Proof.
  apply triple_get_pending; [|apply keeps_ret]. intros st.
  eapply triple_bind; [by apply update_drops|]. intros ?.
  eapply triple_bind; [apply discard_dropped|]. intros ?. apply keeps_send.
Qed.

Lemma keeps_untrack p : keeps Ok (untrack p).
Proof.
  apply triple_get_pending; [|apply keeps_ret]. intros st.
  eapply triple_bind; [by apply remove_drops|]. intros ?.
  eapply triple_bind; [apply discard_dropped|]. intros ?. apply keeps_send.
Qed.

#[global] Instance pending_stable E X p l : Stable (pending_at E X p l).
Proof.
  intros a a' n Hf Ht [Hok Hst]. split; [by eapply stable|].
  unfold file_of in *. by rewrite <- Hf.
Qed.

Lemma keeps_refresh_file b c p : keeps Ok (refresh_file b c p).
Proof.
  apply triple_get_pending; [|apply keeps_ret]. intros st.
  apply (triple_bind _ (λ _, pending_at L ∅ p (hunks st))).
  { apply triple_modify. intros a n [Hok (st' & Hf & <-)]. rewrite alter_is_with, Hf. cbn.
    split; [|by eexists; split; [by apply file_of_with; left|]].
    apply tracker_ok_with; [done| |set_solver].
    apply index_ok_shrink; [apply Hok|]. rewrite Hf. right. by exists st'. }
  intros ?. apply keeps_then; [keeps_tac|]. intros e.
  apply keeps_then; [keeps_tac|]. intros a1.
  destruct (is_clean _ _ _ _ _); [destruct (is_agent_file st)|].
  - eapply triple_bind; [by apply update_drops|]. intros ?.
    eapply triple_bind; [apply discard_dropped|]. intros ?. apply keeps_send.
  - eapply triple_bind; [by apply remove_drops|]. intros ?.
    eapply triple_bind; [apply discard_dropped|]. intros ?. apply keeps_send.
  - eapply triple_bind; [|intros; apply keeps_send].
    eapply triple_weaken; [apply (recompute_fresh L ∅)| |done]. by intros a' n [? _].
Qed.

(** ** Scans and modes *)

Lemma keeps_refresh_git_dirty_cache scope : keeps Ok (refresh_git_dirty_cache scope).
Proof. unfold refresh_git_dirty_cache. pose proof keeps_handle_file_change. keeps_tac. Qed.
Lemma keeps_refresh_all_baselines_except skip : keeps Ok (refresh_all_baselines_except skip).
Proof.
  unfold refresh_all_baselines_except, read_current. pose proof keeps_refresh_git_dirty_cache.
  pose proof keeps_refresh_file. keeps_tac.
Qed.
Lemma keeps_set_mode m : keeps Ok (set_mode m).
Proof.
  unfold set_mode. pose proof keeps_refresh_git_dirty_cache. pose proof keeps_untrack. keeps_tac.
Qed.
End changes.
