(* ===== verification/HunkFacts.v ===== *)
(** * Hunk tracker: reachable trackers

    Accepting and rejecting keep the invariant: an action first takes its hunks out
    of the index and then out of the file; a failed write or removal leaves them
    in the file, the one way the index can come to miss a pending hunk.  The
    invariant therefore carries the set of the hunks that failed actions asked for.
    Then what a batch of commands says about a path, the invariant over every
    command, the reachable trackers and their pending hunks. *)
From S2P Require Import Prelude RustStr StrSearch HunkTypes HunkDiff HunkDiffFacts HunkWorld.
From S2P Require Import HunkTracker HunkIndex HunkTrackerFacts.

Section actions.
Context `{!TrackerEnv} `{!LawfulTrackerEnv}.
(** The pending hunks that the index may miss so far *)
Context (L : gset HunkId).

Abbreviation Ok_ := (tracker_ok L ∅).

(** The hunks [l] of the file [p] are being acted on: not indexed any more. *)
Definition acting (E : gset HunkId) (p : path) (l : list Hunk) (st : FileHunkState)
    (a : HunkTrackerActor) (n : nat) : Prop :=
  tracker_ok (list_to_set (ids l) ∪ E) ∅ a n ∧ file_of a p st ∧ ∀ x, x ∈ l → x ∈ hunks st.

#[global] Instance acting_stable E p l st : Stable (acting E p l st).
Proof.
  intros a a' n Hf Ht (Hok & Hst & Hl). split_and!; [by eapply stable| |done].
  unfold file_of in *. by rewrite <- Hf.
Qed.

Lemma triple_get_known {A} P p st (k : option FileHunkState → M A) Q :
  (∀ a n, P a n → file_of a p st) → triple P (k (Some st)) Q → triple P (get_file p ≫= k) Q.
Proof.
  intros Hf Hk s HP. unfold mbind, M_bind. cbn [get_file]. rewrite (Hf _ _ HP). by apply Hk.
Qed.

(** The file after the hunks have left it: out of date, unless none is left. *)
Definition acted (E : gset HunkId) (p : path) (l : list Hunk) (st : FileHunkState)
    (a : HunkTrackerActor) (n : nat) : Prop :=
  tracker_ok E ({[p]} ∪ ∅) a n ∧ (without_hunks l (hunks st) = [] → tracker_ok E ∅ a n).
#[global] Instance acted_stable E p l st : Stable (acted E p l st).
Proof. intros a a' n Hf Ht [H1 H2]. split; [by eapply stable|]. intros. eapply stable; eauto. Qed.

Lemma act_update E p l st f :
  triple (acting E p l st) (update_file p (λ st, set_hunks (without_hunks l (hunks st)) (f st)))
    (λ _, acted E p l st).
Proof.
  apply triple_modify. intros a n (Hok & Hst & Hl). rewrite alter_is_with.
  unfold file_of in Hst. rewrite Hst. cbn.
  set (st' := set_hunks (without_hunks l (hunks st)) (f st)).
  assert (Hi : index_ok E (with_file a p (Some st')) n).
  { apply (index_ok_drop E a n p st _ l); [apply Hok|done| |done|].
    - right. exists st. split; [done|]. apply list_filter_sublist.
    - intros s' h [= <-] Hh. by apply without_hunks_spec in Hh as [_ ?]. }
  split; [|intros Hnil]; (split; [done|]);
    intros q s [[-> [= <-]]|[Hq Hs]]%file_of_with Hx.
  - set_solver.
  - eapply (ok_fits _ _ _ _ Hok q); [done|]. set_solver.
  - by left.
  - by eapply (ok_fits _ _ _ _ Hok q).
Qed.

(** A file that has one hunk has none after an action on it. *)
Lemma without_single l st x :
  hunks st = [x] → l ≠ [] → (∀ y, y ∈ l → y ∈ hunks st) → without_hunks l (hunks st) = [].
Proof.
  intros Hx Hne Hl. destruct l as [|y l]; [done|].
  assert (y = x) as -> by (specialize (Hl y); rewrite Hx in Hl; set_solver).
  destruct (without_hunks (x :: l) (hunks st)) as [|z r] eqn:E; [done|].
  assert (z ∈ without_hunks (x :: l) (hunks st)) as Hz by (rewrite E; left).
  apply without_hunks_spec in Hz as [Hz Hn]. rewrite Hx in Hz.
  apply list_elem_of_singleton in Hz as ->. exfalso. apply Hn. left.
Qed.

(** Where hunks are pending: both texts, or one text and one hunk. *)
Lemma acting_contents E p l st a n :
  acting E p l st a n → l ≠ [] →
  match baseline st, current_content st with
  | Full _, Full _ => True
  | Full _, Missing | Missing, Full _ => without_hunks l (hunks st) = []
  | _, _ => False
  end.
Proof.
  intros (Hok & Hst & Hl) Hne.
  destruct (ok_fits _ _ _ _ Hok p st Hst) as [Hn|Hfit]; [set_solver| |].
  - destruct l as [|x l]; [done|]. specialize (Hl x). rewrite Hn in Hl.
    exfalso. apply (not_elem_of_nil x), Hl. left.
  - destruct (baseline st) as [| | | | |b], (current_content st) as [| | | | |c]; try done;
      destruct Hfit as (x & Hx & _); by eapply without_single.
Qed.

Lemma triple_pure {A} P (φ : Prop) (m : M A) Q :
  (∀ a n, P a n → φ) → (φ → triple P m Q) → triple P m Q.
Proof. intros Hφ Hm s HP. by apply Hm; [eapply Hφ|]. Qed.

Lemma keeps_send_removed P p r l : keeps P (send_removed p r l).
Proof. apply keeps_mapM_. intros. apply keeps_send. Qed.

Lemma acted_done E p l st a n :
  without_hunks l (hunks st) = [] → acted E p l st a n → tracker_ok E ∅ a n.
Proof. intros Hnil [_ Hok]. by apply Hok. Qed.
Lemma acted_recompute E p l st c :
  triple (acted E p l st) (recompute_remaining p c) (λ _, tracker_ok E ∅).
Proof.
  eapply triple_weaken; [apply (recompute_remaining_fresh E ∅)| |done]. by intros a n [? _].
Qed.

Lemma accept_batch_ok E p l st :
  triple (acting E p l st) (accept_hunks_batch p l) (λ _, tracker_ok E ∅).
Proof.
  unfold accept_hunks_batch. destruct l as [|h l']; cbn [is_empty].
  { intros s [Hok _]. cbn. cbn in Hok. by rewrite union_empty_l_L in Hok. }
  set (l := h :: l'). apply (triple_get_known _ _ st); [by intros a n (_ & ? & _)|]. cbv beta.
  destruct (is_missing (baseline st)) eqn:Hm.
  - apply (triple_pure _ (without_hunks l (hunks st) = [])).
    { intros a n Hact%acting_contents; [|done].
      destruct (baseline st); try done. by destruct (current_content st). }
    intros Hnil. eapply triple_bind; [apply act_update|]. intros ?.
    apply keeps_then; [apply keeps_send_removed|]. intros ?.
    eapply triple_weaken; [apply (keeps_send (tracker_ok E ∅))|intros ??; by apply acted_done|done].
  - eapply triple_bind; [apply act_update|]. intros ?.
    apply keeps_then; [apply keeps_send_removed|]. intros ?.
    apply keeps_then; [apply keeps_send|]. intros ?. apply acted_recompute.
Qed.

(** The answer reports a failed write or removal. *)
Definition action_failed {A} (r : result A (HunkActionError IoError)) : bool :=
  match r with Ok _ | Err (HunkNotFound _) => false | _ => true end.

(** [P] after an action that did not fail, [F] after one that did *)
Definition done_or {A} (P F : HunkTrackerActor → nat → Prop) (r : result A (HunkActionError IoError)) :
    HunkTrackerActor → nat → Prop := if action_failed r then F else P.
(** [R] after a step that succeeded, [F] after one that failed on disk *)
Definition done_else {A} (R F : HunkTrackerActor → nat → Prop) (r : result A (HunkActionError IoError)) :
    HunkTrackerActor → nat → Prop :=
  λ a n, match r with Ok _ => R a n | Err _ => action_failed r = true ∧ F a n end.

Lemma triple_try {A B} P R Q F (m : M (result A (HunkActionError IoError)))
    (k : A → M (result B (HunkActionError IoError))) :
  triple P m (done_else R F) →
  (∀ a, triple R (k a) (done_or Q F)) → triple P (try m k) (done_or Q F).
Proof.
  intros Hm Hk. eapply triple_bind; [exact Hm|]. intros [a|e]; [apply Hk|].
  intros s [Hf Hs]. by destruct e.
Qed.

Lemma keeps_write_to_disk P p c : triple P (write_to_disk p c) (done_else P P).
Proof.
  eapply triple_bind; [apply (keeps_ask P)|]. intros [u|e]; [|by intros s HP].
  apply keeps_then; [apply keeps_log|]. intros ?. by intros s HP.
Qed.
Lemma keeps_remove_from_disk P p : triple P (remove_from_disk p) (done_else P P).
Proof.
  eapply triple_bind; [apply (keeps_ask P)|]. intros [u|e]; [|by intros s HP].
  apply keeps_then; [apply keeps_log|]. intros ?. by intros s HP.
Qed.

(** A rejection that fails on disk leaves its hunks pending and out of the index. *)
Lemma reject_batch_ok E p l st :
  triple (acting E p l st) (reject_hunks_batch p l)
    (done_or (tracker_ok E ∅) (acting E p l st)).
Proof.
  unfold reject_hunks_batch. destruct l as [|h l']; cbn [is_empty].
  { intros s [Hok _]. cbn. cbn in Hok. by rewrite union_empty_l_L in Hok. }
  set (l := h :: l'). apply (triple_get_known _ _ st); [by intros a n (_ & ? & _)|]. cbv beta.
  apply (triple_pure _ _ _ _ (λ a n Hact, acting_contents E p l st a n Hact ltac:(done))).
  intros Hcontents.
  assert (Hpatch : ∀ c, triple (acting E p l st)
    (let patched := foldl reject_patch c (sort_by_key (λ h, - new_start (line_info h))%Z l) in
     try (write_to_disk p patched) (λ _,
       _ ← update_file p (λ st, set_hunks (without_hunks l (hunks st))
                                  (set_current (Full patched) st));
       _ ← send_removed p Rejected l;
       _ ← recompute_remaining p (Full patched);
       mret (Ok tt))) (done_or (tracker_ok E ∅) (acting E p l st))).
  { intros c. cbv zeta. eapply triple_try; [apply keeps_write_to_disk|]. intros ?.
    eapply triple_bind; [apply act_update|]. intros ?.
    apply keeps_then; [apply keeps_send_removed|]. intros ?.
    eapply triple_bind; [apply acted_recompute|]. intros ?. by intros s HP. }
  assert (Hgone : ∀ (m : M (result unit _)) f,
    triple (acting E p l st) m (done_else (acting E p l st) (acting E p l st)) →
    without_hunks l (hunks st) = [] →
    triple (acting E p l st)
      (try m (λ _, _ ← update_file p (λ st, set_hunks (without_hunks l (hunks st)) (f st));
                   _ ← send_removed p Rejected l; mret (Ok tt))) (done_or (tracker_ok E ∅) (acting E p l st))).
  { intros m f Hm Hn. eapply triple_try; [exact Hm|]. intros ?.
    eapply triple_bind; [apply act_update|]. intros ?.
    apply keeps_then; [apply keeps_send_removed|]. intros ? s Hs. by eapply acted_done. }
  destruct (baseline st) as [| | | | |b] eqn:Hb, (current_content st) as [| | | | |c] eqn:Hc;
    try done.
  - by apply (Hgone (remove_from_disk p) (λ st, set_current Missing st));
      [apply keeps_remove_from_disk|].
  - by apply (Hgone (write_to_disk p b) (λ st, set_current (baseline st) st));
      [apply keeps_write_to_disk|].
Qed.

Lemma update_known p st f g s :
  file_states (actor s) !! p = Some st → f st = g st → update_file p f s = update_file p g s.
Proof.
  intros Hp Hfg. unfold update_file, modify. rewrite !alter_is_with, Hp. cbn [fmap option_fmap option_map]. by rewrite Hfg.
Qed.

Lemma accept_single p h s : accept_hunk p h s = accept_hunks_batch p [h] s.
Proof.
  unfold accept_hunk, accept_hunks_batch. cbn [is_empty]. unfold mbind, M_bind. cbn [get_file].
  destruct (file_states (actor s) !! p) as [st|] eqn:Hp; [|reflexivity].
  destruct (is_missing (baseline st)); [reflexivity|].
  rewrite (update_known p st _ (λ st', set_hunks (without_hunks [h] (hunks st'))
    (set_accepted true (set_baseline (foldl accept_patch (baseline st) [h]) st')))) by done.
  reflexivity.
Qed.

Lemma reject_single p h s : reject_hunk p h s = reject_hunks_batch p [h] s.
Proof.
  unfold reject_hunk, reject_hunks_batch. cbn [is_empty]. unfold mbind, M_bind.
  cbn [get_file]. destruct (file_states (actor s) !! p) as [st|] eqn:Hp; [|reflexivity].
  destruct (baseline st) as [| | | | |b] eqn:Hb, (current_content st) as [| | | | |c];
    try reflexivity.
  unfold try, write_to_disk, mbind, M_bind, ask.
  destruct (fs_write p b (world s)) as [[u|e] w]; [|reflexivity]. cbn [log_disk mret M_ret].
  erewrite (update_known p st _ (λ st', set_hunks (without_hunks [h] (hunks st'))
    (set_current (baseline st') st'))); [reflexivity|exact Hp|by rewrite Hb].
Qed.

(** ** Counting an action *)

Lemma count_acting E p st l : ∀ act,
  triple (λ a n, tracker_ok E ∅ a n ∧ file_of a p st) (mapM_ (λ h, count_action h act) l)
    (λ _ a n, tracker_ok (list_to_set (ids l) ∪ E) ∅ a n ∧ file_of a p st).
Proof.
  intros act. revert E. induction l as [|h l IH]; intros E; cbn [mapM_].
  - intros s HP. cbn. by rewrite union_empty_l_L.
  - eapply triple_bind.
    + unfold count_action. eapply triple_bind.
      * apply (triple_modify _ (λ a n, tracker_ok E ∅ a n ∧ file_of a p st)).
        intros a n [Hok Hf]. split; [exact (tracker_ok_stable E ∅ a (set_stats _ a) n eq_refl eq_refl Hok)|done].
      * intros ?. apply (triple_modify _ (λ a n, tracker_ok (list_to_set (ids [h]) ∪ E) ∅ a n
                                            ∧ file_of a p st)).
        intros a1 n [[Hi Hfit] Hf]. split; [|done]. split; [|done].
        exact (index_ok_unindex E a1 n [h] Hi).
    + intros ?. eapply triple_weaken; [apply (IH (list_to_set (ids [h]) ∪ E))|done|]. intros ? a1 n.
      replace (list_to_set (ids l) ∪ (list_to_set (ids [h]) ∪ E))
        with (list_to_set (ids (h :: l)) ∪ E : gset HunkId); [done|].
      cbn [ids map list_to_set]. set_solver.
Qed.

(** ** Batches touch one file at a time *)

Definition others (p : path) (F : path → option FileHunkState) (a : HunkTrackerActor) (n : nat) :
    Prop := ∀ q, q ≠ p → file_states a !! q = F q.
#[local] Instance others_stable p F : Stable (others p F).
Proof. intros a a' n Hf Ht Ho q Hq. rewrite <- Hf. by apply Ho. Qed.

Lemma others_update p F f : keeps (others p F) (update_file p f).
Proof.
  apply triple_modify. intros a n Ho q Hq. cbn. rewrite lookup_alter_ne by done. by apply Ho.
Qed.
Lemma others_turns p F f : keeps (others p F) (modify_turns f).
Proof. by apply triple_modify. Qed.
Lemma others_recompute p F c src : keeps (others p F) (recompute_hunks p c src).
Proof.
  intros s Ho. destruct (file_states (actor s) !! p) as [st|] eqn:Hp.
  - destruct (recompute_spec p c src s st Hp) as (-> & _). intros q Hq. cbn.
    rewrite lookup_partial_alter_ne by done. by apply Ho.
  - unfold recompute_hunks, mbind, M_bind. cbn [get_file]. by rewrite Hp.
Qed.
Lemma others_remaining p F c : keeps (others p F) (recompute_remaining p c).
Proof.
  unfold recompute_remaining, remaining_source. pose proof others_recompute. keeps_tac.
Qed.
(** What [apply_action_batch] does to one file *)
Definition act_on_file (p : path) (l : list Hunk) (act : HunkAction) :
    M (result unit (HunkActionError IoError)) :=
  _ ← mapM_ (λ h, count_action h act) l;
  match act with
  | Accept => _ ← accept_hunks_batch p l; mret (Ok tt)
  | Reject => reject_hunks_batch p l
  end.

Lemma others_batch p F l act : keeps (others p F) (act_on_file p l act).
Proof.
  unfold act_on_file, count_action, accept_hunks_batch, reject_hunks_batch, write_to_disk, remove_from_disk, try.
  pose proof others_update. pose proof others_turns. pose proof others_remaining.
  pose proof keeps_send_removed. keeps_tac.
Qed.

(** ** Whole actions *)

(** The files of an action and the hunks it acts on in each *)
Definition acts_on (a : HunkTrackerActor) (fl : list (path * list Hunk)) : Prop :=
  NoDup (map fst fl)
  ∧ ∀ p l, (p, l) ∈ fl → ∃ st, file_of a p st ∧ ∀ x, x ∈ l → x ∈ hunks st.

(** What a failed action leaves: hunks among [C] out of the index *)
Definition lost_up_to (C : gset HunkId) (a : HunkTrackerActor) (n : nat) : Prop :=
  tracker_ok (C ∪ L) ∅ a n.

Lemma act_on_file_ok p l act st C :
  (∀ x, x ∈ l → x ∈ hunks st) → list_to_set (ids l) ⊆ C →
  triple (λ a n, Ok_ a n ∧ file_of a p st) (act_on_file p l act) (done_or Ok_ (lost_up_to C)).
Proof.
  intros Hl HC. eapply triple_bind; [apply count_acting|]. intros ?.
  apply (triple_weaken _ (acting L p l st) _ (done_or Ok_ (acting L p l st)));
    [|by intros a1 n [? ?]|].
  - destruct act; [|apply reject_batch_ok].
    eapply triple_bind; [apply accept_batch_ok|]. by intros ? s1 Hs1.
  - intros r a2 n. unfold done_or. destruct (action_failed r); [|done].
    intros (Hok & _ & _). eapply tracker_ok_exempt; [exact Hok|]. set_solver.
Qed.

Lemma apply_action_batch_cons p l fl act s :
  apply_action_batch ((p, l) :: fl) act s
  = try (act_on_file p l act) (λ _, try (apply_action_batch fl act)
                                      (λ ids', mret (Ok (map hunk_id l ++ ids')))) s.
Proof.
  cbn [apply_action_batch]. unfold try, act_on_file, mbind, M_bind.
  by destruct (mapM_ (λ h, count_action h act) l s).
Qed.

Lemma apply_action_batch_ok act C fl : ∀ s,
  Ok_ (actor s) (drawn s) → acts_on (actor s) fl →
  list_to_set (ids (concat (map snd fl))) ⊆ C →
  let r := apply_action_batch fl act s in
  done_or Ok_ (lost_up_to C) r.1 (actor r.2) (drawn r.2).
Proof.
  induction fl as [|[p l] fl IH]; intros s Hok [Hnd Hfl] HC; [done|].
  cbn [map fst concat snd] in Hnd, HC. unfold ids in HC. rewrite map_app, list_to_set_app_L in HC.
  apply NoDup_cons in Hnd as [Hp Hnd].
  destruct (Hfl p l) as (st & Hst & Hl); [left|].
  pose proof (act_on_file_ok p l act st C Hl ltac:(unfold ids; set_solver) s (conj Hok Hst)) as Hone.
  pose proof (others_batch p (λ q, file_states (actor s) !! q) l act s (λ q _, eq_refl)) as Hothers.
  cbn zeta. rewrite apply_action_batch_cons. unfold try, mbind, M_bind.
  destruct (act_on_file p l act s) as [[v|e] s1]; cbn [fst snd] in *; [|by destruct e].
  assert (Hacts : acts_on (actor s1) fl).
  2:{ specialize (IH s1 Hone Hacts ltac:(unfold ids; set_solver)).
      destruct (apply_action_batch fl act s1) as [[ids2|e] s2]; [exact IH|by destruct e]. }
  split; [done|]. intros q l' Hq.
  destruct (Hfl q l') as (st' & Hst' & Hl'); [by right|]. exists st'. split; [|done].
  unfold file_of. rewrite Hothers; [done|]. intros ->. apply Hp, list_elem_of_fmap. by exists (p, l').
Qed.

Lemma elem_of_order {A} (w : World) (m : gmap path A) p x : (p, x) ∈ map_order w m ↔ m !! p = Some x.
Proof. by rewrite map_order_perm, elem_of_map_to_list. Qed.
Lemma NoDup_order {A} (w : World) (m : gmap path A) : NoDup (map fst (map_order w m)).
Proof. rewrite map_order_perm. apply NoDup_fst_map_to_list. Qed.

Lemma list_filter_map_fst {A} (f : path * A → bool) l :
  NoDup (map fst l) → NoDup (map fst (List.filter f l)).
Proof. intros Hl. eapply sublist_NoDup; [exact Hl|]. apply (fmap_sublist fst), list_filter_sublist. Qed.

Lemma find_hunk_elem id files p h :
  find_hunk id files = Some (p, h) →
  ∃ st, (p, st) ∈ files ∧ h ∈ hunks st ∧ hunk_id h = id.
Proof.
  unfold find_hunk. intros E.
  assert (Hin : (p, h) ∈ omap (λ e : path * FileHunkState,
    (λ h, (e.1, h)) <$> List.find (λ h, bool_decide (hunk_id h = id)) (hunks e.2)) files).
  { destruct (omap _ files) as [|x r]; cbn in E; [done|]. injection E as ->. left. }
  apply list_elem_of_omap in Hin as ([q st] & Hq & E').
  destruct (List.find _ _) as [h'|] eqn:Hf; [|done]. cbn in E'. injection E' as -> ->.
  apply find_some in Hf as [Hin%list_elem_of_In Hid%bool_decide_eq_true]. by exists st.
Qed.

(** The hunks an action command asks to act on *)
Definition asked (cmd : HunkTrackerCommand) (p : path) (h : Hunk) : bool :=
  match cmd with
  | HunkActionCmd id _ => bool_decide (hunk_id h = id)
  | FileAction q _ => bool_decide (p = q)
  | AllAction _ => true
  | TurnAction i _ => bool_decide (hunk_prompt h = Some i)
  | _ => false
  end.
Definition asked_ids (cmd : HunkTrackerCommand) (a : HunkTrackerActor) : gset HunkId :=
  list_to_set (ids (concat (map (λ e, List.filter (asked cmd e.1) (hunks e.2))
                              (map_to_list (file_states a))))).

Lemma elem_of_asked cmd a p st h :
  file_of a p st → h ∈ hunks st → asked cmd p h = true → hunk_id h ∈ asked_ids cmd a.
Proof.
  intros Hst Hh Ha. apply elem_of_list_to_set, list_elem_of_fmap. exists h. split; [done|].
  apply list_elem_of_In, in_concat. exists (List.filter (asked cmd p) (hunks st)).
  split; [|by apply list_elem_of_In, elem_of_list_filter].
  apply in_map_iff. exists (p, st). split; [done|]. by apply list_elem_of_In, elem_of_map_to_list.
Qed.
Lemma asked_subset cmd a fl :
  (∀ p l x, (p, l) ∈ fl → x ∈ l → ∃ st, file_of a p st ∧ x ∈ hunks st ∧ asked cmd p x = true) →
  list_to_set (ids (concat (map snd fl))) ⊆ asked_ids cmd a.
Proof.
  intros Hfl id (h & -> & Hh)%elem_of_list_to_set%list_elem_of_fmap.
  apply list_elem_of_In, in_concat in Hh as (l & Hl & Hh).
  apply in_map_iff in Hl as ([p l'] & <- & Hin). apply list_elem_of_In in Hin, Hh.
  destruct (Hfl p l' h Hin Hh) as (st & Hst & Hx & Ha). by eapply elem_of_asked.
Qed.

(** What an action leaves: hunks it asked for may be lost when it failed. *)
Definition acts_ok {A} (cmd : HunkTrackerCommand) (m : M (result A (HunkActionError IoError))) : Prop :=
  ∀ s, Ok_ (actor s) (drawn s) →
    let r := m s in done_or Ok_ (lost_up_to (asked_ids cmd (actor s))) r.1 (actor r.2) (drawn r.2).

Lemma apply_hunk_action_ok id act : acts_ok (HunkActionCmd id act) (apply_hunk_action id act).
Proof.
  intros s Hok. unfold apply_hunk_action, files_in_order. unfold mbind, M_bind.
  cbn [get_actor observe]. destruct (find_hunk id _) as [[p h]|] eqn:Hf; [|done].
  apply find_hunk_elem in Hf as (st & Hst%elem_of_order & Hh & Hid).
  assert (Hl : ∀ x, x ∈ [h] → x ∈ hunks st) by (by intros x ->%list_elem_of_singleton).
  assert (HC : list_to_set (ids [h]) ⊆ asked_ids (HunkActionCmd id act) (actor s)).
  { apply (asked_subset _ _ [(p, [h])]). intros q l x [= -> ->]%list_elem_of_singleton
      ->%list_elem_of_singleton. exists st. split_and!; [done..|]. by apply bool_decide_eq_true. }
  pose proof (act_on_file_ok p [h] act st _ Hl HC s (conj Hok Hst)) as Hone.
  unfold act_on_file in Hone. cbn [mapM_] in Hone. unfold mbind, M_bind in Hone.
  destruct (count_action h act s) as [u s0]. cbn [mret M_ret] in Hone.
  destruct act; [rewrite accept_single|rewrite reject_single]; exact Hone.
Qed.

Lemma apply_file_action_ok p act : acts_ok (FileAction p act) (apply_file_action p act).
Proof.
  intros s Hok. unfold apply_file_action. unfold mbind, M_bind. cbn [get_file].
  destruct (file_states (actor s) !! p) as [st|] eqn:Hp; [|done].
  destruct (is_empty (hunks st)); [done|]. apply apply_action_batch_ok; [done| |].
  - split; [apply NoDup_singleton|]. intros q l [= -> ->]%list_elem_of_singleton. by exists st.
  - apply asked_subset. intros q l x [= -> ->]%list_elem_of_singleton Hx. exists st.
    split_and!; [done..|]. by apply bool_decide_eq_true.
Qed.

Lemma apply_all_action_ok act : acts_ok (AllAction act) (apply_all_action act).
Proof.
  intros s Hok. unfold apply_all_action, files_in_order. unfold mbind, M_bind.
  cbn [get_actor observe]. set (fl := List.filter _ _). destruct (is_empty fl); [done|].
  assert (Hin : ∀ p l, (p, l) ∈ map (λ e, (e.1, hunks e.2)) fl → ∃ st, file_of (actor s) p st ∧ l = hunks st).
  { intros p l Hpl. apply list_elem_of_fmap in Hpl as ([q st] & [= -> ->] & Hq).
    apply elem_of_list_filter in Hq as [Hq%elem_of_order _]. by exists st. }
  apply apply_action_batch_ok; [done|split|].
  - rewrite map_map. cbn. apply list_filter_map_fst, NoDup_order.
  - intros p l (st & Hst & ->)%Hin. by exists st.
  - apply asked_subset. intros p l x (st & Hst & ->)%Hin Hx. by exists st.
Qed.

Lemma apply_turn_action_ok i act : acts_ok (TurnAction i act) (apply_turn_action i act).
Proof.
  intros s Hok. unfold apply_turn_action. unfold mbind, M_bind. cbn [get_actor].
  set (grouped := omap _ _). destruct (bool_decide (grouped = ∅)); [done|]. cbn [observe].
  assert (Hin : ∀ p l, (p, l) ∈ map_order (world s) grouped →
    ∃ st, file_of (actor s) p st ∧ l = turn_hunks i (hunks st)).
  { intros p l Hpl%elem_of_order. unfold grouped in Hpl. rewrite lookup_omap in Hpl.
    destruct (file_states (actor s) !! p) as [st|] eqn:Hp; cbn in Hpl; [|done].
    destruct (is_empty (turn_hunks i (hunks st))); [done|]. injection Hpl as <-. by exists st. }
  apply apply_action_batch_ok; [done|split; [apply NoDup_order|]|].
  - intros p l (st & Hst & ->)%Hin. exists st. split; [done|].
    intros x Hx. by apply elem_of_list_filter in Hx as [? _].
  - apply asked_subset. intros p l x (st & Hst & ->)%Hin Hx. exists st. by apply elem_of_list_filter in Hx as [? ?].
Qed.
End actions.

(** ** Batches *)

(** What the commands of a queue say about one path: [true] for a deletion. *)
Definition notice (p : path) (cmd : HunkTrackerCommand) : option bool :=
  match cmd with
  | HandleFileChange q => if bool_decide (p = q) then Some false else None
  | HandleFileDeleted q => if bool_decide (p = q) then Some true else None
  | _ => None
  end.
(** The last notice decides; a change after any deletion is known as such. *)
Definition path_action (notices : list bool) : option CoalescedPathAction :=
  match last notices with
  | None => None
  | Some true => Some DeletedAction
  | Some false => Some (if existsb (λ b, b) notices then DeletedThenChanged else ChangedAction)
  end.
Definition is_refresh_all (cmd : HunkTrackerCommand) : bool :=
  match cmd with RefreshAllBaselines => true | _ => false end.
Definition is_refresh_dirty (cmd : HunkTrackerCommand) : bool :=
  match cmd with RefreshGitDirtyCache => true | _ => false end.

Definition batch_of (cmds : list HunkTrackerCommand) (b : CoalescedBatch) : Prop :=
  (∀ p, file_actions b !! p = path_action (omap (notice p) cmds))
  ∧ refresh_all b = existsb is_refresh_all cmds
  ∧ refresh_dirty b = existsb is_refresh_dirty cmds
  ∧ other_commands b = List.filter (λ c, negb (is_coalescable c)) cmds
  ∧ command_count b = length cmds.

Lemma path_action_snoc l b :
  path_action (l ++ [b])
  = Some (if b then DeletedAction else changed_action (path_action l)).
Proof.
  unfold path_action, changed_action. rewrite last_snoc. destruct b; [done|].
  rewrite existsb_app. cbn. rewrite orb_false_r.
  destruct (last l) as [[]|] eqn:E; [|by destruct (existsb _ l)|].
  - assert (existsb (λ b, b) l = true) as ->; [|done].
    apply last_Some in E as [l' ->]. by rewrite existsb_app, orb_true_r.
  - apply last_None in E as ->. done.
Qed.

Lemma batch_add_of cmds b cmd : batch_of cmds b → batch_of (cmds ++ [cmd]) (batch_add b cmd).
Proof.
  intros (Hf & Ha & Hd & Ho & Hn).
  assert (Hnote : ∀ p, omap (notice p) (cmds ++ [cmd])
    = omap (notice p) cmds ++ match notice p cmd with Some x => [x] | None => [] end).
  { intros p. rewrite omap_app. cbn. by destruct (notice p cmd). }
  assert (Hcount : S (command_count b) = length (cmds ++ [cmd])) by (rewrite length_app; cbn; lia).
  assert (Hfile : ∀ p x, (∀ q, notice q cmd = if bool_decide (q = p) then Some x else None) →
    ∀ q, <[p := if x then DeletedAction else changed_action (file_actions b !! p)]> (file_actions b) !! q
         = path_action (omap (notice q) (cmds ++ [cmd]))).
  { intros p x Hx q. rewrite Hnote, Hx. case_bool_decide as E.
    - subst. rewrite lookup_insert_eq, path_action_snoc, Hf. done.
    - rewrite lookup_insert_ne by done. by rewrite app_nil_r. }
  unfold batch_of. rewrite !existsb_app, List.filter_app, <- Ha, <- Hd, <- Ho, <- Hcount.
  destruct cmd; cbn; rewrite ?orb_false_r, ?orb_true_r, ?app_nil_r; split_and!; try done;
    try (intros q; rewrite Hnote; cbn; by rewrite app_nil_r).
  - by apply (Hfile p false).
  - by apply (Hfile p true).
Qed.

(** Like [keeps_tac], unfolding the handlers on the way *)
Ltac head_of t := match t with ?f _ => head_of f | _ => t end.
Ltac keeps_deep :=
  repeat first [ keeps_step
               | progress cbv zeta
               | match goal with |- keeps _ ?m => let h := head_of m in unfold h end ].

Section reach.
Context `{!TrackerEnv} `{!LawfulTrackerEnv}.

Abbreviation Ok_ L := (tracker_ok L ∅).

(** ** Identifiers are only ever drawn *)

Definition at_least (k : nat) (a : HunkTrackerActor) (n : nat) : Prop := (k ≤ n)%nat.

Lemma at_least_modify k f : keeps (at_least k) (modify f).
Proof. by apply triple_modify. Qed.
Lemma at_least_draw k : keeps (at_least k) draw.
Proof. intros s Hk. unfold at_least in *. cbn. lia. Qed.

#[local] Hint Resolve at_least_modify at_least_draw : tracker.
Lemma at_least_recompute k p c src : keeps (at_least k) (recompute_hunks p c src).
Proof. keeps_deep. Qed.
#[local] Hint Resolve at_least_recompute : tracker.
Lemma at_least_read_baseline k p : keeps (at_least k) (read_baseline p).
Proof. keeps_deep. Qed.
#[local] Hint Resolve at_least_read_baseline : tracker.
Lemma at_least_process_file_change k p b : keeps (at_least k) (process_file_change p b).
Proof. keeps_deep. Qed.
#[local] Hint Resolve at_least_process_file_change : tracker.
Lemma at_least_refresh_git_dirty_cache k scope : keeps (at_least k) (refresh_git_dirty_cache scope).
Proof. keeps_deep. Qed.
#[local] Hint Resolve at_least_refresh_git_dirty_cache : tracker.
Lemma at_least_apply_action_batch k l act : keeps (at_least k) (apply_action_batch l act).
Proof.
  induction l as [|[p hs] l IH]; cbn [apply_action_batch]; [apply keeps_ret|]. keeps_deep.
Qed.
#[local] Hint Resolve at_least_apply_action_batch : tracker.
Lemma at_least_handle_command k cmd : keeps (at_least k) (handle_command cmd).
Proof. destruct cmd; cbn [handle_command]; keeps_deep. Qed.

(** ** The invariant over every command *)

Definition reply_failed (r : Reply) : bool :=
  match r with
  | ActionReply r => action_failed r
  | ActionsReply r => action_failed r
  | _ => false
  end.

(** The hunks a command may leave pending and out of the index: those it asked to
    act on, when its answer reports a failed write or removal *)
Definition lost_by (cmd : HunkTrackerCommand) (s : Sys) : gset HunkId :=
  if reply_failed (handle_command cmd s).1 then asked_ids cmd (actor s) else ∅.

Lemma reply_with_ok {A} L (f : A → Reply) m : keeps (Ok_ L) m → keeps (Ok_ L) (reply_with f m).
Proof. intros Hm. apply keeps_then; [done|]. by intros r s Hs. Qed.
Lemma silent_ok L m : keeps (Ok_ L) m → keeps (Ok_ L) (silent m).
Proof. intros Hm. apply keeps_then; [done|]. by intros r s Hs. Qed.
Lemma action_reply_ok {A} L (f : result A (HunkActionError IoError) → Reply) cmd m s :
  (∀ r, reply_failed (f r) = action_failed r) → handle_command cmd = reply_with f m →
  acts_ok L cmd m → Ok_ L (actor s) (drawn s) →
  Ok_ (lost_by cmd s ∪ L) (actor (handle_command cmd s).2) (drawn (handle_command cmd s).2).
Proof.
  intros Hf Hcmd Hm Hok. specialize (Hm s Hok). unfold lost_by, done_or, lost_up_to in *.
  rewrite Hcmd. unfold reply_with, mbind, M_bind in *. destruct (m s) as [r s1]. cbn in *.
  rewrite Hf. destruct (action_failed r); [done|]. by rewrite union_empty_l_L.
Qed.

Lemma handle_command_ok L cmd s :
  (∀ snap, cmd ≠ RestoreState snap) → Ok_ L (actor s) (drawn s) →
  Ok_ (lost_by cmd s ∪ L) (actor (handle_command cmd s).2) (drawn (handle_command cmd s).2).
Proof.
  intros Hr Hok.
  assert (Hkeeps : keeps (Ok_ L) (handle_command cmd) →
    Ok_ (lost_by cmd s ∪ L) (actor (handle_command cmd s).2) (drawn (handle_command cmd s).2)).
  { intros Hk. eapply tracker_ok_exempt; [exact (Hk s Hok)|]. set_solver. }
  destruct cmd; try (eapply action_reply_ok; [|reflexivity|..|done]; done || eauto using
      apply_hunk_action_ok, apply_file_action_ok, apply_all_action_ok, apply_turn_action_ok);
    apply Hkeeps; cbn [handle_command];
    lazymatch goal with
    | |- keeps _ (silent _) => apply silent_ok
    | |- keeps _ (reply_with _ _) => apply reply_with_ok; keeps_deep
    end; auto using keeps_record_agent_write, keeps_handle_file_change,
      keeps_handle_file_deleted, keeps_refresh_git_dirty_cache, keeps_reset_baseline,
      keeps_set_mode.
  - keeps_tac.
  - apply keeps_refresh_all_baselines_except.
  - by destruct (Hr snapshot).
Qed.

(** Restoring a snapshot of a good tracker *)
Lemma restored_files (m : gmap path FileHunkState) :
  restore_file_state <$> (snapshot_file_state <$> m) = m.
Proof.
  rewrite <- map_fmap_compose. rewrite <- (map_fmap_id m) at 2. apply map_fmap_ext.
  by intros p [] _.
Qed.

Lemma tracker_ok_later E X a n m : tracker_ok E X a n → (n ≤ m)%nat → tracker_ok E X a m.
Proof. intros [Hi Hf] Hm. split; [by eapply index_ok_mono|done]. Qed.

Lemma restore_ok L t s :
  Ok_ L (actor t) (drawn t) → (drawn t ≤ drawn s)%nat →
  let s' := (restore_snapshot (take_snapshot t).1 s).2 in Ok_ L (actor s') (drawn s').
Proof.
  intros Hok Hle. eapply tracker_ok_later; [|exact Hle].
  refine (tracker_ok_stable L ∅ (actor t) _ _ _ _ Hok); [|done].
  exact (eq_sym (restored_files (file_states (actor t)))).
Qed.

(** Commands in sequence.  [src] gives the tracker a restored snapshot was taken
    from. *)
Definition restorable (L : gset HunkId) (src : HunkTrackerSnapshot → Sys) (k : nat)
    (cmds : list HunkTrackerCommand) : Prop :=
  ∀ snap, RestoreState snap ∈ cmds →
    Ok_ L (actor (src snap)) (drawn (src snap)) ∧ (drawn (src snap) ≤ k)%nat
    ∧ snap = (take_snapshot (src snap)).1.

Fixpoint lost_by_all (cmds : list HunkTrackerCommand) (s : Sys) : gset HunkId :=
  match cmds with
  | [] => ∅
  | cmd :: rest => lost_by cmd s ∪ lost_by_all rest (handle_command cmd s).2
  end.

Lemma commands_ok src k cmds : ∀ L s,
  Ok_ L (actor s) (drawn s) → (k ≤ drawn s)%nat → restorable L src k cmds →
  let r := map_M handle_command cmds s in
  Ok_ (lost_by_all cmds s ∪ L) (actor r.2) (drawn r.2).
Proof.
  induction cmds as [|cmd cmds IH]; intros L s Hok Hk Hsrc; cbn zeta; cbn [map_M lost_by_all].
  { by rewrite union_empty_l_L. }
  assert (Hone : let r := handle_command cmd s in Ok_ (lost_by cmd s ∪ L) (actor r.2) (drawn r.2)).
  { assert ((∃ snap, cmd = RestoreState snap) ∨ ∀ snap, cmd ≠ RestoreState snap) as [[snap ->]|Hn]
      by (destruct cmd; eauto; by right).
    - destruct (Hsrc snap) as (Hs & Hle & ->); [left|].
      eapply tracker_ok_exempt; [apply restore_ok; [done|lia]|]. set_solver.
    - by apply handle_command_ok. }
  pose proof (at_least_handle_command k cmd s Hk) as Hk'.
  unfold mbind, M_bind. destruct (handle_command cmd s) as [r s1]. cbn [fst snd] in *.
  specialize (IH (lost_by cmd s ∪ L) s1 Hone Hk').
  destruct (map_M handle_command cmds s1) as [rs s2]. cbn [fst snd mret M_ret] in *.
  eapply tracker_ok_exempt; [apply IH|set_solver]. intros snap Hin.
  destruct (Hsrc snap) as (Hs & Hle & E); [by right|]. split_and!; [|done..].
  eapply tracker_ok_exempt; [exact Hs|set_solver].
Qed.

Lemma keeps_batch_files L b : keeps (Ok_ L) (batch_files b).
Proof.
  unfold batch_files, batch_refreshed, batch_plain.
  pose proof keeps_refresh_git_dirty_cache. pose proof keeps_refresh_all_baselines_except.
  pose proof keeps_handle_file_changes_batch. pose proof keeps_handle_file_change.
  pose proof keeps_handle_file_deleted. keeps_tac.
Qed.

Lemma at_least_batch_files k b : keeps (at_least k) (batch_files b).
Proof. keeps_deep. Qed.

(** Every command of a batch that is kept for later was queued. *)
Lemma drained_of cmd rest : batch_of (cmd :: rest) (drain_and_coalesce cmd rest).
Proof.
  unfold drain_and_coalesce.
  assert (∀ cmds b l, batch_of cmds b → batch_of (cmds ++ l) (foldl batch_add b l)) as Hfold.
  { intros cmds b l. revert cmds b. induction l as [|c l IH]; intros cmds b Hb; cbn [foldl].
    - by rewrite app_nil_r.
    - rewrite cons_middle, app_assoc. by apply IH, batch_add_of. }
  apply (Hfold [cmd]). apply (batch_add_of []). by split_and!.
Qed.

(** What the commands of one turn of the loop lose *)
Definition lost_in (queue : list HunkTrackerCommand) (s : Sys) : gset HunkId :=
  match queue with
  | [] => ∅
  | cmd :: rest =>
      if is_coalescable cmd then
        let b := drain_and_coalesce cmd rest in lost_by_all (other_commands b) (batch_files b s).2
      else lost_by cmd s
  end.

Lemma serve_ok L src queue s :
  Ok_ L (actor s) (drawn s) → restorable L src (drawn s) queue →
  Ok_ (lost_in queue s ∪ L) (actor (serve queue s).2) (drawn (serve queue s).2).
Proof.
  intros Hok Hsrc. destruct queue as [|cmd rest]; cbn [serve lost_in].
  { by rewrite union_empty_l_L. }
  destruct (is_coalescable cmd) eqn:Hc.
  - set (b := drain_and_coalesce cmd rest).
    assert (Hb : restorable L src (drawn s) (other_commands b)).
    { intros snap Hin. apply Hsrc. destruct (drained_of cmd rest) as (_ & _ & _ & Ho & _).
      fold b in Ho. rewrite Ho in Hin. by apply elem_of_list_filter in Hin as [? _]. }
    pose proof (keeps_batch_files L b s Hok) as Hfiles.
    pose proof (at_least_batch_files (drawn s) b s (le_n _)) as Hk.
    unfold handle_coalesced_batch. unfold mbind, M_bind in *.
    destruct (batch_files b s) as [u s1]. cbn [fst snd] in *.
    pose proof (commands_ok src (drawn s) (other_commands b) L s1 Hfiles Hk Hb) as Hcmds.
    cbn zeta. destruct (map_M handle_command (other_commands b) s1) as [rs s2]. exact Hcmds.
  - pose proof (commands_ok src (drawn s) [cmd] L s Hok (le_n _)) as Hcmds. cbn [map_M] in Hcmds.
    cbn [lost_by_all] in Hcmds. rewrite union_empty_r_L in Hcmds.
    unfold mbind, M_bind in *. destruct (handle_command cmd s) as [r s1]. apply Hcmds.
    intros snap Hin%list_elem_of_singleton. apply Hsrc. rewrite Hin. left.
Qed.

(** ** Reachable trackers *)

Definition with_world (w : World) (s : Sys) : Sys :=
  {| actor := actor s; world := w; drawn := drawn s; sent := sent s; disk_log := disk_log s |}.

(** A tracker starts empty, scans when it starts in the [AllDirty] mode, and then
    serves its queue; between two turns of its loop the world changes in any way,
    and its operations fail or not.  A restored snapshot was taken from a reachable
    tracker.  [L] holds the hunks that were lost on the way: those a command asked
    to accept or reject when its answer reports a failed write or removal.  It is
    empty as long as no answer does, and may be given larger, as it must be to
    restore a snapshot of a tracker that had lost some. *)
Inductive reachable : gset HunkId → Sys → Prop :=
| reach_new wd m w n :
    reachable ∅ {| actor := HunkTrackerActor_new wd m; world := w; drawn := n; sent := [];
                   disk_log := [] |}
| reach_start L s : reachable L s → reachable L (start s).2
| reach_world L s w : reachable L s → reachable L (with_world w s)
| reach_more L L' s : reachable L s → L ⊆ L' → reachable L' s
| reach_serve L s queue (src : HunkTrackerSnapshot → Sys) :
    reachable L s →
    (∀ snap, RestoreState snap ∈ queue → reachable L (src snap)) →
    (∀ snap, RestoreState snap ∈ queue →
       (drawn (src snap) ≤ drawn s)%nat ∧ snap = (take_snapshot (src snap)).1) →
    reachable (lost_in queue s ∪ L) (serve queue s).2.

Lemma reachable_ok L s : reachable L s → Ok_ L (actor s) (drawn s).
Proof.
  induction 1 as [wd m w n|L s _ IH|L s w _ IH|L L' s _ IH HL|L s queue src _ IH _ IHsrc Hsrc].
  - eapply tracker_ok_later; [apply tracker_ok_new|]. lia.
  - revert s IH. apply (keeps_bind (Ok_ L) get_actor); [apply keeps_get_actor|]. intros a.
    case_match; [apply keeps_refresh_git_dirty_cache|apply keeps_ret].
  - exact IH.
  - by eapply tracker_ok_exempt.
  - apply (serve_ok L src); [done|]. intros snap Hin. destruct (Hsrc snap Hin). auto.
Qed.

(** ** Pending hunks, over any order of the files *)

Definition pending_of (files : list (path * FileHunkState)) : list Hunk :=
  concat (map (λ e, hunks e.2) files).
Definition all_pending (s : Sys) : list Hunk :=
  pending_of (map_order (world s) (file_states (actor s))).

Lemma elem_of_pending files h :
  h ∈ pending_of files ↔ ∃ p st, (p, st) ∈ files ∧ h ∈ hunks st.
Proof.
  unfold pending_of. rewrite list_elem_of_In, in_concat. setoid_rewrite in_map_iff. split.
  - intros (l & ([p st] & <- & He) & Hh). exists p, st. by rewrite !list_elem_of_In.
  - intros (p & st & He & Hh). exists (hunks st). rewrite list_elem_of_In in He. rewrite list_elem_of_In in Hh.
    split; [by exists (p, st)|done].
Qed.
Lemma live_pending s h : live (actor s) h ↔ h ∈ all_pending s.
Proof.
  unfold all_pending. rewrite elem_of_pending. unfold live. setoid_rewrite elem_of_order. done.
Qed.

Lemma pending_ids_NoDup E a n files :
  index_ok E a n → NoDup (map fst files) → (∀ p st, (p, st) ∈ files → file_of a p st) →
  NoDup (ids (pending_of files)).
Proof.
  intros Hok. induction files as [|[p st] files IH]; intros Hnd Hf; [constructor|].
  cbn [map fst] in Hnd. apply NoDup_cons in Hnd as [Hp Hnd].
  change (NoDup (ids (hunks st ++ pending_of files))). unfold ids. rewrite map_app.
  assert (Hst : file_of a p st) by (apply Hf; left).
  apply NoDup_app. split_and!.
  - exact (file_ids _ _ _ Hok p st Hst).
  - intros i (h & Hh & <-)%ids_elem_of (h' & Hh' & Hid)%ids_elem_of.
    apply elem_of_pending in Hh' as (q & st' & Hq & Hh').
    assert (p = q) as ->.
    { eapply (one_file _ _ _ Hok p q st st' h h'); [done| |done..]. apply Hf. by right. }
    apply Hp, list_elem_of_fmap. by exists (q, st').
  - apply IH; [done|]. intros q st' Hq. apply Hf. by right.
Qed.
Lemma all_pending_NoDup L s : Ok_ L (actor s) (drawn s) → NoDup (ids (all_pending s)).
Proof.
  intros Hok. eapply pending_ids_NoDup; [apply Hok|apply NoDup_order|].
  intros p st. by rewrite elem_of_order.
Qed.

Lemma NoDup_ids_inj l h h' : NoDup (ids l) → h ∈ l → h' ∈ l → hunk_id h = hunk_id h' → h = h'.
Proof.
  intros Hnd [i Hi]%list_elem_of_lookup [j Hj]%list_elem_of_lookup Hid.
  assert (Ei : ids l !! i = Some (hunk_id h)) by (unfold ids; by rewrite list_lookup_fmap, Hi).
  assert (Ej : ids l !! j = Some (hunk_id h)) by (unfold ids; by rewrite list_lookup_fmap, Hj, Hid).
  pose proof (NoDup_lookup _ _ _ _ Hnd Ei Ej). congruence.
Qed.

Lemma NoDup_ids_NoDup l : NoDup (ids l) → NoDup l.
Proof. apply NoDup_fmap_1. Qed.

Lemma find_by_id l id h :
  NoDup (ids l) → List.find (λ x, bool_decide (hunk_id x = id)) l = Some h
  ↔ h ∈ l ∧ hunk_id h = id.
Proof.
  intros Hnd. split.
  - intros [Hh%list_elem_of_In Hid%bool_decide_eq_true]%find_some. done.
  - intros [Hh <-]. destruct (List.find _ l) as [x|] eqn:E.
    + apply find_some in E as [Hx%list_elem_of_In Hid%bool_decide_eq_true].
      f_equal. by eapply NoDup_ids_inj.
    + apply list_elem_of_In in Hh. apply (find_none _ _ E) in Hh.
      by rewrite bool_decide_eq_false in Hh.
Qed.

Lemma map_M_pure {A B} (f : A → M B) (g : A → B) l s :
  (∀ x, f x s = (g x, s)) → map_M f l s = (map g l, s).
Proof.
  intros Hf. induction l as [|x l IH]; [done|]. cbn [map_M map]. unfold mbind, M_bind.
  by rewrite Hf, IH.
Qed.
End reach.
