(* ===== verification/HunkActs.v ===== *)
(** * Hunk tracker: what accepting and rejecting do

    In terms of texts: accepting a choice of hunks moves the baseline to the text
    with these changes made; rejecting moves the file on disk to the text with
    these changes undone; with every hunk chosen the two texts meet.  Then
    [apply_action_batch] over its files, and the actions of a turn, a file and
    the session on a reachable tracker: the texts they leave, the files they
    write, and the statistics they count. *)
From S2P Require Import Prelude RustStr StrSearch HunkTypes HunkDiff HunkDiffFacts HunkWorld.
From S2P Require Import HunkTracker HunkIndex HunkTrackerFacts HunkFacts.

(** [similar] diffs LF texts line by line. *)
Class LawfulDiff `{TrackerEnv} : Prop :=
  diff_is_line_diff a b : lf_text a → lf_text b → line_diff (diff_lines a b) a b.

Lemma split_inclusive_length s : (Z.of_nat (length (split_inclusive s)) ≤ str_len s)%Z.
Proof.
  assert (Hc : ∀ c, (1 ≤ char_len c)%Z) by (intros c; unfold char_len; repeat case_match; lia).
  induction s as [|x s IH]; cbn [split_inclusive str_len length]; [lia|]. specialize (Hc x).
  destruct (x =? NL)%Z; [cbn [length]; lia|].
  destruct (split_inclusive s); cbn [length] in *; lia.
Qed.

Lemma accept_patches b hs : foldl accept_patch (Full b) hs = Full (fold_edits accept_edit b hs).
Proof.
  unfold fold_edits. revert b. induction hs as [|h hs IH]; intros b; [done|]. cbn [foldl]. by rewrite <- IH.
Qed.

Section text.
Context `{!TrackerEnv} `{!LawfulTrackerEnv} `{!LawfulDiff}.

(** A file with two LF texts, empty or not: each line ends with a line feed and
    there is no carriage return. *)
Record lf_file (st : FileHunkState) (b c : str) : Prop := {
  lf_baseline : baseline st = Full b;
  lf_current : current_content st = Full c;
  lf_old : lf_text b;
  lf_new : lf_text c;
}.
(** Patching [start] into [full] keeps the last line feeds when there is a line to
    begin with and neither the result nor what the texts share is a lone line feed. *)
Definition kept (b c start full : str) : Prop :=
  start ≠ [] ∧ full ≠ [NL] ∧ common_side (diff_lines b c) ≠ [[NL]].

Definition flags_of (f : Hunk → bool) (st : FileHunkState) : list bool := map f (hunks st).
(** The text with, and without, the changes of the hunks that satisfy [f] *)
Definition accepted_text (f : Hunk → bool) (st : FileHunkState) (b c : str) : str :=
  text_with (flags_of f st) (diff_lines b c).
Definition rejected_text (f : Hunk → bool) (st : FileHunkState) (b c : str) : str :=
  text_without (flags_of f st) (diff_lines b c).

Lemma lf_hunks st b c :
  lf_file st b c → fits st → hunks st ≠ [] →
  (str_len b ≤ MAX_DIFF_FILE_SIZE)%Z ∧ (str_len c ≤ MAX_DIFF_FILE_SIZE)%Z
  ∧ hunks_of (diff_lines b c) (hunks st).
Proof. intros [Hb Hc _ _] [Hn|Hfit] Hne; [done|]. by rewrite Hb, Hc in Hfit. Qed.

Lemma small_text s : (str_len s ≤ MAX_DIFF_FILE_SIZE)%Z →
  (Z.of_nat (length (split_inclusive s)) ≤ U64_MAX)%Z.
Proof. pose proof (split_inclusive_length s). unfold MAX_DIFF_FILE_SIZE, U64_MAX. lia. Qed.

Lemma patched_baseline f st b c :
  lf_file st b c → fits st → hunks st ≠ [] →
  ∃ t, foldl accept_patch (baseline st)
         (sort_by_key (λ h, - old_start (line_info h))%Z (List.filter f (hunks st))) = Full t
    ∧ short_of t (accepted_text f st b c)
    ∧ (kept b c b (accepted_text f st b c) → t = accepted_text f st b c).
Proof.
  intros Hlf Hfit Hne. destruct (lf_hunks st b c Hlf Hfit Hne) as (Hsb%small_text & _ & Hhs).
  destruct Hlf as [-> _ Hold Hnew]. rewrite accept_patches. eexists. split; [done|].
  rewrite <- pick_filter. pose proof (diff_is_line_diff b c Hold Hnew) as Hdiff. split.
  - exact (fold_accept_short _ b c _ Hold Hnew Hdiff Hhs _ Hsb).
  - intros (Hb & Hres & Hcommon). refine (fold_accept _ b c _ Hold Hnew Hdiff Hhs Hcommon _ Hb _ Hsb).
    intros E. apply Hres. unfold accepted_text, text_with, flags_of. by rewrite E.
Qed.

Lemma patched_current f st b c :
  lf_file st b c → fits st → hunks st ≠ [] →
  let t := foldl reject_patch c
             (sort_by_key (λ h, - new_start (line_info h))%Z (List.filter f (hunks st))) in
  short_of t (rejected_text f st b c)
  ∧ (kept b c c (rejected_text f st b c) → t = rejected_text f st b c).
Proof.
  intros Hlf Hfit Hne. destruct (lf_hunks st b c Hlf Hfit Hne) as (_ & Hsc%small_text & Hhs).
  destruct Hlf as [_ _ Hold Hnew]. cbv zeta.
  rewrite <- pick_filter. change (foldl reject_patch) with (fold_edits reject_edit).
  pose proof (diff_is_line_diff b c Hold Hnew) as Hdiff. split.
  - exact (fold_reject_short _ b c _ Hold Hnew Hdiff Hhs _ Hsc).
  - intros (Hc & Hres & Hcommon). refine (fold_reject _ b c _ Hold Hnew Hdiff Hhs Hcommon _ Hc _ Hsc).
    intros E. apply Hres. unfold rejected_text, text_without, flags_of. by rewrite E.
Qed.

(** Every change made gives the new text, every change undone the old one. *)
Lemma accepted_all st b c :
  lf_file st b c → fits st → hunks st ≠ [] → accepted_text (λ _, true) st b c = c.
Proof.
  intros Hlf Hfit Hne. destruct (lf_hunks st b c Hlf Hfit Hne) as (_ & _ & Hhs).
  pose proof (diff_is_line_diff b c (lf_old _ _ _ Hlf) (lf_new _ _ _ Hlf)) as Hdiff.
  destruct (segments_sides (diff_lines b c) None) as (_ & En & _). cbn in En.
  rewrite (diff_new _ _ _ Hdiff) in En.
  unfold accepted_text, text_with, flags_of.
  replace (map (λ _, true) (hunks st)) with (repeat true (length (hunks st))).
  2:{ clear. induction (hunks st) as [|h l IH]; [done|]. cbn. by rewrite IH. }
  rewrite chosen_all; [by rewrite En, split_inclusive_concat|].
  destruct (hunks_of_edits _ _ Hhs) as (E & _). rewrite <- (edits_length 1), <- E.
  by rewrite length_map.
Qed.
Lemma rejected_all st b c :
  lf_file st b c → fits st → hunks st ≠ [] → rejected_text (λ _, true) st b c = b.
Proof.
  intros Hlf Hfit Hne. destruct (lf_hunks st b c Hlf Hfit Hne) as (_ & _ & Hhs).
  pose proof (diff_is_line_diff b c (lf_old _ _ _ Hlf) (lf_new _ _ _ Hlf)) as Hdiff.
  destruct (segments_sides (diff_lines b c) None) as (Eo & _ & _). cbn in Eo.
  rewrite (diff_old _ _ _ Hdiff) in Eo.
  unfold rejected_text, text_without, flags_of.
  replace (map (λ _, true) (hunks st)) with (repeat true (length (hunks st))).
  2:{ clear. induction (hunks st) as [|h l IH]; [done|]. cbn. by rewrite IH. }
  rewrite chosen_all; [by rewrite news_swap, Eo, split_inclusive_concat|].
  destruct (hunks_of_edits _ _ Hhs) as (_ & E & _). rewrite <- (edits_length 1), <- E.
  by rewrite length_map.
Qed.
End text.

(** ** One file *)

Section one_file.
Context `{!TrackerEnv} `{!LawfulTrackerEnv}.

Lemma send_removed_frame p r l s :
  actor (send_removed p r l s).2 = actor s ∧ drawn (send_removed p r l s).2 = drawn s
  ∧ disk_log (send_removed p r l s).2 = disk_log s.
Proof.
  assert (E : send_removed p r l s = send_events (map (λ h, HunkRemoved p (hunk_id h) r) l) s).
  { unfold send_removed, send_events. revert s. induction l as [|h l IH]; intros s; [done|].
    cbn [mapM_ map]. unfold mbind, M_bind. cbn [send_event]. by rewrite IH. }
  rewrite E. edestruct send_events_actor as (-> & -> & _ & ->). done.
Qed.

Lemma count_all act l : ∀ s,
  let s' := (mapM_ (λ h, count_action h act) l s).2 in
  file_states (actor s') = file_states (actor s) ∧ disk_log s' = disk_log s
  ∧ session_stats (actor s')
    = foldl (λ t h, update_stats (line_info h) (bool_decide (act = Accept)) t)
        (session_stats (actor s)) l.
Proof.
  induction l as [|h l IH]; intros s; [done|]. cbn [mapM_ foldl].
  destruct (IH (count_action h act s).2) as (E1 & E2 & E3).
  change ((count_action h act ≫= λ _, mapM_ (λ h, count_action h act) l) s)
    with (mapM_ (λ h, count_action h act) l (count_action h act s).2).
  by rewrite E1, E2, E3.
Qed.

(** Nothing is pending between equal contents, nor when an emptied file goes. *)
Definition level (b c : FileContentState) : Prop := b = c ∨ (b = Full [] ∧ c = Missing).

Lemma level_no_hunks p b c src s : level b c → hunks_between p b c src s = ([], s).
Proof.
  intros [->|[-> ->]]; [|done]. destruct c; try done. cbn. unfold compute_hunks.
  by rewrite (proj2 (str_eqb_eq _ _) eq_refl).
Qed.

(** The file after a recomputation *)
Lemma recompute_file p st c src s :
  file_of (actor s) p st →
  let s' := (recompute_hunks p (Some c) src s).2 in
  disk_log s' = disk_log s
  ∧ ∃ l, file_of (actor s') p (set_hunks l (set_current c st)) ∧ (level (baseline st) c → l = []).
Proof.
  intros Hp. destruct (recompute_spec p (Some c) src s st Hp) as (Ha & _ & _ & Hl).
  cbn zeta. split; [exact Hl|]. eexists. split.
  - rewrite Ha. unfold recomputed, file_of. cbn. by rewrite lookup_partial_alter_eq.
  - intros Hlev. cbn [default]. by rewrite level_no_hunks.
Qed.

Lemma remaining_file p st c s :
  file_of (actor s) p st →
  let s' := (recompute_remaining p c s).2 in
  disk_log s' = disk_log s
  ∧ ∃ l, file_of (actor s') p (set_hunks l (set_current c st)) ∧ (level (baseline st) c → l = []).
Proof. intros Hp. by apply recompute_file. Qed.

Lemma run_bind {A B} (m : M A) (k : A → M B) s : (m ≫= k) s = k (m s).1 (m s).2.
Proof. unfold mbind, M_bind. by destruct (m s). Qed.
Ltac run := repeat (rewrite run_bind; cbv beta).

Lemma update_file_at p f st s :
  file_of (actor s) p st → file_of (actor (update_file p f s).2) p (f st).
Proof. unfold file_of. intros Hp. cbn. by rewrite lookup_alter_eq, Hp. Qed.

Definition new_baseline (l : list Hunk) (st : FileHunkState) : FileContentState :=
  if is_missing (baseline st) then current_content st
  else foldl accept_patch (baseline st) (sort_by_key (λ h, - old_start (line_info h))%Z l).

(** Accepting some hunks of a file *)
Lemma accept_batch_file p l st s :
  l ≠ [] → file_of (actor s) p st → (is_missing (baseline st) = true → without_hunks l (hunks st) = []) →
  let s' := (accept_hunks_batch p l s).2 in
  disk_log s' = disk_log s
  ∧ ∃ r, file_of (actor s') p (set_hunks r (set_accepted true (set_baseline (new_baseline l st) st)))
         ∧ (level (new_baseline l st) (current_content st) → r = []).
Proof.
  intros Hl Hp Hone. unfold accept_hunks_batch, new_baseline.
  destruct l as [|h l']; [done|]. cbn [is_empty]. set (l := h :: l') in *.
  run. cbn [get_file fst snd]. unfold file_of in Hp. rewrite Hp.
  destruct (is_missing (baseline st)) eqn:Hm; run;
    match goal with |- context [update_file p ?g] => set (f := g) end;
    pose proof (update_file_at p f st s Hp) as Hu;
    destruct (send_removed_frame p Accepted l (update_file p f s).2) as (Ha & _ & Hd);
    rewrite <- Ha in Hu.
  - cbn [send_event actor disk_log snd]. rewrite Hd. split; [done|].
    exists (without_hunks l (hunks st)). auto.
  - set (s2 := (send_event _ _).2). assert (Hs2 : file_of (actor s2) p (f st)) by exact Hu.
    destruct (remaining_file p _ (current_content st) s2 Hs2) as (Hd2 & r & Hr & Hlev).
    rewrite Hd2. split; [exact Hd|]. by exists r.
Qed.

(** What rejecting some hunks of a file leaves there and does on disk *)
Definition new_content (l : list Hunk) (st : FileHunkState) : FileContentState :=
  match baseline st, current_content st with
  | Missing, _ => Missing
  | b, Missing => b
  | _, Full c => Full (foldl reject_patch c (sort_by_key (λ h, - new_start (line_info h))%Z l))
  | _, c => c
  end.
Definition undo_op (p : path) (l : list Hunk) (st : FileHunkState) : DiskOp :=
  match new_content l st with Full c => Wrote p c | _ => Removed p end.

Lemma write_ok p c s s' :
  write_to_disk p c s = (Ok tt, s') → actor s' = actor s ∧ disk_log s' = disk_log s ++ [Wrote p c].
Proof.
  unfold write_to_disk, mbind, M_bind, ask. destruct (fs_write p c (world s)) as [[u|e] w]; [|done].
  by intros [= <-].
Qed.
Lemma remove_ok p s s' :
  remove_from_disk p s = (Ok tt, s') → actor s' = actor s ∧ disk_log s' = disk_log s ++ [Removed p].
Proof.
  unfold remove_from_disk, mbind, M_bind, ask. destruct (fs_remove p (world s)) as [[u|e] w]; [|done].
  by intros [= <-].
Qed.
Lemma try_ok {A} (m : M (result unit (HunkActionError IoError))) (k : unit → M (result A _)) s a s' :
  try m k s = (Ok a, s') → ∃ s1, m s = (Ok tt, s1) ∧ k tt s1 = (Ok a, s').
Proof.
  unfold try, mbind, M_bind. destruct (m s) as [[[]|e] s1]; [|done]. intros E. by exists s1.
Qed.

(** What pending hunks say of the contents of their file *)
Definition actable (l : list Hunk) (st : FileHunkState) : Prop :=
  match baseline st, current_content st with
  | Full _, Full _ => True
  | Full _, Missing | Missing, Full _ => without_hunks l (hunks st) = []
  | _, _ => False
  end.

Lemma reject_batch_file p l st s s' :
  l ≠ [] → file_of (actor s) p st → actable l st →
  reject_hunks_batch p l s = (Ok tt, s') →
  disk_log s' = disk_log s ++ [undo_op p l st]
  ∧ ∃ r, file_of (actor s') p (set_hunks r (set_current (new_content l st) st))
         ∧ (level (baseline st) (new_content l st) → r = []).
Proof.
  intros Hl Hp Hact. unfold reject_hunks_batch, undo_op, new_content, actable in *.
  destruct l as [|h l']; [done|]. cbn [is_empty]. set (l := h :: l') in *.
  rewrite run_bind. cbn [get_file fst snd]. unfold file_of in Hp. rewrite Hp.
  assert (Hgone : ∀ f s1, actor s1 = actor s → without_hunks l (hunks st) = [] →
    file_of (actor (send_removed p Rejected l
      (update_file p (λ st0, set_hunks (without_hunks l (hunks st0)) (f st0)) s1).2).2) p
      (set_hunks [] (f st))).
  { intros f s1 Ha Hn. destruct (send_removed_frame p Rejected l
      (update_file p (λ st0, set_hunks (without_hunks l (hunks st0)) (f st0)) s1).2) as (-> & _ & _).
    rewrite <- Hn. apply (update_file_at p (λ st0, set_hunks (without_hunks l (hunks st0)) (f st0))).
    unfold file_of. by rewrite Ha. }
  destruct (baseline st) as [| | | | |b] eqn:Hb, (current_content st) as [| | | | |c] eqn:Hc; try done.
  - intros (s1 & (Ha & Hd)%remove_ok & E)%try_ok. rewrite !run_bind in E. injection E as <-.
    edestruct send_removed_frame as (_ & _ & ->). split; [exact Hd|]. exists [].
    split; [|done]. apply (Hgone (set_current Missing)); auto.
  - intros (s1 & (Ha & Hd)%write_ok & E)%try_ok. rewrite !run_bind in E. injection E as <-.
    edestruct send_removed_frame as (_ & _ & ->). split; [exact Hd|]. exists [].
    split; [|done]. rewrite <- Hb. apply (Hgone (λ st, set_current (baseline st) st)); auto.
  - set (t := foldl reject_patch c _).
    intros (s1 & (Ha & Hd)%write_ok & E)%try_ok. rewrite !run_bind in E.
    apply (f_equal snd) in E. cbn [mret M_ret snd] in E. subst s'.
    match goal with |- context [update_file p ?g] => set (f := g) end.
    destruct (send_removed_frame p Rejected l (update_file p f s1).2) as (Ha2 & _ & Hd2).
    set (s2 := (send_removed p Rejected l (update_file p f s1).2).2) in *.
    assert (Hs2 : file_of (actor s2) p (f st)).
    { unfold file_of. rewrite Ha2. apply update_file_at. unfold file_of. by rewrite Ha. }
    destruct (remaining_file p _ (Full t) s2 Hs2) as (Hd3 & r & Hr & Hlev).
    split; [by rewrite Hd3, Hd2|]. exists r. split; [exact Hr|]. rewrite <- Hb. exact Hlev.
Qed.

(** A file after an action on some of its hunks, up to what is then pending, and
    what the action does on disk *)
Definition outcome (act : HunkAction) (l : list Hunk) (st : FileHunkState) : FileHunkState :=
  match act with
  | Accept => set_accepted true (set_baseline (new_baseline l st) st)
  | Reject => set_current (new_content l st) st
  end.
Definition disk_of (act : HunkAction) (p : path) (l : list Hunk) (st : FileHunkState) : list DiskOp :=
  match act with Accept => [] | Reject => [undo_op p l st] end.
Definition acted_on (act : HunkAction) (l : list Hunk) (st : FileHunkState)
    (new : option FileHunkState) : Prop :=
  ∃ r, new = Some (set_hunks r (outcome act l st))
       ∧ (level (baseline (outcome act l st)) (current_content (outcome act l st)) → r = []).

Lemma act_on_file_at L p l act st s s' :
  tracker_ok L ∅ (actor s) (drawn s) → file_of (actor s) p st → l ≠ [] →
  (∀ x, x ∈ l → x ∈ hunks st) → act_on_file p l act s = (Ok tt, s') →
  disk_log s' = disk_log s ++ disk_of act p l st
  ∧ acted_on act l st (file_states (actor s') !! p).
Proof.
  intros Hok Hp Hne Hl. unfold act_on_file. rewrite run_bind.
  destruct (count_all act l s) as (Hf & Hd & _).
  pose proof (count_acting L p st l act s (conj Hok Hp)) as [Hok1 Hp1].
  set (s1 := (mapM_ (λ h, count_action h act) l s).2) in *.
  pose proof (acting_contents _ p l st (actor s1) (drawn s1) (conj Hok1 (conj Hp1 Hl)) Hne) as Hact.
  destruct act.
  - rewrite run_bind. intros [= <-].
    destruct (accept_batch_file p l st s1 Hne Hp1) as (Hd2 & r & Hr & Hlev).
    { destruct (baseline st); try done. by destruct (current_content st). }
    split; [by rewrite Hd2, Hd, app_nil_r|]. by exists r.
  - intros E. destruct (reject_batch_file p l st s1 s' Hne Hp1 Hact E) as (Hd2 & r & Hr & Hlev).
    split; [by rewrite Hd2, Hd|]. by exists r.
Qed.
End one_file.

Section acts.
Context `{!TrackerEnv} `{!LawfulTrackerEnv}.

Abbreviation Ok_ L := (tracker_ok L ∅).

(** ** Statistics *)

Definition counted (x : SessionStats) (a : HunkTrackerActor) (n : nat) : Prop := session_stats a = x.

Lemma counted_files x f : keeps (counted x) (modify (λ a, set_files (f a) a)).
Proof. by apply triple_modify. Qed.
Lemma counted_turns x f : keeps (counted x) (modify (λ a, set_turns (f a) a)).
Proof. by apply triple_modify. Qed.
Lemma counted_draw x : keeps (counted x) draw.
Proof. by intros s Hx. Qed.
#[local] Hint Resolve counted_files counted_turns counted_draw : tracker.
Lemma counted_recompute x p c src : keeps (counted x) (recompute_hunks p c src).
Proof. keeps_deep. Qed.
#[local] Hint Resolve counted_recompute : tracker.
Lemma counted_accept x p l : keeps (counted x) (accept_hunks_batch p l).
Proof. keeps_deep. Qed.
Lemma counted_reject x p l : keeps (counted x) (reject_hunks_batch p l).
Proof. keeps_deep. Qed.

Definition count_stats (act : HunkAction) (l : list Hunk) (t : SessionStats) : SessionStats :=
  foldl (λ t h, update_stats (line_info h) (bool_decide (act = Accept)) t) t l.

Lemma act_on_file_stats p l act s :
  session_stats (actor (act_on_file p l act s).2) = count_stats act l (session_stats (actor s)).
Proof.
  unfold act_on_file, count_stats. rewrite run_bind. destruct (count_all act l s) as (_ & _ & <-).
  set (s1 := (mapM_ (λ h, count_action h act) l s).2).
  destruct act; [rewrite run_bind; cbn [mret M_ret snd]|].
  - by apply (counted_accept _ p l s1).
  - by apply (counted_reject _ p l s1).
Qed.

(** ** Batches *)

Definition disk_at (act : HunkAction) (a : HunkTrackerActor) (e : path * list Hunk) : list DiskOp :=
  match file_states a !! e.1 with Some st => disk_of act e.1 e.2 st | None => [] end.

Record batch_done (act : HunkAction) (fl : list (path * list Hunk)) (s s' : Sys) : Prop := {
  done_disk : disk_log s' = disk_log s ++ concat (map (disk_at act (actor s)) fl);
  done_stats : session_stats (actor s') = count_stats act (concat (map snd fl)) (session_stats (actor s));
  done_files p l st :
    (p, l) ∈ fl → file_of (actor s) p st → acted_on act l st (file_states (actor s') !! p);
  done_others q : q ∉ map fst fl → file_states (actor s') !! q = file_states (actor s) !! q;
}.

Lemma action_batch_ids act fl : ∀ s ids s',
  apply_action_batch fl act s = (Ok ids, s') → ids = map hunk_id (concat (map snd fl)).
Proof.
  induction fl as [|[p l] fl IH]; intros s ids s'; [by intros [= <- <-]|].
  rewrite apply_action_batch_cons.
  intros (s1 & _ & E)%try_ok. unfold try, mbind, M_bind in E.
  destruct (apply_action_batch fl act s1) as [[is'|e] s2] eqn:Er; [|done].
  injection E as <- <-. cbn [map concat snd]. rewrite map_app. f_equal. by eapply IH.
Qed.

Lemma action_batch_done L act fl : ∀ s ids s',
  Ok_ L (actor s) (drawn s) → acts_on (actor s) fl → Forall (λ e, e.2 ≠ []) fl →
  apply_action_batch fl act s = (Ok ids, s') → batch_done act fl s s'.
Proof.
  induction fl as [|[p l] fl IH]; intros s ids s' Hok [Hnd Hfl] Hne.
  { intros [= _ <-]. split; [by rewrite app_nil_r|done| |done]. intros p l st Hin.
    by apply elem_of_nil in Hin. }
  rewrite apply_action_batch_cons. intros (s1 & E1 & E)%try_ok.
  unfold try in E. unfold mbind, M_bind in E.
  destruct (apply_action_batch fl act s1) as [[is'|e] s2] eqn:Er; [|done].
  injection E as _ <-. cbn [map fst] in Hnd. apply NoDup_cons in Hnd as [Hp Hnd].
  apply Forall_cons in Hne as [Hl Hne]. cbn [snd] in Hl.
  destruct (Hfl p l) as (st & Hst & Hsub); [left|].
  destruct (act_on_file_at L p l act st s s1 Hok Hst Hl Hsub E1) as [Hd Hact].
  pose proof (act_on_file_stats p l act s) as Hstats.
  pose proof (act_on_file_ok L p l act st _ Hsub (reflexivity _) s (conj Hok Hst)) as Hok1.
  pose proof (others_batch p (λ q, file_states (actor s) !! q) l act s (λ q _, eq_refl)) as Hothers.
  rewrite E1 in Hstats, Hothers, Hok1. cbn [fst snd] in Hstats, Hothers, Hok1.
  assert (Hsame : ∀ q l', (q, l') ∈ fl → file_states (actor s1) !! q = file_states (actor s) !! q).
  { intros q l' Hq. apply Hothers. intros ->. apply Hp, list_elem_of_fmap. by exists (p, l'). }
  assert (Hacts : acts_on (actor s1) fl).
  { split; [done|]. intros q l' Hq. destruct (Hfl q l') as (st' & Hst' & Hl'); [by right|].
    exists st'. split; [|done]. unfold file_of. by rewrite (Hsame q l'). }
  destruct (IH s1 is' s2 Hok1 Hacts Hne Er) as [I1 I2 I3 I4]. split.
  - rewrite I1, Hd, <- app_assoc. f_equal. cbn [map concat]. f_equal.
    + unfold disk_at. cbn [fst snd]. unfold file_of in Hst. by rewrite Hst.
    + f_equal. apply map_ext_in. intros [q l'] Hq%list_elem_of_In. unfold disk_at. cbn [fst].
      by rewrite (Hsame q l').
  - rewrite I2, Hstats. unfold count_stats. cbn [map concat snd]. by rewrite foldl_app.
  - intros q l' st' [[= -> ->]|Hq]%elem_of_cons Hst'.
    + rewrite I4 by done. unfold file_of in Hst, Hst'. rewrite Hst in Hst'. by injection Hst' as <-.
    + apply (I3 q l'); [done|]. unfold file_of. by rewrite (Hsame q l').
  - cbn [map fst]. intros q [Hqp Hq]%not_elem_of_cons. rewrite I4 by done. by apply Hothers.
Qed.

(** Accepting never fails. *)
Lemma accept_batch_total fl : ∀ s, ∃ ids s', apply_action_batch fl Accept s = (Ok ids, s').
Proof.
  induction fl as [|[p l] fl IH]; intros s; [by eexists _, _|].
  rewrite apply_action_batch_cons. unfold try at 1. rewrite run_bind.
  replace ((act_on_file p l Accept s).1) with (Ok tt : result unit (HunkActionError IoError)).
  2:{ unfold act_on_file. by rewrite !run_bind. }
  set (s1 := (act_on_file p l Accept s).2). destruct (IH s1) as (is' & s2 & E).
  unfold try, mbind, M_bind. rewrite E. by eexists _, _.
Qed.

(** ** Scopes of an action *)

Inductive Scope : Type := OfTurn (i : Z) | OfFile (p : path) | OfAll.
Definition in_scope (sc : Scope) (p : path) (h : Hunk) : bool :=
  match sc with
  | OfTurn i => bool_decide (hunk_prompt h = Some i)
  | OfFile q => bool_decide (p = q)
  | OfAll => true
  end.
Definition scope_command (sc : Scope) (act : HunkAction) : HunkTrackerCommand :=
  match sc with
  | OfTurn i => TurnAction i act
  | OfFile p => FileAction p act
  | OfAll => AllAction act
  end.
Definition scoped (sc : Scope) (e : path * FileHunkState) : list Hunk :=
  List.filter (in_scope sc e.1) (hunks e.2).
(** The pending hunks of the scope *)
Definition pending_in (sc : Scope) (s : Sys) : list Hunk :=
  concat (map (scoped sc) (map_to_list (file_states (actor s)))).

(** The files and hunks an action of the scope acts on *)
Record groups (sc : Scope) (a : HunkTrackerActor) (fl : list (path * list Hunk)) : Prop := {
  groups_NoDup : NoDup (map fst fl);
  groups_elem p l :
    (p, l) ∈ fl ↔ ∃ st, file_of a p st ∧ l = scoped sc (p, st) ∧ l ≠ [];
}.

Lemma filter_all {A} (f : A → bool) l : (∀ x, f x = true) → List.filter f l = l.
Proof. intros Hf. induction l as [|x l IH]; [done|]. cbn. by rewrite Hf, IH. Qed.
Lemma is_empty_false {A} (l : list A) : is_empty l = false ↔ l ≠ [].
Proof. by destruct l. Qed.

Lemma groups_nil sc a fl : groups sc a fl → Forall (λ e, e.2 ≠ []) fl.
Proof.
  intros [_ Hg]. apply Forall_forall. intros [p l] Hin.
  by apply Hg in Hin as (st & _ & _ & ?).
Qed.
Lemma groups_acts sc a fl : groups sc a fl → acts_on a fl.
Proof.
  intros [Hn Hg]. split; [done|]. intros p l (st & Hst & -> & _)%Hg. exists st. split; [done|].
  intros x Hx. by apply elem_of_list_filter in Hx as [? _].
Qed.

Lemma scope_runs sc act s :
  ∃ fl, groups sc (actor s) fl
    ∧ handle_command (scope_command sc act) s
      = (ActionsReply (apply_action_batch fl act s).1, (apply_action_batch fl act s).2).
Proof.
  destruct sc as [i|p|]; cbn [scope_command handle_command]; unfold reply_with; rewrite run_bind.
  - unfold apply_turn_action. rewrite run_bind. cbn [get_actor fst snd].
    set (grouped := omap _ _).
    assert (Hg : ∀ p l, grouped !! p = Some l ↔
      ∃ st, file_of (actor s) p st ∧ l = scoped (OfTurn i) (p, st) ∧ l ≠ []).
    { intros p l. unfold grouped, file_of. rewrite lookup_omap.
      destruct (file_states (actor s) !! p) as [st|]; cbn; [|naive_solver].
      change (scoped (OfTurn i) (p, st)) with (turn_hunks i (hunks st)).
      destruct (is_empty (turn_hunks i (hunks st))) eqn:E.
      - split; [done|]. intros (x & [= <-] & -> & Hne). apply is_empty_false in Hne.
        change (scoped (OfTurn i) (p, st)) with (turn_hunks i (hunks st)) in Hne. by rewrite Hne in E.
      - apply is_empty_false in E. naive_solver. }
    case_bool_decide as He.
    + exists []. split; [|done]. split; [constructor|]. intros p l. rewrite <- Hg, He, lookup_empty.
      split; [by intros ?%elem_of_nil|done].
    + rewrite run_bind. cbn [observe fst snd]. exists (map_order (world s) grouped).
      split; [|done]. split; [apply NoDup_order|]. intros p l. by rewrite elem_of_order.
  - unfold apply_file_action. rewrite run_bind. cbn [get_file fst snd].
    destruct (file_states (actor s) !! p) as [st|] eqn:Hp.
    2:{ exists []. split; [|done]. split; [constructor|]. intros q l. split; [by intros ?%elem_of_nil|].
        intros (st & Hst & -> & Hne). exfalso. apply Hne. unfold scoped. cbn [fst snd].
        destruct (decide (q = p)) as [->|Hq]; [unfold file_of in Hst; congruence|].
        assert (∀ h, in_scope (OfFile p) q h = false) as Hf by (intros h; by apply bool_decide_eq_false).
        clear -Hf. induction (hunks st) as [|x r IH]; [done|]. cbn [List.filter]. by rewrite Hf. }
    assert (Hscope : ∀ q st', file_of (actor s) q st' →
      scoped (OfFile p) (q, st') = if decide (q = p) then hunks st else []).
    { intros q st' Hst'. unfold scoped. cbn [fst snd]. case_decide as Hq.
      - subst. unfold file_of in Hst'. rewrite Hp in Hst'. injection Hst' as <-.
        apply filter_all. intros h. by apply bool_decide_eq_true.
      - assert (∀ h, in_scope (OfFile p) q h = false) as Hf by (intros h; by apply bool_decide_eq_false).
        clear -Hf. induction (hunks st') as [|x r IH]; [done|]. cbn [List.filter]. by rewrite Hf. }
    destruct (is_empty (hunks st)) eqn:E.
    + exists []. split; [|done]. split; [constructor|]. intros q l. split; [by intros ?%elem_of_nil|].
      intros (st' & Hst' & -> & Hne). exfalso. apply Hne. rewrite Hscope by done.
      case_decide; [by destruct (hunks st)|done].
    + exists [(p, hunks st)]. split; [|done]. split; [apply NoDup_singleton|]. intros q l.
      rewrite list_elem_of_singleton. split.
      * intros [= -> ->]. exists st. rewrite Hscope by done. rewrite decide_True by done.
        split_and!; [done..|by apply is_empty_false].
      * intros (st' & Hst' & -> & Hne). rewrite Hscope in * by done. by case_decide; subst.
  - unfold apply_all_action. rewrite run_bind. unfold files_in_order. rewrite run_bind.
    cbn [get_actor observe fst snd]. set (fl := List.filter _ _).
    assert (Hg : groups OfAll (actor s) (map (λ e, (e.1, hunks e.2)) fl)).
    { split; [rewrite map_map; apply list_filter_map_fst, NoDup_order|]. intros p l.
      rewrite list_elem_of_fmap. unfold scoped. setoid_rewrite filter_all; [|done..].
      unfold fl. setoid_rewrite elem_of_list_filter. split.
      - intros ([q st] & [= -> ->] & Hq%elem_of_order & Hne%negb_true_iff%is_empty_false).
        by exists st.
      - intros (st & Hst & -> & Hne). exists (p, st). split; [done|].
        rewrite elem_of_order, negb_true_iff, is_empty_false. done. }
    destruct (is_empty fl) eqn:E.
    + exists []. split; [|done]. destruct fl; [|done]. exact Hg.
    + eexists. by split.
Qed.

Lemma groups_pending sc s fl :
  groups sc (actor s) fl → concat (map snd fl) ≡ₚ pending_in sc s.
Proof.
  intros [Hn Hg]. unfold pending_in. set (L := map_to_list (file_states (actor s))).
  assert (Hperm : fl ≡ₚ map (λ e, (e.1, scoped sc e))
                         (List.filter (λ e, negb (is_empty (scoped sc e))) L)).
  { apply NoDup_Permutation; [by apply (NoDup_fmap_1 fst)| |].
    - apply (NoDup_fmap_1 fst). change (NoDup (map fst (map (λ e, (e.1, scoped sc e))
        (List.filter (λ e, negb (is_empty (scoped sc e))) L)))). rewrite map_map. cbn [fst].
      apply list_filter_map_fst, NoDup_fst_map_to_list.
    - intros [p l]. rewrite Hg, list_elem_of_fmap. setoid_rewrite elem_of_list_filter. split.
      + intros (st & Hst & -> & Hne). exists (p, st). split; [done|].
        rewrite negb_true_iff, is_empty_false. split; [|done]. by apply elem_of_map_to_list.
      + intros ([q st] & [= -> ->] & Hq & Hne). exists st.
        rewrite negb_true_iff, is_empty_false in Hne. by apply elem_of_map_to_list in Hq. }
  assert (Hsnd : map snd fl ≡ₚ map snd (map (λ e, (e.1, scoped sc e))
                   (List.filter (λ e, negb (is_empty (scoped sc e))) L)))
    by (apply Permutation_map; exact Hperm).
  rewrite map_map in Hsnd. cbn [snd] in Hsnd.
  transitivity (concat (map (λ e, scoped sc e)
                          (List.filter (λ e, negb (is_empty (scoped sc e))) L))).
  - clear -Hsnd. induction Hsnd; cbn [concat]; [done|by f_equiv| |by etrans].
    rewrite !app_assoc. by rewrite (Permutation_app_comm y x).
  - clear. induction L as [|e L IH]; [done|]. cbn [List.filter map concat].
    destruct (scoped sc e) eqn:E; cbn [is_empty negb]; [exact IH|].
    cbn [map concat]. rewrite E. by f_equiv.
Qed.

Lemma files_or_not sc s fl p st :
  groups sc (actor s) fl → file_of (actor s) p st →
  (scoped sc (p, st) ≠ [] ∧ (p, scoped sc (p, st)) ∈ fl)
  ∨ (scoped sc (p, st) = [] ∧ p ∉ map fst fl).
Proof.
  intros [Hn Hg] Hst. destruct (decide (scoped sc (p, st) = [])) as [E|E].
  - right. split; [done|]. intros ([q l] & -> & Hin)%list_elem_of_fmap.
    apply Hg in Hin as (st' & Hst' & -> & Hne). cbn [fst] in *. unfold file_of in *.
    rewrite Hst in Hst'. injection Hst' as <-. by apply Hne.
  - left. split; [done|]. apply Hg. by exists st.
Qed.
Lemma chosen_false {A} (l : list A) segs : chosen (map (λ _, false) l) segs = olds segs.
Proof.
  revert l. unfold olds. induction segs as [|[t|d i] segs IH]; intros l; cbn [chosen map concat old_part];
    [done|by rewrite IH|]. destruct l as [|x l]; cbn [map]; [by rewrite chosen_none|by rewrite IH].
Qed.
Lemma filter_nil_flags (f : Hunk → bool) l : List.filter f l = [] → map f l = map (λ _, false) l.
Proof.
  induction l as [|x l IH]; [done|]. cbn [List.filter map]. destruct (f x); [done|].
  intros E. by rewrite IH.
Qed.

Context `{!LawfulDiff}.

(** No change chosen: the text as it was *)
Lemma accepted_none f st b c :
  lf_file st b c → List.filter f (hunks st) = [] → accepted_text f st b c = b.
Proof.
  intros [Hb Hc Ho Hn] E. unfold accepted_text, text_with, flags_of.
  rewrite (filter_nil_flags _ _ E), chosen_false.
  destruct (segments_sides (diff_lines b c) None) as (Eo & _ & _). cbn in Eo.
  by rewrite Eo, (diff_old _ _ _ (diff_is_line_diff b c Ho Hn)), split_inclusive_concat.
Qed.
Lemma rejected_none f st b c :
  lf_file st b c → List.filter f (hunks st) = [] → rejected_text f st b c = c.
Proof.
  intros [Hb Hc Ho Hn] E. unfold rejected_text, text_without, flags_of.
  rewrite (filter_nil_flags _ _ E), chosen_false, olds_swap.
  destruct (segments_sides (diff_lines b c) None) as (_ & En & _). cbn in En.
  by rewrite En, (diff_new _ _ _ (diff_is_line_diff b c Ho Hn)), split_inclusive_concat.
Qed.

(** The baseline and the content of a text file after an action *)
Lemma accepted_file sc p st b c :
  lf_file st b c → fits st → scoped sc (p, st) ≠ [] →
  ∃ t, baseline (outcome Accept (scoped sc (p, st)) st) = Full t
    ∧ short_of t (accepted_text (in_scope sc p) st b c)
    ∧ (kept b c b (accepted_text (in_scope sc p) st b c) → t = accepted_text (in_scope sc p) st b c).
Proof.
  intros Hlf Hfit Hne. cbn [outcome baseline set_accepted set_baseline]. unfold new_baseline.
  rewrite (lf_baseline _ _ _ Hlf). cbn [is_missing]. rewrite <- (lf_baseline _ _ _ Hlf).
  apply (patched_baseline (in_scope sc p)); [done..|].
  intros E. apply Hne. unfold scoped. cbn [snd]. by rewrite E.
Qed.
Lemma rejected_file sc p st b c :
  lf_file st b c → fits st → scoped sc (p, st) ≠ [] →
  ∃ t, new_content (scoped sc (p, st)) st = Full t
    ∧ short_of t (rejected_text (in_scope sc p) st b c)
    ∧ (kept b c c (rejected_text (in_scope sc p) st b c) → t = rejected_text (in_scope sc p) st b c).
Proof.
  intros Hlf Hfit Hne. unfold new_content.
  rewrite (lf_baseline _ _ _ Hlf), (lf_current _ _ _ Hlf). eexists. split; [done|].
  apply (patched_current (in_scope sc p)); [done..|].
  intros E. apply Hne. unfold scoped. cbn [snd]. by rewrite E.
Qed.

(** ** Changes on disk *)

Definition op_path (op : DiskOp) : path := match op with Wrote p _ | Removed p => p end.
Lemma undo_op_path p l st : op_path (undo_op p l st) = p.
Proof. unfold undo_op. by destruct (new_content l st). Qed.

Lemma concat_disk_accept a fl : concat (map (disk_at Accept a) fl) = [].
Proof.
  induction fl as [|e fl IH]; [done|]. cbn [map concat]. rewrite IH. unfold disk_at.
  by destruct (file_states a !! e.1).
Qed.
Lemma elem_of_disk_reject a fl op :
  op ∈ concat (map (disk_at Reject a) fl) →
  ∃ p l st, op = undo_op p l st ∧ (p, l) ∈ fl ∧ file_of a p st.
Proof.
  induction fl as [|[p l] fl IH]; cbn [map concat]; [by intros ?%elem_of_nil|].
  intros [Hop|Hop]%elem_of_app.
  - unfold disk_at in Hop. cbn [fst snd] in Hop.
    destruct (file_states a !! p) as [st|] eqn:Hst; [|by apply elem_of_nil in Hop].
    apply list_elem_of_singleton in Hop as ->. exists p, l, st. split_and!; [done|left|done].
  - destruct (IH Hop) as (q & l' & st & -> & Hin & Hst). exists q, l', st.
    split_and!; [done|by right|done].
Qed.
Lemma disk_reject_elem a fl p l st :
  (p, l) ∈ fl → file_of a p st → undo_op p l st ∈ concat (map (disk_at Reject a) fl).
Proof.
  intros Hin Hst. induction fl as [|e fl IH]; [by apply elem_of_nil in Hin|].
  cbn [map concat]. apply elem_of_app. apply elem_of_cons in Hin as [<-|Hin]; [left|right; auto].
  unfold disk_at. cbn [fst snd]. rewrite Hst. left.
Qed.

(** ** Settling a file *)

Lemma filter_all_in (f : Hunk → bool) l : (∀ h, h ∈ l → f h = true) → List.filter f l = l.
Proof.
  induction l as [|x l IH]; intros Hf; [done|]. cbn [List.filter]. rewrite (Hf x) by left.
  rewrite IH; [done|]. intros h Hh. apply Hf. by right.
Qed.

(** Contents whose changes can be made and undone by [patch_lines] *)
Definition settleable (st : FileHunkState) : Prop :=
  match baseline st, current_content st with
  | Full b, Full c => lf_file st b c ∧ kept b c b c ∧ kept b c c b
  | Full b, Missing => (line_count b ≤ U64_MAX)%Z
  | Missing, Full _ => True
  | _, _ => False
  end.

Lemma same_flags (f g : Hunk → bool) l : List.filter f l = l → List.filter g l = l → map f l = map g l.
Proof.
  assert (Hall : ∀ (k : Hunk → bool) r, List.filter k r = r → map k r = map (λ _, true) r).
  { intros k r. induction r as [|x r IH]; [done|]. cbn [List.filter map].
    destruct (k x) eqn:Ek; intros E; [injection E as E; by rewrite IH|].
    pose proof (List.filter_length_le k r) as Hlen. rewrite E in Hlen. cbn in Hlen. lia. }
  intros Hf Hg. by rewrite (Hall f), (Hall g).
Qed.

Lemma deletion_emptied b : (line_count b ≤ U64_MAX)%Z → patch_lines b 1 (line_count b) [] = [].
Proof.
  intros Hb. unfold patch_lines. change (saturating_sub 1 1) with 0%Z. unfold wrapping_add.
  unfold line_count in *. rewrite wrap64_small by (unfold is_u64; lia). cbn [is_empty].
  rewrite Z.min_l by lia. change (Z.to_nat 0) with 0%nat. cbn [take app].
  rewrite drop_ge by lia. cbn. by rewrite andb_false_r.
Qed.

Lemma all_level sc act p st :
  hunks st ≠ [] → (∀ h, h ∈ hunks st → in_scope sc p h = true) → settleable st → fits st →
  level (baseline (outcome act (scoped sc (p, st)) st))
    (current_content (outcome act (scoped sc (p, st)) st)).
Proof.
  intros Hhs Hall Hset Hfit.
  assert (Hsc : scoped sc (p, st) = hunks st) by (by apply filter_all_in).
  assert (Hne : scoped sc (p, st) ≠ []) by (by rewrite Hsc).
  assert (Htrue : flags_of (in_scope sc p) st = flags_of (λ _, true) st).
  { apply same_flags; [exact Hsc|by apply filter_all]. }
  unfold settleable in Hset.
  destruct (baseline st) as [| | | | |b] eqn:Hb, (current_content st) as [| | | | |c] eqn:Hc; try done.
  - left. destruct act; cbn [outcome baseline current_content set_accepted set_baseline set_current].
    + unfold new_baseline. by rewrite Hb.
    + unfold new_content. by rewrite Hb.
  - destruct act; cbn [outcome baseline current_content set_accepted set_baseline set_current].
    + right. split; [|done]. unfold new_baseline. rewrite Hb. cbn [is_missing].
      destruct Hfit as [|Hfit]; [done|]. rewrite Hb, Hc in Hfit. destruct Hfit as (h & Hh & Hbody).
      rewrite Hsc, Hh. unfold sort_by_key, sort_by. cbn [foldr insert_by foldl accept_patch].
      assert (old_start (line_info h) = 1%Z ∧ old_count (line_info h) = line_count b
              ∧ new_text h = []) as (-> & -> & ->).
      { unfold hunk_body in Hbody. cbn in Hbody. injection Hbody as El _ En. by rewrite El, En. }
      by rewrite deletion_emptied.
    + left. unfold new_content. by rewrite Hb, Hc.
  - destruct Hset as (Hlf & Hkb & Hkc). left.
    assert (Ea : accepted_text (in_scope sc p) st b c = c).
    { unfold accepted_text. rewrite Htrue. by apply accepted_all. }
    assert (Er : rejected_text (in_scope sc p) st b c = b).
    { unfold rejected_text. rewrite Htrue. by apply rejected_all. }
    destruct act.
    + destruct (accepted_file sc p st b c Hlf Hfit Hne) as (t & -> & _ & Ht). rewrite Ea in Ht.
      cbn [outcome current_content set_accepted set_baseline]. by rewrite Hc, Ht.
    + destruct (rejected_file sc p st b c Hlf Hfit Hne) as (t & Et & _ & Ht). rewrite Er in Ht.
      cbn [outcome baseline current_content set_current]. by rewrite Et, Hb, Ht.
Qed.
End acts.
