(* ===== verification/HunkDemo.v ===== *)
(** * Hunk tracker: an environment

    A disk and a repository held in maps, with a small line diff: it satisfies
    the laws of the environment, and the theorems are applied in it. *)
From S2P Require Import Prelude RustStr StrSearch HunkTypes HunkDiff HunkDiffFacts HunkWorld HunkTracker.
From S2P Require Import HunkIndex HunkTrackerFacts HunkFacts HunkActs.

(** ** A line diff *)

Fixpoint greedy_diff (a : list str) : list str → list Change :=
  match a with
  | [] => map Insert
  | x :: a' =>
      fix against (b : list str) : list Change :=
        match b with
        | [] => Delete x :: map Delete a'
        | y :: b' =>
            if str_eqb x y then Equal x :: greedy_diff a' b'
            else if existsb (str_eqb x) b' then Insert y :: against b'
            else Delete x :: greedy_diff a' b
        end
  end.

Lemma inserts_sides b : old_side (map Insert b) = [] ∧ new_side (map Insert b) = b.
Proof.
  induction b as [|y b [H1 H2]]; [done|]. unfold old_side, new_side in *. cbn. by rewrite H1, H2.
Qed.
Lemma deletes_sides a : old_side (map Delete a) = a ∧ new_side (map Delete a) = [].
Proof.
  induction a as [|x a [H1 H2]]; [done|]. unfold old_side, new_side in *. cbn. by rewrite H1, H2.
Qed.

Lemma greedy_sides a : ∀ b, old_side (greedy_diff a b) = a ∧ new_side (greedy_diff a b) = b.
Proof.
  induction a as [|x a IH]; intros b; [apply inserts_sides|].
  induction b as [|y b [H1 H2]].
  - destruct (deletes_sides a) as [E1 E2]. unfold old_side, new_side in *. cbn. by rewrite E1, E2.
  - cbn [greedy_diff]. destruct (str_eqb x y) eqn:E; [|destruct (existsb (str_eqb x) b)].
    + apply str_eqb_eq in E as ->. destruct (IH b) as [E1 E2].
      unfold old_side, new_side in *. cbn. by rewrite E1, E2.
    + unfold old_side, new_side in *. cbn in *. by rewrite H1, H2.
    + destruct (IH (y :: b)) as [E1 E2]. unfold old_side, new_side in *. cbn. by rewrite E1, E2.
Qed.

(** ** The disk and the repository *)

Record DemoWorld : Type := { disk : gmap path str; head : gmap path str }.
Definition with_disk (d : gmap path str) (w : DemoWorld) : DemoWorld :=
  {| disk := d; head := head w |}.

Definition demo_root : path := [ROOT; lit "r"].
(** The one file that cannot be written *)
Definition locked : path := demo_root ++ [lit "locked"].

#[global] Instance demo_env : TrackerEnv := {
  World := DemoWorld;
  IoError := unit;
  symlink_metadata p w := ((λ s, (false, str_len s)) <$> disk w !! p, w);
  open_file p w := (bool_decide (is_Some (disk w !! p)), w);
  read_prefix p n w := ((λ s, take (Z.to_nat n) (as_bytes s)) <$> disk w !! p, w);
  read_to_end p n w := ((λ s, drop (Z.to_nat n) (as_bytes s)) <$> disk w !! p, w);
  fs_write p c w :=
    if bool_decide (p = locked) then (Err tt, w) else (Ok tt, with_disk (<[p := c]> (disk w)) w);
  fs_remove p w :=
    if bool_decide (p = locked) then (Err tt, w) else (Ok tt, with_disk (delete p (disk w)) w);
  path_exists p w := (bool_decide (is_Some (disk w !! p)), w);
  is_dir _ w := (false, w);
  canonicalize p w := (Some p, w);
  Repo := unit;
  discover _ w := (Some tt, w);
  workdir _ := Some demo_root;
  head_tree _ w :=
    (Some (λ p, (λ s, {| is_link := false; blob := Some (as_bytes s) |}) <$> head w !! p), w);
  head_commit_id _ w := (Some [1%Z], w);
  index_metadata _ w := (Some (100%Z, Some 1%Z), w);
  git_status _ _ w := (Some [], w);
  task_fails w := (false, w);
  diff_lines a b := greedy_diff (split_inclusive a) (split_inclusive b);
  diff_times_out _ _ w := (false, w);
  uuid n := [Z.of_nat n];
  now n := Z.of_nat n;
  map_order _ _ m := map_to_list m;
  path_order _ s := elements s;
  id_order _ s := elements s;
  prompt_order _ _ m := map_to_list m;
}.

#[global] Instance demo_lawful : LawfulTrackerEnv.
Proof.
  split; try done. intros n m [= E]. lia.
Qed.
#[global] Instance demo_diff : LawfulDiff.
Proof. intros a b _ _. split; apply greedy_sides. Qed.

(** ** A session *)

Definition demo_file : path := demo_root ++ [lit "a.txt"].
Definition new_file : path := demo_root ++ [lit "b.txt"].
Definition text (l : list str) : str := concat (map (λ x, x ++ [NL]) l).
Definition old_demo : str := text [lit "one"; lit "two"; lit "three"; lit "four"].
Definition new_demo : str := text [lit "one"; lit "2"; lit "three"; lit "four"; lit "five"].
Definition demo_world : DemoWorld :=
  {| disk := {[demo_file := old_demo]}; head := {[ [lit "a.txt"] := old_demo ]} |}.

Definition demo_start : Sys :=
  {| actor := HunkTrackerActor_new demo_root AgentOnly; world := demo_world; drawn := 0;
     sent := []; disk_log := [] |}.
(** An agent edits a file in turn 1, the user appends a line to it, and the agent
    creates another file in the same turn. *)
Definition edit_1 : HunkTrackerCommand :=
  RecordAgentWrite demo_file (text [lit "one"; lit "2"; lit "three"; lit "four"]) 1 None.
Definition edited_world : DemoWorld :=
  with_disk {[demo_file := new_demo]} demo_world.
Definition create_1 : HunkTrackerCommand := RecordAgentWrite new_file (text [lit "new"]) 1 None.

Definition served (s : Sys) (cmd : HunkTrackerCommand) : Sys := (serve [cmd] s).2.
Definition demo_session : Sys :=
  served (served (with_world edited_world (served demo_start edit_1))
            (HandleFileChange demo_file)) create_1.

(** Serving one command; when it loses nothing, nothing more is lost. *)
Lemma served_reachable L s cmd :
  reachable L s → (∀ snap, cmd ≠ RestoreState snap) →
  reachable (lost_in [cmd] s ∪ L) (served s cmd).
Proof.
  intros Hs Hcmd. apply (reach_serve L s [cmd] (λ _, s)); [done| |];
    intros snap Hin%list_elem_of_singleton; by destruct (Hcmd snap).
Qed.
Lemma served_reachable_none L s cmd :
  reachable L s → (∀ snap, cmd ≠ RestoreState snap) → bool_decide (lost_in [cmd] s = ∅) = true →
  reachable L (served s cmd).
Proof.
  intros Hs Hcmd E%bool_decide_eq_true. rewrite <- (union_empty_l_L L), <- E.
  by apply served_reachable.
Qed.
Lemma demo_session_reachable : reachable ∅ demo_session.
Proof.
  unfold demo_session.
  repeat first [ apply served_reachable_none; [|done|vm_compute; reflexivity] | apply reach_world ].
  apply reach_new.
Qed.
