(* ===== verification/HunkSummary.v ===== *)
(** * Hunk tracker: moving a snapshot, and summaries

    Moving the paths of a snapshot from one directory to another and back is the
    identity.  The summary of a session is the sums over its pending hunks. *)
From S2P Require Import Prelude RustStr StrSearch HunkTypes HunkDiff HunkDiffFacts HunkWorld.
From S2P Require Import HunkTracker HunkIndex HunkTrackerFacts HunkFacts HunkActs.
From S2P Require Import HunkDemo.

(** A path under a directory *)
Definition is_relative (rel : path) : Prop :=
  match rel with c :: _ => str_eqb c ROOT = false | [] => True end.

Lemma join_relative base rel : is_relative rel → join_path base rel = base ++ rel.
Proof. destruct rel as [|c rel]; cbn; [by rewrite app_nil_r|]. by intros ->. Qed.
Lemma path_strip_app base rel : path_strip_prefix (base ++ rel) base = Some rel.
Proof.
  induction base as [|b base IH]; [by destruct rel|]. cbn.
  by rewrite (proj2 (str_eqb_eq b b) eq_refl).
Qed.

(** Draining in any order builds the same map, as long as keys differ. *)
Lemma fold_inserts_lookup {A} (l : list (path * A)) : ∀ (m : gmap path A) p x,
  NoDup (map fst l) → (∀ q, q ∈ map fst l → m !! q = None) →
  foldl (λ m e, <[e.1 := e.2]> m) m l !! p = Some x ↔ m !! p = Some x ∨ (p, x) ∈ l.
Proof.
  induction l as [|[q y] l IH]; intros m p x Hnd Hm; cbn [foldl].
  - rewrite elem_of_nil. tauto.
  - cbn [map fst] in Hnd. apply NoDup_cons in Hnd as [Hq Hnd].
    rewrite IH; [|done|].
    + rewrite elem_of_cons. cbn [fst snd]. destruct (decide (q = p)) as [->|Hne].
      * rewrite lookup_insert_eq. rewrite (Hm p) by left. split.
        -- intros [[= <-] |Hin]; [by right; left|by right; right].
        -- intros [|[[= <-]|Hin]]; [done|by left|by right].
      * rewrite lookup_insert_ne by done. split; [tauto|].
        intros [|[[= <- <-]|]]; [by left|done|by right].
    + intros r Hr. cbn [fst]. rewrite lookup_insert_ne; [apply Hm; by right|]. by intros ->.
Qed.

(** The map's files, under [base] *)
Definition lives_under (base : path) (e : path * FileHunkStateSnapshot) : Prop :=
  ∃ rel, is_relative rel ∧ e.1 = base ++ rel ∧ Forall (λ h, hunk_path h = e.1) (snap_hunks e.2).

Definition moved (e : path * FileHunkStateSnapshot) (target : path) :
    path * FileHunkStateSnapshot :=
  (target, {| snap_baseline := snap_baseline e.2; snap_current := snap_current e.2;
              snap_hunks := map (with_hunk_path target) (snap_hunks e.2);
              snap_agent := snap_agent e.2; snap_accepted := snap_accepted e.2 |}).

Lemma rewrite_file_under old canonical new rel e :
  is_relative rel → e.1 = old ++ rel →
  (canonical = old ∨ path_strip_prefix e.1 canonical = None) →
  rewrite_file old canonical new e = moved e (new ++ rel).
Proof.
  destruct e as [p s]. cbn [fst]. intros Hrel -> Hcan. unfold rewrite_file, rewrite_single_path.
  assert ((match path_strip_prefix (old ++ rel) canonical with
           | Some rel0 => Some (join_path new rel0)
           | None => match path_strip_prefix (old ++ rel) old with
                     | Some rel0 => Some (join_path new rel0)
                     | None => None
                     end
           end) = Some (new ++ rel)) as ->; [|done].
  destruct Hcan as [-> | ->]; rewrite path_strip_app, join_relative by done; done.
Qed.

Lemma moved_back e base rel target :
  e.1 = base ++ rel → Forall (λ h, hunk_path h = e.1) (snap_hunks e.2) →
  moved (moved e target) (base ++ rel) = e.
Proof.
  destruct e as [p s]. cbn [fst snd]. intros -> Hh. unfold moved. f_equal.
  destruct s as [b c hs ag ac]. cbn [snd snap_baseline snap_current snap_hunks snap_agent
    snap_accepted] in *. f_equal. rewrite map_map. induction Hh as [|h hs Hp _ IH]; [done|].
  cbn [map]. rewrite IH. f_equal. unfold with_hunk_path. cbn. rewrite <- Hp. by destruct h.
Qed.

Section move.
Context (files : gmap path FileHunkStateSnapshot) (old canonical new : path).
Context (d1 d2 : list (path * FileHunkStateSnapshot)).
Hypothesis Hunder : ∀ p s, files !! p = Some s → lives_under old (p, s).
Hypothesis Hcan : canonical = old ∨ ∀ p, is_Some (files !! p) → path_strip_prefix p canonical = None.
Hypothesis Hd1 : d1 ≡ₚ map_to_list files.
Hypothesis Hd2 : d2 ≡ₚ map_to_list (rewrite_paths d1 old canonical new).

Lemma moved_file e : e ∈ d1 → ∃ rel,
  is_relative rel ∧ e.1 = old ++ rel ∧ Forall (λ h, hunk_path h = e.1) (snap_hunks e.2)
  ∧ rewrite_file old canonical new e = moved e (new ++ rel).
Proof.
  destruct e as [p s]. rewrite Hd1, elem_of_map_to_list. intros He.
  destruct (Hunder p s He) as (rel & Hrel & Hp & Hh). exists rel. split_and!; [done..|].
  apply rewrite_file_under; [done..|]. destruct Hcan as [|Hc]; [by left|right]. by apply Hc.
Qed.

(** A map whose keys stay apart keeps them apart. *)
Lemma NoDup_moved (f : path * FileHunkStateSnapshot → path) l :
  NoDup (map fst l) → (∀ e1 e2, e1 ∈ l → e2 ∈ l → f e1 = f e2 → e1.1 = e2.1) → NoDup (map f l).
Proof.
  induction l as [|e l IH]; intros Hnd Hinj; [constructor|]. cbn [map] in *.
  apply NoDup_cons in Hnd as [He Hnd]. constructor.
  - intros (e' & E & He')%list_elem_of_fmap. apply He, list_elem_of_fmap. exists e'.
    split; [|done]. apply Hinj; [left|by right|done].
  - apply IH; [done|]. intros e1 e2 H1 H2. apply Hinj; by right.
Qed.

Lemma moved_lookup q s :
  rewrite_paths d1 old canonical new !! q = Some s
  ↔ ∃ e, e ∈ d1 ∧ (q, s) = rewrite_file old canonical new e.
Proof.
  unfold rewrite_paths. rewrite fold_inserts_lookup; [| |intros; apply lookup_empty].
  - rewrite list_elem_of_fmap, lookup_empty. naive_solver.
  - rewrite map_map. apply NoDup_moved; [rewrite Hd1; apply NoDup_fst_map_to_list|].
    intros e1 e2 H1 H2. destruct (moved_file e1 H1) as (r1 & _ & P1 & _ & ->).
    destruct (moved_file e2 H2) as (r2 & _ & P2 & _ & ->). cbn. intros E%app_inv_head.
    by rewrite P1, P2, E.
Qed.

Lemma moved_there_and_back e :
  e ∈ d1 → rewrite_file new new old (rewrite_file old canonical new e) = e.
Proof.
  intros He. destruct (moved_file e He) as (rel & Hrel & Hp & Hh & Hr).
  rewrite Hr, (rewrite_file_under new new old rel); [|done|done|by left]. by apply moved_back.
Qed.
Lemma moved_back_file e' : e' ∈ d2 ↔ ∃ e, e ∈ d1 ∧ e' = rewrite_file old canonical new e.
Proof. destruct e' as [q s]. rewrite Hd2, elem_of_map_to_list. apply moved_lookup. Qed.
End move.

(** Moving a snapshot.  Rewriting the files of a snapshot from one working
    directory to another and back, whatever the order in which the maps are
    drained, gives the snapshot again. *)
Theorem rewrite_paths_roundtrip (files : gmap path FileHunkStateSnapshot) old canonical new d1 d2 :
  (∀ p s, files !! p = Some s → lives_under old (p, s)) →
  (canonical = old ∨ ∀ p, is_Some (files !! p) → path_strip_prefix p canonical = None) →
  d1 ≡ₚ map_to_list files → d2 ≡ₚ map_to_list (rewrite_paths d1 old canonical new) →
  rewrite_paths d2 new new old = files.
Proof.
  intros Hunder Hcan Hd1 Hd2.
  pose proof (moved_there_and_back files old canonical new d1 Hunder Hcan Hd1) as Hback.
  pose proof (moved_back_file files old canonical new d1 d2 Hunder Hcan Hd1 Hd2) as Hin.
  apply map_eq. intros p. apply option_eq. intros s. unfold rewrite_paths at 1.
  rewrite fold_inserts_lookup; [| |intros; apply lookup_empty].
  - rewrite lookup_empty, list_elem_of_fmap, <- (elem_of_map_to_list files), <- Hd1. split.
    + intros [|(e' & E & (e & He & ->)%Hin)]; [done|]. by rewrite E, Hback.
    + intros He. right. exists (rewrite_file old canonical new (p, s)).
      split; [by rewrite Hback|]. apply Hin. by exists (p, s).
  - rewrite map_map. apply NoDup_moved; [rewrite Hd2; apply NoDup_fst_map_to_list|].
    intros e1 e2 (x1 & X1 & ->)%Hin (x2 & X2 & ->)%Hin. rewrite !Hback by done.
    destruct (moved_file files old canonical new d1 Hunder Hcan Hd1 x1 X1) as (r1 & _ & P1 & _ & ->).
    destruct (moved_file files old canonical new d1 Hunder Hcan Hd1 x2 X2) as (r2 & _ & P2 & _ & ->).
    cbn. rewrite P1, P2. by intros ->%app_inv_head.
Qed.

(** ** A move *)

Definition demo_snapshot : gmap path FileHunkStateSnapshot :=
  {[ [ROOT; lit "old"; lit "a"] :=
       {| snap_baseline := Full [97%Z]; snap_current := Missing;
          snap_hunks := [with_hunk_path [ROOT; lit "old"; lit "a"]
                           (file_deleted [1%Z] 0 [] [97%Z] External)];
          snap_agent := true; snap_accepted := false |} ]}.
Lemma rewrite_paths_roundtrip_witness :
  rewrite_paths (map_to_list (rewrite_paths (map_to_list demo_snapshot) [ROOT; lit "old"]
                   [ROOT; lit "old"] [ROOT; lit "new"; lit "dir"]))
    [ROOT; lit "new"; lit "dir"] [ROOT; lit "new"; lit "dir"] [ROOT; lit "old"]
  = demo_snapshot.
Proof.
  apply (rewrite_paths_roundtrip demo_snapshot [ROOT; lit "old"] [ROOT; lit "old"]
           [ROOT; lit "new"; lit "dir"] (map_to_list demo_snapshot)
           (map_to_list (rewrite_paths (map_to_list demo_snapshot) [ROOT; lit "old"]
                   [ROOT; lit "old"] [ROOT; lit "new"; lit "dir"]))).
  - unfold demo_snapshot. intros p s [<- <-]%lookup_singleton_Some. exists [lit "a"]. split_and!; [done|done|].
    by repeat constructor.
  - by left.
  - done.
  - done.
Defined.

(** ** The tally of hunks *)

Definition of_prompt (i : Z) (e : path * Hunk) : bool := bool_decide (hunk_prompt e.2 = Some i).
(** The data of a turn, read off the hunks with their paths *)
Definition turn_data (l : list (path * Hunk)) : TurnData :=
  {| td_files := list_to_set (map fst l); td_pending := map snd l;
     td_added := wrapping_sum (map (λ e, new_count (line_info e.2)) l);
     td_removed := wrapping_sum (map (λ e, old_count (line_info e.2)) l) |}.
Definition unattributed (e : path * Hunk) : bool := negb (bool_decide (is_Some (hunk_prompt e.2))).
Definition attributed (e : path * Hunk) : bool := bool_decide (is_Some (hunk_prompt e.2)).

Abbreviation Totals := (gmap Z TurnData * gset path * Z)%type (only parsing).
Record tallied (l : list (path * Hunk)) (t : Totals) : Prop := {
  by_turn i :
    t.1.1 !! i = (let m := List.filter (of_prompt i) l in
                  if is_empty m then None else Some (turn_data m));
  agent_paths : t.1.2 = list_to_set (map fst (List.filter attributed l));
  others_count : t.2 = wrap64 (Z.of_nat (length (List.filter unattributed l)));
}.

Lemma turn_data_snoc l p h : turn_data (l ++ [(p, h)]) = add_to_turn p h (turn_data l).
Proof.
  unfold turn_data, add_to_turn, wrapping_sum. cbn [td_files td_pending td_added td_removed].
  rewrite !map_app, !foldl_app. cbn [map foldl fst snd]. f_equal.
  apply set_eq. intros x. rewrite elem_of_union, elem_of_singleton, !elem_of_list_to_set.
  rewrite elem_of_app, list_elem_of_singleton. tauto.
Qed.
Lemma turn_data_nil : turn_data [] = TurnData_default.
Proof. done. Qed.
Lemma is_empty_snoc {A} (l : list A) x : is_empty (l ++ [x]) = false.
Proof. by destruct l. Qed.
Lemma wrap64_succ n : wrapping_add (wrap64 n) 1 = wrap64 (n + 1).
Proof. unfold wrapping_add, wrap64. by rewrite Z.add_mod_idemp_l by (unfold U64_MAX; lia). Qed.

Lemma tally_hunk_step l t p h :
  tallied l t → tallied (l ++ [(p, h)]) (tally_hunk p t h).
Proof.
  intros [Hi Ha Ho]. destruct t as [[turns agents] other]. cbn [fst snd] in *.
  assert (Hf : ∀ i, List.filter (of_prompt i) (l ++ [(p, h)])
    = List.filter (of_prompt i) l ++ (if bool_decide (hunk_prompt h = Some i) then [(p, h)] else [])).
  { intros i. by rewrite List.filter_app. }
  assert (Hat : List.filter attributed (l ++ [(p, h)])
    = List.filter attributed l ++ (if bool_decide (is_Some (hunk_prompt h)) then [(p, h)] else [])).
  { by rewrite List.filter_app. }
  assert (Hun : List.filter unattributed (l ++ [(p, h)])
    = List.filter unattributed l ++ (if bool_decide (is_Some (hunk_prompt h)) then [] else [(p, h)])).
  { rewrite List.filter_app. cbn. unfold unattributed. cbn [snd].
    by destruct (bool_decide (is_Some (hunk_prompt h))). }
  unfold tally_hunk. destruct (hunk_prompt h) as [j|] eqn:Hp.
  - rewrite bool_decide_eq_true_2 in Hat, Hun by done. rewrite app_nil_r in Hun.
    split; cbn [fst snd].
    + intros i. rewrite Hf. cbn zeta. case_bool_decide as E; [injection E as <-|].
      * rewrite lookup_insert_eq, is_empty_snoc, turn_data_snoc, Hi. cbn zeta.
        by destruct (List.filter (of_prompt j) l).
      * rewrite lookup_insert_ne by congruence. by rewrite app_nil_r, Hi.
    + rewrite Hat, map_app, Ha. apply set_eq. intros x.
      rewrite elem_of_union, elem_of_singleton, !elem_of_list_to_set, elem_of_app. cbn [map fst].
      rewrite list_elem_of_singleton. tauto.
    + by rewrite Hun.
  - rewrite bool_decide_eq_false_2 in Hat, Hun by (by intros [? ?]). rewrite app_nil_r in Hat.
    split; cbn [fst snd].
    + intros i. rewrite Hf, app_nil_r. apply Hi.
    + by rewrite Hat.
    + rewrite Hun, length_app, Ho, wrap64_succ. cbn [length]. f_equal. lia.
Qed.

(** The hunks of the files with their paths *)
Definition flat (files : list (path * FileHunkState)) : list (path * Hunk) :=
  concat (map (λ e, map (pair e.1) (hunks e.2)) files).

Lemma tally_spec files : tallied (flat files) (tally files).
Proof.
  unfold tally, flat.
  assert (∀ fs l t, tallied l t → tallied (l ++ concat (map (λ e : path * FileHunkState,
            map (pair e.1) (hunks e.2)) fs))
            (foldl (λ t (e : path * FileHunkState), foldl (tally_hunk e.1) t (hunks e.2)) t fs)) as Hgen.
  { induction fs as [|[p st] fs IH]; intros l t Ht; cbn [map concat foldl fst snd];
      [by rewrite app_nil_r|].
    rewrite app_assoc. apply IH. clear IH fs. revert l t Ht.
    induction (hunks st) as [|h hs IH]; intros l t Ht; cbn [map foldl]; [by rewrite app_nil_r|].
    rewrite cons_middle, app_assoc. by apply IH, tally_hunk_step. }
  apply (Hgen files []). split; [|done|done]. intros i. apply lookup_empty.
Qed.

Lemma flat_snd files : map snd (flat files) = pending_of files.
Proof.
  unfold flat, pending_of. rewrite concat_map, map_map. f_equal. apply map_ext. intros [p st].
  cbn [fst snd]. rewrite map_map. apply map_id.
Qed.
Lemma elem_of_flat files p h :
  (p, h) ∈ flat files ↔ ∃ st, (p, st) ∈ files ∧ h ∈ hunks st.
Proof.
  unfold flat. rewrite list_elem_of_In, in_concat. setoid_rewrite in_map_iff. split.
  - intros (l & ([q st] & <- & He) & Hh). cbn [fst snd] in Hh.
    apply list_elem_of_In, list_elem_of_fmap in Hh as (h' & [= -> ->] & Hh).
    exists st. by rewrite list_elem_of_In.
  - intros (st & He & Hh). exists (map (pair p) (hunks st)). split.
    + exists (p, st). by rewrite <- list_elem_of_In.
    + apply list_elem_of_In, list_elem_of_fmap. by exists h.
Qed.
Lemma filter_snd i l :
  map snd (List.filter (of_prompt i) l) = turn_hunks i (map snd l).
Proof.
  unfold turn_hunks. induction l as [|e l IH]; [done|]. cbn [List.filter map].
  change (of_prompt i e) with (bool_decide (hunk_prompt e.2 = Some i)).
  destruct (bool_decide _); cbn [map]; by rewrite IH.
Qed.

Lemma unattributed_count l :
  length (List.filter unattributed l)
  = length (List.filter (λ h, bool_decide (hunk_prompt h = None)) (map snd l)).
Proof.
  induction l as [|[p h] l IH]; [done|].
  cbn [List.filter map]. change (unattributed (p, h)) with
    (negb (bool_decide (is_Some (hunk_prompt h)))). cbn [snd].
  destruct (hunk_prompt h); cbn [negb]; [rewrite bool_decide_eq_true_2 by done|];
    cbn; by rewrite IH.
Qed.

Section summary.
Context `{!TrackerEnv} `{!LawfulTrackerEnv}.

(** What the summary says of one turn *)
Record turn_exact (s : Sys) (t : TurnSummary) : Prop := {
  exact_pending : pending t = turn_hunks (turn_prompt t) (get_all_hunks s).1;
  exact_added : lines_added t = wrapping_sum (map (λ h, new_count (line_info h)) (pending t));
  exact_removed : lines_removed t = wrapping_sum (map (λ h, old_count (line_info h)) (pending t));
  exact_files p :
    p ∈ files t ↔ ∃ st h, file_of (actor s) p st ∧ h ∈ hunks st
                          ∧ hunk_prompt h = Some (turn_prompt t);
}.

Lemma turn_data_of i d :
  (if is_empty i then None else Some (turn_data i)) = Some d → turn_data i = d.
Proof. destruct i; [done|]. by intros [= <-]. Qed.

Lemma summary_turn_exact s i :
  let fs := map_order (world s) (file_states (actor s)) in
  turn_exact s (turn_summary (path_order (world s))
                  (i, turn_data (List.filter (of_prompt i) (flat fs)))).
Proof.
  cbn zeta. set (fs := map_order (world s) (file_states (actor s))).
  split; cbn [turn_summary turn_prompt pending lines_added lines_removed files fst snd
              turn_data td_pending td_added td_removed td_files].
  - change (get_all_hunks s).1 with (pending_of fs). rewrite <- flat_snd. apply filter_snd.
  - by rewrite map_map.
  - by rewrite map_map.
  - intros p. rewrite path_order_perm, elem_of_elements, elem_of_list_to_set, list_elem_of_fmap.
    setoid_rewrite elem_of_list_filter. split.
    + intros ([q h] & -> & (st & Hst%elem_of_order & Hh)%elem_of_flat & Hp%bool_decide_eq_true).
      by exists st, h.
    + intros (st & h & Hst & Hh & Hp). exists (p, h). split; [done|]. split.
      * apply elem_of_flat. exists st. split; [by apply elem_of_order|done].
      * by apply bool_decide_eq_true.
Qed.

(** The session summary.  It lists the turns that have pending hunks, each
    once and in order; each with exactly its pending hunks, the sums of their
    lines and the files they are in; and it counts the pending hunks that belong
    to no turn. *)
Theorem summary_exact s :
  let r := (compute_session_summary s).1 in
  StronglySorted (λ a b, (turn_prompt a < turn_prompt b)%Z) (turns r)
  ∧ (∀ i, (∃ t, t ∈ turns r ∧ turn_prompt t = i) ↔ turn_hunks i (get_all_hunks s).1 ≠ [])
  ∧ (∀ t, t ∈ turns r → turn_exact s t)
  ∧ unattributed_pending r
    = wrap64 (Z.of_nat (length (List.filter (λ h, bool_decide (hunk_prompt h = None))
                                  (get_all_hunks s).1)))
  ∧ stats r = session_stats (actor s).
Proof.
  cbn zeta. change (get_all_hunks s).1 with (all_pending s). unfold compute_session_summary.
  rewrite run_bind. unfold files_in_order. rewrite !run_bind. cbn [get_actor observe fst snd].
  set (fs := map_order (world s) (file_states (actor s))).
  change (all_pending s) with (pending_of fs). rewrite <- flat_snd.
  pose proof (tally_spec fs) as [Hi Ha Ho]. destruct (tally fs) as [[byp ag] other].
  rewrite run_bind. cbn [observe fst snd mret M_ret turns unattributed_pending stats] in *.
  set (l := map (turn_summary (path_order (world s))) (prompt_order (world s) byp)).
  assert (Hl : ∀ t, t ∈ l ↔ ∃ i d, t = turn_summary (path_order (world s)) (i, d) ∧ byp !! i = Some d).
  { intros t. unfold l. rewrite list_elem_of_fmap. split.
    - intros ([i d] & -> & Hin). exists i, d. split; [done|].
      by rewrite prompt_order_perm, elem_of_map_to_list in Hin.
    - intros (i & d & -> & Hd). exists (i, d). split; [done|].
      by rewrite prompt_order_perm, elem_of_map_to_list. }
  split_and!.
  - apply sorted_strict; [apply sort_by_key_sorted|]. rewrite sort_by_key_perm. unfold l.
    rewrite map_map. change (NoDup (map fst (prompt_order (world s) byp))).
    rewrite prompt_order_perm. apply NoDup_fst_map_to_list.
  - intros i. setoid_rewrite sort_by_key_perm. setoid_rewrite Hl. rewrite <- filter_snd.
    specialize (Hi i). cbn zeta in Hi. split.
    + intros (t & (j & d & -> & Hd) & E). cbn in E. subst j. rewrite Hi in Hd.
      destruct (List.filter (of_prompt i) (flat fs)); [done|]. discriminate.
    + intros Hne. destruct (List.filter (of_prompt i) (flat fs)) as [|e m] eqn:Em; [done|].
      eexists. split; [by exists i, (turn_data (e :: m))|done].
  - intros t. rewrite sort_by_key_perm, Hl. intros (i & d & -> & Hd). rewrite Hi in Hd.
    cbn zeta in Hd. rewrite <- (turn_data_of _ _ Hd). apply summary_turn_exact.
  - rewrite Ho. do 2 f_equal. apply unattributed_count.
  - done.
Qed.
End summary.

(** The demonstration session has one turn, with a hunk in each of two files. *)
Lemma summary_exact_witness :
  (∃ t, t ∈ turns (compute_session_summary demo_session).1 ∧ turn_prompt t = 1%Z)
  ∧ map lines_added (turns (compute_session_summary demo_session).1) = [2%Z].
Proof.
  split; [|vm_compute; reflexivity].
  destruct (summary_exact demo_session) as (_ & Hin & _). apply Hin. vm_compute. discriminate.
Defined.
