(* ===== verification/HunkTheorems.v ===== *)
(** * Hunk tracker: theorems

    Every handler but the rejecting actions leaves the disk alone.  The reachable
    trackers and what holds of them: the turn index as a view of the pending
    hunks, what accepting and rejecting do to texts and to the disk, and that a
    settled file has nothing pending.
    At the end are the runs where code and comments part. *)
From S2P Require Import Prelude RustStr StrSearch HunkTypes HunkDiff HunkDiffFacts HunkWorld.
From S2P Require Import HunkTracker HunkIndex HunkTrackerFacts HunkFacts HunkActs.
From S2P Require Import HunkDemo.

Create HintDb quiet.

Section quiet.
Context `{!TrackerEnv}.

Definition quiet {A} (m : M A) : Prop := ∀ s, disk_log (m s).2 = disk_log s.

Lemma quiet_ret {A} (x : A) : quiet (mret x).
Proof. done. Qed.
Lemma quiet_bind {A B} (m : M A) (k : A → M B) : quiet m → (∀ a, quiet (k a)) → quiet (m ≫= k).
Proof. intros Hm Hk s. rewrite run_bind. by rewrite Hk, Hm. Qed.
Lemma quiet_get_actor : quiet get_actor.
Proof. done. Qed.
Lemma quiet_get_file p : quiet (get_file p).
Proof. done. Qed.
Lemma quiet_modify f : quiet (modify f).
Proof. done. Qed.
Lemma quiet_send e : quiet (send_event e).
Proof. done. Qed.
Lemma quiet_draw : quiet draw.
Proof. done. Qed.
Lemma quiet_ask {A} (op : World → A * World) : quiet (ask op).
Proof. intros s. unfold ask. by destruct (op (world s)). Qed.
Lemma quiet_observe {A} (f : World → A) : quiet (observe f).
Proof. done. Qed.
Lemma quiet_mapM_ {A} (f : A → M unit) l : (∀ x, quiet (f x)) → quiet (mapM_ f l).
Proof. intros Hf. induction l; [apply quiet_ret|]. by apply quiet_bind. Qed.
Lemma quiet_map_M {A B} (f : A → M B) l : (∀ x, quiet (f x)) → quiet (map_M f l).
Proof.
  intros Hf. induction l; [apply quiet_ret|]. apply quiet_bind; [done|]. intros y.
  apply quiet_bind; [done|]. intros ys. apply quiet_ret.
Qed.
Lemma quiet_blocking {A} (m : M A) : quiet m → quiet (blocking m).
Proof.
  intros Hm. apply quiet_bind; [apply quiet_ask|]. intros []; [apply quiet_ret|].
  apply quiet_bind; [done|]. intros x. apply quiet_ret.
Qed.
End quiet.

#[export] Hint Resolve quiet_ret quiet_get_actor quiet_get_file quiet_modify quiet_send quiet_draw
  quiet_ask quiet_observe : quiet.
Ltac quiet_step :=
  first [ solve [eauto with quiet nocore]
        | apply quiet_bind; [|intros ?]
        | apply quiet_mapM_; intros ?
        | apply quiet_map_M; intros ?
        | apply quiet_blocking
        | progress case_match
        | progress cbv zeta
        | match goal with |- quiet ?m => let h := head_of m in unfold h end ].
Ltac quiet_tac := repeat quiet_step.

Section handlers.
Context `{!TrackerEnv}.

Lemma quiet_recompute p c src : quiet (recompute_hunks p c src).
Proof. quiet_tac. Qed.
#[local] Hint Resolve quiet_recompute : quiet.
Lemma quiet_read_baseline p : quiet (read_baseline p).
Proof. quiet_tac. Qed.
#[local] Hint Resolve quiet_read_baseline : quiet.
Lemma quiet_process_file_change p b : quiet (process_file_change p b).
Proof. quiet_tac. Qed.
#[local] Hint Resolve quiet_process_file_change : quiet.
Lemma quiet_refresh_git_dirty_cache scope : quiet (refresh_git_dirty_cache scope).
Proof. quiet_tac. Qed.
#[local] Hint Resolve quiet_refresh_git_dirty_cache : quiet.
Lemma quiet_accept_batch l : quiet (apply_action_batch l Accept).
Proof. induction l as [|[p hs] l IH]; cbn [apply_action_batch]; [apply quiet_ret|]. quiet_tac. Qed.
#[local] Hint Resolve quiet_accept_batch : quiet.

Definition rejects (cmd : HunkTrackerCommand) : bool :=
  match cmd with
  | HunkActionCmd _ Reject | FileAction _ Reject | AllAction Reject | TurnAction _ Reject => true
  | _ => false
  end.
Lemma quiet_command cmd : rejects cmd = false → quiet (handle_command cmd).
Proof.
  intros Hr. destruct cmd; cbn [handle_command]; try destruct action; try discriminate Hr; quiet_tac.
Qed.
Lemma quiet_commands cmds :
  Forall (λ c, rejects c = false) cmds → quiet (map_M handle_command cmds).
Proof.
  induction 1 as [|c cmds Hc _ IH]; cbn [map_M]; [apply quiet_ret|].
  apply quiet_bind; [by apply quiet_command|]. intros r. apply quiet_bind; [done|]. intros rs.
  apply quiet_ret.
Qed.
Lemma quiet_batch_files b : quiet (batch_files b).
Proof. quiet_tac. Qed.

(** Reading, tracking, refreshing, accepting and restoring never write to a
    file and never remove one: only the rejecting commands of a queue do. *)
Theorem only_rejecting_touches_disk queue s :
  Forall (λ c, rejects c = false) queue → disk_log (serve queue s).2 = disk_log s.
Proof.
  intros Hq. revert s. change (quiet (serve queue)). destruct queue as [|cmd rest]; [apply quiet_ret|].
  cbn [serve]. destruct (is_coalescable cmd).
  - apply quiet_bind; [|intros rs; apply quiet_ret]. unfold handle_coalesced_batch.
    apply quiet_bind; [apply quiet_batch_files|]. intros u. apply quiet_commands.
    destruct (drained_of cmd rest) as (_ & _ & _ & -> & _).
    apply Forall_forall. intros c [Hc _]%elem_of_list_filter.
    rewrite Forall_forall in Hq. by apply Hq.
  - apply Forall_cons in Hq as [Hc _]. apply quiet_bind; [by apply quiet_command|]. intros r.
    apply quiet_ret.
Qed.
End handlers.

Lemma only_rejecting_touches_disk_witness :
  disk_log (serve [HandleFileChange demo_file; FileAction demo_file Accept] demo_session).2
  = disk_log demo_session.
Proof. apply (only_rejecting_touches_disk _ demo_session). by repeat constructor. Defined.

Section theorems.
Context `{!TrackerEnv} `{!LawfulTrackerEnv}.

(** What the turn index answers: the pending hunks it holds, each once *)
Lemma turn_query_answers L s i :
  tracker_ok L ∅ (actor s) (drawn s) →
  NoDup (get_hunks_for_turn i s).1
  ∧ ∀ h, h ∈ (get_hunks_for_turn i s).1
         ↔ h ∈ all_pending s ∧ hunk_id h ∈ turn_ids (turn_index (actor s)) i.
Proof.
  intros Hok. pose proof (all_pending_NoDup L s Hok) as Hnd.
  unfold get_hunks_for_turn, turn_ids. unfold mbind, M_bind. cbn [get_actor].
  destruct (turn_index (actor s) !! i) as [idset|]; cbn [default from_option id].
  2:{ split; [constructor|]. intros h. cbn. set_solver. }
  cbn [observe]. rewrite (map_M_pure get_hunk
      (λ id, List.find (λ h, bool_decide (hunk_id h = id)) (all_pending s))) by done.
  cbn [mret M_ret fst].
  assert (Horder : NoDup (id_order (world s) idset)).
  { rewrite id_order_perm. apply NoDup_elements. }
  assert (Helem : ∀ id, id ∈ id_order (world s) idset ↔ id ∈ idset).
  { intros id. by rewrite id_order_perm, elem_of_elements. }
  revert Horder Helem. generalize (id_order (world s) idset). intros l Hl Helem. split.
  - clear -Hl Hnd. induction Hl as [|id l Hid Hl IH]; [constructor|].
    cbn [map omap list_omap].
    destruct (List.find _ _) as [h|] eqn:Eh; [|done]. constructor; [|done].
    apply find_by_id in Eh as [Hh <-]; [|done]. intros Hin.
    apply list_elem_of_omap in Hin as (o & Ho & ->).
    apply list_elem_of_fmap in Ho as (id & Eid & Hid').
    symmetry in Eid. apply find_by_id in Eid as [_ <-]; done.
  - intros h. rewrite list_elem_of_omap. split.
    + intros (o & Ho & ->). apply list_elem_of_fmap in Ho as (id & Eid & Hid).
      symmetry in Eid. apply find_by_id in Eid as [Hh <-]; [|done]. by rewrite <- Helem.
    + intros [Hh Hid]. exists (Some h). split; [|done]. apply list_elem_of_fmap.
      exists (hunk_id h). split; [|by apply Helem]. symmetry. by apply find_by_id.
Qed.

(** C7: Turn queries.  In every reachable tracker, whatever files changed and
    whatever was accepted, rejected, batched, refreshed or restored, the hunks that
    the turn index answers for a turn are pending hunks attributed to it, each
    once, and the only ones it can miss are hunks that were lost: those a command
    asked for when its answer reported a failed write or removal.  As long as no
    answer does, it answers exactly the pending hunks of the turn. *)
Theorem turn_query_exact L s i :
  reachable L s →
  ∃ missed, turn_hunks i (get_all_hunks s).1 ≡ₚ missed ++ (get_hunks_for_turn i s).1
    ∧ (∀ h, h ∈ missed → hunk_id h ∈ L) ∧ (L = ∅ → missed = []).
Proof.
  intros Hok%reachable_ok. change (get_all_hunks s).1 with (all_pending s).
  destruct (turn_query_answers L s i Hok) as [Hnd Hin].
  set (answers := (get_hunks_for_turn i s).1) in *.
  set (missed := filter (λ h, h ∉ answers) (turn_hunks i (all_pending s))).
  assert (Hturn : NoDup (turn_hunks i (all_pending s))).
  { eapply sublist_NoDup; [|apply list_filter_sublist].
    by eapply NoDup_ids_NoDup, all_pending_NoDup. }
  assert (Hlost : ∀ h, h ∈ missed → hunk_id h ∈ L).
  { intros h [Hno [Hl Hx%bool_decide_eq_true]%elem_of_list_filter]%list_elem_of_filter.
    destruct (decide (hunk_id h ∈ L)) as [|Hn]; [done|]. destruct Hno. apply Hin. split; [done|].
    apply (index_complete _ _ _ (ok_index _ _ _ _ Hok)); [by apply live_pending|done..]. }
  exists missed. split_and!; [|done|].
  - apply NoDup_Permutation; [done| |].
    + apply NoDup_app. split_and!; [by apply NoDup_filter| |done].
      by intros h [Hno _]%list_elem_of_filter.
    + intros h. unfold missed. rewrite elem_of_app, list_elem_of_filter.
      destruct (decide (h ∈ answers)) as [Ha|Ha]; [|tauto]. split; [by right|]. intros _.
      apply Hin in Ha as [Hp Hx]. apply elem_of_list_filter. split; [done|].
      apply bool_decide_eq_true, (index_sound _ _ _ (ok_index _ _ _ _ Hok)); [|done].
      by apply live_pending.
  - intros ->. destruct missed as [|h l]; [done|]. specialize (Hlost h ltac:(left)). set_solver.
Qed.

Context `{!LawfulDiff}.

(** C20: Accepting.  Accepting the hunks of a turn, of a file or of the session in a
    reachable tracker always succeeds, answers the identifiers of exactly the
    pending hunks in its scope, touches no file on disk and leaves every current
    content as it was, and counts each hunk once.  It gives every LF text file the
    baseline in which exactly the accepted changes are made, up to at most two line
    feeds missing at its end; none is missing unless the old baseline is empty, or
    the new one or what the two texts share is a lone line feed. *)
Theorem accept_makes_changes L sc s :
  reachable L s →
  ∃ l s', handle_command (scope_command sc Accept) s = (ActionsReply (Ok (map hunk_id l)), s')
    ∧ l ≡ₚ pending_in sc s
    ∧ disk_log s' = disk_log s
    ∧ session_stats (actor s') = count_stats Accept l (session_stats (actor s))
    ∧ ∀ p st, file_of (actor s) p st → ∃ st', file_of (actor s') p st'
        ∧ current_content st' = current_content st
        ∧ ∀ b c, lf_file st b c →
            let full := accepted_text (in_scope sc p) st b c in
            ∃ t, baseline st' = Full t ∧ short_of t full ∧ (kept b c b full → t = full).
Proof.
  intros Hok%reachable_ok. destruct (scope_runs sc Accept s) as (fl & Hg & E).
  destruct (accept_batch_total fl s) as (is' & s' & Er). rewrite Er in E.
  pose proof (action_batch_ids _ _ _ _ _ Er) as ->. exists (concat (map snd fl)), s'.
  destruct (action_batch_done L Accept fl s _ s' Hok (groups_acts _ _ _ Hg) (groups_nil _ _ _ Hg) Er)
    as [Hdisk Hstats Hfiles Hothers].
  split_and!; [exact E|by apply groups_pending| |done|].
  { rewrite Hdisk, concat_disk_accept. apply app_nil_r. }
  intros p st Hst. destruct (files_or_not sc s fl p st Hg Hst) as [[Hne Hin]|[He Hin]].
  - destruct (Hfiles p _ st Hin Hst) as (r & Hr & _). eexists. split; [exact Hr|]. split; [done|].
    intros b c Hlf. apply (accepted_file sc p st b c); [done| |done].
    by apply (ok_fits _ _ _ _ Hok p).
  - exists st. unfold file_of. rewrite Hothers by done. split_and!; [done..|].
    intros b c Hlf. cbv zeta. rewrite accepted_none by done. exists b.
    split_and!; [apply Hlf|apply short_of_refl|done].
Qed.


(** Settling.  When all the hunks of a file are accepted or rejected in one
    action that succeeds, the file has no pending hunk left and its baseline and
    content agree. *)
Theorem acting_on_all_settles L sc act s ids s' p st :
  reachable L s → handle_command (scope_command sc act) s = (ActionsReply (Ok ids), s') →
  file_of (actor s) p st → hunks st ≠ [] → (∀ h, h ∈ hunks st → in_scope sc p h = true) →
  settleable st →
  ∃ st', file_of (actor s') p st' ∧ hunks st' = []
    ∧ level (baseline st') (current_content st').
Proof.
  intros Hok%reachable_ok E' Hst Hhs Hall Hset. destruct (scope_runs sc act s) as (fl & Hg & E).
  rewrite E in E'. destruct (apply_action_batch fl act s) as [r s1] eqn:Er.
  injection E' as -> ->.
  destruct (action_batch_done L act fl s _ s' Hok (groups_acts _ _ _ Hg) (groups_nil _ _ _ Hg) Er)
    as [_ _ Hfiles _].
  assert (Hsc : scoped sc (p, st) = hunks st) by (by apply filter_all_in).
  destruct (files_or_not sc s fl p st Hg Hst) as [[Hne Hin]|[He _]]; [|by rewrite Hsc in He].
  destruct (Hfiles p _ st Hin Hst) as (r & Hr & Hlev).
  pose proof (all_level sc act p st Hhs Hall Hset (ok_fits _ _ _ _ Hok p st Hst ltac:(set_solver)))
    as Hl.
  eexists. split; [exact Hr|]. split; [by apply Hlev|done].
Qed.

(** Coalescing.  For every path, what a batch does follows from the last notice
    the queue holds for it, with a change after a deletion told apart; refreshes
    are asked for if any was queued, and every other command is kept, in order. *)
Theorem coalescing_exact cmd rest : batch_of (cmd :: rest) (drain_and_coalesce cmd rest).
Proof. apply drained_of. Qed.

(** C38: Well-formedness.  In every reachable tracker, after failed writes and
    removals as well, the identifiers of pending hunks were drawn and are distinct,
    and no hunk is indexed under a turn that is not its own; every pending hunk of
    a turn is indexed under it, but for the hunks that were lost, those a command
    asked for when its answer reported a failed write or removal; and the pending
    hunks of a file are those of a diff of its two contents. *)
Theorem tracker_well_formed L s : reachable L s → tracker_ok L ∅ (actor s) (drawn s).
Proof. apply reachable_ok. Qed.
End theorems.

(** ** The theorems in the demonstration environment *)

Lemma turn_query_exact_witness :
  reachable ∅ demo_session
  ∧ (∃ missed, turn_hunks 1 (get_all_hunks demo_session).1
                 ≡ₚ missed ++ (get_hunks_for_turn 1 demo_session).1 ∧ missed = [])
  ∧ length (get_hunks_for_turn 1 demo_session).1 = 2%nat.
Proof.
  split; [exact demo_session_reachable|]. split; [|vm_compute; reflexivity].
  destruct (turn_query_exact ∅ demo_session 1 demo_session_reachable) as (missed & Hp & _ & Hn).
  exists missed. split; [exact Hp|by apply Hn].
Defined.

Definition demo_state : FileHunkState :=
  default {| baseline := Missing; current_content := Missing; hunks := []; is_agent_file := false;
             baseline_accepted := false |} (file_states (actor demo_session) !! demo_file).
Lemma demo_state_at : file_of (actor demo_session) demo_file demo_state.
Proof.
  unfold file_of, demo_state.
  destruct (file_states (actor demo_session) !! demo_file) as [st|] eqn:E; [done|].
  apply (f_equal (λ o, match o with Some _ => true | None => false end)) in E. revert E.
  vm_compute. discriminate.
Qed.

Definition lf_textb (s : str) : bool :=
  forallb (λ c, negb (c =? CR)%Z) s && (is_empty s || ends_with s [NL]).
Lemma lf_textb_spec s : lf_textb s = true → lf_text s.
Proof.
  intros [Hc He]%andb_prop. split.
  - intros Hin%list_elem_of_In. rewrite forallb_forall in Hc. apply Hc in Hin. discriminate Hin.
  - destruct s as [|x s]; [by left|right]. cbn [is_empty orb] in He. unfold ends_with in He.
    apply starts_with_spec in He as [r Hr]. exists (rev r).
    by rewrite <- (rev_involutive (x :: s)), Hr, rev_app_distr.
Qed.
Lemma demo_lf : lf_file demo_state old_demo new_demo.
Proof.
  split; [vm_compute; reflexivity|vm_compute; reflexivity|apply lf_textb_spec; vm_compute; reflexivity|
    apply lf_textb_spec; vm_compute; reflexivity].
Qed.

(** The identifiers an action answers *)
Definition action_ids (r : Reply) : option (list HunkId) :=
  match r with ActionsReply (Ok ids) => Some ids | _ => None end.
Lemma action_ids_ok r l : action_ids r = Some l → r = ActionsReply (Ok l).
Proof. destruct r as [| |[ids|]| | | | | | | | | |]; cbn; congruence. Qed.
Lemma answers cmd s l :
  action_ids (handle_command cmd s).1 = Some l →
  handle_command cmd s = (ActionsReply (Ok l), (handle_command cmd s).2).
Proof. intros H%action_ids_ok. by destruct (handle_command cmd s) as [r s']; cbn in H; subst. Qed.

(** Accepting turn 1 makes its change and not the user's. *)
Lemma accept_makes_changes_witness :
  reachable ∅ demo_session
  ∧ ∃ s' st', handle_command (TurnAction 1 Accept) demo_session
               = (ActionsReply (Ok [[0%Z]; [3%Z]]), s')
    ∧ disk_log s' = disk_log demo_session
    ∧ file_of (actor s') demo_file st'
    ∧ baseline st' = Full (text [lit "one"; lit "2"; lit "three"; lit "four"]).
Proof.
  split; [exact demo_session_reachable|].
  destruct (accept_makes_changes ∅ (OfTurn 1) demo_session demo_session_reachable)
    as (l & s' & E & _ & Hd & _ & Hf).
  destruct (Hf _ _ demo_state_at) as (st' & Hst' & _ & Hb). exists s', st'.
  assert (El : Some (map hunk_id l) = Some [[0%Z]; [3%Z]]).
  { change (Some (map hunk_id l)) with (action_ids (ActionsReply (Ok (map hunk_id l)), s').1).
    rewrite <- E. vm_compute. reflexivity. }
  injection El as El. rewrite El in E.
  split_and!; [exact E|exact Hd|exact Hst'|].
  destruct (Hb old_demo new_demo demo_lf) as (t & -> & _ & ->); [vm_compute; reflexivity|].
  split_and!; vm_compute; discriminate.
Defined.


Definition after_accept : Sys := (handle_command (FileAction demo_file Accept) demo_session).2.
Lemma acting_on_all_settles_witness :
  reachable ∅ demo_session
  ∧ ∃ st', file_of (actor after_accept) demo_file st' ∧ hunks st' = []
    ∧ level (baseline st') (current_content st').
Proof.
  split; [exact demo_session_reachable|].
  apply (acting_on_all_settles ∅ (OfFile demo_file) Accept demo_session [[0%Z]; [2%Z]] after_accept
           demo_file demo_state).
  - exact demo_session_reachable.
  - apply answers. vm_compute. reflexivity.
  - exact demo_state_at.
  - vm_compute. discriminate.
  - intros h _. apply bool_decide_eq_true. reflexivity.
  - assert (Eb : baseline demo_state = Full old_demo) by (vm_compute; reflexivity).
    assert (Ec : current_content demo_state = Full new_demo) by (vm_compute; reflexivity).
    unfold settleable. rewrite Eb, Ec. split; [exact demo_lf|].
    split; (split; [|split]); vm_compute; discriminate.
Defined.

Lemma tracker_well_formed_witness :
  reachable ∅ demo_session ∧ tracker_ok ∅ ∅ (actor demo_session) (drawn demo_session).
Proof.
  split; [exact demo_session_reachable|].
  apply (tracker_well_formed ∅ demo_session), demo_session_reachable.
Defined.

(** ** Where code and comments part *)

Definition disk_with (head_text : str) : DemoWorld :=
  {| disk := {[demo_file := head_text]}; head := {[ [lit "a.txt"] := head_text ]} |}.
Definition tracker_on (head_text : str) : Sys :=
  {| actor := HunkTrackerActor_new demo_root AgentOnly; world := disk_with head_text; drawn := 0;
     sent := []; disk_log := [] |}.
Definition write_in (i : Z) (c : str) : HunkTrackerCommand := RecordAgentWrite demo_file c i None.
Definition baseline_of (s : Sys) (p : path) : option str :=
  file_states (actor s) !! p ≫= λ st, as_str (baseline st).
Definition sources_of (s : Sys) (p : path) : list HunkSource :=
  match file_states (actor s) !! p with Some st => map source (hunks st) | None => [] end.
Definition pending_count (s : Sys) : nat := length (get_all_hunks s).1.

(** An empty file that gains a line: accepting gives the baseline the line without
    its line feed, so the hunk comes back, and accepting it again changes nothing. *)
Definition grown : Sys := served (tracker_on []) (write_in 1 (text [lit "new"])).
Definition grown_accepted : Sys := served grown (FileAction demo_file Accept).
Example accept_into_empty_never_settles :
  baseline_of grown_accepted demo_file = Some (lit "new")
  ∧ pending_count grown_accepted = 1%nat
  ∧ baseline_of (served grown_accepted (FileAction demo_file Accept)) demo_file = Some (lit "new")
  ∧ pending_count (served grown_accepted (FileAction demo_file Accept)) = 1%nat.
Proof. vm_compute. split_and!; reflexivity. Qed.

(** So does a file whose last line gets its line feed. *)
Definition unterminated : Sys := served (tracker_on (lit "one")) (write_in 1 (text [lit "one"])).
Example accept_of_final_newline_never_settles :
  let s := served unterminated (FileAction demo_file Accept) in
  baseline_of s demo_file = Some (lit "one") ∧ pending_count s = 1%nat.
Proof. vm_compute. split_and!; reflexivity. Qed.

(** A user's edit becomes the agent's: the hunks left after an accepted one are
    attributed to the source of the first of them.  Rejecting the turn then undoes
    the user's edit on disk. *)
Definition six : str := text (map lit ["a"; "b"; "c"; "d"; "e"; "f"]%string).
Definition six_agent : str := text (map lit ["A"; "b"; "C"; "d"; "e"; "f"]%string).
Definition six_both : str := text (map lit ["A"; "b"; "C"; "d"; "E"; "f"]%string).
Definition mixed : Sys :=
  served (with_world (with_disk {[demo_file := six_both]} (disk_with six))
            (served (tracker_on six) (write_in 1 six_agent)))
    (HandleFileChange demo_file).
Definition second_hunk (s : Sys) : HunkId :=
  match (get_all_hunks s).1 with _ :: h :: _ => hunk_id h | _ => [] end.
Definition mixed_accepted : Sys := served mixed (HunkActionCmd (second_hunk mixed) Accept).
Example accept_takes_over_user_edit :
  sources_of mixed demo_file = [AgentEdit 1; AgentEdit 1; ExternalEditOnAgentFile]
  ∧ sources_of mixed_accepted demo_file = [AgentEdit 1; AgentEdit 1]
  ∧ disk (world (served mixed_accepted (TurnAction 1 Reject))) !! demo_file
    = Some (text (map lit ["a"; "b"; "C"; "d"; "e"; "f"]%string)).
Proof. vm_compute. split_and!; reflexivity. Qed.

(** A rejection that cannot write: the hunk stays pending, but it is counted as
    rejected and its turn no longer finds it. *)
Definition locked_world : DemoWorld :=
  {| disk := {[locked := six]}; head := {[ [lit "locked"] := six ]} |}.
Definition locked_tracker : Sys :=
  served {| actor := HunkTrackerActor_new demo_root AgentOnly; world := locked_world; drawn := 0;
            sent := []; disk_log := [] |}
    (RecordAgentWrite locked (text (map lit ["A"; "b"; "c"; "d"; "e"; "f"]%string)) 1 None).
Definition locked_rejected : Sys := served locked_tracker (TurnAction 1 Reject).
Lemma locked_rejected_reachable :
  ∃ L, reachable L locked_rejected
       ∧ L = asked_ids (TurnAction 1 Reject) (actor locked_tracker) ∪ ∅.
Proof.
  eexists. split; [apply served_reachable; [|done]|].
  - apply served_reachable_none; [apply reach_new|done|vm_compute; reflexivity].
  - cbn [lost_in is_coalescable]. unfold lost_by.
    assert (E : reply_failed (handle_command (TurnAction 1 Reject) locked_tracker).1 = true)
      by (vm_compute; reflexivity).
    by rewrite E.
Qed.
Example failed_reject_loses_the_turn :
  pending_count locked_rejected = 1%nat
  ∧ sources_of locked_rejected locked = [AgentEdit 1]
  ∧ length (get_hunks_for_turn 1 locked_tracker).1 = 1%nat
  ∧ length (get_hunks_for_turn 1 locked_rejected).1 = 0%nat
  ∧ rejected_hunks (session_stats (actor locked_rejected)) = 1%Z.
Proof. vm_compute. split_and!; reflexivity. Qed.

(** Text that becomes binary: the hunks go without an event, and the turn keeps
    their identifiers. *)
Definition turned_binary : Sys :=
  served (served (tracker_on six) (write_in 1 six_agent)) (write_in 1 [0%Z]).
Definition removals (s : Sys) : nat :=
  length (List.filter (λ e, match e with HunkRemoved _ _ _ => true | _ => false end) (sent s)).
Definition additions (s : Sys) : nat :=
  length (List.filter (λ e, match e with HunkAdded _ _ => true | _ => false end) (sent s)).
Example binary_write_drops_hunks_silently :
  pending_count turned_binary = 0%nat
  ∧ additions turned_binary = 2%nat ∧ removals turned_binary = 0%nat
  ∧ size (default ∅ (turn_index (actor turned_binary) !! 1%Z)) = 2%nat.
Proof. vm_compute. split_and!; reflexivity. Qed.

(** A second insertion of the same line: a second hunk is pending, and no event
    announces it. *)
Definition once : Sys :=
  served (tracker_on six) (write_in 1 (text (map lit ["a"; "x"; "b"; "c"; "d"; "e"; "f"]%string))).
Definition twice : Sys :=
  served once (write_in 1 (text (map lit ["a"; "x"; "b"; "c"; "x"; "d"; "e"; "f"]%string))).
Example identical_hunk_is_not_announced :
  pending_count once = 1%nat ∧ additions once = 1%nat
  ∧ pending_count twice = 2%nat ∧ additions twice = 1%nat.
Proof. vm_compute. split_and!; reflexivity. Qed.
