(* ===== verification/HashlineScheme.v ===== *)
(** * Hashline anchors

    [xai-grok-tools]: [util/hash.rs] and, of [grok_build_hashline],
    [scheme.rs], [anchor.rs] and [config.rs].  An anchor names a line by its
    number and by hashes of its content and surroundings.

    Line numbers and the parameters of a scheme are [usize] values in [Z],
    hashes [u32] values in [Z].  [None] is a panic: a failed [assert!], an
    index or a slice out of range, a division by zero.  The trait
    [AnchorScheme] is a class; the three schemes are its instances, and the
    box that [build_scheme] returns a fourth. *)
From S2P Require Import Prelude RustStr StrSearch.

(** ** Hashing *)

Definition wrap32 (z : Z) : Z := (z mod (U32_MAX + 1))%Z.

Definition FNV_OFFSET : Z := 2166136261.
Definition FNV_PRIME : Z := 16777619.

(** [h ^= x; h = h.wrapping_mul(FNV_PRIME)] *)
Definition mix (h x : Z) : Z := wrap32 (Z.lxor h x * FNV_PRIME).

Definition fnv1a_32 (data : bytes) : Z := foldl mix FNV_OFFSET data.

(** [u8::is_ascii_whitespace] *)
Definition is_ascii_whitespace (b : Z) : bool :=
  ((b =? 32) || (b =? 9) || (b =? 10) || (b =? 12) || (b =? 13))%Z.

Fixpoint line_hash_loop (data : bytes) (h : Z) (prev_ws : bool) : Z :=
  match data with
  | [] => h
  | byte :: data' =>
      if is_ascii_whitespace byte then
        if prev_ws then line_hash_loop data' h prev_ws
        else line_hash_loop data' (mix h 32) true
      else line_hash_loop data' (mix h byte) false
  end.
Definition line_hash (line : str) : Z := line_hash_loop (as_bytes (trim line)) FNV_OFFSET false.

(** The letter that byte region [i] of the hash gives. *)
Definition hash_letter (hash i : Z) : char := (Z.shiftr hash (i * 8) mod 26 + 97)%Z.
Definition hash_letters (hash len : Z) : str := map (hash_letter hash) (seqZ 0 len).
Definition encode_hash (hash len : Z) : option str :=
  if ((0 <? len) && (len <=? 4))%Z then Some (hash_letters hash len) else None.

Definition DEFAULT_HASH_LEN : Z := 3.

(** ** Vectors *)

(** [v.len()], [v[i]], [&v[a..b]] and [v.iter().enumerate()] *)
Definition len {A} (l : list A) : Z := Z.of_nat (length l).
Definition index {A} (l : list A) (i : Z) : option A :=
  if (i <? 0)%Z then None else l !! Z.to_nat i.
Definition slice {A} (l : list A) (a b : Z) : option (list A) :=
  if ((0 <=? a) && (a <=? b) && (b <=? len l))%Z
  then Some (take (Z.to_nat (b - a)) (drop (Z.to_nat a) l)) else None.
Definition enumerate {A} (l : list A) : list (Z * A) := zip (seqZ 0 (len l)) l.

(** [a / b], which panics on zero *)
Definition checked_quot (a b : Z) : option Z := if (b =? 0)%Z then None else Some (a / b)%Z.

(** ** Anchors *)

Definition COLON : char := 58.

Record Anchor : Type := mkAnchor { line : Z; local : str; context : option str }.
Record ParsedAnchor : Type := mkParsed { pa_line : Z; pa_local : str; pa_context : option str }.

Definition render (a : Anchor) : str :=
  match context a with
  | Some ctx => fmt_Z (line a) ++ [COLON] ++ local a ++ [COLON] ++ ctx
  | None => fmt_Z (line a) ++ [COLON] ++ local a
  end.
Definition parsed_render (a : ParsedAnchor) : str :=
  match pa_context a with
  | Some ctx => fmt_Z (pa_line a) ++ [COLON] ++ pa_local a ++ [COLON] ++ ctx
  | None => fmt_Z (pa_line a) ++ [COLON] ++ pa_local a
  end.

(** [s.bytes().all(|b| b.is_ascii_lowercase())] *)
Definition all_lowercase (s : str) : bool := forallb (in_range 97 122) (as_bytes s).

(** [splitn(3, ':')] as two splits at the first colon. *)
Definition parse (s : str) : option ParsedAnchor :=
  '(line_str, rest) ← split_once COLON s;
  let '(loc, ctx) :=
    match split_once COLON rest with
    | Some (l, c) => (l, Some c)
    | None => (rest, None)
    end in
  if is_empty line_str || is_empty loc then None
  else
    line ← parse_unsigned U64_MAX line_str;
    if (line =? 0)%Z then None
    else if negb (all_lowercase loc) then None
    else match ctx with
         | Some c => if is_empty c || negb (all_lowercase c) then None
                     else Some (mkParsed line loc ctx)
         | None => Some (mkParsed line loc ctx)
         end.

Inductive ValidationResult : Type := Valid | Stale | OutOfRange.
#[global] Instance validation_result_eq_dec : EqDecision ValidationResult.
Proof. solve_decision. Defined.

Inductive ShiftResult : Type :=
| Found (new_line : Z)
| Ambiguous (candidates : list Z)
| NotFound.

Definition DEFAULT_SEARCH_RADIUS : Z := 15.

(** ** The trait *)

Class AnchorScheme (A : Type) : Type := {
  name : A → str;
  hash_len : A → Z;
  generate_anchors : A → list str → option (list Anchor);
  validate : A → ParsedAnchor → list str → option ValidationResult;
  validation_window_lines : A → Z → Z → option Z;
  find_shifted : A → ParsedAnchor → list str → Z → option ShiftResult;
}.

(** The loop of [find_shifted_generic]: the candidates in increasing order.
    [check] is [scheme.validate]. *)
Fixpoint shift_candidates (check : ParsedAnchor → list str → option ValidationResult)
    (hlen orig_idx : Z) (anchor : ParsedAnchor) (lines : list str) (idxs : list Z)
  : option (list Z) :=
  match idxs with
  | [] => Some []
  | idx :: idxs' =>
      let continue := shift_candidates check hlen orig_idx anchor lines idxs' in
      if (idx =? orig_idx)%Z then continue
      else
        l ← index lines idx;
        loc ← encode_hash (line_hash l) hlen;
        if negb (str_eqb loc (pa_local anchor)) then continue
        else
          r ← (match pa_context anchor with
               | Some _ => check (mkParsed (idx + 1) loc (pa_context anchor)) lines
               | None => Some Valid
               end);
          if bool_decide (r = Valid) then cands ← continue; Some ((idx + 1)%Z :: cands)
          else continue
  end.

Definition find_shifted_generic (hlen : Z)
    (check : ParsedAnchor → list str → option ValidationResult)
    (anchor : ParsedAnchor) (lines : list str) (search_radius : Z) : option ShiftResult :=
  let orig_idx := saturating_sub (pa_line anchor) 1 in
  let start := saturating_sub orig_idx search_radius in
  let end_ := Z.min (wrap64 (orig_idx + search_radius + 1)) (len lines) in
  candidates ← shift_candidates check hlen orig_idx anchor lines (seqZ start (end_ - start));
  Some (match candidates with
        | [] => NotFound
        | [c] => Found c
        | _ => Ambiguous candidates
        end).

(** [anchor.line.checked_sub(1).unwrap_or(usize::MAX)] *)
Definition anchor_idx (anchor : ParsedAnchor) : Z :=
  if (pa_line anchor =? 0)%Z then U64_MAX else (pa_line anchor - 1)%Z.

(** ** Candidate A: the content of the line *)

Record ContentOnly : Type := mkContentOnly { co_hash_len : Z }.

Definition content_only_with_hash_len (hlen : Z) : option ContentOnly :=
  if ((0 <? hlen) && (hlen <=? 4))%Z then Some (mkContentOnly hlen) else None.
Definition content_only_new : ContentOnly := mkContentOnly DEFAULT_HASH_LEN.

Definition content_only_anchors (s : ContentOnly) (lines : list str) : option (list Anchor) :=
  mapM (λ '(i, l),
          loc ← encode_hash (line_hash l) (co_hash_len s);
          Some (mkAnchor (i + 1) loc None)) (enumerate lines).

Definition content_only_validate (s : ContentOnly) (anchor : ParsedAnchor) (lines : list str)
  : option ValidationResult :=
  let idx := anchor_idx anchor in
  if (len lines <=? idx)%Z then Some OutOfRange
  else
    l ← index lines idx;
    expected_local ← encode_hash (line_hash l) (co_hash_len s);
    Some (if str_eqb (pa_local anchor) expected_local then Valid else Stale).

#[global] Instance content_only_scheme : AnchorScheme ContentOnly := {
  name _ := lit "content_only_v1";
  hash_len := co_hash_len;
  generate_anchors := content_only_anchors;
  validate := content_only_validate;
  validation_window_lines _ _ _ := Some 1%Z;
  find_shifted s := find_shifted_generic (co_hash_len s) (content_only_validate s);
}.

(** ** Candidate B: the line and the chunk that holds it *)

Definition DEFAULT_CHUNK_SIZE : Z := 16.

Record ChunkFingerprint : Type := mkChunk { ch_hash_len : Z; chunk_size : Z }.

Definition chunk_with_params (hlen csize : Z) : option ChunkFingerprint :=
  if ((0 <? hlen) && (hlen <=? 4))%Z then
    if (0 <? csize)%Z then Some (mkChunk hlen csize) else None
  else None.
Definition chunk_new : ChunkFingerprint := mkChunk DEFAULT_HASH_LEN DEFAULT_CHUNK_SIZE.

(** The hash of the lines of a chunk, from a seed. *)
Definition combine_lines (seed : Z) (lines : list str) : Z :=
  foldl (λ combined l, mix combined (line_hash l)) seed lines.
Definition CHUNK_SEED : Z := fnv1a_32 (lit "chunk").

Definition chunk_fingerprint (s : ChunkFingerprint) (lines : list str) (line_idx : Z)
  : option str :=
  q ← checked_quot line_idx (chunk_size s);
  let chunk_start := (q * chunk_size s)%Z in
  let chunk_end := Z.min (wrap64 (chunk_start + chunk_size s)) (len lines) in
  chunk ← slice lines chunk_start chunk_end;
  encode_hash (combine_lines CHUNK_SEED chunk) (ch_hash_len s).

(** [a.div_ceil(b)] *)
Definition div_ceil (a b : Z) : option Z :=
  q ← checked_quot a b;
  Some (if (a mod b =? 0)%Z then q else (q + 1)%Z).

(** The pre-computed [chunk_fps]. *)
Definition chunk_fps (s : ChunkFingerprint) (lines : list str) : option (list str) :=
  num_chunks ← div_ceil (len lines) (chunk_size s);
  mapM (λ chunk_idx,
          let start := (chunk_idx * chunk_size s)%Z in
          let end_ := Z.min (wrap64 (start + chunk_size s)) (len lines) in
          chunk ← slice lines start end_;
          encode_hash (combine_lines CHUNK_SEED chunk) (ch_hash_len s)) (seqZ 0 num_chunks).

Definition chunk_anchors (s : ChunkFingerprint) (lines : list str) : option (list Anchor) :=
  fps ← chunk_fps s lines;
  mapM (λ '(i, l),
          chunk_idx ← checked_quot i (chunk_size s);
          loc ← encode_hash (line_hash l) (ch_hash_len s);
          fp ← index fps chunk_idx;
          Some (mkAnchor (i + 1) loc (Some fp))) (enumerate lines).

Definition chunk_validate (s : ChunkFingerprint) (anchor : ParsedAnchor) (lines : list str)
  : option ValidationResult :=
  let idx := anchor_idx anchor in
  if (len lines <=? idx)%Z then Some OutOfRange
  else
    l ← index lines idx;
    expected_local ← encode_hash (line_hash l) (ch_hash_len s);
    if negb (str_eqb (pa_local anchor) expected_local) then Some Stale
    else match pa_context anchor with
         | None => Some Stale
         | Some expected_ctx =>
             actual_ctx ← chunk_fingerprint s lines idx;
             Some (if negb (str_eqb expected_ctx actual_ctx) then Stale else Valid)
         end.

#[global] Instance chunk_scheme : AnchorScheme ChunkFingerprint := {
  name _ := lit "chunk_v1";
  hash_len := ch_hash_len;
  generate_anchors := chunk_anchors;
  validate := chunk_validate;
  validation_window_lines s _ total := Some (Z.min (chunk_size s) total);
  find_shifted s := find_shifted_generic (ch_hash_len s) (chunk_validate s);
}.

(** ** Candidate C: the line and the lines since the last checkpoint *)

Definition DEFAULT_CHECKPOINT_INTERVAL : Z := 32.

Record CheckpointChain : Type := mkChain { ck_hash_len : Z; checkpoint_interval : Z }.

Definition checkpoint_with_params (hlen interval : Z) : option CheckpointChain :=
  if ((0 <? hlen) && (hlen <=? 4))%Z then
    if (0 <? interval)%Z then Some (mkChain hlen interval) else None
  else None.
Definition checkpoint_new : CheckpointChain :=
  mkChain DEFAULT_HASH_LEN DEFAULT_CHECKPOINT_INTERVAL.

Definition CKPT_SEED : Z := fnv1a_32 (lit "ckpt").

(** [&lines[a..=b]] is [&lines[a..b + 1]]. *)
Definition checkpoint_fingerprint (s : CheckpointChain) (lines : list str) (line_idx : Z)
  : option str :=
  q ← checked_quot line_idx (checkpoint_interval s);
  let checkpoint_start := (q * checkpoint_interval s)%Z in
  part ← slice lines checkpoint_start (line_idx + 1);
  encode_hash (combine_lines CKPT_SEED part) (ck_hash_len s).

(** The loop of [generate_anchors], with the chain hash it carries. *)
Fixpoint checkpoint_loop (s : CheckpointChain) (i chain : Z) (lines : list str)
  : option (list Anchor) :=
  match lines with
  | [] => Some []
  | l :: lines' =>
      _ ← checked_quot i (checkpoint_interval s);
      let chain := if (i mod checkpoint_interval s =? 0)%Z then CKPT_SEED else chain in
      let lh := line_hash l in
      let chain := mix chain lh in
      loc ← encode_hash lh (ck_hash_len s);
      ctx ← encode_hash chain (ck_hash_len s);
      rest ← checkpoint_loop s (i + 1) chain lines';
      Some (mkAnchor (i + 1) loc (Some ctx) :: rest)
  end.
Definition checkpoint_anchors (s : CheckpointChain) (lines : list str) : option (list Anchor) :=
  checkpoint_loop s 0 CKPT_SEED lines.

Definition checkpoint_validate (s : CheckpointChain) (anchor : ParsedAnchor) (lines : list str)
  : option ValidationResult :=
  let idx := anchor_idx anchor in
  if (len lines <=? idx)%Z then Some OutOfRange
  else
    l ← index lines idx;
    expected_local ← encode_hash (line_hash l) (ck_hash_len s);
    if negb (str_eqb (pa_local anchor) expected_local) then Some Stale
    else match pa_context anchor with
         | None => Some Stale
         | Some expected_ctx =>
             actual_ctx ← checkpoint_fingerprint s lines idx;
             Some (if negb (str_eqb expected_ctx actual_ctx) then Stale else Valid)
         end.

#[global] Instance checkpoint_scheme : AnchorScheme CheckpointChain := {
  name _ := lit "checkpoint_v1";
  hash_len := ck_hash_len;
  generate_anchors := checkpoint_anchors;
  validate := checkpoint_validate;
  validation_window_lines s line_idx _ :=
    q ← checked_quot line_idx (checkpoint_interval s);
    Some (line_idx - q * checkpoint_interval s + 1)%Z;
  find_shifted s := find_shifted_generic (ck_hash_len s) (checkpoint_validate s);
}.

(** ** [anchor.rs] *)

Definition split_lines (content : str) : list str :=
  if is_empty content then [[]]
  else if ends_with content [NL] then lines content ++ [[]] else lines content.

Section Content.
Context {A : Type} `{AnchorScheme A} (scheme : A).

Definition generate_for_content (content : str) : option (list Anchor) :=
  generate_anchors scheme (split_lines content).
Definition validate_against_content (anchor : ParsedAnchor) (content : str)
  : option ValidationResult :=
  validate scheme anchor (split_lines content).
Definition find_shifted_in_content (anchor : ParsedAnchor) (content : str) (radius : Z)
  : option ShiftResult :=
  find_shifted scheme anchor (split_lines content) radius.
End Content.

(** ** [config.rs] *)

Record HashlineSchemeParams : Type := mkParams {
  scheme : str;
  params_hash_len : Z;
  params_chunk_size : Z;
}.

Definition default_scheme_name : str := lit "chunk".
Definition default_hash_len : Z := 3.
Definition default_chunk_size : Z := 8.
Definition default_params : HashlineSchemeParams :=
  mkParams default_scheme_name default_hash_len default_chunk_size.

Definition validate_params (p : HashlineSchemeParams) : result unit str :=
  if negb (str_eqb (scheme p) (lit "chunk") || str_eqb (scheme p) (lit "content_only")) then
    Err (lit "unknown scheme " ++ quoted (scheme p) ++ lit ": expected "
         ++ quoted (lit "chunk") ++ lit " or " ++ quoted (lit "content_only"))
  else if ((params_hash_len p =? 0) || (4 <? params_hash_len p))%Z then
    Err (lit "hash_len must be 1..=4, got " ++ fmt_Z (params_hash_len p))
  else if str_eqb (scheme p) (lit "chunk") && (params_chunk_size p =? 0)%Z then
    Err (lit "chunk_size must be > 0")
  else Ok tt.

Record ParamValidationError : Type := mkParamError {
  pv_message : str; pv_category : str; field_path : option str; expected : option str }.

Definition validate_params_value (p : HashlineSchemeParams) : result unit ParamValidationError :=
  match validate_params p with
  | Ok _ => Ok tt
  | Err message =>
      Err (if contains message (lit "unknown scheme") then
             mkParamError message (lit "params_constraint") (Some (lit "scheme"))
               (Some (quoted (lit "chunk") ++ lit " or " ++ quoted (lit "content_only")))
           else if contains message (lit "hash_len") then
             mkParamError message (lit "params_constraint") (Some (lit "hash_len"))
               (Some (lit "1..=4"))
           else if contains message (lit "chunk_size") then
             mkParamError message (lit "params_constraint") (Some (lit "chunk_size"))
               (Some (lit "> 0 when scheme is " ++ quoted (lit "chunk")))
           else mkParamError message (lit "params_constraint") None None)
  end.

Record ExampleAnchors : Type := mkExamples {
  ex_anchor : str; read_line1 : str; read_line2 : str; grep_match : str; grep_context : str }.

(** [&"abcd"[..len]] and [&"rstu"[..len]], of the same length. *)
Definition example_anchors (p : HashlineSchemeParams) : ExampleAnchors :=
  let n := Z.to_nat (Z.max 1 (Z.min (params_hash_len p) 4)) in
  let hash := take n (lit "abcd") in
  let ctx := take n (lit "rstu") in
  if str_eqb (scheme p) (lit "content_only") then
    mkExamples
      (lit "22:" ++ hash)
      (lit "   1:" ++ hash ++ lit "→fn main() {")
      (lit "   2:" ++ hash ++ lit "→    let x = 1;")
      (lit "2:" ++ hash ++ lit ":    let x = 1;")
      (lit "3:" ++ hash ++ lit "-    let y = 2;")
  else
    mkExamples
      (lit "22:" ++ hash ++ [COLON] ++ ctx)
      (lit "   1:" ++ hash ++ [COLON] ++ ctx ++ lit "→fn main() {")
      (lit "   2:" ++ hash ++ [COLON] ++ ctx ++ lit "→    let x = 1;")
      (lit "2:" ++ hash ++ [COLON] ++ ctx ++ lit ":    let x = 1;")
      (lit "3:" ++ hash ++ [COLON] ++ ctx ++ lit "-    let y = 2;").

Definition render_description (p : HashlineSchemeParams) (template : str) : str :=
  let ex := example_anchors p in
  replace (lit "{grep_context}") (grep_context ex)
    (replace (lit "{grep_match}") (grep_match ex)
      (replace (lit "{example_line2}") (read_line2 ex)
        (replace (lit "{example_line1}") (read_line1 ex)
          (replace (lit "{example_anchor}") (ex_anchor ex) template)))).

(** [Box<dyn AnchorScheme>] *)
Inductive BoxedScheme : Type :=
| BoxContentOnly (s : ContentOnly)
| BoxChunk (s : ChunkFingerprint)
| BoxCheckpoint (s : CheckpointChain).

#[global] Instance boxed_scheme : AnchorScheme BoxedScheme := {
  name b := match b with
            | BoxContentOnly s => name s | BoxChunk s => name s | BoxCheckpoint s => name s end;
  hash_len b := match b with
    | BoxContentOnly s => hash_len s | BoxChunk s => hash_len s | BoxCheckpoint s => hash_len s
    end;
  generate_anchors b := match b with
    | BoxContentOnly s => generate_anchors s | BoxChunk s => generate_anchors s
    | BoxCheckpoint s => generate_anchors s end;
  validate b := match b with
    | BoxContentOnly s => validate s | BoxChunk s => validate s | BoxCheckpoint s => validate s
    end;
  validation_window_lines b := match b with
    | BoxContentOnly s => validation_window_lines s
    | BoxChunk s => validation_window_lines s
    | BoxCheckpoint s => validation_window_lines s end;
  find_shifted b := match b with
    | BoxContentOnly s => find_shifted s | BoxChunk s => find_shifted s
    | BoxCheckpoint s => find_shifted s end;
}.

(** The [expect] of [with_params] is the outer [option]. *)
Definition build_scheme (p : HashlineSchemeParams) : option (result BoxedScheme str) :=
  match validate_params p with
  | Err e => Some (Err e)
  | Ok _ =>
      if str_eqb (scheme p) (lit "content_only") then
        s ← content_only_with_hash_len (params_hash_len p); Some (Ok (BoxContentOnly s))
      else
        s ← chunk_with_params (params_hash_len p) (params_chunk_size p); Some (Ok (BoxChunk s))
  end.

(** ** Examples *)

Example fnv_vectors :
  map fnv1a_32 [[]; lit "a"; lit "foobar"] = [2166136261; 3826002220; 3214735720]%Z.
Proof. by vm_compute. Qed.

Example whitespace_is_normalised :
  line_hash (lit "    let  x = 1;  ") = line_hash (lit "let x =  1;") ∧
  line_hash (lit "return x") ≠ line_hash (lit "returnx").
Proof. split; [by vm_compute|]. intros H. by vm_compute in H. Qed.

Example anchors_of_two_lines :
  (map render <$> generate_for_content chunk_new (lit "a" ++ [NL] ++ lit "b" ++ [NL]))
  = Some [lit "1:obk:yzo"; lit "2:rby:yzo"; lit "3:ddg:yzo"].
Proof. by vm_compute. Qed.
