(* ===== verification/HashlineSchemeFacts.v ===== *)
(** * What an anchor scheme promises

    The class [LawfulScheme]: anchors are generated without a panic, one per
    line, from a reference definition of the context hash, and an anchor is
    valid exactly when it is the one of its line.  The three schemes and the
    box satisfy it; the clients (the edit and grep tools) are proved against
    it. *)
From S2P Require Import Prelude RustStr StrSearch HashlineScheme.

(** ** Vectors *)

Lemma len_nonneg {A} (l : list A) : (0 ≤ len l)%Z.
Proof. unfold len. lia. Qed.

Lemma index_Some {A} (l : list A) i x :
  index l i = Some x ↔ (0 ≤ i)%Z ∧ l !! Z.to_nat i = Some x.
Proof.
  unfold index. destruct (Z.ltb_spec i 0); [|intuition]. split; [discriminate|lia].
Qed.

Lemma index_nat {A} (l : list A) (i : nat) : index l (Z.of_nat i) = l !! i.
Proof. unfold index. destruct (Z.ltb_spec (Z.of_nat i) 0); [lia|]. by rewrite Nat2Z.id. Qed.

Lemma index_lt {A} (l : list A) i : (0 ≤ i < len l)%Z → ∃ x, index l i = Some x.
Proof.
  unfold len. intros Hi. rewrite <- (Z2Nat.id i) by lia. setoid_rewrite index_nat.
  apply lookup_lt_is_Some. lia.
Qed.

Lemma slice_Some {A} (l : list A) a b :
  (0 ≤ a ≤ b)%Z → (b ≤ len l)%Z →
  slice l a b = Some (take (Z.to_nat b - Z.to_nat a) (drop (Z.to_nat a) l)).
Proof.
  intros. unfold slice.
  replace ((0 <=? a) && (a <=? b) && (b <=? len l))%Z with true by lia.
  do 2 f_equal. lia.
Qed.

(** A slice cut off at the end of the vector. *)
Lemma slice_min {A} (l : list A) a n :
  (0 ≤ a ≤ len l)%Z → (0 ≤ n)%Z →
  slice l a (Z.min (a + n) (len l)) = Some (take (Z.to_nat n) (drop (Z.to_nat a) l)).
Proof.
  unfold len. intros Ha Hn. rewrite slice_Some by (unfold len; lia). f_equal.
  destruct (Z.le_gt_cases (a + n) (Z.of_nat (length l))).
  - f_equal. lia.
  - rewrite !take_ge; [done|rewrite length_drop; lia..].
Qed.

Lemma enumerate_lookup {A} (l : list A) i :
  enumerate l !! i = (λ x, (Z.of_nat i, x)) <$> l !! i.
Proof.
  unfold enumerate. rewrite lookup_zip_with.
  destruct (l !! i) as [x|] eqn:E; cbn.
  - rewrite lookup_seqZ_lt; [done|]. apply lookup_lt_Some in E. unfold len. lia.
  - by destruct (seqZ 0 (len l) !! i).
Qed.

Lemma length_enumerate {A} (l : list A) : length (enumerate l) = length l.
Proof. unfold enumerate, len. rewrite length_zip_with, length_seqZ. lia. Qed.

Lemma mapM_pointwise {A B} (f : A → option B) (l : list A) (k : list B) :
  length l = length k →
  (∀ i x y, l !! i = Some x → k !! i = Some y → f x = Some y) → mapM f l = Some k.
Proof.
  intros Hl Hf. apply mapM_Some_2, Forall2_same_length_lookup_2; [done|]. exact Hf.
Qed.

Lemma mapM_enumerate {A B} (f : Z * A → option B) (g : nat → A → B) (l : list A) :
  (∀ i x, l !! i = Some x → f (Z.of_nat i, x) = Some (g i x)) →
  mapM f (enumerate l) = Some (imap g l).
Proof.
  intros Hf. apply mapM_pointwise; [by rewrite length_enumerate, length_imap|].
  intros i [j x] y Hi Hk. rewrite enumerate_lookup in Hi. rewrite list_lookup_imap in Hk.
  destruct (l !! i) as [z|] eqn:E; [|discriminate]. cbn in Hi, Hk.
  injection Hi as <- <-. injection Hk as <-. by apply Hf.
Qed.

Lemma wrap64_fits z : (0 ≤ z ≤ U64_MAX)%Z → wrap64 z = z.
Proof. intros. by apply wrap64_small. Qed.

(** A vector of strings has at most [isize::MAX] elements. *)
Definition fits {A} (l : list A) : Prop := (len l ≤ I64_MAX)%Z.

(** ** Hashes *)

Definition good_len (n : Z) : Prop := (1 ≤ n ≤ 4)%Z.

Lemma encode_hash_good h n : good_len n → encode_hash h n = Some (hash_letters h n).
Proof.
  unfold good_len, encode_hash. intros.
  by replace ((0 <? n) && (n <=? 4))%Z with true by lia.
Qed.

Lemma encode_hash_bad h n : ¬ good_len n → encode_hash h n = None.
Proof.
  unfold good_len, encode_hash. intros.
  by replace ((0 <? n) && (n <=? 4))%Z with false by lia.
Qed.

Definition lowercase (s : str) : Prop := s ≠ [] ∧ Forall (λ c, 97 ≤ c ≤ 122)%Z s.

Lemma hash_letters_lowercase h n : good_len n → lowercase (hash_letters h n).
Proof.
  intros Hn. unfold good_len in Hn. split.
  - unfold hash_letters. intros E. apply (f_equal length) in E.
    rewrite length_map, length_seqZ in E. cbn in E. lia.
  - unfold hash_letters. apply Forall_map, Forall_forall. intros i _. unfold hash_letter.
    pose proof (Z.mod_pos_bound (Z.shiftr h (i * 8)) 26). lia.
Qed.

Lemma lowercase_bytes s : Forall (λ c, 97 ≤ c ≤ 122)%Z s → as_bytes s = s.
Proof.
  induction 1 as [|c s Hc _ IH]; [done|]. cbn [as_bytes]. unfold encode_char.
  replace (c <? 128)%Z with true by lia. cbn. by rewrite IH.
Qed.

Lemma all_lowercase_true s : Forall (λ c, 97 ≤ c ≤ 122)%Z s → all_lowercase s = true.
Proof.
  intros Hs. unfold all_lowercase. rewrite lowercase_bytes by done.
  apply forallb_forall. intros c Hc. rewrite Forall_forall in Hs.
  apply list_elem_of_In, Hs in Hc. unfold in_range. lia.
Qed.

(** ** Rendered anchors parse *)

Definition as_parsed (a : Anchor) : ParsedAnchor := mkParsed (line a) (local a) (context a).

(** What the generators produce. *)
Definition wf_parsed (a : ParsedAnchor) : Prop :=
  (1 ≤ pa_line a ≤ U64_MAX)%Z ∧ lowercase (pa_local a) ∧
  match pa_context a with Some c => lowercase c | None => True end.

Lemma split_once_app c a b : c ∉ a → split_once c (a ++ c :: b) = Some (a, b).
Proof.
  induction a as [|x a IH]; intros Hn; cbn [split_once app].
  - by rewrite Z.eqb_refl.
  - rewrite not_elem_of_cons in Hn. destruct Hn as [Hx Hn].
    replace (x =? c)%Z with false by lia. by rewrite IH.
Qed.

Lemma split_once_none c a : c ∉ a → split_once c a = None.
Proof.
  induction a as [|x a IH]; intros Hn; [done|]. cbn [split_once].
  rewrite not_elem_of_cons in Hn. destruct Hn as [Hx Hn].
  replace (x =? c)%Z with false by lia. by rewrite IH.
Qed.

Lemma lowercase_no_char c s : lowercase s → (c < 97)%Z → c ∉ s.
Proof. intros [_ Hs] Hc Hin. rewrite Forall_forall in Hs. apply Hs in Hin. lia. Qed.

Lemma digits_no_char c z : (0 ≤ z)%Z → (c < 48 ∨ 57 < c)%Z → c ∉ fmt_Z z.
Proof.
  intros Hz Hc Hin. destruct (fmt_Z_codes z Hz) as (_ & Hd & _).
  rewrite Forall_forall in Hd. apply Hd in Hin. unfold is_digit_code in Hin. lia.
Qed.

Lemma not_is_empty {A} (l : list A) : l ≠ [] → is_empty l = false.
Proof. by destruct l. Qed.

Lemma parse_parsed_render a : wf_parsed a → parse (parsed_render a) = Some a.
Proof.
  destruct a as [n loc ctx]. unfold wf_parsed, parsed_render. cbn [pa_line pa_local pa_context].
  intros (Hn & Hl & Hc).
  assert (Hf : COLON ∉ fmt_Z n) by (apply digits_no_char; unfold COLON; lia).
  destruct (fmt_Z_codes n ltac:(lia)) as (_ & _ & Hne).
  pose proof (lowercase_no_char COLON _ Hl ltac:(unfold COLON; lia)) as Hcl.
  destruct Hl as [Hl0 Hl]. unfold parse.
  destruct ctx as [c|]; cbn [app]; rewrite split_once_app by done; cbn [mbind option_bind].
  - destruct Hc as [Hc0 Hc].
    rewrite split_once_app, (not_is_empty (fmt_Z n)), (not_is_empty loc) by done.
    cbn [orb]. rewrite parse_unsigned_fmt by lia. cbn [mbind option_bind].
    replace (n =? 0)%Z with false by lia.
    by rewrite !all_lowercase_true, (not_is_empty c) by done.
  - rewrite split_once_none, (not_is_empty (fmt_Z n)), (not_is_empty loc) by done.
    cbn [orb]. rewrite parse_unsigned_fmt by lia. cbn [mbind option_bind].
    replace (n =? 0)%Z with false by lia. by rewrite all_lowercase_true.
Qed.

Lemma render_as_parsed a : render a = parsed_render (as_parsed a).
Proof. done. Qed.

(** ** The contract *)

Class LawfulScheme (A : Type) `{AnchorScheme A} : Type := {
  scheme_ok : A → Prop;
  (** The context hash of a line: a function of the lines around it. *)
  line_context : A → list str → nat → option str;
  lawful_hash_len s : scheme_ok s → good_len (hash_len s);
  lawful_context s ls i c : scheme_ok s → line_context s ls i = Some c → lowercase c;
  lawful_generate s ls :
    scheme_ok s → fits ls →
    generate_anchors s ls
    = Some (imap (λ i l, mkAnchor (Z.of_nat i + 1) (hash_letters (line_hash l) (hash_len s))
                           (line_context s ls i)) ls);
  lawful_validate s a ls :
    scheme_ok s → fits ls → (1 ≤ pa_line a)%Z →
    validate s a ls
    = Some (match ls !! Z.to_nat (pa_line a - 1) with
            | None => OutOfRange
            | Some l =>
                if bool_decide
                     (pa_local a = hash_letters (line_hash l) (hash_len s) ∧
                      (line_context s ls (Z.to_nat (pa_line a - 1)) = None ∨
                       pa_context a = line_context s ls (Z.to_nat (pa_line a - 1))))
                then Valid else Stale
            end);
  lawful_find s : find_shifted s = find_shifted_generic (hash_len s) (validate s);
}.

Lemma not_in_range (a : ParsedAnchor) (ls : list str) :
  (1 ≤ pa_line a)%Z →
  anchor_idx a = (pa_line a - 1)%Z ∧
  (if (len ls <=? pa_line a - 1)%Z then ls !! Z.to_nat (pa_line a - 1) = None
   else ∃ l, ls !! Z.to_nat (pa_line a - 1) = Some l ∧ index ls (pa_line a - 1) = Some l).
Proof.
  intros Ha. split; [unfold anchor_idx; by replace (pa_line a =? 0)%Z with false by lia|].
  destruct (Z.leb_spec (len ls) (pa_line a - 1)); unfold len in *.
  - apply lookup_ge_None. lia.
  - destruct (index_lt ls (pa_line a - 1)) as [l Hl]; [unfold len; lia|].
    exists l. split; [|done]. by apply index_Some in Hl as [_ Hl].
Qed.

Lemma if_true {A} (P : Prop) `{Decision P} (x y : A) : P → (if bool_decide P then x else y) = x.
Proof. intros. by rewrite bool_decide_eq_true_2. Qed.
Lemma if_false {A} (P : Prop) `{Decision P} (x y : A) :
  ¬ P → (if bool_decide P then x else y) = y.
Proof. intros. by rewrite bool_decide_eq_false_2. Qed.

(** *** Candidate A *)

#[global] Instance content_only_lawful : LawfulScheme ContentOnly.
Proof.
  refine {| scheme_ok s := good_len (co_hash_len s); line_context _ _ _ := None |}.
  - done.
  - done.
  - intros s ls Hs _. apply mapM_enumerate. intros i l _.
    by rewrite encode_hash_good.
  - intros s a ls Hs _ Ha. cbn. unfold content_only_validate.
    destruct (not_in_range a ls Ha) as [-> Hi].
    destruct (len ls <=? pa_line a - 1)%Z; [by rewrite Hi|].
    destruct Hi as (l & -> & ->). cbn [mbind option_bind]. rewrite encode_hash_good by done.
    cbn [mbind option_bind]. f_equal. unfold str_eqb.
    case_bool_decide as E; [by rewrite if_true by auto|].
    rewrite if_false; [done|]. by intros [? _].
  - done.
Defined.

(** *** Candidate B *)

Definition chunk_of (csize : Z) (ls : list str) (i : nat) : list str :=
  take (Z.to_nat csize) (drop (Z.to_nat (Z.of_nat i / csize * csize)) ls).
Definition chunk_ok (s : ChunkFingerprint) : Prop :=
  good_len (ch_hash_len s) ∧ (1 ≤ chunk_size s ≤ U64_MAX)%Z.
Definition chunk_context (s : ChunkFingerprint) (ls : list str) (i : nat) : str :=
  hash_letters (combine_lines CHUNK_SEED (chunk_of (chunk_size s) ls i)) (ch_hash_len s).

Lemma chunk_bounds c i n :
  (1 ≤ c ≤ U64_MAX)%Z → (0 ≤ i < n)%Z → (n ≤ I64_MAX)%Z →
  (0 ≤ i / c * c ≤ i)%Z ∧ (i < i / c * c + c)%Z ∧ (0 ≤ i / c * c + c ≤ U64_MAX)%Z.
Proof.
  intros Hc Hi Hn. pose proof (Z.div_mod i c ltac:(lia)) as E.
  pose proof (Z.mod_pos_bound i c ltac:(lia)). pose proof (Z.div_pos i c ltac:(lia) ltac:(lia)).
  split_and!; [nia..|]. unfold U64_MAX, I64_MAX in *.
  destruct (Z.eq_dec (i / c) 0) as [E0|]; [rewrite E0; lia|nia].
Qed.

(** The slice of the chunk that holds line [i]. *)
Lemma chunk_slice c ls i :
  (1 ≤ c ≤ U64_MAX)%Z → fits ls → (0 ≤ i < len ls)%Z →
  slice ls (i / c * c) (Z.min (wrap64 (i / c * c + c)) (len ls))
  = Some (chunk_of c ls (Z.to_nat i)).
Proof.
  intros Hc Hf Hi. destruct (chunk_bounds c i (len ls) Hc Hi Hf) as (? & ? & ?).
  rewrite wrap64_fits by lia. rewrite slice_min by lia. unfold chunk_of.
  by rewrite Z2Nat.id by lia.
Qed.

Lemma quot_good a b : (1 ≤ b)%Z → checked_quot a b = Some (a / b)%Z.
Proof. intros. unfold checked_quot. by replace (b =? 0)%Z with false by lia. Qed.

Lemma chunk_fingerprint_eq s ls i :
  chunk_ok s → fits ls → (0 ≤ i < len ls)%Z →
  chunk_fingerprint s ls i = Some (chunk_context s ls (Z.to_nat i)).
Proof.
  intros [Hl Hc] Hf Hi. unfold chunk_fingerprint. rewrite quot_good by lia.
  cbn [mbind option_bind]. rewrite chunk_slice by done. cbn [mbind option_bind].
  by rewrite encode_hash_good.
Qed.

Lemma div_ceil_spec a b :
  (0 ≤ a)%Z → (1 ≤ b)%Z →
  ∃ q, div_ceil a b = Some q ∧ (0 ≤ q)%Z ∧ ∀ k, (0 ≤ k)%Z → (k < q ↔ k * b < a)%Z.
Proof.
  intros Ha Hb. unfold div_ceil. rewrite quot_good by done. cbn [mbind option_bind].
  pose proof (Z.div_mod a b ltac:(lia)) as E. pose proof (Z.mod_pos_bound a b ltac:(lia)).
  pose proof (Z.div_pos a b Ha ltac:(lia)).
  destruct (Z.eqb_spec (a mod b) 0); eexists; (split; [done|]); (split; [lia|]); intros k Hk;
    split; intros; nia.
Qed.

(** Every pre-computed fingerprint is the one of the lines of its chunk. *)
Lemma chunk_fps_spec s ls :
  chunk_ok s → fits ls →
  ∃ fps, chunk_fps s ls = Some fps ∧
    ∀ i : nat, (i < length ls)%nat →
      index fps (Z.of_nat i / chunk_size s) = Some (chunk_context s ls i).
Proof.
  intros [Hl Hc] Hf.
  destruct (div_ceil_spec (len ls) (chunk_size s)) as (q & Hq & Hq0 & Hk); [apply len_nonneg|lia|].
  exists (map (λ k, chunk_context s ls (Z.to_nat (k * chunk_size s))) (seqZ 0 q)).
  unfold chunk_fps. rewrite Hq. cbn [mbind option_bind]. split.
  - apply mapM_pointwise; [by rewrite length_map|]. intros j k y Hj Hy.
    rewrite list_lookup_fmap, Hj in Hy. cbn in Hy. injection Hy as <-.
    apply lookup_seqZ in Hj as [-> Hj].
    assert (Hin : (0 ≤ (0 + Z.of_nat j) * chunk_size s < len ls)%Z).
    { split; [nia|]. apply Hk; lia. }
    pose proof (chunk_slice (chunk_size s) ls _ Hc Hf Hin) as E.
    rewrite Z.div_mul in E by lia. rewrite E. cbn [mbind option_bind].
    by rewrite encode_hash_good.
  - intros i Hi. pose proof (chunk_bounds (chunk_size s) (Z.of_nat i) (len ls) Hc) as Hb.
    destruct Hb as (? & ? & ?); [unfold len; lia|done|].
    pose proof (Z.div_pos (Z.of_nat i) (chunk_size s) ltac:(lia) ltac:(lia)).
    apply index_Some. split; [done|]. rewrite list_lookup_fmap.
    rewrite lookup_seqZ_lt; [|rewrite Z2Nat.id by done; apply Hk; [done|unfold len; lia]].
    cbn [fmap option_map option_fmap]. f_equal. unfold chunk_context, chunk_of.
    do 3 f_equal. rewrite !Z2Nat.id by nia. by rewrite Z.add_0_l, Z.div_mul by lia.
Qed.

#[global] Instance chunk_lawful : LawfulScheme ChunkFingerprint.
Proof.
  refine {| scheme_ok := chunk_ok; line_context s ls i := Some (chunk_context s ls i) |}.
  - by intros s [Hs _].
  - intros s ls i c [Hs _] [= <-]. by apply hash_letters_lowercase.
  - intros s ls Hs Hf. cbn. unfold chunk_anchors.
    destruct (chunk_fps_spec s ls Hs Hf) as (fps & -> & Hi). cbn [mbind option_bind].
    apply mapM_enumerate. intros i l Hl. destruct Hs as [Hs Hc]. rewrite quot_good by lia.
    cbn [mbind option_bind]. rewrite encode_hash_good by done. cbn [mbind option_bind].
    rewrite Hi by (by eapply lookup_lt_Some). done.
  - intros s a ls Hs Hf Ha. cbn. unfold chunk_validate.
    destruct (not_in_range a ls Ha) as [-> Hi].
    destruct (Z.leb_spec (len ls) (pa_line a - 1)); [by rewrite Hi|].
    destruct Hi as (l & -> & ->). cbn [mbind option_bind].
    rewrite encode_hash_good by apply Hs. cbn [mbind option_bind].
    unfold str_eqb. case_bool_decide as E; cbn [negb].
    + destruct (pa_context a) as [c|] eqn:Ec; [|by rewrite if_false by naive_solver].
      rewrite chunk_fingerprint_eq by (done || lia). cbn [mbind option_bind].
      f_equal. case_bool_decide as E'; cbn [negb]; [rewrite if_true|rewrite if_false]; naive_solver.
    + rewrite if_false; [done|]. by intros [? _].
  - done.
Defined.

(** *** Candidate C *)

Definition since_checkpoint (interval : Z) (ls : list str) (i : nat) : list str :=
  drop (Z.to_nat (Z.of_nat i / interval * interval)) (take (S i) ls).
Definition checkpoint_ok (s : CheckpointChain) : Prop :=
  good_len (ck_hash_len s) ∧ (1 ≤ checkpoint_interval s ≤ U64_MAX)%Z.
Definition checkpoint_context (s : CheckpointChain) (ls : list str) (i : nat) : str :=
  hash_letters (combine_lines CKPT_SEED (since_checkpoint (checkpoint_interval s) ls i))
    (ck_hash_len s).

Lemma checkpoint_fingerprint_eq s ls i :
  checkpoint_ok s → fits ls → (0 ≤ i < len ls)%Z →
  checkpoint_fingerprint s ls i = Some (checkpoint_context s ls (Z.to_nat i)).
Proof.
  intros [Hl Hc] Hf Hi. unfold checkpoint_fingerprint. rewrite quot_good by lia.
  cbn [mbind option_bind].
  destruct (chunk_bounds (checkpoint_interval s) i (len ls) Hc Hi Hf) as (? & ? & ?).
  rewrite slice_Some by lia. cbn [mbind option_bind]. rewrite encode_hash_good by done.
  f_equal. unfold checkpoint_context, since_checkpoint. do 2 f_equal.
  rewrite Z2Nat.id by lia. rewrite skipn_firstn_comm. f_equal. lia.
Qed.

(** The carried chain is the combined hash of the lines since the checkpoint. *)
Lemma checkpoint_loop_spec s ls : ∀ pre chain rest,
  checkpoint_ok s → ls = pre ++ rest →
  ((len pre mod checkpoint_interval s ≠ 0)%Z →
   chain = combine_lines CKPT_SEED
             (drop (Z.to_nat (len pre / checkpoint_interval s * checkpoint_interval s)) pre)) →
  checkpoint_loop s (len pre) chain rest
  = Some (imap (λ i l, mkAnchor (Z.of_nat (length pre + i) + 1)
                         (hash_letters (line_hash l) (ck_hash_len s))
                         (Some (checkpoint_context s ls (length pre + i)))) rest).
Proof.
  intros pre chain rest Hs. revert pre chain.
  induction rest as [|l rest IH]; intros pre chain Hls Hch; [done|]. destruct Hs as [Hl Hc].
  cbn [checkpoint_loop]. rewrite quot_good by lia. cbn [mbind option_bind].
  rewrite !encode_hash_good by done. cbn [mbind option_bind].
  set (n := checkpoint_interval s) in *. set (st := Z.to_nat (len pre / n * n)).
  assert (Hst : (st ≤ length pre)%nat).
  { unfold st, len. pose proof (Z.mul_div_le (Z.of_nat (length pre)) n). nia. }
  assert (E : mix (if (len pre mod n =? 0)%Z then CKPT_SEED else chain) (line_hash l)
              = combine_lines CKPT_SEED (drop st (pre ++ [l]))).
  { rewrite drop_app_le by done. unfold combine_lines. rewrite foldl_app. cbn [foldl]. f_equal.
    destruct (Z.eqb_spec (len pre mod n) 0) as [Hz|Hz]; [|by apply Hch].
    rewrite drop_ge; [done|]. unfold st, len in *.
    pose proof (Z.div_mod (Z.of_nat (length pre)) n). nia. }
  rewrite E. replace (len pre + 1)%Z with (len (pre ++ [l])) by (unfold len; rewrite length_app; cbn; lia).
  rewrite (IH (pre ++ [l])); cbn [mbind option_bind imap].
  - f_equal. f_equal.
    + f_equal; [unfold len; rewrite length_app; cbn; lia|]. do 2 f_equal.
      unfold checkpoint_context, since_checkpoint. do 2 f_equal. fold n.
      rewrite Nat.add_0_r, Hls, take_app_ge by lia.
      replace (S (length pre) - length pre)%nat with 1%nat by lia. done.
    + apply imap_ext. intros i x _. rewrite length_app. cbn [length compose]. unfold compose.
      f_equal; [lia|do 2 f_equal; lia].
  - by rewrite <- app_assoc.
  - intros Hm. do 2 f_equal. unfold len in *. rewrite length_app in *. cbn [length] in *.
    unfold st. f_equal. f_equal.
    pose proof (Z.div_mod (Z.of_nat (length pre)) n ltac:(lia)).
    pose proof (Z.mod_pos_bound (Z.of_nat (length pre)) n ltac:(lia)).
    pose proof (Z.div_mod (Z.of_nat (length pre + 1)) n ltac:(lia)).
    pose proof (Z.mod_pos_bound (Z.of_nat (length pre + 1)) n ltac:(lia)). nia.
Qed.

#[global] Instance checkpoint_lawful : LawfulScheme CheckpointChain.
Proof.
  refine {| scheme_ok := checkpoint_ok;
            line_context s ls i := Some (checkpoint_context s ls i) |}.
  - by intros s [Hs _].
  - intros s ls i c [Hs _] [= <-]. by apply hash_letters_lowercase.
  - intros s ls Hs Hf. exact (checkpoint_loop_spec s ls [] CKPT_SEED ls Hs eq_refl (λ _, eq_refl)).
  - intros s a ls Hs Hf Ha. cbn. unfold checkpoint_validate.
    destruct (not_in_range a ls Ha) as [-> Hi].
    destruct (Z.leb_spec (len ls) (pa_line a - 1)); [by rewrite Hi|].
    destruct Hi as (l & -> & ->). cbn [mbind option_bind].
    rewrite encode_hash_good by apply Hs. cbn [mbind option_bind].
    unfold str_eqb. case_bool_decide as E; cbn [negb].
    + destruct (pa_context a) as [c|] eqn:Ec; [|by rewrite if_false by naive_solver].
      rewrite checkpoint_fingerprint_eq by (done || lia). cbn [mbind option_bind].
      f_equal. case_bool_decide as E'; cbn [negb]; [rewrite if_true|rewrite if_false]; naive_solver.
    + rewrite if_false; [done|]. by intros [? _].
  - done.
Defined.

(** *** The box *)

#[global] Instance boxed_lawful : LawfulScheme BoxedScheme.
Proof.
  refine {|
    scheme_ok b := match b with
      | BoxContentOnly s => scheme_ok s | BoxChunk s => scheme_ok s | BoxCheckpoint s => scheme_ok s
      end;
    line_context b := match b with
      | BoxContentOnly s => line_context s | BoxChunk s => line_context s
      | BoxCheckpoint s => line_context s end |}.
  - intros [s|s|s]; exact (lawful_hash_len s).
  - intros [s|s|s]; exact (lawful_context s).
  - intros [s|s|s]; exact (lawful_generate s).
  - intros [s|s|s]; exact (lawful_validate s).
  - intros [s|s|s]; exact (lawful_find s).
Defined.

(** ** Configuration *)

(** Parameters as the deserialiser delivers them. *)
Definition usize_params (p : HashlineSchemeParams) : Prop :=
  (0 ≤ params_hash_len p ≤ U64_MAX)%Z ∧ (0 ≤ params_chunk_size p ≤ U64_MAX)%Z.

Definition known_scheme (p : HashlineSchemeParams) : Prop :=
  scheme p = lit "chunk" ∨ scheme p = lit "content_only".

Lemma validate_params_ok p :
  usize_params p →
  validate_params p = Ok tt ↔
  known_scheme p ∧ good_len (params_hash_len p) ∧
  (scheme p = lit "chunk" → (1 ≤ params_chunk_size p)%Z).
Proof.
  intros [Hh Hc]. unfold validate_params, known_scheme, good_len, str_eqb.
  case_bool_decide as E1; cbn [orb negb].
  - destruct (_ || _)%bool eqn:El; [split; [done|lia]|]. cbn [andb].
    destruct (Z.eqb_spec (params_chunk_size p) 0).
    + split; [done|]. intros (_ & _ & H). specialize (H E1). lia.
    + split; [|done]. intros _. split_and!; [by left|lia|lia|intros; lia].
  - case_bool_decide as E2; cbn [orb negb andb].
    + destruct (_ || _)%bool eqn:El; [split; [done|lia]|].
      split; [|done]. intros _. split_and!; [by right|lia|lia|done].
    + split; [done|]. by intros [[?|?] _].
Qed.

(** The builder never panics; what it builds is lawful. *)
Lemma build_scheme_spec p :
  usize_params p →
  ∃ r, build_scheme p = Some r ∧
    match r with
    | Ok b => validate_params p = Ok tt ∧ scheme_ok b
    | Err e => validate_params p = Err e
    end.
Proof.
  intros Hu. pose proof (validate_params_ok p Hu) as Hv. unfold build_scheme.
  destruct (validate_params p) as [[]|e]; [|eexists; by split].
  destruct (proj1 Hv eq_refl) as (Hk & Hl & Hc). destruct Hu as [_ Hu]. unfold str_eqb.
  assert (Hg : (0 <? params_hash_len p)%Z && (params_hash_len p <=? 4)%Z = true)
    by (unfold good_len in Hl; lia).
  case_bool_decide as E.
  - unfold content_only_with_hash_len. rewrite Hg. eexists. by split_and!.
  - destruct Hk as [Hk|Hk]; [|done]. specialize (Hc Hk). unfold chunk_with_params. rewrite Hg.
    replace (0 <? params_chunk_size p)%Z with true by lia. eexists. split; [done|].
    split; [done|]. split; [done|]. cbn. lia.
Qed.
