(* ===== verification/HashlineEdit.v ===== *)
(** * The hashline edit

    [grok_build_hashline/edit]: [types.rs], [range_policy.rs] and
    [apply.rs], with [format_hashline_content] of [read_file.rs].  Lines and
    positions are [usize] values in [Z]; the outer [option] is a panic, the
    inner [result] an error the model sees. *)
From S2P Require Import Prelude RustStr StrSearch HashlineScheme.

(** [?] under a computation that may panic. *)
Notation "'let!' x ':=' e 'in' k" :=
  (match e with
   | None => None
   | Some (Err err) => Some (Err err)
   | Some (Ok x) => k
   end)
  (at level 10, x pattern, e at level 200, k at level 200) : grodex_scope.

(** ** [types.rs] *)

Inductive HashlineOp : Type :=
| Replace (anchor : str) (end_anchor : option str) (content : str)
| InsertAfter (anchor content : str)
| Write (content : str).

Inductive HashlineEditErrorKind : Type :=
| AnchorStale | AmbiguousAnchor | AnchorNotFound | FileNotFound | OverlappingEdits
| InvalidInput | IoError.
#[global] Instance error_kind_eq_dec : EqDecision HashlineEditErrorKind.
Proof. solve_decision. Defined.

Record HashlineEditError : Type := mkError {
  error : HashlineEditErrorKind;
  message : str;
  requested_anchor : option str;
  current : option str;
  error_context : option str;
  context_start_line : option Z;
  shifted_to : option Z;
  shifted_anchor : option str;
  ambiguous_candidates : list Z;
}.

Record HashlineEditsApplied : Type := mkApplied {
  applied : Z;
  applied_scheme : str;
  snippet_start_line : Z;
  snippet : str;
  absolute_path : str;
  warnings : list str;
}.

Inductive HashlineEditOutput : Type :=
| EditsApplied (a : HashlineEditsApplied)
| Error (e : HashlineEditError).

(** An error with a kind and a message only. *)
Definition plain_error (k : HashlineEditErrorKind) (m : str) (requested : option str)
  : HashlineEditError :=
  mkError k m requested None None None None None [].

(** ** [range_policy.rs] *)

Definition SMALL_MAX : Z := 5.
Definition MEDIUM_MAX : Z := 20.
Inductive RangeSize : Type := Small | Medium | Large.
#[global] Instance range_size_eq_dec : EqDecision RangeSize.
Proof. solve_decision. Defined.

Definition classify (line_count : Z) : RangeSize :=
  if (line_count <=? SMALL_MAX)%Z then Small
  else if (line_count <=? MEDIUM_MAX)%Z then Medium else Large.

Definition range_warning (start end_ : Z) : option str :=
  let count := saturating_sub end_ start in
  match classify count with
  | Large =>
      Some (lit "Caution: large range edit (" ++ fmt_Z count ++ lit " lines, lines "
            ++ fmt_Z (start + 1) ++ lit "-" ++ fmt_Z end_
            ++ lit "). Verify the target range is correct.")
  | Medium =>
      Some (lit "Note: medium range edit (" ++ fmt_Z count ++ lit " lines, lines "
            ++ fmt_Z (start + 1) ++ lit "-" ++ fmt_Z end_ ++ lit ").")
  | Small => None
  end.

(** ** Text *)

Definition ARROW : char := 8594.

(** [str::split_once] at a string *)
Definition split_once_str (p s : str) : option (str * str) :=
  match find s p with
  | Some n => Some (take n s, drop (n + length p) s)
  | None => None
  end.

Definition anchor_suffix (a : Anchor) : str :=
  match context a with
  | Some ctx => local a ++ [COLON] ++ ctx
  | None => local a
  end.

(** The test on what stands before an arrow. *)
Definition looks_like_anchor (before : str) : bool :=
  (str_len before <=? 25)%Z && existsb (Z.eqb COLON) before && negb (existsb (Z.eqb SPACE) before).

Definition line_has_anchor_prefix (l : str) : bool :=
  let s := trim_start l in
  match split_once ARROW s with
  | Some (before, _) => looks_like_anchor before
  | None => false
  end
  || match split_once_str (lit "->") s with
     | Some (before, _) => looks_like_anchor before
     | None => false
     end.

Fixpoint first_prefixed (ls : list str) (idx : Z) : option Z :=
  match ls with
  | [] => None
  | l :: ls' => if line_has_anchor_prefix l then Some (idx + 1)%Z else first_prefixed ls' (idx + 1)
  end.
Definition detect_anchor_prefix_in_content (content : str) : option Z :=
  first_prefixed (lines content) 0.

Definition nth_or_empty (ls : list str) (i : Z) : str :=
  match index ls i with Some l => l | None => [] end.

Definition anchor_content_error (op_label content : str) (line_num : Z)
  : option HashlineEditError :=
  let ls := lines content in
  let offending_line := nth_or_empty ls (line_num - 1) in
  let ctx_start := saturating_sub (saturating_sub line_num 1) 1 in
  let ctx_end := Z.min (line_num + 1) (len ls) in
  parts ← mapM (λ i,
                  l ← index ls i;
                  Some ((if (i + 1 =? line_num)%Z then lit ">>>" else lit "   ")
                        ++ lit " line " ++ fmt_Z (i + 1) ++ lit ": " ++ l))
            (seqZ ctx_start (ctx_end - ctx_start));
  Some (mkError InvalidInput
    (op_label ++ lit " content contains anchor prefixes (e.g. " ++ quoted (lit "22:abc:rst→")
     ++ lit ") copied from hashline_read output. The first offending line is line "
     ++ fmt_Z line_num
     ++ lit ". Strip the anchor prefixes and the → separator from every line, keeping only the actual file content, then retry.")
    None (Some offending_line) (Some (join [NL] parts)) (Some (ctx_start + 1)%Z) None None []).

Definition render_anchored_line (a : Anchor) (content : str) : str :=
  fmt_Z (line a) ++ [COLON] ++ anchor_suffix a ++ [ARROW] ++ content.

(** [{:?}] of a [Vec<usize>] *)
Definition debug_list (l : list Z) : str := lit "[" ++ join (lit ", ") (map fmt_Z l) ++ lit "]".

(** ** Editing *)

Record ResolvedOp : Type := mkResolved {
  original_idx : Z; start : Z; end_ : Z; new_lines : list str }.

Record EditRegionDetail : Type := mkDetail {
  old_line : Z; old_text : str; new_line : Z; new_text : str }.

Record ApplyResult : Type := mkApplyResult {
  output : HashlineEditOutput;
  new_content : option str;
  edit_details : list EditRegionDetail;
}.
Definition failed (e : HashlineEditError) : ApplyResult := mkApplyResult (Error e) None [].

Definition SNIPPET_CONTEXT : Z := 3.
Definition MAX_CONTIGUOUS_SNIPPET : Z := 80.

Section Edit.
Context {A : Type} `{AnchorScheme A} (scheme : A).

(** *** [read_file.rs] *)

(** The first component of [format_hashline_content]; the edit tool drops the
    second. *)
Definition format_hashline_content (file_content : str) (offset limit : option Z)
  : option (str * str) :=
  let all_lines := split_lines file_content in
  anchors ← generate_anchors scheme all_lines;
  let skip := saturating_sub (default 1%Z offset) 1 in
  let take_ := default U64_MAX limit in
  let window := take (Z.to_nat (Z.min take_ (len all_lines)))
                  (drop (Z.to_nat (Z.min skip (len all_lines))) (enumerate all_lines)) in
  rows ← mapM (λ '(i, l),
                 a ← index anchors i;
                 Some (fmt_Z (i + 1) ++ [COLON] ++ anchor_suffix a ++ [ARROW] ++ l)) window;
  Some (join [NL] rows, join [NL] (map snd window)).

(** *** Anchors *)

Definition anchor_format_hint : option (str * str) :=
  let n := Z.to_nat (Z.max 1 (Z.min (hash_len scheme) 4)) in
  let hash := take n (lit "abcd") in
  anchors ← generate_anchors scheme [lit "x"];
  Some (match anchors with
        | a :: _ =>
            match context a with
            | Some _ =>
                (lit "LINE:HASH1:HASH2", lit "22:" ++ hash ++ [COLON] ++ take n (lit "rstu"))
            | None => (lit "LINE:HASH", lit "22:" ++ hash)
            end
        | [] => (lit "LINE:HASH", lit "22:" ++ hash)
        end).

Definition suffix_matches (suffix : str) (a : Anchor) : bool :=
  match context a, split_once COLON suffix with
  | Some ctx, Some (loc, sfx_ctx) => str_eqb (local a) loc && str_eqb ctx sfx_ctx
  | None, None => str_eqb (local a) suffix
  | _, _ => false
  end.

Definition recover_anchor_by_suffix (suffix : str) (ls : list str)
  : option (option ParsedAnchor) :=
  anchors ← generate_anchors scheme ls;
  Some (match List.filter (suffix_matches suffix) anchors with
        | [a] => Some (mkParsed (line a) (local a) (context a))
        | _ => None
        end).

(** The text before an arrow that the model copied. *)
Definition strip_arrow (anchor_str : str) : str :=
  match split_once ARROW anchor_str with
  | Some (pre, _) => pre
  | None =>
      match split_once_str (lit "->") anchor_str with
      | Some (pre, _) => pre
      | None => anchor_str
      end
  end.

Definition malformed_error (anchor_str : str) : option HashlineEditError :=
  '(fmt, ex) ← anchor_format_hint;
  Some (plain_error InvalidInput
    (lit "Malformed anchor: " ++ quoted anchor_str ++ lit ". Expected format: " ++ quoted fmt
     ++ lit " (e.g. " ++ quoted ex ++ lit ").") (Some anchor_str)).

(** The [match] on the outcome of the shifted search. *)
Definition shift_report (parsed : ParsedAnchor) (anchors : list Anchor) (shift : ShiftResult)
  : option (option Z * option str * list Z * HashlineEditErrorKind * str) :=
  let stale_at := lit "Anchor stale at line " ++ fmt_Z (pa_line parsed) ++ lit ". " in
  match shift with
  | Found new_line =>
      a ← index anchors (new_line - 1);
      let fresh := fmt_Z new_line ++ [COLON] ++ anchor_suffix a in
      Some (Some new_line, Some fresh, [], AnchorStale,
            stale_at ++ lit "Content appears to have shifted to line " ++ fmt_Z new_line
            ++ lit ". Retry with anchor " ++ quoted fresh ++ lit ".")
  | Ambiguous candidates =>
      Some (None, None, candidates, AmbiguousAnchor,
            stale_at ++ lit "Multiple candidates at lines " ++ debug_list candidates
            ++ lit ". Use the fresh anchors from the context below to retry your edit.")
  | NotFound =>
      Some (None, None, [], AnchorStale,
            stale_at ++ lit "Use the fresh anchors from the context below to retry your edit.")
  end.

Definition anchored_row (anchors : list Anchor) (ls : list str) (i : Z) : option str :=
  a ← index anchors i;
  l ← index ls i;
  Some (render_anchored_line a l).

Definition RECOVERY_CTX : Z := 5.

Definition stale_error (anchor_str : str) (parsed : ParsedAnchor) (ls : list str)
  : option HashlineEditError :=
  shift ← find_shifted scheme parsed ls DEFAULT_SEARCH_RADIUS;
  anchors ← generate_anchors scheme ls;
  let ctx_start := saturating_sub (saturating_sub (pa_line parsed) 1) RECOVERY_CTX in
  let ctx_end := Z.min (wrap64 (pa_line parsed + RECOVERY_CTX)) (len ls) in
  rows ← mapM (anchored_row anchors ls) (seqZ ctx_start (ctx_end - ctx_start));
  let idx := saturating_sub (pa_line parsed) 1 in
  cur ← (if (idx <? len ls)%Z then Some <$> anchored_row anchors ls idx else Some None);
  '(to, fresh, cands, kind, m) ← shift_report parsed anchors shift;
  Some (mkError kind m (Some anchor_str) cur (Some (join [NL] rows)) (Some (ctx_start + 1)%Z)
          to fresh cands).

Definition out_of_range_error (anchor_str : str) (parsed : ParsedAnchor) (ls : list str)
  : HashlineEditError :=
  plain_error AnchorNotFound
    (lit "Line " ++ fmt_Z (pa_line parsed) ++ lit " is out of range (file has "
     ++ fmt_Z (len ls) ++ lit " lines).") (Some anchor_str).

Definition validate_anchor (anchor_str : str) (ls : list str)
  : option (result Z HashlineEditError) :=
  let anchor_str := strip_arrow anchor_str in
  recovered ← (match parse anchor_str with
               | Some p => Some (Some p)
               | None => recover_anchor_by_suffix anchor_str ls
               end);
  match recovered with
  | None => e ← malformed_error anchor_str; Some (Err e)
  | Some parsed =>
      r ← validate scheme parsed ls;
      match r with
      | Valid => Some (Ok (pa_line parsed - 1)%Z)
      | OutOfRange => Some (Err (out_of_range_error anchor_str parsed ls))
      | Stale => e ← stale_error anchor_str parsed ls; Some (Err e)
      end
  end.

(** *** Resolving *)

Definition end_before_start_error (e start : Z) (ea : str) : HashlineEditError :=
  plain_error InvalidInput
    (lit "end_anchor line " ++ fmt_Z (e + 1) ++ lit " is before start anchor line "
     ++ fmt_Z (start + 1) ++ lit ".") (Some ea).

(** The check on the content of an operation, before its lines are split. *)
Definition check_content (op_label content : str) : option (result unit HashlineEditError) :=
  match detect_anchor_prefix_in_content content with
  | Some line_num => e ← anchor_content_error op_label content line_num; Some (Err e)
  | None => Some (Ok tt)
  end.

Definition write_in_batch_error : HashlineEditError :=
  plain_error InvalidInput
    (lit "Write op must be the only operation in a batch. Either use write alone (to replace the entire file) or use replace/insert_after ops without write.") None.

(** The 0-based line before which an insertion goes. *)
Definition insert_position (anchor : str) (ls : list str)
  : option (result Z HashlineEditError) :=
  if str_eqb anchor (lit "0:") then Some (Ok 0%Z)
  else if str_eqb anchor (lit "EOF") then
    let n := len ls in
    if (1 <? n)%Z then
      last ← index ls (n - 1);
      Some (Ok (if is_empty last then n - 1 else n)%Z)
    else Some (Ok n)
  else let! l := validate_anchor anchor ls in Some (Ok (l + 1)%Z).

Definition resolve_op (op : HashlineOp) (idx : Z) (ls : list str)
  : option (result ResolvedOp HashlineEditError) :=
  match op with
  | Replace anchor end_anchor content =>
      let! start := validate_anchor anchor ls in
      let! end_ :=
        (match end_anchor with
         | Some ea =>
             let! e := validate_anchor ea ls in
             if (e <? start)%Z then Some (Err (end_before_start_error e start ea))
             else Some (Ok (e + 1)%Z)
         | None => Some (Ok (start + 1)%Z)
         end) in
      let! _ := check_content (lit "replace") content in
      Some (Ok (mkResolved idx start end_ (if is_empty content then [] else lines content)))
  | InsertAfter anchor content =>
      let! insert_at := insert_position anchor ls in
      let! _ := check_content (lit "insert_after") content in
      Some (Ok (mkResolved idx insert_at insert_at
                  (if is_empty content then [[]] else lines content)))
  | Write _ => Some (Err write_in_batch_error)
  end.

Definition op_label (op : HashlineOp) : str :=
  match op with
  | Replace _ _ _ => lit "replace"
  | InsertAfter _ _ => lit "insert_after"
  | Write _ => lit "write"
  end.

Definition with_message (e : HashlineEditError) (m : str) : HashlineEditError :=
  mkError (error e) m (requested_anchor e) (current e) (error_context e) (context_start_line e)
    (shifted_to e) (shifted_anchor e) (ambiguous_candidates e).

Definition batch_error (op : HashlineOp) (idx total : Z) (e : HashlineEditError)
  : HashlineEditError :=
  if (1 <? total)%Z then
    with_message e
      (lit "Edit " ++ fmt_Z (idx + 1) ++ lit "/" ++ fmt_Z total ++ lit " (" ++ op_label op
       ++ lit "): " ++ message e ++ [NL; NL] ++ lit "This batch contained " ++ fmt_Z total
       ++ lit " edits. Because this anchor failed validation, none of the edits were applied. Retry all "
       ++ fmt_Z total ++ lit " edits with fresh anchors, not just the failed one.")
  else e.

(** The loop of [apply_edits] that resolves every operation. *)
Fixpoint resolve_all (ops : list HashlineOp) (idx total : Z) (ls : list str)
  : option (result (list ResolvedOp) HashlineEditError) :=
  match ops with
  | [] => Some (Ok [])
  | op :: ops' =>
      r ← resolve_op op idx ls;
      match r with
      | Err e => Some (Err (batch_error op idx total e))
      | Ok r =>
          let! rest := resolve_all ops' (idx + 1) total ls in Some (Ok (r :: rest))
      end
  end.
End Edit.

(** ** Overlaps *)

Definition is_insertion (op : ResolvedOp) : bool := (start op =? end_ op)%Z.

Definition edit_desc (s e idx : Z) : str :=
  if (s =? e)%Z
  then lit "edit #" ++ fmt_Z (idx + 1) ++ lit " (insertion at line " ++ fmt_Z (s + 1) ++ lit ")"
  else lit "edit #" ++ fmt_Z (idx + 1) ++ lit " (lines " ++ fmt_Z (s + 1) ++ lit "-" ++ fmt_Z e
       ++ lit ")".
Definition overlap_error (a b : ResolvedOp) : HashlineEditError :=
  plain_error OverlappingEdits
    (lit "Overlapping edits: " ++ edit_desc (start a) (end_ a) (original_idx a) ++ lit " and "
     ++ edit_desc (start b) (end_ b) (original_idx b) ++ lit ".") None.

(** [ranges.windows(2)]; a range is the operation it comes from. *)
Fixpoint adjacent_overlap (ranges : list ResolvedOp) : option (ResolvedOp * ResolvedOp) :=
  match ranges with
  | a :: (b :: _) as ranges' =>
      if (start b <? end_ a)%Z then Some (a, b) else adjacent_overlap ranges'
  | _ => None
  end.

Fixpoint insertion_overlap (ranges ops : list ResolvedOp) : option (ResolvedOp * ResolvedOp) :=
  match ops with
  | [] => None
  | op :: ops' =>
      if negb (is_insertion op) then insertion_overlap ranges ops'
      else
        match List.find (λ r, (start r <=? start op) && (start op <? end_ r))%Z ranges with
        | Some r => Some (r, op)
        | None => insertion_overlap ranges ops'
        end
  end.

Definition sorted_ranges (ops : list ResolvedOp) : list ResolvedOp :=
  sort_by_key start (List.filter (λ op, negb (is_insertion op)) ops).

Definition check_overlaps (ops : list ResolvedOp) : option HashlineEditError :=
  let ranges := sorted_ranges ops in
  match adjacent_overlap ranges with
  | Some (a, b) => Some (overlap_error a b)
  | None =>
      match insertion_overlap ranges ops with
      | Some (r, op) => Some (overlap_error r op)
      | None => None
      end
  end.

(** ** Application *)

(** [a - b]; an underflow, which a debug build reports, is a panic here. *)
Definition usize_sub (a b : Z) : option Z := if (b <=? a)%Z then Some (a - b)%Z else None.

(** [v.splice(a..b, new)] *)
Definition splice {B} (l : list B) (a b : Z) (new : list B) : option (list B) :=
  if ((0 <=? a) && (a <=? b) && (b <=? len l))%Z
  then Some (take (Z.to_nat a) l ++ new ++ drop (Z.to_nat b) l) else None.

(** The comparison of the final sort, by decreasing start and index. *)
Definition bottom_up (a b : ResolvedOp) : bool :=
  ((start b <? start a) || ((start a =? start b) && (original_idx b <=? original_idx a)))%Z.

Definition inserted (op : ResolvedOp) : Z := len (new_lines op).
Definition replaced (op : ResolvedOp) : Z := (end_ op - start op)%Z.

(** The loop that records the regions, from the top down. *)
Fixpoint record_regions (ls : list str) (ops : list ResolvedOp) (cumulative_shift : Z)
  : option (list (Z * Z) * list EditRegionDetail) :=
  match ops with
  | [] => Some ([], [])
  | op :: ops' =>
      let shifted_start := wrap64 (start op + cumulative_shift) in
      let shifted_end := (shifted_start + inserted op)%Z in
      old ← (if (start op <? end_ op)%Z then join [NL] <$> slice ls (start op) (end_ op)
             else Some []);
      '(regions, details) ← record_regions ls ops' (cumulative_shift + inserted op - replaced op);
      Some ((shifted_start, shifted_end) :: regions,
            mkDetail (start op + 1) old (shifted_start + 1) (join [NL] (new_lines op)) :: details)
  end.

Fixpoint splice_all (result_lines : list str) (ops : list ResolvedOp) : option (list str) :=
  match ops with
  | [] => Some result_lines
  | op :: ops' =>
      result_lines ← splice result_lines (start op) (end_ op) (new_lines op);
      splice_all result_lines ops'
  end.

Definition overlap_in_batch (err : HashlineEditError) (total : Z) : HashlineEditError :=
  if (1 <? total)%Z then
    with_message err
      (message err ++ [NL; NL] ++ lit "This batch contained " ++ fmt_Z total
       ++ lit " edits. Because of the overlap, none were applied. Fix the overlapping ranges and retry all edits.")
  else err.

Section Apply.
Context {A : Type} `{AnchorScheme A} (scheme : A).

(** The regions with their context, the overlapping and adjacent ones merged;
    [last] is the region being extended. *)
Fixpoint merge_regions (regions : list (Z * Z)) (total : Z) (last : option (Z * Z))
  : list (Z * Z) :=
  match regions with
  | [] => match last with Some r => [r] | None => [] end
  | (s, e) :: regions' =>
      let ctx_start := saturating_sub s SNIPPET_CONTEXT in
      let ctx_end := Z.min (e + SNIPPET_CONTEXT) total in
      match last with
      | Some (ls, le) =>
          if (ctx_start <=? le)%Z then merge_regions regions' total (Some (ls, Z.max le ctx_end))
          else (ls, le) :: merge_regions regions' total (Some (ctx_start, ctx_end))
      | None => merge_regions regions' total (Some (ctx_start, ctx_end))
      end
  end.

Definition gap_marker (n : Z) : str := lit "... " ++ fmt_Z n ++ lit " lines not shown ...".

Fixpoint region_parts (content : str) (merged : list (Z * Z)) (first : bool) (prev_end : Z)
  : option (list str * Z) :=
  match merged with
  | [] => Some ([], prev_end)
  | (s, e) :: merged' =>
      let gap :=
        if negb first then [gap_marker (saturating_sub s prev_end)]
        else if (0 <? s)%Z then [gap_marker s] else [] in
      n ← usize_sub e s;
      '(region_snippet, _) ← format_hashline_content scheme content (Some (s + 1)%Z) (Some n);
      '(parts, last_end) ← region_parts content merged' false e;
      Some (gap ++ region_snippet :: parts, last_end)
  end.

Definition build_snippet (content : str) (edit_regions : list (Z * Z)) (total_new_lines : Z)
  : option str :=
  match edit_regions with
  | [] => Some []
  | (first_start, first_end) :: rest =>
      let '(_, last_end) := List.last rest (first_start, first_end) in
      let global_start := saturating_sub first_start SNIPPET_CONTEXT in
      let global_end := Z.min (last_end + SNIPPET_CONTEXT) total_new_lines in
      span ← usize_sub global_end global_start;
      if (span <=? MAX_CONTIGUOUS_SNIPPET)%Z then
        '(s, _) ← format_hashline_content scheme content (Some (global_start + 1)%Z) (Some span);
        Some s
      else
        '(parts, prev_end) ←
          region_parts content (merge_regions edit_regions total_new_lines None) true 0;
        let parts :=
          if (prev_end <? total_new_lines)%Z then parts ++ [gap_marker (total_new_lines - prev_end)]
          else parts in
        Some (join [NL] parts)
  end.

Definition build_write_result (content file_path : str) : option HashlineEditOutput :=
  let total := len (split_lines content) in
  let snippet_end := Z.min (SNIPPET_CONTEXT * 2) total in
  '(s, _) ← format_hashline_content scheme content (Some 1%Z) (Some snippet_end);
  Some (EditsApplied (mkApplied 1 (name scheme) 1 s file_path [])).

(** What follows the overlap check: the operations are all applied. *)
Definition apply_resolved (ls : list str) (total_ops : Z) (file_path : str)
    (resolved : list ResolvedOp) : option ApplyResult :=
  let warnings := omap (λ op, range_warning (start op) (end_ op)) resolved in
  let resolved := sort_by bottom_up resolved in
  '(edit_regions, edit_details) ← record_regions ls (rev resolved) 0;
  result_lines ← splice_all ls resolved;
  let new_content := join [NL] result_lines in
  let total_new_lines := len (split_lines new_content) in
  let edit_regions := sort_by_key fst edit_regions in
  snippet ← build_snippet new_content edit_regions total_new_lines;
  let snippet_start_line :=
    match edit_regions with
    | (s, _) :: _ => (saturating_sub s SNIPPET_CONTEXT + 1)%Z
    | [] => 1%Z
    end in
  Some (mkApplyResult
          (EditsApplied (mkApplied total_ops (name scheme) snippet_start_line snippet file_path
                           warnings))
          (Some new_content) edit_details).

Definition apply_write (content file_path : str) : option ApplyResult :=
  match detect_anchor_prefix_in_content content with
  | Some line_num =>
      e ← anchor_content_error (lit "write") content line_num;
      Some (failed e)
  | None =>
      out ← build_write_result content file_path;
      Some (mkApplyResult out (Some content) [])
  end.

Definition apply_batch (content : str) (ops : list HashlineOp) (file_path : str)
  : option ApplyResult :=
  let ls := split_lines content in
  r ← resolve_all scheme ops 0 (len ops) ls;
  match r with
  | Err e => Some (failed e)
  | Ok resolved =>
      match check_overlaps resolved with
      | Some err => Some (failed (overlap_in_batch err (len ops)))
      | None => apply_resolved ls (len ops) file_path resolved
      end
  end.

Definition apply_edits (content : str) (ops : list HashlineOp) (file_path : str)
  : option ApplyResult :=
  match ops with
  | [Write new_content] => apply_write new_content file_path
  | _ => apply_batch content ops file_path
  end.
End Apply.

(** ** Examples *)

Definition demo_file : str := lit "alpha
beta
gamma
".
Definition demo_edits (ops : list HashlineOp) : option (result str str) :=
  r ← apply_edits chunk_new demo_file ops (lit "/f");
  match output r, new_content r with
  | EditsApplied _, Some c => Some (Ok c)
  | Error e, _ => Some (Err (message e))
  | _, None => None
  end.

Example a_batch :
  demo_edits [InsertAfter (lit "0:") (lit "A"); InsertAfter (lit "0:") (lit "B");
              Replace (lit "2:fqb:zjt") (Some (lit "omp:zjt")) (lit "X
Y
Z"); InsertAfter (lit "EOF") (lit "end")]
  = Some (Ok (lit "A
B
alpha
X
Y
Z
end
")).
Proof. by vm_compute. Qed.

Example a_shifted_anchor :
  demo_edits [Replace (lit "1:fqb:zjt") None []]
  = Some (Err (lit "Anchor stale at line 1. Content appears to have shifted to line 2. Retry with anchor "
               ++ quoted (lit "2:fqb:zjt") ++ lit ".")).
Proof. by vm_compute. Qed.
