(* ===== verification/HashlineApplyFacts.v ===== *)
(** * What a batch of hashline edits does to the lines

    The lines of a content, and, against the contract of a scheme: reading and
    validating anchors never panics, and where a validated anchor points.  Then a
    reference definition that builds the new lines position by position,
    independent of the order in which the code splices, and the proof that the
    bottom-up splices compute it; the overlap check accepts exactly the batches
    whose operations are pairwise compatible. *)
From S2P Require Import Prelude RustStr StrSearch HashlineScheme HashlineSchemeFacts HashlineEdit.

(** ** Lines *)

Lemma ends_with_char s c : ends_with s [c] = true ↔ last s = Some c.
Proof.
  unfold ends_with. rewrite <- head_rev. change (rev [c]) with [c].
  unfold starts_with. destruct (rev s) as [|x r]; cbn; [done|].
  destruct (Z.eqb_spec c x) as [->|]; naive_solver.
Qed.

Lemma split_lines_shape c :
  ∃ ls l, split NL c = ls ++ [l] ∧ split_lines c = map (strip_suffix_char CR) ls ++ [l].
Proof.
  destruct (split_snoc NL c) as (ls & l & E). exists ls, l. split; [done|].
  unfold split_lines, lines. destruct (is_empty c) eqn:Ec.
  - destruct c; [|done]. cbn in E. by destruct ls as [|? [|]]; simplify_list_eq.
  - rewrite E, lines_of_snoc. destruct (ends_with c [NL]) eqn:En.
    + apply ends_with_char, last_split_inv in En. rewrite E, last_snoc in En.
      injection En as ->. by rewrite app_nil_r.
    + destruct l as [|x l]; [|done]. exfalso.
      destruct (last_split NL c) as [->|Hl]; [by rewrite E, last_snoc|done|].
      apply ends_with_char in Hl. congruence.
Qed.

Lemma split_lines_length c : length (split_lines c) = length (split NL c).
Proof.
  destruct (split_lines_shape c) as (ls & l & -> & ->).
  by rewrite !length_app, length_map.
Qed.

Lemma split_lines_pos c : (1 ≤ len (split_lines c))%Z.
Proof.
  destruct (split_lines_shape c) as (ls & l & _ & ->). unfold len. rewrite length_app. cbn. lia.
Qed.

Lemma split_lines_no_sep c : Forall (λ l, NL ∉ l) (split_lines c).
Proof.
  pose proof (split_no_sep_elem NL c) as H.
  destruct (split_lines_shape c) as (ls & l & E & ->). rewrite E in H.
  apply Forall_app in H as [H Hl]. apply Forall_app. split; [|done].
  apply Forall_map. eapply Forall_impl; [exact H|]. intros x Hx Hin. apply Hx.
  by eapply strip_suffix_incl.
Qed.

(** The lines of a joined text are as many as those that were joined. *)
Lemma split_lines_join ls :
  Forall (λ l, NL ∉ l) ls → len (split_lines (join [NL] ls)) = Z.max 1 (len ls).
Proof.
  intros Hf. unfold len. rewrite split_lines_length. destruct ls as [|l ls]; [done|].
  rewrite split_join by done. cbn. lia.
Qed.

(** ** Reading *)

Lemma mapM_total {B C} (f : B → option C) (l : list B) :
  (∀ x, x ∈ l → is_Some (f x)) → is_Some (mapM f l).
Proof. intros H. apply mapM_is_Some_2. by apply Forall_forall. Qed.

Definition row (n : Z) (a : Anchor) (l : str) : str :=
  fmt_Z n ++ [COLON] ++ anchor_suffix a ++ [ARROW] ++ l.

Lemma render_row a l : row (line a) a l = render a ++ ARROW :: l.
Proof.
  unfold row, render, anchor_suffix. by destruct (context a); rewrite <- !app_assoc.
Qed.

Lemma wf_no_char c a : (c < 48 ∨ 58 < c < 97 ∨ 122 < c)%Z → wf_parsed (as_parsed a) → c ∉ render a.
Proof.
  unfold wf_parsed, as_parsed. cbn [pa_line pa_local pa_context]. intros Hc (Hn & [_ Hl] & Hx).
  assert (Hlow : ∀ s, Forall (λ c, 97 ≤ c ≤ 122)%Z s → c ∉ s).
  { intros s Hs Hin. rewrite Forall_forall in Hs. apply Hs in Hin. lia. }
  assert (Hf : c ∉ fmt_Z (line a)) by (apply digits_no_char; lia).
  unfold render. destruct (context a) as [x|]; rewrite !not_elem_of_app, ?not_elem_of_cons;
    split_and!; try done; try (by apply Hlow); try apply not_elem_of_nil; try (unfold COLON; lia).
  apply Hlow, Hx.
Qed.

(** The text that a reader copies, with or without the content of the line. *)
Lemma strip_arrow_render a l :
  wf_parsed (as_parsed a) →
  strip_arrow (render a) = render a ∧ strip_arrow (render a ++ ARROW :: l) = render a.
Proof.
  intros Hw. pose proof (wf_no_char ARROW a ltac:(unfold ARROW; lia) Hw) as Ha.
  pose proof (wf_no_char 45 a ltac:(lia) Hw) as Hd. unfold strip_arrow. split.
  - rewrite split_once_none by done. unfold split_once_str.
    by rewrite (find_str_none (render a) (lit "->") 45%Z).
  - by rewrite split_once_app.
Qed.

Lemma parse_digits_range hi : ∀ s acc z,
  (0 ≤ acc ≤ hi)%Z → parse_digits hi acc s = Some z → (0 ≤ z ≤ hi)%Z.
Proof.
  induction s as [|c s IH]; cbn [parse_digits]; intros acc z Ha; [by intros [= <-]|].
  unfold digit_of. destruct (in_range 48 57 c) eqn:Hc; cbn [mbind option_bind]; [|done].
  destruct (Z.leb_spec (acc * 10 + (c - 48)) hi); [|done]. apply IH.
  unfold in_range in Hc. lia.
Qed.

Lemma parse_unsigned_range hi s z : (0 ≤ hi)%Z → parse_unsigned hi s = Some z → (0 ≤ z ≤ hi)%Z.
Proof.
  intros Hh. destruct s as [|c s]; [done|]. destruct (decide (c = 43)%Z) as [->|Hc].
  - destruct s; [done|]. apply parse_digits_range. lia.
  - rewrite parse_unsigned_digits by done. apply parse_digits_range. lia.
Qed.

Lemma parse_line s p : parse s = Some p → (1 ≤ pa_line p ≤ U64_MAX)%Z.
Proof.
  unfold parse. intros H. apply bind_Some in H as ([l r] & _ & H).
  set (x := match split_once COLON r with Some (a, b) => (a, Some b) | None => (r, None) end) in H.
  destruct x as [loc ctx]. destruct (is_empty l || is_empty loc); [done|].
  apply bind_Some in H as (n & Hn & H). apply parse_unsigned_range in Hn; [|done].
  destruct (Z.eqb_spec n 0); [done|]. destruct (negb (all_lowercase loc)); [done|].
  destruct ctx as [c|]; [destruct (is_empty c || _); [done|]|]; injection H as <-; cbn; lia.
Qed.

Lemma first_prefixed_some ls : ∀ i n,
  first_prefixed ls i = Some n → (i < n ≤ i + len ls)%Z.
Proof.
  induction ls as [|l ls IH]; cbn [first_prefixed]; intros i n; [done|]. unfold len in *.
  cbn [length]. destruct (line_has_anchor_prefix l); [intros [= <-]; lia|].
  intros Hn%IH. lia.
Qed.

Lemma anchor_content_error_total lbl content n : is_Some (anchor_content_error lbl content n).
Proof.
  unfold anchor_content_error.
  edestruct (mapM_total (B := Z) (C := str)) as [parts ->]; [|by eexists]. intros i Hi.
  apply elem_of_seqZ in Hi. unfold saturating_sub in Hi.
  destruct (index_lt (lines content) i) as [l ->]; [lia|]. by eexists.
Qed.

Lemma check_content_total lbl content : is_Some (check_content lbl content).
Proof.
  unfold check_content. destruct (detect_anchor_prefix_in_content content) as [n|]; [|by eexists].
  destruct (anchor_content_error_total lbl content n) as [e ->]. by eexists.
Qed.

Section Facts.
Context {A : Type} `{LawfulScheme A} (s : A) (Hok : scheme_ok s).

(** The anchor of line [i] of [ls]. *)
Definition the_anchor (ls : list str) (i : nat) (l : str) : Anchor :=
  mkAnchor (Z.of_nat i + 1) (hash_letters (line_hash l) (hash_len s)) (line_context s ls i).

Definition the_anchors (ls : list str) : list Anchor := imap (the_anchor ls) ls.

Lemma anchors_eq ls : fits ls → generate_anchors s ls = Some (the_anchors ls).
Proof. intros Hf. by apply lawful_generate. Qed.

Lemma the_anchor_at ls (i : nat) l :
  ls !! i = Some l → the_anchors ls !! i = Some (the_anchor ls i l).
Proof. intros Hi. unfold the_anchors. by rewrite list_lookup_imap, Hi. Qed.

Lemma index_anchor ls i l :
  index ls i = Some l → index (the_anchors ls) i = Some (the_anchor ls (Z.to_nat i) l).
Proof.
  intros [Hi Hl]%index_Some. apply index_Some. split; [done|]. by apply the_anchor_at.
Qed.

Lemma the_anchor_wf ls (i : nat) l :
  fits ls → ls !! i = Some l → wf_parsed (as_parsed (the_anchor ls i l)).
Proof.
  intros Hf Hi. unfold wf_parsed, the_anchor, as_parsed.
  cbn [pa_line pa_local pa_context line local context]. split_and!.
  - lia.
  - apply lookup_lt_Some in Hi. unfold fits, len, I64_MAX, U64_MAX in *. lia.
  - apply hash_letters_lowercase, lawful_hash_len, Hok.
  - destruct (line_context s ls i) as [c|] eqn:Ec; [|done]. by eapply lawful_context.
Qed.

Lemma the_anchor_valid ls (i : nat) l :
  fits ls → ls !! i = Some l → validate s (as_parsed (the_anchor ls i l)) ls = Some Valid.
Proof.
  intros Hf Hi. rewrite lawful_validate; [|done|done|cbn; lia].
  cbn [pa_line as_parsed the_anchor line local context pa_local pa_context].
  replace (Z.to_nat (Z.of_nat i + 1 - 1)) with i by lia. rewrite Hi.
  rewrite if_true; [done|]. split; [done|by right].
Qed.

(** An anchor that validates points into the file, at a line of its hash. *)
Lemma validate_inv p ls r :
  fits ls → (1 ≤ pa_line p)%Z → validate s p ls = Some r →
  match r with
  | OutOfRange => (len ls < pa_line p)%Z
  | Stale => (pa_line p ≤ len ls)%Z
  | Valid => (pa_line p ≤ len ls)%Z ∧
      ∃ l, ls !! Z.to_nat (pa_line p - 1) = Some l ∧
           pa_local p = hash_letters (line_hash l) (hash_len s) ∧
           (line_context s ls (Z.to_nat (pa_line p - 1)) = None ∨
            pa_context p = line_context s ls (Z.to_nat (pa_line p - 1)))
  end.
Proof.
  intros Hf Hp. rewrite lawful_validate by done. unfold len.
  destruct (ls !! Z.to_nat (pa_line p - 1)) as [l|] eqn:El.
  - apply lookup_lt_Some in El as Hlt. case_bool_decide as Hb; intros [= <-]; [|lia].
    split; [lia|]. eauto.
  - intros [= <-]. apply lookup_ge_None in El. lia.
Qed.

Lemma validate_total p ls : fits ls → (1 ≤ pa_line p)%Z → is_Some (validate s p ls).
Proof. intros Hf Hp. rewrite lawful_validate by done. eauto. Qed.

(** ** Shifted anchors *)

(** Whether the search takes line [n] for the line of [p]. *)
Definition accepts (p : ParsedAnchor) (ls : list str) (n : Z) : bool :=
  match index ls (n - 1) with
  | Some l => str_eqb (hash_letters (line_hash l) (hash_len s)) (pa_local p)
  | None => false
  end
  && match pa_context p with
     | Some _ => bool_decide (validate s (mkParsed n (pa_local p) (pa_context p)) ls = Some Valid)
     | None => true
     end.

(** The lines within the radius that the search takes, in order. *)
Definition candidates_near (p : ParsedAnchor) (ls : list str) (r : Z) : list Z :=
  let lo := Z.max 1 (pa_line p - r) in
  let hi := Z.min (pa_line p + r) (len ls) in
  List.filter (λ n, negb (n =? pa_line p)%Z && accepts p ls n) (seqZ lo (hi - lo + 1)).

Lemma shift_candidates_eq p ls orig : ∀ idxs,
  fits ls → orig = (pa_line p - 1)%Z → (∀ i, i ∈ idxs → 0 ≤ i < len ls)%Z →
  shift_candidates (validate s) (hash_len s) orig p ls idxs
  = Some (List.filter (λ n, negb (n =? pa_line p)%Z && accepts p ls n) (map (Z.add 1) idxs)).
Proof.
  intros idxs Hf ->. induction idxs as [|i idxs IH]; intros Hin; [done|].
  cbn [shift_candidates map List.filter].
  specialize (IH (λ j Hj, Hin j (list_elem_of_further _ _ _ Hj))).
  destruct (Hin i (list_elem_of_here _ _)) as [Hi0 Hi].
  replace (1 + i =? pa_line p)%Z with (i =? pa_line p - 1)%Z
    by (destruct (Z.eqb_spec i (pa_line p - 1)), (Z.eqb_spec (1 + i) (pa_line p)); lia).
  destruct (i =? pa_line p - 1)%Z; cbn [negb andb]; [exact IH|].
  destruct (index_lt ls i ltac:(lia)) as [l Hl]. rewrite Hl. cbn [mbind option_bind].
  rewrite encode_hash_good by (by apply lawful_hash_len). cbn [mbind option_bind].
  unfold accepts at 1. replace (1 + i - 1)%Z with i by lia. rewrite Hl.
  destruct (str_eqb (hash_letters (line_hash l) (hash_len s)) (pa_local p)) eqn:E;
    cbn [negb andb]; [|exact IH].
  apply str_eqb_eq in E. replace (1 + i)%Z with (i + 1)%Z by lia.
  destruct (pa_context p) as [c|]; cbn [mbind option_bind].
  - rewrite E. destruct (validate_total (mkParsed (i + 1) (pa_local p) (Some c)) ls Hf) as [r Hr];
      [cbn; lia|]. rewrite Hr. cbn [mbind option_bind].
    destruct (decide (r = Valid)) as [->|Hn].
    + rewrite !bool_decide_eq_true_2 by done. rewrite IH. done.
    + rewrite !bool_decide_eq_false_2 by congruence. exact IH.
  - rewrite bool_decide_eq_true_2 by done. rewrite IH. done.
Qed.

Lemma map_seqZ_succ a n : map (Z.add 1) (seqZ a n) = seqZ (a + 1) n.
Proof.
  change (map (Z.add 1) (seqZ a n)) with (Z.add 1 <$> seqZ a n). rewrite fmap_add_seqZ.
  f_equal. lia.
Qed.

Lemma find_shifted_eq p ls r :
  fits ls → (1 ≤ pa_line p ≤ len ls)%Z → (0 ≤ r ≤ I64_MAX)%Z →
  find_shifted s p ls r
  = Some (match candidates_near p ls r with
          | [] => NotFound
          | [c] => Found c
          | cs => Ambiguous cs
          end).
Proof.
  intros Hf Hp Hr. rewrite lawful_find. unfold find_shifted_generic.
  assert (Ho : saturating_sub (pa_line p) 1 = (pa_line p - 1)%Z) by (unfold saturating_sub; lia).
  rewrite Ho. replace (pa_line p - 1 + r + 1)%Z with (pa_line p + r)%Z by lia.
  rewrite wrap64_fits by (unfold fits, I64_MAX, U64_MAX in *; lia).
  rewrite shift_candidates_eq; [|done|done|].
  - cbn [mbind option_bind]. do 2 f_equal. rewrite map_seqZ_succ. unfold candidates_near.
    set (lo := saturating_sub (pa_line p - 1) r).
    assert (lo + 1 = Z.max 1 (pa_line p - r))%Z as <- by (unfold lo, saturating_sub; lia).
    replace (Z.min (pa_line p + r) (len ls) - (lo + 1) + 1)%Z
      with (Z.min (pa_line p + r) (len ls) - lo)%Z by lia.
    by destruct (List.filter _ _) as [|? [|]].
  - intros i Hi. apply elem_of_seqZ in Hi. unfold saturating_sub in Hi. lia.
Qed.

Lemma candidates_near_elem p ls r n :
  (1 ≤ pa_line p ≤ len ls)%Z → (0 ≤ r)%Z →
  n ∈ candidates_near p ls r ↔
  (n ≠ pa_line p ∧ 1 ≤ n ≤ len ls ∧ pa_line p - r ≤ n ≤ pa_line p + r)%Z ∧ accepts p ls n = true.
Proof.
  intros Hp Hr. unfold candidates_near. rewrite list_elem_of_In, filter_In, <- list_elem_of_In.
  rewrite elem_of_seqZ, andb_true_iff, negb_true_iff, Z.eqb_neq. intuition lia.
Qed.

(** ** Validation of anchors *)

Lemma the_anchors_elem ls a :
  a ∈ the_anchors ls → ∃ i l, ls !! i = Some l ∧ a = the_anchor ls i l.
Proof.
  intros [i Hi]%list_elem_of_lookup. unfold the_anchors in Hi. rewrite list_lookup_imap in Hi.
  destruct (ls !! i) as [l|] eqn:E; [|done]. injection Hi as <-. eauto.
Qed.

Lemma anchored_row_at ls i l :
  index ls i = Some l →
  anchored_row (the_anchors ls) ls i
  = Some (render (the_anchor ls (Z.to_nat i) l) ++ ARROW :: l).
Proof.
  intros Hl. unfold anchored_row. rewrite (index_anchor ls i l Hl), Hl. cbn [mbind option_bind].
  by rewrite <- render_row.
Qed.

(** Both the anchor and the row it is shown in lead back to the line. *)
Lemma validate_anchor_fresh ls i l rest :
  fits ls → ls !! i = Some l →
  validate_anchor s (render (the_anchor ls i l)) ls = Some (Ok (Z.of_nat i)) ∧
  validate_anchor s (render (the_anchor ls i l) ++ ARROW :: rest) ls = Some (Ok (Z.of_nat i)).
Proof.
  intros Hf Hi. pose proof (the_anchor_wf ls i l Hf Hi) as Hw.
  destruct (strip_arrow_render _ rest Hw) as [E1 E2].
  assert (E : parse (render (the_anchor ls i l)) = Some (as_parsed (the_anchor ls i l))).
  { rewrite render_as_parsed. by apply parse_parsed_render. }
  assert (En : (pa_line (as_parsed (the_anchor ls i l)) - 1)%Z = Z.of_nat i) by (cbn; lia).
  unfold validate_anchor. rewrite E1, E2, E. cbn [mbind option_bind].
  rewrite the_anchor_valid by done. cbn [mbind option_bind]. by rewrite En.
Qed.

Lemma recover_spec suffix ls :
  fits ls →
  ∃ r, recover_anchor_by_suffix s suffix ls = Some r ∧
    ∀ p, r = Some p → ∃ i l, ls !! i = Some l ∧ p = as_parsed (the_anchor ls i l).
Proof.
  intros Hf. unfold recover_anchor_by_suffix. rewrite anchors_eq by done.
  cbn [mbind option_bind]. eexists. split; [done|]. intros p.
  destruct (List.filter _ _) as [|a [|]] eqn:E; [done| |done]. intros [= <-].
  assert (Ha : a ∈ the_anchors ls).
  { assert (In a (List.filter (suffix_matches suffix) (the_anchors ls))) by (rewrite E; by left).
    apply filter_In in H1 as [? _]. by apply list_elem_of_In. }
  apply the_anchors_elem in Ha as (i & l & Hi & ->). by exists i, l.
Qed.

Lemma malformed_total x : is_Some (malformed_error s x).
Proof.
  unfold malformed_error, anchor_format_hint. rewrite anchors_eq by (vm_compute; discriminate).
  cbn [mbind option_bind]. destruct (the_anchors [lit "x"]) as [|a ?]; [by eexists|].
  destruct (context a); by eexists.
Qed.

Lemma shift_report_total p ls r :
  fits ls → (1 ≤ pa_line p ≤ len ls)%Z → (0 ≤ r ≤ I64_MAX)%Z →
  ∃ sh rep, find_shifted s p ls r = Some sh ∧ shift_report p (the_anchors ls) sh = Some rep.
Proof.
  intros Hf Hp Hr. rewrite find_shifted_eq by done.
  assert (Hc : ∀ n, n ∈ candidates_near p ls r → (1 ≤ n ≤ len ls)%Z).
  { intros n Hn. apply candidates_near_elem in Hn; [tauto|lia..]. }
  destruct (candidates_near p ls r) as [|n [|]]; [by repeat eexists| |by repeat eexists].
  specialize (Hc n (list_elem_of_here _ _)).
  destruct (index_lt ls (n - 1)) as [l Hl]; [lia|]. exists (Found n). cbn [shift_report].
  rewrite (index_anchor _ _ _ Hl). by eexists.
Qed.

Lemma stale_error_total x p ls :
  fits ls → (1 ≤ pa_line p ≤ len ls)%Z → is_Some (stale_error s x p ls).
Proof.
  intros Hf Hp. unfold stale_error.
  destruct (shift_report_total p ls DEFAULT_SEARCH_RADIUS Hf Hp) as (sh & rep & -> & Hrep);
    [unfold DEFAULT_SEARCH_RADIUS, I64_MAX; lia|]. cbn [mbind option_bind].
  rewrite anchors_eq by done. cbn [mbind option_bind].
  edestruct (mapM_total (B := Z) (C := str)) as [rows ->].
  { intros i Hi. apply elem_of_seqZ in Hi. unfold saturating_sub in Hi.
    destruct (index_lt ls i) as [l Hl]; [lia|]. rewrite (anchored_row_at ls i l Hl). by eexists. }
  cbn [mbind option_bind].
  replace (saturating_sub (pa_line p) 1) with (pa_line p - 1)%Z by (unfold saturating_sub; lia).
  destruct (index_lt ls (pa_line p - 1)) as [l Hl]; [lia|].
  replace (pa_line p - 1 <? len ls)%Z with true by lia. rewrite (anchored_row_at _ _ _ Hl).
  cbn [mbind option_bind fmap option_fmap option_map]. rewrite Hrep.
  destruct rep as [[[[to fresh] cands] kind] m]. by eexists.
Qed.

(** No anchor makes the tool panic, and an accepted one is in the file. *)
Lemma validate_anchor_total x ls :
  fits ls →
  ∃ r, validate_anchor s x ls = Some r ∧ ∀ i, r = Ok i → (0 ≤ i < len ls)%Z.
Proof.
  intros Hf. unfold validate_anchor. set (x' := strip_arrow x).
  assert (Hp : ∃ r, match parse x' with
                    | Some p => Some (Some p) | None => recover_anchor_by_suffix s x' ls end = Some r
                    ∧ ∀ p, r = Some p → (1 ≤ pa_line p)%Z).
  { destruct (parse x') as [p|] eqn:Ep.
    - eexists. split; [done|]. intros q [= <-]. apply parse_line in Ep. lia.
    - destruct (recover_spec x' ls Hf) as (r & -> & Hr). eexists. split; [done|]. intros p Hq.
      destruct (Hr p Hq) as (i & l & _ & ->). cbn. lia. }
  destruct Hp as (r & -> & Hp). cbn [mbind option_bind]. destruct r as [p|].
  - specialize (Hp p eq_refl). destruct (validate_total p ls Hf Hp) as [v Hv]. rewrite Hv.
    apply validate_inv in Hv; [|done..]. cbn [mbind option_bind]. destruct v.
    + eexists. split; [done|]. intros i [= <-]. lia.
    + destruct (stale_error_total x' p ls Hf ltac:(lia)) as [e ->]. eexists. by split.
    + eexists. by split.
  - destruct (malformed_total x') as [e ->]. eexists. by split.
Qed.

(** ** Formatting *)

Definition window {B} (l : list B) (offset limit : option Z) : list (Z * B) :=
  take (Z.to_nat (Z.min (default U64_MAX limit) (len l)))
    (drop (Z.to_nat (Z.min (saturating_sub (default 1%Z offset) 1) (len l))) (enumerate l)).

(** Every row is the anchor of its line, an arrow and the line. *)
Lemma format_eq content offset limit :
  fits (split_lines content) →
  format_hashline_content s content offset limit
  = Some (join [NL] (map (λ e, render (the_anchor (split_lines content) (Z.to_nat e.1) e.2)
                                 ++ ARROW :: e.2) (window (split_lines content) offset limit)),
          join [NL] (map snd (window (split_lines content) offset limit))).
Proof.
  intros Hf. unfold format_hashline_content. rewrite anchors_eq by done. cbn [mbind option_bind].
  set (ls := split_lines content). fold (window ls offset limit).
  rewrite (mapM_pointwise _ (window ls offset limit)
             (map (λ e, render (the_anchor ls (Z.to_nat e.1) e.2) ++ ARROW :: e.2)
                (window ls offset limit))); [done|by rewrite length_map|].
  intros k [i l] y Hk Hy. rewrite list_lookup_fmap, Hk in Hy. injection Hy as <-.
  assert (Hi : index ls i = Some l).
  { unfold window in Hk. apply lookup_take_Some in Hk as [Hk _]. rewrite lookup_drop in Hk.
    rewrite enumerate_lookup in Hk. apply fmap_Some in Hk as (x & Hx & [= -> ->]).
    by rewrite index_nat. }
  rewrite (index_anchor ls i l Hi). cbn [mbind option_bind fst snd]. f_equal.
  rewrite <- render_row. unfold row. do 2 f_equal.
  apply index_Some in Hi as [Hi _]. cbn [line the_anchor]. by rewrite Z2Nat.id.
Qed.
End Facts.

#[global] Instance resolved_op_eq_dec : EqDecision ResolvedOp.
Proof. solve_decision. Defined.

(** ** The reference *)

(** The lines inserted before position [p], in the order of [ops]. *)
Definition inserted_at (ops : list ResolvedOp) (p : Z) : list str :=
  concat (map new_lines (List.filter (λ op, is_insertion op && (start op =? p)%Z) ops)).

Definition covers (i : Z) (op : ResolvedOp) : bool :=
  negb (is_insertion op) && ((start op <=? i) && (i <? end_ op))%Z.

(** What becomes of line [i]: the first line of a replaced range gives the new
    lines, the others nothing. *)
Definition rewritten (ops : list ResolvedOp) (i : Z) (l : str) : list str :=
  match List.find (covers i) ops with
  | None => [l]
  | Some op => if (start op =? i)%Z then new_lines op else []
  end.

Fixpoint edit_from (ops : list ResolvedOp) (p : Z) (ls : list str) : list str :=
  match ls with
  | [] => inserted_at ops p
  | l :: ls' => inserted_at ops p ++ rewritten ops p l ++ edit_from ops (p + 1) ls'
  end.
Definition reference_edit (ops : list ResolvedOp) (ls : list str) : list str := edit_from ops 0 ls.

(** Two operations of a batch do not touch the same lines. *)
Definition compatible (a b : ResolvedOp) : Prop :=
  if is_insertion a then
    if is_insertion b then True else ¬ (start b ≤ start a < end_ b)%Z
  else
    if is_insertion b then ¬ (start a ≤ start b < end_ a)%Z
    else (end_ a ≤ start b ∨ end_ b ≤ start a)%Z.

Record good_op (n : Z) (op : ResolvedOp) : Prop := {
  good_start : (0 ≤ start op ≤ end_ op)%Z;
  good_end : (end_ op ≤ n)%Z;
  good_text : Forall (λ l, NL ∉ l) (new_lines op);
}.

(** ** Pairs of a list *)

Lemma pairs_perm {A} (R : A → A → Prop) (l l' : list A) :
  (∀ a b, R a b → R b a) → l ≡ₚ l' → StronglySorted R l → StronglySorted R l'.
Proof.
  intros Hsym. induction 1 as [|x l l' Hp IH|x y l|l l' l'' _ IH1 _ IH2]; intros Hs; try by auto.
  - inversion_clear Hs. constructor; [auto|]. by rewrite <- Hp.
  - inversion_clear Hs as [|? ? Hs' Hy]. inversion_clear Hs' as [|? ? Hs'' Hx].
    inversion_clear Hy. constructor; [by constructor|]. constructor; auto.
Qed.

Lemma pairs_elem {A} `{EqDecision A} (R : A → A → Prop) (l : list A) a b :
  (∀ a b, R a b → R b a) → StronglySorted R l → a ∈ l → b ∈ l → a ≠ b → R a b.
Proof.
  intros Hsym. induction 1 as [|x l Hs IH Hx]; [by intros ?%elem_of_nil|].
  rewrite Forall_forall in Hx. intros [->|Ha]%elem_of_cons [->|Hb]%elem_of_cons Hne; auto. done.
Qed.

Lemma pairs_conj {A} (P : A → Prop) (R1 R2 R3 : A → A → Prop) (l : list A) :
  (∀ a b, P a → P b → R1 a b → R2 a b → R3 a b) →
  Forall P l → StronglySorted R1 l → StronglySorted R2 l → StronglySorted R3 l.
Proof.
  intros HR. induction l as [|x l IH]; intros HP H1 H2; [constructor|].
  inversion_clear HP. inversion_clear H1 as [|? ? ? F1]. inversion_clear H2 as [|? ? ? F2].
  constructor; [by auto|]. rewrite Forall_forall in *. auto.
Qed.

Lemma pairs_rev {A} (R : A → A → Prop) (l : list A) :
  StronglySorted R l → StronglySorted (λ a b, R b a) (rev l).
Proof.
  induction 1 as [|x l Hs IH Hx]; [constructor|]. cbn [rev].
  assert (Hr : Forall (λ y, R x y) (rev l)) by (by rewrite <- Permutation_rev).
  clear Hs Hx. induction IH as [|y r Hs IH Hy]; cbn [app]; [by repeat constructor|].
  inversion_clear Hr. constructor; [by auto|]. apply Forall_app. split; [done|]. by constructor.
Qed.

Lemma pairs_filter {A} (R : A → A → Prop) (f : A → bool) (l : list A) :
  StronglySorted R l → StronglySorted R (List.filter f l).
Proof.
  induction 1 as [|x l Hs IH Hx]; cbn [List.filter]; [constructor|]. destruct (f x); [|done].
  constructor; [done|]. rewrite Forall_forall in *. intros y Hy. apply Hx.
  by apply list_elem_of_In, filter_In, proj1, list_elem_of_In in Hy.
Qed.

Lemma elem_of_filter_b {A} (f : A → bool) l (x : A) :
  x ∈ List.filter f l ↔ x ∈ l ∧ f x = true.
Proof. by rewrite !list_elem_of_In, filter_In. Qed.

Lemma filter_perm_b {A} (f : A → bool) (l l' : list A) :
  l ≡ₚ l' → List.filter f l ≡ₚ List.filter f l'.
Proof.
  induction 1 as [|x l l' _ IH|x y l|l l' l'' _ IH1 _ IH2]; cbn [List.filter]; [done|..].
  - destruct (f x); [by constructor|done].
  - destruct (f x), (f y); done || apply Permutation_swap.
  - by rewrite IH1.
Qed.

(** ** The overlap check *)

Lemma compatible_sym a b : compatible a b → compatible b a.
Proof.
  unfold compatible. destruct (is_insertion a), (is_insertion b); tauto.
Qed.

Lemma insertion_true op : is_insertion op = true ↔ start op = end_ op.
Proof. unfold is_insertion. apply Z.eqb_eq. Qed.

Definition range_before (a b : ResolvedOp) : Prop := (end_ a ≤ start b)%Z.
Definition nonempty_range (a : ResolvedOp) : Prop := (start a < end_ a)%Z.

Lemma adjacent_overlap_spec l :
  Forall nonempty_range l → adjacent_overlap l = None ↔ StronglySorted range_before l.
Proof.
  unfold nonempty_range, range_before.
  induction l as [|a l IH]; intros Hn; [split; [constructor|done]|].
  inversion_clear Hn as [|? ? Ha Hl]. specialize (IH Hl). destruct l as [|b l].
  - split; [intros _; repeat constructor|done].
  - cbn [adjacent_overlap]. destruct (Z.ltb_spec (start b) (end_ a)) as [Hlt|Hge].
    + split; [discriminate|]. intros Hs. inversion_clear Hs as [|? ? _ Hf]. inversion_clear Hf. lia.
    + rewrite IH. split; intros Hs; [|by inversion_clear Hs].
      constructor; [done|]. constructor; [done|].
      inversion_clear Hl as [|? ? Hb _]. inversion_clear Hs as [|? ? _ Hf].
      eapply Forall_impl; [exact Hf|]. cbn. lia.
Qed.

Lemma insertion_overlap_spec ranges ops :
  insertion_overlap ranges ops = None ↔
  ∀ op r, op ∈ ops → is_insertion op = true → r ∈ ranges → ¬ (start r ≤ start op < end_ r)%Z.
Proof.
  induction ops as [|op ops IH]; cbn [insertion_overlap].
  { split; [intros _ ? ? []%elem_of_nil|done]. }
  destruct (is_insertion op) eqn:Ei; cbn [negb].
  - destruct (List.find _ ranges) as [r|] eqn:Ef.
    + split; [discriminate|]. intros Hall. apply find_some in Ef as [Hr Hin].
      exfalso. apply (Hall op r); [left|done|by apply list_elem_of_In|lia].
    + rewrite IH. pose proof (List.find_none _ _ Ef) as Hnone. split.
      * intros Hall op' r [->|Hop]%elem_of_cons Hi Hr; [|by auto].
        apply list_elem_of_In, Hnone in Hr. lia.
      * intros Hall op' r Hop. apply Hall. by right.
  - rewrite IH. split.
    + intros Hall op' r [->|Hop]%elem_of_cons Hi Hr; [congruence|by auto].
    + intros Hall op' r Hop. apply Hall. by right.
Qed.

Definition replacements (ops : list ResolvedOp) : list ResolvedOp :=
  List.filter (λ op, negb (is_insertion op)) ops.

Lemma good_replacements n ops :
  Forall (good_op n) ops → Forall nonempty_range (replacements ops).
Proof.
  intros Hg. apply Forall_forall. intros op [Hop Hi]%elem_of_filter_b.
  rewrite Forall_forall in Hg. destruct (Hg op Hop) as [Hs _ _].
  apply negb_true_iff in Hi. unfold nonempty_range. unfold is_insertion in Hi. lia.
Qed.

Lemma compatible_from_parts ops :
  StronglySorted (λ a b, range_before a b ∨ range_before b a) (replacements ops) →
  (∀ op r, op ∈ ops → is_insertion op = true → r ∈ replacements ops →
           ¬ (start r ≤ start op < end_ r)%Z) →
  StronglySorted compatible ops.
Proof.
  unfold replacements. induction ops as [|a ops IH]; intros Hs Hi; [constructor|].
  cbn [List.filter] in Hs, Hi. constructor.
  - destruct (is_insertion a); cbn [negb] in Hs, Hi.
    + apply IH; [done|]. intros op r Hop. apply Hi. by right.
    + inversion_clear Hs. apply IH; [done|]. intros op r Hop Ho Hr.
      apply Hi; [by right|done|by right].
  - apply Forall_forall. intros b Hb. unfold compatible.
    destruct (is_insertion a) eqn:Ea, (is_insertion b) eqn:Eb; cbn [negb] in Hs, Hi; [done|..].
    + apply Hi; [left|done|]. apply elem_of_filter_b. by rewrite Eb.
    + apply Hi; [by right|done|left].
    + inversion_clear Hs as [|? ? _ Hf]. rewrite Forall_forall in Hf.
      apply Hf, elem_of_filter_b. by rewrite Eb.
Qed.

(** The batches that pass are those whose operations do not meet. *)
Lemma check_overlaps_exact n ops :
  Forall (good_op n) ops → check_overlaps ops = None ↔ StronglySorted compatible ops.
Proof.
  intros Hg. unfold check_overlaps.
  pose proof (good_replacements n ops Hg) as Hne.
  assert (Hp : sorted_ranges ops ≡ₚ replacements ops) by apply sort_by_key_perm.
  assert (Hne' : Forall nonempty_range (sorted_ranges ops)) by (by rewrite Hp).
  pose proof (adjacent_overlap_spec _ Hne') as Ha.
  pose proof (insertion_overlap_spec (sorted_ranges ops) ops) as Hi. split.
  - intros H. destruct (adjacent_overlap _) as [[? ?]|]; [done|].
    destruct (insertion_overlap _ _) as [[? ?]|]; [done|].
    apply compatible_from_parts; [|by setoid_rewrite Hp in Hi; apply Hi].
    apply (pairs_perm _ (sorted_ranges ops)); [tauto|done|].
    eapply (pairs_conj (λ _, True) range_before range_before); [tauto| |by apply Ha..].
    by apply Forall_true.
  - intros Hc. rewrite (proj2 Ha), (proj2 Hi); [done|..].
    + intros op r Hop Ho Hr. rewrite Hp in Hr. apply elem_of_filter_b in Hr as [Hr Hri].
      assert (Hne0 : op ≠ r) by (intros ->; by rewrite Ho in Hri).
      pose proof (pairs_elem compatible ops op r compatible_sym Hc Hop Hr Hne0) as Hcmp.
      unfold compatible in Hcmp. rewrite Ho in Hcmp. apply negb_true_iff in Hri.
      by rewrite Hri in Hcmp.
    + apply (pairs_conj (λ o, nonempty_range o ∧ is_insertion o = false)
               (λ a b, start a ≤ start b)%Z compatible).
      * intros a b [Hna Hia] [Hnb Hib] Hle Hcmp. unfold compatible in Hcmp.
        rewrite Hia, Hib in Hcmp. unfold nonempty_range, range_before in *. lia.
      * rewrite Hp. apply Forall_forall. intros o Ho. split.
        -- rewrite Forall_forall in Hne. by apply Hne.
        -- apply elem_of_filter_b in Ho as [_ Ho]. by apply negb_true_iff.
      * apply sort_by_key_sorted.
      * apply (pairs_perm _ (replacements ops)); [apply compatible_sym|by symmetry|].
        by apply pairs_filter.
Qed.

(** ** Bottom-up splices *)

(** The lines with the operations woven in, from the top; [rem] are the lines
    from position [p] on. *)
Fixpoint weave (rem : list str) (p : Z) (ops : list ResolvedOp) : list str :=
  match ops with
  | [] => rem
  | o :: ops' =>
      take (Z.to_nat (start o - p)) rem ++ new_lines o
      ++ weave (drop (Z.to_nat (end_ o - p)) rem) (end_ o) ops'
  end.

(** Operations from the top down, between positions [p] and [n]. *)
Definition ascending (ops : list ResolvedOp) : Prop := StronglySorted range_before ops.
Definition within (p n : Z) (o : ResolvedOp) : Prop := (p ≤ start o ≤ end_ o ∧ end_ o ≤ n)%Z.

Lemma ascending_cons o ops p n :
  ascending (o :: ops) → Forall (within p n) (o :: ops) →
  ascending ops ∧ within p n o ∧ Forall (within (end_ o) n) ops.
Proof.
  intros Ha Hw. inversion_clear Ha as [|? ? Hs Hb]. inversion_clear Hw as [|? ? Ho Hw'].
  split_and!; [done..|]. rewrite Forall_forall in *. intros x Hx. specialize (Hb x Hx).
  specialize (Hw' x Hx). unfold within, range_before in *. lia.
Qed.

Lemma weave_app ops : ∀ a b p,
  ascending ops → Forall (within p (p + len a)) ops → weave (a ++ b) p ops = weave a p ops ++ b.
Proof.
  induction ops as [|o ops IH]; intros a b p Ha Hw; [done|].
  destruct (ascending_cons _ _ _ _ Ha Hw) as (Ha' & Ho & Hw'). unfold within in Ho.
  cbn [weave]. rewrite take_app_le, drop_app_le by (unfold len in *; lia).
  rewrite IH; [by rewrite <- !app_assoc|done|]. eapply Forall_impl; [exact Hw'|].
  intros x Hx. unfold within, len in *. rewrite length_drop. lia.
Qed.

Lemma weave_snoc ops : ∀ rem o p,
  ascending (ops ++ [o]) → Forall (within p (p + len rem)) (ops ++ [o]) →
  weave rem p (ops ++ [o])
  = weave (take (Z.to_nat (start o - p)) rem) p ops ++ new_lines o
    ++ drop (Z.to_nat (end_ o - p)) rem.
Proof.
  induction ops as [|x ops IH]; intros rem o p Ha Hw; [done|]. cbn [app] in Ha, Hw.
  destruct (ascending_cons _ _ _ _ Ha Hw) as (Ha' & Hx & Hw').
  assert (Hxo : range_before x o ∧ within p (p + len rem) o).
  { inversion_clear Ha as [|? ? _ Hb]. inversion_clear Hw as [|? ? _ Hw2].
    rewrite Forall_app, Forall_singleton in Hb, Hw2. split; [apply Hb|apply Hw2]. }
  destruct Hxo as [Hxo Ho]. unfold within, range_before, len in *.
  cbn [app weave]. rewrite take_take, Nat.min_l by lia.
  rewrite IH; [|done|].
  - rewrite skipn_firstn_comm, drop_drop, <- !app_assoc.
    replace (Z.to_nat (start o - p) - Z.to_nat (end_ x - p))%nat
      with (Z.to_nat (start o - end_ x)) by lia.
    by replace (Z.to_nat (end_ x - p) + Z.to_nat (end_ o - end_ x))%nat
      with (Z.to_nat (end_ o - p)) by lia.
  - eapply Forall_impl; [exact Hw'|]. intros y Hy. cbn in Hy. unfold within.
    rewrite length_drop. lia.
Qed.

Definition descending (ops : list ResolvedOp) : Prop :=
  StronglySorted (λ a b, range_before b a) ops.

Lemma descending_rev ops : descending ops → ascending (rev ops).
Proof. apply pairs_rev. Qed.

Lemma splice_good {B} (l : list B) a b new :
  (0 ≤ a ≤ b)%Z → (b ≤ len l)%Z →
  splice l a b new = Some (take (Z.to_nat a) l ++ new ++ drop (Z.to_nat b) l).
Proof.
  intros. unfold splice. by replace ((0 <=? a) && (a <=? b) && (b <=? len l))%Z with true by lia.
Qed.

Lemma splice_all_weave ops : ∀ ls,
  descending ops → Forall (within 0 (len ls)) ops →
  splice_all ls ops = Some (weave ls 0 (rev ops)).
Proof.
  induction ops as [|o ops IH]; intros ls Hd Hw; [done|]. cbn [splice_all].
  inversion_clear Hd as [|? ? Hd' Hb]. inversion_clear Hw as [|? ? Ho Hw'].
  assert (Hw2 : Forall (within 0 (start o)) ops).
  { rewrite Forall_forall in *. intros x Hx. specialize (Hb x Hx). specialize (Hw' x Hx).
    unfold within, range_before in *. lia. }
  unfold within in Ho. rewrite splice_good by lia. cbn [mbind option_bind].
  assert (Hl : len (take (Z.to_nat (start o)) ls) = start o)
    by (unfold len in *; rewrite length_take; lia).
  rewrite IH; [|done|].
  - f_equal. rewrite weave_app; [|by apply descending_rev|].
    + cbn [rev]. rewrite weave_snoc; [by rewrite !Z.sub_0_r|..].
      * apply (descending_rev (o :: ops)). by constructor.
      * rewrite Z.add_0_l. apply Forall_app. split; [by rewrite <- Permutation_rev|].
        apply Forall_singleton. unfold within. lia.
    + rewrite <- Permutation_rev. by rewrite Hl, Z.add_0_l.
  - eapply Forall_impl; [exact Hw2|]. intros x. unfold within, len in *.
    rewrite !length_app. lia.
Qed.

(** ** Woven lines are the reference *)

Lemma inserted_none ops p :
  Forall (λ o, p < start o)%Z ops → inserted_at ops p = [].
Proof.
  unfold inserted_at. induction 1 as [|o ops Ho _ IH]; [done|]. cbn [List.filter].
  replace (start o =? p)%Z with false by lia. by rewrite andb_false_r.
Qed.

Lemma rewritten_none ops i l : Forall (λ o, i < start o)%Z ops → rewritten ops i l = [l].
Proof.
  unfold rewritten. induction 1 as [|o ops Ho _ IH]; [done|]. cbn [List.find].
  unfold covers at 1. replace (start o <=? i)%Z with false by lia. by rewrite andb_false_r.
Qed.

(** Positions above every operation are copied. *)
Lemma edit_from_skip ops a : ∀ b p,
  Forall (λ o, p + len a ≤ start o)%Z ops →
  edit_from ops p (a ++ b) = a ++ edit_from ops (p + len a) b.
Proof.
  unfold len. induction a as [|x a IH]; intros b p Hf; cbn [app edit_from length].
  - by rewrite Z.add_0_r.
  - cbn [length] in Hf. rewrite inserted_none, rewritten_none, IH; cbn [app].
    + do 3 f_equal. lia.
    + eapply Forall_impl; [exact Hf|]. cbn. lia.
    + eapply Forall_impl; [exact Hf|]. cbn. lia.
    + eapply Forall_impl; [exact Hf|]. cbn. lia.
Qed.

Lemma edit_from_ext ops ops' ls : ∀ p,
  (∀ i, p ≤ i → inserted_at ops i = inserted_at ops' i)%Z →
  (∀ i l, p ≤ i → rewritten ops i l = rewritten ops' i l)%Z →
  edit_from ops p ls = edit_from ops' p ls.
Proof.
  induction ls as [|l ls IH]; intros p Hi Hr; cbn [edit_from]; [apply Hi; lia|].
  rewrite Hi, Hr, (IH (p + 1)%Z) by (intros; (apply Hi || apply Hr || idtac); lia). done.
Qed.

Lemma inserted_cons o ops p :
  inserted_at (o :: ops) p
  = (if is_insertion o && (start o =? p)%Z then new_lines o else []) ++ inserted_at ops p.
Proof. unfold inserted_at. cbn [List.filter]. by destruct (_ && _). Qed.

Lemma rewritten_cons o ops i l :
  rewritten (o :: ops) i l
  = if covers i o then (if (start o =? i)%Z then new_lines o else []) else rewritten ops i l.
Proof. unfold rewritten. cbn [List.find]. by destruct (covers i o). Qed.

(** An insertion at the top gives its lines, then the rest. *)
Lemma edit_from_insertion o ops ls :
  is_insertion o = true →
  edit_from (o :: ops) (start o) ls = new_lines o ++ edit_from ops (start o) ls.
Proof.
  intros Hi.
  assert (Hr : ∀ i l, rewritten (o :: ops) i l = rewritten ops i l).
  { intros i l. rewrite rewritten_cons. unfold covers. by rewrite Hi. }
  destruct ls as [|l ls]; cbn [edit_from]; rewrite inserted_cons, Hi, Z.eqb_refl; cbn [andb]; [done|].
  rewrite Hr, <- !app_assoc. do 3 f_equal. apply edit_from_ext; [|auto].
  intros i Hp. rewrite inserted_cons. by replace (start o =? i)%Z with false by lia; rewrite andb_false_r.
Qed.

(** The lines of a range after its first one disappear. *)
Lemma edit_from_covered o ops c : ∀ d p,
  is_insertion o = false → (start o < p)%Z → end_ o = (p + len c)%Z →
  Forall (λ x, end_ o ≤ start x)%Z ops →
  edit_from (o :: ops) p (c ++ d) = edit_from ops (end_ o) d.
Proof.
  unfold len. induction c as [|x c IH]; intros d p Hi Hs He Hf; cbn [app edit_from].
  - cbn [length] in He. replace p with (end_ o) by lia. apply edit_from_ext.
    + intros i Hp. rewrite inserted_cons, Hi. done.
    + intros i l Hp. rewrite rewritten_cons. unfold covers.
      replace (i <? end_ o)%Z with false by lia. by rewrite !andb_false_r.
  - cbn [length] in He. rewrite inserted_cons, Hi, inserted_none, rewritten_cons; cbn [andb app].
    + unfold covers. rewrite Hi. replace ((start o <=? p) && (p <? end_ o))%Z with true by lia.
      replace (start o =? p)%Z with false by lia. cbn [negb andb app]. apply IH; [done|lia..|done].
    + eapply Forall_impl; [exact Hf|]. cbn. lia.
Qed.

Lemma edit_from_replacement o ops c d :
  is_insertion o = false → (start o < end_ o)%Z → end_ o = (start o + len c)%Z →
  Forall (λ x, end_ o ≤ start x)%Z ops →
  edit_from (o :: ops) (start o) (c ++ d) = new_lines o ++ edit_from ops (end_ o) d.
Proof.
  unfold len. intros Hi Hs He Hf. destruct c as [|x c]; [cbn in He; lia|]. cbn [app edit_from].
  rewrite inserted_cons, Hi, inserted_none, rewritten_cons; cbn [andb app].
  - unfold covers. rewrite Hi. replace ((start o <=? start o) && (start o <? end_ o))%Z with true by lia.
    rewrite Z.eqb_refl. cbn [negb andb]. f_equal. apply edit_from_covered; [done|lia| |done].
    cbn [length] in He. unfold len. lia.
  - eapply Forall_impl; [exact Hf|]. cbn. lia.
Qed.

Lemma weave_edit ops : ∀ rem p,
  ascending ops → Forall (within p (p + len rem)) ops → weave rem p ops = edit_from ops p rem.
Proof.
  induction ops as [|o ops IH]; intros rem p; cbn [weave].
  { intros _ _. revert p. induction rem as [|l rem IHr]; intros p; [done|]. cbn [edit_from].
    by rewrite <- IHr. }
  intros Ha Hw. destruct (ascending_cons _ _ _ _ Ha Hw) as (Ha' & Ho & Hw').
  set (a := take (Z.to_nat (start o - p)) rem). set (b := drop (Z.to_nat (start o - p)) rem).
  assert (Hla : len a = (start o - p)%Z).
  { unfold a, len, within in *. rewrite length_take. unfold len in *. lia. }
  assert (Hstarts : Forall (λ x, end_ o ≤ start x)%Z ops)
    by (eapply Forall_impl; [exact Hw'|]; unfold within; cbn; lia).
  rewrite (IH _ (end_ o)); [|done|].
  2: { eapply Forall_impl; [exact Hw'|]. unfold within, len in *. intros x Hx.
       rewrite length_drop. lia. }
  replace (edit_from (o :: ops) p rem) with (a ++ edit_from (o :: ops) (start o) b).
  2: { rewrite <- (take_drop (Z.to_nat (start o - p)) rem). fold a b. rewrite edit_from_skip.
       - do 2 f_equal. lia.
       - constructor; [lia|]. eapply Forall_impl; [exact Hstarts|]. unfold within in Ho. cbn. lia. }
  f_equal. unfold within in Ho.
  assert (Hd : drop (Z.to_nat (end_ o - p)) rem = drop (Z.to_nat (end_ o - start o)) b).
  { unfold b. rewrite drop_drop. f_equal. lia. }
  rewrite Hd. destruct (is_insertion o) eqn:Ei.
  - rewrite edit_from_insertion by done. apply insertion_true in Ei. rewrite <- Ei.
    by rewrite Z.sub_diag.
  - unfold is_insertion in Ei. rewrite <- (take_drop (Z.to_nat (end_ o - start o)) b) at 2.
    symmetry. apply edit_from_replacement; [done|lia| |done].
    unfold len, b in *. rewrite length_take, length_drop. lia.
Qed.

(** ** From the sorted operations back to the batch *)

Definition request_order (ops : list ResolvedOp) : Prop :=
  StronglySorted (λ a b, original_idx a < original_idx b)%Z ops.

(** The order that [bottom_up] decides. *)
Definition above (a b : ResolvedOp) : Prop :=
  (start b < start a ∨ (start a = start b ∧ original_idx b ≤ original_idx a))%Z.
#[local] Instance above_trans : Transitive above.
Proof. unfold above. intros a b c. lia. Qed.

Lemma sort_bottom_up ops : StronglySorted above (sort_by bottom_up ops).
Proof.
  apply sort_by_sorted; [apply _|]. intros a b. unfold bottom_up, above.
  destruct (_ || _) eqn:E; lia.
Qed.

Lemma within_sorted n ops :
  Forall (good_op n) ops → Forall (within 0 n) (sort_by bottom_up ops).
Proof.
  intros Hg. rewrite sort_by_perm. eapply Forall_impl; [exact Hg|].
  intros o [? ? _]. unfold within. lia.
Qed.

(** Compatible operations, from the bottom up, end before the last one starts. *)
Lemma sorted_descending n ops :
  Forall (good_op n) ops → StronglySorted compatible ops → descending (sort_by bottom_up ops).
Proof.
  intros Hg Hc.
  apply (pairs_conj (good_op n) above compatible).
  - intros a b [Ha _ _] [Hb _ _] Hab Hcmp. unfold compatible, above, range_before, is_insertion in *.
    destruct (Z.eqb_spec (start a) (end_ a)), (Z.eqb_spec (start b) (end_ b)); lia.
  - by rewrite sort_by_perm.
  - apply sort_bottom_up.
  - apply (pairs_perm _ ops); [apply compatible_sym|by rewrite sort_by_perm|done].
Qed.

Lemma find_perm {A} (f : A → bool) (l l' : list A) :
  (∀ a b, a ∈ l → b ∈ l → f a = true → f b = true → a = b) →
  l ≡ₚ l' → List.find f l = List.find f l'.
Proof.
  intros Hu Hp. destruct (List.find f l) as [a|] eqn:Ea, (List.find f l') as [b|] eqn:Eb; [| | |done].
  - apply find_some in Ea as [Ha Fa]. apply find_some in Eb as [Hb Fb].
    f_equal. apply Hu; [by apply list_elem_of_In..| | |]; try done.
    rewrite Hp. by apply list_elem_of_In.
  - apply find_some in Ea as [Ha Fa]. apply list_elem_of_In in Ha. rewrite Hp in Ha.
    apply list_elem_of_In in Ha. rewrite (List.find_none _ _ Eb a Ha) in Fa. done.
  - apply find_some in Eb as [Hb Fb]. apply list_elem_of_In in Hb. rewrite <- Hp in Hb.
    apply list_elem_of_In in Hb. rewrite (List.find_none _ _ Ea b Hb) in Fb. done.
Qed.

(** At most one operation covers a line. *)
Lemma covers_unique ops i a b :
  StronglySorted compatible ops → a ∈ ops → b ∈ ops →
  covers i a = true → covers i b = true → a = b.
Proof.
  intros Hc Ha Hb Ca Cb. destruct (decide (a = b)) as [|Hne]; [done|].
  pose proof (pairs_elem compatible ops a b compatible_sym Hc Ha Hb Hne) as Hcmp.
  unfold covers, compatible in *. destruct (is_insertion a), (is_insertion b); cbn in *; lia.
Qed.

(** The insertions at one position come out in the order of the request. *)
Lemma inserted_sorted ops p :
  request_order ops → inserted_at (rev (sort_by bottom_up ops)) p = inserted_at ops p.
Proof.
  intros Ho. unfold inserted_at. f_equal. f_equal.
  set (f := λ op, is_insertion op && (start op =? p)%Z).
  assert (Hp : List.filter f (rev (sort_by bottom_up ops)) ≡ₚ List.filter f ops).
  { apply filter_perm_b. by rewrite <- Permutation_rev, sort_by_perm. }
  eapply (StronglySorted_unique_strong (λ a b, original_idx a < original_idx b)%Z); [|..|exact Hp].
  - intros a b _ _. lia.
  - apply (pairs_conj (λ o, start o = p)
             (λ a b, above b a) (λ a b, original_idx a ≠ original_idx b)).
    + intros a b Ha Hb Hab Hne. unfold above in Hab. lia.
    + apply Forall_forall. intros o [_ Hf]%elem_of_filter_b. unfold f in Hf. lia.
    + apply pairs_filter, pairs_rev, sort_bottom_up.
    + apply (pairs_perm _ (List.filter f ops)); [congruence|by symmetry|].
      apply pairs_filter. eapply pairs_conj with (P := λ _, True); [|by apply Forall_true|exact Ho..].
      intros a b _ _ Hlt _. cbn in *. lia.
  - by apply pairs_filter.
Qed.

Lemma rewritten_sorted ops i l :
  StronglySorted compatible ops →
  rewritten (rev (sort_by bottom_up ops)) i l = rewritten ops i l.
Proof.
  intros Hc. unfold rewritten.
  rewrite (find_perm (covers i) ops (rev (sort_by bottom_up ops))); [done|..].
  - intros a b. by apply covers_unique.
  - by rewrite <- Permutation_rev, sort_by_perm.
Qed.

(** The splices of an accepted batch compute the reference. *)
Lemma splices_meet_reference ops ls :
  Forall (good_op (len ls)) ops → request_order ops → check_overlaps ops = None →
  splice_all ls (sort_by bottom_up ops) = Some (reference_edit ops ls).
Proof.
  intros Hg Ho Hc. apply (check_overlaps_exact _ _ Hg) in Hc.
  rewrite splice_all_weave; [|by eapply sorted_descending|by apply within_sorted].
  f_equal. rewrite weave_edit.
  - apply edit_from_ext; [intros; by apply inserted_sorted|intros; by apply rewritten_sorted].
  - eapply descending_rev, sorted_descending; done.
  - rewrite <- Permutation_rev. rewrite Z.add_0_l. by apply within_sorted.
Qed.

(** ** The recorded regions *)

Lemma record_regions_spec ls ops : ∀ rem p k,
  rem = drop (Z.to_nat p) ls → (0 ≤ p)%Z → (0 ≤ k)%Z → ascending ops →
  Forall (within p (len ls)) ops →
  (k + len (weave rem p ops) ≤ U64_MAX)%Z →
  ∃ regions details,
    record_regions ls ops (k - p) = Some (regions, details) ∧
    length regions = length ops ∧ length details = length ops ∧
    ∀ j o, ops !! j = Some o →
      ∃ q, regions !! j = Some (q, q + inserted o)%Z ∧ (k ≤ q)%Z ∧
        (q + inserted o ≤ k + len (weave rem p ops))%Z ∧
        take (length (new_lines o)) (drop (Z.to_nat (q - k)) (weave rem p ops)) = new_lines o ∧
        details !! j
        = Some (mkDetail (start o + 1)
                  (join [NL] (take (Z.to_nat (end_ o - start o)) (drop (Z.to_nat (start o)) ls)))
                  (q + 1) (join [NL] (new_lines o))).
Proof.
  induction ops as [|o ops IH]; intros rem p k Hrem Hp Hk Ha Hw Hfit.
  { exists [], []. by split_and!. }
  destruct (ascending_cons _ _ _ _ Ha Hw) as (Ha' & Ho & Hw'). unfold within in Ho.
  cbn [weave] in *. set (a := take (Z.to_nat (start o - p)) rem) in *.
  assert (Hla : len a = (start o - p)%Z).
  { unfold a, len in *. rewrite length_take, Hrem, length_drop. lia. }
  set (rem' := drop (Z.to_nat (end_ o - p)) rem) in *.
  assert (Hrem' : rem' = drop (Z.to_nat (end_ o)) ls).
  { unfold rem'. rewrite Hrem, drop_drop. f_equal. lia. }
  pose proof (len_nonneg (new_lines o)) as Hn. unfold len in Hfit, Hla, Hn, Ho.
  rewrite !length_app in Hfit.
  assert (Hlen : ∀ W, len (a ++ new_lines o ++ W)
                      = (start o - p + inserted o + len W)%Z).
  { intros W. unfold inserted, len. rewrite !length_app. lia. }
  rewrite Hlen.
  destruct (IH rem' (end_ o) (k + (start o - p) + inserted o)%Z) as (rs & ds & Hr & Hlr & Hld & Hat);
    [done|lia|unfold inserted, len; lia|done|done|unfold inserted, len; lia|].
  cbn [record_regions].
  replace (start o + (k - p))%Z with (k + (start o - p))%Z by lia.
  rewrite wrap64_fits by lia.
  replace (k - p + inserted o - replaced o)%Z with (k + (start o - p) + inserted o - end_ o)%Z
    by (unfold replaced; lia).
  rewrite Hr. set (old := join [NL] (take (Z.to_nat (end_ o - start o)) (drop (Z.to_nat (start o)) ls))).
  assert (Hold : (if (start o <? end_ o)%Z then join [NL] <$> slice ls (start o) (end_ o)
                  else Some []) = Some old).
  { destruct (Z.ltb_spec (start o) (end_ o)).
    - rewrite slice_Some by (unfold len; lia). unfold old. cbn. do 3 f_equal. lia.
    - unfold old. by replace (Z.to_nat (end_ o - start o)) with 0%nat by lia. }
  rewrite Hold. cbn [mbind option_bind].
  eexists _, _. split; [reflexivity|]. cbn [length]. split_and!; [lia..|].
  intros [|j] o' Hj; cbn [lookup list_lookup] in *.
  - injection Hj as <-. exists (k + (start o - p))%Z. split_and!; [done|lia|unfold len; lia| |done].
    replace (k + (start o - p) - k)%Z with (start o - p)%Z by lia.
    rewrite drop_app_ge by lia.
    replace (Z.to_nat (start o - p) - length a)%nat with 0%nat by lia. rewrite drop_0.
    by rewrite take_app_length.
  - destruct (Hat j o' Hj) as (q & Hq & Hle & Hub & Htk & Hdet). exists q.
    split_and!; [done|unfold inserted, len in *; lia|lia| |done].
    rewrite <- Htk at 2. f_equal. unfold inserted, len in Hle.
    rewrite drop_app_ge by lia. rewrite drop_app_ge by lia. f_equal. unfold inserted, len. lia.
Qed.
