(* ===== verification/HashlineBatch.v ===== *)
(** * Batches of hashline edits

    Every operation resolves, or is refused, without a panic; an accepted batch
    produces the reference edit, a snippet and a detail per operation. *)
From S2P Require Import Prelude RustStr StrSearch HashlineScheme HashlineSchemeFacts HashlineEdit.
From S2P Require Import HashlineApplyFacts.

(** ** Sizes *)

Lemma split_length c s : (length (split c s) ≤ S (length s))%nat.
Proof.
  induction s as [|x s IH]; cbn [split length]; [lia|].
  destruct (x =? c)%Z; cbn [length]; [lia|]. destruct (split c s); cbn [length] in *; lia.
Qed.

Lemma lines_length s : (length (lines s) ≤ S (length s))%nat.
Proof.
  pose proof (split_length NL s) as H. destruct (split_snoc NL s) as (ls & l & E).
  unfold lines. rewrite E in *. rewrite lines_of_snoc, !length_app, length_map in *.
  cbn [length] in H. destruct (is_empty l); cbn [length]; lia.
Qed.

Definition op_content (op : HashlineOp) : str :=
  match op with Replace _ _ c | InsertAfter _ c | Write c => c end.

(** The chars of the file and of the contents of the operations: a bound on the
    lines that exist before and after the edit. *)
Definition batch_size (content : str) (ops : list HashlineOp) : nat :=
  (S (length content) + sum_list_with (λ op, S (length (op_content op))) ops)%nat.
Definition batch_fits (content : str) (ops : list HashlineOp) : Prop :=
  (Z.of_nat (batch_size content ops) ≤ I64_MAX)%Z.

Lemma split_lines_bound content : (length (split_lines content) ≤ S (length content))%nat.
Proof. rewrite split_lines_length. apply split_length. Qed.

Lemma batch_fits_lines content ops : batch_fits content ops → fits (split_lines content).
Proof.
  unfold batch_fits, batch_size, fits, len. pose proof (split_lines_bound content). lia.
Qed.

Definition sum_inserted (ops : list ResolvedOp) : nat :=
  sum_list_with (λ o, length (new_lines o)) ops.

Lemma weave_length ops : ∀ rem p,
  ascending ops → Forall (within p (p + len rem)) ops →
  (length (weave rem p ops) ≤ length rem + sum_inserted ops)%nat.
Proof.
  unfold sum_inserted. induction ops as [|o ops IH]; intros rem p Ha Hw;
    cbn [weave sum_list_with]; [lia|].
  destruct (ascending_cons _ _ _ _ Ha Hw) as (Ha' & Ho & Hw'). unfold within, len in *.
  rewrite !length_app.
  specialize (IH (drop (Z.to_nat (end_ o - p)) rem) (end_ o) Ha').
  rewrite length_drop in IH. rewrite length_take. 
  assert (Hw2 : Forall (λ o0, (end_ o ≤ start o0 ≤ end_ o0)%Z ∧
    (end_ o0 ≤ end_ o + Z.of_nat (length rem - Z.to_nat (end_ o - p)))%Z) ops).
  { eapply Forall_impl; [exact Hw'|]. cbn. intros x Hx. lia. }
  specialize (IH Hw2). lia.
Qed.

Lemma Forall_concat_map {B C} (P : C → Prop) (f : B → list C) (l : list B) :
  Forall (λ x, Forall P (f x)) l → Forall P (concat (map f l)).
Proof. induction 1; cbn; [constructor|]. apply Forall_app. by split. Qed.

(** The reference holds lines of the file and lines of the operations. *)
Lemma edit_from_Forall (P : str → Prop) ops ls : ∀ p,
  Forall (λ o, Forall P (new_lines o)) ops → Forall P ls → Forall P (edit_from ops p ls).
Proof.
  intros p Ho. assert (Hi : ∀ p, Forall P (inserted_at ops p)).
  { intros q. unfold inserted_at. apply Forall_concat_map, Forall_forall.
    intros o [Hin _]%elem_of_filter_b. rewrite Forall_forall in Ho. by apply Ho. }
  intros Hls. revert p. induction Hls as [|l ls Hl _ IH]; intros p; cbn [edit_from]; [done|].
  rewrite !Forall_app. split_and!; [done| |apply IH]. unfold rewritten.
  destruct (List.find (covers p) ops) as [o|] eqn:Ef; [|by constructor].
  apply find_some in Ef as [Hin%list_elem_of_In _]. destruct (_ =? p)%Z; [|constructor].
  rewrite Forall_forall in Ho. by apply Ho.
Qed.

Lemma accepted_weave ops ls :
  Forall (good_op (len ls)) ops → request_order ops → check_overlaps ops = None →
  let sorted := rev (sort_by bottom_up ops) in
  ascending sorted ∧ Forall (within 0 (len ls)) sorted ∧
  weave ls 0 sorted = reference_edit ops ls ∧
  (length (reference_edit ops ls) ≤ length ls + sum_inserted ops)%nat.
Proof.
  intros Hg Ho Hc sorted. pose proof (splices_meet_reference ops ls Hg Ho Hc) as Hr.
  apply (check_overlaps_exact _ _ Hg) in Hc.
  pose proof (sorted_descending _ _ Hg Hc) as Hd.
  assert (Ha : ascending sorted) by (by apply descending_rev).
  assert (Hw : Forall (within 0 (len ls)) sorted)
    by (unfold sorted; rewrite <- Permutation_rev; by apply within_sorted).
  rewrite splice_all_weave in Hr; [|done|by apply within_sorted]. injection Hr as Hr.
  fold sorted in Hr. split_and!; [done..|]. rewrite <- Hr.
  assert (Hs : sum_inserted sorted = sum_inserted ops).
  { unfold sum_inserted, sorted. by rewrite <- Permutation_rev, sort_by_perm. }
  rewrite <- Hs. by apply weave_length.
Qed.

(** ** Resolving *)

Section Batch.
Context {A : Type} `{LawfulScheme A} (s : A) (Hok : scheme_ok s).

(** What a resolved operation is, in a file of [n] lines. *)
Definition resolved_from (n idx : Z) (op : HashlineOp) (o : ResolvedOp) : Prop :=
  good_op n o ∧ original_idx o = idx ∧ (length (new_lines o) ≤ S (length (op_content op)))%nat.

Lemma new_lines_text (b : list str) c :
  Forall (λ l, NL ∉ l) b → Forall (λ l, NL ∉ l) (if is_empty c then b else lines c).
Proof. intros Hb. destruct (is_empty c); [done|apply lines_no_sep]. Qed.

Lemma new_lines_length (b : list str) c :
  (length b ≤ 1)%nat → (length (if is_empty c then b else lines c) ≤ S (length c))%nat.
Proof. intros Hb. destruct (is_empty c); [lia|apply lines_length]. Qed.

Lemma insert_position_total anchor ls :
  fits ls → (1 ≤ len ls)%Z →
  ∃ r, insert_position s anchor ls = Some r ∧ ∀ p, r = Ok p → (0 ≤ p ≤ len ls)%Z.
Proof.
  intros Hf Hl. unfold insert_position.
  destruct (str_eqb anchor (lit "0:")); [eexists; split; [done|]; intros p [= <-]; lia|].
  destruct (str_eqb anchor (lit "EOF")).
  - destruct (Z.ltb_spec 1 (len ls)); [|eexists; split; [done|]; intros p [= <-]; lia].
    destruct (index_lt ls (len ls - 1)) as [l ->]; [lia|]. cbn [mbind option_bind].
    eexists. split; [done|]. intros p [= <-]. destruct (is_empty l); lia.
  - destruct (validate_anchor_total s Hok anchor ls Hf) as ([i|e] & -> & Hi).
    + eexists. split; [done|]. intros p [= <-]. specialize (Hi i eq_refl). lia.
    + eexists. by split.
Qed.

Lemma resolve_op_total op idx ls :
  fits ls → (1 ≤ len ls)%Z →
  ∃ r, resolve_op s op idx ls = Some r ∧ ∀ o, r = Ok o → resolved_from (len ls) idx op o.
Proof.
  intros Hf Hl. destruct op as [anchor ea c|anchor c|c]; cbn [resolve_op].
  - destruct (validate_anchor_total s Hok anchor ls Hf) as ([i|e] & -> & Hi);
      [specialize (Hi i eq_refl)|eexists; by split].
    set (X := match ea with Some _ => _ | None => _ end).
    assert (HX : ∃ r, X = Some r ∧ ∀ e, r = Ok e → (i < e ≤ len ls)%Z).
    { unfold X. destruct ea as [a|]; [|eexists; split; [done|]; intros e [= <-]; lia].
      destruct (validate_anchor_total s Hok a ls Hf) as ([j|e] & -> & Hj);
        [|eexists; by split]. specialize (Hj j eq_refl).
      destruct (Z.ltb_spec j i); eexists; (split; [done|]); [done|]. intros e [= <-]. lia. }
    destruct HX as (r & -> & Hr). destruct r as [e|e]; [|eexists; by split].
    specialize (Hr e eq_refl).
    destruct (check_content_total (lit "replace") c) as [[?|?] ->]; eexists; (split; [done|]); [|done].
    intros o [= <-]. split_and!; [|done|by apply new_lines_length; cbn; lia].
    constructor; cbn; [lia|lia|]. apply new_lines_text. constructor.
  - destruct (insert_position_total anchor ls Hf Hl) as ([p|e] & -> & Hp);
      [specialize (Hp p eq_refl)|eexists; by split].
    destruct (check_content_total (lit "insert_after") c) as [[?|?] ->]; eexists;
      (split; [done|]); [|done].
    intros o [= <-]. split_and!; [|done|by apply new_lines_length; cbn; lia].
    constructor; cbn; [lia|lia|]. apply new_lines_text. repeat constructor. apply not_elem_of_nil.
  - eexists. by split.
Qed.

Lemma resolve_all_total ops : ∀ idx total ls,
  fits ls → (1 ≤ len ls)%Z →
  ∃ r, resolve_all s ops idx total ls = Some r ∧
    ∀ os, r = Ok os →
      Forall (good_op (len ls)) os ∧ request_order os ∧ length os = length ops ∧
      Forall (λ o, idx ≤ original_idx o)%Z os ∧
      (sum_inserted os ≤ sum_list_with (λ op, S (length (op_content op))) ops)%nat.
Proof.
  induction ops as [|op ops IH]; intros idx total ls Hf Hl; cbn [resolve_all].
  { eexists. split; [done|]. intros os [= <-]. by split_and!; try constructor. }
  destruct (resolve_op_total op idx ls Hf Hl) as ([o|e] & -> & Ho); cbn [mbind option_bind];
    [|eexists; by split].
  destruct (Ho o eq_refl) as (Hg & Hi & Hn).
  destruct (IH (idx + 1)%Z total ls Hf Hl) as ([os|e] & -> & Hos); [|eexists; by split].
  destruct (Hos os eq_refl) as (Hgs & Hro & Hlen & Hidx & Hsum).
  eexists. split; [done|]. intros os' [= <-]. split_and!.
  - by constructor.
  - constructor; [done|]. eapply Forall_impl; [exact Hidx|]. cbn. lia.
  - cbn. by rewrite Hlen.
  - constructor; [lia|]. eapply Forall_impl; [exact Hidx|]. cbn. lia.
  - unfold sum_inserted in *. cbn [sum_list_with]. lia.
Qed.

(** ** Snippets *)

Lemma format_total content offset limit :
  fits (split_lines content) → is_Some (format_hashline_content s content offset limit).
Proof. intros Hf. rewrite format_eq by done. by eexists. Qed.

Definition good_region (n : Z) (r : Z * Z) : Prop := (0 ≤ r.1 ≤ r.2 ∧ r.2 ≤ n)%Z.

Lemma merge_regions_good n total : ∀ regions last,
  (n ≤ total)%Z → Forall (good_region n) regions →
  match last with Some r => (r.1 ≤ r.2)%Z | None => True end →
  Forall (λ r, (r.1 ≤ r.2)%Z) (merge_regions regions total last).
Proof.
  induction regions as [|[a b] regions IH]; intros last Hn Hg Hl; cbn [merge_regions].
  { destruct last; by repeat constructor. }
  inversion_clear Hg as [|? ? Hab Hg']. unfold good_region in Hab. cbn [fst snd] in Hab.
  assert (Hctx : (saturating_sub a SNIPPET_CONTEXT ≤ Z.min (b + SNIPPET_CONTEXT) total)%Z)
    by (unfold saturating_sub, SNIPPET_CONTEXT; lia).
  destruct last as [[c d]|]; [|by apply IH].
  destruct (_ <=? d)%Z; [apply IH; [done..|cbn in *; lia]|].
  constructor; [done|]. by apply IH.
Qed.

Lemma region_parts_total content merged : ∀ first prev,
  fits (split_lines content) → Forall (λ r, (r.1 ≤ r.2)%Z) merged →
  is_Some (region_parts s content merged first prev).
Proof.
  induction merged as [|[a b] merged IH]; intros first prev Hf Hm; cbn [region_parts]; [by eexists|].
  inversion_clear Hm as [|? ? Hab Hm']. cbn in Hab. unfold usize_sub.
  replace (a <=? b)%Z with true by lia. cbn [mbind option_bind].
  destruct (format_total content (Some (a + 1)%Z) (Some (b - a)%Z) Hf) as [[sn raw] ->].
  cbn [mbind option_bind]. destruct (IH false b Hf Hm') as [[parts e] ->]. by eexists.
Qed.

Lemma last_of_sorted (l : list (Z * Z)) r :
  StronglySorted (λ a b, (a.1 ≤ b.1)%Z) (r :: l) → (r.1 ≤ (List.last l r).1)%Z ∧ List.last l r ∈ r :: l.
Proof.
  intros Hs. destruct l as [|x l _] using rev_ind; [split; [done|left]|].
  rewrite last_last. split.
  - inversion_clear Hs as [|? ? _ Hf]. rewrite Forall_app, Forall_singleton in Hf. apply Hf.
  - right. apply elem_of_app. right. apply list_elem_of_here.
Qed.

Lemma build_snippet_total content regions n total :
  fits (split_lines content) → (n ≤ total)%Z → Forall (good_region n) regions →
  StronglySorted (λ a b, (a.1 ≤ b.1)%Z) regions →
  is_Some (build_snippet s content regions total).
Proof.
  intros Hf Hn Hg Hs. unfold build_snippet. destruct regions as [|[a b] rest]; [by eexists|].
  destruct (last_of_sorted rest (a, b) Hs) as [Hle Hin].
  destruct (List.last rest (a, b)) as [la lb] eqn:El. cbn [fst] in Hle.
  pose proof Hg as Hg'. rewrite Forall_forall in Hg'. pose proof (Hg' _ Hin) as Hlast.
  pose proof (Hg' (a, b) (list_elem_of_here _ _)) as Hfirst.
  unfold good_region in Hlast, Hfirst. cbn [fst snd] in Hlast, Hfirst. unfold usize_sub.
  replace (_ <=? _)%Z with true by (unfold saturating_sub, SNIPPET_CONTEXT; lia).
  cbn [mbind option_bind]. destruct (_ <=? MAX_CONTIGUOUS_SNIPPET)%Z.
  - edestruct format_total as [[sn raw] ->]; [done|]. by eexists.
  - destruct (region_parts_total content (merge_regions ((a, b) :: rest) total None) true 0 Hf)
      as [[parts e] ->]; [by eapply merge_regions_good|]. by eexists.
Qed.

(** ** The batch *)

(** What the detail of operation [o] says: where its lines stood in the old
    file and where the new ones stand in the new lines. *)
Definition detail_of (ls result : list str) (o : ResolvedOp) (d : EditRegionDetail) : Prop :=
  old_line d = (start o + 1)%Z ∧
  old_text d = join [NL] (take (Z.to_nat (end_ o - start o)) (drop (Z.to_nat (start o)) ls)) ∧
  new_text d = join [NL] (new_lines o) ∧
  (1 ≤ new_line d)%Z ∧
  take (length (new_lines o)) (drop (Z.to_nat (new_line d - 1)) result) = new_lines o.

Lemma recorded_details ls ops :
  Forall (good_op (len ls)) ops → request_order ops → check_overlaps ops = None →
  (Z.of_nat (length ls + sum_inserted ops) ≤ I64_MAX)%Z →
  ∃ regions details,
    record_regions ls (rev (sort_by bottom_up ops)) 0 = Some (regions, details) ∧
    Forall (good_region (len (reference_edit ops ls))) regions ∧
    Forall2 (detail_of ls (reference_edit ops ls)) (rev (sort_by bottom_up ops)) details.
Proof.
  intros Hg Ho Hc Hfit. destruct (accepted_weave ops ls Hg Ho Hc) as (Ha & Hw & Hr & Hlen).
  set (sorted := rev (sort_by bottom_up ops)) in *.
  destruct (record_regions_spec ls sorted ls 0 0) as (rs & ds & He & Hlr & Hld & Hat);
    [done|lia|lia|done|done| |].
  { rewrite Hr. unfold len, I64_MAX, U64_MAX in *. lia. }
  rewrite Z.sub_0_r in He. rewrite Hr in Hat. exists rs, ds. split_and!; [done|..].
  - apply Forall_lookup_2. intros j r Hj.
    destruct (lookup_lt_is_Some_2 sorted j) as [o Hoj]; [rewrite <- Hlr; by eapply lookup_lt_Some|].
    destruct (Hat j o Hoj) as (q & Hq & Hq0 & Hub & _ & _). rewrite Hj in Hq. injection Hq as ->.
    unfold good_region, inserted in *. cbn [fst snd]. pose proof (len_nonneg (new_lines o)). lia.
  - apply Forall2_same_length_lookup_2; [done|]. intros j o d Hoj Hdj.
    destruct (Hat j o Hoj) as (q & _ & Hq0 & _ & Htk & Hd). rewrite Hdj in Hd. injection Hd as ->.
    unfold detail_of. cbn [old_line old_text new_line new_text].
    rewrite Z.sub_0_r in Htk. replace (q + 1 - 1)%Z with q by lia. split_and!; [done..|lia|done].
Qed.

Lemma apply_resolved_spec ls total path ops :
  Forall (λ l, NL ∉ l) ls → (1 ≤ len ls)%Z →
  Forall (good_op (len ls)) ops → request_order ops → check_overlaps ops = None →
  (Z.of_nat (length ls + sum_inserted ops) ≤ I64_MAX)%Z →
  ∃ applied_ details,
    apply_resolved s ls total path ops
    = Some (mkApplyResult (EditsApplied applied_) (Some (join [NL] (reference_edit ops ls))) details) ∧
    applied applied_ = total ∧
    Forall2 (detail_of ls (reference_edit ops ls)) (rev (sort_by bottom_up ops)) details.
Proof.
  intros Hnl Hpos Hg Ho Hc Hfit.
  destruct (recorded_details ls ops Hg Ho Hc Hfit) as (rs & ds & Hrec & Hrs & Hds).
  destruct (accepted_weave ops ls Hg Ho Hc) as (_ & _ & _ & Hlen).
  unfold apply_resolved. rewrite Hrec. cbn [mbind option_bind].
  rewrite (splices_meet_reference ops ls Hg Ho Hc). cbn [mbind option_bind].
  set (R := reference_edit ops ls) in *. set (content := join [NL] R).
  assert (HR : Forall (λ l, NL ∉ l) R).
  { apply edit_from_Forall; [|done]. eapply Forall_impl; [exact Hg|]. by intros o [_ _ ?]. }
  pose proof (split_lines_join R HR) as Hn. fold content in Hn.
  destruct (build_snippet_total content (sort_by_key fst rs) (len R) (len (split_lines content)))
    as [sn ->].
  - unfold fits. rewrite Hn. unfold len, I64_MAX in *. lia.
  - rewrite Hn. lia.
  - by rewrite sort_by_key_perm.
  - apply sort_by_key_sorted.
  - cbn [mbind option_bind]. eexists _, _. by split_and!.
Qed.

(** How a batch ends: refused with an error, or all of it applied. *)
Definition batch_ends (content : str) (ops : list HashlineOp) (r : ApplyResult) : Prop :=
  (∃ e, r = failed e) ∨
  (∃ os applied_ details,
     resolve_all s ops 0 (len ops) (split_lines content) = Some (Ok os) ∧
     check_overlaps os = None ∧
     r = mkApplyResult (EditsApplied applied_)
           (Some (join [NL] (reference_edit os (split_lines content)))) details ∧
     applied applied_ = len ops ∧
     Forall2 (detail_of (split_lines content) (reference_edit os (split_lines content)))
       (rev (sort_by bottom_up os)) details).

Lemma apply_batch_spec content ops path :
  batch_fits content ops →
  ∃ r, apply_batch s content ops path = Some r ∧ batch_ends content ops r.
Proof.
  intros Hb. pose proof (batch_fits_lines _ _ Hb) as Hf. pose proof (split_lines_pos content) as Hp.
  unfold apply_batch.
  destruct (resolve_all_total ops 0 (len ops) (split_lines content) Hf Hp)
    as ([os|e] & Hr & Hos); rewrite Hr; cbn [mbind option_bind];
    [|eexists; split; [done|left; by eexists]].
  destruct (Hos os eq_refl) as (Hg & Ho & Hl & _ & Hsum).
  destruct (check_overlaps os) as [e|] eqn:Ec; [eexists; split; [done|left; by eexists]|].
  destruct (apply_resolved_spec (split_lines content) (len ops) path os) as (ap & ds & -> & Ha & Hd);
    try done; [apply split_lines_no_sep| |].
  - unfold batch_fits, batch_size in Hb. pose proof (split_lines_bound content). lia.
  - eexists. split; [done|]. right. by exists os, ap, ds.
Qed.

Lemma apply_write_total c path : fits (split_lines c) → is_Some (apply_write s c path).
Proof.
  intros Hf. unfold apply_write. destruct (detect_anchor_prefix_in_content c) as [n|].
  - destruct (anchor_content_error_total (lit "write") c n) as [e ->]. by eexists.
  - unfold build_write_result. edestruct format_total as [[sn raw] ->]; [done|]. by eexists.
Qed.

Lemma apply_edits_cases content ops path :
  (∃ c, ops = [Write c] ∧ apply_edits s content ops path = apply_write s c path) ∨
  apply_edits s content ops path = apply_batch s content ops path.
Proof.
  destruct ops as [|[| |c] [|? ?]]; (by right) || (left; by exists c).
Qed.
End Batch.
