(* ===== verification/HashlineTool.v ===== *)
(** * The hashline tools

    [grok_build_hashline/edit/mod.rs] ([to_search_replace] and [run]) and
    [grep.rs] ([parse_rg_line] and [inject_anchors]).  A file is read and
    written through the class of FileSystem; what else the tools ask of the
    machine (canonical paths, similar names, hints) is the class
    [HashlineEnv].  The outer [option] is a panic.
    Before it come the paths a model writes ([types/resources.rs]). *)
From S2P Require Import Prelude RustStr StrSearch FileSystem HashlineScheme HashlineEdit.

Definition QUOTES : list char := [34; 39]%Z.
Definition is_quote (c : char) : bool := existsb (Z.eqb c) QUOTES.

(** The loop that strips literal escapes; every round drops two chars. *)
Fixpoint strip_escapes (fuel : nat) (result : str) : str :=
  match fuel with
  | O => result
  | S fuel' =>
      match strip_suffix (lit "\n") result with
      | Some stripped => strip_escapes fuel' (trim_end stripped)
      | None =>
          match strip_suffix (lit "\r") result with
          | Some stripped => strip_escapes fuel' (trim_end stripped)
          | None =>
              match strip_suffix (lit "\t") result with
              | Some stripped => strip_escapes fuel' (trim_end stripped)
              | None => result
              end
          end
      end
  end.

Definition sanitize_model_path_arg (input : str) : str :=
  let trimmed := trim input in
  let quote_wrapped :=
    (2 <=? str_len trimmed)%Z
    && match head trimmed with Some c => is_quote c | None => false end
    && match last trimmed with Some c => is_quote c | None => false end in
  let unquoted := trim (trim_end_matches is_quote (trim_start_matches is_quote trimmed)) in
  if negb quote_wrapped then unquoted else strip_escapes (length unquoted) unquoted.

(** [Path::components], without the root *)
Definition path_components (p : str) : list str :=
  List.filter (λ c, negb (is_empty c || str_eqb c (lit "."))) (split SLASH p).

Fixpoint strip_components (base p : list str) : option (list str) :=
  match base, p with
  | [], _ => Some p
  | b :: base', c :: p' => if str_eqb b c then strip_components base' p' else None
  | _ :: _, [] => None
  end.

(** [Path::strip_prefix] *)
Definition path_strip_prefix (p base : str) : option str :=
  if Bool.eqb (is_absolute p) (is_absolute base)
  then join [SLASH] <$> strip_components (path_components base) (path_components p)
  else None.

Section Resolve.
Context (tilde : str → str).

Definition resolve_model_path (cwd : str) (display_cwd : option str) (input : str) : str :=
  let expanded := tilde (sanitize_model_path_arg input) in
  let relative :=
    if negb (is_absolute expanded) && negb (is_empty expanded) then
      match path_strip_prefix (lit "/" ++ expanded) (default cwd display_cwd) with
      | Some suffix => path_join cwd suffix
      | None => path_join cwd expanded
      end
    else path_join cwd expanded in
  match display_cwd with
  | Some display =>
      if is_absolute expanded then
        match path_strip_prefix expanded display with
        | Some suffix => path_join cwd suffix
        | None => expanded
        end
      else relative
  | None => relative
  end.
End Resolve.

Definition display_cwd_or_cwd (cwd : str) (display_cwd : option str) : str :=
  default cwd display_cwd.

(** ** Facts *)

Lemma strip_components_app base p : strip_components base (base ++ p) = Some p.
Proof.
  induction base as [|b base IH]; [done|]. cbn [strip_components app].
  unfold str_eqb. by rewrite bool_decide_eq_true_2.
Qed.

(** The bound on the loop is enough: it stops where no escape is left. *)
Lemma strip_escapes_done fuel r :
  (length r ≤ fuel)%nat →
  strip_suffix (lit "\n") (strip_escapes fuel r) = None ∧
  strip_suffix (lit "\r") (strip_escapes fuel r) = None ∧
  strip_suffix (lit "\t") (strip_escapes fuel r) = None.
Proof.
  revert r. induction fuel as [|fuel IH]; intros r Hr.
  { destruct r; [by vm_compute|cbn in Hr; lia]. }
  assert (Hs : ∀ p st, length (lit p) = 2%nat → strip_suffix (lit p) r = Some st →
                 (length (trim_end st) ≤ fuel)%nat).
  { intros p st Hp E. apply strip_suffix_Some in E as ->. rewrite length_app in Hr.
    unfold trim_end, trim_end_matches.
    pose proof (drop_while_length is_whitespace (rev st)) as Hd.
    rewrite length_rev in *. lia. }
  cbn [strip_escapes].
  destruct (strip_suffix (lit "\n") r) as [st|] eqn:En; [apply IH; by apply (Hs "\n"%string)|].
  destruct (strip_suffix (lit "\r") r) as [st|] eqn:Er; [apply IH; by apply (Hs "\r"%string)|].
  destruct (strip_suffix (lit "\t") r) as [st|] eqn:Et; [apply IH; by apply (Hs "\t"%string)|done].
Qed.

(** ** Examples *)

Example model_paths :
  let r := resolve_model_path (λ s, s) (lit "/worktree/abc") in
  map (r (Some (lit "/home/u/p")))
    [lit "/home/u/p/src/main.rs"; lit "/etc/hosts"; lit "src/main.rs"; lit "home/u/p/a";
     lit " 'src/main.rs\r\n' "]
  = [lit "/worktree/abc/src/main.rs"; lit "/etc/hosts"; lit "/worktree/abc/src/main.rs";
     lit "/worktree/abc/a"; lit "/worktree/abc/src/main.rs"].
Proof. by vm_compute. Qed.

(** ** Output *)

Record SearchReplaceEditDetail : Type := mkEditDetail {
  old_string : str; sr_old_line : Z; new_string : str; sr_new_line : Z;
  context_before : str; context_after : str; line_prefix : str }.

Record SearchReplaceEditsApplied : Type := mkEditsApplied {
  ea_old_string : str; ea_new_string : str; tool_output_for_prompt : str;
  ea_absolute_path : str; edits : list SearchReplaceEditDetail }.

(** The variants that this tool returns. *)
Inductive SearchReplaceOutput : Type :=
| SrEditsApplied (a : SearchReplaceEditsApplied)
| SrNoMatchesFound (message file_path : str)
| SrInvalidInput (message : str)
| SrFileNotFound (message : str).

Definition CTX_COUNT : Z := 3.

Definition context_lines (ls : list str) (a b : Z) : option str :=
  if (a <? b)%Z then part ← slice ls a b; Some (join [NL] part ++ [NL]) else Some [].

Definition to_edit_detail (old_lines : list str) (d : EditRegionDetail)
  : option SearchReplaceEditDetail :=
  let old_idx := saturating_sub (old_line d) 1 in
  let before_start := saturating_sub old_idx CTX_COUNT in
  before ← context_lines old_lines before_start old_idx;
  let old_text_line_count :=
    if is_empty (old_text d) then 0%Z else len (split NL (old_text d)) in
  let after_start := (old_idx + old_text_line_count)%Z in
  let after_end := Z.min (after_start + CTX_COUNT) (len old_lines) in
  after ← context_lines old_lines after_start after_end;
  Some (mkEditDetail (old_text d) (old_line d) (new_text d) (new_line d) before after []).

Definition error_text (err : HashlineEditError) : str :=
  let msg := message err in
  let msg :=
    match error_context err with
    | Some ctx =>
        let label :=
          match context_start_line err with
          | Some start => lit "Fresh anchors around line " ++ fmt_Z start
                          ++ lit " — use these to retry your edit:"
          | None => lit "Fresh anchors — use these to retry your edit:"
          end in
        msg ++ [NL; NL] ++ label ++ [NL] ++ ctx
    | None => msg
    end in
  match shifted_anchor err with
  | Some anchor => msg ++ [NL; NL] ++ lit "Suggested anchor: " ++ anchor
  | None => msg
  end.

Definition to_search_replace (r : HashlineEditOutput) (file_path old_content : str)
    (new_content : option str) (edit_details : list EditRegionDetail)
  : option SearchReplaceOutput :=
  match r with
  | EditsApplied a =>
      let new_text := default [] new_content in
      details ←
        match edit_details with
        | [] => Some [mkEditDetail old_content 1 new_text 1 [] [] []]
        | _ => mapM (to_edit_detail (split NL old_content)) edit_details
        end;
      let out :=
        match warnings a with
        | [] => snippet a
        | ws => join [NL] ws ++ [NL; NL] ++ snippet a
        end in
      Some (SrEditsApplied (mkEditsApplied old_content new_text out (absolute_path a) details))
  | Error err =>
      let msg := error_text err in
      Some (match error err with
            | FileNotFound => SrFileNotFound msg
            | InvalidInput => SrInvalidInput msg
            | _ => SrNoMatchesFound msg file_path
            end)
  end.

(** ** The machine *)

Class HashlineEnv `{AsyncFs} : Type := {
  tilde : str → str;
  try_canonicalize : Fs → str → option str;
  try_resolve_unicode_filename : Fs → str → option str;
  canonicalize_with_timeout : Fs → str → str;
  path_not_found_hint : Fs → str → str → str → str;
  (** [e.io_error_kind() == Some(NotFound)] *)
  is_not_found : FsError → bool;
}.

Record HashlineEditInput : Type := mkEditInput { file_path : str; input_edits : list HashlineOp }.

(** What the tool takes from the call and from the shared resources. *)
Record Resources : Type := mkResources {
  ext_cwd : option str;
  res_cwd : option str;
  display_cwd : option str;
  scheme_params : option HashlineSchemeParams;
  hints_enabled : bool;
}.

Inductive ToolError : Type :=
| MissingResource (name : str)
| InvalidArguments (message : str).

Section Run.
Context `{HashlineEnv}.

Definition format_not_found_error (fs : Fs) (display_path resolved_path cwd display_dcwd : str)
    (hints : bool) : str :=
  let base := lit "Error: " ++ display_path ++ lit " does not exist." in
  if hints then base ++ path_not_found_hint fs resolved_path cwd display_dcwd else base.

Definition file_not_found (fs : Fs) (res : Resources) (cwd display_dcwd path : str)
    (input : HashlineEditInput) : SearchReplaceOutput :=
  SrFileNotFound
    (format_not_found_error fs (path_join display_dcwd (file_path input)) path cwd display_dcwd
       (hints_enabled res)).

(** The canonical path of an existing file, exact or by a similar name. *)
Definition existing_path (fs : Fs) (joined_path : str) : option str :=
  match try_canonicalize fs joined_path with
  | Some p => Some p
  | None => try_resolve_unicode_filename fs joined_path
  end.

(** The [write] of a file that does not exist. *)
Definition create_file (scheme : BoxedScheme) (res : Resources) (cwd display_dcwd joined_path : str)
    (input : HashlineEditInput) (content : str) (fs : Fs) : option (Fs * SearchReplaceOutput) :=
  match write_file fs joined_path (as_bytes content) with
  | (fs, Err e) =>
      Some (fs, if is_not_found e then file_not_found fs res cwd display_dcwd joined_path input
                else SrInvalidInput (lit "Failed to write file: " ++ fs_error_display e))
  | (fs, Ok _) =>
      let abs := canonicalize_with_timeout fs joined_path in
      r ← apply_edits scheme content (input_edits input) abs;
      out ← to_search_replace (output r) abs [] (new_content r) (edit_details r);
      Some (fs, out)
  end.

Definition write_failed (e : FsError) : HashlineEditOutput :=
  Error (plain_error IoError
    (lit "Edits validated but failed to write file: " ++ fs_error_display e ++ lit ".") None).

(** The edit of the file at [path]. *)
Definition edit_file (scheme : BoxedScheme) (res : Resources) (cwd display_dcwd path : str)
    (input : HashlineEditInput) (fs : Fs) : option (Fs * SearchReplaceOutput) :=
  match read_file fs path with
  | Err e =>
      Some (fs, if is_not_found e then file_not_found fs res cwd display_dcwd path input
                else SrInvalidInput (lit "Failed to read file: " ++ fs_error_display e))
  | Ok file_bytes =>
      let old_content := from_utf8_lossy file_bytes in
      r ← apply_edits scheme old_content (input_edits input) path;
      match new_content r with
      | Some c =>
          match write_file fs path (as_bytes c) with
          | (fs, Err e) =>
              out ← to_search_replace (write_failed e) path old_content None [];
              Some (fs, out)
          | (fs, Ok _) =>
              out ← to_search_replace (output r) path old_content (new_content r) (edit_details r);
              Some (fs, out)
          end
      | None =>
          out ← to_search_replace (output r) path old_content None (edit_details r);
          Some (fs, out)
      end
  end.

Definition run (res : Resources) (input : HashlineEditInput) (fs : Fs)
  : option (Fs * result SearchReplaceOutput ToolError) :=
  if is_empty (input_edits input) then
    Some (fs, Ok (SrInvalidInput (lit "No edit operations provided.")))
  else
    match (match ext_cwd res with Some c => Some c | None => res_cwd res end) with
    | None => Some (fs, Err (MissingResource (lit "Cwd")))
    | Some cwd =>
        built ← build_scheme (default default_params (scheme_params res));
        match built with
        | Err e => Some (fs, Err (InvalidArguments e))
        | Ok scheme =>
            let display_dcwd := display_cwd_or_cwd cwd (display_cwd res) in
            let joined_path := resolve_model_path tilde cwd (display_cwd res) (file_path input) in
            '(fs, out) ←
              match existing_path fs joined_path with
              | Some path => edit_file scheme res cwd display_dcwd path input fs
              | None =>
                  match input_edits input with
                  | [Write content] =>
                      create_file scheme res cwd display_dcwd joined_path input content fs
                  | _ => Some (fs, file_not_found fs res cwd display_dcwd joined_path input)
                  end
              end;
            Some (fs, Ok out)
        end
    end.
End Run.

(** ** [grep.rs] *)

Definition is_ascii_digit_byte (b : Z) : bool := in_range 48 57 b.

Fixpoint leading_digits (s : str) : str :=
  match s with
  | c :: s' => if is_ascii_digit_byte c then c :: leading_digits s' else []
  | [] => []
  end.

Definition parse_rg_line (l : str) : option (Z * char * str) :=
  let digits := leading_digits l in
  match digits, drop (length digits) l with
  | [], _ => None
  | _, [] => None
  | _, sep :: content =>
      if ((sep =? COLON) || (sep =? DASH))%Z then
        num ← parse_unsigned U64_MAX digits; Some (num, sep, content)
      else None
  end.

Abbreviation Cache := (gmap str (list Anchor)) (only parsing).

Section Grep.
Context `{AsyncFs} {A : Type} `{AnchorScheme A} (scheme : A).

Definition get_or_generate (fs : Fs) (cache : Cache) (path : str)
  : option (Cache * option (list Anchor)) :=
  match cache !! path with
  | Some anchors => Some (cache, Some anchors)
  | None =>
      match read_file fs path with
      | Err _ => Some (cache, None)
      | Ok bytes =>
          anchors ← generate_anchors scheme (split_lines (from_utf8_lossy bytes));
          Some (<[path := anchors]> cache, Some anchors)
      end
  end.

(** The anchors for a numbered line, when the current file has that line. *)
Definition anchored (fs : Fs) (cache : Cache) (current_file : option str) (l : str)
  : option (Cache * option str) :=
  match parse_rg_line l, current_file with
  | Some (line_num, separator, content), Some file_path =>
      '(cache, anchors) ← get_or_generate fs cache file_path;
      match anchors with
      | Some anchors =>
          if (saturating_sub line_num 1 <? len anchors)%Z then
            a ← index anchors (line_num - 1);
            Some (cache, Some (fmt_Z line_num ++ [COLON] ++ anchor_suffix a ++ [separator] ++ content))
          else Some (cache, None)
      | None => Some (cache, None)
      end
  | _, _ => Some (cache, None)
  end.

Definition is_header (l : str) : bool :=
  match parse_rg_line l with
  | None =>
      negb (starts_with l (lit "Found ")) && negb (starts_with l (lit "... [")) && negb (is_empty l)
  | Some _ => false
  end.

(** The loop over [body.lines()]; [result] is the text so far. *)
Fixpoint inject_loop (fs : Fs) (cwd : str) (body : list str) (result : str)
    (current_file : option str) (cache : Cache) : option str :=
  match body with
  | [] => Some result
  | l :: body' =>
      let result :=
        if negb (ends_with result [NL]) && negb (ends_with result (lit ">"))
        then result ++ [NL] else result in
      if str_eqb l (lit "--") then inject_loop fs cwd body' (result ++ l) current_file cache
      else
        '(cache, replaced) ← anchored fs cache current_file l;
        match replaced with
        | Some text => inject_loop fs cwd body' (result ++ text) current_file cache
        | None =>
            let current_file := if is_header l then Some (path_join cwd l) else current_file in
            inject_loop fs cwd body' (result ++ l) current_file cache
        end
  end.

Definition inject_anchors (stdout_bytes : bytes) (cwd : str) (fs : Fs) : option bytes :=
  let stdout := from_utf8_lossy stdout_bytes in
  match find stdout (lit ">" ++ [NL]), rfind stdout ([NL] ++ lit "</workspace_result>") with
  | Some start, Some end_ =>
      let body_start := (start + 2)%nat in
      if (end_ <? body_start)%nat then None
      else
        out ← inject_loop fs cwd (lines (take (end_ - body_start) (drop body_start stdout)))
                (take body_start stdout) None ∅;
        Some (as_bytes (out ++ drop end_ stdout))
  | _, _ => Some stdout_bytes
  end.
End Grep.
