(* ===== verification/HashlineTheorems.v ===== *)
(** * What the hashline tools promise

    The theorems of the hashline edit against the contract of a scheme, those of
    the schemes themselves, and those of the tools.
    At the end are the runs where code and comments part. *)
From S2P Require Import Prelude RustStr StrSearch FileSystem HashlineScheme.
From S2P Require Import HashlineSchemeFacts HashlineEdit HashlineApplyFacts.
From S2P Require Import HashlineBatch HashlineTool.

(** ** Whitespace *)

(** The loop as a fold over the pair of its variables. *)
Definition hash_step (st : Z * bool) (byte : Z) : Z * bool :=
  if is_ascii_whitespace byte then (if st.2 then st.1 else mix st.1 32, true)
  else (mix st.1 byte, false).

Lemma line_hash_fold bs : ∀ h p, line_hash_loop bs h p = (foldl hash_step (h, p) bs).1.
Proof.
  induction bs as [|b bs IH]; intros h p; [done|]. cbn [line_hash_loop foldl].
  unfold hash_step at 2. cbn [fst snd].
  destruct (is_ascii_whitespace b); [destruct p|]; by rewrite IH.
Qed.

Definition ascii_blank (w : str) : Prop := w ≠ [] ∧ Forall (λ c, is_ascii_whitespace c = true) w.

Lemma hash_run w : ∀ st,
  ascii_blank w → foldl hash_step st w = (if st.2 then st.1 else mix st.1 32, true).
Proof.
  intros [h p] [Hn Hw]. destruct w as [|c w]; [done|]. inversion_clear Hw as [|? ? Hc Hw'].
  cbn [foldl]. unfold hash_step at 2. rewrite Hc. clear Hn Hc. cbn [fst snd].
  generalize (if p then h else mix h 32). intros h'.
  induction Hw' as [|d w Hd _ IH]; [done|]. cbn [foldl]. unfold hash_step at 2. by rewrite Hd.
Qed.

Lemma ascii_blank_blank w : ascii_blank w → blank w.
Proof.
  intros [_ Hw]. eapply Forall_impl; [exact Hw|]. unfold is_ascii_whitespace, is_whitespace, in_range.
  cbn. lia.
Qed.

Lemma ascii_blank_bytes w : ascii_blank w → as_bytes w = w.
Proof.
  intros [_ Hw]. induction Hw as [|c w Hc _ IH]; [done|]. cbn [as_bytes]. unfold encode_char.
  replace (c <? 128)%Z with true by (unfold is_ascii_whitespace in Hc; lia). cbn. by rewrite IH.
Qed.

Lemma as_bytes_app a b : as_bytes (a ++ b) = as_bytes a ++ as_bytes b.
Proof. induction a as [|c a IH]; [done|]. cbn [app as_bytes]. by rewrite IH, app_assoc. Qed.

(** What is trimmed from a text with an inner run of whitespace. *)
Lemma trim_inner a w b :
  blank w →
  (blank a ∧ trim (a ++ w ++ b) = trim b) ∨
  (blank b ∧ trim (a ++ w ++ b) = trim a) ∨
  (trim (a ++ w ++ b) = trim_start a ++ w ++ trim_end b ∧ trim_start a ≠ [] ∧ trim_end b ≠ []).
Proof.
  intros Hw. destruct (blank_dec a) as [Ha|Ha].
  - left. split; [done|]. unfold trim. by rewrite !trim_start_blank.
  - right. destruct (trim_end b) as [|c r] eqn:Eb.
    + left. apply trim_end_nil in Eb. split; [done|].
      apply (trim_outer [] a (w ++ b)); [constructor|]. by apply Forall_app.
    + right. split_and!; [|done..]. unfold trim. unfold trim_start at 1, trim_start_matches.
      rewrite drop_kept by done. rewrite app_assoc, trim_end_keep by (by rewrite Eb).
      by rewrite Eb, <- app_assoc.
Qed.

Lemma hash_inner a w b :
  ascii_blank w → line_hash (a ++ w ++ b) = line_hash (a ++ [32%Z] ++ b).
Proof.
  intros Hw. assert (Hs : ascii_blank [32%Z]) by (split; [done|by repeat constructor]).
  pose proof (trim_inner a w b (ascii_blank_blank _ Hw)) as H1.
  pose proof (trim_inner a [32%Z] b (ascii_blank_blank _ Hs)) as H2.
  unfold line_hash.
  assert (Hab : blank a → trim_start a = []) by (intros; by apply drop_while_nil).
  assert (Hbb : blank b → trim_end b = []) by (intros; by apply trim_end_nil).
  assert (Hal : ∀ x, blank x → trim x = []).
  { intros x Hx. apply trim_end_nil. unfold trim_start, trim_start_matches.
    rewrite (proj2 (drop_while_nil _ x) Hx). constructor. }
  destruct H1 as [[Ha ->]|[[Hb ->]|(-> & Ha & Hb)]]; destruct H2 as [[Ha' ->]|[[Hb' ->]|(-> & Ha' & Hb')]];
    try done; try (exfalso; by auto); [by rewrite !Hal..|].
  rewrite !line_hash_fold, !as_bytes_app, !foldl_app.
  rewrite (ascii_blank_bytes w), (ascii_blank_bytes [32%Z]) by done.
  by rewrite (hash_run w), (hash_run [32%Z]).
Qed.

(** ** From an edit to the output *)

Lemma context_lines_total ls a b : (0 ≤ a)%Z → (b ≤ len ls)%Z → is_Some (context_lines ls a b).
Proof.
  intros Ha Hb. unfold context_lines. destruct (Z.ltb_spec a b); [|by eexists].
  rewrite slice_Some by lia. by eexists.
Qed.

Lemma to_edit_detail_total ls d :
  (1 ≤ old_line d ≤ len ls + 1)%Z → is_Some (to_edit_detail ls d).
Proof.
  intros Hd. unfold to_edit_detail.
  set (i := saturating_sub (old_line d) 1).
  assert (Hi : (0 ≤ i ≤ len ls)%Z) by (unfold i, saturating_sub; lia).
  destruct (context_lines_total ls (saturating_sub i CTX_COUNT) i) as [b ->];
    [unfold saturating_sub; lia|lia|]. cbn [mbind option_bind].
  set (n := if is_empty (old_text d) then 0%Z else len (split NL (old_text d))).
  assert (Hn : (0 ≤ n)%Z) by (unfold n, len; destruct (is_empty (old_text d)); lia).
  destruct (context_lines_total ls (i + n) (Z.min (i + n + CTX_COUNT) (len ls))) as [a ->];
    [lia|lia|]. by eexists.
Qed.

Lemma to_search_replace_total out path content c details :
  Forall (λ d, 1 ≤ old_line d ≤ len (split NL content) + 1)%Z details →
  is_Some (to_search_replace out path content c details).
Proof.
  intros Hd. unfold to_search_replace. destruct out as [a|e]; [|by eexists].
  destruct details as [|d ds]; [by eexists|].
  edestruct (mapM_total (to_edit_detail (split NL content)) (d :: ds)) as [l ->]; [|by eexists].
  intros x Hx. rewrite Forall_forall in Hd. by apply to_edit_detail_total, Hd.
Qed.

Section Tool.
Context {A : Type} `{LawfulScheme A} (s : A) (Hok : scheme_ok s).

Lemma batch_fits_write content c ops :
  batch_fits content ops → Write c ∈ ops → fits (split_lines c).
Proof.
  unfold batch_fits, batch_size, fits, len. intros Hb Hin. pose proof (split_lines_bound c) as Hc.
  assert (Hle : (S (length c) ≤ sum_list_with (λ op, S (length (op_content op))) ops)%nat).
  { clear Hb Hc. induction ops as [|op ops IH]; [by apply elem_of_nil in Hin|].
    cbn [sum_list_with]. apply elem_of_cons in Hin as [<-|Hin]; [cbn; lia|]. specialize (IH Hin). lia. }
  lia.
Qed.

(** No file and no batch makes the edit panic, and what it reports can be
    turned into the output of the tool. *)
Lemma apply_edits_total content ops path :
  batch_fits content ops →
  ∃ r, apply_edits s content ops path = Some r ∧
    Forall (λ d, 1 ≤ old_line d ≤ len (split NL content) + 1)%Z (edit_details r).
Proof.
  intros Hb. destruct (apply_edits_cases s content ops path) as [(c & -> & ->)| ->].
  - destruct (apply_write_total s Hok c path) as [r Hr];
      [eapply batch_fits_write; [exact Hb|left]|]. exists r. split; [done|].
    unfold apply_write in Hr. destruct (detect_anchor_prefix_in_content c);
      apply bind_Some in Hr as (? & _ & [= <-]); constructor.
  - destruct (apply_batch_spec s Hok content ops path Hb) as (r & -> & Hend). exists r.
    split; [done|]. destruct Hend as [[e ->]|(os & ap & ds & Hr & Hc & -> & _ & Hds)]; [constructor|].
    cbn [edit_details].
    destruct (resolve_all_total s Hok ops 0 (len ops) (split_lines content)) as (r' & Hr' & Hos);
      [by eapply batch_fits_lines|apply split_lines_pos|].
    rewrite Hr in Hr'. injection Hr' as <-. destruct (Hos os eq_refl) as (Hg & _).
    assert (Hlen : len (split NL content) = len (split_lines content))
      by (unfold len; by rewrite split_lines_length).
    rewrite Hlen. eapply Forall2_Forall_r; [exact Hds|].
    rewrite <- Permutation_rev, sort_by_perm. eapply Forall_impl; [exact Hg|].
    intros o [Hs He _] d (-> & _). lia.
Qed.

(** New content comes with an applied edit, and only with one. *)
Lemma apply_edits_coherent content ops path r :
  batch_fits content ops → apply_edits s content ops path = Some r →
  match output r with EditsApplied _ => is_Some (new_content r) | Error _ => new_content r = None end.
Proof.
  intros Hb Hr. destruct (apply_edits_cases s content ops path) as [(w & _ & E)|E]; rewrite E in Hr.
  - unfold apply_write in Hr. destruct (detect_anchor_prefix_in_content w).
    + apply bind_Some in Hr as (? & _ & Hr). injection Hr as <-. done.
    + unfold build_write_result in Hr. apply bind_Some in Hr as (o & Ho & Hr). injection Hr as <-.
      apply bind_Some in Ho as ([? ?] & _ & Ho). injection Ho as <-. by eexists.
  - destruct (apply_batch_spec s Hok content ops path Hb) as (r' & Hr' & Hend).
    rewrite Hr in Hr'. injection Hr' as <-.
    destruct Hend as [[e ->]|(os & a & ds & _ & _ & -> & _)]; [done|by eexists].
Qed.
End Tool.

(** ** Batches *)

Definition is_write (op : HashlineOp) : bool := match op with Write _ => true | _ => false end.

Lemma no_single_write {A} `{LawfulScheme A} (s : A) content ops path :
  Forall (λ op, is_write op = false) ops →
  apply_edits s content ops path = apply_batch s content ops path.
Proof.
  intros Hw. destruct (apply_edits_cases s content ops path) as [(c & -> & _)|E]; [|done].
  inversion_clear Hw. done.
Qed.

(** Operation [i] of a resolved batch, resolved by itself. *)
Definition each_resolves {A} `{AnchorScheme A} (s : A) (ls : list str) (ops : list HashlineOp)
    (k : Z) (os : list ResolvedOp) : Prop :=
  length os = length ops ∧
  ∀ i op, ops !! i = Some op → ∃ o, os !! i = Some o ∧
    resolve_op s op (k + Z.of_nat i) ls = Some (Ok o).

Lemma resolve_all_each {A} `{AnchorScheme A} (s : A) ls total ops : ∀ k os,
  resolve_all s ops k total ls = Some (Ok os) ↔ each_resolves s ls ops k os.
Proof.
  unfold each_resolves. induction ops as [|op ops IH]; intros k os; cbn [resolve_all].
  - split; [intros [= <-]; split; [done|]; intros i op Hi; by rewrite lookup_nil in Hi|].
    intros [Hl _]. by destruct os.
  - split.
    + intros E. apply bind_Some in E as ([o|e] & Ho & E); [|done].
      destruct (resolve_all s ops (k + 1) total ls) as [[os'|e]|] eqn:Er; [|done..].
      injection E as <-. apply IH in Er as [Hl Hi]. split; [cbn; lia|].
      intros [|i] op' Hop; cbn [lookup list_lookup] in *.
      * injection Hop as <-. exists o. split; [done|]. by rewrite Z.add_0_r.
      * destruct (Hi i op' Hop) as (o' & Ho' & Hr). exists o'. split; [done|].
        by replace (k + Z.of_nat (S i))%Z with (k + 1 + Z.of_nat i)%Z by lia.
    + intros [Hl Hi]. destruct os as [|o os]; [done|].
      destruct (Hi 0%nat op eq_refl) as (o' & [= <-] & Hr). rewrite Z.add_0_r in Hr.
      rewrite Hr. cbn [mbind option_bind].
      rewrite (proj2 (IH (k + 1)%Z os)); [done|]. split; [cbn in Hl; lia|].
      intros i op' Hop. destruct (Hi (S i) op' Hop) as (o' & Ho' & Hr'). exists o'.
      split; [done|]. by replace (k + 1 + Z.of_nat i)%Z with (k + Z.of_nat (S i))%Z by lia.
Qed.

(** C3: an accepted batch of edits gives the lines of the reference edit: every
    line outside the replaced ranges as it was, every range replaced by its new
    lines, the insertions at one position in the order of the request; a refused
    batch gives no content at all. *)
Theorem edits_meet_reference {A} `{LawfulScheme A} (s : A) content ops path r :
  scheme_ok s → batch_fits content ops → Forall (λ op, is_write op = false) ops →
  apply_edits s content ops path = Some r →
  match output r with
  | EditsApplied a => applied a = len ops ∧
      ∃ os, each_resolves s (split_lines content) ops 0 os ∧
            new_content r = Some (join [NL] (reference_edit os (split_lines content)))
  | Error _ => new_content r = None ∧ edit_details r = []
  end.
Proof.
  intros Hok Hb Hw. rewrite no_single_write by done.
  destruct (apply_batch_spec s Hok content ops path Hb) as (r' & -> & Hend). intros [= <-].
  destruct Hend as [[e ->]|(os & a & ds & Hr & _ & -> & Ha & _)]; [done|].
  split; [done|]. exists os. split; [by eapply resolve_all_each|done].
Qed.

Definition demo_ops : list HashlineOp :=
  [InsertAfter (lit "0:") (lit "A"); Replace (lit "2:fqb:zjt") (Some (lit "omp:zjt")) (lit "X")].

Lemma demo_scheme_ok : scheme_ok chunk_new.
Proof. repeat split; discriminate. Qed.

Lemma demo_batch_fits : batch_fits demo_file demo_ops.
Proof. by vm_compute. Qed.

Lemma edits_meet_reference_witness :
  ∃ r a, apply_edits chunk_new demo_file demo_ops (lit "/f") = Some r ∧ output r = EditsApplied a ∧
    match output r with
    | EditsApplied a => applied a = len demo_ops ∧
        ∃ os, each_resolves chunk_new (split_lines demo_file) demo_ops 0 os ∧
              new_content r = Some (join [NL] (reference_edit os (split_lines demo_file)))
    | Error _ => new_content r = None ∧ edit_details r = []
    end.
Proof.
  destruct (apply_edits chunk_new demo_file demo_ops (lit "/f")) as [r|] eqn:E;
    [|vm_compute in E; discriminate].
  assert (Ha : ∃ a, output r = EditsApplied a).
  { vm_compute in E. injection E as <-. by eexists. }
  destruct Ha as [a Ha]. exists r, a. split; [done|]. split; [done|].
  apply (edits_meet_reference chunk_new demo_file demo_ops (lit "/f") r); [|..|exact E].
  - exact demo_scheme_ok.
  - exact demo_batch_fits.
  - repeat constructor.
Defined.

(** C25: a batch is applied exactly when each of its operations resolves by
    itself against the file as it was, and no two of them touch the same lines;
    anything else refuses all of it. *)
Theorem batch_accepted_iff {A} `{LawfulScheme A} (s : A) content ops path :
  scheme_ok s → batch_fits content ops → Forall (λ op, is_write op = false) ops →
  ∃ r, apply_edits s content ops path = Some r ∧
    (is_Some (new_content r) ↔
     ∃ os, each_resolves s (split_lines content) ops 0 os ∧ StronglySorted compatible os).
Proof.
  intros Hok Hb Hw. rewrite no_single_write by done.
  pose proof (batch_fits_lines _ _ Hb) as Hf. pose proof (split_lines_pos content) as Hp.
  destruct (apply_batch_spec s Hok content ops path Hb) as (r & Hr & Hend).
  exists r. split; [done|].
  destruct (resolve_all_total s Hok ops 0 (len ops) (split_lines content) Hf Hp) as (x & Hx & Hos).
  destruct Hend as [[e ->]|(os & a & ds & Hos' & Hc & -> & _)]; cbn [new_content failed].
  - split; [by intros [? ?]|]. intros (os & Hres & Hcomp). exfalso.
    apply (resolve_all_each s _ (len ops)) in Hres. unfold apply_batch in Hr. rewrite Hres in Hr.
    cbn [mbind option_bind] in Hr. rewrite Hres in Hx. injection Hx as <-.
    destruct (Hos os eq_refl) as (Hg & Ho & _ & _ & Hsum).
    apply (check_overlaps_exact _ _ Hg) in Hcomp. rewrite Hcomp in Hr.
    destruct (apply_resolved_spec s Hok (split_lines content) (len ops) path os)
      as (ap & ds & Hap & _); try done; [apply split_lines_no_sep|..].
    + unfold batch_fits, batch_size in Hb. pose proof (split_lines_bound content). lia.
    + rewrite Hap in Hr. discriminate Hr.
  - split; [|by eexists]. intros _. exists os. rewrite Hos' in Hx. injection Hx as <-.
    destruct (Hos os eq_refl) as (Hg & _). split; [by eapply resolve_all_each|].
    by apply (check_overlaps_exact _ _ Hg).
Qed.

Lemma batch_accepted_iff_witness :
  ∃ r, apply_edits chunk_new demo_file demo_ops (lit "/f") = Some r ∧
    (is_Some (new_content r) ↔
     ∃ os, each_resolves chunk_new (split_lines demo_file) demo_ops 0 os ∧
           StronglySorted compatible os).
Proof.
  apply (batch_accepted_iff chunk_new demo_file demo_ops (lit "/f")).
  - exact demo_scheme_ok.
  - exact demo_batch_fits.
  - repeat constructor.
Defined.

(** The detail of every edit names, from the top down, the lines it took
    out of the old file and the place of its new lines in the new one, whatever
    the edits above it inserted or removed. *)
Theorem details_locate_edits {A} `{LawfulScheme A} (s : A) content ops path a c details :
  scheme_ok s → batch_fits content ops → Forall (λ op, is_write op = false) ops →
  apply_edits s content ops path = Some (mkApplyResult (EditsApplied a) c details) →
  ∃ os result,
    each_resolves s (split_lines content) ops 0 os ∧ c = Some (join [NL] result) ∧
    Forall2 (detail_of (split_lines content) result) (rev (sort_by bottom_up os)) details.
Proof.
  intros Hok Hb Hw. rewrite no_single_write by done.
  destruct (apply_batch_spec s Hok content ops path Hb) as (r & -> & Hend).
  destruct Hend as [[e ->]|(os & a' & ds & Hr & _ & -> & _ & Hd)]; [done|].
  intros [= <- <- <-]. exists os, (reference_edit os (split_lines content)).
  split; [by eapply resolve_all_each|done].
Qed.

Lemma details_locate_edits_witness :
  ∃ a c details,
    apply_edits chunk_new demo_file demo_ops (lit "/f")
    = Some (mkApplyResult (EditsApplied a) c details) ∧
    map new_line details = [1; 3]%Z ∧
    ∃ os result, each_resolves chunk_new (split_lines demo_file) demo_ops 0 os ∧
      c = Some (join [NL] result) ∧
      Forall2 (detail_of (split_lines demo_file) result) (rev (sort_by bottom_up os)) details.
Proof.
  destruct (apply_edits chunk_new demo_file demo_ops (lit "/f")) as [[[a|e] c ds]|] eqn:E;
    [|exfalso; vm_compute in E; discriminate E..].
  exists a, c, ds. split; [done|]. split.
  - vm_compute in E. injection E as <- <- <-. reflexivity.
  - apply (details_locate_edits chunk_new demo_file demo_ops (lit "/f") a c ds); [|..|exact E].
    + exact demo_scheme_ok.
    + exact demo_batch_fits.
    + repeat constructor.
Defined.

(** ** Anchors *)

(** C16: what the read tool prints leads back to the line: for every row, the
    row itself and the anchor before its arrow are accepted by the edit tool on
    the unchanged file, as the line the row shows. *)
Theorem rows_lead_back {A} `{LawfulScheme A} (s : A) content offset limit :
  scheme_ok s → fits (split_lines content) →
  ∃ rows, format_hashline_content s content offset limit
          = Some (join [NL] rows,
                  join [NL] (map snd (window (split_lines content) offset limit))) ∧
    length rows = length (window (split_lines content) offset limit) ∧
    ∀ k i l, window (split_lines content) offset limit !! k = Some (i, l) →
      ∃ anchor, rows !! k = Some (anchor ++ ARROW :: l) ∧
        split_lines content !! Z.to_nat i = Some l ∧
        validate_anchor s anchor (split_lines content) = Some (Ok i) ∧
        validate_anchor s (anchor ++ ARROW :: l) (split_lines content) = Some (Ok i).
Proof.
  intros Hok Hf. set (ls := split_lines content) in *. rewrite (format_eq s Hok) by done. fold ls.
  eexists. split; [done|]. split; [by rewrite length_map|]. intros k i l Hk.
  exists (render (the_anchor s ls (Z.to_nat i) l)).
  split; [by rewrite list_lookup_fmap, Hk|].
  assert (Hi : (0 ≤ i)%Z ∧ ls !! Z.to_nat i = Some l).
  { unfold window in Hk. apply lookup_take_Some in Hk as [Hk _].
    rewrite lookup_drop, enumerate_lookup in Hk. apply fmap_Some in Hk as (x & Hx & [= -> ->]).
    split; [lia|]. by rewrite Nat2Z.id. }
  destruct Hi as [Hi Hl]. split; [done|].
  destruct (validate_anchor_fresh s Hok ls (Z.to_nat i) l l Hf Hl) as [E1 E2].
  by rewrite Z2Nat.id in E1, E2.
Qed.

Lemma rows_lead_back_witness :
  ∃ rows, format_hashline_content checkpoint_new demo_file (Some 2%Z) (Some 2%Z)
          = Some (join [NL] rows,
                  join [NL] (map snd (window (split_lines demo_file) (Some 2%Z) (Some 2%Z)))) ∧
    length rows = 2%nat.
Proof.
  edestruct (rows_lead_back checkpoint_new demo_file (Some 2%Z) (Some 2%Z)) as (rows & E & Hl & _).
  - repeat split; discriminate.
  - by vm_compute.
  - exists rows. split; [exact E|]. rewrite Hl. reflexivity.
Defined.

(** C39: under a scheme with its lengths in range, in a file whose lines an
    [i64] can count, an anchor is accepted only for a line that carries its
    hashes: either the anchor reads as one, names the line, and its local hash
    and, where the scheme has one there, its context hash are those of the line
    now, or it does not and its hashes are those of exactly one line of the
    file, which is the one it is accepted for. *)
Theorem accepted_anchor_names_line {A} `{LawfulScheme A} (s : A) x ls i :
  scheme_ok s → fits ls → validate_anchor s x ls = Some (Ok i) →
  ∃ l, index ls i = Some l ∧
    match parse (strip_arrow x) with
    | Some p => pa_line p = (i + 1)%Z ∧ pa_local p = hash_letters (line_hash l) (hash_len s) ∧
        (line_context s ls (Z.to_nat i) = None ∨ pa_context p = line_context s ls (Z.to_nat i))
    | None =>
        List.filter (suffix_matches (strip_arrow x)) (the_anchors s ls)
        = [the_anchor s ls (Z.to_nat i) l]
    end.
Proof.
  intros Hok Hf. unfold validate_anchor. destruct (parse (strip_arrow x)) as [p|] eqn:Ep.
  - cbn [mbind option_bind]. pose proof (parse_line _ _ Ep) as Hp. intros E.
    apply bind_Some in E as (v & Hv & E). apply (validate_inv s Hok) in Hv; [|done|lia].
    destruct v; [injection E as <-|apply bind_Some in E as (? & _ & E); discriminate E|discriminate E].
    destruct Hv as (Hle & l & Hl & Hloc & Hctx). exists l.
    split; [apply index_Some; split; [lia|done]|]. by replace (pa_line p - 1 + 1)%Z with (pa_line p) by lia.
  - unfold recover_anchor_by_suffix. rewrite (anchors_eq s Hok) by done. cbn [mbind option_bind].
    destruct (List.filter _ (the_anchors s ls)) as [|a [|b r]] eqn:Ef;
      [intros E; apply bind_Some in E as (? & _ & E); discriminate E| |
       intros E; apply bind_Some in E as (? & _ & E); discriminate E].
    assert (Ha : In a (the_anchors s ls)).
    { apply (filter_In (suffix_matches (strip_arrow x))). rewrite Ef. by left. }
    apply list_elem_of_In, the_anchors_elem in Ha as (k & l & Hk & ->).
    change (mkParsed _ _ _) with (as_parsed (the_anchor s ls k l)).
    rewrite the_anchor_valid by done. cbn [mbind option_bind]. intros [= <-].
    exists l. replace (Z.of_nat k + 1 - 1)%Z with (Z.of_nat k) by lia. rewrite Nat2Z.id.
    split; [by rewrite index_nat|done].
Qed.

Lemma accepted_anchor_names_line_witness :
  ∃ l, index (split_lines demo_file) 2 = Some l ∧
    match parse (strip_arrow (lit "omp:zjt")) with
    | Some p => pa_line p = 3%Z ∧ pa_local p = hash_letters (line_hash l) (hash_len chunk_new) ∧
        (line_context chunk_new (split_lines demo_file) 2 = None ∨
         pa_context p = line_context chunk_new (split_lines demo_file) 2)
    | None =>
        List.filter (suffix_matches (strip_arrow (lit "omp:zjt")))
          (the_anchors chunk_new (split_lines demo_file))
        = [the_anchor chunk_new (split_lines demo_file) 2 l]
    end.
Proof.
  apply (accepted_anchor_names_line chunk_new (lit "omp:zjt") (split_lines demo_file) 2).
  - exact demo_scheme_ok.
  - by vm_compute.
  - by vm_compute.
Defined.

(** The anchor that a stale-anchor error suggests works on a retry: it is
    accepted for the line the error names, which is the only one within fifteen
    lines that the search takes for the line of the stale anchor. *)
Theorem suggested_anchor_retries {A} `{LawfulScheme A} (s : A) x ls e fresh :
  scheme_ok s → fits ls → validate_anchor s x ls = Some (Err e) → shifted_anchor e = Some fresh →
  ∃ p n, parse (strip_arrow x) = Some p ∧ shifted_to e = Some n ∧
    candidates_near s p ls DEFAULT_SEARCH_RADIUS = [n] ∧
    validate_anchor s fresh ls = Some (Ok (n - 1)%Z).
Proof.
  intros Hok Hf E Hs. unfold validate_anchor in E. apply bind_Some in E as (rec & Hrec & E).
  destruct rec as [p|].
  2: { apply bind_Some in E as (e' & He & [= <-]). unfold malformed_error in He.
       apply bind_Some in He as ([a b] & _ & [= <-]). discriminate Hs. }
  apply bind_Some in E as (v & Hv & E).
  assert (Hp : (1 ≤ pa_line p)%Z ∧ parse (strip_arrow x) = Some p ∨ v = Valid).
  { destruct (parse (strip_arrow x)) as [q|] eqn:Eq.
    - injection Hrec as <-. left. split; [|done]. apply parse_line in Eq. lia.
    - right. destruct (recover_spec s Hok (strip_arrow x) ls Hf) as (r & Hr & Hall).
      rewrite Hr in Hrec. injection Hrec as ->. destruct (Hall p eq_refl) as (k & l & Hk & ->).
      rewrite the_anchor_valid in Hv by done. by injection Hv as <-. }
  destruct Hp as [[Hp Hx]| ->]; [|discriminate E]. apply (validate_inv s Hok) in Hv; [|done..].
  destruct v; [discriminate E| |injection E as <-; discriminate Hs].
  apply bind_Some in E as (e' & He & [= <-]). unfold stale_error in He.
  rewrite (find_shifted_eq s Hok) in He by (try done; unfold DEFAULT_SEARCH_RADIUS, I64_MAX; lia).
  cbn [mbind option_bind] in He. rewrite (anchors_eq s Hok) in He by done. cbn [mbind option_bind] in He.
  apply bind_Some in He as (rows & _ & He). apply bind_Some in He as (cur & _ & He).
  apply bind_Some in He as ([[[[to fr] cands] kind] m] & Hrep & [= <-]).
  cbn [shifted_anchor shifted_to] in *. subst fr. exists p.
  destruct (candidates_near s p ls DEFAULT_SEARCH_RADIUS) as [|n [|n' r]] eqn:Ec;
    [discriminate Hrep| |discriminate Hrep]. exists n.
  assert (Hn : (1 ≤ n ≤ len ls)%Z).
  { assert (Hin : n ∈ candidates_near s p ls DEFAULT_SEARCH_RADIUS) by (rewrite Ec; left).
    apply candidates_near_elem in Hin; [tauto|lia|unfold DEFAULT_SEARCH_RADIUS; lia]. }
  unfold shift_report in Hrep. destruct (index_lt ls (n - 1)) as [l Hl]; [lia|].
  rewrite (index_anchor s ls (n - 1) l Hl) in Hrep. cbn [mbind option_bind] in Hrep.
  injection Hrep as <- <- <- <- <-. split_and!; [done..|].
  apply index_Some in Hl as [_ Hl].
  assert (Er : fmt_Z n ++ [COLON] ++ anchor_suffix (the_anchor s ls (Z.to_nat (n - 1)) l)
               = render (the_anchor s ls (Z.to_nat (n - 1)) l)).
  { unfold render, anchor_suffix. cbn [line the_anchor context local].
    replace (Z.of_nat (Z.to_nat (n - 1)) + 1)%Z with n by lia.
    by destruct (line_context s ls (Z.to_nat (n - 1))). }
  refine (eq_trans (f_equal (λ f, validate_anchor s f ls) Er) _).
  destruct (validate_anchor_fresh s Hok ls _ l l Hf Hl) as [-> _].
  by rewrite Z2Nat.id by lia.
Qed.

Lemma suggested_anchor_retries_witness :
  ∃ e, validate_anchor chunk_new (lit "1:fqb:zjt") (split_lines demo_file) = Some (Err e) ∧
    shifted_anchor e = Some (lit "2:fqb:zjt") ∧
    ∃ p n, parse (strip_arrow (lit "1:fqb:zjt")) = Some p ∧ shifted_to e = Some n ∧
      candidates_near chunk_new p (split_lines demo_file) DEFAULT_SEARCH_RADIUS = [n] ∧
      validate_anchor chunk_new (lit "2:fqb:zjt") (split_lines demo_file) = Some (Ok (n - 1)%Z).
Proof.
  destruct (validate_anchor chunk_new (lit "1:fqb:zjt") (split_lines demo_file)) as [[i|e]|] eqn:E;
    [exfalso; vm_compute in E; discriminate E| |exfalso; vm_compute in E; discriminate E].
  assert (Hs : shifted_anchor e = Some (lit "2:fqb:zjt")).
  { vm_compute in E. injection E as <-. by vm_compute. }
  exists e. split; [done|]. split; [done|].
  apply (suggested_anchor_retries chunk_new (lit "1:fqb:zjt") (split_lines demo_file) e
           (lit "2:fqb:zjt")).
  - exact demo_scheme_ok.
  - by vm_compute.
  - exact E.
  - exact Hs.
Defined.

(** ** Schemes *)

(** The one-pass generators agree with the fingerprints that validation
    recomputes from scratch: the pre-computed fingerprint of a chunk, and the
    chain carried from checkpoint to checkpoint. *)
Theorem generated_contexts_from_scratch (b : ChunkFingerprint) (c : CheckpointChain) ls i :
  chunk_ok b → checkpoint_ok c → fits ls → (i < length ls)%nat →
  (∃ a ctx, (generate_anchors b ls ≫= (.!! i)) = Some a ∧ context a = Some ctx ∧
            chunk_fingerprint b ls (Z.of_nat i) = Some ctx) ∧
  (∃ a ctx, (generate_anchors c ls ≫= (.!! i)) = Some a ∧ context a = Some ctx ∧
            checkpoint_fingerprint c ls (Z.of_nat i) = Some ctx).
Proof.
  intros Hb Hc Hf Hi. destruct (lookup_lt_is_Some_2 ls i Hi) as [l Hl]. split.
  - rewrite (@anchors_eq _ _ chunk_lawful b Hb) by done. cbn [mbind option_bind].
    rewrite (@the_anchor_at _ _ chunk_lawful b ls i l Hl). eexists _, _. split; [done|]. split; [done|].
    rewrite chunk_fingerprint_eq by (try done; unfold len; lia). by rewrite Nat2Z.id.
  - rewrite (@anchors_eq _ _ checkpoint_lawful c Hc) by done. cbn [mbind option_bind].
    rewrite (@the_anchor_at _ _ checkpoint_lawful c ls i l Hl). eexists _, _. split; [done|]. split; [done|].
    rewrite checkpoint_fingerprint_eq by (try done; unfold len; lia). by rewrite Nat2Z.id.
Qed.

Lemma generated_contexts_from_scratch_witness :
  (∃ a ctx, (generate_anchors (mkChunk 3 2) (split_lines demo_file) ≫= (.!! 2%nat)) = Some a ∧
     context a = Some ctx ∧
     chunk_fingerprint (mkChunk 3 2) (split_lines demo_file) 2 = Some ctx) ∧
  (∃ a ctx, (generate_anchors (mkChain 3 2) (split_lines demo_file) ≫= (.!! 2%nat)) = Some a ∧
     context a = Some ctx ∧
     checkpoint_fingerprint (mkChain 3 2) (split_lines demo_file) 2 = Some ctx).
Proof.
  apply (generated_contexts_from_scratch (mkChunk 3 2) (mkChain 3 2) (split_lines demo_file) 2).
  - repeat split; discriminate.
  - repeat split; discriminate.
  - by vm_compute.
  - vm_compute. lia.
Defined.

(** The hash of a line does not depend on its layout: whitespace around the
    line does not count, and a run of ASCII whitespace inside it counts as one
    space. *)
Theorem line_hash_ignores_layout w a r b w' :
  blank w → blank w' → ascii_blank r →
  line_hash (w ++ (a ++ r ++ b) ++ w') = line_hash (a ++ [32%Z] ++ b).
Proof.
  intros Hw Hw' Hr. rewrite <- (hash_inner a r b Hr). unfold line_hash. by rewrite trim_outer.
Qed.

Lemma line_hash_ignores_layout_witness :
  line_hash (lit "    " ++ (lit "let" ++ [9; 32]%Z ++ lit "x") ++ lit " ") = line_hash (lit "let x").
Proof.
  apply (line_hash_ignores_layout (lit "    ") (lit "let") [9; 32]%Z (lit "x") (lit " ")).
  - repeat constructor.
  - repeat constructor.
  - split; [discriminate|repeat constructor].
Defined.

(** ** The tools *)

(** What the tool did to the file system, from what it reports: an applied edit
    is one write of the reported content to the file; any other answer leaves
    the files alone, or is that of a write that failed. *)
Definition reported `{AsyncFs} (fs fs' : Fs) (path old : str) (out : SearchReplaceOutput) : Prop :=
  match out with
  | SrEditsApplied a =>
      ea_old_string a = old ∧ write_file fs path (as_bytes (ea_new_string a)) = (fs', Ok tt)
  | _ => fs' = fs ∨ ∃ c e, write_file fs path c = (fs', Err e)
  end.

Lemma error_output_reported `{AsyncFs} fs path old e p o c d out :
  to_search_replace (Error e) p o c d = Some out → reported fs fs path old out.
Proof.
  unfold to_search_replace. intros [= <-]. destruct (error e); by left.
Qed.

Lemma edit_file_reported `{HashlineEnv} b res cwd dcwd path input fs fs' out bytes :
  read_file fs path = Ok bytes → scheme_ok b →
  batch_fits (from_utf8_lossy bytes) (input_edits input) →
  edit_file b res cwd dcwd path input fs = Some (fs', out) →
  reported fs fs' path (from_utf8_lossy bytes) out.
Proof.
  intros Hread Hok Hfit. unfold edit_file. rewrite Hread. intros E.
  apply bind_Some in E as (r & Hr & E).
  pose proof (apply_edits_coherent b Hok _ _ _ _ Hfit Hr) as Hc.
  destruct (output r) as [a|e] eqn:Eo.
  - destruct Hc as [c Hc]. rewrite Hc in E.
    destruct (write_file fs path (as_bytes c)) as [fs1 [[]|e]] eqn:Ew;
      apply bind_Some in E as (o & Ho & E); injection E as <- <-; unfold to_search_replace in Ho.
    + apply bind_Some in Ho as (ds & _ & Ho). injection Ho as <-. by cbn.
    + injection Ho as <-. cbn. right. by eexists _, _.
  - rewrite Hc in E. apply bind_Some in E as (o & Ho & E). injection E as <- <-.
    by eapply error_output_reported.
Qed.

(** C24: on a file that exists, the tool writes what it reports: an applied edit
    is one successful write, to that file, of the new content it shows; every
    other answer leaves the files as they were, unless the write itself failed. *)
Theorem tool_writes_what_it_reports `{HashlineEnv} res input cwd path bytes fs fs' out :
  match ext_cwd res with Some c => Some c | None => res_cwd res end = Some cwd →
  usize_params (default default_params (scheme_params res)) →
  existing_path fs (resolve_model_path tilde cwd (display_cwd res) (file_path input)) = Some path →
  read_file fs path = Ok bytes →
  batch_fits (from_utf8_lossy bytes) (input_edits input) →
  run res input fs = Some (fs', Ok out) →
  reported fs fs' path (from_utf8_lossy bytes) out.
Proof.
  intros Hcwd Hp Hpath Hread Hfit. unfold run. rewrite Hcwd.
  destruct (is_empty (input_edits input)); [intros [= <- <-]; by left|].
  destruct (build_scheme_spec _ Hp) as (built & -> & Hbuilt). cbn [mbind option_bind].
  destruct built as [b|e]; [|done]. destruct Hbuilt as [_ Hok]. rewrite Hpath. intros E.
  apply bind_Some in E as ([fs1 o] & E & Hf). injection Hf as <- <-.
  by eapply edit_file_reported.
Qed.

(** A machine whose files are those in memory. *)
#[global] Instance memory_env : HashlineEnv := {
  tilde p := p;
  try_canonicalize fs p := match read_file fs p with Ok _ => Some p | Err _ => None end;
  try_resolve_unicode_filename _ _ := None;
  canonicalize_with_timeout _ p := p;
  path_not_found_hint _ _ _ _ := [];
  is_not_found _ := true;
}.
Definition demo_resources : Resources := mkResources None (Some (lit "/w")) None None false.
Definition demo_input (ops : list HashlineOp) : HashlineEditInput := mkEditInput (lit "f") ops.
Definition demo_fs : gmap str bytes := {[lit "/w/f" := as_bytes demo_file]}.

(** What the demo run leaves in the file, and the text it answers with. *)
Definition demo_run (fs : gmap str bytes) (ops : list HashlineOp)
  : option (option bytes * option str) :=
  match run demo_resources (demo_input ops) (fs : @Fs memory_fs) with
  | Some (fs', Ok (SrEditsApplied a)) => Some ((fs' : gmap str bytes) !! lit "/w/f", None)
  | Some (fs', Ok (SrInvalidInput m)) => Some ((fs' : gmap str bytes) !! lit "/w/f", Some m)
  | _ => None
  end.

Definition demo_anchor_ops : list HashlineOp := [Replace (lit "2") None (lit "X")].

Lemma tool_writes_what_it_reports_witness :
  ∃ fs' out, run demo_resources (demo_input demo_anchor_ops) (demo_fs : @Fs memory_fs) = Some (fs', Ok out) ∧
    reported (demo_fs : @Fs memory_fs) fs' (lit "/w/f") demo_file out.
Proof.
  destruct (run demo_resources (demo_input demo_anchor_ops) (demo_fs : @Fs memory_fs)) as [[fs' [out|e]]|] eqn:E;
    [|exfalso; vm_compute in E; discriminate E..].
  exists fs', out. split; [done|].
  refine (tool_writes_what_it_reports demo_resources (demo_input demo_anchor_ops) (lit "/w")
            (lit "/w/f") (as_bytes demo_file) (demo_fs : @Fs memory_fs) fs' out _ _ _ _ _ E).
  - reflexivity.
  - vm_compute. repeat split; discriminate.
  - by vm_compute.
  - by vm_compute.
  - by vm_compute.
Defined.

(** No call on an existing file makes the tool panic: every index, slice,
    splice and subtraction on the way from the anchors to the reported diff is in
    range, for every file, every batch and every machine. *)
Theorem tool_never_panics `{HashlineEnv} res input cwd path bytes fs :
  match ext_cwd res with Some c => Some c | None => res_cwd res end = Some cwd →
  usize_params (default default_params (scheme_params res)) →
  existing_path fs (resolve_model_path tilde cwd (display_cwd res) (file_path input)) = Some path →
  read_file fs path = Ok bytes →
  batch_fits (from_utf8_lossy bytes) (input_edits input) →
  is_Some (run res input fs).
Proof.
  intros Hcwd Hp Hpath Hread Hfit. unfold run. rewrite Hcwd.
  destruct (is_empty (input_edits input)); [by eexists|].
  destruct (build_scheme_spec _ Hp) as (built & -> & Hbuilt). cbn [mbind option_bind].
  destruct built as [b|e]; [|by eexists]. destruct Hbuilt as [_ Hok]. rewrite Hpath.
  unfold edit_file. rewrite Hread.
  destruct (apply_edits_total b Hok _ _ path Hfit) as (r & -> & Hd). cbn [mbind option_bind].
  destruct (new_content r) as [c|].
  - destruct (write_file fs path (as_bytes c)) as [fs1 [?|e]].
    + destruct (to_search_replace_total (output r) path (from_utf8_lossy bytes) (Some c)
                  (edit_details r) Hd) as [o ->]. by eexists.
    + by eexists.
  - destruct (to_search_replace_total (output r) path (from_utf8_lossy bytes) None
                (edit_details r) Hd) as [o ->]. by eexists.
Qed.

Lemma tool_never_panics_witness :
  is_Some (run demo_resources (demo_input [Replace (lit "9:abc:abc") None []]) (demo_fs : @Fs memory_fs)).
Proof.
  apply (tool_never_panics demo_resources (demo_input [Replace (lit "9:abc:abc") None []]) (lit "/w")
           (lit "/w/f") (as_bytes demo_file) (demo_fs : @Fs memory_fs)).
  - reflexivity.
  - vm_compute. repeat split; discriminate.
  - by vm_compute.
  - by vm_compute.
  - by vm_compute.
Defined.

(** The cache holds the anchors of the files as they are. *)
Definition cache_current `{AsyncFs} {A} `{AnchorScheme A} (s : A) (fs : Fs)
    (cache : gmap str (list Anchor)) : Prop :=
  ∀ p anchors, cache !! p = Some anchors →
    ∃ bytes, read_file fs p = Ok bytes ∧
             generate_anchors s (split_lines (from_utf8_lossy bytes)) = Some anchors.

(** The anchor that grep puts before a match is one that the edit tool
    accepts, for the line whose number ripgrep printed, in the file under whose
    heading the match stands; the separator and the content follow unchanged. *)
Theorem grep_anchor_leads_back `{AsyncFs} {A} `{LawfulScheme A} (s : A) fs cache file l cache' text :
  scheme_ok s → cache_current s fs cache →
  (∀ p bytes, read_file fs p = Ok bytes → fits (split_lines (from_utf8_lossy bytes))) →
  anchored s fs cache (Some file) l = Some (cache', Some text) →
  ∃ n sep content bytes anchor,
    parse_rg_line l = Some (n, sep, content) ∧ read_file fs file = Ok bytes ∧
    text = anchor ++ sep :: content ∧
    validate_anchor s anchor (split_lines (from_utf8_lossy bytes)) = Some (Ok (n - 1)%Z) ∧
    cache_current s fs cache'.
Proof.
  intros Hok Hcache Hfits. unfold anchored.
  destruct (parse_rg_line l) as [[[n sep] content]|]; [|done]. intros E.
  apply bind_Some in E as ([c' an] & Hget & E). unfold get_or_generate in Hget.
  assert (Hc : cache_current s fs c' ∧ ∀ anchors, an = Some anchors →
    ∃ bytes, read_file fs file = Ok bytes ∧
             generate_anchors s (split_lines (from_utf8_lossy bytes)) = Some anchors).
  { destruct (cache !! file) as [as_|] eqn:Ec.
    - injection Hget as <- <-. split; [done|]. intros anchors [= <-]. by apply Hcache.
    - destruct (read_file fs file) as [bytes|e] eqn:Er; [|by injection Hget as <- <-].
      apply bind_Some in Hget as (as_ & Hg & Hget). injection Hget as <- <-.
      split; [|intros anchors [= <-]; by exists bytes]. intros p anchors Hp.
      destruct (decide (p = file)) as [->|Hne].
      + rewrite lookup_insert_eq in Hp. injection Hp as <-. by exists bytes.
      + rewrite lookup_insert_ne in Hp by done. by apply Hcache. }
  destruct Hc as [Hc Han]. destruct an as [anchors|]; [|done].
  destruct (Han anchors eq_refl) as (bytes & Hr & Hg).
  destruct (saturating_sub n 1 <? len anchors)%Z; [|done].
  apply bind_Some in E as (a & Ha & E). injection E as <- <-.
  pose proof (Hfits _ _ Hr) as Hf. set (ls := split_lines (from_utf8_lossy bytes)) in *.
  rewrite (anchors_eq s Hok) in Hg by done. injection Hg as <-.
  apply index_Some in Ha as [Hn Ha]. unfold the_anchors in Ha. rewrite list_lookup_imap in Ha.
  apply fmap_Some in Ha as (x & Hx & ->).
  exists n, sep, content, bytes, (render (the_anchor s ls (Z.to_nat (n - 1)) x)).
  fold ls. split_and!; [done..| | |done].
  - unfold render, anchor_suffix. cbn [line the_anchor context local].
    replace (Z.of_nat (Z.to_nat (n - 1)) + 1)%Z with n by lia.
    destruct (line_context s ls (Z.to_nat (n - 1))); by rewrite <- !app_assoc.
  - destruct (validate_anchor_fresh s Hok ls _ x x Hf Hx) as [-> _]. by rewrite Z2Nat.id.
Qed.

Lemma grep_anchor_leads_back_witness :
  ∃ cache' text,
    anchored chunk_new (demo_fs : @Fs memory_fs) ∅ (Some (lit "/w/f")) (lit "2-beta")
    = Some (cache', Some text) ∧
    ∃ n sep content bytes anchor,
      parse_rg_line (lit "2-beta") = Some (n, sep, content) ∧
      read_file (demo_fs : @Fs memory_fs) (lit "/w/f") = Ok bytes ∧
      text = anchor ++ sep :: content ∧
      validate_anchor chunk_new anchor (split_lines (from_utf8_lossy bytes)) = Some (Ok (n - 1)%Z) ∧
      cache_current chunk_new (demo_fs : @Fs memory_fs) cache'.
Proof.
  destruct (anchored chunk_new (demo_fs : @Fs memory_fs) ∅ (Some (lit "/w/f")) (lit "2-beta"))
    as [[cache' [text|]]|] eqn:E; [|exfalso; vm_compute in E; discriminate E..].
  exists cache', text. split; [done|].
  refine (grep_anchor_leads_back chunk_new (demo_fs : @Fs memory_fs) ∅ (lit "/w/f") (lit "2-beta")
            cache' text _ _ _ E).
  - exact demo_scheme_ok.
  - intros p anchors Hp. by rewrite lookup_empty in Hp.
  - intros p bytes Hr. unfold read_file, memory_fs, demo_fs in Hr.
    destruct (decide (lit "/w/f" = p)) as [<-|Hne].
    + rewrite lookup_singleton_eq in Hr. injection Hr as <-. by vm_compute.
    + rewrite lookup_singleton_ne in Hr by done. discriminate Hr.
Defined.

(** An edit that leaves the lines of a chunk where they are leaves every
    anchor of the chunk valid, whatever it does to the rest of the file. *)
Theorem chunk_anchors_are_local (c : ChunkFingerprint) ls ls' i l :
  chunk_ok c → fits ls → fits ls' → ls !! i = Some l → ls' !! i = Some l →
  chunk_of (chunk_size c) ls i = chunk_of (chunk_size c) ls' i →
  ∃ a, (generate_anchors c ls ≫= (.!! i)) = Some a ∧
       validate c (as_parsed a) ls' = Some Valid.
Proof.
  intros Hc Hf Hf' Hl Hl' Heq. rewrite (@anchors_eq _ _ chunk_lawful c Hc) by done.
  cbn [mbind option_bind]. rewrite (@the_anchor_at _ _ chunk_lawful c ls i l Hl).
  eexists. split; [done|].
  pose proof (@the_anchor_valid _ _ chunk_lawful c Hc ls' i l Hf' Hl') as Hv.
  assert (E : the_anchor c ls i l = the_anchor c ls' i l).
  { unfold the_anchor. cbn [line_context chunk_lawful]. unfold chunk_context. by rewrite Heq. }
  by rewrite E.
Qed.

Lemma chunk_anchors_are_local_witness :
  ∃ a, (generate_anchors (mkChunk 3 2) [lit "a"; lit "b"; lit "c"] ≫= (.!! 1%nat)) = Some a ∧
       validate (mkChunk 3 2) (as_parsed a) [lit "a"; lit "b"; lit "z"; lit "d"] = Some Valid.
Proof.
  apply (chunk_anchors_are_local (mkChunk 3 2) [lit "a"; lit "b"; lit "c"]
           [lit "a"; lit "b"; lit "z"; lit "d"] 1 (lit "b")); try reflexivity.
  - repeat split; discriminate.
  - by vm_compute.
  - by vm_compute.
Defined.

(** ** Where code and comments part *)

(** ** Search output *)

Definition grep_fs : gmap str bytes :=
  {[lit "/w/a.html" := as_bytes (lit "<b>
x
"); lit "/w/01-intro.md" := as_bytes (lit "y
")]}.
Definition grep_demo (body : str) : option str :=
  from_utf8_lossy <$>
    inject_anchors content_only_new
      (as_bytes (lit "<workspace_result>" ++ [NL] ++ body ++ [NL] ++ lit "</workspace_result>"))
      (lit "/w") (grep_fs : @Fs memory_fs).

(** A line that ends in [>] loses the line break after it: two matches of an HTML
    file come out as one line. *)
Example grep_glues_lines :
  grep_demo (lit "a.html
1:<b>
2:x")
  = Some (lit "<workspace_result>
a.html
1:bmc:<b>2:nyo:x
</workspace_result>").
Proof. by vm_compute. Qed.

(** The heading of a file whose name is digits and a dash is read as a context
    line: it is given an anchor, and the matches under it get the anchors of the
    file before it. *)
Example grep_takes_heading_for_match :
  grep_demo (lit "a.html
2:x
01-intro.md
1:y")
  = Some (lit "<workspace_result>
a.html
2:nyo:x
1:bmc-intro.md
1:bmc:y
</workspace_result>") ∧
  (generate_for_content content_only_new (lit "y
") ≫= (.!! 0%nat)) ≠ Some (mkAnchor 1 (lit "bmc") None).
Proof. split; [by vm_compute|]. intros H. vm_compute in H. discriminate H. Qed.

(** A heading that starts with zero and a dash is an index out of range. *)
Example grep_heading_panics :
  grep_demo (lit "a.html
2:x
0-intro.md
1:y") = None.
Proof. by vm_compute. Qed.

(** ** Content that is taken for anchors *)

(** A C++ call through a scoped name is refused as a copied anchor. *)
Example arrow_in_code_is_refused :
  detect_anchor_prefix_in_content (lit "Foo::get()->bar();") = Some 1%Z.
Proof. by vm_compute. Qed.

(** A [write] of a new file is refused by the same check, but only after the file
    has been written. *)
Example refused_write_creates_file :
  ∃ m, demo_run ∅ [Write (lit "Foo::get()->bar();")]
       = Some (Some (as_bytes (lit "Foo::get()->bar();")), Some m).
Proof. eexists. by vm_compute. Qed.

(** The same [write] leaves a file that exists as it was. *)
Example refused_write_keeps_file :
  ∃ m, demo_run demo_fs [Write (lit "Foo::get()->bar();")] = Some (Some (as_bytes demo_file), Some m).
Proof. eexists. by vm_compute. Qed.

(** ** Line ends *)

Definition crlf_file : str := lit "a" ++ [CR; NL] ++ lit "b" ++ [CR; NL] ++ lit "c".

(** Replacing one line of a file with carriage returns rewrites the end of all
    the others. *)
Example crlf_lost_everywhere :
  (new_content <$> apply_edits content_only_new crlf_file
                     [Replace (render (the_anchor content_only_new (split_lines crlf_file) 2 (lit "c")))
                        None (lit "X")] (lit "/f"))
  = Some (Some (lit "a" ++ [NL] ++ lit "b" ++ [NL] ++ lit "X")).
Proof. by vm_compute. Qed.

(** ** Context of an edit *)

Definition blank_file : str := lit "a

b
c".

(** The context after a replaced blank line starts with that line. *)
Example blank_line_in_its_own_context :
  (r ← apply_edits content_only_new blank_file
         [Replace (render (the_anchor content_only_new (split_lines blank_file) 1 [])) None (lit "X")]
         (lit "/f");
   mapM (to_edit_detail (split NL blank_file)) (edit_details r))
  = Some [mkEditDetail [] 2 (lit "X") 2 (lit "a" ++ [NL])
            ([NL] ++ lit "b" ++ [NL] ++ lit "c" ++ [NL]) []].
Proof. by vm_compute. Qed.

(** The same for a line that is not blank starts after it. *)
Example other_line_not_in_its_context :
  (r ← apply_edits content_only_new blank_file
         [Replace (render (the_anchor content_only_new (split_lines blank_file) 2 (lit "b"))) None
            (lit "X")] (lit "/f");
   mapM (to_edit_detail (split NL blank_file)) (edit_details r))
  = Some [mkEditDetail (lit "b") 3 (lit "X") 3 (lit "a" ++ [NL; NL]) (lit "c" ++ [NL]) []].
Proof. by vm_compute. Qed.

(** ** Shifted anchors *)

(** The search reports a line for an anchor without context that the chunk scheme
    validates nowhere. *)
Example shifted_to_a_line_that_does_not_validate :
  find_shifted chunk_new (mkParsed 1 (lit "fqb") None) (split_lines demo_file) 15 = Some (Found 2) ∧
  validate chunk_new (mkParsed 2 (lit "fqb") None) (split_lines demo_file) = Some Stale.
Proof. split; by vm_compute. Qed.

(** ** Whitespace *)

(** A run of vertical tabs is trimmed at the ends of a line but not collapsed
    inside it. *)
Example vertical_tabs_not_collapsed :
  line_hash (lit "a" ++ [11; 11]%Z ++ lit "b") ≠ line_hash (lit "a b") ∧
  line_hash ([11]%Z ++ lit "a") = line_hash (lit "a").
Proof. split; [|by vm_compute]. intros H. vm_compute in H. discriminate H. Qed.
