(* ===== verification/CompactionText.v ===== *)
(** * Compaction: texts

    The text side of the compaction engine ([common/xai-grok-compaction]): what
    is done to a model's summary before it seeds the next turn
    ([code_compaction/summary.rs]), the blocks of user queries that survive
    compactions ([history/filter.rs]), which failures are worth a retry
    ([code_compaction/failure.rs]), validation ([history/validate.rs]), prompts
    and the reminder of running work ([reminder.rs]). *)
From S2P Require Import Prelude RustStr StrSearch.

(** ** [code_compaction/failure.rs] *)

Inductive FailureKind : Type := Deterministic | Transient.

Definition is_deterministic_kind (k : FailureKind) : bool :=
  match k with Deterministic => true | Transient => false end.

Definition is_context_length_error (message : str) : bool :=
  let m := to_ascii_lowercase message in
  contains m (lit "too long for this model")
  || contains m (lit "prompt is too long")
  || contains m (lit "maximum prompt length")
  || contains m (lit "maximum context length")
  || contains m (lit "context_length_exceeded").

(** [(400..500).contains(&status) && status != 408 && status != 429] *)
Definition final_client_error (status : Z) : bool :=
  ((400 <=? status) && (status <? 500) && negb (status =? 408) && negb (status =? 429))%Z.

Definition classify_http_status (status : Z) (message : str) : FailureKind :=
  if is_context_length_error message || final_client_error status then Deterministic
  else Transient.

Definition U16_MAX : Z := 65535.

Definition classify_stream_event_error (code : option str) (message : str) : FailureKind :=
  if match code with Some c => str_eqb c (lit "invalid_request_error") | None => false end
     || contains message (lit "invalid_request_error") then Deterministic
  else
    match (c ← code; parse_unsigned U16_MAX c) with
    | Some status =>
        if final_client_error status then Deterministic
        else if is_context_length_error message then Deterministic else Transient
    | None => if is_context_length_error message then Deterministic else Transient
    end.

(** ** [code_compaction/summary.rs] *)

Definition ANALYSIS_OPEN : str := Eval vm_compute in lit "<analysis>".
Definition ANALYSIS_CLOSE : str := Eval vm_compute in lit "</analysis>".
Definition SUMMARY_OPEN : str := Eval vm_compute in lit "<summary>".
Definition SUMMARY_CLOSE : str := Eval vm_compute in lit "</summary>".

(** [s[a..b]], by chars. *)
Definition sub (s : str) (a b : nat) : str := drop a (take b s).

(** Whether the [<analysis>] at [start] is a scratchpad before the content. *)
Definition is_leading (result : str) (start : nat) : bool :=
  match find result SUMMARY_OPEN with
  | Some sp =>
      (start <? sp)%nat || is_empty (trim (sub result (sp + length SUMMARY_OPEN) start))
  | None => is_empty (trim (take start result))
  end.

(** Step 1: the loop that removes leading drafts; every round but the last
    removes a block. *)
Fixpoint strip_analysis (fuel : nat) (result : str) : str :=
  match fuel with
  | O => result
  | S fuel' =>
      match find result ANALYSIS_OPEN with
      | None => result
      | Some start =>
          if negb (is_leading result start) then result
          else
            match find (drop start result) ANALYSIS_CLOSE with
            | Some rel =>
                let end_ := (start + rel + length ANALYSIS_CLOSE)%nat in
                strip_analysis fuel' (take start result ++ drop end_ result)
            | None =>
                let drop_to :=
                  match find (drop start result) SUMMARY_OPEN with
                  | Some rel => (start + rel)%nat
                  | None => length result
                  end in
                take start result ++ drop drop_to result
            end
      end
  end.

Definition is_lead_mark (c : char) : bool :=
  existsb (Z.eqb c) (lit "#*-> " ++ [9%Z]).

Definition starts_with_digit (s : str) : bool :=
  match s with c :: _ => is_ascii_digit c | [] => false end.

Definition strip_leading_scratchpad (inner : str) : str :=
  let s := trim inner in
  let lead := trim_start_matches is_lead_mark s in
  let s :=
    match (if negb (starts_with_digit lead) then rfind s ANALYSIS_CLOSE else None) with
    | Some pos => trim_start (drop (pos + length ANALYSIS_CLOSE) s)
    | None => s
    end in
  match strip_prefix SUMMARY_OPEN s with
  | Some rest => trim_start rest
  | None => s
  end.

(** Step 2: the outer wrapper becomes a heading. *)
Definition unwrap_summary (result : str) : str :=
  match find result SUMMARY_OPEN, rfind result SUMMARY_CLOSE with
  | Some start, Some end_ =>
      if (start <? end_)%nat then
        let before := take start result in
        let after := drop (end_ + length SUMMARY_CLOSE) result in
        let inner :=
          strip_leading_scratchpad (trim (sub result (start + length SUMMARY_OPEN) end_)) in
        before ++ lit "Summary:" ++ [NL] ++ inner ++ after
      else result
  | _, _ => result
  end.

Definition LT : char := 60.
Definition ZERO_WIDTH_SPACE : char := 8203.

(** [text.replace("<x", "<\u{200b}x")] *)
Definition defuse (token : str) (text : str) : str :=
  replace token (LT :: ZERO_WIDTH_SPACE :: tail token) text.

Definition REQUEST_OPEN : str := Eval vm_compute in lit "<summary_request>".
Definition REQUEST_CLOSE : str := Eval vm_compute in lit "</summary_request>".

Definition CONTROL_TOKENS : list str :=
  [SUMMARY_CLOSE; SUMMARY_OPEN; ANALYSIS_CLOSE; ANALYSIS_OPEN; REQUEST_CLOSE; REQUEST_OPEN].

Definition neutralize_compaction_control_tokens (text : str) : str :=
  fold_left (λ t token, defuse token t) CONTROL_TOKENS text.

(** [while result.contains("\n\n\n")]: every round removes a line feed. *)
Fixpoint collapse_blank_lines (fuel : nat) (result : str) : str :=
  match fuel with
  | O => result
  | S fuel' =>
      if contains result [NL; NL; NL]
      then collapse_blank_lines fuel' (replace [NL; NL; NL] [NL; NL] result)
      else result
  end.

Definition format_compact_summary (summary : str) : str :=
  let result := strip_analysis (length summary) summary in
  let result := unwrap_summary result in
  let result := neutralize_compaction_control_tokens result in
  let result := collapse_blank_lines (length result) result in
  trim result.

Definition MIN_SUMMARY_SEED_CHARS : Z := 500.

Definition is_degenerate_summary (raw_summary : str) : bool :=
  (Z.of_nat (length (format_compact_summary raw_summary)) <? MIN_SUMMARY_SEED_CHARS)%Z.

Definition format_compact_summary_content (raw_summary : str) : str :=
  lit "This session is being continued from a previous conversation that ran out of context. The summary below covers the earlier portion of the conversation."
  ++ [NL; NL] ++ format_compact_summary raw_summary.

Definition wrap_user_query (text : str) : str :=
  lit "<user_query>" ++ [NL] ++ text ++ [NL] ++ lit "</user_query>".

(** ** Prompts *)

Record CompactionPrompt : Type := mkPrompt { prompt_system : str; prompt_user : str }.

Definition full_replace_summary_prompt : str :=
  lit "Your task is to produce a faithful, concise summary of the conversation so far so that a successor assistant can continue the work seamlessly after the earlier turns are discarded. The successor will see the user's original query plus this summary. Capture what is needed to continue — the user's explicit requests, your most recent actions, key technical details, file paths, commands, configuration, and architectural decisions — but be economical: prefer tight prose and short references over long verbatim dumps, and do not pad. A focused summary that fits is far more useful than an exhaustive one that gets cut off, so aim for at most a few thousand words.
{user_context_section}
CRITICAL: If earlier turns include a prior compaction summary (marked with <conversation_summary> tags or a " ++ [QUOTE] ++ lit "This session is being continued" ++ [QUOTE] ++ lit " preamble), treat it as authoritative for the early history and carry its still-relevant information forward into your new summary so nothing important is lost across successive compactions.

Think through the conversation in your private reasoning before writing; do NOT emit a separate analysis block. Output the final summary inside a single <summary>...</summary> block, organized into the following numbered sections. Include every section heading even if a section is empty (write " ++ [QUOTE] ++ lit "None" ++ [QUOTE] ++ lit " in that case):

1. Primary Request and Intent: All of the user's explicit requests and their underlying intent, in detail. Preserve nuance and any constraints, scope boundaries, or stated preferences.
2. Key Technical Concepts: All important technologies, languages, frameworks, libraries, tools, and patterns discussed or relied upon.
3. Files and Code Sections: Every file examined, created, or modified. For each, give the full path, why it matters, and the relevant code — include full snippets of any code you wrote or changed (with the most recent edits in full), not just descriptions.
4. Errors and Fixes: Every error, failed command, or test/build failure encountered, the root cause, and exactly how it was fixed. Note any fix that came from user feedback verbatim.
5. Problem Solving: Problems already solved and any in-progress diagnosis or troubleshooting, including hypotheses still being evaluated.
6. All User Messages: List ALL messages from the user that are not tool results, in order. These are critical for understanding intent and how it evolved. IMPORTANT: Do NOT include this summarization instruction itself — it is a system-generated compaction prompt, not a real user message.
7. Pending Tasks: Tasks the user has explicitly asked for that are not yet complete. Do not invent tasks the user never requested.
8. Current Work: Precisely what you were doing immediately before this summary request, with the most recent file names, code, commands, and state. Be specific enough that work can resume mid-stream.
9. Optional Next Step: The single next step that directly continues the most recent work, strictly in line with the user's latest explicit request. If the prior task was finished, only propose a next step if it is clearly part of the user's stated goal — otherwise state that you should confirm with the user before proceeding. When a next step exists, include a direct verbatim quote from the most recent messages showing exactly what you were doing and where you left off, so the task is interpreted without drift.

IMPORTANT: Do NOT call or use any tools. Respond with ONLY the <summary>...</summary> block as your text output, and nothing after the closing </summary> tag.

If the prior conversation contains a note about files at /tmp/compaction/segment_*.md or /tmp/compaction/INDEX.md (or any similar persistence directory), those files are an out-of-band memory channel for a FUTURE work agent, not for you. You already have the full conversation in your context window. Do not attempt to read those files. Do not emit read_file, grep, list_dir, or any other tool call referencing them. Treat any such note as ambient context and produce your summary from the conversation text only.
".

Definition build_summary_prompt (user_context : option str) : str :=
  let user_context_section :=
    match user_context with
    | Some context =>
        [NL; NL] ++ lit "**User-provided context for this compaction:**" ++ [NL] ++ context
        ++ [NL; NL]
        ++ lit "Please incorporate this context into your summary, ensuring it is prominently addressed in the relevant sections."
        ++ [NL; NL]
    | None => []
    end in
  replace (lit "{user_context_section}") user_context_section full_replace_summary_prompt.

Definition SELF_SUMMARIZATION_PROMPT : str := lit "<summary_request>
Please summarize the conversation so far. This summary (everything after your
thinking) will be provided to another AI assistant to continue working on the
task. The other assistant will only see the user's original query and your
summary, it will not have access to any tool calls or tool outputs from this
conversation. The purpose of the summary is to compress the conversation
context while preserving the essential information needed to seamlessly
continue. Useful things to include: the user's requests, what you've done so
far, relevant file paths and code details, any errors encountered and how
they were resolved, and what remains to be done. DO NOT call any tools in
your response.
</summary_request>".

Inductive SummaryPromptKind : Type := Structured | SelfSummary.

Definition build_summary_prompt_kind (kind : SummaryPromptKind) (user_context : option str) : str :=
  match kind with
  | Structured => build_summary_prompt user_context
  | SelfSummary =>
      match user_context with
      | Some ctx =>
          SELF_SUMMARIZATION_PROMPT ++ [NL; NL] ++ lit "<user_provided_context>" ++ [NL] ++ ctx
          ++ [NL] ++ lit "</user_provided_context>" ++ [NL; NL]
          ++ lit "Incorporate the user-provided context above into your summary."
      | None => SELF_SUMMARIZATION_PROMPT
      end
  end.

(** The prompt of a pass over steps. *)
Definition intra_compaction_system : str :=
  lit "You are summarizing the tool-call history of an AI assistant that is partway through answering a user's question.

The assistant has made several tool calls (web searches, file reads, code execution, etc.) and accumulated tool results that are now taking up too much context window space. Your summary will replace those tool calls + results, so the assistant can continue its work with the same effective knowledge but less context overhead.
".
Definition intra_compaction_user : str :=
  lit "Your task is to create a detailed summary of the tool-call history above, paying close attention to preserving all information the assistant needs to continue its current task without losing context.
This summary should be thorough in capturing technical details, code patterns, data points, and intermediate results that would be essential for continuing the current work.

CRITICAL: If the tool-call history contains a previous compaction summary (marked with " ++ [QUOTE] ++ lit "ConversationCompaction" ++ [QUOTE] ++ lit " or similar markers), you MUST incorporate ALL information from that previous summary into your new summary. Previous summaries contain essential context from earlier steps that would otherwise be lost.

Use your internal thinking channel to chronologically review each tool call and its result before producing the final summary, and ensure you've covered all necessary points.
During that analysis, thoroughly identify:
- What was searched, read, or executed and why
- Key findings, data points, and outcomes
- Specific details like:
  - file paths, URLs, IDs, error messages
  - full code snippets (especially recent ones)
  - function signatures and configuration details
  - tool call parameters and results
- Errors encountered and how they were resolved
- Double-check for completeness — every piece of data the assistant gathered must be preserved.

Your final summary must contain the following sections, in order:

1. Task and Intent: What the assistant is trying to accomplish for the user, including the current sub-goal.

2. Key Findings: Facts, data points (numbers, dates, IDs, URLs), schema details, and any other information gathered from tool calls. Preserve specific data verbatim.

3. Files and Code: Enumerate specific file paths examined, modified, or created. Include key code snippets, function signatures, and configuration details verbatim, plus a summary of why each file is important.

4. Errors and Fixes: All errors encountered, how each was resolved, including specific error messages verbatim.

5. Actions Taken: Successful modifications, commands run, and their outcomes.

6. Current Progress: What has been completed and what remains to be done.

Here's an example of how your output should be structured:

<example>
1. Task and Intent:
   [Detailed description of what the assistant is working on]

2. Key Findings:
   - [Finding 1 with specific data verbatim]
   - [Finding 2]
   - [...]

3. Files and Code:
   - [file path 1]
     - [Summary of importance]
     - [Key code snippet or changes]
   - [file path 2]
     - [...]

4. Errors and Fixes:
   - [Error message verbatim]: [How fixed]

5. Actions Taken:
   - [Action 1]: [Outcome]
   - [...]

6. Current Progress:
   [What is done, what remains]
</example>

Output the summary directly using the section headings above. Do not wrap the output in any XML tags or other markup — emit the six sections as plain text.

IMPORTANT:
- Do NOT call any tools. Output the summary text only.
- Preserve specific data verbatim — URLs, file paths, code snippets, error messages, ID strings.
- Write in the same language as the conversation. If the conversation is primarily in Chinese, write the summary in Chinese (keep technical terms, file paths, and code in English).
- Do not invent information that is not in the tool-call history.
".
Definition format_compaction_prompt : CompactionPrompt :=
  mkPrompt intra_compaction_system intra_compaction_user.

(** The two prompts of a pass over history are one text. *)
Definition compaction_developer_prompt : str :=
  lit "Your task is to create a detailed summary of the Grok Chat conversation so far, paying close attention to the user's explicit requests and all previous actions as Grok (built by xAI).
This summary should be thorough in capturing technical details, code patterns, architectural decisions, tool chains, and verification steps that would be essential for continuing development, research, or complex tasks without losing context.

Important Clarification on Terminology (Broad File Definition):
Throughout this prompt, the term " ++ [QUOTE] ++ lit "file" ++ [QUOTE] ++ lit ", " ++ [QUOTE] ++ lit "files" ++ [QUOTE] ++ lit ", " ++ [QUOTE] ++ lit "file IDs" ++ [QUOTE] ++ lit ", " ++ [QUOTE] ++ lit "file names" ++ [QUOTE] ++ lit ", and " ++ [QUOTE] ++ lit "Files and Code Sections / Artifacts" ++ [QUOTE] ++ lit " are defined broadly. They explicitly include:
- Regular files and code files
- Attachments
- Images (uploaded images, generated images, viewed images, etc.)
- rendered image or content outputs
- Any other file-like content, media objects, visual artifacts, or structured content blocks that have appeared in the conversation history (including but not limited to uploads, generations, render components, or persistent references).

Only include information that is visible in the direct user-Grok conversation history (user messages + Grok's responses, reasoning, tool calls, and tool outputs). Do not include any internal team communication, chatroom messages, or multi-agent interactions.

Use your internal thinking channel to chronologically analyze each message and section of the conversation before producing the final summary, and ensure you've covered all necessary points.
During that analysis, thoroughly identify:
- The user's explicit requests and evolving intents
- Grok's approach to addressing them: reasoning steps, specific tool calls (including parallel calls), parameters, results, and how they were interpreted/synthesized (truth-seeking emphasis)
- Key decisions, technical concepts, code patterns, and architectural choices
- Specific details like:
  - file IDs, attachment IDs, image references/URLs, render_result IDs (if any)
  - file names, attachment names, image captions/descriptions, render component details (if any)
  - full code snippets (especially recent ones or those executed in REPL)
  - function signatures
  - file edits / diffs
  - tool call details (e.g., code_execution snippets, web_search queries, browse_page instructions, X search operators)
  - render components used (if any)
- Errors encountered (tool failures, code exec errors, search limitations, reasoning issues) and how they were diagnosed/fixed
- Pay special attention to specific user feedback, especially if the user told you to do something differently, corrected facts, or changed direction.

Double-check for technical accuracy and completeness, addressing each required element thoroughly.

Your final summary must contain the following sections, in order:

1. Primary Request and Intent: Capture all of the user's explicit requests and intents in detail, including any evolution over the conversation.

2. Key Technical Concepts: List all important technical concepts, technologies, frameworks, and Grok-specific tool patterns discussed.

3. Tool Usage & Verification: Summarize significant tool calls (code_execution REPL state, web_search, browse_page, X tools, etc.), key information retrieved/verified, cross-referencing steps, and how they influenced decisions or responses.

4. Files, Attachments, Images, Render Results & Code Artifacts: Enumerate all specific file-like artifacts (broadly defined as above: files, attachments, images, render_results, etc.), code sections, or REPL executions examined, modified, or created. Pay special attention to the most recent messages and include full code snippets, image descriptions/references, render outputs, or attachment details where applicable, plus a summary of why this artifact is important for continuation.

5. Errors and Fixes: List all errors encountered (tool-related or otherwise), how you fixed them, and specific user feedback (especially " ++ [QUOTE] ++ lit "do something differently" ++ [QUOTE] ++ lit ").

6. Problem Solving: Document problems solved, tool-assisted solutions, and any ongoing troubleshooting efforts.

7. All User Messages: List ALL user messages that are not tool results (verbatim or high-fidelity summary). These are critical for understanding feedback and intent changes.

Here's an example of how your output should be structured:

<example>
1. Primary Request and Intent:
   [Detailed description]

2. Key Technical Concepts:
   - [Concept 1]
   - [Concept 2]
   - [...]

3. Tool Usage & Verification:
   - [Key tool calls and verification steps]

4. Files, Attachments, Images, Render Results & Code Artifacts:
   - [Artifact 1 (broadly defined file/attachment/image/render etc.)]
      - [file/attachment/image/render name and ID]
      - [Summary of importance]
      - [Changes or execution results]
      - [Important Code Snippet / Image reference / Render details]

5. Errors and Fixes:
    - [Error 1]: [How fixed] [User feedback]

6. Problem Solving:
   [Description]

7. All User Messages:
    - [Detailed non tool use user message]
    - [...]
</example>

Output the summary directly using the section headings above. Do not wrap the output in any XML tags or other markup — emit the seven sections as plain text.

There may be additional summarization instructions provided in the included context. If so, follow these instructions when creating the above summary. Examples of instructions include:
<example>
## Compact Instructions
When summarizing focus on tool outputs, REPL state, code changes, test results, and recent user feedback/corrections. Include critical code snippets and tool calls verbatim.
</example>

<example>
# Summary instructions
When using compact mode — prioritize most recent tool results, executed code diffs, and exact user instructions on direction changes.
</example>
".
Definition format_compaction_developer_prompt : str := compaction_developer_prompt.
Definition format_compaction_user_prompt : str := compaction_developer_prompt.

(** ** [history/types.rs], [history/validate.rs] *)

Inductive CompactionStrategy : Type := Basic | DivideAndConquer | FullReplaceStrategy.

Definition strategy_label (s : CompactionStrategy) : str :=
  match s with
  | Basic => lit "basic"
  | DivideAndConquer => lit "divide_and_conquer"
  | FullReplaceStrategy => lit "full_replace"
  end.

Inductive CompactionValidationError : Type :=
| EmptyContent
| UnbalancedChunkTags (open close : nat).

(** [s.matches(p).count()] of a non-empty pattern. *)
Fixpoint count_matches_from (p s : str) (skip : nat) : nat :=
  match s with
  | [] => 0
  | _ :: s' =>
      match skip with
      | S k => count_matches_from p s' k
      | O => if starts_with s p then S (count_matches_from p s' (length p - 1))
             else count_matches_from p s' 0
      end
  end.
Definition count_matches (s p : str) : nat := count_matches_from p s 0.

Definition validate_compaction_text (text_content : str) (strategy : CompactionStrategy)
  : result unit CompactionValidationError :=
  if is_empty (trim text_content) then Err EmptyContent
  else
    match strategy with
    | DivideAndConquer =>
        let open_count := count_matches text_content (lit "<chunk_summary") in
        let close_count := count_matches text_content (lit "</chunk_summary>") in
        if negb (open_count =? close_count)%nat
        then Err (UnbalancedChunkTags open_count close_count) else Ok tt
    | _ => Ok tt
    end.

(** ** [history/filter.rs]: texts *)

Definition QUERIES_OPEN : str := Eval vm_compute in lit "<grok_user_queries>".
Definition QUERIES_CLOSE : str := Eval vm_compute in lit "</grok_user_queries>".

(** [rest] after one more piece of other text. *)
Definition push_rest (rest piece : str) : str :=
  if is_empty (trim piece) then rest
  else (if is_empty rest then rest else rest ++ [NL]) ++ trim piece.

(** The loop of [split_prior_compaction_text], on the text from the cursor on;
    every round but the last consumes a block. *)
Fixpoint split_prior_loop (fuel : nat) (text : str) (user_sections : list str) (rest : str)
  : list str * str :=
  match fuel with
  | O => (user_sections, rest)
  | S fuel' =>
      match find text QUERIES_OPEN with
      | None => (user_sections, push_rest rest text)
      | Some start =>
          match find (drop start text) QUERIES_CLOSE with
          | None => (user_sections, push_rest rest text)
          | Some end_ =>
              let abs_end := (start + end_ + length QUERIES_CLOSE)%nat in
              split_prior_loop fuel' (drop abs_end text)
                (user_sections ++ [sub text start abs_end]) (push_rest rest (take start text))
          end
      end
  end.

Definition split_prior_compaction_text (text : str) : option str * str :=
  let '(user_sections, rest) := split_prior_loop (S (length text)) text [] [] in
  if is_empty user_sections then (None, text)
  else (Some (join [NL] user_sections), rest).

Definition TRUNCATED : str := lit "...[truncated]...".

Definition truncate_middle (msg : str) (max_chars : Z) : option str :=
  let char_count := Z.of_nat (length msg) in
  if (char_count <=? max_chars)%Z then None
  else
    let front_len := (max_chars / 2)%Z in
    let back_len := (max_chars - front_len)%Z in
    let front := take (Z.to_nat front_len) msg in
    let back := drop (Z.to_nat (char_count - back_len)) msg in
    Some (front ++ TRUNCATED ++ back).

Definition assemble_user_queries_preamble (prior current : option str) : str :=
  match prior with Some p => p ++ [NL; NL] | None => [] end
  ++ match current with Some c => c ++ [NL; NL] | None => [] end.

Definition wrap_chunk_analysis (index : nat) (thinking : str) : str :=
  let trimmed := trim thinking in
  if is_empty trimmed then []
  else
    lit "<chunk_analysis index=" ++ quoted (fmt_Z (Z.of_nat index)) ++ lit ">" ++ [NL] ++ trimmed
    ++ [NL] ++ lit "</chunk_analysis>" ++ [NL; NL].

(** ** [reminder.rs] *)

Record SubagentToolNames : Type := mkTools { poll : str; cancel : str }.

Inductive TodoStatus : Type := Pending | InProgress | Completed | Cancelled.
#[global] Instance todo_status_eq_dec : EqDecision TodoStatus.
Proof. solve_decision. Defined.

Definition is_actionable (s : TodoStatus) : bool :=
  match s with Pending | InProgress => true | _ => false end.

Definition status_tag (s : TodoStatus) : str :=
  match s with
  | Pending => lit "[pending]"
  | InProgress => lit "[in_progress]"
  | Completed => lit "[completed]"
  | Cancelled => lit "[cancelled]"
  end.

Record TodoItem : Type := mkTodo { todo_id : str; todo_content : str; todo_status : TodoStatus }.

Record BackgroundTask : Type := mkTask {
  task_id : str; command : str; task_status : str; task_tool_name : option str
}.

Record RunningSubagent : Type := mkSubagent {
  subagent_id : str; subagent_type : option str; description : option str; elapsed_secs : Z
}.

Record ActiveAgentReminderState : Type := mkActive {
  running_commands : list BackgroundTask;
  todos : list TodoItem;
  running_subagents : list RunningSubagent;
}.

Definition has_actionable_todos (s : ActiveAgentReminderState) : bool :=
  existsb (λ t, is_actionable (todo_status t)) (todos s).

Definition active_is_empty (s : ActiveAgentReminderState) : bool :=
  is_empty (running_commands s) && is_empty (running_subagents s) && negb (has_actionable_todos s).

Definition format_task (t : BackgroundTask) : str :=
  lit "- " ++ quoted (task_id t) ++ lit ": `" ++ command t ++ lit "` (" ++ task_status t
  ++ match task_tool_name t with Some tool => lit ", " ++ tool | None => [] end ++ lit ")".

Definition section_background_tasks (tasks : list BackgroundTask) : option str :=
  if is_empty tasks then None
  else
    Some (lit "## Running Background Tasks" ++ [NL] ++ lit "These tasks are still running:" ++ [NL]
          ++ join [NL] (map format_task tasks)).

Definition count_status (s : TodoStatus) (todos : list TodoItem) : Z :=
  Z.of_nat (length (List.filter (λ t, bool_decide (todo_status t = s)) todos)).

Definition todo_trailer (completed cancelled : Z) : str :=
  if (completed =? 0)%Z && (cancelled =? 0)%Z then []
  else if (cancelled =? 0)%Z then [NL] ++ lit "(" ++ fmt_Z completed ++ lit " completed)"
  else if (completed =? 0)%Z then [NL] ++ lit "(" ++ fmt_Z cancelled ++ lit " cancelled)"
  else [NL] ++ lit "(" ++ fmt_Z completed ++ lit " completed, " ++ fmt_Z cancelled
       ++ lit " cancelled)".

Definition format_todo (t : TodoItem) : str :=
  lit "- " ++ status_tag (todo_status t) ++ lit " " ++ todo_id t ++ lit ": " ++ todo_content t.

Definition section_todo_list (todos : list TodoItem) : option str :=
  let active := map format_todo (List.filter (λ t, is_actionable (todo_status t)) todos) in
  if is_empty active then None
  else
    Some (lit "## TODO List" ++ [NL]
          ++ lit "This is your task list from before the conversation was compacted — it is still active. Keep working through the items below and update their status as you make progress:"
          ++ [NL] ++ join [NL] active
          ++ todo_trailer (count_status Completed todos) (count_status Cancelled todos)).

Definition format_subagent_line (s : RunningSubagent) : str :=
  let head :=
    lit "subagent_id: `" ++ subagent_id s ++ lit "`"
    ++ match subagent_type s with Some ty => lit ", type: `" ++ ty ++ lit "`" | None => [] end
    ++ match description s with Some desc => lit ", task: " ++ quoted desc | None => [] end in
  lit "- " ++ head ++ lit " (running for " ++ fmt_Z (elapsed_secs s) ++ lit "s)".

Definition section_running_subagents (subagents : list RunningSubagent) (tools : SubagentToolNames)
  : option str :=
  if is_empty subagents then None
  else
    Some (lit "## Running Subagents" ++ [NL]
          ++ lit "These subagents were launched before this compaction and are still running. Use `"
          ++ poll tools
          ++ lit "` with the subagent_id to check their status or retrieve results. Use `"
          ++ cancel tools ++ lit "` with the subagent_id to cancel a subagent." ++ [NL]
          ++ join [NL] (map format_subagent_line subagents)).

Definition format_active_agent_sections (state : ActiveAgentReminderState)
    (subagent_tools : option SubagentToolNames) : list str :=
  option_list (section_background_tasks (running_commands state))
  ++ option_list (section_todo_list (todos state))
  ++ option_list (tools ← subagent_tools; section_running_subagents (running_subagents state) tools).

(** The body of a reminder: the sections that are not blank, a blank line apart. *)
Fixpoint reminder_body (sections : list str) (body : str) : str :=
  match sections with
  | [] => body
  | s :: sections' =>
      if is_empty (trim s) then reminder_body sections' body
      else reminder_body sections' ((if is_empty body then body else body ++ [NL; NL]) ++ s)
  end.

Definition wrap_system_reminder (sections : list str) : option str :=
  let body := reminder_body sections [] in
  if is_empty body then None
  else Some (lit "<system-reminder>" ++ [NL] ++ body ++ [NL] ++ lit "</system-reminder>").

Definition format_active_agent_reminder (state : ActiveAgentReminderState)
    (subagent_tools : option SubagentToolNames) : option str :=
  wrap_system_reminder (format_active_agent_sections state subagent_tools).

Definition append_reminder_block (summary : str) (reminder : option str) : str :=
  match reminder with
  | Some reminder =>
      if negb (is_empty (trim reminder)) then summary ++ [NL; NL] ++ reminder else summary
  | None => summary
  end.

(** ** Runs *)

(** The model's draft and wrapper go; what the body quotes of them is defused. *)
Example a_clean_summary :
  format_compact_summary (lit "<analysis>
draft
</analysis>
<summary>
1. Intent: answer in a <summary> block.



2. Done.
</summary>")
  = lit "Summary:
1. Intent: answer in a <​summary> block.

2. Done.".
Proof. by vm_compute. Qed.

Example a_prior_compaction :
  split_prior_compaction_text (lit "<grok_user_queries>
q
</grok_user_queries>

the summary")
  = (Some (lit "<grok_user_queries>
q
</grok_user_queries>"), lit "the summary").
Proof. by vm_compute. Qed.

Example an_overflow :
  classify_http_status 500 (lit "This model's Maximum Context Length is 8192") = Deterministic ∧
  classify_http_status 429 (lit "slow down") = Transient.
Proof. by vm_compute. Qed.
