(* ===== verification/CompactionTextFacts.v ===== *)
(** * Compaction: facts on the texts

    Occurrences of a tag in a text, what replacing does to them, and with it: a
    cleaned summary holds no control token, cleaning twice is cleaning once, and
    the blocks of user queries are read back as they were written. *)
From S2P Require Import Prelude RustStr StrSearch CompactionText.

Lemma not_in_closed (c : char) (s : str) : existsb (Z.eqb c) s = false → c ∉ s.
Proof.
  intros E Hin. rewrite (proj2 (existsb_exists _ _)) in E; [done|].
  exists c. split; [by apply list_elem_of_In|apply Z.eqb_refl].
Qed.

(** ** Occurrences *)

Definition occurs (p s : str) : Prop := ∃ a b, s = a ++ p ++ b.

Lemma occurs_cons p c s : occurs p (c :: s) ↔ p `prefix_of` c :: s ∨ occurs p s.
Proof.
  split.
  - intros ([|x a] & b & E); [left; by exists b|right]. injection E as -> ->. by exists a, b.
  - intros [[b ->]|(a & b & ->)]; [by exists [], b|by exists (c :: a), b].
Qed.

Lemma occurs_nil p : p ≠ [] → ¬ occurs p [].
Proof. intros Hp (a & b & E). destruct a, p; try done. Qed.

Lemma starts_with_prefix_of s p : starts_with s p = true ↔ p `prefix_of` s.
Proof. rewrite starts_with_spec. done. Qed.

Lemma find_Some_inv s p n : find s p = Some n →
  p `prefix_of` drop n s ∧ (n ≤ length s)%nat ∧ ∀ m, (m < n)%nat → ¬ p `prefix_of` drop m s.
Proof.
  revert n. induction s as [|c s IH]; intros n; cbn [find].
  - destruct (starts_with [] p) eqn:E; [|done]. intros [= <-]. rewrite drop_0.
    split; [by apply starts_with_prefix_of|]. split; [done|lia].
  - destruct (starts_with (c :: s) p) eqn:E.
    + intros [= <-]. rewrite drop_0. split; [by apply starts_with_prefix_of|]. split; [lia|lia].
    + intros Hn. apply fmap_Some in Hn as (k & Hk & ->). apply IH in Hk as (Hp & Hl & Hm).
      split; [done|]. split; [cbn; lia|]. intros [|m] Hlt.
      * rewrite drop_0, <- starts_with_prefix_of, E. done.
      * cbn. apply Hm. lia.
Qed.

Lemma find_occurs s p : p ≠ [] → is_Some (find s p) ↔ occurs p s.
Proof.
  intros Hp. induction s as [|c s IH]; cbn [find].
  - assert (E : starts_with [] p = false) by (by destruct p). rewrite E.
    split; [by intros [? ?]|]. intros H. by apply occurs_nil in H.
  - rewrite occurs_cons, <- starts_with_prefix_of. destruct (starts_with (c :: s) p) eqn:E.
    + split; [by left|by eexists].
    + rewrite fmap_is_Some, IH. naive_solver.
Qed.

Lemma contains_occurs s p : p ≠ [] → contains s p = true ↔ occurs p s.
Proof. intros Hp. rewrite <- find_occurs by done. unfold contains, is_Some. destruct (find s p); naive_solver. Qed.

Lemma not_contains s p : p ≠ [] → ¬ occurs p s → find s p = None.
Proof. intros Hp Hn. rewrite <- find_occurs in Hn by done. destruct (find s p); [|done]. exfalso. apply Hn. by eexists. Qed.

Lemma occurs_app_l p a s : occurs p s → occurs p (a ++ s).
Proof. intros (x & y & ->). exists (a ++ x), y. by rewrite <- app_assoc. Qed.
Lemma occurs_app_r p a s : occurs p s → occurs p (s ++ a).
Proof. intros (x & y & ->). exists x, (y ++ a). by rewrite <- !app_assoc. Qed.

Lemma occurs_drop p n s : occurs p (drop n s) → occurs p s.
Proof. intros H. rewrite <- (take_drop n s). by apply occurs_app_l. Qed.
Lemma occurs_take p n s : occurs p (take n s) → occurs p s.
Proof. intros H. rewrite <- (take_drop n s). by apply occurs_app_r. Qed.

Lemma occurs_trim p s : occurs p (trim s) → occurs p s.
Proof.
  destruct (trim_parts s) as (a & b & _ & _ & E). intros H. rewrite E. by apply occurs_app_l, occurs_app_r.
Qed.

(** ** Replacing *)

(** A pattern and a replacement that start with the same char. *)
Section Replace.
Context (g : char) (p0 r0 : str).

Lemma replace_from_skip s k : replace_from (g :: p0) (g :: r0) s k
  = replace_from (g :: p0) (g :: r0) (drop k s) 0.
Proof. revert k. induction s as [|c s IH]; intros [|k]; try done. cbn [replace_from drop]. apply IH. Qed.

Lemma replace_match s :
  replace (g :: p0) (g :: r0) ((g :: p0) ++ s) = (g :: r0) ++ replace (g :: p0) (g :: r0) s.
Proof.
  unfold replace. change ((g :: p0) ++ s) with (g :: (p0 ++ s)). cbn [replace_from].
  assert (E : starts_with (g :: p0 ++ s) (g :: p0) = true).
  { apply starts_with_prefix_of. by exists s. }
  rewrite E. cbn [length]. replace (S (length p0) - 1)%nat with (length p0) by lia.
  rewrite replace_from_skip. by rewrite drop_app_length.
Qed.

Lemma replace_copy c s : ¬ (g :: p0) `prefix_of` c :: s →
  replace (g :: p0) (g :: r0) (c :: s) = c :: replace (g :: p0) (g :: r0) s.
Proof.
  intros H. unfold replace. cbn [replace_from]. destruct (starts_with (c :: s) (g :: p0)) eqn:E; [|done].
  apply starts_with_prefix_of in E. done.
Qed.

(** Up to the first [g] the text is copied. *)
Lemma replace_prefix q s : g ∉ q → q `prefix_of` replace (g :: p0) (g :: r0) s → q `prefix_of` s.
Proof.
  revert s. induction q as [|x q IH]; intros s Hq H; [by apply prefix_nil|].
  apply not_elem_of_cons in Hq as [Hx Hq]. destruct s as [|c s]; [by apply prefix_nil_not in H|].
  destruct (decide ((g :: p0) `prefix_of` c :: s)) as [[s' E]|E].
  - rewrite E, replace_match in H. destruct H as [k H]. injection H as H _. done.
  - rewrite replace_copy in H by done. apply prefix_cons_inv_1 in H as Hc. subst x.
    apply prefix_cons_inv_2 in H. apply prefix_cons. by apply IH.
Qed.

(** An occurrence in the result that does not start inside a replacement was
    there before. *)
Lemma replace_occurs q x s :
  g ∉ q → (∀ u v k, g :: r0 = u ++ v → v ≠ [] → ¬ (x :: q) `prefix_of` v ++ k) →
  occurs (x :: q) (replace (g :: p0) (g :: r0) s) →
  ∃ a b, s = a ++ (x :: q) ++ b ∧ ¬ (g :: p0) `prefix_of` (x :: q) ++ b.
Proof.
  intros Hq Hr. induction s as [s IH] using (induction_ltof1 _ length). unfold ltof in IH.
  destruct s as [|c s]; [intros H; by apply occurs_nil in H|].
  destruct (decide ((g :: p0) `prefix_of` c :: s)) as [[s' E]|E].
  - rewrite E, replace_match. intros (u & w & H).
    apply app_eq_inv in H as [(v & H1 & H2)|(v & H1 & H2)].
    + destruct v as [|y v]; [|exfalso; by eapply (Hr u (y :: v)); [done..|rewrite <- H2; by exists w]].
      cbn in H2. destruct (IH s') as (a & b & -> & Hb).
      { apply (f_equal length) in E. rewrite length_app in E. cbn in *. lia. }
      { exists [], w. by rewrite <- H2. }
      exists ((g :: p0) ++ a), b. by rewrite <- app_assoc.
    + destruct (IH s') as (a & b & -> & Hb).
      { apply (f_equal length) in E. rewrite length_app in E. cbn in *. lia. }
      { exists v, w. done. }
      exists ((g :: p0) ++ a), b. by rewrite <- app_assoc.
  - rewrite replace_copy by done. rewrite occurs_cons. intros [H|H].
    + apply prefix_cons_inv_1 in H as Hx. subst x. apply prefix_cons_inv_2 in H.
      apply replace_prefix in H as [b ->]; [|done]. by exists [], b.
    + destruct (IH s) as (a & b & -> & Hb); [cbn; lia|done|]. by exists (c :: a), b.
Qed.

Lemma replace_id s : ¬ occurs (g :: p0) s → replace (g :: p0) (g :: r0) s = s.
Proof.
  induction s as [|c s IH]; [done|]. rewrite occurs_cons. intros H.
  rewrite replace_copy by tauto. rewrite IH by tauto. done.
Qed.

Lemma replace_length s : (length r0 ≤ length p0)%nat →
  (length (replace (g :: p0) (g :: r0) s) ≤ length s)%nat.
Proof.
  intros Hl. induction s as [s IH] using (induction_ltof1 _ length). unfold ltof in IH.
  destruct s as [|c s]; [done|].
  destruct (decide ((g :: p0) `prefix_of` c :: s)) as [[s' E]|E].
  - rewrite E, replace_match. rewrite !length_app. cbn [length].
    pose proof (IH s') as H. apply (f_equal length) in E. rewrite length_app in E. cbn in *. lia.
  - rewrite replace_copy by done. cbn [length]. pose proof (IH s) as H. cbn in *. lia.
Qed.

Lemma replace_shorter s : (length r0 < length p0)%nat → occurs (g :: p0) s →
  (length (replace (g :: p0) (g :: r0) s) < length s)%nat.
Proof.
  intros Hl. induction s as [|c s IH]; [intros H; by apply occurs_nil in H|].
  intros H. destruct (decide ((g :: p0) `prefix_of` c :: s)) as [[s' E]|E].
  - rewrite E, replace_match. rewrite !length_app. cbn [length].
    pose proof (replace_length s'). lia.
  - rewrite replace_copy by done. apply occurs_cons in H as [H|H]; [done|].
    apply IH in H. cbn. lia.
Qed.
End Replace.

(** ** Control tokens *)

(** A tag: an angle bracket, then chars that are neither one nor the sentinel. *)
Definition guarded (t : str) : Prop :=
  ∃ y q, t = LT :: y :: q ∧ LT ∉ y :: q ∧ ZERO_WIDTH_SPACE ∉ y :: q.

Definition guardedb (t : str) : bool :=
  match t with
  | c :: y :: q => (c =? LT)%Z && forallb (λ x, negb (x =? LT) && negb (x =? ZERO_WIDTH_SPACE))%Z (y :: q)
  | _ => false
  end.

Lemma guardedb_sound t : guardedb t = true → guarded t.
Proof.
  unfold guardedb. destruct t as [|c [|y q]]; [done..|]. intros [Hc Hq]%andb_true_iff.
  apply Z.eqb_eq in Hc. subst c. exists y, q. split; [done|]. rewrite forallb_forall in Hq.
  split; intros Hin; apply list_elem_of_In, Hq in Hin; unfold LT, ZERO_WIDTH_SPACE in *; lia.
Qed.

Lemma control_tokens_guarded : Forall guarded CONTROL_TOKENS.
Proof. apply Forall_forall. intros t Ht. apply guardedb_sound. revert t Ht. by apply Forall_forall; repeat constructor. Qed.

Lemma guarded_not_nil t : guarded t → t ≠ [].
Proof. by intros (y & q & -> & _). Qed.

(** No tag starts inside a defused one. *)
Lemma no_start_in_defused t t' u v k : guarded t → guarded t' →
  LT :: ZERO_WIDTH_SPACE :: tail t = u ++ v → v ≠ [] → ¬ t' `prefix_of` v ++ k.
Proof.
  intros (y & q & -> & Hl & _) (y' & q' & -> & _ & Hz) E Hv [k' Hk]. cbn [tail] in E.
  destruct v as [|c v]; [done|]. injection Hk as -> Hk. destruct u as [|x u].
  - assert (Ev : v = ZERO_WIDTH_SPACE :: y :: q) by (cbn in E; congruence). subst v.
    injection Hk as <- _. apply Hz. by left.
  - injection E as <- E. assert (Hin : LT ∈ ZERO_WIDTH_SPACE :: y :: q).
    { rewrite E. apply elem_of_app. right. by left. }
    apply elem_of_cons in Hin as [Hin|Hin]; [done|]. by apply Hl.
Qed.

Lemma defuse_keeps t t' s : guarded t → guarded t' → occurs t' (defuse t s) →
  ∃ a b, s = a ++ t' ++ b ∧ ¬ t `prefix_of` t' ++ b.
Proof.
  intros Ht Ht'. pose proof (λ u v k, no_start_in_defused t t' u v k Ht Ht') as Hr.
  destruct Ht as (y & q & -> & _ & _), Ht' as (y' & q' & -> & Hl & _).
  unfold defuse. cbn [tail] in *. by apply replace_occurs.
Qed.

Lemma defuse_occurs t t' s : guarded t → guarded t' → occurs t' (defuse t s) → occurs t' s.
Proof. intros Ht Ht' H. apply defuse_keeps in H as (a & b & -> & _); [by exists a, b|done..]. Qed.

Lemma defuse_kills t s : guarded t → ¬ occurs t (defuse t s).
Proof. intros Ht H. apply defuse_keeps in H as (a & b & -> & Hn); [|done..]. apply Hn. by exists b. Qed.

Lemma fold_defuse ts t s : Forall guarded ts → guarded t →
  (t ∈ ts ∨ ¬ occurs t s) → ¬ occurs t (fold_left (λ x token, defuse token x) ts s).
Proof.
  intros Hts Ht. revert s. induction Hts as [|t' ts Ht' _ IH]; intros s H; cbn [fold_left].
  - destruct H as [H|H]; [by apply elem_of_nil in H|done].
  - apply IH. destruct H as [[->|H]%elem_of_cons|H]; [right; by apply defuse_kills|by left|].
    right. intros Ho. apply H. by apply (defuse_occurs t').
Qed.

Lemma neutralized t s : t ∈ CONTROL_TOKENS → ¬ occurs t (neutralize_compaction_control_tokens s).
Proof.
  intros Ht. pose proof control_tokens_guarded as Hg. apply fold_defuse; [done| |by left].
  rewrite Forall_forall in Hg. by apply Hg.
Qed.

Definition inert (s : str) : Prop := ∀ t, t ∈ CONTROL_TOKENS → ¬ occurs t s.

Lemma neutralize_id s : inert s → neutralize_compaction_control_tokens s = s.
Proof.
  unfold neutralize_compaction_control_tokens, inert. pose proof control_tokens_guarded as Hg. revert Hg.
  generalize CONTROL_TOKENS as ts. induction 1 as [|t ts (y & q & -> & _ & _) _ IH]; [done|].
  intros H. cbn [fold_left]. replace (defuse (LT :: y :: q) s) with s.
  - apply IH. intros t Ht. apply H. by right.
  - symmetry. apply replace_id. apply H. by left.
Qed.

(** ** Blank lines *)

Definition BLANK_LINES : str := [NL; NL; NL].

Lemma collapse_keeps fuel t s : t ≠ [] → NL ∉ t →
  occurs t (collapse_blank_lines fuel s) → occurs t s.
Proof.
  intros Hne Hn. revert s. induction fuel as [|fuel IH]; intros s; cbn [collapse_blank_lines]; [done|].
  destruct (contains s [NL; NL; NL]); [|done]. intros H%IH. destruct t as [|x q]; [done|].
  apply not_elem_of_cons in Hn as [Hx Hq].
  apply (replace_occurs NL [NL; NL] [NL]) in H as (a & b & -> & _); [by exists a, b|done|].
  intros u v k E Hv [k' Hk]. destruct v as [|c v]; [done|]. injection Hk as -> _.
  assert (Hin : x ∈ [NL; NL]) by (rewrite E; apply elem_of_app; right; by left).
  rewrite !elem_of_cons in Hin. destruct Hin as [?|[?|?%elem_of_nil]]; done.
Qed.

Lemma collapse_done fuel s : (length s ≤ fuel)%nat → ¬ occurs BLANK_LINES (collapse_blank_lines fuel s).
Proof.
  revert s. induction fuel as [|fuel IH]; intros s Hl; cbn [collapse_blank_lines].
  - destruct s; [|cbn in Hl; lia]. by apply occurs_nil.
  - destruct (contains s [NL; NL; NL]) eqn:E.
    + apply IH. apply contains_occurs in E; [|done].
      apply (replace_shorter NL [NL; NL] [NL]) in E; [|cbn; lia]. unfold replace in *. lia.
    + intros H. apply contains_occurs in H; [|done]. unfold BLANK_LINES in H. congruence.
Qed.

Lemma collapse_id fuel s : ¬ occurs BLANK_LINES s → collapse_blank_lines fuel s = s.
Proof.
  destruct fuel as [|fuel]; [done|]. cbn [collapse_blank_lines]. intros H.
  destruct (contains s [NL; NL; NL]) eqn:E; [|done]. apply contains_occurs in E; done.
Qed.

(** ** Finding a tag *)

(** A pattern whose first char is nowhere else in it. *)
Definition headed (p : str) : Prop := ∃ c q, p = c :: q ∧ c ∉ q.

Lemma guarded_headed t : guarded t → headed t.
Proof. intros (y & q & -> & H & _). by exists LT, (y :: q). Qed.

(** Such a pattern is not in [s ++ p] but at its end, unless it is in [s]. *)
Lemma find_headed p s k : headed p → ¬ occurs p s → find (s ++ p ++ k) p = Some (length s).
Proof.
  intros (c & q & Hp & Hc). induction s as [|x s IH]; intros Hn.
  - cbn [app length]. destruct (p ++ k) as [|y r] eqn:E; [by subst p|]. cbn [find].
    replace (starts_with (y :: r) p) with true; [done|]. symmetry.
    apply starts_with_prefix_of. rewrite <- E. by exists k.
  - rewrite occurs_cons in Hn. cbn [app find length].
    destruct (starts_with (x :: s ++ p ++ k) p) eqn:E; [|rewrite IH by tauto; done].
    exfalso. apply starts_with_prefix_of in E as [r E].
    change (x :: s ++ p ++ k) with ((x :: s) ++ p ++ k) in E.
    apply app_eq_inv in E as [(v & H1 & H2)|(v & H1 & H2)]; [apply Hn; left; by exists v|].
    destruct v as [|y v]; [apply Hn; left; exists []; by rewrite H1, !app_nil_r|].
    rewrite Hp in H1, H2. cbn in H2. injection H2 as <- _. cbn in H1. injection H1 as _ H1.
    apply Hc. rewrite H1. apply elem_of_app. right. by left.
Qed.

Lemma find_none_id p s : p ≠ [] → ¬ occurs p s → find s p = None.
Proof. apply not_contains. Qed.

Lemma occurs_rev p s : occurs (rev p) (rev s) ↔ occurs p s.
Proof.
  split; intros (a & b & E).
  - exists (rev b), (rev a). apply (f_equal (@rev Z)) in E.
    by rewrite rev_involutive, !rev_app_distr, rev_involutive, <- app_assoc in E.
  - exists (rev b), (rev a). by rewrite E, !rev_app_distr, <- app_assoc.
Qed.

Lemma rfind_none p s : p ≠ [] → ¬ occurs p s → rfind s p = None.
Proof.
  intros Hp Hn. unfold rfind. rewrite not_contains; [done| |by rewrite occurs_rev].
  intros E. apply (f_equal (@rev Z)) in E. rewrite rev_involutive in E. done.
Qed.

(** After the last occurrence there is none. *)
Lemma rfind_last p a b : headed p → ¬ occurs p b → rfind (a ++ p ++ b) p = Some (length a).
Proof.
  intros (c & q & Hp & Hc) Hb. unfold rfind. assert (Hne : rev p ≠ []).
  { intros E. apply (f_equal (@rev Z)) in E. rewrite rev_involutive, Hp in E. done. }
  assert (Ho : is_Some (find (rev (a ++ p ++ b)) (rev p))).
  { apply find_occurs; [done|]. apply occurs_rev. by exists a, b. }
  destruct Ho as [n Hf]. rewrite Hf. cbn [mbind option_bind]. f_equal.
  apply find_Some_inv in Hf as ([k Hk] & Hl & Hm).
  cut (n = length b); [intros ->; rewrite !length_app; lia|].
  destruct (lt_eq_lt_dec n (length b)) as [[Hlt|]|Hgt]; [exfalso|done|exfalso].
  2: { apply (Hm _ Hgt). rewrite !rev_app_distr, <- app_assoc, <- (length_rev b), drop_app_length.
       by exists (rev a). }
  pose proof (take_drop n (rev (a ++ p ++ b))) as E. rewrite Hk in E.
  apply (f_equal (@rev Z)) in E. rewrite !rev_app_distr, !rev_involutive, <- app_assoc in E.
  set (u := rev (take n _)) in E. assert (Hu : length u = n).
  { unfold u. rewrite length_rev, length_take, !length_app, !length_rev. lia. }
  pose proof (f_equal length E) as El. rewrite !length_app in El.
  apply app_eq_inv in E as [(v & H1 & H2)|(v & H1 & H2)].
  2: { apply (f_equal length) in H1. rewrite length_app in H1. lia. }
  apply (f_equal length) in H1 as Hv. rewrite length_app in Hv.
  destruct v as [|y v]; [cbn in Hv; lia|]. rewrite Hp in H2 at 1. cbn in H2. injection H2 as <- H2.
  apply app_eq_inv in H2 as [(w & H3 & H4)|(w & H3 & H4)].
  - destruct w as [|y w]; [apply Hb; exists [], u; symmetry; exact H4|].
    rewrite Hp in H4. cbn in H4. injection H4 as <- _. apply Hc. rewrite H3.
    apply elem_of_app. right. by left.
  - apply Hb. by exists w, u.
Qed.

(** Where an occurrence of such a pattern in a concatenation lies. *)
Lemma occurs_app_inv p a b : occurs p (a ++ b) →
  occurs p a ∨ occurs p b ∨
  ∃ t1 t2, p = t1 ++ t2 ∧ t1 ≠ [] ∧ t2 ≠ [] ∧ t1 `suffix_of` a ∧ t2 `prefix_of` b.
Proof.
  intros (u & v & E). apply app_eq_inv in E as [(k & E1 & E2)|(k & E1 & E2)].
  - apply app_eq_inv in E2 as [(m & E3 & E4)|(m & E3 & E4)].
    + destruct m as [|x m]; [left; exists u, []; by rewrite E1, E3, !app_nil_r|].
      destruct k as [|y k]; [right; left; exists [], v; rewrite E4, E3; done|].
      right. right. exists (y :: k), (x :: m). split_and!; try done; [by exists u|by exists v].
    + left. exists u, m. by rewrite E1, E3.
  - right. left. by exists k, v.
Qed.

(** No occurrence of a headed pattern crosses into a text that starts with its
    head, or out of one that ends with a char foreign to it. *)
Lemma occurs_before_head p c q a b :
  p = c :: q → c ∉ q → occurs p (a ++ c :: b) → occurs p a ∨ occurs p (c :: b).
Proof.
  intros Hp Hc H. apply occurs_app_inv in H as [H|[H|(t1 & t2 & E & H1 & H2 & _ & [k Hk])]]; [by left|by right|].
  exfalso. destruct t2 as [|y t2]; [done|]. injection Hk as <- _. destruct t1 as [|x t1]; [done|].
  rewrite Hp in E. injection E as _ E. apply Hc. rewrite E. apply elem_of_app. right. by left.
Qed.

Lemma occurs_foreign p x a b : x ∉ p → occurs p (a ++ x :: b) → occurs p a ∨ occurs p b.
Proof.
  intros Hx H. change (a ++ x :: b) with (a ++ [x] ++ b) in H. rewrite app_assoc in H.
  apply occurs_app_inv in H as [H|[H|(t1 & t2 & E & H1 & H2 & [k Hk] & _)]]; [|by right|].
  - apply occurs_app_inv in H as [H|[H|(t1 & t2 & E & H1 & H2 & _ & [k Hk])]]; [by left| |].
    + destruct p as [|y p]; [left; by exists [], a|]. exfalso.
      destruct H as ([|z u] & v & E); [injection E as -> _; apply Hx; by left|by destruct u].
    + exfalso. destruct t2 as [|y t2]; [done|]. injection Hk as <- _. apply Hx. rewrite E.
      apply elem_of_app. right. by left.
  - exfalso. destruct t1 as [|y t1 _] using rev_ind; [done|]. rewrite app_assoc in Hk.
    apply app_inj_2 in Hk as [_ Hk]; [|done]. injection Hk as <-. apply Hx. rewrite E.
    apply elem_of_app. left. apply elem_of_app. right. by left.
Qed.

(** ** Cleaning *)

Lemma strip_analysis_id fuel s : ¬ occurs ANALYSIS_OPEN s → strip_analysis fuel s = s.
Proof. intros H. destruct fuel; [done|]. cbn [strip_analysis]. by rewrite not_contains. Qed.

(** One round of the loop. *)
Lemma strip_analysis_shorter start rel s :
  find s ANALYSIS_OPEN = Some start → find (drop start s) ANALYSIS_CLOSE = Some rel →
  (length (take start s ++ drop (start + rel + length ANALYSIS_CLOSE) s) < length s)%nat.
Proof.
  intros Hs Hr. apply find_Some_inv in Hs as ([k Hk] & Hl & _).
  rewrite length_app, length_take, length_drop.
  assert (E1 : length ANALYSIS_OPEN = 10%nat) by (by vm_compute).
  assert (E2 : length ANALYSIS_CLOSE = 11%nat) by (by vm_compute).
  apply (f_equal length) in Hk. rewrite length_app, length_drop in Hk. lia.
Qed.

(** The length of the text is enough fuel: more gives the same. *)
Lemma strip_analysis_fuel fuel s : (length s ≤ fuel)%nat →
  strip_analysis fuel s = strip_analysis (length s) s.
Proof.
  cut (∀ f f', (length s ≤ f)%nat → (length s ≤ f')%nat → strip_analysis f s = strip_analysis f' s).
  { intros H Hl. by apply H. }
  induction s as [s IH] using (induction_ltof1 _ length). unfold ltof in IH. intros f f' Hf Hf'.
  destruct (find s ANALYSIS_OPEN) as [start|] eqn:Es.
  2: { destruct f, f'; cbn [strip_analysis]; by rewrite ?Es. }
  assert (Hpos : (0 < length s)%nat).
  { apply find_Some_inv in Es as ([k Hk] & Hl & _). apply (f_equal length) in Hk.
    rewrite length_app, length_drop in Hk. assert (length ANALYSIS_OPEN = 10%nat) by (by vm_compute). lia. }
  destruct f as [|f]; [lia|]. destruct f' as [|f']; [lia|]. cbn [strip_analysis]. rewrite Es.
  destruct (negb (is_leading s start)); [done|].
  destruct (find (drop start s) ANALYSIS_CLOSE) as [rel|] eqn:Er; [|done].
  pose proof (strip_analysis_shorter start rel s Es Er). apply IH; lia.
Qed.

Lemma unwrap_summary_id s : ¬ occurs SUMMARY_OPEN s → unwrap_summary s = s.
Proof. intros H. unfold unwrap_summary. by rewrite not_contains. Qed.

Lemma format_compact_summary_clean s :
  inert (format_compact_summary s) ∧ ¬ occurs BLANK_LINES (format_compact_summary s) ∧
  trim (format_compact_summary s) = format_compact_summary s.
Proof.
  unfold format_compact_summary. set (t := neutralize_compaction_control_tokens _).
  split; [|split].
  - intros tok Htok H. apply occurs_trim, collapse_keeps in H.
    + by apply (neutralized tok) in H.
    + by apply guarded_not_nil; pose proof control_tokens_guarded as Hg; rewrite Forall_forall in Hg; apply Hg.
    + intros Hn. assert (Hall : Forall (λ tok, existsb (Z.eqb NL) tok = false) CONTROL_TOKENS)
        by (repeat constructor).
      rewrite Forall_forall in Hall. specialize (Hall _ Htok).
      rewrite (proj2 (existsb_exists _ _)) in Hall; [done|]. exists NL. split; [|done].
      by apply list_elem_of_In.
  - intros H. apply occurs_trim in H. by apply collapse_done in H.
  - apply trim_idem.
Qed.

Lemma inert_open s : inert s → ¬ occurs ANALYSIS_OPEN s ∧ ¬ occurs SUMMARY_OPEN s ∧
  ¬ occurs SUMMARY_CLOSE s ∧ ¬ occurs ANALYSIS_CLOSE s.
Proof. intros H. split_and!; apply H; [do 3 right; left|right; left|left|do 2 right; left]. Qed.

Lemma format_compact_summary_idem s :
  format_compact_summary (format_compact_summary s) = format_compact_summary s.
Proof.
  destruct (format_compact_summary_clean s) as (Hi & Hb & Ht). revert Hi Hb Ht.
  generalize (format_compact_summary s) as c. intros c Hi Hb Ht. unfold format_compact_summary.
  destruct (inert_open c Hi) as (Ha & Hs & _). cbv zeta.
  rewrite (strip_analysis_id _ _ Ha), (unwrap_summary_id _ Hs), (neutralize_id _ Hi).
  rewrite (collapse_id _ _ Hb). exact Ht.
Qed.

Lemma not_occurs_closed p s : p ≠ [] → contains s p = false → ¬ occurs p s.
Proof. intros Hp Hc Ho. apply contains_occurs in Ho; [congruence|done]. Qed.

(** Chars other than the head are skipped. *)
Lemma occurs_skip c q a b : c ∉ a → occurs (c :: q) (a ++ b) → occurs (c :: q) b.
Proof.
  induction a as [|x a IH]; [done|]. intros [Hx Ha]%not_elem_of_cons. cbn [app].
  rewrite occurs_cons. intros [H|H]; [|by apply IH]. apply prefix_cons_inv_1 in H. done.
Qed.

Lemma tags_headed : headed ANALYSIS_OPEN ∧ headed ANALYSIS_CLOSE ∧ headed SUMMARY_OPEN ∧ headed SUMMARY_CLOSE.
Proof.
  refine (conj _ (conj _ (conj _ _))); apply guarded_headed, guardedb_sound; vm_compute; reflexivity.
Qed.

Lemma close_not_in_open d : ¬ occurs ANALYSIS_CLOSE d → ¬ occurs ANALYSIS_CLOSE (ANALYSIS_OPEN ++ d).
Proof.
  intros Hd H. destruct H as (u & v & E). destruct u as [|x u].
  - apply (f_equal (λ l, l !! 1%nat)) in E. vm_compute in E. discriminate E.
  - apply Hd. apply (occurs_skip LT (tail ANALYSIS_CLOSE) (tail ANALYSIS_OPEN)).
    + by apply not_in_closed.
    + assert (Ex : x = LT) by (vm_compute in E |- *; congruence).
      exists u, v. apply (f_equal tail) in E. exact E.
Qed.

(** The summary block after the draft is gone. *)
Definition summary_block (body : str) : str := SUMMARY_OPEN ++ NL :: body ++ NL :: SUMMARY_CLOSE.

Lemma no_draft_in_block body : inert body → ¬ occurs ANALYSIS_OPEN (NL :: summary_block body).
Proof.
  intros Hi. apply inert_open in Hi as (Ha & _). change (NL :: ?s) with ([] ++ NL :: s) at 1.
  intros H. unfold summary_block in H.
  assert (Hn : NL ∉ ANALYSIS_OPEN) by (by apply not_in_closed).
  assert (Hc : ∀ s, contains s ANALYSIS_OPEN = false → ¬ occurs ANALYSIS_OPEN s).
  { intros s. by apply not_occurs_closed. }
  apply occurs_foreign in H as [H|H]; [by apply Hc in H| |done].
  apply occurs_foreign in H as [H|H]; [by apply Hc in H| |done].
  apply occurs_foreign in H as [H|H]; [done| |done]. by apply Hc in H.
Qed.

Lemma strip_draft d body : ¬ occurs ANALYSIS_CLOSE d → inert body →
  let raw := ANALYSIS_OPEN ++ d ++ ANALYSIS_CLOSE ++ NL :: summary_block body in
  strip_analysis (length raw) raw = NL :: summary_block body.
Proof.
  intros Hd Hi raw. destruct tags_headed as (Ho & Hc & _). destruct (length raw) as [|n] eqn:El.
  { unfold raw in El. rewrite length_app in El. vm_compute in El. done. }
  cbn [strip_analysis]. assert (E0 : find raw ANALYSIS_OPEN = Some 0%nat).
  { apply (find_headed ANALYSIS_OPEN []); [done|]. by apply occurs_nil. }
  rewrite E0. assert (Hlead : is_leading raw 0 = true).
  { unfold is_leading, sub. destruct (find raw SUMMARY_OPEN); [|done].
    rewrite take_0, drop_nil. by rewrite orb_true_r. }
  rewrite Hlead, drop_0. cbn [negb]. unfold raw at 1. rewrite app_assoc.
  rewrite find_headed by (try done; by apply close_not_in_open). cbn [take app].
  replace (drop _ raw) with (NL :: summary_block body).
  - apply strip_analysis_id. by apply no_draft_in_block.
  - unfold raw. rewrite !app_assoc. rewrite drop_app_length' by (rewrite !length_app; lia). done.
Qed.

Lemma scratchpad_id body : inert body → trim body = body → strip_leading_scratchpad body = body.
Proof.
  intros Hi Ht. apply inert_open in Hi as (_ & Hs & _ & Hc). unfold strip_leading_scratchpad. cbv zeta.
  rewrite Ht, (rfind_none ANALYSIS_CLOSE body) by done.
  assert (E : strip_prefix SUMMARY_OPEN body = None).
  { destruct (strip_prefix SUMMARY_OPEN body) as [r|] eqn:E; [|done].
    exfalso. apply strip_prefix_Some in E. apply Hs. by exists [], r. }
  destruct (negb _); by rewrite E.
Qed.

Lemma unwrap_block body : inert body → trim body = body →
  unwrap_summary (NL :: summary_block body) = NL :: lit "Summary:" ++ NL :: body.
Proof.
  intros Hi Ht. destruct tags_headed as (_ & _ & Ho & Hc). unfold unwrap_summary.
  set (m := NL :: SUMMARY_OPEN ++ NL :: body ++ [NL]).
  assert (E : NL :: summary_block body = m ++ SUMMARY_CLOSE ++ []).
  { unfold summary_block, m. cbn [app]. rewrite app_nil_r, <- app_assoc. cbn [app].
    by rewrite <- app_assoc. }
  assert (E1 : find (NL :: summary_block body) SUMMARY_OPEN = Some 1%nat).
  { apply (find_headed SUMMARY_OPEN [NL] (NL :: body ++ NL :: SUMMARY_CLOSE)); [done|].
    by apply not_occurs_closed. }
  assert (E2 : rfind (NL :: summary_block body) SUMMARY_CLOSE = Some (length m)).
  { rewrite E. apply rfind_last; [done|]. by apply occurs_nil. }
  rewrite E1, E2. assert (Hlt : (1 <? length m)%nat = true) by (apply Nat.ltb_lt; cbn; lia).
  assert (E3 : drop (length m + length SUMMARY_CLOSE) (NL :: summary_block body) = []).
  { rewrite E, app_nil_r. apply drop_ge. by rewrite length_app. }
  assert (E4 : sub (NL :: summary_block body) (1 + length SUMMARY_OPEN) (length m) = NL :: body ++ [NL]).
  { unfold sub. rewrite E, take_app_length. done. }
  rewrite Hlt, E3, E4. cbn [take app].
  assert (Eb : trim (NL :: body ++ [NL]) = trim body).
  { change (NL :: body ++ [NL]) with ([NL] ++ body ++ [NL]). apply trim_outer; by repeat constructor. }
  rewrite Eb, Ht, scratchpad_id by done. by rewrite app_nil_r.
Qed.

Lemma blank_lines_skip x s : x ≠ NL → occurs BLANK_LINES (x :: s) → occurs BLANK_LINES s.
Proof. intros Hx. rewrite occurs_cons. intros [H|H]; [|done]. by apply prefix_cons_inv_1 in H. Qed.

Lemma headed_summary_clean body : inert body → ¬ occurs BLANK_LINES body → trim body = body →
  body ≠ [] →
  inert (NL :: lit "Summary:" ++ NL :: body) ∧ ¬ occurs BLANK_LINES (NL :: lit "Summary:" ++ NL :: body) ∧
  trim (NL :: lit "Summary:" ++ NL :: body) = lit "Summary:" ++ NL :: body.
Proof.
  intros Hi Hb Ht Hne. pose proof (proj1 (trim_trimmed body) Ht) as [Hh Hl].
  destruct body as [|x b]; [done|]. specialize (Hh x eq_refl). assert (Hx : x ≠ NL) by (intros ->; done).
  split; [|split].
  - intros t Ht' H. pose proof control_tokens_guarded as Hg. rewrite Forall_forall in Hg.
    destruct (Hg t Ht') as (y & q & -> & _). apply (Hi (LT :: y :: q)); [done|].
    change (NL :: lit "Summary:" ++ NL :: x :: b) with ((NL :: lit "Summary:" ++ [NL]) ++ x :: b) in H.
    apply occurs_skip in H; [done|]. by apply not_in_closed.
  - intros H. apply Hb. rewrite occurs_cons in H. destruct H as [[k E]|H]; [by vm_compute in E|].
    change (lit "Summary:" ++ NL :: x :: b) with ([83; 117; 109; 109; 97; 114; 121; 58; NL; x]%Z ++ b) in H.
    do 8 (apply blank_lines_skip in H; [|done]). rewrite occurs_cons in H.
    destruct H as [[k E]|H]; [|done]. injection E as E. congruence.
  - change (NL :: lit "Summary:" ++ NL :: x :: b) with ([NL] ++ (lit "Summary:" ++ NL :: x :: b)).
    rewrite <- (app_nil_r (lit "Summary:" ++ NL :: x :: b)) at 1.
    rewrite trim_outer by (by repeat constructor). apply trim_trimmed. split; [by intros c [= <-]|].
    intros c Hc. apply Hl. rewrite <- Hc. symmetry. change (NL :: x :: b) with ([NL] ++ x :: b).
    rewrite app_assoc. apply last_app_cons.
Qed.

(** A summary in the asked-for form: its draft goes, its body stays. *)
Lemma format_of_block d body : ¬ occurs ANALYSIS_CLOSE d → inert body → ¬ occurs BLANK_LINES body →
  trim body = body → body ≠ [] →
  format_compact_summary (ANALYSIS_OPEN ++ d ++ ANALYSIS_CLOSE ++ NL :: summary_block body)
  = lit "Summary:" ++ NL :: body.
Proof.
  intros Hd Hi Hb Ht Hne. destruct (headed_summary_clean body Hi Hb Ht Hne) as (Hi' & Hb' & Ht').
  unfold format_compact_summary. cbv zeta. rewrite (strip_draft d body Hd Hi), (unwrap_block body Hi Ht).
  rewrite (neutralize_id _ Hi'), (collapse_id _ _ Hb'). exact Ht'.
Qed.

(** ** Blocks of user queries *)

Definition block_ok (b : str) : Prop :=
  ∃ inner, b = QUERIES_OPEN ++ inner ++ QUERIES_CLOSE ∧ ¬ occurs QUERIES_CLOSE inner.

Definition joined (bs : list str) : option str :=
  match bs with [] => None | _ => Some (join [NL] bs) end.

Lemma queries_headed : headed QUERIES_OPEN ∧ headed QUERIES_CLOSE.
Proof. split; apply guarded_headed, guardedb_sound; vm_compute; reflexivity. Qed.

Lemma queries_close_not_in_open d :
  ¬ occurs QUERIES_CLOSE d → ¬ occurs QUERIES_CLOSE (QUERIES_OPEN ++ d).
Proof.
  intros Hd (u & v & E). destruct u as [|x u].
  - apply (f_equal (λ l, l !! 1%nat)) in E. vm_compute in E. discriminate E.
  - apply Hd, (occurs_skip LT (tail QUERIES_CLOSE) (tail QUERIES_OPEN)); [by apply not_in_closed|].
    exists u, v. by apply (f_equal tail) in E.
Qed.

Lemma find_block_end b k : block_ok b →
  ∃ rel, find (b ++ k) QUERIES_CLOSE = Some rel ∧ (rel + length QUERIES_CLOSE)%nat = length b.
Proof.
  intros (inner & -> & Hn). exists (length (QUERIES_OPEN ++ inner)). destruct queries_headed as [_ Hc].
  rewrite <- !app_assoc, app_assoc, find_headed by (try done; by apply queries_close_not_in_open).
  by rewrite !length_app, Nat.add_assoc.
Qed.

Lemma find_block_start g b k : ¬ occurs QUERIES_OPEN g → block_ok b →
  find (g ++ b ++ k) QUERIES_OPEN = Some (length g).
Proof.
  intros Hg (inner & -> & _). destruct queries_headed as [Ho _].
  rewrite <- !app_assoc. by apply find_headed.
Qed.

Lemma split_loop_block fuel g b k secs r : ¬ occurs QUERIES_OPEN g → block_ok b →
  split_prior_loop (S fuel) (g ++ b ++ k) secs r
  = split_prior_loop fuel k (secs ++ [b]) (push_rest r g).
Proof.
  intros Hg Hb. cbn [split_prior_loop]. rewrite (find_block_start g b k Hg Hb).
  rewrite drop_app_length. destruct (find_block_end b k Hb) as (rel & -> & Hrel).
  replace (length g + rel + length QUERIES_CLOSE)%nat with (length g + length b)%nat by lia.
  unfold sub. rewrite take_app_length.
  rewrite (app_assoc g b k), drop_app_length' by (by rewrite length_app).
  rewrite take_app_length' by (by rewrite length_app). rewrite drop_app_length. done.
Qed.

Lemma split_loop_end fuel g secs r : ¬ occurs QUERIES_OPEN g →
  split_prior_loop (S fuel) g secs r = (secs, push_rest r g).
Proof. intros Hg. cbn [split_prior_loop]. by rewrite not_contains. Qed.

Lemma blank_no_open g : blank g → ¬ occurs QUERIES_OPEN g.
Proof.
  intros Hg (a & b & ->). unfold blank in Hg. rewrite !Forall_app in Hg. destruct Hg as (_ & Hg & _).
  inversion Hg as [|? ? H]. vm_compute in H. discriminate H.
Qed.

Lemma push_blank r g : blank g → push_rest r g = r.
Proof. intros Hg. unfold push_rest. by rewrite (proj2 (trim_nil g) Hg). Qed.

Lemma split_blocks gbs s fuel secs :
  Forall (λ gb, blank gb.1 ∧ block_ok gb.2) gbs → ¬ occurs QUERIES_OPEN s → (length gbs < fuel)%nat →
  split_prior_loop fuel (concat (map (λ gb, gb.1 ++ gb.2) gbs) ++ s) secs []
  = (secs ++ map snd gbs, push_rest [] s).
Proof.
  intros Hg Hs. revert fuel secs. induction Hg as [|[g b] gbs [Hb Hok] _ IH]; intros fuel secs Hf.
  - destruct fuel; [cbn in Hf; lia|]. cbn [map concat app]. rewrite split_loop_end by done.
    by rewrite app_nil_r.
  - destruct fuel; [cbn in Hf; lia|]. cbn [map concat fst snd]. rewrite <- !app_assoc.
    rewrite split_loop_block by (try done; by apply blank_no_open). rewrite push_blank by done.
    rewrite IH by (cbn in Hf; lia). by rewrite <- app_assoc.
Qed.

Lemma join_cons_concat b bs : join [NL] (b :: bs) = b ++ concat (map (λ b, NL :: b) bs).
Proof.
  revert b. induction bs as [|b' bs IH]; intros b; [by cbn; rewrite app_nil_r|].
  change (join [NL] (b :: b' :: bs)) with (b ++ [NL] ++ join [NL] (b' :: bs)). rewrite IH. done.
Qed.

(** The gaps before the blocks of a preamble. *)
Definition with_gaps (bs : list str) : list (str * str) :=
  match bs with [] => [] | b :: bs => ([], b) :: map (λ b, ([NL], b)) bs end.

Lemma with_gaps_concat bs : bs ≠ [] →
  concat (map (λ gb, gb.1 ++ gb.2) (with_gaps bs)) = join [NL] bs.
Proof.
  destruct bs as [|b bs]; [done|]. intros _. rewrite join_cons_concat. cbn. by rewrite map_map.
Qed.

Lemma with_gaps_snd bs : map snd (with_gaps bs) = bs.
Proof. destruct bs as [|b bs]; [done|]. cbn. by rewrite map_map, map_id. Qed.

Lemma with_gaps_ok bs : Forall block_ok bs →
  Forall (λ gb, blank gb.1 ∧ block_ok gb.2) (with_gaps bs).
Proof.
  intros H. destruct H as [|b bs Hb Hbs]; [constructor|]. constructor; [by split; [constructor|]|].
  apply Forall_map. eapply Forall_impl; [exact Hbs|]. intros x Hx. by split; [repeat constructor|].
Qed.

Lemma blocks_length gbs s : Forall (λ gb, blank gb.1 ∧ block_ok gb.2) gbs →
  (length gbs ≤ length (concat (map (λ gb, gb.1 ++ gb.2) gbs) ++ s))%nat.
Proof.
  induction 1 as [|[g b] gbs [_ Hb] _ IH]; [cbn; lia|]. cbn [length map concat fst snd] in *.
  destruct Hb as (inner & -> & _). rewrite !length_app in *. assert (length QUERIES_OPEN = 19%nat) by done. lia.
Qed.

Lemma split_text gbs s : Forall (λ gb, blank gb.1 ∧ block_ok gb.2) gbs → gbs ≠ [] →
  ¬ occurs QUERIES_OPEN s →
  split_prior_compaction_text (concat (map (λ gb, gb.1 ++ gb.2) gbs) ++ s)
  = (joined (map snd gbs), trim s).
Proof.
  intros Hg Hne Hs. unfold split_prior_compaction_text. pose proof (blocks_length gbs s Hg).
  rewrite split_blocks by (try done; lia). cbn [app]. destruct gbs as [|[g b] gbs]; [done|].
  cbn [map is_empty joined]. f_equal. unfold push_rest. by destruct (trim s).
Qed.

(** What a preamble and a summary are read back as. *)
Lemma split_preamble bs cur s :
  Forall block_ok (bs ++ option_list cur) → bs ++ option_list cur ≠ [] → ¬ occurs QUERIES_OPEN s →
  split_prior_compaction_text (assemble_user_queries_preamble (joined bs) cur ++ s)
  = (joined (bs ++ option_list cur), trim s).
Proof.
  intros Hok Hne Hs. assert (Hs' : ¬ occurs QUERIES_OPEN ([NL; NL] ++ s)).
  { intros H. apply occurs_skip in H; [done|]. by apply not_in_closed. }
  assert (Ht : trim ([NL; NL] ++ s) = trim s).
  { rewrite <- (app_nil_r s) at 1. apply trim_outer; repeat constructor. }
  rewrite <- Ht. clear Ht. apply Forall_app in Hok as [Hb Hc].
  set (gbs := with_gaps bs ++ map (λ c, (if is_empty bs then [] else [NL; NL], c)) (option_list cur)).
  assert (Hg : Forall (λ gb, blank gb.1 ∧ block_ok gb.2) gbs).
  { apply Forall_app. split; [by apply with_gaps_ok|]. apply Forall_map.
    eapply Forall_impl; [exact Hc|]. intros c Hx. split; [|done].
    cbn. destruct (is_empty bs); repeat constructor. }
  assert (E : assemble_user_queries_preamble (joined bs) cur ++ s
              = concat (map (λ gb, gb.1 ++ gb.2) gbs) ++ [NL; NL] ++ s).
  { unfold gbs, assemble_user_queries_preamble. rewrite map_app, concat_app.
    destruct bs as [|b bs].
    - destruct cur as [c|]; [|done]. cbn. by rewrite app_nil_r, <- app_assoc.
    - rewrite (with_gaps_concat (b :: bs)) by done. cbn [joined is_empty].
      generalize (join [NL] (b :: bs)) as j. intros j.
      destruct cur as [c|]; cbn; rewrite ?app_nil_r, <- ?app_assoc; cbn; by rewrite <- ?app_assoc. }
  rewrite E, split_text; [|done| |done].
  - f_equal. unfold gbs. rewrite map_app, with_gaps_snd, map_map. by rewrite map_id.
  - unfold gbs. destruct bs; [|done]. by destruct cur.
Qed.
