(* ===== verification/Compaction.v ===== *)
(** * Compaction: items, selection, passes

    The engine of [common/xai-grok-compaction] over its seams: an item of a
    conversation ([item.rs]), its token count ([token.rs]), the host that calls
    the model and holds the turns ([sampler.rs], [intra_compaction/traits.rs]).
    On them: the choice of what to compact ([select.rs]), the history filters
    ([history/filter.rs]), the trigger, the passes between the steps of a loop
    ([intra_compaction]), the chunked pass between turns ([inter_compaction])
    and the pass that replaces a whole session ([code_compaction]).  A pass is a
    function of the host's world: [None] is a panic. *)
From S2P Require Import Prelude RustStr F64 StrSearch CompactionText.

(** ** [item.rs], [token.rs] *)

Inductive CompactionRole : Type :=
| RoleSystem | RoleDeveloper | RoleUser | RoleAssistant | RoleTool.
#[global] Instance compaction_role_eq_dec : EqDecision CompactionRole.
Proof. solve_decision. Defined.

Record CompactionFileRef : Type := mkFileRef { ref_id : str; ref_name : str }.

Class CompactionItem (T : Type) : Type := {
  role : T → CompactionRole;
  text : T → option str;
  has_tool_requests : T → bool;
  is_compaction_summary : T → bool;
  attachment_refs : T → list CompactionFileRef;
}.

(** The trait's provided method. *)
Definition is_tool_result `{CompactionItem T} (t : T) : bool := bool_decide (role t = RoleTool).

Class CompactionItemBuilder (T : Type) `{CompactionItem T} : Type := {
  compaction_summary_item : str → T;
  strip_tool_content : T → option T;
}.

Class CompactionItemFactory (T : Type) : Type := {
  new_user : str → T;
  new_user_meta : str → T;
  new_project_instructions : str → T;
  new_system_reminder : str → T;
}.

Class ItemTokenCounter (T : Type) : Type := count_item_tokens : T → Z.

(** Arithmetic on [u32]. *)
Definition wrap32 (z : Z) : Z := (z mod (U32_MAX + 1))%Z.
Definition saturating_add32 (a b : Z) : Z := Z.min (a + b) U32_MAX.
Definition sum32 (l : list Z) : Z := fold_left (λ a b, wrap32 (a + b)) l 0%Z.

(** ** [select.rs] *)

Record SplitPlan : Type := mkPlan { split_idx : nat; tokens_to_compact : Z }.

(** The walk back from the newest item: [i] items are left to look at. *)
Fixpoint walk_back (item_token_counts : list Z) (i : nat) (kept target_tokens : Z) : option nat :=
  match i with
  | O => Some 0%nat
  | S i' =>
      count ← item_token_counts !! i';
      if (target_tokens <? saturating_add32 kept count)%Z then Some i
      else walk_back item_token_counts i' (saturating_add32 kept count) target_tokens
  end.

Section Select.
Context `{CompactionItem T}.

Fixpoint tool_run (items : list T) : nat :=
  match items with
  | [] => 0
  | t :: items' => if is_tool_result t then S (tool_run items') else 0
  end.

Definition snap_to_safe_boundary (items : list T) (candidate : nat) : nat :=
  let total := length items in
  if (total <=? candidate)%nat then total
  else (candidate + tool_run (drop candidate items))%nat.

(** The outer [None] is an index out of range. *)
Definition select_turns_to_compact (item_token_counts : list Z) (items : list T)
    (target_tokens min_compactable : Z) : option (option SplitPlan) :=
  let total := length items in
  if (total =? 0)%nat then Some None
  else
    split_idx ← walk_back item_token_counts total 0 target_tokens;
    if (split_idx =? 0)%nat then Some None
    else
      let safe_split_idx := snap_to_safe_boundary items split_idx in
      if (total <=? safe_split_idx)%nat then Some None
      else
        let tokens_to_compact :=
          fold_left saturating_add32 (take safe_split_idx item_token_counts) 0%Z in
        if (tokens_to_compact <? min_compactable)%Z then Some None
        else Some (Some (mkPlan safe_split_idx tokens_to_compact)).
End Select.

(** ** [history/filter.rs]: items *)

Record SeparatedHistoryTurns (T : Type) : Type := mkSeparated {
  turns_for_llm : list T;
  prior_user_queries : option str;
  has_prior_compaction : bool;
}.
Arguments mkSeparated {T} _ _ _.
Arguments turns_for_llm {T} _.
Arguments prior_user_queries {T} _.
Arguments has_prior_compaction {T} _.

Definition file_line (r : CompactionFileRef) : str :=
  lit "<grok_file id=" ++ quoted (ref_id r) ++ lit " name=" ++ quoted (ref_name r) ++ lit " />"
  ++ [NL].

(** A query with its text, cut in the middle when it is long, and its files. *)
Definition format_query (query : str) (threshold : Z) (attachments : list CompactionFileRef) : str :=
  lit "<grok_query>" ++ default query (truncate_middle query threshold)
  ++ (if is_empty attachments then [] else [NL] ++ concat (map file_line attachments))
  ++ lit "</grok_query>" ++ [NL].

Section Filters.
Context `{CompactionItem T}.

Definition keep_turn_for_basic_compaction (turn : T) : bool :=
  match role turn with
  | RoleSystem => false
  | RoleDeveloper => is_compaction_summary turn
  | _ => true
  end.
Definition filter_turns_for_basic (turns : list T) : list T :=
  List.filter keep_turn_for_basic_compaction turns.

Fixpoint user_queries (turns : list T) (threshold : Z) : list str :=
  match turns with
  | [] => []
  | turn :: turns' =>
      if negb (bool_decide (role turn = RoleUser)) then user_queries turns' threshold
      else
        let query := default [] (text turn) in
        let attachments := attachment_refs turn in
        if is_empty query && is_empty attachments then user_queries turns' threshold
        else format_query query threshold attachments :: user_queries turns' threshold
  end.
Definition extract_user_queries_from_turns (turns : list T) (user_truncate_chars : Z)
  : option str :=
  match user_queries turns user_truncate_chars with
  | [] => None
  | qs => Some (QUERIES_OPEN ++ [NL] ++ concat qs ++ QUERIES_CLOSE)
  end.

Context `{!CompactionItemBuilder T}.

Definition filter_inter_turn (turn : T) : option T :=
  match role turn with
  | RoleTool | RoleSystem => None
  | RoleDeveloper => if is_compaction_summary turn then Some turn else None
  | RoleUser => Some turn
  | RoleAssistant => strip_tool_content turn
  end.
Definition filter_turns_for_inter_compaction (turns : list T) : list T :=
  omap filter_inter_turn turns.

(** The loop of [separate_prior_user_queries]. *)
Fixpoint separate_loop (turns : list T) (acc : SeparatedHistoryTurns T)
  : SeparatedHistoryTurns T :=
  match turns with
  | [] => acc
  | turn :: turns' =>
      if is_compaction_summary turn then
        let content := default [] (text turn) in
        let '(user_section, rest) := split_prior_compaction_text content in
        let prior :=
          match user_section, prior_user_queries acc with
          | Some user_sec, Some existing => Some (existing ++ [NL] ++ user_sec)
          | Some user_sec, None => Some user_sec
          | None, prior => prior
          end in
        let for_llm :=
          if negb (is_empty rest) then turns_for_llm acc ++ [compaction_summary_item rest]
          else turns_for_llm acc in
        separate_loop turns' (mkSeparated for_llm prior true)
      else
        separate_loop turns'
          (mkSeparated (turns_for_llm acc ++ [turn]) (prior_user_queries acc)
             (has_prior_compaction acc))
  end.
Definition separate_prior_user_queries (turns : list T) : SeparatedHistoryTurns T :=
  separate_loop turns (mkSeparated [] None false).

Definition extract_prior_user_queries (turns : list T) : option str :=
  prior_user_queries (separate_prior_user_queries turns).

Definition build_user_queries_preamble (turns : list T) (current_user_queries : option str) : str :=
  assemble_user_queries_preamble (extract_prior_user_queries turns) current_user_queries.
End Filters.

(** ** [sampler.rs] *)

Record LlmCompactionOutput : Type := mkOutput { response : str; thinking : str }.

(** An [anyhow::Error] is its text. *)
Inductive CompactionSampleError : Type :=
| TimeoutError (timeout_secs collected_bytes : Z)
| BuildError (msg : str)
| StartError (msg : str)
| EmptyResponseError
| OtherError (msg : str).

(** [Display] *)
Definition sample_error_text (e : CompactionSampleError) : str :=
  match e with
  | TimeoutError secs collected =>
      lit "Compaction sampling timed out after " ++ fmt_Z secs ++ lit "s (collected "
      ++ fmt_Z collected ++ lit " bytes so far)"
  | BuildError msg => lit "Compaction sampler build failed: " ++ msg
  | StartError msg => lit "Compaction sampler start failed: " ++ msg
  | EmptyResponseError => lit "Compaction sampler returned no response channel content"
  | OtherError msg => msg
  end.

Definition is_deterministic (e : CompactionSampleError) : bool :=
  match e with
  | TimeoutError _ _ | EmptyResponseError => false
  | BuildError _ | StartError _ => true
  | OtherError msg =>
      contains msg (lit "Failed to build AgenticScheduler")
      || contains msg (lit "Failed to start compaction sample")
  end.

(** ** [intra_compaction/config.rs], [intra_compaction/trigger.rs] *)

Inductive IntraCompactionMode : Type := FullReplace | StepsOnly | HistoryOnly | HistoryThenSteps.
#[global] Instance intra_mode_eq_dec : EqDecision IntraCompactionMode.
Proof. solve_decision. Defined.

Inductive IntraSummarizer : Type := Shared | Legacy.

Record IntraCompactionConfig : Type := mkIntra {
  enabled : bool;
  mode : IntraCompactionMode;
  trigger_threshold_percent : Z;
  min_steps_before_compact : Z;
  min_compactable_tokens : Z;
  max_reduction_ratio : f64;
  compaction_model_name : option str;
  sampling_timeout_secs : Z;
  max_attempts : Z;
  retry_delay_secs : Z;
  compaction_version : str;
  summarizer : IntraSummarizer;
  target_threshold_percent : Z;
  steps_trigger_ratio : f64;
  user_message_truncate_chars : Z;
}.

Definition DEFAULT_COMPACTION_MODEL_NAME : str := lit "grok-4.20".

Definition effective_compaction_model_name (c : IntraCompactionConfig) : str :=
  match compaction_model_name c with
  | Some name => if is_empty (trim name) then DEFAULT_COMPACTION_MODEL_NAME else trim name
  | None => DEFAULT_COMPACTION_MODEL_NAME
  end.

Definition IntraCompactionConfig_default : IntraCompactionConfig := {|
  enabled := false;
  mode := FullReplace;
  trigger_threshold_percent := 85;
  min_steps_before_compact := 3;
  min_compactable_tokens := 5000;
  max_reduction_ratio := f64_div (f64_of_Z 8) (f64_of_Z 10);
  compaction_model_name := Some DEFAULT_COMPACTION_MODEL_NAME;
  sampling_timeout_secs := 120;
  max_attempts := 2;
  retry_delay_secs := 3;
  compaction_version := lit "intra-v1";
  summarizer := Shared;
  target_threshold_percent := 50;
  steps_trigger_ratio := f64_div (f64_of_Z 3) (f64_of_Z 10);
  user_message_truncate_chars := 3000;
|}.

Record IntraCompactionTrigger : Type := mkTrigger {
  last_prompt_tokens : Z;
  context_window : Z;
  percent : Z;
  step : Z;
}.

(** The elapsed time of the source's record is left out. *)
Record IntraCompactionResult : Type := mkResult {
  tokens_before : Z;
  tokens_after : Z;
  turns_compacted : Z;
  summary : str;
}.

Inductive IntraCompactionError : Type :=
| NothingToCompact
| Timeout
| EmptyResponse
| InsufficientReduction (tokens_before tokens_after : Z)
| InvalidSplit (requested available : nat)
| Unsupported
| SamplerBuild (msg : str)
| SamplerStart (msg : str)
| SamplerStream (msg : str)
| Apply (msg : str).

Definition error_status_label (e : IntraCompactionError) : str :=
  match e with
  | NothingToCompact => lit "nothing_to_compact"
  | Timeout => lit "timeout"
  | EmptyResponse => lit "empty_response"
  | InsufficientReduction _ _ => lit "insufficient_reduction"
  | InvalidSplit _ _ => lit "invalid_split"
  | Unsupported => lit "unsupported"
  | SamplerBuild _ => lit "sampler_build"
  | SamplerStart _ => lit "sampler_start"
  | SamplerStream _ => lit "sampler_stream"
  | Apply _ => lit "apply"
  end.

(** [(window as u64 * percent as u64 / 100) as u32] *)
Definition percent_of (window pct : Z) : Z := wrap32 (window * pct / 100).

Definition should_compact (policy : IntraCompactionConfig)
    (last_prompt_tokens context_window current_step : Z) : option IntraCompactionTrigger :=
  if negb (enabled policy) then None
  else if (context_window =? 0)%Z then None
  else if negb (bool_decide (mode policy = FullReplace))
          && (current_step <? min_steps_before_compact policy)%Z then None
  else
    let threshold := percent_of context_window (trigger_threshold_percent policy) in
    if (last_prompt_tokens <=? threshold)%Z then None
    else
      let percent := Z.min (last_prompt_tokens * 100 / context_window) 100 in
      Some (mkTrigger last_prompt_tokens context_window percent current_step).

(** ** The host *)

Inductive CompactionTarget : Type := Steps | History | FullReplaceTarget.

Definition target_label (t : CompactionTarget) : str :=
  match t with
  | Steps => lit "steps"
  | History => lit "history"
  | FullReplaceTarget => lit "full_replace"
  end.

(** [CompactionSampler], [CompactionStreamProc] and tokio's [sleep] over the
    world [W] of the host. *)
Class CompactionHost (W T : Type) : Type := {
  sample_compaction :
    list T → CompactionPrompt → Z → W → result LlmCompactionOutput CompactionSampleError * W;
  get_accumulated_turns : W → list T;
  get_history_turns : W → list T;
  replace_with_compaction :
    CompactionTarget → nat → T → W → result unit IntraCompactionError * W;
  sleep_secs : Z → W → W;
}.

(** ** Observers *)

Inductive FullReplaceAttemptOutcome : Type :=
| Success (summary : str)
| EmptyOutcome (will_retry : bool)
| Degenerate (summary : str) (will_retry : bool)
| Failure (message : str) (deterministic context_overflow will_retry : bool).

(** What the three observers are told, without the elapsed times. *)
Inductive CompactionEvent : Type :=
| OnAttempt (attempt : Z) (outcome : FullReplaceAttemptOutcome)
| OnSuccess (attempts : Z) (summary_chars : nat)
| OnError (attempts : Z)
| IntraSuccess (target : CompactionTarget) (tokens_before tokens_after turns_compacted : Z)
| IntraError (status : str)
| OnRecompaction (label : str)
| OnChunkCount (n : nat)
| OnChunkSampled (success : bool).

(** ** The monad of passes *)

Record Sys (W : Type) : Type := mkSys { world : W; observed : list CompactionEvent }.
Arguments mkSys {W} _ _.
Arguments world {W} _.
Arguments observed {W} _.

Definition M (W A : Type) : Type := Sys W → option (A * Sys W).
#[global] Instance M_ret {W} : MRet (M W) := λ A a s, Some (a, s).
#[global] Instance M_bind {W} : MBind (M W) :=
  λ A B k m s, match m s with Some (a, s') => k a s' | None => None end.

Definition observe {W} (e : CompactionEvent) : M W unit :=
  λ s, Some (tt, mkSys (world s) (observed s ++ [e])).
Definition on_world {W A} (f : W → A * W) : M W A :=
  λ s, let '(a, w) := f (world s) in Some (a, mkSys w (observed s)).
Definition read_world {W A} (f : W → A) : M W A := λ s, Some (f (world s), s).
(** A panic, unless the value is there. *)
Definition expect {W A} (o : option A) : M W A := λ s, a ← o; Some (a, s).

(** [let x = m?;] *)
Definition try_ {W A B E} (m : M W (result A E)) (k : A → M W (result B E)) : M W (result B E) :=
  m ≫= λ r, match r with Ok a => k a | Err e => mret (Err e) end.
Notation "'try!' x ':=' m 'in' k" := (try_ m (λ x, k))
  (at level 10, x pattern, m at level 200, k at level 200) : grodex_scope.

Section Passes.
Context {W T : Type} `{CompactionHost W T}.

(** ** [code_compaction/sample.rs] *)

Record SampledSummary : Type := mkSampled { sampled_summary : str; sampled_attempts : Z }.

Inductive SampleRetryError : Type :=
| RetryEmpty (attempts : Z)
| RetryFailure (message : str) (deterministic context_overflow : bool) (attempts : Z).

(** Who is told of the attempts: nobody for [&()]. *)
Definition Observer : Type := Z → FullReplaceAttemptOutcome → M W unit.
Definition no_observer : Observer := λ _ _, mret tt.
Definition full_replace_observer : Observer := λ attempt outcome, observe (OnAttempt attempt outcome).

(** What one attempt comes to: an end of the loop, or [None] to go on. *)
Definition attempt_once (turns : list T) (prompt : CompactionPrompt) (timeout : Z)
    (observer : Observer) (attempt : Z) (will_retry : bool)
  : M W (option (result SampledSummary SampleRetryError)) :=
  r ← on_world (sample_compaction turns prompt timeout);
  match r with
  | Ok output =>
      if negb (is_empty (trim (response output))) then
        if is_degenerate_summary (response output) then
          _ ← observer attempt (Degenerate (response output) will_retry);
          mret (if negb will_retry then Some (Err (RetryEmpty attempt)) else None)
        else
          _ ← observer attempt (Success (response output));
          mret (Some (Ok (mkSampled (response output) attempt)))
      else
        _ ← observer attempt (EmptyOutcome will_retry);
        mret (if negb will_retry then Some (Err (RetryEmpty attempt)) else None)
  | Err e =>
      let message := sample_error_text e in
      let context_overflow := is_context_length_error message in
      let deterministic := is_deterministic e || context_overflow in
      let retrying := will_retry && negb deterministic in
      _ ← observer attempt (Failure message deterministic context_overflow retrying);
      mret (if deterministic then Some (Err (RetryFailure message true context_overflow attempt))
            else if negb will_retry then Some (Err (RetryFailure message false false attempt))
            else None)
  end.

(** The attempts from [attempt] on, [left] of them. *)
Fixpoint sample_loop (turns : list T) (prompt : CompactionPrompt) (max_attempts retry_delay timeout : Z)
    (observer : Observer) (left : nat) (attempt : Z)
  : M W (result SampledSummary SampleRetryError) :=
  match left with
  | O => mret (Err (RetryEmpty max_attempts))
  | S left' =>
      o ← attempt_once turns prompt timeout observer attempt (attempt <? max_attempts)%Z;
      match o with
      | Some r => mret r
      | None =>
          _ ← on_world (λ w, (tt, sleep_secs retry_delay w));
          sample_loop turns prompt max_attempts retry_delay timeout observer left' (attempt + 1)
      end
  end.

Definition sample_summary_with_retries (turns : list T) (prompt : CompactionPrompt)
    (max_attempts retry_delay timeout : Z) (observer : Observer)
  : M W (result SampledSummary SampleRetryError) :=
  let max_attempts := Z.max max_attempts 1 in
  sample_loop turns prompt max_attempts retry_delay timeout observer (Z.to_nat max_attempts) 1.

(** ** [code_compaction/config.rs], [code_compaction/assemble.rs], [code_compaction/compact.rs] *)

Record FullReplaceConfig : Type := mkFullReplace {
  fr_max_attempts : Z; fr_retry_delay_secs : Z; fr_sampling_timeout_secs : Z
}.
Definition FullReplaceConfig_default : FullReplaceConfig := mkFullReplace 3 3 120.

Record CompactedHistoryParts : Type := mkParts {
  system_message : T;
  user_message_prefix : str;
  agents_md_reminder : option str;
  last_user_query : option str;
  recent_messages : list T;
  compaction_summary : str;
  system_reminder : option str;
  transcript_hint : option str;
}.

Definition assemble_compacted_history `{CompactionItemFactory T} (parts : CompactedHistoryParts)
  : list T :=
  [system_message parts; new_user_meta (user_message_prefix parts)]
  ++ option_list (new_project_instructions <$> agents_md_reminder parts)
  ++ option_list ((λ q, new_user (wrap_user_query q)) <$> last_user_query parts)
  ++ recent_messages parts
  ++ [new_user_meta (format_compact_summary_content (compaction_summary parts)
                     ++ default [] (transcript_hint parts))]
  ++ option_list (new_system_reminder <$> system_reminder parts).

Inductive FullReplaceError : Type :=
| NothingToSummarize
| NoSummary
| SamplerError (message : str) (deterministic context_overflow : bool).

Record FullReplaceSummary : Type := mkSummary { fr_summary : str; fr_attempts : Z }.

Definition sample_full_replace_summary (llm_turns : list T) (user_context : option str)
    (config : FullReplaceConfig) : M W (result FullReplaceSummary FullReplaceError) :=
  if is_empty llm_turns then mret (Err NothingToSummarize)
  else
    let prompt := mkPrompt [] (build_summary_prompt user_context) in
    r ← sample_summary_with_retries llm_turns prompt (fr_max_attempts config)
          (fr_retry_delay_secs config) (fr_sampling_timeout_secs config) full_replace_observer;
    match r with
    | Ok (mkSampled summary attempts) =>
        _ ← observe (OnSuccess attempts (length summary));
        mret (Ok (mkSummary summary attempts))
    | Err (RetryEmpty attempts) =>
        _ ← observe (OnError attempts); mret (Err NoSummary)
    | Err (RetryFailure message deterministic context_overflow attempts) =>
        _ ← observe (OnError attempts);
        mret (Err (SamplerError message deterministic context_overflow))
    end.

(** The assembly inputs of the context; its summary is still to come. *)
Definition parts_with (ctx : CompactedHistoryParts) (summary : str) : CompactedHistoryParts :=
  mkParts (system_message ctx) (user_message_prefix ctx) (agents_md_reminder ctx)
    (last_user_query ctx) (recent_messages ctx) summary (system_reminder ctx)
    (transcript_hint ctx).

Record FullReplaceOutput : Type := mkFullOutput {
  out_history : list T; out_summary : str; out_attempts : Z
}.

(** [code_compaction::apply_full_replace_compaction] *)
Definition code_full_replace `{CompactionItemFactory T} (llm_turns : list T)
    (user_context : option str) (ctx : CompactedHistoryParts) (config : FullReplaceConfig)
  : M W (result FullReplaceOutput FullReplaceError) :=
  try! mkSummary summary attempts := sample_full_replace_summary llm_turns user_context config in
  mret (Ok (mkFullOutput (assemble_compacted_history (parts_with ctx summary)) summary attempts)).

(** ** [intra_compaction/compact.rs] *)

Definition sample_shared_summary_with_retries (turns : list T) (policy : IntraCompactionConfig)
  : M W (result str IntraCompactionError) :=
  let prompt := mkPrompt [] (build_summary_prompt None) in
  r ← sample_summary_with_retries turns prompt (max_attempts policy) (retry_delay_secs policy)
        (sampling_timeout_secs policy) no_observer;
  mret (match r with
        | Ok (mkSampled summary _) => Ok (format_compact_summary summary)
        | Err (RetryEmpty _) => Err EmptyResponse
        | Err (RetryFailure message deterministic _ _) =>
            Err (if deterministic then SamplerBuild message else SamplerStream message)
        end).

Definition compaction_sample_error_to_intra (err : CompactionSampleError) : IntraCompactionError :=
  match err with
  | TimeoutError _ _ => Timeout
  | BuildError msg => SamplerBuild msg
  | StartError msg => SamplerStart msg
  | EmptyResponseError => EmptyResponse
  | OtherError msg =>
      if contains msg (lit "Failed to build") then SamplerBuild msg
      else if contains msg (lit "Failed to start") then SamplerStart msg
      else if contains msg (lit "no response channel content") then EmptyResponse
      else SamplerStream msg
  end.

Definition is_transient (err : IntraCompactionError) : bool :=
  match err with
  | Timeout | EmptyResponse | SamplerStream _ | SamplerStart _ => true
  | _ => false
  end.

Fixpoint legacy_loop (turns : list T) (prompt : CompactionPrompt) (timeout : Z)
    (policy : IntraCompactionConfig) (max_attempts : Z) (left : nat) (attempt : Z)
    (last_err : option IntraCompactionError) : M W (result str IntraCompactionError) :=
  match left with
  | O => mret (Err (default EmptyResponse last_err))
  | S left' =>
      r ← on_world (sample_compaction turns prompt timeout);
      match r with
      | Ok output => mret (Ok (response output))
      | Err e =>
          let intra_err := compaction_sample_error_to_intra e in
          if is_transient intra_err && (attempt <? max_attempts)%Z then
            _ ← on_world (λ w, (tt, sleep_secs (retry_delay_secs policy) w));
            legacy_loop turns prompt timeout policy max_attempts left' (attempt + 1) (Some intra_err)
          else mret (Err intra_err)
      end
  end.
Definition sample_compaction_with_retries (turns : list T) (prompt : CompactionPrompt)
    (timeout : Z) (policy : IntraCompactionConfig) : M W (result str IntraCompactionError) :=
  let max_attempts := Z.max (max_attempts policy) 1 in
  legacy_loop turns prompt timeout policy max_attempts (Z.to_nat max_attempts) 1 None.

(** [None] for the target that has a pass of its own: [unreachable!]. *)
Definition build_prompt_for_target (target : CompactionTarget) : option CompactionPrompt :=
  match target with
  | Steps => Some format_compaction_prompt
  | History => Some (mkPrompt format_compaction_developer_prompt format_compaction_user_prompt)
  | FullReplaceTarget => None
  end.

(** The provided method of the trait. *)
Definition get_all_turns (w : W) : list T := get_history_turns w ++ get_accumulated_turns w.

Context `{CompactionItemBuilder T} `{!ItemTokenCounter T}.

(** [tokens_after > (tokens_before as f64 * ratio) as u32] *)
Definition insufficient (policy : IntraCompactionConfig) (before after : Z) : bool :=
  ((0 <? before) && (f64_trunc_as U32_MAX (f64_mul (f64_of_Z before) (max_reduction_ratio policy))
                     <? after))%Z.

Definition apply_full_replace_compaction (policy : IntraCompactionConfig)
    (active_reminder : option str) : M W (result IntraCompactionResult IntraCompactionError) :=
  source_turns ← read_world get_all_turns;
  if is_empty source_turns then mret (Err NothingToCompact)
  else
    let before := sum32 (map count_item_tokens source_turns) in
    if (before <? min_compactable_tokens policy)%Z then mret (Err NothingToCompact)
    else
      try! summary_text := sample_shared_summary_with_retries source_turns policy in
      let summary_text := append_reminder_block summary_text active_reminder in
      let compaction_turn := compaction_summary_item summary_text in
      let after := count_item_tokens compaction_turn in
      if insufficient policy before after then mret (Err (InsufficientReduction before after))
      else
        let n := length source_turns in
        try! _ := on_world (replace_with_compaction FullReplaceTarget n compaction_turn) in
        let compacted := wrap32 (Z.of_nat n) in
        _ ← observe (IntraSuccess FullReplaceTarget before after compacted);
        mret (Ok (mkResult before after compacted summary_text)).

(** What the model is shown of the turns to compact, and the blocks kept from it. *)
Definition turns_to_sample (target : CompactionTarget) (turns_to_compact : list T)
  : option (list T * option str) :=
  match target with
  | History =>
      let separated := separate_prior_user_queries turns_to_compact in
      Some (turns_for_llm separated, prior_user_queries separated)
  | Steps => Some (turns_to_compact, None)
  | FullReplaceTarget => None
  end.

Definition sample_turns (target : CompactionTarget) (turns : list T) (policy : IntraCompactionConfig)
  : M W (result str IntraCompactionError) :=
  match summarizer policy with
  | Legacy =>
      prompt ← expect (build_prompt_for_target target);
      sample_compaction_with_retries turns prompt (sampling_timeout_secs policy) policy
  | Shared => sample_shared_summary_with_retries turns policy
  end.

Definition final_summary (target : CompactionTarget) (turns_to_compact : list T)
    (prior : option str) (policy : IntraCompactionConfig) (summary_text : str) : option str :=
  match target with
  | History =>
      let current :=
        extract_user_queries_from_turns turns_to_compact (user_message_truncate_chars policy) in
      Some (assemble_user_queries_preamble prior current ++ summary_text)
  | Steps => Some summary_text
  | FullReplaceTarget => None
  end.

Definition source_turns_of (target : CompactionTarget) (w : W) : option (list T) :=
  match target with
  | Steps => Some (get_accumulated_turns w)
  | History => Some (get_history_turns w)
  | FullReplaceTarget => None
  end.

Definition compact_one_pass (policy : IntraCompactionConfig) (trigger : IntraCompactionTrigger)
    (target : CompactionTarget) : M W (result IntraCompactionResult IntraCompactionError) :=
  source ← read_world (source_turns_of target);
  source_turns ← expect source;
  if is_empty source_turns then mret (Err NothingToCompact)
  else
    let token_counts := map count_item_tokens source_turns in
    let target_tokens := percent_of (context_window trigger) (target_threshold_percent policy) in
    plan ← expect (select_turns_to_compact token_counts source_turns target_tokens
                     (min_compactable_tokens policy));
    match plan with
    | None => mret (Err NothingToCompact)
    | Some (mkPlan split_idx before) =>
        let turns_to_compact := take split_idx source_turns in
        '(for_llm, prior) ← expect (turns_to_sample target turns_to_compact);
        try! summary_text := sample_turns target for_llm policy in
        final_summary_text ← expect (final_summary target turns_to_compact prior policy summary_text);
        let compaction_turn := compaction_summary_item final_summary_text in
        let after := count_item_tokens compaction_turn in
        if insufficient policy before after then mret (Err (InsufficientReduction before after))
        else
          try! _ := on_world (replace_with_compaction target split_idx compaction_turn) in
          let compacted := wrap32 (Z.of_nat split_idx) in
          _ ← observe (IntraSuccess target before after compacted);
          mret (Ok (mkResult before after compacted final_summary_text))
    end.

Definition apply_steps_compaction policy trigger := compact_one_pass policy trigger Steps.
Definition apply_history_compaction policy trigger := compact_one_pass policy trigger History.

(** The result of two passes that both applied. *)
Definition both_passes (h s : IntraCompactionResult) : IntraCompactionResult :=
  mkResult (saturating_add32 (tokens_before h) (tokens_before s))
    (saturating_add32 (tokens_after h) (tokens_after s))
    (saturating_add32 (turns_compacted h) (turns_compacted s))
    (if is_empty (summary h) then summary s
     else if is_empty (summary s) then summary h
     else summary h ++ [NL; NL] ++ summary s).

(** A sum of token counts as [u64]. *)
Definition sum64 (l : list Z) : Z := fold_left (λ a b, wrap64 (a + b)) l 0%Z.

Definition steps_outweigh_history (policy : IntraCompactionConfig) (w : W) : bool :=
  let steps_tokens := sum64 (map count_item_tokens (get_accumulated_turns w)) in
  let history_tokens := sum64 (map count_item_tokens (get_history_turns w)) in
  (f64_ceil_as U64_MAX (f64_mul (f64_of_Z history_tokens) (steps_trigger_ratio policy))
   <? steps_tokens)%Z.

Definition apply_history_then_steps (policy : IntraCompactionConfig)
    (trigger : IntraCompactionTrigger) : M W (result IntraCompactionResult IntraCompactionError) :=
  r ← apply_history_compaction policy trigger;
  let go (history_result : option IntraCompactionResult) :=
    should_compact_steps ← read_world (steps_outweigh_history policy);
    if negb should_compact_steps then
      mret (match history_result with Some h => Ok h | None => Err NothingToCompact end)
    else
      steps_result ← apply_steps_compaction policy trigger;
      mret (match history_result, steps_result with
            | Some h, Ok s => Ok (both_passes h s)
            | Some h, Err NothingToCompact => Ok h
            | None, Ok s => Ok s
            | _, Err e => Err e
            end) in
  match r with
  | Ok h => go (Some h)
  | Err NothingToCompact => go None
  | Err e => mret (Err e)
  end.

Definition apply_intra_compaction (policy : IntraCompactionConfig)
    (trigger : IntraCompactionTrigger) (active_reminder : option str)
  : M W (result IntraCompactionResult IntraCompactionError) :=
  result ←
    match mode policy with
    | FullReplace => apply_full_replace_compaction policy active_reminder
    | StepsOnly => apply_steps_compaction policy trigger
    | HistoryOnly => apply_history_compaction policy trigger
    | HistoryThenSteps => apply_history_then_steps policy trigger
    end;
  match result with
  | Err e => _ ← observe (IntraError (error_status_label e)); mret result
  | Ok _ => mret result
  end.

(** ** [inter_compaction] *)

Record InterCompactionConfig : Type := mkInter {
  inter_model_name : str;
  inter_timeout_secs : Z;
  compaction_strategy : CompactionStrategy;
  dnc_chunk_token_limit : Z;
  user_message_compact_threshold : Z;
}.

Record ChunkedCompactionOutput : Type := mkChunked { combined_text : str; analysis_text : str }.

Definition UNBOUNDED_CHUNK_LIMIT : Z := U32_MAX.

Definition flush_chunk (turns : list T) (config : InterCompactionConfig)
  : M W (result LlmCompactionOutput CompactionSampleError) :=
  let prompt := mkPrompt format_compaction_developer_prompt format_compaction_user_prompt in
  r ← on_world (sample_compaction turns prompt (inter_timeout_secs config));
  _ ← observe (OnChunkSampled (match r with Ok _ => true | Err _ => false end));
  mret r.

(** The walk over the turns and the final flush. *)
Fixpoint chunk_loop (config : InterCompactionConfig) (limit : Z) (turns compactable : list T)
    (chunk_tokens : Z) (outputs : list LlmCompactionOutput)
  : M W (result (list LlmCompactionOutput) CompactionSampleError) :=
  match turns with
  | [] =>
      if is_empty compactable then mret (Ok outputs)
      else try! output := flush_chunk compactable config in mret (Ok (outputs ++ [output]))
  | turn :: turns' =>
      let turn_tokens := count_item_tokens turn in
      if negb (is_empty compactable) && negb (limit =? UNBOUNDED_CHUNK_LIMIT)%Z
         && (limit <? saturating_add32 chunk_tokens turn_tokens)%Z then
        try! output := flush_chunk compactable config in
        chunk_loop config limit turns' [turn] (wrap32 (0 + turn_tokens)) (outputs ++ [output])
      else
        chunk_loop config limit turns' (compactable ++ [turn]) (wrap32 (chunk_tokens + turn_tokens))
          outputs
  end.

Definition chunk_summary (i : nat) (output : LlmCompactionOutput) : str :=
  lit "<chunk_summary index=" ++ quoted (fmt_Z (Z.of_nat i)) ++ lit ">" ++ [NL] ++ response output
  ++ [NL] ++ lit "</chunk_summary>" ++ [NL; NL].

Definition combine (preamble : str) (outputs : list LlmCompactionOutput) : ChunkedCompactionOutput :=
  mkChunked (preamble ++ concat (imap chunk_summary outputs))
    (concat (imap (λ i output, wrap_chunk_analysis i (thinking output)) outputs)).

Definition sample_compaction_chunked (turns : list T) (current_user_queries : option str)
    (config : InterCompactionConfig)
  : M W (result ChunkedCompactionOutput CompactionSampleError) :=
  match compaction_strategy config with
  | FullReplaceStrategy =>
      mret (Err (BuildError
        (lit "full_replace must be routed through the event-proc compact_conversation helper")))
  | strategy =>
      let chunk_token_limit :=
        match strategy with DivideAndConquer => dnc_chunk_token_limit config | _ => UNBOUNDED_CHUNK_LIMIT end in
      let filtered := filter_turns_for_inter_compaction turns in
      if is_empty filtered then mret (Err (OtherError (lit "No turns remaining after filtering")))
      else
        let separated := separate_prior_user_queries filtered in
        try! chunk_outputs :=
          chunk_loop config chunk_token_limit (turns_for_llm separated) [] 0 [] in
        _ ← (if has_prior_compaction separated then observe (OnRecompaction (strategy_label strategy))
             else mret tt);
        let preamble :=
          assemble_user_queries_preamble (prior_user_queries separated) current_user_queries in
        _ ← observe (OnChunkCount (length chunk_outputs));
        mret (Ok (combine preamble chunk_outputs))
  end.
End Passes.
