(* ===== verification/CompactionFacts.v ===== *)
(** * Compaction: facts on selection, queries, retries and chunks

    The split point as the least safe one, the blocks of queries that a list of
    turns carries, the retry loop call by call, and the chunks of the pass
    between turns. *)
From S2P Require Import Prelude RustStr F64 StrSearch CompactionText CompactionTextFacts Compaction.

(** ** Selection *)

Definition is_u32 (z : Z) : Prop := (0 ≤ z ≤ U32_MAX)%Z.
Definition sum_tokens (l : list Z) : Z := foldr Z.add 0%Z l.

(** The tokens kept by a split at [i], as a saturating sum. *)
Definition kept_tokens (counts : list Z) (i : nat) : Z := Z.min (sum_tokens (drop i counts)) U32_MAX.

Lemma sum_tokens_nonneg l : Forall is_u32 l → (0 ≤ sum_tokens l)%Z.
Proof. unfold sum_tokens. induction 1 as [|x l [Hx _] _ IH]; cbn; lia. Qed.

Lemma sum_tokens_app l l' : sum_tokens (l ++ l') = (sum_tokens l + sum_tokens l')%Z.
Proof. unfold sum_tokens. induction l as [|x l IH]; cbn; [done|]. rewrite IH. lia. Qed.

Lemma kept_tokens_step counts i c : Forall is_u32 counts → counts !! i = Some c →
  kept_tokens counts i = saturating_add32 (kept_tokens counts (S i)) c.
Proof.
  intros Hc Hi. unfold kept_tokens, saturating_add32. rewrite (drop_S _ _ _ Hi). cbn [sum_tokens foldr].
  fold (sum_tokens (drop (S i) counts)).
  pose proof (sum_tokens_nonneg (drop (S i) counts) (Forall_drop _ _ _ Hc)).
  rewrite Forall_lookup in Hc. destruct (Hc _ _ Hi) as [Hlo Hhi]. unfold U32_MAX in *. lia.
Qed.

Lemma kept_tokens_anti counts i j : Forall is_u32 counts → (i ≤ j)%nat →
  (kept_tokens counts j ≤ kept_tokens counts i)%Z.
Proof.
  intros Hc Hij. unfold kept_tokens.
  rewrite <- (take_drop (j - i) (drop i counts)), drop_drop, sum_tokens_app.
  replace (i + (j - i))%nat with j by lia.
  pose proof (sum_tokens_nonneg (take (j - i) (drop i counts)) (Forall_take _ _ _ (Forall_drop _ _ _ Hc))). lia.
Qed.

(** The walk back ends at the least split that fits. *)
Lemma walk_back_spec counts target i : Forall is_u32 counts → (i ≤ length counts)%nat →
  (kept_tokens counts i ≤ target)%Z →
  ∃ n, walk_back counts i (kept_tokens counts i) target = Some n ∧ (n ≤ i)%nat ∧
    (kept_tokens counts n ≤ target)%Z ∧ ∀ j, (j < n)%nat → (target < kept_tokens counts j)%Z.
Proof.
  intros Hc. induction i as [|i IH]; intros Hi Hk; cbn [walk_back].
  - exists 0%nat. split; [done|]. split; [done|]. split; [done|lia].
  - destruct (lookup_lt_is_Some_2 counts i) as [c Hci]; [lia|]. rewrite Hci. cbn [mbind option_bind].
    rewrite <- (kept_tokens_step counts i c) by done.
    destruct (Z.ltb_spec target (kept_tokens counts i)) as [Hlt|Hge].
    + exists (S i). split; [done|]. split; [done|]. split; [done|]. intros j Hj.
      pose proof (kept_tokens_anti counts j i Hc). lia.
    + destruct IH as (n & Hn & Hle & H); [lia|done|]. exists n. split; [done|]. split; [lia|done].
Qed.

Lemma kept_tokens_end counts : kept_tokens counts (length counts) = 0%Z.
Proof. unfold kept_tokens. by rewrite drop_all. Qed.

Lemma fold_saturating l acc : Forall is_u32 l → is_u32 acc →
  fold_left saturating_add32 l acc = Z.min (acc + sum_tokens l) U32_MAX.
Proof.
  intros Hl. revert acc. induction Hl as [|x l Hx Hl IH]; intros acc Ha; cbn [fold_left sum_tokens foldr].
  - unfold is_u32 in *. lia.
  - fold (sum_tokens l). pose proof (sum_tokens_nonneg l Hl). unfold saturating_add32, is_u32 in *.
    rewrite IH by lia. lia.
Qed.

Section Select.
Context `{CompactionItem T}.
Implicit Types (items : list T).

(** A split that keeps no tool result apart from its call. *)
Definition boundary items (j : nat) : Prop :=
  ∀ t, items !! j = Some t → is_tool_result t = false.

Lemma tool_run_spec items n : (n < tool_run items)%nat →
  ∃ t, items !! n = Some t ∧ is_tool_result t = true.
Proof.
  revert n. induction items as [|t items IH]; intros n Hn; cbn [tool_run] in Hn; [lia|].
  destruct (is_tool_result t) eqn:E; [|lia]. destruct n as [|n]; [by exists t|]. apply IH. lia.
Qed.

Lemma tool_run_end items : (tool_run items ≤ length items)%nat ∧ boundary items (tool_run items).
Proof.
  unfold boundary. induction items as [|t items [IH1 IH2]]; cbn [tool_run length]; [by split|].
  destruct (is_tool_result t) eqn:E; [split; [lia|exact IH2]|split; [lia|]]. intros t' [= <-]. done.
Qed.

Lemma snap_spec items c : (c ≤ length items)%nat →
  let n := snap_to_safe_boundary items c in
  (c ≤ n ≤ length items)%nat ∧ boundary items n ∧
  ∀ j, (c ≤ j < n)%nat → ¬ boundary items j.
Proof.
  intros Hc. unfold snap_to_safe_boundary. cbv zeta. destruct (Nat.leb_spec (length items) c) as [Hge|Hlt].
  - split; [lia|]. split; [|lia]. intros t Ht. apply lookup_lt_Some in Ht. lia.
  - destruct (tool_run_end (drop c items)) as [Hl Hb]. rewrite length_drop in Hl. split; [lia|].
    split; [unfold boundary in *; by rewrite lookup_drop in Hb|]. intros j [Hj1 Hj2] Hbj.
    destruct (tool_run_spec (drop c items) (j - c)) as (t & Ht & Htrue); [lia|].
    rewrite lookup_drop in Ht. replace (c + (j - c))%nat with j in Ht by lia.
    apply Hbj in Ht. congruence.
Qed.

(** A split that fits the target and is safe, before the end. *)
Definition safe_split (counts : list Z) items (target : Z) (j : nat) : Prop :=
  (kept_tokens counts j ≤ target)%Z ∧ (j < length items)%nat ∧ boundary items j.

Definition planned (counts : list Z) items (target min : Z) (n : nat) (t : Z) : Prop :=
  (target < kept_tokens counts 0)%Z ∧ safe_split counts items target n ∧
  (∀ j, safe_split counts items target j → (n ≤ j)%nat) ∧
  t = Z.min (sum_tokens (take n counts)) U32_MAX ∧ (min ≤ t)%Z.

Lemma select_spec counts items target min :
  length counts = length items → Forall is_u32 counts → (0 ≤ target)%Z →
  ∃ r, select_turns_to_compact counts items target min = Some r ∧
    ∀ n t, r = Some (mkPlan n t) ↔ planned counts items target min n t.
Proof.
  intros Hl Hc Ht. unfold select_turns_to_compact.
  destruct (Nat.eqb_spec (length items) 0) as [H0|H0].
  { exists None. split; [done|]. intros n t. split; [done|]. intros (_ & (_ & Hn & _) & _). lia. }
  destruct (walk_back_spec counts target (length counts)) as (i & Hw & Hi & Hfit & Hmin);
    [done|done|by rewrite kept_tokens_end|].
  rewrite kept_tokens_end in Hw. rewrite <- Hl, Hw. cbn [mbind option_bind].
  destruct (Nat.eqb_spec i 0) as [->|Hi0].
  { exists None. split; [done|]. intros n t. split; [done|]. intros (Hk & _). lia. }
  destruct (snap_spec items i) as ([Hs1 Hs2] & Hsb & Hsm); [lia|].
  set (n := snap_to_safe_boundary items i) in *. assert (Hk0 := Hmin 0%nat ltac:(lia)).
  assert (Hleast : ∀ j, safe_split counts items target j → (n ≤ j)%nat).
  { intros j (Hj1 & Hj2 & Hj3). destruct (decide (n ≤ j)%nat) as [|Hn]; [done|]. exfalso.
    destruct (decide (i ≤ j)%nat) as [Hij|Hij]; [by apply (Hsm j); [lia|]|].
    specialize (Hmin j ltac:(lia)). lia. }
  rewrite Hl. destruct (Nat.leb_spec (length items) n) as [Hge|Hlt].
  { exists None. split; [done|]. intros m t. split; [done|]. intros (_ & Hm & _).
    pose proof (Hleast m Hm). destruct Hm as (_ & Hm & _). lia. }
  assert (Hsafe : safe_split counts items target n).
  { split; [|by split]. pose proof (kept_tokens_anti counts i n Hc Hs1). lia. }
  rewrite fold_saturating by (try (by apply Forall_take); unfold is_u32, U32_MAX; lia).
  rewrite Z.add_0_l. set (tk := Z.min _ _). destruct (Z.ltb_spec tk min) as [Hm|Hm].
  - exists None. split; [done|]. intros m t. split; [done|]. intros (_ & Hm' & Hml & -> & Hmt).
    assert (m = n) as -> by (apply Nat.le_antisymm; [by apply Hml|by apply Hleast]). lia.
  - eexists. split; [done|]. intros m t. split.
    + intros [= <- <-]. by split_and!.
    + intros (_ & Hm' & Hml & -> & _).
      by assert (m = n) as -> by (apply Nat.le_antisymm; [by apply Hml|by apply Hleast]).
Qed.
End Select.

(** ** Blocks of queries *)

Definition blocks_of (content : str) : list str :=
  (split_prior_loop (S (length content)) content [] []).1.

Lemma split_fst content : (split_prior_compaction_text content).1 = joined (blocks_of content).
Proof.
  unfold split_prior_compaction_text, blocks_of. by destruct (split_prior_loop _ _ _ _) as [[|b bs] r].
Qed.

(** What the loop cuts out is a block. *)
Lemma cut_block content start end_ :
  find content QUERIES_OPEN = Some start → find (drop start content) QUERIES_CLOSE = Some end_ →
  block_ok (sub content start (start + end_ + length QUERIES_CLOSE)).
Proof.
  intros Hs He. apply find_Some_inv in Hs as ([k Hk] & Hl & _).
  apply find_Some_inv in He as ([m Hm] & _ & Hfirst). unfold sub.
  replace (start + end_ + length QUERIES_CLOSE)%nat with (start + (end_ + length QUERIES_CLOSE))%nat by lia.
  rewrite skipn_firstn_comm.
  replace (start + (end_ + length QUERIES_CLOSE) - start)%nat with (end_ + length QUERIES_CLOSE)%nat by lia.
  rewrite Hk in *. assert (Hge : (length QUERIES_OPEN ≤ end_)%nat).
  { destruct (decide (length QUERIES_OPEN ≤ end_)%nat) as [|Hlt]; [done|]. exfalso.
    assert (H0 : drop end_ (QUERIES_OPEN ++ k) !! 0%nat = Some LT) by (by rewrite Hm).
    rewrite lookup_drop, Nat.add_0_r, lookup_app_l in H0 by lia.
    destruct end_ as [|e]; [apply (f_equal (λ l, l !! 1%nat)) in Hm; by vm_compute in Hm|].
    assert (Hn : LT ∉ tail QUERIES_OPEN) by (by apply not_in_closed). apply Hn.
    apply list_elem_of_lookup. by exists e. }
  exists (take (end_ - length QUERIES_OPEN) k). split.
  - rewrite take_app_ge by lia. f_equal. rewrite drop_app_ge in Hm by lia.
    replace (end_ + length QUERIES_CLOSE - length QUERIES_OPEN)%nat
      with ((end_ - length QUERIES_OPEN) + length QUERIES_CLOSE)%nat by lia.
    rewrite <- (take_drop (end_ - length QUERIES_OPEN) k) at 1. rewrite Hm.
    apply (f_equal length) in Hm. rewrite length_app, length_drop in Hm.
    assert (length QUERIES_CLOSE = 20%nat) by done.
    rewrite take_app_ge by (rewrite length_take; lia). f_equal.
    rewrite length_take_le by lia.
    replace (_ + _ - _)%nat with (length QUERIES_CLOSE) by lia. by rewrite take_app_length.
  - intros (u & v & E). assert (Hlen : (length u < end_ - length QUERIES_OPEN)%nat).
    { apply (f_equal length) in E. rewrite length_take, !length_app in E.
      assert (length QUERIES_CLOSE = 20%nat) by done. lia. }
    apply (Hfirst (length QUERIES_OPEN + length u)%nat); [lia|].
    rewrite drop_app_ge by lia. replace (_ + _ - _)%nat with (length u) by lia.
    rewrite <- (take_drop (end_ - length QUERIES_OPEN) k), E, <- !app_assoc, drop_app_length.
    by eexists.
Qed.

Lemma blocks_ok content : Forall block_ok (blocks_of content).
Proof.
  unfold blocks_of. generalize (S (length content)) as fuel. generalize (@nil char) as r.
  assert (Hsecs : Forall block_ok []) by constructor. revert Hsecs. generalize (@nil str) as secs.
  intros secs Hsecs r fuel. revert content secs Hsecs r.
  induction fuel as [|fuel IH]; intros content secs Hsecs r; cbn [split_prior_loop]; [done|].
  destruct (find content QUERIES_OPEN) as [start|] eqn:Es; [|done].
  destruct (find (drop start content) QUERIES_CLOSE) as [end_|] eqn:Ee; [|done].
  apply IH. apply Forall_app. split; [done|]. constructor; [by apply cut_block|constructor].
Qed.

Lemma join_app bs bs' : bs ≠ [] → bs' ≠ [] → join [NL] (bs ++ bs') = join [NL] bs ++ [NL] ++ join [NL] bs'.
Proof.
  destruct bs as [|b bs], bs' as [|b' bs']; [done..|]. intros _ _. cbn [app].
  rewrite !join_cons_concat, map_app, concat_app, <- app_assoc. done.
Qed.

(** What is left to do to have the blocks of both. *)
Lemma joined_app bs bs' :
  joined (bs ++ bs')
  = match joined bs', joined bs with
    | Some sec, Some existing => Some (existing ++ [NL] ++ sec)
    | Some sec, None => Some sec
    | None, prior => prior
    end.
Proof.
  destruct bs' as [|b' bs']; [rewrite app_nil_r; by destruct (joined bs)|].
  destruct bs as [|b bs]; [done|]. cbn [joined]. rewrite <- join_app by done. done.
Qed.

Section Queries.
Context `{CompactionItem T} `{!CompactionItemBuilder T}.
Implicit Types (turns : list T).

(** The blocks that the summaries among the turns carry, in their order. *)
Definition blocks_in turns : list str :=
  concat (map (λ t, if is_compaction_summary t then blocks_of (default [] (text t)) else []) turns).

Lemma separate_loop_prior turns acc bs : prior_user_queries acc = joined bs →
  prior_user_queries (separate_loop turns acc) = joined (bs ++ blocks_in turns).
Proof.
  unfold blocks_in. revert acc bs. induction turns as [|t turns IH]; intros acc bs Hb; cbn [separate_loop map concat].
  - by rewrite app_nil_r.
  - destruct (is_compaction_summary t); [|by apply IH].
    destruct (split_prior_compaction_text _) as [sec rest] eqn:E. rewrite app_assoc. apply IH.
    cbn [prior_user_queries]. rewrite Hb, joined_app, <- split_fst, E. cbn [fst].
    destruct sec; [by destruct (joined bs)|done].
Qed.

Lemma extract_prior turns : extract_prior_user_queries turns = joined (blocks_in turns).
Proof. by apply (separate_loop_prior turns _ []). Qed.

Lemma blocks_in_ok turns : Forall block_ok (blocks_in turns).
Proof.
  unfold blocks_in. induction turns as [|t turns IH]; cbn [map concat]; [constructor|].
  apply Forall_app. split; [|done]. destruct (is_compaction_summary t); [apply blocks_ok|constructor].
Qed.

Lemma separate_prior turns :
  prior_user_queries (separate_prior_user_queries turns) = joined (blocks_in turns).
Proof. apply extract_prior. Qed.

Lemma separate_no_summary turns :
  Forall (λ t, is_compaction_summary t = false) turns →
  separate_prior_user_queries turns = mkSeparated turns None false.
Proof.
  intros Hn. unfold separate_prior_user_queries.
  cut (∀ acc, has_prior_compaction acc = false → prior_user_queries acc = None →
    separate_loop turns acc = mkSeparated (turns_for_llm acc ++ turns) None false); [by intros ->|].
  induction Hn as [|t turns Ht _ IH]; intros [l p h] Hh Hp; cbn in Hh, Hp; subst; cbn [separate_loop].
  - by rewrite app_nil_r.
  - rewrite Ht, IH by done. cbn [turns_for_llm]. by rewrite <- app_assoc.
Qed.
End Queries.

(** ** The block of the current queries *)

Lemma occurs_boundary p a x b : x ∉ tail p → occurs p (a ++ x :: b) → occurs p a ∨ occurs p (x :: b).
Proof.
  intros Hx Ho. apply occurs_app_inv in Ho as [Ho|[Ho|(t1 & t2 & E & H1 & H2 & _ & [k Hk])]]; [by left|by right|].
  exfalso. destruct t2 as [|y t2]; [done|]. injection Hk as <- _. destruct t1 as [|z t1]; [done|].
  apply Hx. rewrite E. cbn. apply elem_of_app. right. by left.
Qed.

(** An opening tag holds no angle bracket but its first char. *)
Definition opening (tag : str) : bool :=
  match tag with
  | c :: z :: q => (c =? LT)%Z && negb (z =? 47)%Z && negb (existsb (Z.eqb LT) (z :: q))
  | _ => false
  end.

(** A closing tag is not where an opening one is. *)
Lemma skip_tag tag rest : opening tag = true →
  occurs QUERIES_CLOSE (tag ++ rest) → occurs QUERIES_CLOSE rest.
Proof.
  unfold opening. destruct tag as [|c [|z q]]; [done..|]. intros [[Hc Hz]%andb_true_iff Hq]%andb_true_iff Ho.
  apply Z.eqb_eq in Hc. subst c. apply negb_true_iff in Hz, Hq. apply Z.eqb_neq in Hz.
  cbn [app] in Ho. apply occurs_cons in Ho as [[k Hk]|Ho].
  - exfalso. apply (f_equal (λ l, l !! 1%nat)) in Hk. cbn in Hk. congruence.
  - change (z :: q ++ rest) with ((z :: q) ++ rest) in Ho. apply occurs_skip in Ho; [done|].
    by apply not_in_closed.
Qed.

Definition no_close (s : str) : Prop := ¬ occurs QUERIES_CLOSE s.

Lemma no_close_app a x b : x ∉ tail QUERIES_CLOSE → no_close a → no_close (x :: b) → no_close (a ++ x :: b).
Proof. intros Hx Ha Hb Ho. apply occurs_boundary in Ho as [Ho|Ho]; [by apply Ha|by apply Hb|done]. Qed.

Lemma no_close_foreign a x b : x ∉ QUERIES_CLOSE → no_close a → no_close b → no_close (a ++ x :: b).
Proof. intros Hx Ha Hb Ho. apply occurs_foreign in Ho as [Ho|Ho]; [by apply Ha|by apply Hb|done]. Qed.

Lemma no_close_truncated msg n : no_close msg → no_close (default msg (truncate_middle msg n)).
Proof.
  intros Hm. unfold truncate_middle. destruct (Z.of_nat (length msg) <=? n)%Z; [done|]. cbn [default].
  set (front := take _ msg). set (back := drop _ msg).
  assert (Hf : no_close front) by (intros Ho; by apply Hm; apply occurs_take in Ho).
  assert (Hb : no_close back) by (intros Ho; by apply Hm; apply occurs_drop in Ho).
  replace (front ++ TRUNCATED ++ back)
    with (front ++ 46%Z :: (lit "..[truncated].." ++ 46%Z :: back)) by reflexivity.
  apply no_close_foreign; [by apply not_in_closed|done|].
  apply no_close_foreign; [by apply not_in_closed|by apply not_occurs_closed|done].
Qed.

(** Literals are compared by their text, not by their chars. *)
#[local] Strategy opaque [lit].

Section Current.
Context `{CompactionItem T}.

(** A turn whose texts do not close the block they are put in. *)
Definition clean_turn (t : T) : Prop :=
  no_close (default [] (text t)) ∧
  Forall (λ r, no_close (ref_id r) ∧ no_close (ref_name r)) (attachment_refs t).

Lemma no_close_lit l : contains (lit l) QUERIES_CLOSE = false → no_close (lit l).
Proof. by apply not_occurs_closed. Qed.

Lemma no_close_file r rest : no_close (ref_id r) → no_close (ref_name r) → no_close rest →
  no_close (file_line r ++ rest).
Proof.
  assert (N1 : no_close (lit " name=")) by (apply no_close_lit; by vm_compute).
  assert (N2 : no_close (lit " />")) by (apply no_close_lit; by vm_compute).
  assert (N3 : opening (lit "<grok_file id=") = true) by (by vm_compute).
  assert (N4 : QUOTE ∉ QUERIES_CLOSE) by (by apply not_in_closed).
  assert (N5 : NL ∉ QUERIES_CLOSE) by (by apply not_in_closed).
  assert (N6 : no_close []) by (by apply not_occurs_closed).
  intros Hi Hn Hr Ho. unfold file_line, quoted in Ho. revert N1 N2 N3 Ho.
  generalize (lit " name=") as a, (lit " />") as b, (lit "<grok_file id=") as c.
  intros a b c N1 N2 N3 Ho. rewrite <- !app_assoc in Ho. apply skip_tag in Ho; [|done]. revert Ho.
  apply (no_close_foreign [] QUOTE); [done..|]. apply (no_close_foreign _ QUOTE); [done..|].
  apply (no_close_foreign a QUOTE); [done..|]. apply (no_close_foreign _ QUOTE); [done..|].
  by apply (no_close_foreign b NL).
Qed.

Lemma no_close_files refs rest : Forall (λ r, no_close (ref_id r) ∧ no_close (ref_name r)) refs →
  no_close rest → no_close (concat (map file_line refs) ++ rest).
Proof.
  intros Hr Hrest. induction Hr as [|r refs [Hi Hn] _ IH]; cbn [map concat app]; [done|].
  rewrite <- app_assoc. by apply no_close_file.
Qed.

Lemma no_close_end rest : no_close rest → no_close (lit "</grok_query>" ++ [NL] ++ rest).
Proof.
  intros Hr Ho.
  assert (E : lit "</grok_query>" = LT :: tail (lit "</grok_query>")) by (by vm_compute).
  assert (N : LT ∉ tail (lit "</grok_query>")) by (apply not_in_closed; by vm_compute).
  assert (N7 : tail (lit "</grok_query>") !! 6%nat = Some 113%Z) by (by vm_compute).
  rewrite E in Ho. revert N N7 Ho. generalize (tail (lit "</grok_query>")) as tag. intros tag N N7 Ho.
  cbn [app] in Ho. apply occurs_cons in Ho as [[k Hk]|Ho].
  - assert (Hk' : (tag ++ NL :: rest) !! 6%nat = Some 117%Z) by (injection Hk as ->; done).
    apply lookup_lt_Some in N7 as Hl. rewrite lookup_app_l, N7 in Hk' by done. discriminate Hk'.
  - apply occurs_skip in Ho; [|done]. apply (occurs_skip _ _ [NL]) in Ho; [done|by apply not_in_closed].
Qed.

Lemma no_close_query q n refs rest : no_close q →
  Forall (λ r, no_close (ref_id r) ∧ no_close (ref_name r)) refs → no_close rest →
  no_close (format_query q n refs ++ rest).
Proof.
  intros Hq Hr Hrest. apply no_close_end in Hrest.
  assert (E : lit "</grok_query>" = LT :: tail (lit "</grok_query>")) by (by vm_compute).
  assert (N : opening (lit "<grok_query>") = true) by (by vm_compute).
  unfold format_query. revert E N Hrest.
  generalize (lit "</grok_query>") as e, (lit "<grok_query>") as o. intros e o E N Hrest Ho.
  rewrite <- !app_assoc in Ho. apply skip_tag in Ho; [|done]. revert Ho.
  apply (no_close_truncated q n) in Hq. destruct (is_empty refs).
  - rewrite E in *. by apply (no_close_app _ LT); [apply not_in_closed|..].
  - apply (no_close_foreign _ NL); [by apply not_in_closed|done|]. by apply no_close_files.
Qed.

Lemma no_close_queries turns n rest : Forall (λ t, role t = RoleUser → clean_turn t) turns →
  no_close rest → no_close (concat (user_queries turns n) ++ rest).
Proof.
  intros Ht Hrest. induction Ht as [|t turns Hc _ IH]; cbn [user_queries]; [done|].
  destruct (bool_decide_reflect (role t = RoleUser)) as [Hu|_]; [|done]. cbn [negb].
  destruct (is_empty _ && is_empty _); [done|]. cbn [concat]. rewrite <- app_assoc.
  destruct (Hc Hu) as [Hq Hr]. by apply no_close_query.
Qed.

Lemma current_block_ok turns n q : Forall (λ t, role t = RoleUser → clean_turn t) turns →
  extract_user_queries_from_turns turns n = Some q → block_ok q.
Proof.
  intros Ht. unfold extract_user_queries_from_turns.
  destruct (user_queries turns n) as [|x qs] eqn:E; [done|]. intros [= <-].
  exists ([NL] ++ concat (x :: qs)). split; [by rewrite <- (app_assoc [NL])|].
  rewrite <- E. apply (no_close_foreign [] NL); [by apply not_in_closed|by apply not_occurs_closed|].
  rewrite <- (app_nil_r (concat _)). apply no_close_queries; [done|by apply not_occurs_closed].
Qed.
End Current.
