(* ===== verification/CompactionTheorems.v ===== *)
(** * Compaction: theorems

    What the passes promise, for every host that keeps the contract of
    [intra_compaction/traits.rs] as the class [LawfulHost]: which turns a pass
    replaces and with what, that an error leaves them alone, what the retry loop
    returns after how many calls, and how the turns are cut into chunks.  Then
    the engine on the items of this program, and runs where code and comments
    part. *)
From S2P Require Import Prelude RustStr F64 StrSearch TokenEstimation Conversation Concrete ToolPairing ToolPairingFacts.
From S2P Require Import CompactionText CompactionTextFacts Compaction CompactionFacts.

(** ** The contract of a host *)

Section Views.
Context {W T : Type} `{CompactionHost W T}.

(** The history and the turns of the loop. *)
Definition views (w : W) : list T * list T := (get_history_turns w, get_accumulated_turns w).

(** The first [n] turns of the target's view are one turn now. *)
Definition replaced (target : CompactionTarget) (n : nat) (turn : T) (v v' : list T * list T) : Prop :=
  match target with
  | Steps => (n ≤ length v.2)%nat ∧ v' = (v.1, turn :: drop n v.2)
  | History => (n ≤ length v.1)%nat ∧ v' = (turn :: drop n v.1, v.2)
  | FullReplaceTarget => v'.1 ++ v'.2 = [turn]
  end.
End Views.

Class LawfulHost (W T : Type) `{CompactionHost W T} : Prop := {
  sample_keeps turns prompt timeout w :
    views (sample_compaction turns prompt timeout w).2 = views w;
  sleep_keeps secs w : views (T := T) (sleep_secs secs w) = views w;
  replace_done target n turn w :
    (replace_with_compaction target n turn w).1 = Ok tt →
    replaced target n turn (views w) (views (replace_with_compaction target n turn w).2);
  replace_refused target n turn w e :
    (replace_with_compaction target n turn w).1 = Err e →
    views (replace_with_compaction target n turn w).2 = views w;
}.

Class LawfulBuilder (T : Type) `{CompactionItemBuilder T} : Prop := {
  summary_is_summary t : is_compaction_summary (compaction_summary_item t) = true;
  summary_has_text t : text (compaction_summary_item t) = Some t;
}.

(** ** The retry loop, call by call *)

Section Retry.
Context {W T : Type} `{CompactionHost W T}.
Variables (turns : list T) (prompt : CompactionPrompt) (retry_delay timeout : Z).

(** The world before call [k] when the calls before it all failed, and what the
    call answers. *)
Fixpoint before_call (k : nat) (w : W) : W :=
  match k with
  | O => w
  | S k' => sleep_secs retry_delay (sample_compaction turns prompt timeout (before_call k' w)).2
  end.
Definition answer (k : nat) (w : W) := (sample_compaction turns prompt timeout (before_call k w)).1.
Definition after_call (k : nat) (w : W) : W :=
  (sample_compaction turns prompt timeout (before_call k w)).2.

(** The answers after which the loop goes on. *)
Definition retried (r : result LlmCompactionOutput CompactionSampleError) : bool :=
  match r with
  | Ok output => is_empty (trim (response output)) || is_degenerate_summary (response output)
  | Err e => negb (is_deterministic e || is_context_length_error (sample_error_text e))
  end.

(** What the loop returns when it ends with an answer. *)
Definition concluded (r : result LlmCompactionOutput CompactionSampleError) (attempts : Z)
  : result SampledSummary SampleRetryError :=
  match r with
  | Ok output =>
      if is_empty (trim (response output)) || is_degenerate_summary (response output)
      then Err (RetryEmpty attempts)
      else Ok (mkSampled (response output) attempts)
  | Err e =>
      let overflow := is_context_length_error (sample_error_text e) in
      Err (RetryFailure (sample_error_text e) (is_deterministic e || overflow) overflow attempts)
  end.

(** What an observer is told of an answer. *)
Definition outcome (r : result LlmCompactionOutput CompactionSampleError) (will_retry : bool)
  : FullReplaceAttemptOutcome :=
  match r with
  | Ok output =>
      if is_empty (trim (response output)) then EmptyOutcome will_retry
      else if is_degenerate_summary (response output) then Degenerate (response output) will_retry
      else Success (response output)
  | Err e =>
      let overflow := is_context_length_error (sample_error_text e) in
      let deterministic := is_deterministic e || overflow in
      Failure (sample_error_text e) deterministic overflow (will_retry && negb deterministic)
  end.

(** An observer that writes down what it is told. *)
Definition records (observer : Observer (W := W)) (f : Z → FullReplaceAttemptOutcome → list CompactionEvent) : Prop :=
  ∀ a o s, observer a o s = Some (tt, mkSys (world s) (observed s ++ f a o)).

Lemma attempt_spec observer f attempt more s : records observer f →
  attempt_once turns prompt timeout observer attempt more s =
  let '(r, w) := sample_compaction turns prompt timeout (world s) in
  Some (if retried r && more then None else Some (concluded r attempt),
        mkSys w (observed s ++ f attempt (outcome r more))).
Proof.
  intros Hf. unfold attempt_once, on_world, mbind, M_bind, mret, M_ret.
  destruct (sample_compaction turns prompt timeout (world s)) as [[output|e] w]; cbn [retried concluded outcome].
  - destruct (is_empty (trim (response output))); cbn [negb orb andb].
    + rewrite Hf. by destruct more.
    + destruct (is_degenerate_summary (response output)); rewrite Hf; by destruct more.
  - rewrite Hf. cbn [world observed]. f_equal. f_equal.
    destruct (is_deterministic e), (is_context_length_error (sample_error_text e)), more; done.
Qed.

(** The events of the first [n] attempts of [m]. *)
Definition attempt_events (f : Z → FullReplaceAttemptOutcome → list CompactionEvent) (m : Z) (n : nat)
    (w : W) : list CompactionEvent :=
  concat (map (λ k, let a := Z.of_nat k + 1 in f a (outcome (answer k w) (a <? m)%Z))%Z (seq 0 n)).

Lemma attempt_events_S f m n w :
  attempt_events f m (S n) w
  = attempt_events f m n w ++ f (Z.of_nat n + 1)%Z (outcome (answer n w) (Z.of_nat n + 1 <? m)%Z).
Proof.
  unfold attempt_events. rewrite seq_S, map_app, concat_app. cbn. by rewrite app_nil_r.
Qed.

(** The loop ends at the first answer that is not retried, or at the last. *)
Lemma loop_spec observer f m w obs : records observer f →
  ∀ left k, Z.of_nat (k + left) = m → (0 < left)%nat →
  ∃ n, (k ≤ n < k + left)%nat ∧ (∀ j, (k ≤ j < n)%nat → retried (answer j w) = true) ∧
    (retried (answer n w) = false ∨ Z.of_nat (S n) = m) ∧
    sample_loop turns prompt m retry_delay timeout observer left (Z.of_nat k + 1)
      (mkSys (before_call k w) (obs ++ attempt_events f m k w))
    = Some (concluded (answer n w) (Z.of_nat n + 1),
            mkSys (after_call n w) (obs ++ attempt_events f m (S n) w)).
Proof.
  intros Hf. induction left as [|left IH]; intros k Hm Hleft; [lia|]. cbn [sample_loop].
  unfold mbind at 1, M_bind at 1. rewrite (attempt_spec observer f) by done. cbn [world observed].
  pose proof (eq_refl : answer k w = (sample_compaction turns prompt timeout (before_call k w)).1) as Ha.
  pose proof (eq_refl : after_call k w = (sample_compaction turns prompt timeout (before_call k w)).2) as Hw.
  destruct (sample_compaction turns prompt timeout (before_call k w)) as [r w'] eqn:Es. cbn [fst snd] in Ha, Hw.
  rewrite <- app_assoc, <- Ha, <- attempt_events_S. destruct (retried (answer k w)) eqn:Er; cbn [andb].
  - destruct (Z.ltb_spec (Z.of_nat k + 1) m) as [Hlt|Hge].
    + destruct left as [|left]; [lia|].
      destruct (IH (S k)) as (n & Hn & Hall & Hend & E); [lia|lia|]. exists n. split; [lia|].
      split; [|split; [done|]].
      * intros j Hj. destruct (decide (j = k)) as [->|Hne]; [done|]. apply Hall. lia.
      * rewrite <- E. unfold on_world. cbn [mbind M_bind world observed before_call].
        rewrite Es. cbn [snd]. by replace (Z.of_nat (S k) + 1)%Z with (Z.of_nat k + 1 + 1)%Z by lia.
    + exists k. split; [lia|]. split; [lia|]. split; [right; lia|]. by rewrite Hw.
  - exists k. split; [lia|]. split; [lia|]. split; [by left|]. by rewrite Hw.
Qed.
End Retry.

(** ** Sampling leaves the turns alone *)

Section Sampling.
Context {W T : Type} `{LawfulHost W T}.

Lemma before_call_views turns prompt delay timeout k w :
  views (T := T) (before_call turns prompt delay timeout k w) = views w.
Proof. induction k as [|k IH]; [done|]. cbn [before_call]. by rewrite sleep_keeps, sample_keeps. Qed.

Lemma after_call_views turns prompt delay timeout k w :
  views (T := T) (after_call turns prompt delay timeout k w) = views w.
Proof. unfold after_call. by rewrite sample_keeps, before_call_views. Qed.

(** A step of a pass that returns, tells nobody and leaves the turns alone. *)
Definition quiet {A} (m : M W A) : Prop :=
  ∀ s, ∃ a w, m s = Some (a, mkSys w (observed s)) ∧ views (T := T) w = views (world s).

Lemma no_events m n w turns prompt delay timeout :
  attempt_events (W := W) (T := T) turns prompt delay timeout (λ _ _, []) m n w = [].
Proof. unfold attempt_events. induction (seq 0 n); [done|]. done. Qed.

Lemma retries_quiet turns prompt max delay timeout :
  quiet (sample_summary_with_retries turns prompt max delay timeout no_observer).
Proof.
  intros [w obs]. unfold sample_summary_with_retries.
  destruct (loop_spec turns prompt delay timeout no_observer (λ _ _, []) (Z.max max 1) w obs) with
    (left := Z.to_nat (Z.max max 1)) (k := 0%nat) as (n & _ & _ & _ & E); [|lia|lia|].
  { intros a o [w' obs']. unfold no_observer. cbn. by rewrite app_nil_r. }
  rewrite !no_events, !app_nil_r in E. cbn [before_call] in E. change (Z.of_nat 0 + 1)%Z with 1%Z in E.
  rewrite E.
  eexists _, _. split; [done|]. apply after_call_views.
Qed.

Lemma quiet_map {A B} (f : A → B) (m : M W A) : quiet m → quiet (a ← m; mret (f a)).
Proof.
  intros Hm s. destruct (Hm s) as (a & w & E & Hv). unfold mbind, M_bind. rewrite E.
  by exists (f a), w.
Qed.

Lemma shared_quiet turns policy : quiet (sample_shared_summary_with_retries turns policy).
Proof. apply quiet_map, retries_quiet. Qed.

Lemma legacy_quiet turns prompt timeout policy m left : ∀ attempt last_err,
  quiet (legacy_loop turns prompt timeout policy m left attempt last_err).
Proof.
  induction left as [|left IH]; intros attempt last_err s; cbn [legacy_loop].
  - eexists _, (world s). split; [by destruct s|done].
  - unfold mbind, M_bind, on_world, mret, M_ret.
    pose proof (sample_keeps turns prompt timeout (world s)) as Hk.
    destruct (sample_compaction turns prompt timeout (world s)) as [[output|e] w]; cbn [snd] in Hk.
    + by eexists _, w.
    + destruct (_ && _); [|by eexists _, w]. cbn [world observed].
      edestruct IH as (a & w' & E & Hv). rewrite E. exists a, w'. split; [done|].
      rewrite Hv. cbn [world]. by rewrite sleep_keeps.
Qed.

Lemma sample_turns_quiet target turns policy : target ≠ FullReplaceTarget →
  quiet (sample_turns target turns policy).
Proof.
  intros Ht. unfold sample_turns. destruct (summarizer policy); [apply shared_quiet|]. intros s.
  destruct (build_prompt_for_target target) as [prompt|] eqn:E; [|by destruct target].
  unfold mbind, M_bind, expect. cbn. apply legacy_quiet.
Qed.
End Sampling.

(** ** One pass *)

Section Passes.
Context {W T : Type} `{LawfulHost W T} `{CompactionItemBuilder T} `{!ItemTokenCounter T}.
Context (counts_u32 : ∀ t : T, is_u32 (count_item_tokens t)).

Definition view_of (target : CompactionTarget) (v : list T * list T) : list T :=
  match target with Steps => v.2 | History => v.1 | FullReplaceTarget => v.1 ++ v.2 end.

(** How many turns of the view a pass is to replace. *)
Definition chosen (policy : IntraCompactionConfig) (trigger : IntraCompactionTrigger)
    (target : CompactionTarget) (view : list T) (n : nat) (before : Z) : Prop :=
  match target with
  | FullReplaceTarget =>
      n = length view ∧ before = sum32 (map count_item_tokens view) ∧
      (min_compactable_tokens policy ≤ before)%Z
  | _ =>
      planned (map count_item_tokens view) view
        (percent_of (context_window trigger) (target_threshold_percent policy))
        (min_compactable_tokens policy) n before
  end.

(** An applied pass: the chosen turns are one summary now, which reads as [Q]
    says, nothing else has changed, the summary is small enough, and the
    observer was told once. *)
Definition pass_applied policy trigger target (Q : nat → str → Prop) (s s' : Sys W)
    (r : IntraCompactionResult) : Prop :=
  ∃ n, chosen policy trigger target (view_of target (views (world s))) n (tokens_before r) ∧
    Q n (summary r) ∧
    replaced target n (compaction_summary_item (summary r)) (views (world s)) (views (world s')) ∧
    turns_compacted r = wrap32 (Z.of_nat n) ∧
    tokens_after r = count_item_tokens (compaction_summary_item (T := T) (summary r)) ∧
    insufficient policy (tokens_before r) (tokens_after r) = false ∧
    observed s' = observed s ++ [IntraSuccess target (tokens_before r) (tokens_after r) (turns_compacted r)].

(** A refused pass: nothing has changed and nobody was told. *)
Definition pass_refused (s s' : Sys W) : Prop :=
  views (T := T) (world s') = views (world s) ∧ observed s' = observed s.

Definition pass_ends policy trigger target Q (s s' : Sys W)
    (res : result IntraCompactionResult IntraCompactionError) : Prop :=
  match res with Ok r => pass_applied policy trigger target Q s s' r | Err _ => pass_refused s s' end.

(** The end of a pass, once the summary is there. *)
Definition commit (policy : IntraCompactionConfig) (target : CompactionTarget) (n : nat) (before : Z)
    (summary_text : str) : M W (result IntraCompactionResult IntraCompactionError) :=
  let turn : T := compaction_summary_item summary_text in
  if insufficient policy before (count_item_tokens turn)
  then mret (Err (InsufficientReduction before (count_item_tokens turn)))
  else
    try! _ := on_world (replace_with_compaction target n turn) in
    let compacted := wrap32 (Z.of_nat n) in
    _ ← observe (IntraSuccess target before (count_item_tokens turn) compacted);
    mret (Ok (mkResult before (count_item_tokens turn) compacted summary_text)).

Lemma commit_spec policy trigger target n before summary_text (Q : nat → str → Prop) s s0 :
  views (T := T) (world s) = views (world s0) → observed s = observed s0 →
  chosen policy trigger target (view_of target (views (world s0))) n before → Q n summary_text →
  ∃ res s', commit policy target n before summary_text s = Some (res, s') ∧
    pass_ends policy trigger target Q s0 s' res.
Proof.
  intros Hv Ho Hc HQ. unfold commit. set (turn := compaction_summary_item summary_text : T).
  destruct (insufficient policy before (count_item_tokens turn)) eqn:Ei.
  - eexists _, s. split; [done|]. by split.
  - unfold try_, mbind, M_bind, on_world, observe, mret, M_ret.
    pose proof (replace_done target n turn (world s)) as Hd.
    pose proof (λ e, replace_refused target n turn (world s) e) as Hr.
    destruct (replace_with_compaction target n turn (world s)) as [[[]|e] w]; cbn [fst snd] in Hd, Hr.
    + eexists _, _. split; [done|]. cbn [pass_ends world observed].
      exists n. cbn. rewrite Ho. split; [done|]. split; [done|]. split; [|done]. rewrite <- Hv. by apply Hd.
    + eexists _, _. split; [done|]. cbn. split; [|done]. cbn [world]. by rewrite (Hr e).
Qed.

(** The text of a pass that replaces everything. *)
Definition full_summary (active_reminder : option str) (n : nat) (text : str) : Prop :=
  ∃ sampled, text = append_reminder_block sampled active_reminder.

Lemma apply_full_replace_spec policy trigger reminder s :
  ∃ res s', apply_full_replace_compaction policy reminder s = Some (res, s') ∧
    pass_ends policy trigger FullReplaceTarget (full_summary reminder) s s' res.
Proof.
  unfold apply_full_replace_compaction, read_world. unfold mbind at 1, M_bind at 1.
  destruct (is_empty (get_all_turns (world s))); [by eexists _, s|].
  destruct (Z.ltb_spec (sum32 (map count_item_tokens (get_all_turns (world s)))) (min_compactable_tokens policy))
    as [Hlt|Hge]; [by eexists _, s|].
  unfold try_ at 1. unfold mbind at 1, M_bind at 1.
  destruct (shared_quiet (get_all_turns (world s)) policy s) as ([text|e] & w & -> & Hv); [|by eexists _, _].
  apply (commit_spec policy trigger FullReplaceTarget (length (get_all_turns (world s))) _ _
    (full_summary reminder) (mkSys w (observed s)) s Hv eq_refl); [by split_and!|by exists text].
Qed.

Lemma percent_of_nonneg w p : (0 ≤ percent_of w p)%Z.
Proof. unfold percent_of, wrap32, U32_MAX. apply Z.mod_pos_bound. lia. Qed.

(** The text of a pass over the history or the steps: what the model was shown
    are the turns without the blocks of queries, which the text gives back. *)
Definition pass_summary policy target (view : list T) (n : nat) (text : str) : Prop :=
  ∃ for_llm prior raw, turns_to_sample target (take n view) = Some (for_llm, prior) ∧
    final_summary target (take n view) prior policy raw = Some text.

Lemma compact_one_pass_spec policy trigger target s : target ≠ FullReplaceTarget →
  ∃ res s', compact_one_pass policy trigger target s = Some (res, s') ∧
    pass_ends policy trigger target
      (pass_summary policy target (view_of target (views (world s)))) s s' res.
Proof.
  intros Ht. unfold compact_one_pass, read_world, expect. unfold mbind at 1, M_bind at 1.
  assert (Hs : source_turns_of target (world s) = Some (view_of target (views (world s)))) by (by destruct target).
  rewrite Hs. unfold mbind at 1, M_bind at 1. cbn [mbind option_bind].
  set (view := view_of target (views (world s))). destruct (is_empty view).
  { eexists _, s. split; [done|]. by split. }
  destruct (select_spec (map count_item_tokens view) view
    (percent_of (context_window trigger) (target_threshold_percent policy))
    (min_compactable_tokens policy)) as (plan & -> & Hplan).
  { apply length_map. } { apply Forall_map, Forall_true. done. } { apply percent_of_nonneg. }
  unfold mbind at 1, M_bind at 1. cbn [mbind option_bind].
  destruct plan as [[n before]|]; [|eexists _, s; split; [done|]; by split].
  pose proof (proj1 (Hplan n before) eq_refl) as Hp.
  assert (Hc : chosen policy trigger target view n before) by (by destruct target).
  destruct (turns_to_sample target (take n view)) as [[for_llm prior]|] eqn:Ets; [|by destruct target].
  unfold mbind at 1, M_bind at 1. cbn [mbind option_bind]. unfold try_ at 1. unfold mbind at 1, M_bind at 1.
  destruct (sample_turns_quiet target for_llm policy Ht s) as ([raw|e] & w & -> & Hv).
  2: { eexists _, _. split; [done|]. by split. }
  destruct (final_summary target (take n view) prior policy raw) as [text|] eqn:Ef; [|by destruct target].
  unfold mbind at 1, M_bind at 1. cbn [mbind option_bind].
  apply (commit_spec policy trigger target n before text _ (mkSys w (observed s)) s Hv eq_refl Hc).
  by exists for_llm, prior, raw.
Qed.

(** ** The entry *)

Definition pass_done policy trigger target (s s' : Sys W) (r : IntraCompactionResult) : Prop :=
  pass_applied policy trigger target
    (pass_summary policy target (view_of target (views (T := T) (world s)))) s s' r.

(** What an entry that succeeds has done. *)
Definition intra_done policy trigger reminder (s s' : Sys W) (r : IntraCompactionResult) : Prop :=
  match mode policy with
  | FullReplace => pass_applied policy trigger FullReplaceTarget (full_summary reminder) s s' r
  | StepsOnly => pass_done policy trigger Steps s s' r
  | HistoryOnly => pass_done policy trigger History s s' r
  | HistoryThenSteps =>
      pass_done policy trigger History s s' r ∨ pass_done policy trigger Steps s s' r ∨
      ∃ s1 h t, pass_done policy trigger History s s1 h ∧ pass_done policy trigger Steps s1 s' t ∧
        r = both_passes h t
  end.

(** What an entry that fails has done: nothing, unless the mode has a second
    pass and it is the one that failed; and the observer was told once. *)
Definition intra_failed policy trigger (s s' : Sys W) (e : IntraCompactionError) : Prop :=
  ∃ s1, (pass_refused s s1 ∨
         mode policy = HistoryThenSteps ∧ ∃ h, pass_done policy trigger History s s1 h) ∧
    views (T := T) (world s') = views (world s1) ∧
    observed s' = observed s1 ++ [IntraError (error_status_label e)].

Definition intra_ends policy trigger reminder (s s' : Sys W)
    (res : result IntraCompactionResult IntraCompactionError) : Prop :=
  match res with
  | Ok r => intra_done policy trigger reminder s s' r
  | Err e => intra_failed policy trigger s s' e
  end.

Lemma pass_done_moved policy trigger target s s1 s' r :
  pass_refused s s1 → pass_done policy trigger target s1 s' r → pass_done policy trigger target s s' r.
Proof. intros [Hv Ho]. unfold pass_done, pass_applied. by rewrite Hv, Ho. Qed.

Lemma pass_done_stays policy trigger target s s1 s' r :
  pass_done policy trigger target s s1 r → pass_refused s1 s' → pass_done policy trigger target s s' r.
Proof. intros Hp [Hv Ho]. revert Hp. unfold pass_done, pass_applied. by rewrite Hv, Ho. Qed.

(** Two passes, the error told apart. *)
Definition two_passes policy trigger (s s' : Sys W)
    (res : result IntraCompactionResult IntraCompactionError) : Prop :=
  match res with
  | Ok r =>
      pass_done policy trigger History s s' r ∨ pass_done policy trigger Steps s s' r ∨
      ∃ s1 h t, pass_done policy trigger History s s1 h ∧ pass_done policy trigger Steps s1 s' t ∧
        r = both_passes h t
  | Err _ => pass_refused s s' ∨ ∃ s1 h, pass_done policy trigger History s s1 h ∧ pass_refused s1 s'
  end.

Lemma refused_trans s s1 s' : pass_refused s s1 → pass_refused s1 s' → pass_refused s s'.
Proof. intros [Hv Ho] [Hv2 Ho2]. split; congruence. Qed.

Lemma history_then_steps_spec policy trigger s :
  ∃ res s', apply_history_then_steps policy trigger s = Some (res, s') ∧ two_passes policy trigger s s' res.
Proof.
  unfold apply_history_then_steps, apply_history_compaction, apply_steps_compaction, read_world.
  unfold mbind, mret, M_ret. unfold M_bind at 1.
  destruct (compact_one_pass_spec policy trigger History s) as (r & s1 & -> & Hfst); [done|].
  assert (Hgo : ∀ h, match h with Some r => pass_done policy trigger History s s1 r | None => pass_refused s s1 end →
    let '(res, s') := match steps_outweigh_history policy (world s1) with
      | true => match compact_one_pass policy trigger Steps s1 with
                | Some (sr, s2) => (match h, sr with
                    | Some h, Ok s => Ok (both_passes h s) | Some h, Err NothingToCompact => Ok h
                    | None, Ok s => Ok s | _, Err e => Err e end, s2)
                | None => (Err NothingToCompact, s) end
      | false => (match h with Some h => Ok h | None => Err NothingToCompact end, s1) end in
    two_passes policy trigger s s' res).
  { intros h Hh. destruct (steps_outweigh_history policy (world s1)).
    - destruct (compact_one_pass_spec policy trigger Steps s1) as (r2 & s2 & -> & Hsnd); [done|].
      destruct h as [h|], r2 as [t|e]; cbn [two_passes pass_ends] in *.
      + right. right. by exists s1, h, t.
      + destruct e; cbn [two_passes]; try (right; by exists s1, h). left. by eapply pass_done_stays.
      + right. left. by eapply pass_done_moved.
      + left. by eapply refused_trans.
    - destruct h; cbn [two_passes]; by left. }
  destruct r as [h|e]; [specialize (Hgo (Some h) Hfst)|destruct e; try (eexists _, _; split; [reflexivity|by left]);
    specialize (Hgo None Hfst)]; unfold M_bind; cbn beta iota;
    destruct (steps_outweigh_history policy (world s1)); cbn [negb];
    try (by eexists _, _);
    destruct (compact_one_pass_spec policy trigger Steps s1) as (r2 & s2 & E2 & _); try done;
    rewrite E2 in Hgo |- *; by eexists _, _.
Qed.

(** C6: The compaction between the steps of a loop ends without a panic for
    every host that keeps its contract, and what it did is what its result
    says: on success the oldest turns up to the chosen split, and nothing else,
    are one summary that passes the reduction check, and each pass was reported
    once with its counts; on failure the turns are as they were, the one
    exception being the first of two passes, and the error was reported once. *)
Theorem intra_compaction_effect policy trigger reminder s :
  ∃ res s', apply_intra_compaction policy trigger reminder s = Some (res, s') ∧
    intra_ends policy trigger reminder s s' res.
Proof.
  assert (Hone : ∀ (m : M W (result IntraCompactionResult IntraCompactionError)) (done : Sys W → IntraCompactionResult → Prop),
    (∃ res s', m s = Some (res, s') ∧
      match res with Ok r => done s' r
      | Err _ => pass_refused s s' ∨
          mode policy = HistoryThenSteps ∧ ∃ s1 h, pass_done policy trigger History s s1 h ∧ pass_refused s1 s' end) →
    ∃ res s', (result ← m; match result with
        | Err e => _ ← observe (IntraError (error_status_label e)); mret result | Ok _ => mret result end) s
        = Some (res, s') ∧
      match res with Ok r => done s' r | Err e => intra_failed policy trigger s s' e end).
  { intros m done (res & s' & E & Hr). unfold mbind, M_bind, mret, M_ret, observe. rewrite E.
    destruct res as [r|e]; [by exists (Ok r), s'|]. eexists (Err e), _. split; [reflexivity|].
    destruct Hr as [Hr|(Hm & s1 & h & Hh & Hv & Ho)].
    - exists s'. by split; [left|].
    - exists s1. split; [right; split; [done|by exists h]|]. cbn. by rewrite Hv, Ho. }
  unfold apply_intra_compaction, intra_ends, intra_done. destruct (mode policy) eqn:Em; apply Hone.
  - destruct (apply_full_replace_spec policy trigger reminder s) as (res & s' & E & H').
    exists res, s'. split; [done|]. destruct res; [done|by left].
  - destruct (compact_one_pass_spec policy trigger Steps s) as (res & s' & E & H'); [done|].
    exists res, s'. split; [done|]. destruct res; [done|by left].
  - destruct (compact_one_pass_spec policy trigger History s) as (res & s' & E & H'); [done|].
    exists res, s'. split; [done|]. destruct res; [done|by left].
  - destruct (history_then_steps_spec policy trigger s) as (res & s' & E & H').
    exists res, s'. split; [done|]. destruct res; [done|]. destruct H' as [H'|H']; [by left|by right].
Qed.
End Passes.

(** ** What a pass picks, keeps and hands over *)

(** C29: The selector returns exactly the least split that keeps no more than
    the target, keeps something, and parts no tool result from its call -- when
    there is one, the target is exceeded at all, and enough would be compacted;
    otherwise it returns nothing, and it never indexes out of range. *)
Theorem select_least_safe `{CompactionItem T} `{!ItemTokenCounter T} (items : list T) target min :
  (∀ t : T, is_u32 (count_item_tokens t)) → (0 ≤ target)%Z →
  ∃ r, select_turns_to_compact (map count_item_tokens items) items target min = Some r ∧
    ∀ n t, r = Some (mkPlan n t) ↔ planned (map count_item_tokens items) items target min n t.
Proof.
  intros Hc Ht. apply select_spec; [apply length_map|by apply Forall_map, Forall_true|done].
Qed.



(** What a cleaned summary can hold: none of the tags that the parsers of
    a later compaction look for, no run of blank lines and no blank ends; and
    cleaning it again changes nothing, so that a summary of a summary is not
    cut a second time. *)
Theorem cleaned_summary_is_inert (raw : str) :
  inert (format_compact_summary raw) ∧ ¬ occurs BLANK_LINES (format_compact_summary raw) ∧
  trim (format_compact_summary raw) = format_compact_summary raw ∧
  format_compact_summary (format_compact_summary raw) = format_compact_summary raw.
Proof.
  destruct (format_compact_summary_clean raw) as (Hi & Hb & Ht).
  split_and!; [done..|apply format_compact_summary_idem].
Qed.

(** ** The pass that replaces a session *)

Section FullReplace.
Context {W T : Type} `{CompactionHost W T} `{!CompactionItemFactory T}.

(** What the pass returns and reports when the loop ended so. *)
Definition full_output (ctx : CompactedHistoryParts (T := T)) (r : result SampledSummary SampleRetryError)
  : result (FullReplaceOutput (T := T)) FullReplaceError * CompactionEvent :=
  match r with
  | Ok (mkSampled summary attempts) =>
      (Ok (mkFullOutput (assemble_compacted_history (parts_with ctx summary)) summary attempts),
       OnSuccess attempts (length summary))
  | Err (RetryEmpty attempts) => (Err NoSummary, OnError attempts)
  | Err (RetryFailure message deterministic overflow attempts) =>
      (Err (SamplerError message deterministic overflow), OnError attempts)
  end.

(** C19: The pass that replaces a session calls the model until an answer
    is a usable summary or an error that a retry cannot mend, at most the
    configured number of times and at least once, sleeping between the calls;
    the last answer alone decides the result, an accepted one becomes the
    summary of the assembled history, and the observer sees one outcome for
    each call and one end. *)
Theorem full_replace_exact (turns : list T) user_context ctx config w obs :
  turns ≠ [] →
  let prompt := mkPrompt [] (build_summary_prompt user_context) in
  let delay := fr_retry_delay_secs config in
  let timeout := fr_sampling_timeout_secs config in
  let most := Z.max (fr_max_attempts config) 1 in
  ∃ n, (Z.of_nat n < most)%Z ∧
    (∀ j, (j < n)%nat → retried (answer turns prompt delay timeout j w) = true) ∧
    (retried (answer turns prompt delay timeout n w) = false ∨ Z.of_nat (S n) = most) ∧
    let '(res, last) := full_output ctx (concluded (answer turns prompt delay timeout n w) (Z.of_nat n + 1)) in
    code_full_replace turns user_context ctx config (mkSys w obs)
    = Some (res, mkSys (after_call turns prompt delay timeout n w)
        (obs ++ attempt_events turns prompt delay timeout (λ a o, [OnAttempt a o]) most (S n) w ++ [last])).
Proof.
  intros Hne prompt delay timeout most.
  destruct (loop_spec turns prompt delay timeout full_replace_observer (λ a o, [OnAttempt a o]) most w obs) with
    (left := Z.to_nat most) (k := 0%nat) as (n & Hn & Hall & Hend & E); [done|lia|lia|].
  exists n. split; [lia|]. split; [intros j Hj; apply Hall; lia|]. split; [done|].
  cbn [before_call] in E. change (Z.of_nat 0 + 1)%Z with 1%Z in E.
  unfold attempt_events at 1 in E. cbn [seq map concat] in E. rewrite app_nil_r in E.
  set (c := concluded _ _) in *. destruct (full_output ctx c) as [res last] eqn:Eo.
  unfold code_full_replace, sample_full_replace_summary, try_. destruct turns as [|t0 ts]; [done|]. cbn [is_empty].
  unfold sample_summary_with_retries. fold prompt delay timeout. cbv zeta. fold most.
  unfold mbind, M_bind, mret, M_ret. rewrite E. unfold observe. unfold full_output in Eo.
  destruct c as [[text k]|[k|msg d o k]]; injection Eo as <- <-; cbn [world observed fr_summary];
    by rewrite <- app_assoc.
Qed.
End FullReplace.

(** ** The chunks of the pass between turns *)

Section Chunks.
Context {W T : Type} `{CompactionHost W T} `{CompactionItem T} `{!CompactionItemBuilder T}
  `{!ItemTokenCounter T}.
Context (counts_u32 : ∀ t : T, is_u32 (count_item_tokens t)).
Implicit Types (turns chunk : list T).

Definition chunk_tokens chunk : Z := sum_tokens (map count_item_tokens chunk).

(** A chunk may hold these turns. *)
Definition fits (limit : Z) chunk : Prop := limit = UNBOUNDED_CHUNK_LIMIT ∨ (chunk_tokens chunk ≤ limit)%Z.

(** The turns cut greedily: no chunk is empty, a chunk beyond the limit is one
    turn, and a chunk ends only where the next turn would not fit. *)
Inductive greedy (limit : Z) : list T → list (list T) → Prop :=
| greedy_nil : greedy limit [] []
| greedy_last chunk : chunk ≠ [] → length chunk = 1%nat ∨ fits limit chunk → greedy limit chunk [chunk]
| greedy_cut chunk t turns chunks :
    chunk ≠ [] → length chunk = 1%nat ∨ fits limit chunk → ¬ fits limit (chunk ++ [t]) →
    greedy limit (t :: turns) chunks → greedy limit (chunk ++ t :: turns) (chunk :: chunks).

(** The chunks sampled one after the other, up to the first error. *)
Fixpoint flush_each (config : InterCompactionConfig) (chunks : list (list T))
  : M W (result (list LlmCompactionOutput) CompactionSampleError) :=
  match chunks with
  | [] => mret (Ok [])
  | chunk :: chunks =>
      try! output := flush_chunk chunk config in
      try! outputs := flush_each config chunks in
      mret (Ok (output :: outputs))
  end.

Lemma try_assoc {A B C E} (m : M W (result A E)) (f : A → M W (result B E)) (g : B → M W (result C E)) s :
  try_ (try_ m f) g s = try_ m (λ a, try_ (f a) g) s.
Proof.
  unfold try_, mbind, M_bind, mret, M_ret. destruct (m s) as [[[a|e] s']|]; done.
Qed.

Lemma try_ext {A B E} (m : M W (result A E)) (f g : A → M W (result B E)) s :
  (∀ a s, f a s = g a s) → try_ m f s = try_ m g s.
Proof.
  intros Hfg. unfold try_, mbind, M_bind. destruct (m s) as [[[a|e] s']|]; [apply Hfg|done..].
Qed.

Lemma chunk_tokens_app l l' : chunk_tokens (l ++ l') = (chunk_tokens l + chunk_tokens l')%Z.
Proof. unfold chunk_tokens. by rewrite map_app, sum_tokens_app. Qed.

Lemma chunk_tokens_nonneg l : (0 ≤ chunk_tokens l)%Z.
Proof. apply sum_tokens_nonneg, Forall_map, Forall_true. done. Qed.

Lemma chunk_tokens_one t : chunk_tokens [t] = count_item_tokens t.
Proof. unfold chunk_tokens, sum_tokens. cbn. lia. Qed.

(** The running count is the true one wherever it is looked at. *)
Definition counted (limit : Z) chunk (n : Z) : Prop :=
  limit = UNBOUNDED_CHUNK_LIMIT ∨ n = chunk_tokens chunk.

Lemma counted_one limit t : counted limit [t] (wrap32 (0 + count_item_tokens t)).
Proof.
  right. rewrite chunk_tokens_one. destruct (counts_u32 t). unfold wrap32. rewrite Z.mod_small; lia.
Qed.

Lemma counted_more limit chunk t n : (limit ≤ U32_MAX)%Z → counted limit chunk n → fits limit (chunk ++ [t]) →
  counted limit (chunk ++ [t]) (wrap32 (n + count_item_tokens t)).
Proof.
  intros Hl [Hu|Hn] Hf; [by left|]. destruct Hf as [Hf|Hf]; [by left|]. right. subst n.
  rewrite chunk_tokens_app, chunk_tokens_one in *. pose proof (chunk_tokens_nonneg chunk).
  destruct (counts_u32 t). unfold wrap32. rewrite Z.mod_small; lia.
Qed.

Lemma cut_test limit chunk t n : (limit ≤ U32_MAX)%Z → counted limit chunk n →
  negb (limit =? UNBOUNDED_CHUNK_LIMIT)%Z && (limit <? saturating_add32 n (count_item_tokens t))%Z = true
  ↔ ¬ fits limit (chunk ++ [t]).
Proof.
  intros Hl Hn. unfold fits, saturating_add32. rewrite chunk_tokens_app, chunk_tokens_one.
  unfold UNBOUNDED_CHUNK_LIMIT in *. destruct (Z.eqb_spec limit U32_MAX) as [->|Hne]; cbn [negb andb].
  { split; [done|]. intros Hx. exfalso. apply Hx. by left. }
  destruct Hn as [?| -> ]; [done|]. rewrite Z.ltb_lt. lia.
Qed.

(** The walk cuts greedily and samples every chunk. *)
Lemma chunk_loop_greedy config limit turns : (limit ≤ U32_MAX)%Z →
  ∀ t0 chunk n, counted limit (t0 :: chunk) n → length (t0 :: chunk) = 1%nat ∨ fits limit (t0 :: chunk) →
  ∃ chunks, greedy limit ((t0 :: chunk) ++ turns) chunks ∧
    ∀ outputs s, chunk_loop config limit turns (t0 :: chunk) n outputs s
      = try_ (flush_each config chunks) (λ outs, mret (Ok (outputs ++ outs))) s.
Proof.
  intros Hl. induction turns as [|t turns IH]; intros t0 chunk n Hn Hok.
  - exists [t0 :: chunk]. rewrite app_nil_r. split; [by constructor|]. intros outputs s.
    cbn [chunk_loop is_empty flush_each]. rewrite try_assoc. by apply try_ext.
  - cbn [chunk_loop is_empty negb]. rewrite andb_true_l. destruct (_ && _) eqn:Ec.
    + apply (cut_test limit (t0 :: chunk)) in Ec; [|done..].
      destruct (IH t [] (wrap32 (0 + count_item_tokens t))) as (chunks & Hg & E); [apply counted_one|by left|].
      exists ((t0 :: chunk) :: chunks). split; [by constructor|]. intros outputs s. cbn [flush_each].
      rewrite try_assoc. apply try_ext. intros o s1. rewrite E, try_assoc. apply try_ext. intros outs s2.
      rewrite <- app_assoc. done.
    + assert (Hf : fits limit ((t0 :: chunk) ++ [t])).
      { destruct (decide (limit = UNBOUNDED_CHUNK_LIMIT)) as [Hu|Hu]; [by left|].
        destruct (Z.le_decidable (chunk_tokens ((t0 :: chunk) ++ [t])) limit) as [Hle|Hgt]; [by right|].
        exfalso. rewrite (proj2 (cut_test limit (t0 :: chunk) t n Hl Hn)) in Ec; [done|]. by intros [|]. }
      destruct (IH t0 (chunk ++ [t]) (wrap32 (n + count_item_tokens t))) as (chunks & Hg & E);
        [by apply (counted_more _ (t0 :: chunk))|by right|].
      exists chunks. split; [|exact E]. cbn [app] in Hg |- *. by rewrite <- app_assoc in Hg.
Qed.

Lemma chunk_loop_all config limit turns : (limit ≤ U32_MAX)%Z →
  ∃ chunks, greedy limit turns chunks ∧
    ∀ s, chunk_loop config limit turns [] 0 [] s = flush_each config chunks s.
Proof.
  intros Hl. destruct turns as [|t turns].
  - exists []. split; [constructor|done].
  - destruct (chunk_loop_greedy config limit turns Hl t [] (wrap32 (0 + count_item_tokens t)))
      as (chunks & Hg & E); [apply counted_one|by left|].
    exists chunks. split; [exact Hg|]. intros s. cbn [chunk_loop is_empty negb]. rewrite andb_false_l.
    cbn [app]. rewrite E. unfold try_, mbind, M_bind, mret, M_ret. by destruct (flush_each _ _ _) as [[[]?]|].
Qed.

(** The limit of a strategy. *)
Definition limit_of (config : InterCompactionConfig) : Z :=
  match compaction_strategy config with
  | DivideAndConquer => dnc_chunk_token_limit config
  | _ => UNBOUNDED_CHUNK_LIMIT
  end.

(** What a turn leaves for the model: of a former summary, what is beside the
    blocks of queries. *)
Definition beside_queries (turn : T) : list T :=
  if is_compaction_summary turn then
    let rest := (split_prior_compaction_text (default [] (text turn))).2 in
    if is_empty rest then [] else [compaction_summary_item rest]
  else [turn].

Lemma separate_spec turns :
  turns_for_llm (separate_prior_user_queries turns) = concat (map beside_queries turns) ∧
  has_prior_compaction (separate_prior_user_queries turns) = existsb is_compaction_summary turns.
Proof.
  unfold separate_prior_user_queries.
  cut (∀ acc, turns_for_llm (separate_loop turns acc)
      = turns_for_llm acc ++ concat (map beside_queries turns) ∧
    has_prior_compaction (separate_loop turns acc)
      = has_prior_compaction acc || existsb is_compaction_summary turns); [by intros Hc; apply Hc|].
  induction turns as [|t turns IH]; intros acc; cbn [separate_loop map concat existsb].
  { by rewrite app_nil_r, orb_false_r. }
  unfold beside_queries at 1. destruct (is_compaction_summary t).
  - destruct (split_prior_compaction_text _) as [user rest]. cbn [snd].
    destruct (IH (mkSeparated (if negb (is_empty rest) then turns_for_llm acc ++
      [compaction_summary_item rest] else turns_for_llm acc) (match user, prior_user_queries acc with
      | Some user_sec, Some existing => Some (existing ++ [NL] ++ user_sec)
      | Some user_sec, None => Some user_sec | None, prior => prior end) true)) as [-> ->].
    cbn [turns_for_llm has_prior_compaction]. rewrite orb_true_r. split; [|done].
    destruct (is_empty rest); cbn [negb app]; by rewrite <- ?app_assoc.
  - destruct (IH (mkSeparated (turns_for_llm acc ++ [t]) (prior_user_queries acc)
      (has_prior_compaction acc))) as [-> ->].
    cbn [turns_for_llm has_prior_compaction orb]. by rewrite <- app_assoc.
Qed.

(** The chunks sampled one after the other, from the host's state [w], up to
    the first error: the answers or the error, what is observed, and the state
    after it. *)
Inductive sampled (config : InterCompactionConfig) : list (list T) → W →
    result (list LlmCompactionOutput) CompactionSampleError → list CompactionEvent → W → Prop :=
| sampled_all w : sampled config [] w (Ok []) [] w
| sampled_failed chunk chunks w e w' :
    sample_compaction chunk
      (mkPrompt format_compaction_developer_prompt format_compaction_user_prompt)
      (inter_timeout_secs config) w = (Err e, w') →
    sampled config (chunk :: chunks) w (Err e) [OnChunkSampled false] w'
| sampled_one chunk chunks w o w1 r events w2 :
    sample_compaction chunk
      (mkPrompt format_compaction_developer_prompt format_compaction_user_prompt)
      (inter_timeout_secs config) w = (Ok o, w1) →
    sampled config chunks w1 r events w2 →
    sampled config (chunk :: chunks) w
      (match r with Ok outputs => Ok (o :: outputs) | Err e => Err e end)
      (OnChunkSampled true :: events) w2.

Lemma flush_each_sampled config chunks s :
  ∃ r events w', sampled config chunks (world s) r events w' ∧
    flush_each config chunks s = Some (r, mkSys w' (observed s ++ events)).
Proof.
  revert s. induction chunks as [|chunk chunks IH]; intros [w obs].
  { exists (Ok []), [], w. split; [constructor|]. cbn. by rewrite app_nil_r. }
  destruct (sample_compaction chunk
    (mkPrompt format_compaction_developer_prompt format_compaction_user_prompt)
    (inter_timeout_secs config) w) as [ [o|e] w1] eqn:E.
  - destruct (IH (mkSys w1 (obs ++ [OnChunkSampled true]))) as (r & events & w2 & Hs & Ef).
    exists (match r with Ok outputs => Ok (o :: outputs) | Err e => Err e end),
      (OnChunkSampled true :: events), w2.
    split; [by econstructor|]. cbn [flush_each world observed] in *.
    unfold try_, flush_chunk, on_world, observe, mbind, M_bind, mret, M_ret in *. cbn [world].
    rewrite E. cbn [world observed]. rewrite Ef, <- app_assoc. by destruct r.
  - exists (Err e), [OnChunkSampled false], w1. split; [by constructor|].
    cbn [flush_each world observed].
    unfold try_, flush_chunk, on_world, observe, mbind, M_bind, mret, M_ret. cbn [world].
    by rewrite E.
Qed.

(** The text of the answers, numbered from [i]. *)
Fixpoint summaries_text (i : nat) (outputs : list LlmCompactionOutput) : str :=
  match outputs with
  | [] => []
  | o :: outputs =>
      lit "<chunk_summary index=" ++ [QUOTE] ++ fmt_Z (Z.of_nat i) ++ [QUOTE] ++ lit ">" ++ [NL]
      ++ response o ++ [NL] ++ lit "</chunk_summary>" ++ [NL; NL]
      ++ summaries_text (S i) outputs
  end.

(** The text of the thoughts, of those that have any. *)
Fixpoint analyses_text (i : nat) (outputs : list LlmCompactionOutput) : str :=
  match outputs with
  | [] => []
  | o :: outputs =>
      (if is_empty (trim (thinking o)) then []
       else lit "<chunk_analysis index=" ++ [QUOTE] ++ fmt_Z (Z.of_nat i) ++ [QUOTE] ++ lit ">"
            ++ [NL] ++ trim (thinking o) ++ [NL] ++ lit "</chunk_analysis>" ++ [NL; NL])
      ++ analyses_text (S i) outputs
  end.

(** The blocks of the user's former queries, a line each, and the new ones. *)
Definition queries_text (blocks : list str) (current : option str) : str :=
  (if is_empty blocks then [] else join [NL] blocks ++ [NL; NL])
  ++ match current with Some c => c ++ [NL; NL] | None => [] end.

Lemma combine_spec blocks current outputs :
  combine (assemble_user_queries_preamble (joined blocks) current) outputs =
  mkChunked (queries_text blocks current ++ summaries_text 0 outputs) (analyses_text 0 outputs).
Proof.
  unfold combine. f_equal.
  - f_equal.
    + unfold assemble_user_queries_preamble, queries_text, joined. by destruct blocks.
    + assert (∀ i, concat (imap (λ n, chunk_summary (i + n)) outputs) = summaries_text i outputs)
        as Hs; [|exact (Hs 0%nat)].
      induction outputs as [|o outputs IH]; intros i; [done|]. cbn [summaries_text].
      rewrite <- IH, imap_cons. cbn [concat].
      assert (imap ((λ n, chunk_summary (i + n)) ∘ S) outputs
        = imap (λ n, chunk_summary (S i + n)) outputs) as ->.
      { apply imap_ext. intros n x _. unfold compose. by rewrite Nat.add_succ_r. }
      rewrite Nat.add_0_r. unfold chunk_summary at 1, quoted. by rewrite <- !app_assoc.
  - assert (∀ i, concat (imap (λ n o, wrap_chunk_analysis (i + n) (thinking o)) outputs)
      = analyses_text i outputs) as Hs; [|exact (Hs 0%nat)].
    induction outputs as [|o outputs IH]; intros i; [done|]. cbn [analyses_text].
    rewrite <- IH, imap_cons. cbn [concat]. rewrite Nat.add_0_r. f_equal.
    + unfold wrap_chunk_analysis, quoted. cbv zeta. by rewrite <- !app_assoc.
    + f_equal. apply imap_ext. intros n x _. unfold compose. by rewrite Nat.add_succ_r.
Qed.

(** C36: The pass between turns cuts what is left of the turns greedily into
    chunks -- one chunk unless the strategy divides --, asks for a summary of
    each in order and stops at the first error, which it returns.  When all are
    answered its text is the user's former queries, the new ones, and then the
    answers in their order, numbered from zero; the thoughts are kept beside it
    under the same numbers.  Every answer is observed, and at the end whether
    there was a former summary, and how many chunks. *)
Theorem chunked_pass turns current config s :
  compaction_strategy config ≠ FullReplaceStrategy → (dnc_chunk_token_limit config ≤ U32_MAX)%Z →
  filter_turns_for_inter_compaction turns ≠ [] →
  let filtered := filter_turns_for_inter_compaction turns in
  ∃ chunks r events w',
    greedy (limit_of config) (concat (map beside_queries filtered)) chunks ∧
    sampled config chunks (world s) r events w' ∧
    sample_compaction_chunked turns current config s = Some
      match r with
      | Ok outputs =>
          (Ok (mkChunked (queries_text (blocks_in filtered) current ++ summaries_text 0 outputs)
                 (analyses_text 0 outputs)),
           mkSys w' (observed s ++ events
             ++ (if existsb is_compaction_summary filtered
                 then [OnRecompaction (strategy_label (compaction_strategy config))] else [])
             ++ [OnChunkCount (length outputs)]))
      | Err e => (Err e, mkSys w' (observed s ++ events))
      end.
Proof.
  intros Hs Hl Hne filtered. destruct (separate_spec filtered) as [Eturns Ehas].
  destruct (chunk_loop_all config (limit_of config) (concat (map beside_queries filtered)))
    as (chunks & Hg & E). { unfold limit_of. by destruct (compaction_strategy config). }
  destruct (flush_each_sampled config chunks s) as (r & events & w' & Hsam & Ef).
  exists chunks, r, events, w'. split_and!; [done|done|].
  unfold sample_compaction_chunked. fold filtered. rewrite Eturns, Ehas, separate_prior.
  subst filtered. destruct (filter_turns_for_inter_compaction turns) as [|t ts] eqn:Et; [done|].
  cbn [is_empty]. unfold limit_of in E. specialize (E s). rewrite Ef in E.
  destruct (compaction_strategy config); [ | |done]; cbv zeta;
    unfold try_, mbind, M_bind, mret, M_ret, observe; rewrite E; destruct r as [outs|e]; try done;
    rewrite combine_spec; destruct (existsb _ _); cbn [world observed]; by rewrite <- ?app_assoc.
Qed.
End Chunks.

(** ** The engine on the items of this program *)

Section Items.
Context {RS : RsApi}.

(** [impl CompactionItem for ConversationItem]; an item whose text cannot be
    computed reads as one without text. *)
#[global] Instance conversation_compaction_item : CompactionItem ConversationItem := {
  role i :=
    match i with
    | System _ => RoleSystem
    | User _ => RoleUser
    | Assistant _ | BackendToolCall _ | Reasoning _ => RoleAssistant
    | ToolResult _ => RoleTool
    end;
  text i := text ← text_content i; if is_empty text then None else Some text;
  has_tool_requests i :=
    match i with Assistant a => negb (is_empty (a_tool_calls a)) | _ => false end;
  is_compaction_summary _ := false;
  attachment_refs _ := [];
}.

(** A user item that the harness writes. *)
Definition item_synthetic (reason : SyntheticReason) (content : str) : ConversationItem :=
  User {| u_content := [Text content]; u_synthetic_reason := Some reason;
          u_prior_turn_interrupt := None; u_prompt_index := None |}.

#[global] Instance conversation_item_factory : CompactionItemFactory ConversationItem := {
  new_user := item_user;
  new_user_meta := item_synthetic CompactionMeta;
  new_project_instructions := item_synthetic ProjectInstructions;
  new_system_reminder := item_synthetic SystemReminder;
}.

Lemma compaction_tool_result (i : ConversationItem) :
  Compaction.is_tool_result i = Conversation.is_tool_result i.
Proof. by destruct i. Qed.

Lemma select_boundary counts (items : list ConversationItem) target min n t :
  select_turns_to_compact counts items target min = Some (Some (mkPlan n t)) → boundary items n.
Proof.
  unfold select_turns_to_compact. destruct (length items =? 0)%nat; [done|].
  destruct (walk_back _ _ _ _) as [c|]; [|done]. cbn [mbind option_bind]. destruct (c =? 0)%nat; [done|].
  destruct (_ <=? _)%nat; [done|]. destruct (_ <? _)%Z; [done|]. intros [= <- _].
  unfold snap_to_safe_boundary. destruct (Nat.leb_spec (length items) c) as [Hge|Hlt].
  - intros i Hi. apply lookup_lt_Some in Hi. lia.
  - destruct (tool_run_end (drop c items)) as [_ Hb]. unfold boundary in *. by rewrite lookup_drop in Hb.
Qed.

Lemma boundary_starts (items : list ConversationItem) n :
  boundary items n → starts_no_result (drop n items).
Proof.
  intros Hb. destruct (drop n items) as [|i rest] eqn:E; [done|].
  assert (Hi : items !! n = Some i).
  { rewrite <- (Nat.add_0_r n), <- lookup_drop, E. done. }
  specialize (Hb i Hi). rewrite compaction_tool_result in Hb. by destruct i.
Qed.

Lemma run_ids_before (front rest : list ConversationItem) :
  starts_no_result rest → run_ids (front ++ rest) = run_ids front.
Proof.
  intros Hs. induction front as [|[] front IH]; cbn [app run_ids]; try done; [by apply run_ids_stop|].
  by rewrite IH.
Qed.

(** A split of a conversation parts no call from its results: if every
    call is answered and every result is owned, then so they are in the turns
    that are compacted and in the turns that are kept. *)
Theorem split_keeps_pairing counts (items : list ConversationItem) target min n t :
  calls_answered items → results_owned items →
  select_turns_to_compact counts items target min = Some (Some (mkPlan n t)) →
  calls_answered (take n items) ∧ results_owned (take n items) ∧
  calls_answered (drop n items) ∧ results_owned (drop n items).
Proof.
  intros Hca Hro Hsel. apply select_boundary, boundary_starts in Hsel as Hs.
  pose proof (take_drop n items) as Hsplit. set (front := take n items) in *. set (back := drop n items) in *.
  clearbody front back. subst items. split_and!.
  - intros pre a rest -> id Hid. rewrite <- (run_ids_before rest back) by done.
    apply (Hca pre a (rest ++ back)); [by rewrite <- app_assoc|done].
  - intros pre tr rest ->. by apply (Hro pre tr (rest ++ back)); rewrite <- app_assoc.
  - intros pre a rest ->. apply (Hca (front ++ pre)). by rewrite <- app_assoc.
  - intros pre tr rest ->. destruct (Hro (front ++ pre) tr rest) as (pre' & a & mid & E & Hmid & Hin);
      [by rewrite <- app_assoc|].
    apply app_eq_inv in E as [(k & -> & Ek)|(k & -> & Ek)].
    + destruct k as [|x k]; [by exists [], a, mid|]. cbn in Ek. injection Ek as <- ->.
      exfalso. apply Forall_app in Hmid as [_ Hmid]. destruct pre as [|p pre]; [done|].
      inversion Hmid as [|? ? Hp _]; subst. by destruct p.
    + by exists k, a, mid.
Qed.
End Items.

(** ** A concrete host *)

(** The mock items of the tests of [intra_compaction/compact.rs], and a host
    with both views that answers from a script. *)
Module Mock.

Record MockItem : Type := mkItem { m_role : CompactionRole; m_text : str; m_summary : bool }.
Definition user (t : str) : MockItem := mkItem RoleUser t false.
Definition tool (t : str) : MockItem := mkItem RoleTool t false.

#[global] Instance mock_item : CompactionItem MockItem := {
  role := m_role; text i := Some (m_text i); has_tool_requests _ := false;
  is_compaction_summary := m_summary; attachment_refs _ := [] }.
#[global] Instance mock_builder : CompactionItemBuilder MockItem := {
  compaction_summary_item t := mkItem RoleDeveloper t true; strip_tool_content i := Some i }.
#[global] Instance mock_factory : CompactionItemFactory MockItem := {
  new_user := user; new_user_meta := user; new_project_instructions := user; new_system_reminder := user }.
#[global] Instance mock_counter : ItemTokenCounter MockItem :=
  λ i, Z.min (Z.max (Z.of_nat (length (m_text i)) / 4) 1) U32_MAX.

Record MockWorld : Type := mkWorld {
  w_history : list MockItem;
  w_turns : list MockItem;
  w_responses : list (result LlmCompactionOutput CompactionSampleError);
}.

Definition replace_turns (target : CompactionTarget) (n : nat) (turn : MockItem) (w : MockWorld)
  : result unit IntraCompactionError * MockWorld :=
  let short (l : list MockItem) := (length l <? n)%nat in
  match target with
  | Steps =>
      if short (w_turns w) then (Err (InvalidSplit n (length (w_turns w))), w)
      else (Ok tt, mkWorld (w_history w) (turn :: drop n (w_turns w)) (w_responses w))
  | History =>
      if short (w_history w) then (Err (InvalidSplit n (length (w_history w))), w)
      else (Ok tt, mkWorld (turn :: drop n (w_history w)) (w_turns w) (w_responses w))
  | FullReplaceTarget => (Ok tt, mkWorld [] [turn] (w_responses w))
  end.

#[global] Instance mock_host : CompactionHost MockWorld MockItem := {
  sample_compaction _ _ _ w :=
    match w_responses w with
    | [] => (Err (OtherError (lit "no more mock responses")), w)
    | r :: rs => (r, mkWorld (w_history w) (w_turns w) rs)
    end;
  get_accumulated_turns := w_turns;
  get_history_turns := w_history;
  replace_with_compaction := replace_turns;
  sleep_secs _ w := w;
}.

#[global] Instance mock_lawful : LawfulHost MockWorld MockItem.
Proof.
  split.
  - intros turns prompt timeout [h t [|r rs]]; done.
  - done.
  - intros target n turn w. change (replace_with_compaction target n turn w) with (replace_turns target n turn w).
    unfold replace_turns. destruct target.
    + destruct (Nat.ltb_spec (length (w_turns w)) n); [done|]. intros _. by split; [cbn; lia|].
    + destruct (Nat.ltb_spec (length (w_history w)) n); [done|]. intros _. by split; [cbn; lia|].
    + intros _. done.
  - intros target n turn w e. change (replace_with_compaction target n turn w) with (replace_turns target n turn w).
    unfold replace_turns. destruct target.
    + by destruct (length (w_turns w) <? n)%nat.
    + by destruct (length (w_history w) <? n)%nat.
    + done.
Qed.

#[global] Instance mock_lawful_builder : LawfulBuilder MockItem.
Proof. by split. Qed.

Lemma mock_counts_u32 : ∀ t : MockItem, is_u32 (count_item_tokens t).
Proof. intros t. unfold count_item_tokens, mock_counter, is_u32, U32_MAX. lia. Qed.

(** [enabled_policy()] and [trigger()] of the tests. *)
Definition policy (m : IntraCompactionMode) (s : IntraSummarizer) : IntraCompactionConfig :=
  mkIntra true m 85 1 1 (f64_div (f64_of_Z 8) (f64_of_Z 10)) (Some DEFAULT_COMPACTION_MODEL_NAME) 5 2 0
    (lit "intra-v1") s 50 (f64_div (f64_of_Z 3) (f64_of_Z 10)) 3000.
Definition a_trigger : IntraCompactionTrigger := mkTrigger 900 1000 90 5.

(** A text of [n] tokens. *)
Definition words (n : nat) : str := repeat 120%Z (4 * n).
Definition says (t : str) : result LlmCompactionOutput CompactionSampleError := Ok (mkOutput t []).
End Mock.
Import Mock.

Definition steps_world : MockWorld :=
  mkWorld [] [user (words 400); user (words 200); tool (words 200); user (words 300)] [says (words 10)].

Lemma intra_compaction_effect_witness : ∃ res s',
  apply_intra_compaction (policy StepsOnly Legacy) a_trigger None (mkSys steps_world []) = Some (res, s') ∧
  intra_ends (T := MockItem) (policy StepsOnly Legacy) a_trigger None (mkSys steps_world []) s' res ∧
  res = Ok (mkResult 800 10 3 (words 10)) ∧
  w_turns (world s') = [mkItem RoleDeveloper (words 10) true; user (words 300)].
Proof.
  destruct (intra_compaction_effect mock_counts_u32 (policy StepsOnly Legacy) a_trigger None (mkSys steps_world []))
    as (res & s' & E & H). exists res, s'. split; [exact E|]. split; [exact H|].
  vm_compute in E. injection E as <- <-. by vm_compute.
Defined.

Lemma select_least_safe_witness : ∃ r,
  select_turns_to_compact [400; 200; 200; 300]%Z (w_turns steps_world) 500 1 = Some r ∧
  r = Some (mkPlan 3 800) ∧
  planned [400; 200; 200; 300]%Z (w_turns steps_world) 500 1 3 800.
Proof.
  destruct (select_least_safe (w_turns steps_world) 500 1 mock_counts_u32) as (r & E & H); [lia|].
  exists r. change (map count_item_tokens (w_turns steps_world)) with [400; 200; 200; 300]%Z in E, H.
  split; [exact E|]. vm_compute in E. injection E as <-. split; [done|]. by apply (H 3%nat 800%Z).
Defined.



Definition retry_world : MockWorld := mkWorld [] [] [Err (TimeoutError 5 0); says []; says (words 125)].

Lemma full_replace_exact_witness : ∃ n,
  (Z.of_nat n < 3)%Z ∧ n = 2%nat ∧
  let ctx := mkParts (user (lit "system")) (lit "prefix") None (Some (lit "go on")) [] [] None None in
  ∃ s, code_full_replace [user (lit "hello")] None ctx FullReplaceConfig_default (mkSys retry_world []) = Some s ∧
  observed s.2 = [OnAttempt 1 (Failure (sample_error_text (TimeoutError 5 0)) false false true);
                  OnAttempt 2 (EmptyOutcome true); OnAttempt 3 (Success (words 125)); OnSuccess 3 500].
Proof.
  set (ctx := mkParts (user (lit "system")) (lit "prefix") None (Some (lit "go on")) [] [] None None).
  destruct (full_replace_exact [user (lit "hello")] None ctx FullReplaceConfig_default retry_world [])
    as (n & Hn & Hall & Hend & E); [done|]. exists n. split; [exact Hn|].
  assert (n = 2%nat) as ->.
  { clear E Hall. cbn in Hn. destruct n as [|[|[|n]]]; [| |reflexivity|lia];
      destruct Hend as [Hend|Hend]; vm_compute in Hend; discriminate Hend. }
  split; [reflexivity|]. cbv zeta. destruct (full_output ctx _) as [res last] eqn:Eo. vm_compute in Eo.
  injection Eo as <- <-. eexists. split; [exact E|]. by vm_compute.
Defined.

Definition inter_config : InterCompactionConfig := mkInter (lit "grok") 60 DivideAndConquer 500 3000.

Definition inter_turns : list MockItem :=
  [user (words 400); user (words 200); tool (words 9); user (words 300); user (words 600)].
Definition inter_world : Sys MockWorld :=
  mkSys (mkWorld [] [] [says (lit "a"); says (lit "b"); says (lit "c")]) [].

Lemma chunked_pass_witness : ∃ chunks outputs events w',
  greedy 500 [user (words 400); user (words 200); user (words 300); user (words 600)] chunks ∧
  sampled inter_config chunks (world inter_world) (Ok outputs) events w' ∧
  summaries_text 0 outputs =
    summaries_text 0 [mkOutput (lit "a") []; mkOutput (lit "b") []; mkOutput (lit "c") []].
Proof.
  destruct (chunked_pass mock_counts_u32 inter_turns None inter_config inter_world)
    as (chunks & r & events & w' & Hg & Hs & E); [done|done|done|].
  assert (match sample_compaction_chunked inter_turns None inter_config inter_world with
          | Some (Ok c, _) => Some (combined_text c) | _ => None end =
          Some (summaries_text 0 [mkOutput (lit "a") []; mkOutput (lit "b") [];
                                  mkOutput (lit "c") []])) as Et by (vm_compute; reflexivity).
  assert (blocks_in (filter_turns_for_inter_compaction inter_turns) = []) as Eb
    by (vm_compute; reflexivity).
  rewrite E, Eb in Et. destruct r as [outputs|e]; [|discriminate Et].
  exists chunks, outputs, events, w'. split; [exact Hg|]. split; [exact Hs|].
  injection Et as Et. exact Et.
Defined.

Definition paired_items : list ConversationItem :=
  [item_user (words 20);
   item_assistant_tool_calls [{| tc_id := lit "c1"; tc_name := lit "read"; tc_arguments := [] |}];
   item_tool_result (lit "c1") (words 9); item_user (words 3)].

Lemma split_keeps_pairing_witness :
  select_turns_to_compact [20; 5; 9; 3]%Z paired_items 12 1 = Some (Some (mkPlan 3 34)) ∧
  calls_answered (take 3 paired_items) ∧ results_owned (take 3 paired_items) ∧
  calls_answered (drop 3 paired_items) ∧ results_owned (drop 3 paired_items).
Proof.
  split; [reflexivity|]. apply (split_keeps_pairing [20; 5; 9; 3]%Z paired_items 12 1 3 34); [| |reflexivity].
  - intros pre a rest E id Hid. destruct pre as [|p0 [|p1 [|p2 [|p3 [|p4 pre]]]]]; try done.
    injection E as _ <- <-. set_solver.
  - intros pre tr rest E. destruct pre as [|p0 [|p1 [|p2 [|p3 [|p4 pre]]]]]; try done.
    injection E as <- <- <- <-. eexists [item_user (words 20)], _, []. split; [reflexivity|]. split; [constructor|left].
Defined.

(** ** Where code and comments part *)

(** "On any error, parser state is left unchanged": not after the first of two
    passes. *)
Example error_after_applied_history :
  let w := mkWorld [mkItem RoleAssistant (words 400) false; user (words 200); user (words 300)]
                   [user (words 400); user (words 400)] [says (words 10); Err (BuildError [])] in
  ∃ s', apply_intra_compaction (policy HistoryThenSteps Legacy) a_trigger None (mkSys w [])
        = Some (Err (SamplerBuild []), s') ∧
    w_history (world s') ≠ w_history w.
Proof. eexists. split; [vm_compute; reflexivity|]. by vm_compute. Qed.

(** A user's text that closes the block cuts it there: the rest of the queries
    is read as summary. *)
Example query_cuts_block :
  let q := lit "what is " ++ QUERIES_CLOSE ++ lit " for?" in
  ∃ b f, extract_user_queries_from_turns [user q] 3000 = Some b ∧
    final_summary History [user q] None (policy HistoryOnly Shared) (lit "ok") = Some f ∧
    extract_prior_user_queries [compaction_summary_item f : MockItem] ≠ Some b.
Proof. eexists _, _. split; [vm_compute; reflexivity|]. split; [vm_compute; reflexivity|]. by vm_compute. Qed.

(** A text just over the limit grows when it is truncated. *)
Example truncation_can_lengthen :
  ∃ t, truncate_middle (repeat 97%Z 11) 10 = Some t ∧ length t = 27%nat.
Proof. eexists. split; vm_compute; reflexivity. Qed.
