(* ===== verification/SamplingError.v ===== *)
(** * Sampling errors and the retry decision

    The failures of a request to a model and what the sampler does about them:
    [xai-grok-sampling-types/src/error.rs] and [doom_loop.rs], and of
    [xai-grok-sampler/src] the files [doom_loop.rs], [events.rs] (the error
    information of an event) and [retry.rs].

    The errors of [reqwest] and [serde_json] and the reading of JSON are
    parameters.  A [StatusCode] is its number.  A [Duration] is an integer of
    nanoseconds.  The jitter of a backoff is taken from a hash of a counter
    and of the thread: the hash is an argument. *)
From S2P Require Import Prelude RustStr StrSearch.

Class SamplerApi : Type := {
  ReqwestError : Type;
  re_is_timeout : ReqwestError → bool;
  re_is_connect : ReqwestError → bool;
  re_is_status : ReqwestError → bool;
  re_is_request : ReqwestError → bool;
  re_is_body : ReqwestError → bool;
  re_status : ReqwestError → option Z;
  re_url : ReqwestError → option str;
  re_to_string : ReqwestError → str;
  SerdeError : Type;
  se_line : SerdeError → Z;
  se_column : SerdeError → Z;
  se_to_string : SerdeError → str;
  se_custom : str → SerdeError;
  status_to_string : Z → str;
  status_from_u16 : Z → option Z;
  status_is_server_error : Z → bool;
  Value : Type;
  value_from_str : str → option Value;
  value_get : str → Value → option Value;
  value_pointer : str → Value → option Value;
  value_as_str : Value → option str;
  value_as_array : Value → option (list Value);
  error_response_from_str : str → option (option str * option str);
  flat_error_from_str : str → option (str * option str);
  str_from_utf8 : bytes → option str;
}.

(** What is documented of them: an error made from a message shows that
    message, and [from_u16] accepts the three-digit codes and keeps them. *)
Class LawfulSamplerApi `{SamplerApi} : Prop := {
  se_custom_shows : ∀ msg, se_to_string (se_custom msg) = msg;
  from_u16_some : ∀ c, (100 ≤ c ≤ 999)%Z → status_from_u16 c = Some c;
}.

(** [u32] arithmetic *)
Definition u32_add (a b : Z) : Z := ((a + b) mod (U32_MAX + 1))%Z.

Definition fmt_bool (b : bool) : str := if b then lit "true" else lit "false".
Definition COMMA_SPACE : str := Eval vm_compute in lit ", ".

(** ** error.rs *)

Inductive EmptyReason : Type := ReasoningOnly | NoVisibleContent.

Definition empty_reason_as_str (r : EmptyReason) : str :=
  match r with
  | ReasoningOnly => lit "reasoning_only"
  | NoVisibleContent => lit "no_visible_content"
  end.

Record EmptyResponseContext := {
  ec_reason : EmptyReason;
  ec_had_reasoning : bool;
  ec_content_len : Z;
  ec_tool_call_count : nat;
  ec_finish_reason : option str;
  ec_completion_tokens : option Z;
  ec_reasoning_tokens : option Z;
  ec_prompt_tokens : option Z;
  ec_model : str;
  ec_first_choice_seen : bool;
}.

Definition finish_reason_str (c : EmptyResponseContext) : str :=
  default (lit "none") (ec_finish_reason c).

Record ResponseModelMetadata := {
  md_context_window : option Z;
  md_max_completion_tokens : option Z;
  md_models_etag : option str;
}.

Definition SERIALIZATION_DISPLAY_PREFIX : str := Eval vm_compute in lit "serialization error: ".

Definition UNAUTHORIZED : Z := 401.
Definition TOO_MANY_REQUESTS : Z := 429.
Definition PAYLOAD_TOO_LARGE : Z := 413.
Definition BAD_REQUEST : Z := 400.
Definition INTERNAL_SERVER_ERROR : Z := 500.

Definition ENCRYPTED_CONTENT : str := Eval vm_compute in lit "encrypted_content".
Definition COULD_NOT_PROCESS_IMAGE : str := Eval vm_compute in lit "Could not process image".
Definition CONTEXT_LENGTH_TEXTS : list str := Eval vm_compute in
  map lit ["too long for this model"; "prompt is too long"; "maximum prompt length";
           "maximum context length"; "context_length_exceeded"].

(** [is_context_length_error(message)] *)
Definition message_is_context_length_error (message : str) : bool :=
  let m := to_ascii_lowercase message in
  existsb (contains m) CONTEXT_LENGTH_TEXTS.

Section Errors.
Context {SA : SamplerApi}.

Inductive SamplingError : Type :=
| Auth (msg : str)
| InvalidConfiguration (msg : str)
| Http (err : ReqwestError)
| Serialization (err : SerdeError)
| Api (status : Z) (message : str) (model_metadata : option ResponseModelMetadata)
    (retry_after_secs : option Z) (should_retry : option bool)
| EventStreamError (msg : str)
| StreamError (error_type message : str)
| IdleTimeout (elapsed_secs : Z)
| EmptyResponse (context : EmptyResponseContext)
| MaxTokensTruncation
| DoomLoopDetected (triggers : list str) (aborted_at_chunk : option Z).

(** The [Display] of an error *)
Definition to_string (e : SamplingError) : str :=
  match e with
  | Auth m => m
  | InvalidConfiguration m => lit "invalid client configuration: " ++ m
  | Http err => lit "request error: " ++ re_to_string err
  | Serialization err => SERIALIZATION_DISPLAY_PREFIX ++ se_to_string err
  | Api status m _ _ _ =>
      lit "API error (status " ++ status_to_string status ++ lit "): " ++ m
  | EventStreamError m => lit "reqwest error stream: " ++ m
  | StreamError ty m => lit "stream error (" ++ ty ++ lit "): " ++ m
  | IdleTimeout secs =>
      lit "inference idle timeout after " ++ fmt_Z secs ++ lit "s with no chunks"
  | EmptyResponse c =>
      lit "empty response from model (" ++ empty_reason_as_str (ec_reason c) ++ lit ")"
  | MaxTokensTruncation => lit "response truncated by max_tokens"
  | DoomLoopDetected ts _ => lit "doom loop detected: " ++ join COMMA_SPACE ts
  end.

Definition serialization_message (msg : str) : SamplingError := Serialization (se_custom msg).

Definition serialization_from_rendered (rendered : str) : SamplingError :=
  serialization_message
    (default rendered (strip_prefix SERIALIZATION_DISPLAY_PREFIX rendered)).

Definition is_auth_error (e : SamplingError) : bool :=
  match e with
  | Auth _ => true
  | Api status _ _ _ _ => (status =? UNAUTHORIZED)%Z
  | _ => false
  end.

Definition is_rate_limited (e : SamplingError) : bool :=
  match e with Api status _ _ _ _ => (status =? TOO_MANY_REQUESTS)%Z | _ => false end.

Definition is_payload_too_large (e : SamplingError) : bool :=
  match e with Api status _ _ _ _ => (status =? PAYLOAD_TOO_LARGE)%Z | _ => false end.

Definition is_likely_body_rejected (e : SamplingError) : bool :=
  match e with
  | Http err =>
      (re_is_request err || re_is_body err) && negb (re_is_timeout err)
        && negb (re_is_connect err)
  | _ => false
  end.

Definition is_encrypted_content_error (e : SamplingError) : bool :=
  match e with
  | Api status m _ _ _ => (status =? BAD_REQUEST)%Z && contains m ENCRYPTED_CONTENT
  | _ => false
  end.

Definition is_image_processing_error (e : SamplingError) : bool :=
  match e with
  | Api status m _ _ _ =>
      ((status =? 400) || (status =? 500))%Z && contains m COULD_NOT_PROCESS_IMAGE
  | _ => false
  end.

Definition is_retryable_reqwest (err : ReqwestError) : bool :=
  if re_is_timeout err || re_is_connect err then true
  else if re_is_status err then
    match re_status err with
    | Some status => status_is_server_error status || (status =? TOO_MANY_REQUESTS)%Z
    | None => false
    end
  else if re_is_request err || re_is_body err then true
  else false.

Definition RETRYABLE_STATUSES : list Z := [429; 500; 502; 503; 504; 520]%Z.

Definition is_retryable (e : SamplingError) : bool :=
  match e with
  | Auth _ => false
  | InvalidConfiguration _ => false
  | Http err => is_retryable_reqwest err
  | Serialization _ => false
  | Api status _ _ _ _ => existsb (Z.eqb status) RETRYABLE_STATUSES
  | EventStreamError _ => true
  | StreamError _ _ => true
  | IdleTimeout _ => false
  | EmptyResponse _ => true
  | MaxTokensTruncation => false
  | DoomLoopDetected _ _ => true
  end.

Definition model_metadata_of (e : SamplingError) : option ResponseModelMetadata :=
  match e with Api _ _ md _ _ => md | _ => None end.
Definition retry_after (e : SamplingError) : option Z :=
  match e with Api _ _ _ ra _ => ra | _ => None end.
Definition should_retry_header (e : SamplingError) : option bool :=
  match e with Api _ _ _ _ sr => sr | _ => None end.

Definition is_context_length_error (e : SamplingError) : bool :=
  match e with
  | Api _ m _ _ _ => message_is_context_length_error m
  | StreamError _ m => message_is_context_length_error m
  | _ => false
  end.

(** *** Error bodies *)

Definition UNKNOWN : str := Eval vm_compute in lit "unknown".
Definition SERVER_ERROR : str := Eval vm_compute in lit "server_error".

Definition try_parse_error (data : str) : option (str * str) :=
  match error_response_from_str data with
  | Some (message, kind) => Some (default UNKNOWN kind, default (lit "unknown error") message)
  | None =>
      match flat_error_from_str data with
      | Some (error, code) => Some (default SERVER_ERROR code, error)
      | None => None
      end
  end.

Definition parse_error_bytes (bs : bytes) : str :=
  match str_from_utf8 bs ≫= try_parse_error with
  | Some (error_type, message) =>
      if str_eqb error_type UNKNOWN || str_eqb error_type SERVER_ERROR then message
      else error_type ++ lit ": " ++ message
  | None => trim (from_utf8_lossy bs)
  end.

Definition try_parse_stream_error (data : str) : option SamplingError :=
  '(error_type, message) ← try_parse_error data;
  Some (StreamError error_type message).

End Errors.

(** ** doom_loop.rs of the sampling types *)

Definition DOOM_LOOP_CHECK_EVENT_TYPE : str := Eval vm_compute in lit "response.doom_loop_check".
Definition DOOM_LOOP_CHECK : str := Eval vm_compute in lit "doom_loop_check".
Definition THINKING_CHANNEL : str := Eval vm_compute in lit "thinking".
Definition TAIL_REPETITION : str := Eval vm_compute in lit "tail_repetition".
Definition LOW_LOGPROB : str := Eval vm_compute in lit "low_logprob".
Definition AT_SIGN : char := 64.
Definition COLON : char := 58.

Record DoomLoopRecoveryPolicy := { max_threshold : Z; doom_max_retries : Z }.

Definition DEFAULT_MAX_THRESHOLD : Z := 8.
Definition DEFAULT_DOOM_MAX_RETRIES : Z := 2.
Definition clamp (lo hi v : Z) : Z := Z.min hi (Z.max lo v).
Definition clamp_max_threshold (v : Z) : Z := clamp 2 64 v.
Definition clamp_max_retries (v : Z) : Z := clamp 0 5 v.
Definition doom_policy_default : DoomLoopRecoveryPolicy :=
  {| max_threshold := DEFAULT_MAX_THRESHOLD; doom_max_retries := DEFAULT_DOOM_MAX_RETRIES |}.

Inductive DoomLoopSignalKind : Type :=
| TailRepetition (t : Z)
| LowLogprob
| UnknownSignal (head : str).

Record DoomLoopSignal := { sig_kind : DoomLoopSignalKind; sig_channel : str; sig_raw : str }.

Definition is_confident (p : DoomLoopRecoveryPolicy) (s : DoomLoopSignal) : bool :=
  str_eqb (sig_channel s) THINKING_CHANNEL &&
  match sig_kind s with TailRepetition t => (t <=? max_threshold p)%Z | _ => false end.

Definition confident_triggers (p : DoomLoopRecoveryPolicy) (ss : list DoomLoopSignal) : list str :=
  map sig_raw (List.filter (is_confident p) ss).

Definition signal_parse (raw : str) : DoomLoopSignal :=
  let '(head, channel) := match split_once AT_SIGN raw with Some p => p | None => (raw, []) end in
  let kind :=
    match split_once COLON head with
    | Some (label, threshold) =>
        if str_eqb label TAIL_REPETITION then
          match parse_unsigned U32_MAX threshold with
          | Some t => TailRepetition t
          | None => UnknownSignal head
          end
        else UnknownSignal head
    | None => if str_eqb head LOW_LOGPROB then LowLogprob else UnknownSignal head
    end in
  {| sig_kind := kind; sig_channel := channel; sig_raw := raw |}.

(** One turn of the loop of [tightest]: the first label, the best one. *)
Definition tightest_step (acc : option str * option (Z * str)) (raw : str)
  : option str * option (Z * str) :=
  let '(first, best) := acc in
  (match first with None => Some raw | Some _ => first end,
   match sig_kind (signal_parse raw) with
   | TailRepetition t =>
       match best with
       | None => Some (t, raw)
       | Some (bt, _) => if (t <? bt)%Z then Some (t, raw) else best
       end
   | _ => best
   end).

Definition tightest (raws : list str) : option str :=
  let '(first, best) := fold_left tightest_step raws (None, None) in
  match best with Some (_, raw) => Some raw | None => first end.

Inductive DoomLoopPeek : Type :=
| CheckEvent (ss : list DoomLoopSignal)
| ResponseField (ss : list DoomLoopSignal)
| PeekNone.

Section Peek.
Context {SA : SamplerApi}.

Definition parse_triggers (triggers : option Value) : list DoomLoopSignal :=
  default [] (arr ← triggers ≫= value_as_array;
              Some (map signal_parse (omap value_as_str arr))).

Definition has_check_type (v : Value) : bool :=
  match value_get (lit "type") v ≫= value_as_str with
  | Some t => str_eqb t DOOM_LOOP_CHECK_EVENT_TYPE
  | None => false
  end.

Definition peek_doom_loop (data : str) : DoomLoopPeek :=
  if negb (contains data DOOM_LOOP_CHECK) then PeekNone
  else
    match value_from_str data with
    | None => PeekNone
    | Some value =>
        if has_check_type value then
          CheckEvent (parse_triggers (value_pointer (lit "/doom_loop_check/triggers") value))
        else
          match value_pointer (lit "/response/doom_loop_check/triggers") value with
          | Some triggers => ResponseField (parse_triggers (Some triggers))
          | None => PeekNone
          end
    end.

Definition is_check_event (event_name data : str) : bool :=
  if str_eqb event_name DOOM_LOOP_CHECK_EVENT_TYPE then true
  else contains data DOOM_LOOP_CHECK_EVENT_TYPE &&
       match value_from_str data with Some v => has_check_type v | None => false end.

(** ** doom_loop.rs of the sampler: the collector of an attempt *)

Record CollectorState := {
  col_signals : list DoomLoopSignal;
  col_malformed_logged : bool;
  col_policy : DoomLoopRecoveryPolicy;
  col_abort_disarmed : bool;
}.

Definition collector_new (p : DoomLoopRecoveryPolicy) : CollectorState :=
  {| col_signals := []; col_malformed_logged := false; col_policy := p;
     col_abort_disarmed := false |}.

Definition disarm_abort (c : CollectorState) : CollectorState :=
  {| col_signals := col_signals c; col_malformed_logged := col_malformed_logged c;
     col_policy := col_policy c; col_abort_disarmed := true |}.

Definition abort_triggers (c : CollectorState) : option (list str) :=
  if col_abort_disarmed c then None
  else
    let confident := confident_triggers (col_policy c) (col_signals c) in
    if is_empty confident then None else Some confident.

Definition record_signals (ss : list DoomLoopSignal) (c : CollectorState) : CollectorState :=
  {| col_signals :=
       fold_left (λ acc s, if existsb (λ s', str_eqb (sig_raw s') (sig_raw s)) acc then acc
                           else acc ++ [s]) ss (col_signals c);
     col_malformed_logged := col_malformed_logged c; col_policy := col_policy c;
     col_abort_disarmed := col_abort_disarmed c |}.

Definition log_malformed_once (c : CollectorState) : CollectorState :=
  {| col_signals := col_signals c; col_malformed_logged := true; col_policy := col_policy c;
     col_abort_disarmed := col_abort_disarmed c |}.

Definition absorb_signals (ss : list DoomLoopSignal) (c : CollectorState) : CollectorState :=
  if is_empty ss then log_malformed_once c else record_signals ss c.

(** Whether the frame is swallowed, and the collector after it. *)
Definition absorb (event_name data : str) (c : CollectorState) : CollectorState * bool :=
  let named := str_eqb event_name DOOM_LOOP_CHECK_EVENT_TYPE in
  match peek_doom_loop data with
  | CheckEvent ss => (absorb_signals ss c, true)
  | ResponseField ss => (absorb_signals ss c, named)
  | PeekNone => (if named then log_malformed_once c else c, named)
  end.

(** [take]: the signals, and the drained collector. *)
Definition collector_take (c : CollectorState) : CollectorState * list DoomLoopSignal :=
  ({| col_signals := []; col_malformed_logged := col_malformed_logged c;
      col_policy := col_policy c; col_abort_disarmed := col_abort_disarmed c |}, col_signals c).

End Peek.

(** ** events.rs: the error information of an event *)

Inductive SamplingErrorKind : Type :=
| KAuth | KHttp | KApi | KSerialization | KIdleTimeout | KRateLimited | KEmptyResponse
| KMaxTokensTruncation | KDoomLoopDetected.

Definition error_kind_as_str (k : SamplingErrorKind) : str :=
  match k with
  | KAuth => lit "auth"
  | KHttp => lit "http"
  | KApi => lit "api"
  | KSerialization => lit "serialization"
  | KIdleTimeout => lit "idle_timeout"
  | KRateLimited => lit "rate_limited"
  | KEmptyResponse => lit "empty_response"
  | KMaxTokensTruncation => lit "max_tokens_truncation"
  | KDoomLoopDetected => lit "doom_loop_detected"
  end.

Record SamplingErrorInfo := {
  in_kind : SamplingErrorKind;
  in_status_code : option Z;
  in_message : str;
  in_is_retryable : bool;
  in_retry_after_secs : option Z;
  in_model_metadata : option ResponseModelMetadata;
  in_empty_response_context : option EmptyResponseContext;
  in_doom_loop_triggers : option (list str);
  in_doom_loop_aborted_at_chunk : option Z;
}.

Section Info.
Context {SA : SamplerApi}.

Definition kind_of (e : SamplingError) : SamplingErrorKind :=
  match e with
  | Auth _ => KAuth
  | InvalidConfiguration _ => KApi
  | Http _ => KHttp
  | Serialization _ => KSerialization
  | Api _ _ _ _ _ => if is_rate_limited e then KRateLimited else KApi
  | EventStreamError _ => KHttp
  | StreamError _ _ => KApi
  | IdleTimeout _ => KIdleTimeout
  | EmptyResponse _ => KEmptyResponse
  | MaxTokensTruncation => KMaxTokensTruncation
  | DoomLoopDetected _ _ => KDoomLoopDetected
  end.

(** [SamplingErrorInfo::from] *)
Definition info_of (e : SamplingError) : SamplingErrorInfo :=
  {| in_kind := kind_of e;
     in_status_code := match e with Api status _ _ _ _ => Some status | _ => None end;
     in_message := to_string e;
     in_is_retryable := is_retryable e;
     in_retry_after_secs := match e with Api _ _ _ ra _ => ra | _ => None end;
     in_model_metadata := match e with Api _ _ md _ _ => md | _ => None end;
     in_empty_response_context := match e with EmptyResponse c => Some c | _ => None end;
     in_doom_loop_triggers := match e with DoomLoopDetected ts _ => Some ts | _ => None end;
     in_doom_loop_aborted_at_chunk :=
       match e with DoomLoopDetected _ chunk => chunk | _ => None end |}.

(** ** retry.rs *)

Definition RATE_LIMIT_RETRY_THRESHOLD : Z := 2.
Definition DEFAULT_MAX_RETRIES : Z := 15.

Definition resolve_max_retries_with_env (env_override : option str) (model_max_retries : option Z)
  : Z :=
  match env_override ≫= parse_unsigned U32_MAX with
  | Some n => n
  | None => default DEFAULT_MAX_RETRIES model_max_retries
  end.

Definition NANOS_PER_MILLI : Z := 1000000.
Definition NANOS_PER_SEC : Z := 1000000000.
Definition from_millis (ms : Z) : Z := (ms * NANOS_PER_MILLI)%Z.
Definition from_secs (s : Z) : Z := (s * NANOS_PER_SEC)%Z.

(** [finish] of the hasher is a [u64]. *)
Definition doom_loop_backoff (finish : Z) : Z := from_millis (finish mod 251).

(** [2000u64.checked_shl(shift)]: the bits that leave the word are lost. *)
Definition checked_shl (a shift : Z) : option Z :=
  if (shift <? 64)%Z then Some (wrap64 (Z.shiftl a shift)) else None.

Definition base_ms (retry_count : Z) : Z :=
  let shift := saturating_sub retry_count 1 in
  Z.min (default U64_MAX (checked_shl 2000 shift)) 30000.

Definition retry_backoff_with_jitter (finish retry_count : Z) : Z :=
  let base := base_ms retry_count in
  let jitter_range := (base / 5)%Z in
  let jitter := (finish mod (jitter_range * 2 + 1))%Z in
  from_millis (base - jitter_range + jitter).

Inductive RetryDecision : Type :=
| Retry (backoff : Z)
| RetryWithBackoff (backoff : Z) (rate_limited : bool)
| RetryWithImageStrip
| RetryWithClientRebuild (backoff : Z)
| EmitToSession (e : SamplingError)
| Fatal (e : SamplingError).

Definition clone_error (e : SamplingError) : SamplingError :=
  match e with
  | Http err => EventStreamError (re_to_string err)
  | Serialization err => serialization_message (se_to_string err)
  | _ => e
  end.

Definition backoff_of (finish : Z) (e : SamplingError) (next_attempt : Z) : Z :=
  match retry_after e with
  | Some secs => from_secs secs
  | None => retry_backoff_with_jitter finish next_attempt
  end.

Definition is_doom_loop (e : SamplingError) : bool :=
  match e with DoomLoopDetected _ _ => true | _ => false end.

Definition classify_error (finish : Z) (e : SamplingError)
    (retry_count max_retries rate_limit_threshold : Z) : RetryDecision :=
  if is_auth_error e then EmitToSession (clone_error e)
  else if is_encrypted_content_error e then EmitToSession (clone_error e)
  else if is_payload_too_large e then RetryWithImageStrip
  else if is_image_processing_error e then RetryWithImageStrip
  else if bool_decide (should_retry_header e = Some false) then Fatal (clone_error e)
  else if is_context_length_error e then Fatal (clone_error e)
  else if is_doom_loop e then Retry (doom_loop_backoff finish)
  else if is_rate_limited e then
    let next_attempt := u32_add retry_count 1 in
    let effective_cap := Z.min max_retries rate_limit_threshold in
    if (effective_cap <=? next_attempt)%Z then Fatal (clone_error e)
    else RetryWithBackoff (backoff_of finish e next_attempt) true
  else if is_retryable e then
    let next_attempt := u32_add retry_count 1 in
    if (max_retries <=? next_attempt)%Z then Fatal (clone_error e)
    else
      let backoff := backoff_of finish e next_attempt in
      if (next_attempt =? 1)%Z then RetryWithClientRebuild backoff else Retry backoff
  else Fatal (clone_error e).

(** *** The text shown for an error *)

Definition status_hint (status : Z) : str :=
  (if status =? 400 then lit " (bad request - check your input)"
   else if (status =? 401) || (status =? 403) then
     lit " (authentication issue - check your API key)"
   else if status =? 404 then lit " (endpoint not found - check model configuration)"
   else if status =? 413 then
     lit " (request too large - try /compact or start new session)"
   else if status =? 429 then lit " (rate limited - please wait and retry)"
   else if status =? 500 then lit " (server internal error)"
   else if (status =? 502) || (status =? 503) || (status =? 504) then
     lit " (server unavailable - please retry)"
   else [])%Z.

Definition http_details (err : ReqwestError) : list str :=
  (if re_is_timeout err then [lit "timeout"] else []) ++
  (if re_is_connect err then [lit "connection failed"] else []) ++
  match re_status err with Some s => [lit "status " ++ status_to_string s] | None => [] end ++
  match re_url err with Some u => [lit "url: " ++ u] | None => [] end.

Definition format_sampling_error (e : SamplingError) (retry_count : option Z) : str :=
  let retry_prefix :=
    match retry_count with
    | Some count => lit "Request failed after " ++ fmt_Z count ++ lit " retries. "
    | None => []
    end in
  retry_prefix ++
  match e with
  | Auth msg =>
      lit "Authentication failed: " ++ msg ++ lit ". Please check your API key configuration."
  | InvalidConfiguration msg =>
      lit "Invalid configuration: " ++ msg ++ lit ". Please check your model settings."
  | Http err =>
      let details := http_details err in
      let detail_str :=
        if is_empty details then re_to_string err
        else re_to_string err ++ lit " (" ++ join COMMA_SPACE details ++ lit ")" in
      lit "HTTP request failed: " ++ detail_str ++
      lit ". This may be a network issue or the API endpoint may be unavailable."
  | Serialization err =>
      lit "Failed to parse API response at line " ++ fmt_Z (se_line err) ++ lit " column " ++
      fmt_Z (se_column err) ++ lit ": " ++ se_to_string err ++
      lit ". This indicates an unexpected response format from the server."
  | Api status message _ _ _ =>
      lit "API error (HTTP " ++ fmt_Z status ++ status_hint status ++ lit "): " ++ message
  | EventStreamError msg =>
      lit "Event stream error: " ++ msg ++ lit ". The connection to the server was interrupted."
  | StreamError error_type message =>
      lit "Server stream error (" ++ error_type ++ lit "): " ++ message ++
      lit ". The server encountered an error while streaming the response."
  | IdleTimeout secs =>
      lit "Model stopped responding after " ++ fmt_Z secs ++
      lit "s. The model may be overloaded or stuck. Try again or use a different model."
  | EmptyResponse c =>
      lit "Empty response from model (" ++ empty_reason_as_str (ec_reason c) ++ lit "): model=" ++
      ec_model c ++ lit ", had_reasoning=" ++ fmt_bool (ec_had_reasoning c) ++
      lit ", finish_reason=" ++ finish_reason_str c ++ lit ", completion_tokens=" ++
      fmt_Z (default 0%Z (ec_completion_tokens c))
  | MaxTokensTruncation => lit "Response truncated by max_tokens."
  | DoomLoopDetected ts _ =>
      lit "Server detected a reasoning loop (" ++ join COMMA_SPACE ts ++
      lit "); resampling the response."
  end.

End Info.
