(* ===== verification/SamplerStream.v ===== *)
(** * Streams of the sampler: data

    What passes through the sampler's streams: [ConversationResponse] and the
    conversion of a response to conversation items
    ([xai-grok-sampling-types/src/conversation.rs]), chunks, messages events
    ([types.rs], [messages.rs]), the sampler's events and latency metrics
    ([xai-grok-sampler/src/events.rs], [metrics.rs], [stream/collect.rs]) and
    the frames of the HTTP stream with their decoding ([client.rs]).

    Instants and durations are integers of nanoseconds. *)
From S2P Require Import Prelude RustStr F64 StrSearch TokenEstimation Conversation Sampling SamplingError.

(** ** Responses API payloads

    The variants and fields of [async_openai] that the sources read. *)

Inductive RsStatus : Type := StatusCompleted | StatusIncomplete | StatusOther.
Inductive RsEffort : Type :=
| RsEffortNone | RsEffortMinimal | RsEffortLow | RsEffortMedium | RsEffortHigh | RsEffortXhigh.
Inductive OutputMessageContent : Type := OutputText (text : str) | OutputRefusal.

Record RsUsage := {
  ru_input_tokens : Z;
  ru_output_tokens : Z;
  ru_total_tokens : Z;
  ru_reasoning_tokens : Z;
  ru_cached_tokens : Z;
}.

Section Payloads.
Context {RS : RsApi}.

Inductive OutputItem : Type :=
| OutMessage (content : list OutputMessageContent)
| OutFunctionCall (call_id name arguments : str)
| OutReasoning (r : ReasoningItem)
| OutWebSearchCall (ws : WebSearchToolCall)
| OutCustomToolCall (ct : CustomToolCall)
| OutCodeInterpreterCall (ci : CodeInterpreterToolCall)
| OutMcpCall
| OutOther.

Record RsResponse := {
  rr_model : str;
  rr_metadata : option (gmap str str);
  rr_effort : option RsEffort;
  rr_output : list OutputItem;
  rr_usage : option RsUsage;
  rr_status : RsStatus;
  rr_error : option (str * str);
}.

Inductive ResponseStreamEvent : Type :=
| ResponseCreated | ResponseInProgress | ResponseQueued
| ResponseOutputTextDelta (delta : str) | ResponseOutputTextDone (text : str)
| ResponseRefusalDelta (delta : str) | ResponseRefusalDone (refusal : str)
| ResponseFunctionCallArgumentsDelta (output_index : Z) (delta : str)
| ResponseFunctionCallArgumentsDone (arguments : str) (name : option str)
| ResponseReasoningSummaryTextDelta (delta : str) | ResponseReasoningSummaryTextDone (text : str)
| ResponseReasoningTextDelta (delta : str) | ResponseReasoningTextDone (text : str)
| ResponseMCPCallArgumentsDelta (delta : str) | ResponseMCPCallArgumentsDone (arguments : str)
| ResponseCodeInterpreterCallCodeDelta (delta : str)
| ResponseCodeInterpreterCallCodeDone (code : str)
| ResponseCustomToolCallInputDelta (delta : str)
| ResponseCustomToolCallInputDone (item_id input : str)
| ResponseCompleted (r : RsResponse) | ResponseFailed (r : RsResponse)
| ResponseIncomplete (r : RsResponse)
| ResponseOutputItemAdded (output_index : Z) (item : OutputItem)
| ResponseOutputItemDone (item : OutputItem)
| ResponseContentPartAdded | ResponseContentPartDone
| ResponseFileSearchCallInProgress | ResponseFileSearchCallSearching
| ResponseFileSearchCallCompleted
| ResponseWebSearchCallInProgress (item_id : str) | ResponseWebSearchCallSearching
| ResponseWebSearchCallCompleted
| ResponseReasoningSummaryPartAdded | ResponseReasoningSummaryPartDone
| ResponseImageGenerationCallCompleted | ResponseImageGenerationCallGenerating
| ResponseImageGenerationCallInProgress | ResponseImageGenerationCallPartialImage
| ResponseMCPCallCompleted | ResponseMCPCallFailed | ResponseMCPCallInProgress
| ResponseMCPListToolsCompleted | ResponseMCPListToolsFailed | ResponseMCPListToolsInProgress
| ResponseCodeInterpreterCallInProgress | ResponseCodeInterpreterCallInterpreting
| ResponseCodeInterpreterCallCompleted
| ResponseOutputTextAnnotationAdded
| ResponseError (code : option str) (message : str).

(** Making and extending a [rs::ReasoningItem] (its [id] empty, its [content]
    and [status] [None]), and the identifiers and JSON of backend calls. *)
Class StreamApi : Type := {
  mk_reasoning : list str → option str → ReasoningItem;
  push_summary : ReasoningItem → str → ReasoningItem;
  ws_id : WebSearchToolCall → str;
  ct_id : CustomToolCall → str;
  ws_to_value : WebSearchToolCall → option JsonValue;
  ct_to_value : CustomToolCall → option JsonValue;
}.

Class LawfulStreamApi `{StreamApi} : Prop := {
  mk_summary : ∀ s e, ri_summary (mk_reasoning s e) = s;
  mk_content : ∀ s e, ri_content (mk_reasoning s e) = None;
  mk_encrypted : ∀ s e, ri_encrypted_content (mk_reasoning s e) = e;
  push_summary_summary : ∀ r t, ri_summary (push_summary r t) = ri_summary r ++ [t];
}.

(** ** conversation.rs *)

Inductive StopReason : Type := StopStop | StopLength | StopToolCalls | StopContentFilter.

Definition stop_reason_as_str (s : StopReason) : str :=
  match s with
  | StopStop => lit "stop"
  | StopLength => lit "length"
  | StopToolCalls => lit "tool_calls"
  | StopContentFilter => lit "content_filter"
  end.
#[export] Instance StopReason_eq_dec : EqDecision StopReason.
Proof. solve_decision. Defined.

Inductive FinishReason : Type :=
| FinishStop | FinishLength | FinishToolCalls | FinishContentFilter | FinishFunctionCall.

Definition stop_of_finish (fr : FinishReason) : StopReason :=
  match fr with
  | FinishStop => StopStop
  | FinishLength => StopLength
  | FinishToolCalls | FinishFunctionCall => StopToolCalls
  | FinishContentFilter => StopContentFilter
  end.

Record ConversationResponse := {
  cr_items : list ConversationItem;
  cr_stop_reason : option StopReason;
  cr_usage : option TokenUsage;
  cr_cost_usd_ticks : option Z;
  cr_message_chunks_emitted : Z;
  cr_doom_loop_signals : list DoomLoopSignal;
  cr_stop_message : option str;
}.

Definition as_assistant (i : ConversationItem) : option AssistantItem :=
  match i with Assistant a => Some a | _ => None end.
Definition as_reasoning (i : ConversationItem) : option ReasoningItem :=
  match i with Reasoning r => Some r | _ => None end.

Definition assistant (r : ConversationResponse) : option AssistantItem :=
  head (omap as_assistant (rev (cr_items r))).

Definition assistant_text (r : ConversationResponse) : str :=
  default [] (a_content <$> assistant r).

Definition reasoning_items (r : ConversationResponse) : list ReasoningItem :=
  omap as_reasoning (cr_items r).

Definition backend_tool_items (r : ConversationResponse) : list ConversationItem :=
  List.filter (λ i, match i with BackendToolCall _ => true | _ => false end) (cr_items r).

Definition is_some {A} (o : option A) : bool := match o with Some _ => true | None => false end.

Definition reasoning_present (r : ReasoningItem) : bool :=
  negb (is_empty (ri_summary r)) || is_some (ri_content r) || is_some (ri_encrypted_content r).

Definition empty_reason (r : ConversationResponse) : option EmptyReason :=
  match assistant r with
  | None => Some NoVisibleContent
  | Some a =>
      if negb (is_empty (a_content a)) || negb (is_empty (a_tool_calls a)) then None
      else if existsb reasoning_present (reasoning_items r) then Some ReasoningOnly
      else Some NoVisibleContent
  end.

Definition synthesized_reasoning_item `{StreamApi} (text : str) : ReasoningItem :=
  mk_reasoning [text] None.

Definition reasoning_has_text (i : ConversationItem) : bool :=
  match i with Reasoning r => existsb (λ t, negb (is_empty t)) (ri_summary r) | _ => false end.
Definition is_reasoning (i : ConversationItem) : bool :=
  match i with Reasoning _ => true | _ => false end.
Definition is_assistant (i : ConversationItem) : bool :=
  match i with Assistant _ => true | _ => false end.

Fixpoint push_to_first_reasoning `{StreamApi} (text : str) (its : list ConversationItem)
  : list ConversationItem :=
  match its with
  | [] => []
  | Reasoning r :: its' => Reasoning (push_summary r text) :: its'
  | i :: its' => i :: push_to_first_reasoning text its'
  end.

(** [rposition(..).unwrap_or(len)] *)
Fixpoint rposition (p : ConversationItem → bool) (its : list ConversationItem) : option nat :=
  match its with
  | [] => None
  | i :: its' =>
      match rposition p its' with
      | Some n => Some (S n)
      | None => if p i then Some 0%nat else None
      end
  end.

Definition inject_streaming_reasoning_fallback `{StreamApi} (its : list ConversationItem)
    (text : str) : list ConversationItem :=
  if is_empty text then its
  else if existsb reasoning_has_text its then its
  else if existsb is_reasoning its then push_to_first_reasoning text its
  else
    let pos := default (length its) (rposition is_assistant its) in
    take pos its ++ Reasoning (synthesized_reasoning_item text) :: drop pos its.

Definition from_responses_api (e : RsEffort) : ReasoningEffort :=
  match e with
  | RsEffortNone => EffortNone
  | RsEffortMinimal => EffortMinimal
  | RsEffortLow => EffortLow
  | RsEffortMedium => EffortMedium
  | RsEffortHigh => EffortHigh
  | RsEffortXhigh => EffortXhigh
  end.

(** [content] and a newline before it, unless it is empty, and [text]. *)
Definition push_line (content text : str) : str :=
  (if is_empty content then content else content ++ [NL]) ++ text.

Definition push_content_part (content : str) (p : OutputMessageContent) : str :=
  match p with OutputText t => push_line content t | OutputRefusal => content end.

Definition output_step (acc : list ConversationItem * str * list ToolCall) (o : OutputItem)
  : list ConversationItem * str * list ToolCall :=
  let '(its, content, calls) := acc in
  match o with
  | OutMessage parts => (its, fold_left push_content_part parts content, calls)
  | OutFunctionCall call_id name arguments =>
      (its, content, calls ++ [{| tc_id := call_id; tc_name := name; tc_arguments := arguments |}])
  | OutReasoning r => (its ++ [Reasoning r], content, calls)
  | OutWebSearchCall ws => (its ++ [BackendToolCall {| bt_kind := WebSearch ws |}], content, calls)
  | OutCustomToolCall ct => (its ++ [BackendToolCall {| bt_kind := XSearch ct |}], content, calls)
  | OutCodeInterpreterCall ci =>
      (its ++ [BackendToolCall {| bt_kind := CodeInterpreter ci |}], content, calls)
  | OutMcpCall | OutOther => acc
  end.

Definition nonempty_str (s : str) : option str := if is_empty s then None else Some s.

Definition response_to_conversation_items (response : RsResponse) : list ConversationItem :=
  let fingerprint :=
    (m ← rr_metadata response; (m : gmap str str) !! lit "system_fingerprint") ≫= nonempty_str in
  let effort := from_responses_api <$> rr_effort response in
  let '(its, content, calls) := fold_left output_step (rr_output response) ([], [], []) in
  its ++ [Assistant {| a_content := content; a_tool_calls := calls;
                       a_model_id := Some (rr_model response);
                       a_model_fingerprint := fingerprint; a_reasoning_effort := effort |}].

(** ** types.rs: chunks of the Chat Completions API *)

Record Usage := {
  u_prompt_tokens : Z;
  u_completion_tokens : Z;
  u_total_tokens : Z;
  u_cached_tokens : option Z;
  u_reasoning_tokens : option Z;
  u_cost_in_usd_ticks : option Z;
}.

Definition token_usage_of (u : Usage) : TokenUsage :=
  {| prompt_tokens := u_prompt_tokens u; completion_tokens := u_completion_tokens u;
     usage_total_tokens := u_total_tokens u;
     reasoning_tokens := default 0%Z (u_reasoning_tokens u);
     cached_prompt_tokens := default 0%Z (u_cached_tokens u) |}.

Record ToolCallFunctionDelta := { fd_name : option str; fd_arguments : option str }.
Record ToolCallDelta := {
  cd_index : Z;
  cd_id : option str;
  cd_function : option ToolCallFunctionDelta;
}.
Record ChatChunkDelta := {
  dl_content : option str;
  dl_reasoning_content : option str;
  dl_tool_calls : list ToolCallDelta;
}.
Record ChatChunkChoice := {
  ch_delta : ChatChunkDelta;
  ch_finish_reason : option FinishReason;
}.
Record ChatCompletionChunk := {
  ck_model : str;
  ck_choices : list ChatChunkChoice;
  ck_usage : option Usage;
  ck_system_fingerprint : option str;
}.

(** ** messages.rs: events of the Messages API *)

Inductive MessagesStopReason : Type :=
| EndTurn | MaxTokens | ToolUseStop | StopSequence | Refusal | PauseTurn
| ModelContextWindowExceeded | UnknownStop (wire : str).

Record MessagesUsage := {
  mu_input_tokens : Z;
  mu_output_tokens : Z;
  mu_cache_creation_input_tokens : Z;
  mu_cache_read_input_tokens : Z;
}.
Record StopDetails := { sd_explanation : option str }.
Record MessageDeltaBody := {
  mb_stop_reason : option MessagesStopReason;
  mb_stop_details : option StopDetails;
}.
Record MessageDeltaUsage := {
  mdu_output_tokens : Z;
  mdu_input_tokens : option Z;
  mdu_cache_read_input_tokens : option Z;
  mdu_cache_creation_input_tokens : option Z;
}.
Record CacheControl := { cc_type : str }.
Inductive ImageSource : Type :=
| SourceBase64 (media_type data : str)
| SourceUrl (url : str).
Inductive ContentBlock : Type :=
| BlockText (text : str) (cache_control : option CacheControl)
| BlockImage (source : ImageSource)
| BlockToolUse (id name : str) (input : JsonValue)
| BlockToolResult (tool_use_id : str) (content : ToolResultContent)
    (cache_control : option CacheControl)
| BlockThinking (thinking signature : str)
with ToolResultContent : Type :=
| ToolResultText (text : str)
| ToolResultBlocks (blocks : list ContentBlock).
Record MessagesResponse := {
  mr_content : list ContentBlock;
  mr_model : str;
  mr_usage : MessagesUsage;
}.
Inductive StreamDelta : Type :=
| TextDelta (text : str)
| InputJsonDelta (partial_json : str)
| ThinkingDelta (thinking : str)
| SignatureDelta (signature : str).
Inductive MessageStreamEvent : Type :=
| MessageStart (message : MessagesResponse)
| MessageDelta (delta : MessageDeltaBody) (usage : MessageDeltaUsage)
| MessageStop
| ContentBlockStart (index : Z) (content_block : ContentBlock)
| ContentBlockDelta (index : Z) (delta : StreamDelta)
| ContentBlockStop (index : Z)
| Ping
| MessageError (error_type message : str).

(** ** metrics.rs *)

Record InferenceLatencyStats := {
  st_time_to_first_token_ms : option Z;
  st_time_to_last_byte_ms : Z;
  st_chunk_count : Z;
  st_itl_intervals_ms : list Z;
  st_itl_p50_ms : option Z;
  st_itl_p99_ms : option Z;
  st_itl_max_ms : option Z;
  st_itl_mean_ms : option Z;
  st_attempts : Z;
}.

Definition duration_since (t earlier : Z) : Z := Z.max 0 (t - earlier).
Definition as_millis_u64 (d : Z) : Z := wrap64 (d / NANOS_PER_MILLI).
Definition as_secs (d : Z) : Z := (d / NANOS_PER_SEC)%Z.

Definition f64_0_99 : f64 := Eval vm_compute in f64_div (f64_of_Z 99) (f64_of_Z 100).

Definition p99_index (len : nat) : nat :=
  let up := f64_ceil_as U64_MAX (f64_mul (f64_of_Z (Z.of_nat len)) f64_0_99) in
  Nat.min (Z.to_nat (saturating_sub up 1)) (len - 1).

(** [None] is the panic on an empty slice. *)
Definition compute_percentiles (sorted : list Z) : option (Z * Z * Z * Z * Z) :=
  let len := length sorted in
  p50 ← sorted !! (len / 2)%nat;
  p99 ← sorted !! p99_index len;
  mx ← sorted !! (len - 1)%nat;
  let sum := fold_left wrapping_add sorted 0%Z in
  Some (p50, p99, mx, (sum / Z.of_nat len)%Z, sum).

(** [windows(2)] with the time between the two. *)
Fixpoint intervals_ms (ts : list Z) : list Z :=
  match ts with
  | a :: (b :: _) as rest => as_millis_u64 (duration_since b a) :: intervals_ms rest
  | _ => []
  end.

Definition from_timestamps (stream_start : Z) (chunk_timestamps : list Z) (stream_end : Z)
  : InferenceLatencyStats :=
  let ttlb := as_millis_u64 (duration_since stream_end stream_start) in
  match chunk_timestamps with
  | [] =>
      {| st_time_to_first_token_ms := None; st_time_to_last_byte_ms := ttlb; st_chunk_count := 0;
         st_itl_intervals_ms := []; st_itl_p50_ms := None; st_itl_p99_ms := None;
         st_itl_max_ms := None; st_itl_mean_ms := None; st_attempts := 0 |}
  | first :: _ =>
      let intervals := intervals_ms chunk_timestamps in
      let p := compute_percentiles (sort_by_key id intervals) in
      {| st_time_to_first_token_ms := Some (as_millis_u64 (duration_since first stream_start));
         st_time_to_last_byte_ms := ttlb;
         st_chunk_count := Z.min (Z.of_nat (length chunk_timestamps)) U32_MAX;
         st_itl_intervals_ms := intervals;
         st_itl_p50_ms := (λ q, q.1.1.1.1) <$> p; st_itl_p99_ms := (λ q, q.1.1.1.2) <$> p;
         st_itl_max_ms := (λ q, q.1.1.2) <$> p; st_itl_mean_ms := (λ q, q.1.2) <$> p;
         st_attempts := 0 |}
  end.

(** ** events.rs *)

Inductive SamplingChannel : Type := ChannelText | ChannelReasoning.

Context {SA : SamplerApi}.

Inductive SamplingEvent : Type :=
| StreamStarted (request_id : str) (timestamp_ms : Z)
| FirstToken (request_id : str)
| ChannelToken (request_id : str) (channel : SamplingChannel) (text : str) (chunk_index : Z)
| ToolCallDeltaEvent (request_id : str) (tool_index : Z) (id name arguments_delta : option str)
| Completed (request_id : str) (response : ConversationResponse) (metrics : InferenceLatencyStats)
| Retrying (request_id : str) (attempt max_retries : Z) (kind : SamplingErrorKind) (reason : str)
    (doom_loop_triggers : option (list str)) (doom_loop_aborted_at_chunk : option Z)
| Failed (request_id : str) (error : SamplingErrorInfo)
| ModelMetadata (request_id : str) (metadata : ResponseModelMetadata)
| BackendToolCallStarted (request_id call_id name : str)
| BackendToolCallCompleted (request_id call_id name : str) (value : option JsonValue).

Definition is_terminal (e : SamplingEvent) : bool :=
  match e with Completed _ _ _ | Failed _ _ => true | _ => false end.

(** [stream/collect.rs] *)
Definition truncated_info : SamplingErrorInfo :=
  {| in_kind := KApi; in_status_code := None;
     in_message := lit "stream ended without Completed or Failed"; in_is_retryable := false;
     in_retry_after_secs := None; in_model_metadata := None; in_empty_response_context := None;
     in_doom_loop_triggers := None; in_doom_loop_aborted_at_chunk := None |}.

Fixpoint collect_response (evs : list SamplingEvent)
  : result (ConversationResponse * InferenceLatencyStats) SamplingErrorInfo :=
  match evs with
  | [] => Err truncated_info
  | Completed _ response metrics :: _ => Ok (response, metrics)
  | Failed _ error :: _ => Err error
  | _ :: evs' => collect_response evs'
  end.

(** ** client.rs: decoding the frames of the HTTP stream

    A frame is an SSE event with its name and data, or the text of a
    transport error.  A decoded item carries the collector of doom-loop
    signals as it is when the item is taken. *)

Record RawStream (A : Type) := {
  raw_items : list (Z * option CollectorState * result A SamplingError);
  raw_end : option (Z * option CollectorState);
}.
Arguments raw_items {A}. Arguments raw_end {A}. Arguments Build_RawStream {A}.

Record SseStream := { sse_frames : list (Z * result (str * str) str); sse_end : option Z }.

Definition DONE : str := Eval vm_compute in lit "[DONE]".

(** The closure of [scan]: [None] ends the stream. *)
Fixpoint decode_frames {A}
    (decode : str → str → option CollectorState →
              option CollectorState * option (result A SamplingError))
    (had_transport_error : bool) (col : option CollectorState)
    (frames : list (Z * result (str * str) str)) (end_at : option Z) : RawStream A :=
  match frames with
  | [] => {| raw_items := []; raw_end := (λ t, (t, col)) <$> end_at |}
  | (t, frame) :: frames' =>
      if had_transport_error then {| raw_items := []; raw_end := Some (t, col) |}
      else
        match frame with
        | Err text =>
            let rest := decode_frames decode true col frames' end_at in
            {| raw_items := (t, col, Err (EventStreamError text)) :: raw_items rest;
               raw_end := raw_end rest |}
        | Ok (name, data) =>
            if str_eqb data DONE then {| raw_items := []; raw_end := Some (t, col) |}
            else
              let '(col', item) := decode name data col in
              let rest := decode_frames decode false col' frames' end_at in
              {| raw_items := match item with
                              | Some x => (t, col', x) :: raw_items rest
                              | None => raw_items rest
                              end;
                 raw_end := raw_end rest |}
        end
  end.

(** serde's derived readers, and what is read of the raw JSON. *)
Class DecodeApi : Type := {
  chunk_from_str : str → result ChatCompletionChunk SerdeError;
  message_event_from_str : str → result MessageStreamEvent SerdeError;
  response_event_from_str : str → result ResponseStreamEvent SerdeError;
  response_event_from_value : Value → option ResponseStreamEvent;
  tool_from_value : Value → bool;
  value_update_array : str → (list Value → list Value) → Value → Value;
  value_as_i64 : Value → option Z;
  value_as_u64 : Value → option Z;
}.
Context {DA : DecodeApi}.

Definition COST_USD_TICKS_METADATA_KEY : str := Eval vm_compute in lit "xai.cost_usd_ticks".

Definition u32_try_from (z : Z) : option Z := if (z <=? U32_MAX)%Z then Some z else None.
Definition u32_saturating_add (a b : Z) : Z := Z.min (a + b) U32_MAX.

Definition extract_context_total (value : Value) : option Z :=
  cd ← value_pointer (lit "/response/usage/context_details") value;
  i ← (value_get (lit "input_tokens") cd ≫= value_as_u64) ≫= u32_try_from;
  o ← (value_get (lit "output_tokens") cd ≫= value_as_u64) ≫= u32_try_from;
  Some (u32_saturating_add i o).

Definition stash_cost (value : Value) (r : RsResponse) : RsResponse :=
  match reported_cost_ticks
          (value_pointer (lit "/response/usage/cost_in_usd_ticks") value ≫= value_as_i64) with
  | Some ticks =>
      {| rr_model := rr_model r;
         rr_metadata :=
           Some (<[COST_USD_TICKS_METADATA_KEY := fmt_Z ticks]> (default ∅ (rr_metadata r)));
         rr_effort := rr_effort r; rr_output := rr_output r; rr_usage := rr_usage r;
         rr_status := rr_status r; rr_error := rr_error r |}
  | None => r
  end.

Definition override_total (value : Value) (r : RsResponse) : RsResponse :=
  match rr_usage r, extract_context_total value with
  | Some u, Some total =>
      {| rr_model := rr_model r; rr_metadata := rr_metadata r; rr_effort := rr_effort r;
         rr_output := rr_output r;
         rr_usage := Some {| ru_input_tokens := ru_input_tokens u;
                             ru_output_tokens := ru_output_tokens u; ru_total_tokens := total;
                             ru_reasoning_tokens := ru_reasoning_tokens u;
                             ru_cached_tokens := ru_cached_tokens u |};
         rr_status := rr_status r; rr_error := rr_error r |}
  | _, _ => r
  end.

Definition override_response (data : str) (r : RsResponse) : RsResponse :=
  match value_from_str data with
  | Some value => override_total value (stash_cost value r)
  | None => r
  end.

Definition apply_terminal_event_overrides (event : ResponseStreamEvent) (data : str)
  : ResponseStreamEvent :=
  match event with
  | ResponseCompleted r => ResponseCompleted (override_response data r)
  | ResponseIncomplete r => ResponseIncomplete (override_response data r)
  | _ => event
  end.

Definition deserialize_response_event (data : str) : result ResponseStreamEvent SamplingError :=
  match response_event_from_str data with
  | Ok event => Ok (apply_terminal_event_overrides event data)
  | Err first_err =>
      match
        value ← value_from_str data;
        response_event_from_value
          (value_update_array (lit "/response/tools") (List.filter tool_from_value) value)
      with
      | Some event => Ok (apply_terminal_event_overrides event data)
      | None => Err (Serialization first_err)
      end
  end.

Definition decode_chat (_ data : str) (col : option CollectorState)
  : option CollectorState * option (result ChatCompletionChunk SamplingError) :=
  (col,
   Some match try_parse_stream_error data with
        | Some e => Err e
        | None => match chunk_from_str data with
                  | Ok c => Ok c
                  | Err e => Err (Serialization e)
                  end
        end).

Definition decode_messages (_ data : str) (col : option CollectorState)
  : option CollectorState * option (result MessageStreamEvent SamplingError) :=
  (col,
   Some match try_parse_stream_error data with
        | Some e => Err e
        | None => match message_event_from_str data with
                  | Ok c => Ok c
                  | Err e => Err (Serialization e)
                  end
        end).

Definition decode_response (name data : str) (col : option CollectorState)
  : option CollectorState * option (result ResponseStreamEvent SamplingError) :=
  let '(col', swallow) :=
    match col with
    | Some c => let '(c', s) := absorb name data c in (Some c', s)
    | None => (None, is_check_event name data)
    end in
  (col',
   if swallow : bool then None
   else Some match try_parse_stream_error data with
             | Some e => Err e
             | None => deserialize_response_event data
             end).

Definition chat_raw (s : SseStream) : RawStream ChatCompletionChunk :=
  decode_frames decode_chat false None (sse_frames s) (sse_end s).
Definition messages_raw (s : SseStream) : RawStream MessageStreamEvent :=
  decode_frames decode_messages false None (sse_frames s) (sse_end s).
Definition responses_raw (col : option CollectorState) (s : SseStream)
  : RawStream ResponseStreamEvent :=
  decode_frames decode_response false col (sse_frames s) (sse_end s).

End Payloads.
Arguments raw_items {SA A}. Arguments raw_end {SA A}. Arguments Build_RawStream {SA A}.
