(* ===== verification/SamplerTransform.v ===== *)
(** * Stream transforms of the sampler

    [xai-grok-sampler/src/stream]: [chat_completions.rs], [messages.rs] and
    [responses.rs], which turn the raw stream of a backend into the events of
    a request.  A transform is a generator: it takes an item of the raw
    stream, yields events, and takes the next item when they are consumed.  Its
    run is the list of what it does, [Polled] for an item taken (with its error, if
    it is one) and [Yielded] for an event.  Processing takes no time of its own:
    the clock shows the arrival of the item taken last. *)
From S2P Require Import Prelude RustStr F64 StrSearch TokenEstimation Conversation Sampling SamplingError SamplerStream.

(** ** [BTreeMap<u32, V>]: pairs in the order of their keys *)
Section BTree.
Context {V : Type}.

Fixpoint bt_insert (k : Z) (v : V) (m : list (Z * V)) : list (Z * V) :=
  match m with
  | [] => [(k, v)]
  | (k', v') :: m' =>
      if (k <? k')%Z then (k, v) :: m
      else if (k =? k')%Z then (k, v) :: m'
      else (k', v') :: bt_insert k v m'
  end.

Fixpoint bt_get (k : Z) (m : list (Z * V)) : option V :=
  match m with
  | [] => None
  | (k', v') :: m' => if (k =? k')%Z then Some v' else bt_get k m'
  end.

Fixpoint bt_remove (k : Z) (m : list (Z * V)) : list (Z * V) :=
  match m with
  | [] => []
  | (k', v') :: m' => if (k =? k')%Z then m' else (k', v') :: bt_remove k m'
  end.
End BTree.

Section Transform.
Context {RS : RsApi} {SA : SamplerApi} `{!StreamApi}.

(** ** The loop all three transforms have *)

Inductive L2Out : Type :=
| Polled (err : option SamplingError)
| Yielded (e : SamplingEvent).

(** What a turn of the loop ends with: the next turn, [break], or [return]
    after a [Failed] event. *)
Inductive Turn (S : Type) : Type :=
| Next (st : S)
| Break (st : S)
| Return.
Arguments Next {S}. Arguments Break {S}. Arguments Return {S}.

Definition failed (id : str) (e : SamplingError) : SamplingEvent := Failed id (info_of e).

Definition idle_failed (id : str) (idle : Z) : SamplingEvent :=
  failed id (IdleTimeout (as_secs idle)).

(** [timeout(idle_timeout, stream.next())] polls at [now]. *)
Fixpoint stream_loop {A S}
    (step : S → Z → option CollectorState → A → list SamplingEvent * Turn S)
    (finish : S → Z → option CollectorState → list SamplingEvent)
    (id : str) (idle : Z) (st : S) (now : Z)
    (items : list (Z * option CollectorState * result A SamplingError))
    (end_at : option (Z * option CollectorState)) : list L2Out :=
  match items with
  | [] =>
      match end_at with
      | Some (t, col) =>
          if (now + idle <? t)%Z then [Yielded (idle_failed id idle)]
          else map Yielded (finish st (Z.max now t) col)
      | None => [Yielded (idle_failed id idle)]
      end
  | (t, col, item) :: items' =>
      if (now + idle <? t)%Z then [Yielded (idle_failed id idle)]
      else
        match item with
        | Err err => [Polled (Some err); Yielded (failed id err)]
        | Ok a =>
            let now' := Z.max now t in
            let '(evs, turn) := step st now' col a in
            Polled None :: map Yielded evs ++
            match turn with
            | Next st' => stream_loop step finish id idle st' now' items' end_at
            | Break st' => map Yielded (finish st' now' col)
            | Return => []
            end
        end
  end.

Definition stream_head (id : str) (wall : Z) (model_metadata : option ResponseModelMetadata)
  : list SamplingEvent :=
  StreamStarted id wall ::
  match model_metadata with Some metadata => [ModelMetadata id metadata] | None => [] end.

(** ** Tokens: the counters every transform keeps *)

Record TokenAcc := {
  ta_first_token_emitted : bool;
  ta_chunk_index : Z;
  ta_message_chunk_count : Z;
  ta_chunk_timestamps : list Z;
}.

Definition tokens_new : TokenAcc :=
  {| ta_first_token_emitted := false; ta_chunk_index := 0; ta_message_chunk_count := 0;
     ta_chunk_timestamps := [] |}.

Definition first_token (id : str) (a : TokenAcc) : TokenAcc * list SamplingEvent :=
  if ta_first_token_emitted a then (a, [])
  else ({| ta_first_token_emitted := true; ta_chunk_index := ta_chunk_index a;
           ta_message_chunk_count := ta_message_chunk_count a;
           ta_chunk_timestamps := ta_chunk_timestamps a |}, [FirstToken id]).

Definition text_token (id : str) (now : Z) (text : str) (a : TokenAcc)
  : TokenAcc * list SamplingEvent :=
  if is_empty text then (a, [])
  else
    let '(a, evs) := first_token id a in
    let chunk_index := wrapping_add (ta_chunk_index a) 1 in
    ({| ta_first_token_emitted := ta_first_token_emitted a; ta_chunk_index := chunk_index;
        ta_message_chunk_count := wrapping_add (ta_message_chunk_count a) 1;
        ta_chunk_timestamps := ta_chunk_timestamps a ++ [now] |},
     evs ++ [ChannelToken id ChannelText text chunk_index]).

Definition reasoning_token (id : str) (text : str) (a : TokenAcc)
  : TokenAcc * list SamplingEvent :=
  if is_empty text then (a, [])
  else
    let '(a, evs) := first_token id a in
    let chunk_index := wrapping_add (ta_chunk_index a) 1 in
    ({| ta_first_token_emitted := ta_first_token_emitted a; ta_chunk_index := chunk_index;
        ta_message_chunk_count := ta_message_chunk_count a;
        ta_chunk_timestamps := ta_chunk_timestamps a |},
     evs ++ [ChannelToken id ChannelReasoning text chunk_index]).

(** The content-aware timer at the end of a turn. *)
Definition content_timer {S} (id : str) (idle now last : Z) (has_content : bool)
    (set_last : Z → S) (turn : S → Turn S) : list SamplingEvent * Turn S :=
  if has_content then ([], turn (set_last now))
  else if (idle <? duration_since now last)%Z then ([idle_failed id idle], Return)
  else ([], turn (set_last last)).

(** ** chat_completions.rs *)

Record ChatAcc := {
  ca_first_chunk_seen : bool;
  ca_first_choice_seen : bool;
  ca_model : str;
  ca_model_fingerprint : option str;
  ca_usage : option TokenUsage;
  ca_cost_usd_ticks : option Z;
  ca_finish_reason : option StopReason;
  ca_content_acc : str;
  ca_reasoning_acc : str;
  ca_tool_call_acc : list (Z * (str * str * str));
  ca_tokens : TokenAcc;
  ca_last_content_chunk_at : Z;
}.

Definition chat_new (start : Z) : ChatAcc :=
  {| ca_first_chunk_seen := false; ca_first_choice_seen := false; ca_model := [];
     ca_model_fingerprint := None; ca_usage := None; ca_cost_usd_ticks := None;
     ca_finish_reason := None; ca_content_acc := []; ca_reasoning_acc := [];
     ca_tool_call_acc := []; ca_tokens := tokens_new; ca_last_content_chunk_at := start |}.

Definition chat_first_chunk (c : ChatCompletionChunk) (a : ChatAcc) : ChatAcc :=
  if ca_first_chunk_seen a then a
  else {| ca_first_chunk_seen := true; ca_first_choice_seen := ca_first_choice_seen a;
          ca_model := ck_model c;
          ca_model_fingerprint := ck_system_fingerprint c ≫= nonempty_str;
          ca_usage := ca_usage a; ca_cost_usd_ticks := ca_cost_usd_ticks a;
          ca_finish_reason := ca_finish_reason a; ca_content_acc := ca_content_acc a;
          ca_reasoning_acc := ca_reasoning_acc a; ca_tool_call_acc := ca_tool_call_acc a;
          ca_tokens := ca_tokens a; ca_last_content_chunk_at := ca_last_content_chunk_at a |}.

Definition chat_usage (c : ChatCompletionChunk) (a : ChatAcc) : ChatAcc :=
  match ck_usage c with
  | None => a
  | Some u =>
      {| ca_first_chunk_seen := ca_first_chunk_seen a;
         ca_first_choice_seen := ca_first_choice_seen a; ca_model := ca_model a;
         ca_model_fingerprint := ca_model_fingerprint a; ca_usage := Some (token_usage_of u);
         ca_cost_usd_ticks := match reported_cost_ticks (u_cost_in_usd_ticks u) with
                              | Some n => Some n
                              | None => ca_cost_usd_ticks a
                              end;
         ca_finish_reason := ca_finish_reason a; ca_content_acc := ca_content_acc a;
         ca_reasoning_acc := ca_reasoning_acc a; ca_tool_call_acc := ca_tool_call_acc a;
         ca_tokens := ca_tokens a; ca_last_content_chunk_at := ca_last_content_chunk_at a |}
  end.

(** One delta of a tool call: the entry of its index and the event. *)
Definition tool_delta (id : str) (d : ToolCallDelta) (m : list (Z * (str * str * str)))
  : list (Z * (str * str * str)) * SamplingEvent :=
  let '(tid, name, args) := default ([], [], []) (bt_get (cd_index d) m) in
  let name_for_event := cd_function d ≫= fd_name in
  let args_for_event := cd_function d ≫= fd_arguments in
  (bt_insert (cd_index d)
     (default tid (cd_id d), default name name_for_event, args ++ default [] args_for_event) m,
   ToolCallDeltaEvent id (cd_index d) (cd_id d) name_for_event args_for_event).

Fixpoint tool_deltas (id : str) (ds : list ToolCallDelta) (m : list (Z * (str * str * str)))
  : list (Z * (str * str * str)) * list SamplingEvent :=
  match ds with
  | [] => (m, [])
  | d :: ds' =>
      let '(m, e) := tool_delta id d m in
      let '(m, es) := tool_deltas id ds' m in
      (m, e :: es)
  end.

(** One choice of a chunk; the flag is [chunk_has_content]. *)
Definition chat_choice (id : str) (now : Z) (choice : ChatChunkChoice) (a : ChatAcc)
  : ChatAcc * list SamplingEvent * bool :=
  let delta := ch_delta choice in
  let text := default [] (dl_content delta) in
  let thought := default [] (dl_reasoning_content delta) in
  let '(toks, evs_text) := text_token id now text (ca_tokens a) in
  let '(toks, evs_thought) := reasoning_token id thought toks in
  let '(tools, evs_tools) := tool_deltas id (dl_tool_calls delta) (ca_tool_call_acc a) in
  ({| ca_first_chunk_seen := ca_first_chunk_seen a; ca_first_choice_seen := true;
      ca_model := ca_model a; ca_model_fingerprint := ca_model_fingerprint a;
      ca_usage := ca_usage a; ca_cost_usd_ticks := ca_cost_usd_ticks a;
      ca_finish_reason := match ch_finish_reason choice with
                          | Some fr => Some (stop_of_finish fr)
                          | None => ca_finish_reason a
                          end;
      ca_content_acc := ca_content_acc a ++ text;
      ca_reasoning_acc := ca_reasoning_acc a ++ thought;
      ca_tool_call_acc := tools; ca_tokens := toks;
      ca_last_content_chunk_at := ca_last_content_chunk_at a |},
   evs_text ++ evs_thought ++ evs_tools,
   is_some (ch_finish_reason choice) || negb (is_empty text) || negb (is_empty thought)
     || negb (is_empty (dl_tool_calls delta))).

Fixpoint chat_choices (id : str) (now : Z) (cs : list ChatChunkChoice) (a : ChatAcc)
  : ChatAcc * list SamplingEvent * bool :=
  match cs with
  | [] => (a, [], false)
  | c :: cs' =>
      let '(a, evs, b) := chat_choice id now c a in
      let '(a, evs', b') := chat_choices id now cs' a in
      (a, evs ++ evs', b || b')
  end.

Definition chat_set_last (a : ChatAcc) (t : Z) : ChatAcc :=
  {| ca_first_chunk_seen := ca_first_chunk_seen a; ca_first_choice_seen := ca_first_choice_seen a;
     ca_model := ca_model a; ca_model_fingerprint := ca_model_fingerprint a;
     ca_usage := ca_usage a; ca_cost_usd_ticks := ca_cost_usd_ticks a;
     ca_finish_reason := ca_finish_reason a; ca_content_acc := ca_content_acc a;
     ca_reasoning_acc := ca_reasoning_acc a; ca_tool_call_acc := ca_tool_call_acc a;
     ca_tokens := ca_tokens a; ca_last_content_chunk_at := t |}.

Definition chat_step (id : str) (idle : Z) (a : ChatAcc) (now : Z) (_ : option CollectorState)
    (chunk : ChatCompletionChunk) : list SamplingEvent * Turn ChatAcc :=
  let a := chat_usage chunk (chat_first_chunk chunk a) in
  let '(a, evs, has_content) := chat_choices id now (ck_choices chunk) a in
  let '(evs', turn) :=
    content_timer id idle now (ca_last_content_chunk_at a) has_content (chat_set_last a) Next in
  (evs ++ evs', turn).

Definition tool_call_of (e : Z * (str * str * str)) : ToolCall :=
  let '(_, (id, name, arguments)) := e in
  {| tc_id := id; tc_name := name; tc_arguments := arguments |}.

Definition chat_response (a : ChatAcc) : ConversationResponse :=
  let tool_calls := map tool_call_of (ca_tool_call_acc a) in
  let finish_reason :=
    if is_empty tool_calls then ca_finish_reason a else Some StopToolCalls in
  let items :=
    if ca_first_choice_seen a then
      (if is_empty (ca_reasoning_acc a) then []
       else [Reasoning (synthesized_reasoning_item (ca_reasoning_acc a))]) ++
      [Assistant {| a_content := ca_content_acc a; a_tool_calls := tool_calls;
                    a_model_id := Some (ca_model a);
                    a_model_fingerprint := ca_model_fingerprint a;
                    a_reasoning_effort := None |}]
    else [item_assistant_tool_calls []] in
  {| cr_items := items; cr_stop_reason := finish_reason; cr_usage := ca_usage a;
     cr_cost_usd_ticks := ca_cost_usd_ticks a;
     cr_message_chunks_emitted := ta_message_chunk_count (ca_tokens a);
     cr_doom_loop_signals := []; cr_stop_message := None |}.

Definition chat_finish (id : str) (start : Z) (a : ChatAcc) (now : Z) (_ : option CollectorState)
  : list SamplingEvent :=
  [Completed id (chat_response a)
     (from_timestamps start (ta_chunk_timestamps (ca_tokens a)) now)].

Definition stream_chat_completions (raw : RawStream ChatCompletionChunk)
    (model_metadata : option ResponseModelMetadata) (id : str) (idle wall start : Z)
  : list L2Out :=
  map Yielded (stream_head id wall model_metadata) ++
  stream_loop (chat_step id idle) (chat_finish id start) id idle (chat_new start) start
    (raw_items raw) (raw_end raw).

(** ** messages.rs *)

Definition messages_event_has_meaningful_content (e : MessageStreamEvent) : bool :=
  match e with Ping => false | _ => true end.

Inductive BlockType : Type := BtText | BtToolUse | BtThinking.

Record BlockState := {
  bs_block_type : BlockType;
  bs_text_acc : str;
  bs_tool_name : str;
  bs_tool_id : str;
  bs_args_acc : str;
  bs_thinking_acc : str;
  bs_signature : str;
}.

Record MsgAcc := {
  ma_blocks : list (Z * BlockState);
  ma_model : option str;
  ma_input_tokens : Z;
  ma_cache_read_input_tokens : Z;
  ma_cache_creation_input_tokens : Z;
  ma_output_tokens : Z;
  ma_stop_reason : option StopReason;
  ma_stop_message : option str;
  ma_assistant_text : str;
  ma_assistant_tool_calls : list ToolCall;
  ma_assistant_reasoning : option ReasoningItem;
  ma_tokens : TokenAcc;
  ma_last_content_chunk_at : Z;
  ma_next_tool_index : Z;
  ma_block_to_tool_index : list (Z * Z);
}.

Definition msg_new (start : Z) : MsgAcc :=
  {| ma_blocks := []; ma_model := None; ma_input_tokens := 0; ma_cache_read_input_tokens := 0;
     ma_cache_creation_input_tokens := 0; ma_output_tokens := 0; ma_stop_reason := None;
     ma_stop_message := None; ma_assistant_text := []; ma_assistant_tool_calls := [];
     ma_assistant_reasoning := None; ma_tokens := tokens_new; ma_last_content_chunk_at := start;
     ma_next_tool_index := 0; ma_block_to_tool_index := [] |}.

Definition msg_start (m : MessagesResponse) (a : MsgAcc) : MsgAcc :=
  {| ma_blocks := ma_blocks a; ma_model := Some (mr_model m);
     ma_input_tokens := mu_input_tokens (mr_usage m);
     ma_cache_read_input_tokens := mu_cache_read_input_tokens (mr_usage m);
     ma_cache_creation_input_tokens := mu_cache_creation_input_tokens (mr_usage m);
     ma_output_tokens := ma_output_tokens a; ma_stop_reason := ma_stop_reason a;
     ma_stop_message := ma_stop_message a; ma_assistant_text := ma_assistant_text a;
     ma_assistant_tool_calls := ma_assistant_tool_calls a;
     ma_assistant_reasoning := ma_assistant_reasoning a; ma_tokens := ma_tokens a;
     ma_last_content_chunk_at := ma_last_content_chunk_at a;
     ma_next_tool_index := ma_next_tool_index a;
     ma_block_to_tool_index := ma_block_to_tool_index a |}.

(** The blocks, the tokens and the tool indices of a turn. *)
Definition msg_set (a : MsgAcc) (blocks : list (Z * BlockState)) (toks : TokenAcc)
    (next_tool : Z) (tools : list (Z * Z)) : MsgAcc :=
  {| ma_blocks := blocks; ma_model := ma_model a; ma_input_tokens := ma_input_tokens a;
     ma_cache_read_input_tokens := ma_cache_read_input_tokens a;
     ma_cache_creation_input_tokens := ma_cache_creation_input_tokens a;
     ma_output_tokens := ma_output_tokens a; ma_stop_reason := ma_stop_reason a;
     ma_stop_message := ma_stop_message a; ma_assistant_text := ma_assistant_text a;
     ma_assistant_tool_calls := ma_assistant_tool_calls a;
     ma_assistant_reasoning := ma_assistant_reasoning a; ma_tokens := toks;
     ma_last_content_chunk_at := ma_last_content_chunk_at a; ma_next_tool_index := next_tool;
     ma_block_to_tool_index := tools |}.

Definition msg_block_start (id : str) (index : Z) (b : ContentBlock) (a : MsgAcc)
  : MsgAcc * list SamplingEvent :=
  let with_block bs toks :=
    msg_set a (bt_insert index bs (ma_blocks a)) toks (ma_next_tool_index a)
      (ma_block_to_tool_index a) in
  match b with
  | BlockThinking thinking signature =>
      let '(toks, evs) := first_token id (ma_tokens a) in
      (with_block {| bs_block_type := BtThinking; bs_text_acc := []; bs_tool_name := [];
                     bs_tool_id := []; bs_args_acc := []; bs_thinking_acc := thinking;
                     bs_signature := signature |} toks, evs)
  | BlockText text _ =>
      let '(toks, evs) := first_token id (ma_tokens a) in
      (with_block {| bs_block_type := BtText; bs_text_acc := text; bs_tool_name := [];
                     bs_tool_id := []; bs_args_acc := []; bs_thinking_acc := [];
                     bs_signature := [] |} toks, evs)
  | BlockToolUse tid name _ =>
      let tool_index := ma_next_tool_index a in
      (msg_set a
         (bt_insert index {| bs_block_type := BtToolUse; bs_text_acc := []; bs_tool_name := name;
                             bs_tool_id := tid; bs_args_acc := []; bs_thinking_acc := [];
                             bs_signature := [] |} (ma_blocks a))
         (ma_tokens a) (u32_add tool_index 1)
         (bt_insert index tool_index (ma_block_to_tool_index a)),
       [ToolCallDeltaEvent id tool_index (Some tid) (Some name) None])
  | BlockImage _ | BlockToolResult _ _ _ => (a, [])
  end.

Definition block_with (b : BlockState) (text args thinking signature : str) : BlockState :=
  {| bs_block_type := bs_block_type b; bs_text_acc := text; bs_tool_name := bs_tool_name b;
     bs_tool_id := bs_tool_id b; bs_args_acc := args; bs_thinking_acc := thinking;
     bs_signature := signature |}.

Definition msg_block_delta (id : str) (now index : Z) (d : StreamDelta) (a : MsgAcc)
  : MsgAcc * list SamplingEvent :=
  match bt_get index (ma_blocks a) with
  | None => (a, [])
  | Some b =>
      let put b' toks :=
        msg_set a (bt_insert index b' (ma_blocks a)) toks (ma_next_tool_index a)
          (ma_block_to_tool_index a) in
      match d with
      | ThinkingDelta thinking =>
          let '(toks, evs) := reasoning_token id thinking (ma_tokens a) in
          (put (block_with b (bs_text_acc b) (bs_args_acc b) (bs_thinking_acc b ++ thinking)
                  (bs_signature b)) toks, evs)
      | SignatureDelta signature =>
          (put (block_with b (bs_text_acc b) (bs_args_acc b) (bs_thinking_acc b) signature)
             (ma_tokens a), [])
      | TextDelta text =>
          let '(toks, evs) := text_token id now text (ma_tokens a) in
          (put (block_with b (bs_text_acc b ++ text) (bs_args_acc b) (bs_thinking_acc b)
                  (bs_signature b)) toks, evs)
      | InputJsonDelta partial_json =>
          (put (block_with b (bs_text_acc b) (bs_args_acc b ++ partial_json) (bs_thinking_acc b)
                  (bs_signature b)) (ma_tokens a),
           match bt_get index (ma_block_to_tool_index a) with
           | Some tool_index => [ToolCallDeltaEvent id tool_index None None (Some partial_json)]
           | None => []
           end)
      end
  end.

(** What a finished block adds to the response. *)
Definition msg_finalize (b : BlockState) (a : MsgAcc) : MsgAcc :=
  let text :=
    match bs_block_type b with
    | BtText => if is_empty (bs_text_acc b) then ma_assistant_text a
                else push_line (ma_assistant_text a) (bs_text_acc b)
    | _ => ma_assistant_text a
    end in
  let reasoning :=
    match bs_block_type b with
    | BtThinking =>
        if negb (is_empty (bs_thinking_acc b)) || negb (is_empty (bs_signature b)) then
          Some (mk_reasoning (if is_empty (bs_thinking_acc b) then [] else [bs_thinking_acc b])
                  (nonempty_str (bs_signature b)))
        else ma_assistant_reasoning a
    | _ => ma_assistant_reasoning a
    end in
  let calls :=
    match bs_block_type b with
    | BtToolUse =>
        ma_assistant_tool_calls a ++ [{| tc_id := bs_tool_id b; tc_name := bs_tool_name b;
                                         tc_arguments := bs_args_acc b |}]
    | _ => ma_assistant_tool_calls a
    end in
  {| ma_blocks := ma_blocks a; ma_model := ma_model a; ma_input_tokens := ma_input_tokens a;
     ma_cache_read_input_tokens := ma_cache_read_input_tokens a;
     ma_cache_creation_input_tokens := ma_cache_creation_input_tokens a;
     ma_output_tokens := ma_output_tokens a; ma_stop_reason := ma_stop_reason a;
     ma_stop_message := ma_stop_message a; ma_assistant_text := text;
     ma_assistant_tool_calls := calls; ma_assistant_reasoning := reasoning;
     ma_tokens := ma_tokens a; ma_last_content_chunk_at := ma_last_content_chunk_at a;
     ma_next_tool_index := ma_next_tool_index a;
     ma_block_to_tool_index := ma_block_to_tool_index a |}.

Definition msg_block_stop (index : Z) (a : MsgAcc) : MsgAcc :=
  match bt_get index (ma_blocks a) with
  | None => a
  | Some b =>
      msg_finalize b
        (msg_set a (bt_remove index (ma_blocks a)) (ma_tokens a) (ma_next_tool_index a)
           (ma_block_to_tool_index a))
  end.

Definition stop_of_messages (sr : MessagesStopReason) : StopReason :=
  match sr with
  | EndTurn => StopStop
  | MaxTokens => StopLength
  | StopSequence => StopStop
  | ToolUseStop => StopToolCalls
  | Refusal => StopContentFilter
  | PauseTurn => StopStop
  | ModelContextWindowExceeded => StopLength
  | UnknownStop _ => StopStop
  end.

Definition msg_delta (d : MessageDeltaBody) (u : MessageDeltaUsage) (a : MsgAcc) : MsgAcc :=
  {| ma_blocks := ma_blocks a; ma_model := ma_model a;
     ma_input_tokens := default (ma_input_tokens a) (mdu_input_tokens u);
     ma_cache_read_input_tokens :=
       default (ma_cache_read_input_tokens a) (mdu_cache_read_input_tokens u);
     ma_cache_creation_input_tokens :=
       default (ma_cache_creation_input_tokens a) (mdu_cache_creation_input_tokens u);
     ma_output_tokens := mdu_output_tokens u;
     ma_stop_reason := stop_of_messages <$> mb_stop_reason d;
     ma_stop_message := match mb_stop_details d with
                        | Some details => sd_explanation details
                        | None => ma_stop_message a
                        end;
     ma_assistant_text := ma_assistant_text a;
     ma_assistant_tool_calls := ma_assistant_tool_calls a;
     ma_assistant_reasoning := ma_assistant_reasoning a; ma_tokens := ma_tokens a;
     ma_last_content_chunk_at := ma_last_content_chunk_at a;
     ma_next_tool_index := ma_next_tool_index a;
     ma_block_to_tool_index := ma_block_to_tool_index a |}.

Definition msg_set_last (a : MsgAcc) (t : Z) : MsgAcc :=
  {| ma_blocks := ma_blocks a; ma_model := ma_model a; ma_input_tokens := ma_input_tokens a;
     ma_cache_read_input_tokens := ma_cache_read_input_tokens a;
     ma_cache_creation_input_tokens := ma_cache_creation_input_tokens a;
     ma_output_tokens := ma_output_tokens a; ma_stop_reason := ma_stop_reason a;
     ma_stop_message := ma_stop_message a; ma_assistant_text := ma_assistant_text a;
     ma_assistant_tool_calls := ma_assistant_tool_calls a;
     ma_assistant_reasoning := ma_assistant_reasoning a; ma_tokens := ma_tokens a;
     ma_last_content_chunk_at := t; ma_next_tool_index := ma_next_tool_index a;
     ma_block_to_tool_index := ma_block_to_tool_index a |}.

(** A failure the server reports inside the stream. *)
Definition server_failed (id message : str) : SamplingEvent :=
  failed id (Api INTERNAL_SERVER_ERROR message None None None).

Definition COLON_SPACE : str := Eval vm_compute in lit ": ".

(** The [match event] of a turn; [None] is its [return]. *)
Definition msg_event (id : str) (now : Z) (e : MessageStreamEvent) (a : MsgAcc)
  : list SamplingEvent * option MsgAcc :=
  match e with
  | MessageStart m => ([], Some (msg_start m a))
  | ContentBlockStart index b =>
      let '(a, evs) := msg_block_start id index b a in (evs, Some a)
  | ContentBlockDelta index d =>
      let '(a, evs) := msg_block_delta id now index d a in (evs, Some a)
  | ContentBlockStop index => ([], Some (msg_block_stop index a))
  | MessageDelta d u => ([], Some (msg_delta d u a))
  | MessageStop => ([], Some a)
  | Ping => ([], Some a)
  | MessageError ty m => ([server_failed id (ty ++ COLON_SPACE ++ m)], None)
  end.

Definition msg_step (id : str) (idle : Z) (a : MsgAcc) (now : Z) (_ : option CollectorState)
    (e : MessageStreamEvent) : list SamplingEvent * Turn MsgAcc :=
  match msg_event id now e a with
  | (evs, None) => (evs, Return)
  | (evs, Some a) =>
      let '(evs', turn) :=
        content_timer id idle now (ma_last_content_chunk_at a)
          (messages_event_has_meaningful_content e) (msg_set_last a) Next in
      (evs ++ evs', turn)
  end.

Definition msg_total_prompt_tokens (a : MsgAcc) : Z :=
  u32_saturating_add
    (u32_saturating_add (ma_input_tokens a) (ma_cache_read_input_tokens a))
    (ma_cache_creation_input_tokens a).

Definition msg_response (a : MsgAcc) : ConversationResponse :=
  let total := msg_total_prompt_tokens a in
  let out := ma_output_tokens a in
  {| cr_items :=
       match ma_assistant_reasoning a with Some r => [Reasoning r] | None => [] end ++
       [Assistant {| a_content := ma_assistant_text a;
                     a_tool_calls := ma_assistant_tool_calls a;
                     a_model_id := Some (default [] (ma_model a)); a_model_fingerprint := None;
                     a_reasoning_effort := None |}];
     cr_stop_reason :=
       if is_empty (ma_assistant_tool_calls a) then ma_stop_reason a else Some StopToolCalls;
     cr_usage :=
       if (0 <? total)%Z || (0 <? out)%Z then
         Some {| prompt_tokens := total; completion_tokens := out;
                 usage_total_tokens := u32_saturating_add total out; reasoning_tokens := 0;
                 cached_prompt_tokens := ma_cache_read_input_tokens a |}
       else None;
     cr_cost_usd_ticks := None;
     cr_message_chunks_emitted := ta_message_chunk_count (ma_tokens a);
     cr_doom_loop_signals := []; cr_stop_message := ma_stop_message a |}.

Definition msg_finish (id : str) (start : Z) (a : MsgAcc) (now : Z) (_ : option CollectorState)
  : list SamplingEvent :=
  if bool_decide (ma_stop_reason a = Some StopLength) then [failed id MaxTokensTruncation]
  else [Completed id (msg_response a)
          (from_timestamps start (ta_chunk_timestamps (ma_tokens a)) now)].

Definition stream_messages (raw : RawStream MessageStreamEvent)
    (model_metadata : option ResponseModelMetadata) (id : str) (idle wall start : Z)
  : list L2Out :=
  map Yielded (stream_head id wall model_metadata) ++
  stream_loop (msg_step id idle) (msg_finish id start) id idle (msg_new start) start
    (raw_items raw) (raw_end raw).

(** ** responses.rs *)

Definition responses_event_has_meaningful_content (e : ResponseStreamEvent) : bool :=
  match e with
  | ResponseCreated | ResponseInProgress | ResponseQueued => false
  | ResponseOutputTextDelta s | ResponseOutputTextDone s | ResponseRefusalDelta s
  | ResponseRefusalDone s | ResponseFunctionCallArgumentsDelta _ s
  | ResponseReasoningSummaryTextDelta s | ResponseReasoningSummaryTextDone s
  | ResponseReasoningTextDelta s | ResponseReasoningTextDone s
  | ResponseMCPCallArgumentsDelta s | ResponseMCPCallArgumentsDone s
  | ResponseCodeInterpreterCallCodeDelta s | ResponseCodeInterpreterCallCodeDone s
  | ResponseCustomToolCallInputDelta s | ResponseCustomToolCallInputDone _ s => negb (is_empty s)
  | ResponseFunctionCallArgumentsDone arguments name =>
      negb (is_empty arguments) ||
      match name with Some n => negb (is_empty n) | None => false end
  | _ => true
  end.

Record RespAcc := {
  ra_final_response : option RsResponse;
  ra_reasoning_acc : str;
  ra_tokens : TokenAcc;
  ra_last_content_chunk_at : Z;
  ra_output_to_tool_index : list (Z * Z);
  ra_next_tool_index : Z;
}.

Definition resp_new (start : Z) : RespAcc :=
  {| ra_final_response := None; ra_reasoning_acc := []; ra_tokens := tokens_new;
     ra_last_content_chunk_at := start; ra_output_to_tool_index := []; ra_next_tool_index := 0 |}.

Definition resp_set_tokens (a : RespAcc) (toks : TokenAcc) (reasoning : str) : RespAcc :=
  {| ra_final_response := ra_final_response a; ra_reasoning_acc := reasoning; ra_tokens := toks;
     ra_last_content_chunk_at := ra_last_content_chunk_at a;
     ra_output_to_tool_index := ra_output_to_tool_index a;
     ra_next_tool_index := ra_next_tool_index a |}.

Definition resp_set_final (a : RespAcc) (r : RsResponse) : RespAcc :=
  {| ra_final_response := Some r; ra_reasoning_acc := ra_reasoning_acc a;
     ra_tokens := ra_tokens a; ra_last_content_chunk_at := ra_last_content_chunk_at a;
     ra_output_to_tool_index := ra_output_to_tool_index a;
     ra_next_tool_index := ra_next_tool_index a |}.

Definition resp_set_last (a : RespAcc) (t : Z) : RespAcc :=
  {| ra_final_response := ra_final_response a; ra_reasoning_acc := ra_reasoning_acc a;
     ra_tokens := ra_tokens a; ra_last_content_chunk_at := t;
     ra_output_to_tool_index := ra_output_to_tool_index a;
     ra_next_tool_index := ra_next_tool_index a |}.

Definition resp_item_added (id : str) (output_index : Z) (item : OutputItem) (a : RespAcc)
  : RespAcc * list SamplingEvent :=
  match item with
  | OutFunctionCall call_id name _ =>
      let tool_index := ra_next_tool_index a in
      ({| ra_final_response := ra_final_response a; ra_reasoning_acc := ra_reasoning_acc a;
          ra_tokens := ra_tokens a; ra_last_content_chunk_at := ra_last_content_chunk_at a;
          ra_output_to_tool_index :=
            bt_insert output_index tool_index (ra_output_to_tool_index a);
          ra_next_tool_index := u32_add tool_index 1 |},
       [ToolCallDeltaEvent id tool_index (Some call_id) (Some name) None])
  | _ => (a, [])
  end.

Definition response_failed_message (r : RsResponse) : str :=
  match rr_error r with
  | Some (code, message) => code ++ COLON_SPACE ++ message
  | None => lit "Response failed with unknown error"
  end.

(** The [match event] of a turn: events, and the state with [should_break]. *)
Definition resp_event (id : str) (now : Z) (e : ResponseStreamEvent) (a : RespAcc)
  : list SamplingEvent * option (RespAcc * bool) :=
  match e with
  | ResponseOutputTextDelta delta =>
      let '(toks, evs) := text_token id now delta (ra_tokens a) in
      (evs, Some (resp_set_tokens a toks (ra_reasoning_acc a), false))
  | ResponseReasoningSummaryTextDelta delta =>
      let '(toks, evs) := reasoning_token id delta (ra_tokens a) in
      (evs, Some (resp_set_tokens a toks (ra_reasoning_acc a), false))
  | ResponseReasoningTextDelta delta =>
      let '(toks, evs) := reasoning_token id delta (ra_tokens a) in
      (evs, Some (resp_set_tokens a toks (ra_reasoning_acc a ++ delta), false))
  | ResponseOutputItemAdded output_index item =>
      let '(a, evs) := resp_item_added id output_index item a in (evs, Some (a, false))
  | ResponseFunctionCallArgumentsDelta output_index delta =>
      (if is_empty delta then []
       else match bt_get output_index (ra_output_to_tool_index a) with
            | Some tool_index => [ToolCallDeltaEvent id tool_index None None (Some delta)]
            | None => []
            end, Some (a, false))
  | ResponseCompleted r => ([], Some (resp_set_final a r, false))
  | ResponseIncomplete r => ([], Some (resp_set_final a r, true))
  | ResponseFailed r => ([server_failed id (response_failed_message r)], None)
  | ResponseError code message =>
      ([server_failed id (default (lit "error") code ++ COLON_SPACE ++ message)], None)
  | ResponseWebSearchCallInProgress item_id =>
      ([BackendToolCallStarted id item_id (lit "web_search")], Some (a, false))
  | ResponseOutputItemDone (OutWebSearchCall ws) =>
      ([BackendToolCallCompleted id (ws_id ws) (lit "web_search") (ws_to_value ws)],
       Some (a, false))
  | ResponseOutputItemDone (OutCustomToolCall ct) =>
      ([BackendToolCallCompleted id (ct_id ct) (lit "x_search") (ct_to_value ct)],
       Some (a, false))
  | ResponseCustomToolCallInputDone item_id _ =>
      ([BackendToolCallStarted id item_id (lit "x_search")], Some (a, false))
  | _ => ([], Some (a, false))
  end.

Definition resp_step (id : str) (idle : Z) (a : RespAcc) (now : Z) (col : option CollectorState)
    (e : ResponseStreamEvent) : list SamplingEvent * Turn RespAcc :=
  match col ≫= abort_triggers with
  | Some triggers =>
      ([failed id (DoomLoopDetected triggers (Some (ta_chunk_index (ra_tokens a))))], Return)
  | None =>
      match resp_event id now e a with
      | (evs, None) => (evs, Return)
      | (evs, Some (a, should_break)) =>
          let '(evs', turn) :=
            content_timer id idle now (ra_last_content_chunk_at a)
              (responses_event_has_meaningful_content e) (resp_set_last a)
              (if should_break : bool then Break else Next) in
          (evs ++ evs', turn)
      end
  end.

Definition usage_of_response (u : RsUsage) : TokenUsage :=
  {| prompt_tokens := ru_input_tokens u; completion_tokens := ru_output_tokens u;
     usage_total_tokens := ru_total_tokens u; reasoning_tokens := ru_reasoning_tokens u;
     cached_prompt_tokens := ru_cached_tokens u |}.

(** [parse::<i64>]: a sign and digits *)
Definition parse_i64 (s : str) : option Z :=
  match strip_prefix [DASH] s with
  | Some [] => None
  | Some rest => Z.opp <$> parse_digits (- I64_MIN) 0 rest
  | None => parse_unsigned I64_MAX s
  end.

Definition has_tool_calls (its : list ConversationItem) : bool :=
  existsb (λ i, match i with Assistant a => negb (is_empty (a_tool_calls a)) | _ => false end) its.

Definition resp_response (a : RespAcc) (r : RsResponse) (signals : list DoomLoopSignal)
  : ConversationResponse :=
  let its :=
    inject_streaming_reasoning_fallback (response_to_conversation_items r) (ra_reasoning_acc a) in
  {| cr_items := its;
     cr_stop_reason :=
       if has_tool_calls its then Some StopToolCalls
       else match rr_status r with
            | StatusCompleted => Some StopStop
            | StatusIncomplete => Some StopLength
            | StatusOther => None
            end;
     cr_usage := usage_of_response <$> rr_usage r;
     cr_cost_usd_ticks :=
       (m ← rr_metadata r; (m : gmap str str) !! COST_USD_TICKS_METADATA_KEY) ≫= parse_i64;
     cr_message_chunks_emitted := ta_message_chunk_count (ra_tokens a);
     cr_doom_loop_signals := signals; cr_stop_message := None |}.

Definition NO_TERMINAL_RESPONSE : str := Eval vm_compute in
  lit "No ResponseCompleted or ResponseIncomplete event received from Responses API".

Definition resp_finish (id : str) (start : Z) (a : RespAcc) (now : Z) (col : option CollectorState)
  : list SamplingEvent :=
  match ra_final_response a with
  | None => [server_failed id NO_TERMINAL_RESPONSE]
  | Some r =>
      let signals := match col with Some c => snd (collector_take c) | None => [] end in
      [Completed id (resp_response a r signals)
         (from_timestamps start (ta_chunk_timestamps (ra_tokens a)) now)]
  end.

Definition stream_responses (raw : RawStream ResponseStreamEvent)
    (model_metadata : option ResponseModelMetadata) (id : str) (idle wall start : Z)
  : list L2Out :=
  map Yielded (stream_head id wall model_metadata) ++
  stream_loop (resp_step id idle) (resp_finish id start) id idle (resp_new start) start
    (raw_items raw) (raw_end raw).

End Transform.
Arguments Next {S}. Arguments Break {S}. Arguments Return {S}.
