(* ===== verification/SamplerTask.v ===== *)
(** * The sampler: request tasks and the actor

    [xai-grok-sampler/src/actor]: [request_task.rs], the attempts of one
    request with their retry loop, and [mod.rs] with [state.rs], the actor
    that registers, cancels and cleans up tasks; [config.rs] and [commands.rs].

    The HTTP client is the environment: what it gives an attempt, the times,
    the hashes of the backoff and the moment a cancellation is seen are an
    argument [AttemptEnv] per attempt. *)
From S2P Require Import Prelude RustStr F64 StrSearch TokenEstimation Conversation Sampling SamplingError SamplerStream SamplerTransform.

(** ** Words of a text, [split_whitespace] *)
Fixpoint words_from (word : str) (s : str) : list str :=
  match s with
  | [] => if is_empty word then [] else [word]
  | c :: s' =>
      if is_whitespace c then
        if is_empty word then words_from [] s' else word :: words_from [] s'
      else words_from (word ++ [c]) s'
  end.
Definition split_whitespace (s : str) : list str := words_from [] s.

(** [find_map] *)
Fixpoint find_map {A B} (f : A → option B) (l : list A) : option B :=
  match l with
  | [] => None
  | x :: l' => match f x with Some y => Some y | None => find_map f l' end
  end.

(** ** config.rs *)

(** [cfg_client] stands for the fields only the HTTP client reads. *)
Record SamplerConfig (ClientFields : Type) := {
  cfg_base_url : str;
  cfg_model : str;
  cfg_api_backend : ApiBackend;
  cfg_force_http1 : bool;
  cfg_max_retries : option Z;
  cfg_idle_timeout_secs : option Z;
  cfg_doom_loop_recovery : option DoomLoopRecoveryPolicy;
  cfg_client : ClientFields;
}.
Arguments cfg_base_url {_}. Arguments cfg_model {_}. Arguments cfg_api_backend {_}.
Arguments cfg_force_http1 {_}. Arguments cfg_max_retries {_}.
Arguments cfg_idle_timeout_secs {_}. Arguments cfg_doom_loop_recovery {_}.
Arguments cfg_client {_}.

Record RetryPolicy := { rp_max_retries : Z; rp_rate_limit_retry_threshold : Z }.

Definition retry_policy_default : RetryPolicy :=
  {| rp_max_retries := DEFAULT_MAX_RETRIES;
     rp_rate_limit_retry_threshold := RATE_LIMIT_RETRY_THRESHOLD |}.

Definition DEFAULT_IDLE_TIMEOUT_SECS : Z := 300.
Definition S_CHAR : char := 115.

Section Task.
Context {RS : RsApi} {SA : SamplerApi} `{!StreamApi} {DA : DecodeApi} {CF : Type}.
Notation Config := (SamplerConfig CF).

Definition CompletionResult : Type :=
  result (ConversationResponse * InferenceLatencyStats) SamplingError.

Inductive AttemptOutcome : Type :=
| AttemptCompleted (response : ConversationResponse) (metrics : InferenceLatencyStats)
| AttemptEmpty (context : EmptyResponseContext)
| AttemptFailed (error : SamplingError)
| AttemptCancelled
| AttemptInitFailed (error : SamplingError)
(** not a value of the code: [client.conversation_stream(request).await] never returns *)
| AttemptUnanswered.

(** What the environment does in one attempt: whether the token is cancelled
    when the attempt starts, the hash of its backoff, what awaiting the response
    gives, the clocks, and after how many events of the stream the cancellation is
    seen.  The await is not timed and does not watch the token: [ae_connect] is
    [None] when the server never answers.  The stream of an answer ends or falls
    silent ([SseStream]); one that goes on forever is not an environment here. *)
Record AttemptEnv := {
  ae_cancelled : bool;
  ae_finish : Z;
  ae_connect : option (result (SseStream * option ResponseModelMetadata) SamplingError);
  ae_wall : Z;
  ae_start : Z;
  ae_cancel_after : option nat;
}.

(** ** synthesize_from_info *)

Definition parse_elapsed (message : str) : Z :=
  default 0%Z
    (find_map (λ tok, strip_suffix [S_CHAR] tok ≫= parse_unsigned U64_MAX)
       (split_whitespace message)).

Definition synthesize_from_info (info : SamplingErrorInfo) : SamplingError :=
  match in_kind info with
  | KIdleTimeout => IdleTimeout (parse_elapsed (in_message info))
  | KAuth => Auth (in_message info)
  | KSerialization => serialization_from_rendered (in_message info)
  | KHttp => EventStreamError (in_message info)
  | KApi | KRateLimited =>
      Api (default INTERNAL_SERVER_ERROR (in_status_code info ≫= status_from_u16))
        (in_message info) (in_model_metadata info) (in_retry_after_secs info) None
  | KEmptyResponse =>
      match in_empty_response_context info with
      | Some ctx => EmptyResponse ctx
      | None => EventStreamError (in_message info)
      end
  | KMaxTokensTruncation => MaxTokensTruncation
  | KDoomLoopDetected =>
      DoomLoopDetected (default [] (in_doom_loop_triggers info))
        (in_doom_loop_aborted_at_chunk info)
  end.

Definition build_empty_context (reason : EmptyReason) (response : ConversationResponse)
  : EmptyResponseContext :=
  {| ec_reason := reason;
     ec_had_reasoning := existsb reasoning_present (reasoning_items response);
     ec_content_len := match assistant response with Some a => str_len (a_content a) | None => 0 end;
     ec_tool_call_count :=
       match assistant response with Some a => length (a_tool_calls a) | None => 0%nat end;
     ec_finish_reason := stop_reason_as_str <$> cr_stop_reason response;
     ec_completion_tokens := completion_tokens <$> cr_usage response;
     ec_reasoning_tokens := reasoning_tokens <$> cr_usage response;
     ec_prompt_tokens := prompt_tokens <$> cr_usage response;
     ec_model := match assistant response with
                 | Some a => default [] (a_model_id a)
                 | None => []
                 end;
     ec_first_choice_seen :=
       match assistant response with Some a => is_some (a_model_id a) | None => false end |}.

(** ** drive_l2 *)

Definition STREAM_DROPPED : str := Eval vm_compute in lit "stream dropped without terminal event".

(** What a [Completed] event of the transform makes of the attempt. *)
Definition completed_outcome (doom_check : option DoomLoopRecoveryPolicy)
    (response : ConversationResponse) (metrics : InferenceLatencyStats) : AttemptOutcome :=
  let triggers :=
    match doom_check with
    | Some policy => confident_triggers policy (cr_doom_loop_signals response)
    | None => []
    end in
  if negb (is_empty triggers) then AttemptFailed (DoomLoopDetected triggers None)
  else if bool_decide (cr_stop_reason response = Some StopLength) then
    AttemptFailed MaxTokensTruncation
  else
    let content_filtered := bool_decide (cr_stop_reason response = Some StopContentFilter) in
    match (if content_filtered then None else empty_reason response) with
    | Some reason => AttemptEmpty (build_empty_context reason response)
    | None => AttemptCompleted response metrics
    end.

(** [tee_errors]: the cell holds the first error taken from the raw stream. *)
Definition tee_cell (cell : option SamplingError) (err : option SamplingError)
  : option SamplingError :=
  match cell, err with
  | None, Some e => Some (clone_error e)
  | _, _ => cell
  end.

Fixpoint drive_l2 (l2 : list L2Out) (cell : option SamplingError) (cancel_after : option nat)
    (doom_check : option DoomLoopRecoveryPolicy) : list SamplingEvent * AttemptOutcome :=
  match l2 with
  | [] =>
      match cancel_after with
      | Some O => ([], AttemptCancelled)
      | _ => ([], AttemptFailed (EventStreamError STREAM_DROPPED))
      end
  | Polled err :: l2' => drive_l2 l2' (tee_cell cell err) cancel_after doom_check
  | Yielded e :: l2' =>
      match cancel_after with
      | Some O => ([], AttemptCancelled)
      | _ =>
          match e with
          | Completed _ response metrics => ([], completed_outcome doom_check response metrics)
          | Failed _ info => ([], AttemptFailed (default (synthesize_from_info info) cell))
          | other =>
              let '(sent, outcome) := drive_l2 l2' cell (pred <$> cancel_after) doom_check in
              (other :: sent, outcome)
          end
      end
  end.

(** ** run_one_attempt *)

(** A client is known by the configuration it was made with. *)
Definition attempt_l2 (config : Config) (id : str) (idle : Z)
    (doom_check : option DoomLoopRecoveryPolicy) (env : AttemptEnv) (sse : SseStream)
    (metadata : option ResponseModelMetadata) : list L2Out :=
  match cfg_api_backend config with
  | ChatCompletions =>
      stream_chat_completions (chat_raw sse) metadata id idle (ae_wall env) (ae_start env)
  | Messages => stream_messages (messages_raw sse) metadata id idle (ae_wall env) (ae_start env)
  | Responses =>
      let collector := collector_new <$> cfg_doom_loop_recovery config in
      let collector :=
        match doom_check with None => disarm_abort <$> collector | Some _ => collector end in
      stream_responses (responses_raw collector sse) metadata id idle (ae_wall env) (ae_start env)
  end.

Definition run_one_attempt (config : Config) (id : str) (idle : Z)
    (doom_check : option DoomLoopRecoveryPolicy) (env : AttemptEnv)
  : list SamplingEvent * AttemptOutcome :=
  match ae_connect env with
  | None => ([], AttemptUnanswered)
  | Some (Err e) => ([], AttemptInitFailed e)
  | Some (Ok (sse, metadata)) =>
      drive_l2 (attempt_l2 config id idle doom_check env sse metadata) None (ae_cancel_after env)
        (match cfg_api_backend config with Responses => doom_check | _ => None end)
  end.

(** ** The retry loop *)

(** What a task does, in order: events sent, sleeps, and the completion of
    [submit_and_collect]; [Waits] for a task that waits for a response forever. *)
Inductive TaskOut : Type :=
| Sent (e : SamplingEvent)
| Slept (d : Z)
| Completion (r : CompletionResult)
| Waits.

Record TaskState := {
  ts_request : ConversationRequest;
  ts_client : Config;
  ts_retry_count : Z;
  ts_doom_retry_count : Z;
}.

(** What a task is started with; [tk_http1] is what [SamplingClient::new] gives
    for the configuration with HTTP/1.1 forced. *)
Record TaskParams := {
  tk_id : str;
  tk_config : Config;
  tk_policy : RetryPolicy;
  tk_env_override : option str;
  tk_new : result unit SamplingError;
  tk_http1 : result unit SamplingError;
}.

Definition cancelled_info : SamplingErrorInfo :=
  {| in_kind := KApi; in_status_code := None; in_message := lit "request cancelled";
     in_is_retryable := false; in_retry_after_secs := None; in_model_metadata := None;
     in_empty_response_context := None; in_doom_loop_triggers := None;
     in_doom_loop_aborted_at_chunk := None |}.

Definition handle_cancellation (id : str) : list TaskOut :=
  [Sent (Failed id cancelled_info); Completion (Err (Auth (lit "request cancelled")))].

Definition emit_failed (id : str) (e : SamplingError) : TaskOut := Sent (Failed id (info_of e)).

Definition emit_retrying (id : str) (attempt max_retries : Z) (e : SamplingError) : TaskOut :=
  let info := info_of e in
  Sent (Retrying id attempt max_retries (in_kind info) (to_string e) (in_doom_loop_triggers info)
          (in_doom_loop_aborted_at_chunk info)).

Definition set_items (r : ConversationRequest) (its : list ConversationItem) : ConversationRequest :=
  {| items := its; tools := tools r; hosted_tools := hosted_tools r; tool_choice := tool_choice r;
     request_model := request_model r; request_temperature := request_temperature r;
     max_output_tokens := max_output_tokens r; request_top_p := request_top_p r;
     x_grok_conv_id := x_grok_conv_id r; x_grok_req_id := x_grok_req_id r;
     x_grok_session_id := x_grok_session_id r; x_grok_turn_idx := x_grok_turn_idx r;
     x_grok_agent_id := x_grok_agent_id r; x_grok_deployment_id := x_grok_deployment_id r;
     x_grok_user_id := x_grok_user_id r; trace := trace r;
     request_reasoning_effort := request_reasoning_effort r; json_schema := json_schema r |}.

(** [request.strip_images()]: the request after it, and the count. *)
Definition request_strip_images (r : ConversationRequest) : ConversationRequest * nat :=
  let '(its, n) := strip_images (items r) in (set_items r its, n).

Definition force_http1 (c : Config) : Config :=
  {| cfg_base_url := cfg_base_url c; cfg_model := cfg_model c;
     cfg_api_backend := cfg_api_backend c; cfg_force_http1 := true;
     cfg_max_retries := cfg_max_retries c; cfg_idle_timeout_secs := cfg_idle_timeout_secs c;
     cfg_doom_loop_recovery := cfg_doom_loop_recovery c; cfg_client := cfg_client c |}.

Definition rate_limit_threshold (p : RetryPolicy) : Z :=
  if (rp_rate_limit_retry_threshold p =? 0)%Z then RATE_LIMIT_RETRY_THRESHOLD
  else rp_rate_limit_retry_threshold p.

Definition max_retries_of (tk : TaskParams) : Z :=
  resolve_max_retries_with_env (tk_env_override tk)
    (match cfg_max_retries (tk_config tk) with
     | Some n => Some n
     | None => Some (rp_max_retries (tk_policy tk))
     end).

Definition retried (st : TaskState) (request : ConversationRequest) (client : Config) : TaskState :=
  {| ts_request := request; ts_client := client;
     ts_retry_count := u32_add (ts_retry_count st) 1;
     ts_doom_retry_count := ts_doom_retry_count st |}.

(** The outputs, and the state to go on with; [None] when the request is
    finished. *)
Definition apply_retry_decision (tk : TaskParams) (finish : Z) (err : SamplingError)
    (st : TaskState) : list TaskOut * option TaskState :=
  let id := tk_id tk in
  let max_retries := max_retries_of tk in
  let decision :=
    classify_error finish err (ts_retry_count st) max_retries
      (rate_limit_threshold (tk_policy tk)) in
  let request :=
    if is_likely_body_rejected err then fst (request_strip_images (ts_request st))
    else ts_request st in
  let attempt := u32_add (ts_retry_count st) 1 in
  match decision with
  | Retry backoff =>
      ([emit_retrying id attempt max_retries err; Slept backoff],
       Some (retried st request (ts_client st)))
  | RetryWithBackoff backoff _ =>
      ([emit_retrying id attempt max_retries err; Slept backoff],
       Some (retried st request (ts_client st)))
  | RetryWithImageStrip =>
      let '(request', stripped) := request_strip_images request in
      if (stripped =? 0)%nat then
        ([emit_failed id err; Completion (Err (clone_error err))], None)
      else
        ([emit_retrying id attempt max_retries err], Some (retried st request' (ts_client st)))
  | RetryWithClientRebuild backoff =>
      ([emit_retrying id attempt max_retries err; Slept backoff],
       Some (retried st request
               (match tk_http1 tk with
                | Ok _ => force_http1 (tk_config tk)
                | Err _ => ts_client st
                end)))
  | EmitToSession emitted => ([emit_failed id emitted; Completion (Err emitted)], None)
  | Fatal fatal => ([emit_failed id fatal; Completion (Err fatal)], None)
  end.

Definition doom_budget (tk : TaskParams) : Z :=
  match cfg_doom_loop_recovery (tk_config tk) with Some p => doom_max_retries p | None => 0%Z end.

Definition doom_check_of (tk : TaskParams) (st : TaskState) : option DoomLoopRecoveryPolicy :=
  match cfg_doom_loop_recovery (tk_config tk) with
  | Some p => if (ts_doom_retry_count st <? doom_budget tk)%Z then Some p else None
  | None => None
  end.

Definition idle_timeout_of (tk : TaskParams) : Z :=
  from_secs (default DEFAULT_IDLE_TIMEOUT_SECS (cfg_idle_timeout_secs (tk_config tk))).

Definition with_attempts (m : InferenceLatencyStats) (n : Z) : InferenceLatencyStats :=
  {| st_time_to_first_token_ms := st_time_to_first_token_ms m;
     st_time_to_last_byte_ms := st_time_to_last_byte_ms m; st_chunk_count := st_chunk_count m;
     st_itl_intervals_ms := st_itl_intervals_ms m; st_itl_p50_ms := st_itl_p50_ms m;
     st_itl_p99_ms := st_itl_p99_ms m; st_itl_max_ms := st_itl_max_ms m;
     st_itl_mean_ms := st_itl_mean_ms m; st_attempts := n |}.

(** A doom-loop failure: its own budget, no classification. *)
Definition resample (tk : TaskParams) (finish : Z) (err : SamplingError) (st : TaskState)
  : list TaskOut * option TaskState :=
  let n := u32_add (ts_doom_retry_count st) 1 in
  ([emit_retrying (tk_id tk) n (doom_budget tk) err; Slept (doom_loop_backoff finish)],
   Some {| ts_request := ts_request st; ts_client := ts_client st;
           ts_retry_count := ts_retry_count st; ts_doom_retry_count := n |}).

(** One turn of the loop. *)
Definition task_turn (tk : TaskParams) (env : AttemptEnv) (st : TaskState)
  : list TaskOut * option TaskState :=
  if ae_cancelled env then (handle_cancellation (tk_id tk), None)
  else
    let '(sent, outcome) :=
      run_one_attempt (ts_client st) (tk_id tk) (idle_timeout_of tk) (doom_check_of tk st) env in
    let '(outs, next) :=
      match outcome with
      | AttemptCompleted response metrics =>
          let metrics :=
            with_attempts metrics
              (u32_add (u32_add (ts_retry_count st) (ts_doom_retry_count st)) 1) in
          ([Sent (Completed (tk_id tk) response metrics); Completion (Ok (response, metrics))],
           None)
      | AttemptEmpty context =>
          apply_retry_decision tk (ae_finish env) (EmptyResponse context) st
      | AttemptFailed error =>
          if is_doom_loop error then resample tk (ae_finish env) error st
          else apply_retry_decision tk (ae_finish env) error st
      | AttemptCancelled => (handle_cancellation (tk_id tk), None)
      | AttemptInitFailed error => apply_retry_decision tk (ae_finish env) error st
      | AttemptUnanswered => ([Waits], None)
      end in
    (map Sent sent ++ outs, next).

(** The loop: [env] gives what attempt [n] meets with this client and this
    request.  [None] when the fuel is spent. *)
Fixpoint task_loop (tk : TaskParams) (env : nat → Config → ConversationRequest → AttemptEnv)
    (fuel n : nat) (st : TaskState) : option (list TaskOut) :=
  match fuel with
  | O => None
  | S fuel' =>
      let '(outs, next) := task_turn tk (env n (ts_client st) (ts_request st)) st in
      match next with
      | None => Some outs
      | Some st' => app outs <$> task_loop tk env fuel' (S n) st'
      end
  end.

Definition task_start (tk : TaskParams) (request : ConversationRequest) : TaskState :=
  {| ts_request := request; ts_client := tk_config tk; ts_retry_count := 0;
     ts_doom_retry_count := 0 |}.

Definition run_request_task (tk : TaskParams)
    (env : nat → Config → ConversationRequest → AttemptEnv) (request : ConversationRequest)
    (fuel : nat) : option (list TaskOut) :=
  match tk_new tk with
  | Err err => Some [emit_failed (tk_id tk) err; Completion (Err err)]
  | Ok _ => task_loop tk env fuel 0 (task_start tk request)
  end.

(** ** The actor *)

(** A task is known by a number; its cancellation token is known by the same
    number.  [completion_tx] goes to the task and is not modelled here. *)
Inductive SamplerCommand : Type :=
| Submit (request_id : str) (request : ConversationRequest) (config : option Config)
| Cancel (request_id : str)
| UpdateConfig (config : Config)
| IsActive (request_id : str)
| ActiveCount.

Inductive SamplerReply : Type :=
| ReplyActive (b : bool)
| ReplyCount (n : nat).

(** A task the actor has spawned. *)
Record Spawned := {
  sp_task : nat;
  sp_request_id : str;
  sp_request : ConversationRequest;
  sp_config : Config;
  sp_policy : RetryPolicy;
}.

Record SamplerActor := {
  sa_active_requests : gmap str nat;
  sa_config : Config;
  sa_retry_policy : RetryPolicy;
  sa_tasks : list Spawned;
  sa_cancelled : list nat;
  sa_next : nat;
  sa_replies : list SamplerReply;
}.

Definition actor_spawn (config : Config) (policy : RetryPolicy) : SamplerActor :=
  {| sa_active_requests := ∅; sa_config := config; sa_retry_policy := policy; sa_tasks := [];
     sa_cancelled := []; sa_next := 0; sa_replies := [] |}.

Definition set_active (a : SamplerActor) (active : gmap str nat) (cancelled : list nat)
  : SamplerActor :=
  {| sa_active_requests := active; sa_config := sa_config a; sa_retry_policy := sa_retry_policy a;
     sa_tasks := sa_tasks a; sa_cancelled := cancelled; sa_next := sa_next a;
     sa_replies := sa_replies a |}.

(** [ActorState::register]: the state and the previous entry. *)
Definition register (id : str) (token : nat) (a : SamplerActor) : SamplerActor * option nat :=
  (set_active a (<[id := token]> (sa_active_requests a)) (sa_cancelled a),
   sa_active_requests a !! id).

Definition actor_remove (id : str) (a : SamplerActor) : SamplerActor :=
  set_active a (delete id (sa_active_requests a)) (sa_cancelled a).

Definition cancel_token (token : nat) (a : SamplerActor) : SamplerActor :=
  set_active a (sa_active_requests a) (token :: sa_cancelled a).

(** [ActorState::cancel] *)
Definition actor_cancel (id : str) (a : SamplerActor) : SamplerActor * bool :=
  match sa_active_requests a !! id with
  | Some token => (cancel_token token (actor_remove id a), true)
  | None => (a, false)
  end.

Definition update_config (config : Config) (a : SamplerActor) : SamplerActor :=
  {| sa_active_requests := sa_active_requests a; sa_config := config;
     sa_retry_policy := sa_retry_policy a; sa_tasks := sa_tasks a;
     sa_cancelled := sa_cancelled a; sa_next := sa_next a; sa_replies := sa_replies a |}.

Definition spawn_task (s : Spawned) (a : SamplerActor) : SamplerActor :=
  {| sa_active_requests := sa_active_requests a; sa_config := sa_config a;
     sa_retry_policy := sa_retry_policy a; sa_tasks := sa_tasks a ++ [s];
     sa_cancelled := sa_cancelled a; sa_next := S (sa_next a); sa_replies := sa_replies a |}.

Definition reply (r : SamplerReply) (a : SamplerActor) : SamplerActor :=
  {| sa_active_requests := sa_active_requests a; sa_config := sa_config a;
     sa_retry_policy := sa_retry_policy a; sa_tasks := sa_tasks a;
     sa_cancelled := sa_cancelled a; sa_next := sa_next a; sa_replies := sa_replies a ++ [r] |}.

Definition handle_command (cmd : SamplerCommand) (a : SamplerActor) : SamplerActor :=
  match cmd with
  | Submit id request config =>
      let token := sa_next a in
      let '(a, prev) := register id token a in
      let a := match prev with Some p => cancel_token p a | None => a end in
      spawn_task {| sp_task := token; sp_request_id := id; sp_request := request;
                    sp_config := default (sa_config a) config;
                    sp_policy := sa_retry_policy a |} a
  | Cancel id => fst (actor_cancel id a)
  | UpdateConfig config => update_config config a
  | IsActive id =>
      reply (ReplyActive (is_some (sa_active_requests a !! id))) a
  | ActiveCount => reply (ReplyCount (size (sa_active_requests a))) a
  end.

(** What the loop of [run] receives: a task that has ended, normally or by a
    panic, or a command. *)
Inductive ActorInput : Type :=
| Joined (task : nat)
| Panicked (task : nat)
| Command (cmd : SamplerCommand).

Definition drop_task (task : nat) (a : SamplerActor) : SamplerActor :=
  {| sa_active_requests := sa_active_requests a; sa_config := sa_config a;
     sa_retry_policy := sa_retry_policy a;
     sa_tasks := List.filter (λ s, negb (sp_task s =? task)%nat) (sa_tasks a);
     sa_cancelled := sa_cancelled a; sa_next := sa_next a; sa_replies := sa_replies a |}.

Definition actor_input (i : ActorInput) (a : SamplerActor) : SamplerActor :=
  match i with
  | Joined task =>
      match List.find (λ s, sp_task s =? task)%nat (sa_tasks a) with
      | Some s => actor_remove (sp_request_id s) (drop_task task a)
      | None => a
      end
  | Panicked task => drop_task task a
  | Command cmd => handle_command cmd a
  end.

(** After the loop: every token left is cancelled, the tasks are aborted. *)
Definition shut_down (a : SamplerActor) : SamplerActor :=
  {| sa_active_requests := ∅; sa_config := sa_config a; sa_retry_policy := sa_retry_policy a;
     sa_tasks := []; sa_cancelled := map snd (map_to_list (sa_active_requests a)) ++ sa_cancelled a;
     sa_next := sa_next a; sa_replies := sa_replies a |}.

Definition actor_run (inputs : list ActorInput) (a : SamplerActor) : SamplerActor :=
  shut_down (fold_left (λ a i, actor_input i a) inputs a).

End Task.
