(* ===== verification/SamplerFacts.v ===== *)
(** * Lemmas on the sampler

    What the raw streams carry, what the loop of the transforms yields, what
    [drive_l2] makes of it, and the steps of the retry loop. *)
From S2P Require Import Prelude RustStr F64 StrSearch TokenEstimation Conversation Sampling SamplingError SamplerStream SamplerTransform SamplerTask.

(** ** Backoff *)

Lemma base_ms_small n : (1 ≤ n ≤ 60)%Z → base_ms n = Z.min (2000 * 2 ^ (n - 1)) 30000.
Proof.
  intros Hn.
  assert (forallb (λ i, base_ms (Z.of_nat i) =? Z.min (2000 * 2 ^ (Z.of_nat i - 1)) 30000)%Z
            (seq 1 60) = true) as H by by vm_compute.
  rewrite forallb_forall in H. specialize (H (Z.to_nat n)).
  rewrite Z2Nat.id in H by lia. apply Z.eqb_eq, H, in_seq. lia.
Qed.

Lemma base_ms_large n : (65 ≤ n)%Z → base_ms n = 30000%Z.
Proof.
  intros Hn. unfold base_ms, checked_shl, saturating_sub.
  destruct (Z.ltb_spec (Z.max 0 (n - 1)) 64); [lia|]. done.
Qed.

Lemma base_ms_lost n : (61 ≤ n ≤ 64)%Z → base_ms n = 0%Z.
Proof.
  intros Hn. assert (n = 61 ∨ n = 62 ∨ n = 63 ∨ n = 64)%Z as [ -> | [ -> | [ -> | -> ] ] ] by lia;
    by vm_compute.
Qed.

(** ** Classification *)

Section Facts.
Context {RS : RsApi} {SA : SamplerApi} `{!StreamApi} {DA : DecodeApi}.

(** A retry other than the one after stripping images is within the budget. *)
Lemma classify_retries finish e rc mx thr :
  is_doom_loop e = false →
  match classify_error finish e rc mx thr with
  | Retry _ | RetryWithBackoff _ _ | RetryWithClientRebuild _ =>
      (u32_add rc 1 < mx)%Z ∧ is_retryable e = true ∧ should_retry_header e ≠ Some false ∧
      is_context_length_error e = false
  | RetryWithImageStrip => is_payload_too_large e || is_image_processing_error e = true
  | EmitToSession e' | Fatal e' => e' = clone_error e
  end.
Proof.
  intros Hd. unfold classify_error.
  destruct (is_auth_error e); [done|]. destruct (is_encrypted_content_error e); [done|].
  destruct (is_payload_too_large e); [done|]. destruct (is_image_processing_error e); [done|].
  case_bool_decide; [done|]. destruct (is_context_length_error e); [done|]. rewrite Hd.
  destruct (is_rate_limited e) eqn:Hr.
  - destruct (Z.leb_spec (Z.min mx thr) (u32_add rc 1)); [done|].
    split; [lia|]. split; [|done]. destruct e; try done. cbn in *.
    apply Z.eqb_eq in Hr. by subst.
  - destruct (is_retryable e) eqn:Hret; [|done].
    destruct (Z.leb_spec mx (u32_add rc 1)); [done|].
    destruct (u32_add rc 1 =? 1)%Z; done.
Qed.

Lemma clone_not_doom e : is_doom_loop (clone_error e) = is_doom_loop e.
Proof. by destruct e. Qed.

(** ** Raw streams *)

(** The collectors a raw stream carries satisfy [I], its errors [Q]. *)
Definition raw_ok {A} (I : option CollectorState → Prop) (Q : SamplingError → Prop)
    (items : list (Z * option CollectorState * result A SamplingError))
    (end_at : option (Z * option CollectorState)) : Prop :=
  Forall (λ x, I x.1.2 ∧ match x.2 with Err e => Q e | Ok _ => True end) items ∧
  match end_at with Some (_, col) => I col | None => True end.

Lemma decode_frames_ok {A} decode I Q had col frames end_at :
  (∀ t, Q (EventStreamError t)) →
  (∀ name data c, I c →
     I (decode name data c).1 ∧ match (decode name data c).2 with Some (Err e) => Q e | _ => True end) →
  I col →
  raw_ok I Q (raw_items (decode_frames (A:=A) decode had col frames end_at))
    (raw_end (decode_frames decode had col frames end_at)).
Proof.
  intros Ht Hdec. revert had col.
  induction frames as [|[t [[name data]|text]] frames IH]; intros had col Hcol; cbn [decode_frames].
  - split; [constructor|]. by destruct end_at.
  - destruct had; [by split; [constructor|]|].
    destruct (str_eqb data DONE); [by split; [constructor|]|].
    destruct (Hdec name data col Hcol) as [H1 H2].
    destruct (decode name data col) as [col' item]. cbn in H1, H2.
    destruct (IH false col' H1) as [HF HE]. split; [|done].
    destruct item as [x|]; [|done]. constructor; [|done]. split; [done|]. by destruct x.
  - destruct had; [by split; [constructor|]|].
    destruct (IH true col Hcol) as [HF HE]. split; [|done]. constructor; [|done]. split; [done|].
    apply Ht.
Qed.

(** Errors a decoder makes *)
Definition decode_error (e : SamplingError) : Prop :=
  match e with EventStreamError _ | StreamError _ _ | Serialization _ => True | _ => False end.

Lemma try_parse_stream_error_made data e :
  try_parse_stream_error data = Some e → decode_error e.
Proof.
  unfold try_parse_stream_error. destruct (try_parse_error data) as [[ty m]|]; [|done].
  by intros [= <-].
Qed.

Lemma absorb_policy name data c :
  col_policy (absorb name data c).1 = col_policy c ∧
  col_abort_disarmed (absorb name data c).1 = col_abort_disarmed c.
Proof.
  unfold absorb, absorb_signals. destruct (peek_doom_loop data) as [ss|ss|]; cbn.
  - by destruct (is_empty ss).
  - by destruct (is_empty ss).
  - by destruct (str_eqb name DOOM_LOOP_CHECK_EVENT_TYPE).
Qed.

(** The policy and the arming of a collector stay as they are. *)
Definition col_like (c0 c : option CollectorState) : Prop :=
  match c0, c with
  | None, None => True
  | Some a, Some b =>
      col_policy b = col_policy a ∧ col_abort_disarmed b = col_abort_disarmed a
  | _, _ => False
  end.

Lemma col_like_refl c : col_like c c.
Proof. by destruct c. Qed.

Lemma deserialize_response_event_made data e :
  deserialize_response_event data = Err e → decode_error e.
Proof.
  unfold deserialize_response_event. destruct (response_event_from_str data); [done|].
  destruct (value_from_str data ≫= _); [done|]. by intros [= <-].
Qed.

Lemma responses_raw_ok c0 s :
  raw_ok (col_like c0) decode_error (raw_items (responses_raw c0 s)) (raw_end (responses_raw c0 s)).
Proof.
  apply decode_frames_ok; [done| |apply col_like_refl].
  intros name data c Hc. unfold decode_response.
  assert (∀ b : bool, match (if b then None
     else Some match try_parse_stream_error data with
               | Some e => Err e | None => deserialize_response_event data end)
     with Some (Err e) => decode_error e | _ => True end) as Hdec.
  { intros [|]; [done|]. destruct (try_parse_stream_error data) eqn:E.
    - by apply try_parse_stream_error_made in E.
    - destruct (deserialize_response_event data) eqn:E'; [done|].
      by apply deserialize_response_event_made in E'. }
  destruct c as [c|].
  - destruct (absorb name data c) as [c' sw] eqn:E.
    pose proof (absorb_policy name data c) as [H1 H2]. rewrite E in H1, H2. cbn in *.
    split; [|apply Hdec]. destruct c0 as [c0|]; [|done]. cbn in *. destruct Hc. split; congruence.
  - split; [done|apply Hdec].
Qed.

Lemma chat_raw_ok s :
  raw_ok (col_like None) decode_error (raw_items (chat_raw s)) (raw_end (chat_raw s)).
Proof.
  apply decode_frames_ok; [done| |done]. intros name data c Hc. split; [done|]. cbn.
  destruct (try_parse_stream_error data) eqn:E; [by apply try_parse_stream_error_made in E|].
  by destruct (chunk_from_str data).
Qed.

Lemma messages_raw_ok s :
  raw_ok (col_like None) decode_error (raw_items (messages_raw s)) (raw_end (messages_raw s)).
Proof.
  apply decode_frames_ok; [done| |done]. intros name data c Hc. split; [done|]. cbn.
  destruct (try_parse_stream_error data) eqn:E; [by apply try_parse_stream_error_made in E|].
  by destruct (message_event_from_str data).
Qed.

(** ** What the events of a request carry *)

(** The text of a channel *)
Definition channel_eqb (a b : SamplingChannel) : bool :=
  match a, b with
  | ChannelText, ChannelText | ChannelReasoning, ChannelReasoning => true
  | _, _ => false
  end.
Definition token_text (ch : SamplingChannel) (e : SamplingEvent) : str :=
  match e with ChannelToken _ ch' text _ => if channel_eqb ch ch' then text else [] | _ => [] end.
Definition channel_text (ch : SamplingChannel) (evs : list SamplingEvent) : str :=
  concat (map (token_text ch) evs).

(** The number of text tokens *)
Definition text_tokens (evs : list SamplingEvent) : nat :=
  length (List.filter (λ e, match e with ChannelToken _ ChannelText _ _ => true | _ => false end) evs).

(** A first token at most once, and before the others; tokens are not empty
    and are numbered one after the other.  The state is whether the first token was
    announced, and the last number. *)
Definition scan_token (s : bool * Z) (e : SamplingEvent) : option (bool * Z) :=
  match e with
  | FirstToken _ => if s.1 then None else Some (true, s.2)
  | ChannelToken _ _ text n =>
      if s.1 && negb (is_empty text) && (n =? wrapping_add s.2 1)%Z then Some (true, n) else None
  | _ => Some s
  end.
Fixpoint scan_tokens (s : bool * Z) (evs : list SamplingEvent) : option (bool * Z) :=
  match evs with
  | [] => Some s
  | e :: evs' => match scan_token s e with Some s' => scan_tokens s' evs' | None => None end
  end.

(** What the deltas of the tool call of index [k] put together: the last
    identifier, the last name, the arguments in order. *)
Definition assemble_step (k : Z) (acc : str * str * str) (e : SamplingEvent) : str * str * str :=
  match e with
  | ToolCallDeltaEvent _ k' id name args =>
      if (k' =? k)%Z then
        (default acc.1.1 id, default acc.1.2 name, acc.2 ++ default [] args)
      else acc
  | _ => acc
  end.
Definition assembled (k : Z) (evs : list SamplingEvent) : str * str * str :=
  fold_left (assemble_step k) evs ([], [], []).
Definition delta_index (e : SamplingEvent) : option Z :=
  match e with ToolCallDeltaEvent _ k _ _ _ => Some k | _ => None end.
Definition delta_indices (evs : list SamplingEvent) : list Z := omap delta_index evs.

(** The tokens of the events are announced and numbered. *)
Definition announced (evs : list SamplingEvent) : Prop := is_Some (scan_tokens (false, 0%Z) evs).

Lemma channel_text_app ch evs evs' :
  channel_text ch (evs ++ evs') = channel_text ch evs ++ channel_text ch evs'.
Proof. unfold channel_text. by rewrite map_app, concat_app. Qed.
Lemma scan_tokens_app s evs evs' :
  scan_tokens s (evs ++ evs') =
  match scan_tokens s evs with Some s' => scan_tokens s' evs' | None => None end.
Proof.
  revert s. induction evs as [|e evs IH]; intros s; [done|]. cbn.
  destruct (scan_token s e); [apply IH|done].
Qed.
Lemma assembled_app k evs evs' :
  assembled k (evs ++ evs') = fold_left (assemble_step k) evs' (assembled k evs).
Proof. apply fold_left_app. Qed.
Lemma delta_indices_app evs evs' :
  delta_indices (evs ++ evs') = delta_indices evs ++ delta_indices evs'.
Proof. apply omap_app. Qed.
Lemma assemble_other k evs acc :
  delta_indices evs = [] → fold_left (assemble_step k) evs acc = acc.
Proof.
  revert acc. induction evs as [|e evs IH]; intros acc; [done|].
  unfold delta_indices. cbn. destruct e; cbn; try done; by apply IH.
Qed.

(** An event of the stream itself: neither the end of the request nor a retry. *)
Definition is_plain (e : SamplingEvent) : bool :=
  match e with Completed _ _ _ | Failed _ _ | Retrying _ _ _ _ _ _ _ => false | _ => true end.
Definition nonterminal (e : SamplingEvent) : Prop := is_plain e = true.

(** *** Tokens *)

Definition scan_state (a : TokenAcc) : bool * Z := (ta_first_token_emitted a, ta_chunk_index a).

(** What a run of events adds to the counters. *)
Definition token_run (a a' : TokenAcc) (evs : list SamplingEvent) : Prop :=
  Forall nonterminal evs ∧ scan_tokens (scan_state a) evs = Some (scan_state a') ∧
  delta_indices evs = [].

Lemma token_run_nil a : token_run a a [].
Proof. by split. Qed.

Lemma first_token_run id a :
  let '(a', evs) := first_token id a in
  token_run a a' evs ∧ ta_first_token_emitted a' = true ∧ (∀ ch, channel_text ch evs = []) ∧
  ta_chunk_index a' = ta_chunk_index a.
Proof.
  unfold first_token. destruct (ta_first_token_emitted a) eqn:E; cbn.
  - by split; [apply token_run_nil|].
  - split; [|done]. split; [by constructor|]. unfold scan_state. by rewrite E.
Qed.

Lemma text_token_run id now text a :
  let '(a', evs) := text_token id now text a in
  token_run a a' evs ∧ channel_text ChannelText evs = text ∧ channel_text ChannelReasoning evs = [].
Proof.
  unfold text_token. destruct text as [|c text]; [by split; [apply token_run_nil|]|]. cbn [is_empty].
  pose proof (first_token_run id a) as HF. destruct (first_token id a) as [a1 evs].
  destruct HF as ((Hn & Hs & Hd) & Hf & Hc & Hi). split; [split; [|split]|].
  - apply Forall_app. by repeat constructor.
  - rewrite scan_tokens_app, Hs. unfold scan_state. rewrite Hf. cbn.
    by rewrite Z.eqb_refl.
  - by rewrite delta_indices_app, Hd.
  - rewrite !channel_text_app, !Hc. cbn. by rewrite app_nil_r.
Qed.

Lemma reasoning_token_run id text a :
  let '(a', evs) := reasoning_token id text a in
  token_run a a' evs ∧ channel_text ChannelReasoning evs = text ∧ channel_text ChannelText evs = [].
Proof.
  unfold reasoning_token. destruct text as [|c text]; [by split; [apply token_run_nil|]|].
  cbn [is_empty].
  pose proof (first_token_run id a) as HF. destruct (first_token id a) as [a1 evs].
  destruct HF as ((Hn & Hs & Hd) & Hf & Hc & Hi). split; [split; [|split]|].
  - apply Forall_app. by repeat constructor.
  - rewrite scan_tokens_app, Hs. unfold scan_state. rewrite Hf. cbn.
    by rewrite Z.eqb_refl.
  - by rewrite delta_indices_app, Hd.
  - rewrite !channel_text_app, !Hc. cbn. by rewrite app_nil_r.
Qed.

(** *** Sorted maps *)

Definition bt_sorted {V} (m : list (Z * V)) : Prop := StronglySorted Z.lt (map fst m).

Lemma bt_insert_keys {V} k (v : V) m x :
  x ∈ map fst (bt_insert k v m) ↔ x = k ∨ x ∈ map fst m.
Proof.
  induction m as [|[k' v'] m IH]; cbn; [set_solver|].
  destruct (k <? k')%Z; cbn; [set_solver|].
  destruct (Z.eqb_spec k k'); cbn; [subst; set_solver|]. set_solver.
Qed.

Lemma bt_insert_sorted {V} k (v : V) m : bt_sorted m → bt_sorted (bt_insert k v m).
Proof.
  unfold bt_sorted. induction m as [|[k' v'] m IH]; cbn; intros Hs; [by repeat constructor|].
  apply StronglySorted_inv in Hs as [Hs Hk].
  destruct (Z.ltb_spec k k'); cbn.
  - constructor; [by constructor|]. constructor; [done|].
    eapply Forall_impl; [exact Hk|]. intros; lia.
  - destruct (Z.eqb_spec k k'); cbn; [subst; by constructor|]. constructor; [by apply IH|].
    apply Forall_forall. intros x [-> |Hx]%bt_insert_keys; [lia|].
    rewrite Forall_forall in Hk. by apply Hk.
Qed.

Lemma bt_insert_elem {V} k (v : V) m x :
  bt_sorted m → x ∈ bt_insert k v m → x = (k, v) ∨ (x ∈ m ∧ x.1 ≠ k).
Proof.
  unfold bt_sorted. induction m as [|[k' v'] m IH]; cbn; intros Hs; [set_solver|].
  apply StronglySorted_inv in Hs as [Hs Hk].
  assert (∀ y, y ∈ m → (k' < y.1)%Z) as Hlt.
  { intros y Hy. rewrite Forall_forall in Hk. apply Hk. apply list_elem_of_fmap. by exists y. }
  destruct (Z.ltb_spec k k'); [|destruct (Z.eqb_spec k k')].
  - intros [-> | [-> |Hx]%elem_of_cons]%elem_of_cons; [by left| |].
    + right. split; [left|cbn; lia].
    + right. split; [by right|]. specialize (Hlt _ Hx). lia.
  - subst. intros [-> |Hx]%elem_of_cons; [by left|]. right. split; [by right|].
    specialize (Hlt _ Hx). lia.
  - intros [-> |Hx]%elem_of_cons; [right; split; [left|cbn; lia]|].
    destruct (IH Hs Hx) as [-> | [Hm Hn] ]; [by left|]. right. split; [by right|done].
Qed.

Lemma bt_get_elem {V} k (v : V) m : bt_get k m = Some v → (k, v) ∈ m.
Proof.
  induction m as [|[k' v'] m IH]; cbn; [done|]. destruct (Z.eqb_spec k k').
  - intros [= ->]. subst. left.
  - intros Hg. right. by apply IH.
Qed.
Lemma bt_get_none {V} k (m : list (Z * V)) : bt_get k m = None → k ∉ map fst m.
Proof.
  induction m as [|[k' v'] m IH]; cbn; [set_solver|]. destruct (Z.eqb_spec k k'); [done|].
  intros Hg [-> |Hx]%elem_of_cons; [done|]. by apply IH.
Qed.

(** *** Tool calls *)

(** The entries are the tool calls the events put together. *)
Definition tools_match (m : list (Z * (str * str * str))) (evs : list SamplingEvent) : Prop :=
  bt_sorted m ∧ (∀ k, k ∈ map fst m ↔ k ∈ delta_indices evs) ∧
  Forall (λ e, e.2 = assembled e.1 evs) m.

Lemma tools_match_other m evs evs' :
  delta_indices evs' = [] → tools_match m evs → tools_match m (evs ++ evs').
Proof.
  intros Hn (Hs & Hk & Hf). split; [done|]. split.
  - intros k. by rewrite delta_indices_app, Hn, app_nil_r.
  - eapply Forall_impl; [exact Hf|]. intros e He. by rewrite assembled_app, assemble_other.
Qed.

Lemma assembled_absent k evs : k ∉ delta_indices evs → assembled k evs = ([], [], []).
Proof.
  unfold assembled. generalize (@nil char, @nil char, @nil char).
  induction evs as [|e evs IH]; intros acc Hk; [done|]. unfold delta_indices in Hk. cbn in *.
  destruct e; cbn in *; try by apply IH.
  apply not_elem_of_cons in Hk as [Hne Hk]. destruct (Z.eqb_spec tool_index k); [congruence|].
  by apply IH.
Qed.

Lemma tool_delta_match id d m evs :
  tools_match m evs →
  let '(m', e) := tool_delta id d m in tools_match m' (evs ++ [e]) ∧ nonterminal e.
Proof.
  intros (Hs & Hk & Hf). unfold tool_delta.
  assert (default ([], [], []) (bt_get (cd_index d) m) = assembled (cd_index d) evs) as ->.
  { destruct (bt_get (cd_index d) m) as [v|] eqn:Eg; cbn.
    - apply bt_get_elem in Eg. rewrite Forall_forall in Hf. by apply (Hf _ Eg).
    - apply bt_get_none in Eg. rewrite Hk in Eg. by rewrite assembled_absent. }
  destruct (assembled (cd_index d) evs) as [[tid name] args] eqn:Ea. split; [|done].
  split; [by apply bt_insert_sorted|]. split.
  - intros k. rewrite bt_insert_keys, delta_indices_app, Hk. cbn. set_solver.
  - apply Forall_forall. intros [k v] Hx.
    apply bt_insert_elem in Hx as [ [= -> ->] | [Hx Hne] ]; [| |done]; cbn in *.
    + rewrite assembled_app, Ea. cbn. by rewrite Z.eqb_refl.
    + rewrite assembled_app. cbn. destruct (Z.eqb_spec (cd_index d) k); [congruence|].
      rewrite Forall_forall in Hf. by apply (Hf _ Hx).
Qed.

Lemma tool_deltas_match id ds m evs :
  tools_match m evs →
  let '(m', es) := tool_deltas id ds m in
  tools_match m' (evs ++ es) ∧ Forall nonterminal es ∧ (∀ s, scan_tokens s es = Some s) ∧
  (∀ ch, channel_text ch es = []).
Proof.
  revert m evs. induction ds as [|d ds IH]; intros m evs Hm; cbn [tool_deltas].
  - rewrite app_nil_r. split; [done|]. split; [constructor|]. by split.
  - pose proof (tool_delta_match id d m evs Hm) as Hd.
    destruct (tool_delta id d m) as [m1 e] eqn:Ed. destruct Hd as [Hd He].
    specialize (IH m1 (evs ++ [e]) Hd). destruct (tool_deltas id ds m1) as [m2 es].
    destruct IH as (H1 & H2 & H3 & H4).
    assert (∃ k a b c, e = ToolCallDeltaEvent id k a b c) as (k & a & b & c & ->).
    { unfold tool_delta in Ed. destruct (default _ _) as [[? ?] ?]. injection Ed as <- <-. eauto. }
    rewrite <- app_assoc in H1. split; [done|]. split; [by constructor|]. split; [|done].
    intros s. cbn. apply H3.
Qed.

(** ** The loop of the transforms *)

Definition quiet (o : L2Out) : Prop :=
  match o with
  | Polled err => err = None
  | Yielded e => nonterminal e
  end.

Definition yields (os : list L2Out) : list SamplingEvent :=
  omap (λ o, match o with Yielded e => Some e | Polled _ => None end) os.

Lemma yields_app os os' : yields (os ++ os') = yields os ++ yields os'.
Proof. apply omap_app. Qed.
Lemma yields_yielded evs : yields (map Yielded evs) = evs.
Proof. induction evs as [|e evs IH]; [done|]. cbn. unfold yields in IH. by rewrite IH. Qed.
Lemma quiet_yielded evs : Forall nonterminal evs → Forall quiet (map Yielded evs).
Proof. intros Hev. by apply Forall_map. Qed.

(** A run of the loop: quiet turns, and then an error taken from the raw
    stream, a failure of the transform's own, or what [finish] yields. *)
Inductive loop_run {S} (id : str) (I : option CollectorState → Prop)
    (Q E : SamplingError → Prop) (J : S → list SamplingEvent → Prop)
    (finish : S → Z → option CollectorState → list SamplingEvent)
    (acc : list SamplingEvent) (outs : list L2Out) : Prop :=
| RunError pre err :
    Forall quiet pre → announced (acc ++ yields pre) → Q err → outs = pre ++ [Polled (Some err); Yielded (failed id err)] →
    loop_run id I Q E J finish acc outs
| RunFailed pre err :
    Forall quiet pre → announced (acc ++ yields pre) → E err → outs = pre ++ [Yielded (failed id err)] →
    loop_run id I Q E J finish acc outs
| RunFinished pre st now col :
    Forall quiet pre → I col → J st (acc ++ yields pre) →
    outs = pre ++ map Yielded (finish st now col) →
    loop_run id I Q E J finish acc outs.

(** What a turn of the loop must do for this. *)
Definition step_ok {A S} (id : str) (I : option CollectorState → Prop) (E : SamplingError → Prop)
    (J : S → list SamplingEvent → Prop)
    (step : S → Z → option CollectorState → A → list SamplingEvent * Turn S) : Prop :=
  ∀ st now col a acc, I col → J st acc →
    let '(evs, turn) := step st now col a in
    match turn with
    | Next st' | Break st' => Forall nonterminal evs ∧ J st' (acc ++ evs)
    | Return => ∃ pre err, evs = pre ++ [failed id err] ∧ Forall nonterminal pre ∧ E err ∧
                announced (acc ++ pre)
    end.

Lemma loop_run_cons {S} id I Q E (J : S → list SamplingEvent → Prop) finish acc evs outs :
  Forall nonterminal evs →
  loop_run id I Q E J finish (acc ++ evs) outs →
  loop_run id I Q E J finish acc (Polled None :: map Yielded evs ++ outs).
Proof.
  intros Hq.
  assert (∀ pre, Forall quiet pre → Forall quiet (Polled None :: map Yielded evs ++ pre)) as Hpre.
  { intros pre Hp. constructor; [done|]. apply Forall_app. split; [by apply quiet_yielded|done]. }
  assert (∀ pre, acc ++ yields (Polled None :: map Yielded evs ++ pre) = (acc ++ evs) ++ yields pre)
    as Hy.
  { intros pre. change (acc ++ yields (map Yielded evs ++ pre) = (acc ++ evs) ++ yields pre).
    by rewrite yields_app, yields_yielded, app_assoc. }
  intros [pre err Hp Ha HQ -> |pre err Hp Ha HE -> |pre st now col Hp HI HJ -> ].
  - eapply (RunError _ _ _ _ _ _ _ _ (Polled None :: map Yielded evs ++ pre));
      [by apply Hpre|by rewrite Hy|done|]. cbn. by rewrite <- app_assoc.
  - eapply (RunFailed _ _ _ _ _ _ _ _ (Polled None :: map Yielded evs ++ pre));
      [by apply Hpre|by rewrite Hy|done|]. cbn. by rewrite <- app_assoc.
  - eapply (RunFinished _ _ _ _ _ _ _ _ (Polled None :: map Yielded evs ++ pre));
      [by apply Hpre|done|by rewrite Hy|]. cbn. by rewrite <- app_assoc.
Qed.

Lemma stream_loop_run {A S} I Q E J
    (step : S → Z → option CollectorState → A → list SamplingEvent * Turn S)
    finish id idle items end_at st now acc :
  step_ok id I E J step → E (IdleTimeout (as_secs idle)) → (∀ st acc, J st acc → announced acc) →
  raw_ok I Q items end_at → J st acc →
  loop_run id I Q E J finish acc (stream_loop step finish id idle st now items end_at).
Proof.
  intros Hstep Hidle HA. revert st now acc.
  assert (∀ st acc, J st acc → loop_run id I Q E J finish acc [Yielded (idle_failed id idle)]) as Hto.
  { intros st acc HJ. apply (RunFailed _ _ _ _ _ _ _ _ [] (IdleTimeout (as_secs idle)));
      [done| |done|done]. rewrite app_nil_r. by eapply HA. }
  induction items as [|[[t col] item] items IH]; intros st now acc [HF HE] HJ; cbn [stream_loop].
  - destruct end_at as [[t col]|]; [|by eapply Hto]. destruct (now + idle <? t)%Z; [by eapply Hto|].
    eapply (RunFinished _ _ _ _ _ _ _ _ []); [done|done| |done]. by rewrite app_nil_r.
  - destruct (now + idle <? t)%Z; [by eapply Hto|].
    apply Forall_cons in HF as [[HI HQ] HF]. cbn in HI, HQ.
    destruct item as [a|err].
    2: { eapply (RunError _ _ _ _ _ _ _ _ []); [done| |done|done]. rewrite app_nil_r. by eapply HA. }
    pose proof (Hstep st (Z.max now t) col a acc HI HJ) as Hs.
    destruct (step st (Z.max now t) col a) as [evs turn]. destruct turn as [st'|st'|].
    + destruct Hs as [Hn HJ']. apply loop_run_cons; [done|]. by apply IH.
    + destruct Hs as [Hn HJ']. apply loop_run_cons; [done|].
      eapply (RunFinished _ _ _ _ _ _ _ _ []); [done|done| |done]. by rewrite app_nil_r.
    + destruct Hs as (pre & err & -> & Hn & HEr & Ha). rewrite app_nil_r, map_app.
      eapply (RunFailed _ _ _ _ _ _ _ _ (Polled None :: map Yielded pre) err); [| |done|done].
      * constructor; [done|]. by apply quiet_yielded.
      * change (announced (acc ++ yields (map Yielded pre))). by rewrite yields_yielded.
Qed.

(** ** The turns of the transforms *)

Lemma content_timer_ok {S} id idle now last b (f : Z → S) turn :
  (∃ x, content_timer id idle now last b f turn = ([], turn (f x))) ∨
  content_timer id idle now last b f turn = ([idle_failed id idle], Return).
Proof.
  unfold content_timer. destruct b; [left; by exists now|].
  destruct (idle <? duration_since now last)%Z; [by right|left; by exists last].
Qed.

(** The counters agree with the events so far. *)
Definition tokens_match (a : TokenAcc) (evs : list SamplingEvent) : Prop :=
  scan_tokens (false, 0%Z) evs = Some (scan_state a).

Lemma tokens_match_run a a' evs evs' :
  token_run a a' evs' → tokens_match a evs → tokens_match a' (evs ++ evs').
Proof. unfold tokens_match. intros (_ & Hs & _) Hm. by rewrite scan_tokens_app, Hm. Qed.

Lemma tokens_match_other a evs e :
  scan_token (scan_state a) e = Some (scan_state a) → tokens_match a evs →
  tokens_match a (evs ++ [e]).
Proof. unfold tokens_match. intros He Hm. rewrite scan_tokens_app, Hm. cbn. by rewrite He. Qed.

Lemma stream_head_match id wall md :
  tokens_match tokens_new (stream_head id wall md) ∧ Forall nonterminal (stream_head id wall md) ∧
  (∀ ch, channel_text ch (stream_head id wall md) = []) ∧
  delta_indices (stream_head id wall md) = [].
Proof. destruct md; repeat split; by repeat constructor. Qed.

(** *** Chat Completions *)

Definition chat_match (a : ChatAcc) (evs : list SamplingEvent) : Prop :=
  tokens_match (ca_tokens a) evs ∧
  channel_text ChannelText evs = ca_content_acc a ∧
  channel_text ChannelReasoning evs = ca_reasoning_acc a ∧
  tools_match (ca_tool_call_acc a) evs ∧
  (ca_first_choice_seen a = false →
   ca_content_acc a = [] ∧ ca_reasoning_acc a = [] ∧ ca_tool_call_acc a = []).

Lemma chat_choice_match id now c a evs :
  chat_match a evs →
  let '(a', evs', _) := chat_choice id now c a in
  chat_match a' (evs ++ evs') ∧ Forall nonterminal evs'.
Proof.
  intros (Ht & Hc & Hr & Hm & _). unfold chat_choice.
  pose proof (text_token_run id now (default [] (dl_content (ch_delta c))) (ca_tokens a)) as H1.
  destruct (text_token _ _ _ _) as [t1 e1]. destruct H1 as (Hr1 & Hx1 & Hy1).
  pose proof (reasoning_token_run id (default [] (dl_reasoning_content (ch_delta c))) t1) as H2.
  destruct (reasoning_token _ _ _) as [t2 e2]. destruct H2 as (Hr2 & Hx2 & Hy2).
  pose proof (tokens_match_run _ _ _ _ Hr1 Ht) as Ht1.
  pose proof (tokens_match_run _ _ _ _ Hr2 Ht1) as Ht2.
  destruct Hr1 as (Hn1 & _ & Hd1), Hr2 as (Hn2 & _ & Hd2).
  pose proof (tools_match_other _ _ _ Hd2 (tools_match_other _ _ _ Hd1 Hm)) as Hm2.
  pose proof (tool_deltas_match id (dl_tool_calls (ch_delta c)) _ _ Hm2) as H3.
  destruct (tool_deltas _ _ _) as [m3 e3]. destruct H3 as (Hm3 & Hn3 & Hs3 & Hc3).
  rewrite !app_assoc. split; [|by repeat (apply Forall_app; split)].
  split; [|split; [|split; [|split; [exact Hm3|done] ] ] ]; cbn.
  - unfold tokens_match in *. by rewrite scan_tokens_app, Ht2.
  - by rewrite !channel_text_app, Hc, Hx1, Hy2, Hc3, !app_nil_r.
  - by rewrite !channel_text_app, Hr, Hy1, Hx2, Hc3, !app_nil_r.
Qed.

Lemma chat_choices_match id now cs a evs :
  chat_match a evs →
  let '(a', evs', _) := chat_choices id now cs a in
  chat_match a' (evs ++ evs') ∧ Forall nonterminal evs'.
Proof.
  revert a evs. induction cs as [|c cs IH]; intros a evs Hm; cbn [chat_choices].
  - by rewrite app_nil_r.
  - pose proof (chat_choice_match id now c a evs Hm) as H1.
    destruct (chat_choice _ _ _ _) as [ [a1 e1] b1]. destruct H1 as [H1 Hn1].
    specialize (IH a1 _ H1). destruct (chat_choices _ _ _ _) as [ [a2 e2] b2]. destruct IH as [IH Hn2].
    rewrite app_assoc. split; [done|]. apply Forall_app. by split.
Qed.

Lemma chat_step_ok id idle I :
  step_ok id I (λ e, e = IdleTimeout (as_secs idle)) chat_match (chat_step id idle).
Proof.
  intros a now col chunk acc _ Hm. unfold chat_step.
  assert (chat_match (chat_usage chunk (chat_first_chunk chunk a)) acc) as Hm'.
  { unfold chat_usage, chat_first_chunk. by destruct (ck_usage chunk), (ca_first_chunk_seen a). }
  pose proof (chat_choices_match id now (ck_choices chunk) _ _ Hm') as H1.
  destruct (chat_choices _ _ _ _) as [ [a1 e1] b1]. destruct H1 as [H1 Hn1].
  destruct (content_timer_ok id idle now (ca_last_content_chunk_at a1) b1 (chat_set_last a1) Next)
    as [ [x ->] | ->].
  - by rewrite app_nil_r.
  - exists e1, (IdleTimeout (as_secs idle)). repeat split; [done|]. destruct H1 as [H1 _]. by eexists.
Qed.

Lemma chat_new_match id wall md start : chat_match (chat_new start) (stream_head id wall md).
Proof.
  destruct (stream_head_match id wall md) as (Ht & _ & Hc & Hd). split; [done|].
  rewrite !Hc. split; [done|]. split; [done|]. split; [|done]. split; [constructor|].
  rewrite Hd. split; [done|constructor].
Qed.

(** *** Messages *)

(** A failure the transform makes itself. *)
Definition transform_error (idle : Z) (e : SamplingError) : Prop :=
  e = IdleTimeout (as_secs idle) ∨ e = MaxTokensTruncation ∨
  ∃ m, e = Api INTERNAL_SERVER_ERROR m None None None.

Definition msg_match (a : MsgAcc) (evs : list SamplingEvent) : Prop :=
  tokens_match (ma_tokens a) evs.

Lemma msg_block_start_match id index b a evs :
  msg_match a evs →
  let '(a', evs') := msg_block_start id index b a in
  msg_match a' (evs ++ evs') ∧ Forall nonterminal evs'.
Proof.
  intros Hm. unfold msg_block_start, msg_match. destruct b as [text| |tid name| |thinking signature].
  - pose proof (first_token_run id (ma_tokens a)) as HF. destruct (first_token _ _) as [t e].
    destruct HF as (Hr & _). split; [by eapply tokens_match_run|]. apply Hr.
  - by rewrite app_nil_r.
  - split; [by apply tokens_match_other|by repeat constructor].
  - by rewrite app_nil_r.
  - pose proof (first_token_run id (ma_tokens a)) as HF. destruct (first_token _ _) as [t e].
    destruct HF as (Hr & _). split; [by eapply tokens_match_run|]. apply Hr.
Qed.

Lemma msg_block_delta_match id now index d a evs :
  msg_match a evs →
  let '(a', evs') := msg_block_delta id now index d a in
  msg_match a' (evs ++ evs') ∧ Forall nonterminal evs'.
Proof.
  intros Hm. unfold msg_block_delta, msg_match.
  destruct (bt_get index (ma_blocks a)) as [b|]; [|by rewrite app_nil_r].
  destruct d as [text|json|thinking|signature].
  - pose proof (text_token_run id now text (ma_tokens a)) as HF. destruct (text_token _ _ _ _) as [t e].
    destruct HF as (Hr & _). split; [by eapply tokens_match_run|]. apply Hr.
  - destruct (bt_get index (ma_block_to_tool_index a)); [|by rewrite app_nil_r].
    split; [by apply tokens_match_other|by repeat constructor].
  - pose proof (reasoning_token_run id thinking (ma_tokens a)) as HF.
    destruct (reasoning_token _ _ _) as [t e].
    destruct HF as (Hr & _). split; [by eapply tokens_match_run|]. apply Hr.
  - by rewrite app_nil_r.
Qed.

Lemma msg_event_match id now e a evs :
  msg_match a evs →
  match msg_event id now e a with
  | (evs', Some a') => msg_match a' (evs ++ evs') ∧ Forall nonterminal evs'
  | (evs', None) => ∃ m, evs' = [server_failed id m]
  end.
Proof.
  intros Hm. destruct e as [m|d u| |index b|index d|index| |ty m]; cbn [msg_event];
    try by rewrite app_nil_r.
  - pose proof (msg_block_start_match id index b a evs Hm) as H1.
    by destruct (msg_block_start _ _ _ _).
  - pose proof (msg_block_delta_match id now index d a evs Hm) as H1.
    by destruct (msg_block_delta _ _ _ _ _).
  - rewrite app_nil_r. split; [|done]. unfold msg_block_stop, msg_match in *.
    by destruct (bt_get index (ma_blocks a)).
  - by exists (ty ++ COLON_SPACE ++ m).
Qed.

Lemma msg_step_ok id idle I : step_ok id I (transform_error idle) msg_match (msg_step id idle).
Proof.
  intros a now col e acc _ Hm. unfold msg_step. pose proof (msg_event_match id now e a acc Hm) as H1.
  destruct (msg_event id now e a) as [evs [a1|] ].
  - destruct H1 as [H1 Hn].
    destruct (content_timer_ok id idle now (ma_last_content_chunk_at a1)
      (messages_event_has_meaningful_content e) (msg_set_last a1) Next) as [ [x ->] | ->].
    + by rewrite app_nil_r.
    + exists evs, (IdleTimeout (as_secs idle)). split; [done|]. split; [done|].
      split; [by left|by eexists].
  - destruct H1 as [m ->]. exists [], (Api INTERNAL_SERVER_ERROR m None None None).
    split; [done|]. split; [done|]. split; [right; right; by exists m|].
    rewrite app_nil_r. by eexists.
Qed.

(** *** Responses *)

Definition resp_match (a : RespAcc) (evs : list SamplingEvent) : Prop :=
  tokens_match (ra_tokens a) evs.

Lemma resp_event_match id now e a evs :
  resp_match a evs →
  match resp_event id now e a with
  | (evs', Some (a', _)) => resp_match a' (evs ++ evs') ∧ Forall nonterminal evs'
  | (evs', None) => ∃ m, evs' = [server_failed id m]
  end.
Proof.
  intros Hm. unfold resp_match in *.
  assert (∀ x, nonterminal x → scan_token (scan_state (ra_tokens a)) x = Some (scan_state (ra_tokens a)) →
    tokens_match (ra_tokens a) (evs ++ [x]) ∧ Forall nonterminal [x]) as Hone.
  { intros x Hx Hsx. split; [by apply tokens_match_other|by constructor]. }
  destruct e; cbn [resp_event]; try (by rewrite app_nil_r); try (by apply Hone); try (by eexists).
  - pose proof (text_token_run id now delta (ra_tokens a)) as HF. destruct (text_token _ _ _ _) as [t e].
    destruct HF as (Hr & _). split; [by eapply tokens_match_run|]. apply Hr.
  - destruct (is_empty delta); [by rewrite app_nil_r|].
    destruct (bt_get output_index (ra_output_to_tool_index a)); [by apply Hone|by rewrite app_nil_r].
  - pose proof (reasoning_token_run id delta (ra_tokens a)) as HF.
    destruct (reasoning_token _ _ _) as [t e].
    destruct HF as (Hr & _). split; [by eapply tokens_match_run|]. apply Hr.
  - pose proof (reasoning_token_run id delta (ra_tokens a)) as HF.
    destruct (reasoning_token _ _ _) as [t e].
    destruct HF as (Hr & _). split; [by eapply tokens_match_run|]. apply Hr.
  - destruct item; cbn; try (by rewrite app_nil_r). by apply Hone.
  - destruct item; try (by rewrite app_nil_r); by apply Hone.
Qed.

(** The doom-loop failures of a stream: an armed collector with confident
    signals. *)
Definition abort_error (I : option CollectorState → Prop) (e : SamplingError) : Prop :=
  ∃ c triggers n, I (Some c) ∧ abort_triggers c = Some triggers ∧ e = DoomLoopDetected triggers (Some n).

Lemma resp_step_ok id idle I :
  step_ok id I (λ e, transform_error idle e ∨ abort_error I e) resp_match (resp_step id idle).
Proof.
  intros a now col e acc HI Hm. unfold resp_step.
  destruct (col ≫= abort_triggers) as [triggers|] eqn:Eab.
  { destruct col as [c|]; [|done]. cbn in Eab.
    exists [], (DoomLoopDetected triggers (Some (ta_chunk_index (ra_tokens a)))).
    split; [done|]. split; [done|]. split; [|rewrite app_nil_r; by eexists].
    right. by exists c, triggers, (ta_chunk_index (ra_tokens a)). }
  pose proof (resp_event_match id now e a acc Hm) as H1.
  destruct (resp_event id now e a) as [evs [ [a1 b]|] ].
  - destruct H1 as [H1 Hn].
    destruct (content_timer_ok id idle now (ra_last_content_chunk_at a1)
      (responses_event_has_meaningful_content e) (resp_set_last a1)
      (if b then Break else Next)) as [ [x ->] | ->].
    + rewrite app_nil_r. by destruct b.
    + exists evs, (IdleTimeout (as_secs idle)). split; [done|]. split; [done|].
      split; [left; by left|by eexists].
  - destruct H1 as [m ->]. exists [], (Api INTERNAL_SERVER_ERROR m None None None).
    split; [done|]. split; [done|]. split; [left; right; right; by exists m|].
    rewrite app_nil_r. by eexists.
Qed.

(** ** The streams of an attempt *)

Lemma stream_chat_run I Q raw md id idle wall start :
  raw_ok I Q (raw_items raw) (raw_end raw) →
  ∃ body, stream_chat_completions raw md id idle wall start =
            map Yielded (stream_head id wall md) ++ body ∧
    loop_run id I Q (λ e, e = IdleTimeout (as_secs idle)) chat_match (chat_finish id start)
      (stream_head id wall md) body.
Proof.
  intros Hraw. eexists. split; [done|]. apply stream_loop_run; [apply chat_step_ok|done| |done|].
  - intros st acc (Ht & _). by eexists.
  - apply chat_new_match.
Qed.

Lemma stream_messages_run I Q raw md id idle wall start :
  raw_ok I Q (raw_items raw) (raw_end raw) →
  ∃ body, stream_messages raw md id idle wall start =
            map Yielded (stream_head id wall md) ++ body ∧
    loop_run id I Q (transform_error idle) msg_match (msg_finish id start)
      (stream_head id wall md) body.
Proof.
  intros Hraw. eexists. split; [done|]. apply stream_loop_run; [apply msg_step_ok|by left| |done|].
  - intros st acc Ht. by eexists.
  - apply stream_head_match.
Qed.

Lemma stream_responses_run I Q raw md id idle wall start :
  raw_ok I Q (raw_items raw) (raw_end raw) →
  ∃ body, stream_responses raw md id idle wall start =
            map Yielded (stream_head id wall md) ++ body ∧
    loop_run id I Q (λ e, transform_error idle e ∨ abort_error I e) resp_match
      (resp_finish id start) (stream_head id wall md) body.
Proof.
  intros Hraw. eexists. split; [done|]. apply stream_loop_run; [apply resp_step_ok|left; by left| |done|].
  - intros st acc Ht. by eexists.
  - apply stream_head_match.
Qed.

(** How the stream of an attempt ends, whatever the backend.  [E] holds of the
    failures that do not come from the raw stream. *)
Inductive attempt_run (id : str) (E : SamplingError → Prop) (outs : list L2Out) : Prop :=
| EndsInError pre err :
    Forall quiet pre → announced (yields pre) → decode_error err →
    outs = pre ++ [Polled (Some err); Yielded (failed id err)] → attempt_run id E outs
| EndsInFailure pre err :
    Forall quiet pre → announced (yields pre) → E err → outs = pre ++ [Yielded (failed id err)] →
    attempt_run id E outs
| EndsCompleted pre response metrics :
    Forall quiet pre → announced (yields pre) →
    outs = pre ++ [Yielded (Completed id response metrics)] → attempt_run id E outs.

Lemma loop_attempt {S} id I E E' (J : S → list SamplingEvent → Prop) finish wall md body :
  (∀ st now col, I col →
     (∃ response metrics, finish st now col = [Completed id response metrics]) ∨
     (∃ err, finish st now col = [failed id err] ∧ E' err)) →
  (∀ st acc, J st acc → announced acc) → (∀ e, E e → E' e) →
  loop_run id I decode_error E J finish (stream_head id wall md) body →
  attempt_run id E' (map Yielded (stream_head id wall md) ++ body).
Proof.
  intros Hfin HA HE.
  assert (∀ pre, yields (map Yielded (stream_head id wall md) ++ pre) = stream_head id wall md ++ yields pre)
    as Hy by (intros pre; by rewrite yields_app, yields_yielded).
  assert (∀ pre, Forall quiet pre → Forall quiet (map Yielded (stream_head id wall md) ++ pre)) as Hq.
  { intros pre Hp. apply Forall_app. split; [|done]. by apply quiet_yielded, stream_head_match. }
  intros [pre err Hp Ha HQ -> |pre err Hp Ha HEr -> |pre st now col Hp HI HJ -> ].
  - rewrite app_assoc. eapply EndsInError; [by apply Hq|by rewrite Hy|done|done].
  - rewrite app_assoc. eapply EndsInFailure; [by apply Hq|by rewrite Hy|by apply HE|done].
  - rewrite app_assoc. apply HA in HJ. rewrite <- Hy in HJ.
    destruct (Hfin st now col HI) as [(r & m & ->) |(err & -> & He)].
    + by eapply EndsCompleted; [apply Hq| |].
    + by eapply EndsInFailure; [apply Hq| | |].
Qed.

(** The collector of an attempt *)
Definition attempt_collector {CF} (config : SamplerConfig CF)
    (doom_check : option DoomLoopRecoveryPolicy) : option CollectorState :=
  match doom_check with
  | None => disarm_abort <$> (collector_new <$> cfg_doom_loop_recovery config)
  | Some _ => collector_new <$> cfg_doom_loop_recovery config
  end.

Definition attempt_error {CF} (config : SamplerConfig CF)
    (doom_check : option DoomLoopRecoveryPolicy) (idle : Z) (e : SamplingError) : Prop :=
  transform_error idle e ∨ abort_error (col_like (attempt_collector config doom_check)) e.

Lemma attempt_l2_run {CF} (config : SamplerConfig CF) id idle dc env sse md :
  attempt_run id (attempt_error config dc idle) (attempt_l2 config id idle dc env sse md).
Proof.
  unfold attempt_l2. destruct (cfg_api_backend config).
  - destruct (stream_chat_run _ _ _ md id idle (ae_wall env) (ae_start env) (chat_raw_ok sse))
      as (body & -> & Hrun).
    eapply loop_attempt; [| | |exact Hrun].
    + intros st now col _. left. by eexists _, _.
    + intros st acc (Ht & _). by eexists.
    + intros e ->. left. by left.
  - destruct (stream_responses_run _ _ _ md id idle (ae_wall env) (ae_start env)
      (responses_raw_ok (attempt_collector config dc) sse)) as (body & Heq & Hrun).
    assert (match dc with None => disarm_abort <$> (collector_new <$> cfg_doom_loop_recovery config)
            | Some _ => collector_new <$> cfg_doom_loop_recovery config end
            = attempt_collector config dc) as -> by done.
    rewrite Heq. eapply loop_attempt; [| | |exact Hrun].
    + intros st now col _. unfold resp_finish. destruct (ra_final_response st); [left; by eexists _, _|].
      right. eexists. split; [done|]. left. right; right. by eexists.
    + intros st acc Ht. by eexists.
    + done.
  - destruct (stream_messages_run _ _ _ md id idle (ae_wall env) (ae_start env) (messages_raw_ok sse))
      as (body & -> & Hrun).
    eapply loop_attempt; [| | |exact Hrun].
    + intros st now col _. unfold msg_finish. case_bool_decide; [|left; by eexists _, _].
      right. eexists. split; [done|]. left. right. by left.
    + intros st acc Ht. by eexists.
    + intros e He. by left.
Qed.

(** ** drive_l2 *)

Lemma drive_quiet pre l2 cell cancel dc :
  Forall quiet pre →
  (∃ sent, drive_l2 (pre ++ l2) cell cancel dc = (sent, AttemptCancelled) ∧ Forall nonterminal sent) ∨
  ∃ cancel', drive_l2 (pre ++ l2) cell cancel dc =
    (yields pre ++ (drive_l2 l2 cell cancel' dc).1, (drive_l2 l2 cell cancel' dc).2) ∧
    Forall nonterminal (yields pre).
Proof.
  intros Hq. revert cancel. induction Hq as [|o pre Ho Hq IH]; intros cancel.
  - right. exists cancel. split; [exact (surjective_pairing _)|constructor].
  - destruct o as [err|e].
    + cbn in Ho. subst err. cbn [app drive_l2].
      replace (tee_cell cell None) with cell by by destruct cell. apply IH.
    + cbn [app drive_l2]. destruct cancel as [ [|k]|].
      * left. by exists [].
      * specialize (IH (Some k)). cbn in Ho.
        destruct e; try done; cbn [fmap option_fmap option_map pred];
          (destruct IH as [ (sent & -> & Hs) |(c' & -> & Hs)];
           [left; eexists; split; [done|by constructor]
           |right; exists c'; split; [done|by constructor] ]).
      * specialize (IH None). cbn in Ho.
        destruct e; try done; cbn [fmap option_fmap option_map pred];
          (destruct IH as [ (sent & -> & Hs) |(c' & -> & Hs)];
           [left; eexists; split; [done|by constructor]
           |right; exists c'; split; [done|by constructor] ]).
Qed.

(** What an attempt that is not cancelled makes of its stream. *)
Inductive drive_result (E : SamplingError → Prop) (dc : option DoomLoopRecoveryPolicy) :
  AttemptOutcome → Prop :=
| DriveCancelled : drive_result E dc AttemptCancelled
| DriveError err : decode_error err → drive_result E dc (AttemptFailed (clone_error err))
| DriveFailed err : E err → drive_result E dc (AttemptFailed (synthesize_from_info (info_of err)))
| DriveCompleted response metrics : drive_result E dc (completed_outcome dc response metrics).

Lemma drive_attempt id E outs cancel dc :
  attempt_run id E outs →
  Forall nonterminal (drive_l2 outs None cancel dc).1 ∧
  drive_result E dc (drive_l2 outs None cancel dc).2.
Proof.
  assert (∀ pre l, Forall quiet pre →
    (∀ c, (drive_l2 l None c dc).1 = [] ∧ drive_result E dc (drive_l2 l None c dc).2) →
    Forall nonterminal (drive_l2 (pre ++ l) None cancel dc).1 ∧
    drive_result E dc (drive_l2 (pre ++ l) None cancel dc).2) as Hdrive.
  { intros pre l Hq Hl.
    destruct (drive_quiet pre l None cancel dc Hq) as [ (sent & -> & Hs) |(c' & -> & Hs)];
      [by split; [|constructor]|].
    destruct (Hl c') as [H1 H2]. cbn [fst snd]. by rewrite H1, app_nil_r. }
  intros [pre err Hq _ He -> |pre err Hq _ He -> |pre r m Hq _ -> ];
    (apply Hdrive; [done|]); intros c; destruct c as [ [|k]|]; (split; [done|]);
    cbn [drive_l2 snd tee_cell]; by constructor.
Qed.

(** Without the doom check, no attempt ends in a doom-loop failure. *)
Lemma attempt_not_doom {CF} (config : SamplerConfig CF) id idle env :
  (∀ e, ae_connect env = Some (Err e) → is_doom_loop e = false) →
  match (run_one_attempt config id idle None env).2 with
  | AttemptFailed e | AttemptInitFailed e => is_doom_loop e = false
  | _ => True
  end.
Proof.
  intros Hc. unfold run_one_attempt. destruct (ae_connect env) as [ [ [sse md]|e]|]; [|by apply Hc|done].
  replace (match cfg_api_backend config with Responses => None | _ => None end)
    with (@None DoomLoopRecoveryPolicy) by by destruct (cfg_api_backend config).
  destruct (drive_attempt _ _ _ (ae_cancel_after env) None (attempt_l2_run config id idle None env sse md))
    as [_ Hr].
  destruct Hr as [|err He|err He|r m]; [done| | |].
  - rewrite clone_not_doom. by destruct err.
  - destruct He as [He|He].
    + destruct He as [-> |[-> |[m ->]]]; done.
    + destruct He as (c & ts & n & Hc' & Ha & ->). exfalso. unfold attempt_collector in Hc'.
      destruct (cfg_doom_loop_recovery config) as [p|]; cbn in Hc'; [|done].
      destruct Hc' as [_ Hd]. unfold abort_triggers in Ha. by rewrite Hd in Ha.
  - unfold completed_outcome. cbn [is_empty negb]. case_bool_decide; [done|].
    by destruct (bool_decide _), (empty_reason r).
Qed.

Lemma attempt_sent {CF} (config : SamplerConfig CF) id idle dc env :
  Forall nonterminal (run_one_attempt config id idle dc env).1.
Proof.
  unfold run_one_attempt. destruct (ae_connect env) as [ [ [sse md]|e]|]; [|constructor|constructor].
  eapply drive_attempt, attempt_l2_run.
Qed.

End Facts.
