(* ===== verification/SamplerTheorems.v ===== *)
(** * What the sampler guarantees

    Requests end with one outcome within their budgets, accepted responses,
    backoffs, streams against the responses they make, errors that cross an
    event, and the tasks the actor knows.  The file ends with the runs where
    code and comments part. *)
From S2P Require Import Prelude RustStr F64 StrSearch TokenEstimation Conversation Sampling SamplingError SamplerStream SamplerTransform SamplerTask SamplerFacts Concrete.

#[local] Strategy opaque [lit].

Section Tasks.
Context {RS : RsApi} {SA : SamplerApi} `{!StreamApi} {DA : DecodeApi} {CF : Type}.
Implicit Types (tk : TaskParams (CF:=CF)) (st : TaskState (CF:=CF)).

(** ** The budgets of a request *)

Definition num_images (r : ConversationRequest) : nat := snd (request_strip_images r).

Lemma strip_part_twice ps : (strip_image_parts (strip_image_parts ps).1).2 = 0%nat.
Proof.
  induction ps as [|p ps IH]; [done|]. cbn. destruct p.
  - destruct (strip_image_parts ps) as [qs n]. cbn in *. by destruct (strip_image_parts qs).
  - destruct (strip_image_parts ps) as [qs n]. cbn in *. by destruct (strip_image_parts qs).
Qed.

Lemma strip_twice r : num_images (fst (request_strip_images r)) = 0%nat.
Proof.
  unfold num_images, request_strip_images, strip_images. cbn.
  induction (items r) as [|i its IH]; [done|]. cbn [map sum_list] in *.
  apply Nat.eq_add_0. split; [|exact IH]. clear.
  destruct i; cbn; try done. pose proof (strip_part_twice (u_content u)) as Hu.
  destruct (strip_image_parts (u_content u)) as [ps n]. cbn in *.
  by destruct (strip_image_parts ps).
Qed.

Definition image_budget st : Z := if (num_images (ts_request st) =? 0)%nat then 0 else 1.
Definition transport_budget tk : Z := Z.max 0 (max_retries_of tk - 1).

(** Attempts that may follow the next one. *)
Definition measure tk st : Z :=
  (Z.max 0 (transport_budget tk - ts_retry_count st) + (doom_budget tk - ts_doom_retry_count st)
   + image_budget st)%Z.

Record task_inv tk st : Prop := {
  inv_rc : (0 ≤ ts_retry_count st)%Z;
  inv_strip : (ts_retry_count st + image_budget st ≤ transport_budget tk + 1)%Z;
  inv_dc : (0 ≤ ts_doom_retry_count st ≤ doom_budget tk)%Z;
  inv_backend : cfg_api_backend (ts_client st) = cfg_api_backend (tk_config tk);
  inv_doom : cfg_doom_loop_recovery (ts_client st) = cfg_doom_loop_recovery (tk_config tk);
}.

Lemma image_budget_bounds st : (0 ≤ image_budget st ≤ 1)%Z.
Proof. unfold image_budget. destruct (_ =? _)%nat; lia. Qed.

(** ** What a request has sent *)

Definition in_progress (o : TaskOut) : Prop :=
  match o with Sent e => is_terminal e = false | Slept d => True | Completion _ | Waits => False end.

Definition retry_kind (o : TaskOut) : option SamplingErrorKind :=
  match o with Sent (Retrying _ _ _ k _ _ _) => Some k | _ => None end.
Definition kinds (os : list TaskOut) : list SamplingErrorKind := omap retry_kind os.
Definition is_doom_kind (k : SamplingErrorKind) : bool :=
  match k with KDoomLoopDetected => true | _ => false end.
Definition retries (os : list TaskOut) : Z := Z.of_nat (length (kinds os)).
Definition resamples (os : list TaskOut) : Z :=
  Z.of_nat (length (List.filter is_doom_kind (kinds os))).

Lemma kinds_app os os' : kinds (os ++ os') = kinds os ++ kinds os'.
Proof. apply omap_app. Qed.
Lemma retries_app os os' : retries (os ++ os') = (retries os + retries os')%Z.
Proof. unfold retries. rewrite kinds_app, length_app. lia. Qed.
Lemma resamples_app os os' : resamples (os ++ os') = (resamples os + resamples os')%Z.
Proof. unfold resamples. rewrite kinds_app, List.filter_app, length_app. lia. Qed.

Lemma plain_sent evs :
  Forall nonterminal evs → Forall in_progress (map Sent evs) ∧ kinds (map Sent evs) = [].
Proof.
  induction 1 as [|e evs He Hev IH]; [done|]. destruct IH as [IH1 IH2].
  split; [constructor; [|done]; by destruct e|]. unfold kinds in *. cbn. by destruct e.
Qed.

(** The event and the completion a request ends with agree. *)
Definition agrees (id : str) (e : SamplingEvent) (r : CompletionResult) : Prop :=
  match r with
  | Ok (response, metrics) => e = Completed id response metrics
  | Err err =>
      e = Failed id (info_of err) ∨
      (∃ err0, e = Failed id (info_of err0) ∧ err = clone_error err0) ∨
      (e = Failed id cancelled_info ∧ err = Auth (lit "request cancelled"))
  end.

(** What is accepted as the response, with [n] retries of which [d] resamples. *)
Definition acceptable tk (n d : Z) (response : ConversationResponse)
    (metrics : InferenceLatencyStats) : Prop :=
  cr_stop_reason response ≠ Some StopLength ∧
  (empty_reason response = None ∨ cr_stop_reason response = Some StopContentFilter) ∧
  st_attempts metrics = ((n + 1) mod (U32_MAX + 1))%Z ∧
  (∀ p, cfg_doom_loop_recovery (tk_config tk) = Some p →
        cfg_api_backend (tk_config tk) = Responses →
        confident_triggers p (cr_doom_loop_signals response) = [] ∨ d = doom_budget tk).

(** ** One turn *)

(** The environment of an attempt does not report a doom loop as a failure to connect. *)
Definition connects env : Prop := ∀ e, ae_connect env = Some (Err e) → is_doom_loop e = false.

Lemma u32_add_small a : (0 ≤ a < U32_MAX)%Z → u32_add a 1 = (a + 1)%Z.
Proof. intros. unfold u32_add. apply Z.mod_small. lia. Qed.

(** [U]: the attempt of the turn is not answered. *)
Definition turn_ok (U : Prop) tk st (outs : list TaskOut) (next : option TaskState) : Prop :=
  match next with
  | Some st' =>
      task_inv tk st' ∧ (measure tk st' < measure tk st)%Z ∧ Forall in_progress outs ∧
      (ts_retry_count st' + ts_doom_retry_count st' =
       ts_retry_count st + ts_doom_retry_count st + retries outs)%Z ∧
      (ts_doom_retry_count st' = ts_doom_retry_count st + resamples outs)%Z
  | None =>
      (∃ pre e r, outs = pre ++ [Sent e; Completion r] ∧ Forall in_progress pre ∧
        kinds pre = [] ∧ agrees (tk_id tk) e r ∧
        match r with
        | Ok (response, metrics) =>
            acceptable tk (ts_retry_count st + ts_doom_retry_count st) (ts_doom_retry_count st)
              response metrics
        | Err _ => True
        end)
      ∨ (U ∧ outs = [Waits])
  end.

(** The outcome of a decision, whatever the attempt sent before. *)
Lemma turn_ok_sent U tk st sent outs next :
  Forall nonterminal sent → turn_ok False tk st outs next →
  turn_ok U tk st (map Sent sent ++ outs) next.
Proof.
  intros [Hp Hk]%plain_sent. destruct next as [st'|]; cbn.
  - intros (H1 & H2 & H3 & H4 & H5). split; [done|]. split; [done|]. split; [by apply Forall_app|].
    rewrite retries_app, resamples_app. unfold retries, resamples. rewrite Hk. cbn.
    unfold retries, resamples in *. lia.
  - intros [(pre & e & r & -> & H1 & H2 & H3)|[ [] _] ]. left. exists (map Sent sent ++ pre), e, r.
    rewrite app_assoc. split; [done|]. split; [by apply Forall_app|]. by rewrite kinds_app, Hk.
Qed.

Lemma ends_failed U tk st e err outs :
  outs = [Sent e; Completion (Err err)] → agrees (tk_id tk) e (Err err) →
  turn_ok U tk st outs None.
Proof. intros -> Ha. left. by exists [], e, (Err err). Qed.

Lemma retry_turn U tk st e outs client d r :
  task_inv tk st → (max_retries_of tk < U32_MAX)%Z → is_doom_loop e = false →
  cfg_api_backend client = cfg_api_backend (tk_config tk) →
  cfg_doom_loop_recovery client = cfg_doom_loop_recovery (tk_config tk) →
  (num_images r = num_images (ts_request st) ∨ num_images r = 0%nat) →
  outs = emit_retrying (tk_id tk) (u32_add (ts_retry_count st) 1) (max_retries_of tk) e :: d →
  Forall in_progress d → kinds d = [] →
  (u32_add (ts_retry_count st) 1 < max_retries_of tk ∨
   (num_images (ts_request st) ≠ 0%nat ∧ num_images r = 0%nat))%Z →
  turn_ok U tk st outs (Some (retried st r client)).
Proof.
  intros [I1 I2 I3 I4 I5] Hmx Hd Hb Hp Hr -> Hd1 Hd2 Hdec.
  pose proof (image_budget_bounds st).
  assert (ts_retry_count st < U32_MAX)%Z.
  { unfold transport_budget in I2. assert (0 < U32_MAX)%Z by done.
    assert (0 ≤ u32_add (ts_retry_count st) 1)%Z by by apply Z.mod_pos_bound.
    destruct Hdec as [Hdec|[Hdec _] ]; [|unfold image_budget in I2;
      destruct (Nat.eqb_spec (num_images (ts_request st)) 0); [done|lia] ].
    lia. }
  assert (u32_add (ts_retry_count st) 1 = ts_retry_count st + 1)%Z as Hadd
    by (apply u32_add_small; lia).
  rewrite Hadd in Hdec.
  assert (image_budget (retried st r client) ≤ image_budget st)%Z as Him.
  { unfold image_budget. cbn [retried ts_request]. destruct Hr as [-> | ->]; [done|].
    cbn [Nat.eqb]. destruct (num_images (ts_request st) =? 0)%nat; lia. }
  pose proof (image_budget_bounds (retried st r client)).
  assert (num_images (ts_request st) ≠ 0%nat → num_images r = 0%nat →
    image_budget st = 1%Z ∧ image_budget (retried st r client) = 0%Z) as Him2.
  { intros Hn1 Hn2. unfold image_budget. cbn [retried ts_request]. rewrite Hn2.
    by destruct (Nat.eqb_spec (num_images (ts_request st)) 0). }
  assert (kind_of e ≠ KDoomLoopDetected) as Hk.
  { destruct e; try done. cbn. by destruct (status =? TOO_MANY_REQUESTS)%Z. }
  split; [|split; [|split; [by constructor|] ] ].
  - split; cbn [retried ts_retry_count ts_doom_retry_count ts_client]; rewrite ?Hadd; try done; [lia|].
    unfold transport_budget in *. destruct Hdec as [Hdec|[Hn1 Hn2] ]; [lia|].
    destruct (Him2 Hn1 Hn2). lia.
  - unfold measure. cbn [retried ts_retry_count ts_doom_retry_count]. rewrite Hadd.
    unfold transport_budget in *. destruct Hdec as [Hdec|[Hn1 Hn2] ]; [lia|].
    destruct (Him2 Hn1 Hn2). lia.
  - unfold retries, resamples. cbn. rewrite Hadd. unfold kinds in Hd2. rewrite Hd2.
    destruct (kind_of e) eqn:?; try done; cbn; lia.
Qed.

Lemma strip_smaller r :
  num_images (fst (request_strip_images r)) = num_images r ∨
  num_images (fst (request_strip_images r)) = 0%nat.
Proof. right. apply strip_twice. Qed.

Lemma num_images_strip r r' n : request_strip_images r = (r', n) → num_images r = n ∧ num_images r' = 0%nat.
Proof.
  intros E. pose proof (strip_twice r) as Ht. unfold num_images at 1. by rewrite E in *.
Qed.

Lemma apply_turn U tk finish e st :
  task_inv tk st → (max_retries_of tk < U32_MAX)%Z → is_doom_loop e = false →
  turn_ok U tk st (apply_retry_decision tk finish e st).1 (apply_retry_decision tk finish e st).2.
Proof.
  intros Hinv Hmx Hd. unfold apply_retry_decision.
  set (req := if is_likely_body_rejected e then _ else _).
  assert (num_images req = num_images (ts_request st) ∨ num_images req = 0%nat) as Hreq.
  { unfold req. destruct (is_likely_body_rejected e); [right; apply strip_twice|by left]. }
  clearbody req. pose proof Hinv as [_ _ _ I4 I5].
  pose proof (classify_retries finish e (ts_retry_count st) (max_retries_of tk)
    (rate_limit_threshold (tk_policy tk)) Hd) as Hc.
  destruct (classify_error _ _ _ _ _) as [b|b rl| |b|e'|e'].
  - destruct Hc as [Hc _]. eapply retry_turn; [done..|by repeat constructor|done|by left].
  - destruct Hc as [Hc _]. eapply retry_turn; [done..|by repeat constructor|done|by left].
  - destruct (request_strip_images req) as [req' n] eqn:E. apply num_images_strip in E as [E1 E2].
    destruct (Nat.eqb_spec n 0).
    + eapply ends_failed; [done|]. right; left. by exists e.
    + eapply retry_turn; [done..|by right|done|constructor|done|right]. lia.
  - destruct Hc as [Hc _].
    eapply retry_turn; [done..| | |done|done|by repeat constructor|done|by left];
      by destruct (tk_http1 tk).
  - subst. eapply ends_failed; [done|]. by left.
  - subst. eapply ends_failed; [done|]. by left.
Qed.

Lemma resample_turn U tk finish ts chunk st :
  task_inv tk st → (doom_budget tk ≤ U32_MAX)%Z → (ts_doom_retry_count st < doom_budget tk)%Z →
  turn_ok U tk st (resample tk finish (DoomLoopDetected ts chunk) st).1
    (resample tk finish (DoomLoopDetected ts chunk) st).2.
Proof.
  intros [I1 I2 I3 I4 I5] Hb Hlt. unfold resample.
  assert (u32_add (ts_doom_retry_count st) 1 = ts_doom_retry_count st + 1)%Z as Hadd
    by (apply u32_add_small; lia).
  rewrite Hadd. split; [|split; [|split; [by repeat constructor|] ] ].
  - split; cbn; try done. lia.
  - unfold measure, image_budget. cbn. lia.
  - unfold retries, resamples. cbn. lia.
Qed.

Lemma completed_turn tk st dc response metrics :
  task_inv tk st → dc = match cfg_api_backend (tk_config tk) with
                        | Responses => doom_check_of tk st | _ => None end →
  match completed_outcome dc response metrics with
  | AttemptCompleted r m =>
      r = response ∧ m = metrics ∧
      acceptable tk (ts_retry_count st + ts_doom_retry_count st) (ts_doom_retry_count st) response
        (with_attempts metrics (u32_add (u32_add (ts_retry_count st) (ts_doom_retry_count st)) 1))
  | AttemptEmpty _ => True
  | AttemptFailed e => is_doom_loop e = true → is_Some dc
  | _ => False
  end.
Proof.
  intros [I1 I2 I3 I4 I5] Hdc. unfold completed_outcome.
  set (triggers := match dc with Some _ => _ | None => _ end).
  destruct (is_empty triggers) eqn:Et; cbn [negb].
  2: { intros _. destruct dc; [by eexists|done]. }
  case_bool_decide as Hlen; [done|].
  assert (acceptable tk (ts_retry_count st + ts_doom_retry_count st) (ts_doom_retry_count st) response
    (with_attempts metrics (u32_add (u32_add (ts_retry_count st) (ts_doom_retry_count st)) 1))
    ∨ (∃ reason, empty_reason response = Some reason ∧
         cr_stop_reason response ≠ Some StopContentFilter)) as Hacc.
  { destruct (decide (cr_stop_reason response = Some StopContentFilter)) as [Hf|Hf].
    2: destruct (empty_reason response) as [reason|] eqn:Er; [right; by eexists|].
    all: left; split; [done|]; split; [tauto|]; split;
      [cbn; unfold u32_add; by rewrite Zplus_mod_idemp_l|].
    all: intros p Hp Hb; rewrite Hb in Hdc; unfold doom_check_of in Hdc; rewrite Hp in Hdc.
    all: destruct (Z.ltb_spec (ts_doom_retry_count st) (doom_budget tk)); subst dc;
      [left; by destruct (confident_triggers p (cr_doom_loop_signals response))|right; lia]. }
  destruct (bool_decide (cr_stop_reason response = Some StopContentFilter)) eqn:Ef.
  - apply bool_decide_eq_true in Ef. destruct Hacc as [Hacc|(x & _ & Hx)]; done.
  - destruct (empty_reason response) eqn:Er; [done|].
    destruct Hacc as [Hacc|(x & Hx & _)]; done.
Qed.

Lemma task_turn_ok tk env st :
  task_inv tk st → (max_retries_of tk < U32_MAX)%Z → (doom_budget tk ≤ U32_MAX)%Z → connects env →
  turn_ok (ae_connect env = None) tk st (task_turn tk env st).1 (task_turn tk env st).2.
Proof.
  intros Hinv Hmx Hdb Hconn. unfold task_turn.
  assert (∀ U, turn_ok U tk st (handle_cancellation (tk_id tk)) None) as Hcan.
  { intros U. eapply ends_failed; [done|]. right; right. done. }
  destruct (ae_cancelled env); [apply Hcan|].
  pose proof (attempt_sent (ts_client st) (tk_id tk) (idle_timeout_of tk) (doom_check_of tk st) env)
    as Hsent.
  assert (∀ e, (run_one_attempt (ts_client st) (tk_id tk) (idle_timeout_of tk) (doom_check_of tk st)
      env).2 = AttemptFailed e → is_doom_loop e = true →
      (ts_doom_retry_count st < doom_budget tk)%Z) as Hdoom.
  { intros e He Hde. unfold doom_check_of in He. unfold doom_budget in *.
    pose proof (attempt_not_doom (ts_client st) (tk_id tk) (idle_timeout_of tk) env Hconn) as Hn.
    destruct (cfg_doom_loop_recovery (tk_config tk)) as [p|].
    - destruct (Z.ltb_spec (ts_doom_retry_count st) (doom_max_retries p)); [done|].
      rewrite He in Hn. congruence.
    - rewrite He in Hn. congruence. }
  pose proof (drive_attempt (tk_id tk)) as Hdrive. revert Hsent Hdoom.
  unfold run_one_attempt. destruct (ae_connect env) as [ [ [sse md]|e]|] eqn:Ec;
    [| |by right].
  2: { intros _ _. pose proof (λ U, apply_turn U tk (ae_finish env) e st Hinv Hmx (Hconn e Ec)) as Ha.
       destruct (apply_retry_decision tk (ae_finish env) e st) as [outs next]. apply Ha. }
  specialize (Hdrive _ _ (ae_cancel_after env)
    (match cfg_api_backend (ts_client st) with Responses => doom_check_of tk st | _ => None end)
    (attempt_l2_run (ts_client st) (tk_id tk) (idle_timeout_of tk) (doom_check_of tk st) env sse md)).
  destruct Hdrive as [_ Hres]. destruct (drive_l2 _ _ _ _) as [sent outcome]. cbn [fst snd] in *.
  intros Hsent Hdoom.
  assert (∀ e, outcome = AttemptFailed e →
    turn_ok False tk st
      (if is_doom_loop e then resample tk (ae_finish env) e st
       else apply_retry_decision tk (ae_finish env) e st).1
      (if is_doom_loop e then resample tk (ae_finish env) e st
       else apply_retry_decision tk (ae_finish env) e st).2) as Hfail.
  { intros e ->. destruct (is_doom_loop e) eqn:Ed; [|by apply apply_turn].
    specialize (Hdoom e eq_refl Ed). destruct e; try done. by apply resample_turn. }
  destruct outcome as [r m|ctx|e| |e|].
  - cbn [fst snd]. apply turn_ok_sent; [done|]. inversion Hres as [| | |r' m' Hco].
    pose proof (completed_turn tk st _ r' m' Hinv eq_refl) as Hct.
    rewrite <- (inv_backend _ _ Hinv) in Hct. rewrite Hco in Hct. destruct Hct as (<- & <- & Hacc).
    left. by eexists [], _, (Ok (r, _)).
  - pose proof (apply_turn False tk (ae_finish env) (EmptyResponse ctx) st Hinv Hmx eq_refl) as Ha.
    destruct (apply_retry_decision tk (ae_finish env) (EmptyResponse ctx) st). by apply turn_ok_sent.
  - specialize (Hfail e eq_refl).
    destruct (if is_doom_loop e then _ else _) as [outs next]. by apply turn_ok_sent.
  - cbn [fst snd]. by apply turn_ok_sent.
  - inversion Hres. unfold completed_outcome in *.
    destruct (negb _); [done|]. destruct (bool_decide _); [done|].
    by destruct (bool_decide _), (empty_reason response).
  - inversion Hres. unfold completed_outcome in *.
    destruct (negb _); [done|]. destruct (bool_decide _); [done|].
    by destruct (bool_decide _), (empty_reason response).
Qed.

(** ** The loop *)

(** How a task can go, from a state where so many attempts were made: it ends with
    one terminal event and its completion, or it waits for a response forever. *)
Definition goes tk (rc dc : Z) (unanswered : Prop) (outs : list TaskOut) : Prop :=
  (∃ pre e r, outs = pre ++ [Sent e; Completion r] ∧ Forall in_progress pre ∧
     agrees (tk_id tk) e r ∧
     match r with
     | Ok (response, metrics) =>
         acceptable tk (rc + dc + retries pre) (dc + resamples pre) response metrics
     | Err _ => True
     end)
  ∨ (unanswered ∧ ∃ pre, outs = pre ++ [Waits] ∧ Forall in_progress pre).

Lemma task_loop_ends tk env fuel n st :
  task_inv tk st → (max_retries_of tk < U32_MAX)%Z → (doom_budget tk ≤ U32_MAX)%Z →
  (∀ n c r, connects (env n c r)) → (measure tk st < Z.of_nat fuel)%Z →
  ∃ outs, task_loop tk env fuel n st = Some outs ∧
    goes tk (ts_retry_count st) (ts_doom_retry_count st) (∃ n c r, ae_connect (env n c r) = None) outs.
Proof.
  intros Hinv Hmx Hdb Hconn. revert n st Hinv.
  induction fuel as [|fuel IH]; intros n st Hinv Hfuel.
  { exfalso. unfold measure in Hfuel. destruct Hinv. pose proof (image_budget_bounds st). lia. }
  cbn [task_loop].
  pose proof (task_turn_ok tk (env n (ts_client st) (ts_request st)) st Hinv Hmx Hdb
    (Hconn _ _ _)) as Ht.
  destruct (task_turn _ _ _) as [outs next]. cbn [fst snd] in Ht. destruct next as [st'|].
  - destruct Ht as (Hinv' & Hlt & Hp & Hrc & Hdc).
    destruct (IH (S n) st' Hinv' ltac:(lia)) as (outs' & -> & Hg). exists (outs ++ outs').
    split; [done|]. destruct Hg as [(pre & e & r & -> & Hpre & Hag & Hr)|(Hu & pre & -> & Hpre)].
    2: { right. split; [exact Hu|]. exists (outs ++ pre). rewrite <- app_assoc.
         split; [done|by apply Forall_app]. }
    left. exists (outs ++ pre), e, r. rewrite <- app_assoc. split; [done|].
    split; [by apply Forall_app|]. split; [done|]. destruct r as [ [resp m]|]; [|done].
    rewrite retries_app, resamples_app. replace (_ + (_ + _))%Z with
      (ts_retry_count st' + ts_doom_retry_count st' + retries pre)%Z by lia.
    replace (ts_doom_retry_count st + _)%Z with (ts_doom_retry_count st' + resamples pre)%Z by lia.
    done.
  - exists outs. split; [done|]. destruct Ht as [(pre & e & r & -> & Hp & Hk & Hag & Hr)|[Hu ->] ].
    2: { right. split; [by exists n, (ts_client st), (ts_request st)|]. by exists []. }
    left. exists pre, e, r.
    split; [done|]. split; [done|]. split; [done|]. destruct r as [ [resp m]|]; [|done].
    unfold retries, resamples. rewrite Hk. cbn. by rewrite !Z.add_0_r.
Qed.

Lemma task_start_inv tk request :
  (0 ≤ doom_budget tk)%Z → task_inv tk (task_start tk request).
Proof.
  intros Hd. pose proof (image_budget_bounds (task_start tk request)).
  split; try done. unfold transport_budget. cbn in *. lia.
Qed.

(** The attempts a request may need. *)
Definition attempts_bound tk : nat :=
  Z.to_nat (Z.max 1 (max_retries_of tk) + doom_budget tk + 1).

Lemma request_ends tk env request fuel :
  (max_retries_of tk < U32_MAX)%Z → (0 ≤ doom_budget tk ≤ U32_MAX)%Z →
  (∀ n c r, connects (env n c r)) → (attempts_bound tk ≤ fuel)%nat →
  ∃ outs, run_request_task tk env request fuel = Some outs ∧
    goes tk 0 0 (∃ n c r, ae_connect (env n c r) = None) outs.
Proof.
  intros Hmx Hdb Hconn Hfuel. unfold run_request_task. destruct (tk_new tk) as [ []|err].
  - apply (task_loop_ends tk env fuel 0 (task_start tk request)); [apply task_start_inv; lia|done|lia|done|].
    pose proof (image_budget_bounds (task_start tk request)).
    unfold measure, transport_budget, attempts_bound in *. cbn in *. lia.
  - eexists. split; [done|]. left. exists [], (Failed (tk_id tk) (info_of err)), (Err err).
    split; [done|]. split; [constructor|]. split; [by left|done].
Qed.

(** C5: How a sampling request ends.  Within the attempts its budgets allow
    (retries of failed attempts, resamples of doom loops, one more after images
    were stripped) the task sends events that are not terminal and sleeps, and then
    exactly one terminal event, [Completed] or [Failed], followed by the completion
    of the caller with the same outcome; or it waits forever, only if the server
    never answers one of its attempts, since awaiting the response has no timeout
    and does not watch the cancellation.  This holds for all errors, delays,
    silences and cancellations, as long as no response stream goes on without end. *)
Theorem request_finishes tk env request fuel :
  (max_retries_of tk < U32_MAX)%Z → (0 ≤ doom_budget tk ≤ U32_MAX)%Z →
  (∀ n c r, connects (env n c r)) → (attempts_bound tk ≤ fuel)%nat →
  ∃ pre, Forall in_progress pre ∧
    ((∃ e r, run_request_task tk env request fuel = Some (pre ++ [Sent e; Completion r]) ∧
        is_terminal e = true ∧ agrees (tk_id tk) e r)
     ∨ (run_request_task tk env request fuel = Some (pre ++ [Waits]) ∧
        ∃ n c r, ae_connect (env n c r) = None)).
Proof.
  intros Hmx Hdb Hconn Hfuel.
  destruct (request_ends tk env request fuel Hmx Hdb Hconn Hfuel)
    as (outs & -> & [(pre & e & r & -> & Hp & Ha & _)|(Hu & pre & -> & Hp)]).
  2: { exists pre. split; [done|]. by right. }
  exists pre. split; [done|]. left. exists e, r. split; [done|]. split; [|done].
  destruct r as [ [resp m]|err]; cbn in Ha; [by subst|].
  by destruct Ha as [-> |[ (? & -> & _)|[-> _] ] ].
Qed.

(** C13: A response a request completes with passed every check of its attempt:
    its stop reason is not the length limit, it has text or tool calls unless its
    stop reason is a content filter, its metrics count the attempts exactly, and on
    the Responses API it carries no confident doom-loop trigger unless every
    resample of the budget was spent.  Its stop reason is what the check sees: Chat
    Completions overwrites the one of a response with tool calls, so such a response
    may still have been cut ([truncated_tool_call_accepted]). *)
Theorem completed_response_acceptable tk env request fuel outs response metrics :
  (max_retries_of tk < U32_MAX)%Z → (0 ≤ doom_budget tk ≤ U32_MAX)%Z →
  (∀ n c r, connects (env n c r)) → (attempts_bound tk ≤ fuel)%nat →
  run_request_task tk env request fuel = Some outs →
  Completion (Ok (response, metrics)) ∈ outs →
  acceptable tk (retries outs) (resamples outs) response metrics.
Proof.
  intros Hmx Hdb Hconn Hfuel Hrun Hin.
  destruct (request_ends tk env request fuel Hmx Hdb Hconn Hfuel) as (outs' & Hr & Hg).
  rewrite Hrun in Hr. injection Hr as <-.
  destruct Hg as [(pre & e & r & -> & Hp & Ha & Hacc)|(_ & pre & -> & Hp)].
  2: { apply elem_of_app in Hin as [Hin|Hin]; [|set_solver].
       rewrite Forall_forall in Hp. by specialize (Hp _ Hin). }
  apply elem_of_app in Hin as [Hin|Hin].
  { rewrite Forall_forall in Hp. by specialize (Hp _ Hin). }
  assert (r = Ok (response, metrics)) as -> by set_solver. cbn in Ha. subst e.
  rewrite retries_app, resamples_app. unfold retries at 2, resamples at 2. cbn.
  by rewrite !Z.add_0_r.
Qed.

End Tasks.

(** ** Backoff *)

(** C37: The wait before a retry lies within a fifth around the documented
    schedule, 2 s doubled at each retry up to 30 s, for the retries 1 to 60
    and from 65 on; the four between them are [backoff_vanishes]. *)
Theorem backoff_bounds finish n :
  (1 ≤ n ≤ 60 ∨ 65 ≤ n)%Z →
  let base := Z.min (2000 * 2 ^ (n - 1)) 30000 in
  (from_millis (base * 4 / 5) ≤ retry_backoff_with_jitter finish n ≤ from_millis (base * 6 / 5))%Z.
Proof.
  intros Hn base. unfold retry_backoff_with_jitter.
  assert (base_ms n = base ∧ (5 | base)%Z ∧ (0 ≤ base)%Z) as (-> & [q Hq] & H0).
  { destruct Hn as [Hn|Hn].
    - split; [by apply base_ms_small|]. subst base.
      assert (0 < 2 ^ (n - 1))%Z by (apply Z.pow_pos_nonneg; lia).
      destruct (Z.min_spec (2000 * 2 ^ (n - 1)) 30000) as [ [_ ->] |[_ ->] ].
      + split; [|lia]. exists (400 * 2 ^ (n - 1))%Z. lia.
      + split; [|lia]. by exists 6000%Z.
    - assert (base = 30000%Z) as ->; [|split; [by apply base_ms_large|split; [by exists 6000%Z|lia] ] ].
      subst base. apply Z.min_r. transitivity (2000 * 2 ^ 64)%Z; [done|].
      apply Z.mul_le_mono_nonneg_l; [done|]. apply Z.pow_le_mono_r; lia. }
  clearbody base. subst base. rewrite Z.div_mul by done.
  replace (q * 5 * 4)%Z with (q * 4 * 5)%Z by lia. replace (q * 5 * 6)%Z with (q * 6 * 5)%Z by lia.
  rewrite !Z.div_mul by done.
  pose proof (Z.mod_pos_bound finish (q * 2 + 1) ltac:(lia)).
  unfold from_millis, NANOS_PER_MILLI. lia.
Qed.

Lemma backoff_bounds_witness :
  (1 ≤ 3 ≤ 60 ∨ 65 ≤ 3)%Z ∧
  (let base := Z.min (2000 * 2 ^ (3 - 1)) 30000 in
   from_millis (base * 4 / 5) ≤ retry_backoff_with_jitter 77 3 ≤ from_millis (base * 6 / 5))%Z.
Proof. split; [lia|]. apply (backoff_bounds 77 3). lia. Defined.

(** [checked_shl] does not see that 2000 has been shifted out: the 61st to
    the 64th retry do not wait at all. *)
Theorem backoff_vanishes finish n :
  (61 ≤ n ≤ 64)%Z → retry_backoff_with_jitter finish n = 0%Z.
Proof.
  intros Hn. unfold retry_backoff_with_jitter. rewrite base_ms_lost by done.
  by rewrite Z.mod_1_r.
Qed.

(** ** Streams *)

Section Streams.
Context {RS : RsApi} {SA : SamplerApi} `{!StreamApi} {DA : DecodeApi}.

Definition strictly_increasing (ks : list Z) : Prop := StronglySorted Z.lt ks.

(** The tool call the deltas of index [k] put together *)
Definition streamed_call (evs : list SamplingEvent) (k : Z) : ToolCall :=
  let '(id, name, arguments) := assembled k evs in
  {| tc_id := id; tc_name := name; tc_arguments := arguments |}.

Lemma stream_chat_completed raw md id idle wall start response metrics :
  Completed id response metrics ∈ yields (stream_chat_completions raw md id idle wall start) →
  ∃ a evs, chat_match a evs ∧ response = chat_response a ∧
    yields (stream_chat_completions raw md id idle wall start) =
      evs ++ [Completed id response metrics].
Proof.
  destruct (stream_chat_run (λ _, True) (λ _, True) raw md id idle wall start) as (body & -> & Hrun).
  { split; [|by destruct (raw_end raw) as [ []|] ]. apply Forall_forall. by intros [ [? ?] [|] ]. }
  rewrite yields_app, yields_yielded. intros Hin.
  assert (∀ pre, Forall quiet pre → Completed id response metrics ∉ stream_head id wall md ++ yields pre)
    as Hnot.
  { intros pre Hq [Hx|Hx]%elem_of_app; [destruct md; set_solver|].
    apply list_elem_of_omap in Hx as (o & Ho & Hoe). rewrite Forall_forall in Hq.
    specialize (Hq _ Ho). destruct o; [done|]. by injection Hoe as ->. }
  destruct Hrun as [pre err Hq _ _ -> |pre err Hq _ _ -> |pre a now col Hq _ Hm -> ];
    rewrite yields_app, app_assoc in Hin; apply elem_of_app in Hin as [Hin|Hin];
    try (by destruct (Hnot pre Hq)); unfold yields in Hin; cbn in Hin; try set_solver.
  apply list_elem_of_singleton in Hin. injection Hin as -> ->.
  exists a, (stream_head id wall md ++ yields pre). split; [done|]. split; [done|].
  by rewrite yields_app, app_assoc.
Qed.

(** What the final response says of the events before it. *)
Definition response_matches (response : ConversationResponse) (evs : list SamplingEvent) : Prop :=
  assistant_text response = channel_text ChannelText evs ∧
  reasoning_items response =
    (if is_empty (channel_text ChannelReasoning evs) then []
     else [synthesized_reasoning_item (channel_text ChannelReasoning evs)]) ∧
  (∃ ks, strictly_increasing ks ∧ (∀ k, k ∈ ks ↔ k ∈ delta_indices evs) ∧
     a_tool_calls <$> assistant response = Some (map (streamed_call evs) ks)) ∧
  (delta_indices evs ≠ [] → cr_stop_reason response = Some StopToolCalls).

Lemma chat_response_matches a evs : chat_match a evs → response_matches (chat_response a) evs.
Proof.
  intros (_ & Hc & Hr & (Hs & Hk & Hf) & H0). unfold response_matches. rewrite Hc, Hr.
  assert (map tool_call_of (ca_tool_call_acc a) =
          map (streamed_call evs) (map fst (ca_tool_call_acc a))) as Hmap.
  { rewrite map_map. apply map_ext_in. intros [k v] Hx%list_elem_of_In.
    rewrite Forall_forall in Hf. specialize (Hf _ Hx). cbn in *. unfold streamed_call.
    rewrite <- Hf. by destruct v as [ [? ?] ?]. }
  assert (delta_indices evs ≠ [] → ca_tool_call_acc a ≠ []) as Hne.
  { intros Hd Ha. rewrite Ha in Hk. destruct (delta_indices evs) as [|k ks]; [done|].
    specialize (Hk k). set_solver. }
  unfold assistant_text, assistant, reasoning_items, chat_response. cbn [cr_items cr_stop_reason].
  destruct (ca_first_choice_seen a).
  - assert (∀ l x, head (omap as_assistant (rev (l ++ [Assistant x]))) = Some x) as Hrev
      by (intros l x; by rewrite rev_app_distr).
    rewrite Hrev. cbn. split; [done|]. split; [by destruct (ca_reasoning_acc a)|].
    split; [by exists (map fst (ca_tool_call_acc a)); rewrite Hmap|].
    intros Hd. specialize (Hne Hd). by destruct (ca_tool_call_acc a).
  - destruct (H0 eq_refl) as (Hc0 & Hr0 & Ht0). rewrite Hc0, Hr0, Ht0 in *. cbn.
    split; [done|]. split; [done|]. split; [|intros Hd; by specialize (Hne Hd)].
    exists []. split; [constructor|]. by split.
Qed.

(** C14: What a Chat Completions stream has shown is what its response
    holds: the text tokens in order are the assistant's text, the reasoning tokens
    the reasoning item, and the tool calls are, by increasing index, the ones
    the deltas put together; with a tool call the stop reason says so. *)
Theorem chat_stream_exact raw md id idle wall start response metrics :
  let evs := yields (stream_chat_completions raw md id idle wall start) in
  Completed id response metrics ∈ evs →
  response_matches response evs.
Proof.
  cbn zeta. intros Hin. destruct (stream_chat_completed _ _ _ _ _ _ _ _ Hin) as (a & evs & Hm & -> & ->).
  apply chat_response_matches in Hm as (H1 & H2 & (ks & Hs & Hk & Hc) & H4).
  assert (∀ e : SamplingEvent, is_terminal e = true →
    (∀ ch, channel_text ch (evs ++ [e]) = channel_text ch evs) ∧
    delta_indices (evs ++ [e]) = delta_indices evs ∧
    ∀ k, streamed_call (evs ++ [e]) k = streamed_call evs k) as Hlast.
  { intros e He. split; [intros ch; rewrite channel_text_app|split; [rewrite delta_indices_app|
      intros k; unfold streamed_call; rewrite assembled_app] ]; destruct e; try done; by rewrite app_nil_r. }
  destruct (Hlast (Completed id (chat_response a) metrics) eq_refl) as (L1 & L2 & L3).
  unfold response_matches. rewrite !L1, L2. split; [done|]. split; [done|]. split; [|done].
  exists ks. split; [done|]. split; [done|]. rewrite Hc. f_equal. apply map_ext. intros k. by rewrite L3.
Qed.

(** C26: The stream of an attempt keeps its protocol on every backend: it
    starts with [StreamStarted], its events are not terminal but for the last one, which is; a first token is
    announced once and before the others, and tokens are not empty and are
    numbered one after the other. *)
Theorem stream_protocol {CF} (config : SamplerConfig CF) id idle doom_check env sse md :
  let evs := yields (attempt_l2 config id idle doom_check env sse md) in
  head evs = Some (StreamStarted id (ae_wall env)) ∧
  (∃ pre e, evs = pre ++ [e] ∧ is_terminal e = true ∧ Forall (λ e, is_terminal e = false) pre) ∧
  announced evs.
Proof.
  cbn zeta.
  assert (∃ rest, yields (attempt_l2 config id idle doom_check env sse md) =
                  StreamStarted id (ae_wall env) :: rest) as [rest Hhead].
  { unfold attempt_l2. destruct (cfg_api_backend config); eexists; unfold stream_chat_completions,
      stream_messages, stream_responses; rewrite yields_app, yields_yielded; done. }
  assert (∀ pre e, yields (attempt_l2 config id idle doom_check env sse md) = yields pre ++ [e] →
    is_terminal e = true → Forall quiet pre → announced (yields pre) →
    (∃ pre e, yields (attempt_l2 config id idle doom_check env sse md) = pre ++ [e] ∧
       is_terminal e = true ∧ Forall (λ e, is_terminal e = false) pre) ∧
    announced (yields (attempt_l2 config id idle doom_check env sse md))) as Hend.
  { intros pre e -> He Hq [s Ha]. split.
    - exists (yields pre), e. split; [done|]. split; [done|]. clear Ha. induction Hq as [|o pre Ho Hq IH]; [constructor|].
      unfold yields in *. destruct o as [err|e']; cbn; [done|]. constructor; [|done]. by destruct e'.
    - exists s. rewrite scan_tokens_app, Ha. cbn. by destruct e. }
  rewrite Hhead at 1. split; [done|].
  destruct (attempt_l2_run config id idle doom_check env sse md)
    as [pre err Hq Ha _ He|pre err Hq Ha _ He|pre r m Hq Ha He].
  - eapply (Hend pre); [by rewrite He, yields_app|done|done|done].
  - eapply (Hend pre); [by rewrite He, yields_app|done|done|done].
  - eapply (Hend pre); [by rewrite He, yields_app|done|done|done].
Qed.

End Streams.

(** ** Errors that cross an event *)

Lemma find_app_r s p t : is_Some (find t p) → is_Some (find (s ++ t) p).
Proof.
  intros Ht. induction s as [|c s IH]; [done|]. cbn. destruct (starts_with (c :: s ++ t) p); [by eexists|].
  destruct IH as [n ->]. by eexists.
Qed.

Lemma contains_app_r s t p : contains t p = true → contains (s ++ t) p = true.
Proof.
  unfold contains. destruct (find t p) eqn:E; [|done]. intros _.
  by destruct (find_app_r s p t ltac:(by eexists)) as [k ->].
Qed.

Lemma context_length_app s m :
  message_is_context_length_error m = true → message_is_context_length_error (s ++ m) = true.
Proof.
  unfold message_is_context_length_error. intros (p & Hp & Hm)%existsb_exists.
  apply existsb_exists. exists p. split; [done|]. unfold to_ascii_lowercase in *. rewrite map_app.
  by apply contains_app_r.
Qed.

Lemma words_from_word w cur s :
  Forall (λ c, is_whitespace c = false) w → words_from cur (w ++ s) = words_from (cur ++ w) s.
Proof.
  intros Hw. revert cur. induction Hw as [|c w Hc Hw IH]; intros cur; [by rewrite app_nil_r|].
  cbn. rewrite Hc, IH. by rewrite <- app_assoc.
Qed.

Lemma find_map_app {A B} (f : A → option B) l l' :
  (∀ x, x ∈ l → f x = None) → find_map f (l ++ l') = find_map f l'.
Proof.
  induction l as [|x l IH]; intros Hl; [done|]. cbn. rewrite Hl by set_solver. apply IH. set_solver.
Qed.

Lemma idle_words w :
  Forall (λ c, is_whitespace c = false) w → w ≠ [] →
  split_whitespace (lit "inference idle timeout after " ++ w ++ lit "s with no chunks") =
  map lit ["inference"; "idle"; "timeout"; "after"] ++ (w ++ [S_CHAR]) ::
  map lit ["with"; "no"; "chunks"].
Proof.
  intros Hw Hne. unfold split_whitespace.
  assert (∀ r, words_from [] (lit "inference idle timeout after " ++ r) =
    map lit ["inference"; "idle"; "timeout"; "after"] ++ words_from [] r) as Hpre
    by (intros r; vm_compute; reflexivity).
  rewrite Hpre. f_equal. rewrite words_from_word by done.
  assert (∀ v, v ≠ [] → words_from v (lit "s with no chunks") =
    (v ++ [S_CHAR]) :: map lit ["with"; "no"; "chunks"]) as Hpost.
  { intros v Hv. destruct v as [|c v]; [done|]. vm_compute. reflexivity. }
  by rewrite Hpost.
Qed.

Lemma parse_elapsed_text secs :
  (0 ≤ secs ≤ U64_MAX)%Z →
  parse_elapsed (lit "inference idle timeout after " ++ fmt_Z secs ++ lit "s with no chunks") = secs.
Proof.
  intros Hs. destruct (fmt_Z_codes secs ltac:(lia)) as (_ & Hd & Hne). unfold parse_elapsed.
  rewrite idle_words; [|eapply Forall_impl; [exact Hd|]|done].
  - rewrite find_map_app.
    + cbn [find_map]. rewrite (proj2 (strip_suffix_Some _ _ (fmt_Z secs)) eq_refl).
      cbn [mbind option_bind]. by rewrite parse_unsigned_fmt.
    + apply Forall_forall. repeat constructor; by vm_compute.
  - unfold is_digit_code. intros c Hc.
    assert (c = 48 ∨ c = 49 ∨ c = 50 ∨ c = 51 ∨ c = 52 ∨ c = 53 ∨ c = 54 ∨ c = 55 ∨ c = 56 ∨ c = 57)%Z
      as Hcs by lia. by destruct_or! Hcs; subst.
Qed.

Section Rebuilt.
Context {SA : SamplerApi} `{!LawfulSamplerApi}.

(** The numbers of an error are those of its types. *)
Definition error_in_range (e : SamplingError) : Prop :=
  match e with
  | IdleTimeout secs => (0 ≤ secs ≤ U64_MAX)%Z
  | Api status _ _ _ _ => (100 ≤ status ≤ 999)%Z
  | _ => True
  end.

(** What the retry loop asks of an error. *)
Definition same_class (e e' : SamplingError) : Prop :=
  is_retryable e' = is_retryable e ∧ is_auth_error e' = is_auth_error e ∧
  is_rate_limited e' = is_rate_limited e ∧ is_payload_too_large e' = is_payload_too_large e ∧
  is_doom_loop e' = is_doom_loop e ∧ retry_after e' = retry_after e ∧
  (is_context_length_error e = true → is_context_length_error e' = true).

(** The error the retry loop rebuilds from a [Failed] event is the one
    the stream failed with: equal to it for an idle timeout, a doom loop, a truncation, an
    empty response and a refused credential, the same text for a response that
    could not be parsed, and of the same class for every other but
    configuration errors and [reqwest]'s own, which are taken from the raw stream. *)
Theorem error_survives_event e :
  error_in_range e → match e with Http _ | InvalidConfiguration _ => False | _ => True end →
  same_class e (synthesize_from_info (info_of e)) ∧
  match e with
  | Auth _ | IdleTimeout _ | EmptyResponse _ | MaxTokensTruncation | DoomLoopDetected _ _ =>
      synthesize_from_info (info_of e) = e
  | Serialization _ => to_string (synthesize_from_info (info_of e)) = to_string e
  | _ => True
  end.
Proof.
  intros Hr Hk. destruct e as [m|m|err|err|status m md ra sr|m|ty m|secs|c| |ts n]; try done.
  - split; [done|]. cbn [info_of kind_of synthesize_from_info in_kind in_message].
    unfold serialization_from_rendered, serialization_message. cbn [to_string].
    rewrite (proj2 (strip_prefix_Some _ _ (se_to_string err)) eq_refl). cbn [default].
    by rewrite se_custom_shows.
  - split; [|done]. unfold synthesize_from_info. cbn [error_in_range] in Hr.
    assert (∃ k, kind_of (Api status m md ra sr) = k ∧ (k = KApi ∨ k = KRateLimited)) as (k & Hk' & Hk2)
      by (cbn; destruct (status =? TOO_MANY_REQUESTS)%Z; eexists; split; eauto).
    unfold info_of. cbn [in_kind in_status_code in_message in_model_metadata in_retry_after_secs].
    rewrite Hk'. cbn [mbind option_bind]. rewrite from_u16_some by done. cbn [default].
    assert (same_class (Api status m md ra sr)
      (Api status (to_string (Api status m md ra sr)) md ra None)) as Hsc.
    { do 6 (split; [done|]). cbn. intros Hc. rewrite !app_assoc. by apply context_length_app. }
    by destruct Hk2 as [-> | ->].
  - split; [|done]. do 6 (split; [done|]). cbn. intros Hc.
    rewrite !app_assoc. by apply context_length_app.
  - assert (synthesize_from_info (info_of (IdleTimeout secs)) = IdleTimeout secs) as ->; [|done].
    unfold synthesize_from_info. cbn [info_of in_kind kind_of in_message to_string]. f_equal.
    by apply parse_elapsed_text.
Qed.

End Rebuilt.

(** ** The actor *)

Section Actor.
Context {RS : RsApi} {CF : Type}.
Implicit Types (a : SamplerActor (CF:=CF)).

Record actor_inv a : Prop := {
  ai_ids : NoDup (map sp_request_id (sa_tasks a));
  ai_tasks : NoDup (map sp_task (sa_tasks a));
  ai_next : ∀ s, s ∈ sa_tasks a → (sp_task s < sa_next a)%nat;
  ai_tokens : ∀ t, t ∈ sa_cancelled a → (t < sa_next a)%nat;
  ai_active : ∀ id t, sa_active_requests a !! id = Some t ↔
    (∃ s, s ∈ sa_tasks a ∧ sp_request_id s = id ∧ sp_task s = t) ∧ t ∉ sa_cancelled a;
}.

(** No identifier is submitted while a task with it runs, and no task panics. *)
Definition fresh_input a (i : ActorInput (CF:=CF)) : Prop :=
  match i with
  | Command (Submit id _ _) => id ∉ map sp_request_id (sa_tasks a)
  | Panicked _ => False
  | _ => True
  end.
Fixpoint fresh_run a (inputs : list (ActorInput (CF:=CF))) : Prop :=
  match inputs with
  | [] => True
  | i :: inputs' => fresh_input a i ∧ fresh_run (actor_input i a) inputs'
  end.

Lemma tasks_unique {B} (f : Spawned (CF:=CF) → B) l s s' :
  NoDup (map f l) → s ∈ l → s' ∈ l → f s = f s' → s = s'.
Proof.
  induction l as [|x l IH]; [set_solver|]. cbn. intros [Hn Hnd]%NoDup_cons Hs Hs' Hf.
  apply elem_of_cons in Hs as [-> |Hs], Hs' as [-> |Hs']; [done| | |by apply IH].
  - destruct Hn. apply list_elem_of_fmap. by exists s'.
  - destruct Hn. apply list_elem_of_fmap. by exists s.
Qed.

Lemma filter_map_nodup {B} (f : Spawned (CF:=CF) → B) p l :
  NoDup (map f l) → NoDup (map f (List.filter p l)).
Proof.
  induction l as [|x l IH]; [done|]. cbn. intros [Hn Hnd]%NoDup_cons. destruct (p x); [|by apply IH].
  cbn. apply NoDup_cons. split; [|by apply IH]. intros (y & Hxy & Hy)%list_elem_of_fmap.
  apply Hn, list_elem_of_fmap. exists y. split; [done|].
  apply list_elem_of_In, filter_In in Hy as [Hy _]. by apply list_elem_of_In.
Qed.

Lemma submit_inv id r c a :
  actor_inv a → id ∉ map sp_request_id (sa_tasks a) → actor_inv (handle_command (Submit id r c) a).
Proof.
  intros [I1 I2 I3 I4 I5] Hf.
  assert (sa_active_requests a !! id = None) as Hnone.
  { apply eq_None_not_Some. intros [t Ht]. apply I5 in Ht as [(s & Hs & <- & _) _].
    apply Hf, list_elem_of_fmap. by exists s. }
  unfold handle_command, register. rewrite Hnone.
  split; cbn.
  - rewrite map_app, NoDup_app. cbn. repeat split; [done|set_solver|apply NoDup_singleton].
  - rewrite map_app, NoDup_app. cbn. repeat split; [done| |apply NoDup_singleton].
    intros t (s & -> & Hs)%list_elem_of_fmap Ht%list_elem_of_singleton. specialize (I3 _ Hs). lia.
  - intros s [Hs|Hs]%elem_of_app; [specialize (I3 _ Hs); lia|].
    apply list_elem_of_singleton in Hs as ->. cbn. lia.
  - intros t Ht. specialize (I4 _ Ht). lia.
  - intros id' t. destruct (decide (id = id')) as [<-|Hne].
    + rewrite lookup_insert_eq. split.
      * intros [= <-]. split; [|intros Hx; specialize (I4 _ Hx); lia].
        eexists. split; [apply elem_of_app; right; by left|done].
      * intros [(s & [Hs|Hs]%elem_of_app & Hid & <-) _].
        -- destruct Hf. apply list_elem_of_fmap. by exists s.
        -- by apply list_elem_of_singleton in Hs as ->.
    + rewrite lookup_insert_ne, I5 by done. split; intros [(s & Hs & Hid & Ht) Hc]; (split; [|done]).
      * exists s. split; [apply elem_of_app; by left|done].
      * apply elem_of_app in Hs as [Hs|Hs]; [by exists s|].
        by apply list_elem_of_singleton in Hs as ->.
Qed.

Lemma cancel_inv id a : actor_inv a → actor_inv (handle_command (Cancel id) a).
Proof.
  intros Hinv. pose proof Hinv as [I1 I2 I3 I4 I5]. cbn. unfold actor_cancel.
  destruct (sa_active_requests a !! id) as [t|] eqn:E; [|done]. pose proof (proj1 (I5 _ _) E) as Ht.
  split; cbn; try done.
  - intros t' [-> |Ht']%elem_of_cons; [|by apply I4]. destruct Ht as [(s & Hs & _ & <-) _]. by apply I3.
  - intros id' t'. destruct (decide (id = id')) as [<-|Hne].
    + rewrite lookup_delete_eq. split; [done|]. intros [Hs Hc]. exfalso.
      assert (sa_active_requests a !! id = Some t') as E'.
      { apply I5. split; [done|]. set_solver. }
      rewrite E in E'. injection E' as ->. set_solver.
    + rewrite lookup_delete_ne, I5 by done. split; [|set_solver].
      intros [Hs Hc]. split; [done|]. intros [-> |Hx]%elem_of_cons; [|done].
      destruct Ht as [(s & Hs1 & Hid1 & Ht1) _], Hs as (s' & Hs2 & Hid2 & Ht2).
      assert (s = s') as -> by (eapply (tasks_unique sp_task); [exact I2|done|done|congruence]).
      congruence.
Qed.

Lemma joined_inv task a : actor_inv a → actor_inv (actor_input (Joined task) a).
Proof.
  intros Hinv. pose proof Hinv as [I1 I2 I3 I4 I5]. cbn.
  destruct (List.find (λ s, sp_task s =? task)%nat (sa_tasks a)) as [s0|] eqn:Ef; [|done].
  apply find_some in Ef as [Hs0%list_elem_of_In Ht0%Nat.eqb_eq].
  assert (∀ s, s ∈ List.filter (λ s, negb (sp_task s =? task)%nat) (sa_tasks a) ↔
               s ∈ sa_tasks a ∧ sp_task s ≠ task) as Hfil.
  { intros s. rewrite list_elem_of_In, filter_In, <- list_elem_of_In.
    by rewrite negb_true_iff, Nat.eqb_neq. }
  split; cbn; try done.
  - by apply filter_map_nodup.
  - by apply filter_map_nodup.
  - intros s Hs. apply I3. by apply Hfil in Hs as [Hs _].
  - intros id t. destruct (decide (sp_request_id s0 = id)) as [Hid|Hne].
    + subst id. rewrite lookup_delete_eq. split; [done|]. intros [(s & Hs & Hid & Ht) _].
      apply Hfil in Hs as [Hs Hne].
      assert (s = s0) as -> by (by eapply (tasks_unique sp_request_id)). done.
    + rewrite lookup_delete_ne, I5 by done. split; intros [(s & Hs & Hid & Ht) Hc]; (split; [|done]);
        exists s; (split; [|done]).
      * apply Hfil. split; [done|]. intros Heq. apply Hne.
        assert (s = s0) as -> by (eapply (tasks_unique sp_task); [exact I2|done|done|congruence]). done.
      * by apply Hfil in Hs as [Hs _].
Qed.

Lemma actor_run_inv inputs a :
  actor_inv a → fresh_run a inputs → actor_inv (fold_left (λ a i, actor_input i a) inputs a).
Proof.
  revert a. induction inputs as [|i inputs IH]; intros a Hinv; [done|]. cbn. intros [Hf Hrun].
  apply IH; [|done]. destruct i as [task|task|cmd]; [by apply joined_inv|done|].
  destruct cmd as [id r c|id|config|id|]; [by apply submit_inv|by apply cancel_inv|..];
    by destruct Hinv; split.
Qed.

(** C27: As long as no identifier is reused while its task runs and no task
    panics, the actor's table of active requests is exact at every moment: an
    identifier is mapped to a token when and only when a task with both runs
    and has not been cancelled, so [is_active] is right, a cancellation
    reaches the task it names and no other; and when all handles are gone
    every task still running has been cancelled. *)
Theorem actor_tracks_tasks config policy inputs :
  fresh_run (actor_spawn config policy) inputs →
  let a := fold_left (λ a i, actor_input i a) inputs (actor_spawn config policy) in
  (∀ id t, sa_active_requests a !! id = Some t ↔
     (∃ s, s ∈ sa_tasks a ∧ sp_request_id s = id ∧ sp_task s = t) ∧ t ∉ sa_cancelled a) ∧
  (∀ s, s ∈ sa_tasks a → sp_task s ∈ sa_cancelled (actor_run inputs (actor_spawn config policy))).
Proof.
  intros Hrun a.
  assert (actor_inv a) as Hinv.
  { apply actor_run_inv; [|done]. split; cbn; try (by constructor); set_solver. }
  pose proof Hinv as [_ _ _ _ I5]. split; [exact I5|]. intros s Hs. unfold actor_run, shut_down.
  fold a. cbn. destruct (decide (sp_task s ∈ sa_cancelled a)) as [Hc|Hc]; [set_solver|].
  apply elem_of_app. left. apply list_elem_of_fmap. exists (sp_request_id s, sp_task s).
  split; [done|]. apply elem_of_map_to_list, I5. split; [by exists s|done].
Qed.

End Actor.

(** ** A concrete sampler

    Errors are texts, a frame's data is a text token, but for two that end a
    choice; the environment fails the first attempt and answers the second. *)

#[global] Instance demo_sampler : SamplerApi := {
  ReqwestError := str; re_is_timeout _ := false; re_is_connect _ := false;
  re_is_status _ := false; re_is_request _ := true; re_is_body _ := false;
  re_status _ := None; re_url _ := None; re_to_string s := s;
  SerdeError := str; se_line _ := 1%Z; se_column _ := 1%Z; se_to_string s := s; se_custom s := s;
  status_to_string := fmt_Z;
  status_from_u16 c := if in_range 100 999 c then Some c else None;
  status_is_server_error := in_range 500 599;
  Value := str; value_from_str s := Some s; value_get _ _ := None; value_pointer _ _ := None;
  value_as_str v := Some v; value_as_array _ := None;
  error_response_from_str _ := None; flat_error_from_str _ := None;
  str_from_utf8 bs := Some bs;
}.

#[global] Instance demo_sampler_lawful : LawfulSamplerApi.
Proof.
  split; [done|]. intros c Hc. cbn. unfold in_range.
  replace ((100 <=? c) && (c <=? 999))%Z with true by lia. done.
Qed.

#[global] Instance demo_stream : StreamApi := {
  mk_reasoning s e := (s, None, e);
  push_summary r t := (r.1.1 ++ [t], r.1.2, r.2);
  ws_id _ := []; ct_id c := c.1; ws_to_value _ := None; ct_to_value _ := None;
}.

#[global] Instance demo_stream_lawful : LawfulStreamApi.
Proof. by split. Qed.

Definition demo_delta (text : str) (calls : list ToolCallDelta) : ChatChunkDelta :=
  {| dl_content := Some text; dl_reasoning_content := None; dl_tool_calls := calls |}.
Definition demo_chunk (d : ChatChunkDelta) (fr : option FinishReason) : ChatCompletionChunk :=
  {| ck_model := lit "m"; ck_choices := [{| ch_delta := d; ch_finish_reason := fr |}];
     ck_usage := None; ck_system_fingerprint := None |}.

#[global] Instance demo_decode : DecodeApi := {
  chunk_from_str data :=
    Ok (if str_eqb data (lit "stop") then demo_chunk (demo_delta [] []) (Some FinishStop)
        else if str_eqb data (lit "call") then
          demo_chunk (demo_delta [] [{| cd_index := 0; cd_id := Some (lit "c1");
            cd_function := Some {| fd_name := Some (lit "bash");
                                   fd_arguments := Some (lit "{ls") |} |}]) (Some FinishLength)
        else demo_chunk (demo_delta data []) None);
  message_event_from_str data := Err data;
  response_event_from_str data := Err data;
  response_event_from_value _ := None;
  tool_from_value _ := true;
  value_update_array _ _ v := v;
  value_as_i64 _ := None;
  value_as_u64 _ := None;
}.

Definition demo_config : SamplerConfig unit :=
  {| cfg_base_url := lit "u"; cfg_model := lit "m"; cfg_api_backend := ChatCompletions;
     cfg_force_http1 := false; cfg_max_retries := None; cfg_idle_timeout_secs := None;
     cfg_doom_loop_recovery := Some doom_policy_default; cfg_client := () |}.
Definition demo_task : TaskParams :=
  {| tk_id := lit "r"; tk_config := demo_config; tk_policy := retry_policy_default;
     tk_env_override := None; tk_new := Ok (); tk_http1 := Ok () |}.
Definition demo_request : ConversationRequest :=
  {| items := []; tools := []; hosted_tools := []; tool_choice := None; request_model := None;
     request_temperature := None; max_output_tokens := None; request_top_p := None;
     x_grok_conv_id := None; x_grok_req_id := None; x_grok_session_id := None;
     x_grok_turn_idx := None; x_grok_agent_id := None; x_grok_deployment_id := None;
     x_grok_user_id := None; trace := None; request_reasoning_effort := None; json_schema := None |}.

Definition demo_sse (texts : list string) : SseStream :=
  {| sse_frames := map (λ t, (from_secs 1, Ok ([], lit t))) texts; sse_end := Some (from_secs 2) |}.
Definition demo_env (n : nat) (_ : SamplerConfig unit) (_ : ConversationRequest) : AttemptEnv :=
  {| ae_cancelled := false; ae_finish := 5;
     ae_connect := match n with
                   | O => Some (Err (EventStreamError (lit "reset")))
                   | _ => Some (Ok (demo_sse ["hello "; "world"; "stop"], None))
                   end;
     ae_wall := 0; ae_start := 0; ae_cancel_after := None |}.

Lemma demo_connects : ∀ n c r, connects (demo_env n c r).
Proof. intros [|n] c r e; [by intros [= <-]|done]. Qed.

Lemma demo_retries : (max_retries_of demo_task < U32_MAX)%Z.
Proof. vm_compute. reflexivity. Qed.
Lemma demo_budget : (0 ≤ doom_budget demo_task ≤ U32_MAX)%Z.
Proof. split; vm_compute; discriminate. Qed.
Lemma demo_bound : (attempts_bound demo_task ≤ 20)%nat.
Proof. apply Nat.leb_le. vm_compute. reflexivity. Qed.

Lemma request_finishes_witness :
  ∃ pre, Forall in_progress pre ∧
    ((∃ e r, run_request_task demo_task demo_env demo_request 20 =
        Some (pre ++ [Sent e; Completion r]) ∧ is_terminal e = true ∧ agrees (lit "r") e r)
     ∨ (run_request_task demo_task demo_env demo_request 20 = Some (pre ++ [Waits]) ∧
        ∃ n c r, ae_connect (demo_env n c r) = None)).
Proof.
  apply (request_finishes demo_task demo_env demo_request 20);
    [exact demo_retries|exact demo_budget|exact demo_connects|exact demo_bound].
Defined.

(** A server that never answers: the request waits, whatever happens to its token. *)
Definition mute_env (n : nat) (_ : SamplerConfig unit) (_ : ConversationRequest) : AttemptEnv :=
  {| ae_cancelled := false; ae_finish := 5; ae_connect := None; ae_wall := 0; ae_start := 0;
     ae_cancel_after := Some 0%nat |}.
Example unanswered_request_waits :
  run_request_task demo_task mute_env demo_request 20 = Some [Waits].
Proof. vm_compute. reflexivity. Qed.

Definition demo_outs : list TaskOut :=
  default [] (run_request_task demo_task demo_env demo_request 20).
Definition accepted (o : TaskOut) : option (ConversationResponse * InferenceLatencyStats) :=
  match o with Completion (Ok r) => Some r | _ => None end.
Definition demo_result : option (ConversationResponse * InferenceLatencyStats) :=
  find_map accepted demo_outs.

Example demo_run :
  retries demo_outs = 1%Z ∧ length demo_outs = 8%nat ∧
  assistant_text <$> (fst <$> demo_result) = Some (lit "hello world") ∧
  st_attempts <$> (snd <$> demo_result) = Some 2%Z.
Proof. split_and!; vm_compute; reflexivity. Qed.

Lemma find_map_elem {A B} (f : A → option B) l y :
  find_map f l = Some y → ∃ x, x ∈ l ∧ f x = Some y.
Proof.
  induction l as [|x l IH]; [done|]. cbn. destruct (f x) eqn:E.
  - intros [= ->]. exists x. split; [left|done].
  - intros Hf. destruct (IH Hf) as (x' & Hx & Hy). exists x'. split; [by right|done].
Qed.

Lemma is_some_eq {A} (o : option A) : is_some o = true → ∃ x, o = Some x.
Proof. destruct o; [by eexists|done]. Qed.

Lemma accepted_inv o r : accepted o = Some r → o = Completion (Ok r).
Proof. destruct o as [e|d|[r'|e]| ]; try done. by intros [= ->]. Qed.

Lemma completed_response_acceptable_witness :
  ∃ response metrics, demo_result = Some (response, metrics) ∧
    acceptable demo_task (retries demo_outs) (resamples demo_outs) response metrics.
Proof.
  destruct (is_some_eq demo_result) as [ [response metrics] Hr]; [vm_compute; reflexivity|].
  destruct (is_some_eq (run_request_task demo_task demo_env demo_request 20)) as [outs Ho];
    [vm_compute; reflexivity|].
  destruct (find_map_elem _ _ _ Hr) as (o & Hin & Ho').
  exists response, metrics. split; [exact Hr|].
  assert (demo_outs = outs) as Hd by (unfold demo_outs; rewrite Ho; reflexivity). rewrite Hd in *.
  apply (completed_response_acceptable demo_task demo_env demo_request 20);
    [exact demo_retries|exact demo_budget|exact demo_connects|exact demo_bound|exact Ho|].
  apply accepted_inv in Ho'. rewrite <- Ho'. exact Hin.
Defined.

Definition demo_events : list SamplingEvent :=
  yields (stream_chat_completions (chat_raw (demo_sse ["hello "; "world"; "stop"])) None (lit "r")
            (from_secs 300) 0 0).

Lemma chat_stream_exact_witness :
  ∃ id response metrics, Completed id response metrics ∈ demo_events ∧
    response_matches response demo_events.
Proof.
  destruct (is_some_eq (find_map (λ e, match e with Completed id r m => Some (id, r, m) | _ => None end)
    demo_events)) as [ [ [id response] metrics] Hr]; [vm_compute; reflexivity|].
  destruct (find_map_elem _ _ _ Hr) as (e & Hin & He). destruct e; try discriminate.
  injection He as -> -> ->. exists id, response, metrics. split; [exact Hin|].
  assert (id = lit "r") as ->.
  { revert Hr. clear. intros Hr. apply (f_equal (fmap (λ x, x.1.1))) in Hr. vm_compute in Hr.
    injection Hr as <-. vm_compute. reflexivity. }
  exact (chat_stream_exact (chat_raw (demo_sse ["hello "; "world"; "stop"])) None (lit "r")
           (from_secs 300) 0 0 response metrics Hin).
Defined.

Lemma error_survives_event_witness :
  synthesize_from_info (info_of (IdleTimeout 240)) = IdleTimeout 240.
Proof. apply (error_survives_event (IdleTimeout 240)); [by vm_compute|done]. Defined.

Definition demo_inputs : list (ActorInput (CF:=unit)) :=
  [Command (Submit (lit "a") demo_request None); Command (Submit (lit "b") demo_request None);
   Command (Cancel (lit "a")); Joined 0; Command (Submit (lit "a") demo_request None)].

Lemma actor_tracks_tasks_witness :
  sa_active_requests (fold_left (λ a i, actor_input i a) demo_inputs
    (actor_spawn demo_config retry_policy_default)) !! lit "a" = Some 2%nat.
Proof.
  apply (actor_tracks_tasks demo_config retry_policy_default demo_inputs).
  - vm_compute. repeat split; set_solver.
  - split; [|intros Hx%list_elem_of_In; vm_compute in Hx; destruct Hx as [Hx|[] ]; discriminate].
    eexists. split; [apply list_elem_of_In; vm_compute; right; left; reflexivity|done].
Defined.

(** ** Where code and comments part *)

Section Findings.
Context {RS : RsApi} {SA : SamplerApi} `{!StreamApi} {DA : DecodeApi} {CF : Type}.

(** With the default policy a 429 is retried once: the threshold of two counts
    the attempts, and it counts every retry of the request, so that the first 429
    after a transport retry is fatal. *)
Theorem rate_limit_retried_once finish m md ra sr mx :
  contains m ENCRYPTED_CONTENT = false → contains m COULD_NOT_PROCESS_IMAGE = false →
  classify_error finish (Api 429 m md ra sr) 1 mx RATE_LIMIT_RETRY_THRESHOLD =
  Fatal (Api 429 m md ra sr).
Proof.
  intros H1 H2. unfold classify_error.
  cbn [is_auth_error is_encrypted_content_error is_payload_too_large is_image_processing_error
    is_doom_loop is_rate_limited clone_error should_retry_header].
  change (429 =? UNAUTHORIZED)%Z with false. change (429 =? BAD_REQUEST)%Z with false.
  change (429 =? PAYLOAD_TOO_LARGE)%Z with false. rewrite H2, andb_false_r. cbn [andb].
  case_bool_decide; [done|]. destruct (is_context_length_error _); [done|].
  change (429 =? TOO_MANY_REQUESTS)%Z with true. change (u32_add 1 1) with 2%Z.
  unfold RATE_LIMIT_RETRY_THRESHOLD. by replace (Z.min mx 2 <=? 2)%Z with true by lia.
Qed.

(** The default budget of 15 retries allows 14. *)
Theorem fifteenth_retry_is_fatal finish text thr :
  classify_error finish (EventStreamError text) 14 DEFAULT_MAX_RETRIES thr =
  Fatal (EventStreamError text).
Proof. done. Qed.

(** A retry after stripping images uses up the budget of the others. *)
Theorem image_strip_is_counted (tk : TaskParams (CF:=CF)) finish m md ra sr st :
  num_images (ts_request st) ≠ 0%nat →
  ts_retry_count <$> (apply_retry_decision tk finish (Api 413 m md ra sr) st).2 =
  Some (u32_add (ts_retry_count st) 1).
Proof.
  intros Hn. unfold apply_retry_decision.
  assert (∀ rc mx thr, classify_error finish (Api 413 m md ra sr) rc mx thr = RetryWithImageStrip) as ->
    by done.
  cbn [is_likely_body_rejected]. destruct (request_strip_images (ts_request st)) as [r n] eqn:E.
  unfold num_images in Hn. rewrite E in Hn. cbn in Hn.
  destruct (Nat.eqb_spec n 0); [done|]. done.
Qed.

(** A caller of [submit_and_collect] gets a cancellation as an
    authentication error. *)
Theorem cancellation_is_auth_error id :
  ∃ e, handle_cancellation id = [Sent (Failed id cancelled_info); Completion (Err e)] ∧
    is_auth_error e = true ∧ in_kind cancelled_info = KApi.
Proof. by eexists. Qed.

(** The stop reason of a chat response with tool calls is overwritten also when
    it was set: arguments cut at the token limit are accepted. *)
Theorem truncated_tool_call_accepted (a : ChatAcc) metrics dc :
  ca_finish_reason a = Some StopLength → ca_first_choice_seen a = true →
  ca_tool_call_acc a ≠ [] →
  completed_outcome dc (chat_response a) metrics = AttemptCompleted (chat_response a) metrics.
Proof.
  intros Hl Hc Ht. unfold completed_outcome, chat_response. rewrite Hc.
  destruct (ca_tool_call_acc a) as [|e m] eqn:E; [done|]. cbn.
  unfold empty_reason, assistant. cbn. rewrite rev_app_distr. cbn.
  rewrite orb_true_r. by destruct dc.
Qed.

(** A refusal on the Responses API leaves no text: the response counts as
    empty and is sampled again, against the comment that a refused turn must not be. *)
Theorem refusal_is_resampled model metrics :
  let r := {| rr_model := model; rr_metadata := None; rr_effort := None;
              rr_output := [OutMessage [OutputRefusal]]; rr_usage := None;
              rr_status := StatusCompleted; rr_error := None |} in
  match completed_outcome None (resp_response (resp_new 0) r []) metrics with
  | AttemptEmpty c => is_retryable (EmptyResponse c) = true
  | _ => False
  end.
Proof. done. Qed.

End Findings.

(** Of two thinking blocks only the last one is kept, and of a block without its
    stop event nothing, although both were shown. *)
Definition demo_blocks : RawStream MessageStreamEvent :=
  {| raw_items := map (λ e, (0%Z, None, Ok e))
       [ContentBlockStart 0 (BlockThinking (lit "first") []); ContentBlockStop 0;
        ContentBlockStart 1 (BlockThinking (lit "second") []); ContentBlockStop 1;
        ContentBlockStart 2 (BlockText [] None); ContentBlockDelta 2 (TextDelta (lit "kept"));
        ContentBlockStop 2;
        ContentBlockStart 3 (BlockText [] None); ContentBlockDelta 3 (TextDelta (lit "lost"))];
     raw_end := Some (0%Z, None) |}.

Example blocks_lost :
  let evs := yields (stream_messages demo_blocks None (lit "r") (from_secs 300) 0 0) in
  channel_text ChannelText evs = lit "keptlost" ∧
  match collect_response evs with
  | Ok (response, _) =>
      assistant_text response = lit "kept" ∧
      map ri_summary (reasoning_items response) = [ [lit "second"] ]
  | Err _ => False
  end.
Proof. split; [vm_compute; reflexivity|]. vm_compute. split; reflexivity. Qed.

(** A request submitted again under its identifier is lost from the table when
    the task it replaced ends: a cancellation does not reach it. *)
Example resubmitted_request_untracked :
  let a := fold_left (λ a i, actor_input i a)
    [Command (Submit (lit "a") demo_request None); Command (Submit (lit "a") demo_request None);
     Joined 0; Command (Cancel (lit "a")); Command (IsActive (lit "a"))]
    (actor_spawn demo_config retry_policy_default) in
  map sp_task (sa_tasks a) = [1%nat] ∧ sa_cancelled a = [0%nat] ∧
  sa_replies a = [ReplyActive false].
Proof. vm_compute. repeat split. Qed.

(** The entry of a task that panicked stays active. *)
Example panicked_request_stays_active :
  let a := fold_left (λ a i, actor_input i a)
    [Command (Submit (lit "a") demo_request None); Panicked 0; Command (IsActive (lit "a"))]
    (actor_spawn demo_config retry_policy_default) in
  length (sa_tasks a) = 0%nat ∧ sa_replies a = [ReplyActive true].
Proof. vm_compute. repeat split. Qed.
