(* ===== verification/ImageCheck.v ===== *)
(** * Images of a loaded history

    [xai-grok-tools/src/util/image_validate.rs], the structural walks of a
    JPEG, PNG or WebP image that tell a cut one, and
    [xai-grok-shell/src/session/image_normalize.rs],
    [persisted_image_reject_reason], which says why the API would refuse an
    image.  The classes of a validation error are not told apart: an error is
    [None]. *)
From S2P Require Import Prelude RustStr.

(** The [image] and [crc32fast] crates: a format is sniffed from the first
    bytes, [into_dimensions] reads a header, [load_from_memory] decodes. *)
Inductive ImageFormat : Type :=
| Png | Jpeg | Gif | WebP | Tiff | Bmp | Ico | OtherFormat (debug : str).

Class ImageApi : Type := {
  guess_format : bytes → option ImageFormat;
  into_dimensions : bytes → option (Z * Z);
  load_from_memory : bytes → option (Z * Z);
  crc32 : bytes → Z;
}.

(** What is documented of them. *)
Class LawfulImageApi `{ImageApi} : Prop := {
  crc32_u32 bs : (0 ≤ crc32 bs < 2 ^ 32)%Z;
}.

Section Check.
Context {IA : ImageApi}.
Implicit Types (bs more : bytes) (i n fuel : nat).

(** How far [p] holds from [i] on: [while i < n && p(bytes[i]) { i += 1 }] *)
Fixpoint run_length (p : Z → bool) bs : nat :=
  match bs with
  | [] => 0
  | b :: bs' => if p b then S (run_length p bs') else 0
  end.
Definition advance (p : Z → bool) bs i : nat := i + run_length p (drop i bs).

Definition not_ff (b : Z) : bool := negb (b =? 255)%Z.
Definition is_ff (b : Z) : bool := (b =? 255)%Z.
Definition is_restart (b : Z) : bool := (208 <=? b)%Z && (b <=? 215)%Z.

Definition skip_segment bs (at_ : nat) : option nat :=
  hi ← bs !! at_;
  lo ← bs !! S at_;
  let len := Z.to_nat (Z.lor (Z.shiftl hi 8) lo) in
  if len <? 2 then None
  else if at_ + len <=? length bs then Some (at_ + len) else None.

(** The scan of the entropy-coded stream: the outer option is the fuel, the
    inner one the position of the next marker. *)
Fixpoint scan_entropy fuel bs i : option (option nat) :=
  match fuel with
  | O => None
  | S fuel' =>
      let i := advance not_ff bs i in
      match bs !! S i with
      | None => Some None
      | Some b =>
          if (b =? 0)%Z then scan_entropy fuel' bs (i + 2)
          else if (b =? 255)%Z then scan_entropy fuel' bs (i + 1)
          else if is_restart b then scan_entropy fuel' bs (i + 2)
          else Some (Some i)
      end
  end.

Fixpoint jpeg_loop fuel bs i : option bool :=
  match fuel with
  | O => None
  | S fuel' =>
      let i := advance is_ff bs (advance not_ff bs i) in
      match bs !! i with
      | None => Some false
      | Some marker =>
          let i := S i in
          if (marker =? 0)%Z then jpeg_loop fuel' bs i
          else if (marker =? 217)%Z then Some true
          else if (marker =? 1)%Z || is_restart marker then jpeg_loop fuel' bs i
          else
            match skip_segment bs i with
            | None => Some false
            | Some next =>
                if (marker =? 218)%Z then
                  match scan_entropy (S (length bs)) bs next with
                  | Some (Some i) => jpeg_loop fuel' bs i
                  | Some None => Some false
                  | None => None
                  end
                else jpeg_loop fuel' bs next
            end
      end
  end.

(** Every turn of a loop goes one byte further. *)
Definition jpeg_reaches_eoi bs : bool :=
  match bs with
  | b0 :: b1 :: _ =>
      (b0 =? 255)%Z && (b1 =? 216)%Z && default false (jpeg_loop (S (length bs)) bs 2)
  | _ => false
  end.

Definition PNG_SIG : bytes := [137; 80; 78; 71; 13; 10; 26; 10]%Z.
Definition IEND : bytes := [73; 69; 78; 68]%Z.

Definition from_be_bytes bs : Z := fold_left (λ a b, a * 256 + b)%Z bs 0%Z.

(** [bytes.get(i..i + n)] *)
Definition get_range bs i n : option bytes :=
  if i + n <=? length bs then Some (take n (drop i bs)) else None.

Fixpoint png_loop fuel bs i : option bool :=
  match fuel with
  | O => None
  | S fuel' =>
      match get_range bs i 8 with
      | None => Some false
      | Some header =>
          let len := Z.to_nat (from_be_bytes (take 4 header)) in
          let is_iend := bool_decide (drop 4 header = IEND) in
          let data_end := i + 8 + len in
          let end_ := data_end + 4 in
          if length bs <? end_ then Some false
          else
            let expected := from_be_bytes (take 4 (drop data_end bs)) in
            if negb (crc32 (take (data_end - (i + 4)) (drop (i + 4) bs)) =? expected)%Z
            then Some false
            else if is_iend then Some true
            else png_loop fuel' bs end_
      end
  end.

Definition png_structurally_valid bs : bool :=
  bool_decide (take 8 bs = PNG_SIG) && default false (png_loop (S (length bs)) bs 8).

Definition RIFF : bytes := [82; 73; 70; 70]%Z.
Definition WEBP : bytes := [87; 69; 66; 80]%Z.

Definition webp_riff_complete bs : bool :=
  match get_range bs 0 12 with
  | None => false
  | Some header =>
      bool_decide (take 4 header = RIFF) && bool_decide (drop 8 header = WEBP) &&
      (Z.to_nat (from_be_bytes (rev (take 4 (drop 4 header)))) + 8 <=? length bs)
  end.

Definition format_structurally_complete (format : ImageFormat) bs : bool :=
  match format with
  | Jpeg => jpeg_reaches_eoi bs
  | Png => png_structurally_valid bs
  | WebP => webp_riff_complete bs
  | _ => true
  end.

(** [validate_inner], [validate_image_bytes_unrestricted] *)
Definition validate_image_bytes_unrestricted bs (validate_full_decode : bool)
  : option (Z * Z * ImageFormat) :=
  if is_empty bs then None
  else
    format ← guess_format bs;
    if validate_full_decode then
      if match format with Jpeg => negb (jpeg_reaches_eoi bs) | _ => false end then None
      else (λ d : Z * Z, (d.1, d.2, format)) <$> load_from_memory bs
    else (λ d : Z * Z, (d.1, d.2, format)) <$> into_dimensions bs.

(** ** [persisted_image_reject_reason] *)

Definition MAX_LOAD_ICO_DECODE_PIXELS : Z := 16000000.
Definition MIN_VISION_SIDE_PX : Z := 8.
Definition MIN_VISION_TOTAL_PX : Z := 512.
Definition MAX_VISION_TOTAL_PX : Z := 178956970.

Definition format_debug (f : ImageFormat) : str :=
  match f with
  | Png => lit "Png" | Jpeg => lit "Jpeg" | Gif => lit "Gif" | WebP => lit "WebP"
  | Tiff => lit "Tiff" | Bmp => lit "Bmp" | Ico => lit "Ico" | OtherFormat debug => debug
  end.
Definition fmt_len bs : str := lit " (" ++ fmt_Z (Z.of_nat (length bs)) ++ lit " bytes)".
Definition fmt_dims (w h : Z) : str := lit "(" ++ fmt_Z w ++ lit "x" ++ fmt_Z h ++ lit ")".

Definition persisted_image_reject_reason bs : option str :=
  match guess_format bs with
  | None => Some (lit "unrecognized format" ++ fmt_len bs)
  | Some format =>
      match format with
      | Ico =>
          match validate_image_bytes_unrestricted bs false with
          | None => Some (lit "unreadable Ico header")
          | Some (w, h, _) =>
              if (MAX_LOAD_ICO_DECODE_PIXELS <? w * h)%Z then None
              else match load_from_memory bs with
                   | None => Some (lit "undecodable Ico" ++ fmt_len bs)
                   | Some _ => None
                   end
          end
      | Jpeg | Png | WebP =>
          if negb (format_structurally_complete format bs) then
            Some (lit "structurally incomplete " ++ format_debug format ++ fmt_len bs)
          else
            match validate_image_bytes_unrestricted bs false with
            | None => Some (lit "unreadable " ++ format_debug format ++ lit " header")
            | Some (w, h, _) =>
                let px := (w * h)%Z in
                if (w <? MIN_VISION_SIDE_PX)%Z || (h <? MIN_VISION_SIDE_PX)%Z
                   || (px <? MIN_VISION_TOTAL_PX)%Z
                then Some (lit "below dimension floor " ++ fmt_dims w h)
                else if (MAX_VISION_TOTAL_PX <? px)%Z
                then Some (lit "above pixel ceiling " ++ fmt_dims w h)
                else None
            end
      | _ => Some (lit "API-rejected format " ++ format_debug format)
      end
  end.

(** ** Positions *)

Lemma advance_ge (p : Z → bool) bs i : i ≤ advance p bs i.
Proof. unfold advance. lia. Qed.

Lemma lookup_lt bs i b : bs !! i = Some b → i < length bs.
Proof. apply lookup_lt_Some. Qed.

Lemma skip_segment_ge bs i next : skip_segment bs i = Some next → i < next ≤ length bs.
Proof.
  unfold skip_segment. intros E. apply bind_Some in E as (hi & Eh & E).
  apply bind_Some in E as (lo & El & E). case_match eqn:Hl; [done|].
  case_match eqn:Hn; [|done]. simplify_eq. apply Nat.ltb_ge in Hl. apply Nat.leb_le in Hn. lia.
Qed.

(** ** The loops end *)

Lemma scan_entropy_total fuel bs i :
  length bs < fuel + i → 0 < fuel →
  ∃ r, scan_entropy fuel bs i = Some r ∧ ∀ j, r = Some j → i ≤ j.
Proof.
  revert i. induction fuel as [|fuel IH]; intros i Hf H0; [lia|]. simpl.
  pose proof (advance_ge not_ff bs i).
  destruct (bs !! S (advance not_ff bs i)) as [b|] eqn:Hb; [|by eexists].
  pose proof (lookup_lt _ _ _ Hb).
  assert (∀ k, 0 < k → ∃ r, scan_entropy fuel bs (advance not_ff bs i + k) = Some r ∧
    ∀ j, r = Some j → i ≤ j) as Hk.
  { intros k Hk. destruct (IH (advance not_ff bs i + k)) as (r & Er & Hr); [lia..|].
    exists r. split; [done|]. intros j Hj. specialize (Hr j Hj). lia. }
  repeat (case_match; [apply Hk; lia|]). eexists. split; [done|]. intros j [= <-]. lia.
Qed.

Lemma jpeg_loop_total fuel bs i :
  length bs < fuel + i → 0 < fuel → is_Some (jpeg_loop fuel bs i).
Proof.
  revert i. induction fuel as [|fuel IH]; intros i Hf H0; [lia|]. cbn [jpeg_loop]. cbv zeta.
  pose proof (advance_ge not_ff bs i). pose proof (advance_ge is_ff bs (advance not_ff bs i)).
  destruct (bs !! _) as [m|] eqn:Hm; [|eauto]. pose proof (lookup_lt _ _ _ Hm).
  destruct (m =? 0)%Z; [apply IH; lia|]. destruct (m =? 217)%Z; [eauto|].
  destruct (_ || _); [apply IH; lia|].
  destruct (skip_segment _ _) as [next|] eqn:Hs; [|eauto]. apply skip_segment_ge in Hs.
  destruct (m =? 218)%Z; [|apply IH; lia].
  destruct (scan_entropy_total (S (length bs)) bs next) as (r & -> & Hr); [lia..|].
  destruct r as [j|]; [|eauto]. specialize (Hr j eq_refl). apply IH; lia.
Qed.

Lemma png_loop_total fuel bs i :
  length bs < fuel + i → 0 < fuel → is_Some (png_loop fuel bs i).
Proof.
  revert i. induction fuel as [|fuel IH]; intros i Hf H0; [lia|]. cbn [png_loop]. cbv zeta.
  destruct (get_range _ _ _); [|eauto]. destruct (length bs <? _) eqn:Hl; [eauto|].
  apply Nat.ltb_ge in Hl. destruct (negb _); [eauto|]. case_match; [eauto|]. apply IH; lia.
Qed.

(** ** What a PNG is *)

Definition be32 (z : Z) : bytes :=
  [(z / 2 ^ 24) mod 256; (z / 2 ^ 16) mod 256; (z / 2 ^ 8) mod 256; z mod 256]%Z.

Definition png_chunk (ty data : bytes) : bytes :=
  be32 (Z.of_nat (length data)) ++ ty ++ data ++ be32 (crc32 (ty ++ data)).

(** Chunks up to the first [IEND], and anything after it. *)
Inductive png_chunks : bytes → Prop :=
| png_iend data rest :
    (Z.of_nat (length data) < 2 ^ 32)%Z → png_chunks (png_chunk IEND data ++ rest)
| png_other ty data rest :
    length ty = 4 → ty ≠ IEND → (Z.of_nat (length data) < 2 ^ 32)%Z →
    png_chunks rest → png_chunks (png_chunk ty data ++ rest).

Definition is_byte (b : Z) : Prop := (0 ≤ b < 256)%Z.

Lemma be32_of_bytes l : length l = 4 → Forall is_byte l → be32 (from_be_bytes l) = l.
Proof.
  destruct l as [|a [|b [|c [|d [|] ] ] ] ]; try done. intros _ Hl.
  apply Forall_cons in Hl as [Ha Hl]. apply Forall_cons in Hl as [Hb Hl].
  apply Forall_cons in Hl as [Hc Hl]. apply Forall_cons in Hl as [Hd _].
  unfold be32, from_be_bytes, is_byte in *. simpl.
  repeat f_equal; Z.to_euclidean_division_equations; lia.
Qed.

Lemma from_be32 z : (0 ≤ z < 2 ^ 32)%Z → from_be_bytes (be32 z) = z.
Proof.
  intros Hz. unfold be32, from_be_bytes. simpl. Z.to_euclidean_division_equations; lia.
Qed.

Lemma be32_bytes z : Forall is_byte (be32 z).
Proof. unfold be32, is_byte. repeat constructor; apply Z.mod_pos_bound; lia. Qed.

(** One chunk at the head of the bytes [d] from [i] on. *)
Lemma chunk_split `{!LawfulImageApi} d len :
  Forall is_byte d → 12 + len ≤ length d →
  from_be_bytes (take 4 d) = Z.of_nat len →
  crc32 (take (4 + len) (drop 4 d)) = from_be_bytes (take 4 (drop (8 + len) d)) →
  (Z.of_nat len < 2 ^ 32)%Z ∧ length (take 4 (drop 4 d)) = 4 ∧
  d = png_chunk (take 4 (drop 4 d)) (take len (drop 8 d)) ++ drop (12 + len) d.
Proof.
  intros Hd Hl Hlen Hcrc.
  assert (∀ k, 4 + k ≤ length d → be32 (from_be_bytes (take 4 (drop k d))) = take 4 (drop k d))
    as Hbe.
  { intros k Hk. apply be32_of_bytes; [rewrite length_take, length_drop; lia|].
    by apply Forall_take, Forall_drop. }
  assert (take len (drop 8 d) = take len (drop 4 (drop 4 d))) as E8 by by rewrite drop_drop.
  assert (take 4 (drop 4 d) ++ take len (drop 8 d) = take (4 + len) (drop 4 d)) as Ety.
  { rewrite E8. apply take_take_drop. }
  split_and!.
  - pose proof (Hbe 0 ltac:(lia)) as Hb. rewrite drop_0 in Hb.
    destruct (take 4 d) as [|a [|b [|c [|e [|] ] ] ] ] eqn:E; try done;
      try (apply (f_equal length) in E; rewrite length_take in E; simpl in E; lia).
    assert (Forall is_byte [a; b; c; e]) as Hf by (rewrite <- E; by apply Forall_take).
    repeat apply Forall_cons in Hf as [? Hf]. unfold is_byte, from_be_bytes in *.
    rewrite <- Hlen. simpl. lia.
  - rewrite length_take, length_drop. lia.
  - unfold png_chunk. rewrite length_take, length_drop, Nat.min_l, <- Hlen by lia.
    pose proof (Hbe 0 ltac:(lia)) as Hb. rewrite drop_0 in Hb. rewrite Hb, Ety, Hcrc, Hbe by lia.
    rewrite <- !app_assoc. rewrite <- (take_drop 4 d) at 1. f_equal.
    rewrite <- (take_drop (4 + len) (drop 4 d)) at 1. rewrite app_assoc, Ety. f_equal.
    rewrite drop_drop. rewrite <- (take_drop 4 (drop _ d)) at 1. f_equal.
    rewrite drop_drop. f_equal. lia.
Qed.

(** The reading of a chunk, at the head of the rest of the bytes. *)
Definition png_step d : option (option nat) :=
  if length d <? 8 then Some None
  else
    let len := Z.to_nat (from_be_bytes (take 4 d)) in
    if length d <? 12 + len then Some None
    else if negb (crc32 (take (4 + len) (drop 4 d)) =? from_be_bytes (take 4 (drop (8 + len) d)))%Z
    then Some None
    else if bool_decide (take 4 (drop 4 d) = IEND) then None
    else Some (Some (12 + len)).

Lemma png_loop_step fuel bs i :
  i ≤ length bs →
  png_loop (S fuel) bs i =
  match png_step (drop i bs) with
  | None => Some true
  | Some None => Some false
  | Some (Some n) => png_loop fuel bs (i + n)
  end.
Proof.
  intros Hi. cbn [png_loop]. unfold get_range, png_step. rewrite length_drop.
  destruct (i + 8 <=? length bs) eqn:H8; [apply Nat.leb_le in H8|apply Nat.leb_gt in H8];
    [|by replace (length bs - i <? 8) with true by (symmetry; apply Nat.ltb_lt; lia)].
  replace (length bs - i <? 8) with false by (symmetry; apply Nat.ltb_ge; lia). cbv zeta.
  rewrite take_take, Nat.min_l by lia. set (len := Z.to_nat _).
  assert (∀ n, (length bs <? i + 8 + n + 4) = (length bs - i <? 12 + n)) as ->.
  { intros n. apply eq_true_iff_eq. rewrite !Nat.ltb_lt. lia. }
  destruct (length bs - i <? 12 + len); [done|].
  rewrite !drop_drop. replace (i + 8 + len - (i + 4)) with (4 + len) by lia.
  replace (i + (8 + len)) with (i + 8 + len) by lia. destruct (negb _); [done|].
  change (take 8 (drop i bs)) with (take (4 + 4) (drop i bs)).
  rewrite <- take_drop_commute, drop_drop. case_bool_decide; [done|].
  by replace (i + 8 + len + 4) with (i + (12 + len)) by lia.
Qed.

Lemma png_step_chunks `{!LawfulImageApi} d r :
  Forall is_byte d → png_step d = r → r ≠ Some None →
  ∃ ty data, length ty = 4 ∧ (Z.of_nat (length data) < 2 ^ 32)%Z ∧
    (r = None ∧ ty = IEND ∨ ty ≠ IEND ∧ r = Some (Some (length (png_chunk ty data)))) ∧
    d = png_chunk ty data ++ drop (length (png_chunk ty data)) d.
Proof.
  intros Hd. unfold png_step. destruct (length d <? 8) eqn:H8; [by intros <-|].
  apply Nat.ltb_ge in H8. cbv zeta.
  assert (Z.of_nat (Z.to_nat (from_be_bytes (take 4 d))) = from_be_bytes (take 4 d)) as Hn.
  { apply Z2Nat.id. destruct d as [|a [|b [|c [|e d] ] ] ]; simpl in H8; try lia.
    repeat apply Forall_cons in Hd as [? Hd]. unfold is_byte, from_be_bytes in *. simpl. lia. }
  set (len := Z.to_nat _) in *. destruct (length d <? 12 + len) eqn:Hl; [by intros <-|].
  apply Nat.ltb_ge in Hl. destruct (Z.eqb_spec (crc32 (take (4 + len) (drop 4 d)))
    (from_be_bytes (take 4 (drop (8 + len) d)))) as [Hcrc|]; cbn [negb]; [|by intros <-].
  destruct (chunk_split d len Hd Hl (eq_sym Hn) Hcrc) as (Hlen & Hty & Ed). intros <- _.
  exists (take 4 (drop 4 d)), (take len (drop 8 d)).
  assert (length (take len (drop 8 d)) = len) as Ht by (rewrite length_take, length_drop; lia).
  assert (length (png_chunk (take 4 (drop 4 d)) (take len (drop 8 d))) = 12 + len) as Hc.
  { unfold png_chunk. rewrite !length_app, Hty, Ht. simpl. lia. }
  rewrite Hc, Ht. split_and!; try done. case_bool_decide; [by left|by right].
Qed.

Lemma png_step_chunk `{!LawfulImageApi} ty data rest :
  length ty = 4 → (Z.of_nat (length data) < 2 ^ 32)%Z →
  png_step (png_chunk ty data ++ rest) =
  if bool_decide (ty = IEND) then None else Some (Some (length (png_chunk ty data))).
Proof.
  intros Hty Hlen. set (d := png_chunk ty data ++ rest).
  assert (length (png_chunk ty data) = 12 + length data) as Hc.
  { unfold png_chunk. rewrite !length_app, Hty. simpl. lia. }
  assert (take 4 d = be32 (Z.of_nat (length data))) as E4 by done.
  assert (drop 4 d = ty ++ data ++ be32 (crc32 (ty ++ data)) ++ rest) as E4'.
  { unfold d, png_chunk. rewrite <- !app_assoc. done. }
  unfold png_step. rewrite E4, from_be32, Nat2Z.id by lia. cbv zeta.
  assert (length d = 12 + length data + length rest) as Hd.
  { unfold d. by rewrite length_app, Hc. }
  rewrite Hd. replace (_ <? 8) with false by (symmetry; apply Nat.ltb_ge; lia).
  replace (_ <? _) with false by (symmetry; apply Nat.ltb_ge; lia).
  change (8 + length data) with (4 + (4 + length data)). rewrite <- drop_drop, E4'.
  rewrite app_assoc.
  rewrite take_app_length', drop_app_length' by (rewrite length_app; lia).
  rewrite take_app_length', from_be32 by (done || apply crc32_u32). rewrite Z.eqb_refl. cbn [negb].
  rewrite <- app_assoc, take_app_length' by done. by rewrite Hc.
Qed.

Lemma png_loop_chunks `{!LawfulImageApi} fuel bs i :
  Forall is_byte bs → i ≤ length bs → length bs < fuel + i → 0 < fuel →
  png_loop fuel bs i = Some true ↔ png_chunks (drop i bs).
Proof.
  intros Hb. revert i. induction fuel as [|fuel IH]; intros i Hi Hf H0; [lia|].
  rewrite png_loop_step by done. split.
  - destruct (png_step (drop i bs)) as [ [n|]|] eqn:E; intros Hr; [|done|].
    + destruct (png_step_chunks _ _ (Forall_drop _ i _ Hb) E) as (ty & data & Hty & Hl & Hor & Ed);
        [done|].
      destruct Hor as [ [? _]|[Hne Hsome] ]; [done|]. rewrite Ed. apply png_other; [done..|].
      assert (n = length (png_chunk ty data)) as Hn by congruence. clear Hsome.
      rewrite <- Hn, drop_drop. apply (f_equal length) in Ed.
      rewrite length_app, <- Hn, !length_drop in Ed.
      assert (12 ≤ n) by (subst n; unfold png_chunk; rewrite !length_app; simpl; lia).
      apply IH; [lia..|done].
    + destruct (png_step_chunks _ _ (Forall_drop _ i _ Hb) E) as (ty & data & Hty & Hl & Hor & Ed);
        [done|].
      destruct Hor as [ [_ ->]|[_ ?] ]; [|done]. rewrite Ed. by apply png_iend.
  - remember (drop i bs) as d eqn:E. intros Hp.
    destruct Hp as [data rest Hl|ty data rest Hty Hne Hl Hr].
    + rewrite png_step_chunk by done. by rewrite bool_decide_true.
    + rewrite png_step_chunk by done. rewrite bool_decide_false by done.
      set (n := length (png_chunk ty data)) in *.
      assert (rest = drop (i + n) bs) as Er.
      { rewrite <- drop_drop, <- E. symmetry. by apply drop_app_length'. }
      assert (12 ≤ n) by (subst n; unfold png_chunk; rewrite !length_app; simpl; lia).
      apply (f_equal length) in E. rewrite length_app, length_drop in E. fold n in E.
      apply IH; [lia..|]. by rewrite <- Er.
Qed.

Lemma png_complete_spec `{!LawfulImageApi} bs :
  Forall is_byte bs →
  png_structurally_valid bs = true ↔ ∃ body, bs = PNG_SIG ++ body ∧ png_chunks body.
Proof.
  intros Hb. unfold png_structurally_valid. rewrite andb_true_iff, bool_decide_eq_true.
  assert (8 ≤ length bs →
    default false (png_loop (S (length bs)) bs 8) = true ↔ png_chunks (drop 8 bs)) as Hl.
  { intros H8. rewrite <- (png_loop_chunks (S (length bs))) by (done || lia).
    by destruct (png_loop _ bs 8) as [ [|]|]. }
  split.
  - intros [Hs Hp]. assert (8 ≤ length bs) as H8.
    { apply (f_equal length) in Hs. rewrite length_take in Hs.
      change (length PNG_SIG) with 8 in Hs. lia. }
    exists (drop 8 bs). rewrite <- Hs, take_drop. split; [done|]. by apply Hl.
  - intros (body & -> & Hp). split; [done|]. apply Hl; [|done]. rewrite length_app. simpl. lia.
Qed.


(** ** What a JPEG is *)

Definition alone_marker (m : Z) : Prop := (m = 0 ∨ m = 1 ∨ 208 ≤ m ≤ 215)%Z.
Definition segment_marker (m : Z) : Prop := ¬ alone_marker m ∧ m ≠ 217%Z ∧ m ≠ 255%Z.

(** The rest of a JPEG image, after its first marker: bytes other than [FF],
    filling [FF]s, markers that stand alone ([FF00], a stuffed byte of coded
    data, [TEM] and the restart markers), segments, with the length of what
    they hold before it, and [EOI].  The coded data that follows the segment of
    a scan is made of the first three. *)
Inductive jpeg_tail : bytes → Prop :=
| tail_eoi : jpeg_tail [255; 217]%Z
| tail_data b t : b ≠ 255%Z → jpeg_tail t → jpeg_tail (b :: t)
| tail_fill t : jpeg_tail (255%Z :: t) → jpeg_tail (255%Z :: 255%Z :: t)
| tail_alone m t : alone_marker m → jpeg_tail t → jpeg_tail (255%Z :: m :: t)
| tail_segment m hi lo payload t :
    segment_marker m → (hi * 256 + lo = Z.of_nat (length payload) + 2)%Z →
    jpeg_tail t → jpeg_tail (255%Z :: m :: hi :: lo :: payload ++ t).

(** The bytes start with such a rest. *)
Definition starts_tail (d : bytes) : Prop := ∃ t rest, d = t ++ rest ∧ jpeg_tail t.

Lemma starts_short d : d = [] ∨ d = [255%Z] → ¬ starts_tail d.
Proof.
  intros Hd (t & rest & E & Ht).
  destruct Ht as [|b t Hb Ht| | |]; destruct Hd; simplify_list_eq.
Qed.

Lemma starts_data b d : b ≠ 255%Z → starts_tail (b :: d) ↔ starts_tail d.
Proof.
  intros Hb. split.
  - intros (t & rest & E & Ht). destruct Ht; simplify_list_eq; try done. by eexists _, _.
  - intros (t & rest & -> & Ht). exists (b :: t), rest. split; [done|]. by constructor.
Qed.

Lemma starts_marker m d :
  starts_tail (255%Z :: m :: d) ↔
  m = 217%Z ∨ (m = 255%Z ∧ starts_tail (255%Z :: d)) ∨ (alone_marker m ∧ starts_tail d) ∨
  segment_marker m ∧ ∃ hi lo payload d', d = hi :: lo :: payload ++ d' ∧
    (hi * 256 + lo = Z.of_nat (length payload) + 2)%Z ∧ starts_tail d'.
Proof.
  split.
  - intros (t & rest & E & Ht). destruct Ht; simplify_list_eq; try done; [by left|right..].
    + left. split; [done|]. by eexists (255%Z :: _), _.
    + right. left. split; [done|]. by eexists _, _.
    + right. right. split; [done|]. eexists _, _, _, _. split_and!; [done|done|].
      by eexists _, _.
  - intros [-> |[ [-> (t & rest & E & Ht)]|[ [Hm (t & rest & -> & Ht)]|Hs] ] ].
    + by exists [255; 217]%Z, d; split; [|constructor].
    + destruct t as [|b t]; [by inversion Ht|]. simplify_list_eq.
      exists (255%Z :: 255%Z :: t), rest. split; [done|]. by constructor.
    + exists (255%Z :: m :: t), rest. split; [done|]. by constructor.
    + destruct Hs as (Hm & hi & lo & payload & d' & -> & Hl & t & rest & -> & Ht).
      eexists (255%Z :: m :: hi :: lo :: payload ++ t), rest. split; [by simplify_list_eq|].
      by constructor.
Qed.

Lemma starts_alone m d : alone_marker m → starts_tail (255%Z :: m :: d) ↔ starts_tail d.
Proof.
  intros Hm. rewrite starts_marker. unfold segment_marker.
  assert (m ≠ 217%Z ∧ m ≠ 255%Z) by (unfold alone_marker in Hm; lia). tauto.
Qed.

Lemma starts_fill d : starts_tail (255 :: 255 :: d)%Z ↔ starts_tail (255%Z :: d).
Proof.
  rewrite starts_marker. unfold segment_marker.
  assert (¬ alone_marker 255%Z) by (unfold alone_marker; lia). split; [|tauto].
  intros [?|[?|[?|[ [_ [_ ?] ] _] ] ] ]; tauto || lia.
Qed.

(** A rest has one end. *)
Lemma jpeg_tail_prefix_free t more : jpeg_tail t → jpeg_tail (t ++ more) → more = [].
Proof.
  intros Ht. induction Ht as [|b t Hb Ht IH|t Ht IH|m t Hm Ht IH|m hi lo pl t Hm Hl Ht IH];
    simpl; intros Hm'; inversion Hm'; simplify_eq;
    unfold segment_marker, alone_marker in *; try done; try lia; auto.
  match goal with E : ?a ++ _ = ?b ++ _ |- _ => rename E into Epl end.
  rewrite <- app_assoc in Epl. apply app_inj_1 in Epl as [-> ->]; [by apply IH|lia].
Qed.

Lemma starts_advance (p : Z → bool) (P : bytes → Prop) d :
  (∀ b d', p b = true → P (b :: d') ↔ P d') → P d ↔ P (drop (run_length p d) d).
Proof.
  intros Hp. induction d as [|b d IH]; [done|]. simpl. destruct (p b) eqn:E; [|done].
  rewrite Hp by done. exact IH.
Qed.

Lemma run_stops (p : Z → bool) d b d' : drop (run_length p d) d = b :: d' → p b = false.
Proof.
  induction d as [|c d IH]; [done|]. simpl. destruct (p c) eqn:E; [done|]. intros [= <- _]. done.
Qed.

Lemma starts_not_ff bs i :
  starts_tail (drop i bs) ↔ starts_tail (drop (advance not_ff bs i) bs).
Proof.
  unfold advance. rewrite (starts_advance not_ff starts_tail), drop_drop; [done|].
  intros b d Hb. apply starts_data. unfold not_ff in Hb. intros ->. done.
Qed.

Lemma advance_at (p : Z → bool) bs i b :
  bs !! advance p bs i = Some b → p b = false.
Proof.
  unfold advance. intros Hb. apply drop_S in Hb. rewrite <- drop_drop in Hb. by eapply run_stops.
Qed.

Lemma lor_bytes hi lo : is_byte lo → (0 ≤ hi)%Z → Z.lor (Z.shiftl hi 8) lo = (hi * 256 + lo)%Z.
Proof.
  unfold is_byte. intros Hlo Hhi. rewrite Z.shiftl_mul_pow2 by done. change (2 ^ 8)%Z with 256%Z.
  rewrite <- Z.lxor_lor, <- Z.add_nocarry_lxor; [done|..].
  all: apply Z.bits_inj'; intros n Hn; rewrite Z.land_spec, Z.bits_0.
  all: change 256%Z with (2 ^ 8)%Z; destruct (Z.lt_ge_cases n 8).
  all: try (rewrite Z.mul_pow2_bits_low by lia; done).
  all: rewrite (Z.bits_above_log2 lo), andb_false_r; [done|lia|].
  all: destruct (Z.eq_dec lo 0) as [-> |]; [simpl; lia|].
  all: apply Z.log2_lt_pow2; [lia|]; apply (Z.lt_le_trans _ (2 ^ 8)); [lia|].
  all: by apply Z.pow_le_mono_r.
Qed.

Lemma skip_segment_spec bs i next :
  Forall is_byte bs → skip_segment bs i = Some next ↔
  ∃ hi lo payload, drop i bs = hi :: lo :: payload ++ drop next bs ∧
    (hi * 256 + lo = Z.of_nat (length payload) + 2)%Z ∧ next = i + 2 + length payload.
Proof.
  intros Hb. assert (∀ j b, bs !! j = Some b → is_byte b) as Hj by (by apply Forall_lookup).
  unfold skip_segment. split.
  - intros E. apply bind_Some in E as (hi & Eh & E). apply bind_Some in E as (lo & El & E).
    pose proof (Hj _ _ Eh). pose proof (Hj _ _ El). rewrite lor_bytes in E by (done || firstorder).
    case_match eqn:H2; [done|]. apply Nat.ltb_ge in H2.
    case_match eqn:Hn; [|done]. apply Nat.leb_le in Hn. injection E as <-.
    set (len := Z.to_nat _) in *. exists hi, lo, (take (len - 2) (drop (S (S i)) bs)).
    rewrite (drop_S _ _ _ Eh), (drop_S _ _ _ El), length_take, length_drop, Nat.min_l by lia.
    split_and!; [|lia..]. do 2 f_equal.
    rewrite <- (take_drop (len - 2) (drop (S (S i)) bs)) at 1. f_equal. rewrite drop_drop.
    f_equal. lia.
  - intros (hi & lo & payload & E & Hl & ->).
    assert (bs !! i = Some hi ∧ bs !! S i = Some lo) as [Eh El].
    { rewrite <- (Nat.add_0_r i) at 1. rewrite <- (Nat.add_1_r i), <- !lookup_drop, E. done. }
    pose proof (Hj _ _ Eh). pose proof (Hj _ _ El). rewrite Eh. simpl. rewrite El. simpl.
    rewrite lor_bytes by (done || firstorder).
    apply (f_equal length) in E. simpl in E. rewrite length_app, !length_drop in E.
    rewrite Hl. case_match eqn:H2; [apply Nat.ltb_lt in H2; lia|].
    case_match eqn:Hn; [f_equal; lia|]. apply Nat.leb_gt in Hn. lia.
Qed.

Lemma is_restart_spec b : is_restart b = true ↔ (208 ≤ b ≤ 215)%Z.
Proof. unfold is_restart. rewrite andb_true_iff, !Z.leb_le. done. Qed.

(** The scan of coded data skips what is not a marker of the walk. *)
Lemma scan_entropy_spec fuel bs i r :
  scan_entropy fuel bs i = Some r →
  starts_tail (drop i bs) ↔ ∃ j, r = Some j ∧ starts_tail (drop j bs).
Proof.
  revert i. induction fuel as [|fuel IH]; intros i; [done|]. simpl. rewrite starts_not_ff.
  set (k := advance not_ff bs i).
  destruct (bs !! S k) as [b|] eqn:Hb.
  - assert (bs !! k = Some 255%Z) as Hk.
    { destruct (lookup_lt_is_Some_2 bs k) as [c Hc]; [apply lookup_lt in Hb; lia|].
      rewrite Hc. f_equal. apply advance_at in Hc. unfold not_ff in Hc.
      by apply negb_false_iff, Z.eqb_eq in Hc. }
    rewrite (drop_S _ _ _ Hk), (drop_S _ _ _ Hb).
    replace (k + 2) with (S (S k)) by lia. replace (k + 1) with (S k) by lia.
    destruct (Z.eqb_spec b 0); [|destruct (Z.eqb_spec b 255) as [-> |] ].
    + rewrite starts_alone by (by left). apply IH.
    + rewrite starts_fill, <- (drop_S _ _ _ Hb). apply IH.
    + destruct (is_restart b) eqn:Hr.
      * rewrite starts_alone by (right; right; by apply is_restart_spec). apply IH.
      * intros [= <-]. rewrite <- (drop_S _ _ _ Hb), <- (drop_S _ _ _ Hk). naive_solver.
  - intros [= <-]. split; [|by intros (? & ? & _)]. intros Ht. exfalso. revert Ht.
    apply starts_short. apply lookup_ge_None in Hb.
    destruct (bs !! k) as [c|] eqn:Hc; [|left; apply drop_ge, lookup_ge_None; done].
    right. rewrite (drop_S _ _ _ Hc), drop_ge by lia. apply advance_at in Hc.
    unfold not_ff in Hc. by apply negb_false_iff, Z.eqb_eq in Hc as ->.
Qed.

(** The loop finds the next marker. *)
Lemma starts_next_marker bs i :
  let k := advance is_ff bs (advance not_ff bs i) in
  starts_tail (drop i bs) ↔
  ∃ m, bs !! k = Some m ∧ m ≠ 255%Z ∧ starts_tail (255%Z :: m :: drop (S k) bs).
Proof.
  intros k. rewrite starts_not_ff. set (i' := advance not_ff bs i) in *.
  assert (starts_tail (drop i' bs) ↔ starts_tail (255%Z :: drop k bs)) as ->.
  { subst k. destruct (bs !! i') as [c|] eqn:Hc.
    - apply advance_at in Hc as Hff. unfold not_ff in Hff.
      apply negb_false_iff, Z.eqb_eq in Hff as ->. unfold advance.
      rewrite (drop_S _ _ _ Hc). simpl. rewrite <- Nat.add_succ_comm, <- drop_drop.
      apply (starts_advance is_ff (λ d, starts_tail (255%Z :: d))).
      intros b d Hb%Z.eqb_eq. subst b. apply starts_fill.
    - apply lookup_ge_None in Hc. pose proof (advance_ge is_ff bs i').
      rewrite !drop_ge by lia. split; intros Ht; exfalso; revert Ht; apply starts_short; auto. }
  destruct (bs !! k) as [m|] eqn:Hm.
  - rewrite (drop_S _ _ _ Hm). apply advance_at, Z.eqb_neq in Hm. naive_solver.
  - apply lookup_ge_None in Hm. rewrite drop_ge by lia.
    split; [|naive_solver]. intros Ht. exfalso. revert Ht. apply starts_short. auto.
Qed.

Lemma starts_segment bs i m :
  Forall is_byte bs → segment_marker m →
  starts_tail (255%Z :: m :: drop i bs) ↔
  ∃ next, skip_segment bs i = Some next ∧ starts_tail (drop next bs).
Proof.
  intros Hb Hm. rewrite starts_marker. split.
  - unfold segment_marker in Hm.
    intros [?|[ [? _]|[ [? _]|[_ (hi & lo & payload & d & E & Hl & Ht)] ] ] ]; try tauto.
    exists (i + 2 + length payload).
    assert (drop (i + 2 + length payload) bs = d) as Ed.
    { rewrite <- !drop_drop, E. simpl. by apply drop_app_length'. }
    rewrite Ed. split; [|done]. apply skip_segment_spec; [done|].
    exists hi, lo, payload. by rewrite Ed.
  - intros (next & Hs & Ht). apply skip_segment_spec in Hs as (hi & lo & payload & E & Hl & _);
      [|done]. right. right. right. split; [done|]. by exists hi, lo, payload, (drop next bs).
Qed.

Lemma jpeg_loop_spec fuel bs i r :
  Forall is_byte bs → jpeg_loop fuel bs i = Some r → r = true ↔ starts_tail (drop i bs).
Proof.
  intros Hb. revert i. induction fuel as [|fuel IH]; intros i; [done|].
  cbn [jpeg_loop]. cbv zeta. rewrite starts_next_marker. cbv zeta.
  set (k := advance is_ff bs _).
  destruct (bs !! k) as [m|] eqn:Hk; [|intros [= <-]; naive_solver]. intros E.
  apply advance_at, Z.eqb_neq in Hk.
  transitivity (starts_tail (255%Z :: m :: drop (S k) bs)); [|naive_solver].
  destruct (Z.eqb_spec m 0); [rewrite starts_alone by (by left); by apply IH|].
  destruct (Z.eqb_spec m 217) as [-> |].
  { injection E as <-. rewrite starts_marker. tauto. }
  destruct ((m =? 1)%Z || is_restart m) eqn:Ha;
    rewrite orb_comm, ?orb_true_iff, ?orb_false_iff, ?is_restart_spec in Ha.
  { rewrite starts_alone by (unfold alone_marker; lia). by apply IH. }
  destruct Ha as [Hr%not_true_iff_false ?]. rewrite is_restart_spec in Hr.
  rewrite starts_segment by (done || unfold segment_marker, alone_marker; lia).
  destruct (skip_segment bs (S k)) as [next|]; [|injection E as <-; naive_solver].
  destruct (m =? 218)%Z; [|rewrite (IH _ E); naive_solver].
  destruct (scan_entropy _ bs next) as [ [j|]|] eqn:Hs; [..|done];
    apply scan_entropy_spec in Hs; [rewrite (IH _ E)|injection E as <-]; naive_solver.
Qed.

Lemma jpeg_complete_spec bs :
  Forall is_byte bs →
  jpeg_reaches_eoi bs = true ↔ ∃ t rest, bs = 255%Z :: 216%Z :: t ++ rest ∧ jpeg_tail t.
Proof.
  intros Hb. destruct bs as [|b0 [|b1 bs] ]; [by split; [|intros (? & ? & ? & _)]..|].
  unfold jpeg_reaches_eoi.
  destruct (jpeg_loop_total (S (length (b0 :: b1 :: bs))) (b0 :: b1 :: bs) 2) as [r E]; [lia..|].
  rewrite E, !andb_true_iff, !Z.eqb_eq. apply jpeg_loop_spec in E; [|done]. change (drop 2 _) with bs in E.
  change (default false (Some r)) with r. rewrite E. clear E. unfold starts_tail. split.
  - intros [ [-> ->] (t & rest & -> & Ht)]. by exists t, rest.
  - intros (t & rest & [= -> -> ->] & Ht). split; [done|]. by exists t, rest.
Qed.

(** ** What a WebP is *)

(** The header holds the length of what follows its first 8 bytes, in little
    endian; the walk asks for 12 bytes also when that length is less than 4. *)
Inductive webp_file : bytes → Prop :=
| webp_riff a b c d payload :
    length payload = Z.to_nat (a + 256 * b + 65536 * c + 16777216 * d - 4) →
    webp_file (RIFF ++ [a; b; c; d] ++ WEBP ++ payload).

Lemma webp_complete_spec bs :
  Forall is_byte bs →
  webp_riff_complete bs = true ↔ ∃ file rest, bs = file ++ rest ∧ webp_file file.
Proof.
  intros Hb. assert (∀ a b c d, from_be_bytes (rev [a; b; c; d]) =
    (a + 256 * b + 65536 * c + 16777216 * d)%Z) as Hle by (intros; unfold from_be_bytes; simpl; lia).
  unfold webp_riff_complete, get_range. split.
  - destruct (0 + 12 <=? length bs) eqn:H12; [apply Nat.leb_le in H12|done].
    do 12 (destruct bs as [|? bs]; [simpl in H12; lia|]).
    rewrite !andb_true_iff, !bool_decide_eq_true, Nat.leb_le. cbn [take drop Nat.add].
    rewrite Hle. intros [ [Hr Hw] Hl]. unfold RIFF, WEBP in *. simplify_eq. simpl in Hl.
    match type of Hl with context [Z.to_nat ?len] => set (n := len) in * end.
    eexists (RIFF ++ [_; _; _; _] ++ WEBP ++ take (Z.to_nat (n - 4)) bs), _. split.
    + simpl. do 12 f_equal. symmetry. apply take_drop.
    + constructor. rewrite length_take. fold n. lia.
  - intros (file & rest & -> & [a b c d payload Hl]). unfold RIFF, WEBP.
    rewrite <- !app_assoc. cbn [app length Nat.leb Nat.add take drop].
    rewrite Hle, !andb_true_iff, !bool_decide_eq_true, Nat.leb_le. split; [done|].
    simpl. rewrite length_app. lia.
Qed.

(** Two WebP files of one header have one length. *)
Lemma webp_prefix_free file more : webp_file file → webp_file (file ++ more) → more = [].
Proof.
  intros [a b c d payload Hl] Hm. inversion Hm as [? ? ? ? payload' Hl']. simplify_list_eq.
  rewrite length_app in Hl'. destruct more; [done|]. simpl in Hl'. lia.
Qed.

(** ** A cut image *)

(** A PNG body up to the end of its first [IEND] chunk. *)
Inductive png_body : bytes → Prop :=
| png_end data : (Z.of_nat (length data) < 2 ^ 32)%Z → png_body (png_chunk IEND data)
| png_more ty data body :
    length ty = 4 → ty ≠ IEND → (Z.of_nat (length data) < 2 ^ 32)%Z →
    png_body body → png_body (png_chunk ty data ++ body).

Lemma png_chunks_body d : png_chunks d ↔ ∃ body rest, d = body ++ rest ∧ png_body body.
Proof.
  split.
  - induction 1 as [data rest Hl|ty data rest Hty Hne Hl _ (body & rest' & -> & Hb)].
    + by eexists _, rest; split; [|constructor].
    + exists (png_chunk ty data ++ body), rest'. rewrite app_assoc. split; [done|by constructor].
  - intros (body & rest & -> & Hb). induction Hb; [by constructor|].
    rewrite <- app_assoc. by constructor.
Qed.

Lemma png_chunk_inj ty ty' data data' r r' :
  length ty = 4 → length ty' = 4 →
  (Z.of_nat (length data) < 2 ^ 32)%Z → (Z.of_nat (length data') < 2 ^ 32)%Z →
  png_chunk ty data ++ r = png_chunk ty' data' ++ r' → ty = ty' ∧ r = r'.
Proof.
  intros Ht Ht' Hl Hl' E. unfold png_chunk in E. rewrite <- !app_assoc in E.
  apply app_inj_1 in E as [En E]; [|done]. apply (f_equal from_be_bytes) in En.
  rewrite !from_be32 in En by lia. apply app_inj_1 in E as [-> E]; [|lia].
  apply app_inj_1 in E as [_ E]; [|lia]. by apply app_inj_1 in E as [_ E].
Qed.

Lemma png_prefix_free body more : png_body body → png_body (body ++ more) → more = [].
Proof.
  assert (length IEND = 4) as Hi by done. intros Hb.
  induction Hb as [data Hl|ty data body Hty Hne Hl Hb IH]; rewrite <- ?app_assoc; intros Hm.
  - remember (png_chunk IEND data ++ more) as d eqn:E.
    destruct Hm as [data' Hl'|ty data' body Hty Hne Hl' Hb].
    + rewrite <- (app_nil_r (png_chunk IEND data')) in E.
      by apply png_chunk_inj in E as [_ <-].
    + by apply png_chunk_inj in E as [? _].
  - remember (png_chunk ty data ++ body ++ more) as d eqn:E.
    destruct Hm as [data' Hl'|ty' data' body' Hty' Hne' Hl' Hb'].
    + rewrite <- (app_nil_r (png_chunk IEND data')) in E.
      apply png_chunk_inj in E as [<- _]; done.
    + apply png_chunk_inj in E as [_ ->]; [by apply IH|done..].
Qed.

(** The bytes of one image, to its last. *)
Definition whole_image (f : ImageFormat) (image : bytes) : Prop :=
  match f with
  | Jpeg => ∃ t, image = 255%Z :: 216%Z :: t ∧ jpeg_tail t
  | Png => ∃ body, image = PNG_SIG ++ body ∧ png_body body
  | WebP => webp_file image
  | _ => False
  end.

(** The formats with a walk of their own. *)
Definition has_walk (f : ImageFormat) : bool :=
  match f with Jpeg | Png | WebP => true | _ => false end.

Lemma whole_prefix_free f image more :
  whole_image f image → whole_image f (image ++ more) → more = [].
Proof.
  destruct f; try done.
  - intros (body & -> & Hb) (body' & E & Hb'). rewrite <- app_assoc in E.
    apply app_inj_1 in E as [_ <-]; [|done]. by apply (png_prefix_free body).
  - intros (t & -> & Ht) (t' & [= <-] & Ht'). by apply (jpeg_tail_prefix_free t).
  - apply webp_prefix_free.
Qed.

Lemma complete_spec `{!LawfulImageApi} f bs :
  has_walk f = true → Forall is_byte bs →
  format_structurally_complete f bs = true ↔
  ∃ image rest, bs = image ++ rest ∧ whole_image f image.
Proof.
  intros Hf Hb. destruct f; try done; simpl.
  - rewrite png_complete_spec by done. setoid_rewrite png_chunks_body. split.
    + intros (? & -> & body & rest & -> & Hbody). exists (PNG_SIG ++ body), rest.
      rewrite <- app_assoc. eauto.
    + intros (? & rest & -> & body & -> & Hbody). exists (body ++ rest). split; [done|eauto].
  - rewrite jpeg_complete_spec by done. split.
    + intros (t & rest & -> & Ht). exists (255%Z :: 216%Z :: t), rest. eauto.
    + intros (? & rest & -> & t & -> & Ht). by exists t, rest.
  - by apply webp_complete_spec.
Qed.

(** C31: bytes are taken for a whole JPEG, PNG or WebP exactly when one image
    of the format, to its last byte, and then anything, make them up; cut
    anywhere, they are taken for a whole one exactly when the cut is not before
    the last byte of that image.  A JPEG image is its first marker, then
    segments with their lengths, markers that stand alone, filling bytes and
    data, and the first [EOI] that is none of a segment's bytes; a PNG its
    signature and chunks up to [IEND], each with its length and check sum; a
    WebP its header and as many bytes as the header says.  The walks end. *)
Theorem cut_images_refused `{!LawfulImageApi} f bs :
  has_walk f = true → Forall is_byte bs →
  is_Some (jpeg_loop (S (length bs)) bs 2) ∧ is_Some (png_loop (S (length bs)) bs 8) ∧
  (format_structurally_complete f bs = true ↔
   ∃ image rest, bs = image ++ rest ∧ whole_image f image) ∧
  ∀ image rest, bs = image ++ rest → whole_image f image →
    ∀ k, format_structurally_complete f (take k bs) = true ↔ length image ≤ k.
Proof.
  intros Hf Hb. split_and!; [apply jpeg_loop_total; lia|apply png_loop_total; lia| |].
  - by apply complete_spec.
  - intros image rest -> Hi k. rewrite complete_spec by (done || by apply Forall_take). split.
    + intros (image' & rest' & E & Hi'). destruct (Nat.le_gt_cases (length image) k); [done|].
      rewrite take_app_le in E by lia.
      assert (image = image' ++ rest' ++ drop k image) as Ei.
      { by rewrite app_assoc, <- E, take_drop. }
      rewrite Ei in Hi. apply whole_prefix_free in Hi; [|done].
      apply app_eq_nil in Hi as [_ Hd%(f_equal length)]. rewrite length_drop in Hd. simpl in Hd. lia.
    + intros Hk. exists image, (take (k - length image) rest). by rewrite take_app_ge.
Qed.
End Check.

(** ** Examples

    Every image is a PNG of 32 by 32 pixels, and every check sum is 0. *)

#[global] Instance demo_images : ImageApi := {
  guess_format bs := if is_empty bs then None else Some Png;
  into_dimensions _ := Some (32, 32)%Z;
  load_from_memory _ := Some (32, 32)%Z;
  crc32 _ := 0%Z;
}.

#[global] Instance demo_images_lawful : LawfulImageApi.
Proof. split. by vm_compute. Qed.

Definition demo_png : bytes := PNG_SIG ++ png_chunk [116; 69; 88; 116]%Z [1]%Z ++ png_chunk IEND [].

Definition demo_jpeg : bytes := [255; 216; 255; 224; 0; 4; 255; 217; 255; 217]%Z.

Example demo_walks :
  png_structurally_valid demo_png = true ∧ jpeg_reaches_eoi demo_jpeg = true ∧
  jpeg_reaches_eoi (take 9 demo_jpeg) = false ∧
  persisted_image_reject_reason demo_png = None ∧
  persisted_image_reject_reason (take 20 demo_png) =
    Some (lit "structurally incomplete Png (20 bytes)").
Proof. by vm_compute. Qed.

Lemma cut_images_refused_witness :
  is_Some (jpeg_loop (S (length demo_jpeg)) demo_jpeg 2) ∧
  is_Some (png_loop (S (length demo_jpeg)) demo_jpeg 8) ∧
  ∀ k, format_structurally_complete Jpeg (take k demo_jpeg) = true ↔ 10 ≤ k.
Proof.
  destruct (cut_images_refused Jpeg demo_jpeg) as (Hj & Hp & _ & Hcut);
    [done|apply (bool_decide_unpack _); vm_compute; exact I|].
  split_and!; [exact Hj|exact Hp|]. apply (Hcut demo_jpeg []); [done|].
  exists (drop 2 demo_jpeg). split; [done|].
  apply (tail_segment 224 0 4 [255; 217]%Z [255; 217]%Z); [|done|constructor].
  unfold segment_marker, alone_marker. lia.
Defined.

