(* ===== verification/Wire.v ===== *)
(** * Requests on the wire

    [xai-grok-sampling-types/src/conversation.rs]: the conversion of a
    [ConversationRequest] to the requests of the three backends, Chat
    Completions ([types.rs]), Responses ([async_openai]) and Messages
    ([messages.rs]), and back from their messages; and what
    [xai-grok-sampler/src/client.rs] adds before it sends one: the client's
    defaults, the headers of the request and the tools that only exist as JSON.

    The types of [async_openai] are written with the fields the sources set;
    a field not listed is [None].  The detail of an image is [auto] everywhere. *)
From S2P Require Import Prelude RustStr StrSearch F64 TokenEstimation Conversation Sampling.
From S2P Require Import RequestBuilder SamplingError SamplerStream.

(** JSON text and values of [serde_json] ([json_typed t] is [json!] of an object
    with the field [type] alone, [json_type v] the text of that field of [v]),
    Unicode classes, and the copies of a [rs::ReasoningItem] the sources make. *)
Class WireApi {RS : RsApi} : Type := {
  char_is_alphanumeric : char → bool;
  json_is_valid : str → bool;
  json_from_str : str → option JsonValue;
  json_empty_object : JsonValue;
  json_typed : str → JsonValue;
  json_type : JsonValue → option str;
  ri_without_status : ReasoningItem → ReasoningItem;
  ri_map_text : (str → str) → ReasoningItem → ReasoningItem;
  mk_reasoning_id : str → list str → option str → ReasoningItem;
  ci_id : CodeInterpreterToolCall → str;
}.

(** What is documented of them. *)
Class LawfulWireApi `{WireApi} : Prop := {
  empty_object_valid : json_is_valid (lit "{}") = true;
  type_of_typed t : json_type (json_typed t) = Some t;
  ascii_alphanumeric c : (0 ≤ c < 128)%Z → char_is_alphanumeric c = is_ascii_alphanumeric c;
  without_status_summary r : ri_summary (ri_without_status r) = ri_summary r;
  without_status_content r : ri_content (ri_without_status r) = ri_content r;
  without_status_encrypted r :
    ri_encrypted_content (ri_without_status r) = ri_encrypted_content r;
}.

(** [split_once] at a string *)
Definition split_once_str (p s : str) : option (str * str) :=
  (λ n, (take n s, drop (n + length p) s)) <$> find s p.

Section Wire.
Context {RS : RsApi} {WA : WireApi}.

(** ** Messages of the Chat Completions API, [types.rs] *)

Inductive Role : Type := RoleSystem | RoleUser | RoleAssistant | RoleTool.
Inductive ChatContentBlock : Type := ChatText (text : str) | ChatImageUrl (url : str).
Inductive MessageContent : Type :=
| ContentText (text : str)
| ContentBlocks (blocks : list ChatContentBlock).
Record ToolCallFunction := { fn_name : str; fn_arguments : str }.
Record ToolCallRequest := {
  tq_id : option str;
  tq_kind : ToolType;
  tq_function : ToolCallFunction;
}.
Record ChatRequestMessage := {
  cm_role : Role;
  cm_content : MessageContent;
  cm_name : option str;
  cm_tool_calls : list ToolCallRequest;
  cm_tool_call_id : option str;
  cm_model_id : option str;
  cm_reasoning_content : option str;
}.

Definition content_blocks (c : MessageContent) : list ChatContentBlock :=
  match c with ContentBlocks blocks => blocks | ContentText text => [ChatText text] end.

(** [ChatRequestMessage::text_content] *)
Definition chat_text_content (m : ChatRequestMessage) : str :=
  join [NL]
    (omap (λ b, match b with ChatText t => Some t | ChatImageUrl _ => None end)
       (content_blocks (cm_content m))).

Definition chat_message (role : Role) (content : MessageContent) : ChatRequestMessage :=
  {| cm_role := role; cm_content := content; cm_name := None; cm_tool_calls := [];
     cm_tool_call_id := None; cm_model_id := None; cm_reasoning_content := None |}.

(** [ChatRequestMessage::system], [tool] *)
Definition chat_system (content : str) : ChatRequestMessage :=
  chat_message RoleSystem (ContentText content).
Definition with_tool_call_id (id : str) (m : ChatRequestMessage) : ChatRequestMessage :=
  {| cm_role := cm_role m; cm_content := cm_content m; cm_name := cm_name m;
     cm_tool_calls := cm_tool_calls m; cm_tool_call_id := Some id;
     cm_model_id := cm_model_id m; cm_reasoning_content := cm_reasoning_content m |}.
Definition chat_tool (tool_call_id content : str) : ChatRequestMessage :=
  with_tool_call_id tool_call_id (chat_message RoleTool (ContentText content)).

(** ** From items to chat messages *)

Definition EMPTY_OBJECT : str := Eval vm_compute in lit "{}".

Definition sanitize_tool_arguments (arguments : str) : str :=
  if json_is_valid arguments then arguments else EMPTY_OBJECT.

(** [ToolCallRequest::function(..).with_id(..)] *)
Definition tool_call_request (tc : ToolCall) : ToolCallRequest :=
  {| tq_id := Some (tc_id tc); tq_kind := Function;
     tq_function := {| fn_name := tc_name tc;
                       fn_arguments := sanitize_tool_arguments (tc_arguments tc) |} |}.

Definition part_text (p : ContentPart) : option str :=
  match p with Text t => Some t | Image _ => None end.
Definition chat_block (p : ContentPart) : ChatContentBlock :=
  match p with Text t => ChatText t | Image url => ChatImageUrl url end.
Definition image_url (p : ContentPart) : option str :=
  match p with Image url => Some url | Text _ => None end.

(** [None]: [unreachable!] for a reasoning item, or the panic of
    [text_summary]. *)
Definition conversation_item_to_chat_message (i : ConversationItem)
  : option ChatRequestMessage :=
  match i with
  | System s => Some (chat_system (sys_content s))
  | User u =>
      Some (chat_message RoleUser
        (if existsb is_image (u_content u) then ContentBlocks (map chat_block (u_content u))
         else ContentText (join [NL] (omap part_text (u_content u)))))
  | Assistant a =>
      Some {| cm_role := RoleAssistant; cm_content := ContentText (a_content a);
              cm_name := None; cm_tool_calls := map tool_call_request (a_tool_calls a);
              cm_tool_call_id := None; cm_model_id := a_model_id a;
              cm_reasoning_content := None |}
  | ToolResult t =>
      Some (if is_empty (tr_images t) then chat_tool (tr_tool_call_id t) (tr_content t)
            else with_tool_call_id (tr_tool_call_id t)
                   (chat_message RoleTool
                      (ContentBlocks (ChatText (tr_content t) ::
                         map ChatImageUrl (omap image_url (tr_images t))))))
  | BackendToolCall b =>
      (λ t, chat_message RoleAssistant (ContentText t)) <$> text_summary b
  | Reasoning _ => None
  end.

Definition with_reasoning (pending : list str) (m : ChatRequestMessage) : ChatRequestMessage :=
  if is_empty pending then m
  else {| cm_role := cm_role m; cm_content := cm_content m; cm_name := cm_name m;
          cm_tool_calls := cm_tool_calls m; cm_tool_call_id := cm_tool_call_id m;
          cm_model_id := cm_model_id m;
          cm_reasoning_content := Some (join [NL] pending) |}.

(** The loop, with [pending_reasoning]. *)
Fixpoint chat_messages_loop (pending : list str) (its : list ConversationItem)
  : option (list ChatRequestMessage) :=
  match its with
  | [] => Some []
  | Reasoning r :: its' =>
      let text := reasoning_item_text r in
      chat_messages_loop (if is_empty text then pending else pending ++ [text]) its'
  | Assistant a :: its' =>
      msg ← conversation_item_to_chat_message (Assistant a);
      out ← chat_messages_loop [] its';
      Some (with_reasoning pending msg :: out)
  | BackendToolCall b :: its' =>
      msg ← conversation_item_to_chat_message (BackendToolCall b);
      out ← chat_messages_loop pending its';
      Some (msg :: out)
  | other :: its' =>
      msg ← conversation_item_to_chat_message other;
      out ← chat_messages_loop [] its';
      Some (msg :: out)
  end.

Definition conversation_to_chat_messages (its : list ConversationItem)
  : option (list ChatRequestMessage) := chat_messages_loop [] its.

(** ** [ConversationRequest] to [ChatCompletionRequest] *)

Inductive ToolChoice : Type :=
| ToolChoicePreset (preset : str)
| ToolChoiceFunction (kind : ToolType) (name : str).

Record JsonSchemaFormat := {
  js_name : str;
  js_schema : JsonValue;
  js_strict : option bool;
}.
Definition STRUCTURED_OUTPUT_SCHEMA_NAME : str := Eval vm_compute in lit "structured_output".
Definition schema_format (schema : JsonValue) : JsonSchemaFormat :=
  {| js_name := STRUCTURED_OUTPUT_SCHEMA_NAME; js_schema := schema; js_strict := Some true |}.

Record ChatCompletionRequest := {
  cc_model : option str;
  cc_messages : list ChatRequestMessage;
  cc_temperature : option F32;
  cc_max_tokens : option Z;
  cc_top_p : option F32;
  cc_tools : option (list ToolDefinition);
  cc_tool_choice : option ToolChoice;
  cc_response_format : option JsonSchemaFormat;
  cc_reasoning_effort : option ReasoningEffort;
  cc_x_grok_conv_id : option str;
  cc_x_grok_req_id : option str;
  cc_x_grok_session_id : option str;
  cc_x_grok_turn_idx : option str;
  cc_x_grok_agent_id : option str;
  cc_x_grok_deployment_id : option str;
  cc_x_grok_user_id : option str;
}.

Definition chat_tool_choice (tc : ConversationToolChoice) : ToolChoice :=
  match tc with
  | ChoiceAuto => ToolChoicePreset (lit "auto")
  | ChoiceNone => ToolChoicePreset (lit "none")
  | ChoiceRequired => ToolChoicePreset (lit "required")
  | ChoiceFunction name => ToolChoiceFunction Function name
  end.

(** [ToolDefinition::function] *)
Definition tool_definition (t : ToolSpec) : ToolDefinition :=
  {| td_kind := Function;
     td_function := {| ft_name := ts_name t; ft_description := ts_description t;
                       ft_parameters := ts_parameters t |} |}.

Definition chat_completion_request (req : ConversationRequest) : option ChatCompletionRequest :=
  messages ← conversation_to_chat_messages (items req);
  let tools_is_empty := is_empty (tools req) in
  Some {| cc_model := request_model req; cc_messages := messages;
          cc_temperature := request_temperature req; cc_max_tokens := max_output_tokens req;
          cc_top_p := request_top_p req;
          cc_tools := if tools_is_empty then None else Some (map tool_definition (tools req));
          cc_tool_choice :=
            if tools_is_empty then None else chat_tool_choice <$> tool_choice req;
          cc_response_format := schema_format <$> json_schema req;
          cc_reasoning_effort := request_reasoning_effort req;
          cc_x_grok_conv_id := x_grok_conv_id req; cc_x_grok_req_id := x_grok_req_id req;
          cc_x_grok_session_id := x_grok_session_id req;
          cc_x_grok_turn_idx := x_grok_turn_idx req;
          cc_x_grok_agent_id := x_grok_agent_id req;
          cc_x_grok_deployment_id := x_grok_deployment_id req;
          cc_x_grok_user_id := x_grok_user_id req |}.

(** ** From items to the input of the Responses API *)

Inductive InputContent : Type := InputText (text : str) | InputImage (image_url : str).
Inductive EasyInputContent : Type :=
| EasyText (text : str)
| EasyContentList (contents : list InputContent).
Inductive FunctionCallOutput : Type :=
| CallOutputText (text : str)
| CallOutputContent (parts : list InputContent).
Inductive InputItem : Type :=
| EasyMessage (role : Role) (content : EasyInputContent)
| ItemReasoning (r : ReasoningItem)
| ItemFunctionCall (call_id name arguments : str)
| ItemFunctionCallOutput (call_id : str) (output : FunctionCallOutput)
| ItemWebSearchCall (ws : WebSearchToolCall)
| ItemCustomToolCall (ct : CustomToolCall)
| ItemCodeInterpreterCall (ci : CodeInterpreterToolCall).

Definition input_content (p : ContentPart) : InputContent :=
  match p with Text t => InputText t | Image url => InputImage url end.

Definition content_parts_to_easy_input_content (parts : list ContentPart) : EasyInputContent :=
  match parts with
  | [Text text] => EasyText text
  | _ => EasyContentList (map input_content parts)
  end.

Definition function_call_item (tc : ToolCall) : InputItem :=
  ItemFunctionCall (tc_id tc) (tc_name tc) (sanitize_tool_arguments (tc_arguments tc)).

Definition conversation_item_to_input_items (i : ConversationItem) : list InputItem :=
  match i with
  | System s => [EasyMessage RoleSystem (EasyText (sys_content s))]
  | User u => [EasyMessage RoleUser (content_parts_to_easy_input_content (u_content u))]
  | Reasoning r => [ItemReasoning (ri_without_status r)]
  | Assistant a =>
      (if is_empty (a_content a) then []
       else [EasyMessage RoleAssistant (EasyText (a_content a))]) ++
      map function_call_item (a_tool_calls a)
  | ToolResult t =>
      [ItemFunctionCallOutput (tr_tool_call_id t)
         (if is_empty (tr_images t) then CallOutputText (tr_content t)
          else CallOutputContent
                 (InputText (tr_content t) :: map InputImage (omap image_url (tr_images t))))]
  | BackendToolCall b =>
      [match bt_kind b with
       | WebSearch ws => ItemWebSearchCall ws
       | XSearch ct => ItemCustomToolCall ct
       | CodeInterpreter ci => ItemCodeInterpreterCall ci
       end]
  end.

Definition build_responses_input (req : ConversationRequest) : list InputItem :=
  flat_map conversation_item_to_input_items (items req).

(** ** The tools of a Responses request *)

Inductive ResponsesTool : Type :=
| ToolFunction (name : str) (description : option str) (parameters : JsonValue)
| ToolWebSearch (allowed_domains : option (list str)).

Definition wire_name (h : HostedTool) : str :=
  match h with HostedWebSearch _ => lit "web_search" | HostedXSearch => lit "x_search" end.

Definition collides (hosted : list HostedTool) (t : ToolSpec) : bool :=
  existsb (λ h, str_eqb (wire_name h) (ts_name t)) hosted.

Definition function_tool (t : ToolSpec) : ResponsesTool :=
  ToolFunction (ts_name t) (ts_description t) (ts_parameters t).
Definition native_tool (h : HostedTool) : option ResponsesTool :=
  match h with
  | HostedWebSearch domains => Some (ToolWebSearch domains)
  | HostedXSearch => None
  end.

Definition build_responses_tools (req : ConversationRequest) : list ResponsesTool :=
  map function_tool (List.filter (λ t, negb (collides (hosted_tools req) t)) (tools req)) ++
  omap native_tool (hosted_tools req).

Definition extra_raw_tools (hosted : list HostedTool) : list JsonValue :=
  omap (λ h, match h with HostedWebSearch _ => None | HostedXSearch => Some (json_typed (lit "x_search")) end)
    hosted.

(** ** [&ConversationRequest] to [rs::CreateResponse] *)

Inductive ResponsesToolChoice : Type :=
| ModeAuto | ModeNone | ModeRequired | ModeFunction (name : str).
Inductive IncludeEnum : Type := ReasoningEncryptedContent | IncludeOther.

(** [reasoning] always has a concise summary; its effort is [cq_effort]. *)
Record CreateResponse := {
  cq_input : list InputItem;
  cq_max_output_tokens : option Z;
  cq_model : option str;
  cq_effort : option RsEffort;
  cq_temperature : option F32;
  cq_text : option JsonSchemaFormat;
  cq_tool_choice : option ResponsesToolChoice;
  cq_tools : option (list ResponsesTool);
  cq_top_p : option F32;
  cq_store : option bool;
  cq_include : option (list IncludeEnum);
  cq_stream : option bool;
}.

Definition to_responses_api (e : ReasoningEffort) : RsEffort :=
  match e with
  | EffortNone => RsEffortNone
  | EffortMinimal => RsEffortMinimal
  | EffortLow => RsEffortLow
  | EffortMedium => RsEffortMedium
  | EffortHigh => RsEffortHigh
  | EffortXhigh => RsEffortXhigh
  end.

Definition responses_tool_choice (tc : ConversationToolChoice) : ResponsesToolChoice :=
  match tc with
  | ChoiceAuto => ModeAuto
  | ChoiceNone => ModeNone
  | ChoiceRequired => ModeRequired
  | ChoiceFunction name => ModeFunction name
  end.

Definition create_response (req : ConversationRequest) : CreateResponse :=
  let tools := build_responses_tools req in
  {| cq_input := build_responses_input req; cq_max_output_tokens := max_output_tokens req;
     cq_model := request_model req; cq_effort := to_responses_api <$> request_reasoning_effort req;
     cq_temperature := request_temperature req; cq_text := schema_format <$> json_schema req;
     cq_tool_choice := responses_tool_choice <$> tool_choice req;
     cq_tools := if is_empty tools then None else Some tools; cq_top_p := request_top_p req;
     cq_store := None; cq_include := None; cq_stream := None |}.

(** ** The Messages API, [messages.rs] *)

Inductive MessageRole : Type := MessageUser | MessageAssistant.
Record Message := { mg_role : MessageRole; mg_content : list ContentBlock }.
Record TextBlock := {
  tb_type : str;
  tb_text : str;
  tb_cache_control : option CacheControl;
}.
Inductive SystemParam : Type := SystemText (text : str) | SystemBlocks (blocks : list TextBlock).
Record ToolParam := {
  tp_name : str;
  tp_description : option str;
  tp_input_schema : JsonValue;
}.
Inductive ToolChoiceParam : Type := ParamAuto | ParamAny | ParamTool (name : str).
Inductive ThinkingDisplay : Type := DisplayOmitted | DisplaySummarized.
Inductive ThinkingConfig : Type :=
| ThinkingEnabled (budget_tokens : Z)
| ThinkingAdaptive (display : option ThinkingDisplay)
| ThinkingDisabled.
Record OutputConfig := { oc_effort : option str; oc_format : option JsonValue }.
Record MessagesRequest := {
  mq_model : str;
  mq_messages : list Message;
  mq_max_tokens : Z;
  mq_system : option SystemParam;
  mq_tools : option (list ToolParam);
  mq_tool_choice : option ToolChoiceParam;
  mq_temperature : option F32;
  mq_top_p : option F32;
  mq_stream : option bool;
  mq_thinking : option ThinkingConfig;
  mq_output_config : option OutputConfig;
}.

(** ** [build_messages_request] *)

Definition sanitize_tool_call_id (id : str) : str :=
  map (λ c, if char_is_alphanumeric c || (c =? UNDERSCORE)%Z || (c =? DASH)%Z then c
            else UNDERSCORE) id.

Definition COMMA : char := 44.
Definition text_block (text : str) : ContentBlock := BlockText text None.

(** An image of a user message *)
Definition user_image_block (url : str) : ContentBlock :=
  if starts_with url (lit "data:") then
    match split_once COMMA url with
    | Some (header, data) =>
        let media_type :=
          default (lit "image/png")
            (strip_prefix (lit "data:") header ≫= strip_suffix (lit ";base64")) in
        BlockImage (SourceBase64 media_type data)
    | None => text_block (lit "[invalid image: " ++ url ++ lit "]")
    end
  else if starts_with url (lit "http://") || starts_with url (lit "https://") then
    BlockImage (SourceUrl url)
  else text_block (lit "[image: " ++ url ++ lit "]").

Definition user_block (p : ContentPart) : ContentBlock :=
  match p with Text t => text_block t | Image url => user_image_block url end.

(** An image of a tool result *)
Definition result_image_source (url : str) : ImageSource :=
  match strip_prefix (lit "data:") url with
  | Some rest =>
      match split_once_str (lit ";base64,") rest with
      | Some (media_type, data) => SourceBase64 media_type data
      | None => SourceUrl url
      end
  | None => SourceUrl url
  end.

Definition tool_use_block (tc : ToolCall) : ContentBlock :=
  BlockToolUse (sanitize_tool_call_id (tc_id tc)) (tc_name tc)
    (default json_empty_object (json_from_str (tc_arguments tc))).

Definition tool_result_block (t : ToolResultItem) : ContentBlock :=
  BlockToolResult (sanitize_tool_call_id (tr_tool_call_id t))
    (if is_empty (tr_images t) then ToolResultText (tr_content t)
     else ToolResultBlocks
            (text_block (tr_content t) ::
             map (λ url, BlockImage (result_image_source url)) (omap image_url (tr_images t))))
    None.

Record BuildState := {
  bs_system : list TextBlock;
  bs_messages : list Message;
  bs_assistant : list ContentBlock;
  bs_results : list ContentBlock;
}.

Definition flush (role : MessageRole) (pending : list ContentBlock) : list Message :=
  if is_empty pending then [] else [{| mg_role := role; mg_content := pending |}].

Definition flush_assistant (st : BuildState) : BuildState :=
  {| bs_system := bs_system st;
     bs_messages := bs_messages st ++ flush MessageAssistant (bs_assistant st);
     bs_assistant := []; bs_results := bs_results st |}.
Definition flush_tool_results (st : BuildState) : BuildState :=
  {| bs_system := bs_system st;
     bs_messages := bs_messages st ++ flush MessageUser (bs_results st);
     bs_assistant := bs_assistant st; bs_results := [] |}.

Definition push_assistant (blocks : list ContentBlock) (st : BuildState) : BuildState :=
  {| bs_system := bs_system st; bs_messages := bs_messages st;
     bs_assistant := bs_assistant st ++ blocks; bs_results := bs_results st |}.
Definition push_result (block : ContentBlock) (st : BuildState) : BuildState :=
  {| bs_system := bs_system st; bs_messages := bs_messages st; bs_assistant := bs_assistant st;
     bs_results := bs_results st ++ [block] |}.
Definition push_system (text : str) (st : BuildState) : BuildState :=
  {| bs_system := bs_system st ++ [{| tb_type := lit "text"; tb_text := text;
                                      tb_cache_control := None |}];
     bs_messages := bs_messages st; bs_assistant := bs_assistant st;
     bs_results := bs_results st |}.
Definition push_message (m : Message) (st : BuildState) : BuildState :=
  {| bs_system := bs_system st; bs_messages := bs_messages st ++ [m];
     bs_assistant := bs_assistant st; bs_results := bs_results st |}.

Definition assistant_blocks (a : AssistantItem) : list ContentBlock :=
  (if is_empty (a_content a) then [] else [text_block (a_content a)]) ++
  map tool_use_block (a_tool_calls a).

Definition thinking_blocks (r : ReasoningItem) : list ContentBlock :=
  let thinking := reasoning_item_text r in
  let signature := default [] (ri_encrypted_content r) in
  if is_empty thinking && is_empty signature then [] else [BlockThinking thinking signature].

(** One item; [None] is the panic of [text_summary]. *)
Definition build_item (st : BuildState) (i : ConversationItem) : option BuildState :=
  match i with
  | System s => Some (push_system (sys_content s) (flush_tool_results (flush_assistant st)))
  | User u =>
      Some (push_message {| mg_role := MessageUser; mg_content := map user_block (u_content u) |}
              (flush_tool_results (flush_assistant st)))
  | Assistant a => Some (push_assistant (assistant_blocks a) (flush_tool_results st))
  | ToolResult t => Some (push_result (tool_result_block t) (flush_assistant st))
  | BackendToolCall b =>
      (λ t, push_assistant [text_block t] (flush_tool_results st)) <$> text_summary b
  | Reasoning r => Some (push_assistant (thinking_blocks r) (flush_tool_results st))
  end.

Fixpoint build_items (st : BuildState) (its : list ConversationItem) : option BuildState :=
  match its with
  | [] => Some st
  | i :: its' => build_item st i ≫= λ st', build_items st' its'
  end.

Definition build_start : BuildState :=
  {| bs_system := []; bs_messages := []; bs_assistant := []; bs_results := [] |}.

(** [cache_control] on the last system block *)
Fixpoint mark_last (blocks : list TextBlock) : list TextBlock :=
  match blocks with
  | [] => []
  | [b] => [{| tb_type := tb_type b; tb_text := tb_text b;
               tb_cache_control := Some {| cc_type := lit "ephemeral" |} |}]
  | b :: blocks' => b :: mark_last blocks'
  end.

Definition system_param (blocks : list TextBlock) : option SystemParam :=
  match mark_last blocks with
  | [] => None
  | [b] => match tb_cache_control b with
           | None => Some (SystemText (tb_text b))
           | Some _ => Some (SystemBlocks [b])
           end
  | bs => Some (SystemBlocks bs)
  end.

Definition messages_tool_choice (tc : ConversationToolChoice) : ToolChoiceParam :=
  match tc with
  | ChoiceAuto => ParamAuto
  | ChoiceRequired => ParamAny
  | ChoiceFunction name => ParamTool name
  | ChoiceNone => ParamAuto
  end.

Definition to_messages_api (e : ReasoningEffort) : option str :=
  match e with
  | EffortNone | EffortMinimal => None
  | EffortLow => Some (lit "low")
  | EffortMedium => Some (lit "medium")
  | EffortHigh => Some (lit "high")
  | EffortXhigh => Some (lit "max")
  end.

Definition tool_param (t : ToolSpec) : ToolParam :=
  {| tp_name := ts_name t; tp_description := ts_description t;
     tp_input_schema := ts_parameters t |}.

Definition build_messages_request (req : ConversationRequest) : option MessagesRequest :=
  st ← build_items build_start (items req);
  let st := flush_tool_results (flush_assistant st) in
  let effort := request_reasoning_effort req ≫= to_messages_api in
  Some {| mq_model := default [] (request_model req); mq_messages := bs_messages st;
          mq_max_tokens := default 0%Z (max_output_tokens req);
          mq_system := system_param (bs_system st);
          mq_tools := if is_empty (tools req) then None else Some (map tool_param (tools req));
          mq_tool_choice := messages_tool_choice <$> tool_choice req;
          mq_temperature := request_temperature req; mq_top_p := request_top_p req;
          mq_stream := None;
          mq_thinking := (λ _, ThinkingAdaptive (Some DisplaySummarized)) <$> effort;
          mq_output_config :=
            if is_some effort || is_some (json_schema req)
            then Some {| oc_effort := effort; oc_format := json_schema req |} else None |}.

(** ** Back from messages to items *)

Definition unchat_part (b : ChatContentBlock) : ContentPart :=
  match b with ChatText t => Text t | ChatImageUrl url => Image url end.

Definition unchat_call (tc : ToolCallRequest) : ToolCall :=
  {| tc_id := default [] (tq_id tc); tc_name := fn_name (tq_function tc);
     tc_arguments := fn_arguments (tq_function tc) |}.

(** [From<ChatRequestMessage> for ConversationItem] *)
Definition item_of_chat_request (m : ChatRequestMessage) : ConversationItem :=
  match cm_role m with
  | RoleSystem => System {| sys_content := chat_text_content m |}
  | RoleUser =>
      User {| u_content := map unchat_part (content_blocks (cm_content m));
              u_synthetic_reason := None; u_prior_turn_interrupt := None;
              u_prompt_index := None |}
  | RoleAssistant =>
      Assistant {| a_content := chat_text_content m;
                   a_tool_calls := map unchat_call (cm_tool_calls m);
                   a_model_id := cm_model_id m; a_model_fingerprint := None;
                   a_reasoning_effort := None |}
  | RoleTool =>
      ToolResult {| tr_tool_call_id := default [] (cm_tool_call_id m);
                    tr_content := chat_text_content m; tr_images := [] |}
  end.

Definition unmessage_block (acc : str * list ToolCall) (b : ContentBlock)
  : str * list ToolCall :=
  let '(content, calls) := acc in
  match b with
  | BlockText text _ => (push_line content text, calls)
  | BlockToolUse id name input =>
      (content, calls ++ [{| tc_id := id; tc_name := name; tc_arguments := json_to_string input |}])
  | BlockThinking _ _ | BlockImage _ | BlockToolResult _ _ _ => acc
  end.

(** [From<MessagesResponse> for ConversationItem] *)
Definition item_of_messages_response (resp : MessagesResponse) : ConversationItem :=
  let '(content, calls) := fold_left unmessage_block (mr_content resp) ([], []) in
  Assistant {| a_content := content; a_tool_calls := calls; a_model_id := Some (mr_model resp);
               a_model_fingerprint := None; a_reasoning_effort := None |}.

(** ** client.rs: what is sent *)

Record ClientDefaults := {
  df_model : str;
  df_max_completion_tokens : option Z;
  df_temperature : option F32;
  df_top_p : option F32;
  df_stream_tool_calls : bool;
}.

Definition ANTHROPIC_DEFAULT_MAX_TOKENS : Z := 128000.

Definition or_else {A} (o d : option A) : option A := match o with Some _ => o | None => d end.

(** [apply_conversation_defaults] *)
Definition apply_conversation_defaults (df : ClientDefaults) (r : ConversationRequest)
  : ConversationRequest :=
  {| items := items r; tools := tools r; hosted_tools := hosted_tools r;
     tool_choice := tool_choice r; request_model := or_else (request_model r) (Some (df_model df));
     request_temperature := or_else (request_temperature r) (df_temperature df);
     max_output_tokens := or_else (max_output_tokens r) (df_max_completion_tokens df);
     request_top_p := or_else (request_top_p r) (df_top_p df);
     x_grok_conv_id := x_grok_conv_id r; x_grok_req_id := x_grok_req_id r;
     x_grok_session_id := x_grok_session_id r; x_grok_turn_idx := x_grok_turn_idx r;
     x_grok_agent_id := x_grok_agent_id r; x_grok_deployment_id := x_grok_deployment_id r;
     x_grok_user_id := x_grok_user_id r; trace := trace r;
     request_reasoning_effort := request_reasoning_effort r; json_schema := json_schema r |}.

(** [apply_defaults] *)
Definition apply_chat_defaults (df : ClientDefaults) (r : ChatCompletionRequest)
  : ChatCompletionRequest :=
  {| cc_model := or_else (cc_model r) (Some (df_model df)); cc_messages := cc_messages r;
     cc_temperature := or_else (cc_temperature r) (df_temperature df);
     cc_max_tokens := or_else (cc_max_tokens r) (df_max_completion_tokens df);
     cc_top_p := or_else (cc_top_p r) (df_top_p df); cc_tools := cc_tools r;
     cc_tool_choice := cc_tool_choice r; cc_response_format := cc_response_format r;
     cc_reasoning_effort := cc_reasoning_effort r; cc_x_grok_conv_id := cc_x_grok_conv_id r;
     cc_x_grok_req_id := cc_x_grok_req_id r; cc_x_grok_session_id := cc_x_grok_session_id r;
     cc_x_grok_turn_idx := cc_x_grok_turn_idx r; cc_x_grok_agent_id := cc_x_grok_agent_id r;
     cc_x_grok_deployment_id := cc_x_grok_deployment_id r;
     cc_x_grok_user_id := cc_x_grok_user_id r |}.

Definition is_encrypted_include (i : IncludeEnum) : bool :=
  match i with ReasoningEncryptedContent => true | IncludeOther => false end.

Definition apply_response_defaults (df : ClientDefaults) (r : CreateResponse) : CreateResponse :=
  let includes := default [] (cq_include r) in
  {| cq_input := cq_input r;
     cq_max_output_tokens := or_else (cq_max_output_tokens r) (df_max_completion_tokens df);
     cq_model := or_else (cq_model r) (Some (df_model df)); cq_effort := cq_effort r;
     cq_temperature := or_else (cq_temperature r) (df_temperature df); cq_text := cq_text r;
     cq_tool_choice := cq_tool_choice r; cq_tools := cq_tools r;
     cq_top_p := or_else (cq_top_p r) (df_top_p df);
     cq_store := or_else (cq_store r) (Some false);
     cq_include :=
       Some (if existsb is_encrypted_include includes then includes
             else includes ++ [ReasoningEncryptedContent]);
     cq_stream := cq_stream r |}.

Definition apply_message_defaults (df : ClientDefaults) (r : MessagesRequest) : MessagesRequest :=
  {| mq_model := if is_empty (mq_model r) then df_model df else mq_model r;
     mq_messages := mq_messages r;
     mq_max_tokens :=
       if (mq_max_tokens r =? 0)%Z
       then default ANTHROPIC_DEFAULT_MAX_TOKENS (df_max_completion_tokens df)
       else mq_max_tokens r;
     mq_system := mq_system r; mq_tools := mq_tools r; mq_tool_choice := mq_tool_choice r;
     mq_temperature := or_else (mq_temperature r) (df_temperature df);
     mq_top_p := or_else (mq_top_p r) (df_top_p df); mq_stream := mq_stream r;
     mq_thinking := mq_thinking r; mq_output_config := mq_output_config r |}.

Record GrokRequestHeaders := {
  gh_conv_id : str;
  gh_req_id : str;
  gh_model_id : str;
  gh_session_id : str;
  gh_turn_idx : option str;
  gh_agent_id : str;
  gh_deployment_id : option str;
  gh_user_id : option str;
}.

Definition header_if_some (name : string) (v : option str) : list (str * str) :=
  match v with Some x => [(lit name, x)] | None => [] end.

(** [GrokRequestHeaders::apply] *)
Definition grok_headers (h : GrokRequestHeaders) : list (str * str) :=
  [(lit "x-grok-conv-id", gh_conv_id h); (lit "x-grok-req-id", gh_req_id h);
   (lit "x-grok-model-override", gh_model_id h); (lit "x-grok-session-id", gh_session_id h);
   (lit "x-grok-agent-id", gh_agent_id h)] ++
  header_if_some "x-grok-turn-idx" (gh_turn_idx h) ++
  header_if_some "x-grok-deployment-id" (gh_deployment_id h ≫= nonempty_str) ++
  header_if_some "x-grok-user-id" (gh_user_id h ≫= nonempty_str).

(** The bodies posted: a chat request with [stream] and [include_usage]; a
    Responses request with the tools that only exist as JSON; a Messages
    request. *)
Inductive WireBody : Type :=
| ChatBody (inner : ChatCompletionRequest) (stream include_usage : bool)
| ResponsesBody (inner : CreateResponse) (stream_tool_calls : bool) (extra : list JsonValue)
| MessagesBody (inner : MessagesRequest).
(** The [x-grok] headers and the body *)
Record WireRequest := { wr_headers : list (str * str); wr_body : WireBody }.

(** [conversation_stream] and [chat_completion_stream] *)
Definition conversation_stream (df : ClientDefaults) (request : ConversationRequest)
  : option WireRequest :=
  chat ← chat_completion_request (apply_conversation_defaults df request);
  let payload := apply_chat_defaults df chat in
  Some {| wr_headers := grok_headers
            {| gh_conv_id := default [] (cc_x_grok_conv_id payload);
               gh_req_id := default [] (cc_x_grok_req_id payload);
               gh_model_id := default [] (cc_model payload);
               gh_session_id := default [] (cc_x_grok_session_id payload);
               gh_turn_idx := cc_x_grok_turn_idx payload;
               gh_agent_id := default [] (cc_x_grok_agent_id payload);
               gh_deployment_id := cc_x_grok_deployment_id payload;
               gh_user_id := cc_x_grok_user_id payload |};
          wr_body := ChatBody payload true true |}.

(** The headers of a wrapper: its deployment and user are never set. *)
Definition wrapper_headers (r : ConversationRequest) (model_id : str) : list (str * str) :=
  grok_headers
    {| gh_conv_id := default [] (x_grok_conv_id r); gh_req_id := default [] (x_grok_req_id r);
       gh_model_id := model_id; gh_session_id := default [] (x_grok_session_id r);
       gh_turn_idx := x_grok_turn_idx r; gh_agent_id := default [] (x_grok_agent_id r);
       gh_deployment_id := None; gh_user_id := None |}.

Definition streamed (r : CreateResponse) : CreateResponse :=
  {| cq_input := cq_input r; cq_max_output_tokens := cq_max_output_tokens r;
     cq_model := cq_model r; cq_effort := cq_effort r; cq_temperature := cq_temperature r;
     cq_text := cq_text r; cq_tool_choice := cq_tool_choice r; cq_tools := cq_tools r;
     cq_top_p := cq_top_p r; cq_store := cq_store r; cq_include := cq_include r;
     cq_stream := Some true |}.

(** [conversation_stream_responses] and [create_response_stream] *)
Definition conversation_stream_responses (df : ClientDefaults) (request : ConversationRequest)
  : WireRequest :=
  let r := apply_conversation_defaults df request in
  let inner := streamed (apply_response_defaults df (create_response r)) in
  {| wr_headers := wrapper_headers r (default [] (cq_model inner));
     wr_body := ResponsesBody inner (df_stream_tool_calls df) (extra_raw_tools (hosted_tools r)) |}.

(** [conversation_responses] and [create_response]: not streamed, and no extra
    tools *)
Definition conversation_responses (df : ClientDefaults) (request : ConversationRequest)
  : WireRequest :=
  let r := apply_conversation_defaults df request in
  let inner := apply_response_defaults df (create_response r) in
  {| wr_headers := wrapper_headers r (default [] (cq_model inner));
     wr_body := ResponsesBody inner false [] |}.

(** [conversation_stream_messages] and [create_message_stream] *)
Definition conversation_stream_messages (df : ClientDefaults) (request : ConversationRequest)
  : option WireRequest :=
  let r := apply_conversation_defaults df request in
  m ← build_messages_request r;
  let m := apply_message_defaults df m in
  Some {| wr_headers := wrapper_headers r (mq_model m);
          wr_body := MessagesBody
            {| mq_model := mq_model m; mq_messages := mq_messages m;
               mq_max_tokens := mq_max_tokens m; mq_system := mq_system m; mq_tools := mq_tools m;
               mq_tool_choice := mq_tool_choice m; mq_temperature := mq_temperature m;
               mq_top_p := mq_top_p m; mq_stream := Some true; mq_thinking := mq_thinking m;
               mq_output_config := mq_output_config m |} |}.

(** The tool names of a Responses body: the functions, the native tools under
    their wire names, and the extra ones. *)
Definition responses_tool_name (t : ResponsesTool) : str :=
  match t with ToolFunction name _ _ => name | ToolWebSearch _ => lit "web_search" end.

(** The name the backend knows a raw tool by: its type. *)
Definition raw_tool_name (v : JsonValue) : str := default [] (json_type v).

(** The names of the tools a body offers. *)
Definition body_tool_names (b : WireBody) : list str :=
  match b with
  | ChatBody inner _ _ => map (λ td, ft_name (td_function td)) (default [] (cc_tools inner))
  | ResponsesBody inner _ extra =>
      map responses_tool_name (default [] (cq_tools inner)) ++ map raw_tool_name extra
  | MessagesBody inner => map tp_name (default [] (mq_tools inner))
  end.

End Wire.

(** [conversation_collect]: the error of a failed collection. *)
Definition collect_error {SA : SamplerApi} (info : SamplingErrorInfo) : SamplingError :=
  Api (default 500%Z (in_status_code info ≫= status_from_u16)) (in_message info)
    (in_model_metadata info) (in_retry_after_secs info) None.

Definition conversation_collected {RS : RsApi} {SA : SamplerApi} (evs : list SamplingEvent)
  : result ConversationResponse SamplingError :=
  match collect_response evs with
  | Ok (response, _) => Ok response
  | Err info => Err (collect_error info)
  end.
