(* ===== verification/WireTheorems.v ===== *)
(** * Requests on the wire: theorems

    Tool uses and their results stay paired in a Messages request; the chat
    messages of a conversation, and its items back from them; what the input
    of the Responses API says of a response; the tools a request names; and
    how the requests of a growing conversation extend each other.  The lemmas
    come first: the streaming form [emit] of the loop of
    [build_messages_request] and the ids of the blocks of its messages. *)
From S2P Require Import Prelude RustStr StrSearch F64 TokenEstimation Conversation Sampling.
From S2P Require Import Concrete RequestBuilder ToolPairing HistoryRepair SamplingError SamplerStream Wire.

Section Facts.
Context {RS : RsApi} {WA : WireApi}.
Implicit Types (its : list ConversationItem) (ms : list Message) (pa pr : list ContentBlock).

(** ** Ids of the blocks *)

Definition block_use_id (b : ContentBlock) : option str :=
  match b with BlockToolUse id _ _ => Some id | _ => None end.
Definition block_result_id (b : ContentBlock) : option str :=
  match b with BlockToolResult id _ _ => Some id | _ => None end.
Definition use_ids (bs : list ContentBlock) : list str := omap block_use_id bs.
Definition result_ids (bs : list ContentBlock) : list str := omap block_result_id bs.

(** Every tool use of a message is answered by the message after it, a user
    message. *)
Definition uses_answered ms : Prop :=
  ∀ k m id, ms !! k = Some m → id ∈ use_ids (mg_content m) →
  ∃ m', ms !! S k = Some m' ∧ mg_role m' = MessageUser ∧ id ∈ result_ids (mg_content m').

(** Every tool result answers a tool use of the message before it, an
    assistant message. *)
Definition results_follow ms : Prop :=
  ∀ k m id, ms !! k = Some m → id ∈ result_ids (mg_content m) →
  ∃ j m', k = S j ∧ ms !! j = Some m' ∧ mg_role m' = MessageAssistant ∧
    id ∈ use_ids (mg_content m').

Lemma use_ids_app bs bs' : use_ids (bs ++ bs') = use_ids bs ++ use_ids bs'.
Proof. apply omap_app. Qed.
Lemma result_ids_app bs bs' : result_ids (bs ++ bs') = result_ids bs ++ result_ids bs'.
Proof. apply omap_app. Qed.

Lemma user_block_ids ps :
  use_ids (map user_block ps) = [] ∧ result_ids (map user_block ps) = [].
Proof.
  induction ps as [|[t|url] ps [IHu IHr]]; [done|done|].
  unfold use_ids, result_ids in *. simpl. unfold user_image_block.
  repeat case_match; simpl; done.
Qed.

Lemma thinking_block_ids r : use_ids (thinking_blocks r) = [] ∧ result_ids (thinking_blocks r) = [].
Proof. unfold thinking_blocks. by case_match. Qed.

Lemma assistant_block_ids a :
  use_ids (assistant_blocks a) = sanitize_tool_call_id <$> call_ids a ∧
  result_ids (assistant_blocks a) = [].
Proof.
  unfold assistant_blocks, call_ids. rewrite use_ids_app, result_ids_app.
  assert (∀ l, use_ids (map tool_use_block l) = sanitize_tool_call_id <$> map tc_id l ∧
               result_ids (map tool_use_block l) = []) as Hm.
  { induction l as [|tc l [IHu IHr]]; [done|]. split; [|done]. by csimpl; f_equal. }
  destruct (Hm (a_tool_calls a)) as [-> ->]. by case_match.
Qed.

(** ** The messages, streamed *)

(** The messages of [its] with the blocks [pa] and [pr] pending. *)
Fixpoint emit pa pr its : option (list Message) :=
  let flushed := flush MessageAssistant pa ++ flush MessageUser pr in
  match its with
  | [] => Some flushed
  | System _ :: its' => (λ ms, flushed ++ ms) <$> emit [] [] its'
  | User u :: its' =>
      (λ ms, flushed ++
         {| mg_role := MessageUser; mg_content := map user_block (u_content u) |} :: ms)
      <$> emit [] [] its'
  | Assistant a :: its' =>
      (λ ms, flush MessageUser pr ++ ms) <$> emit (pa ++ assistant_blocks a) [] its'
  | ToolResult t :: its' =>
      (λ ms, flush MessageAssistant pa ++ ms) <$> emit [] (pr ++ [tool_result_block t]) its'
  | BackendToolCall b :: its' =>
      t ← text_summary b;
      (λ ms, flush MessageUser pr ++ ms) <$> emit (pa ++ [text_block t]) [] its'
  | Reasoning r :: its' =>
      (λ ms, flush MessageUser pr ++ ms) <$> emit (pa ++ thinking_blocks r) [] its'
  end.

Definition final_messages (st : BuildState) : list Message :=
  bs_messages (flush_tool_results (flush_assistant st)).

Lemma build_emit st its :
  final_messages <$> build_items st its =
  (λ ms, bs_messages st ++ ms) <$> emit (bs_assistant st) (bs_results st) its.
Proof.
  revert st. induction its as [|i its IH]; intros [sys ms pa pr].
  { simpl. unfold final_messages. simpl. by rewrite app_assoc. }
  destruct i; simpl; rewrite ?IH; simpl;
    try (rewrite <- option_fmap_compose; apply option_fmap_ext; intros ?; simpl;
         by rewrite <- ?app_assoc).
  destruct (text_summary b); [|done]. simpl. rewrite IH. simpl.
  rewrite <- option_fmap_compose. apply option_fmap_ext; intros ?; simpl.
  by rewrite <- ?app_assoc.
Qed.

Lemma request_emit req m :
  build_messages_request req = Some m → emit [] [] (items req) = Some (mq_messages m).
Proof.
  unfold build_messages_request. pose proof (build_emit build_start (items req)) as E.
  destruct (build_items build_start (items req)) as [st|]; [|done]. intros [= <-].
  simpl in *. destruct (emit [] [] (items req)); simpl in *; [|done].
  unfold final_messages in E. simpl in E. congruence.
Qed.

(** Pending tool results open the next message, and take in the whole run of
    results. *)
Lemma emit_results pr its ms :
  pr ≠ [] → emit [] pr its = Some ms →
  ∃ extra ms', ms = {| mg_role := MessageUser; mg_content := pr ++ extra |} :: ms' ∧
    result_ids extra = sanitize_tool_call_id <$> run_ids its.
Proof.
  revert pr ms. induction its as [|i its IH]; intros pr ms Hpr E.
  { exists [], []. destruct pr; [done|]. simplify_eq/=. by rewrite app_nil_r. }
  destruct i as [s|u|a|t|b|r]; simpl in E;
    try (destruct (text_summary b); [|done]); simpl in E;
    apply fmap_Some in E as (ms1 & E & ->);
    try (destruct pr as [|p pr]; [done|]; simpl; eexists [], _; by rewrite app_nil_r).
  apply IH in E as (extra & ms' & -> & Hx); [|by destruct pr].
  simpl. exists (tool_result_block t :: extra), ms'. rewrite <- app_assoc. split; [done|].
  csimpl. by f_equal.
Qed.

(** Pending assistant blocks open the next message. *)
Lemma emit_assistant pa its ms :
  pa ≠ [] → emit pa [] its = Some ms →
  ∃ extra ms', ms = {| mg_role := MessageAssistant; mg_content := pa ++ extra |} :: ms'.
Proof.
  revert pa ms. induction its as [|i its IH]; intros pa ms Hpa E.
  { exists [], []. destruct pa; [done|]. simplify_eq/=. by rewrite app_nil_r. }
  destruct i as [s|u|a|t|b|r]; simpl in E;
    try (destruct (text_summary b); [|done]); simpl in E;
    apply fmap_Some in E as (ms1 & E & ->);
    try (destruct pa as [|p pa]; [done|]; simpl; eexists [], _; by rewrite app_nil_r);
    (apply IH in E as (extra & ms' & ->); [|by destruct pa]);
    simpl; rewrite <- app_assoc; by eexists _, ms'.
Qed.

(** ** Tool uses and tool results *)

Lemma uses_answered_nil : uses_answered [].
Proof. by intros k m id E. Qed.

Lemma uses_answered_free m ms :
  use_ids (mg_content m) = [] → uses_answered ms → uses_answered (m :: ms).
Proof.
  intros Hm Hms [|k] m' id E Hid; simplify_eq/=; [|by eapply Hms].
  rewrite Hm in Hid. by apply not_elem_of_nil in Hid.
Qed.

Lemma uses_answered_flush role bs ms :
  use_ids bs = [] → uses_answered ms → uses_answered (flush role bs ++ ms).
Proof. intros Hb Hms. destruct bs; [done|]. by apply uses_answered_free. Qed.

Lemma uses_answered_flushed pa pr ms :
  use_ids pa = [] → use_ids pr = [] → uses_answered ms →
  uses_answered ((flush MessageAssistant pa ++ flush MessageUser pr) ++ ms).
Proof. intros Ha Hr Hms. rewrite <- app_assoc. by do 2 (apply uses_answered_flush; [done|]). Qed.

Lemma uses_answered_user u ms :
  uses_answered ms →
  uses_answered ({| mg_role := MessageUser; mg_content := map user_block (u_content u) |} :: ms).
Proof. intros Hms. apply uses_answered_free; [|done]. apply user_block_ids. Qed.

Lemma emit_answered pa pr its ms :
  calls_answered its → emit pa pr its = Some ms →
  pa = [] ∨ pr = [] → use_ids pr = [] →
  (∀ id, id ∈ use_ids pa → id ∈ sanitize_tool_call_id <$> run_ids its) →
  uses_answered ms.
Proof.
  revert pa pr ms. induction its as [|i its IH]; intros pa pr ms Hc E Hor Hpr Hpa.
  { simpl in *. simplify_eq. rewrite <- (app_nil_r (_ ++ _)).
    apply uses_answered_flushed; [|done|apply uses_answered_nil].
    apply elem_of_nil_inv. intros id Hid. by apply Hpa, elem_of_nil in Hid. }
  assert (calls_answered its) as Hc'.
  { intros pre a rest ->. by apply (Hc (i :: pre)). }
  assert (is_tool_result i = false → use_ids pa = []) as Hfree.
  { intros Hi. apply elem_of_nil_inv. intros id Hid. apply Hpa in Hid.
    destruct i; try discriminate Hi; by apply elem_of_nil in Hid. }
  destruct i as [s|u|a|t|b|r]; simpl in E, Hfree;
    try (destruct (text_summary b); [|done]); simpl in E;
    apply fmap_Some in E as (ms1 & E & ->).
  - apply uses_answered_flushed; auto. eapply IH; eauto. simpl. set_solver.
  - apply uses_answered_flushed; auto. apply uses_answered_user. eapply IH; eauto. simpl. set_solver.
  - apply uses_answered_flush; [done|]. eapply IH; eauto. intros id.
    rewrite use_ids_app, Hfree, (proj1 (assistant_block_ids a)) by done. simpl.
    rewrite !list_elem_of_fmap. intros (id' & -> & Hid). exists id'. split; [done|].
    by apply (Hc [] a its).
  - assert (uses_answered ms1) as Hms1.
    { eapply IH; eauto; [|simpl; set_solver]. rewrite use_ids_app, Hpr. done. }
    destruct (decide (pa = [])) as [->|Hne]; [done|].
    destruct Hor as [?| ->]; [done|].
    apply emit_results in E as (extra & ms' & -> & Hx); [|done].
    destruct pa as [|p pa]; [done|]. intros [|k] m id Em Hid; simplify_eq/=; [|by eapply Hms1].
    eexists. split_and!; [done|done|]. simpl.
    apply Hpa in Hid. csimpl in *. unfold result_ids in *. simpl. by rewrite Hx.
  - apply uses_answered_flush; [done|]. eapply IH; eauto. intros id.
    rewrite use_ids_app, Hfree by done. simpl. set_solver.
  - apply uses_answered_flush; [done|]. eapply IH; eauto. intros id.
    rewrite use_ids_app, Hfree, (proj1 (thinking_block_ids r)) by done. simpl. set_solver.
Qed.

(** [results_follow] with the tool uses of the message before. *)
Fixpoint following (prev : list str) ms : Prop :=
  match ms with
  | [] => True
  | m :: ms' =>
      (∀ id, id ∈ result_ids (mg_content m) → id ∈ prev) ∧
      following (match mg_role m with
                 | MessageAssistant => use_ids (mg_content m)
                 | MessageUser => []
                 end) ms'
  end.

Lemma following_lookup prev ms k m id :
  following prev ms → ms !! k = Some m → id ∈ result_ids (mg_content m) →
  match k with
  | O => id ∈ prev
  | S j => ∃ m', ms !! j = Some m' ∧ mg_role m' = MessageAssistant ∧
      id ∈ use_ids (mg_content m')
  end.
Proof.
  revert prev k. induction ms as [|m0 ms IH]; intros prev k Hf Hk Hid; [done|].
  destruct Hf as [Hm Hf]. destruct k as [|k]; simplify_eq/=; [by apply Hm|].
  specialize (IH _ _ Hf Hk Hid). destruct k as [|k]; [|done].
  exists m0. destruct (mg_role m0); [by apply elem_of_nil in IH|done].
Qed.

Lemma following_results_follow ms : following [] ms → results_follow ms.
Proof.
  intros Hf k m id Hk Hid. pose proof (following_lookup _ _ _ _ _ Hf Hk Hid) as Hx.
  destruct k as [|k]; [by apply elem_of_nil in Hx|]. destruct Hx as (m' & ? & ?). eauto.
Qed.

(** The ids the next message may answer. *)
Definition open_ids (prev : list str) pa : list str := if is_empty pa then prev else use_ids pa.

Lemma following_flush_assistant prev pa ms :
  result_ids pa = [] → following (open_ids prev pa) ms →
  following prev (flush MessageAssistant pa ++ ms).
Proof.
  intros Hr Hms. destruct pa as [|p pa]; [done|]. split; [|done]. cbn [mg_content]. rewrite Hr. set_solver.
Qed.

Lemma following_flush_user prev pr ms :
  (∀ id, id ∈ result_ids pr → id ∈ prev) →
  following (if is_empty pr then prev else []) ms → following prev (flush MessageUser pr ++ ms).
Proof. intros Hr Hms. by destruct pr. Qed.

Lemma following_flushed prev pa pr ms :
  pa = [] ∨ pr = [] → result_ids pa = [] → (∀ id, id ∈ result_ids pr → id ∈ prev) →
  (∀ prev', following prev' ms) →
  following prev ((flush MessageAssistant pa ++ flush MessageUser pr) ++ ms).
Proof.
  intros Hor Ha Hr Hms. rewrite <- app_assoc. apply following_flush_assistant; [done|].
  destruct Hor as [-> | ->]; [by apply following_flush_user|done].
Qed.

Lemma open_ids_push prev pa pr bs :
  pa = [] ∨ pr = [] →
  ∀ id, id ∈ use_ids bs →
  id ∈ open_ids (if is_empty pr then prev else []) (pa ++ bs).
Proof.
  intros _ id Hid. unfold open_ids. destruct (pa ++ bs) eqn:E.
  - apply app_eq_nil in E as [_ ->]. by apply elem_of_nil in Hid.
  - simpl is_empty. rewrite <- E, use_ids_app. set_solver.
Qed.

Lemma emit_following ids prev pa pr its ms :
  owned ids its → emit pa pr its = Some ms →
  pa = [] ∨ pr = [] → result_ids pa = [] → (∀ id, id ∈ result_ids pr → id ∈ prev) →
  (∀ id, id ∈ ids → sanitize_tool_call_id id ∈ open_ids prev pa) →
  following prev ms.
Proof.
  revert ids prev pa pr ms. induction its as [|i its IH]; intros ids prev pa pr ms Ho E Hor Ha Hr Hi.
  { simpl in E. simplify_eq. rewrite <- (app_nil_r (_ ++ _)). by apply following_flushed. }
  destruct i as [s|u|a|t|b|r]; simpl in E, Ho;
    try (destruct (text_summary b) as [tx|]; [|done]); simpl in E;
    apply fmap_Some in E as (ms1 & E & ->).
  - apply following_flushed; [done..|]. intros prev'. eapply IH; eauto; set_solver.
  - apply following_flushed; [done..|]. intros prev'. split.
    { simpl. rewrite (proj2 (user_block_ids _)). set_solver. }
    eapply IH; eauto; set_solver.
  - apply following_flush_user; [done|]. eapply IH; eauto.
    + by rewrite result_ids_app, Ha, (proj2 (assistant_block_ids a)).
    + simpl. set_solver.
    + intros id Hid. rewrite elem_of_list_to_set in Hid. apply open_ids_push; [done|].
      rewrite (proj1 (assistant_block_ids a)). by apply list_elem_of_fmap_2.
  - apply following_flush_assistant; [done|]. destruct Ho as [Ht Ho]. eapply IH; eauto.
    intros id. rewrite result_ids_app. simpl. intros [Hid|Hid]%elem_of_app.
    + destruct Hor as [-> | ->]; [by apply Hr|by apply elem_of_nil in Hid].
    + apply list_elem_of_singleton in Hid as ->. by apply Hi.
  - apply following_flush_user; [done|]. eapply IH; eauto.
    + by rewrite result_ids_app, Ha.
    + simpl. set_solver.
    + set_solver.
  - apply following_flush_user; [done|]. eapply IH; eauto.
    + by rewrite result_ids_app, Ha, (proj2 (thinking_block_ids r)).
    + simpl. set_solver.
    + set_solver.
Qed.

(** ** What grows with the conversation *)

(** The messages of a longer conversation: those of the shorter, the last of
    which may take in more blocks. *)
Definition extends ms ms' : Prop :=
  ∃ closed tail rest, ms = closed ++ tail ∧ ms' = closed ++ rest ∧
    (tail = [] ∨ ∃ m m' rest', tail = [m] ∧ rest = m' :: rest' ∧ mg_role m' = mg_role m ∧
       mg_content m `prefix_of` mg_content m').

Lemma extends_app pre ms ms' : extends ms ms' → extends (pre ++ ms) (pre ++ ms').
Proof.
  intros (closed & tail & rest & -> & -> & Ht). exists (pre ++ closed), tail, rest.
  by rewrite <- !app_assoc.
Qed.

Lemma emit_extends pa pr its more ms ms' :
  pa = [] ∨ pr = [] → emit pa pr its = Some ms → emit pa pr (its ++ more) = Some ms' →
  extends ms ms'.
Proof.
  revert pa pr ms ms'. induction its as [|i its IH]; intros pa pr ms ms' Hor E E'.
  { simpl in E. simplify_eq. destruct pa as [|p pa].
    - destruct pr as [|q pr]; [by exists [], [], ms'; eauto|].
      apply emit_results in E' as (extra & ms'' & -> & _); [|done].
      eexists [], _, _. split_and!; [done|done|]. right. eexists _, _, _. split_and!; try done.
      by exists extra.
    - destruct Hor as [?| ->]; [done|].
      apply emit_assistant in E' as (extra & ms'' & ->); [|done].
      eexists [], _, _. split_and!; [done|done|]. right. eexists _, _, _. split_and!; try done.
      by exists extra. }
  destruct i as [s|u|a|t|b|r]; simpl in E, E';
    try (destruct (text_summary b); [|done]); simpl in E, E';
    apply fmap_Some in E as (m1 & E & ->); apply fmap_Some in E' as (m2 & E' & ->);
    apply extends_app; try (eapply IH; [|exact E|exact E']; eauto).
  apply (extends_app [_]). eapply IH; [|exact E|exact E']; eauto.
Qed.

End Facts.

Section Theorems.
Context {RS : RsApi} {WA : WireApi}.
Implicit Types (its run pre post : list ConversationItem).

(** ** Chat messages *)

(** What keeps the pending reasoning. *)
Definition transparent (i : ConversationItem) : bool :=
  match i with Reasoning _ | BackendToolCall _ => true | _ => false end.

Definition reasoning_texts its : list str :=
  omap (λ i, match i with Reasoning r => nonempty_str (reasoning_item_text r) | _ => None end) its.

Definition pending_after (pending : list str) its : list str :=
  fold_left (λ p i, if transparent i then p ++ reasoning_texts [i] else []) its pending.


(** An item's message, with the reasoning of the run before it if it is the
    assistant's. *)
Definition message_with (pending : list str) (i : ConversationItem) : option ChatRequestMessage :=
  with_reasoning (if is_assistant i then pending else []) <$> conversation_item_to_chat_message i.

Lemma with_no_reasoning m : with_reasoning [] m = m.
Proof. done. Qed.

Lemma chat_loop_step pending i its :
  is_reasoning i = false →
  chat_messages_loop pending (i :: its) =
  (m ← message_with pending i; out ← chat_messages_loop (pending_after pending [i]) its;
   Some (m :: out)).
Proof.
  unfold message_with, pending_after.
  destruct i; intros Hi; try discriminate Hi; simpl; try done.
  - by destruct (text_summary _); simpl; rewrite ?app_nil_r.
Qed.

Lemma chat_loop_reasoning pending r its :
  chat_messages_loop pending (Reasoning r :: its) =
  chat_messages_loop (pending_after pending [Reasoning r]) its.
Proof.
  unfold pending_after. simpl. unfold nonempty_str.
  case_match; simpl; by rewrite ?app_nil_r.
Qed.




Lemma chat_loop_prefix pending its more ms ms' :
  chat_messages_loop pending its = Some ms →
  chat_messages_loop pending (its ++ more) = Some ms' → ms `prefix_of` ms'.
Proof.
  revert pending ms ms'. induction its as [|i its IH]; intros pending ms ms' E E'.
  { simplify_eq/=. apply prefix_nil. }
  simpl app in E'. destruct (is_reasoning i) eqn:Hi.
  - destruct i; try discriminate Hi. rewrite chat_loop_reasoning in E, E'. by eapply IH.
  - rewrite chat_loop_step in E, E' by done.
    destruct (message_with pending i) as [m|]; [|done]. simpl in E, E'.
    apply bind_Some in E as (o & Eo & [= <-]). apply bind_Some in E' as (o' & Eo' & [= <-]).
    apply prefix_cons. by eapply IH.
Qed.




(** ** Messages *)

Lemma emit_paired its ms :
  emit [] [] its = Some ms → calls_answered its → results_owned its →
  uses_answered ms ∧ results_follow ms.
Proof.
  intros E Hc Ho. split.
  - eapply emit_answered; [exact Hc|exact E|by left|done|]. intros id Hid.
    by apply elem_of_nil in Hid.
  - apply results_owned_iff in Ho. apply following_results_follow.
    eapply emit_following; [exact Ho|exact E|by left|done| |set_solver].
    intros id Hid. by apply elem_of_nil in Hid.
Qed.

(** C9: in the Messages request of a conversation whose calls are all
    answered in the run of results after them and whose results all answer a
    call of the assistant item before their run, as [repair_history] leaves
    it, every [tool_use] block is answered by a [tool_result] block of the next
    message, a user message, and every [tool_result] block answers a
    [tool_use] block of the assistant message right before it: whatever the
    merging of assistant items, reasoning and backend calls into one message,
    and under the ids as they are sent. *)
Theorem messages_request_paired req m :
  build_messages_request req = Some m →
  calls_answered (items req) → results_owned (items req) →
  uses_answered (mq_messages m) ∧ results_follow (mq_messages m).
Proof. intros E%request_emit. by apply emit_paired. Qed.

(** Whatever the history, the Messages request of its repair is paired. *)
Theorem repaired_request_paired conv req m :
  items req = (repair_history conv).1 → build_messages_request req = Some m →
  uses_answered (mq_messages m) ∧ results_follow (mq_messages m).
Proof.
  intros Hi E%request_emit. rewrite Hi, repair_history_ref in E.
  destruct (repaired_invariants conv) as (Hc & Ho & _). by eapply emit_paired.
Qed.

(** C23: the requests of a conversation that has grown extend those of the
    conversation before, so that the backend's prompt cache hits: the chat
    messages and the Responses input are prefixes, and the messages of the
    Messages API but for the last, which keeps its role and only takes in
    more blocks. *)
Theorem requests_extend req req' more :
  items req' = items req ++ more →
  build_responses_input req `prefix_of` build_responses_input req' ∧
  (∀ ms ms', conversation_to_chat_messages (items req) = Some ms →
    conversation_to_chat_messages (items req') = Some ms' → ms `prefix_of` ms') ∧
  (∀ m m', build_messages_request req = Some m → build_messages_request req' = Some m' →
    extends (mq_messages m) (mq_messages m')).
Proof.
  intros E. unfold build_responses_input, conversation_to_chat_messages. rewrite E. split_and!.
  - rewrite flat_map_app. by eexists.
  - intros ms ms'. apply chat_loop_prefix.
  - intros m m' Em%request_emit Em'%request_emit. rewrite E in Em'.
    eapply emit_extends; [|exact Em|exact Em']. by left.
Qed.

(** ** Back and forth *)

Lemma sanitize_tool_arguments_idem `{!LawfulWireApi} s :
  sanitize_tool_arguments (sanitize_tool_arguments s) = sanitize_tool_arguments s.
Proof.
  unfold sanitize_tool_arguments. destruct (json_is_valid s) eqn:E; [by rewrite E|].
  change EMPTY_OBJECT with (lit "{}"). by rewrite empty_object_valid.
Qed.

Lemma unchat_blocks ps : map unchat_part (map chat_block ps) = ps.
Proof. induction ps as [|[t|u] ps IH]; simpl; by rewrite ?IH. Qed.

Lemma join_single (s : str) : join [NL] [s] = s.
Proof. done. Qed.

(** A chat message read back as an item is sent again as the same
    message, whatever the item it was made of (a backend call comes back as
    the assistant item with its summary, several text parts as one, and
    arguments that are not JSON as the empty object): only the images of a
    tool result are lost on the way. *)
Theorem chat_message_round_trip `{!LawfulWireApi} i m :
  conversation_item_to_chat_message i = Some m →
  (∀ t, i = ToolResult t → tr_images t = []) →
  conversation_item_to_chat_message (item_of_chat_request m) = Some m.
Proof.
  intros E Hi. destruct i as [s|u|a|t|b|r]; simpl in E; simplify_eq.
  - done.
  - unfold item_of_chat_request. simpl. destruct (existsb is_image (u_content u)) eqn:Hx; simpl.
    + by rewrite unchat_blocks, Hx.
    + done.
  - unfold item_of_chat_request, chat_text_content. simpl. do 2 f_equal.
    rewrite !map_map. apply map_ext. intros tc. unfold tool_call_request, unchat_call. simpl.
    by rewrite sanitize_tool_arguments_idem.
  - by rewrite (Hi t eq_refl).
  - by apply fmap_Some in E as (t & _ & ->).
Qed.

(** *** The input of the next request after a response *)

Definition native_input (o : OutputItem) : option InputItem :=
  match o with
  | OutReasoning r => Some (ItemReasoning (ri_without_status r))
  | OutWebSearchCall ws => Some (ItemWebSearchCall ws)
  | OutCustomToolCall ct => Some (ItemCustomToolCall ct)
  | OutCodeInterpreterCall ci => Some (ItemCodeInterpreterCall ci)
  | OutMessage _ | OutFunctionCall _ _ _ | OutMcpCall | OutOther => None
  end.

Definition call_input (o : OutputItem) : option InputItem :=
  match o with
  | OutFunctionCall call_id name arguments =>
      Some (ItemFunctionCall call_id name (sanitize_tool_arguments arguments))
  | _ => None
  end.

Definition message_parts (o : OutputItem) : list OutputMessageContent :=
  match o with OutMessage parts => parts | _ => [] end.

(** The text of a response: its parts, a newline before each but the first. *)
Definition output_text (os : list OutputItem) : str :=
  fold_left push_content_part (flat_map message_parts os) [].

Lemma output_steps os its content calls :
  let '(its', content', calls') := fold_left output_step os (its, content, calls) in
  flat_map conversation_item_to_input_items its' =
    flat_map conversation_item_to_input_items its ++ omap native_input os ∧
  content' = fold_left push_content_part (flat_map message_parts os) content ∧
  map function_call_item calls' = map function_call_item calls ++ omap call_input os.
Proof.
  revert its content calls. induction os as [|o os IH]; intros its content calls.
  { simpl. by rewrite !app_nil_r. }
  cbn [fold_left]. destruct o; simpl;
    match goal with |- context [fold_left output_step os (?i, ?c, ?l)] =>
      specialize (IH i c l); destruct (fold_left output_step os (i, c, l)) as [[its' ct'] cs']
    end; destruct IH as (-> & -> & ->);
    rewrite ?flat_map_app, ?map_app, ?fold_left_app; simpl; by rewrite <- ?app_assoc.
Qed.

(** Sent back on the Responses API, the items of a response are its
    reasoning and backend calls, each whole and in their order, then its
    text as one assistant message, unless there is none, and then its
    function calls, in their order and with arguments that are JSON. *)
Theorem response_sent_back r :
  flat_map conversation_item_to_input_items (response_to_conversation_items r) =
  omap native_input (rr_output r) ++
  (if is_empty (output_text (rr_output r)) then []
   else [EasyMessage RoleAssistant (EasyText (output_text (rr_output r)))]) ++
  omap call_input (rr_output r).
Proof.
  unfold response_to_conversation_items.
  pose proof (output_steps (rr_output r) [] [] []) as Hs.
  destruct (fold_left output_step (rr_output r) ([], [], [])) as [[its content] calls].
  destruct Hs as (Hi & -> & Hc). rewrite flat_map_app, Hi. simpl in *.
  rewrite Hc, app_nil_r. done.
Qed.

(** ** Tools *)

Lemma collides_spec hosted t : collides hosted t = true ↔ ts_name t ∈ map wire_name hosted.
Proof.
  unfold collides. rewrite existsb_exists, list_elem_of_In, in_map_iff. split.
  - intros (h & Hh & E%str_eqb_eq). eauto.
  - intros (h & E & Hh). exists h. by rewrite str_eqb_eq.
Qed.

Lemma raw_tool_names `{!LawfulWireApi} t : raw_tool_name (json_typed t) = t.
Proof. unfold raw_tool_name. by rewrite type_of_typed. Qed.

Lemma hosted_names `{!LawfulWireApi} hosted :
  map responses_tool_name (omap native_tool hosted) ++
    map raw_tool_name (extra_raw_tools hosted) ≡ₚ map wire_name hosted.
Proof.
  induction hosted as [|[d|] hosted IH]; [done| |]; simpl in *.
  - by apply perm_skip.
  - rewrite raw_tool_names, <- Permutation_middle. by apply perm_skip.
Qed.

Definition function_names (req : ConversationRequest) : list str :=
  map ts_name (List.filter (λ t, negb (collides (hosted_tools req) t)) (tools req)).

Lemma function_names_spec req n :
  n ∈ function_names req ↔ n ∈ map ts_name (tools req) ∧ n ∉ map wire_name (hosted_tools req).
Proof.
  unfold function_names. rewrite (list_elem_of_In (map _ (List.filter _ _))).
  rewrite (list_elem_of_In (map _ (tools req))), !in_map_iff. setoid_rewrite filter_In.
  split.
  - intros (t & <- & Ht & Hc). split; [by eauto|]. rewrite <- collides_spec.
    by destruct (collides _ t).
  - intros [(t & <- & Ht) Hn]. exists t. split_and!; [done|done|].
    rewrite <- collides_spec in Hn. by destruct (collides _ t).
Qed.

Lemma function_names_filter req :
  function_names req =
  filter (λ n, n ∉ map wire_name (hosted_tools req)) (map ts_name (tools req)).
Proof.
  unfold function_names. induction (tools req) as [|t ts IH]; [done|]. simpl.
  rewrite filter_cons. pose proof (collides_spec (hosted_tools req) t) as Hc.
  destruct (collides _ t), (decide _) as [Hn|Hn]; simpl; [tauto|done|by rewrite IH|].
  destruct Hn. by intros Hn%Hc.
Qed.

Lemma streamed_names df req :
  body_tool_names (wr_body (conversation_stream_responses df req)) =
  function_names req ++ map responses_tool_name (omap native_tool (hosted_tools req)) ++
  map raw_tool_name (extra_raw_tools (hosted_tools req)).
Proof.
  simpl. change (build_responses_tools (apply_conversation_defaults df req))
    with (build_responses_tools req).
  assert (map responses_tool_name (build_responses_tools req) =
    function_names req ++ map responses_tool_name (omap native_tool (hosted_tools req))) as E.
  { unfold build_responses_tools, function_names. by rewrite map_app, map_map. }
  rewrite app_assoc, <- E. by destruct (build_responses_tools req).
Qed.

(** C30: the tools of a streamed Responses request are, by name and with
    multiplicity, the function tools whose name no hosted tool has, and the
    hosted tools, [x_search] included, which is only added to the body as JSON:
    of a function and a hosted tool of one name the hosted one is kept.  The
    source does not look for duplicates within either list; given function
    tools of distinct names and hosted tools of distinct names, no name is
    offered twice, which the backend would refuse. *)
Theorem streamed_tools_distinct `{!LawfulWireApi} df req :
  let hosted := map wire_name (hosted_tools req) in
  let names := body_tool_names (wr_body (conversation_stream_responses df req)) in
  names ≡ₚ filter (λ n, n ∉ hosted) (map ts_name (tools req)) ++ hosted ∧
  (NoDup (map ts_name (tools req)) → NoDup hosted → NoDup names).
Proof.
  cbv zeta. rewrite streamed_names, hosted_names, function_names_filter.
  split; [done|]. intros Ht Hh. apply NoDup_app. split_and!; [|by intros n [Hn _]%list_elem_of_filter|done].
  by apply NoDup_filter.
Qed.

(** ** What the conversions lose *)

(** Not streamed, the hosted [x_search] is not sent, and neither is a function
    tool of that name, which was dropped in its favour. *)
Theorem unstreamed_loses_x_search df req :
  HostedXSearch ∈ hosted_tools req →
  lit "x_search" ∉ body_tool_names (wr_body (conversation_responses df req)).
Proof.
  intros Hx. simpl. rewrite app_nil_r.
  change (build_responses_tools (apply_conversation_defaults df req))
    with (build_responses_tools req).
  assert (lit "x_search" ∉ map responses_tool_name (build_responses_tools req)) as Hn.
  { unfold build_responses_tools. rewrite map_app, map_map, elem_of_app.
    intros [Hf|Hn].
    - apply (function_names_spec req (lit "x_search")) in Hf as [_ Hf]. apply Hf.
      rewrite list_elem_of_In. apply (in_map wire_name _ HostedXSearch). by apply list_elem_of_In.
    - revert Hn. clear. induction (hosted_tools req) as [|[d|] hosted IH]; simpl; [|intros Hn|done].
      + intros Hn. by apply elem_of_nil in Hn.
      + apply elem_of_cons in Hn as [Hn|Hn]; [by apply IH|by apply IH]. }
  destruct (build_responses_tools req); [|done]. simpl. intros Hn'. by apply elem_of_nil in Hn'.
Qed.

(** Distinct calls of one message may be sent under one id. *)
Theorem sanitized_ids_collide `{!LawfulWireApi} :
  lit "a.b" ≠ lit "a_b" ∧ sanitize_tool_call_id (lit "a.b") = sanitize_tool_call_id (lit "a_b").
Proof.
  split; [by vm_compute|]. unfold sanitize_tool_call_id. simpl.
  rewrite !ascii_alphanumeric by (vm_compute; split; congruence). by vm_compute.
Qed.

(** No tool choice asks the Messages API for no tool. *)
Theorem none_choice_is_auto req m :
  tool_choice req = Some ChoiceNone → build_messages_request req = Some m →
  mq_tool_choice m = Some ParamAuto.
Proof.
  unfold build_messages_request. intros Hc. destruct (build_items _ _); [|done]. intros [= <-].
  simpl. by rewrite Hc.
Qed.

(** The system prompt is never sent in the short form. *)
Theorem system_is_never_text blocks t : system_param blocks ≠ Some (SystemText t).
Proof.
  unfold system_param. destruct blocks as [|b [|b' blocks]]; [done|done|].
  cbn [mark_last]. by destruct blocks.
Qed.

Lemma wrapper_header_names r model_id :
  map fst (wrapper_headers r model_id) =
  map lit (["x-grok-conv-id"; "x-grok-req-id"; "x-grok-model-override"; "x-grok-session-id";
            "x-grok-agent-id"] ++ if x_grok_turn_idx r then ["x-grok-turn-idx"] else []).
Proof.
  unfold wrapper_headers, grok_headers. cbn [gh_turn_idx gh_deployment_id gh_user_id].
  by destruct (x_grok_turn_idx r).
Qed.

(** The deployment and the user of a request only reach Chat Completions. *)
Theorem deployment_and_user_not_sent df req name :
  name = lit "x-grok-deployment-id" ∨ name = lit "x-grok-user-id" →
  name ∉ map fst (wr_headers (conversation_stream_responses df req)) ∧
  ∀ w, conversation_stream_messages df req = Some w → name ∉ map fst (wr_headers w).
Proof.
  intros Hn.
  assert (∀ r model_id, name ∉ map fst (wrapper_headers r model_id)) as Hw.
  { intros r model_id. rewrite wrapper_header_names. rewrite <- one_of_In.
    destruct Hn as [-> | ->]; by destruct (x_grok_turn_idx r); vm_compute. }
  split; [apply Hw|]. intros w. unfold conversation_stream_messages.
  destruct (build_messages_request _); [|done]. intros [= <-]. apply Hw.
Qed.

End Theorems.

(** Every failure without a status, also one that must not be retried, is
    collected as a retryable one. *)
Theorem collected_failure_is_retryable {SA : SamplerApi} (e : SamplingError) :
  in_status_code (info_of e) = None → is_retryable (collect_error (info_of e)) = true.
Proof. unfold collect_error. by intros ->. Qed.

(** ** Examples

    JSON text is valid when it is [{}]; the ASCII alphanumerics are all there
    are. *)

#[global] Instance demo_wire : WireApi := {
  char_is_alphanumeric := is_ascii_alphanumeric;
  json_is_valid s := str_eqb s (lit "{}");
  json_from_str s := if str_eqb s (lit "{}") then Some s else None;
  json_empty_object := lit "{}";
  json_typed t := t;
  json_type v := Some v;
  ri_without_status r := r;
  ri_map_text f r := (map f r.1.1, map f <$> r.1.2, r.2);
  mk_reasoning_id _ s e := (s, None, e);
  ci_id _ := [];
}.

#[global] Instance demo_wire_lawful : LawfulWireApi.
Proof. by split. Qed.

Definition demo_reasoning (text : string) : ConversationItem := Reasoning ([lit text], None, None).

Definition demo_search : ConversationItem :=
  BackendToolCall {| bt_kind := WebSearch (ActionSearch (lit "rocq")) |}.

(** Two calls in one turn, the second with reasoning and a backend call before
    it. *)
Definition demo_turn : list ConversationItem :=
  [item_system (lit "sys"); item_user (lit "q"); demo_calls ["a.1"]; demo_result "a.1" "1";
   demo_reasoning "hm"; demo_search; demo_calls ["b"; "c"]; demo_result "c" "3";
   demo_result "b" "2"; demo_assistant "done"].

Definition demo_wire_request (its : list ConversationItem) : ConversationRequest :=
  {| items := its;
     tools := [{| ts_name := lit "bash"; ts_description := None; ts_parameters := lit "{}" |};
               {| ts_name := lit "x_search"; ts_description := None; ts_parameters := lit "{}" |}];
     hosted_tools := [HostedWebSearch None; HostedXSearch]; tool_choice := None;
     request_model := None; request_temperature := None; max_output_tokens := None;
     request_top_p := None; x_grok_conv_id := None; x_grok_req_id := None;
     x_grok_session_id := None; x_grok_turn_idx := None; x_grok_agent_id := None;
     x_grok_deployment_id := None; x_grok_user_id := None; trace := None;
     request_reasoning_effort := None; json_schema := None |}.

Definition demo_defaults : ClientDefaults :=
  {| df_model := lit "m"; df_max_completion_tokens := None; df_temperature := None;
     df_top_p := None; df_stream_tool_calls := false |}.

(** The ids of each message: the answer to [a.1], and the one message the
    reasoning, the search and the two calls share. *)
Example demo_messages :
  (λ m, map (λ g, (use_ids (mg_content g), result_ids (mg_content g))) (mq_messages m))
    <$> build_messages_request (demo_wire_request demo_turn) =
  Some [([], []); ([lit "a_1"], []); ([], [lit "a_1"]); ([lit "b"; lit "c"], []);
        ([], [lit "c"; lit "b"]); ([], [])].
Proof. by vm_compute. Qed.

Lemma demo_turn_answered : calls_answered demo_turn.
Proof. apply has_dangling_false. by vm_compute. Qed.

Lemma demo_turn_owned : results_owned demo_turn.
Proof.
  apply results_owned_iff. simpl. repeat split; apply (bool_decide_unpack _); by vm_compute.
Qed.

Definition demo_messages_request : MessagesRequest :=
  {| mq_model := [];
     mq_messages := default [] (emit [] [] demo_turn); mq_max_tokens := 0;
     mq_system := system_param [{| tb_type := lit "text"; tb_text := lit "sys";
                                   tb_cache_control := None |}];
     mq_tools := Some (map tool_param (tools (demo_wire_request [])));
     mq_tool_choice := None; mq_temperature := None; mq_top_p := None; mq_stream := None;
     mq_thinking := None; mq_output_config := None |}.

Lemma demo_request_built :
  build_messages_request (demo_wire_request demo_turn) = Some demo_messages_request.
Proof. by vm_compute. Qed.

Lemma messages_request_paired_witness :
  uses_answered (mq_messages demo_messages_request) ∧
  results_follow (mq_messages demo_messages_request).
Proof.
  exact (messages_request_paired (demo_wire_request demo_turn) demo_messages_request
           demo_request_built demo_turn_answered demo_turn_owned).
Defined.

Lemma requests_extend_witness :
  build_responses_input (demo_wire_request (take 7 demo_turn)) `prefix_of`
    build_responses_input (demo_wire_request demo_turn) ∧
  (∀ ms ms', conversation_to_chat_messages (take 7 demo_turn) = Some ms →
    conversation_to_chat_messages demo_turn = Some ms' → ms `prefix_of` ms') ∧
  (∀ m m', build_messages_request (demo_wire_request (take 7 demo_turn)) = Some m →
    build_messages_request (demo_wire_request demo_turn) = Some m' →
    extends (mq_messages m) (mq_messages m')).
Proof.
  apply (requests_extend (demo_wire_request (take 7 demo_turn)) (demo_wire_request demo_turn)
           (drop 7 demo_turn)). vm_compute. reflexivity.
Defined.

Lemma chat_message_round_trip_witness :
  (conversation_item_to_chat_message demo_search ≫= λ m,
    conversation_item_to_chat_message (item_of_chat_request m)) =
  conversation_item_to_chat_message demo_search.
Proof.
  destruct (conversation_item_to_chat_message demo_search) as [m|] eqn:E; [|reflexivity].
  simpl. apply (chat_message_round_trip demo_search m E). intros t. discriminate.
Defined.

Lemma streamed_tools_distinct_witness :
  let req := demo_wire_request demo_turn in
  let names := body_tool_names (wr_body (conversation_stream_responses demo_defaults req)) in
  names ≡ₚ filter (λ n, n ∉ map wire_name (hosted_tools req)) (map ts_name (tools req)) ++
    map wire_name (hosted_tools req) ∧
  NoDup names.
Proof.
  destruct (streamed_tools_distinct demo_defaults (demo_wire_request demo_turn)) as [Hp Hd].
  split; [exact Hp|].
  apply Hd; apply (bool_decide_unpack _); vm_compute; exact I.
Defined.

Example demo_tools :
  body_tool_names
    (wr_body (conversation_stream_responses demo_defaults (demo_wire_request demo_turn))) =
  map lit ["bash"; "web_search"; "x_search"].
Proof. by vm_compute. Qed.
