(* ===== verification/ChatHistory.v ===== *)
(** * The chat history on disk

    [xai-grok-shell/src/session/storage/jsonl/mod.rs]: a session's messages
    are appended to [chat_history.jsonl], a line of JSON each; the loader skips
    the lines it cannot read, brings rows of older formats up to date
    ([upgrade_legacy_reasoning] of [conversation.rs]) and drops images the API
    would refuse; a fork copies the loaded history, cut at a prompt or at the
    last complete turn, with its paths rewritten.  And [storage/mod.rs], the
    cut of the session's updates.

    An append takes the file's lock, so appends to a file are a sequence; one
    that is killed or fails half-way leaves a prefix of its bytes. *)
From S2P Require Import Prelude RustStr StrSearch F64 TokenEstimation Conversation Concrete Truncation.
From S2P Require Import ToolPairing SamplerStream SamplerTheorems ImageCheck Wire WireTheorems.

(** JSON by [serde_json], the [Serialize] and [Deserialize] of the derived
    types, [base64]. *)
Class HistoryApi {RS : RsApi} : Type := {
  json_from_slice : bytes → option JsonValue;
  json_get : string → JsonValue → option JsonValue;
  json_as_str : JsonValue → option str;
  json_is_object : JsonValue → bool;
  json_as_array : JsonValue → option (list JsonValue);
  item_to_vec : ConversationItem → option bytes;
  item_value : ConversationItem → JsonValue;
  item_from_value : JsonValue → option ConversationItem;
  chat_from_value : JsonValue → option ChatRequestMessage;
  output_item_from_value : JsonValue → option OutputItem;
  base64_decode : str → option bytes;
}.

Definition is_ascii_space (b : Z) : bool :=
  (b =? 32)%Z || (b =? 9)%Z || (b =? 10)%Z || (b =? 12)%Z || (b =? 13)%Z.

(** [<[u8]>::trim_ascii] *)
Definition trim_ascii (bs : bytes) : bytes :=
  trim_end_matches is_ascii_space (trim_start_matches is_ascii_space bs).

(** [serde_helpers::empty_string_as_none] *)
Definition empty_string_as_none (o : option str) : option str :=
  match o with Some [] => None | _ => o end.

(** An item as it is read back: of the [serde] attributes of its fields, only the
    [deserialize_with] of [model_fingerprint] gives another value than was
    written. *)
Definition reload_item {RS : RsApi} (i : ConversationItem) : ConversationItem :=
  match i with
  | Assistant a =>
      Assistant {| a_content := a_content a; a_tool_calls := a_tool_calls a;
                   a_model_id := a_model_id a;
                   a_model_fingerprint := empty_string_as_none (a_model_fingerprint a);
                   a_reasoning_effort := a_reasoning_effort a |}
  | _ => i
  end.

(** What is documented of them: the text of a row is an object without
    newlines or blanks around it, it parses to the row's value and no cut of
    it parses; a value of a row is read back as the item, but for an empty
    fingerprint, and has none of the fields of the older formats. *)
Class LawfulHistoryApi `{HistoryApi} : Prop := {
  row_no_newline i v : item_to_vec i = Some v → NL ∉ v;
  row_trimmed i v : item_to_vec i = Some v → trim_ascii v = v;
  row_not_empty i v : item_to_vec i = Some v → v ≠ [];
  row_parses i v : item_to_vec i = Some v → json_from_slice v = Some (item_value i);
  row_cut i v k :
    item_to_vec i = Some v → (k < length v)%nat → json_from_slice (trim_ascii (take k v)) = None;
  row_item i v : item_to_vec i = Some v → item_from_value (item_value i) = Some (reload_item i);
  row_no_raw_output i : json_get "raw_output" (item_value i) = None;
  row_no_reasoning i : json_get "reasoning" (item_value i) = None;
  row_no_reasoning_content i : json_get "reasoning_content" (item_value i) = None;
}.

Section History.
Context {RS : RsApi} {SM : StreamApi} {WA : WireApi} {HA : HistoryApi} {IA : ImageApi}.
Implicit Types (its conv : list ConversationItem) (contents : bytes) (raw : JsonValue).

(** ** Appending *)

(** [append_jsonl_line_sync_with]: the bytes written at the end of the file;
    [line] ends with a newline. *)
Definition heal contents (line : bytes) : bytes :=
  match last contents with
  | Some b => if (b =? NL)%Z then line else NL :: line
  | None => line
  end.

(** [append_chat_message]; [Torn] writes the first [k] bytes only, and an item
    that cannot be serialized is not written. *)
Inductive AppendOp : Type :=
| Append (i : ConversationItem)
| Torn (i : ConversationItem) (k : nat).

Definition op_item (op : AppendOp) : ConversationItem :=
  match op with Append i | Torn i _ => i end.

Definition op_written contents (op : AppendOp) : bytes :=
  match item_to_vec (op_item op) with
  | None => []
  | Some row =>
      let buffer := heal contents (row ++ [NL]) in
      match op with Append _ => buffer | Torn _ k => take k buffer end
  end.

Definition append_step contents (op : AppendOp) : bytes := contents ++ op_written contents op.

Definition append_all contents (ops : list AppendOp) : bytes := fold_left append_step ops contents.

(** [write_jsonl]: the contents the target is replaced with; it is kept if an
    item cannot be serialized. *)
Fixpoint write_jsonl its : option bytes :=
  match its with
  | [] => Some []
  | i :: its' =>
      row ← item_to_vec i;
      content ← write_jsonl its';
      Some (row ++ [NL] ++ content)
  end.

(** ** Rows of older formats *)

Definition bt_id (b : BackendToolCallItem) : str :=
  match bt_kind b with
  | WebSearch ws => ws_id ws
  | XSearch ct => ct_id ct
  | CodeInterpreter ci => ci_id ci
  end.

Definition nonempty_opt (o : option str) : option str := o ≫= nonempty_str.

Definition build_synthetic_reasoning (id : str) (text encrypted : option str)
  : option ReasoningItem :=
  match nonempty_opt text, nonempty_opt encrypted with
  | None, None => None
  | text, encrypted =>
      Some (mk_reasoning_id id match text with Some t => [t] | None => [] end encrypted)
  end.

(** The backend call an output item is, if it is one *)
Definition output_backend_call (o : OutputItem) : option BackendToolCallItem :=
  match o with
  | OutWebSearchCall ws => Some {| bt_kind := WebSearch ws |}
  | OutCustomToolCall ct => Some {| bt_kind := XSearch ct |}
  | OutCodeInterpreterCall ci => Some {| bt_kind := CodeInterpreter ci |}
  | _ => None
  end.

(** An entry of [raw_output] *)
Definition raw_entry (acc : list ConversationItem * gset str) (entry : JsonValue)
  : list ConversationItem * gset str :=
  let '(siblings, seen) := acc in
  match output_item_from_value entry with
  | None => acc
  | Some (OutReasoning r) => (siblings ++ [Reasoning r], seen)
  | Some o =>
      match output_backend_call o with
      | None => acc
      | Some b =>
          if decide (bt_id b ∈ seen) then acc
          else (siblings ++ [BackendToolCall b], {[bt_id b]} ∪ seen)
      end
  end.

Definition json_str (key : string) raw : option str := json_get key raw ≫= json_as_str.

Definition as_object raw : option JsonValue := if json_is_object raw then Some raw else None.

Definition reasoning_siblings (r : option ReasoningItem) : list ConversationItem :=
  match r with Some r => [Reasoning r] | None => [] end.

Definition upgrade_legacy_reasoning raw (seen : gset str) : list ConversationItem * gset str :=
  let is_v1_assistant := bool_decide (json_str "type" raw = Some (lit "assistant")) in
  let is_v0_assistant := bool_decide (json_str "role" raw = Some (lit "assistant")) in
  if negb (json_is_object raw) then ([], seen)
  else if negb is_v1_assistant && negb is_v0_assistant then ([], seen)
  else
    match json_get "raw_output" raw ≫= json_as_array with
    | Some raw_output => fold_left raw_entry raw_output ([], seen)
    | None =>
        match (if is_v1_assistant then json_get "reasoning" raw ≫= as_object else None) with
        | Some reasoning =>
            (reasoning_siblings
               (build_synthetic_reasoning (default [] (json_str "id" reasoning))
                  (json_str "text" reasoning) (json_str "encrypted" reasoning)), seen)
        | None =>
            (if is_v0_assistant then
               reasoning_siblings
                 (nonempty_opt (json_str "reasoning_content" raw) ≫= λ rc,
                  build_synthetic_reasoning [] (Some rc) None)
             else [], seen)
        end
    end.

(** ** Loading *)

Definition CHAT_FORMAT_VERSION : Z := 1.

Definition decode_row (chat_format_version : Z) raw : option ConversationItem :=
  let chat := item_of_chat_request <$> chat_from_value raw in
  if (CHAT_FORMAT_VERSION <=? chat_format_version)%Z
  then or_else (item_from_value raw) chat
  else or_else chat (item_from_value raw).

Record LoadState := {
  ld_items : list ConversationItem;
  ld_seen : gset str;
  ld_skipped : Z;
}.

Definition skip_line (st : LoadState) : LoadState :=
  {| ld_items := ld_items st; ld_seen := ld_seen st; ld_skipped := ld_skipped st + 1 |}.

Definition load_line (chat_format_version : Z) (st : LoadState) (line : bytes) : LoadState :=
  let line := trim_ascii line in
  if is_empty line then st
  else
    match json_from_slice line with
    | None => skip_line st
    | Some raw =>
        match decode_row chat_format_version raw with
        | None => skip_line st
        | Some item =>
            let '(siblings, seen) := upgrade_legacy_reasoning raw (ld_seen st) in
            {| ld_items := ld_items st ++ siblings ++ [item];
               ld_seen := match item with BackendToolCall b => {[bt_id b]} ∪ seen | _ => seen end;
               ld_skipped := ld_skipped st |}
        end
    end.

(** *** [strip_invalid_images] *)

Definition MAX_LOADED_IMAGE_BYTES : Z := 20 * 1024 * 1024.

Fixpoint windows (n : nat) (s : str) : list str :=
  match s with
  | [] => []
  | _ :: s' => (if (n <=? length s)%nat then [take n s] else []) ++ windows n s'
  end.

Definition is_valid_data_uri_image (url : str) : bool :=
  match strip_prefix (lit "data:") url with
  | None => false
  | Some after_data =>
      match split_once COMMA after_data with
      | None => false
      | Some (header, payload) =>
          existsb (eq_ignore_ascii_case (lit ";base64")) (windows 7 header) &&
          (str_len payload * 3 / 4 <=? MAX_LOADED_IMAGE_BYTES)%Z &&
          match base64_decode payload with
          | None => false
          | Some bs => negb (is_some (persisted_image_reject_reason bs))
          end
      end
  end.

Definition invalid_image (p : ContentPart) : bool :=
  match p with
  | Image url => starts_with url (lit "data:") && negb (is_valid_data_uri_image url)
  | Text _ => false
  end.

Definition REMOVED_IMAGE : str := lit "[image removed " ++ [8212%Z] ++ lit " invalid data]".

Definition strip_item_images (i : ConversationItem) : ConversationItem :=
  match i with
  | User u =>
      User {| u_content :=
                map (λ p, if invalid_image p then Text REMOVED_IMAGE else p) (u_content u);
              u_synthetic_reason := u_synthetic_reason u;
              u_prior_turn_interrupt := u_prior_turn_interrupt u;
              u_prompt_index := u_prompt_index u |}
  | ToolResult t =>
      ToolResult {| tr_tool_call_id := tr_tool_call_id t; tr_content := tr_content t;
                    tr_images := List.filter (λ p, negb (invalid_image p)) (tr_images t) |}
  | _ => i
  end.

Definition invalid_count (ps : list ContentPart) : nat := length (List.filter invalid_image ps).

(** The items and the number of images stripped. *)
Definition strip_invalid_images its : list ConversationItem * nat :=
  (map strip_item_images its,
   sum_list (map (λ i, match i with
                       | User u => invalid_count (u_content u)
                       | ToolResult t => invalid_count (tr_images t)
                       | _ => 0%nat
                       end) its)).

(** The items loaded, and whether the file is put aside as [.corrupt]. *)
Definition read_chat_history_sync (contents : option bytes) (chat_format_version : Z)
  : list ConversationItem * bool :=
  match contents with
  | None => ([], false)
  | Some contents =>
      let st := fold_left (load_line chat_format_version) (split NL contents)
                  {| ld_items := []; ld_seen := ∅; ld_skipped := 0 |} in
      let '(its, stripped) := strip_invalid_images (ld_items st) in
      (its, (0 <? ld_skipped st)%Z || (0 <? stripped)%nat)
  end.

(** ** Copying a session *)

(** The results, reasoning and backend calls that follow: how many, and the
    ids among [expected] they answer. *)
Fixpoint answer_window (expected : gset str) (rest : list ConversationItem) : nat * gset str :=
  match rest with
  | ToolResult tr :: rest' =>
      let '(n, found) := answer_window expected rest' in
      (S n, if decide (tr_tool_call_id tr ∈ expected) then {[tr_tool_call_id tr]} ∪ found
            else found)
  | (Reasoning _ | BackendToolCall _) :: rest' =>
      let '(n, found) := answer_window expected rest' in (S n, found)
  | _ => (0%nat, ∅)
  end.

Definition not_synthetic (i : ConversationItem) : bool :=
  match i with User u => negb (is_some (u_synthetic_reason u)) | _ => true end.

(** The loop, from [i] on; it goes one item further each turn. *)
Fixpoint fork_scan (fuel : nat) its (i last_complete_end : nat) : nat :=
  match fuel with
  | O => last_complete_end
  | S fuel' =>
      match its !! i with
      | None => last_complete_end
      | Some (System _) => fork_scan fuel' its (S i) (S i)
      | Some (Assistant asst) =>
          let expected : gset str := list_to_set (map tc_id (a_tool_calls asst)) in
          let '(n, found) := answer_window expected (drop (S i) its) in
          if decide (found = expected) then fork_scan fuel' its (S i + n) (S i + n)
          else last_complete_end
      | Some _ => fork_scan fuel' its (S i) last_complete_end
      end
  end.

Definition fork_filter_chat its : list ConversationItem :=
  let its := List.filter not_synthetic its in
  take (fork_scan (S (length its)) its 0 0) its.

(** [transform_conversation_cwd]; [source_cwd] is not empty, and a text that
    does not hold it is its own replacement. *)
Definition transform_item_cwd (source_cwd target_cwd : str) (i : ConversationItem)
  : ConversationItem :=
  let sub := replace source_cwd target_cwd in
  match i with
  | System s => System {| sys_content := sub (sys_content s) |}
  | User u =>
      User {| u_content := map (λ p, match p with Text t => Text (sub t) | Image _ => p end)
                             (u_content u);
              u_synthetic_reason := u_synthetic_reason u;
              u_prior_turn_interrupt := u_prior_turn_interrupt u;
              u_prompt_index := u_prompt_index u |}
  | Assistant a =>
      Assistant {| a_content := sub (a_content a);
                   a_tool_calls := map (λ tc, {| tc_id := tc_id tc; tc_name := tc_name tc;
                                                 tc_arguments := sub (tc_arguments tc) |})
                                     (a_tool_calls a);
                   a_model_id := a_model_id a; a_model_fingerprint := a_model_fingerprint a;
                   a_reasoning_effort := a_reasoning_effort a |}
  | ToolResult t => ToolResult (set_tr_content t (sub (tr_content t)))
  | BackendToolCall _ => i
  | Reasoning r => Reasoning (ri_map_text sub r)
  end.

Definition transform_conversation_cwd its (source_cwd target_cwd : str) : list ConversationItem :=
  map (transform_item_cwd source_cwd target_cwd) its.

Definition strip_reasoning_blocks conv : list ConversationItem :=
  List.filter (λ i, negb (is_reasoning i)) conv.

Record CopySessionOptions := {
  opt_target_prompt_index : option nat;
  opt_fork_filter : bool;
  opt_skip_cwd_transform : bool;
  opt_strip_reasoning : bool;
}.

(** [copy_session_data_sync]: the history of the copy. *)
Definition copy_chat (o : CopySessionOptions) (source_cwd target_cwd : str) its
  : list ConversationItem :=
  let its :=
    match opt_target_prompt_index o with
    | Some target_idx => take (conversation_truncate_for_prompt its target_idx) its
    | None => its
    end in
  let its := if opt_fork_filter o then fork_filter_chat its else its in
  let its :=
    if negb (opt_skip_cwd_transform o) && negb (str_eqb source_cwd target_cwd)
    then transform_conversation_cwd its source_cwd target_cwd else its in
  if opt_strip_reasoning o then strip_reasoning_blocks its else its.

End History.

(** ** The cut of the updates, [storage/mod.rs]

    An update is a user chunk with its [promptIndex], if it has one, or
    anything else. *)
Inductive Update : Type :=
| UserChunk (prompt_index : option nat)
| OtherUpdate.

Record UserRunTurnTracker := {
  seen_marker : bool;
  in_user : bool;
  current_run_pi : option nat;
}.

Definition tracker_new : UserRunTurnTracker :=
  {| seen_marker := false; in_user := false; current_run_pi := None |}.

Definition on_user_chunk (t : UserRunTurnTracker) (prompt_index : option nat)
  : UserRunTurnTracker * bool :=
  let marker := seen_marker t || is_some prompt_index in
  let counts := if marker then is_some prompt_index else true in
  let new_run :=
    if negb (in_user t) then true
    else if marker || is_some prompt_index then negb (bool_decide (prompt_index = current_run_pi t))
    else false in
  if new_run
  then ({| seen_marker := marker; in_user := true; current_run_pi := prompt_index |}, counts)
  else ({| seen_marker := marker; in_user := true; current_run_pi := current_run_pi t |}, false).

Definition on_non_user (t : UserRunTurnTracker) : UserRunTurnTracker :=
  {| seen_marker := seen_marker t; in_user := false; current_run_pi := None |}.

Fixpoint updates_truncate_loop (t : UserRunTurnTracker) (user_turn_count i target : nat)
    (updates : list Update) : nat :=
  match updates with
  | [] => i
  | UserChunk pi :: updates' =>
      let '(t, opens) := on_user_chunk t pi in
      if opens then
        if (target + 1 <? S user_turn_count)%nat then i
        else updates_truncate_loop t (S user_turn_count) (S i) target updates'
      else updates_truncate_loop t user_turn_count (S i) target updates'
  | OtherUpdate :: updates' =>
      updates_truncate_loop (on_non_user t) user_turn_count (S i) target updates'
  end.

Definition updates_truncate_for_prompt (updates : list Update) (target_prompt_index : nat) : nat :=
  updates_truncate_loop tracker_new 0 0 target_prompt_index updates.

Section Rows.
Context {RS : RsApi} {SM : StreamApi} {WA : WireApi} {HA : HistoryApi} {IA : ImageApi}.
Implicit Types (its conv : list ConversationItem) (contents x : bytes).

(** ** The rows of a file *)

(** The values of the lines that parse. *)
Definition row_values contents : list JsonValue :=
  omap (λ l, json_from_slice (trim_ascii l))
    (List.filter (λ l, negb (is_empty (trim_ascii l))) (split NL contents)).

Lemma split_app_sep c (s s' : list Z) : split c (s ++ c :: s') = split c s ++ split c s'.
Proof.
  induction s as [|y s IH]; cbn [app split]; [by rewrite Z.eqb_refl|].
  destruct (y =? c)%Z; [by rewrite IH|]. rewrite IH.
  pose proof (split_not_nil c s) as Hn. by destruct (split c s).
Qed.

Lemma row_values_sep contents x : row_values (contents ++ NL :: x) = row_values contents ++ row_values x.
Proof. unfold row_values. by rewrite split_app_sep, List.filter_app, omap_app. Qed.

Lemma row_values_nil : row_values [] = [].
Proof. done. Qed.

Lemma row_values_end contents : row_values (contents ++ [NL]) = row_values contents.
Proof. by rewrite row_values_sep, row_values_nil, app_nil_r. Qed.

(** Appended to a file, a buffer is healed: it starts a line of its own. *)
Lemma row_values_heal contents line k :
  (2 ≤ length line)%nat →
  ∃ k', row_values (contents ++ take k (heal contents line)) =
        row_values contents ++ row_values (take k' line) ∧
        (length (heal contents line) ≤ k + 1 ↔ length line ≤ k' + 1)%nat.
Proof.
  intros Hl. unfold heal. destruct contents as [|b contents _] using rev_ind; [by exists k|].
  rewrite last_snoc. destruct (Z.eqb_spec b NL) as [->|Hb].
  - exists k. split; [|done].
    rewrite <- app_assoc. cbn [app]. by rewrite row_values_sep, row_values_end.
  - destruct k as [|k].
    + exists 0%nat. rewrite !take_0, row_values_nil, !app_nil_r. split; [done|]. simpl. lia.
    + exists k. cbn [take]. rewrite row_values_sep. split; [done|]. simpl. lia.
Qed.

(** ** Torn appends *)

(** Whether an append got as far as the last byte of its row. *)
Definition written_whole contents (op : AppendOp) : bool :=
  match item_to_vec (op_item op), op with
  | None, _ => false
  | Some _, Append _ => true
  | Some row, Torn _ k => (length (heal contents (row ++ [NL])) <=? k + 1)%nat
  end.

Fixpoint committed contents (ops : list AppendOp) : list ConversationItem :=
  match ops with
  | [] => []
  | op :: ops' =>
      (if written_whole contents op then [op_item op] else []) ++
      committed (append_step contents op) ops'
  end.

Context {LH : LawfulHistoryApi}.

Lemma row_values_row i row k :
  item_to_vec i = Some row →
  row_values (take k (row ++ [NL])) = if (length row <=? k)%nat then [item_value i] else [].
Proof.
  intros Hr. pose proof (row_no_newline i row Hr) as Hn. pose proof (row_not_empty i row Hr) as He.
  destruct (Nat.leb_spec (length row) k) as [Hk|Hk].
  - assert (row_values row = [item_value i]) as Hv.
    { unfold row_values. rewrite split_no_sep by done. simpl. rewrite (row_trimmed i) by done.
      destruct row eqn:E; [done|]. rewrite <- E in *. simpl.
      rewrite E. simpl. rewrite <- E. by rewrite (row_trimmed i), (row_parses i) by done. }
    destruct (decide (k = length row)) as [->|Hne].
    + by rewrite take_app_length.
    + rewrite take_ge by (rewrite length_app; simpl; lia). by rewrite row_values_end.
  - rewrite take_app_le by lia. unfold row_values. rewrite split_no_sep.
    + simpl. destruct (negb _); [|done]. simpl. by rewrite (row_cut i).
    + intros Hin. apply Hn. by eapply subseteq_take.
Qed.

Lemma row_length i row : item_to_vec i = Some row → (2 ≤ length (row ++ [NL]))%nat.
Proof.
  intros Hr. pose proof (row_not_empty i row Hr). rewrite length_app. simpl.
  destruct row; simpl; [done|lia].
Qed.

Lemma row_values_step contents op :
  row_values (append_step contents op) =
  row_values contents ++ map item_value (if written_whole contents op then [op_item op] else []).
Proof.
  unfold append_step, op_written, written_whole.
  destruct (item_to_vec (op_item op)) as [row|] eqn:Hr; [|simpl; by rewrite !app_nil_r].
  pose proof (row_length _ row Hr) as Hl.
  assert (∀ k, row_values (contents ++ take k (heal contents (row ++ [NL]))) =
    row_values contents ++ map item_value
      (if (length (heal contents (row ++ [NL])) <=? k + 1)%nat then [op_item op] else [])) as Hk.
  { intros k. destruct (row_values_heal contents _ k Hl) as (k' & -> & Hiff). f_equal.
    rewrite (row_values_row _ _ _ Hr). rewrite length_app in Hiff. simpl in Hiff.
    destruct (Nat.leb_spec (length row) k') as [Hle|Hlt].
    - by rewrite (proj2 (Nat.leb_le _ _)) by lia.
    - by rewrite (proj2 (Nat.leb_gt _ _)) by lia. }
  destruct op as [i|i k]; [|apply Hk].
  rewrite <- (take_ge (heal _ _) _ (le_n _)), Hk. simpl op_item.
  by rewrite (proj2 (Nat.leb_le _ _)) by lia.
Qed.

Lemma row_values_all contents ops :
  row_values (append_all contents ops) = row_values contents ++ map item_value (committed contents ops).
Proof.
  unfold append_all. revert contents. induction ops as [|op ops IH]; intros contents; simpl.
  { by rewrite app_nil_r. }
  by rewrite IH, row_values_step, map_app, app_assoc.
Qed.

Lemma row_values_write its contents :
  write_jsonl its = Some contents →
  row_values contents = map item_value its ∧ Forall (λ i, is_Some (item_to_vec i)) its.
Proof.
  revert contents. induction its as [|i its IH]; intros contents E; simpl in E.
  { injection E as <-. split; [apply row_values_nil|constructor]. }
  apply bind_Some in E as (row & Hr & E). apply bind_Some in E as (content & Hw & [= <-]).
  destruct (IH _ Hw) as [Hv Hf]. split; [|by constructor; eauto].
  cbn [app]. rewrite row_values_sep, Hv. simpl.
  pose proof (row_values_row i row (length row) Hr) as Hi.
  rewrite take_app_length, Nat.leb_refl in Hi. by rewrite Hi.
Qed.

Lemma committed_serialized contents ops :
  Forall (λ i, is_Some (item_to_vec i)) (committed contents ops).
Proof.
  revert contents. induction ops as [|op ops IH]; intros contents; simpl; [constructor|].
  apply Forall_app. split; [|done]. unfold written_whole.
  destruct (item_to_vec (op_item op)) eqn:E; [|constructor].
  repeat case_match; constructor; eauto.
Qed.

(** ** Loading what was written *)

Lemma upgrade_current i seen : upgrade_legacy_reasoning (item_value i) seen = ([], seen).
Proof.
  unfold upgrade_legacy_reasoning, json_str.
  rewrite row_no_raw_output, row_no_reasoning, row_no_reasoning_content.
  destruct (negb (json_is_object _)); [done|]. destruct (negb _ && negb _); [done|]. simpl.
  by repeat case_bool_decide.
Qed.

Lemma load_lines version lines st its :
  (CHAT_FORMAT_VERSION ≤ version)%Z → Forall (λ i, is_Some (item_to_vec i)) its →
  omap (λ l, json_from_slice (trim_ascii l))
    (List.filter (λ l, negb (is_empty (trim_ascii l))) lines) = map item_value its →
  ld_items (fold_left (load_line version) lines st) = ld_items st ++ map reload_item its.
Proof.
  intros Hv. revert st its. induction lines as [|l lines IH]; intros st its Hs E; simpl in *.
  { destruct its; [by rewrite app_nil_r|done]. }
  destruct (is_empty (trim_ascii l)) eqn:He; simpl in E.
  { unfold load_line at 2. rewrite He. by apply IH. }
  unfold load_line at 2. rewrite He. destruct (json_from_slice (trim_ascii l)) as [raw|].
  - destruct its as [|i its]; [done|]. simpl in E. injection E as -> E.
    apply Forall_cons in Hs as [[row Hr] Hs].
    unfold decode_row. rewrite (proj2 (Z.leb_le _ _)) by done. rewrite (row_item i row) by done.
    simpl. rewrite upgrade_current, (IH _ its Hs E). simpl. by rewrite <- app_assoc.
  - by rewrite (IH (skip_line st) its Hs E).
Qed.

(** C10: whatever appends were cut short, by a crash or an error, and wherever
    in their bytes, a history of the current format (its version is at least 1) that
    was written whole and appended to loads as its items, in order: those written
    and every one whose append got as far as the end of its row; a torn append
    costs its own item and no other.  On the way an empty model fingerprint becomes
    none, and an image the API would refuse is replaced or dropped. *)
Theorem torn_appends_lose_one_record version its contents ops :
  (CHAT_FORMAT_VERSION ≤ version)%Z → write_jsonl its = Some contents →
  (read_chat_history_sync (Some (append_all contents ops)) version).1 =
  map strip_item_images (map reload_item (its ++ committed contents ops)).
Proof.
  intros Hv Hw. apply row_values_write in Hw as [Hw Hs]. simpl. f_equal.
  rewrite (load_lines version _ _ (its ++ committed contents ops)); [done|done| |].
  - apply Forall_app. split; [done|apply committed_serialized].
  - change (row_values (append_all contents ops) = map item_value (its ++ committed contents ops)).
    by rewrite row_values_all, Hw, map_app.
Qed.

End Rows.

Section Copy.
Context {RS : RsApi} {SM : StreamApi} {WA : WireApi} {HA : HistoryApi}.
Implicit Types (its rest siblings : list ConversationItem) (raw : JsonValue) (seen : gset str).

(** ** Upgraded rows *)

Definition backend_ids its : list str :=
  omap (λ i, match i with BackendToolCall b => Some (bt_id b) | _ => None end) its.

(** What the entries have added to [seen]. *)
Definition fresh_calls seen siblings (seen' : gset str) : Prop :=
  NoDup (backend_ids siblings) ∧ (∀ id, id ∈ backend_ids siblings → id ∉ seen) ∧
  (∀ id, id ∈ seen' ↔ id ∈ seen ∨ id ∈ backend_ids siblings) ∧
  Forall (λ i, is_assistant i = false ∧ is_user i = false ∧ is_tool_result i = false) siblings.

Lemma fresh_calls_nil seen : fresh_calls seen [] seen.
Proof. split_and!; [constructor|set_solver|set_solver|constructor]. Qed.

Lemma fresh_reasoning seen siblings seen' r :
  fresh_calls seen siblings seen' → fresh_calls seen (siblings ++ [Reasoning r]) seen'.
Proof.
  intros (Hn & Hf & Hs & Ha). unfold fresh_calls, backend_ids in *. rewrite omap_app. simpl.
  rewrite app_nil_r. split_and!; [done..|]. apply Forall_app. split; [done|]. by repeat constructor.
Qed.

Lemma fresh_call seen siblings seen' b :
  fresh_calls seen siblings seen' → bt_id b ∉ seen' →
  fresh_calls seen (siblings ++ [BackendToolCall b]) ({[bt_id b]} ∪ seen').
Proof.
  intros (Hn & Hf & Hs & Ha) Hb. unfold fresh_calls, backend_ids in *. rewrite omap_app. simpl.
  rewrite Hs in Hb. split_and!.
  - apply NoDup_app. split_and!; [done|set_solver|]. apply NoDup_singleton.
  - set_solver.
  - set_solver.
  - apply Forall_app. split; [done|]. by repeat constructor.
Qed.

Lemma raw_entries_fresh entries seen siblings seen' :
  fresh_calls seen siblings seen' →
  let '(siblings, seen') := fold_left raw_entry entries (siblings, seen') in
  fresh_calls seen siblings seen'.
Proof.
  revert siblings seen'. induction entries as [|e entries IH]; intros siblings seen' Hf; [done|].
  cbn [fold_left]. unfold raw_entry at 2. destruct (output_item_from_value e) as [o|]; [|by apply IH].
  assert (let '(siblings0, seen'0) := fold_left raw_entry entries
    (match output_backend_call o with
     | None => (siblings, seen')
     | Some b => if decide (bt_id b ∈ seen') then (siblings, seen')
                 else (siblings ++ [BackendToolCall b], {[bt_id b]} ∪ seen')
     end) in fresh_calls seen siblings0 seen'0) as Hb.
  { destruct (output_backend_call o); [|by apply IH]. case_decide; apply IH; [done|].
    by apply fresh_call. }
  destruct o; try exact Hb. apply IH. by apply fresh_reasoning.
Qed.

Lemma reasoning_siblings_fresh seen r : fresh_calls seen (reasoning_siblings r) seen.
Proof. destruct r; [|apply fresh_calls_nil]. apply (fresh_reasoning _ []), fresh_calls_nil. Qed.

(** Bringing a row up to date adds reasoning items and backend calls
    before it and nothing else, and no backend call twice: their ids are
    distinct, none was seen in an earlier row, and just they are noted as
    seen. *)
Theorem upgrade_never_repeats raw seen :
  let '(siblings, seen') := upgrade_legacy_reasoning raw seen in
  fresh_calls seen siblings seen'.
Proof.
  unfold upgrade_legacy_reasoning. cbv zeta.
  destruct (negb (json_is_object raw)); [apply fresh_calls_nil|].
  destruct (negb _ && negb _); [apply fresh_calls_nil|].
  destruct (json_get "raw_output" raw ≫= json_as_array) as [entries|].
  { apply raw_entries_fresh, fresh_calls_nil. }
  destruct (if bool_decide _ then _ else _); [apply reasoning_siblings_fresh|].
  destruct (bool_decide _); [apply reasoning_siblings_fresh|apply fresh_calls_nil].
Qed.

(** ** The cut at the last complete turn *)

Definition in_window (i : ConversationItem) : bool :=
  match i with ToolResult _ | Reasoning _ | BackendToolCall _ => true | _ => false end.

(** The ids of the results up to the next item that is not a result,
    reasoning or a backend call. *)
Fixpoint window_ids rest : list str :=
  match rest with
  | ToolResult tr :: rest' => tr_tool_call_id tr :: window_ids rest'
  | (Reasoning _ | BackendToolCall _) :: rest' => window_ids rest'
  | _ => []
  end.

(** Every call has its result in its window. *)
Definition turns_complete its : Prop :=
  ∀ k a id, its !! k = Some (Assistant a) → id ∈ call_ids a → id ∈ window_ids (drop (S k) its).

Definition closes (i : ConversationItem) : bool :=
  match i with System _ | Assistant _ => true | _ => false end.

Definition nothing_closes its (from to : nat) : Prop :=
  ∀ k i, (from ≤ k < to)%nat → its !! k = Some i → closes i = false.

Lemma window_ids_app l m id : id ∈ window_ids l → id ∈ window_ids (l ++ m).
Proof. induction l as [|[] l IH]; simpl; set_solver. Qed.

Lemma answer_window_spec expected rest :
  let '(n, found) := answer_window expected rest in
  (n ≤ length rest)%nat ∧ window_ids (take n rest) = window_ids rest ∧
  Forall (λ i, in_window i = true) (take n rest) ∧
  (∀ id, id ∈ found ↔ id ∈ expected ∧ id ∈ window_ids rest).
Proof.
  induction rest as [|[s|u|a|t|b|r] rest IH]; simpl;
    try (split_and!; [lia|done|constructor|set_solver]; fail);
    destruct (answer_window expected rest) as [n found]; destruct IH as (Hl & Hw & Hf & Hi);
    simpl; rewrite ?Hw; (split_and!; [lia|done|by constructor|]); [|set_solver..].
  intros id. case_decide; set_solver.
Qed.

Lemma turns_complete_extend its last n :
  turns_complete (take last its) → nothing_closes its last n → (last ≤ n)%nat →
  ∀ k a id, (k < n)%nat → its !! k = Some (Assistant a) → id ∈ call_ids a →
  ∀ m, (n ≤ m)%nat → id ∈ window_ids (drop (S k) (take m its)).
Proof.
  intros Hc Hno Hl k a id Hk Ha Hid m Hm. destruct (decide (k < last)%nat) as [Hlt|Hge].
  - assert (take m its = take last its ++ drop last (take m its)) as E.
    { rewrite <- (take_drop last (take m its)) at 1. by rewrite take_take, Nat.min_l by lia. }
    rewrite E. pose proof (lookup_lt_Some _ _ _ Ha).
    rewrite drop_app_le by (rewrite length_take; lia). apply window_ids_app.
    apply (Hc k a); [|done]. by rewrite lookup_take_lt.
  - specialize (Hno k _ ltac:(lia) Ha). discriminate.
Qed.

(** Where the scan stops: after its result no turn is closed, up to the end
    or up to a call without its result. *)
Definition stops_at its (n : nat) : Prop :=
  nothing_closes its n (length its) ∨
  ∃ k a id, (n ≤ k)%nat ∧ its !! k = Some (Assistant a) ∧ id ∈ call_ids a ∧
    id ∉ window_ids (drop (S k) its) ∧ nothing_closes its n k.

Lemma fork_scan_spec fuel its i last :
  (last ≤ i)%nat → (length its < fuel + i)%nat → turns_complete (take last its) →
  nothing_closes its last i →
  turns_complete (take (fork_scan fuel its i last) its) ∧
  stops_at its (fork_scan fuel its i last).
Proof.
  revert i last. induction fuel as [|fuel IH]; intros i last Hl Hf Hc Hno; simpl.
  { split; [done|]. left. intros k j Hk. apply Hno. lia. }
  destruct (its !! i) as [item|] eqn:Ei.
  2:{ split; [done|]. left. intros k j Hk. apply Hno. apply lookup_ge_None in Ei. lia. }
  assert (closes item = false → nothing_closes its last (S i)) as Hskip.
  { intros Hi k j Hk Ej. destruct (decide (k = i)) as [->|]; [congruence|]. apply (Hno k); [lia|done]. }
  assert (∀ n, nothing_closes its n n) as Hnil by (intros n k j Hk; lia).
  destruct item as [s|u|a|t|b|r]; try (apply IH; [lia|lia|done|by apply Hskip]; fail).
  - apply IH; [lia|lia| |apply Hnil]. intros k a id Ea Hid.
    pose proof (lookup_lt_Some _ _ _ Ea) as Hk. rewrite length_take in Hk.
    rewrite lookup_take_lt in Ea by lia. assert (k ≠ i) by congruence.
    apply (turns_complete_extend its last i Hc Hno Hl k a); [lia|done|done|lia].
  - pose proof (answer_window_spec (list_to_set (map tc_id (a_tool_calls a))) (drop (S i) its)) as Hw.
    destruct (answer_window _ (drop (S i) its)) as [n found]. destruct Hw as (Hn & Hw & Hin & Hfound).
    rewrite length_drop in Hn. pose proof (lookup_lt_Some _ _ _ Ei).
    destruct (decide (found = list_to_set (map tc_id (a_tool_calls a)))) as [Hall|Hmiss].
    + apply IH; [lia|lia| |apply Hnil]. intros k a' id Ea Hid.
      pose proof (lookup_lt_Some _ _ _ Ea) as Hk. rewrite length_take in Hk.
      rewrite lookup_take_lt in Ea by lia. destruct (Nat.lt_trichotomy k i) as [Hlt|[->|Hgt]].
      * apply (turns_complete_extend its last i Hc Hno Hl k a'); [lia|done|done|lia].
      * assert (a' = a) as -> by congruence.
        change (S (i + n)) with (S i + n)%nat. rewrite <- take_drop_commute, Hw. apply Hfound.
        rewrite Hall. by apply elem_of_list_to_set.
      * exfalso. rewrite Forall_lookup in Hin. specialize (Hin (k - S i)%nat (Assistant a')).
        rewrite lookup_take_lt, lookup_drop in Hin by lia.
        replace (S i + (k - S i))%nat with k in Hin by lia. by specialize (Hin Ea).
    + split; [done|]. right.
      destruct (decide (Exists (λ id, id ∉ window_ids (drop (S i) its)) (call_ids a))) as [Hex|Hno'].
      * apply Exists_exists in Hex as (id & Hid & Hni). by exists i, a, id.
      * exfalso. apply Hmiss. apply set_eq. intros id. rewrite Hfound, elem_of_list_to_set.
        split; [by intros [? ?]|]. intros Hid. split; [done|].
        destruct (decide (id ∈ window_ids (drop (S i) its))) as [|Hni]; [done|].
        exfalso. apply Hno', Exists_exists. by exists id.
Qed.

(** C22: the history of a fork is a prefix of the messages that are not
    synthetic, in which every tool call has its result in the results,
    reasoning and backend calls right after its assistant item.  It is as long
    as it can be: after it come no system or assistant item at all, or none
    before an assistant item with a call that has no such result. *)
Theorem fork_filter_keeps_complete_turns its :
  let kept := List.filter not_synthetic its in
  ∃ n, fork_filter_chat its = take n kept ∧ turns_complete (take n kept) ∧ stops_at kept n.
Proof.
  cbv zeta. unfold fork_filter_chat. set (kept := List.filter not_synthetic its).
  exists (fork_scan (S (length kept)) kept 0 0). split; [done|].
  apply fork_scan_spec; [lia|lia| |].
  - intros k a id Ea. rewrite take_0 in Ea. done.
  - intros k j Hk. lia.
Qed.

End Copy.

(** ** The cut of the updates *)

(** The positions of the chunks that open a counted turn. *)
Fixpoint openings (t : UserRunTurnTracker) (i : nat) (updates : list Update) : list nat :=
  match updates with
  | [] => []
  | UserChunk pi :: updates' =>
      (if (on_user_chunk t pi).2 then [i] else []) ++
      openings (on_user_chunk t pi).1 (S i) updates'
  | OtherUpdate :: updates' => openings (on_non_user t) (S i) updates'
  end.

Lemma updates_truncate_loop_spec t count i target updates :
  (count ≤ target + 1)%nat →
  updates_truncate_loop t count i target updates =
  default (i + length updates)%nat (openings t i updates !! (target + 1 - count)%nat).
Proof.
  revert t count i. induction updates as [|[pi|] updates IH]; intros t count i Hc; simpl.
  - lia.
  - destruct (on_user_chunk t pi) as [t' opens]. simpl.
    replace (i + S (length updates))%nat with (S i + length updates)%nat by lia.
    destruct opens; cbn [app]; [|by apply IH].
    destruct (Nat.ltb_spec (target + 1) (S count)) as [Hlt|Hge].
    + by replace (target + 1 - count)%nat with 0%nat by lia.
    + rewrite IH by lia.
      by replace (target + 1 - count)%nat with (S (target + 1 - S count)) by lia.
  - replace (i + S (length updates))%nat with (S i + length updates)%nat by lia.
    by apply IH.
Qed.

(** The updates are cut where the turn after the target one opens, the
    chunk with number [target + 1] among those that open a counted turn, or
    nowhere if there is none: the target turn is kept. *)
Theorem updates_truncate_exact updates target :
  updates_truncate_for_prompt updates target =
  default (length updates) (openings tracker_new 0 updates !! (target + 1)%nat).
Proof.
  unfold updates_truncate_for_prompt. rewrite updates_truncate_loop_spec by lia.
  by rewrite Nat.sub_0_r.
Qed.

(** ** Examples *)

Definition demo_prompt (n : Z) (text : string) : ConversationItem :=
  User {| u_content := [Text (lit text)]; u_synthetic_reason := None;
          u_prior_turn_interrupt := None; u_prompt_index := Some n |}.

(** A copy at a prompt keeps that prompt's turn among the updates and drops it
    from the history. *)
Theorem copy_cuts_differ :
  let conv := [item_system (lit "sys"); demo_prompt 0 "first"; demo_assistant "ok";
               demo_prompt 1 "second"; demo_assistant "ok"] in
  let updates := [UserChunk (Some 0%nat); OtherUpdate; UserChunk (Some 1%nat); OtherUpdate] in
  take (conversation_truncate_for_prompt conv 0) conv = [item_system (lit "sys")] ∧
  take (updates_truncate_for_prompt updates 0) updates = [UserChunk (Some 0%nat); OtherUpdate].
Proof. by vm_compute. Qed.

(** A directory whose name goes on after the working directory's is taken for
    a part of it. *)
Theorem sibling_paths_rewritten :
  transform_conversation_cwd [item_user (lit "see /src/repo2/a.rs")] (lit "/src/repo") (lit "/tmp/w") =
  [item_user (lit "see /tmp/w2/a.rs")].
Proof. by vm_compute. Qed.

(** Rows: a user's message of small letters in braces. *)
Definition is_small (c : Z) : bool := in_range 97 122 c.

Definition demo_row (i : ConversationItem) : option bytes :=
  match i with
  | User {| u_content := [Text t]; u_synthetic_reason := None; u_prior_turn_interrupt := None;
            u_prompt_index := None |} =>
      if forallb is_small t then Some (123%Z :: t ++ [125%Z]) else None
  | _ => None
  end.

Definition demo_parse (bs : bytes) : option str :=
  match bs with
  | x :: r =>
      match rev r with
      | y :: t => if (x =? 123)%Z && (y =? 125)%Z && forallb is_small t then Some bs else None
      | [] => None
      end
  | [] => None
  end.

#[global] Instance demo_history : HistoryApi := {
  json_from_slice := demo_parse;
  json_get _ _ := None;
  json_as_str _ := None;
  json_is_object _ := true;
  json_as_array _ := None;
  item_to_vec := demo_row;
  item_value i := default [] (demo_row i);
  item_from_value v := Some (item_user (removelast (tail v)));
  chat_from_value _ := None;
  output_item_from_value _ := None;
  base64_decode _ := None;
}.

Lemma demo_row_inv i v :
  demo_row i = Some v → ∃ t, i = item_user t ∧ v = 123%Z :: t ++ [125%Z] ∧ forallb is_small t = true.
Proof.
  destruct i as [|[ [|[t|] [|] ] [] [] [] ]| | | |]; try done. simpl.
  destruct (forallb is_small t) eqn:E; [|done]. intros [= <-]. eauto.
Qed.

Lemma small_not_space c : is_small c = true → is_ascii_space c = false.
Proof. unfold is_small, in_range, is_ascii_space. lia. Qed.

Lemma trim_ascii_id bs :
  Forall (λ c, is_ascii_space c = false) bs → trim_ascii bs = bs.
Proof.
  intros Hb. unfold trim_ascii, trim_end_matches, trim_start_matches.
  rewrite (proj2 (drop_while_id _ bs)).
  - rewrite (proj2 (drop_while_id _ (rev bs))); [by rewrite rev_involutive|].
    intros x Hx. rewrite head_rev in Hx. rewrite Forall_forall in Hb. apply Hb.
    by apply last_Some_elem_of.
  - intros x Hx. destruct Hb; [done|]. by injection Hx as <-.
Qed.

Lemma row_no_space t :
  forallb is_small t = true → Forall (λ c, is_ascii_space c = false) (123%Z :: t ++ [125%Z]).
Proof.
  intros Ht. constructor; [done|]. apply Forall_app. split; [|by repeat constructor].
  rewrite Forall_forall. intros c Hc. apply small_not_space.
  rewrite forallb_forall in Ht. apply Ht. by apply list_elem_of_In.
Qed.

#[global] Instance demo_history_lawful : LawfulHistoryApi.
Proof.
  split; try done.
  - intros i v (t & -> & -> & Ht)%demo_row_inv Hin.
    pose proof (row_no_space t Ht) as Hf. rewrite Forall_forall in Hf. by specialize (Hf NL Hin).
  - intros i v (t & -> & -> & Ht)%demo_row_inv. by apply trim_ascii_id, row_no_space.
  - by intros i v (t & -> & -> & Ht)%demo_row_inv.
  - intros i v (t & -> & -> & Ht)%demo_row_inv. simpl. rewrite Ht. simpl.
    rewrite rev_app_distr. simpl. rewrite forallb_forall in Ht.
    rewrite (proj2 (forallb_forall _ _)); [done|]. intros c Hc. apply Ht. by apply in_rev.
  - intros i v k (t & -> & -> & Ht)%demo_row_inv Hk. simpl in Hk. rewrite length_app in Hk.
    simpl in Hk. rewrite trim_ascii_id.
    + destruct k as [|k]; [done|]. cbn [take]. rewrite take_app_le by lia. simpl.
      destruct (rev (take k t)) as [|y r] eqn:E; [done|].
      assert (is_small y = true) as Hy.
      { rewrite forallb_forall in Ht. apply Ht. apply list_elem_of_In.
        apply (subseteq_take k). apply list_elem_of_In, in_rev. rewrite E. by left. }
      replace (y =? 125)%Z with false by (unfold is_small, in_range in Hy; lia). done.
    + apply Forall_take. by apply row_no_space.
  - intros i v (t & -> & -> & Ht)%demo_row_inv. simpl. rewrite Ht. simpl.
    by rewrite removelast_last.
Qed.

(** Two messages written, one torn after its first three bytes and one torn
    just before its newline, then one more. *)
Definition demo_ops : list AppendOp :=
  [Torn (item_user (lit "lost")) 3; Torn (item_user (lit "kept")) 7; Append (item_user (lit "next"))].

Lemma torn_appends_lose_one_record_witness :
  (read_chat_history_sync (Some (append_all (lit "{one}" ++ NL :: lit "{two}" ++ [NL]) demo_ops)) 1).1 =
  map strip_item_images (map reload_item
    ([item_user (lit "one"); item_user (lit "two")] ++
     committed (lit "{one}" ++ NL :: lit "{two}" ++ [NL]) demo_ops)).
Proof.
  apply (torn_appends_lose_one_record 1 [item_user (lit "one"); item_user (lit "two")]).
  - unfold CHAT_FORMAT_VERSION. lia.
  - vm_compute. reflexivity.
Defined.

Example demo_committed :
  committed (lit "{one}" ++ [NL]) demo_ops = [item_user (lit "kept"); item_user (lit "next")].
Proof. by vm_compute. Qed.
